(* ===== verification/_CoqProject ===== *)
-Q . S2P
Prelude.v
AsmBytes.v
AsmOperand.v
X86Encode.v
AsmState.v
AsmEmit.v
AsmParse.v
X86Spec.v
ElfObject.v
ElfRead.v
Topo.v
DagBuild.v
FlatLayout.v
GloriaLex.v
GloriaCode.v
GloriaEmit.v
GloriaMach.v
GloriaLang.v
GloriaPeephole.v
GloriaCompile.v
GloriaCorrect.v
GloriaFacts.v
GoStrings.v
GoPath.v
FzpExpr.v
FzpScan.v
FzpProcess.v
FzpLines.v
FzpDoc.v
FzpFacts.v
RingQueue.v
DagScheduler.v
MpscQueue.v
SpscQueue.v
SyncPrims.v
PriorityQueue.v
LfQueue.v
Bb64.v
BoomScan.v
BoomTree.v
BoomFacts.v
BoomPool.v
ActionCache.v
ConfigTypes.v
ConfigVars.v
ConfigOps.v
ConfigMerge.v
ConfigFacts.v
ConfigLoad.v
LoadFacts.v
Utils.v
LinkSymbols.v
LinkArgs.v
LinkDriver.v
LinkFacts.v
DepFile.v
BuildRules.v
BuildTasks.v
Reverse.v
DepSteps.v
MakeVars.v
Seal.v
