(* ===== verification/Prelude.v ===== *)
(** * ForgeZero: a verification library for the build tool's own logic

    ForgeZero is a build tool written in Go. This library models the parts of
    it that compute and decide: its configuration and preprocessor, its
    built-in x86 assembler and Gloria compiler, the order and the caches of a
    build, its rules and tasks, the linker driver, the hashes, and the queues
    and schedulers under them. The code is translated function by function; Go
    slices are lists, Go integers are [Z] with their wrap-around written out,
    and a function that can fail, panic or run for ever returns an [outcome]
    (below). Concurrent code is a step relation. Where it is built on atomic
    operations (drivers) every access to shared memory is a step; where it is
    built on mutexes and condition variables ([DagBuild], [DagScheduler],
    [BoomPool]) a step is a region under the mutex, and waiting and being woken
    are steps of their own; in [DepSteps] a step is a command, a look into the
    cache or a store, and the pieces of different goroutines interleave, while
    the single file accesses of one look or one store do not.

    ** The parts and their files

    All sources are under src/internal.

    - Shared: [Prelude] (this file): results, bytes and words, little-endian
      encodings, scans of lists, tactics. [GoStrings] and [GoPath] are the
      functions of strings, strconv and path/filepath that the code calls.
    - Assembler (assembler), from source text to an ELF object: [AsmBytes]
      (bytesutil.go), [AsmOperand] (x86.go: parseOperand, parseRegister),
      [X86Encode] (x86.go: ModRM, SIB, memory operands), [AsmState]
      (emitter.go, section_helpers.go: the record [parser] is the Go struct),
      [AsmEmit] (x86.go: one definition per emitter), [AsmParse] (emitter.go:
      directives, parseLine, [assemble] is the line loop of emitSourceObject),
      [ElfObject] (emitter.go: emit and the writers of headers and tables).
      [X86Spec] and [ElfRead] are specifications: an instruction decoder and a
      reader of ELF objects, both written independently of the code.
    - Gloria (gloria), a compiler from a small language to x86 code:
      [GloriaLex] (lexer.go, types.go), [GloriaCode] (codegen.go and the
      templates: the writers of instructions), [GloriaEmit] (emitter.go,
      state.go, fn.go: the compiler in a state-and-error monad [M]).
      [GloriaMach] (a decoder and machine for the emitted instructions) and
      [GloriaLang] (syntax, meaning and reference code generator of the core
      language) are specifications; [GloriaPeephole], [GloriaCompile],
      [GloriaCorrect] and [GloriaFacts] hold the proofs.
    - FZP preprocessor (fzp): [FzpExpr] (lexer.go: the expressions of #if),
      [FzpScan] (scanner.go, scanner_amd64.go and .s: the block scanners),
      [FzpProcess] (processor.go: [Processor] is the Go struct, [world] what
      the operating system gives). [FzpLines] and [FzpDoc] give the meaning of
      a text as lines and as nested conditionals, [FzpFacts] the rest.
    - Configuration (config, variables): [ConfigTypes] (the structs),
      [ConfigVars] (variables_config.go: expansion), [ConfigOps] and
      [ConfigMerge] (config.go: expansion of every field, defaults,
      [Validate], [Merge], flags, overrides, templates), [ConfigLoad]
      (parsing, includes, parse_cache.go, fzp.go, the default files). What the
      package asks of the process is the record [host]; the TOML, YAML and gob
      decoders are parameters. Proofs in [ConfigFacts] and [LoadFacts].
    - Builder (builder): [Topo] and [DagBuild] (graph.go: topoSort,
      remapDependencies, runDAGBuild as the relation [step] on [dag]);
      [ActionCache] (action_cache.go and the step cache of
      dep_build_steps.go; the hashes are parameters); [DepFile]
      (utils/deps.go), [BuildRules] (rules.go), [BuildTasks] (tasks.go), whose
      commands are functions on the files and whose scheduler gives the order;
      [DepSteps] (dep_build_steps.go, autodeps.go: the steps that build a
      dependency, each a program of commands, looks and stores, in sequences
      and parallel groups); [MakeVars]
      (makefile_parse.go: variables, flags and sources of a makefile).
    - Import (reverse): [Reverse] (config_reverse.go: a configuration from a
      Makefile or CMakeLists.txt).
    - Linker (linker, zig): [FlatLayout] (flat_layout.go, forge/nexus.go),
      [LinkSymbols] (symbols.go: the readers of nm, objdump and readelf, the
      records on disk, the check), [LinkArgs] (the pure parts: targets,
      arguments, splitting, response files), [LinkDriver] (link.go,
      link_objects.go, parallel.go, flat.go, runner.go, zig.go: the monad [L]
      keeps a log of what was done, and what a tool answers may depend on it).
      [LinkFacts] holds Hoare triples over the log.
    - Utilities (utils): [Utils] (utils.go, security.go), [Bb64] (bb64.go and
      .s, forge/hash_scalar.go), [BoomScan], [BoomTree], [BoomPool]
      (boomboom.go: the chunks of a source, the incremental digest with the
      arrays it reuses, the workers with the condition variable on which they
      and their callers sleep) with [BoomFacts].
    - Seal (seal): [Seal] (seal.go: the digests of an installation, the journal
      of events), what it asks of Linux being the record [system].
    - Drivers (drivers): [RingQueue] (scheduler/queue.go, intqueue.go),
      [DagScheduler] (dag_scheduler.go, with what one Run leaves to the next),
      [MpscQueue] and [SpscQueue] (chan),
      [SyncPrims] (semaphore, spin lock, once), [PriorityQueue], [LfQueue].

    ** How the parts interact

    The class [BoundedQueue] of [RingQueue] is what the scheduler needs of
    its ready queue; the instances are the atomic queue [spec_queue] and the
    ring [ring_queue] of [RingQueue], so the theorems on the scheduler hold for
    the queue the code uses. [BuildRules] and [BuildTasks] hand their graphs to
    the Submit of [DagScheduler]; [BuildTasks] fingerprints with the key of
    [ActionCache]. [ConfigLoad] calls [FzpProcess] for FZP files, and
    the rules and tasks are those of [ConfigTypes]. [LinkDriver] lays flat
    images out with [FlatLayout] and scrubs with [Utils].

    ** What the theorems show

    - Assembler: assembling any input terminates in a consistent state and
      panics only on lines with tokens longer than sixteen bytes
      ([assemble_safe], [parseLine_extends]); the bytes of an instruction
      decode to the instruction that the text asks for, for the 64-bit registers
      rax to rdi ([two_operand_correct], [one_operand_correct],
      [writeMemOperand_correct]), with the exceptions the code has
      ([widths_are_lost], [arith_immediate_is_add], [shift_immediate_stray],
      [scale_never_encoded]); the 64-bit object reads back to the sections, the
      symbols and the relocations of .text ([elf64_roundtrip]), other
      relocations are dropped ([data_relocation_dropped]), and the 32-bit object
      can be cut off ([elf32_headers_truncated]); numbers, arguments, operands, alignment
      ([parseNumber_correct], [splitArgs_roundtrip],
      [parseOperand_roundtrip], [alignOut_correct]).
    - Gloria: from source text to the value in rax, the compiled code of a
      core-language program computes what the program means
      ([gloria_correct]); the lexer inverts printing ([lex_roundtrip]); and
      where the compiler goes wrong ([unclosed_lists_hang],
      [assign_var_stores_rax], [late_parameters_move_rbp]).
    - FZP: text with conditionals is processed to its meaning
      ([conditionals_correct]), expressions without && and || to their value
      ([expression_value]), with all comparisons on one level
      ([comparisons_one_level]); only files under the allowed directories matter
      ([Process_contained]); includes end ([Process_terminates]); both block
      scanners agree ([scanners_agree]).
    - Configuration: a validated configuration meets every constraint
      ([Validate_valid]); templates expand to their meaning
      ([ExpandString_template]); merges keep the sources in one form
      ([sources_one_form]); loading ends and succeeds only without cycles
      ([includes_acyclic]); the caches are transparent while the files stay
      ([caches_transparent]) and not when an include changes
      ([include_changes_unnoticed]); the order of the default files
      ([LoadMerged_order], [last_file_decides]).
    - Builder: [topoSort_decides], [remapDependencies_correct]; for every
      interleaving of the concurrent build [dag_result],
      [dag_dependencies_first], [dag_terminates]; the action cache gives back
      what was stored ([store_restore_hit], [archive_roundtrip],
      [l1_refines_map]); where the commands of the rules leave them up to
      date, dependency files included, a second build runs nothing, and a build
      that runs nothing has found every rule up to date ([second_build_idle]), rules must be listed in order
      ([rules_listed_in_order]), commands read back as the names
      ([shellJoin_roundtrip], [expandRuleAction_template]); tasks run exactly
      when they have to ([executeTask_current]) and each in one stage
      ([task_order_stages]); dependency files as compilers
      quote them, up to the escapes the reader does not know
      ([ParseDepFile_roundtrip], [ParseDepFile_other_escapes]);
      the steps of a body run up to the first that fails
      ([sequence_meaning]), a parallel group ends with every step ended once,
      in any interleaving of their pieces, and gives what the steps give one
      after the other when they are apart
      ([parallel_group_once], [group_order_stages]); makefile
      variables are what the assignments say, other lines are passed over ([parseMakefileVars_assignments],
      [discoverMakefileSources_files]).
    - Import: a makefile of variables gives its configuration
      ([ReverseMakefile_roundtrip], [ReverseMakefile_variables]); which lines
      of a CMake file panic ([ReverseCMake_panics]).
    - Linker: a link without an error has run tools to success on all objects
      in order ([LinkMultipleParallel_links]); splitting
      ([splitObjects_bounds]); response files ([response_file_roundtrip]);
      duplicate symbols, from the tables that nm prints
      ([CheckDuplicateSymbols_spec], [symbol_cache_transparent]), with the
      readers' mistakes shown ([constants_unchecked]); flat images ([naked_layout_image],
      [EmitFlatBinary_image]).
    - Utilities: all routines of the hash agree ([bb64_routines_agree]); the
      chunks cover a source ([scanBoomBoom_covers]); the incremental digest is
      the digest from nothing ([boomboom_digest]), under the conditions whose
      failures are shown; its workers finish with the result of the loop, and no
      worker or caller sleeps for ever ([leaf_workers_correct]); scrubbing leaves no host root
      ([ScrubHostPaths_clean]).
    - Seal: a seal is accepted exactly while the digest is the same, and allows
      the files of the directory ([seal_verify]), the half-written seal file
      among them ([Seal_digests_itself]); the journal is a ring
      ([journal_window]), the list of
      allowed digests is not protected ([Verify_unauthenticated]), and the loop
      that reads what cannot be mapped never ends ([read_loop_diverges]).
    - Drivers: the rings and the single-producer queue are linearizable
      ([ring_queue_linearizable], [spsc_linearizable]); the first run of a
      scheduler starts each task at most once, behind its dependencies
      ([dag_scheduler_order]), a second one forgets the dependencies
      ([second_run_ignores_dependencies]); the
      growing queue is a queue ([mpsc_is_queue]).

    ** Fuel

    A recursion that is not structural takes fuel and yields [Diverge] without
    it. The assembler's line loop and the Gloria lexer take the bytes left plus
    one, the Gloria compiler's loops and the expression parser of FZP the
    tokens left plus one, Kahn's loop the nodes plus one, includes of FZP one
    level per readable file, includes of the configuration the files plus two
    ([include_fuel]), the reader of dependency files the bytes plus one,
    sequences of steps the number of steps; the loops over a text take its
    length, and the rounds of [ExpandString] are the
    ten of the code. Capacities double at most 64 times. The theorems on
    totality ([assemble_safe], [topoSort_decides], [gloria_correct],
    [Process_terminates], [includes_acyclic], [ParseDepFile_total]) show that
    [Diverge] does not happen; [unclosed_lists_hang] and
    [read_loop_diverges] are the exceptions of the code itself and hold for
    every fuel. The runs of machines and of
    goroutines are relations; [gloria_correct], [dag_terminates] and
    [leaf_workers_correct] state that finishing runs exist or that no run is
    infinite.

    ** Assumptions

    Theorems name their hypotheses. Slices are values, except where the code
    observes that two share an array: the hashers of [BoomTree] and the pools
    of [SpscQueue] and [LfQueue] are modelled with their stores. The queues'
    64-bit positions are assumed not to wrap within a history ([no_wrap]). In
    [ActionCache] the cache files are kept apart from the files of the build,
    and system calls that write succeed. In [ConfigLoad] a file is known by the
    path it is asked for by; in [Seal] writing the seal file succeeds once it is
    open, and it has no other name. In [BuildRules], [BuildTasks] and [LinkDriver] a
    command is a function, on the files or on the log of what was done; the
    words of a response file are read as the tools document it
    (hypothesis on [expand_argv]), those of a command as the POSIX shell reads
    them ([shell_words]). Messages, progress output and time limits are left
    out.

    ** Not modelled

    PROJECT.json lists every part with its status. Left out are the parts that
    call the operating system or other programs and decide little: the drivers
    of external assemblers, the scan of source trees and the compile loop of
    builder.go, file system and io_uring wrappers, watching, sandboxing,
    networked package handling, the command line and editor front ends; worker
    pools whose content is a loop with sleeps; and the bodies of vector
    routines other than the hash and the block scanner (their Go fallbacks are
    modelled). *)
From Stdlib Require Export ZArith Lia String Ascii.
From stdpp Require Export base gmap strings option.
From stdpp Require Export list.
#[global] Open Scope Z_scope.

(** ** Results of a Go function

    [Ok a]: the function returns [a] and a nil error; [Err e]: it returns a
    non-nil error whose text is [e]; [Panic]: the Go runtime aborts (index or
    slice bounds, division by zero); [Diverge]: the fuel of the model ran out,
    which the theorems show either impossible or a genuine non-termination. *)
Inductive outcome (A : Type) : Type :=
  | Ok (a : A)
  | Err (e : string)
  | Panic
  | Diverge.
Arguments Ok {A} _.
Arguments Err {A} _.
Arguments Panic {A}.
Arguments Diverge {A}.

#[export] Instance outcome_ret : MRet outcome := fun A a => Ok a.
#[export] Instance outcome_bind : MBind outcome := fun A B f m =>
  match m with
  | Ok a => f a
  | Err e => Err e
  | Panic => Panic
  | Diverge => Diverge
  end.
#[export] Instance outcome_fmap : FMap outcome := fun A B f m =>
  match m with
  | Ok a => Ok (f a)
  | Err e => Err e
  | Panic => Panic
  | Diverge => Diverge
  end.

#[export] Instance outcome_eq_dec {A} `{EqDecision A} : EqDecision (outcome A).
Proof. solve_decision. Defined.

Definition is_ok {A} (m : outcome A) : Prop := ∃ a, m = Ok a.

(** The function returned, with a value or with an error. *)
Definition returns {A} (m : outcome A) : Prop :=
  match m with Ok _ | Err _ => True | _ => False end.

(** [post P m]: if [m] returns a value, the value satisfies [P], and [m]
    neither panics nor diverges. *)
Definition post {A} (P : A → Prop) (m : outcome A) : Prop :=
  match m with Ok a => P a | Err _ => True | _ => False end.

Lemma bind_Ok {A B} (m : outcome A) (f : A → outcome B) b :
  m ≫= f = Ok b ↔ ∃ a, m = Ok a ∧ f a = Ok b.
Proof. split; [destruct m; cbn; naive_solver | intros (a & -> & Hf); done]. Qed.

Lemma post_bind {A B} (P : A → Prop) (Q : B → Prop) m (f : A → outcome B) :
  post P m → (∀ a, P a → post Q (f a)) → post Q (m ≫= f).
Proof. destruct m; cbn; naive_solver. Qed.

Lemma post_impl {A} (P Q : A → Prop) m : post P m → (∀ a, P a → Q a) → post Q m.
Proof. destruct m; cbn; naive_solver. Qed.

Lemma post_Ok {A} (P : A → Prop) m a : post P m → m = Ok a → P a.
Proof. intros Hp ->. exact Hp. Qed.

Lemma post_returns {A} (P : A → Prop) m : post P m → returns m.
Proof. by destruct m. Qed.

Lemma post_True {A} (m : outcome A) : returns m ↔ post (fun _ => True) m.
Proof. by destruct m. Qed.

(** [ensures S P m]: like [post], except that [m] may panic when the
    condition [S] on the input fails. *)
Definition ensures {A} (S : Prop) (P : A → Prop) (m : outcome A) : Prop :=
  match m with Ok a => P a | Err _ => True | Panic => ¬ S | Diverge => False end.

Lemma ensures_bind {A B} S (P : A → Prop) (Q : B → Prop) m (f : A → outcome B) :
  ensures S P m → (∀ a, P a → ensures S Q (f a)) → ensures S Q (m ≫= f).
Proof. destruct m; cbn; naive_solver. Qed.

Lemma ensures_post {A} S (P : A → Prop) m : post P m → ensures S P m.
Proof. destruct m; cbn; naive_solver. Qed.

Lemma ensures_impl {A} S (P Q : A → Prop) m :
  ensures S P m → (∀ a, P a → Q a) → ensures S Q m.
Proof. destruct m; cbn; naive_solver. Qed.

Lemma ensures_Ok {A} S (P : A → Prop) m a : ensures S P m → m = Ok a → P a.
Proof. intros Hp ->. exact Hp. Qed.

(** ** Bytes and machine words

    A byte is a [Z] in [0, 256); a byte slice is a list of them.  Words of
    width [w] are [Z] in [0, 2^w), the Go conversions wrap explicitly. *)
Abbreviation bytes := (list Z).

Definition wrap (w z : Z) : Z := z mod 2 ^ w.
Definition swrap (w z : Z) : Z := (z + 2 ^ (w - 1)) mod 2 ^ w - 2 ^ (w - 1).
Abbreviation u8 := (wrap 8).
Abbreviation u16 := (wrap 16).
Abbreviation u32 := (wrap 32).
Abbreviation u64 := (wrap 64).
Abbreviation i32 := (swrap 32).
Abbreviation i64 := (swrap 64).
Definition max_uint64 : Z := 2 ^ 64 - 1.

Definition is_byte (b : Z) : Prop := 0 ≤ b < 256.
Definition is_word (w z : Z) : Prop := 0 ≤ z < 2 ^ w.

#[export] Instance is_byte_dec b : Decision (is_byte b).
Proof. unfold is_byte. apply _. Defined.
#[export] Instance is_word_dec w z : Decision (is_word w z).
Proof. unfold is_word. apply _. Defined.

Lemma wrap_range w z : 0 ≤ w → is_word w (wrap w z).
Proof. intros. apply Z.mod_pos_bound. lia. Qed.

Lemma wrap_small w z : is_word w z → wrap w z = z.
Proof. apply Z.mod_small. Qed.

Lemma swrap_small w z : 0 < w → - 2 ^ (w - 1) ≤ z < 2 ^ (w - 1) → swrap w z = z.
Proof.
  intros Hw Hz. unfold swrap.
  assert (2 ^ w = 2 * 2 ^ (w - 1)) by (rewrite <- Z.pow_succ_r by lia; f_equal; lia).
  rewrite Z.mod_small; lia.
Qed.

Lemma swrap_range w z : 0 < w → - 2 ^ (w - 1) ≤ swrap w z < 2 ^ (w - 1).
Proof.
  intros Hw. unfold swrap.
  assert (2 ^ w = 2 * 2 ^ (w - 1)) by (rewrite <- Z.pow_succ_r by lia; f_equal; lia).
  pose proof (Z.mod_pos_bound (z + 2 ^ (w - 1)) (2 ^ w) ltac:(lia)). lia.
Qed.

Lemma swrap_wrap w z : 0 < w → swrap w (wrap w z) = swrap w z.
Proof. intros. unfold swrap, wrap. by rewrite Zplus_mod_idemp_l. Qed.

(** The byte of a character and the bytes of a string literal. *)
Definition byte_of_ascii (a : ascii) : Z := Z.of_N (N_of_ascii a).

Fixpoint bytes_of_string (s : string) : bytes :=
  match s with
  | EmptyString => []
  | String a s' => byte_of_ascii a :: bytes_of_string s'
  end.

(** The string with the given bytes. *)
Fixpoint string_of_bytes (l : bytes) : string :=
  match l with
  | [] => EmptyString
  | c :: r => String (ascii_of_N (Z.to_N c)) (string_of_bytes r)
  end.

Definition chr_of (s : string) : Z :=
  match s with String a _ => byte_of_ascii a | EmptyString => 0 end.

(** [ch "a"] elaborates to the numeral 97, so that [lia] sees it. *)
Notation "'ch' s" := (ltac:(let v := eval vm_compute in (chr_of s) in exact v))
  (at level 10, only parsing).
Notation "'bs' s" := (ltac:(let v := eval vm_compute in (bytes_of_string s) in exact v))
  (at level 10, only parsing).

Example ch_bs : ch "a" = 97 ∧ bs "fz" = [102; 122].
Proof. done. Qed.


Abbreviation Zlen l := (Z.of_nat (length l)).

Lemma filter_all {A} (P : A → Prop) `{!∀ x, Decision (P x)} l : Forall P l → filter P l = l.
Proof. induction 1 as [|x l Hx _ IH]; [done|]. rewrite filter_cons_True by done. by rewrite IH. Qed.

Lemma filter_none {A} (P : A → Prop) `{!∀ x, Decision (P x)} l : Forall (λ x, ¬ P x) l → filter P l = [].
Proof. induction 1 as [|x l Hx _ IH]; [done|]. by rewrite filter_cons_False. Qed.

(** ** Little-endian encodings *)
Fixpoint le_bytes (n : nat) (v : Z) : bytes :=
  match n with
  | O => []
  | S n' => wrap 8 v :: le_bytes n' (Z.shiftr v 8)
  end.

Fixpoint le_val (l : bytes) : Z :=
  match l with
  | [] => 0
  | b :: r => b + 256 * le_val r
  end.

Lemma length_le_bytes n v : length (le_bytes n v) = n.
Proof. revert v. induction n; intros; cbn; [done | by rewrite IHn]. Qed.

Lemma le_bytes_bytes n v : Forall is_byte (le_bytes n v).
Proof.
  revert v. induction n; intros; constructor; [|done].
  apply (wrap_range 8). lia.
Qed.

Lemma le_val_le_bytes n v : le_val (le_bytes n v) = wrap (8 * Z.of_nat n) v.
Proof.
  revert v. induction n as [|n IH]; intros v; cbn [le_val le_bytes].
  - unfold wrap. change (2 ^ (8 * Z.of_nat 0)) with 1. by rewrite Z.mod_1_r.
  - rewrite IH. unfold wrap. rewrite Z.shiftr_div_pow2 by lia.
    replace (8 * Z.of_nat (S n)) with (8 + 8 * Z.of_nat n) by lia.
    rewrite Z.pow_add_r by lia. change (2 ^ 8) with 256.
    rewrite Z.rem_mul_r by lia. lia.
Qed.

(** ** Scanning lists *)
Section scan.
Context {A : Type}.
Implicit Types (f : A → bool) (l : list A).

(** The longest prefix satisfying [f] and the rest: the shape of every
    [for i < len(s) && f(s[i]) { i++ }] loop of the program. *)
Fixpoint span f l : list A * list A :=
  match l with
  | [] => ([], [])
  | x :: r => if f x then let '(a, b) := span f r in (x :: a, b) else ([], l)
  end.

Fixpoint drop_while f l : list A :=
  match l with
  | [] => []
  | x :: r => if f x then drop_while f r else l
  end.

(** [l] without its longest suffix satisfying [f]. *)
Fixpoint drop_while_end f l : list A :=
  match l with
  | [] => []
  | x :: r => match drop_while_end f r with
              | [] => if f x then [] else [x]
              | r' => x :: r'
              end
  end.

Lemma span_app f l : (span f l).1 ++ (span f l).2 = l.
Proof.
  induction l as [|x r IH]; cbn; [done|]. destruct (f x); [|done].
  destruct (span f r). cbn in *. by rewrite IH.
Qed.

Lemma span_fst_forall f l : Forall (λ x, f x = true) (span f l).1.
Proof.
  induction l as [|x r IH]; cbn; [constructor|]. destruct (f x) eqn:E; [|constructor].
  destruct (span f r). by constructor.
Qed.

Lemma span_snd_head f l x r : (span f l).2 = x :: r → f x = false.
Proof.
  induction l as [|y t IH]; cbn; [done|]. destruct (f y) eqn:E; [|naive_solver].
  destruct (span f t). exact IH.
Qed.

Lemma span_length f l : (length (span f l).1 + length (span f l).2 = length l)%nat.
Proof. by rewrite <- length_app, span_app. Qed.

Lemma span_all f l1 l2 :
  Forall (λ x, f x = true) l1 →
  match l2 with [] => True | x :: _ => f x = false end →
  span f (l1 ++ l2) = (l1, l2).
Proof.
  intros H H2. induction H as [|x r Hx Hr IH]; cbn.
  - destruct l2; cbn; [done | by rewrite H2].
  - by rewrite Hx, IH.
Qed.

Lemma drop_while_span f l : drop_while f l = (span f l).2.
Proof. induction l as [|x r IH]; cbn; [done|]. destruct (f x); [|done]. by destruct (span f r). Qed.

Lemma drop_while_length f l : (length (drop_while f l) ≤ length l)%nat.
Proof. rewrite drop_while_span. pose proof (span_length f l). lia. Qed.

Lemma drop_while_end_spec f l :
  ∃ s, l = drop_while_end f l ++ s ∧ Forall (λ x, f x = true) s.
Proof.
  induction l as [|x r (s & Hr & Hs)]; cbn; [by exists []|].
  destruct (drop_while_end f r) as [|y t].
  - cbn in Hr. subst r. destruct (f x) eqn:E.
    + exists (x :: s). by split; [|constructor].
    + by exists s.
  - exists s. by rewrite Hr.
Qed.

Lemma drop_while_end_last f l x : last (drop_while_end f l) = Some x → f x = false.
Proof.
  revert x. induction l as [|y r IH]; intros x; cbn; [done|].
  destruct (drop_while_end f r) as [|z t].
  - destruct (f y) eqn:E; cbn; congruence.
  - rewrite last_cons_cons. apply IH.
Qed.

Lemma drop_while_end_length f l : (length (drop_while_end f l) ≤ length l)%nat.
Proof.
  destruct (drop_while_end_spec f l) as (s & H & _).
  rewrite H at 2. rewrite length_app. lia.
Qed.

Lemma drop_while_end_id f l :
  match last l with Some x => f x = false | None => True end → drop_while_end f l = l.
Proof.
  induction l as [|x r IH]; cbn; [done|]. destruct r as [|y t].
  - cbn. by intros ->.
  - intros H. by rewrite IH.
Qed.
End scan.

(** A list is empty. *)
Definition nilb {A} (l : list A) : bool := match l with [] => true | _ => false end.

(** The Go slice expression [s[a:b]]. *)
Definition slice {A} (s : list A) (a b : nat) : outcome (list A) :=
  if ((a <=? b) && (b <=? length s))%nat then Ok (take (b - a) (drop a s)) else Panic.

Lemma slice_mid {A} (p m s : list A) :
  slice (p ++ m ++ s) (length p) (length p + length m) = Ok m.
Proof.
  unfold slice. rewrite !length_app.
  replace (_ && _) with true by (symmetry; apply andb_true_intro; split; apply Nat.leb_le; lia).
  rewrite drop_app_length. f_equal. apply take_app_length'. lia.
Qed.

(** ** Automation shared by the components *)

(** Splits the conjunctions and existentials of the context. *)
Ltac deex :=
  repeat match goal with
  | H : ∃ x, _ |- _ => let y := fresh x in destruct H as [y H]
  | H : _ ∧ _ |- _ => destruct H
  end.

(** Inverts a successful monadic computation in a hypothesis. *)
Ltac inv_ok :=
  repeat match goal with
  | H : mbind _ _ = Ok _ |- _ =>
      let a := fresh "a" in let E := fresh "E" in
      apply bind_Ok in H as (a & E & H)
  | H : Ok _ = Ok _ |- _ => injection H as H; try subst
  | H : mret _ = Ok _ |- _ => change (Ok _ = Ok _) in H
  | H : Err _ = Ok _ |- _ => discriminate H
  | H : Panic = Ok _ |- _ => discriminate H
  | H : Diverge = Ok _ |- _ => discriminate H
  end.

Create HintDb fz.
Create Rewrite HintDb fz_len.
#[export] Hint Resolve le_bytes_bytes wrap_range : fz.
#[export] Hint Rewrite @length_app @length_le_bytes @length_replicate : fz_len.
