(* ===== verification/AsmBytes.v ===== *)
(** * The byte utilities of the assembler

    Models internal/assembler/bytesutil.go: tokenising and trimming of source
    lines, quoted argument lists, number literals, alignment and little-endian
    output.  Slices are lists of bytes; an index loop over a slice is a
    recursion over the list that remains. *)
From S2P Require Import Prelude.

(** ** Operations *)

(** equalBytes: same length and same bytes. *)
Fixpoint equalBytes (a b : bytes) : bool :=
  match a, b with
  | [], [] => true
  | x :: a', y :: b' => if x =? y then equalBytes a' b' else false
  | _, _ => false
  end.

Definition equalWord (token : bytes) (literal : string) : bool :=
  equalBytes token (bytes_of_string literal).

Definition is_blank (c : Z) : bool := (c =? ch " ") || (c =? 9).

Definition readToken (line : bytes) : bytes * bytes :=
  span (λ c, negb (is_blank c)) (drop_while is_blank line).

(** splitArgs (34 and 39 are the double and the single quote): [start] of the code is the reversed accumulator [acc], the quote
    state [in, q] of the code is [q : option Z]. *)
Fixpoint splitArgs_loop (q : option Z) (acc data : bytes) : list bytes :=
  match data with
  | [] => [rev acc]
  | c :: r =>
      match q with
      | Some q' => splitArgs_loop (if c =? q' then None else q) (c :: acc) r
      | None =>
          if (c =? 34) || (c =? 39) then splitArgs_loop (Some c) (c :: acc) r
          else if c =? ch "," then rev acc :: splitArgs_loop None [] r
          else splitArgs_loop None (c :: acc) r
      end
  end.

Definition splitArgs (data : bytes) : list bytes := splitArgs_loop None [] data.

(** asciiSpaceTable *)
Definition ascii_space (c : Z) : bool :=
  (c =? ch " ") || (c =? 9) || (c =? 13) || (c =? 10).

Definition trimSpace (data : bytes) : bytes :=
  drop_while_end ascii_space (drop_while ascii_space data).

Definition removeComment (line : bytes) : bytes :=
  (span (λ c, negb ((c =? ch ";") || (c =? ch "#"))) line).1.

Definition parseString (token : bytes) : outcome bytes :=
  match token with
  | quote :: ((_ :: _) as r) =>
      if default 0 (last r) =? quote then Ok (removelast r)
      else Err "unterminated string"
  | _ => Err "invalid string"
  end.

(** The digit of [c], the arithmetic on bytes as in the code. *)
Definition digit_of (base c : Z) : option Z :=
  if (ch "0" <=? c) && (c <=? ch "9") then Some (u8 (c - ch "0"))
  else if (base =? 16) && (ch "a" <=? c) && (c <=? ch "f") then Some (u8 (10 + c - ch "a"))
  else if (base =? 16) && (ch "A" <=? c) && (c <=? ch "F") then Some (u8 (10 + c - ch "A"))
  else None.

Fixpoint parseNumber_loop (base v : Z) (token : bytes) : outcome Z :=
  match token with
  | [] => Ok v
  | c :: r =>
      match digit_of base c with
      | None => Err "invalid digit"
      | Some digit =>
          if base <=? digit then Err "invalid digit for base"
          else if (max_uint64 - digit) / base <? v then Err "number overflow"
          else parseNumber_loop base (u64 (v * base + digit)) r
      end
  end.

(** The base and the digits of a literal whose sign has been skipped. *)
Definition number_prefix (token : bytes) : Z * bytes :=
  match token with
  | z :: x :: r =>
      if z =? ch "0" then
        if (x =? ch "x") || (x =? ch "X") then (16, r)
        else if (x =? ch "b") || (x =? ch "B") then (2, r)
        else if (x =? ch "o") || (x =? ch "O") then (8, r)
        else (10, token)
      else (10, token)
  | _ => (10, token)
  end.

Definition parseNumber (token : bytes) : outcome Z :=
  match token with
  | [] => Err "empty number"
  | c :: r =>
      let '(base, digits) := number_prefix (if c =? ch "-" then r else token) in
      parseNumber_loop base 0 digits
  end.

(** alignValue, on uint64. *)
Definition alignValue (value align : Z) : Z :=
  if align =? 0 then value
  else let mask := u64 (align - 1) in
       Z.ldiff (u64 (value + mask)) mask.

(** alignOut: pads to a multiple of [align] with zeros (whichever of the
    in-place and the reallocating branch runs). *)
Definition alignOut (out : bytes) (align : Z) : bytes :=
  if align =? 0 then out
  else let pad := (align - Zlen out mod align) mod align in
       out ++ replicate (Z.to_nat pad) 0.

(** alignOutOffset, on int (the mask is the bit mask of [align - 1]). *)
Definition alignOutOffset (offset align : Z) : Z :=
  if align =? 0 then offset
  else let mask := align - 1 in Z.ldiff (i64 (offset + mask)) mask.

Definition lower (c : Z) : Z :=
  if (ch "A" <=? c) && (c <=? ch "Z") then u8 (c + (ch "a" - ch "A")) else c.

Fixpoint fold_prefix (s sub : bytes) : bool :=
  match sub, s with
  | [], _ => true
  | _, [] => false
  | p :: sub', c :: s' => if lower c =? lower p then fold_prefix s' sub' else false
  end.

(** containsFold: [substr] occurs in [s] up to ASCII case. *)
Fixpoint containsFold_loop (s sub : bytes) : bool :=
  fold_prefix s sub || match s with [] => false | _ :: r => containsFold_loop r sub end.

Definition containsFold (s sub : bytes) : bool :=
  if nilb sub || (length s <? length sub)%nat then false else containsFold_loop s sub.

Definition appendByte (out : bytes) (v : Z) : bytes := out ++ [v].
Definition appendUint16 (out : bytes) (v : Z) : bytes :=
  out ++ [u8 v; u8 (Z.shiftr v 8)].
Definition appendUint32 (out : bytes) (v : Z) : bytes :=
  out ++ [u8 v; u8 (Z.shiftr v 8); u8 (Z.shiftr v 16); u8 (Z.shiftr v 24)].
Definition appendUint64 (out : bytes) (v : Z) : bytes :=
  out ++ [u8 v; u8 (Z.shiftr v 8); u8 (Z.shiftr v 16); u8 (Z.shiftr v 24);
          u8 (Z.shiftr v 32); u8 (Z.shiftr v 40); u8 (Z.shiftr v 48); u8 (Z.shiftr v 56)].

Example parse_hex : parseNumber (bs "0x1F") = Ok 31. Proof. done. Qed.
Example parse_neg : parseNumber (bs "-5") = Ok 5. Proof. done. Qed.
Example split_q : splitArgs (bs "'a,b',c") = [bs "'a,b'"; bs "c"]. Proof. done. Qed.
Example align_ex : alignValue 13 8 = 16 ∧ alignOutOffset 100 40 = 136. Proof. done. Qed.

(** ** Reference definitions *)

(** The value of a digit character, whatever the base. *)
Definition ref_digit (c : Z) : option Z :=
  if (ch "0" <=? c) && (c <=? ch "9") then Some (c - ch "0")
  else if (ch "a" <=? c) && (c <=? ch "f") then Some (c - ch "a" + 10)
  else if (ch "A" <=? c) && (c <=? ch "F") then Some (c - ch "A" + 10)
  else None.

(** The unbounded value, after [v], of a string of digits. *)
Fixpoint number_value (base v : Z) (l : bytes) : option Z :=
  match l with
  | [] => Some v
  | c :: r => d ← ref_digit c;
              if d <? base then number_value base (v * base + d) r else None
  end.

Definition strip_sign (token : bytes) : bytes :=
  match token with c :: r => if c =? ch "-" then r else token | [] => [] end.

(** [clean q a]: the quote state after [a] when [a] has no comma outside quotes. *)
Fixpoint clean (q : option Z) (a : bytes) : option (option Z) :=
  match a with
  | [] => Some q
  | c :: r =>
      match q with
      | Some q' => clean (if c =? q' then None else q) r
      | None =>
          if (c =? 34) || (c =? 39) then clean (Some c) r
          else if c =? ch "," then None else clean None r
      end
  end.

Definition arg_ok (a : bytes) : Prop := clean None a = Some None.

Fixpoint join (args : list bytes) : bytes :=
  match args with
  | [] => []
  | [a] => a
  | a :: r => a ++ ch "," :: join r
  end.

(** ** Equality of byte strings *)
Lemma equalBytes_spec a b : reflect (a = b) (equalBytes a b).
Proof.
  revert b. induction a as [|x a IH]; intros [|y b]; cbn; try (by constructor).
  destruct (Z.eqb_spec x y) as [->|Hn].
  - destruct (IH b); constructor; congruence.
  - constructor. congruence.
Qed.

Lemma equalBytes_true a b : equalBytes a b = true ↔ a = b.
Proof. destruct (equalBytes_spec a b); naive_solver. Qed.

Lemma equalBytes_refl a : equalBytes a a = true.
Proof. by apply equalBytes_true. Qed.

(** ** Tokens *)
Lemma readToken_length line :
  (length (readToken line).1 + length (readToken line).2 ≤ length line)%nat.
Proof.
  unfold readToken. rewrite span_length. apply drop_while_length.
Qed.

Lemma trimSpace_length data : (length (trimSpace data) ≤ length data)%nat.
Proof.
  unfold trimSpace. etrans; [apply drop_while_end_length | apply drop_while_length].
Qed.

Lemma removeComment_length line : (length (removeComment line) ≤ length line)%nat.
Proof.
  unfold removeComment. pose proof (span_length (λ c, negb ((c =? ch ";") || (c =? ch "#"))) line).
  lia.
Qed.

Lemma drop_while_end_head {A} (f : A → bool) l x r :
  drop_while_end f l = x :: r → head l = Some x.
Proof.
  destruct l as [|y t]; cbn; [done|].
  destruct (drop_while_end f t); [destruct (f y)|]; cbn; congruence.
Qed.

Lemma trimSpace_spec data :
  ∃ pre post, data = pre ++ trimSpace data ++ post
    ∧ Forall (λ c, ascii_space c = true) (pre ++ post)
    ∧ (∀ c, head (trimSpace data) = Some c → ascii_space c = false)
    ∧ (∀ c, last (trimSpace data) = Some c → ascii_space c = false).
Proof.
  unfold trimSpace. rewrite drop_while_span.
  destruct (drop_while_end_spec ascii_space (span ascii_space data).2) as (s & Hs & Hf).
  exists (span ascii_space data).1, s. split_and!.
  - by rewrite <- Hs, span_app.
  - apply Forall_app. split; [apply span_fst_forall | done].
  - intros c Hc. destruct (drop_while_end _ _) as [|y t] eqn:E; [done|].
    injection Hc as ->. apply drop_while_end_head in E.
    destruct (span ascii_space data).2 as [|z u] eqn:E2; [done|]. injection E as ->.
    by eapply span_snd_head.
  - apply drop_while_end_last.
Qed.

Lemma trimSpace_id l :
  match head l with Some c => ascii_space c = false | None => True end →
  match last l with Some c => ascii_space c = false | None => True end →
  trimSpace l = l.
Proof.
  intros Hh Hl. unfold trimSpace. replace (drop_while ascii_space l) with l.
  - by apply drop_while_end_id.
  - destruct l; [done|]. cbn in *. by rewrite Hh.
Qed.

(** ** Argument lists *)
Lemma splitArgs_loop_nonempty q acc data : splitArgs_loop q acc data ≠ [].
Proof.
  revert q acc. induction data as [|c r IH]; intros q acc; cbn; [done|].
  repeat case_match; try done; apply IH.
Qed.

Lemma join_cons a l : l ≠ [] → join (a :: l) = a ++ ch "," :: join l.
Proof. by destruct l. Qed.

Lemma join_splitArgs_loop q acc data : join (splitArgs_loop q acc data) = rev acc ++ data.
Proof.
  revert q acc. induction data as [|c r IH]; intros q acc; cbn -[join].
  - by rewrite app_nil_r.
  - destruct q; [rewrite IH; cbn; by rewrite <- app_assoc|].
    case_match; [rewrite IH; cbn; by rewrite <- app_assoc|].
    destruct (Z.eqb_spec c (ch ",")) as [->|].
    + rewrite join_cons by apply splitArgs_loop_nonempty. by rewrite IH.
    + rewrite IH; cbn; by rewrite <- app_assoc.
Qed.

Lemma splitArgs_loop_clean q acc a rest :
  clean q a = Some None →
  match rest with [] => True | c :: _ => c = ch "," end →
  splitArgs_loop q acc (a ++ rest) =
    (rev acc ++ a) :: match rest with [] => [] | _ :: r => splitArgs_loop None [] r end.
Proof.
  revert q acc. induction a as [|c r IH]; intros q acc Hc Hr; cbn in *.
  - injection Hc as ->. rewrite app_nil_r. destruct rest as [|c r]; [done|]. by subst.
  - destruct q as [q'|].
    + rewrite IH by done. cbn. by rewrite <- app_assoc.
    + destruct ((c =? 34) || (c =? 39)).
      * rewrite IH by done. cbn. by rewrite <- app_assoc.
      * destruct (c =? ch ","); [done|]. rewrite IH by done. cbn. by rewrite <- app_assoc.
Qed.

Lemma splitArgs_join args : args ≠ [] → Forall arg_ok args → splitArgs (join args) = args.
Proof.
  unfold splitArgs. intros Hn H. induction H as [|a l Ha Hl IH]; [done|].
  destruct l as [|b l].
  - cbn [join]. rewrite <- (app_nil_r a) at 1. by rewrite splitArgs_loop_clean.
  - rewrite join_cons by done. rewrite splitArgs_loop_clean by done. cbn -[join].
    by rewrite IH.
Qed.

(** ** Numbers *)
Definition valid_base (base : Z) : Prop := base = 2 ∨ base = 8 ∨ base = 10 ∨ base = 16.

(** The two digit tests of the code accept exactly the digits below the base. *)
Lemma digit_of_ref base c :
  valid_base base →
  match digit_of base c with
  | Some d => ref_digit c = Some d ∧ 0 ≤ d
  | None => ∀ d, ref_digit c = Some d → base ≤ d
  end.
Proof.
  intros Hb. unfold digit_of, ref_digit, wrap.
  destruct (Z.leb_spec 48 c), (Z.leb_spec c 57), (Z.leb_spec 97 c), (Z.leb_spec c 102),
    (Z.leb_spec 65 c), (Z.leb_spec c 70), (Z.eqb_spec base 16); cbn; try lia;
    try (rewrite Z.mod_small by lia; split; [f_equal|]; lia);
    try (intros ? [= <-]; unfold valid_base in Hb; lia); done.
Qed.

Lemma number_value_ge base v l w :
  1 ≤ base → 0 ≤ v → number_value base v l = Some w → v ≤ w.
Proof.
  intros Hb. revert v. induction l as [|c r IH]; intros v Hv; cbn; [naive_solver lia|].
  destruct (ref_digit c) as [d|] eqn:E; cbn; [|done].
  assert (0 ≤ d).
  { revert E. unfold ref_digit. repeat case_match; intros; simplify_eq; lia. }
  case_match; [|done]. intros H1. apply IH in H1; nia.
Qed.

Lemma overflow_guard base v d :
  1 ≤ base → ((max_uint64 - d) / base <? v) = (max_uint64 <? v * base + d).
Proof.
  intros Hb. pose proof (Z.div_mod (max_uint64 - d) base ltac:(lia)).
  pose proof (Z.mod_pos_bound (max_uint64 - d) base ltac:(lia)).
  destruct (Z.ltb_spec ((max_uint64 - d) / base) v),
    (Z.ltb_spec max_uint64 (v * base + d)); [done| nia | nia | done].
Qed.

Lemma parseNumber_loop_correct base v l w :
  valid_base base → 0 ≤ v ≤ max_uint64 →
  parseNumber_loop base v l = Ok w ↔ number_value base v l = Some w ∧ w ≤ max_uint64.
Proof.
  intros Hb. assert (1 ≤ base) by (unfold valid_base in Hb; lia).
  revert v. induction l as [|c r IH]; intros v Hv; cbn [parseNumber_loop number_value].
  { naive_solver. }
  pose proof (digit_of_ref base c Hb) as Hd. destruct (digit_of base c) as [d|].
  - destruct Hd as [-> Hd]. cbn. rewrite overflow_guard by done.
    destruct (Z.leb_spec base d), (Z.ltb_spec d base); try lia; [naive_solver|].
    destruct (Z.ltb_spec max_uint64 (v * base + d)).
    + split; [done|]. intros [H3 ?]. apply number_value_ge in H3; nia.
    + unfold wrap. rewrite Z.mod_small by (unfold max_uint64 in *; nia).
      apply IH. nia.
  - destruct (ref_digit c) as [d|]; cbn; [|naive_solver].
    specialize (Hd d eq_refl). destruct (Z.ltb_spec d base); [lia|naive_solver].
Qed.

Lemma number_prefix_base l : valid_base (number_prefix l).1.
Proof. unfold number_prefix, valid_base. repeat case_match; cbn; naive_solver. Qed.

Lemma parseNumber_ok token v :
  parseNumber token = Ok v ↔
  token ≠ [] ∧
  number_value (number_prefix (strip_sign token)).1 0 (number_prefix (strip_sign token)).2 = Some v
  ∧ v ≤ max_uint64.
Proof.
  unfold parseNumber. destruct token as [|c r]; [naive_solver|]. cbn [strip_sign].
  pose proof (number_prefix_base (if c =? ch "-" then r else c :: r)).
  destruct (number_prefix _) as [base ds]. cbn in *.
  rewrite parseNumber_loop_correct by (unfold max_uint64; done || lia). naive_solver.
Qed.

Lemma parseNumber_loop_returns base v l : returns (parseNumber_loop base v l).
Proof. revert v. induction l; intros v; cbn; repeat case_match; cbn; auto. Qed.

Lemma parseNumber_returns token : returns (parseNumber token).
Proof.
  unfold parseNumber. destruct token; [done|]. destruct (number_prefix _).
  apply parseNumber_loop_returns.
Qed.

Lemma parseNumber_range token v : parseNumber token = Ok v → is_word 64 v.
Proof.
  rewrite parseNumber_ok. intros (_ & H & ?). split; [|unfold max_uint64 in *; lia].
  pose proof (number_prefix_base (strip_sign token)) as Hb.
  eapply number_value_ge in H; unfold valid_base in *; lia.
Qed.

(** ** Printing a number in decimal (the notation users write) *)
Fixpoint decimal_digits (fuel : nat) (v : Z) (acc : bytes) : bytes :=
  match fuel with
  | O => acc
  | S f => let acc' := (ch "0" + v mod 10) :: acc in
           if v <? 10 then acc' else decimal_digits f (v / 10) acc'
  end.

Definition decimal (v : Z) : bytes := decimal_digits 20 v [].

Lemma ref_digit_dec v : 0 ≤ v < 10 → ref_digit (ch "0" + v) = Some v.
Proof.
  intros. unfold ref_digit.
  destruct (Z.leb_spec 48 (48 + v)), (Z.leb_spec (48 + v) 57); cbn; try lia. f_equal. lia.
Qed.

Lemma decimal_digits_value fuel v acc w :
  0 ≤ v < 10 ^ Z.of_nat fuel → 
  number_value 10 v acc = Some w → number_value 10 0 (decimal_digits fuel v acc) = Some w.
Proof.
  revert v acc. induction fuel as [|f IH]; intros v acc Hv Hw; cbn [decimal_digits].
  { assert (v = 0) as -> by (change (10 ^ Z.of_nat 0) with 1 in Hv; lia). done. }
  pose proof (Z.div_mod v 10 ltac:(lia)). pose proof (Z.mod_pos_bound v 10 ltac:(lia)).
  assert (Hs : ∀ u, u * 10 + v mod 10 = v →
    number_value 10 u ((ch "0" + v mod 10) :: acc) = Some w).
  { intros u Hu. cbn [number_value]. rewrite ref_digit_dec by done. cbn.
    destruct (Z.ltb_spec (v mod 10) 10); [|lia]. by rewrite Hu. }
  destruct (Z.ltb_spec v 10).
  - apply Hs. rewrite Z.mod_small; lia.
  - apply IH; [|apply Hs; lia].
    rewrite Nat2Z.inj_succ, Z.pow_succ_r in Hv by lia.
    split; [apply Z.div_pos; lia | apply Z.div_lt_upper_bound; lia].
Qed.

Definition is_dec_digit (c : Z) : Prop := ch "0" ≤ c ≤ ch "9".

Lemma decimal_digits_chars fuel v acc :
  0 ≤ v → Forall is_dec_digit acc → Forall is_dec_digit (decimal_digits fuel v acc).
Proof.
  revert v acc. induction fuel as [|f IH]; intros v acc Hv Ha; cbn [decimal_digits]; [done|].
  pose proof (Z.mod_pos_bound v 10 ltac:(lia)).
  assert (is_dec_digit (ch "0" + v mod 10)) by (unfold is_dec_digit; lia).
  case_match; [by constructor|]. apply IH; [apply Z.div_pos; lia | by constructor].
Qed.

Lemma decimal_digits_nonempty fuel v acc : acc ≠ [] → decimal_digits fuel v acc ≠ [].
Proof. revert v acc. induction fuel; intros v acc H; cbn; [done|]. case_match; auto. Qed.

Lemma decimal_chars v : 0 ≤ v → Forall is_dec_digit (decimal v).
Proof. intros. by apply decimal_digits_chars. Qed.

Lemma decimal_nonempty v : decimal v ≠ [].
Proof.
  unfold decimal. change 20%nat with (S 19). generalize 19%nat. intros n. cbn [decimal_digits].
  case_match; [done|]. by apply decimal_digits_nonempty.
Qed.

(** A string of decimal digits has no base prefix. *)
Lemma number_prefix_dec l : Forall is_dec_digit l → number_prefix l = (10, l).
Proof.
  unfold is_dec_digit, number_prefix. intros H. destruct l as [|a [|b r]]; try done.
  inversion_clear H as [|? ? Ha Hr]. inversion_clear Hr as [|? ? Hb _].
  destruct (a =? 48); [|done].
  destruct (Z.eqb_spec b 120), (Z.eqb_spec b 88), (Z.eqb_spec b 98), (Z.eqb_spec b 66),
    (Z.eqb_spec b 111), (Z.eqb_spec b 79); cbn; try lia; done.
Qed.

Lemma parseNumber_decimal v : is_word 64 v → parseNumber (decimal v) = Ok v.
Proof.
  intros Hv. apply parseNumber_ok. pose proof (decimal_chars v ltac:(unfold is_word in *; lia)) as Hc.
  assert (strip_sign (decimal v) = decimal v) as ->.
  { destruct (decimal v) as [|c r]; [done|]. cbn. inversion_clear Hc as [|? ? Hd _].
    unfold is_dec_digit in Hd. destruct (Z.eqb_spec c 45); [lia|done]. }
  rewrite number_prefix_dec by done. split_and!; [apply decimal_nonempty| |unfold is_word, max_uint64 in *; lia].
  apply decimal_digits_value; [|done]. unfold is_word in Hv. split; [lia|].
  etrans; [apply Hv|]. done.
Qed.

(** ** Alignment *)
Lemma ldiff_ones x k : 0 ≤ k → Z.ldiff x (2 ^ k - 1) = x - x mod 2 ^ k.
Proof.
  intros Hk. rewrite Z.sub_1_r, <- Z.ones_equiv, Z.ldiff_ones_r by done.
  rewrite Z.shiftr_div_pow2, Z.shiftl_mul_pow2 by done.
  pose proof (Z.div_mod x (2 ^ k) ltac:(lia)). lia.
Qed.

(** Rounding up to a multiple of a power of two. *)
Definition round_up (v a : Z) : Z := v + (a - v mod a) mod a.

Lemma round_up_spec v a :
  0 < a → v ≤ round_up v a < v + a ∧ round_up v a mod a = 0.
Proof.
  intros Ha. unfold round_up. pose proof (Z.mod_pos_bound (a - v mod a) a Ha).
  split; [lia|]. rewrite Z.add_mod_idemp_r by lia.
  replace (v + (a - v mod a)) with (v - v mod a + 1 * a) by lia.
  rewrite Z.mod_add by lia. rewrite Zminus_mod_idemp_r.
  replace (v - v) with 0 by lia. by rewrite Z.mod_0_l by lia.
Qed.

Lemma round_up_mask v k :
  0 ≤ k → Z.ldiff (v + (2 ^ k - 1)) (2 ^ k - 1) = round_up v (2 ^ k).
Proof.
  intros Hk. rewrite ldiff_ones by done. unfold round_up.
  assert (Hp : 0 < 2 ^ k) by (apply Z.pow_pos_nonneg; lia).
  set (a := 2 ^ k) in *. pose proof (Z.div_mod v a ltac:(lia)).
  pose proof (Z.mod_pos_bound v a Hp).
  destruct (decide (v mod a = 0)) as [E|E]; [|clearbody a].
  - rewrite E, Z.sub_0_r, Z.mod_same by lia.
    rewrite <- Z.add_mod_idemp_l, E, Z.mod_small by lia. lia.
  - rewrite (Z.mod_small (a - v mod a)) by lia.
    replace (v + (a - 1)) with ((v mod a - 1) + (v / a + 1) * a) by lia.
    rewrite Z.mod_add, (Z.mod_small (v mod a - 1)) by lia. lia.
Qed.

Lemma alignValue_round v k :
  0 ≤ k < 64 → 0 ≤ v → v + 2 ^ k - 1 ≤ max_uint64 → alignValue v (2 ^ k) = round_up v (2 ^ k).
Proof.
  intros Hk Hv Hs. unfold alignValue.
  assert (0 < 2 ^ k) by (apply Z.pow_pos_nonneg; lia).
  destruct (Z.eqb_spec (2 ^ k) 0); [lia|].
  unfold wrap. rewrite (Z.mod_small (2 ^ k - 1)) by (unfold max_uint64 in Hs; lia).
  rewrite Z.mod_small by (unfold max_uint64 in Hs; lia). apply round_up_mask. lia.
Qed.

Lemma length_alignOut out a : 0 < a → Zlen (alignOut out a) = round_up (Zlen out) a.
Proof.
  intros Ha. unfold alignOut, round_up. destruct (Z.eqb_spec a 0); [lia|].
  rewrite length_app, length_replicate.
  pose proof (Z.mod_pos_bound (a - Zlen out mod a) a Ha). lia.
Qed.

Lemma alignOut_app out a : ∃ n, alignOut out a = out ++ replicate n 0.
Proof.
  unfold alignOut. case_match; [exists 0%nat; cbn; by rewrite app_nil_r|]. by eexists.
Qed.

Lemma alignOutOffset_round off k :
  0 ≤ k < 62 → 0 ≤ off < 2 ^ 62 → alignOutOffset off (2 ^ k) = round_up off (2 ^ k).
Proof.
  intros Hk Ho. unfold alignOutOffset.
  assert (0 < 2 ^ k) by (apply Z.pow_pos_nonneg; lia).
  assert (2 ^ k < 2 ^ 62) by (apply Z.pow_lt_mono_r; lia).
  destruct (Z.eqb_spec (2 ^ k) 0); [lia|].
  rewrite swrap_small by (change (64 - 1) with 63; lia). apply round_up_mask; lia.
Qed.

(** ** Properties *)

(** parseNumber accepts exactly the tokens whose digits, after an optional
    minus sign (which is ignored) and an optional 0x, 0b or 0o prefix, denote in
    that base a number below 2^64, and returns that number; it never panics. *)
Theorem parseNumber_correct token :
  returns (parseNumber token) ∧
  ∀ v, parseNumber token = Ok v ↔
    token ≠ [] ∧ v ≤ max_uint64 ∧
    number_value (number_prefix (strip_sign token)).1 0 (number_prefix (strip_sign token)).2 = Some v.
Proof. split; [apply parseNumber_returns|]. intros v. rewrite parseNumber_ok. tauto. Qed.

(** Splitting the comma-separated join of a non-empty list of arguments gives
    the list back, when each argument has balanced quotes and no comma outside
    of them. *)
Theorem splitArgs_roundtrip args : args ≠ [] → Forall arg_ok args → splitArgs (join args) = args.
Proof. apply splitArgs_join. Qed.

Theorem splitArgs_roundtrip_witness :
  splitArgs (join [bs "'a,b'"; bs " rax"; []]) = [bs "'a,b'"; bs " rax"; []].
Proof. apply splitArgs_roundtrip; [discriminate|repeat constructor]. Defined.

(** alignOut pads with zeros up to the next multiple of the alignment, and the
    offset that alignOutOffset predicts is the padded length when the alignment
    is a power of two. *)
Theorem alignOut_correct out k :
  0 ≤ k < 62 → Zlen out < 2 ^ 62 →
  ∃ n, alignOut out (2 ^ k) = out ++ replicate n 0 ∧ Z.of_nat n < 2 ^ k ∧
       Zlen (alignOut out (2 ^ k)) mod 2 ^ k = 0 ∧
       alignOutOffset (Zlen out) (2 ^ k) = Zlen (alignOut out (2 ^ k)).
Proof.
  intros Hk Hl. assert (Hp : 0 < 2 ^ k) by (apply Z.pow_pos_nonneg; lia).
  pose proof (length_alignOut out (2 ^ k) Hp) as Hlen. pose proof (round_up_spec (Zlen out) (2 ^ k) Hp) as [Hr Hm].
  destruct (alignOut_app out (2 ^ k)) as [n Hn]. exists n.
  rewrite alignOutOffset_round, Hlen by lia. split; [done|]. split; [|done].
  rewrite Hn, length_app, length_replicate in Hlen. lia.
Qed.

Theorem alignOut_correct_witness :
  ∃ n, alignOut [1; 2; 3] (2 ^ 3) = [1; 2; 3] ++ replicate n 0 ∧ Z.of_nat n < 2 ^ 3 ∧
       Zlen (alignOut [1; 2; 3] (2 ^ 3)) mod 2 ^ 3 = 0 ∧
       alignOutOffset (Zlen [1; 2; 3]) (2 ^ 3) = Zlen (alignOut [1; 2; 3] (2 ^ 3)).
Proof. apply (alignOut_correct [1; 2; 3] 3); cbn; lia. Defined.
