(* ===== verification/AsmOperand.v ===== *)
(** * Operands of the built-in x86-64 assembler

    Models the register, immediate and memory operand parsers of
    internal/assembler/x86.go.  A call that makes the Go runtime panic is the
    value [Panic]. *)
From S2P Require Import Prelude AsmBytes.

(** ** Operations *)

Definition codeFromBase (code width : Z) : option (Z * Z) := Some (Z.land code 7, width).

(** The names of the switch of parseRegister, with the code and the width. *)
Definition register_table : list (string * (Z * Z)) :=
  [("al", (0, 8)); ("cl", (1, 8)); ("dl", (2, 8)); ("bl", (3, 8));
   ("ah", (4, 8)); ("ch", (5, 8)); ("dh", (6, 8)); ("bh", (7, 8));
   ("ax", (0, 16)); ("cx", (1, 16)); ("dx", (2, 16)); ("bx", (3, 16));
   ("sp", (4, 16)); ("bp", (5, 16)); ("si", (6, 16)); ("di", (7, 16));
   ("eax", (0, 32)); ("ecx", (1, 32)); ("edx", (2, 32)); ("ebx", (3, 32));
   ("esp", (4, 32)); ("ebp", (5, 32)); ("esi", (6, 32)); ("edi", (7, 32));
   ("rax", (0, 64)); ("rcx", (1, 64)); ("rdx", (2, 64)); ("rbx", (3, 64));
   ("rsp", (4, 64)); ("rbp", (5, 64)); ("rsi", (6, 64)); ("rdi", (7, 64))]%string.

(** The switch: the first case whose name is equal. *)
Fixpoint table_lookup (name : bytes) (t : list (string * (Z * Z))) : option (Z * Z) :=
  match t with
  | [] => None
  | (s, (code, width)) :: r =>
      if equalBytes name (bytes_of_string s) then codeFromBase code width
      else table_lookup name r
  end.

Definition width_suffix (suf : Z) : option Z :=
  if suf =? ch "b" then Some 8
  else if suf =? ch "w" then Some 16
  else if suf =? ch "d" then Some 32
  else None.

(** The last block of parseRegister, for names that start with r1 (the index
    name[2] is out of range for a name of two bytes). *)
Definition parse_r1 (name : bytes) : outcome (option (Z * Z)) :=
  match name with
  | [r; o] => if (r =? ch "r") && (o =? ch "1") then Panic else Ok None
  | r :: o :: c :: t =>
      if ((length name =? 3) || (length name =? 4))%nat && (r =? ch "r") && (o =? ch "1") then
        let idx := u8 (u8 (c - ch "0") + 10) in
        if (idx <? 10) || (15 <? idx) then Ok None
        else match t with
             | suf :: _ => match width_suffix suf with
                           | Some width => Ok (codeFromBase idx width)
                           | None => Ok None
                           end
             | [] => Ok (codeFromBase idx 64)
             end
      else Ok None
  | _ => Ok None
  end.

(** The block for r followed by a digit; it falls through to [parse_r1] when the
    name has neither two nor three bytes. *)
Definition parse_numbered (name : bytes) : outcome (option (Z * Z)) :=
  match name with
  | r :: d :: t =>
      if (r =? ch "r") && (ch "0" <=? d) && (d <=? ch "9") then
        let idx := d - ch "0" in
        match t with
        | [] => if idx <? 8 then Ok None else Ok (codeFromBase idx 64)
        | [suf] => if idx <? 8 then Ok None
                   else match width_suffix suf with
                        | Some width => Ok (codeFromBase idx width)
                        | None => Ok None
                        end
        | _ => parse_r1 name
        end
      else parse_r1 name
  | _ => parse_r1 name
  end.

(** parseRegister: the lower-cased name is a slice [s[:len(tok)]] of an array of
    16 bytes, so that a longer token makes the slice expression panic. *)
Definition parseRegister (tok : bytes) : outcome (option (Z * Z)) :=
  if nilb tok then Ok None
  else if (16 <? length tok)%nat then Panic
  else let name := map lower tok in
       match table_lookup name register_table with
       | Some r => Ok (Some r)
       | None => parse_numbered name
       end.

(** The struct operand with its operandType tag, as a tagged union. *)
Inductive operand :=
  | OReg (reg : Z)
  | OImm (imm : Z)
  | OMem (base index scale disp : Z)
  | OLabel (label : bytes).

#[export] Instance operand_eq_dec : EqDecision operand.
Proof. solve_decision. Defined.

Definition parseImmediate (tok : bytes) : option Z :=
  match tok with
  | c :: ((_ :: _) as r) =>
      if c =? ch "-" then
        match parseNumber r with
        | Ok magnitude => if 0x80000000 <? magnitude then None
                          else Some (u32 (- i64 magnitude))
        | _ => None
        end
      else match parseNumber tok with Ok number => Some number | _ => None end
  | _ => match parseNumber tok with Ok number => Some number | _ => None end
  end.

(** The variables of the loop over the inside of a memory operand. *)
Record mem_acc := MemAcc { ma_base : Z; ma_index : Z; ma_scale : Z; ma_disp : Z }.

(** The prefix and the suffix around the first star (bytes.IndexByte). *)
Definition split_star (part : bytes) : option (bytes * bytes) :=
  match span (λ c, negb (c =? ch "*")) part with
  | (_, []) => None
  | (a, _ :: b) => Some (a, b)
  end.

Definition valid_scale (s : Z) : bool := (s =? 1) || (s =? 2) || (s =? 4) || (s =? 8).

(** The body of the loop, from the trimmed part on. *)
Definition mem_part (sign : Z) (part : bytes) (a : mem_acc) : outcome mem_acc :=
  r ← parseRegister part;
  match r with
  | Some (code, _) =>
      if ma_base a =? 255 then Ok (MemAcc code (ma_index a) (ma_scale a) (ma_disp a))
      else if ma_index a =? 255 then Ok (MemAcc (ma_base a) code (ma_scale a) (ma_disp a))
      else Err "too many registers"
  | None =>
      match split_star part with
      | Some (regPart, scalePart) =>
          r' ← parseRegister (trimSpace regPart);
          match r' with
          | None => Err "invalid index register"
          | Some (code, _) =>
              match parseNumber (trimSpace scalePart) with
              | Ok scaleVal =>
                  if valid_scale scaleVal then
                    if negb (ma_index a =? 255) then Err "index already set"
                    else Ok (MemAcc (ma_base a) code (u8 scaleVal) (ma_disp a))
                  else Err "invalid scale"
              | _ => Err "invalid scale"
              end
          end
      | None =>
          match parseNumber part with
          | Ok num => Ok (MemAcc (ma_base a) (ma_index a) (ma_scale a)
                            (i64 (ma_disp a + i64 (sign * i64 num))))
          | _ => Err "unsupported memory operand format"
          end
      end
  end.

Definition is_sign (c : Z) : bool := (c =? ch "+") || (c =? ch "-").

(** The loop; [inner] is the part of the operand from the index [i] on. *)
Fixpoint mem_loop (fuel : nat) (inner : bytes) (a : mem_acc) : outcome mem_acc :=
  match fuel with
  | O => Diverge
  | S f =>
      match drop_while is_blank inner with
      | [] => Ok a
      | c :: r =>
          let sign := if c =? ch "-" then -1 else 1 in
          let body := if is_sign c then drop_while is_blank r else c :: r in
          if is_sign c && nilb body then Err "expected number after sign"
          else
            let '(raw, rest) := span (λ c, negb (is_sign c)) body in
            let part := trimSpace raw in
            if nilb part then mem_loop f rest a
            else a' ← mem_part sign part a; mem_loop f rest a'
      end
  end.

(** Every turn of the loop consumes a byte, so the length is enough fuel. *)
Definition parseMemory (inner : bytes) : outcome operand :=
  a ← mem_loop (S (length inner)) inner (MemAcc 255 255 1 0);
  if (ma_base a =? 255) && (ma_index a =? 255) then
    Err "memory operand must have at least base or index"
  else Ok (OMem (if ma_base a =? 255 then 5 else ma_base a)
             (ma_index a) (ma_scale a) (ma_disp a)).

Definition parseOperand (tok : bytes) : outcome operand :=
  let tok := trimSpace tok in
  match tok with
  | [] => Err "empty operand"
  | c :: r =>
      reg ← parseRegister tok;
      match reg with
      | Some (code, _) => Ok (OReg code)
      | None =>
          if (2 <? length tok)%nat && (c =? ch "[") && (default 0 (last tok) =? ch "]") then
            let inner := trimSpace (removelast r) in
            if nilb inner then Err "empty memory operand" else parseMemory inner
          else match parseImmediate tok with
               | Some num => Ok (OImm num)
               | None => Ok (OLabel tok)
               end
      end
  end.

Example op1 : parseOperand (bs " [rbx+rcx*4-8] ") = Ok (OMem 3 1 4 (-8)). Proof. vm_compute. done. Qed.
Example op2 : parseOperand (bs "r8") = Ok (OReg 0). Proof. vm_compute. done. Qed.
Example op3 : parseOperand (bs "r10") = Ok (OLabel (bs "r10")). Proof. vm_compute. done. Qed.
Example op4 : parseOperand (bs "[rbx+rcx*4+0x100]") = Panic. Proof. vm_compute. done. Qed.

(** ** Ranges: what the parsers return *)

Definition is_code (r : Z) : Prop := 0 ≤ r < 8.

Definition wf_operand (o : operand) : Prop :=
  match o with
  | OReg r => is_code r
  | OImm n => is_word 64 n
  | OMem b i s d =>
      is_code b ∧ (i = 255 ∨ is_code i) ∧ valid_scale s = true ∧ - 2 ^ 63 ≤ d < 2 ^ 63
  | OLabel l => l ≠ []
  end.

Definition wf_acc (a : mem_acc) : Prop :=
  (ma_base a = 255 ∨ is_code (ma_base a)) ∧ (ma_index a = 255 ∨ is_code (ma_index a))
  ∧ valid_scale (ma_scale a) = true ∧ - 2 ^ 63 ≤ ma_disp a < 2 ^ 63.

Definition reg_result (r : option (Z * Z)) : Prop :=
  match r with Some (code, _) => is_code code | None => True end.

Lemma codeFromBase_wf c w : reg_result (codeFromBase c w).
Proof.
  cbn. change 7 with (Z.ones 3). rewrite Z.land_ones by lia. unfold is_code.
  pose proof (Z.mod_pos_bound c (2 ^ 3)). lia.
Qed.

Lemma table_lookup_wf name t : reg_result (table_lookup name t).
Proof.
  induction t as [|[s [code w]] t IH]; cbn; [done|]. case_match; [|done].
  apply codeFromBase_wf.
Qed.

#[export] Hint Resolve codeFromBase_wf table_lookup_wf : fz.

(** The index name[2] is never reached with a name of two bytes. *)
Lemma parse_numbered_post name : post reg_result (parse_numbered name).
Proof.
  unfold parse_numbered, parse_r1.
  repeat (case_match; cbn [post]; try done; auto with fz).
  all: simplify_eq.
  all: repeat match goal with
    | H : (_ && _) = true |- _ => apply andb_true_iff in H as [? ?]
    | H : (_ =? _) = true |- _ => apply Z.eqb_eq in H
    end; subst; try discriminate; try apply codeFromBase_wf.
Qed.

Lemma parseRegister_post tok :
  (length tok ≤ 16)%nat → post reg_result (parseRegister tok).
Proof.
  intros Hl. unfold parseRegister. destruct (nilb tok); [done|].
  destruct (Nat.ltb_spec 16 (length tok)); [lia|].
  pose proof (table_lookup_wf (map lower tok) register_table) as Hw.
  destruct (table_lookup _ _); [exact Hw | apply parse_numbered_post].
Qed.

Lemma split_star_length part a b :
  split_star part = Some (a, b) → (length a < length part)%nat ∧ (length b < length part)%nat.
Proof.
  unfold split_star. pose proof (span_length (λ c, negb (c =? ch "*")) part).
  destruct (span _ part) as [x [|y z]]; [done|]. cbn in *. intros [= <- <-]. lia.
Qed.

Lemma wf_acc_base c a : is_code c → wf_acc a → wf_acc (MemAcc c (ma_index a) (ma_scale a) (ma_disp a)).
Proof. unfold wf_acc. cbn. tauto. Qed.

Lemma wf_acc_index c a : is_code c → wf_acc a → wf_acc (MemAcc (ma_base a) c (ma_scale a) (ma_disp a)).
Proof. unfold wf_acc. cbn. tauto. Qed.

Lemma valid_scale_u8 s : valid_scale s = true → valid_scale (u8 s) = true.
Proof.
  unfold valid_scale. intros H.
  destruct (Z.eqb_spec s 1), (Z.eqb_spec s 2), (Z.eqb_spec s 4), (Z.eqb_spec s 8); subst; done.
Qed.

Lemma wf_acc_scaled c s a :
  is_code c → valid_scale s = true → wf_acc a → wf_acc (MemAcc (ma_base a) c (u8 s) (ma_disp a)).
Proof. intros. pose proof (valid_scale_u8 s). unfold wf_acc in *. cbn. tauto. Qed.

Lemma wf_acc_disp d a : wf_acc a → wf_acc (MemAcc (ma_base a) (ma_index a) (ma_scale a) (i64 d)).
Proof. intros. pose proof (swrap_range 64 d). unfold wf_acc in *. cbn in *. intuition lia. Qed.

#[export] Hint Resolve wf_acc_base wf_acc_index wf_acc_scaled wf_acc_disp : fz.

Lemma mem_part_post sign part a :
  (length part ≤ 16)%nat → wf_acc a → post wf_acc (mem_part sign part a).
Proof.
  intros Hl Ha. unfold mem_part. eapply post_bind; [by apply parseRegister_post|].
  intros [[code w]|] Hr; cbn in Hr.
  - repeat case_match; cbn; auto with fz.
  - destruct (split_star part) as [[rp sp]|] eqn:E.
    + apply split_star_length in E. pose proof (trimSpace_length rp).
      eapply post_bind; [apply parseRegister_post; lia|].
      intros [[code w]|] Hc; cbn in *; [|done].
      repeat case_match; cbn; auto with fz.
    + case_match; cbn; auto with fz.
Qed.

Lemma mem_loop_post fuel inner a :
  (length inner < fuel)%nat → (length inner ≤ 16)%nat → wf_acc a →
  post wf_acc (mem_loop fuel inner a).
Proof.
  revert inner a. induction fuel as [|f IH]; intros inner a Hf Hl Ha; [lia|]. cbn [mem_loop].
  pose proof (drop_while_length is_blank inner) as Hd.
  destruct (drop_while is_blank inner) as [|c r] eqn:E; [done|].
  set (body := if is_sign c then _ else _).
  assert (Hb : (length body ≤ length inner)%nat ∧ (is_sign c = true → length body < length inner)%nat).
  { subst body. pose proof (drop_while_length is_blank r). cbn in Hd. destruct (is_sign c); cbn; lia. }
  case_match eqn:Es; [done|].
  pose proof (span_length (λ c, negb (is_sign c)) body) as Hsp.
  destruct (span _ body) as [raw rest] eqn:Esp. cbn [fst snd] in Hsp.
  pose proof (trimSpace_length raw).
  assert (Hr : (length rest < length inner)%nat).
  { destruct (is_sign c) eqn:Ec; [destruct Hb; lia|].
    subst body. cbn in Esp. rewrite Ec in Esp. cbn in Esp. destruct (span _ r).
    injection Esp as <- <-. cbn in *. lia. }
  case_match.
  - apply IH; [lia..|done].
  - eapply post_bind; [apply mem_part_post; [lia|done]|].
    intros a' Ha'. apply IH; [lia..|done].
Qed.

Lemma parseMemory_post inner :
  (length inner ≤ 16)%nat → post wf_operand (parseMemory inner).
Proof.
  intros Hl. unfold parseMemory. eapply post_bind.
  { apply mem_loop_post; [lia|done|]. unfold wf_acc; cbn. auto with lia. }
  intros a (Hb & Hi & Hs & Hd). destruct (_ && _) eqn:E; [done|]. cbn.
  destruct (Z.eqb_spec (ma_base a) 255); [|tauto]. unfold is_code at 1. split_and!; try tauto; lia.
Qed.

Lemma parseImmediate_range tok n : parseImmediate tok = Some n → is_word 64 n.
Proof.
  unfold parseImmediate. intros H. repeat case_match; simplify_eq; eauto using parseNumber_range.
  pose proof (wrap_range 32 (- i64 a)). unfold is_word in *. lia.
Qed.

Lemma length_removelast {A} (l : list A) : length (removelast l) = pred (length l).
Proof. rewrite removelast_firstn_len, length_firstn. lia. Qed.

Lemma parseOperand_post tok :
  (length (trimSpace tok) ≤ 16)%nat → post wf_operand (parseOperand tok).
Proof.
  intros Hl. unfold parseOperand. destruct (trimSpace tok) as [|c r] eqn:E; [done|].
  eapply post_bind; [by apply parseRegister_post|].
  intros [[code w]|] Hr; [done|]. case_match.
  - case_match; [done|]. apply parseMemory_post.
    pose proof (trimSpace_length (removelast r)). rewrite length_removelast in *. cbn in Hl. lia.
  - case_match eqn:Ei; [|done]. by eapply parseImmediate_range.
Qed.

Lemma parseOperand_panic tok :
  (16 < length (trimSpace tok))%nat → parseOperand tok = Panic.
Proof.
  intros Hl. unfold parseOperand. destruct (trimSpace tok) as [|c r] eqn:E; [cbn in Hl; lia|].
  unfold parseRegister. cbn [nilb]. destruct (Nat.ltb_spec 16 (length (c :: r))); [done|lia].
Qed.

Lemma parseOperand_wf tok o : parseOperand tok = Ok o → wf_operand o.
Proof.
  intros H. destruct (decide (length (trimSpace tok) ≤ 16)%nat).
  - eapply post_Ok; [by apply parseOperand_post | done].
  - rewrite parseOperand_panic in H by lia. done.
Qed.

(** ** Printing and parsing back *)

Definition reg64_name (code : Z) : bytes :=
  match code with
  | 0 => bs "rax" | 1 => bs "rcx" | 2 => bs "rdx" | 3 => bs "rbx"
  | 4 => bs "rsp" | 5 => bs "rbp" | 6 => bs "rsi" | _ => bs "rdi"
  end.

(** The canonical text of a memory operand: [[base+index*scale+disp]]. *)
Definition print_index (idx : option (Z * Z)) : bytes :=
  match idx with
  | Some (i, s) => ch "+" :: reg64_name i ++ ch "*" :: decimal s
  | None => []
  end.

Definition print_disp (d : Z) : bytes :=
  if d =? 0 then [] else if 0 <? d then ch "+" :: decimal d else ch "-" :: decimal (- d).

Definition print_mem (base : Z) (idx : option (Z * Z)) (d : Z) : bytes :=
  ch "[" :: (reg64_name base ++ print_index idx ++ print_disp d) ++ [ch "]"].

Definition ok_index (idx : option (Z * Z)) : Prop :=
  match idx with Some (i, s) => is_code i ∧ valid_scale s = true | None => True end.

Definition plain (c : Z) : Prop := ascii_space c = false ∧ is_sign c = false.

Lemma is_code_cases (P : Z → Prop) c :
  is_code c → P 0 → P 1 → P 2 → P 3 → P 4 → P 5 → P 6 → P 7 → P c.
Proof.
  unfold is_code. intros.
  assert (c = 0 ∨ c = 1 ∨ c = 2 ∨ c = 3 ∨ c = 4 ∨ c = 5 ∨ c = 6 ∨ c = 7) as Hc by lia.
  by repeat destruct Hc as [-> | Hc]; subst.
Qed.

Lemma valid_scale_cases (P : Z → Prop) s : valid_scale s = true → P 1 → P 2 → P 4 → P 8 → P s.
Proof.
  unfold valid_scale. intros H.
  destruct (Z.eqb_spec s 1), (Z.eqb_spec s 2), (Z.eqb_spec s 4), (Z.eqb_spec s 8); by subst.
Qed.

Lemma table_lookup_nonletter c r :
  c < 97 → table_lookup (c :: r) register_table = None.
Proof.
  intros Hc. cbn [table_lookup register_table bytes_of_string byte_of_ascii equalBytes].
  repeat match goal with
  | |- context [if (if c =? ?x then _ else _) then _ else _] =>
      destruct (Z.eqb_spec c x) as [?|_]; [exfalso; subst; revert Hc; vm_compute; done|]
  end. done.
Qed.

Lemma parseRegister_nonletter c r :
  (length (c :: r) ≤ 16)%nat → lower c < 97 → parseRegister (c :: r) = Ok None.
Proof.
  intros Hl Hc. unfold parseRegister. cbn [nilb map].
  destruct (Nat.ltb_spec 16 (length (c :: r))); [lia|].
  rewrite table_lookup_nonletter by done. unfold parse_numbered, parse_r1.
  destruct (Z.eqb_spec (lower c) 114); [lia|]. cbn.
  repeat (case_match; try done); rewrite ?andb_false_r in *; done.
Qed.

Lemma lower_digit c : is_dec_digit c → lower c = c.
Proof. unfold is_dec_digit, lower. intros. destruct (Z.leb_spec 65 c); [lia|done]. Qed.

Lemma plain_digit c : is_dec_digit c → plain c.
Proof.
  unfold is_dec_digit, plain, ascii_space, is_sign. intros.
  repeat match goal with |- context [?a =? ?b] => destruct (Z.eqb_spec a b); try lia end; done.
Qed.

Lemma span_all_nil {A} (f : A → bool) l : Forall (λ x, f x = true) l → span f l = (l, []).
Proof. intros. rewrite <- (app_nil_r l) at 1. by apply span_all. Qed.

Lemma split_star_none l : Forall (λ c, c ≠ ch "*") l → split_star l = None.
Proof.
  intros H. unfold split_star. rewrite span_all_nil; [done|].
  eapply List.Forall_impl; [|exact H]. intros c Hc. cbn. by destruct (Z.eqb_spec c 42).
Qed.

Lemma mem_part_decimal sign v a :
  (length (decimal v) ≤ 16)%nat → is_word 64 v →
  mem_part sign (decimal v) a =
    Ok (MemAcc (ma_base a) (ma_index a) (ma_scale a) (i64 (ma_disp a + i64 (sign * i64 v)))).
Proof.
  intros Hl Hv. unfold mem_part. pose proof (decimal_chars v ltac:(unfold is_word in Hv; lia)) as Hc.
  destruct (decimal v) as [|c r] eqn:E; [by apply decimal_nonempty in E|].
  inversion_clear Hc as [|? ? Hd Hr].
  rewrite parseRegister_nonletter; [|done|rewrite lower_digit by done; unfold is_dec_digit in Hd; lia].
  cbn [mbind outcome_bind]. rewrite split_star_none.
  - by rewrite <- E, parseNumber_decimal.
  - constructor; [unfold is_dec_digit in Hd; lia|].
    eapply List.Forall_impl; [|exact Hr]. unfold is_dec_digit. cbn. lia.
Qed.

Lemma reg64_name_plain c : is_code c → Forall plain (reg64_name c).
Proof.
  intros H. apply (is_code_cases (λ c, Forall plain (reg64_name c)) c H);
  by repeat constructor.
Qed.

Lemma mem_part_reg sign c a :
  is_code c → ma_base a = 255 →
  mem_part sign (reg64_name c) a = Ok (MemAcc c (ma_index a) (ma_scale a) (ma_disp a)).
Proof.
  intros Hc Ha. unfold mem_part. rewrite Ha.
  apply (is_code_cases (λ c, (parseRegister (reg64_name c) ≫= _) = Ok (MemAcc c _ _ _)) c Hc);
  vm_compute; done.
Qed.

Lemma index_part_plain i s :
  is_code i → valid_scale s = true → Forall plain (reg64_name i ++ ch "*" :: decimal s).
Proof.
  intros Hi Hs. apply Forall_app. split; [by apply reg64_name_plain|].
  apply (valid_scale_cases (λ s, Forall plain (ch "*" :: decimal s)) s Hs);
  by repeat constructor.
Qed.

Lemma index_part_split i s :
  is_code i → valid_scale s = true →
  parseRegister (reg64_name i ++ ch "*" :: decimal s) = Ok None
  ∧ split_star (reg64_name i ++ ch "*" :: decimal s) = Some (reg64_name i, decimal s)
  ∧ parseRegister (trimSpace (reg64_name i)) = Ok (Some (i, 64))
  ∧ parseNumber (trimSpace (decimal s)) = Ok s.
Proof.
  intros Hi Hs. revert s Hs. pattern i.
  apply (is_code_cases _ i Hi); intros s Hs; pattern s;
  apply (valid_scale_cases _ s Hs); vm_compute; done.
Qed.

Lemma mem_part_index sign i s a :
  is_code i → valid_scale s = true → ma_index a = 255 →
  mem_part sign (reg64_name i ++ ch "*" :: decimal s) a = Ok (MemAcc (ma_base a) i s (ma_disp a)).
Proof.
  intros Hi Hs Ha. destruct (index_part_split i s Hi Hs) as (H1 & H2 & H3 & H4).
  unfold mem_part. rewrite H1. cbn [mbind outcome_bind]. rewrite H2, H3.
  cbn [mbind outcome_bind]. rewrite H4, Hs, Ha. cbn. f_equal. f_equal.
  pattern s. by apply (valid_scale_cases _ s Hs).
Qed.

Definition starts_signed (l : bytes) : Prop :=
  match l with [] => True | c :: _ => is_sign c = true end.

Lemma plain_not_blank c : plain c → is_blank c = false.
Proof.
  unfold plain, ascii_space, is_blank. intros [H _].
  destruct (c =? 32), (c =? 9); done.
Qed.

Lemma trimSpace_plain l : Forall plain l → trimSpace l = l.
Proof.
  intros H. apply trimSpace_id.
  - destruct H as [|c r [? _]]; done.
  - destruct (last l) as [c|] eqn:E; [|done].
    apply last_Some_elem_of in E. rewrite Forall_forall in H. apply H in E. apply E.
Qed.

Lemma span_part part rest :
  Forall plain part → starts_signed rest →
  span (λ c, negb (is_sign c)) (part ++ rest) = (part, rest).
Proof.
  intros Hp Hr. apply span_all.
  - eapply List.Forall_impl; [|exact Hp]. intros c [_ ->]. done.
  - destruct rest; cbn in *; [done | by rewrite Hr].
Qed.

Lemma mem_loop_plain f part rest a :
  part ≠ [] → Forall plain part → starts_signed rest →
  mem_loop (S f) (part ++ rest) a = (mem_part 1 part a ≫= mem_loop f rest).
Proof.
  intros Hn Hp Hr. pose proof (span_part part rest Hp Hr) as Hs.
  pose proof (trimSpace_plain part Hp) as Ht.
  destruct part as [|c r]; [done|]. destruct (Forall_cons_1 _ _ _ Hp) as [Hc _].
  cbn [mem_loop app drop_while]. rewrite (plain_not_blank c Hc). destruct Hc as [_ Hc]. rewrite Hc.
  assert ((c =? ch "-") = false) as -> by (revert Hc; unfold is_sign; by destruct (c =? 45), (c =? 43)).
  cbn [andb]. change (c :: r ++ rest) with ((c :: r) ++ rest). by rewrite Hs, Ht.
Qed.

Lemma mem_loop_signed f c part rest a :
  is_sign c = true → part ≠ [] → Forall plain part → starts_signed rest →
  mem_loop (S f) (c :: part ++ rest) a =
    (mem_part (if c =? ch "-" then -1 else 1) part a ≫= mem_loop f rest).
Proof.
  intros Hc Hn Hp Hr. pose proof (span_part part rest Hp Hr) as Hs.
  pose proof (trimSpace_plain part Hp) as Ht.
  cbn [mem_loop drop_while].
  assert (is_blank c = false) as ->.
  { revert Hc. unfold is_sign, is_blank.
    destruct (Z.eqb_spec c 43), (Z.eqb_spec c 45); subst; done. }
  rewrite Hc. destruct part as [|d r]; [done|].
  destruct (Forall_cons_1 _ _ _ Hp) as [Hd _].
  cbn [app drop_while]. rewrite (plain_not_blank d Hd). cbn [andb nilb].
  change (d :: r ++ rest) with ((d :: r) ++ rest). by rewrite Hs, Ht.
Qed.

Lemma print_disp_signed d : starts_signed (print_disp d).
Proof. unfold print_disp. repeat case_match; done. Qed.

Lemma decimal_plain v : 0 ≤ v → Forall plain (decimal v).
Proof. intros. eapply List.Forall_impl; [apply plain_digit | by apply decimal_chars]. Qed.

(** The displacement part. *)
Lemma mem_loop_disp f d a :
  (2 ≤ f)%nat → (length (print_disp d) ≤ 17)%nat → - 2 ^ 63 < d < 2 ^ 63 → ma_disp a = 0 →
  mem_loop f (print_disp d) a = Ok (MemAcc (ma_base a) (ma_index a) (ma_scale a) d).
Proof.
  intros Hf Hl Hd Ha. destruct f as [|[|f]]; [lia..|]. unfold print_disp in *.
  destruct (Z.eqb_spec d 0) as [->|]; [cbn; rewrite <- Ha; by destruct a|].
  assert (Hs : ∀ c v, is_sign c = true → 0 ≤ v < 2 ^ 63 → (length (decimal v) ≤ 16)%nat →
    d = (if c =? ch "-" then -1 else 1) * v →
    mem_loop (S (S f)) (c :: decimal v) a = Ok (MemAcc (ma_base a) (ma_index a) (ma_scale a) d)).
  { intros c v Hc Hv Hlv Hdv. rewrite <- (app_nil_r (decimal v)).
    rewrite mem_loop_signed; [|done|apply decimal_nonempty|apply decimal_plain; lia|done].
    rewrite mem_part_decimal; [|done|unfold is_word; lia]. cbn [mbind outcome_bind].
    rewrite Ha. rewrite (swrap_small 64 v), <- Hdv by (change (64 - 1) with 63; lia).
    rewrite (swrap_small 64 d), Z.add_0_l, swrap_small by (change (64 - 1) with 63; lia). done. }
  destruct (Z.ltb_spec 0 d); rewrite length_cons in Hl; apply Hs; try done; cbn [Z.eqb Pos.eqb]; lia.
Qed.

Lemma parseMemory_print base idx d :
  is_code base → ok_index idx → - 2 ^ 63 < d < 2 ^ 63 →
  (length (print_disp d) ≤ 17)%nat →
  let inner := reg64_name base ++ print_index idx ++ print_disp d in
  parseMemory inner =
    Ok (OMem base (default 255 (fst <$> idx)) (default 1 (snd <$> idx)) d).
Proof.
  intros Hb Hi Hd Hl inner. unfold parseMemory. subst inner.
  assert (Hn : reg64_name base ≠ [] ∧ (3 ≤ length (reg64_name base))%nat).
  { pattern base. apply (is_code_cases _ base Hb); split; done || (cbn; lia). }
  destruct Hn as [Hn Hlen]. assert (Hbase : (base =? 255) = false) by (unfold is_code in Hb; lia).
  set (fuel := length _). assert (Hf : (3 ≤ fuel)%nat) by (subst fuel; rewrite length_app; lia). clearbody fuel.
  rewrite mem_loop_plain; [|done|by apply reg64_name_plain|
    destruct idx as [[i s]|]; [done|apply print_disp_signed]].
  rewrite mem_part_reg by done. cbn [mbind outcome_bind ma_index ma_scale ma_disp].
  destruct idx as [[i s]|].
  - destruct Hi as [Hi Hs]. destruct fuel as [|fuel]; [lia|].
    change (print_index (Some (i, s))) with (ch "+" :: (reg64_name i ++ ch "*" :: decimal s)).
    rewrite <- app_comm_cons, mem_loop_signed; [|done|by destruct (reg64_name i)|
      by apply index_part_plain|apply print_disp_signed].
    rewrite mem_part_index by done. cbn [mbind outcome_bind ma_base ma_disp].
    rewrite mem_loop_disp; [|lia|done..]. cbn. by rewrite Hbase.
  - cbn [print_index app]. rewrite mem_loop_disp; [|lia|done..]. cbn. by rewrite Hbase.
Qed.

Lemma parseOperand_print base idx d :
  is_code base → ok_index idx → - 2 ^ 63 < d < 2 ^ 63 →
  (length (print_mem base idx d) ≤ 16)%nat →
  parseOperand (print_mem base idx d) =
    Ok (OMem base (default 255 (fst <$> idx)) (default 1 (snd <$> idx)) d).
Proof.
  intros Hb Hi Hd Hl. unfold print_mem in *.
  pose proof (λ H, parseMemory_print base idx d Hb Hi Hd H) as Hm. cbv zeta in Hm.
  set (inner := reg64_name base ++ _) in *.
  assert (Hp : Forall (λ c, ascii_space c = false) inner).
  { subst inner. rewrite !Forall_app. split_and!.
    - eapply List.Forall_impl; [|by apply reg64_name_plain]. by intros c [? _].
    - destruct idx as [[i s]|]; [|done]. destruct Hi. constructor; [done|].
      eapply List.Forall_impl; [|by apply index_part_plain]. by intros c [? _].
    - unfold print_disp. repeat case_match; try done; constructor; try done;
      (eapply List.Forall_impl; [|apply decimal_plain; lia]; by intros c [? _]). }
  unfold parseOperand. rewrite trimSpace_id; [|done|by rewrite app_comm_cons, last_snoc].
  rewrite parseRegister_nonletter by done. cbn [mbind outcome_bind].
  rewrite app_comm_cons, last_snoc. rewrite <- app_comm_cons, removelast_last.
  assert ((2 <? length (ch "[" :: inner ++ [ch "]"]))%nat = true) as ->.
  { apply Nat.ltb_lt. cbn. rewrite length_app. cbn. subst inner.
    rewrite length_app. unfold is_code in Hb. destruct (reg64_name base) eqn:E; [|cbn; lia].
    exfalso. revert E. pattern base. by apply (is_code_cases _ base Hb). }
  cbn [andb]. rewrite trimSpace_id.
  - assert (nilb inner = false) as Hni.
    { subst inner. destruct (reg64_name base) eqn:E; [|done].
      exfalso. revert E. pattern base. by apply (is_code_cases _ base Hb). }
    cbv zeta. change (ch "[" =? ch "[") with true. rewrite Hni. cbn [default]. apply Hm.
    subst inner. rewrite length_cons, !length_app in Hl. lia.
  - destruct Hp; done.
  - destruct (last inner) eqn:E; [|done]. apply last_Some_elem_of in E.
    rewrite Forall_forall in Hp. by apply Hp.
Qed.

(** ** Properties *)

(** parseOperand returns a well-formed operand or an error for every token of
    at most 16 bytes (register codes below 8, a legal scale, a 64-bit immediate
    or displacement) and panics on every longer one. *)
Theorem parseOperand_total tok :
  match parseOperand tok with
  | Ok o => wf_operand o
  | Err _ => True
  | Panic => (16 < length (trimSpace tok))%nat
  | Diverge => False
  end.
Proof.
  destruct (decide (length (trimSpace tok) ≤ 16)%nat) as [H|H].
  - pose proof (parseOperand_post tok H) as Hp. by destruct (parseOperand tok).
  - rewrite parseOperand_panic by lia. lia.
Qed.

(** C11 Printing a memory operand (base register, optional scaled index, signed
    displacement) and parsing it gives the operand back, whenever the text is
    short enough for the parser. *)
Theorem parseOperand_roundtrip base idx d :
  is_code base → ok_index idx → - 2 ^ 63 < d < 2 ^ 63 →
  (length (print_mem base idx d) ≤ 16)%nat →
  parseOperand (print_mem base idx d) =
    Ok (OMem base (default 255 (fst <$> idx)) (default 1 (snd <$> idx)) d).
Proof. apply parseOperand_print. Qed.

Theorem parseOperand_roundtrip_witness :
  parseOperand (print_mem 3 (Some (6, 4)) (-20)) = Ok (OMem 3 6 4 (-20)).
Proof.
  apply (parseOperand_roundtrip 3 (Some (6, 4)) (-20)); [done|by split|lia|].
  vm_compute. repeat constructor.
Defined.
