(* ===== verification/X86Encode.v ===== *)
(** * ModRM and SIB encoding of the built-in assembler

    Models encodeModRM, encodeSIB and writeMemOperand of
    internal/assembler/x86.go, and states what the bytes mean with a decoder of
    the addressing forms of 64-bit mode (Intel SDM volume 2, tables 2-2 and
    2-3, no REX.R/X/B). *)
From S2P Require Import Prelude AsmBytes AsmOperand.

(** ** Operations *)

Definition encodeModRM (md reg rm : Z) : Z :=
  Z.lor (Z.lor (u8 (Z.shiftl md 6)) (u8 (Z.shiftl (Z.land reg 7) 3))) (Z.land rm 7).

Definition encodeSIB (scale index base : Z) : Z :=
  Z.lor (Z.lor (u8 (Z.shiftl (Z.land scale 3) 6)) (u8 (Z.shiftl (Z.land index 7) 3)))
    (Z.land base 7).

(** binary.LittleEndian.PutUint32 / PutUint64 into a fresh buffer. *)
Definition put32 (v : Z) : bytes := le_bytes 4 (u32 v).
Definition put64 (v : Z) : bytes := le_bytes 8 (u64 v).

(** writeMemOperand: the bytes appended to the current section; 255 is the
    absent base or index. *)
Definition writeMemOperand (base index scale dispVal reg : Z) : bytes :=
  if negb (index =? 255) then
    if dispVal =? 0 then [encodeModRM 0 reg 4; encodeSIB scale index base]
    else if (-128 <=? dispVal) && (dispVal <=? 127) then
      [encodeModRM 1 reg 4; encodeSIB scale index base; u8 dispVal]
    else [encodeModRM 2 reg 4; encodeSIB scale index base] ++ put32 dispVal
  else if base =? 255 then encodeModRM 0 reg 5 :: put32 dispVal
  else if dispVal =? 0 then [encodeModRM 0 reg base]
  else if (-128 <=? dispVal) && (dispVal <=? 127) then [encodeModRM 1 reg base; u8 dispVal]
  else encodeModRM 2 reg base :: put32 dispVal.

(** ** The meaning of the bytes *)

(** An effective address: base register, index register with its factor, and a
    signed displacement; [ea_rip] marks an address relative to the next
    instruction. *)
Record ea := EA { ea_base : option Z; ea_index : option (Z * Z); ea_disp : Z; ea_rip : bool }.

#[export] Instance ea_eq_dec : EqDecision ea.
Proof. solve_decision. Defined.

Definition modrm_fields (b : Z) : Z * Z * Z :=
  (Z.shiftr b 6, Z.land (Z.shiftr b 3) 7, Z.land b 7).

(** The displacement selected by the mod field. *)
Definition take_disp (md : Z) (l : bytes) : option (Z * bytes) :=
  if md =? 0 then Some (0, l)
  else if md =? 1 then
    match l with b :: r => Some (swrap 8 b, r) | [] => None end
  else
    match l with
    | a :: b :: c :: d :: r => Some (swrap 32 (le_val [a; b; c; d]), r)
    | _ => None
    end.

(** Decodes a ModRM byte that refers to memory, with what follows it: the reg
    field, the address and the remaining bytes. *)
Definition decode_mem (l : bytes) : option (Z * ea * bytes) :=
  match l with
  | [] => None
  | m :: r =>
      let '(md, reg, rm) := modrm_fields m in
      if md =? 3 then None
      else if rm =? 4 then
        match r with
        | [] => None
        | sib :: r2 =>
            let '(ss, idx, b) := modrm_fields sib in
            let index := if idx =? 4 then None else Some (idx, 2 ^ ss) in
            if (md =? 0) && (b =? 5) then
              '(d, r3) ← take_disp 2 r2; Some (reg, EA None index d false, r3)
            else '(d, r3) ← take_disp md r2; Some (reg, EA (Some b) index d false, r3)
        end
      else if (md =? 0) && (rm =? 5) then
        '(d, r3) ← take_disp 2 r; Some (reg, EA None None d true, r3)
      else '(d, r3) ← take_disp md r; Some (reg, EA (Some rm) None d false, r3)
  end.

(** ** Field round trips *)

Lemma modrm_range md reg rm : is_byte (encodeModRM md reg rm).
Proof.
  unfold encodeModRM, is_byte, wrap. rewrite <- !Z.land_ones by lia.
  change 7 with (Z.ones 3).
  set (x := Z.lor _ _). assert (x = Z.land x (Z.ones 8)) as ->.
  { subst x. apply Z.bits_inj'. intros n Hn. rewrite !Z.land_spec, !Z.lor_spec, !Z.land_spec.
    destruct (Z.ltb_spec n 8).
    - rewrite !Z.ones_spec_low by lia. by rewrite !andb_true_r.
    - rewrite (Z.ones_spec_high 8) by lia. rewrite (Z.ones_spec_high 3 n) by lia.
      by rewrite !andb_false_r. }
  rewrite Z.land_ones by lia. apply Z.mod_pos_bound. lia.
Qed.

(** Three fields of 2, 3 and 3 bits, by evaluation on the 256 cases. *)
Definition pack (a b c : Z) : Z :=
  Z.lor (Z.lor (u8 (Z.shiftl a 6)) (u8 (Z.shiftl b 3))) c.

Lemma fields_pack a b c :
  0 ≤ a < 4 → is_code b → is_code c → modrm_fields (pack a b c) = (a, b, c).
Proof.
  intros Ha Hb Hc.
  assert (a = 0 ∨ a = 1 ∨ a = 2 ∨ a = 3) as Ha' by lia.
  pattern b; apply (is_code_cases _ b Hb); pattern c; apply (is_code_cases _ c Hc);
  destruct Ha' as [-> | [-> | [-> | ->]]]; vm_compute; done.
Qed.

Lemma land7_code r : is_code r → Z.land r 7 = r.
Proof. intros H. pattern r. by apply (is_code_cases _ r H). Qed.

Lemma land7_range r : is_code (Z.land r 7).
Proof.
  change 7 with (Z.ones 3). rewrite Z.land_ones by lia. unfold is_code.
  pose proof (Z.mod_pos_bound r (2 ^ 3)). lia.
Qed.

Lemma fields_modrm md reg rm :
  0 ≤ md < 4 → modrm_fields (encodeModRM md reg rm) = (md, Z.land reg 7, Z.land rm 7).
Proof. intros. apply (fields_pack md); [done|apply land7_range..]. Qed.

Lemma fields_sib scale index base :
  modrm_fields (encodeSIB scale index base) = (Z.land scale 3, Z.land index 7, Z.land base 7).
Proof.
  apply (fields_pack (Z.land scale 3)); [|apply land7_range..].
  change 3 with (Z.ones 2). rewrite Z.land_ones by lia.
  pose proof (Z.mod_pos_bound scale (2 ^ 2)). lia.
Qed.

Create Rewrite HintDb x86.
#[export] Hint Rewrite fields_sib : x86.
#[export] Hint Rewrite fields_modrm using lia : x86.

Lemma swrap8_u8 d : -128 ≤ d ≤ 127 → swrap 8 (u8 d) = d.
Proof. intros. rewrite swrap_wrap by lia. apply swrap_small; cbn; lia. Qed.

Lemma take_disp8 d r : -128 ≤ d ≤ 127 → take_disp 1 (u8 d :: r) = Some (d, r).
Proof. intros. cbn. by rewrite swrap8_u8. Qed.


Lemma le_val_put32 v : le_val (put32 v) = u32 v.
Proof.
  unfold put32. rewrite le_val_le_bytes. change (8 * Z.of_nat 4) with 32.
  apply wrap_small, wrap_range. lia.
Qed.

Lemma le_val_put64 v : le_val (put64 v) = u64 v.
Proof.
  unfold put64. rewrite le_val_le_bytes. change (8 * Z.of_nat 8) with 64.
  apply wrap_small, wrap_range. lia.
Qed.

Lemma take_disp32 d r :
  - 2 ^ 31 ≤ d < 2 ^ 31 → take_disp 2 (put32 d ++ r) = Some (d, r).
Proof.
  intros. pose proof (le_val_put32 d) as Hv. unfold put32 in *.
  cbn [le_bytes app take_disp Z.eqb Pos.eqb] in *. rewrite Hv.
  rewrite swrap_wrap, swrap_small by (done || (change (32 - 1) with 31; lia)). done.
Qed.

(** ** The address an encoded memory operand denotes *)

(** What the bytes of a memory operand with index mean: the factor is 2 to the
    low two bits of the requested scale. *)
Definition index_ea (index scale : Z) : option (Z * Z) :=
  if index =? 255 then None else Some (index, 2 ^ Z.land scale 3).

(** The operands whose ModRM form is not one of the escapes: rsp cannot be an
    index, rsp as a lone base needs a SIB byte, and rbp as a base with no
    displacement is the RIP-relative or the absolute form. *)
Definition encodable (base index disp : Z) : bool :=
  negb ((base =? 5) && (disp =? 0)) &&
  if index =? 255 then negb (base =? 4) else negb (index =? 4).

Lemma decode_mem_modrm md reg rm r :
  0 ≤ md < 3 → is_code rm → rm ≠ 4 → ¬ (md = 0 ∧ rm = 5) →
  decode_mem (encodeModRM md reg rm :: r) =
    ('(d, r3) ← take_disp md r; Some (Z.land reg 7, EA (Some rm) None d false, r3)).
Proof.
  intros Hm Hr H4 H5. cbn [decode_mem]. rewrite fields_modrm, (land7_code rm) by (done || lia).
  destruct (Z.eqb_spec md 3); [lia|]. destruct (Z.eqb_spec rm 4); [lia|].
  destruct (Z.eqb_spec md 0), (Z.eqb_spec rm 5); cbn; done || lia.
Qed.

Lemma decode_mem_sib md reg scale index base r :
  0 ≤ md < 3 → is_code index → index ≠ 4 → is_code base → ¬ (md = 0 ∧ base = 5) →
  decode_mem (encodeModRM md reg 4 :: encodeSIB scale index base :: r) =
    ('(d, r3) ← take_disp md r;
     Some (Z.land reg 7, EA (Some base) (Some (index, 2 ^ Z.land scale 3)) d false, r3)).
Proof.
  intros Hm Hi H4 Hb H5. cbn [decode_mem]. rewrite fields_modrm by lia.
  destruct (Z.eqb_spec md 3); [lia|]. change (Z.land 4 7 =? 4) with true. cbv iota.
  rewrite fields_sib, (land7_code index), (land7_code base) by done.
  destruct (Z.eqb_spec index 4); [lia|].
  destruct (Z.eqb_spec md 0), (Z.eqb_spec base 5); cbn; done || lia.
Qed.

Lemma writeMemOperand_decode base index scale disp reg rest :
  is_code base → index = 255 ∨ is_code index → - 2 ^ 31 ≤ disp < 2 ^ 31 →
  encodable base index disp = true →
  decode_mem (writeMemOperand base index scale disp reg ++ rest) =
    Some (Z.land reg 7, EA (Some base) (index_ea index scale) disp false, rest).
Proof.
  intros Hb Hi Hd He. unfold encodable in He. apply andb_true_iff in He as [H5 H4].
  assert (H5' : ¬ (disp = 0 ∧ base = 5)) by lia. clear H5. revert H4.
  unfold writeMemOperand, index_ea. destruct (Z.eqb_spec index 255) as [->|Hn]; intros H4; cbn [negb].
  - destruct (Z.eqb_spec base 255); [unfold is_code in Hb; lia|].
    destruct (Z.eqb_spec disp 0) as [->|]; [|destruct (_ && _) eqn:E8].
    + cbn [app]. rewrite decode_mem_modrm by (done || lia). done.
    + apply andb_true_iff in E8 as [? ?]. cbn [app].
      rewrite decode_mem_modrm, take_disp8 by (done || lia). done.
    + rewrite <- app_comm_cons, decode_mem_modrm, take_disp32 by (done || lia). done.
  - destruct Hi as [|Hi]; [done|].
    destruct (Z.eqb_spec disp 0) as [->|]; [|destruct (_ && _) eqn:E8].
    + cbn [app]. rewrite decode_mem_sib by (done || lia). done.
    + apply andb_true_iff in E8 as [? ?]. cbn [app].
      rewrite decode_mem_sib, take_disp8 by (done || lia). done.
    + cbn [app]. rewrite decode_mem_sib, take_disp32 by (done || lia). done.
Qed.

(** No scale that the operand parser accepts is encoded as itself. *)
Lemma scale_field_wrong s : valid_scale s = true → 2 ^ Z.land s 3 ≠ s.
Proof. intros H. pattern s. by apply (valid_scale_cases _ s H). Qed.

Lemma length_writeMemOperand base index scale disp reg :
  (1 ≤ length (writeMemOperand base index scale disp reg) ≤ 6)%nat.
Proof. unfold writeMemOperand. repeat case_match; cbn; lia. Qed.

Example rsp_needs_sib : decode_mem (writeMemOperand 4 255 1 0 0) = None.
Proof. done. Qed.
Example rbp_is_rip :
  decode_mem (writeMemOperand 5 255 1 0 0 ++ [1; 0; 0; 0]) = Some (0, EA None None 1 true, []).
Proof. done. Qed.

(** ** Properties *)

(** The bytes writeMemOperand emits decode to the requested base register and
    displacement in every addressing form but the escapes of the encoding; the
    index is kept and its factor is 2 to the low two bits of the requested
    scale. *)
Theorem writeMemOperand_correct base index scale disp reg rest :
  is_code base → index = 255 ∨ is_code index → - 2 ^ 31 ≤ disp < 2 ^ 31 →
  encodable base index disp = true →
  decode_mem (writeMemOperand base index scale disp reg ++ rest) =
    Some (Z.land reg 7, EA (Some base) (index_ea index scale) disp false, rest).
Proof. apply writeMemOperand_decode. Qed.

Theorem writeMemOperand_correct_witness :
  decode_mem (writeMemOperand 3 6 4 (-200) 1 ++ [0x90]) =
    Some (1, EA (Some 3) (Some (6, 1)) (-200) false, [0x90]).
Proof. apply (writeMemOperand_correct 3 6 4 (-200) 1 [0x90]); [done|by right|lia|done]. Defined.

(** None of the scales the operand parser accepts is encoded as itself: the
    factor of the emitted index always differs from the requested one. *)
Theorem scale_never_encoded base index scale disp reg rest :
  is_code base → is_code index → index ≠ 4 → - 2 ^ 31 ≤ disp < 2 ^ 31 → ¬ (base = 5 ∧ disp = 0) →
  valid_scale scale = true →
  ∃ factor, factor ≠ scale ∧
    decode_mem (writeMemOperand base index scale disp reg ++ rest) =
      Some (Z.land reg 7, EA (Some base) (Some (index, factor)) disp false, rest).
Proof.
  intros Hb Hi H4 Hd H5 Hs. exists (2 ^ Z.land scale 3). split; [by apply scale_field_wrong|].
  rewrite writeMemOperand_decode; [|done|by right|done|].
  - unfold index_ea. destruct (Z.eqb_spec index 255); [unfold is_code in Hi; lia|done].
  - unfold encodable. destruct (Z.eqb_spec base 5), (Z.eqb_spec disp 0), (Z.eqb_spec index 255),
      (Z.eqb_spec index 4); cbn; unfold is_code in *; done || lia || tauto.
Qed.

Theorem scale_never_encoded_witness :
  ∃ factor, factor ≠ 8 ∧
    decode_mem (writeMemOperand 0 1 8 0 2 ++ []) = Some (2, EA (Some 0) (Some (1, factor)) 0 false, []).
Proof. apply (scale_never_encoded 0 1 8 0 2 []); done || lia. Defined.
