(* ===== verification/AsmState.v ===== *)
(** * State of the built-in assembler

    Models the structs parser, sectionState and symbolState of
    internal/assembler/emitter.go, the byte appenders of section_helpers.go and
    the symbol table operations.  The scratch slice argsPool and the pools are
    not observable and are left out; the array symbols with its counter symCount
    is the list of its first symCount entries; the pointer current is a tag. *)
From S2P Require Import Prelude AsmBytes.

(** ** Constants of emitter.go *)
Definition rX86_64_64 : Z := 1.
Definition rX86_64_PC32 : Z := 2.
Definition shFlagWrite : Z := 1.
Definition shFlagAlloc : Z := 2.
Definition shFlagExecInstr : Z := 4.
Definition stBindLocal : Z := 0.
Definition stBindGlobal : Z := 1.
Definition stTypeNotype : Z := 0.
Definition shnUnDef : Z := 0.
Definition max_symbols : nat := Z.to_nat 4096.

(** ** Data *)
Record sectionState := MkSection {
  sec_name : bytes;
  sec_data : bytes;
  sec_size : Z;
  sec_flags : Z;
  sec_align : Z }.

Record symbolState := Symbol {
  sym_name : bytes;
  sym_nameOffset : Z;
  sym_value : Z;
  sym_shndx : Z;
  sym_bind : Z;
  sym_typ : Z }.

Record reloc := Reloc {
  rel_sec : Z;
  rel_off : Z;
  rel_sym : Z;
  rel_typ : Z;
  rel_addend : Z }.

(** What the pointer p.current refers to. *)
Inductive sec_ref := SText | SData | SBss.

#[export] Instance sec_ref_eq_dec : EqDecision sec_ref.
Proof. solve_decision. Defined.

Record parser := Parser {
  p_src : bytes;
  p_pos : nat;
  p_text : sectionState;
  p_data : sectionState;
  p_bss : sectionState;
  p_current : sec_ref;
  p_symbols : list symbolState;
  p_relocs : list reloc }.

Definition get_section (r : sec_ref) (p : parser) : sectionState :=
  match r with SText => p_text p | SData => p_data p | SBss => p_bss p end.

Definition set_section (r : sec_ref) (s : sectionState) (p : parser) : parser :=
  match r with
  | SText => Parser (p_src p) (p_pos p) s (p_data p) (p_bss p) (p_current p) (p_symbols p) (p_relocs p)
  | SData => Parser (p_src p) (p_pos p) (p_text p) s (p_bss p) (p_current p) (p_symbols p) (p_relocs p)
  | SBss => Parser (p_src p) (p_pos p) (p_text p) (p_data p) s (p_current p) (p_symbols p) (p_relocs p)
  end.

Definition current (p : parser) : sectionState := get_section (p_current p) p.

Definition set_current (r : sec_ref) (p : parser) : parser :=
  Parser (p_src p) (p_pos p) (p_text p) (p_data p) (p_bss p) r (p_symbols p) (p_relocs p).
Definition set_symbols (l : list symbolState) (p : parser) : parser :=
  Parser (p_src p) (p_pos p) (p_text p) (p_data p) (p_bss p) (p_current p) l (p_relocs p).
Definition set_relocs (l : list reloc) (p : parser) : parser :=
  Parser (p_src p) (p_pos p) (p_text p) (p_data p) (p_bss p) (p_current p) (p_symbols p) l.
Definition set_pos (n : nat) (p : parser) : parser :=
  Parser (p_src p) n (p_text p) (p_data p) (p_bss p) (p_current p) (p_symbols p) (p_relocs p).

(** ** Appending to a section (section_helpers.go) *)

(** AppendBytes and AppendByte: both branches of the code append. *)
Definition AppendBytes (l : bytes) (s : sectionState) : sectionState :=
  MkSection (sec_name s) (sec_data s ++ l) (sec_size s) (sec_flags s) (sec_align s).
Definition AppendByte (b : Z) (s : sectionState) : sectionState := AppendBytes [b] s.
Definition AppendZeros (count : Z) (s : sectionState) : sectionState :=
  if count <=? 0 then s else AppendBytes (replicate (Z.to_nat count) 0) s.
Definition set_size (n : Z) (s : sectionState) : sectionState :=
  MkSection (sec_name s) (sec_data s) n (sec_flags s) (sec_align s).

(** p.current.AppendBytes(l) *)
Definition append_cur (l : bytes) (p : parser) : parser :=
  set_section (p_current p) (AppendBytes l (current p)) p.

(** ** Symbols *)

(** sectionIndex: by the second byte of the name. *)
Definition sectionIndex (s : sectionState) : outcome Z :=
  match sec_name s !! 1%nat with
  | None => Panic
  | Some c => Ok (if c =? ch "t" then 1 else if c =? ch "d" then 2
                  else if c =? ch "b" then 3 else shnUnDef)
  end.

Definition currentOffset (s : sectionState) : Z :=
  if (1 <? length (sec_name s))%nat && (default 0 (sec_name s !! 1%nat) =? ch "b")
  then sec_size s else Zlen (sec_data s).

Fixpoint findSymbol_from (i : Z) (name : bytes) (l : list symbolState) : Z :=
  match l with
  | [] => -1
  | s :: r => if equalBytes (sym_name s) name then i else findSymbol_from (i + 1) name r
  end.

Definition findSymbol (name : bytes) (p : parser) : Z := findSymbol_from 0 name (p_symbols p).

(** The update of an existing entry. *)
Definition merge_symbol (value shndx bind : Z) (s : symbolState) : symbolState :=
  let s1 := if negb (shndx =? shnUnDef)
            then Symbol (sym_name s) (sym_nameOffset s) value shndx (sym_bind s) (sym_typ s) else s in
  if bind =? stBindGlobal
  then Symbol (sym_name s1) (sym_nameOffset s1) (sym_value s1) (sym_shndx s1) stBindGlobal (sym_typ s1)
  else s1.

Definition addSymbol (name : bytes) (value shndx bind : Z) (p : parser) : outcome parser :=
  let idx := findSymbol name p in
  if 0 <=? idx then
    Ok (set_symbols (alter (merge_symbol value shndx bind) (Z.to_nat idx) (p_symbols p)) p)
  else if (max_symbols <=? length (p_symbols p))%nat then Err "symbol table capacity exceeded"
  else Ok (set_symbols (p_symbols p ++ [Symbol name 0 value shndx bind stTypeNotype]) p).

Definition defineLabel (name : bytes) (p : parser) : outcome parser :=
  if nilb name then Err "empty label"
  else idx ← sectionIndex (current p);
       addSymbol name (currentOffset (current p)) idx stBindLocal p.

Definition defineGlobal (name : bytes) (p : parser) : outcome parser :=
  if nilb name then Err "empty global" else addSymbol name 0 shnUnDef stBindGlobal p.

(** The append to p.relocs shared by the emitters of symbolic operands: [cur] is
    the length of the section before the instruction bytes, [delta] the offset
    of the field in them. *)
Definition add_reloc (sym cur delta typ addend : Z) (p : parser) : outcome parser :=
  sec ← sectionIndex (current p);
  Ok (set_relocs (p_relocs p ++ [Reloc sec (u64 (cur + delta)) sym typ addend]) p).

(** ** The assembler invariant *)

(** Bytes of the relocated field. *)
Definition reloc_width (typ : Z) : Z := if typ =? rX86_64_64 then 8 else 4.

Definition names_ok (p : parser) : Prop :=
  sec_name (p_text p) = bs ".text" ∧ sec_name (p_data p) = bs ".data" ∧ sec_name (p_bss p) = bs ".bss".

Definition section_at (i : Z) (p : parser) : option sectionState :=
  if i =? 1 then Some (p_text p) else if i =? 2 then Some (p_data p)
  else if i =? 3 then Some (p_bss p) else None.

(** A relocation names an existing symbol and a field inside its section. *)
Definition wf_reloc (p : parser) (r : reloc) : Prop :=
  0 ≤ rel_sym r < Zlen (p_symbols p) ∧
  ∃ s, section_at (rel_sec r) p = Some s ∧
       0 ≤ rel_off r ∧ rel_off r + reloc_width (rel_typ r) ≤ Zlen (sec_data s).

Definition wf_symbol (s : symbolState) : Prop :=
  sym_name s ≠ [] ∧ (sym_bind s = stBindLocal ∨ sym_bind s = stBindGlobal)
  ∧ (sym_shndx s = shnUnDef ∨ sym_shndx s = 1 ∨ sym_shndx s = 2 ∨ sym_shndx s = 3)
  ∧ sym_typ s = stTypeNotype.

Record wf (p : parser) : Prop := {
  wf_names : names_ok p;
  wf_syms : Forall wf_symbol (p_symbols p);
  wf_nodup : NoDup (sym_name <$> p_symbols p);
  wf_count : (length (p_symbols p) ≤ max_symbols)%nat;
  wf_relocs : Forall (wf_reloc p) (p_relocs p) }.

(** ** Symbol table lemmas *)

Lemma findSymbol_from_ge i name l : findSymbol_from i name l = -1 ∨ i ≤ findSymbol_from i name l.
Proof.
  revert i. induction l as [|s r IH]; intros i; cbn; [by left|].
  case_match; [right; lia|]. destruct (IH (i + 1)); [by left | right; lia].
Qed.

Lemma findSymbol_from_spec i name l :
  0 ≤ i →
  (findSymbol_from i name l = -1 ∧ name ∉ (sym_name <$> l)) ∨
  (∃ j s, findSymbol_from i name l = i + Z.of_nat j ∧ l !! j = Some s ∧ sym_name s = name
          ∧ ∀ k t, (k < j)%nat → l !! k = Some t → sym_name t ≠ name).
Proof.
  revert i. induction l as [|s r IH]; intros i Hi; cbn.
  - left. split; [done|]. apply not_elem_of_nil.
  - destruct (equalBytes_spec (sym_name s) name) as [E|E].
    + right. exists 0%nat, s. split_and!; [lia|done|done|]. intros; lia.
    + destruct (IH (i + 1)) as [[H1 H2]|(j & t & H1 & H2 & H3 & H4)]; [lia| |].
      * left. split; [done|]. apply not_elem_of_cons. by split.
      * right. exists (S j), t. split_and!; [lia|done|done|].
        intros [|k] u Hk Hu; cbn in Hu; [naive_solver|]. apply (H4 k); [lia|done].
Qed.

Lemma findSymbol_spec name p :
  (findSymbol name p = -1 ∧ name ∉ (sym_name <$> p_symbols p)) ∨
  (∃ j s, findSymbol name p = Z.of_nat j ∧ p_symbols p !! j = Some s ∧ sym_name s = name).
Proof.
  destruct (findSymbol_from_spec 0 name (p_symbols p)) as [H|(j & s & H1 & H2 & H3 & _)]; [lia| |].
  - by left.
  - right. exists j, s. unfold findSymbol. by rewrite H1.
Qed.

Lemma findSymbol_in name p :
  name ∈ (sym_name <$> p_symbols p) → 0 ≤ findSymbol name p < Zlen (p_symbols p).
Proof.
  intros Hin. destruct (findSymbol_spec name p) as [[_ ?]|(j & s & -> & H & _)]; [done|].
  apply lookup_lt_Some in H. lia.
Qed.

Lemma merge_symbol_name v i b s : sym_name (merge_symbol v i b s) = sym_name s.
Proof. unfold merge_symbol. by repeat case_match. Qed.

Lemma alter_names f k (l : list symbolState) :
  (∀ s, sym_name (f s) = sym_name s) → sym_name <$> alter f k l = sym_name <$> l.
Proof.
  intros Hf. revert k. induction l as [|s r IH]; intros [|k]; cbn; try done.
  - by rewrite Hf.
  - f_equal. apply IH.
Qed.

Definition bind_ok (b : Z) : Prop := b = stBindLocal ∨ b = stBindGlobal.
Definition shndx_ok (i : Z) : Prop := i = shnUnDef ∨ i = 1 ∨ i = 2 ∨ i = 3.

Lemma wf_merge_symbol v i b s :
  bind_ok b → shndx_ok i → wf_symbol s → wf_symbol (merge_symbol v i b s).
Proof.
  unfold wf_symbol, merge_symbol, bind_ok, shndx_ok. intros Hb Hi (H1 & H2 & H3 & H4).
  destruct (negb _), (b =? stBindGlobal); cbn; auto 10.
Qed.

(** ** Growth: what no operation of the assembler undoes *)
Record grows (p p' : parser) : Prop := {
  grows_text : sec_data (p_text p) `prefix_of` sec_data (p_text p');
  grows_data : sec_data (p_data p) `prefix_of` sec_data (p_data p');
  grows_bss : sec_data (p_bss p) `prefix_of` sec_data (p_bss p');
  grows_syms : (sym_name <$> p_symbols p) `prefix_of` (sym_name <$> p_symbols p');
  grows_relocs : p_relocs p `prefix_of` p_relocs p';
  grows_src : p_src p' = p_src p;
  grows_pos : p_pos p' = p_pos p }.

#[export] Instance grows_preorder : PreOrder grows.
Proof.
  split.
  - intros p. by split.
  - intros p q r [] []. split; (congruence || by etrans).
Qed.

Lemma grows_symbols_length p p' : grows p p' → (length (p_symbols p) ≤ length (p_symbols p'))%nat.
Proof.
  intros H. apply grows_syms in H. apply prefix_length in H. by rewrite !length_fmap in H.
Qed.

Lemma wf_reloc_mono p p' r : grows p p' → wf_reloc p r → wf_reloc p' r.
Proof.
  intros Hg (Hs & s & Ha & H0 & H1). pose proof (grows_symbols_length _ _ Hg).
  split; [lia|]. unfold section_at in *.
  assert (Hl : ∀ a b : bytes, a `prefix_of` b → Zlen a ≤ Zlen b).
  { intros a b Hp. apply prefix_length in Hp. lia. }
  destruct Hg as [Ht Hd Hb _ _ _ _]. apply Hl in Ht, Hd, Hb.
  repeat case_match; simplify_eq; eexists; (split; [done|]; split; [done|lia]).
Qed.

(** The operation keeps the invariant and only extends [p]; it may panic when
    [S] fails. *)
Definition good_step (S : Prop) (p : parser) (m : outcome parser) : Prop :=
  ensures S (λ p', wf p' ∧ grows p p') m.
Arguments good_step : simpl never.

Lemma good_step_bind S p m f :
  good_step S p m → (∀ p', wf p' → grows p p' → good_step S p' (f p')) → good_step S p (m ≫= f).
Proof.
  intros H Hf. eapply ensures_bind; [exact H|]. intros p' [Hw Hg].
  eapply ensures_impl; [by apply Hf|]. intros p'' [? ?]. split; [done|by etrans].
Qed.

Lemma good_step_with {A} S (P : A → Prop) p m f :
  ensures S P m → (∀ a, P a → good_step S p (f a)) → good_step S p (m ≫= f).
Proof. apply ensures_bind. Qed.

Lemma good_step_Ok S p : wf p → good_step S p (Ok p).
Proof. intros. by split. Qed.

Lemma good_step_Err S p e : good_step S p (Err e).
Proof. done. Qed.

Lemma good_step_grows S p p' m : grows p p' → good_step S p' m → good_step S p m.
Proof. intros Hg H. eapply ensures_impl; [exact H|]. intros q [? ?]. split; [done|by etrans]. Qed.

Lemma wf_set_current r p : wf p → wf (set_current r p).
Proof. intros []. by split. Qed.

Lemma grows_set_current r p : grows p (set_current r p).
Proof. by split. Qed.

Lemma grows_append_cur l p : grows p (append_cur l p).
Proof. destruct p as [? ? ? ? ? [] ? ?]; split; cbn; try done; by eexists. Qed.

Lemma wf_append_cur l p : wf p → wf (append_cur l p).
Proof.
  intros [Hn Hs Hd Hc Hr].
  assert (Forall (wf_reloc (append_cur l p)) (p_relocs p)).
  { eapply Forall_impl; [exact Hr|]. intros r. apply wf_reloc_mono, grows_append_cur. }
  destruct p as [? ? ? ? ? [] ? ?]; by split.
Qed.

Lemma good_append_cur S l p : wf p → good_step S p (Ok (append_cur l p)).
Proof. split; [by apply wf_append_cur | apply grows_append_cur]. Qed.

Lemma sectionIndex_ok p : wf p → ∃ i, sectionIndex (current p) = Ok i
  ∧ section_at i p = Some (current p) ∧ (i = 1 ∨ i = 2 ∨ i = 3).
Proof.
  intros [(Ht & Hd & Hb) _ _ _ _]. unfold current, sectionIndex.
  destruct (p_current p); cbn [get_section];
    [rewrite Ht; exists 1 | rewrite Hd; exists 2 | rewrite Hb; exists 3]; cbn; auto.
Qed.

Lemma wf_set_symbols l p :
  wf p → Forall wf_symbol l → NoDup (sym_name <$> l) → (length l ≤ max_symbols)%nat →
  (sym_name <$> p_symbols p) `prefix_of` (sym_name <$> l) →
  wf (set_symbols l p) ∧ grows p (set_symbols l p).
Proof.
  intros [Hn Hs Hd Hc Hr] Hl Hnd Hlen Hp.
  assert (Hg : grows p (set_symbols l p)) by by split.
  split; [|done]. split; try done.
  eapply Forall_impl; [exact Hr|]. intros r. by apply wf_reloc_mono.
Qed.

Lemma good_addSymbol name v i b p :
  wf p → name ≠ [] → bind_ok b → shndx_ok i →
  post (λ p', wf p' ∧ grows p p' ∧ name ∈ (sym_name <$> p_symbols p')
              ∧ current p' = current p) (addSymbol name v i b p).
Proof.
  intros Hw Hn Hb Hi. unfold addSymbol.
  destruct (findSymbol_spec name p) as [[-> Hnew]|(j & s & -> & Hj & Hname)].
  - cbn [Z.leb Z.compare]. destruct (Nat.leb_spec max_symbols (length (p_symbols p))); [done|].
    destruct (wf_set_symbols (p_symbols p ++ [Symbol name 0 v i b stTypeNotype]) p) as [H1 H2].
    + done.
    + apply Forall_app. split; [apply Hw|]. apply Forall_singleton. by split_and!.
    + rewrite fmap_app. apply NoDup_app. split_and!; [apply Hw| |apply NoDup_singleton].
      intros x Hx Hx2. apply list_elem_of_singleton in Hx2. by subst x.
    + rewrite length_app. cbn. lia.
    + rewrite fmap_app. by eexists.
    + split_and!; [done|done| |by destruct p as [? ? ? ? ? [] ? ?]].
      cbn. rewrite fmap_app, elem_of_app. right. apply list_elem_of_singleton. done.
  - destruct (Z.leb_spec 0 (Z.of_nat j)); [|lia]. rewrite Nat2Z.id.
    assert (Ha : sym_name <$> alter (merge_symbol v i b) j (p_symbols p) = sym_name <$> p_symbols p).
    { apply alter_names, merge_symbol_name. }
    destruct (wf_set_symbols (alter (merge_symbol v i b) j (p_symbols p)) p) as [H1 H2].
    + done.
    + apply Forall_alter; [apply Hw|]. intros. by apply wf_merge_symbol.
    + rewrite Ha. apply Hw.
    + rewrite length_alter. apply Hw.
    + by rewrite Ha.
    + split_and!; [done|done| |by destruct p as [? ? ? ? ? [] ? ?]].
      cbn. rewrite Ha. rewrite <- Hname. apply list_elem_of_fmap_2. by eapply list_elem_of_lookup_2.
Qed.

Lemma good_defineLabel S name p : wf p → good_step S p (defineLabel name p).
Proof.
  intros Hw. unfold defineLabel. destruct name as [|c r] eqn:E; [done|]. cbn [nilb].
  destruct (sectionIndex_ok p Hw) as (i & -> & _ & Hi). cbn [mbind outcome_bind].
  eapply ensures_impl; [apply ensures_post, good_addSymbol; [done|done|by left|by right]|]. by intros p' (? & ? & _).
Qed.

Lemma good_defineGlobal S name p : wf p → good_step S p (defineGlobal name p).
Proof.
  intros Hw. unfold defineGlobal. destruct name as [|c r] eqn:E; [done|]. cbn [nilb].
  eapply ensures_impl; [apply ensures_post, good_addSymbol; [done|done|by right|by left]|]. by intros p' (? & ? & _).
Qed.

Lemma wrap_le w z : 0 ≤ w → 0 ≤ z → 0 ≤ wrap w z ≤ z.
Proof.
  intros. unfold wrap. assert (0 < 2 ^ w) by (apply Z.pow_pos_nonneg; lia).
  pose proof (Z.mod_pos_bound z (2 ^ w)). pose proof (Z.mod_le z (2 ^ w)). lia.
Qed.

Lemma good_add_reloc S sym cur delta typ addend p :
  wf p → 0 ≤ sym < Zlen (p_symbols p) → 0 ≤ cur + delta →
  cur + delta + reloc_width typ ≤ Zlen (sec_data (current p)) →
  good_step S p (add_reloc sym cur delta typ addend p).
Proof.
  intros Hw Hs Hc Hl. unfold add_reloc.
  destruct (sectionIndex_ok p Hw) as (i & -> & Hat & _). cbn [mbind outcome_bind].
  pose proof (wrap_le 64 (cur + delta)) as Hwr.
  assert (Hg : grows p (set_relocs (p_relocs p ++ [Reloc i (u64 (cur + delta)) sym typ addend]) p)).
  { split; try done. by eexists. }
  split; [|done]. destruct Hw as [Hn Hsy Hd Hcn Hr]. split; try done. cbn.
  apply Forall_app. split.
  - eapply Forall_impl; [exact Hr|]. intros r. by apply wf_reloc_mono.
  - constructor; [|done]. split; [done|]. exists (current p). cbn.
    split_and!; [exact Hat | lia | lia].
Qed.

Create HintDb asm.
#[export] Hint Resolve good_step_Ok good_step_Err good_append_cur wf_append_cur grows_append_cur
  wf_set_current grows_set_current good_defineLabel good_defineGlobal : asm.
