(* ===== verification/AsmEmit.v ===== *)
(** * Instruction emitters of the built-in assembler

    Models the emit methods of internal/assembler/x86.go: each takes the rest of
    the line after the mnemonic and appends bytes (and a relocation for a
    symbolic operand) to the parser state. *)
From S2P Require Import Prelude AsmBytes AsmOperand X86Encode AsmState.

(** ** Shared steps *)

(** The prologue of the two-operand emitters: split, count, parse both. *)
Definition two_operands (msg : string) (rest : bytes) : outcome (operand * operand) :=
  match splitArgs (trimSpace rest) with
  | [a0; a1] => dst ← parseOperand a0; src ← parseOperand a1; Ok (dst, src)
  | _ => Err msg
  end.

(** The prologue of the one-operand emitters. *)
Definition one_operand (rest : bytes) : outcome operand := parseOperand (trimSpace rest).

(** The sequence addSymbol, findSymbol, append, record a relocation, shared by
    every emitter with a symbolic operand: the field of [width] zero bytes
    follows the bytes [pre]. *)
Definition emit_symbolic (name pre : bytes) (width : nat) (typ addend : Z) (p : parser) : outcome parser :=
  p1 ← addSymbol name 0 shnUnDef stBindLocal p;
  let symIdx := findSymbol name p1 in
  let cur := Zlen (sec_data (current p1)) in
  add_reloc symIdx cur (Zlen pre) typ addend (append_cur (pre ++ replicate width 0) p1).

Definition too_large : string := "immediate too large for 32-bit encoding".

(** ** Operations *)

Definition emitArith (opRegReg opRegImm : Z) (rest : bytes) (p : parser) : outcome parser :=
  '(dst, src) ← two_operands "invalid operands" rest;
  match dst, src with
  | OReg d, OReg s => Ok (append_cur [0x48; opRegReg; encodeModRM 3 s d] p)
  | OReg d, OImm n =>
      if 0xFFFFFFFF <? n then Err too_large
      else Ok (append_cur ([0x48; opRegImm; encodeModRM 3 0 d] ++ put32 n) p)
  | OMem b i sc dv, OReg s => Ok (append_cur ([0x48; opRegReg] ++ writeMemOperand b i sc dv s) p)
  | OReg d, OMem b i sc dv => Ok (append_cur ([0x48; opRegReg] ++ writeMemOperand b i sc dv d) p)
  | OMem b i sc dv, OImm n =>
      if 0xFFFFFFFF <? n then Err too_large
      else Ok (append_cur ([0x48; opRegImm] ++ writeMemOperand b i sc dv 0 ++ put32 n) p)
  | _, _ => Err "unsupported operand combination for arithmetic"
  end.

(** The body shared by inc, dec, unary and mul/div: REX.W, opcode, extension. *)
Definition emit_ext (msg : string) (opcode ext : Z) (rest : bytes) (p : parser) : outcome parser :=
  op ← one_operand rest;
  match op with
  | OReg r => Ok (append_cur [0x48; opcode; encodeModRM 3 ext r] p)
  | OMem b i sc dv => Ok (append_cur ([0x48; opcode] ++ writeMemOperand b i sc dv ext) p)
  | _ => Err msg
  end.

Definition emitInc := emit_ext "invalid inc operand" 0xFF 0.
Definition emitDec := emit_ext "invalid dec operand" 0xFF 1.
Definition emitUnary (opcode ext : Z) := emit_ext "invalid unary operand" opcode ext.
Definition emitMulDiv (opcode ext : Z) := emit_ext "invalid mul/div operand" opcode ext.

Definition emitPush (rest : bytes) (p : parser) : outcome parser :=
  op ← one_operand rest;
  match op with
  | OReg r => Ok (append_cur [u8 (0x50 + r)] p)
  | OImm n =>
      if 0xFFFFFFFF <? n then Err too_large else Ok (append_cur (0x68 :: put32 n) p)
  | OMem b i sc dv => Ok (append_cur (0xFF :: writeMemOperand b i sc dv 6) p)
  | _ => Err "invalid push operand"
  end.

Definition emitPop (rest : bytes) (p : parser) : outcome parser :=
  op ← one_operand rest;
  match op with
  | OReg r => Ok (append_cur [u8 (0x58 + r)] p)
  | OMem b i sc dv => Ok (append_cur (0x8F :: writeMemOperand b i sc dv 0) p)
  | _ => Err "invalid pop operand"
  end.

Definition emitLea (rest : bytes) (p : parser) : outcome parser :=
  '(dst, src) ← two_operands "invalid lea operands" rest;
  match dst, src with
  | OReg d, OMem b i sc dv => Ok (append_cur ([0x48; 0x8D] ++ writeMemOperand b i sc dv d) p)
  | _, _ => Err "lea requires register destination and memory source"
  end.

Definition emitJmp (rest : bytes) (p : parser) : outcome parser :=
  op ← one_operand rest;
  match op with
  | OLabel name => emit_symbolic name [0xE9] 4 rX86_64_PC32 (-4) p
  | OReg r => Ok (append_cur [0xFF; u8 (0xE0 + r)] p)
  | OMem b i sc dv => Ok (append_cur (0xFF :: writeMemOperand b i sc dv 4) p)
  | _ => Err "invalid jmp operand"
  end.

Definition emitJcc (opcode : Z) (rest : bytes) (p : parser) : outcome parser :=
  op ← one_operand rest;
  match op with
  | OLabel name => emit_symbolic name [0x0F; opcode] 4 rX86_64_PC32 (-4) p
  | _ => Err "jcc requires label"
  end.

Definition emitTest (rest : bytes) (p : parser) : outcome parser :=
  '(dst, src) ← two_operands "invalid test operands" rest;
  match dst, src with
  | OReg d, OReg s => Ok (append_cur [0x48; 0x85; encodeModRM 3 s d] p)
  | OReg d, OImm n =>
      if 0xFFFFFFFF <? n then Err too_large
      else Ok (append_cur ([0x48; 0xF7; encodeModRM 3 0 d] ++ put32 n) p)
  | OMem b i sc dv, OReg s => Ok (append_cur ([0x48; 0x85] ++ writeMemOperand b i sc dv s) p)
  | _, _ => Err "unsupported test operands"
  end.

Definition shift_count (n : Z) : Z := if negb (n =? 1) then u8 (Z.land n 0xFF) else 1.

Definition emitShift (opcode ext : Z) (rest : bytes) (p : parser) : outcome parser :=
  '(dst, src) ← two_operands "invalid shift operands" rest;
  match dst, src with
  | OReg d, OImm n => Ok (append_cur [0x48; opcode; encodeModRM 3 ext d; shift_count n] p)
  | OMem b i sc dv, OImm n =>
      Ok (append_cur ([0x48; opcode] ++ writeMemOperand b i sc dv ext ++ [shift_count n]) p)
  | _, _ => Err "unsupported shift operands"
  end.

Definition emitMov (rest : bytes) (p : parser) : outcome parser :=
  '(dst, src) ← two_operands "invalid mov operands" rest;
  match dst, src with
  | OReg d, OReg s => Ok (append_cur [0x48; 0x89; encodeModRM 3 s d] p)
  | OReg d, OImm n =>
      if 0xFFFFFFFF <? n then Ok (append_cur ([0x48; u8 (0xB8 + d)] ++ put64 n) p)
      else Ok (append_cur (u8 (0xB8 + d) :: put32 n) p)
  | OMem b i sc dv, OReg s => Ok (append_cur ([0x48; 0x89] ++ writeMemOperand b i sc dv s) p)
  | OReg d, OMem b i sc dv => Ok (append_cur ([0x48; 0x8B] ++ writeMemOperand b i sc dv d) p)
  | OReg d, OLabel name => emit_symbolic name [0x48; u8 (0xB8 + d)] 8 rX86_64_64 0 p
  | _, _ => Err "unsupported mov operands"
  end.

Definition emitMovzx (rest : bytes) (p : parser) : outcome parser :=
  '(dst, src) ← two_operands "invalid movzx operands" rest;
  match dst, src with
  | OReg d, OMem b i sc dv => Ok (append_cur ([0x0F; 0xB6] ++ writeMemOperand b i sc dv d) p)
  | _, _ => Err "movzx requires register destination and memory source"
  end.

Definition emitMovsx (rest : bytes) (p : parser) : outcome parser :=
  '(dst, src) ← two_operands "invalid movsx operands" rest;
  match dst, src with
  | OReg d, OMem b i sc dv => Ok (append_cur ([0x0F; 0xBE] ++ writeMemOperand b i sc dv d) p)
  | _, _ => Err "movsx requires register destination and memory source"
  end.

Definition emitXchg (rest : bytes) (p : parser) : outcome parser :=
  '(dst, src) ← two_operands "invalid xchg operands" rest;
  match dst, src with
  | OReg d, OReg s => Ok (append_cur [0x48; 0x87; encodeModRM 3 s d] p)
  | OMem b i sc dv, OReg s => Ok (append_cur ([0x48; 0x87] ++ writeMemOperand b i sc dv s) p)
  | OReg d, OMem b i sc dv => Ok (append_cur ([0x48; 0x87] ++ writeMemOperand b i sc dv d) p)
  | _, _ => Err "unsupported xchg operands"
  end.

Definition emitCall (rest : bytes) (p : parser) : outcome parser :=
  let name := trimSpace rest in
  if nilb name then Err "invalid call target"
  else emit_symbolic name [0xE8] 4 rX86_64_PC32 (-4) p.

Definition emitImul (rest : bytes) (p : parser) : outcome parser :=
  '(dst, src) ← two_operands "invalid imul operands" rest;
  match dst, src with
  | OReg d, OReg s => Ok (append_cur [0x48; 0x0F; 0xAF; encodeModRM 3 s d] p)
  | OReg d, OMem b i sc dv => Ok (append_cur ([0x48; 0x0F; 0xAF] ++ writeMemOperand b i sc dv d) p)
  | _, _ => Err "unsupported imul operands"
  end.

Definition emitCmp (rest : bytes) (p : parser) : outcome parser :=
  '(dst, src) ← two_operands "invalid cmp operands" rest;
  match dst, src with
  | OReg d, OReg s => Ok (append_cur [0x48; 0x39; encodeModRM 3 s d] p)
  | OReg d, OImm n =>
      if 0xFFFFFFFF <? n then Err too_large
      else Ok (append_cur ([0x48; 0x81; encodeModRM 3 7 d] ++ put32 n) p)
  | OMem b i sc dv, OReg s => Ok (append_cur ([0x48; 0x39] ++ writeMemOperand b i sc dv s) p)
  | OMem b i sc dv, OImm n =>
      if 0xFFFFFFFF <? n then Err too_large
      else Ok (append_cur ([0x48; 0x81] ++ writeMemOperand b i sc dv 7 ++ put32 n) p)
  | _, _ => Err "unsupported cmp operands"
  end.

Definition emitJump (opcode : Z) (rest : bytes) (p : parser) : outcome parser :=
  let name := trimSpace rest in
  if nilb name then Err "invalid jump target"
  else emit_symbolic name [0x0F; opcode] 4 rX86_64_PC32 (-4) p.

(** ** Safety: the invariant, and panics only on long operands *)

Lemma splitArgs_loop_length q acc data :
  Forall (λ a, length a ≤ length acc + length data)%nat (splitArgs_loop q acc data).
Proof.
  revert q acc. induction data as [|c r IH]; intros q acc; cbn.
  - repeat constructor. rewrite length_rev. lia.
  - assert (Hi : ∀ q acc', (length acc' ≤ S (length acc))%nat →
      Forall (λ a, length a ≤ length acc + S (length r))%nat (splitArgs_loop q acc' r)).
    { intros q' acc' Ha. eapply Forall_impl; [apply IH|]. cbn. intros. lia. }
    repeat case_match; try (apply Hi; cbn; lia).
    constructor; [rewrite length_rev; lia|]. apply Hi. cbn. lia.
Qed.

Lemma splitArgs_length data : Forall (λ a, length a ≤ length data)%nat (splitArgs data).
Proof. apply (splitArgs_loop_length None [] data). Qed.

Lemma one_operand_ensures (S : Prop) rest :
  (S → length rest ≤ 16)%nat → ensures S wf_operand (one_operand rest).
Proof.
  intros HS. unfold one_operand. destruct (decide (length rest ≤ 16)%nat) as [Hl|Hl].
  - apply ensures_post, parseOperand_post.
    pose proof (trimSpace_length (trimSpace rest)). pose proof (trimSpace_length rest). lia.
  - destruct (parseOperand (trimSpace rest)) eqn:E; cbn; try done; [by eapply parseOperand_wf|tauto|].
    destruct (decide (length (trimSpace (trimSpace rest)) ≤ 16)%nat) as [Hs|Hs].
    + pose proof (parseOperand_post _ Hs) as H. by rewrite E in H.
    + rewrite parseOperand_panic in E by lia. done.
Qed.

Lemma parseOperand_ensures (S : Prop) tok :
  (S → length tok ≤ 16)%nat → ensures S wf_operand (parseOperand tok).
Proof.
  intros HS. destruct (decide (length (trimSpace tok) ≤ 16)%nat) as [Hs|Hs].
  - by apply ensures_post, parseOperand_post.
  - rewrite parseOperand_panic by lia. cbn. pose proof (trimSpace_length tok). intros HSS. apply HS in HSS. lia.
Qed.

Lemma two_operands_ensures (S : Prop) msg rest :
  (S → length rest ≤ 16)%nat →
  ensures S (λ o, wf_operand o.1 ∧ wf_operand o.2) (two_operands msg rest).
Proof.
  intros HS. unfold two_operands. pose proof (splitArgs_length (trimSpace rest)) as Hl.
  pose proof (trimSpace_length rest).
  destruct (splitArgs (trimSpace rest)) as [|a0 [|a1 [|]]]; try done.
  inversion_clear Hl as [|? ? H0 Hl']. inversion_clear Hl' as [|? ? H1 _].
  eapply ensures_bind; [apply parseOperand_ensures; intros ?%HS; lia|]. intros d Hd.
  eapply ensures_bind; [apply parseOperand_ensures; intros ?%HS; lia|]. intros s Hs. by split.
Qed.

Lemma current_append l p : sec_data (current (append_cur l p)) = sec_data (current p) ++ l.
Proof. by destruct p as [? ? ? ? ? [] ? ?]. Qed.

Lemma good_emit_symbolic S name pre width typ addend p :
  wf p → name ≠ [] → reloc_width typ = Z.of_nat width →
  good_step S p (emit_symbolic name pre width typ addend p).
Proof.
  intros Hw Hn Ht. unfold emit_symbolic.
  eapply ensures_bind; [apply ensures_post, good_addSymbol; [done|done|by left|by left]|].
  intros p1 (Hw1 & Hg1 & Hin & _). cbv zeta.
  apply good_step_grows with (append_cur (pre ++ replicate width 0) p1).
  { etrans; [done|apply grows_append_cur]. }
  apply good_add_reloc.
  - by apply wf_append_cur.
  - apply findSymbol_in in Hin. by destruct p1 as [? ? ? ? ? [] ? ?].
  - lia.
  - rewrite Ht, current_append, !length_app, length_replicate. lia.
Qed.

(** Runs an emitter symbolically: its operands, then every branch. *)
Ltac emit_cases :=
  intros;
  first [ eapply good_step_with; [by apply two_operands_ensures|];
          intros [dst src] [Hdst Hsrc]; cbn [fst snd] in *
        | eapply good_step_with; [by apply one_operand_ensures|]; intros op Hop ];
  repeat case_match; subst;
  try (by apply good_emit_symbolic); auto with asm.

Section safety.
Context (S : Prop) (rest : bytes) (p : parser).
Context (Hshort : (S → length rest ≤ 16)%nat) (Hwf : wf p).

Lemma good_emitArith a b : good_step S p (emitArith a b rest p).
Proof. unfold emitArith. emit_cases. Qed.
Lemma good_emit_ext msg a b : good_step S p (emit_ext msg a b rest p).
Proof. unfold emit_ext. emit_cases. Qed.
Lemma good_emitPush : good_step S p (emitPush rest p).
Proof. unfold emitPush. emit_cases. Qed.
Lemma good_emitPop : good_step S p (emitPop rest p).
Proof. unfold emitPop. emit_cases. Qed.
Lemma good_emitLea : good_step S p (emitLea rest p).
Proof. unfold emitLea. emit_cases. Qed.
Lemma good_emitJmp : good_step S p (emitJmp rest p).
Proof. unfold emitJmp. emit_cases. Qed.
Lemma good_emitJcc a : good_step S p (emitJcc a rest p).
Proof. unfold emitJcc. emit_cases. Qed.
Lemma good_emitTest : good_step S p (emitTest rest p).
Proof. unfold emitTest. emit_cases. Qed.
Lemma good_emitShift a b : good_step S p (emitShift a b rest p).
Proof. unfold emitShift. emit_cases. Qed.
Lemma good_emitMov : good_step S p (emitMov rest p).
Proof. unfold emitMov. emit_cases. Qed.
Lemma good_emitMovzx : good_step S p (emitMovzx rest p).
Proof. unfold emitMovzx. emit_cases. Qed.
Lemma good_emitMovsx : good_step S p (emitMovsx rest p).
Proof. unfold emitMovsx. emit_cases. Qed.
Lemma good_emitXchg : good_step S p (emitXchg rest p).
Proof. unfold emitXchg. emit_cases. Qed.
Lemma good_emitImul : good_step S p (emitImul rest p).
Proof. unfold emitImul. emit_cases. Qed.
Lemma good_emitCmp : good_step S p (emitCmp rest p).
Proof. unfold emitCmp. emit_cases. Qed.
Lemma good_emitCall : good_step S p (emitCall rest p).
Proof.
  unfold emitCall. destruct (trimSpace rest) eqn:E; [done|]. cbn [nilb].
  by apply good_emit_symbolic.
Qed.
Lemma good_emitJump a : good_step S p (emitJump a rest p).
Proof.
  unfold emitJump. destruct (trimSpace rest) eqn:E; [done|]. cbn [nilb].
  by apply good_emit_symbolic.
Qed.
End safety.

#[export] Hint Resolve good_emitArith good_emit_ext good_emitPush good_emitPop good_emitLea
  good_emitJmp good_emitJcc good_emitTest good_emitShift good_emitMov good_emitMovzx good_emitMovsx
  good_emitXchg good_emitImul good_emitCmp good_emitCall good_emitJump : asm.
