(* ===== verification/AsmParse.v ===== *)
(** * The line parser and the driver of the built-in assembler

    Models parseLine, the data directives, readLine, formatError and the loops
    of emitSourceObject and emitSourceRaw (internal/assembler/emitter.go).  The
    switch of parseLine is a list of tables, in the order of its cases. *)
From S2P Require Import Prelude AsmBytes AsmOperand X86Encode AsmState AsmEmit.

(** ** Data directives *)

Fixpoint emitBytes_loop (items : list bytes) (p : parser) : outcome parser :=
  match items with
  | [] => Ok p
  | item :: r =>
      match trimSpace item with
      | [] => emitBytes_loop r p
      | (c :: _) as it =>
          if (c =? 34) || (c =? 39) then
            val ← parseString it; emitBytes_loop r (append_cur val p)
          else v ← parseNumber it; emitBytes_loop r (append_cur [u8 v] p)
      end
  end.

Definition emitBytes (rest : bytes) (p : parser) : outcome parser :=
  emitBytes_loop (splitArgs rest) p.

Fixpoint emitWords_loop (width : nat) (items : list bytes) (p : parser) : outcome parser :=
  match items with
  | [] => Ok p
  | item :: r =>
      match trimSpace item with
      | [] => emitWords_loop width r p
      | it => v ← parseNumber it; emitWords_loop width r (append_cur (le_bytes width v) p)
      end
  end.

Definition emitWords (width : nat) (rest : bytes) (p : parser) : outcome parser :=
  emitWords_loop width (splitArgs rest) p.

Definition set_bss_size (n : Z) (p : parser) : parser := set_section SBss (set_size n (p_bss p)) p.

Definition reserve (width : Z) (rest : bytes) (p : parser) : outcome parser :=
  v ← parseNumber (readToken rest).1;
  if bool_decide (p_current p = SBss) then
    Ok (set_bss_size (u64 (sec_size (p_bss p) + u64 (v * width))) p)
  else Ok (append_cur (replicate (Z.to_nat (u64 (v * width))) 0) p).

Definition alignSection (arg : bytes) (p : parser) : outcome parser :=
  v ← parseNumber (trimSpace arg);
  if v =? 0 then Ok p
  else if bool_decide (p_current p = SBss) then
    Ok (set_bss_size (alignValue (sec_size (p_bss p)) v) p)
  else
    let len := Zlen (sec_data (current p)) in
    Ok (append_cur (replicate (Z.to_nat (u64 (alignValue len v - len))) 0) p).

Definition switchSection (name : bytes) (p : parser) : outcome parser :=
  if equalWord name ".text" || equalWord name "text" then Ok (set_current SText p)
  else if equalWord name ".data" || equalWord name "data" then Ok (set_current SData p)
  else if equalWord name ".bss" || equalWord name "bss" then Ok (set_current SBss p)
  else Err "unknown section".

(** ** The switch of parseLine *)

Abbreviation handler := (bytes → parser → outcome parser).

(** A case that only appends fixed bytes. *)
Definition fixed (l : bytes) : handler := λ _ p, Ok (append_cur l p).
Definition to_section (r : sec_ref) : handler := λ _ p, Ok (set_current r p).

Definition directive_table : list (string * handler) :=
  [("section", λ rest p, switchSection (readToken rest).1 p);
   (".text", to_section SText); ("text", to_section SText);
   (".data", to_section SData); ("data", to_section SData);
   (".bss", to_section SBss); ("bss", to_section SBss);
   ("global", λ rest p, defineGlobal (readToken rest).1 p);
   ("db", emitBytes); ("byte", emitBytes);
   ("dw", emitWords 2); ("word", emitWords 2);
   ("dd", emitWords 4); ("dword", emitWords 4);
   ("dq", emitWords 8); ("qword", emitWords 8);
   ("resb", reserve 1); ("resw", reserve 2); ("resd", reserve 4); ("resq", reserve 8);
   ("align", λ rest p, alignSection (readToken rest).1 p);
   ("bits", λ _ p, Ok p); ("org", λ _ p, Ok p)]%string.

Definition alu_table : list (string * handler) :=
  [("add", emitArith 0x00 0x81); ("sub", emitArith 0x28 0x81); ("and", emitArith 0x20 0x81);
   ("or", emitArith 0x08 0x81); ("xor", emitArith 0x30 0x81); ("adc", emitArith 0x10 0x81);
   ("sbb", emitArith 0x18 0x81);
   ("inc", emitInc); ("dec", emitDec); ("neg", emitUnary 0xF7 3); ("not", emitUnary 0xF7 2);
   ("push", emitPush); ("pop", emitPop);
   ("pushf", fixed [0x9C]); ("popf", fixed [0x9D]); ("pusha", fixed [0x60]); ("popa", fixed [0x61]);
   ("lea", emitLea)]%string.

Definition jump_table : list (string * handler) :=
  [("jmp", emitJmp);
   ("je", emitJcc 0x84); ("jne", emitJcc 0x85); ("jl", emitJcc 0x8C); ("jge", emitJcc 0x8D);
   ("ja", emitJcc 0x87); ("jb", emitJcc 0x82); ("jbe", emitJcc 0x86); ("jae", emitJcc 0x83);
   ("jc", emitJcc 0x82); ("jnc", emitJcc 0x83); ("jz", emitJcc 0x84); ("jnz", emitJcc 0x85);
   ("jo", emitJcc 0x80); ("jno", emitJcc 0x81); ("js", emitJcc 0x88); ("jns", emitJcc 0x89);
   ("jp", emitJcc 0x8A); ("jnp", emitJcc 0x8B)]%string.

Definition shift_mov_table : list (string * handler) :=
  [("test", emitTest);
   ("shl", emitShift 0xD2 4); ("shr", emitShift 0xD2 5); ("sar", emitShift 0xD2 7);
   ("sal", emitShift 0xD2 4); ("rol", emitShift 0xD2 0); ("ror", emitShift 0xD2 1);
   ("rcl", emitShift 0xD2 2); ("rcr", emitShift 0xD2 3);
   ("mul", emitMulDiv 0xF7 4); ("div", emitMulDiv 0xF7 6); ("idiv", emitMulDiv 0xF7 7);
   ("mov", emitMov); ("movzx", emitMovzx); ("movsx", emitMovsx); ("xchg", emitXchg);
   ("call", emitCall); ("imul", emitImul); ("cmp", emitCmp);
   ("jle", emitJump 0x8E); ("jg", emitJump 0x8F)]%string.

Definition emitInt : handler := λ rest p,
  num ← parseNumber (readToken rest).1;
  if num =? 3 then Ok (append_cur [0xCC] p) else Ok (append_cur [0xCD; u8 num] p).

(** The second error of the case enter is discarded. *)
Definition emitEnter : handler := λ rest p,
  let '(tok2, rest2) := readToken rest in
  n ← parseNumber tok2;
  let level := match parseNumber (trimSpace rest2) with Ok l => l | _ => 0 end in
  Ok (append_cur [0xC8; u8 n; u8 (Z.shiftr n 8); u8 level] p).

Definition misc_table : list (string * handler) :=
  [("nop", fixed [0x90]); ("hlt", fixed [0xF4]); ("cli", fixed [0xFA]); ("sti", fixed [0xFB]);
   ("iret", fixed [0xCF]); ("int", emitInt);
   ("ud2", fixed [0x0F; 0x0B]); ("cpuid", fixed [0x0F; 0xA2]); ("rdtsc", fixed [0x0F; 0x31]);
   ("syscall", fixed [0x0F; 0x05]); ("sysret", fixed [0x0F; 0x07]);
   ("swapgs", fixed [0x0F; 0x01; 0xF8]); ("ret", fixed [0xC3]); ("retf", fixed [0xCB]);
   ("enter", emitEnter); ("leave", fixed [0xC9]); ("pause", fixed [0xF3; 0x90])]%string.

Definition mnemonic_table : list (string * handler) :=
  directive_table ++ alu_table ++ jump_table ++ shift_mov_table ++ misc_table.

(** The first case whose word is the token. *)
Fixpoint find_handler (tok : bytes) (t : list (string * handler)) : option handler :=
  match t with
  | [] => None
  | (w, h) :: r => if equalWord tok w then Some h else find_handler tok r
  end.

Definition ends_colon (l : bytes) : bool := default 0 (last l) =? ch ":".

Fixpoint parseLine_fuel (fuel : nat) (line : bytes) (p : parser) : outcome parser :=
  match fuel with
  | O => Diverge
  | S f =>
      let line := trimSpace (removeComment line) in
      if nilb line then Ok p
      else if ends_colon line then defineLabel (trimSpace (removelast line)) p
      else
        let '(tok, rest) := readToken line in
        if negb (nilb tok) && ends_colon tok then
          p' ← defineLabel (removelast tok) p; parseLine_fuel f rest p'
        else
          match find_handler tok mnemonic_table with
          | Some h => h rest p
          | None =>
              if equalWord tok "lock" then
                let '(tok2, rest2) := readToken rest in
                parseLine_fuel f (tok2 ++ rest2) (append_cur [0xF0] p)
              else Err "unsupported assembler directive"
          end
  end.

Definition parseLine (line : bytes) (p : parser) : outcome parser :=
  parseLine_fuel (S (length line)) line p.

(** ** The driver *)

Record targetProfile := Profile { elfClass : Z; pointerSize : Z; prof_align : Z; eMachine : Z }.

Definition selfTargetProfile (target : bytes) : targetProfile :=
  let has s := containsFold target (bytes_of_string s) in
  if has "x86_64"%string then Profile 2 8 16 62
  else if has "aarch64"%string then Profile 2 8 16 183
  else if has "riscv"%string then Profile 2 8 4 243
  else if has "arm"%string || has "cortex-"%string then Profile 1 4 4 40
  else if has "i386"%string || has "i686"%string then Profile 1 4 4 3
  else Profile 2 8 16 62.

(** reset and the section set-up shared by both drivers. *)
Definition init_parser (src : bytes) (profile : targetProfile) : parser :=
  Parser src 0
    (MkSection (bs ".text") [] 0 (Z.lor shFlagAlloc shFlagExecInstr) (prof_align profile))
    (MkSection (bs ".data") [] 0 (Z.lor shFlagAlloc shFlagWrite) (prof_align profile))
    (MkSection (bs ".bss") [] 0 (Z.lor shFlagAlloc shFlagWrite) (prof_align profile))
    SText [] [].

Definition readLine (p : parser) : bytes * parser :=
  if (length (p_src p) <=? p_pos p)%nat then ([], p)
  else
    match span (λ c, negb (c =? 10)) (drop (p_pos p) (p_src p)) with
    | (line, []) => (line, set_pos (length (p_src p)) p)
    | (line, _ :: _) => (line, set_pos (S (p_pos p + length line)) p)
    end.

Definition count_newlines (l : bytes) : nat := length (filter (λ c, c = 10) l).

Definition formatError (p : parser) (e : string) : string :=
  ("assembler: line " +:+
   string_of_bytes (decimal (Z.of_nat (count_newlines (take (p_pos p) (p_src p))) + 1)) +:+
   ": " +:+ e)%string.

Fixpoint assemble_loop (fuel : nat) (p : parser) : outcome parser :=
  if (length (p_src p) <=? p_pos p)%nat then Ok p
  else match fuel with
       | O => Diverge
       | S f =>
           let '(line, p1) := readLine p in
           match parseLine line p1 with
           | Ok p2 => assemble_loop f p2
           | Err e => Err (formatError p1 e)
           | Panic => Panic
           | Diverge => Diverge
           end
       end.

(** The source read line by line: one turn consumes at least one byte. *)
Definition assemble (src : bytes) (profile : targetProfile) : outcome parser :=
  assemble_loop (length src) (init_parser src profile).

(** emitRaw and emitSourceRaw: text, data, then the zeros of bss. *)
Definition emitRaw (p : parser) : bytes :=
  sec_data (p_text p) ++ sec_data (p_data p) ++ replicate (Z.to_nat (sec_size (p_bss p))) 0.

Definition emitSourceRaw (src : bytes) (profile : targetProfile) : outcome bytes :=
  p ← assemble src profile; Ok (emitRaw p).

Example raw1 :
  emitSourceRaw (bs "start: mov rax, [rbx+8]" ++ [10] ++ bs "lock inc [rbx] ; c") (Profile 2 8 16 62)
  = Ok [0x48; 0x8B; 0x43; 8; 0xF0; 0x48; 0xFF; 0x03].
Proof. vm_compute. done. Qed.

Example db1 :
  emitSourceRaw (bs "db 7, 'ab', -1" ++ [10] ++ bs "dw 258,,3") (Profile 2 8 16 62)
  = Ok [7; 97; 98; 1; 2; 1; 3; 0].
Proof. vm_compute. done. Qed.

(** ** Safety of a line *)

Lemma grows_set_size n p : grows p (set_bss_size n p).
Proof. by split. Qed.

Lemma wf_set_size n p : wf p → wf (set_bss_size n p).
Proof.
  intros [Hn Hs Hd Hc Hr]. split; try done.
  eapply Forall_impl; [exact Hr|]. intros r. apply wf_reloc_mono, grows_set_size.
Qed.

Lemma good_set_size S n p : wf p → good_step S p (Ok (set_bss_size n p)).
Proof. split; [by apply wf_set_size|apply grows_set_size]. Qed.

Lemma good_set_current S r p : wf p → good_step S p (Ok (set_current r p)).
Proof. split; [by apply wf_set_current|apply grows_set_current]. Qed.

#[export] Hint Resolve good_set_size good_set_current : asm.

Lemma good_number S tok p f :
  (∀ v, is_word 64 v → good_step S p (f v)) → good_step S p (parseNumber tok ≫= f).
Proof.
  intros Hf. eapply (good_step_with _ (is_word 64)); [|done].
  pose proof (parseNumber_returns tok) as Hr. destruct (parseNumber tok) eqn:E; try done.
  by eapply parseNumber_range.
Qed.

Lemma parseString_returns tok : returns (parseString tok).
Proof. unfold parseString. by repeat case_match. Qed.

Lemma good_emitBytes_loop S items p : wf p → good_step S p (emitBytes_loop items p).
Proof.
  revert p. induction items as [|item r IH]; intros p Hw; cbn [emitWords_loop emitBytes_loop]; [auto with asm|].
  destruct (trimSpace item) as [|c t]; [auto|]. case_match.
  - eapply (good_step_with _ (λ _, True)).
    + apply ensures_post, post_True, parseString_returns.
    + intros val _. eapply good_step_grows; [apply grows_append_cur|]. auto with asm.
  - apply good_number. intros v _. eapply good_step_grows; [apply grows_append_cur|]. auto with asm.
Qed.

Lemma good_emitWords_loop S w items p : wf p → good_step S p (emitWords_loop w items p).
Proof.
  revert p. induction items as [|item r IH]; intros p Hw; cbn [emitWords_loop emitBytes_loop]; [auto with asm|].
  destruct (trimSpace item) as [|c t]; [auto|].
  apply good_number. intros v _. eapply good_step_grows; [apply grows_append_cur|]. auto with asm.
Qed.

Definition good_handler (h : handler) : Prop :=
  ∀ S rest p, (S → (length rest ≤ 16)%nat) → wf p → good_step S p (h rest p).

Lemma good_switchSection S name p : wf p → good_step S p (switchSection name p).
Proof. intros. unfold switchSection. repeat case_match; auto with asm. Qed.

Lemma good_reserve w : good_handler (reserve w).
Proof. intros S rest p _ Hw. apply good_number. intros. case_match; auto with asm. Qed.

Lemma good_align S arg p : wf p → good_step S p (alignSection arg p).
Proof. intros Hw. apply good_number. intros. repeat case_match; auto with asm. Qed.

Lemma good_emitInt : good_handler emitInt.
Proof. intros S rest p _ Hw. apply good_number. intros. case_match; auto with asm. Qed.

Lemma good_emitEnter : good_handler emitEnter.
Proof.
  intros S rest p _ Hw. unfold emitEnter. destruct (readToken rest) as [t r].
  apply good_number. intros. auto with asm.
Qed.

Lemma good_fixed l : good_handler (fixed l).
Proof. intros S rest p _ Hw. unfold fixed. auto with asm. Qed.

Lemma good_to_section r : good_handler (to_section r).
Proof. intros S rest p _ Hw. unfold to_section. auto with asm. Qed.

#[export] Hint Resolve good_emitBytes_loop good_emitWords_loop good_switchSection good_reserve
  good_align good_emitInt good_emitEnter good_fixed good_to_section : asm.

Lemma good_table : Forall (λ e, good_handler e.2) mnemonic_table.
Proof.
  repeat (apply Forall_cons; split); try apply Forall_nil; cbn [snd]; auto with asm;
  intros S rest p Hl Hw; unfold emitBytes, emitWords, emitInc, emitDec, emitUnary, emitMulDiv; auto with asm.
Qed.

Lemma find_handler_good t tok h :
  Forall (λ e, good_handler e.2) t → find_handler tok t = Some h → good_handler h.
Proof.
  induction t as [|[w k] r IH]; cbn; [done|]. intros [Hk Hr]%Forall_cons.
  case_match; [intros [= <-]; exact Hk | auto].
Qed.

Lemma readToken_nonempty line :
  trimSpace line = line → line ≠ [] → (readToken line).1 ≠ [].
Proof.
  intros Ht Hn. unfold readToken.
  destruct line as [|c r] eqn:E; [done|].
  assert (Hc : is_blank c = false).
  { destruct (trimSpace_spec (c :: r)) as (? & ? & _ & _ & Hh & _). rewrite Ht in Hh.
    specialize (Hh c eq_refl). revert Hh. unfold ascii_space, is_blank. by destruct (c =? 32), (c =? 9). }
  cbn. rewrite Hc. cbn. rewrite Hc. cbn. by destruct (span _ r).
Qed.

Lemma trimSpace_idem l : trimSpace (trimSpace l) = trimSpace l.
Proof.
  destruct (trimSpace_spec l) as (pre & post & _ & _ & Hh & Hl). apply trimSpace_id.
  - destruct (head (trimSpace l)); auto.
  - destruct (last (trimSpace l)); auto.
Qed.

Lemma good_parseLine_fuel fuel (S : Prop) line p :
  (length line < fuel)%nat → (S → length line ≤ 16)%nat → wf p →
  good_step S p (parseLine_fuel fuel line p).
Proof.
  revert line p. induction fuel as [|f IH]; intros line p Hf HS Hw; [lia|]. cbn [parseLine_fuel].
  pose proof (trimSpace_length (removeComment line)). pose proof (removeComment_length line).
  pose proof (trimSpace_idem (removeComment line)) as Hid.
  set (ln := trimSpace (removeComment line)) in *.
  destruct (nilb ln) eqn:En; [auto with asm|].
  case_match; [auto with asm|].
  pose proof (readToken_length ln) as Hr.
  assert (Htok : (readToken ln).1 ≠ []) by (apply readToken_nonempty; [done|by destruct ln]).
  destruct (readToken ln) as [tok rest]. cbn [fst snd] in *.
  assert (Hrest : (length rest < length ln)%nat) by (destruct tok; cbn in *; [done|lia]).
  case_match.
  - eapply good_step_bind; [auto with asm|]. intros p' Hw' _.
    apply IH; [lia|intros ?%HS; lia|done].
  - destruct (find_handler tok mnemonic_table) as [h|] eqn:E.
    + apply (find_handler_good _ _ _ good_table E); [intros ?%HS; lia|done].
    + case_match; [|auto with asm].
      pose proof (readToken_length rest). destruct (readToken rest) as [t2 r2]. cbn [fst snd] in *.
      eapply good_step_grows; [apply grows_append_cur|].
      apply IH; [|intros ?%HS|auto with asm]; rewrite length_app; lia.
Qed.

Lemma good_parseLine line p : wf p → good_step (length line ≤ 16)%nat p (parseLine line p).
Proof. intros. apply good_parseLine_fuel; [lia|done|done]. Qed.

(** ** Safety and termination of the driver *)

Lemma wf_init src profile : wf (init_parser src profile).
Proof. split; cbn; auto using NoDup_nil_2, Forall_nil_2; done || lia. Qed.

Lemma readLine_spec p line p1 :
  (p_pos p < length (p_src p))%nat → readLine p = (line, p1) →
  (p_pos p < p_pos p1)%nat ∧ (p_pos p1 ≤ length (p_src p))%nat ∧ p_src p1 = p_src p
  ∧ p1 = set_pos (p_pos p1) p
  ∧ ∃ nl, (nl = [] ∨ nl = [10]) ∧
      drop (p_pos p) (p_src p) = line ++ nl ++ drop (p_pos p1) (p_src p)
      ∧ (nl = [] → drop (p_pos p1) (p_src p) = []).
Proof.
  intros Hlt. unfold readLine. destruct (Nat.leb_spec (length (p_src p)) (p_pos p)); [lia|].
  pose proof (span_app (λ c, negb (c =? 10)) (drop (p_pos p) (p_src p))) as Ha.
  pose proof (span_snd_head (λ c, negb (c =? 10)) (drop (p_pos p) (p_src p))) as Hh.
  destruct (span _ (drop (p_pos p) (p_src p))) as [l [|c t]] eqn:E; intros [= <- <-]; cbn in *.
  - split_and!; [lia|lia|done|done|]. exists []. split_and!; [by left| |intros _; by apply drop_ge].
    rewrite (drop_ge _ (length (p_src p))) by lia. cbn. by rewrite Ha.
  - specialize (Hh c t eq_refl). assert (c = 10) as -> by (destruct (Z.eqb_spec c 10); done).
    assert (Hl : length (drop (p_pos p) (p_src p)) = (length l + S (length t))%nat).
    { by rewrite <- Ha, length_app. }
    rewrite length_drop in Hl. split_and!; [lia|lia|done|done|].
    exists [10]. split_and!; [by right| |done]. rewrite <- Ha. f_equal. cbn. f_equal.
    assert (Hd : drop (S (length l)) (l ++ 10 :: t) = t).
    { rewrite cons_middle, app_assoc, drop_app_length'; [done|].
      rewrite length_app. cbn. lia. }
    rewrite <- Hd, Ha, drop_drop. f_equal. lia.
Qed.

(** The lines of the source are the substrings between newlines. *)
Definition line_of (src line : bytes) : Prop := ∃ a b, src = a ++ line ++ b ∧ 10 ∉ line.

Lemma wf_set_pos n p : wf p → wf (set_pos n p).
Proof. intros []. by split. Qed.

Lemma assemble_loop_ensures (S : Prop) fuel p :
  (S → ∀ l, line_of (p_src p) l → (length l ≤ 16)%nat) →
  (length (p_src p) ≤ p_pos p + fuel)%nat → wf p →
  ensures S (λ p', wf p' ∧ p_src p' = p_src p) (assemble_loop fuel p).
Proof.
  intros HS. revert p HS. induction fuel as [|f IH]; intros p HS Hf Hw; cbn [assemble_loop];
    (destruct (Nat.leb_spec (length (p_src p)) (p_pos p)) as [|Hlt]; [by split|]); [lia|].
  destruct (readLine p) as [line p1] eqn:E.
  assert (Hlo : line_of (p_src p) line).
  { unfold readLine in E. destruct (Nat.leb_spec (length (p_src p)) (p_pos p)); [lia|].
    pose proof (span_app (λ c, negb (c =? 10)) (drop (p_pos p) (p_src p))) as Ha.
    pose proof (span_fst_forall (λ c, negb (c =? 10)) (drop (p_pos p) (p_src p))) as Hf1.
    destruct (span _ (drop (p_pos p) (p_src p))) as [l t]. cbn in *.
    assert (l = line) as -> by (destruct t; congruence).
    exists (take (p_pos p) (p_src p)), t. rewrite Ha, take_drop. split; [done|].
    intros Hin. rewrite Forall_forall in Hf1. by apply Hf1 in Hin. }
  destruct (readLine_spec p line p1 Hlt E) as (H1 & H2 & H3 & H4 & _).
  assert (Hw1 : wf p1) by (rewrite H4; by apply wf_set_pos).
  pose proof (good_parseLine line p1 Hw1) as Hg. unfold good_step in Hg.
  destruct (parseLine line p1) as [p2|e| |] eqn:E2; cbn in Hg |- *; try done.
  - destruct Hg as [Hw2 Hg2]. pose proof (grows_src _ _ Hg2) as Hs. pose proof (grows_pos _ _ Hg2) as Hp.
    eapply ensures_impl; [apply IH|].
    + intros HSS l Hl. apply HS; [done|]. congruence.
    + rewrite Hs, Hp, H3. lia.
    + done.
    + intros p' [? ?]. split; [done|congruence].
  - intros HSS. apply Hg. by apply HS.
Qed.

Lemma assemble_ensures src profile :
  ensures (∀ l, line_of src l → (length l ≤ 16)%nat)
    (λ p, wf p ∧ p_src p = src) (assemble src profile).
Proof. apply assemble_loop_ensures; [done|cbn; lia|apply wf_init]. Qed.

(** ** Properties *)

(** C1 Assembling a source terminates, and gives an error or a state in which the
    section names, the symbol table (distinct, non-empty names, legal indices,
    within its capacity) and every relocation (an existing symbol, a field inside
    its section) are consistent; it panics only if some line is longer than 16
    bytes. *)
Theorem assemble_safe src profile :
  match assemble src profile with
  | Ok p => wf p ∧ p_src p = src
  | Err _ => True
  | Panic => ¬ ∀ l, line_of src l → (length l ≤ 16)%nat
  | Diverge => False
  end.
Proof. apply assemble_ensures. Qed.

(** A source line only adds to the state: the bytes of each section, the
    symbols and the relocations of before are prefixes of those after it, and
    the consistency of the state is kept. *)
Theorem parseLine_extends line p p' :
  wf p → parseLine line p = Ok p' → wf p' ∧ grows p p'.
Proof. intros Hw H. pose proof (good_parseLine line p Hw) as Hg. unfold good_step in Hg. by rewrite H in Hg. Qed.

Theorem parseLine_extends_witness :
  ∃ p', parseLine (bs "f: call f") (init_parser [] (Profile 2 8 16 62)) = Ok p' ∧
        wf p' ∧ grows (init_parser [] (Profile 2 8 16 62)) p'.
Proof.
  eexists. split; [reflexivity|]. apply (parseLine_extends (bs "f: call f")); [apply wf_init|reflexivity].
Defined.
