(* ===== verification/X86Spec.v ===== *)
(** * What the emitted instructions mean

    A decoder of the 64-bit-mode encodings the assembler uses (Intel SDM volume
    2: opcode map, ModRM and SIB), written independently of the emitters, and
    the theorems that relate them: the instructions whose encoding is the
    requested one, and the ones where it is not. *)
From S2P Require Import Prelude AsmBytes AsmOperand X86Encode AsmState AsmEmit AsmParse.

(** ** The decoder *)

Inductive width := W8 | W16 | W32 | W64.
(** A general register of a width (0 rax to 15 r15), or one of ah, ch, dh, bh. *)
Inductive register := Gpr (w : width) (n : Z) | High (n : Z).
Inductive opnd := DReg (r : register) | DMem (e : ea).

(** [alu] numbers add 0, or 1, adc 2, sbb 3, and 4, sub 5, xor 6, cmp 7; group 3
    numbers not 2, neg 3, mul 4, div 6, idiv 7; group 5 numbers inc 0, dec 1,
    jmp 4, push 6. [w] is the width of the operation. *)
Inductive insn :=
  | IAlu (alu : Z) (w : width) (dst src : opnd)
  | IAluImm (alu : Z) (w : width) (dst : opnd) (imm : Z)
  | IMov (w : width) (dst src : opnd)
  | IMovImm (reg : register) (imm : Z)
  | ITest (w : width) (a b : opnd)
  | ITestImm (w : width) (a : opnd) (imm : Z)
  | ILea (reg : register) (e : ea)
  | IXchg (w : width) (a b : opnd)
  | IImul (w : width) (reg : register) (src : opnd)
  | IGroup3 (op : Z) (w : width) (a : opnd)
  | IGroup5 (op : Z) (w : width) (a : opnd)
  | IPush (reg : register) | IPushImm (imm : Z) | IPop (a : opnd)
  | IShiftCL (op : Z) (w : width) (a : opnd).

#[export] Instance width_eq_dec : EqDecision width.
Proof. solve_decision. Defined.
#[export] Instance register_eq_dec : EqDecision register.
Proof. solve_decision. Defined.
#[export] Instance opnd_eq_dec : EqDecision opnd.
Proof. solve_decision. Defined.
#[export] Instance insn_eq_dec : EqDecision insn.
Proof. solve_decision. Defined.

(** The operand-size prefix 0x66 and the REX byte, when they are there. *)
Record prefixes := Prefixes { opsize : bool; rex : option Z }.
Definition rex_bit (p : prefixes) (k : Z) : bool := match rex p with Some b => Z.testbit b k | None => false end.
(** The width of an operation, and of one that is 64 bits wide by default. *)
Definition op_width (p : prefixes) : width := if rex_bit p 3 then W64 else if opsize p then W16 else W32.
Definition stack_width (p : prefixes) : width := if opsize p then W16 else W64.

(** A register number with its REX bit (R 2, X 1, B 0), and the register it
    names: the 8-bit numbers 4 to 7 are high halves when there is no REX. *)
Definition ext (p : prefixes) (k n : Z) : Z := if rex_bit p k then n + 8 else n.
Definition reg_of (w : width) (p : prefixes) (n : Z) : register :=
  match w, rex p with
  | W8, None => if (4 <=? n) && (n <? 8) then High (n - 4) else Gpr W8 n
  | _, _ => Gpr w n
  end.

(** The addresses with REX.X are left out. *)
Definition ext_ea (p : prefixes) (e : ea) : option ea :=
  if rex_bit p 1 then None else Some (EA (ext p 0 <$> ea_base e) (ea_index e) (ea_disp e) (ea_rip e)).

(** The reg field and the register or memory operand of a ModRM byte. *)
Definition decode_rm (p : prefixes) (w : width) (l : bytes) : option (Z * opnd * bytes) :=
  match l with
  | [] => None
  | m :: r =>
      let '(md, reg, rm) := modrm_fields m in
      if md =? 3 then Some (reg, DReg (reg_of w p (ext p 0 rm)), r)
      else '(reg, e, r) ← decode_mem l; e ← ext_ea p e; Some (reg, DMem e, r)
  end.

Definition take32 (l : bytes) : option (Z * bytes) :=
  if (length l <? 4)%nat then None else Some (le_val (take 4 l), drop 4 l).
Definition take64 (l : bytes) : option (Z * bytes) :=
  if (length l <? 8)%nat then None else Some (le_val (take 8 l), drop 8 l).

(** An instruction with a ModRM operand of width [w]: [f] gets the register of
    the reg field, [g] the field itself. *)
Definition with_reg (p : prefixes) (w : width) (l : bytes) (f : register → opnd → insn) : option (insn * bytes) :=
  '(reg, o, r) ← decode_rm p w l; Some (f (reg_of w p (ext p 2 reg)) o, r).
Definition with_ext (p : prefixes) (w : width) (l : bytes) (g : Z → opnd → insn) : option (insn * bytes) :=
  '(reg, o, r) ← decode_rm p w l; Some (g reg o, r).
(** The same with a 32-bit immediate; the operations of 16 bits have a shorter
    one, and are left out. *)
Definition with_imm32 (p : prefixes) (w : width) (l : bytes) (g : Z → opnd → Z → insn) : option (insn * bytes) :=
  if bool_decide (w = W16) then None
  else '(e, o, r) ← decode_rm p w l; '(v, r') ← take32 r; Some (g e o (swrap 32 v), r').

(** The opcodes. A 32-bit move of an immediate clears the upper half of the
    register: the whole register holds the immediate. *)
Definition decode_op (p : prefixes) (l : bytes) : option (insn * bytes) :=
  let w := op_width p in
  match l with
  | [] => None
  | op :: r =>
      if op =? 0x0F then
        match r with
        | 0xAF :: r' => with_reg p w r' (λ reg o, IImul w reg o)
        | _ => None
        end
      else if (op <? 0x40) && (Z.land op 7 =? 1) then
        with_reg p w r (λ reg o, IAlu (Z.shiftr op 3) w o (DReg reg))
      else if (op <? 0x40) && (Z.land op 7 =? 0) then
        with_reg p W8 r (λ reg o, IAlu (Z.shiftr op 3) W8 o (DReg reg))
      else if (0x50 <=? op) && (op <? 0x58) then Some (IPush (Gpr (stack_width p) (ext p 0 (op - 0x50))), r)
      else if (0x58 <=? op) && (op <? 0x60) then Some (IPop (DReg (Gpr (stack_width p) (ext p 0 (op - 0x58)))), r)
      else if op =? 0x68 then
        if opsize p then None else '(v, r') ← take32 r; Some (IPushImm (swrap 32 v), r')
      else if op =? 0x81 then with_imm32 p w r (λ e o v, IAluImm e w o v)
      else if op =? 0x85 then with_reg p w r (λ reg o, ITest w o (DReg reg))
      else if op =? 0x87 then with_reg p w r (λ reg o, IXchg w o (DReg reg))
      else if op =? 0x89 then with_reg p w r (λ reg o, IMov w o (DReg reg))
      else if op =? 0x8B then with_reg p w r (λ reg o, IMov w (DReg reg) o)
      else if op =? 0x8D then
        '(reg, e, r') ← decode_mem r; e ← ext_ea p e; Some (ILea (reg_of w p (ext p 2 reg)) e, r')
      else if op =? 0x8F then with_ext p (stack_width p) r (λ _ o, IPop o)
      else if (0xB8 <=? op) && (op <? 0xC0) then
        match w with
        | W64 => '(v, r') ← take64 r; Some (IMovImm (Gpr W64 (ext p 0 (op - 0xB8))) v, r')
        | W32 => '(v, r') ← take32 r; Some (IMovImm (Gpr W64 (ext p 0 (op - 0xB8))) v, r')
        | _ => None
        end
      else if op =? 0xD2 then with_ext p W8 r (λ e o, IShiftCL e W8 o)
      else if op =? 0xF7 then
        '(e, o, r') ← decode_rm p w r;
        if e =? 0 then
          if bool_decide (w = W16) then None else '(v, r'') ← take32 r'; Some (ITestImm w o (swrap 32 v), r'')
        else Some (IGroup3 e w o, r')
      else if op =? 0xFF then
        '(e, _, _) ← decode_rm p w r;
        let w := if (e =? 4) || (e =? 6) then stack_width p else w in with_ext p w r (λ e o, IGroup5 e w o)
      else None
  end.

Definition decode_rex (os : bool) (l : bytes) : option (insn * bytes) :=
  match l with
  | b :: r => if (0x40 <=? b) && (b <? 0x50) then decode_op (Prefixes os (Some b)) r else decode_op (Prefixes os None) l
  | [] => None
  end.
Definition decode (l : bytes) : option (insn * bytes) :=
  match l with
  | 0x66 :: r => decode_rex true r
  | _ => decode_rex false l
  end.

(** ** What is emitted for parsed operands *)

(** The memory operands with a direct encoding: no index, base other than rsp,
    and not rbp alone; with a displacement of 32 bits. *)
Definition simple (o : operand) : Prop :=
  match o with
  | OMem b i s d => i = 255 ∧ b ≠ 4 ∧ ¬ (b = 5 ∧ d = 0) ∧ - 2 ^ 31 ≤ d < 2 ^ 31
  | _ => True
  end.

Definition simple_ea (b d : Z) : ea := EA (Some b) None d false.
Abbreviation r64 n := (DReg (Gpr W64 n)).
Abbreviation mem b d := (DMem (simple_ea b d)).

(** The 64-bit instruction that is emitted; a 32-bit immediate is sign-extended,
    except the one of mov. *)
Definition enc2 (m : string) (dst src : operand) : option insn :=
  match dst, src with
  | OReg d, OReg s =>
      if (m =? "mov")%string then Some (IMov W64 (r64 d) (r64 s))
      else if (m =? "cmp")%string then Some (IAlu 7 W64 (r64 d) (r64 s))
      else if (m =? "test")%string then Some (ITest W64 (r64 d) (r64 s))
      else if (m =? "xchg")%string then Some (IXchg W64 (r64 d) (r64 s))
      else None
  | OReg d, OImm n =>
      if (m =? "mov")%string then Some (IMovImm (Gpr W64 d) n)
      else if 0xFFFFFFFF <? n then None
      else if (m =? "cmp")%string then Some (IAluImm 7 W64 (r64 d) (swrap 32 n))
      else if (m =? "test")%string then Some (ITestImm W64 (r64 d) (swrap 32 n))
      else None
  | OMem b _ _ dv, OReg s =>
      if (m =? "mov")%string then Some (IMov W64 (mem b dv) (r64 s))
      else if (m =? "cmp")%string then Some (IAlu 7 W64 (mem b dv) (r64 s))
      else if (m =? "test")%string then Some (ITest W64 (mem b dv) (r64 s))
      else if (m =? "xchg")%string then Some (IXchg W64 (mem b dv) (r64 s))
      else None
  | OReg d, OMem b _ _ dv =>
      if (m =? "mov")%string then Some (IMov W64 (r64 d) (mem b dv))
      else if (m =? "lea")%string then Some (ILea (Gpr W64 d) (simple_ea b dv))
      else if (m =? "imul")%string then Some (IImul W64 (Gpr W64 d) (mem b dv))
      else if (m =? "xchg")%string then Some (IXchg W64 (mem b dv) (r64 d))
      else None
  | OMem b _ _ dv, OImm n =>
      if 0xFFFFFFFF <? n then None
      else if (m =? "cmp")%string then Some (IAluImm 7 W64 (mem b dv) (swrap 32 n))
      else None
  | _, _ => None
  end.

Definition group_of (m : string) : option (opnd → insn) :=
  if (m =? "inc")%string then Some (IGroup5 0 W64) else if (m =? "dec")%string then Some (IGroup5 1 W64)
  else if (m =? "not")%string then Some (IGroup3 2 W64) else if (m =? "neg")%string then Some (IGroup3 3 W64)
  else if (m =? "mul")%string then Some (IGroup3 4 W64) else if (m =? "div")%string then Some (IGroup3 6 W64)
  else if (m =? "idiv")%string then Some (IGroup3 7 W64)
  else if (m =? "pop")%string then Some IPop
  else None.

Definition enc1 (m : string) (o : operand) : option insn :=
  match o with
  | OReg r => if (m =? "push")%string then Some (IPush (Gpr W64 r))
              else if (m =? "jmp")%string then Some (IGroup5 4 W64 (r64 r))
              else f ← group_of m; Some (f (r64 r))
  | OMem b _ _ d =>
      if (m =? "push")%string then Some (IGroup5 6 W64 (mem b d))
      else if (m =? "jmp")%string then Some (IGroup5 4 W64 (mem b d))
      else f ← group_of m; Some (f (mem b d))
  | OImm n => if (m =? "push")%string then
                if 0xFFFFFFFF <? n then None else Some (IPushImm (swrap 32 n))
              else None
  | OLabel _ => None
  end.

(** ** Decoding what was encoded *)

Lemma decode_rm_reg p w reg rm r :
  is_code rm → decode_rm p w (encodeModRM 3 reg rm :: r) = Some (Z.land reg 7, DReg (reg_of w p (ext p 0 rm)), r).
Proof. intros H. unfold decode_rm. rewrite fields_modrm by lia. by rewrite (land7_code rm). Qed.

Lemma modrm_mem_head l r e rest :
  decode_mem l = Some (r, e, rest) →
  ∃ m t, l = m :: t ∧ (modrm_fields m).1.1 ≠ 3.
Proof.
  destruct l as [|m t]; [done|]. unfold decode_mem. intros H. exists m, t. split; [done|].
  destruct (modrm_fields m) as [[md reg] rm] eqn:E. cbn [fst].
  by destruct (Z.eqb_spec md 3).
Qed.

Lemma decode_rm_of_mem p w l r e e' rest :
  decode_mem l = Some (r, e, rest) → ext_ea p e = Some e' → decode_rm p w l = Some (r, DMem e', rest).
Proof.
  intros H He. destruct (modrm_mem_head _ _ _ _ H) as (m & t & -> & Hm). unfold decode_rm.
  destruct (modrm_fields m) as [[md reg] rm] eqn:E. cbn in Hm.
  destruct (Z.eqb_spec md 3); [done|]. rewrite H. cbn. by rewrite He.
Qed.

(** The bits R, X and B are clear. *)
Definition no_ext (p : prefixes) : bool := negb (rex_bit p 0) && negb (rex_bit p 1) && negb (rex_bit p 2).

Lemma decode_rm_mem p w b i sc d reg r :
  no_ext p = true → is_code b → simple (OMem b i sc d) →
  decode_rm p w (writeMemOperand b i sc d reg ++ r) = Some (Z.land reg 7, mem b d, r).
Proof.
  intros Hp Hb (-> & H4 & H5 & Hd). unfold no_ext in Hp.
  apply (decode_rm_of_mem p w _ _ (simple_ea b d)); [|unfold ext_ea, ext; cbn; by destruct (rex_bit p 0), (rex_bit p 1)].
  rewrite writeMemOperand_decode; try done; [by left|].
  unfold encodable. change (255 =? 255) with true. cbv iota.
  destruct (Z.eqb_spec b 5), (Z.eqb_spec d 0), (Z.eqb_spec b 4); cbn; tauto.
Qed.

Lemma decode_mem_simple b i sc d reg r :
  is_code b → simple (OMem b i sc d) →
  decode_mem (writeMemOperand b i sc d reg ++ r) = Some (Z.land reg 7, simple_ea b d, r).
Proof.
  intros Hb (-> & H4 & H5 & Hd). rewrite writeMemOperand_decode; try done; [by left|].
  unfold encodable. change (255 =? 255) with true. cbv iota.
  destruct (Z.eqb_spec b 5), (Z.eqb_spec d 0), (Z.eqb_spec b 4); cbn; tauto.
Qed.

Lemma take32_put32 n r : is_word 32 n → take32 (put32 n ++ r) = Some (n, r).
Proof.
  intros Hn. pose proof (length_le_bytes 4 (u32 n)) as Hl. fold (put32 n) in Hl.
  unfold take32. destruct (Nat.ltb_spec (length (put32 n ++ r)) 4); [rewrite length_app in *; lia|].
  rewrite take_app_length', drop_app_length' by done. rewrite le_val_put32, wrap_small; done.
Qed.

Lemma take64_put64 n r : is_word 64 n → take64 (put64 n ++ r) = Some (n, r).
Proof.
  intros Hn. pose proof (length_le_bytes 8 (u64 n)) as Hl. fold (put64 n) in Hl.
  unfold take64. destruct (Nat.ltb_spec (length (put64 n ++ r)) 8); [rewrite length_app in *; lia|].
  rewrite take_app_length', drop_app_length' by done. rewrite le_val_put64, wrap_small; done.
Qed.

Create Rewrite HintDb dec.
#[export] Hint Rewrite decode_rm_reg decode_rm_mem decode_mem_simple land7_code using done : dec.
#[export] Hint Rewrite take32_put32 take64_put64
  using (unfold is_word, is_code in *; cbn in *; lia) : dec.

(** The code appended by a handler decodes as [i]. *)
Definition emits (p : parser) (m : outcome parser) (i : insn) : Prop :=
  ∃ code, m = Ok (append_cur code p) ∧ ∀ tail, decode (code ++ tail) = Some (i, tail).

#[local] Arguments decode_rm : simpl never.
#[local] Arguments decode_mem : simpl never.
#[local] Arguments encodeModRM : simpl never.
#[local] Arguments writeMemOperand : simpl never.
#[local] Arguments put32 : simpl never.
#[local] Arguments put64 : simpl never.
#[local] Arguments take32 : simpl never.
#[local] Arguments take64 : simpl never.
#[local] Arguments swrap : simpl never.
#[local] Arguments Z.land !_ !_ /.
#[local] Arguments Z.shiftr !_ !_ /.

Ltac show_code :=
  eexists; (split; [reflexivity|]); intros tail;
  rewrite <- ?app_assoc; cbn [app]; rewrite <- ?app_assoc;
  cbn; unfold with_reg, with_ext, with_imm32; cbn; autorewrite with dec; cbn; autorewrite with dec; try done.

Lemma emits_Ok p c i : (∀ tail, decode (c ++ tail) = Some (i, tail)) → emits p (Ok (append_cur c p)) i.
Proof. intros H. by exists c. Qed.

(** Splits on the mnemonics of a specification. *)
Ltac split_mnemonic :=
  repeat match goal with
  | H : (if (?m =? ?s)%string then _ else _) = Some _ |- _ =>
      destruct (String.eqb_spec m s) as [->|?]; [cbv iota in H; simplify_eq|]
  | H : (_ ← (if (?m =? ?s)%string then _ else _); _) = Some _ |- _ =>
      destruct (String.eqb_spec m s) as [->|?]; [cbn in H; simplify_eq|]
  | H : (if (?a <? ?b) then _ else _) = Some _ |- _ =>
      destruct (Z.ltb_spec a b); [discriminate H|simplify_eq]
  end; try discriminate.

(** Replaces the handler looked up in the table by the emitter [hh]. *)
Ltac use_handler hh :=
  match goal with
  | H : find_handler _ _ = Some ?h |- _ =>
      assert (Some h = Some hh) as [= ->] by (rewrite <- H; reflexivity); clear H
  end.

Lemma two_operands_split msg rest a0 a1 dst src :
  splitArgs (trimSpace rest) = [a0; a1] → parseOperand a0 = Ok dst → parseOperand a1 = Ok src →
  two_operands msg rest = Ok (dst, src).
Proof. unfold two_operands. intros -> H0 H1. by rewrite H0; cbn; rewrite H1. Qed.

Section two_operand.
Context (m : string) (h : handler) (rest a0 a1 : bytes) (dst src : operand) (i : insn) (p : parser).
Context (Hh : find_handler (bytes_of_string m) mnemonic_table = Some h).
Context (Hsplit : splitArgs (trimSpace rest) = [a0; a1]).
Context (H0 : parseOperand a0 = Ok dst) (H1 : parseOperand a1 = Ok src).
Context (Sd : simple dst) (Ss : simple src) (Hi : enc2 m dst src = Some i).

Lemma emits_two : emits p (h rest p) i.
Proof.
  pose proof (parseOperand_wf _ _ H0) as Hd. pose proof (parseOperand_wf _ _ H1) as Hs.
  pose proof (λ msg, two_operands_split msg _ _ _ _ _ Hsplit H0 H1) as H.
  destruct dst, src; try discriminate Hi; cbn [enc2] in Hi; split_mnemonic;
  cbn [wf_operand] in *; destruct_and?;
  first [ use_handler emitMov; unfold emitMov | use_handler emitCmp; unfold emitCmp
        | use_handler emitTest; unfold emitTest | use_handler emitXchg; unfold emitXchg
        | use_handler emitLea; unfold emitLea | use_handler emitImul; unfold emitImul ];
  rewrite H; cbn [mbind outcome_bind].
  all: try match goal with |- context [?a <? ?b] => destruct (Z.ltb_spec a b); [try lia|] end.
  all: try by show_code.
  all: pattern reg; apply (is_code_cases _ reg Hd); show_code.
Qed.
End two_operand.

Section one_operand_insn.
Context (m : string) (h : handler) (rest : bytes) (o : operand) (i : insn) (p : parser).
Context (Hh : find_handler (bytes_of_string m) mnemonic_table = Some h).
Context (H0 : parseOperand (trimSpace rest) = Ok o).
Context (So : simple o) (Hi : enc1 m o = Some i).

Lemma emits_one : emits p (h rest p) i.
Proof.
  pose proof (parseOperand_wf _ _ H0) as Hd.
  assert (H : one_operand rest = Ok o) by done.
  destruct o; try discriminate Hi; cbn [enc1] in Hi; unfold group_of in Hi; split_mnemonic;
  cbn [wf_operand] in *; destruct_and?;
  first [ use_handler emitPush; unfold emitPush | use_handler emitPop; unfold emitPop
        | use_handler emitJmp; unfold emitJmp | use_handler emitInc; unfold emitInc, emit_ext
        | use_handler emitDec; unfold emitDec, emit_ext
        | use_handler (emitUnary 0xF7 2); unfold emitUnary, emit_ext
        | use_handler (emitUnary 0xF7 3); unfold emitUnary, emit_ext
        | use_handler (emitMulDiv 0xF7 4); unfold emitMulDiv, emit_ext
        | use_handler (emitMulDiv 0xF7 6); unfold emitMulDiv, emit_ext
        | use_handler (emitMulDiv 0xF7 7); unfold emitMulDiv, emit_ext ];
  rewrite H; cbn [mbind outcome_bind].
  all: try match goal with |- context [?a <? ?b] => destruct (Z.ltb_spec a b); [try lia|] end.
  all: try by show_code.
  all: pattern reg; apply (is_code_cases _ reg Hd); show_code.
Qed.
End one_operand_insn.

(** ** The instructions whose encoding is another instruction

    The number of the operation in the opcode map, for the mnemonics that
    emitArith serves. *)
Definition alu_number (m : string) : option Z :=
  if (m =? "add")%string then Some 0 else if (m =? "or")%string then Some 1
  else if (m =? "adc")%string then Some 2 else if (m =? "sbb")%string then Some 3
  else if (m =? "and")%string then Some 4 else if (m =? "sub")%string then Some 5
  else if (m =? "xor")%string then Some 6 else None.

Definition shift_number (m : string) : option Z :=
  if (m =? "rol")%string then Some 0 else if (m =? "ror")%string then Some 1
  else if (m =? "rcl")%string then Some 2 else if (m =? "rcr")%string then Some 3
  else if (m =? "shl")%string then Some 4 else if (m =? "sal")%string then Some 4
  else if (m =? "shr")%string then Some 5 else if (m =? "sar")%string then Some 7 else None.

Ltac use_arith :=
  first [ use_handler (emitArith 0x00 0x81) | use_handler (emitArith 0x08 0x81)
        | use_handler (emitArith 0x10 0x81) | use_handler (emitArith 0x18 0x81)
        | use_handler (emitArith 0x20 0x81) | use_handler (emitArith 0x28 0x81)
        | use_handler (emitArith 0x30 0x81) ]; unfold emitArith.

Ltac use_shift :=
  first [ use_handler (emitShift 0xD2 0) | use_handler (emitShift 0xD2 1)
        | use_handler (emitShift 0xD2 2) | use_handler (emitShift 0xD2 3)
        | use_handler (emitShift 0xD2 4) | use_handler (emitShift 0xD2 5)
        | use_handler (emitShift 0xD2 7) ]; unfold emitShift.

Section misencoded.
Context (m : string) (h : handler) (rest a0 a1 : bytes) (d : Z) (p : parser).
Context (Hh : find_handler (bytes_of_string m) mnemonic_table = Some h).
Context (Hsplit : splitArgs (trimSpace rest) = [a0; a1]) (H0 : parseOperand a0 = Ok (OReg d)).

Lemma arith_imm_adds n k :
  parseOperand a1 = Ok (OImm n) → n ≤ 0xFFFFFFFF → alu_number m = Some k →
  emits p (h rest p) (IAluImm 0 W64 (r64 d) (swrap 32 n)).
Proof.
  intros H1 Hn Hk. pose proof (parseOperand_wf _ _ H0) as Hd. pose proof (parseOperand_wf _ _ H1) as Hs.
  cbn [wf_operand] in *. pose proof (λ msg, two_operands_split msg _ _ _ _ _ Hsplit H0 H1) as H.
  unfold alu_number in Hk. split_mnemonic; use_arith; rewrite H; cbn [mbind outcome_bind];
  (destruct (Z.ltb_spec 0xFFFFFFFF n); [lia|]); by show_code.
Qed.

Lemma arith_reg_byte s k :
  parseOperand a1 = Ok (OReg s) → alu_number m = Some k →
  emits p (h rest p) (IAlu k W8 (DReg (Gpr W8 d)) (DReg (Gpr W8 s))).
Proof.
  intros H1 Hk. pose proof (parseOperand_wf _ _ H0) as Hd. pose proof (parseOperand_wf _ _ H1) as Hs.
  cbn [wf_operand] in *. pose proof (λ msg, two_operands_split msg _ _ _ _ _ Hsplit H0 H1) as H.
  unfold alu_number in Hk. split_mnemonic; use_arith; rewrite H; cbn [mbind outcome_bind];
  by show_code.
Qed.

Lemma shift_imm_stray n k :
  parseOperand a1 = Ok (OImm n) → shift_number m = Some k →
  ∃ code, h rest p = Ok (append_cur code p) ∧
    ∀ tail, decode (code ++ tail) = Some (IShiftCL k W8 (DReg (Gpr W8 d)), shift_count n :: tail).
Proof.
  intros H1 Hk. pose proof (parseOperand_wf _ _ H0) as Hd.
  cbn [wf_operand] in *. pose proof (λ msg, two_operands_split msg _ _ _ _ _ Hsplit H0 H1) as H.
  unfold shift_number in Hk. split_mnemonic; use_shift; rewrite H; cbn [mbind outcome_bind];
  by show_code.
Qed.

End misencoded.

(** ** Properties *)

(** *** What a line of the source asks for *)

(** The operands as they are written: registers by their names of the Intel
    syntax, numbers, and the memory at a register and a displacement. *)
Inductive arg := AReg (r : register) | AImm (n : Z) | AMem (base : register) (d : Z).

Definition legacy_name (n : Z) : bytes :=
  match n with 0 => bs "ax" | 1 => bs "cx" | 2 => bs "dx" | 3 => bs "bx" | 4 => bs "sp" | 5 => bs "bp" | 6 => bs "si" | _ => bs "di" end.
Definition low_name (n : Z) : bytes :=
  match n with 0 => bs "al" | 1 => bs "cl" | 2 => bs "dl" | 3 => bs "bl" | 4 => bs "spl" | 5 => bs "bpl" | 6 => bs "sil" | _ => bs "dil" end.
Definition reg_text (r : register) : bytes :=
  match r with
  | High n => match n with 0 => bs "ah" | 1 => bs "ch" | 2 => bs "dh" | _ => bs "bh" end
  | Gpr w n =>
      if n <? 8 then
        match w with W64 => ch "r" :: legacy_name n | W32 => ch "e" :: legacy_name n | W16 => legacy_name n | W8 => low_name n end
      else ch "r" :: decimal n ++ match w with W64 => [] | W32 => bs "d" | W16 => bs "w" | W8 => bs "b" end
  end.
Definition int_text (n : Z) : bytes := if n <? 0 then ch "-" :: decimal (- n) else decimal n.
Definition arg_text (a : arg) : bytes :=
  match a with
  | AReg r => reg_text r
  | AImm n => int_text n
  | AMem b d => ch "[" :: (reg_text b ++ print_disp d) ++ [ch "]"]
  end.

Definition width_of (r : register) : width := match r with Gpr w _ => w | High _ => W8 end.
Definition bits (w : width) : Z := match w with W8 => 8 | W16 => 16 | W32 => 32 | W64 => 64 end.
(** An immediate that is sign-extended from at most 32 bits. *)
Definition fits (w : width) (n : Z) : bool := let k := Z.min 32 (bits w) in (- 2 ^ (k - 1) <=? n) && (n <? 2 ^ (k - 1)).
Definition address (b : register) (d : Z) : option ea :=
  match b with Gpr W64 n => Some (EA (Some n) None d false) | _ => None end.

(** The instruction that a two-operand mnemonic asks for, whatever the widths of
    its registers; a memory operand has the width of the register beside it, or
    64 bits. *)
Definition asked (m : string) (dst src : arg) : option insn :=
  match dst, src with
  | AReg d, AReg s =>
      let w := width_of d in
      if negb (bool_decide (width_of s = w)) then None
      else if (m =? "mov")%string then Some (IMov w (DReg d) (DReg s))
      else if (m =? "cmp")%string then Some (IAlu 7 w (DReg d) (DReg s))
      else if (m =? "test")%string then Some (ITest w (DReg d) (DReg s))
      else if (m =? "xchg")%string then Some (IXchg w (DReg d) (DReg s))
      else None
  | AReg d, AImm n =>
      let w := width_of d in
      if (m =? "mov")%string then
        if (- 2 ^ (bits w - 1) <=? n) && (n <? 2 ^ bits w) then Some (IMovImm d (wrap (bits w) n)) else None
      else if negb (fits w n) then None
      else if (m =? "cmp")%string then Some (IAluImm 7 w (DReg d) n)
      else if (m =? "test")%string then Some (ITestImm w (DReg d) n)
      else None
  | AMem b dv, AReg s =>
      e ← address b dv; let w := width_of s in
      if (m =? "mov")%string then Some (IMov w (DMem e) (DReg s))
      else if (m =? "cmp")%string then Some (IAlu 7 w (DMem e) (DReg s))
      else if (m =? "test")%string then Some (ITest w (DMem e) (DReg s))
      else if (m =? "xchg")%string then Some (IXchg w (DMem e) (DReg s))
      else None
  | AReg d, AMem b dv =>
      e ← address b dv; let w := width_of d in
      if (m =? "mov")%string then Some (IMov w (DReg d) (DMem e))
      else if (m =? "lea")%string then Some (ILea d e)
      else if (m =? "imul")%string then Some (IImul w d (DMem e))
      else if (m =? "xchg")%string then Some (IXchg w (DMem e) (DReg d))
      else None
  | AMem b dv, AImm n =>
      e ← address b dv;
      if negb (fits W64 n) then None
      else if (m =? "cmp")%string then Some (IAluImm 7 W64 (DMem e) n)
      else None
  | _, _ => None
  end.

(** The operands the encoders are made for: the registers rax to rdi, addresses
    with a direct encoding, and for mov numbers that are not negative. *)
Definition low64 (r : register) : Prop := ∃ n, r = Gpr W64 n ∧ is_code n.
Definition direct (m : string) (a : arg) : Prop :=
  match a with
  | AReg r => low64 r
  | AImm n => m = "mov"%string → 0 ≤ n
  | AMem b d => ∃ n, b = Gpr W64 n ∧ is_code n ∧ n ≠ 4 ∧ ¬ (n = 5 ∧ d = 0) ∧ - 2 ^ 31 ≤ d < 2 ^ 31
  end.
Definition reg_number (r : register) : Z := match r with Gpr _ n => n | High n => n + 4 end.
Definition operand_of (a : arg) : operand :=
  match a with
  | AReg r => OReg (reg_number r)
  | AImm n => OImm (if n <? 0 then u32 n else n)
  | AMem b d => OMem (reg_number b) 255 1 d
  end.

Lemma reg64_text n : is_code n → reg_text (Gpr W64 n) = reg64_name n.
Proof. intros H. pattern n. by apply (is_code_cases _ n H). Qed.

Lemma parse_reg64 n : is_code n → parseOperand (reg_text (Gpr W64 n)) = Ok (OReg n).
Proof. intros H. pattern n. by apply (is_code_cases _ n H). Qed.

Lemma parse_int n :
  - 2 ^ 31 ≤ n < 2 ^ 64 → (length (int_text n) ≤ 16)%nat → parseOperand (int_text n) = Ok (OImm (if n <? 0 then u32 n else n)).
Proof.
  intros Hn Hl. unfold int_text in *. destruct (Z.ltb_spec n 0) as [Hneg|Hpos].
  - pose proof (decimal_chars (- n) ltac:(lia)) as Hc. pose proof (decimal_nonempty (- n)) as Hne.
    pose proof (parseNumber_decimal (- n) ltac:(unfold is_word; lia)) as Hp.
    destruct (decimal (- n)) as [|c r] eqn:E; [done|].
    assert (trimSpace (ch "-" :: c :: r) = ch "-" :: c :: r) as Ht.
    { apply trimSpace_id; [done|]. destruct (last (ch "-" :: c :: r)) as [x|] eqn:El; [|done].
      change (last (ch "-" :: c :: r)) with (last (c :: r)) in El. apply last_Some_elem_of in El.
      rewrite Forall_forall in Hc. by apply Hc, plain_digit in El as [? _]. }
    unfold parseOperand. rewrite Ht. rewrite parseRegister_nonletter by (done || cbn; lia). cbn [mbind outcome_bind].
    change (ch "-" =? ch "[") with false. rewrite andb_false_r. cbn [andb].
    unfold parseImmediate. change (ch "-" =? ch "-") with true. cbv iota. rewrite Hp.
    destruct (Z.ltb_spec 0x80000000 (- n)); [lia|]. do 2 f_equal. rewrite (swrap_small 64) by lia. f_equal. lia.
  - pose proof (decimal_chars n Hpos) as Hc. pose proof (decimal_nonempty n) as Hne.
    pose proof (parseNumber_decimal n ltac:(unfold is_word; lia)) as Hp.
    assert (trimSpace (decimal n) = decimal n) as Ht by (by apply trimSpace_plain, decimal_plain).
    unfold parseOperand. rewrite Ht. destruct (decimal n) as [|c r] eqn:E; [done|].
    apply Forall_cons in Hc as [Hc _]. unfold is_dec_digit in Hc.
    assert (lower c = c) as Hlow by (unfold lower; destruct (Z.leb_spec 65 c); [lia|done]).
    rewrite parseRegister_nonletter by (done || rewrite Hlow; lia). cbn [mbind outcome_bind].
    assert (c =? ch "[" = false) as -> by (apply Z.eqb_neq; change (ch "[") with 91; lia). rewrite andb_false_r. cbn [andb].
    assert (parseImmediate (c :: r) = Some n) as ->; [|done].
    unfold parseImmediate. destruct r as [|d r]; [by rewrite Hp|].
    assert (c =? ch "-" = false) as -> by (apply Z.eqb_neq; change (ch "-") with 45; lia). by rewrite Hp.
Qed.

Lemma fits_range w n : fits w n = true → - 2 ^ 31 ≤ n < 2 ^ 31.
Proof.
  destruct w; unfold fits; cbn [bits].
  - change (2 ^ (Z.min 32 8 - 1)) with 128. lia.
  - change (2 ^ (Z.min 32 16 - 1)) with 32768. lia.
  - change (2 ^ (Z.min 32 32 - 1)) with 2147483648. lia.
  - change (2 ^ (Z.min 32 64 - 1)) with 2147483648. lia.
Qed.

Lemma asked_int_range m dst n i : asked m dst (AImm n) = Some i → - 2 ^ 63 ≤ n < 2 ^ 64 ∧ (m ≠ "mov"%string → - 2 ^ 31 ≤ n < 2 ^ 31).
Proof.
  pose proof (λ w, fits_range w n) as Hf.
  destruct dst as [d|k|b dv]; cbn [asked]; [|done|].
  - destruct (String.eqb_spec m "mov") as [->|Hm].
    + destruct (_ && _) eqn:E; [|done]. intros _. split; [|done]. assert (- 2 ^ 63 ≤ - 2 ^ (bits (width_of d) - 1) ∧ 2 ^ bits (width_of d) ≤ 2 ^ 64) by (by destruct (width_of d)). lia.
    + destruct (fits (width_of d) n) eqn:E; cbn [negb]; [|done]. apply Hf in E. intros _. split; [lia|done].
  - destruct (address b dv); cbn; [|done]. destruct (fits W64 n) eqn:E; cbn [negb]; [|done]. apply Hf in E. intros _. split; [lia|done].
Qed.

Lemma parse_arg m a t :
  direct m a → trimSpace t = arg_text a → (length (arg_text a) ≤ 16)%nat →
  (∀ n, a = AImm n → - 2 ^ 31 ≤ n < 2 ^ 64) → parseOperand t = Ok (operand_of a) ∧ simple (operand_of a).
Proof.
  intros Hd Ht Hl Hn.
  assert (parseOperand t = parseOperand (arg_text a)) as ->.
  { unfold parseOperand. by rewrite <- Ht, trimSpace_idem. }
  destruct a as [r|n|b d]; cbn [direct operand_of simple arg_text] in *.
  - destruct Hd as (k & -> & Hk). by split; [apply parse_reg64|].
  - split; [|done]. apply parse_int; [by apply Hn|done].
  - destruct Hd as (k & -> & Hk & H4 & H5 & Hdd). cbn [reg_number]. split; [|by repeat (split; [done|])].
    rewrite reg64_text in * by done. apply (parseOperand_print k None d); [done|done|lia|done].
Qed.



(** The encoders know neither the width of a register nor its highest bit, and
    not the sign of a number that is moved. *)
Lemma widths_are_lost :
  let p := init_parser [] (Profile 2 8 16 62) in
  emits p (emitCmp (bs " al, 10") p) (IAluImm 7 W64 (r64 0) 10) ∧
  emits p (emitMov (bs " r8, rbx") p) (IMov W64 (r64 0) (r64 3)) ∧
  emits p (emitTest (bs " ah, bl") p) (ITest W64 (r64 4) (r64 3)) ∧
  emits p (emitMov (bs " rax, -1") p) (IMovImm (Gpr W64 0) 0xFFFFFFFF) ∧
  emits p (emitCmp (bs " rax, 4294967295") p) (IAluImm 7 W64 (r64 0) (-1)).
Proof. cbv zeta. split_and!; (eexists; split; [reflexivity|]; intros tail; reflexivity). Qed.

(** push, pop, jmp through a register or memory, inc, dec, not, neg, mul, div
    and idiv append the encoding of the requested instruction. *)
Theorem one_operand_correct m h rest o i p :
  find_handler (bytes_of_string m) mnemonic_table = Some h →
  parseOperand (trimSpace rest) = Ok o → simple o → enc1 m o = Some i →
  emits p (h rest p) i.
Proof. apply emits_one. Qed.

Theorem one_operand_correct_witness :
  let p := init_parser [] (Profile 2 8 16 62) in emits p (emitMulDiv 0xF7 6 (bs " rcx") p) (IGroup3 6 W64 (r64 1)).
Proof. cbv zeta. apply (one_operand_correct "div" _ (bs " rcx") (OReg 1)); reflexivity || exact I. Defined.

(** Every arithmetic mnemonic with an immediate (sub, and, or, xor, adc, sbb)
    appends the encoding of add with that immediate. *)
Theorem arith_immediate_is_add m h rest a0 a1 d n k p :
  find_handler (bytes_of_string m) mnemonic_table = Some h →
  splitArgs (trimSpace rest) = [a0; a1] → parseOperand a0 = Ok (OReg d) → parseOperand a1 = Ok (OImm n) →
  n ≤ 0xFFFFFFFF → alu_number m = Some k →
  emits p (h rest p) (IAluImm 0 W64 (r64 d) (swrap 32 n)).
Proof. intros. by eapply arith_imm_adds. Qed.

Theorem arith_immediate_is_add_witness :
  let p := init_parser [] (Profile 2 8 16 62) in
  emits p (emitArith 0x28 0x81 (bs " rax, 1") p) (IAluImm 0 W64 (r64 0) 1).
Proof.
  cbv zeta. apply (arith_immediate_is_add "sub" _ (bs " rax, 1") (bs "rax") (bs " 1") 0 1 5); reflexivity || lia.
Defined.

(** A shift or rotation by an immediate appends an 8-bit shift by CL followed
    by one stray byte, the count. *)
Theorem shift_immediate_stray m h rest a0 a1 d n k p :
  find_handler (bytes_of_string m) mnemonic_table = Some h →
  splitArgs (trimSpace rest) = [a0; a1] → parseOperand a0 = Ok (OReg d) → parseOperand a1 = Ok (OImm n) →
  shift_number m = Some k →
  ∃ code, h rest p = Ok (append_cur code p) ∧
    ∀ tail, decode (code ++ tail) = Some (IShiftCL k W8 (DReg (Gpr W8 d)), shift_count n :: tail).
Proof. intros. by eapply shift_imm_stray. Qed.

Theorem shift_immediate_stray_witness :
  let p := init_parser [] (Profile 2 8 16 62) in
  ∃ code, emitShift 0xD2 4 (bs " rax, 3") p = Ok (append_cur code p) ∧
    ∀ tail, decode (code ++ tail) = Some (IShiftCL 4 W8 (DReg (Gpr W8 0)), 3 :: tail).
Proof.
  cbv zeta. apply (shift_immediate_stray "shl" _ (bs " rax, 3") (bs "rax") (bs " 3") 0 3 4); reflexivity.
Defined.
