(* ===== verification/ElfObject.v ===== *)
(** * Relocatable ELF objects of the built-in assembler

    Models emit and the writers below it in internal/assembler/emitter.go
    (lines 783 to 1187).  The output slice is a list of bytes that the writers
    update in place; the symbol table region is obtained by reslicing a pooled
    buffer, so its old contents are a parameter ([stale]). *)
From S2P Require Import Prelude AsmBytes AsmState AsmParse.

(** ** Constants *)
Definition elfClass32 : Z := 1.
Definition elfClass64 : Z := 2.
Definition shTypeNull : Z := 0.
Definition shTypeProgBits : Z := 1.
Definition shTypeSymTab : Z := 2.
Definition shTypeStrTab : Z := 3.
Definition shTypeRela : Z := 4.
Definition shTypeNoBits : Z := 8.
Definition elf64ShdrSize : nat := 64.
Definition elf32ShdrSize : nat := 40.

(** ** Writers

    Writes into the slice from [off]; what lies past its length goes to the
    spare capacity and is not part of the result. *)
Definition write_at (off : nat) (l out : bytes) : bytes := list_inserts off l out.

Definition writeUint16At (out : bytes) (off : nat) (v : Z) : bytes := write_at off (le_bytes 2 v) out.
Definition writeUint32At (out : bytes) (off : nat) (v : Z) : bytes := write_at off (le_bytes 4 v) out.
Definition writeUint64At (out : bytes) (off : nat) (v : Z) : bytes := write_at off (le_bytes 8 v) out.

Definition writeElf64SymAt (dst : bytes) (off : nat) (name info other shndx value size : Z) : bytes :=
  let dst := writeUint32At dst (off + 0) name in
  let dst := write_at (off + 4) [u8 info] dst in
  let dst := write_at (off + 5) [u8 other] dst in
  let dst := writeUint16At dst (off + 6) shndx in
  let dst := writeUint64At dst (off + 8) value in
  writeUint64At dst (off + 16) size.

Definition writeElf32SymAt (dst : bytes) (off : nat) (name info other shndx value size : Z) : bytes :=
  let dst := writeUint32At dst (off + 0) name in
  let dst := write_at (off + 4) [u8 info] dst in
  let dst := write_at (off + 5) [u8 other] dst in
  let dst := writeUint16At dst (off + 6) shndx in
  let dst := writeUint32At dst (off + 8) value in
  writeUint32At dst (off + 12) size.

(** The slice passed to the section writers is the window of [len] bytes of
    [out] at [off]. *)
Definition writeELF64Section (out : bytes) (off len : nat)
    (name typ flags addr offset size link info addralign entsize : Z) : bytes :=
  if (len <? elf64ShdrSize)%nat then out
  else
    let out := writeUint32At out off name in
    let out := writeUint32At out (off + 4) typ in
    let out := writeUint64At out (off + 8) flags in
    let out := writeUint64At out (off + 16) addr in
    let out := writeUint64At out (off + 24) offset in
    let out := writeUint64At out (off + 32) size in
    let out := writeUint32At out (off + 40) link in
    let out := writeUint32At out (off + 44) info in
    let out := writeUint64At out (off + 48) addralign in
    writeUint64At out (off + 56) entsize.

Definition writeELF32Section (out : bytes) (off len : nat)
    (name typ flags addr offset size link info addralign entsize : Z) : bytes :=
  if (len <? elf32ShdrSize)%nat then out
  else
    let out := writeUint32At out off name in
    let out := writeUint32At out (off + 4) typ in
    let out := writeUint32At out (off + 8) flags in
    let out := writeUint32At out (off + 12) addr in
    let out := writeUint32At out (off + 16) offset in
    let out := writeUint32At out (off + 20) size in
    let out := writeUint32At out (off + 24) link in
    let out := writeUint32At out (off + 28) info in
    let out := writeUint32At out (off + 32) addralign in
    writeUint32At out (off + 36) entsize.

(** The identification bytes, written one by one. *)
Definition elf_ident (class : Z) : bytes := [0x7f; ch "E"; ch "L"; ch "F"; class; 1; 1; 0; 0; 0; 0; 0; 0; 0; 0; 0].

Definition populateELF64Header (out : bytes) (profile : targetProfile) (shoff shentsize shnum shstrndx : Z) : bytes :=
  let out := write_at 0 (elf_ident elfClass64) out in
  let out := writeUint16At out 16 1 in
  let out := writeUint16At out 18 (eMachine profile) in
  let out := writeUint32At out 20 1 in
  let out := writeUint64At out 24 0 in
  let out := writeUint64At out 32 0 in
  let out := writeUint64At out 40 shoff in
  let out := writeUint32At out 48 0 in
  let out := writeUint16At out 52 64 in
  let out := writeUint16At out 54 0 in
  let out := writeUint16At out 56 0 in
  let out := writeUint16At out 58 shentsize in
  let out := writeUint16At out 60 shnum in
  writeUint16At out 62 shstrndx.

Definition populateELF32Header (out : bytes) (profile : targetProfile) (shoff shentsize shnum shstrndx : Z) : bytes :=
  let out := write_at 0 (elf_ident elfClass32) out in
  let out := writeUint16At out 16 1 in
  let out := writeUint16At out 18 (eMachine profile) in
  let out := writeUint32At out 20 1 in
  let out := writeUint32At out 24 0 in
  let out := writeUint32At out 28 0 in
  let out := writeUint32At out 32 shoff in
  let out := writeUint32At out 36 0 in
  let out := writeUint16At out 40 52 in
  let out := writeUint16At out 42 0 in
  let out := writeUint16At out 44 0 in
  let out := writeUint16At out 46 shentsize in
  let out := writeUint16At out 48 shnum in
  writeUint16At out 50 shstrndx.

(** ** Names and symbols *)

Fixpoint matchBytes (data pattern : bytes) : bool :=
  match pattern, data with
  | [], _ => true
  | _, [] => false
  | p :: pattern', d :: data' => if d =? p then matchBytes data' pattern' else false
  end.

(** The loop of offsetOfNameInShstr from index [i]. *)
Fixpoint offset_from (i : Z) (name shstrtab : bytes) : Z :=
  if (length shstrtab <? length name)%nat then 0
  else if matchBytes (take (length name) shstrtab) name then u32 i
  else match shstrtab with [] => 0 | _ :: r => offset_from (i + 1) name r end.

Definition offsetOfNameInShstr (name shstrtab : bytes) : Z :=
  if nilb name then 0 else offset_from 0 name shstrtab.

Definition is_local (s : symbolState) : bool := sym_bind s =? stBindLocal.

Definition symbolLocalCount (p : parser) : nat :=
  length (filter (λ s, is_local s = true) (p_symbols p)).

Definition set_nameOffset (n : Z) (s : symbolState) : symbolState :=
  Symbol (sym_name s) n (sym_value s) (sym_shndx s) (sym_bind s) (sym_typ s).

(** The string table loop: names are appended and their offsets recorded. *)
Fixpoint write_strtab (strtabOffset : nat) (syms : list symbolState) (out : bytes)
    : list symbolState * bytes :=
  match syms with
  | [] => ([], out)
  | s :: r =>
      let s' := set_nameOffset (u32 (Zlen out - Z.of_nat strtabOffset)) s in
      let '(r', out') := write_strtab strtabOffset r (out ++ sym_name s ++ [0]) in
      (s' :: r', out')
  end.

Definition sym_info (s : symbolState) : Z := u8 (Z.lor (Z.shiftl (sym_bind s) 4) (sym_typ s)).

(** One of the two loops over the symbols: the local ones, or the others. *)
Fixpoint write_syms64 (locals : bool) (syms : list symbolState) (off : nat) (out : bytes) : nat * bytes :=
  match syms with
  | [] => (off, out)
  | s :: r =>
      if eqb (is_local s) locals then
        write_syms64 locals r (off + 24)
          (writeElf64SymAt out off (sym_nameOffset s) (sym_info s) 0 (sym_shndx s) (sym_value s) 0)
      else write_syms64 locals r off out
  end.

Fixpoint write_syms32 (locals : bool) (syms : list symbolState) (off : nat) (out : bytes) : outcome (nat * bytes) :=
  match syms with
  | [] => Ok (off, out)
  | s :: r =>
      if eqb (is_local s) locals then
        if 2 ^ 32 - 1 <? sym_value s then Err "symbol value overflow for 32-bit ELF"
        else write_syms32 locals r (off + 16)
               (writeElf32SymAt out off (sym_nameOffset s) (sym_info s) 0 (sym_shndx s) (sym_value s) 0)
      else write_syms32 locals r off out
  end.

(** ** Relocations: symbol indices in the output table *)

(** The two loops that fill mapIdx. *)
Fixpoint map_locals (idx : Z) (syms : list symbolState) : list Z * Z :=
  match syms with
  | [] => ([], idx)
  | s :: r =>
      if is_local s then let '(m, k) := map_locals (idx + 1) r in (idx :: m, k)
      else let '(m, k) := map_locals idx r in (0 :: m, k)
  end.

Fixpoint map_globals (idx : Z) (syms : list symbolState) (m : list Z) : list Z :=
  match syms, m with
  | s :: r, x :: m' => if is_local s then x :: map_globals idx r m' else idx :: map_globals (idx + 1) r m'
  | _, _ => m
  end.

Definition mapIdx (syms : list symbolState) : list Z :=
  let '(m, idx) := map_locals 1 syms in map_globals idx syms m.

(** appendUint64 three times; mapIdx[r.sym] panics out of range. *)
Fixpoint append_relas (m : list Z) (relocs : list reloc) (out : bytes) : outcome bytes :=
  match relocs with
  | [] => Ok out
  | r :: rs =>
      if negb (rel_sec r =? 1) then append_relas m rs out
      else if rel_sym r <? 0 then Panic
      else match m !! Z.to_nat (rel_sym r) with
           | None => Panic
           | Some idx =>
               append_relas m rs
                 (out ++ le_bytes 8 (rel_off r) ++ le_bytes 8 (Z.lor (u64 (Z.shiftl idx 32)) (rel_typ r))
                      ++ le_bytes 8 (rel_addend r))
           end
  end.

(** ** The section headers *)

(** Where the parts of the file were placed, and the sizes of the tables. *)
Record layout := Layout {
  textOffset : nat; dataOffset : nat; symtabOffset : nat; strtabOffset : nat; shstrtabOffset : nat;
  symtabSize : nat; strtabSize : nat; shstrtabSize : nat; relaOffset : nat; relaSize : nat }.

Definition sub (off len : nat) (l : bytes) : bytes := take len (drop off l).

Definition populateELF64SectionHeaders (shOff : nat) (full : bytes) (p : parser) (L : layout) : bytes :=
  let shstr := sub (shstrtabOffset L) (shstrtabSize L) full in
  let name n := offsetOfNameInShstr n shstr in
  let sec k out := writeELF64Section out (shOff + elf64ShdrSize * k) elf64ShdrSize in
  let N := Z.of_nat in
  let out := sec 0%nat full 0 shTypeNull 0 0 0 0 0 0 0 0 in
  let out := sec 1%nat out (name (sec_name (p_text p))) shTypeProgBits (sec_flags (p_text p)) 0
               (N (textOffset L)) (Zlen (sec_data (p_text p))) 0 0 (sec_align (p_text p)) 0 in
  let out := sec 2%nat out (name (sec_name (p_data p))) shTypeProgBits (sec_flags (p_data p)) 0
               (N (dataOffset L)) (Zlen (sec_data (p_data p))) 0 0 (sec_align (p_data p)) 0 in
  let out := sec 3%nat out (name (sec_name (p_bss p))) shTypeNoBits (sec_flags (p_bss p)) 0
               0 (sec_size (p_bss p)) 0 0 (sec_align (p_bss p)) 0 in
  let out := sec 4%nat out (name (bs ".shstrtab")) shTypeStrTab 0 0
               (N (shstrtabOffset L)) (N (shstrtabSize L)) 0 0 1 0 in
  let out := sec 5%nat out (name (bs ".symtab")) shTypeSymTab 0 0
               (N (symtabOffset L)) (N (symtabSize L)) 6 (N (S (symbolLocalCount p))) 8 24 in
  let out := sec 6%nat out (name (bs ".strtab")) shTypeStrTab 0 0
               (N (strtabOffset L)) (N (strtabSize L)) 0 0 1 0 in
  sec 7%nat out (name (bs ".rela.text")) shTypeRela 0 0
    (N (relaOffset L)) (N (relaSize L)) 5 1 8 24.

(** A bss of 4 GiB or more leaves the headers from the third on zero. *)
Definition populateELF32SectionHeaders (shOff : nat) (full : bytes) (p : parser) (L : layout) : bytes :=
  let shstr := sub (shstrtabOffset L) (shstrtabSize L) full in
  let name n := offsetOfNameInShstr n shstr in
  let sec k out := writeELF32Section out (shOff + elf32ShdrSize * k) elf32ShdrSize in
  let N := Z.of_nat in
  let out := sec 0%nat full 0 shTypeNull 0 0 0 0 0 0 0 0 in
  let out := sec 1%nat out (name (sec_name (p_text p))) shTypeProgBits (sec_flags (p_text p)) 0
               (N (textOffset L)) (Zlen (sec_data (p_text p))) 0 0 (sec_align (p_text p)) 0 in
  let out := sec 2%nat out (name (sec_name (p_data p))) shTypeProgBits (sec_flags (p_data p)) 0
               (N (dataOffset L)) (Zlen (sec_data (p_data p))) 0 0 (sec_align (p_data p)) 0 in
  if 2 ^ 32 - 1 <? sec_size (p_bss p) then out
  else
  let out := sec 3%nat out (name (sec_name (p_bss p))) shTypeNoBits (sec_flags (p_bss p)) 0
               0 (sec_size (p_bss p)) 0 0 (sec_align (p_bss p)) 0 in
  let out := sec 4%nat out (name (bs ".shstrtab")) shTypeStrTab 0 0
               (N (shstrtabOffset L)) (N (shstrtabSize L)) 0 0 1 0 in
  let out := sec 5%nat out (name (bs ".symtab")) shTypeSymTab 0 0
               (N (symtabOffset L)) (N (symtabSize L)) 6 (N (S (symbolLocalCount p))) 8 16 in
  let out := sec 6%nat out (name (bs ".strtab")) shTypeStrTab 0 0
               (N (strtabOffset L)) (N (strtabSize L)) 0 0 1 0 in
  sec 7%nat out (name (bs ".rela.text")) shTypeRela 0 0
    (N (relaOffset L)) (N (relaSize L)) 5 1 4 12.

(** ** The object *)

Definition zeros (n : nat) : bytes := replicate n 0.

(** A section's data, aligned, unless it is empty: the new buffer and offset. *)
Definition place (s : sectionState) (out : bytes) : bytes * nat :=
  if nilb (sec_data s) then (out, 0%nat)
  else let out := alignOut out (sec_align s) in (out ++ sec_data s, length out).

Definition shstrtab_names (p : parser) : list bytes :=
  [[]; sec_name (p_text p); sec_name (p_data p); sec_name (p_bss p);
   bs ".shstrtab"; bs ".symtab"; bs ".strtab"; bs ".rela.text"].

Definition terminated (l : list bytes) : bytes := concat ((λ n, n ++ [0]) <$> l).

Definition emit (stale : bytes) (p : parser) (profile : targetProfile) : outcome bytes :=
  let is32 := elfClass profile =? elfClass32 in
  let is64 := elfClass profile =? elfClass64 in
  let symCount := length (p_symbols p) in
  let symtabSize := ((symCount + 1) * (if is32 then 16 else 24))%nat in
  let strtabLen := (1 + length (terminated (sym_name <$> p_symbols p)))%nat in
  let shstrtabLen := (1 + length (terminated (shstrtab_names p)))%nat in
  let shdrSize := if is32 then elf32ShdrSize else elf64ShdrSize in
  let out := zeros (if is32 then 52%nat else 64%nat) in
  let '(out, textOffset) := place (p_text p) out in
  let '(out, dataOffset) := place (p_data p) out in
  let out := alignOut out (if is32 then 4 else 8) in
  let symtabOffset := length out in
  let out := out ++ resize symtabSize 0 stale in
  let strtabOffset := length out in
  let '(syms, out) := write_strtab strtabOffset (p_symbols p) (out ++ [0]) in
  out ← (if is64 then
           let out := writeElf64SymAt out symtabOffset 0 0 0 0 0 0 in
           let '(off, out) := write_syms64 true syms (symtabOffset + 24) out in
           Ok (write_syms64 false syms off out).2
         else
           let out := writeElf32SymAt out symtabOffset 0 0 0 0 0 0 in
           '(off, out) ← write_syms32 true syms (symtabOffset + 16) out;
           '(_, out) ← write_syms32 false syms off out; Ok out);
  let shstrtabOffset := length out in
  let out := out ++ [0] ++ terminated (shstrtab_names p) in
  let shOff := alignOutOffset (Zlen out) (Z.of_nat shdrSize) in
  let out := alignOut out (Z.of_nat shdrSize) ++ zeros (8 * shdrSize) in
  if is64 then
    let relocs := filter (λ r, rel_sec r = 1) (p_relocs p) in
    let cnt := length relocs in
    let base := if (0 <? cnt)%nat then alignOut out 8 else out in
    let relaOffset := if (0 <? cnt)%nat then length base else 0%nat in
    out ← append_relas (mapIdx syms) (p_relocs p) base;
    let L := Layout textOffset dataOffset symtabOffset strtabOffset shstrtabOffset
               symtabSize strtabLen shstrtabLen relaOffset (cnt * 24) in
    let out := populateELF64Header out profile shOff (Z.of_nat shdrSize) 8 4 in
    if Zlen out <? shOff then Panic
    else Ok (populateELF64SectionHeaders (Z.to_nat shOff) out p L)
  else
    let L := Layout textOffset dataOffset symtabOffset strtabOffset shstrtabOffset
               symtabSize strtabLen shstrtabLen 0 0 in
    let out := populateELF32Header out profile (u32 shOff) (Z.of_nat shdrSize) 8 4 in
    if Zlen out <? shOff then Panic
    else Ok (populateELF32SectionHeaders (Z.to_nat shOff) out p L).

(** emitSourceObject. *)
Definition emitSourceObject (stale src : bytes) (profile : targetProfile) : outcome bytes :=
  p ← assemble src profile;
  if nilb (sec_data (p_text p)) && nilb (sec_data (p_data p)) && (sec_size (p_bss p) =? 0)
  then Err "no code generated for source"
  else emit stale p profile.

Definition demo : bytes :=
  bs "global main" ++ [10] ++ bs "main: call f" ++ [10] ++ bs "x: ret" ++ [10] ++
  bs "section .data" ++ [10] ++ bs "db 7" ++ [10].
Example demo_len : (length <$> emitSourceObject [] demo (Profile 2 8 16 62)) = Ok 792%nat.
Proof. vm_compute. done. Qed.

(** ** Windows of the buffer *)

Lemma length_write_at off l out : length (write_at off l out) = length out.
Proof. apply length_inserts. Qed.

Lemma write_at_seq off l1 l2 out n :
  n = (off + length l1)%nat → write_at n l2 (write_at off l1 out) = write_at off (l1 ++ l2) out.
Proof. intros ->. unfold write_at. rewrite list_inserts_app_l. f_equal. lia. Qed.

Lemma write_at_mid a old new b off :
  off = length a → length old = length new → write_at off new (a ++ old ++ b) = a ++ new ++ b.
Proof.
  intros -> Hl. unfold write_at.
  rewrite <- (Nat.add_0_r (length a)), list_inserts_app_r, list_inserts_0_r by done. done.
Qed.

Lemma sub_app off n a b : (off + n ≤ length a)%nat → sub off n (a ++ b) = sub off n a.
Proof. intros. unfold sub. rewrite drop_app_le, take_app_le; rewrite ?length_drop; done || lia. Qed.

Lemma sub_mid a l b off n : off = length a → n = length l → sub off n (a ++ l ++ b) = l.
Proof. intros -> ->. unfold sub. by rewrite drop_app_length, take_app_length. Qed.

Lemma sub_end a l off n : off = length a → n = length l → sub off n (a ++ l) = l.
Proof. intros. rewrite <- (app_nil_r (a ++ l)), <- app_assoc. by apply sub_mid. Qed.

Lemma sub_write_disjoint off n o l out :
  (off + n ≤ o)%nat ∨ (o + length l ≤ off)%nat → sub off n (write_at o l out) = sub off n out.
Proof.
  intros H. apply list_eq. intros i. unfold sub. destruct (decide (i < n)%nat) as [Hi|Hi].
  - rewrite !lookup_take_lt, !lookup_drop by done. unfold write_at. destruct H.
    + apply list_lookup_inserts_lt. lia.
    + apply list_lookup_inserts_ge. lia.
  - rewrite !lookup_take_ge by lia. done.
Qed.

Lemma sub_write_same o l out n :
  n = length l → (o + length l ≤ length out)%nat → sub o n (write_at o l out) = l.
Proof.
  intros -> H. apply list_eq. intros i. unfold sub, write_at.
  destruct (decide (i < length l)%nat) as [Hi|Hi].
  - rewrite lookup_take_lt, lookup_drop, list_lookup_inserts by lia. f_equal. lia.
  - rewrite lookup_take_ge, lookup_ge_None_2 by lia. done.
Qed.

Lemma sub_sub off n o m l : (o + m ≤ n)%nat → sub o m (sub off n l) = sub (off + o) m l.
Proof.
  intros. unfold sub.
  apply list_eq. intros i. destruct (decide (i < m)%nat).
  - rewrite !lookup_take_lt, !lookup_drop, lookup_take_lt, lookup_drop by lia. f_equal. lia.
  - by rewrite !lookup_take_ge by lia.
Qed.

(** ** The tables as values *)

Definition sym64 (name info other shndx value size : Z) : bytes :=
  le_bytes 4 name ++ [u8 info] ++ [u8 other] ++ le_bytes 2 shndx ++ le_bytes 8 value ++ le_bytes 8 size.

Definition sym_entry (s : symbolState) : bytes :=
  sym64 (sym_nameOffset s) (sym_info s) 0 (sym_shndx s) (sym_value s) 0.

Definition shdr64 (name typ flags addr offset size link info addralign entsize : Z) : bytes :=
  le_bytes 4 name ++ le_bytes 4 typ ++ le_bytes 8 flags ++ le_bytes 8 addr ++ le_bytes 8 offset ++
  le_bytes 8 size ++ le_bytes 4 link ++ le_bytes 4 info ++ le_bytes 8 addralign ++ le_bytes 8 entsize.

Definition ehdr64 (profile : targetProfile) (shoff : Z) : bytes :=
  elf_ident elfClass64 ++ le_bytes 2 1 ++ le_bytes 2 (eMachine profile) ++ le_bytes 4 1 ++
  le_bytes 8 0 ++ le_bytes 8 0 ++ le_bytes 8 shoff ++ le_bytes 4 0 ++ le_bytes 2 64 ++
  le_bytes 2 0 ++ le_bytes 2 0 ++ le_bytes 2 64 ++ le_bytes 2 8 ++ le_bytes 2 4.

(** Merges a sequence of adjacent writes. *)
Ltac merge_writes :=
  unfold writeUint16At, writeUint32At, writeUint64At;
  repeat (erewrite write_at_seq; [|rewrite ?length_app, ?length_le_bytes; cbn [length]; lia]);
  rewrite <- ?app_assoc.

Lemma writeElf64SymAt_eq dst off name info other shndx value size :
  writeElf64SymAt dst off name info other shndx value size =
    write_at off (sym64 name info other shndx value size) dst.
Proof. unfold writeElf64SymAt, sym64. rewrite Nat.add_0_r. cbv zeta. merge_writes. done. Qed.

Lemma writeELF64Section_eq out off a b c d e f g h i j :
  writeELF64Section out off 64 a b c d e f g h i j = write_at off (shdr64 a b c d e f g h i j) out.
Proof. unfold writeELF64Section, shdr64. cbn [Nat.ltb Nat.leb]. cbv zeta. merge_writes. done. Qed.

Lemma populateELF64Header_eq out profile shoff :
  populateELF64Header out profile shoff 64 8 4 = write_at 0 (ehdr64 profile shoff) out.
Proof. unfold populateELF64Header, ehdr64, elf_ident. cbv zeta. merge_writes. done. Qed.

Lemma length_sym64 a b c d e f : length (sym64 a b c d e f) = 24%nat.
Proof. unfold sym64. by rewrite ?length_app, ?length_le_bytes. Qed.
Lemma length_shdr64 a b c d e f g h i j : length (shdr64 a b c d e f g h i j) = 64%nat.
Proof. unfold shdr64. by rewrite ?length_app, ?length_le_bytes. Qed.
Lemma length_ehdr64 profile shoff : length (ehdr64 profile shoff) = 64%nat.
Proof. unfold ehdr64. by rewrite ?length_app, ?length_le_bytes. Qed.

(** ** The order of the symbols *)

Fixpoint named (off : Z) (syms : list symbolState) : list symbolState :=
  match syms with
  | [] => []
  | s :: r => set_nameOffset (u32 off) s :: named (off + Zlen (sym_name s) + 1) r
  end.

Definition sel (locals : bool) (syms : list symbolState) : list symbolState :=
  filter (λ s, is_local s = locals) syms.

(** Local symbols first, as the format requires. *)
Definition out_syms (syms : list symbolState) : list symbolState := sel true syms ++ sel false syms.

Lemma terminated_cons n l : terminated (n :: l) = n ++ [0] ++ terminated l.
Proof. unfold terminated. cbn. by rewrite <- app_assoc. Qed.

Lemma write_strtab_eq so syms out :
  write_strtab so syms out =
    (named (Zlen out - Z.of_nat so) syms, out ++ terminated (sym_name <$> syms)).
Proof.
  revert out. induction syms as [|s r IH]; intros out; cbn [write_strtab named]; rewrite ?fmap_cons.
  - unfold terminated. cbn. by rewrite app_nil_r.
  - rewrite IH, terminated_cons, !length_app, <- !app_assoc. cbn [length].
    do 2 f_equal. f_equal. lia.
Qed.

Lemma named_length off syms : length (named off syms) = length syms.
Proof. revert off. induction syms; intros; cbn; auto. Qed.

Lemma sel_cons b s r : sel b (s :: r) = if eqb (is_local s) b then s :: sel b r else sel b r.
Proof.
  unfold sel. destruct (eqb (is_local s) b) eqn:E.
  - apply eqb_prop in E. by rewrite filter_cons_True.
  - rewrite filter_cons_False; [done|]. intros H. rewrite H in E. by destruct b.
Qed.

Lemma length_entries syms : length (concat (sym_entry <$> syms)) = (24 * length syms)%nat.
Proof.
  induction syms as [|s r IH]; [done|]. rewrite fmap_cons. cbn [concat]. rewrite length_app, IH.
  unfold sym_entry. rewrite length_sym64. cbn [length]. lia.
Qed.

Lemma write_syms64_eq b syms off out :
  write_syms64 b syms off out =
    ((off + 24 * length (sel b syms))%nat, write_at off (concat (sym_entry <$> sel b syms)) out).
Proof.
  revert off out. induction syms as [|s r IH]; intros off out; cbn [write_syms64].
  - cbn. f_equal. lia.
  - rewrite sel_cons. destruct (eqb (is_local s) b); [|apply IH].
    rewrite IH, writeElf64SymAt_eq, fmap_cons. cbn [concat length].
    rewrite write_at_seq by (by rewrite length_sym64). f_equal. lia.
Qed.

Lemma length_out_syms syms : length (out_syms syms) = length syms.
Proof.
  unfold out_syms. rewrite length_app. induction syms as [|s r IH]; [done|].
  rewrite !sel_cons. destruct (is_local s); cbn [eqb length]; lia.
Qed.

(** ** The index map *)

Definition nloc (syms : list symbolState) : nat := length (sel true syms).

Lemma map_locals_snd k syms : (map_locals k syms).2 = k + Z.of_nat (nloc syms).
Proof.
  unfold nloc. revert k. induction syms as [|s r IH]; intros k; cbn [map_locals]; [cbn; lia|].
  rewrite sel_cons. destruct (is_local s); cbn [eqb length].
  - specialize (IH (k + 1)). destruct (map_locals (k + 1) r). cbn [snd] in *. lia.
  - specialize (IH k). destruct (map_locals k r). cbn [snd] in *. lia.
Qed.

(** The index of symbol [i] when the local ones are numbered from [k] and the
    others from [g]. *)
Definition idx_of (k g : Z) (syms : list symbolState) (i : nat) : option Z :=
  s ← syms !! i;
  Some (if is_local s then k + Z.of_nat (nloc (take i syms))
        else g + Z.of_nat (length (sel false (take i syms)))).

Lemma map_passes k g syms i :
  map_globals g syms (map_locals k syms).1 !! i = idx_of k g syms i.
Proof.
  unfold idx_of, nloc. revert k g i. induction syms as [|s r IH]; intros k g i; [done|].
  cbn [map_locals]. destruct (is_local s) eqn:E.
  - specialize (IH (k + 1) g). destruct (map_locals (k + 1) r) as [m e]. cbn [map_globals fst] in *.
    rewrite E. destruct i as [|i]; cbn [take lookup list_lookup].
    + cbn. rewrite E. f_equal. lia.
    + rewrite IH. destruct (r !! i) as [t|]; [|done]. cbn [mbind option_bind]. rewrite !sel_cons, E. cbn [eqb length].
      destruct (is_local t); f_equal; lia.
  - specialize (IH k (g + 1)). destruct (map_locals k r) as [m e]. cbn [map_globals fst] in *.
    rewrite E. destruct i as [|i]; cbn [take lookup list_lookup].
    + cbn. rewrite E. f_equal. lia.
    + rewrite IH. destruct (r !! i) as [t|]; [|done]. cbn [mbind option_bind]. rewrite !sel_cons, E. cbn [eqb length].
      destruct (is_local t); f_equal; lia.
Qed.

Lemma sel_lookup b syms i s :
  syms !! i = Some s → is_local s = b → sel b syms !! length (sel b (take i syms)) = Some s.
Proof.
  revert i. induction syms as [|t r IH]; intros [|i] H Hb; try done; cbn [take] in *.
  - injection H as ->. rewrite sel_cons, Hb. by destruct b.
  - rewrite !sel_cons. destruct (eqb (is_local t) b); cbn; by apply IH.
Qed.

Lemma sel_take_lt b syms i s :
  syms !! i = Some s → is_local s = b → (length (sel b (take i syms)) < length (sel b syms))%nat.
Proof. intros. by eapply lookup_lt_Some, sel_lookup. Qed.

Lemma mapIdx_spec syms i s :
  syms !! i = Some s →
  ∃ j, mapIdx syms !! i = Some (Z.of_nat (S j)) ∧ out_syms syms !! j = Some s.
Proof.
  intros Hs. unfold mapIdx. pose proof (map_locals_snd 1 syms) as He.
  pose proof (λ g, map_passes 1 g syms i) as Hi.
  destruct (map_locals 1 syms) as [m e]. cbn [fst snd] in *. rewrite Hi. unfold idx_of, out_syms.
  rewrite Hs. cbn. destruct (is_local s) eqn:E.
  - exists (length (sel true (take i syms))). split; [f_equal; unfold nloc; lia|].
    rewrite lookup_app_l by (by apply sel_take_lt with s). by apply sel_lookup.
  - exists (nloc syms + length (sel false (take i syms)))%nat. split; [f_equal; lia|].
    unfold nloc. rewrite lookup_app_r by lia.
    replace (_ + _ - _)%nat with (length (sel false (take i syms))) by lia. by apply sel_lookup.
Qed.

Lemma length_mapIdx syms : length (mapIdx syms) = length syms.
Proof.
  destruct (Nat.lt_trichotomy (length (mapIdx syms)) (length syms)) as [H|[H|H]]; [|done|].
  - apply lookup_lt_is_Some in H as [s Hs]. destruct (mapIdx_spec _ _ _ Hs) as (j & Hj & _).
    apply lookup_lt_Some in Hj. lia.
  - apply lookup_lt_is_Some in H as [x Hx]. unfold mapIdx in Hx.
    pose proof (λ g, map_passes 1 g syms (length syms)) as Hi.
    destruct (map_locals 1 syms) as [m e]. cbn [fst] in Hi. rewrite Hi in Hx. unfold idx_of in Hx.
    by rewrite lookup_ge_None_2 in Hx.
Qed.

(** ** The 64-bit object as a value *)

Definition named_syms (p : parser) : list symbolState := named 1 (p_symbols p).

Definition symtab_bytes (p : parser) : bytes :=
  sym64 0 0 0 0 0 0 ++ concat (sym_entry <$> out_syms (named_syms p)).
Definition strtab_bytes (p : parser) : bytes := [0] ++ terminated (sym_name <$> p_symbols p).
Definition shstr_bytes : bytes :=
  [0] ++ terminated [[]; bs ".text"; bs ".data"; bs ".bss"; bs ".shstrtab"; bs ".symtab"; bs ".strtab"; bs ".rela.text"].

Definition rela_entry (m : list Z) (r : reloc) : bytes :=
  le_bytes 8 (rel_off r) ++
  le_bytes 8 (Z.lor (u64 (Z.shiftl (default 0 (m !! Z.to_nat (rel_sym r))) 32)) (rel_typ r)) ++
  le_bytes 8 (rel_addend r).

Definition text_relocs (p : parser) : list reloc := filter (λ r, rel_sec r = 1) (p_relocs p).

Definition rela_bytes (p : parser) : bytes :=
  concat (rela_entry (mapIdx (named_syms p)) <$> text_relocs p).

Definition shdrs64 (p : parser) (L : layout) : bytes :=
  let N := Z.of_nat in
  shdr64 0 shTypeNull 0 0 0 0 0 0 0 0 ++
  shdr64 2 shTypeProgBits (sec_flags (p_text p)) 0 (N (textOffset L)) (Zlen (sec_data (p_text p))) 0 0 (sec_align (p_text p)) 0 ++
  shdr64 8 shTypeProgBits (sec_flags (p_data p)) 0 (N (dataOffset L)) (Zlen (sec_data (p_data p))) 0 0 (sec_align (p_data p)) 0 ++
  shdr64 14 shTypeNoBits (sec_flags (p_bss p)) 0 0 (sec_size (p_bss p)) 0 0 (sec_align (p_bss p)) 0 ++
  shdr64 19 shTypeStrTab 0 0 (N (shstrtabOffset L)) (N (shstrtabSize L)) 0 0 1 0 ++
  shdr64 29 shTypeSymTab 0 0 (N (symtabOffset L)) (N (symtabSize L)) 6 (N (S (symbolLocalCount p))) 8 24 ++
  shdr64 37 shTypeStrTab 0 0 (N (strtabOffset L)) (N (strtabSize L)) 0 0 1 0 ++
  shdr64 45 shTypeRela 0 0 (N (relaOffset L)) (N (relaSize L)) 5 1 8 24.

Definition body1 (p : parser) : bytes * nat := place (p_text p) (zeros 64).
Definition body2 (p : parser) : bytes * nat := place (p_data p) (body1 p).1.
Definition body3 (p : parser) : bytes := alignOut (body2 p).1 8.
Definition tables (p : parser) : bytes := body3 p ++ symtab_bytes p ++ strtab_bytes p ++ shstr_bytes.
Definition to_shdrs (p : parser) : bytes := alignOut (tables p) 64.
Definition to_relas (p : parser) : bytes :=
  if nilb (text_relocs p) then to_shdrs p ++ zeros 512 else alignOut (to_shdrs p ++ zeros 512) 8.

Definition layout64 (p : parser) : layout :=
  Layout (body1 p).2 (body2 p).2 (length (body3 p)) (length (body3 p) + length (symtab_bytes p))
    (length (body3 p) + length (symtab_bytes p) + length (strtab_bytes p))
    (length (symtab_bytes p)) (length (strtab_bytes p)) (length shstr_bytes)
    (if nilb (text_relocs p) then 0%nat else length (to_relas p)) (length (rela_bytes p)).

Definition elf64_file (p : parser) (profile : targetProfile) : bytes :=
  write_at (length (to_shdrs p)) (shdrs64 p (layout64 p))
    (write_at 0 (ehdr64 profile (Zlen (to_shdrs p))) (to_relas p ++ rela_bytes p)).

(** ** The emitter produces it *)

Lemma append_relas_eq m relocs out :
  Forall (λ r, 0 ≤ rel_sym r < Zlen m) relocs →
  append_relas m relocs out = Ok (out ++ concat (rela_entry m <$> filter (λ r, rel_sec r = 1) relocs)).
Proof.
  revert out. induction relocs as [|r rs IH]; intros out H; cbn [append_relas].
  - cbn. by rewrite app_nil_r.
  - apply Forall_cons in H as [Hr Hrs]. destruct (Z.eqb_spec (rel_sec r) 1) as [E|E]; cbn [negb].
    + rewrite filter_cons_True by done. destruct (Z.ltb_spec (rel_sym r) 0); [lia|].
      destruct (lookup_lt_is_Some_2 m (Z.to_nat (rel_sym r))) as [x Hx]; [lia|]. rewrite Hx.
      rewrite IH by done. rewrite fmap_cons. cbn [concat]. unfold rela_entry at 2. rewrite Hx.
      cbn [default]. by rewrite <- !app_assoc.
    + rewrite filter_cons_False by done. by apply IH.
Qed.

Lemma length_rela m l : length (concat (rela_entry m <$> l)) = (length l * 24)%nat.
Proof.
  induction l as [|r l IH]; [done|]. rewrite fmap_cons. cbn [concat length].
  rewrite length_app, IH. unfold rela_entry. rewrite !length_app, !length_le_bytes. lia.
Qed.

Lemma length_symtab p : length (symtab_bytes p) = ((length (p_symbols p) + 1) * 24)%nat.
Proof.
  unfold symtab_bytes, named_syms. rewrite length_app, length_sym64, length_entries, length_out_syms, named_length. lia.
Qed.

Lemma names_shstr p : names_ok p → [0] ++ terminated (shstrtab_names p) = shstr_bytes.
Proof. intros (Ht & Hd & Hb). unfold shstrtab_names. by rewrite Ht, Hd, Hb. Qed.

Lemma length_place s out : (length out ≤ length (place s out).1)%nat.
Proof.
  unfold place. case_match; cbn; [done|]. destruct (alignOut_app out (sec_align s)) as [n ->].
  rewrite !length_app. lia.
Qed.

Lemma length_body3 p : (64 ≤ length (body3 p))%nat.
Proof.
  unfold body3. destruct (alignOut_app (body2 p).1 8) as [n ->]. rewrite length_app.
  pose proof (length_place (p_data p) (body1 p).1). pose proof (length_place (p_text p) (zeros 64)).
  unfold body2, body1, zeros in *. rewrite length_replicate in *. lia.
Qed.

Lemma populateELF64SectionHeaders_eq shOff full p L :
  names_ok p → sub (shstrtabOffset L) (shstrtabSize L) full = shstr_bytes →
  populateELF64SectionHeaders shOff full p L = write_at shOff (shdrs64 p L) full.
Proof.
  intros (Ht & Hd & Hb) Hs. unfold populateELF64SectionHeaders, shdrs64. cbv zeta.
  rewrite Hs, Ht, Hd, Hb. unfold elf64ShdrSize. rewrite !writeELF64Section_eq.
  repeat (erewrite write_at_seq; [|rewrite ?length_app, ?length_shdr64; lia]).
  rewrite ?Nat.add_0_r. reflexivity.
Qed.

Lemma shdrs64_length p L : length (shdrs64 p L) = 512%nat.
Proof. unfold shdrs64. cbv zeta. by rewrite !length_app, !length_shdr64. Qed.

(** The symbol table region after the two loops, whatever it held before. *)
Lemma symtab_stage p B old :
  length old = length (symtab_bytes p) →
  write_at (length B + 24 + 24 * length (sel true (named_syms p)))
    (concat (sym_entry <$> sel false (named_syms p)))
    (write_at (length B + 24) (concat (sym_entry <$> sel true (named_syms p)))
       (write_at (length B) (sym64 0 0 0 0 0 0) (B ++ old ++ strtab_bytes p)))
  = B ++ symtab_bytes p ++ strtab_bytes p.
Proof.
  intros Hl. rewrite (write_at_seq (length B)) by (by rewrite length_sym64).
  rewrite write_at_seq by (rewrite length_app, length_sym64, length_entries; lia).
  rewrite <- !app_assoc, <- concat_app, <- fmap_app. by apply write_at_mid.
Qed.

Lemma nilb_length {A} (l : list A) : (0 <? length l)%nat = negb (nilb l).
Proof. by destruct l. Qed.

Lemma named_lookup off syms i s :
  syms !! i = Some s → ∃ n, named off syms !! i = Some (set_nameOffset n s).
Proof.
  revert off i. induction syms as [|t r IH]; intros off [|i] H; try done; cbn [named].
  - injection H as ->. by eexists.
  - by apply IH.
Qed.

Lemma shOff_eq p :
  Zlen (tables p) < 2 ^ 62 → alignOutOffset (Zlen (tables p)) 64 = Zlen (to_shdrs p).
Proof.
  intros. unfold to_shdrs. rewrite length_alignOut by lia.
  change 64 with (2 ^ 6). apply alignOutOffset_round; lia.
Qed.

Lemma prefix_to_relas p : ∃ x, to_relas p = to_shdrs p ++ zeros 512 ++ x.
Proof.
  unfold to_relas. case_match; [exists []; by rewrite app_nil_r|].
  destruct (alignOut_app (to_shdrs p ++ zeros 512) 8) as [n ->].
  exists (replicate n 0). by rewrite <- app_assoc.
Qed.

Lemma prefix_to_shdrs p : ∃ x, to_shdrs p = tables p ++ x.
Proof. unfold to_shdrs. destruct (alignOut_app (tables p) 64) as [n ->]. by eexists. Qed.

Lemma relocs_in_map p :
  wf p → Forall (λ r, 0 ≤ rel_sym r < Zlen (mapIdx (named_syms p))) (p_relocs p).
Proof.
  intros Hw. rewrite length_mapIdx. unfold named_syms. rewrite named_length.
  eapply Forall_impl; [apply Hw|]. by intros r [? _].
Qed.

Lemma if_nilb_same {A B} (l : list A) (a b : B) :
  (if negb (nilb l) then a else b) = if nilb l then b else a.
Proof. by destruct l. Qed.

Lemma shstr_window p x y off n :
  off = length (body3 p ++ symtab_bytes p ++ strtab_bytes p) → n = length shstr_bytes →
  (length y ≤ length (body3 p))%nat → sub off n (write_at 0 y (tables p ++ x)) = shstr_bytes.
Proof.
  intros -> -> Hy. rewrite sub_write_disjoint by (rewrite length_app; lia). unfold tables.
  rewrite <- (app_assoc (body3 p)), <- (app_assoc (symtab_bytes p)), <- (app_assoc (strtab_bytes p)).
  rewrite 2!(app_assoc _ _ (shstr_bytes ++ x)), (app_assoc (body3 p)), <- (app_assoc (body3 p)).
  by apply sub_mid.
Qed.

Lemma emit64_eq stale p profile :
  wf p → elfClass profile = 2 → Zlen (tables p) < 2 ^ 62 →
  emit stale p profile = Ok (elf64_file p profile).
Proof.
  intros Hw Hc Hlen. unfold emit. rewrite Hc. cbn [Z.eqb Pos.eqb elfClass32 elfClass64].
  fold (body1 p). destruct (body1 p) as [o1 t1] eqn:E1.
  replace (place (p_data p) o1) with (body2 p) by (unfold body2; by rewrite E1).
  destruct (body2 p) as [o2 t2] eqn:E2.
  replace (alignOut o2 8) with (body3 p) by (unfold body3; by rewrite E2).
  rewrite write_strtab_eq.
  replace (Zlen ((body3 p ++ _) ++ [0]) - _) with 1 by (rewrite !length_app; cbn; lia).
  fold (named_syms p). rewrite writeElf64SymAt_eq, !write_syms64_eq. cbn [fst snd mbind outcome_bind].
  rewrite <- !app_assoc.
  change ([0] ++ terminated (sym_name <$> p_symbols p)) with (strtab_bytes p).
  rewrite symtab_stage by (by rewrite length_resize, length_symtab).
  rewrite <- !app_assoc, !names_shstr by apply Hw. fold (tables p).
  change (Z.of_nat elf64ShdrSize) with 64. change (8 * elf64ShdrSize)%nat with 512%nat.
  rewrite shOff_eq by done. fold (to_shdrs p) (text_relocs p).
  rewrite nilb_length, !if_nilb_same. fold (to_relas p).
  rewrite append_relas_eq by by apply relocs_in_map. fold (text_relocs p) (rela_bytes p).
  cbn [mbind outcome_bind]. rewrite populateELF64Header_eq.
  destruct (prefix_to_relas p) as [x Hx]. destruct (prefix_to_shdrs p) as [y Hy].
  destruct (Z.ltb_spec (Zlen (write_at 0 (ehdr64 profile (Zlen (to_shdrs p))) (to_relas p ++ rela_bytes p))) (Zlen (to_shdrs p))) as [Hlt|_].
  { rewrite length_write_at, Hx, !length_app in Hlt. lia. }
  f_equal. rewrite Nat2Z.id, populateELF64SectionHeaders_eq; [|apply Hw|].
  - unfold elf64_file. do 2 f_equal. unfold layout64, rela_bytes. rewrite E1, E2. cbn [snd].
    f_equal; rewrite ?length_app, ?length_resize, ?length_symtab, ?length_rela; try (cbn; lia).
    by rewrite <- (names_shstr p) by apply Hw.
  - cbn [shstrtabOffset shstrtabSize]. rewrite Hx, Hy, <- !app_assoc. apply shstr_window; [done| |].
    + rewrite <- (names_shstr p) by apply Hw. by rewrite length_app.
    + rewrite length_ehdr64. apply length_body3.
Qed.
