(* ===== verification/ElfRead.v ===== *)
(** * Reading the emitted objects back

    A reader of 64-bit relocatable ELF files (ELF64 header, section headers,
    symbol table, relocations with addends), written from the format and not
    from the emitter, and the proof that it recovers from an emitted file the
    sections, symbols and relocations of the assembler state. *)
From S2P Require Import Prelude AsmBytes AsmState AsmParse ElfObject.

(** ** The reader *)

Definition next (n : nat) (l : bytes) : Z * bytes := (le_val (take n l), drop n l).

Record shdr := Shdr {
  sh_name : Z; sh_type : Z; sh_flags : Z; sh_addr : Z; sh_offset : Z; sh_size : Z;
  sh_link : Z; sh_info : Z; sh_addralign : Z; sh_entsize : Z }.

Definition parse_shdr (l : bytes) : shdr :=
  let '(a, l) := next 4 l in let '(b, l) := next 4 l in let '(c, l) := next 8 l in
  let '(d, l) := next 8 l in let '(e, l) := next 8 l in let '(f, l) := next 8 l in
  let '(g, l) := next 4 l in let '(h, l) := next 4 l in let '(i, l) := next 8 l in
  let '(j, l) := next 8 l in Shdr a b c d e f g h i j.

Record rsym := RSym { rs_name : bytes; rs_value : Z; rs_shndx : Z; rs_bind : Z; rs_type : Z }.

Definition cstring (tab : bytes) (off : Z) : bytes :=
  (span (λ c, negb (c =? 0)) (drop (Z.to_nat off) tab)).1.

Definition parse_sym (strtab l : bytes) : rsym :=
  let '(name, l) := next 4 l in let '(info, l) := next 1 l in let '(_, l) := next 1 l in
  let '(shndx, l) := next 2 l in let '(value, l) := next 8 l in
  RSym (cstring strtab name) value shndx (Z.shiftr info 4) (Z.land info 15).

(** Offset, symbol index, type and addend. *)
Definition parse_rela (l : bytes) : Z * Z * Z * Z :=
  let '(off, l) := next 8 l in let '(info, l) := next 8 l in let '(add, l) := next 8 l in
  (off, info / 2 ^ 32, info mod 2 ^ 32, swrap 64 add).

Fixpoint chunks_fuel (fuel n : nat) (l : bytes) : list bytes :=
  match fuel with
  | O => []
  | S f => if nilb l then [] else take n l :: chunks_fuel f n (drop n l)
  end.
Definition chunks (n : nat) (l : bytes) : list bytes := chunks_fuel (length l) n l.

Record rsection := RSection { r_name : bytes; r_flags : Z; r_align : Z; r_size : Z; r_data : bytes }.

Record obj := Obj {
  o_machine : Z;
  o_sections : list rsection;
  o_symbols : list rsym;
  o_locals : Z;
  o_relocs : list (Z * Z * option rsym * Z * Z) }.   (* section, offset, symbol, type, addend *)

Section reader.
Context (file : bytes).

Definition field (n : nat) (off : Z) : Z := le_val (sub (Z.to_nat off) n file).

Definition header (k : Z) : shdr :=
  parse_shdr (sub (Z.to_nat (field 8 40 + 64 * k)) 64 file).

Definition contents (h : shdr) : bytes :=
  if sh_type h =? 8 then [] else sub (Z.to_nat (sh_offset h)) (Z.to_nat (sh_size h)) file.

Definition find_types (t : Z) : list shdr :=
  (filter (λ h, sh_type h = t) (header <$> (Z.of_nat <$> seq 0 (Z.to_nat (field 2 60))))).

Definition read_section (k : Z) : rsection :=
  let h := header k in
  RSection (cstring (contents (header (field 2 62))) (sh_name h)) (sh_flags h) (sh_addralign h)
    (sh_size h) (contents h).

Definition read_symbols (h : shdr) : list rsym :=
  parse_sym (contents (header (sh_link h))) <$> chunks (Z.to_nat (sh_entsize h)) (contents h).

(** The relocations of the section that [sh_info] names. *)
Definition read_relocs (h : shdr) : list (Z * Z * option rsym * Z * Z) :=
  (λ l, let '(off, sym, typ, add) := parse_rela l in
        (sh_info h, off, read_symbols (header (sh_link h)) !! Z.to_nat sym, typ, add))
    <$> chunks (Z.to_nat (sh_entsize h)) (contents h).

Definition read_elf64 : option obj :=
  if negb (bool_decide (take 7 file = [0x7f; 69; 76; 70; 2; 1; 1])) || negb (field 2 58 =? 64) then None
  else
    symtab ← head (find_types 2);
    Some (Obj (field 2 18) (read_section <$> [1; 2; 3]) (read_symbols symtab) (sh_info symtab)
            (concat (read_relocs <$> find_types 4))).
End reader.

(** ** Parsing the encoded entries *)

Lemma next_le n v r : next n (le_bytes n v ++ r) = (wrap (8 * Z.of_nat n) v, r).
Proof.
  unfold next. rewrite take_app_length', drop_app_length' by by rewrite length_le_bytes.
  by rewrite le_val_le_bytes.
Qed.

Lemma next_le_end n v : next n (le_bytes n v) = (wrap (8 * Z.of_nat n) v, []).
Proof. rewrite <- (app_nil_r (le_bytes n v)). apply next_le. Qed.

Lemma next_byte v r : next 1 ([u8 v] ++ r) = (u8 v, r).
Proof. unfold next. cbn [app take drop le_val]. f_equal. rewrite Z.mul_0_r. apply Z.add_0_r. Qed.

Lemma parse_shdr64 a b c d e f g h i j :
  parse_shdr (shdr64 a b c d e f g h i j) =
    Shdr (u32 a) (u32 b) (u64 c) (u64 d) (u64 e) (u64 f) (u32 g) (u32 h) (u64 i) (u64 j).
Proof. unfold parse_shdr, shdr64. rewrite !next_le, next_le_end. done. Qed.

Lemma parse_sym_entry strtab s :
  wf_symbol s → is_word 64 (sym_value s) → is_word 32 (sym_nameOffset s) →
  parse_sym strtab (sym_entry s) =
    RSym (cstring strtab (sym_nameOffset s)) (sym_value s) (sym_shndx s) (sym_bind s) (sym_typ s).
Proof.
  intros (_ & Hb & Hs & Ht) Hv Hn. unfold parse_sym, sym_entry, sym64, sym_info.
  rewrite next_le, next_byte, next_byte, next_le, next_le. change (8 * Z.of_nat 2) with 16.
  change (8 * Z.of_nat 4) with 32. change (8 * Z.of_nat 8) with 64.
  rewrite (wrap_small 64), (wrap_small 32) by done. rewrite Ht.
  f_equal.
  - destruct Hs as [-> |[-> |[-> | ->]]]; done.
  - destruct Hb as [-> | ->]; done.
  - destruct Hb as [-> | ->]; done.
Qed.

Lemma parse_rela_entry m r idx :
  m !! Z.to_nat (rel_sym r) = Some idx → 0 ≤ idx < 2 ^ 32 → is_word 32 (rel_typ r) →
  is_word 64 (rel_off r) → - 2 ^ 63 ≤ rel_addend r < 2 ^ 63 →
  parse_rela (rela_entry m r) = (rel_off r, idx, rel_typ r, rel_addend r).
Proof.
  intros Hm Hi Ht Ho Ha. unfold parse_rela, rela_entry. rewrite Hm. cbn [default].
  rewrite !next_le, next_le_end. change (8 * Z.of_nat 8) with 64. unfold id.
  assert (Hl : Z.lor (u64 (Z.shiftl idx 32)) (rel_typ r) = idx * 2 ^ 32 + rel_typ r).
  { rewrite Z.shiftl_mul_pow2 by lia. rewrite wrap_small by (unfold is_word; lia).
    rewrite <- Z.add_lor_land. assert (Z.land (idx * 2 ^ 32) (rel_typ r) = 0) as ->; [|lia].
    apply Z.bits_inj'. intros n Hn. rewrite Z.land_spec, Z.bits_0.
    destruct (Z.ltb_spec n 32).
    - rewrite Z.mul_pow2_bits_low by lia. done.
    - rewrite (Z.bits_above_log2 (rel_typ r)); [apply andb_false_r|apply Ht|].
      destruct (Z.eqb_spec (rel_typ r) 0) as [->|]; [cbn; lia|].
      apply Z.log2_lt_pow2; [unfold is_word in Ht; lia|]. unfold is_word in Ht.
      assert (2 ^ 32 ≤ 2 ^ n) by (apply Z.pow_le_mono_r; lia). lia. }
  rewrite Hl. unfold is_word in *.
  rewrite (wrap_small 64 (rel_off r)), (wrap_small 64 (_ + _)) by (unfold is_word; lia).
  rewrite swrap_wrap, swrap_small by (done || (change (64 - 1) with 63; lia)).
  rewrite Z.div_add_l, (Z.div_small (rel_typ r)), Z.add_0_r by lia.
  by rewrite Z.add_comm, Z.mod_add, Z.mod_small by lia.
Qed.

(** ** Chunks and strings *)

Lemma chunks_concat n (l : list bytes) :
  (0 < n)%nat → Forall (λ b, length b = n) l → chunks n (concat l) = l.
Proof.
  intros Hn. unfold chunks.
  assert (H : ∀ fuel, Forall (λ b, length b = n) l → (length l ≤ fuel)%nat →
    chunks_fuel fuel n (concat l) = l).
  { induction l as [|b r IH]; intros [|f] Hl Hf; cbn [length] in Hf; try done; try lia.
    apply Forall_cons in Hl as [Hb Hr]. cbn [chunks_fuel concat].
    assert (nilb (b ++ concat r) = false) as -> by (destruct b; [cbn in Hb; lia|done]).
    rewrite take_app_length', drop_app_length' by done. f_equal. apply IH; [done|lia]. }
  intros Hl. apply H; [done|]. clear H.
  induction Hl as [|b r Hb Hr IH]; [done|]. cbn [concat length]. rewrite length_app. lia.
Qed.

Lemma cstring_mid a n r : 0 ∉ n → cstring (a ++ (n ++ [0]) ++ r) (Zlen a) = n.
Proof.
  intros Hn. unfold cstring. rewrite Nat2Z.id, drop_app_length, <- app_assoc. cbn [app].
  rewrite span_all; [done| |done].
  apply Forall_forall. intros x Hx. destruct (Z.eqb_spec x 0); [by subst|done].
Qed.

(** ** Where the parts are in the file *)

Lemma sub_prefix off n a b :
  a `prefix_of` b → (off + n ≤ length a)%nat → sub off n b = sub off n a.
Proof. intros [x ->]. apply sub_app. Qed.

Lemma sub_nil off l : sub off 0 l = [].
Proof. done. Qed.

Lemma place_spec s out :
  out `prefix_of` (place s out).1 ∧
  ((place s out).2 + length (sec_data s) ≤ length (place s out).1)%nat ∧
  sub (place s out).2 (length (sec_data s)) (place s out).1 = sec_data s ∧
  (sec_data s = [] ∨ length out ≤ (place s out).2)%nat.
Proof.
  unfold place. destruct (sec_data s) as [|c r] eqn:E; cbn [nilb fst snd].
  - split_and!; [done|cbn; lia|done|by left].
  - destruct (alignOut_app out (sec_align s)) as [n ->].
    split_and!; [rewrite <- app_assoc; by eexists|rewrite !length_app; lia|by apply sub_end|].
    right. rewrite length_app. lia.
Qed.

Section layout.
Context (p : parser) (profile : targetProfile).
Abbreviation F := (elf64_file p profile).

Lemma body1_prefix : (body1 p).1 `prefix_of` body3 p.
Proof.
  unfold body3. destruct (alignOut_app (body2 p).1 8) as [n ->].
  destruct (place_spec (p_data p) (body1 p).1) as [[x Hx] _]. unfold body2. rewrite Hx.
  rewrite <- app_assoc. by eexists.
Qed.

Lemma body2_prefix : (body2 p).1 `prefix_of` body3 p.
Proof. unfold body3. destruct (alignOut_app (body2 p).1 8) as [n ->]. by eexists. Qed.

Lemma body3_prefix : body3 p `prefix_of` to_shdrs p.
Proof. destruct (prefix_to_shdrs p) as [x ->]. unfold tables. rewrite <- app_assoc. by eexists. Qed.

Lemma length_file :
  length F = (length (to_relas p) + length (rela_bytes p))%nat.
Proof. unfold elf64_file. by rewrite !length_write_at, length_app. Qed.

Lemma to_relas_length : (length (to_shdrs p) + 512 ≤ length (to_relas p))%nat.
Proof. destruct (prefix_to_relas p) as [x ->]. unfold zeros. rewrite !length_app, length_replicate. lia. Qed.

Lemma to_shdrs_length : (64 ≤ length (to_shdrs p))%nat.
Proof. pose proof (length_body3 p). pose proof (prefix_length _ _ body3_prefix). lia. Qed.

Lemma file_low off n :
  n = 0%nat ∨ (64 ≤ off)%nat → (off + n ≤ length (to_shdrs p))%nat → sub off n F = sub off n (to_shdrs p).
Proof.
  intros [-> | H0] H1; [done|]. unfold elf64_file.
  rewrite !sub_write_disjoint by (rewrite ?length_ehdr64; lia).
  destruct (prefix_to_relas p) as [x ->]. rewrite <- !app_assoc. by apply sub_app.
Qed.

Lemma file_ehdr : sub 0 64 F = ehdr64 profile (Zlen (to_shdrs p)).
Proof.
  pose proof to_shdrs_length. pose proof to_relas_length. unfold elf64_file.
  rewrite sub_write_disjoint by lia. apply sub_write_same; [by rewrite length_ehdr64|].
  rewrite length_ehdr64, length_app. lia.
Qed.

Lemma file_shdrs : sub (length (to_shdrs p)) 512 F = shdrs64 p (layout64 p).
Proof.
  pose proof to_relas_length. unfold elf64_file.
  apply sub_write_same; rewrite shdrs64_length; [done|]. rewrite length_write_at, length_app. lia.
Qed.

Lemma file_rela : sub (length (to_relas p)) (length (rela_bytes p)) F = rela_bytes p.
Proof.
  pose proof to_relas_length. pose proof to_shdrs_length. unfold elf64_file.
  rewrite !sub_write_disjoint by (rewrite ?length_ehdr64, ?shdrs64_length; lia). by apply sub_end.
Qed.

Lemma file_text : sub (textOffset (layout64 p)) (length (sec_data (p_text p))) F = sec_data (p_text p).
Proof.
  destruct (place_spec (p_text p) (zeros 64)) as (_ & Hl & Hs & Ho). fold (body1 p) in *.
  pose proof (prefix_length _ _ body1_prefix). pose proof (prefix_length _ _ body3_prefix).
  cbn [textOffset layout64]. rewrite file_low; [|destruct Ho as [->|Ho]; [by left|right]|lia].
  - rewrite (sub_prefix _ _ (body1 p).1); [done| |done]. etrans; [apply body1_prefix|apply body3_prefix].
  - unfold zeros in Ho. rewrite length_replicate in Ho. done.
Qed.

Lemma file_data : sub (dataOffset (layout64 p)) (length (sec_data (p_data p))) F = sec_data (p_data p).
Proof.
  destruct (place_spec (p_text p) (zeros 64)) as (Hp & _). fold (body1 p) in *.
  destruct (place_spec (p_data p) (body1 p).1) as (_ & Hl & Hs & Ho). fold (body2 p) in *.
  pose proof (prefix_length _ _ body2_prefix). pose proof (prefix_length _ _ body3_prefix).
  apply prefix_length in Hp. unfold zeros in Hp. rewrite length_replicate in Hp.
  cbn [dataOffset layout64]. rewrite file_low; [|destruct Ho as [->|Ho]; [by left|right; lia]|lia].
  rewrite (sub_prefix _ _ (body2 p).1); [done| |done]. etrans; [apply body2_prefix|apply body3_prefix].
Qed.

Lemma file_table a l b off n :
  body3 p ++ symtab_bytes p ++ strtab_bytes p ++ shstr_bytes = (body3 p ++ a) ++ l ++ b →
  off = length (body3 p ++ a) → n = length l → sub off n F = l.
Proof.
  intros He -> ->. destruct (prefix_to_shdrs p) as [x Hx]. pose proof (length_body3 p).
  unfold tables in Hx. rewrite He in Hx.
  rewrite file_low; [|right; rewrite length_app; lia|rewrite Hx, !length_app; lia].
  rewrite Hx, <- !app_assoc, app_assoc. apply sub_mid; done.
Qed.

Lemma file_symtab : sub (symtabOffset (layout64 p)) (symtabSize (layout64 p)) F = symtab_bytes p.
Proof. apply (file_table [] _ (strtab_bytes p ++ shstr_bytes)); cbn; by rewrite ?app_nil_r. Qed.

Lemma file_strtab : sub (strtabOffset (layout64 p)) (strtabSize (layout64 p)) F = strtab_bytes p.
Proof.
  apply (file_table (symtab_bytes p) _ shstr_bytes); [by rewrite <- app_assoc|by rewrite length_app|done].
Qed.

Lemma file_shstr : sub (shstrtabOffset (layout64 p)) (shstrtabSize (layout64 p)) F = shstr_bytes.
Proof.
  apply (file_table (symtab_bytes p ++ strtab_bytes p) _ []);
    [by rewrite app_nil_r, <- !app_assoc|rewrite !length_app; cbn; lia|done].
Qed.

Lemma layout_bounds :
  let L := layout64 p in let n := length F in
  (textOffset L + length (sec_data (p_text p)) ≤ n ∧ dataOffset L + length (sec_data (p_data p)) ≤ n ∧
   symtabOffset L + symtabSize L ≤ n ∧ strtabOffset L + strtabSize L ≤ n ∧
   shstrtabOffset L + shstrtabSize L ≤ n ∧ relaOffset L + relaSize L ≤ n ∧
   length (to_shdrs p) + 512 ≤ n)%nat.
Proof.
  destruct (place_spec (p_text p) (zeros 64)) as (_ & H1 & _). fold (body1 p) in *.
  destruct (place_spec (p_data p) (body1 p).1) as (_ & H2 & _). fold (body2 p) in *.
  pose proof (prefix_length _ _ body1_prefix). pose proof (prefix_length _ _ body2_prefix).
  destruct (prefix_to_shdrs p) as [x Hx]. assert (length (tables p) ≤ length (to_shdrs p))%nat.
  { rewrite Hx, length_app. lia. }
  unfold tables in *. rewrite !length_app in *. pose proof to_relas_length. rewrite length_file.
  cbn [textOffset dataOffset symtabOffset symtabSize strtabOffset strtabSize shstrtabOffset shstrtabSize
       relaOffset relaSize layout64]. cbv zeta. split_and!; try lia. case_match; lia.
Qed.

End layout.

(** ** The recovered object *)

(** What an emitted object needs of its state: machine-width values, names
    without NUL, and a file below 4 GiB (st_name has 32 bits). *)
Record emittable (p : parser) (profile : targetProfile) : Prop := {
  em_wf : wf p;
  em_class : elfClass profile = 2;
  em_machine : is_word 16 (eMachine profile);
  em_len : Zlen (elf64_file p profile) < 2 ^ 32;
  em_flags : ∀ r, let s := get_section r p in
               is_word 64 (sec_flags s) ∧ is_word 64 (sec_align s) ∧ is_word 64 (sec_size s);
  em_syms : Forall (λ s, (0 ∉ sym_name s) ∧ is_word 64 (sym_value s)) (p_symbols p);
  em_relocs : Forall (λ r, is_word 32 (rel_typ r) ∧ is_word 64 (rel_off r) ∧ - 2 ^ 63 ≤ rel_addend r < 2 ^ 63)
                (p_relocs p) }.

Definition null_sym : rsym := RSym [] 0 0 0 0.
Definition describe (s : symbolState) : rsym :=
  RSym (sym_name s) (sym_value s) (sym_shndx s) (sym_bind s) (sym_typ s).

(** The object that describes a state with the relocations [relocs]. *)
Definition described (relocs : list reloc) (p : parser) (profile : targetProfile) : obj :=
  Obj (eMachine profile)
    [RSection (bs ".text") (sec_flags (p_text p)) (sec_align (p_text p)) (Zlen (sec_data (p_text p))) (sec_data (p_text p));
     RSection (bs ".data") (sec_flags (p_data p)) (sec_align (p_data p)) (Zlen (sec_data (p_data p))) (sec_data (p_data p));
     RSection (bs ".bss") (sec_flags (p_bss p)) (sec_align (p_bss p)) (sec_size (p_bss p)) []]
    (null_sym :: (describe <$> out_syms (p_symbols p)))
    (Zlen (sel true (p_symbols p)) + 1)
    ((λ r, (rel_sec r, rel_off r, describe <$> (p_symbols p !! Z.to_nat (rel_sym r)), rel_typ r, rel_addend r)) <$> relocs).
Abbreviation expected p := (described (text_relocs p) p).

Lemma cstring_strtab l1 n l2 :
  0 ∉ n → cstring ([0] ++ terminated (l1 ++ n :: l2)) (1 + Zlen (terminated l1)) = n.
Proof.
  intros Hn. unfold terminated. rewrite fmap_app, concat_app. cbn [fmap list_fmap concat].
  rewrite app_assoc. replace (1 + _) with (Zlen ([0] ++ concat ((λ n, n ++ [0]) <$> l1))).
  - by apply cstring_mid.
  - rewrite length_app. cbn [length]. lia.
Qed.

(** Each entry of the named list has the offset of its name. *)
Lemma named_offsets off syms :
  Forall2 (λ s t, ∃ a b, sym_name <$> syms = a ++ sym_name s :: b
                   ∧ t = set_nameOffset (u32 (off + Zlen (terminated a))) s) syms (named off syms).
Proof.
  revert off. induction syms as [|s r IH]; intros off; cbn [named]; [constructor|].
  constructor.
  - exists [], (sym_name <$> r). split; [done|]. cbn. by rewrite Z.add_0_r.
  - eapply Forall2_impl; [apply IH|]. intros u t (a & b & Ha & ->).
    exists (sym_name s :: a), b. rewrite fmap_cons, Ha. split; [done|].
    rewrite terminated_cons, !length_app. cbn [length]. do 2 f_equal. lia.
Qed.

Lemma sel_Forall2 b (R : symbolState → symbolState → Prop) l k :
  (∀ s t, R s t → is_local t = is_local s) → Forall2 R l k → Forall2 R (sel b l) (sel b k).
Proof.
  intros HR. induction 1 as [|s t l k Hst H IH]; [constructor|].
  rewrite !sel_cons, (HR _ _ Hst). destruct (eqb _ _); [by constructor|done].
Qed.

(** The section headers one by one. *)
Definition shdr_list (p : parser) (L : layout) : list bytes :=
  let N := Z.of_nat in
  [shdr64 0 shTypeNull 0 0 0 0 0 0 0 0;
   shdr64 2 shTypeProgBits (sec_flags (p_text p)) 0 (N (textOffset L)) (Zlen (sec_data (p_text p))) 0 0 (sec_align (p_text p)) 0;
   shdr64 8 shTypeProgBits (sec_flags (p_data p)) 0 (N (dataOffset L)) (Zlen (sec_data (p_data p))) 0 0 (sec_align (p_data p)) 0;
   shdr64 14 shTypeNoBits (sec_flags (p_bss p)) 0 0 (sec_size (p_bss p)) 0 0 (sec_align (p_bss p)) 0;
   shdr64 19 shTypeStrTab 0 0 (N (shstrtabOffset L)) (N (shstrtabSize L)) 0 0 1 0;
   shdr64 29 shTypeSymTab 0 0 (N (symtabOffset L)) (N (symtabSize L)) 6 (N (S (symbolLocalCount p))) 8 24;
   shdr64 37 shTypeStrTab 0 0 (N (strtabOffset L)) (N (strtabSize L)) 0 0 1 0;
   shdr64 45 shTypeRela 0 0 (N (relaOffset L)) (N (relaSize L)) 5 1 8 24].

Lemma shdr_list_concat p L : shdrs64 p L = concat (shdr_list p L).
Proof. unfold shdrs64, shdr_list. cbv zeta. cbn [concat]. by rewrite app_nil_r. Qed.

Lemma shdr_list_64 p L : Forall (λ b, length b = 64%nat) (shdr_list p L).
Proof. repeat constructor; apply length_shdr64. Qed.

Lemma sub_block (k : nat) l b :
  Forall (λ b, length b = 64%nat) l → l !! k = Some b → sub (64 * k) 64 (concat l) = b.
Proof.
  revert k. induction l as [|c r IH]; intros k Hl Hk; [done|].
  apply Forall_cons in Hl as [Hc Hr]. unfold sub. destruct k as [|k]; cbn [concat].
  - injection Hk as ->. by rewrite Nat.mul_0_r, drop_0, take_app_length'.
  - replace (64 * S k)%nat with (length c + 64 * k)%nat by lia.
    rewrite <- drop_drop, drop_app_length. by apply IH.
Qed.

Section roundtrip.
Context (p : parser) (profile : targetProfile) (H : emittable p profile).
Abbreviation F := (elf64_file p profile).
Abbreviation L := (layout64 p).

Lemma field_ehdr n off :
  0 ≤ off → off + Z.of_nat n ≤ 64 →
  field F n off = le_val (sub (Z.to_nat off) n (ehdr64 profile (Zlen (to_shdrs p)))).
Proof. intros. unfold field. rewrite <- (file_ehdr p profile), sub_sub by lia. done. Qed.

Lemma file_bounds : Zlen F < 2 ^ 32.
Proof. apply H. Qed.

Lemma shoff_field : field F 8 40 = Zlen (to_shdrs p).
Proof.
  rewrite field_ehdr by lia. pose proof file_bounds. pose proof (layout_bounds p profile) as Hl.
  cbv zeta in Hl. destruct_and! Hl.
  change (sub (Z.to_nat 40) 8 _) with (le_bytes 8 (Zlen (to_shdrs p))).
  rewrite le_val_le_bytes. apply wrap_small. unfold is_word. lia.
Qed.

Lemma header_nth (i : Z) (k : nat) b :
  i = Z.of_nat k → shdr_list p L !! k = Some b → header F i = parse_shdr b.
Proof.
  intros -> Hk. assert (k < 8)%nat by by apply lookup_lt_Some in Hk.
  unfold header. rewrite shoff_field. f_equal.
  rewrite <- (sub_block k (shdr_list p L) b (shdr_list_64 p L) Hk), <- shdr_list_concat, <- (file_shdrs p profile).
  rewrite sub_sub by lia. f_equal. lia.
Qed.

Lemma off64 (n : nat) : (n ≤ length F)%nat → u64 (Z.of_nat n) = Z.of_nat n.
Proof. pose proof file_bounds. intros. apply wrap_small; unfold is_word; lia. Qed.
Lemma off32 (n : nat) : (n ≤ length F)%nat → u32 (Z.of_nat n) = Z.of_nat n.
Proof. pose proof file_bounds. intros. apply wrap_small; unfold is_word; lia. Qed.

Lemma flags_ok r :
  u64 (sec_flags (get_section r p)) = sec_flags (get_section r p) ∧
  u64 (sec_align (get_section r p)) = sec_align (get_section r p) ∧
  u64 (sec_size (get_section r p)) = sec_size (get_section r p).
Proof. destruct (em_flags _ _ H r) as (? & ? & ?). by rewrite !wrap_small. Qed.

(** Reads header [k]; the offsets of the layout are below 4 GiB. *)
Ltac read_header k :=
  etrans; [apply (header_nth _ k); reflexivity|]; rewrite parse_shdr64;
  let Hl := fresh in pose proof (layout_bounds p profile) as Hl; cbv zeta in Hl; destruct_and! Hl;
  rewrite ?off64 by lia.

Lemma header_text : header F 1 =
  Shdr 2 1 (sec_flags (p_text p)) 0 (Z.of_nat (textOffset L)) (Zlen (sec_data (p_text p))) 0 0 (sec_align (p_text p)) 0.
Proof. read_header 1%nat. destruct (flags_ok SText) as (Hf & Ha & _). cbn [get_section] in *. by rewrite Hf, Ha. Qed.

Lemma header_data : header F 2 =
  Shdr 8 1 (sec_flags (p_data p)) 0 (Z.of_nat (dataOffset L)) (Zlen (sec_data (p_data p))) 0 0 (sec_align (p_data p)) 0.
Proof. read_header 2%nat. destruct (flags_ok SData) as (Hf & Ha & _). cbn [get_section] in *. by rewrite Hf, Ha. Qed.

Lemma header_bss : header F 3 =
  Shdr 14 8 (sec_flags (p_bss p)) 0 0 (sec_size (p_bss p)) 0 0 (sec_align (p_bss p)) 0.
Proof. read_header 3%nat. destruct (flags_ok SBss) as (Hf & Ha & Hs). cbn [get_section] in *. by rewrite Hf, Ha, Hs. Qed.

Lemma header_shstr : header F 4 =
  Shdr 19 3 0 0 (Z.of_nat (shstrtabOffset L)) (Z.of_nat (shstrtabSize L)) 0 0 1 0.
Proof. read_header 4%nat. done. Qed.

Lemma header_symtab : header F 5 =
  Shdr 29 2 0 0 (Z.of_nat (symtabOffset L)) (Z.of_nat (symtabSize L)) 6 (Z.of_nat (S (symbolLocalCount p))) 8 24.
Proof.
  read_header 5%nat. rewrite off32; [done|].
  pose proof (length_symtab p) as Hs. cbn [symtabSize layout64] in *.
  unfold symbolLocalCount. pose proof (length_filter (λ s, is_local s = true) (p_symbols p)). lia.
Qed.

Lemma header_strtab : header F 6 =
  Shdr 37 3 0 0 (Z.of_nat (strtabOffset L)) (Z.of_nat (strtabSize L)) 0 0 1 0.
Proof. read_header 6%nat. done. Qed.

Lemma header_rela : header F 7 =
  Shdr 45 4 0 0 (Z.of_nat (relaOffset L)) (Z.of_nat (relaSize L)) 5 1 8 24.
Proof. read_header 7%nat. done. Qed.

Lemma header_null : sh_type (header F 0) = 0.
Proof. transitivity (sh_type (Shdr 0 0 0 0 0 0 0 0 0 0)); [|done]. f_equal. read_header 0%nat. done. Qed.

Lemma found_types : find_types F 2 = [header F 5] ∧ find_types F 4 = [header F 7].
Proof.
  unfold find_types. assert (field F 2 60 = 8) as -> by (by rewrite field_ehdr by lia).
  change (Z.of_nat <$> seq 0 (Z.to_nat 8)) with [0; 1; 2; 3; 4; 5; 6; 7].
  rewrite !fmap_cons. change (header F <$> []) with (@nil shdr).
  pose proof header_null as H0. rewrite header_text, header_data, header_bss, header_shstr, header_symtab, header_strtab, header_rela.
  split; (rewrite filter_cons_False by (by rewrite H0)); done.
Qed.

Lemma contents_eq h off n b :
  sh_type h ≠ 8 → sh_offset h = Z.of_nat off → sh_size h = Z.of_nat n → sub off n F = b →
  contents F h = b.
Proof.
  intros Ht Ho Hs Hb. unfold contents. destruct (Z.eqb_spec (sh_type h) 8); [done|].
  by rewrite Ho, Hs, !Nat2Z.id.
Qed.

Lemma contents_text : contents F (header F 1) = sec_data (p_text p).
Proof. rewrite header_text. eapply contents_eq; [done..|]. apply file_text. Qed.
Lemma contents_data : contents F (header F 2) = sec_data (p_data p).
Proof. rewrite header_data. eapply contents_eq; [done..|]. apply file_data. Qed.
Lemma contents_shstr : contents F (header F 4) = shstr_bytes.
Proof. rewrite header_shstr. eapply contents_eq; [done..|]. apply file_shstr. Qed.
Lemma contents_symtab : contents F (header F 5) = symtab_bytes p.
Proof. rewrite header_symtab. eapply contents_eq; [done..|]. apply file_symtab. Qed.
Lemma contents_strtab : contents F (header F 6) = strtab_bytes p.
Proof. rewrite header_strtab. eapply contents_eq; [done..|]. apply file_strtab. Qed.

Lemma contents_rela : contents F (header F 7) = rela_bytes p.
Proof.
  rewrite header_rela. eapply contents_eq; [done..|]. cbn [relaOffset relaSize layout64].
  destruct (nilb (text_relocs p)) eqn:E; [|apply file_rela].
  unfold rela_bytes. destruct (text_relocs p); [|done]. by rewrite sub_nil.
Qed.

Lemma read_sections : read_section F <$> [1; 2; 3] = o_sections (expected p profile).
Proof.
  assert (Hn : contents F (header F (field F 2 62)) = shstr_bytes).
  { assert (field F 2 62 = 4) as -> by (by rewrite field_ehdr by lia). apply contents_shstr. }
  cbn [fmap list_fmap described o_sections]. unfold read_section.
  rewrite Hn, contents_text, contents_data, header_text, header_data, header_bss. done.
Qed.

(** *** Symbols *)

Lemma entries_parse l k :
  Forall2 (λ s t, is_word 64 (sym_value s) ∧ wf_symbol s ∧ (0 ∉ sym_name s) ∧ ∃ n, t = set_nameOffset n s ∧ is_word 32 n
             ∧ cstring (strtab_bytes p) n = sym_name s) l k →
  parse_sym (strtab_bytes p) <$> (sym_entry <$> k) = describe <$> l.
Proof.
  induction 1 as [|s t l k (Hv & Hw & Hn & n & -> & Hr & Hc) Hl IH]; [done|].
  rewrite !fmap_cons, IH. f_equal. rewrite parse_sym_entry by done.
  cbn [set_nameOffset sym_nameOffset]. by rewrite Hc.
Qed.

Lemma strtab_small : Zlen (strtab_bytes p) ≤ 2 ^ 32 - 1.
Proof.
  pose proof file_bounds. pose proof (layout_bounds p profile) as Hl. cbv zeta in Hl.
  destruct_and! Hl. cbn [strtabSize strtabOffset layout64] in *. lia.
Qed.

Lemma named_ok :
  Forall2 (λ s t, is_word 64 (sym_value s) ∧ wf_symbol s ∧ (0 ∉ sym_name s) ∧ ∃ n, t = set_nameOffset n s ∧ is_word 32 n
             ∧ cstring (strtab_bytes p) n = sym_name s) (p_symbols p) (named_syms p).
Proof.
  pose proof strtab_small as Hsm. pose proof (named_offsets 1 (p_symbols p)) as Hn.
  pose proof (em_syms _ _ H) as Hs. pose proof (wf_syms _ (em_wf _ _ H)) as Hw.
  fold (named_syms p) in Hn. rewrite Forall_lookup in Hs. rewrite Forall_lookup in Hw.
  apply Forall2_same_length_lookup. split; [by eapply Forall2_length|]. intros i s t Hi Ht.
  destruct (Forall2_lookup_lr _ _ _ _ _ _ Hn Hi Ht) as (a & b & Ha & ->).
  destruct (Hs i s Hi) as [H1 H2]. split_and!; [done|by eapply Hw|done|].
  unfold strtab_bytes in *. rewrite Ha in Hsm |- *.
  assert (Hlen : 1 + Zlen (terminated a) < 2 ^ 32).
  { unfold terminated in Hsm. rewrite fmap_app, concat_app in Hsm. fold (terminated a) in Hsm.
    rewrite !length_app in Hsm. cbn [length] in Hsm. lia. }
  assert (Hu : u32 (1 + Zlen (terminated a)) = 1 + Zlen (terminated a)).
  { apply wrap_small. unfold is_word. lia. }
  eexists. split; [done|]. rewrite Hu. split; [unfold is_word; lia|]. by apply cstring_strtab.
Qed.

Lemma parse_null : parse_sym (strtab_bytes p) (sym64 0 0 0 0 0 0) = null_sym.
Proof. done. Qed.

Lemma read_syms : read_symbols F (header F 5) = null_sym :: (describe <$> out_syms (p_symbols p)).
Proof.
  unfold read_symbols. rewrite contents_symtab, header_symtab. cbn [sh_link sh_entsize].
  rewrite contents_strtab. unfold symtab_bytes.
  change (sym64 0 0 0 0 0 0 ++ concat ?l) with (concat (sym64 0 0 0 0 0 0 :: l)).
  rewrite chunks_concat; [| lia |].
  - rewrite fmap_cons, parse_null. f_equal. apply entries_parse. unfold out_syms.
    apply Forall2_app; apply sel_Forall2; try apply named_ok; by intros s t (_ & _ & _ & n & -> & _).
  - constructor; [done|]. apply Forall_fmap, Forall_true. intros s. apply length_sym64.
Qed.

(** *** Relocations *)

Lemma out_syms_named i s :
  p_symbols p !! i = Some s →
  ∃ j, mapIdx (named_syms p) !! i = Some (Z.of_nat (S j)) ∧ out_syms (p_symbols p) !! j = Some s.
Proof.
  intros Hs. destruct (Forall2_lookup_l _ _ _ _ _ named_ok Hs) as (t & Ht & _ & _ & _ & n & -> & _).
  destruct (mapIdx_spec _ _ _ Ht) as (j & Hm & Hj). exists j. split; [done|].
  destruct (mapIdx_spec _ _ _ Hs) as (j' & Hm' & Hj'). rewrite <- Hj'. f_equal.
  assert (mapIdx (named_syms p) = mapIdx (p_symbols p)) as Heq.
  { unfold named_syms. generalize 1 at 1. intros off. unfold mapIdx.
    assert (∀ k syms off, map_locals k (named off syms) = map_locals k syms) as Hl.
    { intros k syms. revert k. induction syms as [|u r IH]; intros k o; cbn [named map_locals]; [done|].
      change (is_local (set_nameOffset (u32 o) u)) with (is_local u). by rewrite !IH. }
    rewrite Hl. destruct (map_locals 1 (p_symbols p)) as [m e]. clear. revert off e m.
    induction (p_symbols p) as [|u r IH]; intros o e [|x m]; cbn [named map_globals]; try done.
    change (is_local (set_nameOffset (u32 o) u)) with (is_local u). by rewrite !IH. }
  rewrite Heq, Hm' in Hm. injection Hm. lia.
Qed.

Lemma read_rels : read_relocs F (header F 7) = o_relocs (expected p profile).
Proof.
  unfold read_relocs. rewrite contents_rela, header_rela. cbn [sh_link sh_entsize sh_info].
  rewrite read_syms. unfold rela_bytes. cbn [described o_relocs].
  rewrite chunks_concat; [|lia|]; cycle 1.
  { apply Forall_fmap, Forall_true. intros r. unfold compose, rela_entry. by rewrite !length_app, !length_le_bytes. }
  rewrite <- list_fmap_compose. apply list_fmap_ext. intros i r Hr. unfold compose.
  apply list_elem_of_lookup_2 in Hr. unfold text_relocs in Hr. apply list_elem_of_filter in Hr as [Hsec Hr].
  pose proof (em_relocs _ _ H) as Hm. rewrite Forall_forall in Hm. destruct (Hm r Hr) as (H1 & H2 & H3).
  pose proof (wf_relocs _ (em_wf _ _ H)) as Hw. rewrite Forall_forall in Hw. destruct (Hw r Hr) as [H4 _].
  destruct (lookup_lt_is_Some_2 (p_symbols p) (Z.to_nat (rel_sym r))) as [s Hs]; [lia|].
  destruct (out_syms_named _ _ Hs) as (j & Hj & Ho).
  assert (Z.of_nat (S j) < 2 ^ 32).
  { apply lookup_lt_Some in Ho. rewrite length_out_syms in Ho.
    pose proof (wf_count _ (em_wf _ _ H)). unfold max_symbols in *. lia. }
  rewrite (parse_rela_entry _ _ _ Hj) by (done || lia). rewrite Nat2Z.id, Hs, Hsec.
  change ((null_sym :: ?l) !! S j) with (l !! j). by rewrite list_lookup_fmap, Ho.
Qed.

Lemma elf64_read : read_elf64 F = Some (expected p profile).
Proof.
  unfold read_elf64.
  assert (take 7 F = take 7 (ehdr64 profile (Zlen (to_shdrs p)))) as ->.
  { rewrite <- (file_ehdr p profile). unfold sub. by rewrite drop_0, take_take. }
  assert (field F 2 58 = 64) as -> by (by rewrite field_ehdr by lia).
  assert (field F 2 18 = eMachine profile) as ->.
  { rewrite field_ehdr by lia. change (sub (Z.to_nat 18) 2 _) with (le_bytes 2 (eMachine profile)).
    rewrite le_val_le_bytes. apply wrap_small, H. }
  destruct found_types as [-> ->]. rewrite read_sections. cbn [mbind option_bind head fmap list_fmap concat]. rewrite app_nil_r.
  rewrite read_syms, read_rels, header_symtab. cbn [sh_info].
  replace (Z.of_nat (S (symbolLocalCount p))) with (Zlen (sel true (p_symbols p)) + 1); [done|].
  unfold symbolLocalCount, sel. lia.
Qed.

Lemma elf64_emits stale : emit stale p profile = Ok F.
Proof.
  apply emit64_eq; [apply H..|]. pose proof file_bounds. pose proof (layout_bounds p profile) as Hl.
  cbv zeta in Hl. destruct_and! Hl. destruct (prefix_to_shdrs p) as [x Hx].
  rewrite Hx, length_app in *. lia.
Qed.

End roundtrip.

(** ** Properties *)

Lemma described_all p profile :
  described (text_relocs p) p profile = described (p_relocs p) p profile ↔ Forall (λ r, rel_sec r = 1) (p_relocs p).
Proof.
  unfold text_relocs. split.
  - intros [= He%(f_equal length)]. rewrite !length_fmap in He. apply Forall_forall. intros r Hr.
    destruct (decide (rel_sec r = 1)) as [|Hn]; [done|]. exfalso.
    pose proof (list_elem_of_split _ _ Hr) as (l1 & l2 & Hl). rewrite Hl, filter_app, filter_cons_False, !length_app in He by done.
    pose proof (length_filter (λ r, rel_sec r = 1) l1). pose proof (length_filter (λ r, rel_sec r = 1) l2). cbn [length] in He. lia.
  - intros H. by rewrite filter_all.
Qed.


Lemma demo_emittable p : assemble demo (Profile 2 8 16 62) = Ok p → emittable p (Profile 2 8 16 62).
Proof.
  intros Hp. pose proof (assemble_ensures demo (Profile 2 8 16 62)) as Hw. rewrite Hp in Hw. destruct Hw as [Hw _].
  vm_compute in Hp. injection Hp as <-. split; [exact Hw|done|unfold is_word; cbn; lia| | | |].
  - vm_compute. done.
  - intros []; repeat split; vm_compute; done.
  - repeat constructor; try (split; vm_compute; done); vm_compute; set_solver.
  - repeat constructor; vm_compute; done.
Qed.


(** A call in .data: the assembler records a relocation for it, and the object
    has none; its bytes stay a call to the next instruction. *)
Definition data_call : bytes := bs "section .data" ++ [10] ++ bs "call foo" ++ [10].
Lemma data_relocation_dropped :
  ∃ p out o, assemble data_call (Profile 2 8 16 62) = Ok p ∧ length (p_relocs p) = 1%nat ∧
    emit [] p (Profile 2 8 16 62) = Ok out ∧ read_elf64 out = Some o ∧ o_relocs o = [].
Proof.
  do 3 eexists. split; [vm_compute; reflexivity|]. split; [vm_compute; reflexivity|]. split; [vm_compute; reflexivity|].
  split; vm_compute; reflexivity.
Qed.

(** The program of [k] one-byte instructions. *)
Definition nops (k : nat) : bytes := concat (replicate k (bs "nop" ++ [10])).

(** A 32-bit object of 25 nops ends before its section header table does: the
    offset in its header (e_shoff, 8 headers of 40 bytes) passes the end of the
    file. *)
Theorem elf32_headers_truncated :
  ∃ out, emitSourceObject [] (nops 25) (Profile 1 4 4 3) = Ok out ∧
    Zlen out < le_val (sub 32 4 out) + 8 * 40.
Proof. eexists. split; [vm_compute; reflexivity|]. vm_compute. done. Qed.
