(* ===== verification/Topo.v ===== *)
(** * Build order

    Models topoSort and remapDependencies of internal/builder/graph.go: Kahn's
    algorithm over an adjacency structure laid out in flat arrays by counting
    sort.  The arrays come from a pool, so their old contents are a parameter;
    every access is bounds-checked as in Go. *)
From stdpp Require Import sorting.
From S2P Require Import Prelude.

(** ** Checked array accesses *)

Definition aget {A} (l : list A) (i : Z) : outcome A :=
  if i <? 0 then Panic else match l !! Z.to_nat i with Some x => Ok x | None => Panic end.

Definition aset {A} (l : list A) (i : Z) (x : A) : outcome (list A) :=
  if (i <? 0) || (Zlen l <=? i) then Panic else Ok (<[Z.to_nat i := x]> l).

(** ** topoSort *)

Definition errInvalidDependency : string := "invalid dependency index".
Definition errDependencyCycle : string := "dependency cycle detected".

Abbreviation graph := (list (list Z)).

Record topoScratch := Scratch {
  inDegree : list Z;
  adjIndex : list Z;
  adjCursor : list Z;
  adjData : list Z }.

(** The inner loop of the counting pass, and the pass. *)
Fixpoint count_deps (n : Z) (deps : list Z) (index : list Z) : outcome (list Z) :=
  match deps with
  | [] => Ok index
  | dep :: r =>
      if (dep <? 0) || (n <=? dep) then Err errInvalidDependency
      else x ← aget index (dep + 1);
           index ← aset index (dep + 1) (x + 1);
           count_deps n r index
  end.

Fixpoint count_pass (n i : Z) (g : graph) (deg index : list Z) : outcome (list Z * list Z) :=
  match g with
  | [] => Ok (deg, index)
  | deps :: r =>
      deg ← aset deg i (Zlen deps);
      index ← count_deps n deps index;
      count_pass n (i + 1) r deg index
  end.

(** for i := 1; i <= n: the running sums, [k] iterations from [i]. *)
Fixpoint prefix_sums (k : nat) (i : Z) (index : list Z) : outcome (list Z) :=
  match k with
  | O => Ok index
  | S k' =>
      a ← aget index i; b ← aget index (i - 1);
      index ← aset index i (a + b);
      prefix_sums k' (i + 1) index
  end.

Fixpoint fill_deps (i : Z) (deps : list Z) (cursor data : list Z) : outcome (list Z * list Z) :=
  match deps with
  | [] => Ok (cursor, data)
  | dep :: r =>
      c ← aget cursor dep;
      data ← aset data c i;
      cursor ← aset cursor dep (c + 1);
      fill_deps i r cursor data
  end.

Fixpoint fill_pass (i : Z) (g : graph) (cursor data : list Z) : outcome (list Z * list Z) :=
  match g with
  | [] => Ok (cursor, data)
  | deps :: r =>
      '(cursor, data) ← fill_deps i deps cursor data;
      fill_pass (i + 1) r cursor data
  end.

(** The nodes without dependencies, in order. *)
Fixpoint roots (i : Z) (deg : list Z) : list Z :=
  match deg with
  | [] => []
  | d :: r => if d =? 0 then i :: roots (i + 1) r else roots (i + 1) r
  end.

(** for j := start; j < end: [k] iterations from [j]. *)
Fixpoint visit (k : nat) (j : Z) (data deg queue : list Z) : outcome (list Z * list Z) :=
  match k with
  | O => Ok (deg, queue)
  | S k' =>
      nxt ← aget data j;
      d ← aget deg nxt;
      deg ← aset deg nxt (d - 1);
      visit k' (j + 1) data deg (if d - 1 =? 0 then queue ++ [nxt] else queue)
  end.

Fixpoint kahn (fuel : nat) (head : nat) (index data deg queue order : list Z) : outcome (list Z) :=
  match queue !! head with
  | None => Ok order
  | Some node =>
      match fuel with
      | O => Diverge
      | S f =>
          s ← aget index node;
          e ← aget index (node + 1);
          '(deg, queue) ← visit (Z.to_nat (e - s)) s data deg queue;
          kahn f (S head) index data deg queue (order ++ [node])
      end
  end.

Definition total_edges (g : graph) : nat := sum_list (length <$> g).

Definition topoSort (old : topoScratch) (g : graph) : outcome (list Z) :=
  let n := length g in
  if (n =? 0)%nat then Ok []
  else
    let deg := resize n 0 (inDegree old) in
    let index := replicate (S n) 0 in
    let data := resize (total_edges g) 0 (adjData old) in
    '(deg, index) ← count_pass (Z.of_nat n) 0 g deg index;
    index ← prefix_sums n 1 index;
    '(_, data) ← fill_pass 0 g (take n index) data;
    let queue := roots 0 deg in
    if nilb queue then Err errDependencyCycle
    else
      order ← kahn n 0 index data deg queue [];
      if negb (length order =? n)%nat then Err errDependencyCycle else Ok order.

(** ** remapDependencies *)

Fixpoint positions (i : Z) (order : list Z) (pos : list Z) : outcome (list Z) :=
  match order with
  | [] => Ok pos
  | src :: r => pos ← aset pos src i; positions (i + 1) r pos
  end.

Fixpoint mapM_get (pos : list Z) (deps : list Z) : outcome (list Z) :=
  match deps with
  | [] => Ok []
  | d :: r => p ← aget pos d; ps ← mapM_get pos r; Ok (p :: ps)
  end.

(** sort.Ints: the ascending permutation. *)
Definition sort_ints (l : list Z) : list Z := merge_sort Z.le l.

Fixpoint remap_rows (pos : list Z) (order : list Z) (g : graph) : outcome graph :=
  match order with
  | [] => Ok []
  | src :: r =>
      deps ← aget g src;
      row ← mapM_get pos deps;
      rows ← remap_rows pos r g;
      Ok ((if (1 <? length row)%nat then sort_ints row else row) :: rows)
  end.

Definition remapDependencies (order : list Z) (g : graph) : outcome graph :=
  pos ← positions 0 order (replicate (length order) 0);
  remap_rows pos order g.

Example topo1 : topoSort (Scratch [7; 7; 7; 7] [] [] [9]) [[1; 2]; [2]; []; [0]] = Ok [2; 1; 0; 3].
Proof. vm_compute. done. Qed.
Example topo2 : topoSort (Scratch [] [] [] []) [[1]; [2]; [0]; []] = Err errDependencyCycle.
Proof. vm_compute. done. Qed.
Example remap1 : remapDependencies [2; 1; 0; 3] [[1; 2]; [2]; []; [0]] = Ok [[]; [0]; [0; 1]; [2]].
Proof. vm_compute. done. Qed.

(** ** Specification *)

(** [b] comes strictly before [a] in [order]. *)
Definition before (order : list Z) (b a : Z) : Prop :=
  ∃ i j : nat, order !! i = Some b ∧ order !! j = Some a ∧ (i < j)%nat.

(** An order of the nodes of [g] in which each comes after its dependencies. *)
Definition is_topo (g : graph) (order : list Z) : Prop :=
  order ≡ₚ (Z.of_nat <$> seq 0 (length g)) ∧
  ∀ (i : nat) deps dep, g !! i = Some deps → dep ∈ deps → before order dep (Z.of_nat i).

Definition valid_graph (g : graph) : Prop :=
  Forall (Forall (λ dep, 0 ≤ dep < Zlen g)) g.

#[export] Instance valid_graph_dec g : Decision (valid_graph g).
Proof. unfold valid_graph. apply _. Defined.

(** ** Arrays as functions *)

Definition arr (n : nat) (f : Z → Z) : list Z := f <$> (Z.of_nat <$> seq 0 n).
Definition upd (f : Z → Z) (i x : Z) : Z → Z := λ j, if j =? i then x else f j.

Lemma arr_lookup n f (k : nat) : (k < n)%nat → arr n f !! k = Some (f (Z.of_nat k)).
Proof. intros. unfold arr. rewrite !list_lookup_fmap, lookup_seq_lt by done. done. Qed.

Lemma length_arr n f : length (arr n f) = n.
Proof. unfold arr. by rewrite !length_fmap, length_seq. Qed.

Lemma arr_ext n f g : (∀ i, 0 ≤ i < Z.of_nat n → f i = g i) → arr n f = arr n g.
Proof.
  intros H. apply list_eq_same_length with n; rewrite ?length_arr; try done.
  intros i x y Hi. rewrite !arr_lookup by done. intros [= <-] [= <-]. apply H. lia.
Qed.

Lemma arr_of l : l = arr (length l) (λ i, default 0 (l !! Z.to_nat i)).
Proof.
  apply list_eq_same_length with (length l); rewrite ?length_arr; try done.
  intros i x y Hi Hx. rewrite arr_lookup by done. rewrite Nat2Z.id, Hx. by intros [= <-].
Qed.

Lemma aget_arr n f i : 0 ≤ i < Z.of_nat n → aget (arr n f) i = Ok (f i).
Proof.
  intros. unfold aget. destruct (Z.ltb_spec i 0); [lia|].
  rewrite arr_lookup by lia. by rewrite Z2Nat.id by lia.
Qed.

Lemma aset_arr n f i x : 0 ≤ i < Z.of_nat n → aset (arr n f) i x = Ok (arr n (upd f i x)).
Proof.
  intros. unfold aset. rewrite length_arr.
  destruct (Z.ltb_spec i 0); [lia|]. destruct (Z.leb_spec (Z.of_nat n) i); [lia|]. cbn [orb]. f_equal.
  apply list_eq_same_length with n; rewrite ?length_insert, ?length_arr; try done.
  intros k a b Hk. rewrite arr_lookup by done. unfold upd.
  destruct (decide (k = Z.to_nat i)) as [->|Hne].
  - rewrite list_lookup_insert_eq by (rewrite length_arr; lia). intros [= <-] [= <-].
    rewrite Z2Nat.id by lia. by rewrite Z.eqb_refl.
  - rewrite list_lookup_insert_ne by done. rewrite arr_lookup by done. intros [= <-] [= <-].
    destruct (Z.eqb_spec (Z.of_nat k) i); [lia|done].
Qed.

Lemma arr_take n m f : (m ≤ n)%nat → take m (arr n f) = arr m f.
Proof. intros. unfold arr. by rewrite <- !fmap_take, take_seq, Nat.min_l by lia. Qed.

Lemma arr_replicate n x : replicate n x = arr n (λ _, x).
Proof.
  apply list_eq_same_length with n; rewrite ?length_replicate, ?length_arr; try done.
  intros i a b Hi. rewrite lookup_replicate_2, arr_lookup by done. congruence.
Qed.

(** ** Edges *)

Fixpoint edges (i : Z) (g : graph) : list (Z * Z) :=
  match g with
  | [] => []
  | deps :: r => ((λ d, (d, i)) <$> deps) ++ edges (i + 1) r
  end.

Definition cnt (v : Z) (es : list (Z * Z)) : Z := Zlen (filter (λ e, e.1 = v) es).
Definition below (v : Z) (es : list (Z * Z)) : Z := Zlen (filter (λ e, e.1 < v) es).
Definition children (v : Z) (es : list (Z * Z)) : list Z := (filter (λ e, e.1 = v) es).*2.

Lemma cnt_cons v e es : cnt v (e :: es) = (if e.1 =? v then 1 else 0) + cnt v es.
Proof.
  unfold cnt. rewrite filter_cons. destruct (Z.eqb_spec e.1 v); case_decide; try done; cbn [length]; lia.
Qed.

Lemma cnt_app v a b : cnt v (a ++ b) = cnt v a + cnt v b.
Proof. unfold cnt. rewrite filter_app, length_app. lia. Qed.

Lemma below_cons v e es : below v (e :: es) = (if e.1 <? v then 1 else 0) + below v es.
Proof.
  unfold below. rewrite filter_cons. destruct (Z.ltb_spec e.1 v); case_decide; try lia; cbn [length]; lia.
Qed.

Lemma below_succ v es : below (v + 1) es = below v es + cnt v es.
Proof.
  induction es as [|e es IH]; [done|]. rewrite !below_cons, cnt_cons, IH.
  destruct (Z.ltb_spec e.1 (v + 1)), (Z.ltb_spec e.1 v), (Z.eqb_spec e.1 v); lia.
Qed.

Lemma below_mono v w es : v ≤ w → below v es ≤ below w es.
Proof.
  intros H. induction es as [|e es IH]; [done|]. rewrite !below_cons.
  destruct (Z.ltb_spec e.1 w), (Z.ltb_spec e.1 v); lia.
Qed.

Lemma below_le v es : 0 ≤ below v es ≤ Zlen es.
Proof. unfold below. pose proof (length_filter (λ e : Z * Z, e.1 < v) es). lia. Qed.

Lemma cnt_nonneg v es : 0 ≤ cnt v es.
Proof. unfold cnt. lia. Qed.

Lemma below_zero es : Forall (λ e, 0 ≤ e.1) es → below 0 es = 0.
Proof.
  induction 1 as [|e es He Hes IH]; [done|]. rewrite below_cons, IH. destruct (Z.ltb_spec e.1 0); lia.
Qed.

Lemma children_length v es : Zlen (children v es) = cnt v es.
Proof. unfold children, cnt. by rewrite length_fmap. Qed.

Lemma edges_length i g : length (edges i g) = total_edges g.
Proof.
  revert i. induction g as [|deps g IH]; intros i; [done|]. cbn [edges]. unfold total_edges in *.
  rewrite length_app, length_fmap, IH. done.
Qed.

Lemma edges_valid i g m : Forall (Forall (λ d, 0 ≤ d < m)) g → Forall (λ e, 0 ≤ e.1 < m) (edges i g).
Proof.
  revert i. induction g as [|deps g IH]; intros i; [by constructor|]. intros [Hd Hg]%Forall_cons.
  cbn [edges]. apply Forall_app. split; [by apply Forall_fmap|auto].
Qed.

Lemma edges_snd i g : Forall (λ e, i ≤ e.2 < i + Zlen g) (edges i g).
Proof.
  revert i. induction g as [|deps g IH]; intros i; cbn [edges]; [by constructor|].
  apply Forall_app. split.
  - apply Forall_fmap, Forall_true. intros d. cbn. lia.
  - eapply Forall_impl; [apply IH|]. cbn [length]. intros e. lia.
Qed.

(** How often [v] occurs in the dependencies of [i], both ways. *)
Definition occ (v : Z) (l : list Z) : nat := length (filter (λ x, x = v) l).

Lemma occ_cons v x l : occ v (x :: l) = ((if decide (x = v) then 1 else 0) + occ v l)%nat.
Proof. unfold occ. rewrite filter_cons. by case_decide. Qed.

Lemma occ_app v a b : occ v (a ++ b) = (occ v a + occ v b)%nat.
Proof. unfold occ. by rewrite filter_app, length_app. Qed.

Definition row (g : graph) (i : Z) : list Z := if i <? 0 then [] else default [] (g !! Z.to_nat i).

Lemma occ_children_row v i deps :
  (∀ j, occ j (children v ((λ d, (d, i)) <$> deps)) = if decide (j = i) then occ v deps else 0%nat).
Proof.
  intros j. unfold children. induction deps as [|d r IH]; [by case_decide|].
  rewrite fmap_cons, filter_cons, occ_cons. cbn [fst]. destruct (decide (d = v)); rewrite ?fmap_cons, ?occ_cons, IH;
    cbn [snd]; repeat case_decide; done || lia.
Qed.

Lemma occ_children i0 g v i :
  occ i (children v (edges i0 g)) = occ v (row g (i - i0)).
Proof.
  revert i0. induction g as [|deps g IH]; intros i0.
  - unfold row. cbn. by case_match.
  - cbn [edges]. unfold children. rewrite filter_app, fmap_app, occ_app. fold (children v (edges (i0 + 1) g)).
    change ((filter (λ e : Z * Z, e.1 = v) ((λ d : Z, (d, i0)) <$> deps)).*2) with (children v ((λ d, (d, i0)) <$> deps)).
    rewrite occ_children_row, IH. unfold row.
    case_decide as Hi.
    + subst i0. rewrite Z.sub_diag. change (default [] ((deps :: g) !! Z.to_nat 0)) with deps.
      destruct (Z.ltb_spec (i - (i + 1)) 0); [|lia]. apply Nat.add_0_r.
    + destruct (Z.ltb_spec (i - (i0 + 1)) 0), (Z.ltb_spec (i - i0) 0); try lia; try done.
      replace (Z.to_nat (i - i0)) with (S (Z.to_nat (i - (i0 + 1)))) by lia. done.
Qed.

(** ** The passes that build the adjacency arrays *)

Lemma count_deps_ok n deps f i es :
  Forall (λ d, 0 ≤ d < Z.of_nat n) deps →
  count_deps (Z.of_nat n) deps (arr (S n) (λ j, f j + cnt (j - 1) es)) =
    Ok (arr (S n) (λ j, f j + cnt (j - 1) (es ++ ((λ d, (d, i)) <$> deps)))).
Proof.
  revert es. induction deps as [|d r IH]; intros es H; cbn [count_deps].
  - by rewrite app_nil_r.
  - apply Forall_cons in H as [Hd Hr].
    destruct (Z.ltb_spec d 0); [lia|]. destruct (Z.leb_spec (Z.of_nat n) d); [lia|]. cbn [orb].
    rewrite aget_arr by lia. cbn [mbind outcome_bind]. rewrite aset_arr by lia. cbn [mbind outcome_bind].
    rewrite (arr_ext _ _ (λ j, f j + cnt (j - 1) (es ++ [(d, i)]))).
    + rewrite IH by done. rewrite <- app_assoc. done.
    + intros j Hj. unfold upd. rewrite cnt_app, cnt_cons. cbn [fst]. change (cnt (j - 1) []) with 0.
      destruct (Z.eqb_spec j (d + 1)), (Z.eqb_spec d (j - 1)); try lia. subst j. lia.
Qed.

Lemma count_deps_err n deps m f :
  m = S n →
  ¬ Forall (λ d, 0 ≤ d < Z.of_nat n) deps → count_deps (Z.of_nat n) deps (arr m f) = Err errInvalidDependency.
Proof.
  intros ->. revert f. induction deps as [|d r IH]; intros f H; cbn [count_deps].
  - destruct H. by constructor.
  - destruct (Z.ltb_spec d 0); [done|]. destruct (Z.leb_spec (Z.of_nat n) d); [done|]. cbn [orb].
    rewrite aget_arr by lia. cbn [mbind outcome_bind]. rewrite aset_arr by lia. cbn [mbind outcome_bind]. apply IH.
    intros Hr. apply H. constructor; [lia|done].
Qed.

Lemma count_pass_ok n g i es fd :
  0 ≤ i → i + Zlen g ≤ Z.of_nat n → Forall (Forall (λ d, 0 ≤ d < Z.of_nat n)) g →
  count_pass (Z.of_nat n) i g (arr n fd) (arr (S n) (λ j, cnt (j - 1) es)) =
    Ok (arr n (λ j, if (i <=? j) && (j <? i + Zlen g) then Zlen (row g (j - i)) else fd j),
        arr (S n) (λ j, cnt (j - 1) (es ++ edges i g))).
Proof.
  revert i es fd. induction g as [|deps g IH]; intros i es fd Hi Hn H; cbn [count_pass edges].
  - rewrite app_nil_r. do 2 f_equal. apply arr_ext. intros j Hj. cbn [length].
    destruct (Z.leb_spec i j), (Z.ltb_spec j (i + Z.of_nat 0)); cbn [andb]; done || lia.
  - apply Forall_cons in H as [Hd Hg]. cbn [length] in *. rewrite aset_arr by lia. cbn [mbind outcome_bind].
    rewrite (arr_ext _ (λ j, cnt (j - 1) es) (λ j, 0 + cnt (j - 1) es)) by (intros; lia).
    rewrite (count_deps_ok n deps (λ _, 0) i) by done. cbn [mbind outcome_bind].
    rewrite (arr_ext _ (λ j, 0 + _) (λ j, cnt (j - 1) (es ++ ((λ d, (d, i)) <$> deps)))) by (intros; lia).
    rewrite IH by (done || lia). rewrite <- app_assoc. do 2 f_equal.
    apply arr_ext. intros j Hj. unfold upd, row.
    destruct (Z.leb_spec (i + 1) j), (Z.leb_spec i j), (Z.ltb_spec j (i + 1 + Zlen g)),
      (Z.ltb_spec j (i + Z.of_nat (S (length g)))); cbn [andb]; try lia;
    destruct (Z.eqb_spec j i) as [->|]; try lia; try done.
    + destruct (Z.ltb_spec (j - (i + 1)) 0), (Z.ltb_spec (j - i) 0); try lia.
      replace (Z.to_nat (j - i)) with (S (Z.to_nat (j - (i + 1)))) by lia. done.
    + rewrite Z.sub_diag. done.
Qed.

Lemma count_pass_err n g i fd m fi :
  m = S n → 0 ≤ i → i + Zlen g ≤ Z.of_nat n → ¬ Forall (Forall (λ d, 0 ≤ d < Z.of_nat n)) g →
  count_pass (Z.of_nat n) i g (arr n fd) (arr m fi) = Err errInvalidDependency.
Proof.
  intros ->. revert i fd fi. induction g as [|deps g IH]; intros i fd fi Hi Hn H; cbn [count_pass].
  - destruct H. by constructor.
  - cbn [length] in *. rewrite aset_arr by lia. cbn [mbind outcome_bind].
    destruct (decide (Forall (λ d, 0 ≤ d < Z.of_nat n) deps)) as [Hd|Hd].
    + rewrite (arr_ext _ fi (λ j, fi j + cnt (j - 1) [])) by (intros j _; change (cnt (j - 1) []) with 0; lia).
      rewrite (count_deps_ok n deps fi i []) by done. cbn [mbind outcome_bind]. apply IH; try lia.
      intros Hg. apply H. by constructor.
    + rewrite count_deps_err by done. done.
Qed.

Lemma prefix_sums_ok n k i es :
  1 ≤ i → i + Z.of_nat k = Z.of_nat (S n) →
  prefix_sums k i (arr (S n) (λ j, if j <? i then below j es else cnt (j - 1) es)) =
    Ok (arr (S n) (λ j, below j es)).
Proof.
  revert i. induction k as [|k IH]; intros i Hi Hk; cbn [prefix_sums].
  - f_equal. apply arr_ext. intros j Hj. destruct (Z.ltb_spec j i); [done|lia].
  - rewrite aget_arr by lia. cbn [mbind outcome_bind]. rewrite aget_arr by lia. cbn [mbind outcome_bind].
    rewrite aset_arr by lia. cbn [mbind outcome_bind].
    destruct (Z.ltb_spec i i); [lia|]. destruct (Z.ltb_spec (i - 1) i); [|lia].
    rewrite <- (IH (i + 1)) by lia. f_equal. apply arr_ext. intros j Hj. unfold upd.
    destruct (Z.eqb_spec j i) as [->|].
    + destruct (Z.ltb_spec i (i + 1)); [|lia]. pose proof (below_succ (i - 1) es).
      replace (i - 1 + 1) with i in * by lia. lia.
    + destruct (Z.ltb_spec j i), (Z.ltb_spec j (i + 1)); done || lia.
Qed.

(** The entries of the adjacency array after the edges [done]. *)
Definition filled (es done : list (Z * Z)) (fd : Z → Z) : Prop :=
  ∀ v (k : nat) x, children v done !! k = Some x → fd (below v es + Z.of_nat k) = x.

Lemma children_snoc v es d i :
  children v (es ++ [(d, i)]) = if decide (d = v) then children v es ++ [i] else children v es.
Proof.
  unfold children. rewrite filter_app, fmap_app, filter_cons. cbn [fst].
  destruct (decide (d = v)); [done|]. by rewrite app_nil_r.
Qed.

Lemma filled_step es pre d i post fd :
  es = pre ++ (d, i) :: post →
  filled es pre fd → filled es (pre ++ [(d, i)]) (upd fd (below d es + cnt d pre) i).
Proof.
  intros -> Hf v k x. rewrite children_snoc. unfold upd. set (es := pre ++ (d, i) :: post) in *.
  assert (Hc : ∀ w, cnt w pre + (if d =? w then 1 else 0) ≤ cnt w es).
  { intros w. unfold es. rewrite cnt_app, cnt_cons. pose proof (cnt_nonneg w post). cbn [fst]. lia. }
  pose proof (children_length v pre) as Hlen. pose proof (Hc v) as Hv. pose proof (Hc d) as Hd.
  rewrite Z.eqb_refl in Hd. pose proof (below_succ v es) as Bv. pose proof (below_succ d es) as Bd.
  case_decide as Hdv; intros Hk.
  - subst v. apply lookup_app_Some in Hk as [Hk|[Hge Hk]].
    + pose proof (lookup_lt_Some _ _ _ Hk). destruct (Z.eqb_spec (below d es + Z.of_nat k) (below d es + cnt d pre)); [lia|].
      by apply Hf.
    + apply list_lookup_singleton_Some in Hk as [Hk <-].
      destruct (Z.eqb_spec (below d es + Z.of_nat k) (below d es + cnt d pre)); [done|lia].
  - pose proof (lookup_lt_Some _ _ _ Hk). rewrite (Hf v k x Hk).
    destruct (Z.eqb_spec (below v es + Z.of_nat k) (below d es + cnt d pre)) as [E|]; [|done].
    destruct (Z.eqb_spec d v); [done|]. destruct (Z.lt_ge_cases v d).
    + pose proof (below_mono (v + 1) d es). pose proof (cnt_nonneg d pre). lia.
    + pose proof (below_mono (d + 1) v es). lia.
Qed.

Lemma fill_deps_ok n es i deps pre post fd :
  es = pre ++ ((λ d, (d, i)) <$> deps) ++ post → Forall (λ e, 0 ≤ e.1 < Z.of_nat n) es →
  filled es pre fd →
  ∃ fd', fill_deps i deps (arr n (λ v, below v es + cnt v pre)) (arr (length es) fd) =
           Ok (arr n (λ v, below v es + cnt v (pre ++ ((λ d, (d, i)) <$> deps))), arr (length es) fd')
         ∧ filled es (pre ++ ((λ d, (d, i)) <$> deps)) fd'.
Proof.
  revert pre fd. induction deps as [|d r IH]; intros pre fd He Hv Hf; cbn [fill_deps].
  - exists fd. by rewrite app_nil_r.
  - rewrite fmap_cons in *.
    assert (Hd : 0 ≤ d < Z.of_nat n).
    { rewrite He, !Forall_app, Forall_cons in Hv. cbn in Hv. tauto. }
    rewrite !aget_arr by lia. cbn [mbind outcome_bind].
    assert (Hc : cnt d pre + 1 ≤ cnt d es).
    { rewrite He, cnt_app, cnt_app, cnt_cons. cbn [fst]. rewrite Z.eqb_refl.
      pose proof (cnt_nonneg d ((λ d, (d, i)) <$> r)). pose proof (cnt_nonneg d post). lia. }
    pose proof (below_succ d es). pose proof (below_le (d + 1) es). pose proof (below_le d es).
    pose proof (cnt_nonneg d pre).
    rewrite !aset_arr by lia. cbn [mbind outcome_bind].
    rewrite (arr_ext n _ (λ v, below v es + cnt v (pre ++ [(d, i)]))).
    + replace (pre ++ (d, i) :: ((λ d, (d, i)) <$> r)) with ((pre ++ [(d, i)]) ++ ((λ d, (d, i)) <$> r))
        by by rewrite <- app_assoc.
      apply IH; [by rewrite <- !app_assoc|done|]. eapply filled_step; [|done]. exact He.
    + intros j Hj. unfold upd. rewrite cnt_app, cnt_cons. cbn [fst]. change (cnt j []) with 0.
      destruct (Z.eqb_spec j d), (Z.eqb_spec d j); try lia. subst j. lia.
Qed.

Lemma fill_pass_ok n es i g pre fd :
  es = pre ++ edges i g → Forall (λ e, 0 ≤ e.1 < Z.of_nat n) es → filled es pre fd →
  ∃ c fd', fill_pass i g (arr n (λ v, below v es + cnt v pre)) (arr (length es) fd) =
             Ok (c, arr (length es) fd') ∧ filled es es fd'.
Proof.
  revert i pre fd. induction g as [|deps g IH]; intros i pre fd He Hv Hf; cbn [fill_pass edges] in *.
  - rewrite app_nil_r in He. subst pre. by do 2 eexists.
  - destruct (fill_deps_ok n es i deps pre (edges (i + 1) g) fd He Hv Hf) as (fd' & -> & Hf').
    cbn [mbind outcome_bind]. apply IH; [by rewrite <- app_assoc|done|done].
Qed.

(** ** The main loop *)

(** The dependencies of [i] outside [D]. *)
Definition pend (g : graph) (i : Z) (D : list Z) : nat := length (filter (λ d, d ∉ D) (row g i)).

Lemma pend_snoc g i D v : v ∉ D → pend g i D = (pend g i (D ++ [v]) + occ v (row g i))%nat.
Proof.
  intros Hv. unfold pend. induction (row g i) as [|d r IH]; [done|].
  rewrite !filter_cons, occ_cons. destruct (decide (d = v)) as [->|Hd].
  - rewrite decide_True by done. rewrite decide_False by (intros H; apply H; set_solver).
    cbn [length]. lia.
  - destruct (decide (d ∈ D)).
    + rewrite !decide_False by set_solver. lia.
    + rewrite !decide_True by set_solver. cbn [length]. lia.
Qed.

Lemma pend_zero g i D dep : pend g i D = 0%nat → dep ∈ row g i → dep ∈ D.
Proof.
  intros Hp Hd. destruct (decide (dep ∈ D)) as [|Hn]; [done|].
  assert (dep ∈ filter (λ d, d ∉ D) (row g i)) as Hf by by apply list_elem_of_filter.
  unfold pend in Hp. apply nil_length_inv in Hp. rewrite Hp in Hf. by apply not_elem_of_nil in Hf.
Qed.

Lemma pend_all g i D : (∀ dep, dep ∈ row g i → dep ∈ D) → pend g i D = 0%nat.
Proof.
  intros H. unfold pend. destruct (filter _ _) as [|x l] eqn:E; [done|].
  assert (x ∈ filter (λ d, d ∉ D) (row g i)) as Hx by (rewrite E; left).
  apply list_elem_of_filter in Hx as [Hx1 Hx2]. by apply H in Hx2.
Qed.

(** [D] are the nodes taken from the queue, [rest] the edges of the last one
    still to be removed. *)
Record kinv (g : graph) (D rest queue : list Z) (deg : Z → Z) : Prop := {
  ki_deg : ∀ i, 0 ≤ i < Zlen g → deg i = Z.of_nat (pend g i D + occ i rest);
  ki_nodup : NoDup queue;
  ki_range : Forall (λ i, 0 ≤ i < Zlen g) queue;
  ki_zero : ∀ i, 0 ≤ i < Zlen g → i ∈ queue ↔ deg i = 0;
  ki_order : ∀ k i dep, queue !! k = Some i → dep ∈ row g i → ∃ k', queue !! k' = Some dep ∧ (k' < k)%nat;
  ki_prefix : D `prefix_of` queue }.

Lemma range_length n (l : list Z) :
  NoDup l → Forall (λ i, 0 ≤ i < Z.of_nat n) l → (length l ≤ n)%nat.
Proof.
  intros Hn Hr. transitivity (length (Z.of_nat <$> seq 0 n)); [|by rewrite length_fmap, length_seq].
  apply submseteq_length, NoDup_submseteq; [done|]. intros x Hx. rewrite Forall_forall in Hr.
  specialize (Hr x Hx). apply list_elem_of_fmap. exists (Z.to_nat x). rewrite elem_of_seq. lia.
Qed.

Lemma kinv_visit g D nxt rest queue deg :
  0 ≤ nxt < Zlen g → kinv g D (nxt :: rest) queue deg →
  kinv g D rest (if deg nxt - 1 =? 0 then queue ++ [nxt] else queue) (upd deg nxt (deg nxt - 1)).
Proof.
  intros Hx [H1 H2 H3 H4 H5 H6].
  pose proof (H1 nxt Hx) as Hd. rewrite occ_cons in Hd.
  destruct (decide (nxt = nxt)) as [_|]; [|done].
  assert (Hq : nxt ∉ queue). { intros Hin. apply H4 in Hin; [lia|done]. }
  assert (Hdeg : ∀ i, 0 ≤ i < Zlen g → upd deg nxt (deg nxt - 1) i = Z.of_nat (pend g i D + occ i rest)).
  { intros i Hi. unfold upd. destruct (Z.eqb_spec i nxt) as [->|Hne]; [lia|].
    rewrite H1, occ_cons by done. destruct (decide (nxt = i)); [congruence|lia]. }
  destruct (Z.eqb_spec (deg nxt - 1) 0) as [E|E].
  - split; [done| | | | |].
    + apply NoDup_app. split_and!; [done| |apply NoDup_singleton]. intros x Hin Hx2.
      apply list_elem_of_singleton in Hx2. by subst.
    + apply Forall_app. by split; [|constructor].
    + intros i Hi. unfold upd. rewrite elem_of_app, list_elem_of_singleton.
      destruct (Z.eqb_spec i nxt) as [->|Hne]; [rewrite E; tauto|]. rewrite <- H4 by done. tauto.
    + intros k i dep Hk Hdep. apply lookup_app_Some in Hk as [Hk|[Hge Hk]].
      * destruct (H5 k i dep Hk Hdep) as (k' & Hk' & ?). exists k'. split; [by apply lookup_app_l_Some|done].
      * apply list_lookup_singleton_Some in Hk as [Hk <-].
        assert (pend g nxt D = 0%nat) as Hp by lia. pose proof (pend_zero _ _ _ _ Hp Hdep) as HD.
        apply list_elem_of_lookup in HD as [k' Hk']. destruct H6 as [y ->].
        exists k'. pose proof (lookup_lt_Some _ _ _ Hk'). rewrite length_app in Hge.
        split; [by apply lookup_app_l_Some, lookup_app_l_Some|lia].
    + destruct H6 as [y ->]. exists (y ++ [nxt]). by rewrite app_assoc.
  - split; try done. intros i Hi. unfold upd. destruct (Z.eqb_spec i nxt) as [->|Hne]; [|by apply H4].
    split; [done|lia].
Qed.

Lemma visit_ok g D v es fd t rest queue deg :
  es = edges 0 g → filled es es fd → rest = drop t (children v es) →
  0 ≤ v < Zlen g → kinv g D rest queue deg →
  ∃ deg' queue', visit (length rest) (below v es + Z.of_nat t) (arr (length es) fd) (arr (length g) deg) queue
      = Ok (arr (length g) deg', queue') ∧ kinv g D [] queue' deg' ∧ queue `prefix_of` queue'.
Proof.
  intros He Hf. revert t queue deg. induction rest as [|nxt rest IH]; intros t queue deg Hr Hv Hk; cbn [length visit].
  - by exists deg, queue.
  - assert (Ht : children v es !! t = Some nxt).
    { rewrite <- (Nat.add_0_r t), <- lookup_drop, <- Hr. done. }
    assert (Hx : 0 ≤ nxt < Zlen g).
    { pose proof (edges_snd 0 g) as Hs. rewrite Forall_forall in Hs. apply list_elem_of_lookup_2 in Ht.
      unfold children in Ht. apply list_elem_of_fmap in Ht as (e & -> & Hin).
      apply list_elem_of_filter in Hin as [_ Hin]. rewrite He in Hin. specialize (Hs e Hin). lia. }
    pose proof (lookup_lt_Some _ _ _ Ht) as Hlt. pose proof (children_length v es).
    pose proof (below_succ v es). pose proof (below_le (v + 1) es). pose proof (below_le v es).
    rewrite aget_arr by lia. cbn [mbind outcome_bind]. rewrite (Hf v t nxt Ht).
    rewrite aget_arr by lia. cbn [mbind outcome_bind]. rewrite aset_arr by lia. cbn [mbind outcome_bind].
    replace (below v es + Z.of_nat t + 1) with (below v es + Z.of_nat (S t)) by lia.
    pose proof (kinv_visit _ _ _ _ _ _ Hx Hk) as Hk'.
    destruct (IH (S t) _ _ ltac:(rewrite <- Nat.add_1_r, <- drop_drop, <- Hr; done) Hv Hk') as (deg' & q' & -> & ? & Hp).
    exists deg', q'. split_and!; [done|done|]. etrans; [|exact Hp]. case_match; [by eexists|done].
Qed.

Lemma kinv_pop g D v queue deg :
  queue !! length D = Some v → kinv g D [] queue deg →
  kinv g (D ++ [v]) (children v (edges 0 g)) queue deg.
Proof.
  intros Hv [H1 H2 H3 H4 H5 H6].
  assert (Hq : v ∉ D).
  { intros Hin. apply list_elem_of_lookup in Hin as [k Hk]. destruct H6 as [y ->].
    pose proof (lookup_lt_Some _ _ _ Hk). apply (lookup_app_l_Some _ y) in Hk.
    pose proof (NoDup_lookup _ _ _ _ H2 Hv Hk). lia. }
  split; try done.
  - intros i Hi. rewrite H1 by done. f_equal. rewrite (pend_snoc _ _ _ v) by done.
    rewrite occ_children, Z.sub_0_r. cbn. lia.
  - destruct H6 as [y ->]. rewrite lookup_app_r, Nat.sub_diag in Hv by lia.
    destruct y as [|w y]; [done|]. injection Hv as ->. exists y. by rewrite <- app_assoc.
Qed.

Lemma kahn_ok g fd fuel D queue deg :
  filled (edges 0 g) (edges 0 g) fd → kinv g D [] queue deg → (fuel + length D = length g)%nat →
  ∃ order deg', kahn fuel (length D) (arr (S (length g)) (λ j, below j (edges 0 g)))
      (arr (length (edges 0 g)) fd) (arr (length g) deg) queue D = Ok order
    ∧ kinv g order [] order deg'.
Proof.
  intros Hf. revert D queue deg. induction fuel as [|f IH]; intros D queue deg Hk Hl; cbn [kahn];
    destruct (queue !! length D) as [v|] eqn:Hv.
  - pose proof (range_length _ _ (ki_nodup _ _ _ _ _ Hk) (ki_range _ _ _ _ _ Hk)).
    apply lookup_lt_Some in Hv. lia.
  - apply lookup_ge_None in Hv. pose proof (ki_prefix _ _ _ _ _ Hk) as [y Hy].
    assert (y = []) as -> by (destruct y; [done|rewrite Hy, length_app in Hv; cbn in Hv; lia]).
    rewrite app_nil_r in Hy. subst queue. eauto.
  - assert (Hr : 0 ≤ v < Zlen g).
    { pose proof (ki_range _ _ _ _ _ Hk) as Hr. rewrite Forall_forall in Hr. apply Hr.
      by eapply list_elem_of_lookup_2. }
    rewrite !aget_arr by lia. cbn [mbind outcome_bind].
    pose proof (below_succ v (edges 0 g)) as Hb. rewrite Hb.
    replace (Z.to_nat _) with (length (children v (edges 0 g))) by (pose proof (children_length v (edges 0 g)); lia).
    destruct (visit_ok g (D ++ [v]) v (edges 0 g) fd 0 (children v (edges 0 g)) queue deg eq_refl Hf eq_refl Hr)
      as (deg' & q' & Hvis & Hk' & Hp).
    { by apply kinv_pop. }
    rewrite Z.add_0_r in Hvis. rewrite Hvis. cbn [mbind outcome_bind].
    replace (S (length D)) with (length (D ++ [v])) by (rewrite length_app; cbn; lia).
    apply IH; [done|]. rewrite length_app. cbn. lia.
  - apply lookup_ge_None in Hv. pose proof (ki_prefix _ _ _ _ _ Hk) as [y Hy].
    assert (y = []) as -> by (destruct y; [done|rewrite Hy, length_app in Hv; cbn in Hv; lia]).
    rewrite app_nil_r in Hy. subst queue. eauto.
Qed.

(** ** Correctness *)

Lemma roots_filter f s k :
  roots (Z.of_nat s) (f <$> (Z.of_nat <$> seq s k)) = filter (λ i, f i = 0) (Z.of_nat <$> seq s k).
Proof.
  revert s. induction k as [|k IH]; intros s; [done|]. cbn [seq]. rewrite !fmap_cons, filter_cons. cbn [roots].
  replace (Z.of_nat s + 1) with (Z.of_nat (S s)) by lia. rewrite IH.
  destruct (Z.eqb_spec (f (Z.of_nat s)) 0), (decide (f (Z.of_nat s) = 0)); done.
Qed.

Lemma elem_of_nodes x n : x ∈ (Z.of_nat <$> seq 0 n) ↔ 0 ≤ x < Z.of_nat n.
Proof.
  rewrite list_elem_of_fmap. split.
  - intros (y & -> & Hy). apply elem_of_seq in Hy. lia.
  - intros Hx. exists (Z.to_nat x). rewrite elem_of_seq. lia.
Qed.

Lemma nodup_nodes n : NoDup (Z.of_nat <$> seq 0 n).
Proof. apply NoDup_fmap_2; [intros ???; lia|]. apply NoDup_ListNoDup, List.seq_NoDup. Qed.

Lemma kinv_init g :
  kinv g [] [] (roots 0 (arr (length g) (λ j, Zlen (row g j)))) (λ j, Zlen (row g j)).
Proof.
  change 0 with (Z.of_nat 0) at 1. unfold arr. rewrite roots_filter.
  assert (Hp : ∀ i, pend g i [] = length (row g i)).
  { intros i. unfold pend. f_equal. apply filter_all, Forall_true. intros x. apply not_elem_of_nil. }
  split.
  - intros i Hi. rewrite Hp. cbn. lia.
  - apply NoDup_filter, nodup_nodes.
  - apply Forall_forall. intros x Hx. apply list_elem_of_filter in Hx as [_ Hx]. by apply elem_of_nodes in Hx.
  - intros i Hi. rewrite list_elem_of_filter, elem_of_nodes. tauto.
  - intros k i dep Hk Hdep. apply list_elem_of_lookup_2, list_elem_of_filter in Hk as [Hz _].
    destruct (row g i); [by apply not_elem_of_nil in Hdep|cbn in Hz; lia].
  - apply prefix_nil.
Qed.

(** A set that contains each node whose dependencies it contains contains all
    the nodes of a graph that has a topological order. *)
Lemma closed_all g order (q : list Z) :
  is_topo g order → (∀ i, 0 ≤ i < Zlen g → pend g i q = 0%nat → i ∈ q) →
  ∀ i, 0 ≤ i < Zlen g → i ∈ q.
Proof.
  intros [Hp Hb] Hc.
  assert (Hall : ∀ k i, order !! k = Some i → i ∈ q).
  { intros k. induction (lt_wf k) as [k _ IH]. intros i Hi.
    assert (Hr : 0 ≤ i < Zlen g) by (apply elem_of_nodes; rewrite <- Hp; by eapply list_elem_of_lookup_2).
    apply Hc; [done|]. apply pend_all. intros dep Hdep. unfold row in Hdep.
    destruct (Z.ltb_spec i 0); [lia|]. destruct (g !! Z.to_nat i) as [deps|] eqn:Hg; [|by apply not_elem_of_nil in Hdep].
    cbn in Hdep. destruct (Hb _ _ _ Hg Hdep) as (a & b & Ha & Hb' & Hab).
    rewrite Z2Nat.id in Hb' by lia.
    assert (NoDup order) as Hnd by (rewrite Hp; apply nodup_nodes).
    pose proof (NoDup_lookup _ _ _ _ Hnd Hi Hb'). subst b. by apply (IH a). }
  intros i Hi. apply elem_of_nodes in Hi. rewrite <- Hp in Hi.
  apply list_elem_of_lookup in Hi as [k Hk]. by eapply Hall.
Qed.

Lemma no_order g order q deg :
  kinv g q [] q deg → is_topo g order → length q = length g.
Proof.
  intros Hk Ht. apply Nat.le_antisymm; [apply (range_length (length g)); apply Hk|].
  transitivity (length (Z.of_nat <$> seq 0 (length g))); [by rewrite length_fmap, length_seq|].
  apply submseteq_length, NoDup_submseteq; [apply nodup_nodes|].
  intros x Hx. apply elem_of_nodes in Hx. revert x Hx. apply (closed_all _ _ _ Ht).
  intros i Hi Hpd. apply (ki_zero _ _ _ _ _ Hk i Hi). rewrite (ki_deg _ _ _ _ _ Hk i Hi), Hpd. done.
Qed.

(** Nodes listed after all their dependencies are in topological order. *)
Lemma topo_of_order g order :
  NoDup order → Forall (λ i, 0 ≤ i < Zlen g) order → length order = length g →
  (∀ k i dep, order !! k = Some i → dep ∈ row g i → ∃ k', order !! k' = Some dep ∧ (k' < k)%nat) →
  is_topo g order.
Proof.
  intros Hn Hr Hl Ho.
  assert (Hp : order ≡ₚ (Z.of_nat <$> seq 0 (length g))).
  { apply submseteq_length_Permutation; [|rewrite length_fmap, length_seq; lia].
    apply NoDup_submseteq; [done|]. intros x Hx. apply elem_of_nodes. rewrite Forall_forall in Hr. by apply Hr. }
  split; [done|]. intros i deps dep Hg Hdep.
  assert (Hin : Z.of_nat i ∈ order).
  { rewrite Hp. apply elem_of_nodes. apply lookup_lt_Some in Hg. lia. }
  apply list_elem_of_lookup in Hin as [k Hki]. destruct (Ho k (Z.of_nat i) dep Hki) as (k' & Hk' & ?).
  - unfold row. destruct (Z.ltb_spec (Z.of_nat i) 0); [lia|]. by rewrite Nat2Z.id, Hg.
  - by exists k', k.
Qed.

Lemma kinv_topo g order deg : kinv g order [] order deg → length order = length g → is_topo g order.
Proof. intros Hk Hl. apply topo_of_order; [apply Hk|apply Hk|done|apply Hk]. Qed.

Lemma adjacency_ok g index data :
  valid_graph g → index = arr (S (length g)) (λ j, cnt (j - 1) (edges 0 g)) →
  length data = total_edges g →
  ∃ c fd, prefix_sums (length g) 1 index = Ok (arr (S (length g)) (λ j, below j (edges 0 g)))
    ∧ fill_pass 0 g (take (length g) (arr (S (length g)) (λ j, below j (edges 0 g)))) data
        = Ok (c, arr (length (edges 0 g)) fd)
    ∧ filled (edges 0 g) (edges 0 g) fd.
Proof.
  intros Hv -> Hd. set (es := edges 0 g).
  pose proof (edges_valid 0 g _ Hv) as Hev. fold es in Hev.
  rewrite (arr_of data), Hd, <- (edges_length 0 g). fold es. rewrite arr_take by lia.
  destruct (fill_pass_ok (length g) es 0 g [] (λ i, default 0 (data !! Z.to_nat i))) as (c & fd & Hfill & Hf).
  - done.
  - done.
  - intros v k x Hk. done.
  - rewrite (arr_ext _ _ (λ v, below v es)) in Hfill by (intros i _; change (cnt i []) with 0; lia).
    exists c, fd. split_and!; [|exact Hfill|exact Hf]. rewrite <- (prefix_sums_ok (length g) (length g) 1 es) by lia.
    f_equal. apply arr_ext. intros j Hj. destruct (Z.ltb_spec j 1); [|done].
    assert (j = 0) as -> by lia. rewrite below_zero; [|eapply Forall_impl; [exact Hev|]; cbn; lia].
    unfold cnt. rewrite filter_none; [done|]. eapply Forall_impl; [exact Hev|]. cbn. lia.
Qed.

Lemma topoSort_correct old g :
  match topoSort old g with
  | Ok order => is_topo g order
  | Err e => (e = errInvalidDependency ∧ ¬ valid_graph g) ∨
             (e = errDependencyCycle ∧ valid_graph g ∧ ∀ order, ¬ is_topo g order)
  | Panic | Diverge => False
  end.
Proof.
  unfold topoSort. cbv zeta. destruct (Nat.eqb_spec (length g) 0) as [E|E].
  { destruct g; [|done]. split; [done|]. intros i deps dep Hi. done. }
  rewrite arr_replicate, (arr_of (resize (length g) 0 (inDegree old))), length_resize.
  destruct (decide (valid_graph g)) as [Hv|Hv]; cycle 1.
  { rewrite (count_pass_err (length g)) by (done || lia). by left. }
  rewrite (arr_ext (S (length g)) _ (λ j, cnt (j - 1) [])) by done.
  rewrite (count_pass_ok (length g) g 0 []) by (done || lia). cbn [mbind outcome_bind app].
  destruct (adjacency_ok g _ (resize (total_edges g) 0 (adjData old)) Hv eq_refl ltac:(by rewrite length_resize))
    as (c & fd & -> & Hfill & Hf). cbn [mbind outcome_bind]. rewrite Hfill. cbn [mbind outcome_bind].
  rewrite (arr_ext _ _ (λ j, Zlen (row g j))); cycle 1.
  { intros j Hj. rewrite Z.sub_0_r. destruct (Z.leb_spec 0 j), (Z.ltb_spec j (0 + Zlen g)); cbn; done || lia. }
  pose proof (kinv_init g) as Hi.
  destruct (nilb (roots _ _)) eqn:En.
  { right. split_and!; [done|done|]. intros order Ho.
    destruct (roots _ _); [|done]. pose proof (no_order _ _ _ _ Hi Ho) as Hl. cbn in Hl. lia. }
  destruct (kahn_ok g fd (length g) [] _ _ Hf Hi (Nat.add_0_r _)) as (order & deg' & Hk & Hinv).
  cbn [length] in Hk. rewrite Hk. cbn [mbind outcome_bind].
  destruct (Nat.eqb_spec (length order) (length g)) as [Hl|Hl]; cbn [negb].
  - by eapply kinv_topo.
  - right. split_and!; [done|done|]. intros o Ho. by apply Hl, (no_order g o order deg').
Qed.

(** ** The remapped graph *)

Lemma positions_ok n order i f :
  NoDup order → Forall (λ v, 0 ≤ v < Z.of_nat n) order →
  ∃ f', positions i order (arr n f) = Ok (arr n f')
    ∧ (∀ (k : nat) v, order !! k = Some v → f' v = i + Z.of_nat k) ∧ (∀ v, v ∉ order → f' v = f v).
Proof.
  revert i f. induction order as [|s r IH]; intros i f Hn Hr; cbn [positions].
  - exists f. done.
  - apply NoDup_cons in Hn as [Hs Hn]. apply Forall_cons in Hr as [Hs2 Hr].
    rewrite aset_arr by done. cbn [mbind outcome_bind].
    destruct (IH (i + 1) (upd f s i) Hn Hr) as (f' & -> & H1 & H2). exists f'. split_and!; [done| |].
    + intros [|k] v Hk; cbn in Hk.
      * injection Hk as <-. rewrite H2 by done. unfold upd. rewrite Z.eqb_refl. lia.
      * rewrite (H1 k v Hk). lia.
    + intros v Hv. apply not_elem_of_cons in Hv as [Hv1 Hv2]. rewrite H2 by done. unfold upd.
      by destruct (Z.eqb_spec v s).
Qed.

Lemma mapM_get_ok n f deps :
  Forall (λ v, 0 ≤ v < Z.of_nat n) deps → mapM_get (arr n f) deps = Ok (f <$> deps).
Proof.
  induction 1 as [|d r Hd Hr IH]; cbn [mapM_get]; [done|].
  rewrite aget_arr, IH by done. done.
Qed.

Definition sort_row (l : list Z) : list Z := if (1 <? length l)%nat then sort_ints l else l.

Lemma sort_row_perm l : sort_row l ≡ₚ l.
Proof. unfold sort_row. case_match; [apply merge_sort_Permutation|done]. Qed.

Lemma sort_row_sorted l : StronglySorted Z.le (sort_row l).
Proof.
  unfold sort_row. destruct (Nat.ltb_spec 1 (length l)) as [H|H].
  - apply StronglySorted_merge_sort; apply _.
  - destruct l as [|x [|y l]]; [repeat constructor..|cbn in H; lia].
Qed.

Lemma remap_rows_ok g n f order :
  n = length g → Forall (λ v, 0 ≤ v < Z.of_nat n) order → valid_graph g →
  remap_rows (arr n f) order g = Ok ((λ s, sort_row (f <$> row g s)) <$> order).
Proof.
  intros -> Ho Hv. induction Ho as [|s r Hs Hr IH]; cbn [remap_rows]; [done|].
  unfold aget. destruct (Z.ltb_spec s 0); [lia|].
  destruct (lookup_lt_is_Some_2 g (Z.to_nat s)) as [deps Hd]; [lia|]. rewrite Hd. cbn [mbind outcome_bind].
  unfold valid_graph in Hv. rewrite Forall_lookup in Hv.
  rewrite (mapM_get_ok (length g)) by (by eapply Hv). cbn [mbind outcome_bind]. rewrite IH.
  cbn [mbind outcome_bind]. rewrite fmap_cons. unfold sort_row, row.
  destruct (Z.ltb_spec s 0); [lia|]. by rewrite Hd.
Qed.

Lemma topo_valid g order : is_topo g order → valid_graph g.
Proof.
  intros [Hp Hb]. apply Forall_lookup. intros i deps Hi. apply Forall_forall. intros d Hd.
  destruct (Hb _ _ _ Hi Hd) as (a & b & Ha & _ & _). apply elem_of_nodes. rewrite <- Hp.
  by eapply list_elem_of_lookup_2.
Qed.

(** Row [i] of the result is the sorted list of the positions, all below [i],
    of the dependencies of the node at position [i]. *)
Definition remapped (g : graph) (order : list Z) (rows : graph) : Prop :=
  length rows = length g ∧
  ∀ (i : nat) r, rows !! i = Some r →
    StronglySorted Z.le r ∧ Forall (λ p, 0 ≤ p < Z.of_nat i) r ∧
    ∃ src deps, order !! i = Some src ∧ g !! Z.to_nat src = Some deps ∧
      ((λ p, order !! Z.to_nat p) <$> r) ≡ₚ (Some <$> deps).

Lemma remap_correct g order :
  is_topo g order → ∃ rows, remapDependencies order g = Ok rows ∧ remapped g order rows.
Proof.
  intros Ht. pose proof (topo_valid _ _ Ht) as Hv. destruct Ht as [Hp Hb].
  assert (Hnd : NoDup order) by (rewrite Hp; apply nodup_nodes).
  assert (Hr : Forall (λ v, 0 ≤ v < Zlen g) order).
  { apply Forall_forall. intros x Hx. rewrite Hp in Hx. by apply elem_of_nodes in Hx. }
  assert (Hl : length order = length g) by (by rewrite Hp, length_fmap, length_seq).
  unfold remapDependencies. rewrite arr_replicate, Hl.
  destruct (positions_ok (length g) order 0 (λ _, 0) Hnd Hr) as (f & -> & Hf & _). cbn [mbind outcome_bind].
  rewrite remap_rows_ok by done. eexists. split; [done|]. split; [by rewrite length_fmap|].
  intros i r Hi. rewrite list_lookup_fmap in Hi. destruct (order !! i) as [s|] eqn:Hs; [|done].
  injection Hi as <-.
  assert (Hsr : 0 ≤ s < Zlen g) by (rewrite Forall_lookup in Hr; by eapply Hr).
  destruct (lookup_lt_is_Some_2 g (Z.to_nat s)) as [deps Hd]; [lia|].
  assert (row g s = deps) as -> by (unfold row; destruct (Z.ltb_spec s 0); [lia|by rewrite Hd]).
  assert (Hpos : ∀ d, d ∈ deps → ∃ k : nat, f d = Z.of_nat k ∧ (k < i)%nat ∧ order !! k = Some d).
  { intros d Hdd. destruct (Hb _ _ _ Hd Hdd) as (a & b & Ha & Hb' & Hab). rewrite Z2Nat.id in Hb' by lia.
    pose proof (NoDup_lookup _ _ _ _ Hnd Hs Hb'). subst b. exists a. rewrite (Hf a d Ha). split_and!; [lia|done|done]. }
  split_and!; [apply sort_row_sorted| |].
  - rewrite sort_row_perm. apply Forall_fmap, Forall_forall. intros d Hdd. cbn.
    destruct (Hpos d Hdd) as (k & -> & ? & _). lia.
  - exists s, deps. split_and!; [done|done|]. rewrite sort_row_perm, <- list_fmap_compose.
    assert (((λ p, order !! Z.to_nat p) ∘ f) <$> deps = Some <$> deps) as ->; [|done].
    apply list_fmap_ext. intros j d Hj. unfold compose.
    destruct (Hpos d (list_elem_of_lookup_2 _ _ _ Hj)) as (k & -> & _ & Hk). by rewrite Nat2Z.id.
Qed.

(** ** Properties *)

(** C3 topoSort never panics and never loops: it returns an order of all nodes
    with each after its dependencies; or the invalid-dependency error exactly
    when some dependency is not a node; or the cycle error exactly when the graph
    is valid and has no such order; whatever the pooled arrays held. *)
Theorem topoSort_decides old g :
  match topoSort old g with
  | Ok order => is_topo g order
  | Err e => (e = errInvalidDependency ∧ ¬ valid_graph g) ∨
             (e = errDependencyCycle ∧ valid_graph g ∧ ∀ order, ¬ is_topo g order)
  | Panic | Diverge => False
  end.
Proof. apply topoSort_correct. Qed.

(** Remapping a graph along a topological order succeeds; row i of the result
    lists, in ascending order and all below i, the positions of the dependencies
    of the node at position i. *)
Theorem remapDependencies_correct g order :
  is_topo g order → ∃ rows, remapDependencies order g = Ok rows ∧ remapped g order rows.
Proof. apply remap_correct. Qed.

Theorem remapDependencies_correct_witness :
  ∃ rows, remapDependencies [2; 1; 0; 3] [[1; 2]; [2]; []; [0]] = Ok rows ∧
          remapped [[1; 2]; [2]; []; [0]] [2; 1; 0; 3] rows.
Proof.
  apply (remapDependencies_correct [[1; 2]; [2]; []; [0]] [2; 1; 0; 3]).
  pose proof (topoSort_correct (Scratch [] [] [] []) [[1; 2]; [2]; []; [0]]) as H. exact H.
Defined.
