(* ===== verification/DagBuild.v ===== *)
(** * The concurrent build

    Models runDAGBuild of internal/builder/graph.go as a step relation.  A task
    is the closure submitted to the pool (or run by the caller when the pool
    refuses it: the same steps, less interleaved); each step is one section of
    the code between two points where another task can act: the main loop's
    test, the call of buildOne, each section under the mutex, and the
    test-and-set of the scheduled bitmap.  Arrays of length n are functions of
    the index. *)
From stdpp Require Import functions.
From S2P Require Import Prelude Topo.

(** The state of one task: not scheduled; started, buildOne not returned; the
    release loop with the children it has still to look at; about to schedule a
    child; returned. *)
Inductive phase :=
  | Idle
  | Running
  | Releasing (l : list nat)
  | Scheduling (c : nat) (l : list nat)
  | Finished.

#[export] Instance phase_eq_dec : EqDecision phase.
Proof. solve_decision. Defined.

Record dag := Dag {
  d_main : nat;
  d_pending : nat → Z;
  d_scheduled : nat → bool;
  d_phase : nat → phase;
  d_completed : Z;
  d_err : option string;
  d_built : list nat }.

(** dependents[dep], in the order the set-up loop appends to it. *)
Fixpoint dependents_from (i : nat) (g : graph) (dep : nat) : list nat :=
  match g with
  | [] => []
  | deps :: r => replicate (occ (Z.of_nat dep) deps) i ++ dependents_from (S i) r dep
  end.
Definition dependents (g : graph) : nat → list nat := dependents_from 0 g.

(** The checks of the set-up loop. *)
Fixpoint setup_ok (n : nat) (g : graph) : bool :=
  match g with
  | [] => true
  | deps :: r =>
      (length deps <=? n)%nat && forallb (λ d, (0 <=? d) && (d <? Z.of_nat n)) deps && setup_ok n r
  end.

Definition init_dag (n : nat) (g : graph) : outcome dag :=
  if (n =? 0)%nat then Ok (Dag 0 (λ _, 0) (λ _, false) (λ _, Idle) 0 None [])
  else if negb (length g =? n)%nat then Err errInvalidDependency
  else if setup_ok n g then
    Ok (Dag 0 (λ i, Zlen (row g (Z.of_nat i))) (λ _, false) (λ _, Idle) 0 None [])
  else Err errInvalidDependency.

(** schedule(idx): the test-and-set, then the task may run. *)
Definition schedule (i : nat) (s : dag) : dag :=
  if d_scheduled s i then s
  else Dag (d_main s) (d_pending s) (<[i := true]> (d_scheduled s)) (<[i := Running]> (d_phase s))
         (d_completed s) (d_err s) (d_built s).

Definition set_phase (i : nat) (p : phase) (s : dag) : dag :=
  Dag (d_main s) (d_pending s) (d_scheduled s) (<[i := p]> (d_phase s)) (d_completed s) (d_err s) (d_built s).

Definition set_pending (c : nat) (x : Z) (s : dag) : dag :=
  Dag (d_main s) (<[c := x]> (d_pending s)) (d_scheduled s) (d_phase s) (d_completed s) (d_err s) (d_built s).

Definition set_main (s : dag) : dag :=
  Dag (S (d_main s)) (d_pending s) (d_scheduled s) (d_phase s) (d_completed s) (d_err s) (d_built s).

(** The loop under the mutex that counts the children down. *)
Fixpoint release (l : list nat) (pending : nat → Z) : nat → Z :=
  match l with
  | [] => pending
  | c :: r =>
      let x := pending c - 1 in
      release r (<[c := if x =? 0 then -1 else x]> pending)
  end.

Definition record_err (e : string) (s : dag) : dag :=
  Dag (d_main s) (d_pending s) (d_scheduled s) (d_phase s) (d_completed s)
    (match d_err s with None => Some e | Some e' => Some e' end) (d_built s).

Definition complete (g : graph) (i : nat) (s : dag) : dag :=
  match d_err s with
  | None => Dag (d_main s) (release (dependents g i) (d_pending s)) (d_scheduled s) (d_phase s)
              (d_completed s + 1) None (d_built s ++ [i])
  | Some _ => s
  end.

Section run.
Context (n : nat) (g : graph) (buildOne : nat → option string).

(** The main loop reads pending without the lock: it may see the 0 that a
    finishing task is about to replace by -1. *)
Inductive step (s : dag) : dag → Prop :=
  | step_main_take : (d_main s < n)%nat → d_pending s (d_main s) ≤ 0 →
      step s (set_main (schedule (d_main s) s))
  | step_main_skip : (d_main s < n)%nat → d_pending s (d_main s) ≠ 0 → step s (set_main s)
  | step_fail i e : d_phase s i = Running → buildOne i = Some e →
      step s (set_phase i Finished (record_err e s))
  | step_ok i : d_phase s i = Running → buildOne i = None →
      step s (set_phase i (Releasing (dependents g i)) (complete g i s))
  | step_ready i c l : d_phase s i = Releasing (c :: l) → d_pending s c = -1 →
      step s (set_phase i (Scheduling c l) (set_pending c (-2) s))
  | step_not_ready i c l : d_phase s i = Releasing (c :: l) → d_pending s c ≠ -1 →
      step s (set_phase i (Releasing l) s)
  | step_schedule i c l : d_phase s i = Scheduling c l →
      step s (set_phase i (Releasing l) (schedule c s))
  | step_return i : d_phase s i = Releasing [] → step s (set_phase i Finished s).

(** wg.Wait returns: the main loop is over and no task is left. *)
Definition quiescent (s : dag) : Prop :=
  d_main s = n ∧ ∀ i, d_phase s i = Idle ∨ d_phase s i = Finished.

(** The value runDAGBuild returns. *)
Definition result (s : dag) : option string :=
  match d_err s with
  | Some e => Some e
  | None => if negb (d_completed s =? Z.of_nat n) then Some errDependencyCycle else None
  end.

Inductive reachable : dag → Prop :=
  | reach_init s : init_dag n g = Ok s → reachable s
  | reach_step s s' : reachable s → step s s' → reachable s'.
End run.

(** ** Counting down *)

Definition count (c : nat) (l : list nat) : nat := length (filter (λ x, x = c) l).

Lemma count_cons c x l : count c (x :: l) = ((if decide (x = c) then 1 else 0) + count c l)%nat.
Proof. unfold count. rewrite filter_cons. by case_decide. Qed.

Lemma count_app c a b : count c (a ++ b) = (count c a + count c b)%nat.
Proof. unfold count. by rewrite filter_app, length_app. Qed.

Lemma count_replicate c k i : count c (replicate k i) = if decide (i = c) then k else 0%nat.
Proof. induction k as [|k IH]; cbn [replicate]; [by case_decide|]. rewrite count_cons, IH. by case_decide. Qed.

Lemma count_in c l : (0 < count c l)%nat ↔ c ∈ l.
Proof.
  induction l as [|x l IH]; [cbn; split; [lia|by intros ?%not_elem_of_nil]|].
  rewrite count_cons, elem_of_cons. case_decide; [subst; split; [by left|lia]|].
  rewrite <- IH. split; [right; lia|intros [->|]; [done|lia]].
Qed.

Lemma count_dependents_from k g dep c :
  (k ≤ c)%nat →
  count c (dependents_from k g dep) = occ (Z.of_nat dep) (default [] (g !! (c - k)%nat)).
Proof.
  revert k. induction g as [|deps g IH]; intros k Hk; cbn [dependents_from]; [done|].
  rewrite count_app, count_replicate. case_decide as Hc.
  - subst c. rewrite Nat.sub_diag. change (default [] ((deps :: g) !! 0%nat)) with deps.
    destruct (count k (dependents_from (S k) g dep)) eqn:E; [lia|].
    assert (k ∈ dependents_from (S k) g dep) as Hin by (apply count_in; lia).
    exfalso. clear -Hin. assert (∀ j, k ∈ dependents_from j g dep → (j ≤ k)%nat) as H; [|apply H in Hin; lia].
    clear Hin. induction g as [|d g IH]; intros j; cbn; [by intros ?%not_elem_of_nil|].
    rewrite elem_of_app. intros [H%elem_of_replicate|H]; [lia|]. apply IH in H. lia.
  - rewrite IH by lia. replace (c - k)%nat with (S (c - S k)) by lia. done.
Qed.

Lemma count_dependents g dep c : count c (dependents g dep) = occ (Z.of_nat dep) (row g (Z.of_nat c)).
Proof.
  unfold dependents. rewrite count_dependents_from by lia. unfold row.
  destruct (Z.ltb_spec (Z.of_nat c) 0); [lia|]. by rewrite Nat2Z.id, Nat.sub_0_r.
Qed.

Lemma dependents_lt g dep c : c ∈ dependents g dep → (c < length g)%nat.
Proof.
  intros H%count_in. rewrite count_dependents in H. unfold row in H.
  destruct (Z.ltb_spec (Z.of_nat c) 0); [cbn in H; lia|]. rewrite Nat2Z.id in H.
  destruct (g !! c) eqn:E; [by eapply lookup_lt_Some|cbn in H; lia].
Qed.

Lemma release_spec l p c :
  Z.of_nat (count c l) ≤ p c ∨ count c l = 0%nat →
  release l p c = if decide (count c l = 0%nat) then p c
                  else if decide (p c = Z.of_nat (count c l)) then -1 else p c - Z.of_nat (count c l).
Proof.
  revert p. induction l as [|x l IH]; intros p H; cbn [release]; [done|]. cbv zeta.
  rewrite count_cons in *. destruct (decide (x = c)) as [->|Hx].
  - destruct H as [H|]; [|lia]. destruct (Z.eqb_spec (p c - 1) 0) as [E|E].
    + rewrite IH; [|right; lia]. rewrite fn_lookup_insert.
      rewrite decide_True, decide_False, decide_True by lia. done.
    + rewrite IH; [|left; rewrite fn_lookup_insert; lia]. rewrite fn_lookup_insert.
      repeat case_decide; lia.
  - rewrite IH; rewrite fn_lookup_insert_ne by done; done.
Qed.

(** ** The invariant *)

Section inv.
Context (n : nat) (g : graph) (buildOne : nat → option string).
Context (Hlen : length g = n).

Definition bz (s : dag) : list Z := Z.of_nat <$> d_built s.
Definition left_of (s : dag) (i : nat) : nat := pend g (Z.of_nat i) (bz s).

(** The task still looks at [c] in its release loop. *)
Definition will_check (s : dag) (c : nat) : Prop :=
  ∃ j l, (d_phase s j = Releasing l ∨ ∃ c', d_phase s j = Scheduling c' l) ∧ c ∈ l.
Definition will_schedule (s : dag) (c : nat) : Prop := ∃ j l, d_phase s j = Scheduling c l.

Record inv (s : dag) : Prop := {
  v_sched : ∀ i, d_scheduled s i = true ↔ d_phase s i ≠ Idle;
  v_range : ∀ i, d_scheduled s i = true → (i < n)%nat;
  v_pos : ∀ i, (i < n)%nat → (0 < left_of s i)%nat → d_pending s i = Z.of_nat (left_of s i);
  v_zero : ∀ i, (i < n)%nat → left_of s i = 0%nat →
             (d_pending s i = 0 ∧ row g (Z.of_nat i) = []) ∨ d_pending s i = -1 ∨ d_pending s i = -2;
  v_ready : ∀ i, d_scheduled s i = true → left_of s i = 0%nat;
  v_next : ∀ c, will_schedule s c → (c < n)%nat ∧ left_of s c = 0%nat;
  v_children : ∀ c, will_check s c → (c < n)%nat;
  v_nodup : NoDup (d_built s);
  v_completed : d_completed s = Zlen (d_built s);
  v_built : ∀ i, i ∈ d_built s → d_phase s i ≠ Idle ∧ d_phase s i ≠ Running;
  v_order : ∀ k i dep, d_built s !! k = Some i → dep ∈ row g (Z.of_nat i) →
              ∃ k', bz s !! k' = Some dep ∧ (k' < k)%nat;
  v_wake : ∀ c, d_pending s c = -1 → (c < n)%nat → will_check s c;
  v_wake2 : ∀ c, d_pending s c = -2 → (c < n)%nat → d_scheduled s c = true ∨ will_schedule s c;
  v_main : ∀ i, (i < d_main s)%nat → d_pending s i = 0 → d_scheduled s i = true;
  v_main_le : (d_main s ≤ n)%nat;
  v_ok : d_err s = None → ∀ i, d_phase s i ≠ Idle → d_phase s i ≠ Running → i ∈ d_built s;
  v_err : ∀ e, d_err s = Some e → ∃ i, buildOne i = Some e }.

Lemma setup_valid m l :
  setup_ok m l = true → Forall (Forall (λ d, 0 ≤ d < Z.of_nat m)) l.
Proof.
  induction l as [|deps l IH]; [constructor|]. cbn [setup_ok]. rewrite !andb_true_iff.
  intros [[_ Hd] Hl]. constructor; [|by apply IH]. apply Forall_forall. intros d Hin.
  rewrite List.forallb_forall in Hd. specialize (Hd d ltac:(by apply list_elem_of_In)). lia.
Qed.

Lemma inv_init s : init_dag n g = Ok s → inv s.
Proof.
  unfold init_dag. intros Hs.
  assert (s = Dag 0 (d_pending s) (λ _, false) (λ _, Idle) 0 None [] ∧
          ∀ i, (i < n)%nat → d_pending s i = Zlen (row g (Z.of_nat i))) as [-> Hpd].
  { destruct (Nat.eqb_spec n 0); [injection Hs as <-; split; [done|lia]|].
    rewrite Hlen, Nat.eqb_refl in Hs. cbn [negb] in Hs. destruct (setup_ok n g); [|done].
    by injection Hs as <-. }
  clear Hs. cbn in Hpd. assert (Hp : ∀ i, pend g i [] = length (row g i)).
  { intros i. unfold pend. f_equal. apply filter_all, Forall_true. intros x. apply not_elem_of_nil. }
  split; unfold left_of, bz, will_check, will_schedule; cbn; try done; try lia.
  - intros i Hi. rewrite Hp, Hpd by done. intros. done.
  - intros i Hi. rewrite Hp, Hpd by done. intros H. left. destruct (row g (Z.of_nat i)); [done|cbn in H; lia].
  - intros c (j & l & H). done.
  - intros c (j & l & [H|[? H]] & _); done.
  - constructor.
  - intros i Hi. by apply not_elem_of_nil in Hi.
  - intros c H1 H2. rewrite Hpd in H1 by done. lia.
  - intros c H1 H2. rewrite Hpd in H1 by done. lia.
Qed.

(** Moves a witness task along a change of the phase of another task. *)
Lemma will_check_other s i p c :
  (∀ l, d_phase s i = Releasing l ∨ (∃ c', d_phase s i = Scheduling c' l) →
        c ∈ l → ∃ l', (p = Releasing l' ∨ ∃ c', p = Scheduling c' l') ∧ c ∈ l') →
  will_check s c → will_check (set_phase i p s) c.
Proof.
  intros H (j & l & Hj & Hc). destruct (decide (j = i)) as [->|Hji].
  - destruct (H l Hj Hc) as (l' & Hp & Hc'). exists i, l'. cbn. rewrite fn_lookup_insert. done.
  - exists j, l. cbn. rewrite fn_lookup_insert_ne by done. done.
Qed.

Lemma will_check_back s i p c :
  will_check (set_phase i p s) c →
  will_check s c ∨ ∃ l', (p = Releasing l' ∨ ∃ c', p = Scheduling c' l') ∧ c ∈ l'.
Proof.
  intros (j & l & Hj & Hc). cbn in Hj. destruct (decide (j = i)) as [->|Hji].
  - rewrite fn_lookup_insert in Hj. right. by exists l.
  - rewrite fn_lookup_insert_ne in Hj by done. left. by exists j, l.
Qed.

Lemma will_schedule_other s i p c :
  (∀ l, d_phase s i ≠ Scheduling c l) → will_schedule s c → will_schedule (set_phase i p s) c.
Proof.
  intros H (j & l & Hj). destruct (decide (j = i)) as [->|Hji]; [by apply H in Hj|].
  exists j, l. cbn. by rewrite fn_lookup_insert_ne.
Qed.

Lemma will_schedule_back s i p c :
  will_schedule (set_phase i p s) c → will_schedule s c ∨ ∃ l, p = Scheduling c l.
Proof.
  intros (j & l & Hj). cbn in Hj. destruct (decide (j = i)) as [->|Hji].
  - rewrite fn_lookup_insert in Hj. right. by exists l.
  - rewrite fn_lookup_insert_ne in Hj by done. left. by exists j, l.
Qed.

Lemma inv_schedule c s : inv s → (c < n)%nat → left_of s c = 0%nat → inv (schedule c s).
Proof.
  intros Hi Hc Hl. unfold schedule. destruct (d_scheduled s c) eqn:E; [done|].
  assert (Hidle : d_phase s c = Idle).
  { destruct (d_phase s c) eqn:Ep; [done|..]; assert (d_scheduled s c = true) by (apply Hi; by rewrite Ep); congruence. }
  assert (Hb : c ∉ d_built s). { intros Hin. by apply (v_built s Hi) in Hin as []. }
  pose proof (λ c', will_check_back s c Running c') as Hcb. pose proof (λ c', will_schedule_back s c Running c') as Hsb.
  destruct Hi. split; try done; cbn.
  - intros i. unfold insert, fn_insert. repeat case_decide; simplify_eq; [done|apply v_sched0].
  - intros i. unfold insert, fn_insert. case_decide; [by subst|apply v_range0].
  - intros i. unfold insert, fn_insert. case_decide; [by subst|apply v_ready0].
  - intros c' H. apply v_next0. destruct (Hsb c' H) as [|[? ?]]; done.
  - intros c' H. apply v_children0. destruct (Hcb c' H) as [|(? & [?|[? ?]] & ?)]; done.
  - intros i Hin. rewrite fn_lookup_insert_ne by congruence. by apply v_built0.
  - intros c' H1 H2. apply (will_check_other s c); [|by apply v_wake0]. intros l [?|[? ?]]; congruence.
  - intros c' H1 H2. destruct (v_wake3 c' H1 H2) as [H|H].
    + left. unfold insert, fn_insert. by case_decide.
    + right. apply (will_schedule_other s c); [congruence|done].
  - intros i H1 H2. unfold insert, fn_insert. case_decide; [done|by apply v_main0].
  - intros He i. unfold insert, fn_insert. case_decide; [done|by apply v_ok0].
Qed.

Lemma schedule_scheduled c s : d_scheduled (schedule c s) c = true.
Proof. unfold schedule. destruct (d_scheduled s c) eqn:E; [done|]. cbn. by rewrite fn_lookup_insert. Qed.

Lemma inv_main s :
  inv s → (d_main s < n)%nat → (d_pending s (d_main s) = 0 → d_scheduled s (d_main s) = true) →
  inv (set_main s).
Proof.
  intros [] Hm Hs. split; try done; cbn.
  intros i Hi Hp. destruct (decide (i = d_main s)) as [->|]; [auto|apply v_main0; [lia|done]].
Qed.

Lemma pending_nonpos s i : inv s → (i < n)%nat → d_pending s i ≤ 0 → left_of s i = 0%nat.
Proof.
  intros Hi Hn Hp. destruct (left_of s i) as [|k] eqn:E; [done|].
  pose proof (v_pos s Hi i Hn). lia.
Qed.

Lemma sched_phase s i p :
  (∀ j, d_scheduled s j = true ↔ d_phase s j ≠ Idle) → d_phase s i ≠ Idle → p ≠ Idle →
  ∀ j, d_scheduled s j = true ↔ <[i := p]> (d_phase s) j ≠ Idle.
Proof.
  intros H Hi Hp j. rewrite H. unfold insert, fn_insert. case_decide; [subst|done]. by split.
Qed.

Lemma built_phase s i p :
  (∀ j, j ∈ d_built s → d_phase s j ≠ Idle ∧ d_phase s j ≠ Running) → p ≠ Idle → p ≠ Running →
  ∀ j, j ∈ d_built s → <[i := p]> (d_phase s) j ≠ Idle ∧ <[i := p]> (d_phase s) j ≠ Running.
Proof. intros H Hi Hp j Hj. unfold insert, fn_insert. case_decide; [done|by apply H]. Qed.

(** A task leaves the phase [Running]. *)
Lemma inv_fail i e s :
  inv s → d_phase s i = Running → buildOne i = Some e → inv (set_phase i Finished (record_err e s)).
Proof.
  intros Hi Hp He. pose proof (λ c, will_check_back (record_err e s) i Finished c) as Hcb.
  pose proof (λ c, will_schedule_back (record_err e s) i Finished c) as Hsb.
  destruct Hi. split; try done; cbn.
  - apply (sched_phase s); [done|congruence|done || apply Hne].
  - intros c H. apply v_next0. destruct (Hsb c H) as [|[? ?]]; done.
  - intros c H. apply v_children0. destruct (Hcb c H) as [|(? & [?|[? ?]] & ?)]; done.
  - apply (built_phase s); done.
  - intros c H1 H2. apply (will_check_other (record_err e s) i); [|by apply v_wake0].
    cbn. intros l [?|[? ?]]; congruence.
  - intros c H1 H2. destruct (v_wake3 c H1 H2) as [H|H]; [by left|right].
    apply (will_schedule_other (record_err e s) i); [cbn; congruence|done].
  - intros Hn. by destruct (d_err s).
  - intros e' He'. destruct (d_err s) eqn:E; injection He' as <-; [by apply v_err0|by exists i].
Qed.

(** A task in its release loop moves on, without a wake-up of its own. *)
Lemma inv_skip i l p s :
  inv s → d_phase s i = Releasing l →
  (p = Finished ∧ l = [] ∨ ∃ c l', l = c :: l' ∧ p = Releasing l' ∧ d_pending s c ≠ -1) →
  inv (set_phase i p s).
Proof.
  intros Hi Hp Hl. pose proof (λ c, will_check_back s i p c) as Hcb.
  pose proof (λ c, will_schedule_back s i p c) as Hsb.
  assert (Hne : p ≠ Idle ∧ p ≠ Running ∧ ∀ c l', p ≠ Scheduling c l').
  { by destruct Hl as [[-> _]|(c & l' & _ & -> & _)]. }
  destruct Hi. split; try done; cbn.
  - apply (sched_phase s); [done|congruence|done || apply Hne].
  - intros c H. apply v_next0. destruct (Hsb c H) as [|[l' Hl']]; [done|]. by apply Hne in Hl'.
  - intros c H. apply v_children0. destruct (Hcb c H) as [|(l' & Hl' & Hc)]; [done|].
    exists i, l. split; [by left|]. destruct Hl as [[-> ->]|(c0 & l0 & -> & -> & _)].
    { destruct Hl' as [|[? ?]]; done. }
    right. destruct Hl' as [[= ->]|[? ?]]; done.
  - apply (built_phase s); [done|done || apply Hne..].
  - intros c H1 H2. apply (will_check_other s i); [|by apply v_wake0].
    intros l1 [Hl1|[? ?]] Hc; [|congruence]. rewrite Hp in Hl1. injection Hl1 as <-.
    destruct Hl as [[-> ->]|(c0 & l0 & -> & -> & Hc0)]; [by apply not_elem_of_nil in Hc|].
    exists l0. split; [by left|]. apply elem_of_cons in Hc as [->|]; done.
  - intros c H1 H2. destruct (v_wake3 c H1 H2) as [H|H]; [by left|right].
    apply (will_schedule_other s i); [congruence|done].
  - intros Hn j. unfold insert, fn_insert. case_decide; [|by apply v_ok0]. subst j.
    intros _ _. apply v_ok0; rewrite ?Hp; done.
Qed.

(** A task in its release loop takes charge of a child. *)
Lemma inv_ready i c l s :
  inv s → d_phase s i = Releasing (c :: l) → d_pending s c = -1 →
  inv (set_phase i (Scheduling c l) (set_pending c (-2) s)).
Proof.
  intros Hi Hp Hc. set (s' := set_pending c (-2) s).
  assert (Hcn : (c < n)%nat) by (apply (v_children s Hi); exists i, (c :: l); split; [by left|left]).
  assert (Hlc : left_of s c = 0%nat) by (apply pending_nonpos; [done|done|lia]).
  pose proof (λ c', will_check_back s' i (Scheduling c l) c') as Hcb.
  pose proof (λ c', will_schedule_back s' i (Scheduling c l) c') as Hsb.
  destruct Hi. split; try done; cbn.
  - apply (sched_phase s); [done|congruence|done || apply Hne].
  - intros j Hj. unfold insert, fn_insert. case_decide; [subst j|by apply v_pos0].
    intros H. change (left_of _ c) with (left_of s c) in H. lia.
  - intros j Hj H. unfold insert, fn_insert. case_decide; [subst; auto|by apply v_zero0].
  - intros c' H. destruct (Hsb c' H) as [|[? [= -> _]]]; [by apply v_next0|done].
  - intros c' H. apply v_children0. destruct (Hcb c' H) as [|(l' & Hl' & Hin)]; [done|].
    exists i, (c :: l). split; [by left|right]. destruct Hl' as [|[? [= _ ->]]]; done.
  - apply (built_phase s); [done|done || apply Hne..].
  - intros c' H1 H2. unfold insert, fn_insert in H1. case_decide; [done|].
    apply (will_check_other s' i); [|by apply v_wake0].
    intros l1 [Hl1|[? Hl1]] Hin; cbn in Hl1; [|congruence]. rewrite Hp in Hl1. injection Hl1 as <-.
    exists l. split; [right; by exists c|]. apply elem_of_cons in Hin as [->|]; done.
  - intros c' H1 H2. unfold insert, fn_insert in H1. case_decide.
    + subst c'. right. exists i, l. cbn. by rewrite fn_lookup_insert.
    + destruct (v_wake3 c' H1 H2) as [Hw|Hw]; [by left|right].
      apply (will_schedule_other s' i); [cbn; congruence|done].
  - intros j H1 H2. unfold insert, fn_insert in H2. case_decide; [done|by apply v_main0].
  - intros Hn j. unfold insert, fn_insert. case_decide; [|by apply v_ok0]. subst j.
    intros _ _. apply v_ok0; rewrite ?Hp; done.
Qed.

(** The child is scheduled; the task returns to its loop. *)
Lemma inv_scheduled i c l s :
  inv s → d_phase s i = Scheduling c l → d_scheduled s c = true → inv (set_phase i (Releasing l) s).
Proof.
  intros Hi Hp Hc. pose proof (λ c', will_check_back s i (Releasing l) c') as Hcb.
  pose proof (λ c', will_schedule_back s i (Releasing l) c') as Hsb.
  destruct Hi. split; try done; cbn.
  - apply (sched_phase s); [done|congruence|done || apply Hne].
  - intros c' H. apply v_next0. destruct (Hsb c' H) as [|[? ?]]; done.
  - intros c' H. apply v_children0. destruct (Hcb c' H) as [|(l' & Hl' & Hin)]; [done|].
    exists i, l. split; [right; by exists c|]. destruct Hl' as [[= ->]|[? ?]]; done.
  - apply (built_phase s); [done|done || apply Hne..].
  - intros c' H1 H2. apply (will_check_other s i); [|by apply v_wake0].
    intros l1 [Hl1|[? Hl1]] Hin; [congruence|]. rewrite Hp in Hl1. injection Hl1 as _ <-.
    exists l. split; [by left|done].
  - intros c' H1 H2. destruct (v_wake3 c' H1 H2) as [H|(j & l' & Hj)]; [by left|].
    destruct (decide (j = i)) as [->|]; [rewrite Hp in Hj; injection Hj as <- <-; by left|].
    right. exists j, l'. cbn. by rewrite fn_lookup_insert_ne.
  - intros Hn j. unfold insert, fn_insert. case_decide; [|by apply v_ok0]. subst j.
    intros _ _. apply v_ok0; rewrite ?Hp; done.
Qed.

(** What the count-down does to one child. *)
Lemma release_cases i s c :
  inv s → i ∉ d_built s → (c < n)%nat →
  let k := count c (dependents g i) in
  let r := pend g (Z.of_nat c) (bz s ++ [Z.of_nat i]) in
  left_of s c = (r + k)%nat ∧
  (k = 0%nat ∧ release (dependents g i) (d_pending s) c = d_pending s c ∨
   (0 < k)%nat ∧ c ∈ dependents g i ∧
   release (dependents g i) (d_pending s) c = if decide (r = 0%nat) then -1 else Z.of_nat r).
Proof.
  intros Hi Hb Hc k r.
  assert (Hl : left_of s c = (r + k)%nat).
  { unfold left_of, r, k. rewrite count_dependents. apply pend_snoc.
    unfold bz. rewrite list_elem_of_fmap. intros (x & Hx & Hin). apply Nat2Z.inj in Hx. congruence. }
  split; [done|]. fold k in Hl. destruct (decide (k = 0%nat)) as [E|E].
  - left. split; [done|]. rewrite release_spec by (right; exact E). by rewrite decide_True.
  - right. split; [lia|]. split; [apply count_in; fold k; lia|].
    pose proof (v_pos s Hi c Hc ltac:(lia)) as Hp.
    rewrite release_spec by (left; fold k; lia). fold k. rewrite decide_False by done.
    repeat case_decide; lia.
Qed.

Lemma inv_ok_err i s e :
  inv s → d_phase s i = Running → d_err s = Some e → inv (set_phase i (Releasing (dependents g i)) s).
Proof.
  intros Hi Hp He. pose proof (λ c, will_check_back s i (Releasing (dependents g i)) c) as Hcb.
  pose proof (λ c, will_schedule_back s i (Releasing (dependents g i)) c) as Hsb.
  destruct Hi. split; try done; cbn.
  - apply (sched_phase s); [done|congruence|done].
  - intros c H. apply v_next0. destruct (Hsb c H) as [|[? ?]]; done.
  - intros c H. destruct (Hcb c H) as [|(l & [Hl|[? ?]] & Hc)]; [by apply v_children0| |done].
    injection Hl as <-. rewrite <- Hlen. by apply dependents_lt in Hc.
  - apply (built_phase s); done.
  - intros c H1 H2. apply (will_check_other s i); [|by apply v_wake0]. intros l [?|[? ?]]; congruence.
  - intros c H1 H2. destruct (v_wake3 c H1 H2) as [H|H]; [by left|right].
    apply (will_schedule_other s i); [congruence|done].
  - congruence.
Qed.

Lemma inv_ok_none i s :
  inv s → d_phase s i = Running → d_err s = None →
  inv (set_phase i (Releasing (dependents g i)) (complete g i s)).
Proof.
  intros Hi Hp He. unfold complete. rewrite He. set (s' := Dag _ _ _ _ _ _ _).
  assert (Hb : i ∉ d_built s) by (intros H; by apply (v_built s Hi) in H as []).
  assert (Hs : d_scheduled s i = true) by (apply Hi; congruence).
  pose proof (λ c, release_cases i s c Hi Hb) as Hrel. cbv zeta in Hrel.
  pose proof (v_ready s Hi i Hs) as Hr.
  assert (Hbz : bz s' = bz s ++ [Z.of_nat i]) by (unfold bz, s'; cbn [d_built]; by rewrite fmap_app).
  assert (Hleft : ∀ c, left_of s' c = pend g (Z.of_nat c) (bz s ++ [Z.of_nat i])) by (intros c; unfold left_of; by rewrite Hbz).
  pose proof (λ c, will_check_back s' i (Releasing (dependents g i)) c) as Hcb.
  pose proof (λ c, will_schedule_back s' i (Releasing (dependents g i)) c) as Hsb.
  destruct Hi. split; try done; unfold set_phase; cbn -[left_of];
    change (left_of (Dag _ _ _ _ _ _ _)) with (left_of s').
  - apply (sched_phase s); [done|congruence|done].
  - intros c Hc. rewrite Hleft. intros H. destruct (Hrel c Hc) as [Hl [[Hk ->]|(Hk & _ & ->)]].
    + rewrite v_pos0 by (done || lia). lia.
    + by rewrite decide_False by lia.
  - intros c Hc. rewrite Hleft. intros H. destruct (Hrel c Hc) as [Hl [[Hk ->]|(Hk & _ & ->)]].
    + apply v_zero0; [done|lia].
    + rewrite decide_True by done. tauto.
  - intros c Hc. rewrite Hleft. destruct (Hrel c (v_range0 c Hc)) as [Hl _]. rewrite v_ready0 in Hl by done. lia.
  - intros c H. destruct (Hsb c H) as [Hw|[? ?]]; [|done]. destruct (v_next0 c Hw) as [Hc Hz].
    split; [done|]. rewrite Hleft. destruct (Hrel c Hc) as [Hl _]. lia.
  - intros c H. destruct (Hcb c H) as [|(l & [Hl|[? ?]] & Hc)]; [by apply v_children0| |done].
    injection Hl as <-. rewrite <- Hlen. by apply dependents_lt in Hc.
  - apply NoDup_app. split_and!; [done| |apply NoDup_singleton]. intros x Hx Hx2.
    apply list_elem_of_singleton in Hx2. by subst.
  - rewrite length_app. cbn [length]. lia.
  - intros j Hj. unfold insert, fn_insert. case_decide as Hij; [done|].
    apply elem_of_app in Hj as [Hj|Hj]; [by apply v_built0|]. apply list_elem_of_singleton in Hj. congruence.
  - intros k j dep Hk Hdep. rewrite fmap_app. fold (bz s). apply lookup_app_Some in Hk as [Hk|[Hge Hk]].
    + destruct (v_order0 k j dep Hk Hdep) as (k' & ? & ?). exists k'. split; [by apply lookup_app_l_Some|done].
    + apply list_lookup_singleton_Some in Hk as [Hk <-].
      pose proof (pend_zero _ _ _ _ Hr Hdep) as Hin. apply list_elem_of_lookup in Hin as [k' Hk'].
      exists k'. split; [by apply lookup_app_l_Some|]. apply lookup_lt_Some in Hk'.
      unfold bz in Hk'. rewrite length_fmap in Hk'. lia.
  - intros c H1 H2. destruct (Hrel c H2) as [Hl [[Hk Hx]|(Hk & Hin & Hx)]]; rewrite Hx in H1.
    + apply (will_check_other s' i); [|by apply v_wake0]. cbn. intros l [?|[? ?]]; congruence.
    + exists i, (dependents g i). cbn. rewrite fn_lookup_insert. split; [by left|done].
  - intros c H1 H2. destruct (Hrel c H2) as [Hl [[Hk Hx]|(Hk & Hin & Hx)]]; rewrite Hx in H1.
    + destruct (v_wake3 c H1 H2) as [H|H]; [by left|right].
      apply (will_schedule_other s' i); [cbn; congruence|done].
    + case_decide; lia.
  - intros j Hj H. destruct (Hrel j ltac:(lia)) as [Hl [[Hk Hx]|(Hk & Hin & Hx)]]; rewrite Hx in H.
    + by apply v_main0.
    + case_decide; lia.
  - intros _ j. unfold insert, fn_insert. rewrite elem_of_app, list_elem_of_singleton.
    case_decide; [by right|]. intros. left. by apply v_ok0.
Qed.

Lemma inv_step s s' : inv s → step n g buildOne s s' → inv s'.
Proof.
  intros Hi Hs. destruct Hs as [Hm Hp|Hm Hp|i e Hp He|i Hp He|i c l Hp Hc|i c l Hp Hc|i c l Hp|i Hp].
  - assert (Hz : left_of s (d_main s) = 0%nat) by by apply pending_nonpos.
    pose proof (inv_schedule _ _ Hi Hm Hz) as Hi'.
    assert (Hmm : d_main (schedule (d_main s) s) = d_main s) by (unfold schedule; by case_match).
    apply inv_main; [done|by rewrite Hmm|]. intros _. rewrite Hmm. apply schedule_scheduled.
  - by apply inv_main.
  - by apply inv_fail.
  - destruct (d_err s) as [e|] eqn:E; [|by apply inv_ok_none].
    unfold complete. rewrite E. by apply inv_ok_err with e.
  - by apply inv_ready.
  - apply (inv_skip i (c :: l)); [done|done|]. right. by exists c, l.
  - destruct (v_next s Hi c) as [Hc Hz]; [by exists i, l|].
    pose proof (inv_schedule c s Hi Hc Hz) as Hi'. apply (inv_scheduled i c l); [done| |apply schedule_scheduled].
    unfold schedule. destruct (d_scheduled s c) eqn:E; [done|]. cbn. rewrite fn_lookup_insert_ne; [done|].
    intros <-. destruct Hi as [Hsch]. assert (d_scheduled s c = true) by (apply Hsch; congruence). congruence.
  - apply (inv_skip i []); [done|done|]. by left.
Qed.

Lemma inv_reachable s : reachable n g buildOne s → inv s.
Proof. induction 1; [by apply inv_init|by eapply inv_step]. Qed.

(** ** Progress and termination *)

Definition weight (i : nat) (p : phase) : nat :=
  match p with
  | Idle => 3 + 2 * length (dependents g i)
  | Running => 2 + 2 * length (dependents g i)
  | Releasing l => 1 + 2 * length l
  | Scheduling _ l => 2 + 2 * length l
  | Finished => 0
  end.

Definition total (ph : nat → phase) : nat := sum_list_with (λ i, weight i (ph i)) (seq 0 n).
Definition measure (s : dag) : nat := (n - d_main s) + total (d_phase s).

Lemma total_insert ph i p :
  (i < n)%nat → (weight i p < weight i (ph i))%nat → (total (<[i := p]> ph) < total ph)%nat.
Proof.
  intros Hi Hw. unfold total.
  assert (H : ∀ k m, (sum_list_with (λ j, weight j (<[i := p]> ph j)) (seq k m) ≤ sum_list_with (λ j, weight j (ph j)) (seq k m) ∧
    (k ≤ i < k + m → sum_list_with (λ j, weight j (<[i := p]> ph j)) (seq k m) < sum_list_with (λ j, weight j (ph j)) (seq k m)))%nat).
  { intros k m. revert k. induction m as [|m IH]; intros k; cbn; [lia|].
    destruct (IH (S k)) as [H1 H2]. destruct (decide (k = i)) as [->|Hne].
    - rewrite fn_lookup_insert. lia.
    - rewrite fn_lookup_insert_ne by done. split; [lia|]. intros. lia. }
  apply (H 0%nat n). lia.
Qed.

Lemma total_schedule c s :
  inv s → (c < n)%nat → (total (d_phase (schedule c s)) ≤ total (d_phase s))%nat.
Proof.
  intros Hi Hc. unfold schedule. destruct (d_scheduled s c) eqn:E; [done|]. cbn.
  assert (d_phase s c = Idle) as Hidle.
  { destruct (d_phase s c) eqn:Ep; [done|..]; assert (d_scheduled s c = true) by (apply Hi; by rewrite Ep); congruence. }
  apply Nat.lt_le_incl, total_insert; [done|]. rewrite Hidle. cbn. lia.
Qed.

Lemma phase_range s i : inv s → d_phase s i ≠ Idle → (i < n)%nat.
Proof. intros Hi Hp. by apply (v_range s Hi), Hi. Qed.

Lemma step_decreases s s' : inv s → step n g buildOne s s' → (measure s' < measure s)%nat.
Proof.
  intros Hi Hs. unfold measure.
  assert (Hin : ∀ i, d_phase s i ≠ Idle → (i < n)%nat) by (intros i; by apply phase_range).
  destruct Hs as [Hm Hp|Hm Hp|i e Hp He|i Hp He|i c l Hp Hc|i c l Hp Hc|i c l Hp|i Hp]; cbn [d_main set_main set_phase].
  - pose proof (total_schedule _ _ Hi Hm). assert (d_main (schedule (d_main s) s) = d_main s) as Hmm
      by (unfold schedule; by case_match). rewrite Hmm. cbn. lia.
  - cbn. lia.
  - apply Nat.add_lt_mono_l, total_insert; [apply Hin; congruence|]. cbn. rewrite Hp. cbn. lia.
  - assert (d_main (complete g i s) = d_main s ∧ d_phase (complete g i s) = d_phase s) as [-> E]
      by (unfold complete; by case_match).
    apply Nat.add_lt_mono_l. cbn. rewrite E. apply total_insert; [apply Hin; congruence|]. rewrite Hp. cbn. lia.
  - apply Nat.add_lt_mono_l, total_insert; [apply Hin; congruence|]. cbn. rewrite Hp. cbn. lia.
  - apply Nat.add_lt_mono_l, total_insert; [apply Hin; congruence|]. rewrite Hp. cbn. lia.
  - destruct (v_next s Hi c) as [Hc _]; [by exists i, l|]. pose proof (total_schedule c s Hi Hc) as Ht.
    assert (d_main (schedule c s) = d_main s) as -> by (unfold schedule; by case_match).
    apply Nat.add_lt_mono_l. eapply Nat.lt_le_trans; [|exact Ht]. apply total_insert; [apply Hin; congruence|].
    unfold schedule. destruct (d_scheduled s c) eqn:E; [rewrite Hp; cbn; lia|]. cbn.
    rewrite fn_lookup_insert_ne; [rewrite Hp; cbn; lia|].
    intros <-. assert (d_scheduled s c = true) by (apply Hi; congruence). congruence.
  - apply Nat.add_lt_mono_l, total_insert; [apply Hin; congruence|]. rewrite Hp. cbn. lia.
Qed.

Lemma step_enabled s i : d_phase s i ≠ Idle → d_phase s i ≠ Finished → ∃ s', step n g buildOne s s'.
Proof.
  intros H1 H2. destruct (d_phase s i) as [| |[|c l]|c l|] eqn:E; try done.
  - destruct (buildOne i) as [e|] eqn:Eb; eexists; [by eapply step_fail|by eapply step_ok].
  - eexists. by eapply step_return.
  - destruct (decide (d_pending s c = -1)); eexists; [by eapply step_ready|by eapply step_not_ready].
  - eexists. by eapply step_schedule.
Qed.

Lemma progress s : inv s → quiescent n s ∨ ∃ s', step n g buildOne s s'.
Proof.
  intros Hi. destruct (decide (d_main s < n)%nat) as [Hm|Hm].
  - right. destruct (decide (d_pending s (d_main s) ≤ 0)).
    + eexists. by apply step_main_take.
    + eexists. apply step_main_skip; [done|lia].
  - pose proof (v_main_le s Hi).
    destruct (decide (Exists (λ i, d_phase s i ≠ Idle ∧ d_phase s i ≠ Finished) (seq 0 n))) as [He|He].
    + apply Exists_exists in He as (i & _ & H1 & H2). right. by apply (step_enabled s i).
    + left. split; [lia|]. intros i. destruct (d_phase s i) eqn:E; auto; exfalso; apply He, Exists_exists;
        exists i; (split; [apply elem_of_seq; assert (i < n)%nat by (apply (phase_range s); [done|congruence]); lia|by rewrite E]).
Qed.

(** ** The result *)

Lemma quiescent_closed s i :
  inv s → quiescent n s → d_err s = None → (i < n)%nat → left_of s i = 0%nat → i ∈ d_built s.
Proof.
  intros Hi [Hm Hq] He Hn Hl. assert (Hs : d_scheduled s i = true).
  { destruct (v_zero s Hi i Hn Hl) as [[Hp _]|[Hp|Hp]].
    - apply (v_main s Hi); [lia|done].
    - destruct (v_wake s Hi i Hp Hn) as (j & l & [Hj|[? Hj]] & _); destruct (Hq j); congruence.
    - destruct (v_wake2 s Hi i Hp Hn) as [|(j & l & Hj)]; [done|]. destruct (Hq j); congruence. }
  apply (v_sched s Hi) in Hs. destruct (Hq i); [congruence|]. apply (v_ok s Hi He); congruence.
Qed.

Lemma built_range s : inv s → Forall (λ i, 0 ≤ i < Zlen g) (bz s).
Proof.
  intros Hi. apply Forall_fmap, Forall_forall. intros i Hin. cbn.
  apply (v_built s Hi) in Hin as [Hin _]. apply (phase_range s) in Hin; [lia|done].
Qed.

Lemma run_result s :
  inv s → quiescent n s →
  match result n s with
  | None => is_topo g (bz s)
  | Some e => (∃ i, buildOne i = Some e) ∨ (e = errDependencyCycle ∧ ∀ order, ¬ is_topo g order)
  end.
Proof.
  intros Hi Hq. unfold result. destruct (d_err s) as [e|] eqn:He; [left; by apply (v_err s Hi)|].
  rewrite (v_completed s Hi). destruct (Z.eqb_spec (Zlen (d_built s)) (Z.of_nat n)) as [E|E]; cbn [negb].
  - apply topo_of_order.
    + apply NoDup_fmap_2; [intros ???; lia|apply Hi].
    + by apply built_range.
    + unfold bz. rewrite length_fmap. lia.
    + intros k i dep Hk Hdep. unfold bz in Hk. rewrite list_lookup_fmap in Hk.
      destruct (d_built s !! k) as [j|] eqn:Ej; [|done]. injection Hk as <-. by eapply (v_order s Hi).
  - right. split; [done|]. intros order Ho. apply E.
    pose proof (closed_all g order (bz s) Ho) as Hall.
    assert (length (bz s) = n) as <-; [|unfold bz; by rewrite length_fmap].
    apply Nat.le_antisymm.
    + rewrite <- Hlen. apply range_length; [apply NoDup_fmap_2; [intros ???; lia|apply Hi]|by apply built_range].
    + transitivity (length (Z.of_nat <$> seq 0 n)); [by rewrite length_fmap, length_seq|].
      apply submseteq_length, NoDup_submseteq; [apply nodup_nodes|]. intros x Hx. apply elem_of_nodes in Hx.
      apply Hall; [|lia]. intros i Hir Hp. unfold bz. apply list_elem_of_fmap. exists (Z.to_nat i).
      split; [lia|]. apply (quiescent_closed s); [done|done|done|lia|]. unfold left_of. by rewrite Z2Nat.id by lia.
Qed.
End inv.

(** ** Properties *)

Section properties.
Context (n : nat) (g : graph) (buildOne : nat → option string).
Context (Hlen : length g = n).

(** C9 In every interleaving, when a task has been started all of its dependencies
    have been built, and no task is built twice. *)
Theorem dag_dependencies_first s :
  reachable n g buildOne s → NoDup (d_built s) ∧
  ∀ i dep, d_phase s i ≠ Idle → dep ∈ row g (Z.of_nat i) → dep ∈ (Z.of_nat <$> d_built s).
Proof.
  intros Hr. pose proof (inv_reachable n g buildOne Hlen s Hr) as Hi. split; [apply Hi|]. intros i dep Hp Hd.
  apply (v_sched _ _ _ s Hi) in Hp. apply (v_ready _ _ _ s Hi) in Hp. by eapply pend_zero.
Qed.

(** C10 The build always comes to rest: no interleaving is infinite, and a state in
    which nothing can happen any more is one where the main loop and all tasks
    have ended. *)
Theorem dag_terminates s :
  reachable n g buildOne s →
  Acc (λ b a, step n g buildOne a b) s ∧ (quiescent n s ∨ ∃ s', step n g buildOne s s').
Proof.
  intros Hr. split; [|apply (progress n g buildOne), inv_reachable; done].
  remember (measure n g s) as m eqn:Em. revert s Hr Em. induction (lt_wf m) as [m _ IH]. intros s Hr Em.
  constructor. intros s' Hs. pose proof (inv_reachable n g buildOne Hlen s Hr) as Hi.
  pose proof (step_decreases n g buildOne Hlen s s' Hi Hs) as Hd.
  apply (IH (measure n g s')); [lia|by eapply reach_step|done].
Qed.

(** C4 When the build has come to rest, it reports no error exactly when all tasks
    were built, in a topological order; otherwise it reports the error of a task
    that failed, or a cycle when the graph has one. *)
Theorem dag_result s :
  reachable n g buildOne s → quiescent n s →
  match result n s with
  | None => is_topo g (Z.of_nat <$> d_built s)
  | Some e => (∃ i, buildOne i = Some e) ∨ (e = errDependencyCycle ∧ ∀ order, ¬ is_topo g order)
  end.
Proof. intros Hr. apply (run_result n g buildOne Hlen), inv_reachable; done. Qed.
End properties.

(** A run with one task. *)
Definition start (g : graph) : dag :=
  Dag 0 (λ i, Zlen (row g (Z.of_nat i))) (λ _, false) (λ _, Idle) 0 None [].
Definition taken (i : nat) (s : dag) : dag := set_main (schedule i s).
Definition built (g : graph) (i : nat) (s : dag) : dag :=
  set_phase i (Releasing (dependents g i)) (complete g i s).

Definition one_task : dag := set_phase 0 Finished (built [[]] 0 (taken 0 (start [[]]))).

Lemma one_task_reachable : reachable 1 [[]] (λ _, None) one_task.
Proof.
  apply (reach_step _ _ _ (built [[]] 0 (taken 0 (start [[]])))); [|by apply step_return].
  apply (reach_step _ _ _ (taken 0 (start [[]]))); [|by apply step_ok].
  apply (reach_step _ _ _ (start [[]])); [by apply reach_init|]. apply (step_main_take 1 [[]] _ (start [[]])); vm_compute; [by repeat constructor|done].
Qed.

Theorem dag_result_witness : is_topo [[]] (Z.of_nat <$> d_built one_task).
Proof.
  apply (dag_result 1 [[]] (λ _, None) eq_refl one_task one_task_reachable).
  split; [done|]. intros i. unfold one_task, set_phase. cbn. unfold insert, fn_insert. case_decide; [by right|by left].
Defined.

Theorem dag_terminates_witness :
  Acc (λ b a, step 1 [[]] (λ _, None) a b) one_task ∧
  (quiescent 1 one_task ∨ ∃ s', step 1 [[]] (λ _, None) one_task s').
Proof. apply (dag_terminates 1 [[]] (λ _, None) eq_refl one_task one_task_reachable). Defined.

(** A run that has built task 0 and started task 1, which depends on it. *)
Definition chain : graph := [[]; [0]].
Definition released : dag :=
  set_phase 0 (Scheduling 1 []) (set_pending 1 (-2) (built chain 0 (taken 0 (start chain)))).
Definition two_tasks : dag := set_phase 0 (Releasing []) (schedule 1 released).

Lemma two_tasks_reachable : reachable 2 chain (λ _, None) two_tasks.
Proof.
  apply (reach_step _ _ _ released); [|by apply step_schedule].
  apply (reach_step _ _ _ (built chain 0 (taken 0 (start chain)))); [|by apply step_ready].
  apply (reach_step _ _ _ (taken 0 (start chain))); [|by apply step_ok].
  apply (reach_step _ _ _ (start chain)); [by apply reach_init|]. apply (step_main_take 2 chain _ (start chain)); vm_compute; [by repeat constructor|done].
Qed.

Theorem dag_dependencies_first_witness :
  NoDup (d_built two_tasks) ∧ 0 ∈ (Z.of_nat <$> d_built two_tasks).
Proof.
  destruct (dag_dependencies_first 2 chain (λ _, None) eq_refl two_tasks two_tasks_reachable) as [H1 H2].
  split; [exact H1|]. apply (H2 1%nat 0).
  - vm_compute. discriminate.
  - vm_compute. left.
Defined.
