(* ===== verification/FlatLayout.v ===== *)
(** * Flat binaries for bare-metal targets

    Models internal/linker/flat_layout.go: the placement of .text, .data and
    .bss in the flash and RAM regions, and the writing of the flat image. *)
From S2P Require Import Prelude AsmBytes.

(** ** Data *)

Definition PermRead : Z := 1.
Definition PermWrite : Z := 2.
Definition PermExec : Z := 4.

Record Region := MkRegion { rg_name : bytes; rg_origin : Z; rg_length : Z; rg_perm : Z }.

(** A nil Data is [None]. *)
Record SectionLayout := MkSec {
  sl_name : bytes; sl_origin : Z; sl_length : Z; sl_perm : Z; sl_data : option bytes }.

Record Layout := MkLayout { l_regions : Region * Region; l_sections : list SectionLayout }.

Definition ErrInvalidAlignment : string := "address must be 4-byte aligned".
Definition ErrRegionOverflow : string := "section exceeds region bounds".
Definition ErrSectionOverlap : string := "sections overlap inside region".

Definition data_of (d : option bytes) : bytes := default [] d.

(** ** Operations *)

Definition Align4 (addr : Z) : Z := Z.ldiff (u32 (addr + 3)) 3.

Definition align4Checked (value : Z) : Z * bool :=
  let aligned := Z.ldiff (u64 (value + 3)) 3 in (aligned, aligned <=? 2 ^ 32 - 1).

(** One section against its region: origin and length aligned and inside. *)
Definition place_in (region : Region) (origin len : Z) : outcome (Z * Z) :=
  let '(o, ook) := align4Checked origin in
  let '(l, lok) := align4Checked len in
  if negb ook || negb lok || ((0 <? l) && (rg_origin region + rg_length region <? u64 (o + l)))
  then Err ErrRegionOverflow else Ok (o, l).

Definition NewNakedMemoryLayout (flash ram : Region) (textData dataData : option bytes) (bssSize : Z)
    : outcome Layout :=
  if negb (Z.land (rg_origin flash) 3 =? 0) || negb (Z.land (rg_origin ram) 3 =? 0)
  then Err ErrInvalidAlignment
  else
    '(textOrigin, textLength) ← place_in flash (rg_origin flash) (Zlen (data_of textData));
    '(dataOrigin, dataLength) ← place_in ram (rg_origin ram) (Zlen (data_of dataData));
    '(bssOrigin, bssLength) ← place_in ram (u64 (dataOrigin + dataLength)) bssSize;
    Ok (MkLayout (flash, ram)
      [MkSec (bs ".text") textOrigin textLength (Z.lor PermRead PermExec) textData;
       MkSec (bs ".data") dataOrigin dataLength (Z.lor PermRead PermWrite) dataData;
       MkSec (bs ".bss") bssOrigin bssLength (Z.lor PermRead PermWrite) None]).

Definition in_region (region : Region) (s : SectionLayout) : bool :=
  negb ((sl_length s =? 0) && bool_decide (sl_data s = None)) &&
  (rg_origin region <=? sl_origin s) && (sl_origin s <? rg_origin region + rg_length region).

(** The inner loop of the exchange sort: [x] is the element at index i. *)
Fixpoint exchange (x : SectionLayout) (l : list SectionLayout) : SectionLayout * list SectionLayout :=
  match l with
  | [] => (x, [])
  | y :: r =>
      if sl_origin y <? sl_origin x
      then let '(m, r') := exchange y r in (m, x :: r')
      else let '(m, r') := exchange x r in (m, y :: r')
  end.

Fixpoint exchange_sort (fuel : nat) (l : list SectionLayout) : list SectionLayout :=
  match fuel, l with
  | S f, x :: r => let '(m, r') := exchange x r in m :: exchange_sort f r'
  | _, _ => l
  end.

Definition collectSectionsForRegion (region : Region) (sections : list SectionLayout)
    : list SectionLayout :=
  let result := filter (λ s, in_region region s = true) sections in
  exchange_sort (length result) result.

Fixpoint regionOutputSize_from (region : Region) (sections : list SectionLayout) (offset : Z) : outcome Z :=
  match sections with
  | [] => Ok offset
  | s :: r =>
      if sl_origin s <? rg_origin region then Err ErrRegionOverflow
      else
        let relative := sl_origin s - rg_origin region in
        if relative <? offset then Err ErrSectionOverlap
        else
          let fin := relative + sl_length s in
          if rg_length region <? fin then Err ErrRegionOverflow
          else regionOutputSize_from region r fin
  end.
Definition regionOutputSize (region : Region) (sections : list SectionLayout) : outcome Z :=
  regionOutputSize_from region sections 0.

(** forge.MoveBytes: a memory move of the shorter length. *)
Definition MoveBytes (dst src : bytes) : bytes :=
  let n := Nat.min (length src) (length dst) in take n src ++ drop n dst.

(** buffer[offset:] panics past the end; the offset is a uint32. *)
Fixpoint writeRegion_from (region : Region) (sections : list SectionLayout) (offset : Z) (buffer : bytes)
    : outcome bytes :=
  match sections with
  | [] => Ok buffer
  | s :: r =>
      let relative := u32 (sl_origin s - rg_origin region) in
      let offset := if offset <? relative then relative else offset in
      let data := data_of (sl_data s) in
      if (0 <? length data)%nat then
        if Zlen buffer <? offset then Panic
        else
          let k := Z.to_nat offset in
          let buffer := take k buffer ++ MoveBytes (drop k buffer) data in
          let offset := u32 (offset + u32 (Zlen data)) in
          let pad := u32 (sl_length s - u32 (Zlen data)) in
          writeRegion_from region r (if 0 <? pad then u32 (offset + pad) else offset) buffer
      else writeRegion_from region r (u32 (offset + sl_length s)) buffer
  end.
Definition writeRegionOutput (region : Region) (sections : list SectionLayout) (buffer : bytes) : outcome bytes :=
  writeRegion_from region sections 0 buffer.

Definition ordered_regions (l : Layout) : list Region :=
  let '(a, b) := l_regions l in if rg_origin b <? rg_origin a then [b; a] else [a; b].

(** The size of one region: zero when no section falls into it. *)
Definition region_size (l : Layout) (region : Region) : outcome Z :=
  match collectSectionsForRegion region (l_sections l) with
  | [] => Ok 0
  | ss => regionOutputSize region ss
  end.

Fixpoint flatBinarySize_from (l : Layout) (regions : list Region) : outcome (list Z) :=
  match regions with
  | [] => Ok []
  | r :: rs => n ← region_size l r; ns ← flatBinarySize_from l rs; Ok (n :: ns)
  end.

Definition flatBinarySize (l : Layout) : outcome (list Region * list Z * Z) :=
  let ordered := ordered_regions l in
  sizes ← flatBinarySize_from l ordered;
  Ok (ordered, sizes, foldr Z.add 0 sizes).

(** The regions are written into consecutive windows of the buffer. *)
Fixpoint writeFlatBinaryInto (buffer : bytes) (l : Layout) (ordered : list Region) (sizes : list Z)
    : outcome bytes :=
  match ordered, sizes with
  | r :: rs, n :: ns =>
      if n =? 0 then writeFlatBinaryInto buffer l rs ns
      else if Zlen buffer <? n then Panic
      else
        w ← writeRegionOutput r (collectSectionsForRegion r (l_sections l)) (take (Z.to_nat n) buffer);
        rest ← writeFlatBinaryInto (drop (Z.to_nat n) buffer) l rs ns;
        Ok (w ++ rest)
  | _, _ => Ok buffer
  end.

Definition EmitFlatBinary (l : Layout) : outcome bytes :=
  '(ordered, sizes, total) ← flatBinarySize l;
  writeFlatBinaryInto (replicate (Z.to_nat total) 0) l ordered sizes.

Definition flash0 : Region := MkRegion (bs "flash") 0x08000000 0x100 5.
Definition ram0 : Region := MkRegion (bs "ram") 0x20000000 0x100 3.
Example flat1 :
  (l ← NewNakedMemoryLayout flash0 ram0 (Some [1; 2; 3; 4; 5]) (Some [9]) 6; EmitFlatBinary l)
  = Ok [1; 2; 3; 4; 5; 0; 0; 0; 9; 0; 0; 0; 0; 0; 0; 0; 0; 0; 0; 0].
Proof. vm_compute. done. Qed.

(** ** The image of a region *)

Definition zeros (n : Z) : bytes := replicate (Z.to_nat n) 0.

(** Sections in order, each after a gap of zeros, its data padded with zeros. *)
Fixpoint render (base off : Z) (l : list SectionLayout) : bytes :=
  match l with
  | [] => []
  | s :: r =>
      let rel := sl_origin s - base in
      zeros (rel - off) ++ data_of (sl_data s) ++ zeros (sl_length s - Zlen (data_of (sl_data s)))
        ++ render base (rel + sl_length s) r
  end.

Definition wf_sec (s : SectionLayout) : Prop :=
  is_word 32 (sl_origin s) ∧ is_word 32 (sl_length s) ∧ Zlen (data_of (sl_data s)) ≤ sl_length s.

Definition wf_region (r : Region) : Prop := is_word 32 (rg_origin r) ∧ is_word 32 (rg_length r).

Lemma regionOutputSize_render r l off n :
  Forall wf_sec l → regionOutputSize_from r l off = Ok n → off ≤ n ∧ Zlen (render (rg_origin r) off l) = n - off.
Proof.
  intros Hw. revert off. induction Hw as [|s l (Ho & Hl & Hd) Hw IH]; intros off; cbn [regionOutputSize_from render].
  - intros [= <-]. cbn. lia.
  - destruct (Z.ltb_spec (sl_origin s) (rg_origin r)); [done|].
    destruct (Z.ltb_spec (sl_origin s - rg_origin r) off); [done|]. case_match; [done|].
    intros H2. apply IH in H2 as [H2 H3]. unfold zeros. rewrite !length_app, !length_replicate.
    unfold is_word in *. lia.
Qed.

(** Writing into zeros produces the rendering. *)
Lemma writeRegion_render r l off n pre :
  wf_region r → Forall wf_sec l → 0 ≤ off → off = Zlen pre →
  regionOutputSize_from r l off = Ok n → n ≤ rg_length r →
  writeRegion_from r l off (pre ++ zeros (n - off)) = Ok (pre ++ render (rg_origin r) off l).
Proof.
  intros [Hro Hrl] Hw. revert off pre. induction Hw as [|s l (Ho & Hl & Hd) Hw IH]; intros off pre H0 Hoff;
    cbn [regionOutputSize_from writeRegion_from render].
  - intros [= <-] _. rewrite Z.sub_diag. done.
  - destruct (Z.ltb_spec (sl_origin s) (rg_origin r)); [done|].
    set (rel := sl_origin s - rg_origin r) in *.
    destruct (Z.ltb_spec rel off) as [|Hrel]; [done|].
    destruct (Z.ltb_spec (rg_length r) (rel + sl_length s)) as [|Hin]; [done|].
    intros Hn Hnl. pose proof (regionOutputSize_render _ _ _ _ Hw Hn) as [Hle _].
    unfold is_word in *. rewrite (wrap_small 32 rel) by (unfold is_word; lia).
    assert ((if off <? rel then rel else off) = rel) as -> by (destruct (Z.ltb_spec off rel); lia).
    set (data := data_of (sl_data s)) in *.
    assert (Hz : ∀ a b, 0 ≤ a → 0 ≤ b → zeros (a + b) = zeros a ++ zeros b).
    { intros a b Ha Hb. unfold zeros. rewrite Z2Nat.inj_add by lia. apply replicate_add. }
    assert (Hzl : ∀ a, 0 ≤ a → Zlen (zeros a) = a) by (intros a Ha; unfold zeros; rewrite length_replicate; lia).
    replace (n - off) with ((rel - off) + (Zlen data + ((sl_length s - Zlen data) + (n - (rel + sl_length s))))) by lia.
    rewrite (Hz (rel - off)), (Hz (Zlen data)), (Hz (sl_length s - Zlen data)) by lia.
    assert (Hu : ∀ x, 0 ≤ x ≤ rg_length r → u32 x = x) by (intros x Hx; apply wrap_small; unfold is_word; lia).
    destruct (Nat.ltb_spec 0 (length data)) as [Hpos|Hpos].
    + rewrite (app_assoc pre). set (pre2 := pre ++ zeros (rel - off)).
      assert (Hp2 : Zlen pre2 = rel) by (unfold pre2; rewrite length_app; specialize (Hzl (rel - off)); lia).
      set (mid := zeros (Zlen data)). set (tl := zeros (sl_length s - Zlen data) ++ _).
      assert (Hm : length mid = length data) by (unfold mid, zeros; rewrite length_replicate; lia).
      rewrite !(length_app pre2), (length_app mid).
      destruct (Z.ltb_spec (Z.of_nat (length pre2 + (length mid + length tl))) rel); [lia|].
      rewrite take_app_length', drop_app_length' by lia. unfold MoveBytes.
      rewrite length_app, Nat.min_l, take_ge, drop_app_length' by lia.
      rewrite (Hu (Zlen data)), (Hu (rel + Zlen data)), (Hu (sl_length s - Zlen data)) by lia.
      assert ((if 0 <? sl_length s - Zlen data then u32 (rel + Zlen data + (sl_length s - Zlen data))
               else rel + Zlen data) = rel + sl_length s) as ->.
      { destruct (Z.ltb_spec 0 (sl_length s - Zlen data)); [rewrite Hu; lia|lia]. }
      unfold tl. rewrite !app_assoc. rewrite IH; [done|lia| |done|done].
      rewrite !length_app. specialize (Hzl (sl_length s - Zlen data)). lia.
    + assert (data = []) as -> by (destruct data; [done|cbn in Hpos; lia]). cbn [length app] in *.
      rewrite (Hu (rel + sl_length s)) by lia. cbn [app zeros].
      rewrite Z.sub_0_r in *. change (zeros (Z.of_nat 0)) with (@nil Z). cbn [app].
      rewrite !app_assoc. rewrite IH; [done|lia| |done|done].
      rewrite !length_app. pose proof (Hzl (rel - off)). pose proof (Hzl (sl_length s)). lia.
Qed.

(** ** The image of a layout *)

Definition part (l : Layout) (r : Region) : bytes :=
  render (rg_origin r) 0 (collectSectionsForRegion r (l_sections l)).

Lemma exchange_Forall (P : SectionLayout → Prop) x l :
  P x → Forall P l → P (exchange x l).1 ∧ Forall P (exchange x l).2.
Proof.
  revert x. induction l as [|y r IH]; intros x Hx Hl; cbn [exchange]; [done|].
  apply Forall_cons in Hl as [Hy Hr]. case_match.
  - destruct (IH y Hy Hr) as [H1 H2]. destruct (exchange y r). cbn in *. auto.
  - destruct (IH x Hx Hr) as [H1 H2]. destruct (exchange x r). cbn in *. auto.
Qed.

Lemma exchange_sort_Forall (P : SectionLayout → Prop) n l : Forall P l → Forall P (exchange_sort n l).
Proof.
  revert l. induction n as [|n IH]; intros l Hl; [by destruct l|]. destruct l as [|x r]; [done|].
  apply Forall_cons in Hl as [Hx Hr]. cbn [exchange_sort].
  destruct (exchange_Forall P x r Hx Hr) as [H1 H2]. destruct (exchange x r). cbn in *. constructor; auto.
Qed.

Lemma collect_wf r l : Forall wf_sec l → Forall wf_sec (collectSectionsForRegion r l).
Proof.
  rewrite !Forall_forall. intros H. rewrite <- Forall_forall. apply exchange_sort_Forall, Forall_forall.
  intros s [_ Hs]%list_elem_of_filter. by apply H.
Qed.

Lemma regionOutputSize_bound r l off n :
  regionOutputSize_from r l off = Ok n → n = off ∨ n ≤ rg_length r.
Proof.
  revert off. induction l as [|s l IH]; intros off; cbn [regionOutputSize_from]; [intros [= ->]; by left|].
  repeat (case_match; [done|]). intros H2. destruct (IH _ H2) as [->|]; [right; lia|by right].
Qed.

Lemma region_ok l r n :
  wf_region r → Forall wf_sec (l_sections l) → region_size l r = Ok n →
  0 ≤ n ∧ Zlen (part l r) = n ∧
  writeRegionOutput r (collectSectionsForRegion r (l_sections l)) (zeros n) = Ok (part l r).
Proof.
  intros Hr Hs. pose proof (collect_wf r _ Hs) as Hc. unfold region_size, part, writeRegionOutput.
  destruct (collectSectionsForRegion r (l_sections l)) as [|s ss] eqn:E.
  - intros [= <-]. done.
  - intros Hn. destruct (regionOutputSize_render _ _ _ _ Hc Hn) as [H1 H2].
    assert (n ≤ rg_length r). { destruct (regionOutputSize_bound _ _ _ _ Hn); [|done]. destruct Hr as [_ [? _]]. lia. }
    split_and!; [lia|lia|]. rewrite <- (Z.sub_0_r n) at 1.
    by apply (writeRegion_render r (s :: ss) 0 n []).
Qed.

Lemma region_size_returns l r : returns (region_size l r).
Proof.
  unfold region_size, regionOutputSize. destruct (collectSectionsForRegion _ _) as [|s ss]; [done|].
  generalize 0 as off. induction (s :: ss) as [|x xs IH]; intros off; cbn [regionOutputSize_from]; [done|].
  by repeat case_match.
Qed.

(** The image is the concatenation of the regions in ascending order. *)
Lemma emit_render l :
  Forall wf_region (ordered_regions l) → Forall wf_sec (l_sections l) →
  match flatBinarySize l with
  | Ok (_, _, total) =>
      EmitFlatBinary l = Ok (concat (part l <$> ordered_regions l)) ∧
      Zlen (concat (part l <$> ordered_regions l)) = total
  | Err e => EmitFlatBinary l = Err e
  | _ => False
  end.
Proof.
  intros Hr Hs. unfold EmitFlatBinary, flatBinarySize.
  assert (H : ∀ rs, Forall wf_region rs →
    match flatBinarySize_from l rs with
    | Ok sizes => 0 ≤ foldr Z.add 0 sizes ∧ Zlen (concat (part l <$> rs)) = foldr Z.add 0 sizes ∧
        writeFlatBinaryInto (zeros (foldr Z.add 0 sizes)) l rs sizes = Ok (concat (part l <$> rs))
    | Err _ => True | _ => False end).
  { induction 1 as [|r rs Hwr Hrs IH]; cbn [flatBinarySize_from]; [done|].
    pose proof (region_size_returns l r) as Hret.
    destruct (region_size l r) as [n| | |] eqn:En; cbn [mbind outcome_bind]; try done.
    destruct (region_ok l r n Hwr Hs En) as (H0 & Hl & Hw).
    destruct (flatBinarySize_from l rs) as [ns| | |]; cbn [mbind outcome_bind]; try done.
    destruct IH as (H1 & H2 & H3). rewrite fmap_cons. cbn [concat foldr writeFlatBinaryInto].
    rewrite length_app. split_and!; [lia|lia|].
    destruct (Z.eqb_spec n 0) as [->|].
    + rewrite Z.add_0_l, H3. assert (part l r = []) as -> by (apply nil_length_inv; lia). done.
    + assert (Hz : zeros (n + foldr Z.add 0 ns) = zeros n ++ zeros (foldr Z.add 0 ns)).
      { unfold zeros. rewrite Z2Nat.inj_add by lia. apply replicate_add. }
      assert (Hzn : length (zeros n) = Z.to_nat n) by (unfold zeros; by rewrite length_replicate).
      rewrite Hz, length_app. destruct (Z.ltb_spec (Z.of_nat (length (zeros n) + length (zeros (foldr Z.add 0 ns)))) n); [lia|].
      rewrite take_app_length', drop_app_length' by done. rewrite Hw. cbn [mbind outcome_bind]. rewrite H3. done. }
  specialize (H _ Hr). destruct (flatBinarySize_from l (ordered_regions l)); cbn [mbind outcome_bind]; try done.
  destruct H as (H1 & H2 & H3). split; [|done]. apply H3.
Qed.

(** ** The image of a bare-metal layout *)

Definition up4 (v : Z) : Z := round_up v 4.

(** Data padded to a multiple of four bytes. *)
Definition padded (d : bytes) : bytes := d ++ zeros (up4 (Zlen d) - Zlen d).

Lemma align4Checked_up4 v : 0 ≤ v < 2 ^ 63 → align4Checked v = (up4 v, up4 v <=? 2 ^ 32 - 1).
Proof.
  intros Hv. unfold align4Checked. change 3 with (2 ^ 2 - 1).
  rewrite wrap_small by (unfold is_word; lia). pose proof (round_up_mask v 2) as H.
  change (2 ^ 2) with 4 in *. unfold up4. by rewrite <- H by lia.
Qed.

Lemma up4_bounds v : v ≤ up4 v < v + 4.
Proof. unfold up4. pose proof (round_up_spec v 4). lia. Qed.

Lemma up4_aligned v : Z.land v 3 = 0 → up4 v = v.
Proof.
  change 3 with (Z.ones 2). rewrite Z.land_ones by lia. change (2 ^ 2) with 4. intros H.
  unfold up4, round_up. rewrite H. change ((4 - 0) mod 4) with 0. lia.
Qed.

Lemma place_in_ok r o len o' l' :
  0 ≤ o < 2 ^ 33 → 0 ≤ len < 2 ^ 62 → place_in r o len = Ok (o', l') →
  o' = up4 o ∧ l' = up4 len ∧ o' < 2 ^ 32 ∧ l' < 2 ^ 32 ∧ (0 < l' → o' + l' ≤ rg_origin r + rg_length r).
Proof.
  intros Ho Hl. unfold place_in. rewrite !align4Checked_up4 by lia.
  destruct (Z.leb_spec (up4 o) (2 ^ 32 - 1)); [|done].
  destruct (Z.leb_spec (up4 len) (2 ^ 32 - 1)); [|done]. cbn [negb orb].
  pose proof (up4_bounds o). pose proof (up4_bounds len).
  rewrite wrap_small by (unfold is_word; lia).
  destruct (Z.ltb_spec 0 (up4 len)), (Z.ltb_spec (rg_origin r + rg_length r) (up4 o + up4 len)); cbn [andb];
    try done; intros [= <- <-]; lia.
Qed.

Lemma in_region_outside r s :
  sl_origin s < rg_origin r ∨ rg_origin r + rg_length r ≤ sl_origin s → in_region r s = false.
Proof.
  intros H. unfold in_region. destruct (negb _); [|done]. cbn [andb].
  destruct (Z.leb_spec (rg_origin r) (sl_origin s)), (Z.ltb_spec (sl_origin s) (rg_origin r + rg_length r)); done || lia.
Qed.

Lemma in_region_absent r s : sl_length s = 0 → sl_data s = None → in_region r s = false.
Proof. intros Hl Hd. unfold in_region. by rewrite Hl, Hd. Qed.

Lemma in_region_inside r s :
  rg_origin r ≤ sl_origin s < rg_origin r + rg_length r → (sl_length s ≠ 0 ∨ sl_data s ≠ None) →
  in_region r s = true.
Proof.
  intros H Hp. unfold in_region.
  destruct (Z.leb_spec (rg_origin r) (sl_origin s)), (Z.ltb_spec (sl_origin s) (rg_origin r + rg_length r)); try lia.
  destruct (Z.eqb_spec (sl_length s) 0), (bool_decide (sl_data s = None)) eqn:E; try done.
  apply bool_decide_eq_true in E. tauto.
Qed.

(** A section that starts the region, alone. *)
Lemma filter_cons_in r s l :
  filter (λ s, in_region r s = true) (s :: l) =
    if in_region r s then s :: filter (λ s, in_region r s = true) l else filter (λ s, in_region r s = true) l.
Proof. rewrite filter_cons. by destruct (in_region r s). Qed.

Lemma render_one base s :
  sl_origin s = base → Zlen (data_of (sl_data s)) ≤ sl_length s →
  render base 0 [s] = data_of (sl_data s) ++ zeros (sl_length s - Zlen (data_of (sl_data s))).
Proof. intros Ho H. cbn [render]. by rewrite Ho, Z.sub_diag, app_nil_r. Qed.

Lemma part_one l r s :
  filter (λ s, in_region r s = true) (l_sections l) = (if in_region r s then [s] else []) →
  rg_origin r = sl_origin s → 0 < rg_length r → Zlen (data_of (sl_data s)) ≤ sl_length s →
  part l r = data_of (sl_data s) ++ zeros (sl_length s - Zlen (data_of (sl_data s))).
Proof.
  intros Hf Ho Hr Hd. unfold part, collectSectionsForRegion. rewrite Hf. destruct (in_region r s) eqn:E.
  - cbn [length exchange_sort exchange]. by apply render_one.
  - assert (sl_length s = 0 ∧ sl_data s = None) as [Hl Hn].
    { destruct (decide (sl_length s = 0)) as [Hl|Hl], (decide (sl_data s = None)) as [Hn|Hn]; try done;
        rewrite in_region_inside in E; done || (split; lia) || tauto. }
    rewrite Hl, Hn. done.
Qed.

Lemma part_two l r s b :
  filter (λ s, in_region r s = true) (l_sections l) =
    (if in_region r s then [s] else []) ++ (if in_region r b then [b] else []) →
  rg_origin r = sl_origin s → 0 < rg_length r → Zlen (data_of (sl_data s)) ≤ sl_length s →
  sl_origin b = sl_origin s + sl_length s → sl_data b = None → 0 ≤ sl_length b →
  (0 < sl_length b → sl_origin b + sl_length b ≤ rg_origin r + rg_length r) → 0 ≤ sl_length s →
  part l r = data_of (sl_data s) ++ zeros (sl_length s - Zlen (data_of (sl_data s))) ++ zeros (sl_length b).
Proof.
  intros Hf Ho Hr Hd Hb Hn Hlb Hin Hls. destruct (decide (sl_length b = 0)) as [Hz|Hz].
  - rewrite (in_region_absent r b), app_nil_r in Hf by done.
    rewrite Hz. change (zeros 0) with (@nil Z). rewrite app_nil_r. by apply part_one.
  - rewrite (in_region_inside r b) in Hf by (try (split; lia); by left).
    unfold part, collectSectionsForRegion. rewrite Hf. destruct (in_region r s) eqn:E.
    + cbn [app length exchange_sort exchange]. destruct (Z.ltb_spec (sl_origin b) (sl_origin s)); [lia|].
      cbn [exchange_sort exchange render]. rewrite Hb, Hn, Ho, !Z.sub_diag. cbn [data_of default length app].
      rewrite app_nil_r, Z.sub_0_r, Z.add_0_l, Z.add_simpl_l, Z.sub_diag. done.
    + assert (sl_length s = 0 ∧ sl_data s = None) as [Hl Hns].
      { destruct (decide (sl_length s = 0)) as [Hl|Hl], (decide (sl_data s = None)) as [Hns|Hns]; try done;
          rewrite in_region_inside in E; done || (split; lia) || tauto. }
      cbn [app length exchange_sort exchange render]. rewrite Hn, Hns, Hb, Hl, Ho, Z.add_0_r, Z.sub_diag.
      cbn [data_of default length app]. change (Z.of_nat 0) with 0. by rewrite app_nil_r, !Z.sub_0_r.
Qed.

Definition fits (r : Region) (s : SectionLayout) : Prop :=
  rg_origin r ≤ sl_origin s ∧ (sl_origin s + sl_length s ≤ rg_origin r + rg_length r).

(** Sections of a region that follow one another have a size. *)
Lemma size_two l r s b :
  filter (λ s, in_region r s = true) (l_sections l) =
    (if in_region r s then [s] else []) ++ (if in_region r b then [b] else []) →
  rg_origin r = sl_origin s → sl_origin b = sl_origin s + sl_length s → 0 ≤ sl_length s →
  (in_region r s = true → fits r s) → (in_region r b = true → fits r b) →
  ∃ n, region_size l r = Ok n.
Proof.
  intros Hf Ho Hb Hl Hs Hfb. unfold region_size, collectSectionsForRegion, regionOutputSize, fits in *. rewrite Hf.
  destruct (in_region r s), (in_region r b); cbn [app length exchange_sort exchange regionOutputSize_from];
    try (destruct (Z.ltb_spec (sl_origin b) (sl_origin s)); [lia|]); cbn [exchange_sort exchange regionOutputSize_from];
    repeat match goal with
    | |- context [?a <? ?b] => destruct (Z.ltb_spec a b); [exfalso; destruct_and?; naive_solver lia|]
    end; eauto.
Qed.

Lemma size_one l r s :
  filter (λ s, in_region r s = true) (l_sections l) = (if in_region r s then [s] else []) →
  rg_origin r = sl_origin s → (in_region r s = true → fits r s) → ∃ n, region_size l r = Ok n.
Proof.
  intros Hf Ho Hs. unfold region_size, collectSectionsForRegion, regionOutputSize, fits in *. rewrite Hf.
  destruct (in_region r s); cbn [length exchange_sort exchange regionOutputSize_from]; [|eauto].
  destruct (Hs eq_refl) as [H1 H2].
  destruct (Z.ltb_spec (sl_origin s) (rg_origin r)); [lia|].
  destruct (Z.ltb_spec (sl_origin s - rg_origin r) 0); [lia|].
  destruct (Z.ltb_spec (rg_length r) (sl_origin s - rg_origin r + sl_length s)); [lia|]. eauto.
Qed.

Lemma in_region_true r s :
  in_region r s = true → sl_origin s < rg_origin r + rg_length r ∧ (sl_length s ≠ 0 ∨ sl_data s ≠ None).
Proof.
  unfold in_region. rewrite !andb_true_iff, negb_true_iff. intros [[H1 _] H2]. split; [lia|].
  destruct (Z.eqb_spec (sl_length s) 0); [right|by left].
  destruct (bool_decide (sl_data s = None)) eqn:E; [done|]. by apply bool_decide_eq_false in E.
Qed.

Lemma up4_id v : v mod 4 = 0 → up4 v = v.
Proof. intros H. unfold up4, round_up. rewrite H. change ((4 - 0) mod 4) with 0. lia. Qed.

Lemma up4_add o v : Z.land o 3 = 0 → up4 (o + up4 v) = o + up4 v.
Proof.
  change 3 with (Z.ones 2). rewrite Z.land_ones by lia. change (2 ^ 2) with 4. intros H. apply up4_id.
  pose proof (round_up_spec v 4 ltac:(lia)) as [_ Hv]. fold (up4 v) in Hv.
  rewrite Z.add_mod, H, Hv by lia. done.
Qed.

(** The regions do not meet and are not empty. *)
Definition apart (a b : Region) : Prop :=
  0 < rg_length a ∧ 0 < rg_length b ∧
  (rg_origin a + rg_length a ≤ rg_origin b ∨ rg_origin b + rg_length b ≤ rg_origin a).

Lemma naked_image flash ram text data bss l :
  wf_region flash → wf_region ram → apart flash ram →
  Zlen (data_of text) < 2 ^ 62 → Zlen (data_of data) < 2 ^ 62 → is_word 32 bss →
  NewNakedMemoryLayout flash ram text data bss = Ok l →
  EmitFlatBinary l =
    Ok (if rg_origin ram <? rg_origin flash
        then padded (data_of data) ++ zeros (up4 bss) ++ padded (data_of text)
        else padded (data_of text) ++ padded (data_of data) ++ zeros (up4 bss)).
Proof.
  intros Hf Hr (Hfl & Hrl & Hap) Ht Hd Hb. unfold NewNakedMemoryLayout, is_word in *.
  destruct (Z.eqb_spec (Z.land (rg_origin flash) 3) 0) as [Ef|]; [|done].
  destruct (Z.eqb_spec (Z.land (rg_origin ram) 3) 0) as [Er|]; [|done]. cbn [negb orb].
  destruct Hf as [Hfo Hfle]. destruct Hr as [Hro Hrle]. unfold is_word in *.
  destruct (place_in flash _ _) as [[to tl]| | |] eqn:Et; cbn [mbind outcome_bind]; try done.
  apply place_in_ok in Et as (-> & -> & T1 & T2 & T3); [|lia..].
  destruct (place_in ram (rg_origin ram) _) as [[do dl]| | |] eqn:Ed; cbn [mbind outcome_bind]; try done.
  apply place_in_ok in Ed as (-> & -> & D1 & D2 & D3); [|lia..].
  pose proof (up4_bounds (Zlen (data_of text))). pose proof (up4_bounds (Zlen (data_of data))). pose proof (up4_bounds bss).
  rewrite (up4_aligned (rg_origin flash)), (up4_aligned (rg_origin ram)) in * by done.
  rewrite wrap_small by (unfold is_word; lia).
  destruct (place_in ram (rg_origin ram + _) _) as [[bo bl]| | |] eqn:Eb; cbn [mbind outcome_bind]; try done.
  apply place_in_ok in Eb as (-> & -> & B1 & B2 & B3); [|lia..].
  intros [= <-]. rewrite (up4_add _ _ Er) in *. clear T1 D1.
  set (T := MkSec (bs ".text") _ _ _ _). set (D := MkSec (bs ".data") _ _ _ _). set (B := MkSec (bs ".bss") _ _ _ _).
  set (l := MkLayout _ _).
  assert (HB : in_region flash B = false).
  { destruct (decide (up4 bss = 0)); [by apply in_region_absent|]. apply in_region_outside. cbn. lia. }
  assert (HD : in_region flash D = false) by (apply in_region_outside; cbn; lia).
  assert (HT : in_region ram T = false) by (apply in_region_outside; cbn; lia).
  assert (Ff : filter (λ s, in_region flash s = true) (l_sections l) = (if in_region flash T then [T] else [])).
  { cbn [l_sections l]. rewrite !filter_cons_in, HD, HB. by case_match. }
  assert (Fr : filter (λ s, in_region ram s = true) (l_sections l) =
    (if in_region ram D then [D] else []) ++ (if in_region ram B then [B] else [])).
  { cbn [l_sections l]. rewrite !filter_cons_in, HT. by repeat case_match. }
  destruct (size_one l flash T Ff eq_refl) as [n1 N1].
  { intros [Hin _]%in_region_true. cbn in *. split; cbn; lia. }
  destruct (size_two l ram D B Fr eq_refl eq_refl) as [n2 N2].
  { cbn. lia. }
  { intros [Hin _]%in_region_true. cbn in *. split; cbn; lia. }
  { intros [Hin [Hn|Hn]]%in_region_true; [|done]. cbn in *. split; cbn; lia. }
  assert (P1 : part l flash = padded (data_of text)) by (apply (part_one l flash T Ff); unfold T; cbn [sl_data sl_length sl_origin]; done || lia).
  assert (P2 : part l ram = padded (data_of data) ++ zeros (up4 bss)).
  { unfold padded. rewrite <- app_assoc. apply (part_two l ram D B Fr); unfold D, B; cbn [sl_data sl_length sl_origin]; done || lia. }
  assert (Hord : ordered_regions l = if rg_origin ram <? rg_origin flash then [ram; flash] else [flash; ram]) by done.
  assert (Hwr : wf_region flash ∧ wf_region ram) by (split; split; unfold is_word; lia). destruct Hwr as [Wf Wr].
  assert (Hws : Forall wf_sec (l_sections l)).
  { assert (wf_sec T ∧ wf_sec D ∧ wf_sec B) as (? & ? & ?); [|unfold l; cbn [l_sections]; by rewrite !Forall_cons].
    unfold wf_sec, is_word, T, D, B; cbn [sl_origin sl_length sl_data].
    change (Zlen (data_of None)) with 0. lia. }
  pose proof (emit_render l) as HE. unfold flatBinarySize in HE. rewrite Hord in HE.
  destruct (Z.ltb_spec (rg_origin ram) (rg_origin flash)); cbn [flatBinarySize_from] in HE;
    rewrite N1, N2 in HE; cbn [mbind outcome_bind] in HE;
    (destruct HE as [HE _]; [by rewrite !Forall_cons|done|]);
    rewrite HE, !fmap_cons, P1, P2; cbn [fmap list_fmap concat]; by rewrite ?app_nil_r, <- ?app_assoc.
Qed.

(** ** Properties *)

(** Emitting a layout whose sections hold no more data than their length never
    panics: it reports exactly the error of the size computation, or writes the
    regions in ascending order, each the sections in address order at their
    offsets with zeros between them, and as many bytes as computed. *)
Theorem EmitFlatBinary_image l :
  Forall wf_region (ordered_regions l) → Forall wf_sec (l_sections l) →
  match flatBinarySize l with
  | Ok (_, _, total) =>
      EmitFlatBinary l = Ok (concat (part l <$> ordered_regions l)) ∧
      Zlen (concat (part l <$> ordered_regions l)) = total
  | Err e => EmitFlatBinary l = Err e
  | _ => False
  end.
Proof. apply emit_render. Qed.

Definition gap_layout : Layout :=
  MkLayout (ram0, flash0) [MkSec (bs "b") 0x08000010 8 1 (Some [7; 7]); MkSec (bs "a") 0x08000004 4 1 (Some [1])].

Theorem EmitFlatBinary_image_witness :
  match flatBinarySize gap_layout with
  | Ok (_, _, total) =>
      EmitFlatBinary gap_layout = Ok (concat (part gap_layout <$> ordered_regions gap_layout)) ∧
      Zlen (concat (part gap_layout <$> ordered_regions gap_layout)) = total
  | Err e => EmitFlatBinary gap_layout = Err e
  | _ => False
  end.
Proof.
  apply (EmitFlatBinary_image gap_layout).
  - repeat (apply Forall_cons; split; [split; unfold is_word; cbn; lia|]). apply Forall_nil_2.
  - repeat (apply Forall_cons; split; [unfold wf_sec, is_word; cbn; lia|]). apply Forall_nil_2.
Defined.

(** C6 A layout accepted by NewNakedMemoryLayout for two non-empty regions that do
    not meet is emitted without error, as the text, the data and the bss, each
    padded to four bytes, the region with the lower origin first. *)
Theorem naked_layout_image flash ram text data bss l :
  wf_region flash → wf_region ram → apart flash ram →
  Zlen (data_of text) < 2 ^ 62 → Zlen (data_of data) < 2 ^ 62 → is_word 32 bss →
  NewNakedMemoryLayout flash ram text data bss = Ok l →
  EmitFlatBinary l =
    Ok (if rg_origin ram <? rg_origin flash
        then padded (data_of data) ++ zeros (up4 bss) ++ padded (data_of text)
        else padded (data_of text) ++ padded (data_of data) ++ zeros (up4 bss)).
Proof. apply naked_image. Qed.

Theorem naked_layout_image_witness :
  ∃ l, NewNakedMemoryLayout flash0 ram0 (Some [1; 2; 3; 4; 5]) None 6 = Ok l ∧
       EmitFlatBinary l = Ok (padded [1; 2; 3; 4; 5] ++ padded [] ++ zeros (up4 6)).
Proof.
  eexists. split; [reflexivity|].
  apply (naked_layout_image flash0 ram0 (Some [1; 2; 3; 4; 5]) None 6);
    try reflexivity; unfold wf_region, apart, is_word; cbn; lia.
Defined.
