(* ===== verification/GloriaLex.v ===== *)
(** * The lexer of the Gloria language (src/internal/gloria/types.go, lexer.go)

    Tokens are kinds with the half-open range of the source they cover; the
    lexer is a cursor with one byte of look-ahead.  Every loop of the code
    runs with an explicit fuel, which the theorems show to be enough. *)
From S2P Require Import Prelude.

(** ** Token kinds *)
Inductive TokenType : Type :=
  | ILLEGAL | EOF | IDENT | INT | STRING | ATREG | COMMA | NUMBER | LIT_INT | CONST_INT
  | PLUS | MINUS | PLUS_ASSIGN | MINUS_ASSIGN | ASSIGN | SLASH | LBRACE | RBRACE | LPAREN | RPAREN
  | EQ | LT | GT | AMP | STAR | PERCENT | PIPE | CARET | FN | LET | RETURN | REG | IF | WHILE.

#[export] Instance TokenType_eq_dec : EqDecision TokenType.
Proof. solve_decision. Defined.

(** The value of the Go constant. *)
Definition token_code (t : TokenType) : nat :=
  match t with
  | ILLEGAL => 0 | EOF => 1 | IDENT => 2 | INT => 3 | STRING => 4 | ATREG => 5 | COMMA => 6
  | NUMBER => 7 | LIT_INT => 8 | CONST_INT => 9 | PLUS => 10 | MINUS => 11 | PLUS_ASSIGN => 12
  | MINUS_ASSIGN => 13 | ASSIGN => 14 | SLASH => 15 | LBRACE => 16 | RBRACE => 17 | LPAREN => 18
  | RPAREN => 19 | EQ => 20 | LT => 21 | GT => 22 | AMP => 23 | STAR => 24 | PERCENT => 25
  | PIPE => 26 | CARET => 27 | FN => 28 | LET => 29 | RETURN => 30 | REG => 31 | IF => 32 | WHILE => 33
  end%nat.

Definition token_names : list string :=
  ["ILLEGAL"; "EOF"; "IDENT"; "INT"; "STRING"; "ATREG"; ",";
   "+"; "-"; "+="; "-="; "="; "/"; "{"; "}"; "("; ")";
   "=="; "<"; ">";
   "FN"; "LET"; "RETURN"; "REG"; "IF"; "WHILE"]%string.

Definition TokenType_String (t : TokenType) : string :=
  default "UNKNOWN"%string (token_names !! token_code t).

(** The names are those of the kinds only up to the comma. *)
Example token_names_shifted :
  map TokenType_String [COMMA; NUMBER; PLUS; FN; WHILE] =
  [","; "+"; "-="; "UNKNOWN"; "UNKNOWN"]%string.
Proof. reflexivity. Qed.

Record Token : Type := mk_token { t_type : TokenType; t_start : nat; t_end : nat }.

(** Positions are naturals, so the code's test for a negative start is moot. *)
Definition Literal (t : Token) (src : bytes) : bytes :=
  if (length src <? t_end t)%nat || (t_end t <? t_start t)%nat then []
  else take (t_end t - t_start t) (drop (t_start t) src).

(** ** The cursor *)
Record Lexer : Type := mk_lexer { l_input : bytes; l_pos : nat; l_readPos : nat; l_ch : Z }.

Definition readChar (l : Lexer) : Lexer :=
  mk_lexer (l_input l) (l_readPos l) (S (l_readPos l))
    (if (length (l_input l) <=? l_readPos l)%nat then 0
     else default 0 (l_input l !! l_readPos l)).

Definition NewLexer (input : bytes) : Lexer := readChar (mk_lexer input 0 0 0).

Definition peekChar (l : Lexer) : Z :=
  if (length (l_input l) <=? l_readPos l)%nat then 0 else default 0 (l_input l !! l_readPos l).

Definition isLetter (c : Z) : bool :=
  ((ch "a" <=? c) && (c <=? ch "z")) || ((ch "A" <=? c) && (c <=? ch "Z")) || (c =? ch "_").
Definition isDigit (c : Z) : bool := (ch "0" <=? c) && (c <=? ch "9").
Definition is_word_char (c : Z) : bool := isLetter c || isDigit c.
Definition is_blank (c : Z) : bool := (c =? 32) || (c =? 9) || (c =? 10) || (c =? 13).
Definition in_comment (c : Z) : bool := negb (c =? 10) && negb (c =? 13) && negb (c =? 0).
Definition in_string (c : Z) : bool := negb (c =? 34) && negb (c =? 0).

(** The loops [for f(l.ch) { l.readChar() }]. *)
Fixpoint read_while (fuel : nat) (f : Z → bool) (l : Lexer) : outcome Lexer :=
  match fuel with
  | O => Diverge
  | S n => if f (l_ch l) then read_while n f (readChar l) else Ok l
  end.

Definition lex_fuel (l : Lexer) : nat := S (S (length (l_input l))).

Definition skipWhitespace (l : Lexer) : outcome Lexer := read_while (lex_fuel l) is_blank l.
Definition skipComment (l : Lexer) : outcome Lexer := read_while (lex_fuel l) in_comment l.

Definition scanIdentifier (l : Lexer) : outcome (nat * nat * Lexer) :=
  l' ← read_while (lex_fuel l) is_word_char l; Ok (l_pos l, l_pos l', l').
Definition scanNumber (l : Lexer) : outcome (nat * nat * Lexer) :=
  l' ← read_while (lex_fuel l) isDigit l; Ok (l_pos l, l_pos l', l').
Definition scanAtReg (l : Lexer) : outcome (nat * nat * Lexer) :=
  l' ← read_while (lex_fuel l) is_word_char (readChar l); Ok (l_pos l, l_pos l', l').

Definition readIdentifier (l : Lexer) : outcome (bytes * Lexer) :=
  l' ← read_while (lex_fuel l) is_word_char l;
  s ← slice (l_input l') (l_pos l) (l_pos l'); Ok (s, l').
Definition readNumber (l : Lexer) : outcome (bytes * Lexer) :=
  l' ← read_while (lex_fuel l) isDigit l;
  s ← slice (l_input l') (l_pos l) (l_pos l'); Ok (s, l').
Definition readAtReg (l : Lexer) : outcome (bytes * Lexer) :=
  l' ← read_while (lex_fuel l) is_word_char (readChar l);
  s ← slice (l_input l') (l_pos l) (l_pos l'); Ok (s, l').

Definition lookupIdent (lit : bytes) : TokenType :=
  if bool_decide (lit = bs "fn") then FN
  else if bool_decide (lit = bs "let") then LET
  else if bool_decide (lit = bs "return") then RETURN
  else if bool_decide (lit = bs "reg") then REG
  else if bool_decide (lit = bs "if") then IF
  else if bool_decide (lit = bs "while") then WHILE
  else IDENT.

(** ** The next token *)

(** The first loop of NextToken: blanks and comments. *)
Fixpoint skip_blanks (fuel : nat) (l : Lexer) : outcome Lexer :=
  match fuel with
  | O => Diverge
  | S n =>
      l1 ← skipWhitespace l;
      if (l_ch l1 =? ch "/") && (peekChar l1 =? ch "/")
      then l2 ← skipComment l1; skip_blanks n l2
      else Ok l1
  end.

(** A token of one byte; one of two bytes when [=] follows; a string. *)
Definition one (ty : TokenType) (l : Lexer) : Token * Lexer :=
  let l' := readChar l in (mk_token ty (l_pos l) (l_pos l'), l').

Definition one_or_eq (ty ty_eq : TokenType) (l : Lexer) : Token * Lexer :=
  if peekChar l =? ch "="
  then let l' := readChar (readChar l) in (mk_token ty_eq (l_pos l) (l_pos l'), l')
  else one ty l.

Definition string_token (l : Lexer) : outcome (Token * Lexer) :=
  let start := S (l_pos l) in
  l' ← read_while (lex_fuel l) in_string (readChar l);
  Ok (if l_ch l' =? 34 then (mk_token STRING start (l_pos l'), readChar l')
      else (mk_token ILLEGAL start (l_pos l'), l')).

Definition single_char (c : Z) : option TokenType :=
  if c =? ch "/" then Some SLASH
  else if c =? ch "{" then Some LBRACE
  else if c =? ch "}" then Some RBRACE
  else if c =? ch "(" then Some LPAREN
  else if c =? ch ")" then Some RPAREN
  else if c =? ch "<" then Some LT
  else if c =? ch ">" then Some GT
  else if c =? ch "," then Some COMMA
  else if c =? ch "*" then Some STAR
  else if c =? ch "%" then Some PERCENT
  else if c =? ch "|" then Some PIPE
  else if c =? ch "^" then Some CARET
  else None.

Definition word_token (l : Lexer) : outcome (Token * Lexer) :=
  let c := l_ch l in
  if isLetter c then
    '(start, stop, l') ← scanIdentifier l;
    lit ← slice (l_input l') start stop;
    Ok (mk_token (lookupIdent lit) start stop, l')
  else if isDigit c then
    '(start, stop, l') ← scanNumber l; Ok (mk_token INT start stop, l')
  else Ok (one ILLEGAL l).

Definition scan_token (l : Lexer) : outcome (Token * Lexer) :=
  let c := l_ch l in
  if c =? ch "+" then Ok (one_or_eq PLUS PLUS_ASSIGN l)
  else if c =? 34 then string_token l
  else if c =? ch "-" then Ok (one_or_eq MINUS MINUS_ASSIGN l)
  else if c =? ch "=" then Ok (one_or_eq ASSIGN EQ l)
  else if c =? ch "@" then
    '(start, stop, l') ← scanAtReg l; Ok (mk_token ATREG start stop, l')
  else if c =? 0 then Ok (mk_token EOF (l_pos l) (l_pos l), l)
  else match single_char c with
       | Some ty => Ok (one ty l)
       | None => word_token l
       end.

Definition NextToken (l : Lexer) : outcome (Token * Lexer) :=
  l1 ← skip_blanks (lex_fuel l) l; scan_token l1.

(** The tokens up to the end of the input, with their texts. *)
Fixpoint tokenize (fuel : nat) (l : Lexer) : outcome (list (TokenType * bytes)) :=
  match fuel with
  | O => Diverge
  | S n =>
      '(t, l') ← NextToken l;
      if bool_decide (t_type t = EOF) then Ok []
      else r ← tokenize n l'; Ok ((t_type t, Literal t (l_input l)) :: r)
  end.

Example tokens1 :
  tokenize 20 (NewLexer (bs "let x1 += 42 // done")) =
  Ok [(LET, bs "let"); (IDENT, bs "x1"); (PLUS_ASSIGN, bs "+="); (INT, bs "42")].
Proof. vm_compute. reflexivity. Qed.

(** ** The cursor as a split of the input

    [at_split pre s]: the lexer has consumed [pre] and stands at the first
    byte of [s].  Every reachable lexer has this form. *)
Definition at_split (pre s : bytes) : Lexer :=
  mk_lexer (pre ++ s) (length pre) (S (length pre)) (hd 0 s).

Definition lexer_ok (l : Lexer) : Prop := ∃ pre s, l = at_split pre s.

Lemma at_split_eq pre m s : at_split pre (m ++ s) = mk_lexer ((pre ++ m) ++ s) (length pre) (S (length pre)) (hd 0 (m ++ s)).
Proof. unfold at_split. by rewrite <- app_assoc. Qed.

Lemma lexer_next_byte pre c s :
  (if (length (pre ++ c :: s) <=? S (length pre))%nat then 0
   else default 0 ((pre ++ c :: s) !! S (length pre))) = hd 0 s.
Proof.
  rewrite length_app. cbn [length]. rewrite lookup_app_r by lia.
  replace (S (length pre) - length pre)%nat with 1%nat by lia. cbn.
  destruct s as [|d s]; cbn.
  - by destruct (Nat.leb_spec (length pre + 1) (S (length pre))); [|lia].
  - by destruct (Nat.leb_spec (length pre + S (S (length s))) (S (length pre))); [lia|].
Qed.

Lemma readChar_at pre c s : readChar (at_split pre (c :: s)) = at_split (pre ++ [c]) s.
Proof.
  unfold readChar, at_split. cbn [l_input l_readPos]. rewrite lexer_next_byte.
  rewrite <- app_assoc, length_app. cbn. by rewrite Nat.add_1_r.
Qed.

Lemma peekChar_at pre c s : peekChar (at_split pre (c :: s)) = hd 0 s.
Proof. apply lexer_next_byte. Qed.

Lemma NewLexer_at input : NewLexer input = at_split [] input.
Proof. unfold NewLexer, readChar, at_split. by destruct input. Qed.

Lemma read_while_at f fuel pre s :
  f 0 = false → (length s < fuel)%nat →
  read_while fuel f (at_split pre s) = Ok (at_split (pre ++ (span f s).1) (span f s).2).
Proof.
  intros H0. revert pre s. induction fuel as [|n IH]; intros pre s Hn; [lia|].
  cbn [read_while]. unfold at_split at 1. cbn [l_ch]. destruct s as [|c s]; cbn [hd span].
  - rewrite H0. by rewrite app_nil_r.
  - destruct (f c); [|by rewrite app_nil_r].
    rewrite readChar_at, IH by (cbn in Hn; lia).
    destruct (span f s). by rewrite <- app_assoc.
Qed.

Lemma read_while_fuel f pre s :
  f 0 = false → read_while (lex_fuel (at_split pre s)) f (at_split pre s) =
                Ok (at_split (pre ++ (span f s).1) (span f s).2).
Proof.
  intros H0. apply read_while_at; [done|]. unfold lex_fuel, at_split. cbn. rewrite length_app. lia.
Qed.

(** The same when the lexer has moved on since the fuel was fixed. *)
Lemma read_while_later f pre c s :
  f 0 = false → read_while (lex_fuel (at_split pre (c :: s))) f (at_split (pre ++ [c]) s) =
                Ok (at_split (pre ++ c :: (span f s).1) (span f s).2).
Proof.
  intros H0. rewrite read_while_at; [by rewrite <- app_assoc | done |].
  unfold lex_fuel, at_split. cbn. rewrite length_app. cbn. lia.
Qed.

Lemma hd_span f (s : bytes) : f 0 = false → f (hd 0 (span f s).2) = false.
Proof.
  intros H0. destruct (span f s).2 as [|x r] eqn:E; cbn; [done|]. by eapply span_snd_head.
Qed.

Lemma slice_at (pre m s : bytes) : slice (pre ++ m ++ s) (length pre) (length (pre ++ m)) = Ok m.
Proof. rewrite length_app. apply slice_mid. Qed.

Lemma Literal_at ty (pre m s : bytes) :
  Literal (mk_token ty (length pre) (length (pre ++ m))) (pre ++ m ++ s) = m.
Proof.
  unfold Literal. cbn [t_start t_end]. rewrite !length_app, !(proj2 (Nat.ltb_ge _ _)) by lia.
  cbn [orb]. rewrite drop_app_length. apply take_app_length'. lia.
Qed.

(** ** Every call makes progress and stays inside the input *)

(** What a scanner returns from the split [pre | s]. *)
Definition scans (pre s : bytes) (r : outcome (Token * Lexer)) : Prop :=
  ∃ t m s', r = Ok (t, at_split (pre ++ m) s') ∧ s = m ++ s' ∧
    (length pre ≤ t_start t ≤ t_end t)%nat ∧ (t_end t ≤ length (pre ++ m))%nat ∧
    if bool_decide (t_type t = EOF) then m = [] ∧ hd 0 s' = 0 else m ≠ [].

Lemma scans_one pre c s ty : ty ≠ EOF → scans pre (c :: s) (Ok (one ty (at_split pre (c :: s)))).
Proof.
  intros Hty. unfold one. rewrite readChar_at. eexists _, [c], s. split; [done|].
  cbn. rewrite bool_decide_eq_false_2 by done. rewrite length_app. cbn. repeat split; [lia..|done].
Qed.

Lemma scans_one_or_eq pre c s ty ty' :
  ty ≠ EOF → ty' ≠ EOF → scans pre (c :: s) (Ok (one_or_eq ty ty' (at_split pre (c :: s)))).
Proof.
  intros Hty Hty'. unfold one_or_eq. rewrite peekChar_at.
  destruct (Z.eqb_spec (hd 0 s) (ch "=")) as [E|_]; [|by apply scans_one].
  destruct s as [|d s]; [done|]. rewrite !readChar_at, <- app_assoc. eexists _, [c; d], s.
  split; [done|]. cbn. rewrite bool_decide_eq_false_2 by done. rewrite !length_app. cbn.
  repeat split; [lia..|done].
Qed.

Lemma scans_string pre c s : scans pre (c :: s) (string_token (at_split pre (c :: s))).
Proof.
  unfold string_token. rewrite readChar_at, read_while_later by done. cbn [mbind outcome_bind].
  pose proof (span_app in_string s) as Ha. pose proof (hd_span in_string s eq_refl) as Hh.
  destruct (span in_string s) as [a [|d r]]; cbn [fst snd] in *.
  - eexists _, (c :: a), []. cbn. split; [done|]. rewrite Ha, length_app. cbn. repeat split; [lia..|done].
  - unfold at_split at 1. cbn [l_ch hd]. destruct (Z.eqb_spec d 34) as [->|Hd].
    + rewrite readChar_at. eexists _, (c :: a ++ [34]), r. split; [by rewrite <- app_assoc|].
      cbn. rewrite <- Ha, <- app_assoc. split; [done|]. rewrite !length_app. cbn. rewrite length_app. cbn.
      repeat split; [lia..|done].
    + eexists _, (c :: a), (d :: r). split; [done|]. cbn. rewrite Ha, !length_app. cbn.
      repeat split; [lia..|done].
Qed.

Lemma scans_span pre c s f (ty : bytes → TokenType) :
  (∀ a, ty a ≠ EOF) → f 0 = false → f c = true →
  scans pre (c :: s) (l' ← read_while (lex_fuel (at_split pre (c :: s))) f (at_split pre (c :: s));
    Ok (mk_token (ty (span f (c :: s)).1) (length pre) (l_pos l'), l')).
Proof.
  intros Hty H0 Hc. rewrite read_while_fuel by done. cbn [mbind outcome_bind].
  pose proof (span_app f (c :: s)) as Ha. cbn [span] in *. rewrite Hc in *.
  destruct (span f s) as [a r]. cbn [fst snd] in *. eexists _, (c :: a), r. split; [done|].
  cbn [t_type t_start t_end]. rewrite bool_decide_eq_false_2 by done. unfold at_split. cbn [l_pos].
  rewrite length_app. cbn [length]. repeat split; [done|lia..|done].
Qed.

Lemma is_word_char_0 : is_word_char 0 = false.
Proof. reflexivity. Qed.

Lemma lookupIdent_not_EOF a : lookupIdent a ≠ EOF.
Proof. unfold lookupIdent. by repeat case_bool_decide. Qed.

Lemma word_token_span pre c s :
  isLetter c = true →
  word_token (at_split pre (c :: s)) =
  (l' ← read_while (lex_fuel (at_split pre (c :: s))) is_word_char (at_split pre (c :: s));
   Ok (mk_token (lookupIdent (span is_word_char (c :: s)).1) (length pre) (l_pos l'), l')).
Proof.
  intros Hc. unfold word_token, scanIdentifier. change (l_ch (at_split pre (c :: s))) with c. rewrite Hc.
  rewrite read_while_fuel by done. cbn [mbind outcome_bind].
  pose proof (span_app is_word_char (c :: s)) as Ha.
  destruct (span is_word_char (c :: s)) as [a r]. cbn [fst snd] in *.
  unfold at_split. cbn [l_input l_pos]. rewrite <- app_assoc, slice_at. done.
Qed.

Lemma scans_word pre c s : scans pre (c :: s) (word_token (at_split pre (c :: s))).
Proof.
  destruct (isLetter c) eqn:Hl.
  - rewrite word_token_span by done. apply (scans_span _ _ _ _ lookupIdent); [|done|].
    + apply lookupIdent_not_EOF.
    + unfold is_word_char. by rewrite Hl.
  - unfold word_token. change (l_ch (at_split pre (c :: s))) with c. rewrite Hl.
    destruct (isDigit c) eqn:Hd; [|by apply scans_one].
    pose proof (scans_span pre c s isDigit (λ _, INT) ltac:(done) eq_refl Hd) as (t & m & s' & E & R).
    exists t, m, s'. split; [|exact R]. revert E. unfold scanNumber.
    by destruct (read_while _ _ _).
Qed.

Lemma scans_at pre c s :
  scans pre (c :: s)
    ('(start, stop, l') ← scanAtReg (at_split pre (c :: s)); Ok (mk_token ATREG start stop, l')).
Proof.
  unfold scanAtReg. rewrite readChar_at, read_while_later by done. cbn [mbind outcome_bind].
  pose proof (span_app is_word_char s) as Ha. destruct (span is_word_char s) as [a r]. cbn [fst snd] in *.
  eexists _, (c :: a), r. split; [done|]. subst s. cbn. rewrite length_app. cbn. repeat split; [lia..|done].
Qed.

Lemma scan_token_scans pre s : scans pre s (scan_token (at_split pre s)).
Proof.
  destruct s as [|c s].
  { exists (mk_token EOF (length pre) (length pre)), [], []. cbn. rewrite app_nil_r. repeat split; lia. }
  unfold scan_token. change (l_ch (at_split pre (c :: s))) with c.
  destruct (c =? ch "+"); [by apply scans_one_or_eq|].
  destruct (c =? 34); [apply scans_string|].
  destruct (c =? ch "-"); [by apply scans_one_or_eq|].
  destruct (c =? ch "="); [by apply scans_one_or_eq|].
  destruct (c =? ch "@"); [apply scans_at|].
  destruct (Z.eqb_spec c 0) as [->|Hc].
  { exists (mk_token EOF (length pre) (length pre)), [], (0 :: s). cbn. rewrite app_nil_r. repeat split; lia. }
  assert (Hs : ∀ ty, single_char c = Some ty → ty ≠ EOF).
  { intros ty. unfold single_char. repeat (destruct (_ =? _); [congruence|]). done. }
  destruct (single_char c) as [ty|]; [apply scans_one; by apply Hs|apply scans_word].
Qed.

(** Two slashes. *)
Definition at_comment (s : bytes) : bool := (hd 0 s =? ch "/") && (hd 0 (tl s) =? ch "/").

Lemma skip_blanks_step n pre s :
  skip_blanks (S n) (at_split pre s) =
  let '(a, r) := span is_blank s in
  if at_comment r then let '(b, r') := span in_comment r in skip_blanks n (at_split (pre ++ a ++ b) r')
  else Ok (at_split (pre ++ a) r).
Proof.
  cbn [skip_blanks]. unfold skipWhitespace. rewrite read_while_fuel by done. cbn [mbind outcome_bind].
  destruct (span is_blank s) as [a r]. cbn [fst snd].
  change (l_ch (at_split (pre ++ a) r)) with (hd 0 r). unfold at_comment.
  destruct r as [|c r]; [done|]. rewrite peekChar_at. cbn [hd tl]. destruct (_ && _); [|done].
  unfold skipComment. rewrite read_while_fuel by done. cbn [mbind outcome_bind].
  destruct (span in_comment _) as [b r']. by rewrite <- app_assoc.
Qed.

Lemma at_comment_span s :
  at_comment s = true → (length (span in_comment s).2 < length s)%nat.
Proof.
  intros H. apply andb_prop in H as [H _]. destruct s as [|c s]; [done|]. cbn in *.
  apply Z.eqb_eq in H as ->. cbn. pose proof (span_length in_comment s).
  destruct (span in_comment s). cbn in *. lia.
Qed.

Lemma skip_blanks_at n pre s :
  (length s < n)%nat →
  ∃ m s', s = m ++ s' ∧ skip_blanks n (at_split pre s) = Ok (at_split (pre ++ m) s').
Proof.
  revert pre s. induction n as [|n IH]; intros pre s Hn; [lia|]. rewrite skip_blanks_step.
  pose proof (span_app is_blank s) as Ha. destruct (span is_blank s) as [a r]. cbn [fst snd] in Ha. subst s.
  rewrite length_app in Hn.
  destruct (at_comment r) eqn:Hr; [|by exists a, r].
  pose proof (at_comment_span _ Hr) as Hlen. pose proof (span_app in_comment r) as Hb.
  destruct (span in_comment r) as [b r']. cbn [fst snd] in *.
  destruct (IH (pre ++ a ++ b) r' ltac:(lia)) as (m & s' & -> & ->).
  exists (a ++ b ++ m), s'. subst r. split; by rewrite <- ?app_assoc.
Qed.

(** The result of NextToken: a token inside the input, read past the blanks. *)
Lemma NextToken_at pre s :
  ∃ b t m s', s = b ++ m ++ s' ∧ NextToken (at_split pre s) = Ok (t, at_split (pre ++ b ++ m) s') ∧
    (length (pre ++ b) ≤ t_start t ≤ t_end t)%nat ∧ (t_end t ≤ length (pre ++ b ++ m))%nat ∧
    if bool_decide (t_type t = EOF) then m = [] ∧ hd 0 s' = 0 else m ≠ [].
Proof.
  unfold NextToken.
  destruct (skip_blanks_at (lex_fuel (at_split pre s)) pre s) as (b & r & -> & ->).
  { unfold lex_fuel, at_split. cbn. rewrite length_app. lia. }
  cbn [mbind outcome_bind].
  destruct (scan_token_scans (pre ++ b) r) as (t & m & s' & -> & -> & H1 & H2 & H3).
  rewrite <- app_assoc in *. by exists b, t, m, s'.
Qed.

(** From every reachable lexer NextToken returns (its loops end): the token
    lies in the part of the input it consumed, the input is unchanged, and
    either the kind is EOF and the lexer stands at the end (or at a zero byte),
    or at least one byte was consumed. *)
Theorem NextToken_progress l :
  lexer_ok l →
  ∃ t l', NextToken l = Ok (t, l') ∧ lexer_ok l' ∧ l_input l' = l_input l ∧
    (l_pos l ≤ t_start t ≤ t_end t)%nat ∧ (t_end t ≤ l_pos l' ≤ length (l_input l))%nat ∧
    if bool_decide (t_type t = EOF) then l_ch l' = 0 else (l_pos l < l_pos l')%nat.
Proof.
  intros (pre & s & ->). destruct (NextToken_at pre s) as (b & t & m & s' & -> & E & H1 & H2 & H3).
  exists t, (at_split (pre ++ b ++ m) s'). split; [exact E|]. split; [by eexists _, _|].
  unfold at_split. cbn [l_input l_pos l_ch]. rewrite !length_app in *.
  split; [by rewrite <- !app_assoc|]. split; [lia|]. split; [lia|].
  case_bool_decide; [by destruct H3|]. destruct m; [done|]. cbn. lia.
Qed.

Lemma NextToken_progress_witness :
  lexer_ok (NewLexer (bs "  x = 1")) ∧ ∃ t l', NextToken (NewLexer (bs "  x = 1")) = Ok (t, l') ∧ lexer_ok l'.
Proof.
  assert (H : lexer_ok (NewLexer (bs "  x = 1"))) by (exists [], (bs "  x = 1"); apply NewLexer_at).
  split; [exact H|]. destruct (NextToken_progress _ H) as (t & l' & H1 & H2 & _). by exists t, l'.
Defined.

(** The input is read as a whole, whatever it is. *)
Lemma tokenize_total n pre s :
  (length s < n)%nat → ∃ ts, tokenize n (at_split pre s) = Ok ts.
Proof.
  revert pre s. induction n as [|n IH]; intros pre s Hn; [lia|]. cbn [tokenize].
  destruct (NextToken_at pre s) as (b & t & m & s' & -> & -> & _ & _ & H3). cbn [mbind outcome_bind].
  case_bool_decide; [by eexists|]. rewrite !length_app in Hn.
  destruct (IH (pre ++ b ++ m) s') as [ts ->]; [destruct m; [done|]; cbn in Hn; lia|]. by eexists.
Qed.

(** ** Reading back a printed token sequence *)

(** Blanks and complete comments. *)
Inductive blanks : bytes → Prop :=
  | blanks_nil : blanks []
  | blanks_char c b : is_blank c = true → blanks b → blanks (c :: b)
  | blanks_comment t c b :
      Forall (λ x, in_comment x = true) t → c = 10 ∨ c = 13 → blanks b →
      blanks ([47; 47] ++ t ++ c :: b).

(** What may follow the last token: blanks and perhaps an unfinished comment. *)
Definition trailing (e : bytes) : Prop :=
  ∃ b t, blanks b ∧ Forall (λ x, in_comment x = true) t ∧ (e = b ∨ e = b ++ [47; 47] ++ t).

Definition wordb (t : bytes) : bool :=
  match t with [] => false | c :: r => isLetter c && forallb is_word_char r end.

(** The spelling of a kind. *)
Definition spelled (ty : TokenType) (t : bytes) : bool :=
  match ty with
  | IDENT | FN | LET | RETURN | REG | IF | WHILE => wordb t && bool_decide (lookupIdent t = ty)
  | INT => negb (nilb t) && forallb isDigit t
  | ATREG => match t with c :: r => (c =? ch "@") && forallb is_word_char r | [] => false end
  | STRING =>
      match t with
      | c :: r => (c =? 34) && bool_decide (last r = Some 34) && forallb in_string (removelast r)
      | [] => false
      end
  | PLUS => bool_decide (t = bs "+") | MINUS => bool_decide (t = bs "-")
  | PLUS_ASSIGN => bool_decide (t = bs "+=") | MINUS_ASSIGN => bool_decide (t = bs "-=")
  | ASSIGN => bool_decide (t = bs "=") | EQ => bool_decide (t = bs "==")
  | SLASH => bool_decide (t = bs "/") | LBRACE => bool_decide (t = bs "{") | RBRACE => bool_decide (t = bs "}")
  | LPAREN => bool_decide (t = bs "(") | RPAREN => bool_decide (t = bs ")")
  | LT => bool_decide (t = bs "<") | GT => bool_decide (t = bs ">") | COMMA => bool_decide (t = bs ",")
  | STAR => bool_decide (t = bs "*") | PERCENT => bool_decide (t = bs "%")
  | PIPE => bool_decide (t = bs "|") | CARET => bool_decide (t = bs "^")
  | ILLEGAL | EOF | NUMBER | LIT_INT | CONST_INT | AMP => false
  end.

(** The token does not swallow the byte that follows it. *)
Definition fits (ty : TokenType) (next : Z) : bool :=
  match ty with
  | IDENT | FN | LET | RETURN | REG | IF | WHILE | ATREG => negb (is_word_char next)
  | INT => negb (isDigit next)
  | PLUS | MINUS | ASSIGN => negb (next =? ch "=")
  | SLASH => negb (next =? ch "/")
  | _ => true
  end.

(** The text that the token stands for: strings lose their quotes. *)
Definition token_text (ty : TokenType) (t : bytes) : bytes :=
  if bool_decide (ty = STRING) then removelast (tl t) else t.

Lemma skip_blanks_stop n pre s :
  is_blank (hd 0 s) = false → at_comment s = false →
  skip_blanks (S n) (at_split pre s) = Ok (at_split pre s).
Proof.
  intros H1 H2. rewrite skip_blanks_step. destruct s as [|c s]; cbn in *; [by rewrite app_nil_r|].
  rewrite H1, H2. by rewrite app_nil_r.
Qed.

Lemma skip_blanks_char n pre c s :
  is_blank c = true → skip_blanks n (at_split pre (c :: s)) = skip_blanks n (at_split (pre ++ [c]) s).
Proof.
  intros H. destruct n as [|n]; [done|]. rewrite !skip_blanks_step. cbn [span]. rewrite H.
  destruct (span is_blank s) as [a r]. destruct (at_comment r); [|by rewrite <- app_assoc].
  destruct (span in_comment r). by rewrite <- !app_assoc.
Qed.

Lemma skip_blanks_comment n pre t s :
  Forall (λ x, in_comment x = true) t → in_comment (hd 0 s) = false →
  skip_blanks (S n) (at_split pre ([47; 47] ++ t ++ s)) = skip_blanks n (at_split (pre ++ [47; 47] ++ t) s).
Proof.
  intros Ht Hs. rewrite skip_blanks_step. cbn [span app].
  change (is_blank 47) with false. cbn [span]. change (at_comment (47 :: 47 :: _)) with true. cbn match.
  change (47 :: 47 :: t ++ s) with (([47; 47] ++ t) ++ s). rewrite span_all; [done|by repeat constructor|].
  by destruct s.
Qed.

Lemma skip_blanks_run n pre b s :
  blanks b → (length b < n)%nat → is_blank (hd 0 s) = false → at_comment s = false →
  skip_blanks n (at_split pre (b ++ s)) = Ok (at_split (pre ++ b) s).
Proof.
  intros Hb. revert n pre. induction Hb as [|c b Hc _ IH|t c b Ht Hc _ IH]; intros n pre Hn H1 H2.
  - destruct n as [|n]; [lia|]. cbn [app]. rewrite skip_blanks_stop by done. by rewrite app_nil_r.
  - cbn [app]. rewrite skip_blanks_char by done. rewrite IH; [by rewrite <- app_assoc|cbn in Hn; lia|done..].
  - destruct n as [|n]; [lia|]. rewrite <- !app_assoc. cbn [app].
    change (47 :: 47 :: t ++ c :: b ++ s) with ([47; 47] ++ t ++ (c :: b ++ s)).
    rewrite skip_blanks_comment; [|done|by destruct Hc as [->| ->]].
    rewrite skip_blanks_char by (by destruct Hc as [->| ->]).
    rewrite IH; [|rewrite !length_app in Hn; cbn in Hn; lia|done..].
    by rewrite <- !app_assoc.
Qed.

Lemma lex_fuel_at pre s : (length s < lex_fuel (at_split pre s))%nat.
Proof. unfold lex_fuel, at_split. cbn. rewrite length_app. lia. Qed.

(** [reads ty t rest]: standing before [t], the lexer reads a token of kind
    [ty] with text [token_text ty t] and stops after [t]. *)
Definition reads (ty : TokenType) (t rest : bytes) : Prop :=
  is_blank (hd 0 (t ++ rest)) = false ∧ at_comment (t ++ rest) = false ∧
  ∀ pre, ∃ tok, scan_token (at_split pre (t ++ rest)) = Ok (tok, at_split (pre ++ t) rest) ∧
    t_type tok = ty ∧ Literal tok (pre ++ t ++ rest) = token_text ty t.

Lemma word_char_range c : is_word_char c = true → 48 ≤ c ≤ 122.
Proof. unfold is_word_char, isLetter, isDigit. rewrite !orb_true_iff, !andb_true_iff. lia. Qed.

Lemma letter_range c : isLetter c = true → 65 ≤ c ≤ 122.
Proof. unfold isLetter. rewrite !orb_true_iff, !andb_true_iff. lia. Qed.

Lemma digit_range c : isDigit c = true → 48 ≤ c ≤ 57.
Proof. unfold isDigit. rewrite !andb_true_iff. lia. Qed.

(** No letter or digit starts any other token. *)
Lemma scan_token_word pre c s :
  isLetter c = true ∨ isDigit c = true → scan_token (at_split pre (c :: s)) = word_token (at_split pre (c :: s)).
Proof.
  intros Hc. unfold scan_token. change (l_ch (at_split pre (c :: s))) with c.
  assert (c ≠ 43 ∧ c ≠ 34 ∧ c ≠ 45 ∧ c ≠ 61 ∧ c ≠ 64 ∧ c ≠ 0 ∧ single_char c = None) as (?&?&?&?&?&?&Hs).
  { unfold isLetter, isDigit in Hc. rewrite !orb_true_iff, !andb_true_iff in Hc. unfold single_char.
    repeat match goal with |- context [c =? ?k] => destruct (Z.eqb_spec c k); [lia|] end. repeat split; lia. }
  repeat match goal with |- context [c =? ?k] => destruct (Z.eqb_spec c k); [done|] end. by rewrite Hs.
Qed.

Lemma not_blank_slash c s :
  48 ≤ c ≤ 122 → is_blank (hd 0 (c :: s)) = false ∧ at_comment (c :: s) = false.
Proof.
  intros Hc. unfold is_blank, at_comment. cbn [hd tl].
  split; repeat match goal with |- context [c =? ?k] => destruct (Z.eqb_spec c k); [lia|] end; done.
Qed.

Lemma span_token f t rest :
  Forall (λ x, f x = true) t → f (hd 0 rest) = false → span f (t ++ rest) = (t, rest).
Proof. intros Ht Hr. apply span_all; [done|]. by destruct rest. Qed.

Lemma forallb_Forall' {A} (f : A → bool) l : forallb f l = true → Forall (λ x, f x = true) l.
Proof. intros H. apply List.Forall_forall. by apply forallb_forall. Qed.

Lemma reads_word ty t rest :
  wordb t = true → lookupIdent t = ty → is_word_char (hd 0 rest) = false → reads ty t rest.
Proof.
  intros Hw Hty Hr. destruct t as [|c t]; [done|]. apply andb_prop in Hw as [Hc Ht].
  pose proof (letter_range _ Hc).
  assert (Hs : span is_word_char ((c :: t) ++ rest) = (c :: t, rest)).
  { apply span_token; [|done]. constructor; [by unfold is_word_char; rewrite Hc|]. by apply forallb_Forall'. }
  unfold reads. cbn [app] in *. split; [by apply not_blank_slash; lia|]. split; [by apply not_blank_slash; lia|].
  intros pre. rewrite scan_token_word by tauto. rewrite word_token_span, read_while_fuel by done.
  rewrite Hs. cbn [mbind outcome_bind fst snd]. rewrite Hty. eexists. split; [done|]. split; [done|].
  unfold at_split at 1. cbn [l_pos]. change (c :: t ++ rest) with ((c :: t) ++ rest). rewrite Literal_at.
  unfold token_text. rewrite bool_decide_eq_false_2; [done|]. subst ty. unfold lookupIdent.
  by repeat case_bool_decide.
Qed.

Lemma reads_int t rest :
  nilb t = false → forallb isDigit t = true → isDigit (hd 0 rest) = false → reads INT t rest.
Proof.
  intros Hn Ht Hr. apply forallb_Forall' in Ht.
  pose proof (span_token _ _ _ Ht Hr) as Hs. destruct t as [|c t]; [done|].
  apply Forall_cons in Ht as [Hc Ht]. pose proof (digit_range _ Hc). unfold reads. cbn [app] in *.
  split; [by apply not_blank_slash; lia|]. split; [by apply not_blank_slash; lia|].
  intros pre. rewrite scan_token_word by tauto. unfold word_token, scanNumber.
  change (l_ch (at_split pre (c :: t ++ rest))) with c. rewrite Hc.
  destruct (isLetter c) eqn:Hl; [unfold isLetter in Hl; rewrite !orb_true_iff, !andb_true_iff in Hl; lia|].
  rewrite read_while_fuel by done. rewrite Hs. cbn [mbind outcome_bind fst snd]. eexists. split; [done|].
  split; [done|]. unfold at_split. cbn [l_pos]. change (c :: t ++ rest) with ((c :: t) ++ rest).
  by rewrite Literal_at.
Qed.

Lemma reads_atreg t rest :
  spelled ATREG t = true → is_word_char (hd 0 rest) = false → reads ATREG t rest.
Proof.
  intros Hs Hr. destruct t as [|c t]; [done|]. apply andb_prop in Hs as [Hc Ht].
  apply Z.eqb_eq in Hc as ->. apply forallb_Forall' in Ht. pose proof (span_token _ _ _ Ht Hr) as Hs.
  unfold reads. cbn [app]. split; [done|]. split; [done|]. intros pre.
  change (scan_token _) with
    ('(start, stop, l') ← scanAtReg (at_split pre (64 :: t ++ rest)); Ok (mk_token ATREG start stop, l')).
  unfold scanAtReg. rewrite readChar_at, read_while_later, Hs by done. cbn [mbind outcome_bind fst snd].
  eexists. split; [done|]. split; [done|]. unfold at_split. cbn [l_pos].
  change (64 :: t ++ rest) with ((64 :: t) ++ rest). by rewrite Literal_at.
Qed.

Lemma reads_string t rest : spelled STRING t = true → reads STRING t rest.
Proof.
  intros Hs. destruct t as [|c t]; [done|]. apply andb_prop in Hs as [Hs Ht].
  apply andb_prop in Hs as [Hc Hl]. apply Z.eqb_eq in Hc as ->. apply bool_decide_eq_true in Hl.
  apply forallb_Forall' in Ht.
  assert (t = removelast t ++ [34]) as Et.
  { destruct (exists_last (l := t)) as (a & x & ->); [by intros ->|].
    rewrite last_snoc in Hl. injection Hl as ->. by rewrite removelast_last. }
  set (body := removelast t) in *. rewrite Et. unfold reads. cbn [app].
  split; [done|]. split; [done|]. intros pre.
  change (scan_token _) with (string_token (at_split pre (34 :: (body ++ [34]) ++ rest))).
  unfold string_token. rewrite <- app_assoc. cbn [app]. rewrite readChar_at, read_while_later by done.
  rewrite (span_token in_string body (34 :: rest)) by done. cbn [mbind outcome_bind fst snd app].
  change (l_ch (at_split (pre ++ 34 :: body) (34 :: rest))) with 34. cbn [Z.eqb Pos.eqb].
  rewrite readChar_at, <- app_assoc. cbn [app]. eexists. split; [done|]. split; [done|].
  unfold token_text. cbn [bool_decide decide_rel TokenType_eq_dec tl].
  rewrite bool_decide_eq_true_2 by done. rewrite removelast_last.
  replace (pre ++ 34 :: body ++ 34 :: rest) with ((pre ++ [34]) ++ body ++ 34 :: rest)
    by (by rewrite <- app_assoc).
  unfold at_split. cbn [l_pos].
  replace (S (length pre)) with (length (pre ++ [34])) by (rewrite length_app; cbn; lia).
  replace (pre ++ 34 :: body) with ((pre ++ [34]) ++ body) by (by rewrite <- app_assoc).
  apply Literal_at.
Qed.

Lemma reads_single ty c rest :
  ty ≠ STRING → is_blank c = false → at_comment (c :: rest) = false →
  (∀ pre, scan_token (at_split pre (c :: rest)) = Ok (one ty (at_split pre (c :: rest)))) →
  reads ty [c] rest.
Proof.
  intros Hty Hb Hc Hs. split; [exact Hb|]. split; [exact Hc|]. intros pre. cbn [app].
  rewrite Hs. unfold one. rewrite readChar_at. eexists. split; [done|]. split; [done|].
  unfold at_split. cbn [l_pos]. change (c :: rest) with ([c] ++ rest). rewrite Literal_at.
  unfold token_text. by rewrite bool_decide_eq_false_2.
Qed.

Lemma reads_plain ty ty_eq c rest :
  ty ≠ STRING → is_blank c = false → c ≠ ch "/" → (hd 0 rest =? ch "=") = false →
  (∀ pre, scan_token (at_split pre (c :: rest)) = Ok (one_or_eq ty ty_eq (at_split pre (c :: rest)))) →
  reads ty [c] rest.
Proof.
  intros Hty Hb Hc Hr Hs. apply reads_single; [done..| |].
  - unfold at_comment. cbn [hd]. by destruct (Z.eqb_spec c (ch "/")).
  - intros pre. rewrite Hs. unfold one_or_eq. by rewrite peekChar_at, Hr.
Qed.

Lemma reads_eq ty ty_eq c rest :
  ty_eq ≠ STRING → is_blank c = false → c ≠ ch "/" →
  (∀ pre s, scan_token (at_split pre (c :: s)) = Ok (one_or_eq ty ty_eq (at_split pre (c :: s)))) →
  reads ty_eq [c; ch "="] rest.
Proof.
  intros Hty Hb Hc Hs. split; [exact Hb|]. split.
  { unfold at_comment. cbn [app hd]. by destruct (Z.eqb_spec c (ch "/")). }
  intros pre. cbn [app]. rewrite Hs. unfold one_or_eq. rewrite peekChar_at. cbn [hd Z.eqb Pos.eqb].
  rewrite !readChar_at, <- app_assoc. eexists. split; [done|]. split; [done|].
  unfold at_split. cbn [l_pos app]. change (c :: 61 :: rest) with ([c; 61] ++ rest). rewrite Literal_at.
  unfold token_text. by rewrite bool_decide_eq_false_2.
Qed.

(** Every spelling is read back as its own token. *)
Lemma spelled_reads ty t rest :
  spelled ty t = true → fits ty (hd 0 rest) = true → reads ty t rest.
Proof.
  intros Hs Hf.
  destruct ty; try discriminate Hs;
    try (apply andb_prop in Hs as [Hw Hl]; apply bool_decide_eq_true in Hl;
         apply negb_true_iff in Hf; by apply reads_word);
    cbn [spelled] in Hs; try (apply bool_decide_eq_true in Hs; subst t).
  - apply andb_prop in Hs as [Hn Ht]. apply negb_true_iff in Hn, Hf. by apply reads_int.
  - by apply reads_string.
  - apply negb_true_iff in Hf. by apply reads_atreg.
  - by apply reads_single.
  - apply negb_true_iff in Hf. by apply (reads_plain PLUS PLUS_ASSIGN).
  - apply negb_true_iff in Hf. by apply (reads_plain MINUS MINUS_ASSIGN).
  - by apply (reads_eq PLUS PLUS_ASSIGN).
  - by apply (reads_eq MINUS MINUS_ASSIGN).
  - apply negb_true_iff in Hf. by apply (reads_plain ASSIGN EQ).
  - apply negb_true_iff in Hf. apply reads_single; [done|done| |done]. unfold at_comment. cbn [hd tl].
    exact Hf.
  - by apply reads_single.
  - by apply reads_single.
  - by apply reads_single.
  - by apply reads_single.
  - by apply (reads_eq ASSIGN EQ).
  - by apply reads_single.
  - by apply reads_single.
  - by apply reads_single.
  - by apply reads_single.
  - by apply reads_single.
  - by apply reads_single.
Qed.

Lemma NextToken_reads pre b ty t rest :
  blanks b → reads ty t rest →
  ∃ tok, NextToken (at_split pre (b ++ t ++ rest)) = Ok (tok, at_split (pre ++ b ++ t) rest) ∧
    t_type tok = ty ∧ Literal tok (pre ++ b ++ t ++ rest) = token_text ty t.
Proof.
  intros Hb (H1 & H2 & H3). destruct (H3 (pre ++ b)) as (tok & E1 & E2 & E3).
  exists tok. unfold NextToken. rewrite skip_blanks_run; [|done| |done..].
  - cbn [mbind outcome_bind]. rewrite E1, <- app_assoc. by rewrite <- app_assoc in E3.
  - pose proof (lex_fuel_at pre (b ++ t ++ rest)). rewrite length_app in *. lia.
Qed.

Lemma NextToken_end pre e :
  trailing e → ∃ tok l', NextToken (at_split pre e) = Ok (tok, l') ∧ t_type tok = EOF.
Proof.
  intros (b & t & Hb & Ht & He). unfold NextToken.
  assert (skip_blanks (lex_fuel (at_split pre e)) (at_split pre e) = Ok (at_split (pre ++ e) [])) as ->.
  { pose proof (lex_fuel_at pre e) as Hf. destruct He as [->| ->].
    - rewrite <- (app_nil_r b) at 2. by apply skip_blanks_run.
    - set (n := lex_fuel _) in *. clearbody n. rewrite !length_app in Hf. cbn in Hf. revert pre n Hf.
      induction Hb as [|c b Hc Hb IH|t' c b Ht' Hc Hb IH]; intros pre n Hf.
      + destruct n as [|[|n]]; [lia..|]. rewrite <- (app_nil_r t) at 1. cbn [app].
        change (47 :: 47 :: t ++ []) with ([47; 47] ++ t ++ []). rewrite skip_blanks_comment by done.
        by apply skip_blanks_stop.
      + cbn [app]. rewrite skip_blanks_char by done. rewrite IH by (cbn in Hf; lia). by rewrite <- app_assoc.
      + destruct n as [|n]; [lia|]. rewrite <- !app_assoc. cbn [app].
        change (47 :: 47 :: t' ++ c :: b ++ 47 :: 47 :: t) with ([47; 47] ++ t' ++ (c :: b ++ 47 :: 47 :: t)).
        rewrite skip_blanks_comment; [|done|by destruct Hc as [->| ->]].
        rewrite skip_blanks_char by (by destruct Hc as [->| ->]).
        rewrite !length_app in Hf. cbn in Hf. rewrite IH by lia. by rewrite <- !app_assoc. }
  cbn [mbind outcome_bind]. eexists _, _. split; [reflexivity|]. done.
Qed.

(** A source text: tokens with their spelling, each after some blanks. *)
Abbreviation item := (bytes * (TokenType * bytes))%type.

Definition render (l : list item) (e : bytes) : bytes :=
  foldr (λ '(b, (_, t)) r, b ++ t ++ r) e l.

Fixpoint spaced (l : list item) (e : bytes) : Prop :=
  match l with
  | [] => trailing e
  | (b, (ty, t)) :: r =>
      blanks b ∧ spelled ty t = true ∧ fits ty (hd 0 (render r e)) = true ∧ spaced r e
  end.

(** C13 Lexing a printed program gives its tokens back: whatever blanks and
    comments stand between them, as long as no token runs into the byte after
    it, the kinds and the texts are those that were printed. *)
Theorem lex_roundtrip l e n :
  spaced l e → (length l < n)%nat →
  tokenize n (NewLexer (render l e)) = Ok (map (λ '(_, (ty, t)), (ty, token_text ty t)) l).
Proof.
  rewrite NewLexer_at. generalize (@nil Z) as pre. revert n.
  induction l as [|[b [ty t]] l IH]; intros n pre Hs Hn; (destruct n as [|n]; [cbn in Hn; lia|]).
  - destruct (NextToken_end pre e Hs) as (tok & l' & E & Ht). cbn [tokenize render foldr map].
    rewrite E. cbn [mbind outcome_bind]. by rewrite bool_decide_eq_true_2.
  - destruct Hs as (Hb & Hsp & Hf & Hs). cbn [render foldr] in *.
    destruct (NextToken_reads pre b ty t _ Hb (spelled_reads _ _ _ Hsp Hf)) as (tok & E & Ety & El).
    cbn [tokenize map]. fold (render l e) in *. rewrite E. cbn [mbind outcome_bind].
    rewrite bool_decide_eq_false_2 by (rewrite Ety; by intros ->).
    rewrite IH by (done || cbn in Hn; lia). cbn [mbind outcome_bind l_input at_split].
    by rewrite Ety, El.
Qed.

Lemma lex_roundtrip_witness :
  tokenize 9 (NewLexer (bs "let x=12 // note")) =
  Ok [(LET, bs "let"); (IDENT, bs "x"); (ASSIGN, bs "="); (INT, bs "12")].
Proof.
  apply (lex_roundtrip
    [([], (LET, bs "let")); ([32], (IDENT, bs "x")); ([], (ASSIGN, bs "=")); ([], (INT, bs "12"))]
    (bs " // note") 9); [|cbn; lia].
  cbn. repeat split; try done; try (apply blanks_char; [done|]); try apply blanks_nil.
  exists [32], (bs " note"). split; [by repeat constructor|]. split; [by repeat constructor|]. by right.
Defined.
