(* ===== verification/GloriaCode.v ===== *)
(** * Gloria's machine-code writers (src/internal/gloria/codegen.go, emitter_template.go, fn.go)

    Every writer appends the bytes of one or a few x86-64 instructions to the
    output slice.  Registers are numbers as in the code, whose conversions to
    [byte] wrap; a patch of bytes already written checks its bounds, as the
    index expressions of the code do. *)
From S2P Require Import Prelude.

Definition abiArgRegs : list Z := [7; 6; 2; 1; 8; 9].

Definition regRAX : Z := 0.
Definition regRCX : Z := 1.
Definition regRDX : Z := 2.
Definition regRSI : Z := 6.
Definition regRDI : Z := 7.

(** [byte(base | reg<<3 | rm)]. *)
Definition modrm (base reg rm : Z) : Z := u8 (Z.lor (Z.lor base (Z.shiftl reg 3)) rm).

Definition emitMovRegToStack (out : bytes) (srcReg offset : Z) : bytes :=
  out ++ [0x48; 0x89; modrm 0x80 srcReg 5] ++ le_bytes 4 (i32 offset).

Definition emitMovStackToReg (out : bytes) (dstReg offset : Z) : bytes :=
  out ++ [0x48; 0x8B; modrm 0x80 dstReg 5] ++ le_bytes 4 (i32 offset).

Definition emitCmpRegToReg (out : bytes) (src dst : Z) : bytes :=
  out ++ [0x48; 0x39; modrm 0xC0 src dst].

(** Returns the place of the displacement byte too. *)
Definition emitCondJmp (out : bytes) (op : Z) : nat * bytes :=
  let out := out ++ [op; 0x00] in ((length out - 1)%nat, out).

Definition emitMovImm64ToReg (out : bytes) (reg v : Z) : bytes :=
  out ++ [0x48; u8 (0xB8 + u8 reg)] ++ le_bytes 8 v.

Definition emitMovImm16ToReg (out : bytes) (reg v : Z) : bytes :=
  out ++ [0x66; u8 (0xB8 + u8 reg)] ++ le_bytes 2 v.

Definition emitMovImm8ToReg (out : bytes) (reg v : Z) : bytes :=
  out ++ [u8 (0xB0 + u8 reg); v].

(** The escapes of a string literal: backslash [n] and backslash [t]. *)
Fixpoint parseStringLiteral (str : bytes) : bytes :=
  match str with
  | 92 :: r =>
      match r with
      | 110 :: r' => 10 :: parseStringLiteral r'
      | 116 :: r' => 9 :: parseStringLiteral r'
      | _ => 92 :: parseStringLiteral r
      end
  | c :: r => c :: parseStringLiteral r
  | [] => []
  end.

Definition emitMovRegToReg (out : bytes) (src dst : Z) : bytes := out ++ [0x48; 0x89; modrm 0xC0 src dst].
Definition emitAddRegToReg (out : bytes) (src dst : Z) : bytes := out ++ [0x48; 0x01; modrm 0xC0 src dst].
Definition emitSubRegToReg (out : bytes) (src dst : Z) : bytes := out ++ [0x48; 0x29; modrm 0xC0 src dst].

(** Only the low four bytes of the immediate are written. *)
Definition emitAddImm64ToReg (out : bytes) (reg v : Z) : bytes :=
  out ++ [0x48; 0x81; u8 (Z.lor 0xC0 reg)] ++ le_bytes 4 v.
Definition emitSubImm64ToReg (out : bytes) (reg v : Z) : bytes :=
  out ++ [0x48; 0x81; u8 (Z.lor 0xE8 reg)] ++ le_bytes 4 v.

(** [out[i], ..., out[i+len(bs)-1] = bs...] *)
Definition patch (out : bytes) (i : nat) (b : bytes) : outcome bytes :=
  if (i + length b <=? length out)%nat then Ok (take i out ++ b ++ drop (i + length b) out) else Panic.

Lemma patch_mid (p a b s : bytes) :
  length a = length b → patch (p ++ a ++ s) (length p) b = Ok (p ++ b ++ s).
Proof.
  intros Hab. unfold patch. rewrite !length_app.
  rewrite (proj2 (Nat.leb_le _ _)) by lia. rewrite take_app_length. do 3 f_equal.
  rewrite drop_app_ge by lia. replace (length p + length b - length p)%nat with (length a) by lia.
  apply drop_app_length.
Qed.

(** ** The header of the bare-metal print loop *)
Definition bareMetalPrintHeaderTemplate : bytes :=
  [0x48; 0xBA; 0x00; 0x80; 0x0B; 0x00; 0x00; 0x00;
   0x00; 0x00; 0x48; 0xB9; 0x00; 0x00; 0x00; 0x00;
   0x00; 0x00; 0x00; 0x00; 0x48; 0x8D; 0x35; 0x00;
   0x00; 0x00; 0x00; 0x8A; 0x06; 0xB4; 0x0A; 0x66].

Definition bareMetalPrintHeaderMask : bytes :=
  replicate 12 0 ++ replicate 8 0x80 ++ replicate 3 0 ++ replicate 4 0x80 ++ replicate 5 0.

(** [copy(dst[off:], b)] within the bounds of [dst]. *)
Definition copy_at (dst : bytes) (off : nat) (b : bytes) : bytes :=
  let n := Nat.min (length b) (length dst - off) in
  take off dst ++ take n b ++ drop (off + n) dst.

Definition writeBareMetalPrintHeader (dst : bytes) (len displacement : Z) : outcome bytes :=
  let dst := copy_at dst 0 bareMetalPrintHeaderTemplate in
  dst ← patch dst 12 (le_bytes 8 len);
  patch dst 23 (le_bytes 4 (u32 displacement)).

(** VPBLENDVB: the byte of the third operand where the mask's top bit is set. *)
Definition blend (mask a b : Z) : Z := if Z.testbit mask 7 then a else b.

Fixpoint blend_bytes (mask patched template : bytes) : bytes :=
  match mask, patched, template with
  | m :: ms, p :: ps, t :: ts => blend m p t :: blend_bytes ms ps ts
  | _, _, _ => []
  end.

(** The AVX2 routine and its caller: 32 bytes are loaded, blended and stored. *)
Definition writeBareMetalPrintHeaderAVX2 (dst : bytes) (len displacement : Z) : outcome bytes :=
  p ← patch (replicate 32 0) 12 (le_bytes 8 len);
  p ← patch p 23 (le_bytes 4 (u32 displacement));
  Ok (copy_at dst 0 (blend_bytes bareMetalPrintHeaderMask p bareMetalPrintHeaderTemplate)).

(** [spare]: the bytes between the length and the capacity of [out]. *)
Definition appendBareMetalPrintHeader (spare out : bytes) (len displacement : Z) : outcome bytes :=
  let tail := if (length spare <? 32)%nat then replicate 32 0 else take 32 spare in
  h ← writeBareMetalPrintHeader tail len displacement; Ok (out ++ h).

(** What the header is, whatever was there before. *)
Definition print_header (len displacement : Z) : bytes :=
  [0x48; 0xBA; 0x00; 0x80; 0x0B; 0x00; 0x00; 0x00; 0x00; 0x00] ++ [0x48; 0xB9] ++ le_bytes 8 len ++
  [0x48; 0x8D; 0x35] ++ le_bytes 4 (u32 displacement) ++ [0x8A; 0x06] ++ [0xB4; 0x0A] ++ [0x66].

Lemma writeHeader_eq dst len displacement :
  length dst = 32%nat → writeBareMetalPrintHeader dst len displacement = Ok (print_header len displacement).
Proof.
  intros Hd. unfold writeBareMetalPrintHeader.
  assert (copy_at dst 0 bareMetalPrintHeaderTemplate = bareMetalPrintHeaderTemplate) as ->.
  { unfold copy_at. rewrite Hd. cbn -[bareMetalPrintHeaderTemplate drop].
    rewrite drop_ge by (rewrite Hd; cbn; lia). reflexivity. }
  reflexivity.
Qed.

(** The two versions of the header writer, the portable one and the one that
    blends with AVX2, write the same bytes for every length and displacement;
    and the header appended does not depend on what the slice's spare capacity
    held. *)
Theorem header_writers_agree dst spare out len displacement :
  length dst = 32%nat →
  writeBareMetalPrintHeaderAVX2 dst len displacement = writeBareMetalPrintHeader dst len displacement ∧
  appendBareMetalPrintHeader spare out len displacement = Ok (out ++ print_header len displacement).
Proof.
  intros Hd. split.
  - rewrite writeHeader_eq by done. unfold writeBareMetalPrintHeaderAVX2.
    cbn -[copy_at wrap Z.shiftr]. unfold copy_at. rewrite Hd. cbn -[wrap Z.shiftr drop].
    by rewrite drop_ge by (rewrite Hd; cbn; lia).
  - unfold appendBareMetalPrintHeader. rewrite writeHeader_eq; [done|].
    destruct (Nat.ltb_spec (length spare) 32); [done|]. rewrite length_take. lia.
Qed.

Lemma header_writers_agree_witness :
  length (replicate 32 255) = 32%nat ∧
  writeBareMetalPrintHeaderAVX2 (replicate 32 255) 5 25 = writeBareMetalPrintHeader (replicate 32 255) 5 25.
Proof. split; [done|]. apply (header_writers_agree (replicate 32 255) [] [] 5 25). done. Defined.

(** ** Printing *)
Definition emitBareMetalPrint (out str : bytes) : outcome bytes :=
  let strBytes := parseStringLiteral str in
  let headerStart := length out in
  let loopStart := (headerStart + 27)%nat in
  out ← appendBareMetalPrintHeader [] out (Zlen strBytes) 25;
  let out := out ++ [0x89; 0x02] ++ [0x48; 0x83; 0xC2; 0x02] ++ [0x48; 0xFF; 0xC6] ++
                    [0x48; 0xFF; 0xC9] ++ [0x0F; 0x85; 0; 0; 0; 0] in
  let jnzDispPos := (length out - 4)%nat in
  let jmpDisp := i32 (Z.of_nat loopStart - (Z.of_nat jnzDispPos + 4)) in
  out ← patch out jnzDispPos (le_bytes 4 jmpDisp);
  let out := out ++ [0xEB; u8 (Zlen strBytes)] in
  Ok (out ++ strBytes).

(** The escapes here are those of parseStringLiteral, in the code a second copy
    of its loop. *)
Definition emitLowLevelPrint (out str : bytes) (kernelMode : bool) : bytes :=
  let strBytes := parseStringLiteral str in
  let strLen := Zlen strBytes in
  let out := out ++ [0xEB; u8 strLen] ++ strBytes in
  let disp := i32 (- (strLen + 7)) in
  if kernelMode then
    out ++ [0x48; 0x8D; 0x3D] ++ le_bytes 4 disp ++ [0xE8; 0x00; 0x00; 0x00; 0x00]
  else
    out ++ [0x48; 0x8D; 0x35] ++ le_bytes 4 disp ++ [0x50] ++ [0x57] ++ [0x52] ++ [0x56] ++
      [0x48; 0xC7; 0xC7; 0x01; 0x00; 0x00; 0x00] ++ [0x48; 0xC7; 0xC2] ++ le_bytes 4 strLen ++
      [0x48; 0xC7; 0xC0; 0x01; 0x00; 0x00; 0x00] ++ [0x0F; 0x05] ++
      [0x5E] ++ [0x5A] ++ [0x5F] ++ [0x58].

(** ** The peephole pass: drops what looks like [mov r, r] *)
Definition self_move (m : Z) : bool := Z.land (Z.shiftr m 3) 7 =? Z.land m 7.

Fixpoint peephole (ins : bytes) : bytes :=
  match ins with
  | 0x48 :: ((0x89 :: m :: r') as r) => if self_move m then peephole r' else 0x48 :: peephole r
  | c :: r => c :: peephole r
  | [] => []
  end.

Example peephole_ex : peephole [0x90; 0x48; 0x89; 0xC0; 0x48; 0x89; 0xC8] = [0x90; 0x48; 0x89; 0xC8].
Proof. reflexivity. Qed.

(** ** Stack, ports, numbers, registers *)
Definition emitPushReg (out : bytes) (reg : Z) : bytes :=
  if 8 <=? reg then (out ++ [0x41]) ++ [u8 (0x50 + u8 (reg - 8))] else out ++ [u8 (0x50 + u8 reg)].

Definition emitPopReg (out : bytes) (reg : Z) : bytes :=
  if 8 <=? reg then (out ++ [0x41]) ++ [u8 (0x58 + u8 (reg - 8))] else out ++ [u8 (0x58 + u8 reg)].

Definition emitIn8WithPreserve (out : bytes) (portVal : Z) : bytes :=
  let out := emitPushReg out regRCX in
  let out := emitPushReg out regRDI in
  let out := emitMovImm16ToReg out regRDX portVal in
  let out := out ++ [0xEC] in
  let out := out ++ [0x48; 0x0F; 0xB6; 0xC0] in
  let out := emitPopReg out regRDI in
  emitPopReg out regRCX.

Definition emitOut8WithPreserve (out : bytes) (portVal dataVal : Z) : bytes :=
  let out := emitPushReg out regRCX in
  let out := emitPushReg out regRDI in
  let out := emitPushReg out regRAX in
  let out := emitMovImm16ToReg out regRDX portVal in
  let out := emitMovImm8ToReg out regRAX dataVal in
  let out := out ++ [0xEE] in
  let out := emitPopReg out regRAX in
  let out := emitPopReg out regRDI in
  emitPopReg out regRCX.

Definition digitb (c : Z) : bool := (48 <=? c) && (c <=? 57).

(** [num = num*10 + int64(c-'0')] over the leading digits, in [int64]. *)
Fixpoint number_value (num : Z) (s : bytes) : Z :=
  match s with
  | c :: r => if digitb c then number_value (i64 (num * 10 + (c - 48))) r else num
  | [] => num
  end.

(** Fills an array of 20 digits from its end; a 21st would be out of range. *)
Fixpoint decimal_digits (room : nat) (n : Z) (acc : bytes) : outcome bytes :=
  if 0 <? n then
    match room with
    | O => Panic
    | S k => decimal_digits k (n / 10) (u8 (48 + n mod 10) :: acc)
    end
  else Ok acc.

(** push digit; write(1, rsp, 1); add rsp, 8 *)
Definition print_digit (c : Z) : bytes :=
  [0x6A; c] ++ [0x48; 0xC7; 0xC0; 0x01; 0x00; 0x00; 0x00] ++ [0x48; 0xC7; 0xC7; 0x01; 0x00; 0x00; 0x00] ++
  [0x48; 0x8D; 0x74; 0x24; 0x00] ++ [0x48; 0xC7; 0xC2; 0x01; 0x00; 0x00; 0x00] ++ [0x0F; 0x05] ++
  [0x48; 0x83; 0xC4; 0x08].

Definition emitNumberPrint (out numLit : bytes) : outcome bytes :=
  let num := number_value 0 numLit in
  if num =? 0 then Ok (out ++ print_digit 48)
  else
    digits ← decimal_digits 20 num [];
    Ok (out ++ concat (map print_digit digits)).

Definition regMap : list (bytes * Z) :=
  [(bs "rax", 0); (bs "rcx", 1); (bs "rdx", 2); (bs "rbx", 3); (bs "rsi", 6); (bs "rdi", 7);
   (bs "r8", 8); (bs "r9", 9); (bs "r10", 10); (bs "r11", 11); (bs "r12", 12); (bs "r13", 13);
   (bs "r14", 14); (bs "r15", 15)].

Fixpoint assoc (k : bytes) (l : list (bytes * Z)) : option Z :=
  match l with
  | [] => None
  | (k', v) :: r => if bool_decide (k = k') then Some v else assoc k r
  end.

Definition emitSyscallPrintReg (out : bytes) : bytes :=
  let out := out ++ [0x50] in
  let out := out ++ [0x48; 0xC7; 0xC0; 0x01; 0x00; 0x00; 0x00] in
  let out := out ++ [0x48; 0xC7; 0xC7; 0x01; 0x00; 0x00; 0x00] in
  let out := emitPopReg out regRSI in
  let out := out ++ [0x48; 0xC7; 0xC2; 0x01; 0x00; 0x00; 0x00] in
  out ++ [0x0F; 0x05].

Definition emitRegisterPrint (out regName : bytes) : bytes :=
  match assoc regName regMap with
  | None => out
  | Some regIdx =>
      let out := emitPushReg out regRAX in
      let out := emitPushReg out regRCX in
      let out := emitPushReg out regRDX in
      let out := if regIdx =? regRAX then out
                 else if regIdx <=? 7 then emitMovRegToReg out regIdx regRAX
                 else out ++ [0x49; 0x89; u8 (0xC0 + u8 (regIdx - 8))] in
      let out := emitSyscallPrintReg out in
      let out := emitPopReg out regRDX in
      let out := emitPopReg out regRCX in
      emitPopReg out regRAX
  end.

(** leave; ret *)
Definition EmitEpilogue (out : bytes) : bytes := (out ++ [0xC9]) ++ [0xC3].

(** ** What the writers produce *)

Definition is_digit (c : Z) : Prop := 48 ≤ c ≤ 57.
Definition digit_step (a c : Z) : Z := a * 10 + (c - 48).

Lemma digits_grow s a : Forall is_digit s → 0 ≤ a → a ≤ foldl digit_step a s.
Proof.
  intros Hs. revert a. induction Hs as [|c s Hc _ IH]; intros a Ha; cbn [foldl]; [lia|].
  unfold is_digit in Hc. etrans; [|apply IH; unfold digit_step; lia]. unfold digit_step. lia.
Qed.

Lemma number_value_digits s a :
  Forall is_digit s → 0 ≤ a → foldl digit_step a s < 2 ^ 63 → number_value a s = foldl digit_step a s.
Proof.
  intros Hs. revert a. induction Hs as [|c s Hc Hs IH]; intros a Ha Hlt; cbn [foldl number_value] in *; [done|].
  unfold is_digit in Hc. assert (digitb c = true) as -> by (unfold digitb; lia).
  pose proof (digits_grow s (digit_step a c) Hs ltac:(unfold digit_step; lia)).
  rewrite swrap_small; [apply IH; [unfold digit_step; lia|done]|lia|].
  unfold digit_step in *. change (2 ^ (64 - 1)) with (2 ^ 63). lia.
Qed.

Lemma decimal_digits_spec room n acc :
  0 ≤ n < 10 ^ Z.of_nat room →
  ∃ ds, decimal_digits room n acc = Ok (ds ++ acc) ∧ Forall is_digit ds ∧ foldl digit_step 0 ds = n ∧
        (n = 0 → ds = []) ∧ (0 < n → ds ≠ [] ∧ hd 0 ds ≠ 48).
Proof.
  revert n acc. induction room as [|k IH]; intros n acc Hn.
  - assert (n = 0) as -> by (cbn in Hn; lia). exists []. cbn. repeat split; (constructor || lia).
  - cbn [decimal_digits]. destruct (Z.ltb_spec 0 n) as [Hp|Hp].
    2: { assert (n = 0) as -> by lia. exists []. repeat split; (constructor || lia). }
    rewrite Nat2Z.inj_succ, Z.pow_succ_r in Hn by lia.
    pose proof (Z.mod_pos_bound n 10 ltac:(lia)) as Hm. pose proof (Z.div_mod n 10 ltac:(lia)) as Hdm.
    destruct (IH (n / 10) (u8 (48 + n mod 10) :: acc)) as (ds & -> & Hds & Hv & H0 & Hnz).
    { split; [apply Z.div_pos; lia|]. apply Z.div_lt_upper_bound; lia. }
    rewrite wrap_small by (unfold is_word; lia). exists (ds ++ [48 + n mod 10]).
    rewrite <- app_assoc. split; [done|]. split.
    { apply Forall_app. split; [done|]. constructor; [|done]. unfold is_digit. lia. }
    rewrite foldl_app, Hv. cbn [foldl]. unfold digit_step. split; [lia|]. split; [lia|]. intros _.
    split; [by destruct ds|]. destruct (decide (0 < n / 10)) as [Hd|Hd].
    + destruct (Hnz Hd) as [Hne Hh]. by destruct ds.
    + rewrite H0 by (pose proof (Z.div_pos n 10); lia). cbn.
      rewrite (Z.div_small_iff n 10) in *; [|lia..]. lia.
Qed.

(** The print of a number prints its decimal digits: for a literal of digits
    below 2^63 the code is one write call per digit, and the digits, without
    leading zeros, denote the literal. *)
Theorem emitNumberPrint_digits out numLit :
  Forall is_digit numLit →
  let v := foldl digit_step 0 numLit in
  v < 2 ^ 63 →
  ∃ ds, emitNumberPrint out numLit = Ok (out ++ concat (map print_digit ds)) ∧
    Forall is_digit ds ∧ foldl digit_step 0 ds = v ∧
    ds ≠ [] ∧ (hd 0 ds = 48 → ds = [48]).
Proof.
  intros Hs v Hv. unfold emitNumberPrint.
  rewrite number_value_digits by (done || lia). fold v.
  pose proof (digits_grow numLit 0 Hs ltac:(lia)) as Hpos. fold v in Hpos.
  destruct (Z.eqb_spec v 0) as [->|Hv0].
  - exists [48]. cbn [map concat]. rewrite app_nil_r. repeat split; [|done]. by repeat constructor.
  - destruct (decimal_digits_spec 20 v []) as (ds & -> & Hds & Hval & _ & Hnz).
    { split; [lia|]. etrans; [exact Hv|]. vm_compute. done. }
    rewrite app_nil_r. exists ds. destruct (Hnz ltac:(lia)). by repeat split.
Qed.

Lemma emitNumberPrint_digits_witness :
  ∃ ds, emitNumberPrint [] (bs "0420") = Ok ([] ++ concat (map print_digit ds)) ∧
        foldl digit_step 0 ds = 420.
Proof.
  destruct (emitNumberPrint_digits [] (bs "0420")) as (ds & H & _ & Hv & _).
  - repeat constructor; unfold is_digit; lia.
  - vm_compute. reflexivity.
  - by exists ds.
Defined.
