(* ===== verification/GloriaEmit.v ===== *)
(** * The Gloria compiler (src/internal/gloria/state.go, fn.go, emitter.go)

    A one-pass compiler: the tokens of a function's body are consumed one by
    one and machine code is appended to a byte slice.  [M] is the state that the
    closures nextToken and peekToken and the variables [out] and [state] of
    CompileFunc share, with the errors of the code. *)
From S2P Require Import Prelude GloriaLex GloriaCode.

(** ** Variables (state.go) *)
Record compilerState : Type := mk_cstate {
  vars : gmap bytes Z;
  declared : gmap bytes bool;
  stackOffset : Z }.

Definition newCompilerState : compilerState := mk_cstate ∅ ∅ 0.

Definition is_declared (s : compilerState) (name : bytes) : bool := default false (declared s !! name).

Definition getStackOffset (s : compilerState) (name : bytes) : outcome Z :=
  if negb (is_declared s name) then
    Err ("variable '" +:+ string_of_bytes name +:+ "' is not declared! Use 'let " +:+
         string_of_bytes name +:+ " = ...'")
  else Ok (default 0 (vars s !! name)).

Definition declareAndAlloc (s : compilerState) (name : bytes) : outcome (Z * compilerState) :=
  if is_declared s name then Err ("variable '" +:+ string_of_bytes name +:+ "' redeclared")
  else
    let off := stackOffset s - 8 in
    Ok (off, mk_cstate (<[name := off]> (vars s)) (<[name := true]> (declared s)) off).

(** ** Function headers (fn.go) *)

(** [abiArgRegs[i]]: a seventh argument is out of range. *)
Definition argReg (i : nat) : outcome Z :=
  match abiArgRegs !! i with Some r => Ok r | None => Panic end.

Fixpoint header_args (fuel : nat) (l : Lexer) (src : bytes) (args : list bytes) : outcome (list bytes * Lexer) :=
  match fuel with
  | O => Diverge
  | S n =>
      '(tok, l) ← NextToken l;
      if bool_decide (t_type tok = RPAREN) then Ok (args, l)
      else if bool_decide (t_type tok = IDENT) then
        let args := args ++ [Literal tok src] in
        '(next, l) ← NextToken l;
        if bool_decide (t_type next = RPAREN) then Ok (args, l)
        else if bool_decide (Literal next src = bs ",") || bool_decide (t_type next = COMMA)
        then header_args n l src args
        else if bool_decide (t_type next = IDENT) then header_args n l src (args ++ [Literal next src])
        else header_args n l src args
      else if bool_decide (Literal tok src = bs ",") || bool_decide (t_type tok = COMMA)
      then header_args n l src args
      else Err "expected argument name or ')'"
  end.

Definition ParseFunctionHeader (l : Lexer) (src : bytes) : outcome (list bytes * Lexer) :=
  '(t, l) ← NextToken l;
  if negb (bool_decide (t_type t = IDENT)) then Err "expected function name" else
  '(t, l) ← NextToken l;
  if negb (bool_decide (t_type t = LPAREN)) then Err "expected (" else
  '(args, l) ← header_args (lex_fuel l) l src [];
  if (6 <? length args)%nat then Err "gloria supports max 6 arguments for now (system V ABI limits)" else
  '(t, l) ← NextToken l;
  if negb (bool_decide (t_type t = LBRACE)) then Err "expected {" else Ok (args, l).

Fixpoint store_args (i : nat) (out : bytes) (s : compilerState) (args : list bytes)
    : outcome (bytes * compilerState) :=
  match args with
  | [] => Ok (out, s)
  | argName :: rest =>
      '(offset, s) ← declareAndAlloc s argName;
      r ← argReg i;
      store_args (S i) (emitMovRegToStack out r offset) s rest
  end.

(** push rbp; mov rbp, rsp; sub rsp, 128; the arguments to their slots. *)
Definition EmitPrologue (out : bytes) (s : compilerState) (args : list bytes) : outcome (bytes * compilerState) :=
  let out := out ++ [0x55] in
  let out := out ++ [0x48; 0x89; 0xE5] in
  let out := out ++ [0x48; 0x81; 0xEC; 0x80; 0x00; 0x00; 0x00] in
  store_args 0 out s args.

(** ** Tables of the emitter *)
Record FunctionProto : Type := mk_proto { fp_Name : bytes; fp_Offset : Z; fp_Args : list bytes }.

Record Relocation : Type := mk_rel { CallInstructionOffset : Z; TargetFuncName : bytes }.

Record FuncAST : Type := mk_func { name : bytes; args : list bytes; bodyTokens : list Token }.

(** strconv.ParseUint(s, 10, 64): the value and whether the error is nil. *)
Fixpoint ParseUint_loop (n : Z) (s : bytes) : Z * bool :=
  match s with
  | [] => (n, true)
  | c :: r =>
      if digitb c then
        let n1 := n * 10 + (c - 48) in
        if max_uint64 <? n1 then (max_uint64, false) else ParseUint_loop n1 r
      else (0, false)
  end.

Definition ParseUint (s : bytes) : Z * bool :=
  match s with [] => (0, false) | _ => ParseUint_loop 0 s end.

(** ** The compiler's monad *)
Record fstate : Type := mk_f { f_out : bytes; f_state : compilerState; f_toks : list Token }.

Definition M (A : Type) : Type := fstate → outcome (A * fstate).

#[export] Instance M_ret : MRet M := λ A a f, Ok (a, f).
#[export] Instance M_bind : MBind M := λ A B k m f,
  match m f with
  | Ok (a, f') => k a f'
  | Err e => Err e
  | Panic => Panic
  | Diverge => Diverge
  end.

Definition EOF_token : Token := mk_token EOF 0 0.

Definition nextToken : M Token := λ f,
  match f_toks f with
  | [] => Ok (EOF_token, f)
  | t :: r => Ok (t, mk_f (f_out f) (f_state f) r)
  end.

Definition peekToken : M Token := λ f,
  match f_toks f with [] => Ok (EOF_token, f) | t :: _ => Ok (t, f) end.

Definition fail {A} (e : string) : M A := λ _, Err e.
Definition guard_or (b : bool) (e : string) : M unit := if b then mret tt else fail e.
Definition is_type (t : Token) (ty : TokenType) : bool := bool_decide (t_type t = ty).
Definition expect (ty : TokenType) (e : string) : M unit :=
  t ← nextToken; guard_or (is_type t ty) e.

(** [out = w(out)], for a writer [w] without and with errors. *)
Definition emit_ (w : bytes → bytes) : M unit := λ f, Ok (tt, mk_f (w (f_out f)) (f_state f) (f_toks f)).
Definition try_emit (w : compilerState → bytes → outcome bytes) : M unit := λ f,
  o ← w (f_state f) (f_out f); Ok (tt, mk_f o (f_state f) (f_toks f)).

Definition out_len : M nat := λ f, Ok (length (f_out f), f).
Definition token_fuel : M nat := λ f, Ok (S (length (f_toks f)), f).
Definition offset_of (x : bytes) : M Z := λ f, o ← getStackOffset (f_state f) x; Ok (o, f).
Definition declare (x : bytes) : M Z := λ f,
  '(o, s) ← declareAndAlloc (f_state f) x; Ok (o, mk_f (f_out f) s (f_toks f)).
Definition arg_reg (i : nat) : M Z := λ f, r ← argReg i; Ok (r, f).

(** What a statement leads to: the next one, or the function's result. *)
Inductive flow : Type := Next | Done (code : bytes) (relocs : list Relocation).

Section source.
Variable src : bytes.

Definition lit (t : Token) : bytes := Literal t src.
Definition immediate (t : Token) : Z := (ParseUint (lit t)).1.

(** ** Expressions and built-in calls *)

Fixpoint builtin_args (fuel : nat) (acc : list bytes) : M (list bytes) :=
  match fuel with
  | O => λ _, Diverge
  | S n =>
      argTok ← nextToken;
      if is_type argTok RPAREN || is_type argTok EOF then mret acc
      else if is_type argTok COMMA then builtin_args n acc
      else if negb (is_type argTok IDENT) && negb (is_type argTok INT)
      then fail "expected identifier or integer inside call"
      else
        next ← nextToken;
        let acc := acc ++ [lit argTok] in
        if is_type next RPAREN then mret acc
        else if is_type next COMMA then builtin_args n acc
        else fail "expected ',' or ')' after argument"
  end.

Definition parseBuiltinArgs : M (list bytes) := n ← token_fuel; builtin_args n [].

Definition emitLoadValue (out : bytes) (tok : Token) (reg : Z) (s : compilerState) : outcome bytes :=
  match t_type tok with
  | INT =>
      let '(v, ok) := ParseUint (lit tok) in
      if ok then Ok (emitMovImm64ToReg out reg v) else Err "invalid integer literal"
  | IDENT =>
      if bool_decide (lit tok = bs "peek") then Err "peek must be handled as a builtin call"
      else offset ← getStackOffset s (lit tok); Ok (emitMovStackToReg out reg offset)
  | _ => Err "expected integer or variable"
  end.

Definition emitBinaryOp (out : bytes) (op : TokenType) (rhs : Token) (s : compilerState) : outcome bytes :=
  if is_type rhs INT then
    let '(v, ok) := ParseUint (lit rhs) in
    if negb ok then Err "invalid integer literal"
    else if bool_decide (op = PLUS) then Ok (emitAddImm64ToReg out 0 v) else Ok (emitSubImm64ToReg out 0 v)
  else
    offset ← getStackOffset s (lit rhs);
    let out := emitMovStackToReg out 1 offset in
    if bool_decide (op = PLUS) then Ok (emitAddRegToReg out 1 0) else Ok (emitSubRegToReg out 1 0).

Definition emitPrintValue (out : bytes) (tok : Token) (s : compilerState) : outcome bytes :=
  match t_type tok with
  | STRING => emitBareMetalPrint out (lit tok)
  | INT => emitNumberPrint out (lit tok)
  | IDENT =>
      let regName := lit tok in
      match assoc regName regMap with
      | Some _ => Ok (emitRegisterPrint out regName)
      | None =>
          offset ← getStackOffset s regName;
          Ok (emitRegisterPrint (emitMovStackToReg out 0 offset) (bs "rax"))
      end
  | _ => Err "print expects a string, number, or variable"
  end.

Definition emitCondition (out : bytes) (lhsTok rhsTok : Token) (s : compilerState) : outcome bytes :=
  out ← emitLoadValue out lhsTok 0 s;
  out ← emitLoadValue out rhsTok 1 s;
  Ok (emitCmpRegToReg out 1 0).

Definition parseExpression (firstTok : Token) : M unit :=
  try_emit (λ s out, emitLoadValue out firstTok 0 s);;
  opTok ← peekToken;
  if is_type opTok PLUS || is_type opTok MINUS then
    nextToken;;
    rhs ← nextToken;
    try_emit (λ s out, emitBinaryOp out (t_type opTok) rhs s)
  else mret tt.

(** One argument of out8 or in8: an immediate within its range or a variable. *)
Definition port_arg (out : bytes) (arg : bytes) (limit : Z) (e : string)
    (imm : bytes → Z → bytes) (reg : Z) (s : compilerState) : outcome bytes :=
  let '(v, ok) := ParseUint arg in
  if ok then (if limit <? v then Err e else Ok (imm out v))
  else offset ← getStackOffset s arg; Ok (emitMovStackToReg out reg offset).

Definition emitBuiltinCall (fn : bytes) (args : list bytes) (s : compilerState) (out : bytes) : outcome bytes :=
  if bool_decide (fn = bs "out8") then
    match args with
    | [port; data] =>
        out ← port_arg out port 0xFFFF "out8 port immediate out of range" (λ o, emitMovImm16ToReg o 2) 2 s;
        out ← port_arg out data 0xFF "out8 data immediate out of range" (λ o, emitMovImm8ToReg o 0) 0 s;
        Ok (out ++ [0xEE])
    | _ => Err "out8 expects exactly 2 arguments"
    end
  else if bool_decide (fn = bs "in8") then
    match args with
    | [port] =>
        out ← port_arg out port 0xFFFF "in8 port immediate out of range" (λ o, emitMovImm16ToReg o 2) 2 s;
        Ok ((out ++ [0xEC]) ++ [0x48; 0x0F; 0xB6; 0xC0])
    | _ => Err "in8 expects exactly 1 argument"
    end
  else Ok out.

(** [out8(...)] and [in8(...)], from the opening parenthesis on. *)
Definition builtin_stmt (fn : bytes) : M unit :=
  expect LPAREN ("expected '(' after " +:+ string_of_bytes fn);;
  args ← parseBuiltinArgs;
  try_emit (emitBuiltinCall fn args).

Definition is_port_call (t : Token) : bool :=
  is_type t IDENT && (bool_decide (lit t = bs "out8") || bool_decide (lit t = bs "in8")).
Definition is_name (t : Token) (w : bytes) : bool := is_type t IDENT && bool_decide (lit t = w).

(** [print(...)], from the opening parenthesis on. *)
Definition print_stmt : M unit :=
  expect LPAREN "expected '(' after print";;
  argTok ← nextToken;
  if is_type argTok RPAREN then fail "print expects an argument"
  else if is_type argTok STRING then
    expect RPAREN "expected ')' after print string";;
    try_emit (λ _ out, emitBareMetalPrint out (lit argTok))
  else if is_type argTok INT then
    expect RPAREN "expected ')' after print number";;
    try_emit (λ _ out, emitNumberPrint out (lit argTok))
  else if is_type argTok IDENT then
    expect RPAREN "expected ')' after print register";;
    emit_ (λ out, emitRegisterPrint out (lit argTok))
  else fail "print expects string, number, or register".

(** The argument [i] of peek and poke to its register. *)
Definition load_arg (i : nat) (arg : bytes) : M unit :=
  let '(v, ok) := ParseUint arg in
  if ok then r ← arg_reg i; emit_ (λ out, emitMovImm64ToReg out r v)
  else
    offset ← offset_of arg;
    r ← arg_reg i;
    emit_ (λ out, emitMovStackToReg out r offset).

(** movzx eax, word [rdi] *)
Definition peek_bytes : bytes := [0x0F; 0xB7; 0x07].
(** mov [rdi], si *)
Definition poke_bytes : bytes := [0x66; 0x89; 0x37].

(** ** Statements *)

Definition store_imm (offset v : Z) : M unit :=
  emit_ (λ out, emitMovImm64ToReg out 0 v);; emit_ (λ out, emitMovRegToStack out 0 offset).

(** [in8(...)] as a right-hand side. *)
Definition assign_in8 (offset : Z) : M unit :=
  expect LPAREN "expected '(' after in8";;
  args ← parseBuiltinArgs;
  try_emit (emitBuiltinCall (bs "in8") args);;
  emit_ (λ out, emitMovRegToStack out 0 offset).

(** [x += n] and [x -= n]. *)
Definition update_imm (op : TokenType) (offset v : Z) : M unit :=
  emit_ (λ out, emitMovStackToReg out 0 offset);;
  (if bool_decide (op = PLUS_ASSIGN) then emit_ (λ out, emitAddImm64ToReg out 0 v)
   else emit_ (λ out, emitSubImm64ToReg out 0 v));;
  emit_ (λ out, emitMovRegToStack out 0 offset).

Definition let_peek (offset : Z) : M unit :=
  expect LPAREN "expected '(' after peek";;
  addrTok ← nextToken;
  guard_or (is_type addrTok IDENT || is_type addrTok INT) "expected address inside peek(...)";;
  expect RPAREN "expected ')' after peek address";;
  load_arg 0 (lit addrTok);;
  emit_ (λ out, out ++ peek_bytes);;
  emit_ (λ out, emitMovRegToStack out 0 offset).

Definition let_stmt : M unit :=
  nameTok ← nextToken;
  guard_or (is_type nameTok IDENT) "expected variable name after let";;
  expect ASSIGN "expected '=' after variable name";;
  offset ← declare (lit nameTok);
  rhs ← nextToken;
  if is_type rhs INT then store_imm offset (immediate rhs)
  else if is_name rhs (bs "peek") then let_peek offset
  else if is_name rhs (bs "in8") then assign_in8 offset
  else fail "let only supports immediate integers or peek() on RHS".

(** The assignments in the body of an [if]: other right-hand sides than integers
    are consumed and ignored. *)
Definition if_assign (offset : Z) : M unit :=
  assignOp ← nextToken;
  if is_type assignOp ASSIGN then
    rhs ← nextToken;
    if is_type rhs INT then store_imm offset (immediate rhs) else mret tt
  else if is_type assignOp PLUS_ASSIGN || is_type assignOp MINUS_ASSIGN then
    rhs ← nextToken;
    if is_type rhs INT then update_imm (t_type assignOp) offset (immediate rhs) else mret tt
  else mret tt.

Definition while_assign (offset : Z) : M unit :=
  assignOp ← nextToken;
  if is_type assignOp ASSIGN then
    rhs ← nextToken;
    if is_type rhs INT then store_imm offset (immediate rhs)
    else if is_name rhs (bs "in8") then assign_in8 offset
    else mret tt
  else if is_type assignOp PLUS_ASSIGN || is_type assignOp MINUS_ASSIGN then
    rhs ← nextToken;
    if is_type rhs INT then update_imm (t_type assignOp) offset (immediate rhs) else mret tt
  else mret tt.

(** One statement of a body, given its first token. *)
Definition body_stmt (assign : Z → M unit) (bodyTok : Token) : M unit :=
  if is_name bodyTok (bs "print") then print_stmt
  else if is_port_call bodyTok then builtin_stmt (lit bodyTok)
  else if is_type bodyTok IDENT then offset ← offset_of (lit bodyTok); assign offset
  else mret tt.

Fixpoint if_body (fuel : nat) : M unit :=
  match fuel with
  | O => λ _, Diverge
  | S n =>
      bodyTok ← nextToken;
      if is_type bodyTok RBRACE || is_type bodyTok EOF then mret tt
      else body_stmt if_assign bodyTok;; if_body n
  end.

Fixpoint while_body (fuel : nat) : M unit :=
  match fuel with
  | O => λ _, Diverge
  | S n =>
      bodyTok ← nextToken;
      if is_type bodyTok EOF then fail "unclosed '{' in while loop"
      else if is_type bodyTok RBRACE then mret tt
      else body_stmt while_assign bodyTok;; while_body n
  end.

(** jge, jle, jne: the jump over the body. *)
Definition jump_unless (op : TokenType) : Z :=
  match op with LT => 0x7D | GT => 0x7E | EQ => 0x75 | _ => 0 end.

Definition if_stmt : M unit :=
  lhsTok ← nextToken;
  guard_or (is_type lhsTok IDENT) "expected variable on LHS of 'if'";;
  lOffset ← offset_of (lit lhsTok);
  opTok ← nextToken;
  guard_or (is_type opTok LT || is_type opTok GT || is_type opTok EQ)
    "expected comparison operator (<, >, ==) in 'if'";;
  rhsTok ← nextToken;
  guard_or (is_type rhsTok IDENT) "expected variable on RHS of 'if'";;
  rOffset ← offset_of (lit rhsTok);
  expect LBRACE "expected '{' after 'if' condition";;
  emit_ (λ out, emitMovStackToReg out 0 lOffset);;
  emit_ (λ out, emitMovStackToReg out 1 rOffset);;
  emit_ (λ out, emitCmpRegToReg out 1 0);;
  emit_ (λ out, (emitCondJmp out (jump_unless (t_type opTok))).2);;
  bodyStart ← out_len;
  n ← token_fuel;
  if_body n;;
  bodyEnd ← out_len;
  let bodyLen := (bodyEnd - bodyStart)%nat in
  guard_or (bodyLen <=? 127)%nat "body of 'if' is too large for short jump (max 127 bytes)";;
  try_emit (λ _ out, patch out (bodyStart - 1) [u8 (Z.of_nat bodyLen)]).

Definition while_stmt : M unit :=
  condTok ← nextToken;
  guard_or (is_type condTok IDENT) "expected variable name after while";;
  condOffset ← offset_of (lit condTok);
  expect LBRACE "expected '{' after while condition";;
  loopStartOffset ← out_len;
  emit_ (λ out, emitMovStackToReg out 0 condOffset);;
  emit_ (λ out, emitMovImm64ToReg out 1 0);;
  emit_ (λ out, emitCmpRegToReg out 1 0);;
  jzOffsetInCode ← out_len;
  emit_ (λ out, out ++ [0x0F; 0x84; 0x00; 0x00; 0x00; 0x00]);;
  n ← token_fuel;
  while_body n;;
  emit_ (λ out, out ++ [0xE9]);;
  jmpAddrOffset ← out_len;
  emit_ (λ out, out ++ [0x00; 0x00; 0x00; 0x00]);;
  currentLen ← out_len;
  try_emit (λ _ out, patch out jmpAddrOffset (le_bytes 4 (i32 (Z.of_nat loopStartOffset - Z.of_nat currentLen))));;
  loopEndOffset ← out_len;
  try_emit (λ _ out, patch out (jzOffsetInCode + 2)
    (le_bytes 4 (i32 (Z.of_nat loopEndOffset - (Z.of_nat jzOffsetInCode + 6))))).

(** The arguments of [poke]: anything but names and integers is skipped. *)
Fixpoint poke_args (fuel : nat) (acc : list bytes) : M (list bytes) :=
  match fuel with
  | O => λ _, Diverge
  | S n =>
      tok ← nextToken;
      if is_type tok RPAREN || is_type tok EOF then mret acc
      else
        let acc := if is_type tok IDENT || is_type tok INT then acc ++ [lit tok] else acc in
        next ← nextToken;
        if is_type next RPAREN then mret acc else poke_args n acc
  end.

Fixpoint load_args (i : nat) (args : list bytes) : M unit :=
  match args with
  | [] => mret tt
  | arg :: rest => load_arg i arg;; load_args (S i) rest
  end.

Definition poke_call : M unit :=
  n ← token_fuel;
  args ← poke_args n [];
  guard_or (length args =? 2)%nat "poke expects exactly 2 arguments: poke(address, value)";;
  load_args 0 args;;
  emit_ (λ out, out ++ poke_bytes).

(** [x = peek(...)]: the closing parenthesis is left to the statement loop. *)
Definition assign_peek (offset : Z) : M unit :=
  expect LPAREN "expected '(' after peek";;
  addrTok ← nextToken;
  load_arg 0 (lit addrTok);;
  emit_ (λ out, out ++ peek_bytes);;
  emit_ (λ out, emitMovRegToStack out 0 offset).

(** Between two variables the code stores rax into both. *)
Definition assign_var (offset : Z) (rhs : Token) : M unit :=
  rOffset ← offset_of (lit rhs);
  emit_ (λ out, emitMovRegToStack out 0 rOffset);;
  emit_ (λ out, emitMovRegToStack out 0 offset).

Definition update_var (op : TokenType) (offset : Z) (rhs : Token) : M unit :=
  rOffset ← offset_of (lit rhs);
  emit_ (λ out, emitMovStackToReg out 0 offset);;
  emit_ (λ out, emitMovStackToReg out 1 rOffset);;
  (if bool_decide (op = PLUS_ASSIGN) then emit_ (λ out, emitAddRegToReg out 1 0)
   else emit_ (λ out, emitSubRegToReg out 1 0));;
  emit_ (λ out, emitMovRegToStack out 0 offset).

(** What follows the variable and the operator. *)
Definition assign_op (offset : Z) (op : Token) : M unit :=
  if is_type op ASSIGN then
    rhs ← nextToken;
    if is_type rhs INT then store_imm offset (immediate rhs)
    else if is_name rhs (bs "in8") then assign_in8 offset
    else if is_name rhs (bs "peek") then assign_peek offset
    else if is_type rhs IDENT then assign_var offset rhs
    else mret tt
  else if is_type op PLUS_ASSIGN || is_type op MINUS_ASSIGN then
    rhs ← nextToken;
    if is_type rhs INT then update_imm (t_type op) offset (immediate rhs)
    else if is_type rhs IDENT then update_var (t_type op) offset rhs
    else mret tt
  else mret tt.

(** A statement that starts with a variable. *)
Definition assign_stmt (t : Token) : M unit :=
  offset ← offset_of (lit t);
  op ← nextToken;
  assign_op offset op.

(** The end of the function. *)
Definition finish (relocs : list Relocation) : M flow := λ f,
  Ok (Done (peephole (EmitEpilogue (f_out f))) relocs, f).

(** The arguments of a call: names, everything else is skipped; the loop ends
    only at a closing parenthesis. *)
Fixpoint call_args (fuel : nat) (acc : list bytes) : M (list bytes) :=
  match fuel with
  | O => λ _, Diverge
  | S n =>
      argTok ← nextToken;
      if is_type argTok RPAREN then mret acc
      else if is_type argTok IDENT then
        let acc := acc ++ [lit argTok] in
        next ← nextToken;
        if is_type next RPAREN then mret acc else call_args n acc
      else call_args n acc
  end.

Fixpoint load_call_args (i : nat) (args : list bytes) : M unit :=
  match args with
  | [] => mret tt
  | argName :: rest =>
      offset ← offset_of argName;
      r ← arg_reg i;
      emit_ (λ out, emitMovStackToReg out r offset);;
      load_call_args (S i) rest
  end.

Definition return_call (calledFuncName : bytes) : M flow :=
  if bool_decide (calledFuncName = bs "out8") || bool_decide (calledFuncName = bs "in8") then
    nextToken;;
    args ← parseBuiltinArgs;
    try_emit (emitBuiltinCall calledFuncName args);;
    finish []
  else if bool_decide (calledFuncName = bs "poke") then
    nextToken;; poke_call;; finish []
  else
    n ← token_fuel;
    callArgs ← call_args n [];
    load_call_args 0 callArgs;;
    callInstOffset ← out_len;
    emit_ (λ out, out ++ [0xE8; 0x00; 0x00; 0x00; 0x00]);;
    finish [mk_rel (Z.of_nat callInstOffset) calledFuncName].

(** [return x + y] and the like; [op] is the token after the variable. *)
Definition return_op (lhsName : bytes) : M flow :=
  opTok ← nextToken;
  rhsTok ← nextToken;
  guard_or (is_type rhsTok IDENT || is_type rhsTok INT)
    "expected variable or integer after operator in return";;
  lOffset ← offset_of lhsName;
  emit_ (λ out, emitMovStackToReg out 0 lOffset);;
  (if is_type rhsTok IDENT then
     rOffset ← offset_of (lit rhsTok);
     emit_ (λ out, emitMovStackToReg out 1 rOffset);;
     emit_ (λ out, if is_type opTok PLUS then emitAddRegToReg out 1 0 else emitSubRegToReg out 1 0)
   else
     emit_ (λ out, if is_type opTok PLUS then emitAddImm64ToReg out 0 (immediate rhsTok)
                   else emitSubImm64ToReg out 0 (immediate rhsTok)));;
  finish [].

Definition return_stmt : M flow :=
  nxt ← nextToken;
  pk ← peekToken;
  if is_type nxt IDENT && is_type pk LPAREN then return_call (lit nxt)
  else if is_type nxt IDENT && (is_type pk PLUS || is_type pk MINUS) then return_op (lit nxt)
  else
    (if is_type nxt IDENT then
       offset ← offset_of (lit nxt); emit_ (λ out, emitMovStackToReg out 0 offset)
     else if is_type nxt INT then emit_ (λ out, emitMovImm64ToReg out 0 (immediate nxt))
     else mret tt);;
    finish [].

(** One round of the statement loop, given the statement's first token. *)
Definition statement (t : Token) : M flow :=
  if is_type t LET then let_stmt;; mret Next
  else if is_type t IF then if_stmt;; mret Next
  else if is_type t WHILE then while_stmt;; mret Next
  else if is_name t (bs "print") then print_stmt;; mret Next
  else if is_port_call t then builtin_stmt (lit t);; mret Next
  else if is_name t (bs "poke") then
    expect LPAREN "expected '(' after poke";; poke_call;; mret Next
  else if is_type t IDENT then assign_stmt t;; mret Next
  else if is_type t RETURN then return_stmt
  else mret Next.

Fixpoint statements (fuel : nat) : M flow :=
  match fuel with
  | O => λ _, Diverge
  | S n =>
      t ← nextToken;
      if is_type t EOF then finish []
      else
        r ← statement t;
        match r with
        | Next => statements n
        | Done code relocs => mret (Done code relocs)
        end
  end.

(** The function table is not consulted here: calls are resolved by Emit. *)
Definition CompileFunc (f : FuncAST) (funcTable : gmap bytes FunctionProto)
    : outcome (bytes * list Relocation) :=
  '(out, s) ← EmitPrologue [] newCompilerState (args f);
  '(r, _) ← statements (S (length (bodyTokens f))) (mk_f out s (bodyTokens f));
  match r with
  | Done code relocs => Ok (code, relocs)
  | Next => Diverge
  end.

(** ** The whole program *)

(** The parameters: no token but a closing parenthesis ends the loop. *)
Fixpoint params (fuel : nat) (l : Lexer) (acc : list bytes) : outcome (list bytes * Lexer) :=
  match fuel with
  | O => Diverge
  | S n =>
      '(t, l) ← NextToken l;
      if is_type t RPAREN then Ok (acc, l)
      else if is_type t IDENT then
        let acc := acc ++ [lit t] in
        '(next, l) ← NextToken l;
        if is_type next RPAREN then Ok (acc, l) else params n l acc
      else params n l acc
  end.

(** The tokens up to the closing brace of the body. *)
Fixpoint body_tokens (fuel : nat) (braceCount : Z) (l : Lexer) (acc : list Token) : outcome (list Token * Lexer) :=
  match fuel with
  | O => Diverge
  | S n =>
      '(t, l) ← NextToken l;
      if is_type t EOF then Err "unexpected EOF inside function body"
      else
        let braceCount := if is_type t LBRACE then braceCount + 1 else braceCount in
        if is_type t RBRACE then
          let braceCount := braceCount - 1 in
          if braceCount =? 0 then Ok (acc, l) else body_tokens n braceCount l (acc ++ [t])
        else body_tokens n braceCount l (acc ++ [t])
  end.

(** A declaration, after its keyword. *)
Definition func_decl (l : Lexer) : outcome (FuncAST * Lexer) :=
  '(nameTok, l) ← NextToken l;
  if negb (is_type nameTok IDENT) then Err "expected function name" else
  '(t, l) ← NextToken l;
  if negb (is_type t LPAREN) then Err "expected (" else
  '(args, l) ← params (lex_fuel l) l [];
  '(t, l) ← NextToken l;
  if negb (is_type t LBRACE) then Err "expected {" else
  '(body, l) ← body_tokens (lex_fuel l) 1 l [];
  Ok (mk_func (lit nameTok) args body, l).

(** Tokens outside the functions are skipped. *)
Fixpoint declarations (fuel : nat) (l : Lexer) (acc : list FuncAST) : outcome (list FuncAST) :=
  match fuel with
  | O => Diverge
  | S n =>
      '(tok, l) ← NextToken l;
      if is_type tok EOF then Ok acc
      else if is_type tok FN then '(d, l) ← func_decl l; declarations n l (acc ++ [d])
      else declarations n l acc
  end.

Fixpoint compile_all (decls : list FuncAST) (funcTable : gmap bytes FunctionProto) (out : bytes)
    (relocations : list Relocation) : outcome (gmap bytes FunctionProto * bytes * list Relocation) :=
  match decls with
  | [] => Ok (funcTable, out, relocations)
  | decl :: rest =>
      let proto := mk_proto (name decl) (Zlen out) (args decl) in
      let funcTable := <[name decl := proto]> funcTable in
      '(funcBytes, funcRelocs) ← CompileFunc decl funcTable;
      let moved := map (λ r, mk_rel (CallInstructionOffset r + fp_Offset proto) (TargetFuncName r)) funcRelocs in
      compile_all rest funcTable (out ++ funcBytes) (relocations ++ moved)
  end.

Fixpoint link_calls (relocations : list Relocation) (funcTable : gmap bytes FunctionProto) (out : bytes) : outcome bytes :=
  match relocations with
  | [] => Ok out
  | r :: rest =>
      match funcTable !! TargetFuncName r with
      | None => Err ("gloria: undefined function call: " +:+ string_of_bytes (TargetFuncName r))
      | Some target =>
          let callTarget := i32 (fp_Offset target - (CallInstructionOffset r + 5)) in
          out ← patch out (Z.to_nat (CallInstructionOffset r) + 1) (le_bytes 4 callTarget);
          link_calls rest funcTable out
      end
  end.

Definition Emit : outcome bytes :=
  let l := NewLexer src in
  funcDecls ← declarations (lex_fuel l) l [];
  let out := [0xE9; 0x00; 0x00; 0x00; 0x00] in
  '(funcTable, out, relocations) ← compile_all funcDecls ∅ out [];
  match funcTable !! bs "main" with
  | None => Err "gloria: main function not found"
  | Some mainFunc =>
      let jmpTarget := i32 (fp_Offset mainFunc - 5) in
      out ← patch out 1 (le_bytes 4 jmpTarget);
      link_calls relocations funcTable out
  end.
End source.

Example emit1 :
  Emit (bs "fn main() { let x = 3 return x + 4 }") =
  Ok [233; 0; 0; 0; 0;
      85; 72; 137; 229; 72; 129; 236; 128; 0; 0; 0;
      72; 184; 3; 0; 0; 0; 0; 0; 0; 0; 72; 137; 133; 248; 255; 255; 255;
      72; 139; 133; 248; 255; 255; 255; 72; 129; 192; 4; 0; 0; 0; 201; 195].
Proof. vm_compute. reflexivity. Qed.

(** ** Unclosed parentheses *)

(** The loops over the parameters of a declaration and over the arguments of
    a call end only at a closing parenthesis: at the end of the input they run
    for ever, so that Emit does not return on [fn main(]. *)
Theorem unclosed_lists_hang src :
  (∀ n pre acc, params src n (at_split pre []) acc = Diverge) ∧
  (∀ n acc out s, call_args src n acc (mk_f out s []) = Diverge) ∧
  Emit (bs "fn main(") = Diverge ∧ Emit (bs "fn main() { return f( }") = Diverge.
Proof.
  split; [|split; [|split; vm_compute; reflexivity]].
  - induction n as [|n IH]; intros pre acc; [done|]. cbn [params].
    assert (NextToken (at_split pre []) = Ok (mk_token EOF (length pre) (length pre), at_split pre [])) as ->.
    { unfold NextToken, lex_fuel. rewrite skip_blanks_stop by done. done. }
    cbn [mbind outcome_bind]. apply IH.
  - induction n as [|n IH]; intros acc out s; [done|]. cbn [call_args]. apply IH.
Qed.
