(* ===== verification/GloriaMach.v ===== *)
(** * The x86-64 subset that compiled Gloria functions use

    A decoder and a step function written from the instruction set reference,
    independently of the writers of GloriaCode: the instruction pointer is an
    offset into the code, registers hold 64-bit words, the stack is a memory
    of aligned 64-bit cells.  An instruction outside the subset, an access
    that is not aligned and a jump on flags that no comparison set have no
    step. *)
From S2P Require Import Prelude GloriaCode.

(** [op]: the digit of the ALU operation (0 add, 5 sub, 7 cmp); [cc]: the
    condition code (4 e, 5 ne, 13 ge, 14 le). *)
Inductive ins : Type :=
  | MovRI (r v : Z)
  | Load (r disp : Z)
  | Store (r disp : Z)
  | MovRR (dst src : Z)
  | Alu (op dst src : Z)
  | AluI (op r imm : Z)
  | Push (r : Z)
  | Leave
  | Ret
  | Jcc (cc disp : Z)
  | Jmp (disp : Z)
  | Call (disp : Z).

Definition md_mod (m : Z) : Z := Z.shiftr m 6.
Definition md_reg (m : Z) : Z := Z.land (Z.shiftr m 3) 7.
Definition md_rm (m : Z) : Z := Z.land m 7.

Definition dword (a b c d : Z) : Z := i32 (le_val [a; b; c; d]).

(** The instructions with the prefix REX.W. *)
Definition decode_rexw (l : bytes) : option (ins * nat) :=
  match l with
  | op :: m :: r =>
      if (0xB8 <=? op) && (op <=? 0xBF) then
        if (7 <=? length r)%nat then Some (MovRI (op - 0xB8) (le_val (m :: take 7 r)), 10%nat) else None
      else
        match r with
        | a :: b :: c :: d :: _ =>
            if (md_mod m =? 2) && (md_rm m =? 5) then
              if op =? 0x8B then Some (Load (md_reg m) (dword a b c d), 7%nat)
              else if op =? 0x89 then Some (Store (md_reg m) (dword a b c d), 7%nat)
              else None
            else if md_mod m =? 3 then
              if op =? 0x89 then Some (MovRR (md_rm m) (md_reg m), 3%nat)
              else if op =? 0x01 then Some (Alu 0 (md_rm m) (md_reg m), 3%nat)
              else if op =? 0x29 then Some (Alu 5 (md_rm m) (md_reg m), 3%nat)
              else if op =? 0x39 then Some (Alu 7 (md_rm m) (md_reg m), 3%nat)
              else if op =? 0x81 then Some (AluI (md_reg m) (md_rm m) (dword a b c d), 7%nat)
              else None
            else None
        | _ =>
            if md_mod m =? 3 then
              if op =? 0x89 then Some (MovRR (md_rm m) (md_reg m), 3%nat)
              else if op =? 0x01 then Some (Alu 0 (md_rm m) (md_reg m), 3%nat)
              else if op =? 0x29 then Some (Alu 5 (md_rm m) (md_reg m), 3%nat)
              else if op =? 0x39 then Some (Alu 7 (md_rm m) (md_reg m), 3%nat)
              else None
            else None
        end
  | _ => None
  end.

Definition rel32 (r : bytes) (mk : Z → ins) (n : nat) : option (ins * nat) :=
  match r with a :: b :: c :: d :: _ => Some (mk (dword a b c d), n) | _ => None end.

Definition decode (l : bytes) : option (ins * nat) :=
  match l with
  | [] => None
  | op :: r =>
      if op =? 0x48 then decode_rexw r
      else if (0x50 <=? op) && (op <=? 0x57) then Some (Push (op - 0x50), 1%nat)
      else if op =? 0xC9 then Some (Leave, 1%nat)
      else if op =? 0xC3 then Some (Ret, 1%nat)
      else if (0x70 <=? op) && (op <=? 0x7F) then
        match r with d :: _ => Some (Jcc (op - 0x70) (swrap 8 d), 2%nat) | _ => None end
      else if op =? 0xE9 then rel32 r Jmp 5
      else if op =? 0xE8 then rel32 r Call 5
      else if op =? 0x0F then
        match r with
        | op2 :: r => if (0x80 <=? op2) && (op2 <=? 0x8F) then rel32 r (Jcc (op2 - 0x80)) 6 else None
        | _ => None
        end
      else None
  end.

(** ** Execution *)
Record mach : Type := mk_mach {
  rip : Z;
  regs : Z → Z;
  mem : Z → Z;
  flags : option (Z * Z) }.

Definition rax : Z := 0.
Definition rsp : Z := 4.
Definition rbp : Z := 5.

Definition upd (f : Z → Z) (k v : Z) : Z → Z := λ k', if k' =? k then v else f k'.

Definition set_rip (a : Z) (s : mach) : mach := mk_mach a (regs s) (mem s) (flags s).
Definition set_reg (r v : Z) (s : mach) : mach := mk_mach (rip s) (upd (regs s) r v) (mem s) (flags s).
Definition set_flags (c : option (Z * Z)) (s : mach) : mach := mk_mach (rip s) (regs s) (mem s) c.
Definition set_mem (a v : Z) (s : mach) : mach := mk_mach (rip s) (regs s) (upd (mem s) a v) (flags s).

Definition aligned (a : Z) : bool := a mod 8 =? 0.
Definition load (a : Z) (s : mach) : option Z := if aligned a then Some (mem s a) else None.
Definition store (a v : Z) (s : mach) : option mach := if aligned a then Some (set_mem a v s) else None.

Definition push (v : Z) (s : mach) : option mach :=
  let a := u64 (regs s rsp - 8) in store a v (set_reg rsp a s).
Definition pop (s : mach) : option (Z * mach) :=
  v ← load (regs s rsp) s; Some (v, set_reg rsp (u64 (regs s rsp + 8)) s).

(** Comparisons leave their operands, as signed numbers, in [flags]. *)
Definition alu (op r a b : Z) (s : mach) : option mach :=
  if op =? 0 then Some (set_flags None (set_reg r (u64 (a + b)) s))
  else if op =? 5 then Some (set_flags None (set_reg r (u64 (a - b)) s))
  else if op =? 7 then Some (set_flags (Some (i64 a, i64 b)) s)
  else None.

Definition cond (cc : Z) (c : Z * Z) : option bool :=
  let '(a, b) := c in
  if cc =? 4 then Some (a =? b) else if cc =? 5 then Some (negb (a =? b))
  else if cc =? 13 then Some (b <=? a) else if cc =? 14 then Some (a <=? b) else None.

(** [s] already stands at the next instruction. *)
Definition exec (i : ins) (s : mach) : option mach :=
  match i with
  | MovRI r v => Some (set_reg r v s)
  | Load r d => v ← load (u64 (regs s rbp + d)) s; Some (set_reg r v s)
  | Store r d => store (u64 (regs s rbp + d)) (regs s r) s
  | MovRR dst src => Some (set_reg dst (regs s src) s)
  | Alu op dst src => alu op dst (regs s dst) (regs s src) s
  | AluI op r imm => alu op r (regs s r) (u64 imm) s
  | Push r => push (regs s r) s
  | Leave =>
      let s := set_reg rsp (regs s rbp) s in
      '(v, s) ← pop s; Some (set_reg rbp v s)
  | Ret => '(a, s) ← pop s; Some (set_rip a s)
  | Jcc cc d => c ← flags s; b ← cond cc c; Some (if (b : bool) then set_rip (rip s + d) s else s)
  | Jmp d => Some (set_rip (rip s + d) s)
  | Call d => s' ← push (rip s) s; Some (set_rip (rip s + d) s')
  end.

Definition step (code : bytes) (s : mach) : option mach :=
  if rip s <? 0 then None
  else '(i, n) ← decode (drop (Z.to_nat (rip s)) code); exec i (set_rip (rip s + Z.of_nat n) s).

Fixpoint run (n : nat) (code : bytes) (s : mach) : option mach :=
  match n with O => Some s | S k => s' ← step code s; run k code s' end.

(** [s] leads to [s'] in some number of steps. *)
Definition leads (code : bytes) (s s' : mach) : Prop := ∃ n, run n code s = Some s'.

Lemma run_app n k code s : run (n + k) code s = s' ← run n code s; run k code s'.
Proof. revert s. induction n as [|n IH]; intros s; cbn; [done|]. destruct (step code s); cbn; [apply IH|done]. Qed.

Lemma leads_refl code s : leads code s s.
Proof. by exists 0%nat. Qed.

Lemma leads_trans code s1 s2 s3 : leads code s1 s2 → leads code s2 s3 → leads code s1 s3.
Proof. intros [n H1] [k H2]. exists (n + k)%nat. by rewrite run_app, H1. Qed.

(** [code] has the bytes [b] at offset [a]. *)
Definition at_code (code b : bytes) (a : Z) : Prop := 0 ≤ a ∧ ∃ q, drop (Z.to_nat a) code = b ++ q.

Lemma leads_ins code s b i s' s2 :
  at_code code b (rip s) → (∀ tl, decode (b ++ tl) = Some (i, length b)) →
  exec i (set_rip (rip s + Zlen b) s) = Some s' → leads code s' s2 → leads code s s2.
Proof.
  intros (H0 & q & Hq) Hd He Hl. apply (leads_trans _ _ s'); [|done]. exists 1%nat. cbn [run]. unfold step.
  destruct (Z.ltb_spec (rip s) 0); [lia|]. rewrite Hq, Hd. cbn [mbind option_bind]. by rewrite He.
Qed.

Lemma at_code_app code a b x : at_code code (a ++ b) x ↔ at_code code a x ∧ at_code code b (x + Zlen a).
Proof.
  split.
  - intros (H0 & q & Hq). split; (split; [lia|]); [exists (b ++ q); by rewrite app_assoc|]. exists q.
    rewrite Z2Nat.inj_add, Nat2Z.id, <- drop_drop, Hq, <- app_assoc by lia. apply drop_app_length.
  - intros [(H0 & q & Hq) (_ & q' & Hq')]. split; [done|]. exists q'.
    rewrite Z2Nat.inj_add, Nat2Z.id, <- drop_drop, Hq, drop_app_length in Hq' by lia.
    rewrite Hq, Hq'. by rewrite app_assoc.
Qed.

Lemma at_code_mid p b q : at_code (p ++ b ++ q) b (Zlen p).
Proof. split; [lia|]. exists q. by rewrite Nat2Z.id, drop_app_length. Qed.

(** ** Parameters past the fourth *)

(** The fifth and the sixth parameter are assigned the registers 8 and 9,
    which do not fit the three-bit field: the bytes meant to store r8 or r9
    decode to a move of rax or rcx into the frame pointer. *)
Theorem late_parameters_move_rbp o tl :
  abiArgRegs !! 4%nat = Some 8 ∧ abiArgRegs !! 5%nat = Some 9 ∧ abiArgRegs !! 6%nat = None ∧
  decode (emitMovRegToStack [] 8 o ++ tl) = Some (MovRR rbp rax, 3%nat) ∧
  decode (emitMovRegToStack [] 9 o ++ tl) = Some (MovRR rbp 1, 3%nat).
Proof.
  do 3 (split; [done|]). unfold emitMovRegToStack.
  destruct (le_bytes 4 (i32 o)) as [|a [|b [|c [|d r]]]] eqn:E; try (apply (f_equal length) in E; discriminate E).
  done.
Qed.
