(* ===== verification/GloriaLang.v ===== *)
(** * A core of the Gloria language: syntax, meaning, reference code generator

    The abstract syntax of the functions over 64-bit variables (declarations,
    assignments, additions and subtractions, [if], [while], returns and calls
    in return position), the tokens it is written with, its meaning on
    environments, and the code that the compiler is expected to emit for it,
    as a function of the syntax tree.  GloriaCompile relates the compiler of
    GloriaEmit to that code, GloriaCorrect relates that code to the meaning. *)
From S2P Require Import Prelude GloriaLex GloriaCode GloriaEmit GloriaMach.

(** A numeral is kept as it is written. *)
Definition num (k : bytes) : Z := foldl digit_step 0 k.

(** What the bodies of [if] and [while] may hold. *)
Inductive simple : Type :=
  | SSet (x : bytes) (k : bytes)
  | SAdd (x : bytes) (k : bytes)
  | SSub (x : bytes) (k : bytes).

Inductive stmt : Type :=
  | SLet (x : bytes) (k : bytes)
  | SSimple (b : simple)
  | SAddV (x y : bytes)
  | SSubV (x y : bytes)
  | SIf (x : bytes) (op : TokenType) (y : bytes) (body : list simple)
  | SWhile (x : bytes) (body : list simple).

Inductive tail : Type :=
  | RInt (k : bytes)
  | RVar (x : bytes)
  | ROp (plus : bool) (x y : bytes)
  | ROpI (plus : bool) (x : bytes) (k : bytes)
  | RCall (g : bytes) (ys : list bytes).

Record func : Type := mk_fn { fn_name : bytes; fn_params : list bytes; fn_body : list stmt; fn_ret : tail }.

(** ** Concrete syntax *)
Abbreviation word := (TokenType * bytes)%type.

Definition w_id (x : bytes) : word := (IDENT, x).
Definition w_int (k : bytes) : word := (INT, k).

Definition simple_words (b : simple) : list word :=
  match b with
  | SSet x k => [w_id x; (ASSIGN, bs "="); w_int k]
  | SAdd x k => [w_id x; (PLUS_ASSIGN, bs "+="); w_int k]
  | SSub x k => [w_id x; (MINUS_ASSIGN, bs "-="); w_int k]
  end.

Definition op_word (op : TokenType) : word :=
  match op with LT => (LT, bs "<") | GT => (GT, bs ">") | _ => (EQ, bs "==") end.

Definition block_words (body : list simple) : list word :=
  [(LBRACE, bs "{")] ++ concat (map simple_words body) ++ [(RBRACE, bs "}")].

Definition stmt_words (st : stmt) : list word :=
  match st with
  | SLet x k => [(LET, bs "let"); w_id x; (ASSIGN, bs "="); w_int k]
  | SSimple b => simple_words b
  | SAddV x y => [w_id x; (PLUS_ASSIGN, bs "+="); w_id y]
  | SSubV x y => [w_id x; (MINUS_ASSIGN, bs "-="); w_id y]
  | SIf x op y body => [(IF, bs "if"); w_id x; op_word op; w_id y] ++ block_words body
  | SWhile x body => [(WHILE, bs "while"); w_id x] ++ block_words body
  end.

Definition sign_word (plus : bool) : word := if plus then (PLUS, bs "+") else (MINUS, bs "-").

(** Names separated by commas, closed by a parenthesis. *)
Fixpoint names_words (l : list bytes) : list word :=
  match l with
  | [] => [(RPAREN, bs ")")]
  | [x] => [w_id x; (RPAREN, bs ")")]
  | x :: r => w_id x :: (COMMA, bs ",") :: names_words r
  end.

Definition tail_words (t : tail) : list word :=
  (RETURN, bs "return") ::
  match t with
  | RInt k => [w_int k]
  | RVar x => [w_id x]
  | ROp p x y => [w_id x; sign_word p; w_id y]
  | ROpI p x k => [w_id x; sign_word p; w_int k]
  | RCall g ys => w_id g :: (LPAREN, bs "(") :: names_words ys
  end.

Definition body_words (f : func) : list word :=
  concat (map stmt_words (fn_body f)) ++ tail_words (fn_ret f).

Definition func_words (f : func) : list word :=
  (FN, bs "fn") :: w_id (fn_name f) :: (LPAREN, bs "(") :: names_words (fn_params f) ++
  [(LBRACE, bs "{")] ++ body_words f ++ [(RBRACE, bs "}")].

Definition program_words (P : list func) : list word := concat (map func_words P).

(** ** Meaning *)
Abbreviation env := (gmap bytes Z).

Definition update (e : env) (x : bytes) (g : Z → Z) : option env :=
  v ← e !! x; Some (<[x := u64 (g v)]> e).

Definition exec_simple (e : env) (b : simple) : option env :=
  match b with
  | SSet x k => update e x (λ _, num k)
  | SAdd x k => update e x (λ v, v + num k)
  | SSub x k => update e x (λ v, v - num k)
  end.

Fixpoint exec_block (e : env) (l : list simple) : option env :=
  match l with [] => Some e | b :: r => e' ← exec_simple e b; exec_block e' r end.

(** Comparisons are signed. *)
Definition compare (op : TokenType) (a b : Z) : bool :=
  match op with LT => i64 a <? i64 b | GT => i64 b <? i64 a | _ => i64 a =? i64 b end.

Fixpoint exec_while (n : nat) (x : bytes) (body : list simple) (e : env) : option env :=
  match n with
  | O => None
  | S k =>
      v ← e !! x;
      if v =? 0 then Some e else e' ← exec_block e body; exec_while k x body e'
  end.

Definition exec_stmt (n : nat) (e : env) (st : stmt) : option env :=
  match st with
  | SLet x k => Some (<[x := num k]> e)
  | SSimple b => exec_simple e b
  | SAddV x y => w ← e !! y; update e x (λ v, v + w)
  | SSubV x y => w ← e !! y; update e x (λ v, v - w)
  | SIf x op y body =>
      v ← e !! x; w ← e !! y; if compare op v w then exec_block e body else Some e
  | SWhile x body => exec_while n x body e
  end.

Fixpoint exec_stmts (n : nat) (e : env) (l : list stmt) : option env :=
  match l with [] => Some e | st :: r => e' ← exec_stmt n e st; exec_stmts n e' r end.

Definition find_func (P : list func) (g : bytes) : option func :=
  List.find (λ f, bool_decide (fn_name f = g)) P.

Definition bind_params (xs : list bytes) (vs : list Z) : env := list_to_map (zip xs vs).

(** The value of a call; [n] bounds the depth of the calls and the rounds of
    the loops. *)
Fixpoint eval (n : nat) (P : list func) (g : bytes) (vs : list Z) : option Z :=
  match n with
  | O => None
  | S k =>
      f ← find_func P g;
      if negb (length (fn_params f) =? length vs)%nat then None else
      e ← exec_stmts k (bind_params (fn_params f) vs) (fn_body f);
      match fn_ret f with
      | RInt k => Some (num k)
      | RVar x => e !! x
      | ROp p x y => v ← e !! x; w ← e !! y; Some (u64 (if p then v + w else v - w))
      | ROpI p x k => v ← e !! x; Some (u64 (if p : bool then v + num k else v - num k))
      | RCall h ys => ws ← mapM (λ y, e !! y) ys; eval k P h ws
      end
  end.

(** ** The expected code *)
Definition c_store (r o : Z) : bytes := [0x48; 0x89; modrm 0x80 r 5] ++ le_bytes 4 (i32 o).
Definition c_load (r o : Z) : bytes := [0x48; 0x8B; modrm 0x80 r 5] ++ le_bytes 4 (i32 o).
Definition c_imm (r v : Z) : bytes := [0x48; u8 (0xB8 + u8 r)] ++ le_bytes 8 v.
Definition c_cmp : bytes := [0x48; 0x39; 0xC8].
Definition c_op (plus : bool) : bytes := [0x48; if plus then 0x01 else 0x29; 0xC8].
Definition c_opi (plus : bool) (v : Z) : bytes := [0x48; 0x81; if plus then 0xC0 else 0xE8] ++ le_bytes 4 v.

Definition off (s : compilerState) (x : bytes) : Z := default 0 (vars s !! x).

Definition g_simple (s : compilerState) (b : simple) : bytes :=
  match b with
  | SSet x k => c_imm 0 (num k) ++ c_store 0 (off s x)
  | SAdd x k => c_load 0 (off s x) ++ c_opi true (num k) ++ c_store 0 (off s x)
  | SSub x k => c_load 0 (off s x) ++ c_opi false (num k) ++ c_store 0 (off s x)
  end.

Definition g_block (s : compilerState) (l : list simple) : bytes := concat (map (g_simple s) l).

Definition alloc (s : compilerState) (x : bytes) : compilerState :=
  let o := stackOffset s - 8 in mk_cstate (<[x := o]> (vars s)) (<[x := true]> (declared s)) o.

Definition g_while (o : Z) (body : bytes) : bytes :=
  (c_load 0 o ++ c_imm 1 0 ++ c_cmp) ++ [0x0F; 0x84] ++ le_bytes 4 (i32 (Zlen body + 5)) ++ body ++
  [0xE9] ++ le_bytes 4 (i32 (- (Zlen body + 31))).

Definition g_stmt (s : compilerState) (st : stmt) : bytes * compilerState :=
  match st with
  | SLet x k => let s' := alloc s x in (c_imm 0 (num k) ++ c_store 0 (off s' x), s')
  | SSimple b => (g_simple s b, s)
  | SAddV x y => (c_load 0 (off s x) ++ c_load 1 (off s y) ++ c_op true ++ c_store 0 (off s x), s)
  | SSubV x y => (c_load 0 (off s x) ++ c_load 1 (off s y) ++ c_op false ++ c_store 0 (off s x), s)
  | SIf x op y body =>
      let b := g_block s body in
      ((c_load 0 (off s x) ++ c_load 1 (off s y) ++ c_cmp) ++ [jump_unless op; u8 (Zlen b)] ++ b, s)
  | SWhile x body => (g_while (off s x) (g_block s body), s)
  end.

Fixpoint g_stmts (s : compilerState) (l : list stmt) : bytes * compilerState :=
  match l with
  | [] => ([], s)
  | st :: r => let '(b, s) := g_stmt s st in let '(c, s) := g_stmts s r in (b ++ c, s)
  end.

Definition arg_reg_of (i : nat) : Z := default 0 (abiArgRegs !! i).

Definition g_args (s : compilerState) (ys : list bytes) : bytes :=
  concat (imap (λ i y, c_load (arg_reg_of i) (off s y)) ys).

(** [tgt]: the displacement of the call. *)
Definition g_tail (s : compilerState) (tgt : Z) (t : tail) : bytes :=
  match t with
  | RInt k => c_imm 0 (num k)
  | RVar x => c_load 0 (off s x)
  | ROp p x y => c_load 0 (off s x) ++ c_load 1 (off s y) ++ c_op p
  | ROpI p x k => c_load 0 (off s x) ++ c_opi p (num k)
  | RCall g ys => g_args s ys ++ [0xE8] ++ le_bytes 4 (i32 tgt)
  end.

Definition prologue : bytes := [0x55; 0x48; 0x89; 0xE5; 0x48; 0x81; 0xEC; 0x80; 0x00; 0x00; 0x00].

Fixpoint alloc_all (s : compilerState) (xs : list bytes) : compilerState :=
  match xs with [] => s | x :: r => alloc_all (alloc s x) r end.

(** Stores of the parameters, from the [i]-th on. *)
Fixpoint g_params (i : nat) (s : compilerState) (xs : list bytes) : bytes :=
  match xs with
  | [] => []
  | x :: r => c_store (arg_reg_of i) (off (alloc s x) x) ++ g_params (S i) (alloc s x) r
  end.

(** The function up to the code of its return, and the layout there. *)
Definition g_front (f : func) : bytes * compilerState :=
  let s := alloc_all newCompilerState (fn_params f) in
  let '(b, s') := g_stmts s (fn_body f) in
  (prologue ++ g_params 0 newCompilerState (fn_params f) ++ b, s').

Definition g_func (tgt : Z) (f : func) : bytes :=
  let '(b, s) := g_front f in b ++ g_tail s tgt (fn_ret f) ++ [0xC9; 0xC3].

(** Where the call instruction of the function is. *)
Definition g_call_at (f : func) : option (Z * bytes) :=
  let '(b, s) := g_front f in
  match fn_ret f with RCall g ys => Some (Zlen (b ++ g_args s ys), g) | _ => None end.

(** ** Well-formed programs

    The names are not the built-in ones, variables are declared before use and
    once, the numerals fit, and no numeral holds the two bytes that the peephole
    pass takes for the start of a move. *)
Fixpoint no_pair (l : bytes) : bool :=
  match l with
  | [] => true
  | c :: r => negb ((c =? 0x48) && (hd 0 r =? 0x89)) && no_pair r
  end.

Definition reserved : list bytes := [bs "print"; bs "in8"; bs "out8"; bs "peek"; bs "poke"].

Definition name_ok (x : bytes) : bool := spelled IDENT x && bool_decide (x ∉ reserved).

Definition num_ok (limit : Z) (k : bytes) : bool :=
  spelled INT k && (num k <? limit) && no_pair (le_bytes 8 (num k)).

Definition var_ok (D : list bytes) (x : bytes) : bool := name_ok x && bool_decide (x ∈ D).

Definition simple_ok (D : list bytes) (b : simple) : bool :=
  match b with
  | SSet x k => var_ok D x && num_ok (2 ^ 64) k
  | SAdd x k | SSub x k => var_ok D x && num_ok (2 ^ 31) k
  end.

Definition simple_size (b : simple) : Z := match b with SSet _ _ => 17 | _ => 21 end.

(** The variables declared after the statement, if it is well formed. *)
Definition stmt_ok (D : list bytes) (st : stmt) : option (list bytes) :=
  match st with
  | SLet x k => if name_ok x && bool_decide (x ∉ D) && num_ok (2 ^ 64) k then Some (D ++ [x]) else None
  | SSimple b => if simple_ok D b then Some D else None
  | SAddV x y | SSubV x y => if var_ok D x && var_ok D y then Some D else None
  | SIf x op y body =>
      if var_ok D x && var_ok D y && forallb (simple_ok D) body &&
         bool_decide (op ∈ [LT; GT; EQ]) && (foldr (λ b n, simple_size b + n) 0 body <=? 127)
      then Some D else None
  | SWhile x body => if var_ok D x && forallb (simple_ok D) body then Some D else None
  end.

Fixpoint stmts_ok (D : list bytes) (l : list stmt) : option (list bytes) :=
  match l with [] => Some D | st :: r => D' ← stmt_ok D st; stmts_ok D' r end.

Definition tail_ok (D G : list bytes) (t : tail) : bool :=
  match t with
  | RInt k => num_ok (2 ^ 64) k
  | RVar x => var_ok D x
  | ROp _ x y => var_ok D x && var_ok D y
  | ROpI _ x k => var_ok D x && num_ok (2 ^ 31) k
  | RCall g ys => bool_decide (g ∈ G) && forallb (var_ok D) ys && (length ys <=? 4)%nat
  end.

(** [G]: the functions of the program.  At most four parameters, which have
    registers below r8, and at most 20000 bytes of code. *)
Definition func_ok (G : list bytes) (f : func) : bool :=
  name_ok (fn_name f) && forallb name_ok (fn_params f) && bool_decide (NoDup (fn_params f)) &&
  (length (fn_params f) <=? 4)%nat && (Zlen (g_func 0 f) <=? 20000) &&
  match stmts_ok (fn_params f) (fn_body f) with
  | Some D => tail_ok D G (fn_ret f)
  | None => false
  end.

Definition program_ok (P : list func) : bool :=
  let G := map fn_name P in
  forallb (func_ok G) P && bool_decide (NoDup G) && bool_decide (bs "main" ∈ G) &&
  (Z.of_nat (length P) <=? 100000).

Definition ex_main : func :=
  mk_fn (bs "main") [] [SLet (bs "x") (bs "10"); SLet (bs "y") (bs "0");
    SWhile (bs "x") [SAdd (bs "y") (bs "3"); SSub (bs "x") (bs "1")];
    SIf (bs "x") LT (bs "y") [SSet (bs "x") (bs "12")]] (RCall (bs "add") [bs "x"; bs "y"]).
Definition ex_add : func := mk_fn (bs "add") [bs "a"; bs "b"] [] (ROp true (bs "a") (bs "b")).

Example ex_program : program_ok [ex_main; ex_add] = true ∧ eval 20 [ex_main; ex_add] (bs "main") [] = Some 42.
Proof. split; vm_compute; reflexivity. Qed.

(** ** The layout of the variables

    The variables of [D], in the order of their declarations, have the slots
    -8, -16, ... below the frame pointer. *)
Definition layout (s : compilerState) (D : list bytes) : Prop :=
  stackOffset s = -8 * Zlen D ∧ (∀ x, is_declared s x = bool_decide (x ∈ D)) ∧
  ∀ i x, D !! i = Some x → off s x = -8 * (Z.of_nat i + 1).

Lemma layout_new : layout newCompilerState [].
Proof. repeat split. intros i x H. by rewrite lookup_nil in H. Qed.

Lemma layout_alloc s D x : layout s D → x ∉ D → layout (alloc s x) (D ++ [x]).
Proof.
  intros (H1 & H2 & H3) Hx. split; [|split].
  - unfold alloc. cbn [stackOffset]. rewrite H1, length_app. cbn. lia.
  - intros y. unfold alloc, is_declared. cbn [declared]. destruct (decide (x = y)) as [->|Hn].
    + rewrite lookup_insert_eq. symmetry. apply bool_decide_eq_true. set_solver.
    + rewrite lookup_insert_ne by done. fold (is_declared s y). rewrite H2. apply bool_decide_ext. set_solver.
  - intros i y Hi. unfold off, alloc. cbn [vars]. apply lookup_app_Some in Hi as [Hi|[Hlen Hi]].
    + rewrite lookup_insert_ne; [by apply H3|]. intros ->. by apply Hx, (list_elem_of_lookup_2 _ i).
    + apply list_lookup_singleton_Some in Hi as [Hi <-]. rewrite lookup_insert_eq. cbn. rewrite H1. lia.
Qed.

Lemma layout_off s D x : layout s D → x ∈ D → ∃ i, D !! i = Some x ∧ off s x = -8 * (Z.of_nat i + 1) ∧ (i < length D)%nat.
Proof.
  intros (_ & _ & H) [i Hi]%list_elem_of_lookup_1. exists i. repeat split; [done|by apply H|by eapply lookup_lt_Some].
Qed.

Lemma layout_alloc_all s D xs :
  layout s D → NoDup xs → (∀ x, x ∈ xs → x ∉ D) → layout (alloc_all s xs) (D ++ xs).
Proof.
  revert s D. induction xs as [|x xs IH]; intros s D Hl Hnd Hx; cbn [alloc_all]; [by rewrite app_nil_r|].
  apply NoDup_cons in Hnd as [Hn Hnd].
  replace (D ++ x :: xs) with ((D ++ [x]) ++ xs) by (by rewrite <- app_assoc).
  apply IH; [|done|]; [apply layout_alloc; [done|]; apply Hx; left|].
  intros y Hy. pose proof (Hx y ltac:(by right)). intros [?| ->%list_elem_of_singleton]%elem_of_app; done.
Qed.

Lemma stmt_ok_extends D D' st : stmt_ok D st = Some D' → D' = D ∨ ∃ x k, st = SLet x k ∧ D' = D ++ [x] ∧ x ∉ D.
Proof.
  destruct st as [x k|b|x y|x y|x op y body|x body]; cbn [stmt_ok].
  - destruct (_ && _) eqn:E; [|done]. intros [= <-]. right. rewrite !andb_true_iff, bool_decide_eq_true in E.
    exists x, k. naive_solver.
  - destruct (simple_ok D b); [|done]. intros [= <-]. by left.
  - destruct (_ && _); [|done]. intros [= <-]. by left.
  - destruct (_ && _); [|done]. intros [= <-]. by left.
  - destruct (_ && _); [|done]. intros [= <-]. by left.
  - destruct (_ && _); [|done]. intros [= <-]. by left.
Qed.

Lemma layout_stmt s D D' st : layout s D → stmt_ok D st = Some D' → layout (g_stmt s st).2 D'.
Proof.
  intros Hl Hok. destruct (stmt_ok_extends _ _ _ Hok) as [->|(x & k & -> & -> & Hx)]; [|by apply layout_alloc].
  destruct st; try exact Hl. exfalso. cbn [stmt_ok] in Hok. destruct (_ && _) in Hok; [|done].
  injection Hok as Hok. apply (f_equal length) in Hok. rewrite length_app in Hok. cbn in Hok. lia.
Qed.

Lemma layout_stmts s D D' l : layout s D → stmts_ok D l = Some D' → layout (g_stmts s l).2 D'.
Proof.
  revert s D. induction l as [|st l IH]; intros s D Hl Hok; cbn [stmts_ok g_stmts] in *; [by injection Hok as <-|].
  destruct (stmt_ok D st) as [D1|] eqn:E; [|done]. cbn in Hok. pose proof (layout_stmt s D D1 st Hl E) as H1.
  destruct (g_stmt s st) as [b s1]. cbn [snd] in H1. pose proof (IH s1 D1 H1 Hok) as H2.
  by destruct (g_stmts s1 l).
Qed.

(** Every declaration has code of its own. *)
Lemma stmts_size s D D' l : stmts_ok D l = Some D' → 7 * Zlen D' ≤ 7 * Zlen D + Zlen (g_stmts s l).1.
Proof.
  revert s D. induction l as [|st l IH]; intros s D Hok; cbn [stmts_ok g_stmts] in *; [injection Hok as <-; lia|].
  destruct (stmt_ok D st) as [D1|] eqn:E; [|done]. cbn in Hok.
  assert (7 * Zlen D1 ≤ 7 * Zlen D + Zlen (g_stmt s st).1).
  { destruct (stmt_ok_extends _ _ _ E) as [->|(x & k & -> & -> & _)]; [lia|]. cbn [g_stmt fst].
    unfold c_imm, c_store. rewrite !length_app, !length_le_bytes. cbn [length]. lia. }
  destruct (g_stmt s st) as [b s1]. specialize (IH s1 D1 Hok). destruct (g_stmts s1 l). cbn [fst] in *.
  rewrite length_app. lia.
Qed.

Lemma params_size i s xs : Zlen (g_params i s xs) = 7 * Zlen xs.
Proof.
  revert i s. induction xs as [|x xs IH]; intros i s; cbn [g_params]; [done|].
  unfold c_store. rewrite !length_app, length_le_bytes, Nat2Z.inj_add, IH. cbn [length]. lia.
Qed.

(** ** The code of a program

    The functions stand one after the other behind a jump to [main]. *)
Fixpoint offsets (base : Z) (P : list func) : list (bytes * Z) :=
  match P with
  | [] => []
  | f :: r => (fn_name f, base) :: offsets (base + Zlen (g_func 0 f)) r
  end.

Definition offset_in (P : list func) (g : bytes) : Z := default 0 (assoc g (offsets 5 P)).

(** The displacement of the call in the function at [base]. *)
Definition call_disp (P : list func) (base : Z) (f : func) : Z :=
  match g_call_at f with
  | Some (c, g) => offset_in P g - (base + c + 5)
  | None => 0
  end.

Fixpoint g_code (P : list func) (base : Z) (l : list func) : bytes :=
  match l with
  | [] => []
  | f :: r => g_func (call_disp P base f) f ++ g_code P (base + Zlen (g_func 0 f)) r
  end.

Definition g_program (P : list func) : bytes :=
  [0xE9] ++ le_bytes 4 (i32 (offset_in P (bs "main") - 5)) ++ g_code P 5 P.

(** Only the displacement of the call depends on the target. *)
Lemma g_func_call f c g :
  g_call_at f = Some (c, g) →
  ∃ a, Zlen a = c ∧ ∀ tgt, g_func tgt f = a ++ [0xE8] ++ le_bytes 4 (i32 tgt) ++ [0xC9; 0xC3].
Proof.
  unfold g_call_at, g_func. destruct (g_front f) as [b s]. destruct (fn_ret f) as [| | | |h ys]; try done.
  intros [= <- <-]. exists (b ++ g_args s ys). split; [done|]. intros tgt. cbn [g_tail]. by rewrite <- !app_assoc.
Qed.

Lemma g_func_no_call f tgt : g_call_at f = None → g_func tgt f = g_func 0 f.
Proof. unfold g_call_at, g_func. destruct (g_front f) as [b s]. by destruct (fn_ret f). Qed.

Lemma g_func_length tgt f : length (g_func tgt f) = length (g_func 0 f).
Proof.
  unfold g_func. destruct (g_front f) as [b s]. destruct (fn_ret f); try done. cbn [g_tail].
  by rewrite !length_app, !length_le_bytes.
Qed.

(** A function in the middle of the code. *)
Lemma g_code_app P base l1 f l2 :
  g_code P base (l1 ++ f :: l2) =
  g_code P base l1 ++ g_func (call_disp P (base + Zlen (g_code P base l1)) f) f ++
  g_code P (base + Zlen (g_code P base l1) + Zlen (g_func 0 f)) l2.
Proof.
  revert base. induction l1 as [|f1 l1 IH]; intros base; cbn [g_code app length].
  - by rewrite Z.add_0_r.
  - rewrite IH, !length_app, (g_func_length (call_disp P base f1)), Nat2Z.inj_add, Z.add_assoc. by rewrite <- app_assoc.
Qed.

Lemma offsets_app P base l1 f l2 :
  fn_name f ∉ map fn_name l1 →
  assoc (fn_name f) (offsets base (l1 ++ f :: l2)) = Some (base + Zlen (g_code P base l1)).
Proof.
  revert base. induction l1 as [|f1 l1 IH]; intros base Hn; cbn [offsets app assoc g_code length map] in *.
  - rewrite bool_decide_eq_true_2 by done. f_equal. lia.
  - apply not_elem_of_cons in Hn as [Hn1 Hn]. rewrite bool_decide_eq_false_2 by done.
    rewrite IH by done. f_equal. rewrite length_app, (g_func_length (call_disp P base f1)). lia.
Qed.

Lemma find_func_split P g f : find_func P g = Some f → ∃ l1 l2, P = l1 ++ f :: l2 ∧ fn_name f = g ∧ g ∉ map fn_name l1.
Proof.
  unfold find_func. induction P as [|f1 P IH]; cbn [List.find]; [done|].
  destruct (bool_decide (fn_name f1 = g)) eqn:E.
  - intros [= ->]. apply bool_decide_eq_true in E. exists [], P. repeat split; [done|apply not_elem_of_nil].
  - intros H. destruct (IH H) as (l1 & l2 & -> & Hg & Hn). exists (f1 :: l1), l2. repeat split; [done|].
    cbn. apply bool_decide_eq_false in E. apply not_elem_of_cons. split; [congruence|done].
Qed.

(** Where the function [g] is in the code of the program. *)
Lemma func_at P g f :
  find_func P g = Some f →
  ∃ p q, g_program P = p ++ g_func (call_disp P (offset_in P g) f) f ++ q ∧ Zlen p = offset_in P g.
Proof.
  intros Hf. destruct (find_func_split _ _ _ Hf) as (l1 & l2 & HP & Hg & Hn).
  assert (offset_in P g = 5 + Zlen (g_code P 5 l1)) as Ho.
  { unfold offset_in. pose proof (offsets_app P 5 l1 f l2) as E. rewrite <- HP, Hg in E. by rewrite E. }
  pose proof (g_code_app P 5 l1 f l2) as E. rewrite <- HP in E. unfold g_program. rewrite E, <- Ho.
  eexists ([0xE9] ++ le_bytes 4 _ ++ g_code P 5 l1), _. rewrite <- !app_assoc. split; [done|].
  rewrite !length_app, length_le_bytes, Ho. cbn [length]. lia.
Qed.
