(* ===== verification/GloriaPeephole.v ===== *)
(** * The peephole pass on compiled functions

    The pass looks at bytes, not at instructions: it deletes every [48 89 m]
    whose two register fields agree, in immediates and displacements too.
    A byte sequence is [stable] when the pass leaves it alone wherever it
    stands; the code of a well-formed function is. *)
From S2P Require Import Prelude GloriaLex GloriaCode GloriaEmit GloriaMach GloriaLang.

(** The pass cannot see past the byte 0x89, which no instruction starts with. *)
Definition stable (c : bytes) : Prop :=
  hd 0 c ≠ 0x89 ∧ ∀ tl, hd 0 tl ≠ 0x89 → peephole (c ++ tl) = c ++ peephole tl.

Lemma peephole_cons c r : (c =? 0x48) && (hd 0 r =? 0x89) = false → peephole (c :: r) = c :: peephole r.
Proof.
  intros H. destruct (decide (c = 0x48)) as [->|Hc].
  - destruct r as [|d r]; [done|]. cbn [hd] in H. change (0x48 =? 0x48) with true in H. cbn [andb] in H.
    apply Z.eqb_neq in H. cbn [peephole].
    destruct d as [|p|p]; try done. repeat (destruct p as [p|p|]; try done).
  - destruct c as [|p|p]; try done. repeat (destruct p as [p|p|]; try done).
Qed.

Lemma peephole_mov m r :
  peephole (0x48 :: 0x89 :: m :: r) = if self_move m then peephole r else 0x48 :: peephole (0x89 :: m :: r).
Proof. done. Qed.

Lemma stable_nil : stable [].
Proof. by split. Qed.

Lemma stable_app a b : stable a → stable b → stable (a ++ b).
Proof.
  intros [Ha1 Ha2] [Hb1 Hb2]. split; [by destruct a|]. intros tl Htl.
  rewrite <- !app_assoc, Ha2 by (by destruct b). by rewrite Hb2.
Qed.

Lemma stable_concat l : Forall stable l → stable (concat l).
Proof. induction 1; [apply stable_nil|by apply stable_app]. Qed.

Lemma peephole_no_pair c tl :
  no_pair c = true → hd 0 tl ≠ 0x89 → peephole (c ++ tl) = c ++ peephole tl.
Proof.
  intros Hc Htl. induction c as [|x c IH]; [done|]. cbn [no_pair app] in *. apply andb_prop in Hc as [Hx Hc].
  rewrite peephole_cons; [by rewrite IH|]. apply negb_true_iff in Hx. destruct c as [|y c]; [|done].
  cbn [app]. apply andb_false_intro2. by apply Z.eqb_neq.
Qed.

Lemma stable_no_pair c : hd 0 c ≠ 0x89 → no_pair c = true → stable c.
Proof. intros H1 H2. split; [done|]. intros tl. by apply peephole_no_pair. Qed.

Lemma no_pair_app a b :
  no_pair a = true → no_pair b = true → last a ≠ Some 0x48 → no_pair (a ++ b) = true.
Proof.
  induction a as [|x a IH]; [done|]. cbn [no_pair app]. intros [Hx Ha]%andb_prop Hb Hl.
  destruct a as [|y a].
  - cbn [app]. rewrite Hb, andb_true_r. apply negb_true_iff, andb_false_intro1, Z.eqb_neq. by intros ->.
  - cbn [app hd] in *. rewrite Hx. by apply IH.
Qed.

Lemma no_pair_prefix a b : no_pair (a ++ b) = true → no_pair a = true.
Proof.
  induction a as [|x a IH]; [done|]. cbn [no_pair app]. intros [Hx Ha]%andb_prop.
  rewrite (IH Ha), andb_true_r. destruct a; [|done]. cbn. by rewrite andb_false_r.
Qed.

(** Displacements this small hold no such pair. *)
Lemma byte_of_small q : -118 ≤ q ≤ 118 → wrap 8 q ≠ 0x89.
Proof.
  intros Hq. unfold wrap. change (2 ^ 8) with 256. destruct (decide (0 ≤ q)).
  - rewrite Z.mod_small; lia.
  - rewrite <- (Z.mod_unique q 256 (-1) (q + 256)); lia.
Qed.

Lemma no_pair_disp o : -30000 ≤ o ≤ 30000 → no_pair (le_bytes 4 (i32 o)) = true.
Proof.
  intros Ho. rewrite swrap_small by lia.
  assert (Hq : ∀ k, 8 ≤ k → -118 ≤ Z.shiftr o k ≤ 118).
  { intros k Hk. rewrite Z.shiftr_div_pow2 by lia.
    assert (256 ≤ 2 ^ k) by (change 256 with (2 ^ 8); apply Z.pow_le_mono_r; lia).
    split; [apply Z.div_le_lower_bound; nia|]. apply Z.div_le_upper_bound; nia. }
  assert (Hp : ∀ a b, b ≠ 0x89 → negb ((a =? 0x48) && (b =? 0x89)) = true).
  { intros a b Hb. by apply negb_true_iff, andb_false_intro2, Z.eqb_neq. }
  cbn [le_bytes no_pair hd]. rewrite !Z.shiftr_shiftr by lia.
  rewrite !Hp; [done|done|apply byte_of_small, Hq; lia..].
Qed.

(** The registers that the compiler uses. *)
Definition low_reg (r : Z) : Prop := r = 0 ∨ r = 1 ∨ r = 2 ∨ r = 6 ∨ r = 7.

Lemma stable_load r o : low_reg r → -30000 ≤ o ≤ 30000 → stable (c_load r o).
Proof.
  intros Hr Ho. apply stable_no_pair; [done|]. unfold c_load. apply no_pair_app; [|by apply no_pair_disp|].
  - by destruct Hr as [->|[->|[->|[->| ->]]]].
  - by destruct Hr as [->|[->|[->|[->| ->]]]].
Qed.

Lemma stable_store r o : low_reg r → -30000 ≤ o ≤ 30000 → stable (c_store r o).
Proof.
  intros Hr Ho. split; [done|]. intros tl Htl. unfold c_store. rewrite <- app_assoc.
  set (m := modrm 0x80 r 5). cbn [app].
  assert (self_move m = false ∧ m ≠ 0x48 ∧ m ≠ 0x89) as (H1 & H2 & H3)
    by (unfold m; by destruct Hr as [->|[->|[->|[->| ->]]]]).
  rewrite peephole_mov, H1, peephole_cons by done. do 2 f_equal.
  apply (peephole_no_pair (m :: le_bytes 4 (i32 o)) tl); [|done].
  apply (no_pair_app [m]); [|by apply no_pair_disp|by intros [= ?]]. cbn. by rewrite andb_false_r.
Qed.

Lemma num_no_pair limit k : num_ok limit k = true → no_pair (le_bytes 8 (num k)) = true.
Proof. unfold num_ok. by intros [_ H]%andb_prop. Qed.

Lemma stable_imm limit r k : low_reg r → num_ok limit k = true → stable (c_imm r (num k)).
Proof.
  intros Hr Hk. apply stable_no_pair; [done|]. unfold c_imm. apply no_pair_app.
  - by destruct Hr as [->|[->|[->|[->| ->]]]].
  - by eapply num_no_pair.
  - by destruct Hr as [->|[->|[->|[->| ->]]]].
Qed.

Lemma stable_opi limit p k : num_ok limit k = true → stable (c_opi p (num k)).
Proof.
  intros Hk. apply stable_no_pair; [done|]. unfold c_opi. apply no_pair_app; [by destruct p| |by destruct p].
  apply num_no_pair in Hk. change (le_bytes 8 (num k)) with (le_bytes 4 (num k) ++ le_bytes 4 (Z.shiftr (Z.shiftr (Z.shiftr (Z.shiftr (num k) 8) 8) 8) 8)) in Hk.
  by eapply no_pair_prefix.
Qed.

Lemma stable_op p : stable (c_op p).
Proof. apply stable_no_pair; by destruct p. Qed.

Lemma stable_cmp : stable c_cmp.
Proof. by apply stable_no_pair. Qed.

(** ** Whole functions *)
Lemma stmts_ok_grows D D' l : stmts_ok D l = Some D' → Zlen D ≤ Zlen D'.
Proof.
  revert D. induction l as [|st l IH]; intros D Hok; cbn [stmts_ok] in Hok; [injection Hok as <-; lia|].
  destruct (stmt_ok D st) as [D2|] eqn:E; [|done]. specialize (IH _ Hok).
  destruct (stmt_ok_extends _ _ _ E) as [->|(x & k & _ & -> & _)]; [done|]. rewrite length_app in IH. lia.
Qed.

Lemma stable_prologue : stable prologue.
Proof. split; [done|]. by intros tl _. Qed.

Lemma low_arg i : (i < 4)%nat → low_reg (arg_reg_of i).
Proof. intros Hi. unfold low_reg. do 4 (destruct i as [|i]; [vm_compute; tauto|]). lia. Qed.

Section layout.
Context (D0 : list bytes) (HD0 : 8 * Zlen D0 ≤ 30000).

Lemma off_small s D x : layout s D → Zlen D ≤ Zlen D0 → x ∈ D → -30000 ≤ off s x ≤ 30000.
Proof. intros Hl Hd Hx. destruct (layout_off _ _ _ Hl Hx) as (i & _ & -> & Hi). lia. Qed.

Lemma var_ok_in D x : var_ok D x = true → x ∈ D.
Proof. intros [_ H]%andb_prop. by apply bool_decide_eq_true in H. Qed.

Lemma stable_load_var r s D x :
  low_reg r → layout s D → Zlen D ≤ Zlen D0 → var_ok D x = true → stable (c_load r (off s x)).
Proof. intros Hr Hl Hd Hx. apply stable_load; [done|]. eapply off_small; [done..|by apply var_ok_in]. Qed.

Lemma stable_store_var r s D x :
  low_reg r → layout s D → Zlen D ≤ Zlen D0 → x ∈ D → stable (c_store r (off s x)).
Proof. intros Hr Hl Hd Hx. apply stable_store; [done|]. by eapply off_small. Qed.

Lemma low_reg_0 : low_reg 0.
Proof. by left. Qed.
Lemma low_reg_1 : low_reg 1.
Proof. by right; left. Qed.

Create HintDb stab.
Hint Resolve stable_app stable_nil stable_op stable_cmp stable_opi stable_imm stable_load_var stable_store_var
  var_ok_in low_reg_0 low_reg_1 : stab.

Lemma stable_simple s D b : layout s D → Zlen D ≤ Zlen D0 → simple_ok D b = true → stable (g_simple s b).
Proof.
  intros Hl Hd Hb. destruct b; cbn [simple_ok g_simple] in *; apply andb_prop in Hb as [Hx Hk]; eauto 10 with stab.
Qed.

Lemma stable_block s D l : layout s D → Zlen D ≤ Zlen D0 → forallb (simple_ok D) l = true → stable (g_block s l).
Proof.
  intros Hl Hd Hb. unfold g_block. apply stable_concat, Forall_map. apply forallb_Forall' in Hb.
  eapply Forall_impl; [exact Hb|]. intros b Hok. by eapply stable_simple.
Qed.

(** The bytes before a displacement. *)
Lemma stable_disp a o :
  hd 0 a ≠ 0x89 → a ≠ [] → no_pair a = true → last a ≠ Some 0x48 → -30000 ≤ o ≤ 30000 → stable (a ++ le_bytes 4 (i32 o)).
Proof.
  intros Ha Hne Hn Hl Ho. apply stable_no_pair; [by destruct a|]. apply no_pair_app; [done| |done].
  by apply no_pair_disp.
Qed.

Lemma stable_stmt s D D' st :
  layout s D → stmt_ok D st = Some D' → Zlen D' ≤ Zlen D0 → Zlen (g_stmt s st).1 ≤ 20000 →
  stable (g_stmt s st).1.
Proof.
  intros Hl Hok Hd Hz. destruct st as [x k|b|x y|x y|x op y body|x body]; cbn [stmt_ok] in Hok.
  - destruct (_ && _) eqn:E in Hok; [|done]. injection Hok as <-. rewrite !andb_true_iff, bool_decide_eq_true in E.
    destruct E as [[_ Hx] Hk]. cbn [g_stmt fst]. apply stable_app; [eauto with stab|].
    apply (stable_store_var _ _ (D ++ [x])); [apply low_reg_0|by apply layout_alloc|done|set_solver].
  - destruct (simple_ok D b) eqn:E; [|done]. injection Hok as <-. by eapply stable_simple.
  - destruct (_ && _) eqn:E in Hok; [|done]. injection Hok as <-. apply andb_prop in E as [Hx Hy].
    cbn [g_stmt fst]. eauto 10 with stab.
  - destruct (_ && _) eqn:E in Hok; [|done]. injection Hok as <-. apply andb_prop in E as [Hx Hy].
    cbn [g_stmt fst]. eauto 10 with stab.
  - destruct (_ && _) eqn:E in Hok; [|done]. injection Hok as <-. rewrite !andb_true_iff, bool_decide_eq_true in E.
    destruct E as ((((Hx & Hy) & Hb) & Hop) & _). cbn [g_stmt fst].
    apply stable_app; [do 2 (apply stable_app; [eauto with stab|]); apply stable_cmp|].
    apply stable_app; [|by eapply stable_block].
    apply stable_no_pair; assert (op = LT ∨ op = GT ∨ op = EQ) as [->|[->| ->]] by set_solver; try done;
      cbn; by rewrite andb_false_r.
  - destruct (_ && _) eqn:E in Hok; [|done]. injection Hok as <-. apply andb_prop in E as [Hx Hb].
    cbn [g_stmt fst] in *. unfold g_while in *. set (b := g_block s body) in *.
    assert (Zlen b ≤ 20000) by (rewrite !length_app in Hz; lia).
    apply stable_app.
    { apply stable_app; [eauto with stab|]. apply stable_app; [by apply stable_no_pair|apply stable_cmp]. }
    rewrite app_assoc. apply stable_app; [apply stable_disp; done || lia|].
    apply stable_app; [by eapply stable_block|]. apply stable_disp; done || lia.
Qed.

Lemma stable_stmts s D D' l :
  layout s D → stmts_ok D l = Some D' → Zlen D' ≤ Zlen D0 → Zlen (g_stmts s l).1 ≤ 20000 →
  stable (g_stmts s l).1.
Proof.
  revert s D. induction l as [|st l IH]; intros s D Hl Hok Hd Hz; cbn [stmts_ok g_stmts] in *; [apply stable_nil|].
  destruct (stmt_ok D st) as [D1|] eqn:E; [|done]. cbn in Hok.
  pose proof (layout_stmt s D D1 st Hl E) as H1. pose proof (stable_stmt s D D1 st Hl E) as H2.
  destruct (g_stmt s st) as [b s1]. cbn [fst snd] in *. specialize (IH s1 D1 H1 Hok Hd).
  pose proof (stmts_ok_grows _ _ _ Hok).
  destruct (g_stmts s1 l) as [c s2]. cbn [fst] in *. rewrite length_app in Hz.
  apply stable_app; [apply H2; lia|apply IH; lia].
Qed.

Lemma stable_tail s D G t :
  layout s D → tail_ok D G t = true → Zlen D ≤ Zlen D0 → stable (g_tail s 0 t).
Proof.
  intros Hl Hok Hd. destruct t as [v|x|p x y|p x v|g ys]; cbn [tail_ok g_tail] in *.
  - eauto with stab.
  - eauto with stab.
  - apply andb_prop in Hok as [Hx Hy]. eauto 10 with stab.
  - apply andb_prop in Hok as [Hx Hv]. eauto 10 with stab.
  - rewrite !andb_true_iff, bool_decide_eq_true, Nat.leb_le in Hok. destruct Hok as [[_ Hys] Hlen].
    apply stable_app; [|by apply stable_no_pair].
    unfold g_args. apply stable_concat, Forall_lookup. intros i c. rewrite list_lookup_imap.
    destruct (ys !! i) as [y|] eqn:E; [|done]. cbn. intros [= <-].
    apply (stable_load_var _ _ D); [apply low_arg; apply lookup_lt_Some in E; lia|done..|].
    apply forallb_Forall' in Hys. by eapply Forall_lookup_1 in Hys.
Qed.

Lemma stable_params i s D xs :
  layout s D → NoDup xs → (∀ x, x ∈ xs → x ∉ D) → (i + length xs ≤ 4)%nat → Zlen D + Zlen xs ≤ Zlen D0 →
  stable (g_params i s xs).
Proof.
  revert i s D. induction xs as [|x xs IH]; intros i s D Hl Hnd Hx Hi Hd; cbn [g_params]; [apply stable_nil|].
  apply NoDup_cons in Hnd as [Hn Hnd]. cbn [length] in *. pose proof (Hx x ltac:(left)) as HxD.
  pose proof (layout_alloc s D x Hl HxD) as Hl'. apply stable_app.
  - apply (stable_store_var _ _ (D ++ [x])); [apply low_arg; lia|done|rewrite length_app; cbn; lia|set_solver].
  - apply (IH _ _ (D ++ [x])); [done|done| |lia|rewrite length_app; cbn; lia].
    intros y Hy. pose proof (Hx y ltac:(by right)). intros [?| ->%list_elem_of_singleton]%elem_of_app; done.
Qed.
End layout.

(** The parts of a well-formed function. *)
Lemma func_ok_parts G f :
  func_ok G f = true →
  ∃ D, stmts_ok (fn_params f) (fn_body f) = Some D ∧ tail_ok D G (fn_ret f) = true ∧ NoDup (fn_params f) ∧
    (length (fn_params f) ≤ 4)%nat ∧ Zlen (g_func 0 f) ≤ 20000 ∧ name_ok (fn_name f) = true ∧
    layout (alloc_all newCompilerState (fn_params f)) (fn_params f) ∧ layout (g_front f).2 D.
Proof.
  intros Hok. unfold func_ok in Hok. rewrite !andb_true_iff, bool_decide_eq_true, Nat.leb_le, Z.leb_le in Hok.
  destruct Hok as (((((Hn & _) & Hnd) & Hlen) & Hz) & Hbody).
  destruct (stmts_ok (fn_params f) (fn_body f)) as [D|] eqn:E; [|done].
  assert (Hl : layout (alloc_all newCompilerState (fn_params f)) (fn_params f)).
  { apply (layout_alloc_all newCompilerState [] (fn_params f) layout_new Hnd). intros; apply not_elem_of_nil. }
  exists D. do 7 (split; [done|]). unfold g_front. pose proof (layout_stmts _ _ _ _ Hl E) as H.
  by destruct (g_stmts _ _).
Qed.

(** The peephole pass leaves the code of a well-formed function alone. *)
Lemma peephole_func G f : func_ok G f = true → peephole (g_func 0 f) = g_func 0 f.
Proof.
  intros Hok. destruct (func_ok_parts _ _ Hok) as (D & E & Ht & Hnd & Hlen & Hz & _ & Hl & Hl').
  assert (Hst : stable (g_func 0 f)).
  { unfold g_func, g_front in *. pose proof (stmts_size (alloc_all newCompilerState (fn_params f)) _ _ _ E) as Hs.
    pose proof (params_size 0 newCompilerState (fn_params f)) as Hp.
    pose proof (λ H, stable_stmts D H _ _ _ _ Hl E ltac:(lia)) as Hst.
    destruct (g_stmts _ (fn_body f)) as [b s']. cbn [fst snd] in *. rewrite !length_app in Hz.
    assert (HD : 8 * Zlen D ≤ 30000) by lia. pose proof (stmts_ok_grows _ _ _ E).
    apply stable_app; [apply stable_app; [apply stable_prologue|apply stable_app]|apply stable_app].
    - apply (stable_params D HD 0 _ []); [apply layout_new|done|intros; apply not_elem_of_nil|lia|cbn; lia].
    - apply Hst; lia.
    - by apply (stable_tail D HD s' D G).
    - by apply stable_no_pair. }
  rewrite <- (app_nil_r (g_func 0 f)), (proj2 Hst) by done. done.
Qed.
