(* ===== verification/GloriaCompile.v ===== *)
(** * The compiler emits the expected code

    For a well-formed program of GloriaLang the token sequence of its source
    drives the compiler of GloriaEmit to the code that the reference generator
    gives, the peephole pass leaves that code alone, and Emit places and links
    the functions as the program says. *)
From S2P Require Import Prelude GloriaLex GloriaCode GloriaEmit GloriaMach GloriaLang GloriaPeephole.

Section compile.
Variable src : bytes.

(** ** Rules of the compiler's monad *)

(** The token [t] of the source spells [w]. *)
Definition spells (t : Token) (w : word) : Prop := t_type t = w.1 ∧ lit src t = w.2.
Definition spell (ts : list Token) (ws : list word) : Prop := Forall2 spells ts ws.

Implicit Types (out : bytes) (s : compilerState) (ts : list Token).

Lemma bind_assoc {A B C} (m : M A) (k : A → M B) (h : B → M C) f :
  ((m ≫= k) ≫= h) f = (m ≫= λ a, k a ≫= h) f.
Proof. unfold mbind, M_bind. by destruct (m f) as [[? ?]| | |]. Qed.

Lemma bind_ret {A B} (a : A) (k : A → M B) f : (mret a ≫= k) f = k a f.
Proof. done. Qed.

Lemma bind_next {A} (k : Token → M A) out s t ts : (nextToken ≫= k) (mk_f out s (t :: ts)) = k t (mk_f out s ts).
Proof. done. Qed.

Lemma bind_peek {A} (k : Token → M A) out s t ts : (peekToken ≫= k) (mk_f out s (t :: ts)) = k t (mk_f out s (t :: ts)).
Proof. done. Qed.

Lemma bind_emit {A} w (k : unit → M A) out s ts : (emit_ w ≫= k) (mk_f out s ts) = k tt (mk_f (w out) s ts).
Proof. done. Qed.

Lemma bind_guard {A} b e (k : unit → M A) f : b = true → (guard_or b e ≫= k) f = k tt f.
Proof. by intros ->. Qed.

Lemma bind_expect {A} ty e (k : unit → M A) out s t ts :
  is_type t ty = true → (expect ty e ≫= k) (mk_f out s (t :: ts)) = k tt (mk_f out s ts).
Proof. intros H. unfold expect. rewrite bind_assoc, bind_next. by apply bind_guard. Qed.

Lemma bind_offset {A} x (k : Z → M A) out s ts :
  is_declared s x = true → (offset_of x ≫= k) (mk_f out s ts) = k (off s x) (mk_f out s ts).
Proof. intros H. unfold mbind, M_bind, offset_of, getStackOffset. cbn [f_state]. by rewrite H. Qed.

Lemma bind_declare {A} x (k : Z → M A) out s ts :
  is_declared s x = false →
  (declare x ≫= k) (mk_f out s ts) = k (off (alloc s x) x) (mk_f out (alloc s x) ts).
Proof.
  intros H. unfold mbind at 1, M_bind, declare, declareAndAlloc. cbn [f_state f_out f_toks]. rewrite H.
  cbn [mbind outcome_bind]. unfold off, alloc. cbn [vars stackOffset]. by rewrite lookup_insert_eq.
Qed.

Lemma bind_len {A} (k : nat → M A) out s ts : (out_len ≫= k) (mk_f out s ts) = k (length out) (mk_f out s ts).
Proof. done. Qed.

Lemma bind_fuel {A} (k : nat → M A) out s ts : (token_fuel ≫= k) (mk_f out s ts) = k (S (length ts)) (mk_f out s ts).
Proof. done. Qed.

Lemma bind_try {A} w (k : unit → M A) out out' s ts :
  w s out = Ok out' → (try_emit w ≫= k) (mk_f out s ts) = k tt (mk_f out' s ts).
Proof. intros H. unfold mbind at 1, M_bind, try_emit. cbn [f_state f_out f_toks]. by rewrite H. Qed.

Lemma bind_arg_reg {A} i (k : Z → M A) f : (i < 6)%nat → (arg_reg i ≫= k) f = k (arg_reg_of i) f.
Proof. intros Hi. by do 6 (destruct i as [|i]; [done|]); lia. Qed.

(** ** Numerals and names *)
Lemma ParseUint_loop_digits k a :
  Forall is_digit k → 0 ≤ a → foldl digit_step a k < 2 ^ 64 → ParseUint_loop a k = (foldl digit_step a k, true).
Proof.
  intros Hk. revert a. induction Hk as [|c k Hc Hk IH]; intros a Ha Hlt; cbn [ParseUint_loop foldl] in *; [done|].
  unfold is_digit in Hc. assert (digitb c = true) as -> by (unfold digitb; lia).
  assert (0 ≤ digit_step a c) by (unfold digit_step; lia).
  pose proof (digits_grow k (digit_step a c) Hk ltac:(lia)).
  change (a * 10 + (c - 48)) with (digit_step a c).
  destruct (Z.ltb_spec max_uint64 (digit_step a c)); [unfold max_uint64 in *; lia|]. by apply IH.
Qed.

Lemma int_digits k : spelled INT k = true → k ≠ [] ∧ Forall is_digit k.
Proof.
  cbn [spelled]. intros H. apply andb_prop in H as [Hn Hd]. split; [by destruct k|].
  apply forallb_Forall' in Hd. eapply Forall_impl; [exact Hd|]. intros c. unfold is_digit. apply digit_range.
Qed.

Lemma num_ok_immediate limit k t :
  num_ok limit k = true → limit ≤ 2 ^ 64 → lit src t = k → immediate src t = num k.
Proof.
  intros H Hl <-. unfold num_ok in H. rewrite !andb_true_iff in H. destruct H as [[Hs Hlt] _].
  apply int_digits in Hs as [Hn Hd]. unfold immediate, ParseUint. destruct (lit src t) as [|c k] eqn:E; [done|].
  unfold num in *. rewrite ParseUint_loop_digits by (done || lia). done.
Qed.

Lemma name_not_reserved x t w :
  name_ok x = true → lit src t = x → w ∈ reserved → is_name src t w = false.
Proof.
  intros H <- Hw. unfold name_ok in H. apply andb_prop in H as [_ H]. apply bool_decide_eq_true in H.
  unfold is_name. rewrite bool_decide_eq_false_2; [by rewrite andb_false_r|]. by intros E; rewrite E in H.
Qed.

Lemma name_not_port x t : name_ok x = true → lit src t = x → is_port_call src t = false.
Proof.
  intros H Hx. pose proof (name_not_reserved x t (bs "out8") H Hx) as H1.
  pose proof (name_not_reserved x t (bs "in8") H Hx) as H2. unfold is_port_call, is_name in *.
  rewrite andb_orb_distrib_r, H1, H2; [done|..]; unfold reserved; set_solver.
Qed.

(** ** Statements *)
Lemma is_type_spells t ty x ty' : spells t (ty, x) → is_type t ty' = bool_decide (ty = ty').
Proof. intros [H _]. unfold is_type. by rewrite H. Qed.

Lemma spells_lit t ty x : spells t (ty, x) → lit src t = x.
Proof. by intros [_ H]. Qed.

Lemma spell_cons_inv ts w ws : spell ts (w :: ws) → ∃ t r, ts = t :: r ∧ spells t w ∧ spell r ws.
Proof. intros (t & r & Ht & Hr & ->)%Forall2_cons_inv_r. by exists t, r. Qed.

Lemma spell_nil_inv ts : spell ts [] → ts = [].
Proof. apply Forall2_nil_inv_r. Qed.

Lemma spell_app_inv ts w1 w2 : spell ts (w1 ++ w2) → ∃ a b, ts = a ++ b ∧ spell a w1 ∧ spell b w2.
Proof. intros (a & b & H1 & H2 & ->)%Forall2_app_inv_r. by exists a, b. Qed.

(** Splits the tokens of a known word list. *)
Ltac tokens :=
  unfold w_id, w_int in *;
  repeat match goal with
  | H : spell _ (_ :: _) |- _ =>
      let t := fresh "t" in let r := fresh "r" in let Ht := fresh "Ht" in
      apply spell_cons_inv in H as (t & r & -> & Ht & H)
  | H : spell _ [] |- _ => apply spell_nil_inv in H as ->
  end.

(** Decides the kinds of tokens and computes the tests on them. *)
Ltac kinds :=
  repeat match goal with
  | H : spells ?t (?ty, _) |- context [is_type ?t ?ty'] =>
      rewrite (is_type_spells t ty _ ty' H);
      let b := eval vm_compute in (bool_decide (ty = ty')) in
      change (bool_decide (ty = ty')) with b
  | |- context [is_type EOF_token ?ty] =>
      let b := eval vm_compute in (is_type EOF_token ty) in change (is_type EOF_token ty) with b
  end; cbn [andb orb negb].

Lemma bind_store_imm {A} o v (k : unit → M A) out s ts :
  (store_imm o v ≫= k) (mk_f out s ts) = k tt (mk_f (out ++ c_imm 0 v ++ c_store 0 o) s ts).
Proof.
  unfold store_imm. rewrite bind_assoc, !bind_emit. do 2 f_equal. unfold emitMovRegToStack, emitMovImm64ToReg.
  by rewrite <- !app_assoc.
Qed.

Lemma bind_update_imm {A} (plus : bool) o v (k : unit → M A) out s ts :
  (update_imm (if plus then PLUS_ASSIGN else MINUS_ASSIGN) o v ≫= k) (mk_f out s ts) =
  k tt (mk_f (out ++ c_load 0 o ++ c_opi plus v ++ c_store 0 o) s ts).
Proof.
  unfold update_imm. rewrite bind_assoc, bind_emit, bind_assoc.
  destruct plus; [rewrite bool_decide_eq_true_2 by done|rewrite bool_decide_eq_false_2 by done];
    rewrite !bind_emit; do 2 f_equal;
    unfold emitMovRegToStack, emitMovStackToReg, emitAddImm64ToReg, emitSubImm64ToReg; by rewrite <- !app_assoc.
Qed.

(** The variables of [D] are declared. *)
Definition scope (s : compilerState) (D : list bytes) : Prop := ∀ x, is_declared s x = bool_decide (x ∈ D).

Lemma var_ok_declared s D x : scope s D → var_ok D x = true → name_ok x = true ∧ is_declared s x = true.
Proof. intros Hs H. apply andb_prop in H as [H1 H2]. by rewrite Hs. Qed.

(** The two forms of assignment in a body agree on integers. *)
Definition body_assign (assign : Z → M unit) : Prop := assign = if_assign src ∨ assign = while_assign src.

Lemma bind_assign_set {A} assign o t1 t2 x k rest s (kk : unit → M A) out :
  body_assign assign → num_ok (2 ^ 64) k = true → spells t1 (ASSIGN, x) → spells t2 (INT, k) →
  (assign o ≫= kk) (mk_f out s (t1 :: t2 :: rest)) =
  kk tt (mk_f (out ++ c_imm 0 (num k) ++ c_store 0 o) s rest).
Proof.
  intros Ha Hk H1 H2.
  assert ((assign o ≫= kk) (mk_f out s (t1 :: t2 :: rest)) =
          (store_imm o (immediate src t2) ≫= kk) (mk_f out s rest)) as ->.
  { destruct Ha as [-> | ->]; unfold if_assign, while_assign; rewrite bind_assoc, bind_next; kinds;
      rewrite bind_assoc, bind_next; by kinds. }
  rewrite (num_ok_immediate _ _ _ Hk) by (done || by eapply spells_lit). apply bind_store_imm.
Qed.

Lemma bind_assign_update {A} assign o (plus : bool) t1 t2 x k rest s (kk : unit → M A) out :
  body_assign assign → num_ok (2 ^ 31) k = true →
  spells t1 (if plus then PLUS_ASSIGN else MINUS_ASSIGN, x) → spells t2 (INT, k) →
  (assign o ≫= kk) (mk_f out s (t1 :: t2 :: rest)) =
  kk tt (mk_f (out ++ c_load 0 o ++ c_opi plus (num k) ++ c_store 0 o) s rest).
Proof.
  intros Ha Hk H1 H2.
  assert ((assign o ≫= kk) (mk_f out s (t1 :: t2 :: rest)) =
          (update_imm (if plus then PLUS_ASSIGN else MINUS_ASSIGN) o (immediate src t2) ≫= kk) (mk_f out s rest)) as ->.
  { destruct Ha as [-> | ->]; destruct plus; unfold if_assign, while_assign; rewrite bind_assoc, bind_next; kinds;
      rewrite bind_assoc, bind_next; kinds; by rewrite (proj1 H1). }
  rewrite (num_ok_immediate _ _ _ Hk) by (done || by eapply spells_lit). apply bind_update_imm.
Qed.

(** The test for a variable, on a token that names one. *)
Lemma bind_body_var {A} assign t x s D rest (k : unit → M A) out :
  scope s D → var_ok D x = true → spells t (IDENT, x) →
  (body_stmt src assign t ≫= k) (mk_f out s rest) = (assign (off s x) ≫= k) (mk_f out s rest).
Proof.
  intros Hs Hx Ht. destruct (var_ok_declared _ _ _ Hs Hx) as [Hn Hd]. unfold body_stmt.
  rewrite (name_not_reserved x t (bs "print") Hn (spells_lit _ _ _ Ht)) by (unfold reserved; set_solver).
  rewrite (name_not_port x t Hn (spells_lit _ _ _ Ht)). kinds.
  by rewrite bind_assoc, (spells_lit _ _ _ Ht), bind_offset.
Qed.

Lemma bind_simple {A} assign b ts rest s D (k : unit → M A) out :
  body_assign assign → scope s D → simple_ok D b = true → spell ts (simple_words b) →
  ∃ t r, ts = t :: r ∧ is_type t RBRACE = false ∧ is_type t EOF = false ∧
    (body_stmt src assign t ≫= k) (mk_f out s (r ++ rest)) = k tt (mk_f (out ++ g_simple s b) s rest).
Proof.
  intros Ha Hs Hok Hts.
  destruct b as [x v|x v|x v]; cbn [simple_ok simple_words g_simple] in *; apply andb_prop in Hok as [Hx Hv]; tokens;
    (eexists _, _; split; [done|]; kinds; split; [done|]; split; [done|]; cbn [app]);
    rewrite (bind_body_var _ _ _ _ _ _ _ _ Hs Hx Ht).
  - by eapply bind_assign_set.
  - by apply (bind_assign_update _ _ true _ _ _ _ _ _ _ _ Ha Hv Ht0 Ht1).
  - by apply (bind_assign_update _ _ false _ _ _ _ _ _ _ _ Ha Hv Ht0 Ht1).
Qed.

Lemma bind_if_body {A} body n ts t rest s D (k : unit → M A) out :
  scope s D → forallb (simple_ok D) body = true → spell ts (concat (map simple_words body)) →
  spells t (RBRACE, bs "}") → (length body < n)%nat →
  (if_body src n ≫= k) (mk_f out s (ts ++ t :: rest)) = k tt (mk_f (out ++ g_block s body) s rest).
Proof.
  intros Hs Hok Hts Ht. revert n ts out Hts. induction body as [|b body IH]; intros n ts out Hts Hn;
    (destruct n as [|n]; [cbn in Hn; lia|]); cbn [if_body map concat forallb] in *.
  - tokens. cbn [app]. rewrite bind_assoc, bind_next. kinds. by rewrite app_nil_r.
  - apply andb_prop in Hok as [Hb Hok]. apply spell_app_inv in Hts as (t1 & t2 & -> & H1 & H2).
    rewrite <- app_assoc.
    destruct (bind_simple (if_assign src) b t1 (t2 ++ t :: rest) s D (λ _, if_body src n ≫= k) out) as (t0 & r & -> & E1 & E2 & E);
      [by left|done..|]. cbn [app]. rewrite bind_assoc, bind_next, E1, E2. cbn [orb].
    rewrite bind_assoc, E, IH by (done || cbn in Hn; lia). by rewrite <- app_assoc.
Qed.

Lemma bind_while_body {A} body n ts t rest s D (k : unit → M A) out :
  scope s D → forallb (simple_ok D) body = true → spell ts (concat (map simple_words body)) →
  spells t (RBRACE, bs "}") → (length body < n)%nat →
  (while_body src n ≫= k) (mk_f out s (ts ++ t :: rest)) = k tt (mk_f (out ++ g_block s body) s rest).
Proof.
  intros Hs Hok Hts Ht. revert n ts out Hts. induction body as [|b body IH]; intros n ts out Hts Hn;
    (destruct n as [|n]; [cbn in Hn; lia|]); cbn [while_body map concat forallb] in *.
  - tokens. cbn [app]. rewrite bind_assoc, bind_next. kinds. by rewrite app_nil_r.
  - apply andb_prop in Hok as [Hb Hok]. apply spell_app_inv in Hts as (t1 & t2 & -> & H1 & H2).
    rewrite <- app_assoc.
    destruct (bind_simple (while_assign src) b t1 (t2 ++ t :: rest) s D (λ _, while_body src n ≫= k) out) as (t0 & r & -> & E1 & E2 & E);
      [by right|done..|]. cbn [app]. rewrite bind_assoc, bind_next, E1, E2. cbn [orb].
    rewrite bind_assoc, E, IH by (done || cbn in Hn; lia). by rewrite <- app_assoc.
Qed.

Lemma body_fuel body ts rest :
  spell ts (concat (map simple_words body)) → (length body < S (length (ts ++ rest)))%nat.
Proof.
  intros H. apply Forall2_length in H. rewrite length_app, H. clear H.
  induction body as [|b body IH]; cbn; [lia|]. rewrite length_app. destruct b; cbn; lia.
Qed.

Lemma simple_block_size s body : Zlen (g_block s body) = foldr (λ b n, simple_size b + n) 0 body.
Proof.
  unfold g_block. induction body as [|b body IH]; [done|]. cbn [map concat foldr]. rewrite length_app, Nat2Z.inj_add, IH.
  f_equal. destruct b; cbn [g_simple simple_size]; unfold c_imm, c_store, c_load, c_opi;
    rewrite !length_app, !length_le_bytes; done.
Qed.

(** The last bytes of the output are patched after more has been written. *)
Lemma patch_out (out a b : bytes) (hole new : bytes) :
  length hole = length new →
  patch (out ++ a ++ hole ++ b) (length (out ++ a)) new = Ok (out ++ a ++ new ++ b).
Proof. intros H. rewrite app_assoc, patch_mid by done. by rewrite <- app_assoc. Qed.

Lemma op_ok_word op t :
  op ∈ [LT; GT; EQ] → spells t (op_word op) → t_type t = op ∧ is_type t LT || is_type t GT || is_type t EQ = true.
Proof.
  intros Hop [H _]. unfold is_type. rewrite H.
  assert (op = LT ∨ op = GT ∨ op = EQ) as [->|[->| ->]] by set_solver; done.
Qed.

Lemma bind_if {A} x op y body D D' ts rest s (k : unit → M A) out :
  scope s D → stmt_ok D (SIf x op y body) = Some D' → spell ts (stmt_words (SIf x op y body)) →
  ∃ t r, ts = t :: r ∧ spells t (IF, bs "if") ∧
    (if_stmt src ≫= k) (mk_f out s (r ++ rest)) =
    k tt (mk_f (out ++ (g_stmt s (SIf x op y body)).1) s rest).
Proof.
  intros Hs Hok Hts. cbn [stmt_ok] in Hok.
  destruct (_ && _) eqn:E in Hok; [|done]. clear Hok D'. rewrite !andb_true_iff, bool_decide_eq_true, Z.leb_le in E.
  destruct E as ((((Hx & Hy) & Hb) & Hop) & Hsize). cbn [stmt_words] in Hts. unfold block_words in Hts.
  cbn [app] in Hts. tokens. apply spell_app_inv in Hts as (tb & tl & -> & Htb & Htl). tokens.
  destruct (var_ok_declared _ _ _ Hs Hx) as [_ Hdx], (var_ok_declared _ _ _ Hs Hy) as [_ Hdy].
  destruct (op_ok_word _ _ Hop Ht1) as [Hopt Hopb].
  eexists _, _. split; [done|]. split; [done|]. cbn [app]. rewrite <- app_assoc. cbn [app].
  unfold if_stmt.
  rewrite bind_assoc, bind_next, bind_assoc, bind_guard by (by kinds).
  rewrite bind_assoc, (spells_lit _ _ _ Ht0), bind_offset, bind_assoc, bind_next by done.
  rewrite bind_assoc, bind_guard, bind_assoc, bind_next, bind_assoc, bind_guard by (done || by kinds).
  rewrite bind_assoc, (spells_lit _ _ _ Ht2), bind_offset, bind_assoc, bind_expect by (done || by kinds).
  rewrite !bind_assoc, bind_emit, !bind_assoc, bind_emit, !bind_assoc, bind_emit, !bind_assoc, bind_emit.
  rewrite !bind_assoc, bind_len, !bind_assoc, bind_fuel, !bind_assoc.
  rewrite (bind_if_body body _ tb) with (D := D) by (done || by apply body_fuel).
  rewrite !bind_assoc, bind_len, Hopt. unfold emitCondJmp. cbn [snd].
  set (front := emitCmpRegToReg _ _ _). set (b := g_block s body).
  assert (Hlen : Zlen b ≤ 127) by (unfold b; by rewrite simple_block_size).
  replace (length ((front ++ [jump_unless op; 0%Z]) ++ b) - length (front ++ [jump_unless op; 0%Z]))%nat
    with (length b) by (rewrite (length_app _ b); lia).
  rewrite bind_assoc, bind_guard by (apply Nat.leb_le; lia).
  rewrite (bind_try _ _ _ (front ++ [jump_unless op] ++ [u8 (Zlen b)] ++ b)).
  - do 2 f_equal. unfold front, emitCmpRegToReg, emitMovStackToReg. cbn [g_stmt fst]. fold b.
    unfold c_load, c_cmp. rewrite <- !app_assoc. done.
  - replace ((front ++ [jump_unless op; 0]) ++ b) with (front ++ [jump_unless op] ++ [0] ++ b)
      by (by rewrite <- app_assoc).
    replace (length (front ++ [jump_unless op; 0%Z]) - 1)%nat with (length (front ++ [jump_unless op]))
      by (rewrite !length_app; cbn; lia).
    by apply patch_out.
Qed.

Lemma bind_while {A} x body D D' ts rest s (k : unit → M A) out :
  scope s D → stmt_ok D (SWhile x body) = Some D' → spell ts (stmt_words (SWhile x body)) →
  ∃ t r, ts = t :: r ∧ spells t (WHILE, bs "while") ∧
    (while_stmt src ≫= k) (mk_f out s (r ++ rest)) =
    k tt (mk_f (out ++ (g_stmt s (SWhile x body)).1) s rest).
Proof.
  intros Hs Hok Hts. cbn [stmt_ok] in Hok.
  destruct (_ && _) eqn:E in Hok; [|done]. clear Hok D'. rewrite !andb_true_iff in E. destruct E as [Hx Hb].
  cbn [stmt_words] in Hts. unfold block_words in Hts.
  cbn [app] in Hts. tokens. apply spell_app_inv in Hts as (tb & tl & -> & Htb & Htl). tokens.
  destruct (var_ok_declared _ _ _ Hs Hx) as [_ Hdx].
  eexists _, _. split; [done|]. split; [done|]. cbn [app]. rewrite <- app_assoc. cbn [app].
  unfold while_stmt.
  rewrite bind_assoc, bind_next, bind_assoc, bind_guard by (by kinds).
  rewrite bind_assoc, (spells_lit _ _ _ Ht0), bind_offset, bind_assoc, bind_expect by (done || by kinds).
  rewrite !bind_assoc, bind_len, !bind_assoc, bind_emit, !bind_assoc, bind_emit, !bind_assoc, bind_emit.
  rewrite !bind_assoc, bind_len, !bind_assoc, bind_emit, !bind_assoc, bind_fuel, !bind_assoc.
  rewrite (bind_while_body body _ tb) with (D := D) by (done || by apply body_fuel).
  rewrite !bind_assoc, bind_emit, !bind_assoc, bind_len, !bind_assoc, bind_emit, !bind_assoc, bind_len, !bind_assoc.
  set (b := g_block s body). set (o := off s x).
  assert (Hhead : emitCmpRegToReg (emitMovImm64ToReg (emitMovStackToReg out 0 o) 1 0) 1 0 =
                  out ++ (c_load 0 o ++ c_imm 1 0 ++ c_cmp)).
  { unfold emitCmpRegToReg, emitMovImm64ToReg, emitMovStackToReg. by rewrite <- !app_assoc. }
  rewrite Hhead. set (h := c_load 0 o ++ c_imm 1 0 ++ c_cmp).
  assert (Hh : length h = 20%nat) by (unfold h, c_load, c_imm; rewrite !length_app, !length_le_bytes; done).
  set (back := le_bytes 4 (i32 (- (Zlen b + 31)))). set (fwd := le_bytes 4 (i32 (Zlen b + 5))).
  rewrite (bind_try _ _ _ (out ++ (h ++ [0x0F; 0x84; 0; 0; 0; 0] ++ b ++ [0xE9]) ++ back ++ [])).
  2: { replace (i32 (Z.of_nat (length out) - _)) with (i32 (- (Zlen b + 31)))
         by (f_equal; rewrite !length_app, Hh; cbn [length]; lia).
       fold back. rewrite <- (patch_out out (h ++ [0x0F; 0x84; 0; 0; 0; 0] ++ b ++ [0xE9]) [] [0; 0; 0; 0] back)
         by (unfold back; by rewrite length_le_bytes).
       f_equal; by rewrite ?app_nil_r, <- !app_assoc. }
  rewrite !bind_assoc, bind_len.
  rewrite (bind_try _ _ _ (out ++ (h ++ [0x0F; 0x84]) ++ fwd ++ b ++ [0xE9] ++ back)).
  - by do 2 f_equal.
  - replace (i32 (Z.of_nat (length (out ++ _)) - _)) with (i32 (Zlen b + 5))
      by (f_equal; rewrite !length_app, Hh; unfold back; rewrite length_le_bytes; cbn [length]; lia).
    fold fwd. rewrite <- (patch_out out (h ++ [0x0F; 0x84]) (b ++ [0xE9] ++ back) [0; 0; 0; 0] fwd)
      by (unfold fwd; by rewrite length_le_bytes).
    f_equal; rewrite ?app_nil_r, <- ?app_assoc; [done|rewrite !length_app; cbn; lia].
Qed.

Lemma scope_alloc s D x : scope s D → scope (alloc s x) (D ++ [x]).
Proof.
  intros Hs y. unfold alloc, is_declared. cbn [declared]. destruct (decide (x = y)) as [->|Hn].
  - rewrite lookup_insert_eq. symmetry. apply bool_decide_eq_true. set_solver.
  - rewrite lookup_insert_ne by done. fold (is_declared s y). rewrite Hs. apply bool_decide_ext. set_solver.
Qed.

Lemma bind_update_var {A} (plus : bool) o t y D s (k : unit → M A) out ts :
  scope s D → var_ok D y = true → lit src t = y →
  (update_var src (if plus then PLUS_ASSIGN else MINUS_ASSIGN) o t ≫= k) (mk_f out s ts) =
  k tt (mk_f (out ++ c_load 0 o ++ c_load 1 (off s y) ++ c_op plus ++ c_store 0 o) s ts).
Proof.
  intros Hs Hy Hl. destruct (var_ok_declared _ _ _ Hs Hy) as [_ Hd]. unfold update_var.
  rewrite bind_assoc, Hl, bind_offset, bind_assoc, bind_emit, bind_assoc, bind_emit, bind_assoc by done.
  destruct plus; [rewrite bool_decide_eq_true_2 by done|rewrite bool_decide_eq_false_2 by done];
    rewrite !bind_emit; do 2 f_equal;
    unfold emitMovRegToStack, emitMovStackToReg, emitAddRegToReg, emitSubRegToReg; by rewrite <- !app_assoc.
Qed.

(** The statement loop's dispatch on a variable. *)
Lemma bind_assign_head {A} t t1 x D s (k : flow → M A) out ts :
  scope s D → var_ok D x = true → spells t (IDENT, x) →
  (statement src t ≫= k) (mk_f out s (t1 :: ts)) = (assign_op src (off s x) t1 ≫= λ _, k Next) (mk_f out s ts).
Proof.
  intros Hs Hx Ht. destruct (var_ok_declared _ _ _ Hs Hx) as [Hn Hd]. pose proof (spells_lit _ _ _ Ht) as Hl.
  unfold statement. kinds.
  rewrite (name_not_reserved x t (bs "print") Hn Hl), (name_not_port x t Hn Hl),
    (name_not_reserved x t (bs "poke") Hn Hl) by (unfold reserved; set_solver).
  unfold assign_stmt. by rewrite !bind_assoc, Hl, bind_offset, ?bind_assoc, bind_next, ?bind_assoc.
Qed.

Lemma bind_simple_stmt {A} b D ts rest s (k : flow → M A) out :
  scope s D → simple_ok D b = true → spell ts (simple_words b) →
  ∃ t r, ts = t :: r ∧ is_type t EOF = false ∧
    (statement src t ≫= k) (mk_f out s (r ++ rest)) = k Next (mk_f (out ++ g_simple s b) s rest).
Proof.
  intros Hs Hok Hts.
  destruct b as [x v|x v|x v]; cbn [simple_ok simple_words g_simple] in *; apply andb_prop in Hok as [Hx Hv]; tokens;
    (eexists _, _; split; [done|]; kinds; split; [done|]; cbn [app]);
    rewrite (bind_assign_head _ _ _ _ _ _ _ _ Hs Hx Ht); unfold assign_op; kinds;
    rewrite bind_assoc, bind_next; kinds; rewrite (num_ok_immediate _ _ _ Hv) by (done || by eapply spells_lit).
  - apply bind_store_imm.
  - rewrite (proj1 Ht0). apply (bind_update_imm true).
  - rewrite (proj1 Ht0). apply (bind_update_imm false).
Qed.

Lemma bind_addv {A} (plus : bool) x y D ts rest s (k : flow → M A) out :
  scope s D → var_ok D x = true → var_ok D y = true →
  spell ts [(IDENT, x); (if plus then (PLUS_ASSIGN, bs "+=") else (MINUS_ASSIGN, bs "-=")); (IDENT, y)] →
  ∃ t r, ts = t :: r ∧ is_type t EOF = false ∧
    (statement src t ≫= k) (mk_f out s (r ++ rest)) =
    k Next (mk_f (out ++ c_load 0 (off s x) ++ c_load 1 (off s y) ++ c_op plus ++ c_store 0 (off s x)) s rest).
Proof.
  intros Hs Hx Hy Hts. destruct plus; tokens;
    (eexists _, _; split; [done|]; kinds; split; [done|]; cbn [app]);
    rewrite (bind_assign_head _ _ _ _ _ _ _ _ Hs Hx Ht); unfold assign_op; kinds;
    rewrite bind_assoc, bind_next; kinds; rewrite (proj1 Ht0).
  - cbn [fst]. by rewrite (bind_update_var true _ _ y D) by (done || by eapply spells_lit).
  - cbn [fst]. by rewrite (bind_update_var false _ _ y D) by (done || by eapply spells_lit).
Qed.

Lemma bind_let {A} x v D ts rest s (k : flow → M A) out :
  scope s D → x ∉ D → num_ok (2 ^ 64) v = true → spell ts (stmt_words (SLet x v)) →
  ∃ t r, ts = t :: r ∧ is_type t EOF = false ∧
    (statement src t ≫= k) (mk_f out s (r ++ rest)) =
    k Next (mk_f (out ++ (g_stmt s (SLet x v)).1) (alloc s x) rest).
Proof.
  intros Hs Hx Hv Hts. cbn [stmt_words] in Hts. tokens. eexists _, _. split; [done|]. kinds. split; [done|].
  cbn [app]. unfold statement. kinds. unfold let_stmt.
  rewrite !bind_assoc, bind_next, bind_assoc, bind_guard, bind_assoc, bind_expect by (by kinds).
  rewrite bind_assoc, (spells_lit _ _ _ Ht0), bind_declare, bind_assoc, bind_next
    by (rewrite Hs; by apply bool_decide_eq_false).
  kinds. rewrite bind_store_imm, (num_ok_immediate _ _ _ Hv) by (done || by eapply spells_lit). done.
Qed.

(** One round of the statement loop. *)
Lemma bind_stmt {A} st D D' ts rest s (k : flow → M A) out :
  scope s D → stmt_ok D st = Some D' → spell ts (stmt_words st) →
  ∃ t r, ts = t :: r ∧ is_type t EOF = false ∧
    (statement src t ≫= k) (mk_f out s (r ++ rest)) =
    k Next (mk_f (out ++ (g_stmt s st).1) (g_stmt s st).2 rest) ∧
    scope (g_stmt s st).2 D'.
Proof.
  intros Hs Hok Hts. destruct st as [x v|b|x y|x y|x op y body|x body].
  - cbn [stmt_ok] in Hok. destruct (_ && _) eqn:E in Hok; [|done]. injection Hok as <-.
    rewrite !andb_true_iff, bool_decide_eq_true in E. destruct E as [[_ Hx] Hv].
    destruct (bind_let x v D ts rest s k out) as (t & r & H); [done..|]. exists t, r.
    repeat split; try apply H. by apply scope_alloc.
  - cbn [stmt_ok] in Hok. destruct (simple_ok D b) eqn:E; [|done]. injection Hok as <-.
    destruct (bind_simple_stmt b D ts rest s k out) as (t & r & H); [done..|]. exists t, r. by repeat split; try apply H.
  - cbn [stmt_ok] in Hok. destruct (_ && _) eqn:E in Hok; [|done]. injection Hok as <-. apply andb_prop in E as [Hx Hy].
    destruct (bind_addv true x y D ts rest s k out) as (t & r & H); [done..|]. exists t, r. by repeat split; try apply H.
  - cbn [stmt_ok] in Hok. destruct (_ && _) eqn:E in Hok; [|done]. injection Hok as <-. apply andb_prop in E as [Hx Hy].
    destruct (bind_addv false x y D ts rest s k out) as (t & r & H); [done..|]. exists t, r. by repeat split; try apply H.
  - destruct (bind_if x op y body D D' ts rest s (λ _, k Next) out) as (t & r & -> & Ht & H); [done..|].
    assert (D' = D) as -> by (cbn [stmt_ok] in Hok; destruct (_ && _); congruence).
    exists t, r. split; [done|]. kinds. split; [done|]. split; [|done]. unfold statement. kinds.
    by rewrite bind_assoc.
  - destruct (bind_while x body D D' ts rest s (λ _, k Next) out) as (t & r & -> & Ht & H); [done..|].
    assert (D' = D) as -> by (cbn [stmt_ok] in Hok; destruct (_ && _); congruence).
    exists t, r. split; [done|]. kinds. split; [done|]. split; [|done]. unfold statement. kinds.
    by rewrite bind_assoc.
Qed.

Lemma statements_block l D D' m ts rest s out :
  scope s D → stmts_ok D l = Some D' → spell ts (concat (map stmt_words l)) →
  statements src (length l + m) (mk_f out s (ts ++ rest)) =
  statements src m (mk_f (out ++ (g_stmts s l).1) (g_stmts s l).2 rest) ∧
  scope (g_stmts s l).2 D'.
Proof.
  revert D ts s out. induction l as [|st l IH]; intros D ts s out Hs Hok Hts; cbn [stmts_ok map concat length g_stmts] in *.
  - injection Hok as <-. tokens. by rewrite app_nil_r.
  - destruct (stmt_ok D st) as [D1|] eqn:E1; [|done]. cbn in Hok.
    apply spell_app_inv in Hts as (t1 & t2 & -> & H1 & H2). rewrite <- app_assoc. cbn [Nat.add statements].
    destruct (bind_stmt st D D1 t1 (t2 ++ rest) s
      (λ r, match r with Next => statements src (length l + m) | Done code relocs => mret (Done code relocs) end) out)
      as (t & r & -> & Ht & E & Hs'); [done..|].
    cbn [app]. rewrite bind_next, Ht, E. destruct (g_stmt s st) as [b s1]. cbn [fst snd] in *.
    destruct (IH D1 t2 s1 (out ++ b) Hs' Hok H2) as [-> Hs2].
    destruct (g_stmts s1 l) as [c s2]. cbn [fst snd] in *. by rewrite <- app_assoc.
Qed.

(** ** Returns *)
Lemma bind_call_args {A} ys n acc ts rest s (k : list bytes → M A) out :
  spell ts (names_words ys) → (length ts < n)%nat →
  (call_args src n acc ≫= k) (mk_f out s (ts ++ rest)) = k (acc ++ ys) (mk_f out s rest).
Proof.
  revert n acc ts. induction ys as [|y ys IH]; intros n acc ts Hts Hn.
  - cbn [names_words] in Hts. tokens. destruct n as [|n]; [cbn in Hn; lia|]. cbn [call_args app].
    rewrite bind_assoc, bind_next. kinds. by rewrite app_nil_r.
  - destruct ys as [|z ys].
    + cbn [names_words] in Hts. tokens. destruct n as [|n]; [cbn in Hn; lia|]. cbn [call_args app].
      rewrite bind_assoc, bind_next. kinds. rewrite bind_assoc, bind_next. kinds.
      by rewrite (spells_lit _ _ _ Ht).
    + change (names_words (y :: z :: ys)) with (w_id y :: (COMMA, bs ",") :: names_words (z :: ys)) in Hts.
      tokens. destruct n as [|n]; [cbn in Hn; lia|]. cbn [call_args app].
      rewrite bind_assoc, bind_next. kinds. rewrite bind_assoc, bind_next. kinds.
      rewrite IH by (done || cbn in Hn; lia). rewrite (spells_lit _ _ _ Ht). by rewrite <- app_assoc.
Qed.

Lemma bind_load_call_args {A} ys i D s (k : unit → M A) out ts :
  scope s D → forallb (var_ok D) ys = true → (i + length ys ≤ 6)%nat →
  (load_call_args i ys ≫= k) (mk_f out s ts) =
  k tt (mk_f (out ++ concat (imap (λ j y, c_load (arg_reg_of (i + j)) (off s y)) ys)) s ts).
Proof.
  intros Hs. revert i out. induction ys as [|y ys IH]; intros i out Hok Hi; cbn [load_call_args imap concat forallb] in *.
  - by rewrite app_nil_r.
  - apply andb_prop in Hok as [Hy Hok]. destruct (var_ok_declared _ _ _ Hs Hy) as [_ Hd]. cbn in Hi.
    rewrite bind_assoc, bind_offset, bind_assoc, bind_arg_reg, bind_assoc, bind_emit by (done || lia).
    rewrite IH by (done || lia). do 2 f_equal. rewrite Nat.add_0_r.
    rewrite (imap_ext _ (λ j y, c_load (arg_reg_of (i + S j)) (off s y))) by (intros; by rewrite Nat.add_succ_r).
    unfold emitMovStackToReg, c_load. by rewrite <- !app_assoc.
Qed.

(** The relocations of a return. *)
Definition tail_relocs (out : bytes) (s : compilerState) (t : tail) : list Relocation :=
  match t with RCall g ys => [mk_rel (Zlen (out ++ g_args s ys)) g] | _ => [] end.

Lemma finish_eq {A} relocs (k : flow → M A) out s ts :
  (finish relocs ≫= k) (mk_f out s ts) = k (Done (peephole (out ++ [0xC9; 0xC3])) relocs) (mk_f out s ts).
Proof. unfold finish, EmitEpilogue, mbind, M_bind. cbn [f_out]. by rewrite <- app_assoc. Qed.

Lemma not_port_name x t : name_ok x = true → lit src t = x →
  bool_decide (x = bs "out8") || bool_decide (x = bs "in8") = false ∧ bool_decide (x = bs "poke") = false.
Proof.
  intros H _. unfold name_ok in H. apply andb_prop in H as [_ H]. apply bool_decide_eq_true in H. unfold reserved in H.
  rewrite !bool_decide_eq_false_2; [done|..]; intros ->; set_solver.
Qed.

Lemma bind_peek_end {A} (k : Token → M A) out s : (peekToken ≫= k) (mk_f out s []) = k EOF_token (mk_f out s []).
Proof. done. Qed.

Lemma bind_return t D G ts s (k : flow → M flow) out :
  scope s D → tail_ok D G t = true → (∀ g, g ∈ G → name_ok g = true) → spell ts (tail_words t) →
  ∃ t0 r, ts = t0 :: r ∧ is_type t0 EOF = false ∧ ∃ f',
    (statement src t0 ≫= k) (mk_f out s r) =
    k (Done (peephole (out ++ g_tail s 0 t ++ [0xC9; 0xC3])) (tail_relocs out s t)) f'.
Proof.
  intros Hs Hok HG Hts. unfold tail_words in Hts. apply spell_cons_inv in Hts as (t0 & r & -> & Ht0 & Hts).
  exists t0, r. split; [done|]. kinds. split; [done|]. unfold statement, is_port_call, is_name. kinds.
  unfold return_stmt. rewrite bind_assoc.
  destruct t as [v|x|p x y|p x v|g ys]; cbn [tail_ok g_tail tail_relocs] in *.
  - eexists. tokens. rewrite bind_next, ?bind_assoc, bind_peek_end. kinds.
    rewrite ?bind_assoc, bind_emit, finish_eq, (num_ok_immediate _ _ _ Hok) by (done || by eapply spells_lit).
    unfold emitMovImm64ToReg, c_imm. by rewrite <- !app_assoc.
  - eexists. tokens. destruct (var_ok_declared _ _ _ Hs Hok) as [_ Hd]. rewrite bind_next, ?bind_assoc, bind_peek_end. kinds.
    rewrite ?bind_assoc, (spells_lit _ _ _ Ht), bind_offset, bind_emit, finish_eq by done.
    unfold emitMovStackToReg, c_load. by rewrite <- !app_assoc.
  - apply andb_prop in Hok as [Hx Hy].
    destruct (var_ok_declared _ _ _ Hs Hx) as [_ Hdx], (var_ok_declared _ _ _ Hs Hy) as [_ Hdy].
    destruct p; eexists; unfold sign_word in Hts; tokens; rewrite bind_next, ?bind_assoc, bind_peek; kinds; unfold return_op;
      rewrite ?bind_assoc, bind_next, ?bind_assoc, bind_next, ?bind_assoc, bind_guard by (by kinds); kinds;
      rewrite ?bind_assoc, (spells_lit _ _ _ Ht), bind_offset, ?bind_assoc, bind_emit, ?bind_assoc by done;
      rewrite (spells_lit _ _ _ Ht2), bind_offset, ?bind_assoc, bind_emit, ?bind_assoc, bind_emit, finish_eq by done;
      unfold emitMovStackToReg, c_load, emitAddRegToReg, emitSubRegToReg; by rewrite <- !app_assoc.
  - apply andb_prop in Hok as [Hx Hv].
    destruct (var_ok_declared _ _ _ Hs Hx) as [_ Hdx].
    destruct p; eexists; unfold sign_word in Hts; tokens; rewrite bind_next, ?bind_assoc, bind_peek; kinds; unfold return_op;
      rewrite ?bind_assoc, bind_next, ?bind_assoc, bind_next, ?bind_assoc, bind_guard by (by kinds); kinds;
      rewrite ?bind_assoc, (spells_lit _ _ _ Ht), bind_offset, ?bind_assoc, bind_emit, ?bind_assoc by done;
      rewrite bind_emit, finish_eq, (num_ok_immediate _ _ _ Hv) by (done || by eapply spells_lit);
      unfold emitMovStackToReg, c_load, emitAddImm64ToReg, emitSubImm64ToReg; by rewrite <- !app_assoc.
  - eexists. rewrite !andb_true_iff, bool_decide_eq_true, Nat.leb_le in Hok. destruct Hok as [[Hg Hys] Hlen].
    unfold w_id in Hts. apply spell_cons_inv in Hts as (t1 & r1 & -> & Ht1 & Hts).
    apply spell_cons_inv in Hts as (t2 & r2 & -> & Ht2 & Hts).
    rewrite bind_next, ?bind_assoc, bind_peek. kinds.
    pose proof (spells_lit _ _ _ Ht1) as Hl. rewrite Hl.
    destruct (not_port_name g t1 (HG g Hg) Hl) as [E1 E2].
    unfold return_call. rewrite E1, E2, ?bind_assoc, bind_fuel, bind_assoc. cbn [length].
    assert (∀ n kk, (call_args src (S n) [] ≫= kk) (mk_f out s (t2 :: r2)) = (call_args src n [] ≫= kk) (mk_f out s r2)) as ->.
    { intros n kk. cbn [call_args]. rewrite ?bind_assoc, bind_next. by kinds. }
    rewrite <- (app_nil_r r2). rewrite (bind_call_args ys) by (done || rewrite app_nil_r; lia). cbn [app].
    rewrite ?bind_assoc, (bind_load_call_args ys 0 D), ?bind_assoc, bind_len, ?bind_assoc, bind_emit, finish_eq by (done || lia).
    cbn [Nat.add]. fold (g_args s ys). by rewrite <- !app_assoc.
Qed.

(** ** Functions *)
Lemma store_args_eq xs i D s out :
  scope s D → NoDup xs → (∀ x, x ∈ xs → x ∉ D) → (i + length xs ≤ 6)%nat →
  store_args i out s xs = Ok (out ++ g_params i s xs, alloc_all s xs) ∧ scope (alloc_all s xs) (D ++ xs).
Proof.
  revert i D s out. induction xs as [|x xs IH]; intros i D s out Hs Hnd Hx Hi; cbn [store_args g_params alloc_all].
  - by rewrite !app_nil_r.
  - apply NoDup_cons in Hnd as [Hn Hnd]. cbn in Hi.
    assert (is_declared s x = false) as Hd by (rewrite Hs; apply bool_decide_eq_false, Hx; left).
    unfold declareAndAlloc. rewrite Hd. cbn [mbind outcome_bind]. fold (alloc s x).
    assert (argReg i = Ok (arg_reg_of i)) as ->.
    { do 6 (destruct i as [|i]; [done|]). lia. }
    cbn [mbind outcome_bind].
    destruct (IH (S i) (D ++ [x]) (alloc s x) (emitMovRegToStack out (arg_reg_of i) (stackOffset s - 8))) as [-> Hs'].
    + by apply scope_alloc.
    + done.
    + intros y Hy. pose proof (Hx y ltac:(by right)). intros [?| ->%list_elem_of_singleton]%elem_of_app; done.
    + lia.
    + split; [|by rewrite <- app_assoc in Hs']. do 2 f_equal. unfold off, alloc. cbn [vars].
      rewrite lookup_insert_eq. cbn [default]. unfold emitMovRegToStack, c_store. by rewrite <- !app_assoc.
Qed.

Lemma scope_new : scope newCompilerState [].
Proof. intros x. done. Qed.

(** The relocations of the function's code. *)
Definition func_relocs (f : func) : list Relocation :=
  let '(b, s) := g_front f in tail_relocs b s (fn_ret f).

Lemma compile_func G f ts funcTable :
  func_ok G f = true → (∀ g, g ∈ G → name_ok g = true) → spell ts (body_words f) →
  CompileFunc src (mk_func (fn_name f) (fn_params f) ts) funcTable =
  Ok (peephole (g_func 0 f), func_relocs f).
Proof.
  intros Hok HG Hts. unfold func_ok in Hok. rewrite !andb_true_iff, bool_decide_eq_true, Nat.leb_le in Hok.
  destruct Hok as (((((_ & _) & Hnd) & Hlen) & _) & Hbody).
  destruct (stmts_ok (fn_params f) (fn_body f)) as [D|] eqn:E; [|done].
  unfold CompileFunc, EmitPrologue. cbn [args bodyTokens].
  destruct (store_args_eq (fn_params f) 0 [] newCompilerState prologue scope_new Hnd) as [Hst Hsc];
    [intros; apply not_elem_of_nil|lia|]. cbn [app] in Hsc.
  change (store_args 0 _ newCompilerState (fn_params f)) with (store_args 0 prologue newCompilerState (fn_params f)).
  rewrite Hst. cbn [mbind outcome_bind].
  apply spell_app_inv in Hts as (tb & tr & -> & Hb & Hr).
  assert (∃ m, S (length (tb ++ tr)) = (length (fn_body f) + S m)%nat) as [m ->].
  { exists (length (tb ++ tr) - length (fn_body f))%nat.
    assert (length (fn_body f) ≤ length tb)%nat.
    { apply Forall2_length in Hb. rewrite Hb. clear. induction (fn_body f) as [|st l IH]; cbn; [lia|].
      rewrite length_app. destruct st as [| [] | | | |]; cbn; lia. }
    rewrite length_app. lia. }
  destruct (statements_block (fn_body f) _ D (S m) tb tr _ (prologue ++ g_params 0 newCompilerState (fn_params f)) Hsc E Hb)
    as [-> Hs2].
  unfold func_relocs, g_func, g_front.
  destruct (g_stmts _ (fn_body f)) as [b s'] eqn:Eg. cbn [fst snd] in *. cbn [statements].
  destruct (bind_return (fn_ret f) D G tr s'
    (λ r, match r with Next => statements src m | Done code relocs => mret (Done code relocs) end)
    ((prologue ++ g_params 0 newCompilerState (fn_params f)) ++ b)) as (t0 & r & -> & Ht & f' & Heq); [done..|].
  rewrite bind_next, Ht, Heq. cbn [mret M_ret mbind outcome_bind]. by rewrite <- !app_assoc.
Qed.

(** ** The declarations

    [chain l ts]: the calls of NextToken from [l] on return [ts] and then the
    end of the input. *)
Fixpoint chain (l : Lexer) (ts : list Token) : Prop :=
  lexer_ok l ∧ l_input l = src ∧
  match ts with
  | [] => ∃ t l', NextToken l = Ok (t, l') ∧ is_type t EOF = true
  | t :: r => ∃ l', NextToken l = Ok (t, l') ∧ is_type t EOF = false ∧ chain l' r
  end.

Lemma chain_tokenize n pre (s : bytes) ws :
  pre ++ s = src → tokenize n (at_split pre s) = Ok ws → ∃ ts, chain (at_split pre s) ts ∧ spell ts ws.
Proof.
  revert pre s ws. induction n as [|n IH]; intros pre s ws Hsrc Htok; [done|]. cbn [tokenize] in Htok.
  destruct (NextToken_at pre s) as (b & t & m & s' & Hs & E & _). rewrite E in Htok. cbn [mbind outcome_bind] in Htok.
  assert (lexer_ok (at_split pre s)) by by eexists _, _.
  case_bool_decide as Ht.
  - injection Htok as <-. exists []. split; [|constructor]. split; [done|]. split; [done|].
    eexists _, _. split; [exact E|]. by apply bool_decide_eq_true.
  - destruct (tokenize n (at_split (pre ++ b ++ m) s')) as [r| | |] eqn:Er; try done. cbn in Htok. injection Htok as <-.
    destruct (IH (pre ++ b ++ m) s' r) as (ts & Hc & Hsp); [by rewrite <- !app_assoc, <- Hs|done|].
    exists (t :: ts). split.
    + split; [done|]. split; [done|]. eexists. split; [exact E|]. split; [by apply bool_decide_eq_false|done].
    + constructor; [|done]. split; [done|]. unfold lit. cbn [snd at_split l_input]. by rewrite Hsrc.
Qed.

Lemma chain_length l ts : chain l ts → (length ts + l_pos l ≤ length src)%nat.
Proof.
  revert l. induction ts as [|t ts IH]; intros l Hc; destruct Hc as ((pre & s & ->) & Hsrc & Hc); cbn [at_split l_pos l_input] in *.
  - rewrite <- Hsrc, length_app. cbn. lia.
  - destruct Hc as (l' & E & Ht & Hc). pose proof (IH _ Hc) as Hl.
    destruct (NextToken_at pre s) as (b & t' & m & s' & -> & E' & _ & _ & Hm). rewrite E in E'.
    injection E' as -> ->. cbn [at_split l_pos] in Hl. rewrite !length_app in Hl.
    unfold is_type in Ht. rewrite Ht in Hm. destruct m; [done|]. cbn in Hl |- *. lia.
Qed.

Lemma chain_fuel l ts : chain l ts → (length ts < lex_fuel l)%nat.
Proof. intros Hc. pose proof (chain_length _ _ Hc). unfold lex_fuel. destruct ts; destruct Hc as (_ & -> & _); lia. Qed.

Lemma chain_next l t ts : chain l (t :: ts) → ∃ l', NextToken l = Ok (t, l') ∧ chain l' ts.
Proof. intros (_ & _ & l' & E & _ & H). by exists l'. Qed.

Lemma chain_params xs n l acc ts rest :
  chain l (ts ++ rest) → spell ts (names_words xs) → (length ts < n)%nat →
  ∃ l', params src n l acc = Ok (acc ++ xs, l') ∧ chain l' rest.
Proof.
  revert n l acc ts. induction xs as [|x xs IH]; intros n l acc ts Hc Hts Hn; (destruct n as [|n]; [lia|]).
  - cbn [names_words] in Hts. tokens. apply chain_next in Hc as (l' & E & Hc). exists l'. cbn [params].
    rewrite E. cbn [mbind outcome_bind]. kinds. by rewrite app_nil_r.
  - destruct xs as [|y xs].
    + cbn [names_words] in Hts. tokens. apply chain_next in Hc as (l1 & E1 & Hc). apply chain_next in Hc as (l2 & E2 & Hc).
      exists l2. cbn [params]. rewrite E1. cbn [mbind outcome_bind]. kinds. rewrite E2. cbn [mbind outcome_bind]. kinds.
      by rewrite (spells_lit _ _ _ Ht).
    + change (names_words (x :: y :: xs)) with (w_id x :: (COMMA, bs ",") :: names_words (y :: xs)) in Hts. tokens.
      apply chain_next in Hc as (l1 & E1 & Hc). apply chain_next in Hc as (l2 & E2 & Hc).
      cbn [params]. rewrite E1. cbn [mbind outcome_bind]. kinds. rewrite E2. cbn [mbind outcome_bind]. kinds.
      destruct (IH n l2 (acc ++ [lit src t]) r0 Hc Hts) as (l' & -> & Hc'); [cbn in Hn; lia|].
      exists l'. rewrite (spells_lit _ _ _ Ht), <- app_assoc. done.
Qed.

(** The nesting of braces after the words, which never closes the first one. *)
Fixpoint nesting (c : Z) (ws : list word) : option Z :=
  match ws with
  | [] => Some c
  | (ty, _) :: r =>
      if bool_decide (ty = LBRACE) then nesting (c + 1) r
      else if bool_decide (ty = RBRACE) then if c - 1 =? 0 then None else nesting (c - 1) r
      else nesting c r
  end.

Lemma nesting_app c a b : nesting c (a ++ b) = c' ← nesting c a; nesting c' b.
Proof.
  revert c. induction a as [|[ty x] a IH]; intros c; cbn [nesting app]; [done|].
  repeat case_bool_decide; rewrite ?IH; try done. by destruct (_ =? 0).
Qed.

Lemma chain_body ws c c' m l acc ts rest :
  chain l (ts ++ rest) → spell ts ws → nesting c ws = Some c' →
  ∃ l', body_tokens (length ts + m) c l acc = body_tokens m c' l' (acc ++ ts) ∧ chain l' rest.
Proof.
  revert c l acc ts. induction ws as [|[ty x] ws IH]; intros c l acc ts Hc Hts Hn.
  - tokens. injection Hn as <-. exists l. by rewrite app_nil_r.
  - apply spell_cons_inv in Hts as (t & r & -> & Ht & Hts). cbn [app] in Hc. destruct Hc as (_ & _ & l1 & E1 & Heof & Hc).
    cbn [length Nat.add body_tokens]. rewrite E1. cbn [mbind outcome_bind]. rewrite Heof, !(is_type_spells _ _ _ _ Ht).
    cbn [nesting] in Hn.
    assert (∀ c1, nesting c1 ws = Some c' → ∃ l', body_tokens (length r + m) c1 l1 (acc ++ [t]) =
      body_tokens m c' l' (acc ++ t :: r) ∧ chain l' rest) as Hgo.
    { intros c1 H1. destruct (IH c1 l1 (acc ++ [t]) r Hc Hts H1) as (l' & -> & Hl'). exists l'. by rewrite <- app_assoc. }
    destruct (decide (ty = LBRACE)) as [->|H1].
    + rewrite bool_decide_eq_true_2, bool_decide_eq_false_2 in * by done. by apply Hgo.
    + rewrite (bool_decide_eq_false_2 (ty = LBRACE)) in * by done. case_bool_decide.
      * destruct (_ =? 0); [done|]. by apply Hgo.
      * by apply Hgo.
Qed.

Lemma nesting_simples l c : nesting c (concat (map simple_words l)) = Some c.
Proof.
  induction l as [|b l IH]; cbn [map concat]; [done|]. rewrite nesting_app.
  assert (nesting c (simple_words b) = Some c) as -> by by destruct b. exact IH.
Qed.

Lemma nesting_block l c : 1 ≤ c → nesting c (block_words l) = Some c.
Proof.
  intros Hc. unfold block_words.
  change (nesting c ([(LBRACE, bs "{")] ++ concat (map simple_words l) ++ [(RBRACE, bs "}")])) with
    (nesting (c + 1) (concat (map simple_words l) ++ [(RBRACE, bs "}")])).
  rewrite nesting_app, nesting_simples. cbn [mbind option_bind].
  change (nesting (c + 1) [(RBRACE, bs "}")]) with (if c + 1 - 1 =? 0 then None else Some (c + 1 - 1)).
  destruct (Z.eqb_spec (c + 1 - 1) 0); [lia|]. f_equal. lia.
Qed.

Lemma nesting_names l c : nesting c (names_words l) = Some c.
Proof.
  induction l as [|x l IH]; [done|]. destruct l as [|y l]; [done|].
  change (names_words (x :: y :: l)) with ([w_id x; (COMMA, bs ",")] ++ names_words (y :: l)). by rewrite nesting_app.
Qed.

Lemma nesting_body f c : 1 ≤ c → nesting c (body_words f) = Some c.
Proof.
  intros Hc. unfold body_words. rewrite nesting_app.
  assert (nesting c (concat (map stmt_words (fn_body f))) = Some c) as ->.
  { induction (fn_body f) as [|st l IH]; cbn [map concat]; [done|]. rewrite nesting_app.
    destruct st as [| [] | | |x op y body|x body]; cbn [stmt_words simple_words]; try exact IH.
    - rewrite nesting_app. assert (nesting c [(IF, bs "if"); w_id x; op_word op; w_id y] = Some c) as -> by by destruct op.
      cbn [mbind option_bind]. by rewrite nesting_block.
    - rewrite nesting_app. assert (nesting c [(WHILE, bs "while"); w_id x] = Some c) as -> by done.
      cbn [mbind option_bind]. by rewrite nesting_block. }
  cbn [mbind option_bind]. unfold tail_words.
  destruct (fn_ret f) as [| |[]|[]|g ys]; try done.
  change ((RETURN, bs "return") :: w_id g :: (LPAREN, bs "(") :: names_words ys) with
    ([(RETURN, bs "return"); w_id g; (LPAREN, bs "(")] ++ names_words ys).
  rewrite nesting_app. apply nesting_names.
Qed.

(** [d] is the parsed form of [f]. *)
Definition parsed (d : FuncAST) (f : func) : Prop :=
  name d = fn_name f ∧ args d = fn_params f ∧ spell (bodyTokens d) (body_words f).

Lemma chain_func_decl f l t ts rest :
  chain l (t :: ts ++ rest) → spell (t :: ts) (func_words f) →
  ∃ l1 d l', NextToken l = Ok (t, l1) ∧ is_type t EOF = false ∧ is_type t FN = true ∧
    func_decl src l1 = Ok (d, l') ∧ parsed d f ∧ chain l' rest.
Proof.
  intros Hc Hts. unfold func_words in Hts. apply spell_cons_inv in Hts as (t0 & r0 & [= <- <-] & Ht & Hts).
  apply spell_cons_inv in Hts as (t1 & r1 & -> & Ht1 & Hts). apply spell_cons_inv in Hts as (t2 & r2 & -> & Ht2 & Hts).
  apply spell_app_inv in Hts as (tp & r3 & -> & Hp & Hts). cbn [app] in Hts.
  apply spell_cons_inv in Hts as (t3 & r4 & -> & Ht3 & Hts). apply spell_app_inv in Hts as (tb & r5 & -> & Hb & Hts).
  tokens. cbn [app] in Hc. rewrite <- !app_assoc in Hc. cbn [app] in Hc. rewrite <- app_assoc in Hc. cbn [app] in Hc.
  apply chain_next in Hc as (l1 & E & Hc). apply chain_next in Hc as (l2 & E1 & Hc). apply chain_next in Hc as (l3 & E2 & Hc).
  pose proof (chain_fuel _ _ Hc) as Hf1.
  destruct (chain_params (fn_params f) (lex_fuel l3) l3 [] tp _ Hc Hp) as (l4 & E4 & Hc4); [rewrite length_app in Hf1; lia|].
  apply chain_next in Hc4 as (l5 & E5 & Hc5). pose proof (chain_fuel _ _ Hc5) as Hf2.
  assert (lex_fuel l5 = length tb + S (lex_fuel l5 - S (length tb)))%nat as Hfuel by (rewrite length_app in Hf2; lia).
  destruct (chain_body (body_words f) 1 1 (S (lex_fuel l5 - S (length tb))) l5 [] tb _ Hc5 Hb (nesting_body f 1 ltac:(lia)))
    as (l6 & E6 & Hc6). apply chain_next in Hc6 as (l7 & E7 & Hc7).
  exists l1, (mk_func (fn_name f) (fn_params f) tb), l7. split; [done|]. kinds. do 2 (split; [done|]). split; [|split; [done|exact Hc7]].
  unfold func_decl. rewrite E1. cbn [mbind outcome_bind]. kinds. rewrite E2. cbn [mbind outcome_bind]. kinds.
  rewrite E4. cbn [mbind outcome_bind app]. rewrite E5. cbn [mbind outcome_bind]. kinds.
  rewrite Hfuel, E6. cbn [app body_tokens]. rewrite E7. cbn [mbind outcome_bind]. kinds.
  by rewrite (spells_lit _ _ _ Ht1).
Qed.

Lemma chain_declarations P n l acc ts :
  chain l ts → spell ts (program_words P) → (length ts < n)%nat →
  ∃ ds, declarations src n l acc = Ok (acc ++ ds) ∧ Forall2 parsed ds P.
Proof.
  revert n l acc ts. induction P as [|f P IH]; intros n l acc ts Hc Hts Hn; (destruct n as [|n]; [lia|]); cbn [declarations].
  - apply spell_nil_inv in Hts as ->. destruct Hc as (_ & _ & t & l' & E & Ht). rewrite E. cbn [mbind outcome_bind]. rewrite Ht.
    exists []. by rewrite app_nil_r.
  - unfold program_words in Hts. cbn [map concat] in Hts. apply spell_app_inv in Hts as (t1 & t2 & -> & H1 & H2).
    destruct t1 as [|t t1]; [by apply Forall2_length in H1|]. cbn [app length] in *.
    destruct (chain_func_decl f l t t1 t2 Hc H1) as (l1 & d & l' & E & Ht & Hfn & Ed & Hd & Hc').
    rewrite E. cbn [mbind outcome_bind]. rewrite Ht, Hfn, Ed. cbn [mbind outcome_bind].
    destruct (IH n l' (acc ++ [d]) t2 Hc' H2) as (ds & -> & Hds); [rewrite length_app in Hn; lia|].
    exists (d :: ds). rewrite <- app_assoc. split; [done|]. by constructor.
Qed.

(** ** Placing and linking *)
Fixpoint placed (base : Z) (P : list func) (tbl : gmap bytes FunctionProto) : gmap bytes FunctionProto :=
  match P with
  | [] => tbl
  | f :: r => placed (base + Zlen (g_func 0 f)) r (<[fn_name f := mk_proto (fn_name f) base (fn_params f)]> tbl)
  end.

Fixpoint call_relocs (base : Z) (P : list func) : list Relocation :=
  match P with
  | [] => []
  | f :: r =>
      match g_call_at f with Some (c, g) => [mk_rel (c + base) g] | None => [] end ++
      call_relocs (base + Zlen (g_func 0 f)) r
  end.

Lemma offsets_notin base P g : g ∉ map fn_name P → assoc g (offsets base P) = None.
Proof.
  revert base. induction P as [|f P IH]; intros base Hn; cbn [offsets assoc map] in *; [done|].
  apply not_elem_of_cons in Hn as [Hn1 Hn]. rewrite bool_decide_eq_false_2 by done. by apply IH.
Qed.

Lemma placed_notin base P tbl g : g ∉ map fn_name P → placed base P tbl !! g = tbl !! g.
Proof.
  revert base tbl. induction P as [|f P IH]; intros base tbl Hn; cbn [placed map] in *; [done|].
  apply not_elem_of_cons in Hn as [Hn1 Hn]. rewrite IH by done. by rewrite lookup_insert_ne.
Qed.

Lemma placed_in base P tbl g o :
  NoDup (map fn_name P) → assoc g (offsets base P) = Some o →
  ∃ xs, placed base P tbl !! g = Some (mk_proto g o xs).
Proof.
  revert base tbl. induction P as [|f P IH]; intros base tbl Hnd Ho; cbn [placed offsets assoc map] in *; [done|].
  apply NoDup_cons in Hnd as [Hn Hnd]. case_bool_decide as Hg.
  - subst g. injection Ho as <-. rewrite placed_notin, lookup_insert_eq by done. by eexists.
  - by apply IH.
Qed.

Lemma compile_all_eq G P ds tbl out relocs :
  forallb (func_ok G) P = true → (∀ g, g ∈ G → name_ok g = true) → Forall2 parsed ds P →
  compile_all src ds tbl out relocs =
  Ok (placed (Zlen out) P tbl, out ++ concat (map (g_func 0) P), relocs ++ call_relocs (Zlen out) P).
Proof.
  intros Hok HG Hds. revert tbl out relocs. induction Hds as [|d f ds P Hd Hds IH]; intros tbl out relocs;
    cbn [compile_all placed map concat call_relocs]; [by rewrite !app_nil_r|].
  cbn [forallb] in Hok. apply andb_prop in Hok as [Hf Hok]. destruct Hd as (Hname & Hargs & Hsp).
  destruct d as [nm ar tk]. cbn [name args bodyTokens] in *. subst nm ar.
  rewrite (compile_func G f tk _ Hf HG Hsp), (peephole_func G f Hf). cbn [mbind outcome_bind]. rewrite IH by done.
  rewrite length_app, Nat2Z.inj_add, <- !app_assoc. do 3 f_equal. f_equal.
  unfold func_relocs, g_call_at. destruct (g_front f) as [b s]. by destruct (fn_ret f).
Qed.

(** Linking turns the functions into those of the program. *)
Lemma link_all P base l tbl front back :
  Zlen front = base →
  (∀ f c g, f ∈ l → g_call_at f = Some (c, g) → ∃ p, tbl !! g = Some p ∧ fp_Offset p = offset_in P g) →
  link_calls (call_relocs base l) tbl (front ++ concat (map (g_func 0) l) ++ back) =
  Ok (front ++ g_code P base l ++ back).
Proof.
  revert base front. induction l as [|f l IH]; intros base front Hb Hg; cbn [call_relocs map concat g_code]; [done|].
  assert (Hrest : link_calls (call_relocs (base + Zlen (g_func 0 f)) l) tbl
      (front ++ g_func (call_disp P base f) f ++ concat (map (g_func 0) l) ++ back) =
      Ok (front ++ g_func (call_disp P base f) f ++ g_code P (base + Zlen (g_func 0 f)) l ++ back)).
  { specialize (IH (base + Zlen (g_func 0 f)) (front ++ g_func (call_disp P base f) f)).
    rewrite <- !app_assoc in IH. apply IH; [rewrite length_app, (g_func_length (call_disp P base f)); lia|].
    intros f' c g Hf'. apply Hg. by right. }
  rewrite <- !app_assoc. unfold call_disp in *. destruct (g_call_at f) as [[c g]|] eqn:Ec; cbn [app].
  2: exact Hrest.
  cbn [link_calls TargetFuncName CallInstructionOffset]. destruct (Hg f c g ltac:(by left) Ec) as (p & -> & ->).
  destruct (g_func_call f c g Ec) as (a & Ha & Hf). rewrite (Z.add_comm c base).
  rewrite (Hf (offset_in P g - (base + c + 5))) in *. rewrite (Hf 0).
  set (d := le_bytes 4 (i32 (offset_in P g - (base + c + 5)))) in *.
  assert (patch (front ++ (a ++ [0xE8] ++ le_bytes 4 (i32 0) ++ [0xC9; 0xC3]) ++ concat (map (g_func 0) l) ++ back)
            (Z.to_nat (base + c) + 1) d =
          Ok (front ++ (a ++ [0xE8] ++ d ++ [0xC9; 0xC3]) ++ concat (map (g_func 0) l) ++ back)) as ->.
  { replace (Z.to_nat (base + c) + 1)%nat with (length (front ++ a ++ [0xE8])) by (rewrite !length_app; cbn [length]; lia).
    rewrite <- !app_assoc, (app_assoc a), (app_assoc front). unfold d.
    rewrite patch_mid by (by rewrite !length_le_bytes). by rewrite <- !app_assoc. }
  cbn [mbind outcome_bind]. rewrite (Hf 0) in Hrest. exact Hrest.
Qed.

(** A call in a well-formed program names one of its functions. *)
Lemma call_target G f c g : func_ok G f = true → g_call_at f = Some (c, g) → g ∈ G.
Proof.
  intros Hok Hc. destruct (func_ok_parts _ _ Hok) as (D & _ & Ht & _). unfold g_call_at in Hc.
  destruct (g_front f) as [b s]. destruct (fn_ret f) as [| | | |h ys]; try done. injection Hc as _ <-.
  cbn [tail_ok] in Ht. rewrite !andb_true_iff, bool_decide_eq_true in Ht. by destruct Ht as [[Ht _] _].
Qed.

Lemma offsets_in base P g : g ∈ map fn_name P → ∃ o, assoc g (offsets base P) = Some o.
Proof.
  revert base. induction P as [|f P IH]; intros base Hg; cbn [offsets assoc map] in *; [by apply not_elem_of_nil in Hg|].
  case_bool_decide as E; [by eexists|]. apply elem_of_cons in Hg as [->|Hg]; [done|]. by apply IH.
Qed.

Lemma program_ok_parts P :
  program_ok P = true →
  forallb (func_ok (map fn_name P)) P = true ∧ NoDup (map fn_name P) ∧ bs "main" ∈ map fn_name P ∧
  (∀ g, g ∈ map fn_name P → name_ok g = true).
Proof.
  unfold program_ok. rewrite !andb_true_iff, !bool_decide_eq_true. intros [[[Hok Hnd] Hm] _].
  do 3 (split; [done|]). intros g (f & -> & Hf)%list_elem_of_fmap.
  apply forallb_Forall', Forall_forall with (x := f) in Hok; [|done]. by destruct (func_ok_parts _ _ Hok) as (D & H); apply H.
Qed.

(** Emit on the tokens of a well-formed program. *)
Lemma emit_program P n :
  program_ok P = true → tokenize n (NewLexer src) = Ok (program_words P) → Emit src = Ok (g_program P).
Proof.
  intros Hok Htok. destruct (program_ok_parts _ Hok) as (Hf & Hnd & Hmain & Hnames).
  rewrite NewLexer_at in Htok. destruct (chain_tokenize n [] src _ eq_refl Htok) as (ts & Hc & Hts).
  rewrite <- NewLexer_at in Hc.
  destruct (chain_declarations P (lex_fuel (NewLexer src)) _ [] ts Hc Hts (chain_fuel _ _ Hc)) as (ds & Ed & Hds).
  unfold Emit. rewrite Ed. cbn [mbind outcome_bind app].
  rewrite (compile_all_eq _ P ds _ _ _ Hf Hnames Hds). cbn [mbind outcome_bind app].
  assert (Hplaced : ∀ g, g ∈ map fn_name P → ∃ p, placed 5 P ∅ !! g = Some p ∧ fp_Offset p = offset_in P g).
  { intros g Hg. destruct (offsets_in 5 P g Hg) as [o Ho]. destruct (placed_in 5 P ∅ g o Hnd Ho) as [xs Hx].
    eexists. split; [exact Hx|]. unfold offset_in. by rewrite Ho. }
  change (Zlen [233; 0; 0; 0; 0]) with 5. destruct (Hplaced _ Hmain) as (p & -> & ->).
  set (d := le_bytes 4 (i32 (offset_in P (bs "main") - 5))).
  change (233 :: 0 :: 0 :: 0 :: 0 :: concat (map (g_func 0) P)) with
    ([233] ++ [0; 0; 0; 0] ++ concat (map (g_func 0) P)).
  change 1%nat with (length [233]). rewrite patch_mid by (unfold d; by rewrite length_le_bytes).
  cbn [mbind outcome_bind].
  pose proof (link_all P 5 P (placed 5 P ∅) ([233] ++ d) []) as Hl. rewrite !app_nil_r, <- !app_assoc in Hl.
  rewrite Hl; [done|unfold d; by rewrite length_app, length_le_bytes|].
  intros f c g Hin Hcall. apply Hplaced. apply forallb_Forall', Forall_forall with (x := f) in Hf; [|done].
  by eapply call_target.
Qed.
End compile.
