(* ===== verification/GloriaCorrect.v ===== *)
(** * Compiled Gloria programs compute what they mean

    A small Hoare logic for the code chunks of GloriaLang over the machine of
    GloriaMach, the simulation of statements, loops and calls, and the theorem
    about whole programs, from source text to the returned value. *)
From S2P Require Import Prelude GloriaLex GloriaCode GloriaEmit GloriaMach GloriaLang GloriaPeephole GloriaCompile.

(** ** Decoding what was emitted *)
Lemma dword_le v : ∃ a b c d, le_bytes 4 v = [a; b; c; d] ∧ dword a b c d = i32 v.
Proof.
  eexists _, _, _, _. split; [reflexivity|]. unfold dword.
  change [wrap 8 v; _; _; _] with (le_bytes 4 v). rewrite le_val_le_bytes. by apply swrap_wrap.
Qed.

Lemma i32_idem v : i32 (i32 v) = i32 v.
Proof. pose proof (swrap_range 32 v ltac:(lia)). by rewrite (swrap_small 32 (i32 v)). Qed.

Lemma decode_imm r v tl : low_reg r → decode (c_imm r v ++ tl) = Some (MovRI r (u64 v), length (c_imm r v)).
Proof.
  intros Hr. change (u64 v) with (wrap (8 * Z.of_nat 8) v). rewrite <- (le_val_le_bytes 8 v).
  by destruct Hr as [->|[->|[->|[->| ->]]]].
Qed.

Lemma decode_load r o tl : low_reg r → decode (c_load r o ++ tl) = Some (Load r (i32 o), length (c_load r o)).
Proof.
  intros Hr. unfold c_load. destruct (dword_le (i32 o)) as (a & b & c & d & -> & E). rewrite <- i32_idem, <- E.
  by destruct Hr as [->|[->|[->|[->| ->]]]].
Qed.

Lemma decode_store r o tl : low_reg r → decode (c_store r o ++ tl) = Some (Store r (i32 o), length (c_store r o)).
Proof.
  intros Hr. unfold c_store. destruct (dword_le (i32 o)) as (a & b & c & d & -> & E). rewrite <- i32_idem, <- E.
  by destruct Hr as [->|[->|[->|[->| ->]]]].
Qed.

Lemma decode_opi (p : bool) v tl :
  decode (c_opi p v ++ tl) = Some (AluI (if p then 0 else 5) 0 (i32 v), length (c_opi p v)).
Proof.
  unfold c_opi. destruct (dword_le v) as (a & b & c & d & -> & <-). by destruct p.
Qed.

Lemma decode_op (p : bool) tl : decode (c_op p ++ tl) = Some (Alu (if p then 0 else 5) 0 1, 3%nat).
Proof. destruct p; by destruct tl as [|? [|? [|? [|]]]]. Qed.

Lemma decode_cmp tl : decode (c_cmp ++ tl) = Some (Alu 7 0 1, 3%nat).
Proof. by destruct tl as [|? [|? [|? [|]]]]. Qed.

(** ** Triples for chunks of code

    The instruction pointer runs from one end of the chunk to the other; the
    assertions are about the registers, the memory and the flags. *)
Abbreviation assertion := ((Z → Z) → (Z → Z) → option (Z * Z) → Prop).

Definition holds (P : assertion) (m : mach) : Prop := P (regs m) (mem m) (flags m).

Section triples.
Variable code : bytes.

Definition runs (b : bytes) (P Q : assertion) : Prop :=
  ∀ m, at_code code b (rip m) → holds P m →
  ∃ m', leads code m m' ∧ rip m' = rip m + Zlen b ∧ holds Q m'.

Lemma runs_nil P : runs [] P P.
Proof. intros m Hc Hp. exists m. split; [apply leads_refl|]. split; [cbn; lia|done]. Qed.

Lemma runs_app a b P Q R : runs a P Q → runs b Q R → runs (a ++ b) P R.
Proof.
  intros Ha Hb m [Hca Hcb]%at_code_app Hp. destruct (Ha m Hca Hp) as (m1 & H1 & E1 & Hq).
  rewrite <- E1 in Hcb. destruct (Hb m1 Hcb Hq) as (m2 & H2 & E2 & Hr). exists m2.
  split; [by eapply leads_trans|]. split; [rewrite length_app; lia|done].
Qed.

Lemma runs_pre b (P P' Q : assertion) : runs b P Q → (∀ g M f, P' g M f → P g M f) → runs b P' Q.
Proof. intros Hb Hp m Hc Hm. apply Hb; [done|]. by apply Hp. Qed.

Lemma runs_post b (P Q Q' : assertion) : runs b P Q → (∀ g M f, Q g M f → Q' g M f) → runs b P Q'.
Proof.
  intros Hb Hq m Hc Hm. destruct (Hb m Hc Hm) as (m' & H1 & H2 & H3). exists m'. do 2 (split; [done|]). by apply Hq.
Qed.

(** One instruction that falls through. *)
Lemma runs_ins b i (P Q : assertion) :
  (∀ tl, decode (b ++ tl) = Some (i, length b)) →
  (∀ m, holds P m → ∃ m', exec i m = Some m' ∧ rip m' = rip m ∧ holds Q m') → runs b P Q.
Proof.
  intros Hd He m Hc Hp. destruct (He (set_rip (rip m + Zlen b) m) Hp) as (m' & E & Hr & Hq).
  exists m'. split; [|split; [exact Hr|done]]. eapply leads_ins; [exact Hc|done|exact E|apply leads_refl].
Qed.

Lemma runs_imm r v (Q : assertion) :
  low_reg r → runs (c_imm r v) (λ g M f, Q (upd g r (u64 v)) M f) Q.
Proof. intros Hr. eapply runs_ins; [intros; by apply decode_imm|]. intros m Hm. by eexists. Qed.

Lemma runs_load r o (Q : assertion) :
  low_reg r →
  runs (c_load r o) (λ g M f, let a := u64 (g rbp + i32 o) in aligned a = true ∧ Q (upd g r (M a)) M f) Q.
Proof.
  intros Hr. eapply runs_ins; [intros; by apply decode_load|]. intros m [Ha Hm].
  eexists. cbn [exec]. unfold load. rewrite Ha. split; [reflexivity|]. by split; [|exact Hm].
Qed.

Lemma runs_store r o (Q : assertion) :
  low_reg r →
  runs (c_store r o) (λ g M f, let a := u64 (g rbp + i32 o) in aligned a = true ∧ Q g (upd M a (g r)) f) Q.
Proof.
  intros Hr. eapply runs_ins; [intros; by apply decode_store|]. intros m [Ha Hm].
  eexists. cbn [exec]. unfold store. rewrite Ha. split; [reflexivity|]. by split; [|exact Hm].
Qed.

Lemma runs_op (p : bool) (Q : assertion) :
  runs (c_op p) (λ g M f, Q (upd g 0 (u64 (if p then g 0 + g 1 else g 0 - g 1))) M None) Q.
Proof.
  apply (runs_ins _ (Alu (if p then 0 else 5) 0 1)); [intros; rewrite decode_op; by destruct p|]. intros m Hm.
  destruct p; (eexists; split; [reflexivity|]; by split; [|exact Hm]).
Qed.

Lemma runs_opi (p : bool) v (Q : assertion) :
  runs (c_opi p v) (λ g M f, Q (upd g 0 (u64 (if p then g 0 + u64 (i32 v) else g 0 - u64 (i32 v)))) M None) Q.
Proof.
  eapply runs_ins; [intros; by apply decode_opi|]. intros m Hm.
  destruct p; (eexists; split; [reflexivity|]; by split; [|exact Hm]).
Qed.

Lemma runs_cmp (Q : assertion) : runs c_cmp (λ g M f, Q g M (Some (i64 (g 0), i64 (g 1)))) Q.
Proof. eapply runs_ins; [intros; by apply decode_cmp|]. intros m Hm. by eexists. Qed.
End triples.

Lemma num_range limit k : num_ok limit k = true → 0 ≤ num k < limit.
Proof.
  unfold num_ok. rewrite !andb_true_iff, Z.ltb_lt. intros [[Hs Hlt] _]. split; [|done].
  apply int_digits in Hs as [_ Hd]. by apply digits_grow.
Qed.

Lemma arg_reg_inj i j : (i < 4)%nat → (j < 4)%nat → arg_reg_of i = arg_reg_of j → i = j.
Proof.
  intros Hi Hj. do 4 (destruct i as [|i]; [do 4 (destruct j as [|j]; [done|]); lia|]). lia.
Qed.

(** ** The frame of a function

    [fp]: the frame pointer; [M0]: the memory at and above it, which the
    function leaves alone; [N]: a bound on its variables. *)
Section frame.
Context (code : bytes) (fp : Z) (M0 : Z → Z) (N : Z).
Context (Hfp : fp < 2 ^ 64) (Halign : fp mod 8 = 0) (HN : 8 * N ≤ fp) (HN' : N ≤ 3000).

Definition agree (s : compilerState) (D : list bytes) (e : env) (M : Z → Z) : Prop :=
  ∀ x v, e !! x = Some v → x ∈ D ∧ is_word 64 v ∧ M (fp + off s x) = v.

Definition inv (s : compilerState) (D : list bytes) (e : env) : assertion := λ g M _,
  g rbp = fp ∧ g rsp = fp - 128 ∧ (∀ a, fp ≤ a → M a = M0 a) ∧ agree s D e M.

(** The invariant, with a value in rax, or in rax and rcx. *)
Definition inv_rax s D e v : assertion := λ g M f, inv s D e g M f ∧ g rax = v.
Definition inv_both s D e v w : assertion := λ g M f, inv s D e g M f ∧ g rax = v ∧ g 1 = w.

Lemma low_reg_frame r : low_reg r → r ≠ rbp ∧ r ≠ rsp.
Proof. by intros [->|[->|[->|[->| ->]]]]. Qed.

Lemma inv_reg s D e r v g M f f' : low_reg r → inv s D e g M f → inv s D e (upd g r v) M f'.
Proof.
  intros Hr (H1 & H2 & H3 & H4). destruct (low_reg_frame r Hr) as [Hb Hs]. unfold inv, upd.
  destruct (Z.eqb_spec rbp r); [congruence|]. destruct (Z.eqb_spec rsp r); [congruence|]. done.
Qed.

Section scope.
Context (s : compilerState) (D : list bytes) (Hl : layout s D) (HD : Zlen D ≤ N).

Lemma slot x : x ∈ D → u64 (fp + i32 (off s x)) = fp + off s x ∧ aligned (fp + off s x) = true ∧ off s x < 0.
Proof.
  intros Hx. destruct (layout_off s D x Hl Hx) as (i & _ & -> & Hi).
  rewrite swrap_small by lia. unfold aligned. split; [apply wrap_small; unfold is_word; lia|]. split; [|lia].
  apply Z.eqb_eq. replace (fp + -8 * (Z.of_nat i + 1)) with (fp + (- (Z.of_nat i + 1)) * 8) by lia. by rewrite Z.mod_add.
Qed.

Lemma slot_inj x y : x ∈ D → y ∈ D → off s x = off s y → x = y.
Proof.
  intros Hx Hy E. destruct (layout_off s D x Hl Hx) as (i & Hi & Ei & _), (layout_off s D y Hl Hy) as (j & Hj & Ej & _).
  assert (i = j) as -> by lia. congruence.
Qed.

Lemma inv_store e x v g M f :
  x ∈ D → is_word 64 v → inv s D e g M f → inv s D (<[x := v]> e) g (upd M (fp + off s x) v) f.
Proof.
  intros Hx Hv (H1 & H2 & H3 & H4). destruct (slot x Hx) as (_ & _ & Hneg). do 2 (split; [done|]). split.
  - intros a Ha. unfold upd. destruct (Z.eqb_spec a (fp + off s x)); [lia|]. by apply H3.
  - intros y w Hy. unfold upd. destruct (decide (x = y)) as [->|Hn].
    + rewrite lookup_insert_eq in Hy. injection Hy as <-. by rewrite Z.eqb_refl.
    + rewrite lookup_insert_ne in Hy by done. destruct (H4 y w Hy) as (Hd & Hw & HM). do 2 (split; [done|]).
      destruct (Z.eqb_spec (fp + off s y) (fp + off s x)) as [E|]; [|done]. exfalso. apply Hn, slot_inj; [done..|lia].
Qed.

Lemma run_load0 e x v : e !! x = Some v → runs code (c_load 0 (off s x)) (inv s D e) (inv_rax s D e v).
Proof.
  intros Hx. eapply runs_pre; [by apply runs_load; left|]. intros g M f Hi. pose proof Hi as (H1 & _ & _ & H4).
  destruct (H4 x v Hx) as (Hd & Hw & HM). cbn zeta.
  rewrite H1. destruct (slot x Hd) as (-> & Ha & _). split; [done|]. split; [eapply inv_reg; [by left|exact Hi]|].
  by unfold upd.
Qed.

Lemma run_load1 e x v w : e !! x = Some w → runs code (c_load 1 (off s x)) (inv_rax s D e v) (inv_both s D e v w).
Proof.
  intros Hx. eapply runs_pre; [by apply runs_load; right; left|]. intros g M f [Hi Hv]. pose proof Hi as (H1 & _ & _ & H4).
  destruct (H4 x w Hx) as (Hd & Hw & HM). cbn zeta.
  rewrite H1. destruct (slot x Hd) as (-> & Ha & _). split; [done|]. split; [eapply inv_reg; [by right; left|exact Hi]|].
  by unfold upd.
Qed.

Lemma run_store e x v :
  x ∈ D → is_word 64 v → runs code (c_store 0 (off s x)) (inv_rax s D e v) (inv s D (<[x := v]> e)).
Proof.
  intros Hx Hv. eapply runs_pre; [by apply runs_store; left|]. intros g M f [Hi Ha]. pose proof Hi as (H1 & _ & _ & H4).
  cbn zeta. rewrite H1. destruct (slot x Hx) as (-> & Hal & _). split; [done|]. unfold rax in Ha. rewrite Ha.
  by apply inv_store.
Qed.

Lemma run_imm e k : num_ok (2 ^ 64) k = true → runs code (c_imm 0 (num k)) (inv s D e) (inv_rax s D e (num k)).
Proof.
  intros Hk. eapply runs_pre; [by apply runs_imm; left|]. intros g M f Hi. split; [eapply inv_reg; [by left|exact Hi]|].
  unfold upd. cbn. apply wrap_small. by eapply num_range.
Qed.

Lemma run_op e p v w :
  runs code (c_op p) (inv_both s D e v w) (inv_rax s D e (u64 (if p : bool then v + w else v - w))).
Proof.
  eapply runs_pre; [apply runs_op|]. intros g M f (Hi & Hv & Hw). unfold rax in Hv. rewrite Hv, Hw.
  split; [eapply inv_reg; [by left|exact Hi]|]. by unfold upd.
Qed.

Lemma run_opi e (p : bool) v k : num_ok (2 ^ 31) k = true →
  runs code (c_opi p (num k)) (inv_rax s D e v) (inv_rax s D e (u64 (if p then v + num k else v - num k))).
Proof.
  intros Hk. pose proof (num_range _ _ Hk) as Hn. eapply runs_pre; [apply runs_opi|]. intros g M f (Hi & Hv).
  unfold rax in Hv. rewrite Hv. rewrite swrap_small by (unfold is_word in Hn; lia).
  rewrite (wrap_small 64 (num k)) by (unfold is_word in *; lia).
  split; [eapply inv_reg; [by left|exact Hi]|]. by unfold upd.
Qed.

Lemma run_cmp e v w :
  runs code c_cmp (inv_both s D e v w) (λ g M f, inv s D e g M f ∧ f = Some (i64 v, i64 w)).
Proof.
  eapply runs_pre; [apply runs_cmp|]. intros g M f (Hi & Hv & Hw). unfold rax in Hv. by rewrite Hv, Hw.
Qed.

(** ** Statements *)
Lemma run_simple e e' b :
  exec_simple e b = Some e' → simple_ok D b = true → runs code (g_simple s b) (inv s D e) (inv s D e').
Proof.
  intros He Hb.
  assert (Hup : ∀ x h, update e x h = Some e' → ∃ v, e !! x = Some v ∧ e' = <[x := u64 (h v)]> e).
  { intros x h. unfold update. destruct (e !! x) as [v|]; [|done]. intros [= <-]. by exists v. }
  destruct b as [x k|x k|x k]; cbn [exec_simple simple_ok g_simple] in *; apply andb_prop in Hb as [Hx Hk];
    apply var_ok_in in Hx; apply Hup in He as (v & Hv & ->).
  - eapply runs_app; [by apply run_imm|]. pose proof (num_range _ _ Hk).
    rewrite wrap_small by done. by apply run_store.
  - eapply runs_app; [by apply run_load0|]. eapply runs_app; [by apply (run_opi e true)|].
    apply run_store; [done|by apply wrap_range].
  - eapply runs_app; [by apply run_load0|]. eapply runs_app; [by apply (run_opi e false)|].
    apply run_store; [done|by apply wrap_range].
Qed.

Lemma run_block e e' l :
  exec_block e l = Some e' → forallb (simple_ok D) l = true → runs code (g_block s l) (inv s D e) (inv s D e').
Proof.
  revert e. induction l as [|b l IH]; intros e He Hl0; unfold g_block in *; cbn [exec_block map concat forallb] in *.
  - injection He as <-. apply runs_nil.
  - apply andb_prop in Hl0 as [Hb Hl0]. destruct (exec_simple e b) as [e1|] eqn:E; [|done].
    eapply runs_app; [by apply run_simple|]. by apply IH.
Qed.

Lemma run_addv (p : bool) e x y v w :
  x ∈ D → e !! x = Some v → e !! y = Some w →
  runs code (c_load 0 (off s x) ++ c_load 1 (off s y) ++ c_op p ++ c_store 0 (off s x))
    (inv s D e) (inv s D (<[x := u64 (if p then v + w else v - w)]> e)).
Proof.
  intros Hd Hx Hy. eapply runs_app; [by apply run_load0|]. eapply runs_app; [by apply run_load1|].
  eapply runs_app; [apply run_op|]. apply run_store; [done|by apply wrap_range].
Qed.

(** The comparison of two variables. *)
Lemma run_compare e x y v w :
  e !! x = Some v → e !! y = Some w →
  runs code (c_load 0 (off s x) ++ c_load 1 (off s y) ++ c_cmp)
    (inv s D e) (λ g M f, inv s D e g M f ∧ f = Some (i64 v, i64 w)).
Proof.
  intros Hx Hy. eapply runs_app; [by apply run_load0|]. eapply runs_app; [by apply run_load1|]. apply run_cmp.
Qed.

(** The test of a loop. *)
Lemma run_test e x v :
  e !! x = Some v →
  runs code (c_load 0 (off s x) ++ c_imm 1 0 ++ c_cmp)
    (inv s D e) (λ g M f, inv s D e g M f ∧ f = Some (i64 v, i64 0)).
Proof.
  intros Hx. eapply runs_app; [by apply run_load0|]. eapply runs_app; [|apply run_cmp].
  eapply runs_pre; [by apply runs_imm; right; left|]. intros g M f [Hi Hv].
  split; [eapply inv_reg; [by right; left|exact Hi]|]. by unfold upd.
Qed.

(** A conditional jump over a chunk. *)
Lemma leads_jcc b cc d (t : bool) c m :
  at_code code b (rip m) → (∀ tl, decode (b ++ tl) = Some (Jcc cc d, length b)) →
  flags m = Some c → cond cc c = Some t →
  leads code m (set_rip (rip m + Zlen b + (if t then d else 0)) m).
Proof.
  intros Hc Hd Hf Ht. eapply leads_ins; [done|done| |apply leads_refl]. cbn [exec flags set_rip].
  rewrite Hf. cbn [mbind option_bind]. rewrite Ht. cbn [mbind option_bind]. destruct t; [done|].
  by rewrite Z.add_0_r.
Qed.

Lemma run_if e e' op x y v w body :
  op ∈ [LT; GT; EQ] → e !! x = Some v → e !! y = Some w → Zlen (g_block s body) ≤ 127 →
  (if compare op v w then exec_block e body else Some e) = Some e' → forallb (simple_ok D) body = true →
  runs code (g_stmt s (SIf x op y body)).1 (inv s D e) (inv s D e').
Proof.
  intros Hop Hx Hy Hlen He Hb m Hc Hm. cbn [g_stmt fst] in *. set (b := g_block s body) in *.
  apply at_code_app in Hc as [Hc1 Hc2]. apply at_code_app in Hc2 as [Hc2 Hc3].
  destruct (run_compare e x y v w Hx Hy m Hc1 Hm) as (m1 & L1 & E1 & [Hi1 Hf1]). rewrite <- E1 in Hc2, Hc3.
  assert (Hcond : ∃ cc, (∀ tl, decode ([jump_unless op; u8 (Zlen b)] ++ tl) = Some (Jcc cc (Zlen b), 2%nat)) ∧
            cond cc (i64 v, i64 w) = Some (negb (compare op v w))).
  { assert (Hd : swrap 8 (u8 (Zlen b)) = Zlen b).
    { rewrite swrap_wrap by lia. apply swrap_small; lia. }
    assert (op = LT ∨ op = GT ∨ op = EQ) as [->|[->| ->]] by set_solver.
    - exists 13. split; [intros; rewrite <- Hd at 2; done|]. cbn. by rewrite Z.leb_antisym.
    - exists 14. split; [intros; rewrite <- Hd at 2; done|]. cbn. by rewrite Z.leb_antisym.
    - exists 5. split; [intros; rewrite <- Hd at 2; done|]. done. }
  destruct Hcond as (cc & Hdec & Hcc).
  pose proof (leads_jcc _ cc (Zlen b) _ _ m1 Hc2 Hdec Hf1 Hcc) as L2.
  set (m2 := set_rip _ m1) in L2. assert (Hi2 : holds (inv s D e) m2) by exact Hi1.
  assert (L12 : leads code m m2) by (by eapply leads_trans).
  rewrite !length_app. destruct (compare op v w) eqn:Ec; cbn [negb] in *.
  - destruct (run_block e e' body He Hb m2) as (m3 & L3 & E3 & Hi3); [|done|].
    { unfold m2. cbn [rip set_rip]. rewrite Z.add_0_r. exact Hc3. }
    exists m3. split; [by eapply leads_trans|]. split; [|done]. rewrite E3. unfold m2. cbn [rip set_rip length].
    fold b. rewrite E1, !length_app. cbn [length]. lia.
  - injection He as <-. exists m2. split; [done|]. split; [|done]. unfold m2. cbn [rip set_rip length].
    rewrite E1, !length_app. cbn [length]. lia.
Qed.

Lemma i64_zero v : is_word 64 v → (i64 v =? i64 0) = (v =? 0).
Proof.
  intros Hv. unfold is_word in Hv. unfold swrap. change (2 ^ (64 - 1)) with (2 ^ 63) in *.
  destruct (Z.eqb_spec v 0) as [->|Hn]; [done|]. apply Z.eqb_neq.
  destruct (decide (v < 2 ^ 63)); [rewrite !Z.mod_small by lia; lia|].
  rewrite <- (Z.mod_unique (v + 2 ^ 63) (2 ^ 64) 1 (v - 2 ^ 63)) by lia. rewrite Z.mod_small by lia. lia.
Qed.

Lemma decode_jz d tl : decode (([0x0F; 0x84] ++ le_bytes 4 (i32 d)) ++ tl) = Some (Jcc 4 (i32 d), 6%nat).
Proof. rewrite <- app_assoc. destruct (dword_le (i32 d)) as (a & b & c & d' & -> & E). by rewrite <- (i32_idem d), <- E. Qed.

Lemma decode_jmp d tl : decode (([0xE9] ++ le_bytes 4 (i32 d)) ++ tl) = Some (Jmp (i32 d), 5%nat).
Proof. rewrite <- app_assoc. destruct (dword_le (i32 d)) as (a & b & c & d' & -> & E). by rewrite <- (i32_idem d), <- E. Qed.

Lemma run_while n x body e e' :
  exec_while n x body e = Some e' → forallb (simple_ok D) body = true → Zlen (g_block s body) ≤ 20000 →
  runs code (g_while (off s x) (g_block s body)) (inv s D e) (inv s D e').
Proof.
  intros He Hb Hlen m Hc. set (b := g_block s body) in *.
  assert (Hsplit : g_while (off s x) b =
    (c_load 0 (off s x) ++ c_imm 1 0 ++ c_cmp) ++ ([0x0F; 0x84] ++ le_bytes 4 (i32 (Zlen b + 5))) ++ b ++
    ([0xE9] ++ le_bytes 4 (i32 (- (Zlen b + 31))))) by (unfold g_while; by rewrite <- !app_assoc).
  rewrite Hsplit in *. clear Hsplit. set (test := c_load 0 (off s x) ++ c_imm 1 0 ++ c_cmp) in *.
  assert (Ht : Zlen test = 20) by (unfold test, c_load, c_imm; by rewrite !length_app, !length_le_bytes).
  set (jz := [0x0F; 0x84] ++ le_bytes 4 (i32 (Zlen b + 5))) in *. assert (Hjz : Zlen jz = 6) by (unfold jz; by rewrite length_app, length_le_bytes).
  set (jmp := [0xE9] ++ le_bytes 4 (i32 (- (Zlen b + 31)))) in *. assert (Hjmp : Zlen jmp = 5) by (unfold jmp; by rewrite length_app, length_le_bytes).
  pose proof Hc as [Hc1 Hc2]%at_code_app. apply at_code_app in Hc2 as [Hc2 Hc3]. apply at_code_app in Hc3 as [Hc3 Hc4].
  revert e He m Hc Hc1 Hc2 Hc3 Hc4. induction n as [|n IH]; intros e He m Hc Hc1 Hc2 Hc3 Hc4 Hm; [done|].
  cbn [exec_while] in He. destruct (e !! x) as [v|] eqn:Hx; [|done]. cbn [mbind option_bind] in He.
  destruct (run_test e x v Hx m Hc1 Hm) as (m1 & L1 & E1 & [Hi1 Hf1]). fold test in E1. rewrite <- E1 in Hc2, Hc3, Hc4.
  assert (Hw : is_word 64 v) by (destruct Hm as (_ & _ & _ & Ha); by destruct (Ha x v Hx) as (_ & ? & _)).
  pose proof (leads_jcc jz 4 (i32 (Zlen b + 5)) (v =? 0) _ m1 Hc2 (decode_jz _) Hf1) as L2.
  cbn [cond] in L2. rewrite (i64_zero v Hw) in L2. specialize (L2 eq_refl).
  rewrite swrap_small in L2 by lia. set (m2 := set_rip _ m1) in L2.
  assert (Hi2 : holds (inv s D e) m2) by exact Hi1. assert (L12 : leads code m m2) by (by eapply leads_trans).
  rewrite !length_app, !Nat2Z.inj_add. destruct (v =? 0).
  - injection He as <-. exists m2. split; [done|]. split; [|done]. unfold m2. cbn [rip set_rip]. lia.
  - destruct (exec_block e body) as [e1|] eqn:Eb; [|done]. cbn [mbind option_bind] in He.
    assert (Em2 : rip m2 = rip m1 + Zlen jz) by (unfold m2; cbn [rip set_rip]; lia).
    destruct (run_block e e1 body Eb Hb m2) as (m3 & L3 & E3 & Hi3); [by rewrite Em2|done|]. fold b in E3. rewrite Em2 in E3.
    assert (Hc4' : at_code code jmp (rip m3)) by (rewrite E3; exact Hc4).
    set (m4 := set_rip (rip m) m3).
    assert (L4 : leads code m3 m4).
    { eapply leads_ins; [exact Hc4'|apply decode_jmp| |apply leads_refl]. cbn [exec rip set_rip].
      rewrite swrap_small by lia. unfold m4, set_rip. cbn. do 2 f_equal. rewrite E3. lia. }
    destruct (IH e1 He m4) as (m5 & L5 & E5 & Hi5); [exact Hc|exact Hc1| | | |exact Hi3|].
    1-3: unfold m4; cbn [rip set_rip]; rewrite <- E1; done.
    exists m5. rewrite !length_app, !Nat2Z.inj_add in E5. split; [|done].
    eapply leads_trans; [exact L12|]. eapply leads_trans; [exact L3|]. by eapply leads_trans.
Qed.
End scope.

Lemma inv_alloc s D e x g M f : layout s D → x ∉ D → inv s D e g M f → inv (alloc s x) (D ++ [x]) e g M f.
Proof.
  intros Hl Hx (H1 & H2 & H3 & H4). do 3 (split; [done|]). intros y v Hy. destruct (H4 y v Hy) as (Hd & Hw & HM).
  split; [set_solver|]. split; [done|]. rewrite <- HM. do 2 f_equal. unfold off, alloc. cbn [vars].
  rewrite lookup_insert_ne; [done|]. by intros ->.
Qed.

Lemma run_stmt n s D D' e e' st :
  layout s D → stmt_ok D st = Some D' → Zlen D' ≤ N → exec_stmt n e st = Some e' → Zlen (g_stmt s st).1 ≤ 20000 →
  runs code (g_stmt s st).1 (inv s D e) (inv (g_stmt s st).2 D' e').
Proof.
  intros Hl Hok HD He Hz. destruct st as [x k|b|x y|x y|x op y body|x body]; cbn [stmt_ok] in Hok.
  - destruct (_ && _) eqn:E in Hok; [|done]. injection Hok as <-. rewrite !andb_true_iff, bool_decide_eq_true in E.
    destruct E as [[_ Hx] Hk]. injection He as <-. cbn [g_stmt fst snd].
    pose proof (layout_alloc s D x Hl Hx) as Hl'.
    eapply runs_pre; [|intros g M f; by apply inv_alloc].
    eapply runs_app; [by apply run_imm|]. apply run_store; [done|done|set_solver|by apply (num_range _ _ Hk)].
  - destruct (simple_ok D b) eqn:E; [|done]. injection Hok as <-. by apply run_simple.
  - destruct (_ && _) eqn:E in Hok; [|done]. injection Hok as <-. apply andb_prop in E as [Hx Hy].
    cbn [exec_stmt] in He. unfold update in He. destruct (e !! y) as [w|] eqn:Ey; [|done]. cbn in He.
    destruct (e !! x) as [v|] eqn:Ex; [|done]. cbn in He. injection He as <-.
    apply (run_addv s D Hl HD true); [by apply var_ok_in|done|done].
  - destruct (_ && _) eqn:E in Hok; [|done]. injection Hok as <-. apply andb_prop in E as [Hx Hy].
    cbn [exec_stmt] in He. unfold update in He. destruct (e !! y) as [w|] eqn:Ey; [|done]. cbn in He.
    destruct (e !! x) as [v|] eqn:Ex; [|done]. cbn in He. injection He as <-.
    apply (run_addv s D Hl HD false); [by apply var_ok_in|done|done].
  - destruct (_ && _) eqn:E in Hok; [|done]. injection Hok as <-. rewrite !andb_true_iff, bool_decide_eq_true, Z.leb_le in E.
    destruct E as ((((Hx & Hy) & Hb) & Hop) & Hsize). cbn [exec_stmt] in He.
    destruct (e !! x) as [v|] eqn:Ex; [|done]. cbn in He. destruct (e !! y) as [w|] eqn:Ey; [|done]. cbn in He.
    apply (run_if s D Hl HD e e' op x y v w body); try done. by rewrite simple_block_size.
  - destruct (_ && _) eqn:E in Hok; [|done]. injection Hok as <-. apply andb_prop in E as [Hx Hb].
    cbn [g_stmt fst snd exec_stmt] in *. eapply run_while; [done..|].
    unfold g_while in Hz. rewrite !length_app in Hz. lia.
Qed.

Lemma run_stmts n s D D' e e' l :
  layout s D → stmts_ok D l = Some D' → Zlen D' ≤ N → exec_stmts n e l = Some e' → Zlen (g_stmts s l).1 ≤ 20000 →
  runs code (g_stmts s l).1 (inv s D e) (inv (g_stmts s l).2 D' e').
Proof.
  revert s D e. induction l as [|st l IH]; intros s D e Hl Hok HD He Hz; cbn [stmts_ok exec_stmts g_stmts] in *.
  - injection Hok as <-. injection He as <-. apply runs_nil.
  - destruct (stmt_ok D st) as [D1|] eqn:E; [|done]. cbn in Hok.
    destruct (exec_stmt n e st) as [e1|] eqn:E1; [|done]. cbn in He.
    pose proof (stmts_ok_grows _ _ _ Hok). pose proof (layout_stmt s D D1 st Hl E) as Hl1.
    pose proof (run_stmt n s D D1 e e1 st Hl E ltac:(lia) E1) as R.
    destruct (g_stmt s st) as [b s1]. cbn [fst snd] in *. specialize (IH s1 D1 e1 Hl1 Hok HD He).
    destruct (g_stmts s1 l) as [c s2]. cbn [fst snd] in *. rewrite length_app in Hz.
    eapply runs_app; [apply R; lia|apply IH; lia].
Qed.

(** ** Parameters and arguments *)
Fixpoint bind_from (e : env) (xs : list bytes) (vs : list Z) : env :=
  match xs, vs with x :: xs, v :: vs => bind_from (<[x := v]> e) xs vs | _, _ => e end.

(** The first [length vs] argument registers, from the [i]-th on, hold [vs]. *)
Definition args_in (i : nat) (vs : list Z) (g : Z → Z) : Prop :=
  ∀ j v, vs !! j = Some v → g (arg_reg_of (i + j)) = v.

Lemma run_params i s D e xs vs :
  layout s D → NoDup xs → (∀ x, x ∈ xs → x ∉ D) → (i + length xs ≤ 4)%nat → Zlen D + Zlen xs ≤ N →
  length xs = length vs → Forall (is_word 64) vs →
  runs code (g_params i s xs) (λ g M f, inv s D e g M f ∧ args_in i vs g)
    (inv (alloc_all s xs) (D ++ xs) (bind_from e xs vs)).
Proof.
  revert i s D e vs. induction xs as [|x xs IH]; intros i s D e vs Hl Hnd Hx Hi HD Hlen Hvs; cbn [g_params alloc_all].
  - destruct vs; [|done]. cbn [bind_from]. rewrite app_nil_r. eapply runs_pre; [apply runs_nil|]. by intros ??? [? _].
  - destruct vs as [|v vs]; [done|]. cbn [length] in *. apply NoDup_cons in Hnd as [Hn Hnd].
    apply Forall_cons in Hvs as [Hv Hvs]. pose proof (Hx x ltac:(left)) as HxD.
    pose proof (layout_alloc s D x Hl HxD) as Hl'.
    assert (HD' : Zlen (D ++ [x]) ≤ N) by (rewrite length_app; cbn [length]; lia).
    destruct (slot (alloc s x) (D ++ [x]) Hl' HD' x ltac:(set_solver)) as (Hs1 & Hs2 & _).
    eapply (runs_app _ _ _ _ (λ g M f, inv (alloc s x) (D ++ [x]) (<[x := v]> e) g M f ∧ args_in (S i) vs g)).
    + eapply runs_pre; [apply runs_store, low_arg; lia|]. intros g M f [Hi' Ha]. cbn zeta.
      pose proof Hi' as (H1 & _). rewrite H1, Hs1. split; [done|].
      assert (g (arg_reg_of i) = v) as -> by (rewrite <- (Nat.add_0_r i); by apply Ha).
      split; [apply inv_store; [done..|set_solver|done|]; by apply inv_alloc|].
      intros j w Hj. rewrite Nat.add_succ_comm. by apply Ha.
    + replace (D ++ x :: xs) with ((D ++ [x]) ++ xs) by (by rewrite <- app_assoc). cbn [bind_from].
      apply IH; [done|done| |lia|rewrite length_app; cbn [length]; lia|lia|done].
      intros y Hy. pose proof (Hx y ltac:(by right)). intros [?| ->%list_elem_of_singleton]%elem_of_app; done.
Qed.

Lemma run_args i s D e ys ws :
  layout s D → Zlen D ≤ N → (i + length ys ≤ 4)%nat → mapM (λ y, e !! y) ys = Some ws →
  ∀ vs, length vs = i →
  runs code (concat (imap (λ j y, c_load (arg_reg_of (i + j)) (off s y)) ys))
    (λ g M f, inv s D e g M f ∧ args_in 0 vs g) (λ g M f, inv s D e g M f ∧ args_in 0 (vs ++ ws) g).
Proof.
  intros Hl HD. revert i ws. induction ys as [|y ys IH]; intros i ws Hi Hws vs Hvs; cbn [imap concat].
  - injection Hws as <-. rewrite app_nil_r. apply runs_nil.
  - apply mapM_Some in Hws. inversion Hws as [|y' w ys' ws' Hy Hws' E1 E2]. subst. cbn [length] in Hi.
    replace (vs ++ w :: ws') with ((vs ++ [w]) ++ ws') by (by rewrite <- app_assoc).
    eapply (runs_app _ _ _ _ (λ g M f, inv s D e g M f ∧ args_in 0 (vs ++ [w]) g)).
    + rewrite Nat.add_0_r. eapply runs_pre; [apply runs_load, low_arg; lia|]. intros g M f [Hi' Ha]. cbn zeta.
      pose proof Hi' as (H1 & _ & _ & H4). destruct (H4 y w Hy) as (Hd & _ & HM).
      destruct (slot s D Hl HD y Hd) as (Hs1 & Hs2 & _). rewrite H1, Hs1. split; [done|].
      split; [eapply inv_reg; [apply low_arg; lia|exact Hi']|]. intros j v Hj. unfold upd.
      apply lookup_app_Some in Hj as [Hj|[Hlen Hj]].
      * pose proof (lookup_lt_Some _ _ _ Hj). cbn [Nat.add]. rewrite (proj2 (Z.eqb_neq _ _)); [by apply Ha|].
        intros E. apply arg_reg_inj in E; lia.
      * apply list_lookup_singleton_Some in Hj as [Hj <-]. assert (j = length vs) as -> by lia.
        cbn [Nat.add]. by rewrite Z.eqb_refl.
    + rewrite (imap_ext _ (λ j y, c_load (arg_reg_of (S (length vs) + j)) (off s y)))
        by (intros; cbn; by rewrite Nat.add_succ_r).
      apply IH; [lia|by apply mapM_Some|rewrite length_app; cbn [length]; lia].
Qed.
End frame.

(** ** Calls *)
Lemma bind_from_params e xs vs :
  NoDup xs → length xs = length vs → bind_from e xs vs = bind_params xs vs ∪ e.
Proof.
  unfold bind_params. revert e vs. induction xs as [|x xs IH]; intros e vs Hnd Hlen; destruct vs as [|v vs]; try (cbn in Hlen; lia).
  - cbn. by rewrite (left_id_L ∅ (∪)).
  - apply NoDup_cons in Hnd as [Hn Hnd]. cbn [bind_from zip zip_with list_to_map foldr].
    rewrite IH by (done || cbn in Hlen; lia). cbn. rewrite <- insert_union_l, <- insert_union_r; [done|].
    apply not_elem_of_list_to_map_1. rewrite fst_zip by (cbn in Hlen; lia). done.
Qed.

Section calls.
Context (P : list func) (Hok : program_ok P = true).
Let code : bytes := g_program P.

Lemma func_is_ok f : f ∈ P → func_ok (map fn_name P) f = true.
Proof.
  destruct (program_ok_parts _ Hok) as (H & _). apply forallb_Forall' in H. rewrite Forall_forall in H. apply H.
Qed.

Lemma code_small : Zlen code < 2 ^ 31 - 100000.
Proof.
  assert (∀ l base, (∀ f, f ∈ l → func_ok (map fn_name P) f = true) → Zlen (g_code P base l) ≤ 20000 * Zlen l) as Hl.
  { induction l as [|f l IH]; intros base Hf; cbn [g_code length]; [lia|].
    destruct (func_ok_parts _ _ (Hf f ltac:(by left))) as (D & _ & _ & _ & _ & Hz & _).
    specialize (IH (base + Zlen (g_func 0 f)) ltac:(intros; apply Hf; by right)).
    rewrite length_app, (g_func_length (call_disp P base f)). lia. }
  specialize (Hl P 5 func_is_ok). unfold program_ok in Hok. rewrite !andb_true_iff, Z.leb_le in Hok.
  destruct Hok as [_ Hn]. unfold code, g_program. rewrite !length_app, length_le_bytes. cbn [length]. lia.
Qed.

Lemma func_placed g f :
  find_func P g = Some f →
  at_code code (g_func (call_disp P (offset_in P g) f) f) (offset_in P g) ∧ 0 ≤ offset_in P g ≤ Zlen code ∧
  func_ok (map fn_name P) f = true.
Proof.
  intros Hf. destruct (func_at P g f Hf) as (p & q & Hc & Hp). unfold code. split; [|split].
  { rewrite <- Hp at 2. rewrite Hc. apply at_code_mid. }
  { rewrite Hc, length_app. lia. } destruct (find_func_split _ _ _ Hf) as (l1 & l2 & E & _). apply func_is_ok. rewrite E. set_solver.
Qed.

(** push rbp; mov rbp, rsp; sub rsp, 128 *)
Lemma leads_prologue m sp :
  at_code code prologue (rip m) → regs m rsp = sp → sp mod 8 = 0 → 144 ≤ sp < 2 ^ 64 →
  ∃ m', leads code m m' ∧ rip m' = rip m + 11 ∧ mem m' = upd (mem m) (sp - 8) (regs m rbp) ∧
    regs m' rbp = sp - 8 ∧ regs m' rsp = sp - 8 - 128 ∧ ∀ r, low_reg r → regs m' r = regs m r.
Proof.
  intros Hc Hsp Hal Hr. change prologue with ([0x55] ++ [0x48; 0x89; 0xE5] ++ [0x48; 0x81; 0xEC; 0x80; 0; 0; 0]) in Hc.
  apply at_code_app in Hc as [Hc1 Hc2]. apply at_code_app in Hc2 as [Hc2 Hc3].
  assert (H8 : aligned (sp - 8) = true).
  { unfold aligned. apply Z.eqb_eq. replace (sp - 8) with (sp + (-1) * 8) by lia. by rewrite Z.mod_add. }
  assert (Hu : u64 (sp - 8) = sp - 8) by (apply wrap_small; unfold is_word; lia).
  eexists. split.
  { eapply (leads_ins _ _ _ (Push 5)); [exact Hc1|by intros| |].
    { cbn [exec]. unfold push, store, set_rip. cbn [regs rip mem set_reg]. rewrite Hsp, Hu, H8. reflexivity. }
    eapply (leads_ins _ _ _ (MovRR 5 4)); [exact Hc2|intros [|? [|? [|? [|]]]]; reflexivity|reflexivity|].
    eapply (leads_ins _ _ _ (AluI 5 4 128)); [exact Hc3|by intros|reflexivity|apply leads_refl]. }
  cbn [rip mem regs set_rip set_reg set_mem set_flags exec alu length]. unfold upd, rbp, rsp. cbn [Z.eqb Pos.eqb].
  change (u64 128) with 128. rewrite (wrap_small 64 (sp - 8 - 128)) by (unfold is_word; lia).
  split; [lia|]. do 3 (split; [done|]). intros r Hlow. by destruct Hlow as [->|[->|[->|[->| ->]]]].
Qed.

(** leave; ret *)
Lemma leads_epilogue m fp :
  at_code code [0xC9; 0xC3] (rip m) → regs m rbp = fp → fp mod 8 = 0 → 0 ≤ fp < 2 ^ 64 - 8 →
  ∃ m', leads code m m' ∧ rip m' = mem m (fp + 8) ∧ mem m' = mem m ∧ regs m' rax = regs m rax ∧
    regs m' rbp = mem m fp ∧ regs m' rsp = u64 (fp + 16).
Proof.
  intros Hc Hfp Hal Hr. change [0xC9; 0xC3] with ([0xC9] ++ [0xC3]) in Hc. apply at_code_app in Hc as [Hc1 Hc2].
  assert (H8 : aligned (fp + 8) = true).
  { unfold aligned. apply Z.eqb_eq. replace (fp + 8) with (fp + 1 * 8) by lia. by rewrite Z.mod_add. }
  assert (H0 : aligned fp = true) by (unfold aligned; by apply Z.eqb_eq).
  assert (Hu : u64 (fp + 8) = fp + 8) by (apply wrap_small; unfold is_word; lia).
  eexists. split.
  { eapply (leads_ins _ _ _ Leave); [exact Hc1|by intros| |].
    { cbn [exec]. unfold pop, load. cbn [regs rip mem set_reg set_rip]. unfold upd at 1 2 3. cbn [Z.eqb Pos.eqb rsp].
      rewrite Hfp, H0. reflexivity. }
    eapply (leads_ins _ _ _ Ret); [exact Hc2|by intros| |apply leads_refl].
    cbn [exec]. unfold pop, load. cbn [regs rip mem set_reg set_rip]. unfold upd, rsp, rbp. cbn [Z.eqb Pos.eqb].
    rewrite Hu, H8. reflexivity. }
  cbn [rip mem regs set_rip set_reg set_mem set_flags]. unfold upd, rbp, rsp, rax. cbn [Z.eqb Pos.eqb].
  do 4 (split; [done|]). f_equal. lia.
Qed.

Lemma decode_call d tl : decode (([0xE8] ++ le_bytes 4 (i32 d)) ++ tl) = Some (Call (i32 d), 5%nat).
Proof. rewrite <- app_assoc. destruct (dword_le (i32 d)) as (a & b & c & d' & -> & E). by rewrite <- (i32_idem d), <- E. Qed.

(** What a call does: control returns to the saved address with the value in
    rax; the frame pointer and the memory from the return address on are as
    they were. *)
Definition returns_to (m m' : mach) (v : Z) : Prop :=
  leads code m m' ∧ rip m' = mem m (regs m rsp) ∧ regs m' rax = v ∧
  regs m' rsp = u64 (regs m rsp + 8) ∧ regs m' rbp = regs m rbp ∧
  ∀ a, regs m rsp ≤ a → mem m' a = mem m a.

(** Stack needed for calls nested [n] deep. *)
Definition stack_for (n : nat) : Z := 144 * Z.of_nat n + 24000.

(** The code of a return, up to the epilogue, leaves the value in rax. *)
Lemma run_plain_tail fp M0 N s D e tgt t v :
  fp < 2 ^ 64 → fp mod 8 = 0 → 8 * N ≤ fp → N ≤ 3000 → layout s D → Zlen D ≤ N →
  tail_ok D (map fn_name P) t = true →
  match t with
  | RInt k => Some (num k)
  | RVar x => e !! x
  | ROp p x y => a ← e !! x; b ← e !! y; Some (u64 (if p : bool then a + b else a - b))
  | ROpI p x k => a ← e !! x; Some (u64 (if p : bool then a + num k else a - num k))
  | RCall _ _ => None
  end = Some v →
  runs code (g_tail s tgt t) (inv fp M0 s D e) (inv_rax fp M0 s D e v).
Proof.
  intros H1 H2 H3 H4 Hl HD Ht He. destruct t as [k|x|p x y|p x k|g ys]; cbn [tail_ok g_tail] in *; [..|done].
  - injection He as <-. by eapply run_imm.
  - by eapply run_load0.
  - destruct (e !! x) as [a|] eqn:Ex; [|done]. cbn in He. destruct (e !! y) as [b|] eqn:Ey; [|done]. injection He as <-.
    eapply runs_app; [by eapply run_load0|]. eapply runs_app; [by eapply run_load1|]. by eapply run_op.
  - apply andb_prop in Ht as [_ Hk]. destruct (e !! x) as [a|] eqn:Ex; [|done]. injection He as <-.
    eapply runs_app; [by eapply run_load0|]. by eapply run_opi.
Qed.

(** The end of a function, from a state with the value in rax. *)
Lemma leads_return m m1 v :
  let sp := regs m rsp in
  sp mod 8 = 0 → 144 ≤ sp < 2 ^ 64 → leads code m m1 → at_code code [0xC9; 0xC3] (rip m1) →
  regs m1 rbp = sp - 8 → regs m1 rax = v →
  (∀ a, sp - 8 ≤ a → mem m1 a = upd (mem m) (sp - 8) (regs m rbp) a) →
  ∃ m', returns_to m m' v.
Proof.
  intros sp Hal Hr L Hc Hbp Hax Hmem.
  assert (Hal' : (sp - 8) mod 8 = 0) by (replace (sp - 8) with (sp + (-1) * 8) by lia; by rewrite Z.mod_add).
  destruct (leads_epilogue m1 (sp - 8) Hc Hbp Hal' ltac:(lia)) as (m2 & L2 & E1 & E2 & E3 & E4 & E5).
  exists m2. split; [by eapply leads_trans|]. rewrite E1, E2, E3, E4, E5.
  rewrite (Hmem (sp - 8 + 8)), (Hmem (sp - 8)) by lia. unfold upd. rewrite Z.eqb_refl.
  destruct (Z.eqb_spec (sp - 8 + 8) (sp - 8)); [lia|].
  replace (sp - 8 + 8) with sp by lia. replace (sp - 8 + 16) with (sp + 8) by lia. do 4 (split; [done|]).
  intros a Ha. rewrite Hmem by lia. unfold upd. by destruct (Z.eqb_spec a (sp - 8)); [lia|].
Qed.

(** The parts of a function's code. *)
Lemma g_front_eq f :
  (g_front f).1 = prologue ++ g_params 0 newCompilerState (fn_params f) ++
                  (g_stmts (alloc_all newCompilerState (fn_params f)) (fn_body f)).1 ∧
  (g_front f).2 = (g_stmts (alloc_all newCompilerState (fn_params f)) (fn_body f)).2.
Proof. unfold g_front. by destruct (g_stmts _ _). Qed.

(** From the entry of a function to its return. *)
Lemma run_front f D vs e n m :
  let sp := regs m rsp in
  stmts_ok (fn_params f) (fn_body f) = Some D → Zlen (g_func 0 f) ≤ 20000 →
  NoDup (fn_params f) → (length (fn_params f) ≤ 4)%nat → length (fn_params f) = length vs →
  Forall (is_word 64) vs → args_in 0 vs (regs m) →
  exec_stmts n (bind_params (fn_params f) vs) (fn_body f) = Some e →
  at_code code (g_front f).1 (rip m) → sp mod 8 = 0 → 24000 ≤ sp < 2 ^ 64 →
  ∃ m', leads code m m' ∧ rip m' = rip m + Zlen (g_front f).1 ∧
    holds (inv (sp - 8) (upd (mem m) (sp - 8) (regs m rbp)) (g_front f).2 D e) m' ∧ 7 * Zlen D ≤ 20000.
Proof.
  intros sp Hst Hz Hnd H4 Hlen Hvs Hargs He Hc Hal Hr. destruct (g_front_eq f) as [Ef1 Ef2].
  set (s0 := alloc_all newCompilerState (fn_params f)) in *.
  assert (Hsz : Zlen (g_front f).1 ≤ 20000).
  { unfold g_func in Hz. destruct (g_front f) as [b s]. rewrite length_app in Hz. cbn [fst]. lia. }
  pose proof (stmts_size s0 _ _ _ Hst) as Hs1. pose proof (params_size 0 newCompilerState (fn_params f)) as Hp.
  rewrite Ef1, !length_app in Hsz. assert (HD : 7 * Zlen D ≤ 20000) by lia.
  pose proof (stmts_ok_grows _ _ _ Hst) as Hgrow.
  rewrite Ef1 in *. apply at_code_app in Hc as [Hc1 Hc2].
  destruct (leads_prologue m sp Hc1 eq_refl Hal ltac:(lia)) as (m1 & L1 & E1 & Em & Ebp & Esp & Ereg).
  assert (Hal' : (sp - 8) mod 8 = 0) by (replace (sp - 8) with (sp + (-1) * 8) by lia; by rewrite Z.mod_add).
  set (M0 := upd (mem m) (sp - 8) (regs m rbp)) in *.
  assert (Hl0 : layout s0 (fn_params f)).
  { apply (layout_alloc_all newCompilerState [] (fn_params f) layout_new Hnd). intros; apply not_elem_of_nil. }
  assert (R1 : runs code (g_params 0 newCompilerState (fn_params f))
    (λ g M f, inv (sp - 8) M0 newCompilerState [] ∅ g M f ∧ args_in 0 vs g)
    (inv (sp - 8) M0 s0 ([] ++ fn_params f) (bind_from ∅ (fn_params f) vs))).
  { apply (run_params code (sp - 8) M0 2900 ltac:(lia) Hal' ltac:(lia) ltac:(lia));
      [apply layout_new|done|intros; apply not_elem_of_nil|done|cbn [length]; lia|done|done]. }
  rewrite bind_from_params, (right_id_L ∅ (∪)) in R1 by done. cbn [app] in R1.
  pose proof (run_stmts code (sp - 8) M0 2900 ltac:(lia) Hal' ltac:(lia) ltac:(lia) n s0 _ D _ e _ Hl0 Hst ltac:(lia) He ltac:(lia)) as R2.
  pose proof (runs_app code _ _ _ _ _ R1 R2) as R. rewrite <- Ef2 in R.
  destruct (R m1) as (m2 & L2 & E2 & Hi2).
  { rewrite E1. exact Hc2. }
  { split; [|intros j v Hj; pose proof (lookup_lt_Some vs j v Hj); rewrite Ereg by (apply low_arg; cbn; lia); by apply Hargs].
    split; [done|]. split; [rewrite Esp; lia|]. rewrite Em. split; [done|]. intros x v Hx. by rewrite lookup_empty in Hx. }
  exists m2. split; [by eapply leads_trans|]. split; [rewrite E2, E1, (length_app prologue); change (length prologue) with 11%nat; lia|]. done.
Qed.

Lemma run_call n g vs v m :
  eval n P g vs = Some v → Forall (is_word 64) vs → args_in 0 vs (regs m) → rip m = offset_in P g →
  regs m rsp mod 8 = 0 → stack_for n ≤ regs m rsp < 2 ^ 64 → ∃ m', returns_to m m' v.
Proof.
  unfold stack_for. revert g vs v m. induction n as [|n IH]; intros g vs v m He Hvs Hargs Hrip Hal Hr; [done|].
  cbn [eval] in He. destruct (find_func P g) as [f|] eqn:Ef; [|done]. cbn [mbind option_bind] in He.
  destruct (Nat.eqb_spec (length (fn_params f)) (length vs)) as [Hlen|]; [|done]. cbn [negb] in He.
  destruct (exec_stmts n (bind_params (fn_params f) vs) (fn_body f)) as [e|] eqn:Ee; [|done].
  cbn [mbind option_bind] in He.
  destruct (func_placed g f Ef) as (Hc & Hoff & Hfok).
  destruct (func_ok_parts _ _ Hfok) as (D & Hst & Htail & Hnd & H4 & Hz & _ & _ & Hl).
  set (tgt := call_disp P (offset_in P g) f) in *.
  assert (Hg : g_func tgt f = (g_front f).1 ++ g_tail (g_front f).2 tgt (fn_ret f) ++ [0xC9; 0xC3]).
  { unfold g_func. by destruct (g_front f). }
  rewrite Hg in Hc. rewrite <- Hrip in Hc, Hoff. apply at_code_app in Hc as [Hc1 Hc]. apply at_code_app in Hc as [Hc2 Hc3].
  destruct (run_front f D vs e n m Hst Hz Hnd H4 Hlen Hvs Hargs Ee Hc1 Hal ltac:(lia)) as (m1 & L1 & E1 & Hi1 & HD).
  set (fp := regs m rsp - 8) in *. set (M0 := upd (mem m) fp (regs m rbp)) in *.
  assert (Hal' : fp mod 8 = 0) by (unfold fp; replace (regs m rsp - 8) with (regs m rsp + (-1) * 8) by lia; by rewrite Z.mod_add).
  rewrite <- E1 in Hc2, Hc3.
  destruct (fn_ret f) as [k|x|p x y|p x k|h ys] eqn:Eret.
  5: {
    cbn [tail_ok g_tail] in *. rewrite !andb_true_iff, Nat.leb_le in Htail. destruct Htail as [[_ Hys] Hlen4].
    destruct (mapM (λ y, e !! y) ys) as [ws|] eqn:Ews; [|done]. cbn [mbind option_bind] in He.
    apply at_code_app in Hc2 as [Hc4 Hc5].
    pose proof (run_args code fp M0 2900 ltac:(lia) Hal' ltac:(lia) ltac:(lia) 0 _ D e ys ws Hl ltac:(lia) Hlen4 Ews [] eq_refl) as R.
    destruct (R m1 Hc4) as (m2 & L2 & E2 & [Hi2 Ha2]); [by split|].
    change (concat _) with (g_args (g_front f).2 ys) in E2.
    pose proof Hi2 as (Hbp2 & Hsp2 & HM2 & Hag2). rewrite <- E2 in Hc5.
    (* the call *)
    assert (Hfh : ∃ fh, find_func P h = Some fh).
    { destruct n as [|n']; [done|]. cbn [eval] in He. destruct (find_func P h) as [fh|]; [by exists fh|done]. }
    destruct Hfh as [fh Hfh]. destruct (func_placed h fh Hfh) as (_ & Hoffh & _).
    assert (Hcall : g_call_at f = Some (Zlen ((g_front f).1 ++ g_args (g_front f).2 ys), h)).
    { unfold g_call_at. rewrite Eret. by destruct (g_front f). }
    assert (Htgt : i32 tgt = offset_in P h - (rip m2 + 5)).
    { unfold tgt, call_disp. rewrite Hcall. pose proof code_small. rewrite E2, E1, Hrip. fold (g_args (g_front f).2 ys).
      pose proof Hoff as Hoff'. rewrite Hrip in Hoff'.
      assert (Zlen (g_func tgt f) ≤ 20000) by (by rewrite g_func_length). rewrite Hg, !length_app in *.
      rewrite swrap_small; lia. }
    set (m3 := set_rip (offset_in P h) (set_mem (fp - 136) (rip m2 + 5) (set_reg rsp (fp - 136) m2))).
    assert (L3 : leads code m2 m3).
    { eapply leads_ins; [exact Hc5|apply decode_call| |apply leads_refl]. cbn [exec]. unfold push, store.
      cbn [regs set_rip set_reg rip mem]. rewrite Hsp2.
      replace (fp - 128 - 8) with (fp - 136) by lia. rewrite wrap_small by (unfold is_word; lia).
      assert (aligned (fp - 136) = true) as ->.
      { unfold aligned. apply Z.eqb_eq. replace (fp - 136) with (fp + (-17) * 8) by lia. by rewrite Z.mod_add. }
      rewrite Htgt. cbn [mbind option_bind]. unfold m3, set_rip, set_mem, set_reg. cbn [rip regs mem flags].
      rewrite length_app, length_le_bytes. cbn [length]. change (Z.of_nat (1 + 4)) with 5.
      by replace (rip m2 + 5 + (offset_in P h - (rip m2 + 5))) with (offset_in P h) by lia. }
    assert (Hsp3 : regs m3 rsp = fp - 136) by (unfold m3; cbn [regs set_rip set_mem set_reg]; unfold upd; by rewrite Z.eqb_refl).
    destruct (IH h ws v m3 He) as (m4 & L4 & E4 & Hax4 & Hsp4 & Hbp4 & HM4).
    { apply mapM_Some in Ews. apply Forall_lookup. intros i w Hw.
      destruct (Forall2_lookup_r _ _ _ _ _ Ews Hw) as (y & _ & Hy). by destruct (Hag2 y w Hy) as (_ & ? & _). }
    { intros j w Hj. pose proof (lookup_lt_Some _ _ _ Hj) as Hlt. rewrite <- (Ha2 j w Hj).
      apply mapM_Some, Forall2_length in Ews. unfold m3. cbn [regs set_rip set_mem set_reg]. unfold upd.
      destruct (low_reg_frame _ (low_arg (0 + j) ltac:(lia))) as [_ Hn]. by rewrite (proj2 (Z.eqb_neq _ _) Hn). }
    { done. }
    { rewrite Hsp3. replace (fp - 136) with (fp + (-17) * 8) by lia. by rewrite Z.mod_add. }
    { rewrite Hsp3. lia. }
    rewrite Hsp3 in *.
    assert (Hmem3 : ∀ a, fp ≤ a → mem m3 a = M0 a).
    { intros a Ha. unfold m3. cbn [mem set_rip set_mem set_reg]. unfold upd. destruct (Z.eqb_spec a (fp - 136)); [lia|]. by apply HM2. }
    eapply (leads_return m m4); [done|lia| | | | |].
    - eapply leads_trans; [exact L1|]. eapply leads_trans; [exact L2|]. by eapply leads_trans.
    - rewrite E4. unfold m3 at 1. cbn [mem set_rip set_mem set_reg]. unfold upd. rewrite Z.eqb_refl, E2.
      rewrite !length_app, length_le_bytes in Hc3. cbn [length] in Hc3.
      replace (rip m1 + Zlen (g_args (g_front f).2 ys) + 5) with
        (rip m1 + Z.of_nat (length (g_args (g_front f).2 ys) + (1 + 4))) by lia. exact Hc3.
    - rewrite Hbp4. unfold m3. cbn [regs set_rip set_mem set_reg]. unfold upd. by destruct (Z.eqb_spec rbp rsp).
    - done.
    - intros a Ha. rewrite HM4 by lia. by apply Hmem3. }
  all: pose proof (run_plain_tail fp M0 2900 (g_front f).2 D e tgt _ v ltac:(lia) Hal' ltac:(lia) ltac:(lia) Hl ltac:(lia) Htail He) as R;
    destruct (R m1 Hc2 Hi1) as (m2 & L2 & E2 & [Hi2 Hax]); pose proof Hi2 as (Hbp & _ & HM & _);
    eapply (leads_return m m2); [done|lia|by eapply leads_trans|by rewrite E2|done|done|exact HM].
Qed.
End calls.

(** ** Whole programs *)

(** C12 A well-formed program of the core language is compiled, and the code does
    what the program means: if the tokens of the source are those of the program
    and calling [main] has the value [v], Emit returns code which, entered at its
    first byte with enough stack, returns to its caller with [v] in rax, the
    stack and frame pointers restored and the caller's memory untouched. *)
Theorem gloria_correct P src k n v :
  program_ok P = true → tokenize k (NewLexer src) = Ok (program_words P) → eval n P (bs "main") [] = Some v →
  ∃ code, Emit src = Ok code ∧
    ∀ m, rip m = 0 → regs m rsp mod 8 = 0 → stack_for n ≤ regs m rsp < 2 ^ 64 →
    ∃ m', leads code m m' ∧ rip m' = mem m (regs m rsp) ∧ regs m' rax = v ∧
      regs m' rsp = u64 (regs m rsp + 8) ∧ regs m' rbp = regs m rbp ∧
      ∀ a, regs m rsp ≤ a → mem m' a = mem m a.
Proof.
  intros Hok Htok He. exists (g_program P). split; [by eapply emit_program|]. intros m Hrip Hal Hr.
  assert (Hmain : ∃ f, find_func P (bs "main") = Some f).
  { destruct n as [|n']; [done|]. cbn [eval] in He. destruct (find_func P (bs "main")) as [f|]; [by exists f|done]. }
  destruct Hmain as [f Hf]. destruct (func_placed P Hok _ f Hf) as (_ & Hoff & _). pose proof (code_small P Hok).
  set (m1 := set_rip (offset_in P (bs "main")) m).
  assert (L1 : leads (g_program P) m m1).
  { eapply (leads_ins _ m ([0xE9] ++ le_bytes 4 (i32 (offset_in P (bs "main") - 5)))); [| apply decode_jmp| |apply leads_refl].
    - rewrite Hrip. unfold g_program. rewrite app_assoc. apply (at_code_mid []).
    - cbn [exec rip set_rip]. rewrite Hrip, length_app, length_le_bytes. cbn [length]. change (0 + Z.of_nat (1 + 4)) with 5.
      rewrite swrap_small by lia. unfold m1, set_rip. cbn. by replace (5 + (offset_in P (bs "main") - 5)) with (offset_in P (bs "main")) by lia. }
  destruct (run_call P Hok n (bs "main") [] v m1) as (m2 & L2 & H2); [done|constructor|done|done|done|done|].
  exists m2. split; [by eapply leads_trans|]. exact H2.
Qed.

(** A stack with the return address -7 on top. *)
Definition ex_machine : mach := mk_mach 0 (λ r, if r =? rsp then 65536 else 0) (λ _, -7) None.

Definition ex_source : bytes := bs "fn main() { let x = 10 let y = 0 while x { y += 3 x -= 1 } // 30
  if x < y { x = 12 } return add(x, y) }
fn add(a, b) { return a + b }".

Lemma gloria_correct_witness :
  ∃ code, Emit ex_source = Ok code ∧ ∃ m', leads code ex_machine m' ∧ rip m' = -7 ∧ regs m' rax = 42.
Proof.
  destruct (gloria_correct [ex_main; ex_add] ex_source 100 20 42) as (code & Hc & Hm).
  - vm_compute. reflexivity.
  - vm_compute. reflexivity.
  - vm_compute. reflexivity.
  - exists code. split; [exact Hc|].
    assert (Hs : stack_for 20 ≤ regs ex_machine rsp < 2 ^ 64) by (clear; vm_compute; split; [discriminate|reflexivity]).
    destruct (Hm ex_machine eq_refl eq_refl Hs) as (m' & H1 & H2 & H3 & _).
    exists m'. split; [exact H1|]. split; [exact H2|exact H3].
Defined.

(** ** Assignments between variables *)

(** [x = y] does not copy: the code stores whatever rax holds into [y] and
    then into [x]. *)
Theorem assign_var_stores_rax src t code fp M0 s D e x y r out ts :
  layout s D → Zlen D ≤ 100 → x ∈ D → y ∈ D → lit src t = y →
  800 ≤ fp < 2 ^ 64 → fp mod 8 = 0 → is_word 64 r →
  let b := c_store 0 (off s y) ++ c_store 0 (off s x) in
  assign_var src (off s x) t (mk_f out s ts) = Ok (tt, mk_f (out ++ b) s ts) ∧
  runs code b (inv_rax fp M0 s D e r) (inv fp M0 s D (<[x := r]> (<[y := r]> e))).
Proof.
  intros Hl HD Hx Hy Hlit Hfp Hal Hr b. split.
  - unfold assign_var. rewrite Hlit, bind_offset by (destruct Hl as (_ & Hd & _); rewrite Hd; by apply bool_decide_eq_true).
    rewrite bind_emit. unfold emit_. cbn [f_out f_state f_toks]. unfold emitMovRegToStack. rewrite <- !app_assoc. done.
  - apply (runs_app _ _ _ _ (inv_rax fp M0 s D (<[y := r]> e) r)).
    + eapply runs_pre; [apply runs_store; by left|]. intros g M f [Hi Ha]. pose proof Hi as (H1 & _).
      destruct (slot fp 100 ltac:(lia) Hal ltac:(lia) ltac:(lia) s D Hl HD y Hy) as (Hs1 & Hs2 & _).
      cbn zeta. rewrite H1, Hs1. split; [done|]. unfold inv_rax, rax in *. rewrite Ha. split; [|done].
      apply (inv_store fp M0 100); done || lia.
    + apply (run_store code fp M0 100); done || lia.
Qed.

Lemma assign_var_stores_rax_witness :
  ∃ f, assign_var (bs "y") (-8) (mk_token IDENT 0 1) (mk_f [] (alloc_all newCompilerState [bs "x"; bs "y"]) []) = Ok (tt, f).
Proof.
  assert (Hl : layout (alloc_all newCompilerState [bs "x"; bs "y"]) [bs "x"; bs "y"]).
  { apply (layout_alloc_all newCompilerState [] _ layout_new); [|intros; apply not_elem_of_nil].
    apply (proj1 (bool_decide_eq_true _)). vm_compute. reflexivity. }
  destruct (assign_var_stores_rax (bs "y") (mk_token IDENT 0 1) [] 4096 (λ _, 0) _ [bs "x"; bs "y"] ∅
    (bs "x") (bs "y") 9 [] [] Hl) as [H _]; [cbn; lia|by left|by right; left|reflexivity|lia|reflexivity|unfold is_word; lia|].
  eexists. exact H.
Defined.
