(* ===== verification/GloriaFacts.v ===== *)
(** * Further properties of the Gloria compiler

    The slots of variables and the layout of the print loop. *)
From S2P Require Import Prelude GloriaLex GloriaCode GloriaEmit GloriaMach GloriaLang GloriaPeephole GloriaCompile GloriaCorrect.

(** ** Declarations *)
Fixpoint declare_seq (s : compilerState) (xs : list bytes) : outcome compilerState :=
  match xs with
  | [] => Ok s
  | x :: r => '(_, s) ← declareAndAlloc s x; declare_seq s r
  end.

Lemma declare_seq_spec s D xs :
  layout s D →
  if bool_decide (NoDup xs ∧ Forall (λ x, x ∉ D) xs) then declare_seq s xs = Ok (alloc_all s xs)
  else ∃ e, declare_seq s xs = Err e.
Proof.
  revert s D. induction xs as [|x xs IH]; intros s D Hl; cbn [declare_seq alloc_all].
  - by rewrite bool_decide_eq_true_2 by (split; constructor).
  - pose proof Hl as (_ & Hdec & _). unfold declareAndAlloc. rewrite Hdec. destruct (decide (x ∈ D)) as [HxD|HxD].
    + rewrite (bool_decide_eq_true_2 (x ∈ D)) by done. rewrite bool_decide_eq_false_2; [by eexists|]. by intros [_ [? _]%Forall_cons].
    + rewrite (bool_decide_eq_false_2 (x ∈ D)) by done. cbn [mbind outcome_bind]. fold (alloc s x). specialize (IH (alloc s x) (D ++ [x]) (layout_alloc _ _ _ Hl HxD)).
      rewrite (bool_decide_ext _ (NoDup xs ∧ Forall (λ y, y ∉ D ++ [x]) xs)); [exact IH|].
      rewrite NoDup_cons, Forall_cons, !Forall_forall. setoid_rewrite not_elem_of_app.
      setoid_rewrite list_elem_of_singleton. naive_solver.
Qed.

(** Declaring a list of variables succeeds exactly when no name comes twice;
    then the [i]-th has the slot -8(i+1), so that the slots are distinct, and any
    other name is reported as undeclared. *)
Theorem declarations_slots xs :
  if bool_decide (NoDup xs) then
    ∃ s, declare_seq newCompilerState xs = Ok s ∧
      (∀ i x, xs !! i = Some x → getStackOffset s x = Ok (-8 * (Z.of_nat i + 1))) ∧
      (∀ x, x ∉ xs → ∃ e, getStackOffset s x = Err e)
  else ∃ e, declare_seq newCompilerState xs = Err e.
Proof.
  pose proof (declare_seq_spec newCompilerState [] xs layout_new) as H.
  rewrite (bool_decide_ext _ (NoDup xs)) in H.
  2: { split; [by intros [? _]|]. intros Hn. split; [done|]. apply Forall_forall. intros; apply not_elem_of_nil. }
  case_bool_decide as Hnd; [|exact H].
  pose proof (layout_alloc_all newCompilerState [] xs layout_new Hnd ltac:(intros; apply not_elem_of_nil)) as (_ & Hd & Ho).
  cbn [app] in *. eexists. split; [exact H|]. unfold getStackOffset. split.
  - intros i x Hi. rewrite Hd, bool_decide_eq_true_2 by (by eapply list_elem_of_lookup_2). cbn [negb].
    f_equal. by apply Ho.
  - intros x Hx. rewrite Hd, bool_decide_eq_false_2 by done. by eexists.
Qed.

(** ** The print loop *)
Definition print_loop : bytes :=
  [0x89; 0x02] ++ [0x48; 0x83; 0xC2; 0x02] ++ [0x48; 0xFF; 0xC6] ++ [0x48; 0xFF; 0xC9] ++ [0x0F; 0x85] ++
  le_bytes 4 (i32 (-23)).

(** The code of a bare-metal print: the header, whose address computation
    (27 bytes in, displacement 25) points at the text; the loop, whose jump goes
    back the 23 bytes to its start; the jump over the text, and the text with
    its escapes replaced. That last jump lands behind the text exactly when the
    text is shorter than 128 bytes. *)
Theorem emitBareMetalPrint_layout out str :
  let text := parseStringLiteral str in
  let before := print_header (Zlen text) 25 ++ print_loop ++ [0xEB; u8 (Zlen text)] in
  emitBareMetalPrint out str = Ok (out ++ before ++ text) ∧ Zlen before = 27 + 25 ∧
  Zlen (print_header (Zlen text) 25 ++ print_loop) - 23 = 27 ∧
  (swrap 8 (u8 (Zlen text)) = Zlen text ↔ Zlen text < 128).
Proof.
  intros text before.
  assert (Hh : length (print_header (Zlen text) 25) = 32%nat) by (unfold print_header; by rewrite !length_app, !length_le_bytes).
  split; [|split; [|split]].
  - unfold emitBareMetalPrint, appendBareMetalPrintHeader. fold text. cbn [length Nat.ltb Nat.leb].
    rewrite writeHeader_eq by done. cbn [mbind outcome_bind]. rewrite <- (app_assoc out).
    set (h := print_header _ _) in *.
    set (hole := [0x89; 0x02] ++ _).
    assert (Hd : i32 (Z.of_nat (length out + 27) - (Z.of_nat (length (out ++ h ++ hole) - 4) + 4)) = i32 (-23)).
    { f_equal. rewrite !length_app, Hh. change (length hole) with 18%nat. lia. }
    rewrite Hd.
    assert (Hp : patch (out ++ h ++ hole) (length (out ++ h ++ hole) - 4) (le_bytes 4 (i32 (-23))) = Ok (out ++ h ++ print_loop)).
    { replace (out ++ h ++ hole) with ((out ++ h ++ take 14 hole) ++ [0; 0; 0; 0] ++ []) by (by rewrite <- !app_assoc).
      replace (length _ - 4)%nat with (length (out ++ h ++ take 14 hole)) by (rewrite !length_app; cbn [length]; lia).
      rewrite patch_mid by (by rewrite length_le_bytes). rewrite app_nil_r, <- !app_assoc. done. }
    rewrite Hp. cbn [mbind outcome_bind]. unfold before. fold h. by rewrite <- !app_assoc.
  - unfold before. rewrite !length_app, Hh. unfold print_loop. rewrite !length_app, length_le_bytes. done.
  - rewrite length_app, Hh. unfold print_loop. rewrite !length_app, length_le_bytes. done.
  - rewrite swrap_wrap by lia. split; [|intros; apply swrap_small; lia].
    pose proof (swrap_range 8 (Zlen text) ltac:(lia)). lia.
Qed.
