(* ===== verification/GoStrings.v ===== *)
(** * The Go standard library as the components use it

    strings, strconv and path/filepath (as on Unix), over byte lists. *)
From stdpp Require Import list sorting.
From S2P Require Import Prelude.

(** ** Prefixes and joining *)

(** What follows the prefix [p] of [s]. *)
Fixpoint cut_prefix (p s : bytes) : option bytes :=
  match p, s with
  | [], _ => Some s
  | a :: p', b :: s' => if a =? b then cut_prefix p' s' else None
  | _ :: _, [] => None
  end.

Definition HasPrefix (s p : bytes) : bool := match cut_prefix p s with Some _ => true | None => false end.
Definition HasSuffix (s p : bytes) : bool := HasPrefix (rev s) (rev p).
Definition TrimPrefix (s p : bytes) : bytes := match cut_prefix p s with Some r => r | None => s end.
Definition TrimSuffix (s p : bytes) : bytes := if HasSuffix s p then take (length s - length p) s else s.

Fixpoint strings_Join (l : list bytes) (sep : bytes) : bytes :=
  match l with
  | [] => []
  | [x] => x
  | x :: r => x ++ sep ++ strings_Join r sep
  end.

(** [strings.Contains(s, p)]. *)
Fixpoint contains_bytes (p s : bytes) : bool :=
  HasPrefix s p || match s with [] => false | _ :: r => contains_bytes p r end.

(** [strings.ReplaceAll] of a non-empty [old]. *)
Fixpoint replace_from (skip : nat) (old new s : bytes) : bytes :=
  match s with
  | [] => []
  | c :: r =>
      match skip with
      | S k => replace_from k old new r
      | O => if HasPrefix s old then new ++ replace_from (length old - 1) old new r
             else c :: replace_from 0 old new r
      end
  end.

(** strings.Split by a one-byte separator. *)
Fixpoint split_byte (sep : Z) (s : bytes) : list bytes :=
  match s with
  | [] => [[]]
  | c :: r =>
      if c =? sep then [] :: split_byte sep r
      else match split_byte sep r with
           | l :: ls => (c :: l) :: ls
           | [] => [[c]]
           end
  end.

Lemma cut_prefix_Some p s r : cut_prefix p s = Some r ↔ s = p ++ r.
Proof.
  revert s. induction p as [|a p IH]; intros [|b s]; cbn; try naive_solver.
  destruct (Z.eqb_spec a b) as [<-|Hn]; [rewrite IH|]; naive_solver.
Qed.

Lemma cut_prefix_app p s : cut_prefix p (p ++ s) = Some s.
Proof. by apply cut_prefix_Some. Qed.

Lemma HasPrefix_true s p : HasPrefix s p = true ↔ ∃ r, s = p ++ r.
Proof.
  unfold HasPrefix. destruct (cut_prefix p s) as [r|] eqn:E.
  - apply cut_prefix_Some in E. split; [by exists r|done].
  - split; [done|]. intros [r Hr]. apply cut_prefix_Some in Hr. congruence.
Qed.

Lemma HasPrefix_app s p : HasPrefix (p ++ s) p = true.
Proof. apply HasPrefix_true. by exists s. Qed.

Lemma contains_true p s : contains_bytes p s = true ↔ ∃ a b, s = a ++ p ++ b.
Proof.
  induction s as [|c s IH]; cbn [contains_bytes]; rewrite orb_true_iff, HasPrefix_true.
  - split; [intros [[r H] | H]; [by exists [], r|done] | intros (a & b & H)].
    left. exists b. destruct a; [done|discriminate].
  - rewrite IH. split.
    + intros [[r H] | (a & b & H)]; [by exists [], r|exists (c :: a), b; by subst].
    + intros ([|x a] & b & H); [left; by exists b|right; exists a, b; by simplify_list_eq].
Qed.

Lemma contains_false p s : contains_bytes p s = false ↔ ∀ a b, s ≠ a ++ p ++ b.
Proof.
  rewrite <- not_true_iff_false, contains_true. naive_solver.
Qed.

Lemma contains_prefix p s t : contains_bytes p (s ++ t) = false → contains_bytes p s = false.
Proof.
  rewrite !contains_false. intros H a b Hs. apply (H a (b ++ t)). rewrite Hs. by rewrite <- !(assoc_L (++)).
Qed.

Lemma replace_from_skip k old new w t : length w = k → replace_from k old new (w ++ t) = replace_from 0 old new t.
Proof. revert k. induction w as [|x w IH]; intros [|k] H; try discriminate; cbn; [done|apply IH; by injection H]. Qed.

Lemma replace_from_here old new t : old ≠ [] →
  replace_from 0 old new (old ++ t) = new ++ replace_from 0 old new t.
Proof.
  intros Ho. destruct old as [|c w]; [done|]. cbn [app replace_from].
  change (c :: w ++ t) with ((c :: w) ++ t). rewrite HasPrefix_app. f_equal.
  apply replace_from_skip. cbn. lia.
Qed.

Lemma TrimPrefix_app s p : TrimPrefix (p ++ s) p = s.
Proof. unfold TrimPrefix. by rewrite cut_prefix_app. Qed.

Lemma split_byte_nonempty sep s : split_byte sep s ≠ [].
Proof. destruct s as [|c r]; cbn; [done|]. destruct (c =? sep); [done|]. by destruct (split_byte sep r). Qed.

Lemma split_byte_word sep w :
  sep ∉ w → split_byte sep w = [w].
Proof.
  induction w as [|c w IH]; intros Hw; [done|]. apply not_elem_of_cons in Hw as [Hc Hw].
  cbn. rewrite (proj2 (Z.eqb_neq c sep)) by congruence. by rewrite IH.
Qed.

Lemma split_byte_app sep w s :
  sep ∉ w → split_byte sep (w ++ sep :: s) = w :: split_byte sep s.
Proof.
  induction w as [|c w IH]; intros Hw; cbn.
  - by rewrite Z.eqb_refl.
  - apply not_elem_of_cons in Hw as [Hc Hw].
    rewrite (proj2 (Z.eqb_neq c sep)) by congruence. by rewrite IH.
Qed.

Lemma split_byte_parts sep s : Forall (λ w, sep ∉ w) (split_byte sep s).
Proof.
  induction s as [|c r IH]; cbn; [repeat constructor; apply not_elem_of_nil|].
  destruct (Z.eqb_spec c sep); [constructor; [apply not_elem_of_nil|done]|].
  destruct (split_byte sep r) as [|l ls]; [repeat constructor; set_solver|].
  apply Forall_cons in IH as [Hl Hls]. constructor; [|done]. apply not_elem_of_cons. split; [congruence|done].
Qed.

Lemma join_split_byte sep s : strings_Join (split_byte sep s) [sep] = s.
Proof.
  induction s as [|c r IH]; [done|]. cbn [split_byte].
  destruct (Z.eqb_spec c sep) as [->|Hn].
  - pose proof (split_byte_nonempty sep r) as Hne. rewrite <- IH at 2. by destruct (split_byte sep r).
  - destruct (split_byte sep r) as [|l ls] eqn:E; [by apply split_byte_nonempty in E|].
    rewrite <- IH. by destruct ls.
Qed.

(** ** White space (unicode.IsSpace) *)

(** The length of the white-space character [s] begins with, 0 if it begins
    with none. *)
Definition space_len (s : bytes) : nat :=
  match s with
  | [] => 0%nat
  | c :: r =>
      if ((9 <=? c) && (c <=? 13)) || (c =? 32) then 1%nat
      else match r with
      | [] => 0%nat
      | d :: r' =>
          if (c =? 0xC2) && ((d =? 0x85) || (d =? 0xA0)) then 2%nat
          else match r' with
          | [] => 0%nat
          | e :: _ =>
              if ((c =? 0xE1) && (d =? 0x9A) && (e =? 0x80))
                 || ((c =? 0xE2) && (d =? 0x80) && (((0x80 <=? e) && (e <=? 0x8A)) || (e =? 0xA8) || (e =? 0xA9) || (e =? 0xAF)))
                 || ((c =? 0xE2) && (d =? 0x81) && (e =? 0x9F))
                 || ((c =? 0xE3) && (d =? 0x80) && (e =? 0x80))
              then 3%nat else 0%nat
          end
      end
  end.

(** strings.Fields; [skip] bytes of the current white-space character are left. *)
Fixpoint fields_from (skip : nat) (cur s : bytes) : list bytes :=
  let flush := if nilb cur then [] else [cur] in
  match s with
  | [] => flush
  | c :: r =>
      match skip with
      | S k => fields_from k cur r
      | O => match space_len s with
             | O => fields_from 0 (cur ++ [c]) r
             | S k => flush ++ fields_from k [] r
             end
      end
  end.

Definition Fields (s : bytes) : list bytes := fields_from 0 [] s.

Fixpoint trim_left (skip : nat) (s : bytes) : bytes :=
  match s with
  | [] => []
  | c :: r =>
      match skip with
      | S k => trim_left k r
      | O => match space_len s with O => s | S k => trim_left k r end
      end
  end.

(** Without the longest suffix that is all white space. *)
Fixpoint trim_right (s : bytes) : bytes :=
  match s with
  | [] => []
  | c :: r => if nilb (trim_left 0 s) then [] else c :: trim_right r
  end.

Definition TrimSpace (s : bytes) : bytes := trim_right (trim_left 0 s).

(** strings.Trim with an ASCII cutset. *)
Definition strings_Trim (s cutset : bytes) : bytes :=
  let inset c := bool_decide (c ∈ cutset) in
  drop_while_end inset (drop_while inset s).

(** ** Printable words *)
Definition graphic (c : Z) : Prop := 33 ≤ c ≤ 126.
#[export] Instance graphic_dec c : Decision (graphic c).
Proof. unfold graphic. apply _. Defined.

(** A non-empty word of printable ASCII characters. *)
Definition word (w : bytes) : Prop := w ≠ [] ∧ Forall graphic w.
#[export] Instance word_dec w : Decision (word w).
Proof. unfold word. apply _. Defined.

Lemma space_len_graphic c s : graphic c → space_len (c :: s) = 0%nat.
Proof.
  unfold graphic. intros Hc. unfold space_len.
  repeat match goal with |- context [if ?b then _ else _] => replace b with false by lia end.
  destruct s as [|d [|e s]]; try done.
  - by replace ((c =? 0xC2) && ((d =? 0x85) || (d =? 0xA0))) with false by lia.
  - repeat match goal with |- context [if ?b then _ else _] => replace b with false by lia end. done.
Qed.

Lemma fields_from_graphic cur w s :
  Forall graphic w → fields_from 0 cur (w ++ s) = fields_from 0 (cur ++ w) s.
Proof.
  intros Hw. revert cur. induction Hw as [|c w Hc Hw IH]; intros cur; [by rewrite app_nil_r|].
  rewrite <- app_comm_cons. cbn [fields_from]. rewrite space_len_graphic by done. rewrite IH.
  by rewrite <- (assoc (++)).
Qed.

Lemma fields_from_space cur s : fields_from 0 cur (32 :: s) = (if nilb cur then [] else [cur]) ++ fields_from 0 [] s.
Proof. done. Qed.

(** Fields inverts joining words by spaces. *)
Lemma Fields_Join ws : Forall word ws → Fields (strings_Join ws [32]) = ws.
Proof.
  unfold Fields. induction 1 as [|w ws [Hne Hw] Hws IH]; [done|]. destruct ws as [|w2 ws].
  - cbn [strings_Join]. rewrite <- (app_nil_r w) at 1. rewrite fields_from_graphic by done. cbn. by destruct w.
  - change (strings_Join (w :: w2 :: ws) [32]) with (w ++ 32 :: strings_Join (w2 :: ws) [32]).
    rewrite fields_from_graphic by done. rewrite fields_from_space, IH. cbn. by destruct w.
Qed.

Lemma trim_left_graphic c s : graphic c → trim_left 0 (c :: s) = c :: s.
Proof. intros. cbn [trim_left]. by rewrite space_len_graphic. Qed.

Lemma space_len_app_graphic t c :
  graphic c → t ≠ [] → (space_len (t ++ [c]) ≤ length t)%nat.
Proof.
  intros Hc Ht. unfold space_len. destruct t as [|x [|y [|z t]]]; [done|..]; cbn [app length];
    repeat (case_match; try lia); unfold graphic in *; lia.
Qed.

Lemma trim_left_app_graphic t c k :
  graphic c → (k ≤ length t)%nat → trim_left k (t ++ [c]) ≠ [].
Proof.
  intros Hc. revert k. induction t as [|x t IH]; intros k Hk; cbn [length] in Hk.
  - replace k with 0%nat by lia. cbn [app]. by rewrite trim_left_graphic.
  - cbn [app trim_left]. destruct k as [|k]; [|apply IH; lia].
    pose proof (space_len_app_graphic (x :: t) c Hc ltac:(done)) as H. cbn [app length] in H.
    destruct (space_len (x :: t ++ [c])) as [|k]; [done|]. apply IH. lia.
Qed.

Lemma trim_right_last s c : graphic c → trim_right (s ++ [c]) = s ++ [c].
Proof.
  intros Hc. induction s as [|d s IH]; cbn [app trim_right].
  - by rewrite trim_left_graphic.
  - rewrite IH. pose proof (trim_left_app_graphic (d :: s) c 0 Hc ltac:(lia)) as H. cbn [app] in H.
    by destruct (trim_left 0 (d :: s ++ [c])).
Qed.

(** A line with printable first and last character. *)
Definition trimmed (s : bytes) : Prop :=
  match head s, last s with Some a, Some b => graphic a ∧ graphic b | _, _ => True end.
#[export] Instance trimmed_dec s : Decision (trimmed s).
Proof. unfold trimmed. destruct (head s), (last s); apply _. Defined.

Lemma TrimSpace_trimmed s : trimmed s → TrimSpace s = s.
Proof.
  unfold trimmed, TrimSpace. destruct s as [|c r]; [done|]. cbn [head].
  destruct (last (c :: r)) as [b|] eqn:E; [|by apply last_None in E].
  intros [Ha Hb]. rewrite trim_left_graphic by done. apply last_Some in E as [l ->]. by apply trim_right_last.
Qed.

Lemma word_trimmed w : word w → trimmed w.
Proof.
  intros [Hne Hw]. unfold trimmed. destruct (head w) eqn:Eh, (last w) eqn:El; try done.
  destruct w as [|c r]; [done|]. injection Eh as ->. split.
  - by apply Forall_cons in Hw as [? _].
  - apply last_Some in El as [l El]. rewrite El in Hw. apply Forall_app in Hw as [_ Hw]. by inversion Hw.
Qed.

(** A [w]-joined line starts and ends with printable characters. *)
Lemma join_trimmed ws : Forall word ws → trimmed (strings_Join ws [32]).
Proof.
  intros H. destruct ws as [|w ws]; [done|]. assert (head (strings_Join (w :: ws) [32]) = head w) as Hh.
  { apply Forall_cons in H as [[Hne _] _]. by destruct w, ws. }
  assert (∀ a, last (strings_Join (w :: ws) [32]) = Some a → graphic a) as Hl.
  { clear Hh. revert w H. induction ws as [|w2 ws IH]; intros w [Hw Hws]%Forall_cons a Ha.
    - pose proof (word_trimmed w Hw) as Ht. unfold trimmed in Ht. cbn in Ha. rewrite Ha in Ht.
      destruct w; [done|]. by destruct Ht.
    - apply (IH w2 Hws). change (strings_Join (w :: w2 :: ws) [32]) with (w ++ [32] ++ strings_Join (w2 :: ws) [32]) in Ha.
      rewrite !last_app in Ha. destruct (last (strings_Join (w2 :: ws) [32])) eqn:E; [done|].
      apply last_None in E. apply Forall_cons in Hws as [[Hne _] _]. by destruct w2, ws. }
  unfold trimmed. rewrite Hh. destruct (head w) eqn:Eh; [|done]. destruct (last _) eqn:El; [|done].
  split; [|by apply Hl]. apply Forall_cons in H as [[_ Hg] _]. destruct w; [done|]. injection Eh as ->.
  by apply Forall_cons in Hg as [? _].
Qed.

(** ** Trimming twice *)

(** The first character of [s], when it is white space, whatever follows. *)
Lemma space_len_char s k : space_len s = S k →
  ∃ w r, s = w ++ r ∧ length w = S k ∧ (∀ r', space_len (w ++ r') = S k) ∧ Forall (λ x, 0x80 ≤ x ≤ 0xBF) (tail w).
Proof.
  unfold space_len. intros H. destruct s as [|c s]; [done|].
  destruct (((9 <=? c) && (c <=? 13)) || (c =? 32)) eqn:E1.
  { injection H as <-. exists [c], s. split_and!; [done..| |constructor]. intros r'. cbn. by rewrite E1. }
  destruct s as [|d s]; [done|]. destruct ((c =? 0xC2) && ((d =? 0x85) || (d =? 0xA0))) eqn:E2.
  { injection H as <-. exists [c; d], s. split_and!; [done..| |constructor; [lia|constructor]]. intros r'. cbn. by rewrite E1, E2. }
  destruct s as [|e s]; [done|]. match type of H with (if ?b then _ else _) = _ => destruct b eqn:E3; [|done] end.
  injection H as <-. exists [c; d; e], s. split_and!; [done..| |].
  - intros r'. cbn [app]. rewrite E1, E2. by rewrite E3.
  - cbn [tail]. repeat constructor; lia.
Qed.

Lemma space_len_prefix s t : space_len s ≠ 0%nat → space_len (s ++ t) = space_len s.
Proof.
  destruct (space_len s) as [|k] eqn:E; [done|]. intros _.
  apply space_len_char in E as (w & r & -> & _ & H & _). rewrite <- app_assoc. apply H.
Qed.

Lemma space_len_cont x r : 0x80 ≤ x ≤ 0xBF → space_len (x :: r) = 0%nat.
Proof.
  intros Hx. unfold space_len. repeat match goal with |- context [if ?b then _ else _] => replace b with false by lia end.
  destruct r as [|d [|e r]]; try done; repeat match goal with |- context [if ?b then _ else _] => replace b with false by lia end; done.
Qed.

Lemma trim_left_skip w r k : length w = k → trim_left k (w ++ r) = trim_left 0 r.
Proof. intros <-. induction w as [|x w IH]; [done|]. cbn. apply IH. Qed.

Lemma trim_left_char s k : space_len s = S k →
  ∃ w r, s = w ++ r ∧ length w = S k ∧ (∀ r', trim_left 0 (w ++ r') = trim_left 0 r') ∧ (∀ r', trim_right (tail w ++ r') = tail w ++ trim_right r').
Proof.
  intros H. apply space_len_char in H as (w & r & -> & Hl & Hw & Hc). exists w, r. split_and!; [done..| |].
  - intros r'. destruct w as [|x w]; [done|]. pose proof (Hw r') as Hr. cbn [app trim_left] in *. rewrite Hr.
    apply trim_left_skip. by injection Hl.
  - intros r'. clear Hl Hw. induction Hc as [|x w' Hx Hw IH]; [done|]. cbn [app trim_right trim_left].
    rewrite space_len_cont by done. cbn. by rewrite IH.
Qed.

Lemma trim_right_prefix s : ∃ t, s = trim_right s ++ t.
Proof.
  induction s as [|c r [t IH]]; [by exists []|]. cbn [trim_right]. destruct (nilb _); [by eexists|].
  exists t. cbn. by f_equal.
Qed.

Lemma trim_left_stop s : s ≠ [] → space_len s = 0%nat → trim_left 0 s = s.
Proof. destruct s; [done|]. intros _ H. cbn [trim_left]. by rewrite H. Qed.

Lemma trim_right_cons c r : trim_left 0 (c :: r) ≠ [] → trim_right (c :: r) = c :: trim_right r.
Proof. intros H. cbn [trim_right]. by destruct (trim_left 0 (c :: r)). Qed.

Lemma space_len_trim_right s : space_len s = 0%nat → space_len (trim_right s) = 0%nat.
Proof.
  intros H. destruct (trim_right_prefix s) as [t Ht]. destruct (space_len (trim_right s)) as [|k] eqn:E; [done|].
  rewrite Ht, space_len_prefix in H; congruence.
Qed.

Lemma trim_right_keeps s : trim_left 0 s ≠ [] → trim_left 0 (trim_right s) ≠ [].
Proof.
  induction s as [s IH] using (induction_ltof1 _ (@length Z)). unfold ltof in IH. intros H.
  destruct s as [|c r]; [done|]. destruct (space_len (c :: r)) as [|k] eqn:E.
  - apply space_len_trim_right in E. rewrite trim_right_cons in * by done. by rewrite trim_left_stop.
  - apply trim_left_char in E as (w & r' & Hs & Hl & Hw & Ht). destruct w as [|x w]; [done|]. injection Hs as <- ->.
    rewrite trim_right_cons by done. cbn [tail] in Ht. rewrite Ht. change (c :: w ++ trim_right r') with ((c :: w) ++ trim_right r').
    rewrite Hw. apply IH; [cbn; rewrite length_app; lia|]. by rewrite <- (Hw r').
Qed.

Lemma trim_right_idem s : trim_right (trim_right s) = trim_right s.
Proof.
  induction s as [|c r IH]; [done|]. destruct (decide (trim_left 0 (c :: r) = [])) as [E|E].
  - cbn [trim_right]. by rewrite E.
  - pose proof (trim_right_keeps _ E) as H. rewrite trim_right_cons in * by done. rewrite trim_right_cons by done. by rewrite IH.
Qed.

Lemma trim_left_space k s : trim_left k s = [] ∨ space_len (trim_left k s) = 0%nat.
Proof.
  revert k. induction s as [|c r IH]; intros k; [by left|]. cbn [trim_left]. destruct k as [|k]; [|apply IH].
  destruct (space_len (c :: r)) eqn:E; [by right|]. apply IH.
Qed.

Lemma TrimSpace_idem s : TrimSpace (TrimSpace s) = TrimSpace s.
Proof.
  unfold TrimSpace at 1. destruct (trim_left_space 0 s) as [E|E]; unfold TrimSpace; [by rewrite E|].
  destruct (decide (trim_right (trim_left 0 s) = [])) as [->|Hne]; [done|].
  rewrite (trim_left_stop (trim_right _)) by auto using space_len_trim_right. apply trim_right_idem.
Qed.

(** ** strconv.Atoi and Itoa *)
Definition is_digit (c : Z) : bool := (48 <=? c) && (c <=? 57).

(** ParseUint in base ten: the value and whether the error is nil; a number
    that does not fit gives the largest one. *)
Fixpoint uint_loop (n : Z) (s : bytes) : Z * bool :=
  match s with
  | [] => (n, true)
  | c :: r =>
      if is_digit c then
        let n1 := n * 10 + (c - 48) in
        if max_uint64 <? n1 then (max_uint64, false) else uint_loop n1 r
      else (0, false)
  end.

(** The value and whether the error is nil; a magnitude out of the range of
    [int] gives the nearest [int]. *)
Definition Atoi (s : bytes) : Z * bool :=
  let '(neg, r) := match s with
                   | 43 :: r => (false, r)
                   | 45 :: r => (true, r)
                   | _ => (false, s)
                   end in
  if nilb r then (0, false)
  else let '(un, ok) := uint_loop 0 r in
       if negb ok && (un =? 0) then (0, false)
       else if negb neg && (2 ^ 63 <=? un) then (2 ^ 63 - 1, false)
       else if neg && (2 ^ 63 <? un) then (- 2 ^ 63, false)
       else (if neg then - un else un, true).

Fixpoint digits_of (fuel : nat) (n : Z) (acc : bytes) : bytes :=
  if n <? 10 then (48 + n) :: acc
  else match fuel with
       | O => acc
       | S k => digits_of k (n / 10) ((48 + n mod 10) :: acc)
       end.

(** The decimal digits of a number in [0, 10^20). *)
Definition Itoa (n : Z) : bytes := digits_of 19 n [].

Lemma uint_loop_digits fuel n acc :
  0 ≤ n < 10 ^ (Z.of_nat fuel + 1) → n ≤ max_uint64 →
  uint_loop 0 (digits_of fuel n acc) = uint_loop n acc.
Proof.
  revert n acc. induction fuel as [|k IH]; intros n acc Hn Hm; cbn [digits_of].
  - change (10 ^ (Z.of_nat 0 + 1)) with 10 in Hn. rewrite (proj2 (Z.ltb_lt n 10)) by lia.
    cbn [uint_loop]. unfold is_digit. replace (_ && _) with true by lia.
    replace (0 * 10 + (48 + n - 48)) with n by lia. by rewrite (proj2 (Z.ltb_ge _ _)) by lia.
  - destruct (Z.ltb_spec n 10).
    + cbn [uint_loop]. unfold is_digit. replace (_ && _) with true by lia.
      replace (0 * 10 + (48 + n - 48)) with n by lia. by rewrite (proj2 (Z.ltb_ge _ _)) by lia.
    + replace (Z.of_nat (S k) + 1) with (Z.succ (Z.of_nat k + 1)) in Hn by lia.
      rewrite Z.pow_succ_r in Hn by lia.
      assert (0 ≤ n / 10 ≤ n) by (split; [apply Z.div_pos | apply Z.div_le_upper_bound]; lia).
      rewrite IH; [|split; [lia|apply Z.div_lt_upper_bound; lia]|lia].
      cbn [uint_loop]. unfold is_digit. pose proof (Z.mod_pos_bound n 10 ltac:(lia)). pose proof (Z.div_mod n 10 ltac:(lia)). replace (_ && _) with true by lia.
      replace (n / 10 * 10 + (48 + n mod 10 - 48)) with n by lia. by rewrite (proj2 (Z.ltb_ge _ _)) by lia.
Qed.

Lemma digits_of_digits fuel n acc :
  0 ≤ n → Forall (λ c, is_digit c = true) acc → Forall (λ c, is_digit c = true) (digits_of fuel n acc).
Proof.
  revert n acc. induction fuel as [|k IH]; intros n acc Hn Ha; cbn [digits_of]; destruct (Z.ltb_spec n 10);
    try (constructor; [unfold is_digit; lia|done]); [done|].
  pose proof (Z.mod_pos_bound n 10 ltac:(lia)). apply IH; [apply Z.div_pos; lia|]. constructor; [unfold is_digit; lia|done].
Qed.

Lemma digits_of_nonempty fuel n acc : (0 < fuel)%nat ∨ acc ≠ [] → digits_of fuel n acc ≠ [].
Proof.
  revert n acc. induction fuel as [|k IH]; intros n acc Ha; cbn [digits_of]; destruct (n <? 10); try done.
  - destruct Ha; [lia|done].
  - apply IH. by right.
Qed.

Lemma Itoa_digits n : 0 ≤ n → Itoa n ≠ [] ∧ Forall (λ c, is_digit c = true) (Itoa n).
Proof. intros. split; [apply digits_of_nonempty; lia | by apply digits_of_digits]. Qed.

Lemma Atoi_digits s : s ≠ [] → Forall (λ c, is_digit c = true) s →
  Atoi s = let '(un, ok) := uint_loop 0 s in
           if negb ok && (un =? 0) then (0, false) else if 2 ^ 63 <=? un then (2 ^ 63 - 1, false) else (un, true).
Proof.
  intros Hne Hd. destruct s as [|c r]; [done|]. apply Forall_cons in Hd as [Hc _]. unfold is_digit in Hc.
  unfold Atoi. assert (48 ≤ c ≤ 57) as Hc' by lia.
  destruct (decide (c = 43)), (decide (c = 45)); [lia..|].
  replace (match c with 43 => (false, r) | 45 => (true, r) | _ => (false, c :: r) end) with (false, c :: r).
  - done.
  - destruct c as [|p|p]; try lia. do 7 (destruct p as [p|p|]; try lia; try done).
Qed.

Lemma Atoi_Itoa n : 0 ≤ n < 2 ^ 63 → Atoi (Itoa n) = (n, true).
Proof.
  intros Hn. destruct (Itoa_digits n ltac:(lia)) as [Hne Hd]. rewrite Atoi_digits by done.
  unfold Itoa. rewrite uint_loop_digits by (unfold max_uint64; lia). cbn [uint_loop negb andb].
  by rewrite (proj2 (Z.leb_gt _ _)) by lia.
Qed.

(** ** Order: strings are compared bytewise *)
Fixpoint bytes_leb (a b : bytes) : bool :=
  match a, b with
  | [], _ => true
  | _ :: _, [] => false
  | x :: a', y :: b' => (x <? y) || (x =? y) && bytes_leb a' b'
  end.

Definition bytes_le (a b : bytes) : Prop := Is_true (bytes_leb a b).

#[export] Instance bytes_le_dec : RelDecision bytes_le.
Proof. intros a b. apply _. Defined.

Lemma bytes_le_cons x a y b : bytes_le (x :: a) (y :: b) ↔ x < y ∨ x = y ∧ bytes_le a b.
Proof.
  unfold bytes_le. cbn. rewrite orb_True, andb_True.
  by rewrite (Is_true_true (x <? y)), (Is_true_true (x =? y)), Z.ltb_lt, Z.eqb_eq.
Qed.

#[export] Instance bytes_le_trans : Transitive bytes_le.
Proof.
  intros a. induction a as [|x a IH]; intros [|y b] [|z c]; try done.
  rewrite !bytes_le_cons. intros [?|[-> ?]] [?|[-> ?]]; [left; lia|left; lia|left; lia|right]. naive_solver.
Qed.

#[export] Instance bytes_le_total : Total bytes_le.
Proof.
  intros a. induction a as [|x a IH]; intros [|y b]; [by left|by left|by right|].
  rewrite !bytes_le_cons. destruct (IH b), (Z.lt_trichotomy x y) as [?|[?|?]]; naive_solver.
Qed.

#[export] Instance bytes_le_antisymm : AntiSymm (=) bytes_le.
Proof.
  intros a. induction a as [|x a IH]; intros [|y b]; try done.
  rewrite !bytes_le_cons. intros [?|[-> ?]] [?|[E ?]]; try lia. f_equal. by apply IH.
Qed.

(** [sort.Strings]. *)
Definition sort_Strings (l : list bytes) : list bytes := merge_sort bytes_le l.

Lemma sort_Strings_perm l l' : l ≡ₚ l' → sort_Strings l = sort_Strings l'.
Proof.
  intros H. apply (Sorted_unique bytes_le); try apply (Sorted_merge_sort _).
  unfold sort_Strings. by rewrite !(merge_sort_Permutation bytes_le), H.
Qed.
