(* ===== verification/GoPath.v ===== *)
(** * path/filepath on Unix, over byte lists

    Clean, Join, Dir, IsAbs and Abs as documented, and the shape of clean
    paths. *)
From stdpp Require Import list.
From S2P Require Import Prelude GoStrings.

Definition slash : Z := 47.
Definition dot : bytes := bs ".".
Definition dotdot : bytes := bs "..".

(** The parts that are kept, the last one first: empty parts and dots go,
    a double dot removes the part before it, or goes at the root. *)
Fixpoint clean_parts (rooted : bool) (kept parts : list bytes) : list bytes :=
  match parts with
  | [] => kept
  | p :: r =>
      if nilb p || bool_decide (p = dot) then clean_parts rooted kept r
      else if bool_decide (p = dotdot) then
        match kept with
        | q :: kept' => clean_parts rooted (if bool_decide (q = dotdot) then p :: kept else kept') r
        | [] => clean_parts rooted (if rooted then [] else [p]) r
        end
      else clean_parts rooted (p :: kept) r
  end.

Definition IsAbs (path : bytes) : bool := HasPrefix path [slash].

Definition Clean (path : bytes) : bytes :=
  let rooted := IsAbs path in
  let body := strings_Join (rev (clean_parts rooted [] (split_byte slash path))) [slash] in
  if rooted then slash :: body else if nilb body then dot else body.

Definition filepath_Join (a b : bytes) : bytes :=
  if nilb a then if nilb b then [] else Clean b
  else Clean (a ++ slash :: b).

(** Up to and with the last slash, cleaned. *)
Definition Dir (path : bytes) : bytes := Clean (drop_while_end (λ c, negb (c =? slash)) path).

(** filepath.Abs; [cwd] is the working directory, if it is known. *)
Definition Abs (cwd : option bytes) (path : bytes) : option bytes :=
  if IsAbs path then Some (Clean path) else (λ wd, filepath_Join wd path) <$> cwd.

Example clean1 : map Clean [bs "a/../../b//c/."; bs "/../a"; bs ""; bs "a/.."] = [bs "../b/c"; bs "/a"; bs "."; bs "."].
Proof. vm_compute. reflexivity. Qed.
Example dir1 : map Dir [bs "src/a.fzp"; bs "a"; bs "/x"] = [bs "src"; bs "."; bs "/"].
Proof. vm_compute. reflexivity. Qed.

(** ** Clean paths *)

(** A part that stays: not empty, without slash, not a dot. *)
Definition plain_part (p : bytes) : Prop := p ≠ [] ∧ p ≠ dot ∧ slash ∉ p.

(** The parts of a clean path: double dots only at the start of a relative one. *)
Definition normal (rooted : bool) (ps : list bytes) : Prop :=
  ∃ k qs, ps = replicate k dotdot ++ qs ∧ Forall (λ p, plain_part p ∧ p ≠ dotdot) qs ∧ (rooted = true → k = 0%nat).

Lemma clean_parts_normal rooted kept parts :
  normal rooted (rev kept) → Forall (λ p, slash ∉ p) parts → normal rooted (rev (clean_parts rooted kept parts)).
Proof.
  intros Hk Hp. revert kept Hk. induction Hp as [|p r Hp Hr IH]; intros kept Hk; [done|]. cbn [clean_parts].
  destruct (nilb p) eqn:En; [by apply IH|]. cbn [orb]. case_bool_decide as Hd; [by apply IH|].
  destruct Hk as (k & qs & Hkq & Hqs & Hroot).
  case_bool_decide as Hdd; [subst p|].
  - destruct kept as [|q kept].
    + apply IH. destruct rooted; [by exists 0%nat, []|]. by exists 1%nat, [].
    + cbn [rev] in Hkq. case_bool_decide as Hq; apply IH.
      * subst q. assert (qs = []) as ->.
        { destruct qs as [|x qs] using rev_ind; [done|]. rewrite (assoc (++)) in Hkq. apply app_inj_2 in Hkq as [_ Hx]; [|done].
          injection Hx as <-. apply Forall_app in Hqs as [_ Hx]. apply Forall_cons in Hx as [[_ ?] _]. done. }
        destruct rooted; [rewrite (Hroot eq_refl) in Hkq; cbn in Hkq; by destruct (rev kept)|].
        rewrite app_nil_r in Hkq. exists (S k), []. rewrite app_nil_r. split; [|by split].
        cbn [rev]. rewrite Hkq. by rewrite replicate_S_end.
      * destruct qs as [|x qs _] using rev_ind.
        -- rewrite app_nil_r in Hkq. exfalso. apply Hq. destruct k as [|k]; [by destruct (rev kept)|].
           rewrite replicate_S_end in Hkq. by apply app_inj_2 in Hkq as [_ [= ->]].
        -- rewrite (assoc (++)) in Hkq. apply app_inj_2 in Hkq as [Hkq _]; [|done].
           apply Forall_app in Hqs as [Hqs _]. by exists k, qs.
  - apply IH. cbn [rev]. rewrite Hkq. exists k, (qs ++ [p]). rewrite (assoc (++)). split_and!; [done| |done].
    apply Forall_app. split; [done|]. constructor; [|done]. split; [|done]. split_and!; [by destruct p|done|done].
Qed.

Lemma clean_parts_keep rooted kept k qs :
  (rooted = true → k = 0%nat) → (k = 0%nat ∨ kept = replicate (length kept) dotdot) →
  Forall (λ p, plain_part p ∧ p ≠ dotdot) qs →
  clean_parts rooted kept (replicate k dotdot ++ qs) = rev qs ++ replicate k dotdot ++ kept.
Proof.
  intros Hr Hk Hqs. revert kept Hk. induction k as [|k IH]; intros kept Hk; cbn [replicate app].
  - clear Hk. revert kept. induction Hqs as [|q qs [(Hne & Hd & _) Hdd] _ IH]; intros kept; [done|]. cbn [clean_parts].
    destruct q as [|c q]; [done|]. cbn [nilb orb]. rewrite (bool_decide_eq_false_2 _ Hd), (bool_decide_eq_false_2 _ Hdd).
    rewrite IH. cbn [rev]. by rewrite <- (assoc (++)).
  - destruct rooted; [by specialize (Hr eq_refl)|]. destruct Hk as [?|Hk]; [done|].
    cbn [clean_parts]. cbn [nilb dotdot orb]. rewrite bool_decide_eq_false_2, bool_decide_eq_true_2 by done.
    assert (clean_parts false (dotdot :: kept) (replicate k dotdot ++ qs) = rev qs ++ replicate (S k) dotdot ++ kept) as H.
    { rewrite IH; [|done|right; cbn; by f_equal]. by rewrite replicate_S_end, <- (assoc (++)). }
    destruct kept as [|q kept]; [exact H|]. cbn in Hk. injection Hk as -> Hk. rewrite bool_decide_eq_true_2 by done. exact H.
Qed.

Lemma split_join ps : ps ≠ [] → Forall (λ p, slash ∉ p) ps → split_byte slash (strings_Join ps [slash]) = ps.
Proof.
  intros Hne H. induction H as [|p ps Hp Hps IH]; [done|]. destruct ps as [|q ps]; [by apply split_byte_word|].
  change (strings_Join (p :: q :: ps) [slash]) with (p ++ slash :: strings_Join (q :: ps) [slash]).
  rewrite split_byte_app by done. by rewrite IH.
Qed.

Lemma normal_plain rooted ps : normal rooted ps → Forall plain_part ps.
Proof.
  intros (k & qs & -> & Hqs & _). apply Forall_app. split.
  - apply Forall_replicate. unfold plain_part, dotdot, dot, slash. split_and!; [done..|]. set_solver.
  - eapply Forall_impl; [exact Hqs|]. by intros ? [? _].
Qed.

(** The parts of a cleaned path. *)
Lemma Clean_shape path :
  ∃ ps, normal (IsAbs path) ps ∧
    Clean path = (if IsAbs path then slash :: strings_Join ps [slash] else if nilb ps then dot else strings_Join ps [slash]).
Proof.
  exists (rev (clean_parts (IsAbs path) [] (split_byte slash path))). split.
  - apply clean_parts_normal; [by exists 0%nat, []|]. apply split_byte_parts.
  - unfold Clean. destruct (IsAbs path); [done|].
    assert (normal false (rev (clean_parts false [] (split_byte slash path)))) as Hn%normal_plain.
    { apply clean_parts_normal; [by exists 0%nat, []|]. apply split_byte_parts. }
    destruct (rev _) as [|p ps]; [done|]. cbn [nilb]. apply Forall_cons in Hn as [(Hp & _ & _) _].
    destruct p as [|c p]; [done|]. by destruct ps.
Qed.

Lemma Clean_abs path : IsAbs (Clean path) = IsAbs path.
Proof.
  destruct (Clean_shape path) as (ps & Hn & ->). destruct (IsAbs path); [done|]. destruct ps as [|p ps]; [done|]. cbn [nilb].
  apply normal_plain in Hn. apply Forall_cons in Hn as [(Hp & _ & Hs) _]. destruct p as [|c p]; [done|].
  apply not_elem_of_cons in Hs as [Hc _]. unfold IsAbs, HasPrefix.
  destruct ps; cbn [strings_Join app cut_prefix]; by rewrite (proj2 (Z.eqb_neq slash c)).
Qed.

Lemma Clean_idempotent path : Clean (Clean path) = Clean path.
Proof.
  pose proof (Clean_abs path) as Ha. destruct (Clean_shape path) as (ps & Hn & Hc).
  unfold Clean at 1. rewrite Ha. rewrite Hc. pose proof (normal_plain _ _ Hn) as Hp.
  assert (∀ ps', Forall plain_part ps' → Forall (λ p, slash ∉ p) ps') as Hsl.
  { intros ps' H. eapply Forall_impl; [exact H|]. by intros ? (_ & _ & ?). }
  destruct Hn as (k & qs & -> & Hqs & Hk). destruct (IsAbs path).
  - rewrite (Hk eq_refl) in *. cbn [replicate app] in *. cbn [split_byte]. change (slash =? slash) with true. cbn [clean_parts nilb orb].
    destruct qs as [|q qs]; [done|]. rewrite split_join by (done || by apply Hsl).
    change (q :: qs) with (replicate 0 dotdot ++ q :: qs) at 1.
    rewrite clean_parts_keep by (done || by left). by rewrite app_nil_r, rev_involutive.
  - destruct (replicate k dotdot ++ qs) as [|p ps] eqn:E; [done|]. cbn [nilb]. rewrite split_join by (done || by apply Hsl).
    rewrite <- E. rewrite (clean_parts_keep false [] k qs) by (done || by right). rewrite app_nil_r.
    rewrite rev_app_distr, rev_involutive. assert (rev (replicate k dotdot) = replicate k dotdot) as ->.
    { clear. induction k as [|k IH]; [done|]. cbn [replicate rev]. by rewrite IH, <- replicate_S_end. }
    rewrite E. apply Forall_cons in Hp as [(Hne & _) _]. destruct p as [|c p]; [done|]. by destruct ps.
Qed.

(** An absolute path of plain parts, none of them a double dot. *)
Definition rooted_path (a : bytes) : Prop :=
  ∃ ps, Forall (λ p, plain_part p ∧ p ≠ dotdot) ps ∧ a = slash :: strings_Join ps [slash].

Lemma Clean_rooted path : IsAbs path = true → rooted_path (Clean path).
Proof.
  intros Ha. destruct (Clean_shape path) as (ps & (k & qs & -> & Hqs & Hk) & ->). rewrite Ha in *.
  rewrite (Hk eq_refl). by exists qs.
Qed.

Lemma Abs_rooted cwd path a :
  (∀ wd, cwd = Some wd → IsAbs wd = true) → Abs cwd path = Some a → rooted_path a.
Proof.
  intros Hwd. unfold Abs. destruct (IsAbs path) eqn:E.
  - intros [= <-]. by apply Clean_rooted.
  - destruct cwd as [wd|]; [|done]. intros [= <-]. specialize (Hwd wd eq_refl). unfold filepath_Join.
    destruct wd as [|c wd]; [done|]. cbn [nilb]. apply Clean_rooted.
    revert Hwd. unfold IsAbs, HasPrefix. cbn [app cut_prefix]. by destruct (slash =? c).
Qed.
