(* ===== verification/FzpExpr.v ===== *)
(** * FZP: expressions of conditional directives (fzp/lexer.go)

    The tokenizer and the recursive-descent evaluator of #if and #elif. A
    cursor into a string or a token list is what is left of it. *)
From stdpp Require Import list gmap.
From S2P Require Import Prelude GoStrings.

(** ** Tokens *)
Inductive tok_type : Type := tokNumber | tokIdent | tokOp | tokEOF.

#[export] Instance tok_type_eq_dec : EqDecision tok_type.
Proof. solve_decision. Defined.

Record token : Type := mk_tok { typeID : tok_type; value : bytes }.

#[export] Instance token_eq_dec : EqDecision token.
Proof. solve_decision. Defined.

Definition is_blank_char (c : Z) : bool := (c =? 32) || (c =? 9) || (c =? 10) || (c =? 13).
Definition is_letter (c : Z) : bool :=
  ((ch "a" <=? c) && (c <=? ch "z")) || ((ch "A" <=? c) && (c <=? ch "Z")) || (c =? ch "_").
Definition is_ident_char (c : Z) : bool := is_letter c || is_digit c.
Definition is_single_op (c : Z) : bool :=
  (c =? ch "(") || (c =? ch ")") || (c =? ch "+") || (c =? ch "-") || (c =? ch "*") || (c =? ch "/") || (c =? ch "%").
Definition is_compare_char (c : Z) : bool := (c =? ch "!") || (c =? ch "=") || (c =? ch "<") || (c =? ch ">").

(** The operators that begin with !, =, < or >; the code also tests here for
    && and ||, which cannot begin so. *)
Definition compare_op (c : Z) (r : bytes) : token * bytes :=
  let ch2 := match r with d :: _ => d | [] => 0 end in
  let two := (mk_tok tokOp [c; ch2], drop 1 r) in
  if (c =? ch "!") && (ch2 =? ch "=") then two
  else if (c =? ch "=") && (ch2 =? ch "=") then two
  else if (c =? ch "<") && (ch2 =? ch "=") then two
  else if (c =? ch ">") && (ch2 =? ch "=") then two
  else if (c =? ch "&") && (ch2 =? ch "&") then two
  else if (c =? ch "|") && (ch2 =? ch "|") then two
  else (mk_tok tokOp [c], r).

Fixpoint next (s : bytes) : token * bytes :=
  match s with
  | [] => (mk_tok tokEOF [], [])
  | c :: r =>
      if is_blank_char c then next r
      else if is_digit c then let '(w, rest) := span is_digit s in (mk_tok tokNumber w, rest)
      else if is_letter c then let '(w, rest) := span is_ident_char s in (mk_tok tokIdent w, rest)
      else if is_single_op c then (mk_tok tokOp [c], r)
      else if is_compare_char c then compare_op c r
      else next r
  end.

Fixpoint all_tokens (fuel : nat) (s : bytes) : outcome (list token) :=
  match fuel with
  | O => Diverge
  | S n =>
      let '(t, r) := next s in
      if bool_decide (typeID t = tokEOF) then Ok [] else ts ← all_tokens n r; Ok (t :: ts)
  end.

(** The token list of a new parser. *)
Definition newParser (input : bytes) : outcome (list token) := all_tokens (S (length input)) input.

(** ** Evaluation *)
Record macro : Type := mk_macro { m_value : bytes; m_hasArgs : bool }.

Definition boolValue (b : bool) : Z := if b then 1 else 0.

(** Go's [/] and [%] on [int]: they truncate, and abort on zero. *)
Definition int_div (a b : Z) : outcome Z := if b =? 0 then Panic else Ok (i64 (Z.quot a b)).
Definition int_rem (a b : Z) : outcome Z := if b =? 0 then Panic else Ok (i64 (Z.rem a b)).

(** The operators of the loops of parseMul, parseAdd and parseCompare. *)
Definition mul_op (v : bytes) : option (Z → Z → outcome Z) :=
  if bool_decide (v = bs "*") then Some (λ a b, Ok (i64 (a * b)))
  else if bool_decide (v = bs "/") then Some int_div
  else if bool_decide (v = bs "%") then Some int_rem
  else None.

Definition add_op (v : bytes) : option (Z → Z → outcome Z) :=
  if bool_decide (v = bs "+") then Some (λ a b, Ok (i64 (a + b)))
  else if bool_decide (v = bs "-") then Some (λ a b, Ok (i64 (a - b)))
  else None.

Definition cmp_op (v : bytes) : option (Z → Z → outcome Z) :=
  if bool_decide (v = bs "==") then Some (λ a b, Ok (boolValue (a =? b)))
  else if bool_decide (v = bs "!=") then Some (λ a b, Ok (boolValue (negb (a =? b))))
  else if bool_decide (v = bs "<=") then Some (λ a b, Ok (boolValue (a <=? b)))
  else if bool_decide (v = bs ">=") then Some (λ a b, Ok (boolValue (b <=? a)))
  else if bool_decide (v = bs "<") then Some (λ a b, Ok (boolValue (a <? b)))
  else if bool_decide (v = bs ">") then Some (λ a b, Ok (boolValue (b <? a)))
  else None.

Abbreviation parse_fn := (list token → outcome (Z * list token)).

(** [for] the next token is an operator of the level: fold its right operand. *)
Fixpoint fold_ops (op : bytes → option (Z → Z → outcome Z)) (sub : parse_fn) (fuel : nat) (left : Z) (ts : list token)
    : outcome (Z * list token) :=
  match ts with
  | [] => Ok (left, [])
  | t :: r =>
      match op (value t) with
      | None => Ok (left, ts)
      | Some f =>
          match fuel with
          | O => Diverge
          | S n => '(x, ts') ← sub r; v ← f left x; fold_ops op sub n v ts'
          end
      end
  end.

Definition peekValue (v : bytes) (ts : list token) : bool :=
  match ts with t :: _ => bool_decide (value t = v) | [] => false end.

Section parser.
Context (macros : gmap bytes macro).

(** After the name [defined]. *)
Definition parse_defined (ts : list token) : Z * list token :=
  if negb (peekValue (bs "(") ts) then (0, ts) else
  let ts := drop 1 ts in
  match ts with
  | arg :: r =>
      if negb (bool_decide (typeID arg = tokIdent)) then (0, ts)
      else if peekValue (bs ")") r then (boolValue (bool_decide (is_Some (macros !! value arg))), drop 1 r)
      else (0, r)
  | [] => (0, ts)
  end.

Definition macro_value (name : bytes) : Z :=
  match macros !! name with
  | Some m =>
      if m_hasArgs m then 0
      else let '(v, ok) := Atoi (TrimSpace (m_value m)) in
           if ok then v else boolValue (negb (nilb (m_value m)))
  | None => 0
  end.

Definition parsePrimary (parseOr : parse_fn) (ts : list token) : outcome (Z * list token) :=
  match ts with
  | [] => Ok (0, ts)
  | curr :: r =>
      match typeID curr with
      | tokNumber => Ok ((Atoi (value curr)).1, r)
      | tokIdent =>
          if bool_decide (value curr = bs "defined") then Ok (parse_defined r)
          else Ok (macro_value (value curr), r)
      | _ =>
          if bool_decide (value curr = bs "(") then
            '(v, ts') ← parseOr r;
            Ok (v, if peekValue (bs ")") ts' then drop 1 ts' else ts')
          else Ok (0, ts)
      end
  end.

Fixpoint parseUnary (parseOr : parse_fn) (ts : list token) : outcome (Z * list token) :=
  match ts with
  | t :: r =>
      if bool_decide (value t = bs "!") then
        '(v, ts') ← parseUnary parseOr r; Ok (boolValue (v =? 0), ts')
      else if bool_decide (value t = bs "+") then parseUnary parseOr r
      else if bool_decide (value t = bs "-") then
        '(v, ts') ← parseUnary parseOr r; Ok (i64 (- v), ts')
      else parsePrimary parseOr ts
  | [] => parsePrimary parseOr ts
  end.

(** A level of the grammar: an operand of the level above, then its loop. *)
Definition level_with (op : bytes → option (Z → Z → outcome Z)) (sub : parse_fn) : parse_fn := λ ts,
  '(lhs, ts') ← sub ts; fold_ops op sub (length ts') lhs ts'.

Definition parseMul (parseOr : parse_fn) : parse_fn := level_with mul_op (parseUnary parseOr).
Definition parseAdd (parseOr : parse_fn) : parse_fn := level_with add_op (parseMul parseOr).
Definition parseCompare (parseOr : parse_fn) : parse_fn := level_with cmp_op (parseAdd parseOr).

(** [left = left && operand]: the operand is read only when [left] is not 0. *)
Fixpoint and_loop (sub : parse_fn) (fuel : nat) (left : Z) (ts : list token) : outcome (Z * list token) :=
  if peekValue (bs "&&") ts then
    match fuel with
    | O => Diverge
    | S n =>
        if left =? 0 then and_loop sub n (boolValue false) (drop 1 ts)
        else '(x, ts') ← sub (drop 1 ts); and_loop sub n (boolValue (negb (x =? 0))) ts'
    end
  else Ok (left, ts).

Definition parseAnd (parseOr : parse_fn) : parse_fn := λ ts,
  '(lhs, ts') ← parseCompare parseOr ts; and_loop (parseCompare parseOr) (length ts') lhs ts'.

Fixpoint or_loop (sub : parse_fn) (fuel : nat) (left : Z) (ts : list token) : outcome (Z * list token) :=
  if peekValue (bs "||") ts then
    match fuel with
    | O => Diverge
    | S n =>
        if negb (left =? 0) then or_loop sub n (boolValue true) (drop 1 ts)
        else '(x, ts') ← sub (drop 1 ts); or_loop sub n (boolValue (negb (x =? 0))) ts'
    end
  else Ok (left, ts).

(** The fuel bounds the nesting of parentheses. *)
Fixpoint parseOr (fuel : nat) (ts : list token) : outcome (Z * list token) :=
  match fuel with
  | O => Diverge
  | S n => '(lhs, ts') ← parseAnd (parseOr n) ts; or_loop (parseAnd (parseOr n)) (length ts') lhs ts'
  end.

Definition parse (ts : list token) : outcome Z :=
  if nilb ts then Ok 0 else '(v, _) ← parseOr (S (length ts)) ts; Ok v.

(** newParser(input, macros).parse() *)
Definition evaluate (input : bytes) : outcome Z := ts ← newParser input; parse ts.
End parser.

Example evaluate1 : evaluate ∅ (bs "(2 + 3) * 4") = Ok 20.
Proof. vm_compute. reflexivity. Qed.
Example evaluate2 : evaluate (<[bs "__linux__" := mk_macro (bs "1") false]> ∅) (bs "defined(__linux__) && 0") = Ok 1.
Proof. vm_compute. reflexivity. Qed.

(** ** The evaluator returns, and panics only by a division *)
Definition is_division (v : bytes) : Prop := v = bs "/" ∨ v = bs "%".

(** A result on [ts]: a value and a suffix of [ts], or a panic and a division
    among the tokens. *)
Definition good (ts : list token) (m : outcome (Z * list token)) : Prop :=
  match m with
  | Ok (_, ts') => ts' `suffix_of` ts
  | Panic => Exists (λ t, is_division (value t)) ts
  | _ => False
  end.

Definition total (n : nat) (p : parse_fn) : Prop := ∀ ts, (length ts < n)%nat → good ts (p ts).

Definition op_ok (op : bytes → option (Z → Z → outcome Z)) : Prop :=
  ∀ v f a b, op v = Some f → (∃ z, f a b = Ok z) ∨ (f a b = Panic ∧ is_division v).

Lemma good_suffix ts ts' m : ts' `suffix_of` ts → good ts' m → good ts m.
Proof.
  destruct m as [[v r]| | |]; cbn; [|done| |done].
  - intros ? ?. by etrans.
  - intros [k ->] H. apply Exists_app. by right.
Qed.

Lemma good_bind ts m f :
  good ts m → (∀ v ts', ts' `suffix_of` ts → m = Ok (v, ts') → good ts' (f (v, ts'))) → good ts (m ≫= f).
Proof.
  destruct m as [[v ts']| | |]; cbn; intros H Hf; try done. eapply good_suffix; [exact H|]. by apply Hf.
Qed.

Lemma good_drop (ts : list token) k : drop k ts `suffix_of` ts.
Proof. exists (take k ts). symmetry. apply take_drop. Qed.

Lemma tail_suffix (t : token) ts : ts `suffix_of` (t :: ts).
Proof. by exists [t]. Qed.

Lemma good_refl ts v : good ts (Ok (v, ts)).
Proof. by cbn. Qed.

Lemma good_Ok ts v ts' : ts' `suffix_of` ts → good ts (Ok (v, ts')).
Proof. done. Qed.

#[local] Hint Resolve good_drop tail_suffix good_refl good_Ok : core.

Lemma fold_ops_total op sub n fuel lhs ts :
  op_ok op → total n sub → (length ts ≤ fuel)%nat → (length ts ≤ n)%nat → good ts (fold_ops op sub fuel lhs ts).
Proof.
  intros Hop Hsub. revert lhs ts. induction fuel as [|k IH]; intros lhs [|t r] Hf Hn; cbn [fold_ops length] in *;
    [by cbn | destruct (op (value t)); [lia|by cbn] | by cbn |]. destruct (op (value t)) as [f|] eqn:E; [|by cbn].
  pose proof (Hsub r ltac:(lia)) as H. destruct (sub r) as [[x ts']| | |]; cbn in H |- *; try done.
  - destruct (Hop _ _ lhs x E) as [[z ->]|[-> Hd]]; cbn [mbind outcome_bind].
    + eapply good_suffix; [by etrans|]. pose proof (suffix_length _ _ H). apply IH; lia.
    + by left.
  - by right.
Qed.

Lemma level_total op sub n : op_ok op → total n sub → total n (level_with op sub).
Proof.
  intros Hop Hsub ts Hl. unfold level_with. apply good_bind; [by apply Hsub|].
  intros v ts' Hs _. pose proof (suffix_length _ _ Hs). eapply fold_ops_total; [done..|lia].
Qed.

Lemma ops_ok : op_ok mul_op ∧ op_ok add_op ∧ op_ok cmp_op.
Proof.
  split_and!; intros v f a b; unfold mul_op, add_op, cmp_op, int_div, int_rem; repeat case_bool_decide; intros ?; simplify_eq;
    try (left; by eexists); unfold is_division; destruct (b =? 0); eauto.
Qed.

Section total.
Context (macros : gmap bytes macro).

Lemma parse_defined_suffix ts : (parse_defined macros ts).2 `suffix_of` ts.
Proof.
  unfold parse_defined. destruct ts as [|t r]; [done|]. change (drop 1 (t :: r)) with r.
  destruct (negb (peekValue (bs "(") (t :: r))); [done|]. destruct r as [|arg r]; [cbn; by exists [t]|].
  destruct (negb (bool_decide (typeID arg = tokIdent))); [by exists [t]|].
  destruct (peekValue (bs ")") r); cbn [snd].
  - exists (t :: arg :: take 1 r). cbn [app]. by rewrite take_drop.
  - by exists [t; arg].
Qed.

Lemma parsePrimary_total n pOr : total n pOr → total (S n) (parsePrimary macros pOr).
Proof.
  intros Hp ts Hl. destruct ts as [|t r]; [by cbn|]. cbn [parsePrimary length] in *.
  assert (good (t :: r) (if bool_decide (value t = bs "(") then
     '(v, ts') ← pOr r; Ok (v, if peekValue (bs ")") ts' then drop 1 ts' else ts') else Ok (0, t :: r))) as Hparen.
  { case_bool_decide; [|by cbn]. apply (good_suffix _ r); [done|]. apply good_bind; [apply Hp; lia|].
    intros v ts' _ _. destruct (peekValue _ _); auto. }
  destruct (typeID t); try exact Hparen; [by auto|].
  clear Hparen. case_bool_decide; [|by auto]. apply (good_suffix _ r); [done|].
  pose proof (parse_defined_suffix r). by destruct (parse_defined macros r).
Qed.

Lemma parseUnary_total n pOr : total n pOr → total (S n) (parseUnary macros pOr).
Proof.
  intros Hp ts. induction ts as [|t r IH]; intros Hl; [by cbn|]. cbn [parseUnary length] in *.
  specialize (IH ltac:(lia)).
  repeat case_bool_decide; [| | |by apply (parsePrimary_total n)]; apply (good_suffix _ r); auto;
    (apply good_bind; [done|]; intros; by auto).
Qed.

Lemma parseCompare_total n pOr : total n pOr → total (S n) (parseCompare macros pOr).
Proof.
  intros Hp. destruct ops_ok as (Hm & Ha & Hc). repeat apply level_total; [done..|]. by apply parseUnary_total.
Qed.

Lemma and_loop_total sub n fuel lhs ts :
  total n sub → (length ts ≤ fuel)%nat → (length ts ≤ n)%nat → good ts (and_loop sub fuel lhs ts).
Proof.
  intros Hsub. revert lhs ts. induction fuel as [|k IH]; intros lhs ts Hf Hn; destruct ts as [|t r]; cbn [and_loop length peekValue] in *;
    [by cbn | case_bool_decide; [lia|by cbn] | by cbn |]. case_bool_decide; [|by cbn]. apply (good_suffix _ r); [done|].
  change (drop 1 (t :: r)) with r. destruct (lhs =? 0); [apply IH; lia|]. apply good_bind; [apply Hsub; lia|].
  intros v ts' Hs _. pose proof (suffix_length _ _ Hs). apply IH; lia.
Qed.

Lemma or_loop_total sub n fuel lhs ts :
  total n sub → (length ts ≤ fuel)%nat → (length ts ≤ n)%nat → good ts (or_loop sub fuel lhs ts).
Proof.
  intros Hsub. revert lhs ts. induction fuel as [|k IH]; intros lhs ts Hf Hn; destruct ts as [|t r]; cbn [or_loop length peekValue] in *;
    [by cbn | case_bool_decide; [lia|by cbn] | by cbn |]. case_bool_decide; [|by cbn]. apply (good_suffix _ r); [done|].
  change (drop 1 (t :: r)) with r. destruct (negb (lhs =? 0)); [apply IH; lia|]. apply good_bind; [apply Hsub; lia|].
  intros v ts' Hs _. pose proof (suffix_length _ _ Hs). apply IH; lia.
Qed.

Lemma parseAnd_total n pOr : total n pOr → total (S n) (parseAnd macros pOr).
Proof.
  intros Hp ts Hl. pose proof (parseCompare_total n pOr Hp) as Hc. apply good_bind; [by apply Hc|].
  intros v ts' Hs _. pose proof (suffix_length _ _ Hs). eapply and_loop_total; [exact Hc|lia..].
Qed.

Lemma parseOr_total n : total n (parseOr macros n).
Proof.
  induction n as [|n IH]; intros ts Hl; [lia|]. cbn [parseOr]. pose proof (parseAnd_total n _ IH) as Ha.
  apply good_bind; [by apply Ha|]. intros v ts' Hs _. pose proof (suffix_length _ _ Hs).
  eapply or_loop_total; [exact Ha|lia..].
Qed.

Lemma parse_total ts :
  (∃ v, parse macros ts = Ok v) ∨ (parse macros ts = Panic ∧ Exists (λ t, is_division (value t)) ts).
Proof.
  unfold parse. destruct (nilb ts); [left; by eexists|].
  pose proof (parseOr_total (S (length ts)) ts ltac:(lia)) as H.
  destruct (parseOr macros (S (length ts)) ts) as [[v r]| | |]; cbn in *; try done; [left; by eexists | by right].
Qed.
End total.

(** ** The tokenizer *)
Lemma compare_op_split c r t r' : compare_op c r = (t, r') → c :: r = value t ++ r' ∧ typeID t = tokOp.
Proof.
  unfold compare_op. destruct r as [|d r]; cbn [drop];
    repeat match goal with |- (if ?b then _ else _) = _ → _ => destruct b eqn:? end;
    intros [= <- <-]; cbn; split; try done; lia.
Qed.

(** [next] skips some bytes, then reads a token, empty only at the end. *)
Lemma next_split s t r :
  next s = (t, r) →
  ∃ k, s = k ++ value t ++ r ∧ (typeID t = tokEOF ∨ typeID t ≠ tokEOF ∧ value t ≠ []).
Proof.
  revert t r. induction s as [|c s IH]; intros t r; cbn [next].
  - intros [= <- <-]. exists []. split; [done|by left].
  - assert (∀ f ty w rest, f c = true → ty ≠ tokEOF → (let '(w, rest) := span f (c :: s) in (mk_tok ty w, rest)) = (mk_tok ty w, rest) →
      ∃ k, c :: s = k ++ w ++ rest ∧ (ty = tokEOF ∨ ty ≠ tokEOF ∧ w ≠ [])) as Hspan.
    { intros f ty w rest Hf Hty H. destruct (span f (c :: s)) as [w' rest'] eqn:E. simplify_eq. exists [].
      pose proof (span_app f (c :: s)) as Ha. rewrite E in Ha. cbn [fst snd] in Ha. split; [by rewrite <- Ha|]. right. split; [done|].
      cbn [span] in E. rewrite Hf in E. destruct (span f s). by simplify_eq. }
    assert (next s = (t, r) → ∃ k, c :: s = k ++ value t ++ r ∧ (typeID t = tokEOF ∨ typeID t ≠ tokEOF ∧ value t ≠ [])) as Hskip.
    { intros (k & -> & H)%IH. by exists (c :: k). }
    destruct (is_blank_char c); [exact Hskip|].
    destruct (is_digit c) eqn:Ed.
    { intros H. destruct (span is_digit (c :: s)) as [w rest] eqn:E. injection H as <- <-.
      apply (Hspan is_digit tokNumber); [done..|]. by rewrite E. }
    destruct (is_letter c) eqn:El.
    { intros H. destruct (span is_ident_char (c :: s)) as [w rest] eqn:E. injection H as <- <-.
      apply (Hspan is_ident_char tokIdent); [by unfold is_ident_char; rewrite El|done|]. by rewrite E. }
    destruct (is_single_op c).
    { intros [= <- <-]. exists []. split; [done|by right]. }
    destruct (is_compare_char c); [|exact Hskip].
    intros H. pose proof H as [Hs Ht]%compare_op_split. exists []. split; [done|]. right. rewrite Ht. split; [done|].
    unfold compare_op in H. repeat case_match; simplify_eq; done.
Qed.

Lemma all_tokens_total fuel s :
  (length s < fuel)%nat →
  ∃ ts, all_tokens fuel s = Ok ts ∧ Forall (λ t, ∃ k r, s = k ++ value t ++ r) ts.
Proof.
  revert s. induction fuel as [|n IH]; intros s Hl; [lia|]. cbn [all_tokens].
  destruct (next s) as [t r] eqn:E. pose proof (next_split _ _ _ E) as (k & -> & Ht).
  case_bool_decide as Heof; [by eexists|]. destruct Ht as [?|[_ Hne]]; [done|].
  destruct (IH r) as (ts & -> & Hts).
  { rewrite !length_app in Hl. destruct (value t); [done|]. cbn [length] in Hl. lia. }
  eexists. split; [done|]. constructor; [by exists k, r|].
  eapply Forall_impl; [exact Hts|]. intros u (k' & r' & ->). exists (k ++ value t ++ k'), r'. by rewrite <- !(assoc (++)).
Qed.

(** Bytes that belong to no token: blanks and the rest, such as & and |. *)
Definition skipped (c : Z) : bool :=
  is_blank_char c || negb (is_digit c || is_letter c || is_single_op c || is_compare_char c).

Definition op_texts : list bytes :=
  [bs "("; bs ")"; bs "+"; bs "-"; bs "*"; bs "/"; bs "%"; bs "!="; bs "=="; bs "<="; bs ">="; bs "!"; bs "="; bs "<"; bs ">"].

Definition wf_token (t : token) : Prop :=
  match typeID t with
  | tokNumber => value t ≠ [] ∧ Forall (λ c, is_digit c = true) (value t)
  | tokIdent => match value t with
                | [] => False
                | c :: w => is_letter c = true ∧ Forall (λ c, is_ident_char c = true) w
                end
  | tokOp => value t ∈ op_texts
  | tokEOF => False
  end.

(** Nothing in front of [s] goes on with the token [t]. *)
Definition ends (t : token) (s : bytes) : bool :=
  match s with
  | [] => true
  | c :: _ =>
      match typeID t with
      | tokNumber => negb (is_digit c)
      | tokIdent => negb (is_ident_char c)
      | _ => negb (bool_decide (value t ∈ [bs "!"; bs "="; bs "<"; bs ">"]) && (c =? ch "="))
      end
  end.

Lemma ends_skipped t c s : skipped c = true → ends t (c :: s) = true.
Proof.
  unfold ends, skipped. intros Hc. destruct (typeID t); unfold is_ident_char, is_blank_char, is_compare_char, is_digit, is_letter in *; try lia;
    destruct (bool_decide _); cbn [andb]; lia.
Qed.

Lemma next_skip g s : Forall (λ c, skipped c = true) g → next (g ++ s) = next s.
Proof.
  induction 1 as [|c g Hc Hg IH]; [done|]. cbn [app next]. unfold skipped in Hc.
  destruct (is_blank_char c); [done|]. cbn [orb] in Hc. apply negb_true_iff in Hc.
  repeat (apply orb_false_iff in Hc as [Hc ?]). by rewrite Hc, H, H0, H1.
Qed.

Lemma next_token t s : wf_token t → ends t s = true → next (value t ++ s) = (t, s).
Proof.
  destruct t as [ty v]. unfold wf_token. cbn [typeID value]. intros Hw Hs.
  destruct ty; [| | |done]; unfold ends in Hs; cbn [typeID value] in Hs.
  - destruct Hw as [Hne Hd]. destruct v as [|c v]; [done|]. apply Forall_cons in Hd as Hc. destruct Hc as [Hc _].
    cbn [app next]. replace (is_blank_char c) with false by (unfold is_blank_char, is_digit in *; lia). rewrite Hc.
    change (c :: v ++ s) with ((c :: v) ++ s). rewrite span_all; [done|done|]. destruct s; [done|]. by apply negb_true_iff.
  - destruct v as [|c v]; [done|]. destruct Hw as [Hc Hv]. cbn [app next].
    replace (is_blank_char c) with false by (unfold is_blank_char, is_letter in *; lia).
    replace (is_digit c) with false by (unfold is_digit, is_letter in *; lia). rewrite Hc.
    change (c :: v ++ s) with ((c :: v) ++ s). rewrite span_all; [done| |].
    + constructor; [|done]. unfold is_ident_char. by rewrite Hc.
    + destruct s; [done|]. by apply negb_true_iff.
  - unfold op_texts in Hw. repeat (apply elem_of_cons in Hw as [->|Hw]); [..|by apply elem_of_nil in Hw]; try done;
      destruct s as [|d r]; try done; cbn in Hs; cbn; unfold compare_op; cbn; by destruct (d =? ch "=").
Qed.

(** Tokens, each after a gap. *)
Fixpoint laid_out (l : list (bytes * token)) : bytes :=
  match l with [] => [] | (g, t) :: r => g ++ value t ++ laid_out r end.

(** Two tokens without a gap between them are not read as one. *)
Fixpoint separated (l : list (bytes * token)) : bool :=
  match l with
  | (_, t) :: r => (match r with (g, u) :: _ => negb (nilb g) || ends t (value u) | [] => true end) && separated r
  | [] => true
  end.
Definition wf_layout (l : list (bytes * token)) : Prop :=
  Forall (λ '(g, t), Forall (λ c, skipped c = true) g ∧ wf_token t) l ∧ separated l = true.

Lemma wf_token_type t : wf_token t → typeID t ≠ tokEOF ∧ value t ≠ [].
Proof.
  destruct t as [ty v]. unfold wf_token. cbn [typeID value]. destruct ty; [by intros [? _]|by destruct v| |done].
  intros Hw. split; [done|]. intros ->. unfold op_texts in Hw. repeat (apply elem_of_cons in Hw as [?|Hw]; [done|]). by apply elem_of_nil in Hw.
Qed.

Lemma all_tokens_laid_out fuel l :
  wf_layout l → (length l < fuel)%nat → all_tokens fuel (laid_out l) = Ok (map snd l).
Proof.
  revert fuel. induction l as [|[g t] l IH]; intros fuel [Hw Hg] Hl; (destruct fuel as [|n]; [cbn in Hl; lia|]); [done|].
  apply Forall_cons in Hw as [[Hskip Ht] Hw]. cbn [laid_out all_tokens]. rewrite next_skip by done. rewrite next_token; [|done|].
  - rewrite bool_decide_eq_false_2 by (by apply wf_token_type). rewrite IH; [done| |cbn in Hl; lia].
    cbn [separated] in Hg. apply andb_true_iff in Hg as [_ Hg]. by split.
  - destruct l as [|[g' u] l]; [done|]. cbn [separated] in Hg. apply andb_true_iff in Hg as [Hg _]. apply Forall_cons in Hw as [[Hs Hu] _].
    cbn [laid_out]. destruct g' as [|c g']; [|apply Forall_cons in Hs as [Hs _]; by apply ends_skipped].
    cbn [nilb negb orb app] in *. apply wf_token_type in Hu as [_ Hu]. by destruct (value u).
Qed.

Lemma newParser_laid_out l : wf_layout l → newParser (laid_out l) = Ok (map snd l).
Proof.
  intros Hw. apply all_tokens_laid_out; [done|]. destruct Hw as [Hw _].
  cut (length l ≤ length (laid_out l))%nat; [lia|]. induction Hw as [|[g t] l [_ Ht] _ IH]; [done|].
  cbn [laid_out length]. rewrite !length_app. apply wf_token_type in Ht as [_ Ht]. destruct (value t); [done|]. cbn [length]. lia.
Qed.

(** ** Expressions and their meaning *)
Inductive binop : Type := OMul | ODiv | ORem | OAdd | OSub | OEq | ONe | OLe | OGe | OLt | OGt.

Inductive expr : Type :=
  | Num (n : Z)
  | Var (x : bytes)
  | Defined (x : bytes)
  | Not (e : expr)
  | Pos (e : expr)
  | Neg (e : expr)
  | Bin (o : binop) (a b : expr).

Definition op_text (o : binop) : bytes :=
  match o with
  | OMul => bs "*" | ODiv => bs "/" | ORem => bs "%" | OAdd => bs "+" | OSub => bs "-"
  | OEq => bs "==" | ONe => bs "!=" | OLe => bs "<=" | OGe => bs ">=" | OLt => bs "<" | OGt => bs ">"
  end.

(** Comparisons bind weakest, then sums, then products, then prefixes. *)
Definition op_level (o : binop) : nat :=
  match o with OMul | ODiv | ORem => 3 | OAdd | OSub => 2 | _ => 1 end%nat.

Definition op_fn (o : binop) (a b : Z) : outcome Z :=
  match o with
  | OMul => Ok (i64 (a * b))
  | ODiv => if b =? 0 then Panic else Ok (i64 (Z.quot a b))
  | ORem => if b =? 0 then Panic else Ok (i64 (Z.rem a b))
  | OAdd => Ok (i64 (a + b))
  | OSub => Ok (i64 (a - b))
  | OEq => Ok (boolValue (a =? b))
  | ONe => Ok (boolValue (negb (a =? b)))
  | OLe => Ok (boolValue (a <=? b))
  | OGe => Ok (boolValue (b <=? a))
  | OLt => Ok (boolValue (a <? b))
  | OGt => Ok (boolValue (b <? a))
  end.

Definition op_tok (s : bytes) : token := mk_tok tokOp s.
Definition id_tok (s : bytes) : token := mk_tok tokIdent s.

(** The tokens of [e] where an operator of level [l] or more may stand. *)
Fixpoint print (l : nat) (e : expr) : list token :=
  match e with
  | Num n => [mk_tok tokNumber (Itoa n)]
  | Var x => [id_tok x]
  | Defined x => [id_tok (bs "defined"); op_tok (bs "("); id_tok x; op_tok (bs ")")]
  | Not e => op_tok (bs "!") :: print 4 e
  | Pos e => op_tok (bs "+") :: print 4 e
  | Neg e => op_tok (bs "-") :: print 4 e
  | Bin o a b =>
      let body := print (op_level o) a ++ op_tok (op_text o) :: print (S (op_level o)) b in
      if (l <=? op_level o)%nat then body else op_tok (bs "(") :: body ++ [op_tok (bs ")")]
  end.

Definition is_name (x : bytes) : Prop := wf_token (id_tok x).

Fixpoint wf_expr (e : expr) : Prop :=
  match e with
  | Num n => 0 ≤ n < 2 ^ 63
  | Var x => is_name x ∧ x ≠ bs "defined"
  | Defined x => is_name x
  | Not e | Pos e | Neg e => wf_expr e
  | Bin _ a b => wf_expr a ∧ wf_expr b
  end.

Section meaning.
Context (macros : gmap bytes macro).

Fixpoint meaning (e : expr) : outcome Z :=
  match e with
  | Num n => Ok n
  | Var x => Ok (macro_value macros x)
  | Defined x => Ok (boolValue (bool_decide (is_Some (macros !! x))))
  | Not e => v ← meaning e; Ok (boolValue (v =? 0))
  | Pos e => meaning e
  | Neg e => v ← meaning e; Ok (i64 (- v))
  | Bin o a b => x ← meaning a; y ← meaning b; op_fn o x y
  end.

(** *** The parser on printed expressions *)
Definition level_op (l : nat) : bytes → option (Z → Z → outcome Z) :=
  match l with 1 => cmp_op | 2 => add_op | 3 => mul_op | _ => λ _, None end%nat.

Definition parse_level (pOr : parse_fn) (l : nat) : parse_fn :=
  match l with
  | 1 => parseCompare macros pOr
  | 2 => parseAdd macros pOr
  | 3 => parseMul macros pOr
  | _ => parseUnary macros pOr
  end%nat.

(** [rest] does not go on with an operator of level [l] or more. *)
Definition stops (l : nat) (rest : list token) : Prop :=
  match rest with t :: _ => ∀ k, (l ≤ k)%nat → level_op k (value t) = None | [] => True end.

Lemma level_op_text o k : level_op k (op_text o) = if decide (k = op_level o) then Some (op_fn o) else None.
Proof. destruct k as [|[|[|[|k]]]], o; reflexivity. Qed.

Lemma level_op_ok l : op_ok (level_op l).
Proof. destruct ops_ok as (? & ? & ?). destruct l as [|[|[|[|l]]]]; [by intros ????|done..|by intros ????]. Qed.

Lemma stops_S l rest : stops l rest → stops (S l) rest.
Proof. destruct rest; [done|]. intros H k Hk. apply H. lia. Qed.

Lemma parse_level_step pOr l :
  (1 ≤ l ≤ 3)%nat → parse_level pOr l = level_with (level_op l) (parse_level pOr (S l)).
Proof. intros Hl. destruct l as [|[|[|[|l]]]]; try lia; done. Qed.

Lemma parse_level_total n l pOr : total n pOr → total (S n) (parse_level pOr l).
Proof.
  intros Hp. assert (total (S n) (parse_level pOr 4)) as H4 by (by apply parseUnary_total).
  destruct ops_ok as (? & ? & ?). destruct l as [|[|[|[|l]]]]; try exact H4; repeat (apply level_total; [done|]); exact H4.
Qed.

Lemma fold_ops_stop op sub fuel lhs ts :
  match ts with t :: _ => op (value t) = None | [] => True end → fold_ops op sub fuel lhs ts = Ok (lhs, ts).
Proof. destruct ts as [|t r]; [by destruct fuel|]. intros H. destruct fuel; cbn; by rewrite H. Qed.

Lemma fold_ops_fuel op sub n f1 f2 lhs ts :
  total n sub → (length ts ≤ f1)%nat → (length ts ≤ f2)%nat → (length ts ≤ n)%nat →
  fold_ops op sub f1 lhs ts = fold_ops op sub f2 lhs ts.
Proof.
  intros Hs. revert f2 lhs ts. induction f1 as [|f1 IH]; intros f2 lhs [|t r] H1 H2 Hn; cbn [length] in *;
    try lia; try (by destruct f2). destruct f2 as [|f2]; [lia|]. cbn [fold_ops].
  destruct (op (value t)) as [f|]; [|done]. pose proof (Hs r ltac:(lia)) as H.
  destruct (sub r) as [[x ts']| | |]; try done. cbn in H. pose proof (suffix_length _ _ H). cbn [mbind outcome_bind].
  destruct (f lhs x); [|done..]. cbn [mbind outcome_bind]. apply IH; lia.
Qed.

(** After [v] at level [l]: the loop of the level. *)
Definition level_rest (pOr : parse_fn) (l : nat) (v : Z) (rest : list token) : outcome (Z * list token) :=
  if (l <=? 3)%nat then fold_ops (level_op l) (parse_level pOr (S l)) (length rest) v rest else Ok (v, rest).

Lemma level_rest_stops pOr l v rest : stops l rest → level_rest pOr l v rest = Ok (v, rest).
Proof.
  intros Hs. unfold level_rest. case_match; [|done]. apply fold_ops_stop. destruct rest; [done|]. by apply Hs.
Qed.

Lemma parse_lower pOr l m ts rest :
  (1 ≤ l ≤ 3)%nat → stops (S l) rest →
  parse_level pOr (S l) ts = m ≫= (λ v, level_rest pOr (S l) v rest) →
  parse_level pOr l ts = m ≫= (λ v, level_rest pOr l v rest).
Proof.
  intros Hl Hs H. rewrite parse_level_step by done. unfold level_with. rewrite H.
  destruct m as [v| | |]; cbn; [|done..]. rewrite level_rest_stops by done. cbn. unfold level_rest.
  by rewrite (proj2 (Nat.leb_le l 3)) by lia.
Qed.

(** From the prefix level down to [l]. *)
Lemma parse_lower_all pOr l k m ts rest :
  (1 ≤ l ≤ k)%nat → (k ≤ 4)%nat → stops (S l) rest →
  parse_level pOr k ts = m ≫= (λ v, level_rest pOr k v rest) →
  parse_level pOr l ts = m ≫= (λ v, level_rest pOr l v rest).
Proof.
  intros Hl Hk Hs H. remember (k - l)%nat as d eqn:Hd. revert k Hl Hk Hd H.
  induction d as [|d IH]; intros k Hl Hk Hd H; [by replace l with k by lia|].
  apply (IH (k - 1)%nat); [lia..|]. apply parse_lower; [lia| |by replace (S (k - 1)) with k by lia].
  destruct rest; [done|]. intros j Hj. apply Hs. lia.
Qed.

Lemma stops_paren l rest : stops l (op_tok (bs ")") :: rest).
Proof. intros k _. by destruct k as [|[|[|[|k]]]]. Qed.

Lemma stops_top l rest : (4 ≤ l)%nat → stops l rest.
Proof. destruct rest as [|t r]; [done|]. intros Hl k Hk. by destruct k as [|[|[|[|k]]]]; [lia..|]. Qed.

(** The result of reading [e] at level [l], whatever follows. *)
Definition reads (e : expr) : Prop := ∀ n l rest,
  (1 ≤ l ≤ 4)%nat → (length (print l e ++ rest) ≤ n)%nat → stops (S l) rest →
  parse_level (parseOr macros n) l (print l e ++ rest) = meaning e ≫= λ v, level_rest (parseOr macros n) l v rest.

Lemma reads_prefix e : (∀ l, print l e = print 4 e) →
  (∀ n rest, (length (print 4 e ++ rest) ≤ n)%nat →
    parseUnary macros (parseOr macros n) (print 4 e ++ rest) = v ← meaning e; Ok (v, rest)) →
  reads e.
Proof.
  intros Hp H n l rest Hl Hn Hs. rewrite Hp in *. apply (parse_lower_all _ l 4); [lia..|done|].
  by apply H.
Qed.

Lemma reads_atom e t ts : print 4 e = t :: ts → (∀ l, print l e = print 4 e) →
  typeID t = tokNumber ∨ typeID t = tokIdent → wf_token t →
  (∀ n rest, parsePrimary macros (parseOr macros n) (t :: ts ++ rest) = v ← meaning e; Ok (v, rest)) →
  reads e.
Proof.
  intros Hp Hl Hty Hw H. apply reads_prefix; [done|]. intros n rest _. rewrite Hp. cbn [app parseUnary].
  assert (∀ c, is_single_op c = true ∨ c = ch "!" → value t ≠ [c]) as Hne.
  { intros c Hc He. unfold wf_token in Hw. rewrite He in Hw. destruct Hty as [Hty|Hty]; rewrite Hty in Hw.
    - destruct Hw as [_ Hw]. apply Forall_cons in Hw as [Hw _]. unfold is_digit, is_single_op in *. lia.
    - destruct Hw as [Hw _]. unfold is_letter, is_single_op in *. lia. }
  rewrite !bool_decide_eq_false_2 by (apply Hne; first [by left | by right]). apply H.
Qed.

Lemma Num_wf n : 0 ≤ n → wf_token (mk_tok tokNumber (Itoa n)).
Proof. apply Itoa_digits. Qed.

Lemma peek_op c ts : peekValue [c] (op_tok [c] :: ts) = true.
Proof. cbn. by rewrite bool_decide_eq_true_2. Qed.

Lemma reads_Num n : 0 ≤ n < 2 ^ 63 → reads (Num n).
Proof.
  intros Hn. eapply reads_atom; [done|done|by left|apply Num_wf; lia|]. intros m rest.
  cbn [parsePrimary typeID value app]. by rewrite Atoi_Itoa.
Qed.

Lemma reads_Var x : is_name x → x ≠ bs "defined" → reads (Var x).
Proof.
  intros Hx Hd. eapply reads_atom; [done|done|by right|done|]. intros m rest.
  cbn [parsePrimary id_tok typeID value app]. by rewrite bool_decide_eq_false_2.
Qed.

Lemma reads_Defined x : is_name x → reads (Defined x).
Proof.
  intros Hx. eapply reads_atom; [done|done|by right|by split; [|repeat constructor]|]. intros m rest.
  cbn [parsePrimary id_tok typeID value app]. rewrite bool_decide_eq_true_2 by done.
  unfold parse_defined. rewrite peek_op. cbn [negb drop id_tok typeID value app]. rewrite !drop_0.
  rewrite bool_decide_eq_true_2 by done. rewrite peek_op. done.
Qed.

Lemma parseOr_S n ts :
  parseOr macros (S n) ts =
    '(lhs, ts') ← ('(lhs, ts') ← parse_level (parseOr macros n) 1 ts;
                   and_loop (parseCompare macros (parseOr macros n)) (length ts') lhs ts');
    or_loop (parseAnd macros (parseOr macros n)) (length ts') lhs ts'.
Proof. done. Qed.

Lemma reads_paren e n ts rest :
  (length (op_tok (bs "(") :: ts ++ op_tok (bs ")") :: rest) ≤ n)%nat →
  (∀ n, (length (ts ++ op_tok (bs ")") :: rest) ≤ n)%nat →
    parse_level (parseOr macros n) 1 (ts ++ op_tok (bs ")") :: rest) =
    meaning e ≫= λ v, level_rest (parseOr macros n) 1 v (op_tok (bs ")") :: rest)) →
  parseUnary macros (parseOr macros n) (op_tok (bs "(") :: ts ++ op_tok (bs ")") :: rest) = v ← meaning e; Ok (v, rest).
Proof.
  intros Hn H. destruct n as [|n]; [cbn in Hn; lia|]. cbn [length] in Hn. specialize (H n ltac:(lia)).
  cbn [parseUnary op_tok value]. rewrite !bool_decide_eq_false_2 by done.
  cbn [parsePrimary op_tok typeID value]. rewrite bool_decide_eq_true_2 by done.
  rewrite parseOr_S, H.
  destruct (meaning e) as [v| | |]; cbn [mbind outcome_bind]; [|done..].
  rewrite level_rest_stops by apply stops_paren.
  cbn [mbind outcome_bind length and_loop]. cbn. by rewrite drop_0.
Qed.

(** One operator: its left operand, then its right operand and the rest. *)
Lemma reads_op o a b n rest :
  reads a → reads b →
  (length (print (op_level o) a ++ op_tok (op_text o) :: print (S (op_level o)) b ++ rest) ≤ n)%nat →
  stops (S (op_level o)) rest →
  parse_level (parseOr macros n) (op_level o) (print (op_level o) a ++ op_tok (op_text o) :: print (S (op_level o)) b ++ rest) =
  meaning (Bin o a b) ≫= λ v, level_rest (parseOr macros n) (op_level o) v rest.
Proof.
  intros Ha Hb Hn Hs. assert (1 ≤ op_level o ≤ 3)%nat as Hl by (destruct o; cbn; lia).
  rewrite Ha; [|lia|done|].
  2: { cbn [stops op_tok value]. intros k Hk. rewrite level_op_text. by rewrite decide_False by lia. }
  cbn [meaning]. destruct (meaning a) as [x| | |]; cbn [mbind outcome_bind]; [|done..].
  unfold level_rest at 1. rewrite (proj2 (Nat.leb_le _ 3)) by lia. cbn [length fold_ops op_tok value].
  rewrite level_op_text, decide_True by done. rewrite !length_app in Hn. cbn [length] in Hn. rewrite length_app in Hn.
  rewrite Hb; [|lia|rewrite length_app; lia|by apply stops_S].
  destruct (meaning b) as [y| | |]; cbn [mbind outcome_bind]; [|done..].
  rewrite level_rest_stops by done. cbn [mbind outcome_bind]. destruct (op_fn o x y) as [v| | |]; cbn [mbind outcome_bind]; [|done..].
  unfold level_rest. rewrite (proj2 (Nat.leb_le _ 3)) by lia. apply (fold_ops_fuel _ _ (S n));
    [apply parse_level_total, parseOr_total|rewrite ?length_app; lia..].
Qed.

Lemma reads_Bin o a b : reads a → reads b → reads (Bin o a b).
Proof.
  intros Ha Hb n l rest Hl Hn Hs. cbn [print] in *.
  assert (1 ≤ op_level o ≤ 3)%nat as Ho by (destruct o; cbn; lia).
  destruct (Nat.leb_spec l (op_level o)).
  - rewrite <- (assoc (++)), <- app_comm_cons in Hn |- *. apply (parse_lower_all _ l (op_level o)); [lia..|done|].
    apply reads_op; [done..|]. destruct rest; [done|]. intros k Hk. apply Hs. lia.
  - rewrite <- app_comm_cons, <- (assoc (++)) in Hn |- *. apply (parse_lower_all _ l 4); [lia..|done|].
    apply reads_paren; [done|]. intros m Hm. rewrite <- (assoc (++)), <- app_comm_cons in Hm |- *.
    apply (parse_lower_all _ 1 (op_level o)); [lia..| |].
    + apply stops_paren.
    + apply reads_op; [done..|]. apply stops_paren.
Qed.

Lemma reads_all e : wf_expr e → reads e.
Proof.
  induction e as [n|x|x|e IH|e IH|e IH|o a IHa b IHb]; cbn [wf_expr]; intros Hw.
  - by apply reads_Num.
  - destruct Hw. by apply reads_Var.
  - by apply reads_Defined.
  - apply reads_prefix; [done|]. intros n rest Hn. cbn [print app length] in Hn |- *. cbn [parseUnary op_tok value].
    rewrite bool_decide_eq_true_2 by done. specialize (IH Hw n 4%nat rest). cbn [parse_level] in IH.
    rewrite IH; [|lia..|apply stops_top; lia]. cbn [meaning]. by destruct (meaning e).
  - apply reads_prefix; [done|]. intros n rest Hn. cbn [print app length] in Hn |- *. cbn [parseUnary op_tok value].
    rewrite bool_decide_eq_false_2, bool_decide_eq_true_2 by done. specialize (IH Hw n 4%nat rest). cbn [parse_level] in IH.
    rewrite IH; [|lia..|apply stops_top; lia]. cbn [meaning]. by destruct (meaning e).
  - apply reads_prefix; [done|]. intros n rest Hn. cbn [print app length] in Hn |- *. cbn [parseUnary op_tok value].
    rewrite !bool_decide_eq_false_2, bool_decide_eq_true_2 by done. specialize (IH Hw n 4%nat rest). cbn [parse_level] in IH.
    rewrite IH; [|lia..|apply stops_top; lia]. cbn [meaning]. by destruct (meaning e).
  - destruct Hw. apply reads_Bin; auto.
Qed.

(** No binary operator, && or || comes first. *)
Definition no_op_first (rest : list token) : Prop :=
  stops 1 rest ∧ peekValue (bs "&&") rest = false ∧ peekValue (bs "||") rest = false.

Lemma print_nonempty l e : print l e ≠ [].
Proof. destruct e; cbn; try done. case_match; [|done]. by destruct (print (op_level o) e1). Qed.

Lemma parse_print e rest :
  wf_expr e → no_op_first rest → parse macros (print 1 e ++ rest) = meaning e.
Proof.
  intros Hw (Hs & Ha & Ho). unfold parse. pose proof (print_nonempty 1 e) as Hne.
  destruct (nilb (print 1 e ++ rest)) eqn:E; [by destruct (print 1 e)|].
  rewrite parseOr_S.
  pose proof (reads_all e Hw (length (print 1 e ++ rest)) 1%nat rest ltac:(lia) ltac:(lia) (stops_S _ _ Hs)) as H.
  rewrite H. destruct (meaning e) as [v| | |]; cbn [mbind outcome_bind]; [|done..].
  rewrite level_rest_stops by done. cbn [mbind outcome_bind].
  assert (∀ sub k, and_loop sub k v rest = Ok (v, rest)) as -> by (intros ? []; cbn [and_loop]; by rewrite Ha).
  cbn [mbind outcome_bind].
  by assert (∀ sub k, or_loop sub k v rest = Ok (v, rest)) as -> by (intros ? []; cbn [or_loop]; by rewrite Ho).
Qed.
End meaning.

(** ** Expression texts *)

(** A text with one space between tokens. *)
Definition render (e : expr) : bytes := strings_Join (map value (print 1 e)) [32].

(** Blanks in front of the tokens, which may touch where they are not read as
    one token. *)
Definition in_blanks (l : list (bytes * token)) : Prop :=
  Forall (λ '(g, _), Forall (λ c, is_blank_char c = true) g) l ∧ separated l = true.

(** Gaps of bytes that belong to no token, not empty between tokens. *)
Definition well_spaced (l : list (bytes * token)) : Prop :=
  Forall (λ '(g, _), Forall (λ c, skipped c = true) g) l ∧ Forall (λ '(g, _), g ≠ []) (tail l).

Lemma op_text_in o : op_text o ∈ op_texts.
Proof. destruct o; unfold op_texts; set_solver. Qed.

Ltac op_wf := unfold wf_token; cbn; unfold op_texts; set_solver.

Lemma print_wf e l : wf_expr e → Forall wf_token (print l e).
Proof.
  revert l. induction e as [n|x|x|e IH|e IH|e IH|o a IHa b IHb]; intros l; cbn [wf_expr print]; intros Hw.
  - repeat constructor; apply Itoa_digits; lia.
  - destruct Hw. by repeat constructor.
  - rewrite !Forall_cons, Forall_nil. split_and!; [by split; [|repeat constructor]|op_wf|done|op_wf|done].
  - constructor; [op_wf|auto].
  - constructor; [op_wf|auto].
  - constructor; [op_wf|auto].
  - destruct Hw as [Ha Hb].
    assert (Forall wf_token (print (op_level o) a ++ op_tok (op_text o) :: print (S (op_level o)) b)) as Hbody.
    { apply Forall_app. split; [auto|]. constructor; [apply op_text_in|auto]. }
    case_match; [done|]. constructor; [op_wf|].
    apply Forall_app. split; [done|]. constructor; [op_wf|constructor].
Qed.

Lemma spaced_wf l : well_spaced l → Forall wf_token (map snd l) → wf_layout l.
Proof.
  intros [Hg Hn] Ht. rewrite Forall_map in Ht. split.
  - rewrite Forall_forall in Hg, Ht |- *. intros [g t] Hin. split; [exact (Hg _ Hin)|exact (Ht _ Hin)].
  - clear Hg Ht. induction l as [|[g t] l IH]; [done|]. cbn [tail] in Hn. cbn [separated]. destruct l as [|[g' u] l]; [done|].
    apply Forall_cons in Hn as [Hne Hn]. rewrite IH by done. destruct g'; [done|]. done.
Qed.

Lemma blanks_wf l : in_blanks l → Forall wf_token (map snd l) → wf_layout l.
Proof.
  intros [Hg Hs] Ht. split; [|done]. rewrite Forall_map in Ht. rewrite Forall_forall in Hg, Ht |- *.
  intros [g t] Hin. split; [|exact (Ht _ Hin)]. specialize (Hg _ Hin). cbn in Hg. eapply Forall_impl; [exact Hg|].
  intros c Hc. unfold skipped. by rewrite Hc.
Qed.

(** The layout of [strings_Join (map value ts) [32]] after the gap [g]. *)
Definition spaced (g : bytes) (ts : list token) : list (bytes * token) :=
  match ts with [] => [] | t :: r => (g, t) :: map (λ t, ([32], t)) r end.

Lemma spaced_snd g ts : map snd (spaced g ts) = ts.
Proof. destruct ts as [|t r]; [done|]. cbn. f_equal. rewrite map_map. cbn. apply map_id. Qed.

Lemma laid_out_spaced g t ts : laid_out (spaced g (t :: ts)) = g ++ strings_Join (map value (t :: ts)) [32].
Proof.
  cbn [spaced laid_out]. f_equal. revert t. induction ts as [|u ts IH]; intros t; [cbn; by rewrite app_nil_r|].
  change (strings_Join (map value (t :: u :: ts)) [32]) with (value t ++ [32] ++ strings_Join (map value (u :: ts)) [32]).
  rewrite <- IH. done.
Qed.

Lemma laid_out_app l1 l2 : laid_out (l1 ++ l2) = laid_out l1 ++ laid_out l2.
Proof. induction l1 as [|[g t] l1 IH]; [done|]. cbn. by rewrite IH, <- !(assoc (++)). Qed.

Lemma spaced_well g ts : Forall (λ c, skipped c = true) g → well_spaced (spaced g ts).
Proof.
  intros Hg. destruct ts as [|t r]; [repeat constructor|]. split; [constructor; [done|]|];
    cbn [tail spaced]; apply Forall_map, Forall_true; intros; [by repeat constructor|done].
Qed.

Lemma well_spaced_app l g t ts :
  well_spaced l → well_spaced (spaced g (t :: ts)) → g ≠ [] → well_spaced (l ++ spaced g (t :: ts)).
Proof.
  intros [Hl Hlt] [Hr Hrt] Hg. split; [by apply Forall_app|]. destruct l as [|x l]; [done|].
  cbn [app tail] in *. apply Forall_app. split; [done|]. cbn [spaced]. constructor; [exact Hg|exact Hrt].
Qed.

(** C15 The value of an expression: numbers, names, [defined(NAME)], the prefixes
    !, + and -, and the operators of products, sums and comparisons. However its
    tokens are set in blanks, and wherever they may touch, evaluating the text
    gives what the expression means: prefixes bind strongest, then products, then
    sums, then the six comparisons, which are one level and group from the left;
    with wrapped 64-bit arithmetic, and a panic at a division by zero. *)
Theorem expression_value macros e l :
  wf_expr e → map snd l = print 1 e → in_blanks l →
  evaluate macros (laid_out l) = meaning macros e.
Proof.
  intros Hw Hl Hs. unfold evaluate. rewrite newParser_laid_out.
  - cbn [mbind outcome_bind]. rewrite Hl, <- (app_nil_r (print 1 e)). by apply parse_print.
  - apply blanks_wf; [done|]. rewrite Hl. by apply print_wf.
Qed.

Lemma expression_value_witness :
  let e := Bin OLt (Num 3) (Bin OMul (Var (bs "N")) (Bin OSub (Num 5) (Neg (Defined (bs "M"))))) in
  let macros := {[ bs "N" := mk_macro (bs " 2 ") false ]} in
  let tight := map (λ t, ([] : bytes, t)) (print 1 e) in
  evaluate macros (bs "3<N*(5--defined(M))") = meaning macros e ∧
  evaluate macros (bs "3 < N * ( 5 - - defined ( M ) )") = meaning macros e.
Proof.
  intros e macros tight.
  assert (wf_expr e) as H1 by (vm_compute; intuition (try done; repeat constructor)).
  assert (in_blanks tight) as H2 by (split; [repeat constructor|vm_compute; reflexivity]).
  assert (in_blanks (spaced [] (print 1 e))) as H3 by (split; [repeat constructor; done|vm_compute; reflexivity]).
  split; [exact (expression_value _ e tight H1 eq_refl H2)|exact (expression_value _ e (spaced [] (print 1 e)) H1 eq_refl H3)].
Defined.

(** In C, comparisons for equality bind weaker than the other four; here they do
    not. *)
Lemma comparisons_one_level :
  evaluate ∅ (bs "5 == 5 > 0") = Ok 1 ∧ meaning ∅ (Bin OEq (Num 5) (Bin OGt (Num 5) (Num 0))) = Ok 0.
Proof. vm_compute. done. Qed.

(** && and || are dropped: the tokenizer skips them as unknown bytes, the
    evaluator stops behind the first operand, and so [a && b] and [a || b] mean
    [a]. *)
Theorem logical_operators_ignored macros a b op :
  op = bs " && " ∨ op = bs " || " → wf_expr a → wf_expr b → no_op_first (print 1 b) →
  evaluate macros (render a ++ op ++ render b) = meaning macros a.
Proof.
  intros Hop Ha Hb Hno. unfold evaluate, render.
  destruct (print 1 a) as [|ta ra] eqn:Ea; [by apply print_nonempty in Ea|].
  destruct (print 1 b) as [|tb rb] eqn:Eb; [by apply print_nonempty in Eb|].
  assert (Forall (λ c, skipped c = true) op ∧ op ≠ []) as [Hsk Hne] by (destruct Hop as [-> | ->]; repeat constructor; done).
  rewrite <- (app_nil_l (strings_Join (map value (ta :: ra)) [32])).
  rewrite <- (laid_out_spaced [] ta ra), <- (laid_out_spaced op tb rb), <- laid_out_app, newParser_laid_out.
  - cbn [mbind outcome_bind]. rewrite map_app, !spaced_snd, <- Ea. by apply parse_print.
  - apply spaced_wf.
    + apply well_spaced_app; [by apply spaced_well..|done].
    + rewrite map_app, !spaced_snd, <- Ea, <- Eb. apply Forall_app. split; by apply print_wf.
Qed.

Lemma logical_operators_ignored_witness :
  no_op_first (print 1 (Num 0)) ∧ evaluate ∅ (bs "1 && 0") = Ok 1.
Proof.
  assert (no_op_first (print 1 (Num 0))) as H by (split_and!; [intros k _; by destruct k as [|[|[|[|k]]]]|done..]).
  split; [exact H|]. refine (logical_operators_ignored ∅ (Num 1) (Num 0) (bs " && ") (or_introl eq_refl) _ _ H); cbn; lia.
Defined.

(** Evaluation returns on every text, and panics only where a division sign is. *)
Lemma evaluate_returns macros s :
  (∃ v, evaluate macros s = Ok v) ∨ (evaluate macros s = Panic ∧ (ch "/" ∈ s ∨ ch "%" ∈ s)).
Proof.
  unfold evaluate, newParser. destruct (all_tokens_total (S (length s)) s ltac:(lia)) as (ts & -> & Hts).
  cbn [mbind outcome_bind]. destruct (parse_total macros ts) as [?|[-> (t & Ht & Hd)%Exists_exists]]; [by left|].
  right. split; [done|]. rewrite Forall_forall in Hts. destruct (Hts t Ht) as (k & r & ->).
  rewrite !elem_of_app. destruct Hd as [-> | ->]; [left|right]; right; left; by apply list_elem_of_singleton.
Qed.
