(* ===== verification/FzpScan.v ===== *)
(** * FZP: the block scanner (fzp/scanner.go, scanner_amd64.go, scanner_amd64.s)

    Blocks of 32 bytes are scanned into bit masks and offsets of newlines. The
    result is the written part of [out] and of [offsets]. *)
From stdpp Require Import list.
From S2P Require Import Prelude.

(** ** The portable scanner *)
Record scanBlock : Type := mk_block { newlines : Z; hashes : Z; spaces : Z }.

Definition scan_byte (b : scanBlock) (offset : nat) (v : Z) : scanBlock :=
  let bit := u32 (Z.shiftl 1 (Z.of_nat offset)) in
  if v =? 10 then mk_block (Z.lor (newlines b) bit) (hashes b) (spaces b)
  else if v =? ch "#" then mk_block (newlines b) (Z.lor (hashes b) bit) (spaces b)
  else if (v =? 32) || (v =? 9) || (v =? 13) then mk_block (newlines b) (hashes b) (Z.lor (spaces b) bit)
  else b.

Fixpoint scan_bytes (b : scanBlock) (offset : nat) (l : bytes) : scanBlock :=
  match l with [] => b | v :: r => scan_bytes (scan_byte b offset v) (S offset) r end.

(** bits.TrailingZeros32, on a word that is not 0. *)
Fixpoint trailing_zeros (fuel : nat) (z : Z) : Z :=
  match fuel with
  | O => 0
  | S k => if Z.odd z then 0 else 1 + trailing_zeros k (Z.shiftr z 1)
  end.
Definition TrailingZeros32 (z : Z) : Z := trailing_zeros 32 z.

(** The lowest bit is read off and cleared until none is left; [cap] is the
    length of [offsets]. *)
Fixpoint newline_loop (fuel : nat) (blockIndex cap : nat) (nl : Z) (offsets : list Z) : outcome (list Z) :=
  if nl =? 0 then Ok offsets
  else match fuel with
       | O => Diverge
       | S n =>
           if (length offsets <? cap)%nat then
             newline_loop n blockIndex cap (Z.land nl (u32 (nl - 1)))
               (offsets ++ [u16 (Z.of_nat blockIndex * 32 + TrailingZeros32 nl)])
           else Panic
       end.

Fixpoint block_loop (n blockIndex cap : nat) (data : bytes) (blocks : list scanBlock) (offsets : list Z)
    : outcome (list scanBlock * list Z) :=
  match n with
  | O => Ok (blocks, offsets)
  | S k =>
      part ← slice data (blockIndex * 32) (blockIndex * 32 + 32);
      let block := scan_bytes (mk_block 0 0 0) 0 part in
      offsets ← newline_loop 32 blockIndex cap (newlines block) offsets;
      block_loop k (S blockIndex) cap data (blocks ++ [block]) offsets
  end.

(** The number of blocks scanned, of [nout] masks and [cap] offsets. *)
Definition block_count (data : bytes) (nout cap : nat) : nat :=
  Nat.min (Nat.min (length data / 32) nout) (cap / 32).

Definition scanFZPBlocksGeneric (data : bytes) (nout cap : nat) : outcome (list scanBlock * list Z) :=
  block_loop (block_count data nout cap) 0 cap data [] [].

(** ** The vector scanner *)

(** VPCMPEQB with a repeated byte, then VPMOVMSKB: bit [i] is set where byte
    [i] is equal. *)
Fixpoint movemask (c : Z) (l : bytes) : Z :=
  match l with [] => 0 | v :: r => 2 * movemask c r + Z.b2z (v =? c) end.

(** TZCNT, MOVW, BLSR until no bit is left; [pos] is R11. Nothing checks the
    room in [offsets]. *)
Fixpoint scan_newline_loop (fuel : nat) (pos nl : Z) (offsets : list Z) : outcome (list Z) :=
  if nl =? 0 then Ok offsets
  else match fuel with
       | O => Diverge
       | S n => scan_newline_loop n pos (Z.land nl (u32 (nl - 1))) (offsets ++ [u16 (pos + TrailingZeros32 nl)])
       end.

Fixpoint scan_blocks_loop (n : nat) (pos : Z) (data : bytes) (blocks : list scanBlock) (offsets : list Z)
    : outcome (list scanBlock * list Z) :=
  match n with
  | O => Ok (blocks, offsets)
  | S k =>
      let part := take 32 data in
      offsets ← scan_newline_loop 32 pos (movemask 10 part) offsets;
      let block := mk_block (movemask 10 part) (movemask (ch "#") part)
                     (Z.lor (Z.lor (movemask 32 part) (movemask 9 part)) (movemask 13 part)) in
      scan_blocks_loop k (pos + 32) (drop 32 data) (blocks ++ [block]) offsets
  end.

Definition scanFZPBlocksAVX2 (data : bytes) (blocks : nat) : outcome (list scanBlock * list Z) :=
  scan_blocks_loop blocks 0 data [] [].

(** scanFZPBlocks on amd64; [avx2] tells whether the processor has AVX2 and BMI1. *)
Definition scanFZPBlocks (avx2 : bool) (data : bytes) (nout cap : nat) : outcome (list scanBlock * list Z) :=
  let blocks := block_count data nout cap in
  if (blocks =? 0)%nat then Ok ([], [])
  else if negb avx2 then scanFZPBlocksGeneric (take (blocks * 32) data) blocks cap
  else scanFZPBlocksAVX2 data blocks.

(** ** Masks *)

Definition is_nl (v : Z) : bool := v =? 10.

(** The word whose bit [i] is the [i]-th truth value. *)
Fixpoint mask_of (l : list bool) : Z := match l with [] => 0 | b :: r => 2 * mask_of r + Z.b2z b end.

Fixpoint positions (k : nat) (l : list bool) : list nat :=
  match l with [] => [] | b :: r => if b then k :: positions (S k) r else positions (S k) r end.

Fixpoint clear_first (l : list bool) : list bool :=
  match l with [] => [] | b :: r => if b then false :: r else false :: clear_first r end.

Definition mask (f : Z → bool) (l : bytes) : Z := mask_of (map f l).

Lemma mask_of_range l : 0 ≤ mask_of l < 2 ^ Zlen l.
Proof.
  induction l as [|b l IH]; [done|]. cbn [mask_of length]. rewrite Nat2Z.inj_succ, Z.pow_succ_r by lia.
  destruct b; cbn [Z.b2z]; lia.
Qed.

Lemma mask_of_testbit l i : 0 ≤ i → Z.testbit (mask_of l) i = default false (l !! Z.to_nat i).
Proof.
  revert i. induction l as [|b l IH]; intros i Hi; [by rewrite Z.testbit_0_l|].
  cbn [mask_of]. destruct (decide (i = 0)) as [->|]; [by rewrite Z.testbit_0_r|].
  replace i with (Z.succ (Z.pred i)) by lia. rewrite Z.testbit_succ_r by lia. rewrite IH by lia.
  by replace (Z.to_nat (Z.succ (Z.pred i))) with (S (Z.to_nat (Z.pred i))) by lia.
Qed.

Lemma movemask_mask c l : movemask c l = mask (λ v, v =? c) l.
Proof. unfold mask. induction l as [|v l IH]; [done|]. cbn [movemask map mask_of]. by rewrite IH. Qed.

Lemma mask_lor f g l : Z.lor (mask f l) (mask g l) = mask (λ v, f v || g v) l.
Proof.
  apply Z.bits_inj'. intros i Hi. rewrite Z.lor_spec. unfold mask. rewrite !mask_of_testbit by done.
  rewrite !list_lookup_fmap. by destruct (l !! Z.to_nat i).
Qed.

Lemma mask_range f l : 0 ≤ mask f l < 2 ^ Zlen l.
Proof. unfold mask. rewrite <- (length_map f l). apply mask_of_range. Qed.

Lemma lor_pow2 a k : 0 ≤ k → 0 ≤ a < 2 ^ k → Z.lor a (2 ^ k) = a + 2 ^ k.
Proof.
  intros Hk Ha. assert (Z.land a (2 ^ k) = 0) as H0.
  { apply Z.bits_inj'. intros i Hi. rewrite Z.land_spec, Z.bits_0, Z.pow2_bits_eqb by done.
    destruct (Z.eqb_spec k i) as [<-|]; [|by rewrite andb_false_r]. rewrite andb_true_r.
    rewrite <- (Z.mod_small a (2 ^ k)) by done. by apply Z.mod_pow2_bits_high. }
  by rewrite <- Z.lxor_lor, <- Z.add_nocarry_lxor.
Qed.

(** One pass over a block computes the three masks. *)
Lemma scan_bytes_masks b k l :
  0 ≤ newlines b < 2 ^ Z.of_nat k → 0 ≤ hashes b < 2 ^ Z.of_nat k → 0 ≤ spaces b < 2 ^ Z.of_nat k →
  (k + length l ≤ 32)%nat →
  scan_bytes b k l =
    mk_block (newlines b + 2 ^ Z.of_nat k * mask is_nl l) (hashes b + 2 ^ Z.of_nat k * mask (λ v, v =? 35) l)
             (spaces b + 2 ^ Z.of_nat k * mask (λ v, (v =? 32) || (v =? 9) || (v =? 13)) l).
Proof.
  revert b k. induction l as [|v l IH]; intros [n h s] k Hn Hh Hs Hk; cbn [newlines hashes spaces] in *.
  - unfold mask. cbn. by rewrite !Z.mul_0_r, !Z.add_0_r.
  - cbn [length] in Hk. cbn [scan_bytes].
    assert (2 ^ Z.of_nat (S k) = 2 * 2 ^ Z.of_nat k) as H2 by (rewrite Nat2Z.inj_succ, Z.pow_succ_r by lia; lia).
    assert (u32 (Z.shiftl 1 (Z.of_nat k)) = 2 ^ Z.of_nat k) as Hbit.
    { rewrite Z.shiftl_1_l. apply wrap_small. unfold is_word. split; [lia|]. apply Z.pow_lt_mono_r; lia. }
    unfold mask, is_nl in *. cbn [map mask_of]. unfold scan_byte. rewrite Hbit. cbn [newlines hashes spaces].
    rewrite !lor_pow2 by lia.
    destruct (Z.eqb_spec v 10) as [->|H10]; [|destruct (Z.eqb_spec v 35) as [->|H35]; [|destruct ((v =? 32) || (v =? 9) || (v =? 13))]];
      (rewrite IH; cbn [newlines hashes spaces]; [|lia..]); cbn [orb Z.eqb Z.b2z]; f_equal; rewrite H2; cbn; lia.
Qed.

(** ** Reading off the lowest bit *)
Lemma lowest_odd m : Z.land (2 * m + 1) (2 * m) = 2 * m.
Proof.
  apply Z.bits_inj'. intros i Hi. rewrite Z.land_spec. destruct (decide (i = 0)) as [->|].
  - rewrite Z.testbit_even_0. by rewrite andb_false_r.
  - replace i with (Z.succ (Z.pred i)) by lia. rewrite Z.testbit_odd_succ, Z.testbit_even_succ by lia. by rewrite andb_diag.
Qed.

Lemma lowest_even a b : Z.land (2 * a) (2 * b + 1) = 2 * Z.land a b.
Proof.
  apply Z.bits_inj'. intros i Hi. rewrite Z.land_spec. destruct (decide (i = 0)) as [->|].
  - by rewrite !Z.testbit_even_0.
  - replace i with (Z.succ (Z.pred i)) by lia. rewrite Z.testbit_odd_succ, !Z.testbit_even_succ by lia. by rewrite Z.land_spec.
Qed.

Lemma clear_lowest l : mask_of l ≠ 0 → Z.land (mask_of l) (mask_of l - 1) = mask_of (clear_first l).
Proof.
  induction l as [|b l IH]; intros Hne; [done|]. cbn [mask_of clear_first] in *. destruct b; cbn [Z.b2z mask_of] in *.
  - rewrite Z.add_simpl_r, lowest_odd. lia.
  - rewrite !Z.add_0_r in *. replace (2 * mask_of l - 1) with (2 * (mask_of l - 1) + 1) by lia.
    rewrite lowest_even, IH by lia. done.
Qed.

Lemma positions_S k l : positions (S k) l = map S (positions k l).
Proof. revert k. induction l as [|b l IH]; intros k; [done|]. cbn. rewrite !IH. by destruct b. Qed.

Lemma mask_positions l : mask_of l = 0 ↔ positions 0 l = [].
Proof.
  induction l as [|b l IH]; [done|]. cbn [mask_of positions]. rewrite positions_S. pose proof (mask_of_range l).
  destruct b; cbn [Z.b2z]; [split; [lia|done]|].
  split; [intros H1; by rewrite (proj1 IH) by lia | intros H1%map_eq_nil; rewrite (proj2 IH) by done; done].
Qed.

Lemma trailing_zeros_first fuel l p ps :
  positions 0 l = p :: ps → (length l ≤ fuel)%nat →
  trailing_zeros fuel (mask_of l) = Z.of_nat p ∧ positions 0 (clear_first l) = ps.
Proof.
  revert l p ps. induction fuel as [|k IH]; intros [|b l] p ps; cbn [positions length]; try done; [lia|].
  rewrite positions_S. intros Hp Hl. cbn [trailing_zeros mask_of clear_first positions].
  rewrite Z.odd_add, Z.odd_mul. cbn [Z.odd andb xorb]. destruct b; cbn [Z.b2z Z.odd]; cbn.
  - injection Hp as <- <-. by rewrite positions_S.
  - rewrite positions_S. destruct (positions 0 l) as [|q qs] eqn:E; [done|]. injection Hp as <- <-.
    destruct (IH l q qs E ltac:(lia)) as [H1 H2]. rewrite H2. split; [|done].
    rewrite Z.add_0_r. rewrite Z.shiftr_div_pow2 by lia. change (2 ^ 1) with 2. rewrite Z.mul_comm, Z.div_mul by lia. rewrite H1. lia.
Qed.

(** ** What a scan computes *)

(** The masks of a block. *)
Definition masks (part : bytes) : scanBlock :=
  mk_block (mask is_nl part) (mask (λ v, v =? ch "#") part)
           (mask (λ v, (v =? 32) || (v =? 9) || (v =? 13)) part).

Definition part (data : bytes) (i : nat) : bytes := take 32 (drop (i * 32) data).

(** The offsets of the newlines of block [i], as stored. *)
Definition part_offsets (data : bytes) (i : nat) : list Z :=
  map (λ p, u16 (Z.of_nat i * 32 + Z.of_nat p)) (positions 0 (map is_nl (part data i))).

Lemma positions_length k l : (length (positions k l) ≤ length l)%nat.
Proof. revert k. induction l as [|b l IH]; intros k; [done|]. cbn. specialize (IH (S k)). destruct b; cbn; lia. Qed.

Lemma lowest_step l :
  (length l ≤ 32)%nat → mask_of l ≠ 0 →
  ∃ p ps, positions 0 l = p :: ps ∧ TrailingZeros32 (mask_of l) = Z.of_nat p ∧
    Z.land (mask_of l) (u32 (mask_of l - 1)) = mask_of (clear_first l) ∧ positions 0 (clear_first l) = ps.
Proof.
  intros Hl Hne. pose proof (mask_of_range l) as Hr.
  assert (2 ^ Zlen l ≤ 2 ^ 32) by (apply Z.pow_le_mono_r; lia).
  destruct (positions 0 l) as [|p ps] eqn:E; [by apply mask_positions in E|]. exists p, ps.
  destruct (trailing_zeros_first 32 l p ps E Hl) as [H1 H2]. split_and!; [done..| |done].
  rewrite wrap_small by (unfold is_word; lia). by apply clear_lowest.
Qed.

Lemma clear_first_length l : length (clear_first l) = length l.
Proof. induction l as [|[] l IH]; cbn; auto. Qed.

Lemma newline_loop_spec fuel bi cap l offs :
  (length l ≤ 32)%nat → (length (positions 0 l) ≤ fuel)%nat → (length offs + length (positions 0 l) ≤ cap)%nat →
  newline_loop fuel bi cap (mask_of l) offs = Ok (offs ++ map (λ p, u16 (Z.of_nat bi * 32 + Z.of_nat p)) (positions 0 l)).
Proof.
  revert l offs. induction fuel as [|k IH]; intros l offs Hl Hf Hc; cbn [newline_loop];
    (destruct (Z.eqb_spec (mask_of l) 0) as [H0|H0]; [apply mask_positions in H0; rewrite H0; cbn; by rewrite app_nil_r|]);
    destruct (lowest_step l Hl H0) as (p & ps & Hp & Htz & Hland & Hps); rewrite Hp in *; cbn [length] in *; [lia|].
  rewrite (proj2 (Nat.ltb_lt _ _)) by lia. rewrite Hland, Htz.
  rewrite IH; [|by rewrite clear_first_length|rewrite Hps; lia|rewrite Hps, length_app; cbn; lia].
  rewrite Hps, <- (assoc (++)). done.
Qed.

Lemma scan_newline_loop_spec fuel pos l offs :
  (length l ≤ 32)%nat → (length (positions 0 l) ≤ fuel)%nat →
  scan_newline_loop fuel pos (mask_of l) offs = Ok (offs ++ map (λ p, u16 (pos + Z.of_nat p)) (positions 0 l)).
Proof.
  revert l offs. induction fuel as [|k IH]; intros l offs Hl Hf; cbn [scan_newline_loop];
    (destruct (Z.eqb_spec (mask_of l) 0) as [H0|H0]; [apply mask_positions in H0; rewrite H0; cbn; by rewrite app_nil_r|]);
    destruct (lowest_step l Hl H0) as (p & ps & Hp & Htz & Hland & Hps); rewrite Hp in *; cbn [length] in *; [lia|].
  rewrite Hland, Htz. rewrite IH; [|by rewrite clear_first_length|rewrite Hps; lia].
  rewrite Hps, <- (assoc (++)). done.
Qed.

Lemma part_length data i : (length (part data i) ≤ 32)%nat.
Proof. unfold part. rewrite length_take. lia. Qed.

Lemma part_positions data i : (length (positions 0 (map is_nl (part data i))) ≤ 32)%nat.
Proof. etrans; [apply positions_length|]. rewrite length_map. apply part_length. Qed.

Lemma scan_bytes_part data i : scan_bytes (mk_block 0 0 0) 0 (part data i) = masks (part data i).
Proof. rewrite scan_bytes_masks; cbn; [|lia..|apply part_length]. unfold masks. f_equal; lia. Qed.

Lemma block_step data bi :
  (bi * 32 + 32 ≤ length data)%nat → slice data (bi * 32) (bi * 32 + 32) = Ok (part data bi).
Proof.
  intros H. unfold slice, part. rewrite (proj2 (Nat.leb_le _ _)), (proj2 (Nat.leb_le (bi * 32 + 32) _)) by lia.
  cbn [andb]. do 2 f_equal. lia.
Qed.

Lemma newline_loop_part bi cap data offs :
  (length offs + 32 ≤ cap)%nat →
  newline_loop 32 bi cap (mask is_nl (part data bi)) offs = Ok (offs ++ part_offsets data bi).
Proof.
  intros H. pose proof (part_positions data bi). unfold mask. apply newline_loop_spec; [rewrite length_map; apply part_length|lia..].
Qed.

Lemma part_offsets_length data i : (length (part_offsets data i) ≤ 32)%nat.
Proof. unfold part_offsets. rewrite length_map. apply part_positions. Qed.

Lemma Ok_bind {A B} (a : A) (f : A → outcome B) : Ok a ≫= f = f a.
Proof. done. Qed.

Lemma block_loop_S n bi cap data blocks offs :
  (bi * 32 + 32 ≤ length data)%nat → (length offs + 32 ≤ cap)%nat →
  block_loop (S n) bi cap data blocks offs =
    block_loop n (S bi) cap data (blocks ++ [masks (part data bi)]) (offs ++ part_offsets data bi).
Proof.
  intros Hd Hc.
  transitivity (p ← slice data (bi * 32) (bi * 32 + 32);
                o ← newline_loop 32 bi cap (newlines (scan_bytes (mk_block 0 0 0) 0 p)) offs;
                block_loop n (S bi) cap data (blocks ++ [scan_bytes (mk_block 0 0 0) 0 p]) o); [done|].
  rewrite block_step, Ok_bind, scan_bytes_part by done.
  pose proof (newline_loop_part bi cap data offs Hc) as H.
  assert (newlines (masks (part data bi)) = mask is_nl (part data bi)) as Hm by (unfold masks; reflexivity).
  rewrite Hm, H. apply Ok_bind.
Qed.

Lemma block_loop_spec n bi cap data blocks offs :
  ((bi + n) * 32 ≤ length data)%nat → (length offs + n * 32 ≤ cap)%nat →
  block_loop n bi cap data blocks offs =
    Ok (blocks ++ map (λ i, masks (part data i)) (seq bi n), offs ++ concat (map (part_offsets data) (seq bi n))).
Proof.
  revert bi blocks offs. induction n as [|n IH]; intros bi blocks offs Hd Hc; [by rewrite !app_nil_r|].
  pose proof (part_offsets_length data bi). rewrite block_loop_S by lia. rewrite IH; [|lia|rewrite length_app; lia].
  cbn [seq map concat]. by rewrite <- !(assoc (++)).
Qed.

Lemma scan_newline_loop_part bi data offs :
  scan_newline_loop 32 (Z.of_nat bi * 32) (mask is_nl (part data bi)) offs = Ok (offs ++ part_offsets data bi).
Proof. unfold mask. apply scan_newline_loop_spec; [rewrite length_map; apply part_length|apply part_positions]. Qed.

Lemma scan_blocks_loop_spec n bi data blocks offs :
  scan_blocks_loop n (Z.of_nat bi * 32) (drop (bi * 32) data) blocks offs =
    Ok (blocks ++ map (λ i, masks (part data i)) (seq bi n), offs ++ concat (map (part_offsets data) (seq bi n))).
Proof.
  revert bi blocks offs. induction n as [|n IH]; intros bi blocks offs; [by rewrite !app_nil_r|].
  cbn [scan_blocks_loop]. fold (part data bi). rewrite !movemask_mask, !mask_lor.
  change (mask (λ v, v =? 10) (part data bi)) with (mask is_nl (part data bi)).
  fold (masks (part data bi)).
  rewrite scan_newline_loop_part.
  cbn [mbind outcome_bind]. rewrite drop_drop. replace (bi * 32 + 32)%nat with (S bi * 32)%nat by lia.
  replace (Z.of_nat bi * 32 + 32) with (Z.of_nat (S bi) * 32) by lia. rewrite IH. cbn [seq map concat]. by rewrite <- !(assoc (++)).
Qed.

Lemma positions_app k a b : positions k (a ++ b) = positions k a ++ positions (k + length a) b.
Proof.
  revert k. induction a as [|x a IH]; intros k; cbn; [by rewrite Nat.add_0_r|]. rewrite IH.
  replace (S k + length a)%nat with (k + S (length a))%nat by lia. by destruct x.
Qed.

Lemma positions_shift k l : positions k l = map (Nat.add k) (positions 0 l).
Proof.
  induction k as [|k IH]; [by rewrite map_id|]. rewrite positions_S, IH, map_map. done.
Qed.

Lemma take_part data n : ((S n) * 32 ≤ length data)%nat → take (S n * 32) data = take (n * 32) data ++ part data n.
Proof. intros H. unfold part. rewrite take_take_drop. f_equal. lia. Qed.

Lemma part_offsets_positions data n :
  (n * 32 ≤ length data)%nat → Z.of_nat n * 32 ≤ 2 ^ 16 →
  concat (map (part_offsets data) (seq 0 n)) = map Z.of_nat (positions 0 (map is_nl (take (n * 32) data))).
Proof.
  induction n as [|n IH]; intros Hd Hn; [done|]. rewrite seq_S, map_app, concat_app, IH by lia.
  rewrite take_part, map_app, positions_app, map_app by done. f_equal. cbn [map concat plus]. rewrite app_nil_r.
  rewrite length_map, length_take, positions_shift, map_map. unfold part_offsets. apply map_ext_in.
  intros p Hp. rewrite wrap_small; [rewrite Nat.min_l by lia; lia|]. unfold is_word.
  assert (p < 32)%nat; [|lia]. clear -Hp. revert Hp.
  assert (∀ l, (length l ≤ 32)%nat → In p (positions 0 l) → (p < 32)%nat) as H; [|apply H; rewrite length_map; apply part_length].
  intros l Hl Hin. cut (p < 0 + length l)%nat; [lia|]. revert Hin. clear Hl. generalize 0%nat. induction l as [|b l IH]; intros k; [done|].
  cbn [positions length]. intros Hin. assert (p = k ∨ In p (positions (S k) l)) as [->|H] by (destruct b; cbn in Hin; naive_solver); [lia|].
  apply IH in H. lia.
Qed.

Lemma block_count_le data nout cap :
  (block_count data nout cap * 32 ≤ length data)%nat ∧ (block_count data nout cap * 32 ≤ cap)%nat.
Proof.
  unfold block_count. pose proof (Nat.Div0.mul_div_le (length data) 32). pose proof (Nat.Div0.mul_div_le cap 32). lia.
Qed.

(** What both scanners return. *)
Definition scan_result (data : bytes) (n : nat) : list scanBlock * list Z :=
  (map (λ i, masks (part data i)) (seq 0 n), concat (map (part_offsets data) (seq 0 n))).

Lemma scanFZPBlocksGeneric_spec data nout cap :
  scanFZPBlocksGeneric data nout cap = Ok (scan_result data (block_count data nout cap)).
Proof.
  destruct (block_count_le data nout cap). unfold scanFZPBlocksGeneric. 
  rewrite block_loop_spec; [done|rewrite Nat.add_0_l; lia|cbn [length]; lia].
Qed.

Lemma part_take data n i : (i < n)%nat → part (take (n * 32) data) i = part data i.
Proof.
  intros Hi. unfold part. apply list_eq. intros j. destruct (decide (j < 32)%nat).
  - rewrite !lookup_take_lt, !lookup_drop, lookup_take_lt by lia. done.
  - by rewrite !lookup_take_ge by lia.
Qed.

Lemma scan_result_take data n : scan_result (take (n * 32) data) n = scan_result data n.
Proof.
  unfold scan_result. f_equal; [|f_equal]; apply map_ext_in; intros i Hi%in_seq;
    [|unfold part_offsets]; by rewrite part_take by lia.
Qed.

Lemma block_count_take data nout cap :
  let n := block_count data nout cap in block_count (take (n * 32) data) n cap = n.
Proof.
  intros n. destruct (block_count_le data nout cap) as [Hd Hc]. fold n in Hd, Hc.
  assert (n ≤ cap / 32)%nat by (apply Nat.div_le_lower_bound; lia).
  unfold block_count. rewrite length_take, (Nat.min_l (n * 32)) by lia. rewrite Nat.div_mul by lia. lia.
Qed.

(** The scanners agree: with or without the vector instructions, scanning
    as many blocks as fit gives, per block, the masks of its newlines, hashes
    and blanks, and the offsets of all newlines in order; they never write
    outside [offsets]. *)
Theorem scanners_agree avx2 data nout cap :
  let n := block_count data nout cap in
  Z.of_nat n * 32 ≤ 2 ^ 16 →
  let result := Ok (map (λ i, masks (part data i)) (seq 0 n), map Z.of_nat (positions 0 (map is_nl (take (n * 32) data)))) in
  scanFZPBlocksGeneric data nout cap = result ∧ scanFZPBlocks avx2 data nout cap = result.
Proof.
  intros n Hn result. destruct (block_count_le data nout cap) as [Hd Hc]. fold n in Hd, Hc.
  assert (result = Ok (scan_result data n)) as ->.
  { unfold result, scan_result. do 2 f_equal. symmetry. by apply part_offsets_positions. }
  split; [apply scanFZPBlocksGeneric_spec|]. unfold scanFZPBlocks. fold n.
  destruct (Nat.eqb_spec n 0) as [->|Hne]; [done|]. destruct avx2; cbn [negb].
  - unfold scanFZPBlocksAVX2. rewrite <- (drop_0 data) at 1. by rewrite (scan_blocks_loop_spec n 0).
  - rewrite scanFZPBlocksGeneric_spec. unfold n at 2 3. rewrite block_count_take. fold n. by rewrite scan_result_take.
Qed.

Lemma scanners_agree_witness :
  let data := replicate 3 97 ++ [10] ++ replicate 29 35 ++ [10; 32; 32] ++ replicate 30 98 in
  scanFZPBlocks true data 64 2048 = scanFZPBlocksGeneric data 64 2048 ∧
  (scanFZPBlocks true data 64 2048 = Ok ([masks (part data 0); masks (part data 1)], [3; 33])).
Proof.
  intros data. destruct (scanners_agree true data 64 2048 ltac:(vm_compute; discriminate)) as [H1 H2].
  split; [by rewrite H2|]. rewrite H2. vm_compute. reflexivity.
Defined.
