(* ===== verification/FzpProcess.v ===== *)
(** * FZP: the line processor (fzp/processor.go)

    A [Processor] is threaded through every operation, also when it fails, as
    the code's methods change it in place. What the operating system gives is
    a record [world]. *)
From stdpp Require Import list gmap sorting.
From S2P Require Import Prelude GoStrings GoPath FzpExpr FzpScan.

(** ** The outside *)
Record world : Type := mk_world {
  ReadFile : bytes → option bytes;            (* os.ReadFile, [None] is an error *)
  file_exists : bytes → bool;                 (* os.Stat gives no error *)
  cwd : option bytes;                         (* os.Getwd *)
  environ : list bytes;                       (* os.Environ *)
  goos : bytes;                               (* runtime.GOOS *)
  sha256_hex : bytes → bytes;                 (* the hexadecimal digest *)
  avx2 : bool;                                (* which block scanner runs *)
  macro_order : nat → gmap bytes bytes → list (bytes * bytes);
  dir_order : nat → gset bytes → list bytes   (* the order of the n-th map iteration *)
}.

(** Iterating over a map yields its entries in some order. *)
Definition orders_ok (w : world) : Prop :=
  (∀ n m, macro_order w n m ≡ₚ map_to_list m) ∧ (∀ n s, dir_order w n s ≡ₚ elements s).

(** ** The state *)
Record condState : Type := mk_cond { active : bool; branchTaken : bool; parentActive : bool }.

#[export] Instance condState_eq_dec : EqDecision condState.
Proof. solve_decision. Defined.

(** The stacks have their top first; [ticks] counts the map iterations. *)
Record Processor : Type := mk_proc {
  rootDir : bytes;
  allowedDirs : gset bytes;
  macros : gmap bytes bytes;
  cache : gmap bytes bytes;
  includeStack : list bytes;
  condStack : list condState;
  preserveDefines : bool;
  ticks : nat
}.

Definition set_macros (m : gmap bytes bytes) (p : Processor) : Processor :=
  mk_proc (rootDir p) (allowedDirs p) m (cache p) (includeStack p) (condStack p) (preserveDefines p) (ticks p).
Definition set_cache (c : gmap bytes bytes) (p : Processor) : Processor :=
  mk_proc (rootDir p) (allowedDirs p) (macros p) c (includeStack p) (condStack p) (preserveDefines p) (ticks p).
Definition set_includes (l : list bytes) (p : Processor) : Processor :=
  mk_proc (rootDir p) (allowedDirs p) (macros p) (cache p) l (condStack p) (preserveDefines p) (ticks p).
Definition set_cond (l : list condState) (p : Processor) : Processor :=
  mk_proc (rootDir p) (allowedDirs p) (macros p) (cache p) (includeStack p) l (preserveDefines p) (ticks p).
Definition tick (p : Processor) : Processor :=
  mk_proc (rootDir p) (allowedDirs p) (macros p) (cache p) (includeStack p) (condStack p) (preserveDefines p) (S (ticks p)).

(** ** The processor's monad *)
Definition P (A : Type) : Type := Processor → outcome A * Processor.

Definition ret {A} (a : A) : P A := λ s, (Ok a, s).
Definition bind {A B} (m : P A) (f : A → P B) : P B := λ s,
  match m s with
  | (Ok a, s') => f a s'
  | (Err e, s') => (Err e, s')
  | (Panic, s') => (Panic, s')
  | (Diverge, s') => (Diverge, s')
  end.
#[export] Instance P_ret : MRet P := @ret.
#[export] Instance P_bind : MBind P := λ A B f m, bind m f.

Definition lift {A} (m : outcome A) : P A := λ s, (m, s).
Definition get : P Processor := λ s, (Ok s, s).
Definition modify (f : Processor → Processor) : P unit := λ s, (Ok tt, f s).

(** ** Macros *)

(** The length of the rune a string begins with: utf8.DecodeRuneInString. *)
Definition in_range (lo hi c : Z) : bool := (lo <=? c) && (c <=? hi).
Definition cont (c : Z) : bool := in_range 0x80 0xBF c.
Definition rune_len (s : bytes) : nat :=
  match s with
  | a :: b :: c :: d :: _ =>
      if in_range 0xC2 0xDF a && cont b then 2%nat
      else if ((a =? 0xE0) && in_range 0xA0 0xBF b || in_range 0xE1 0xEC a && cont b || (a =? 0xED) && in_range 0x80 0x9F b || in_range 0xEE 0xEF a && cont b) && cont c then 3%nat
      else if ((a =? 0xF0) && in_range 0x90 0xBF b || in_range 0xF1 0xF3 a && cont b || (a =? 0xF4) && in_range 0x80 0x8F b) && cont c && cont d then 4%nat
      else 1%nat
  | a :: b :: c :: _ =>
      if in_range 0xC2 0xDF a && cont b then 2%nat
      else if ((a =? 0xE0) && in_range 0xA0 0xBF b || in_range 0xE1 0xEC a && cont b || (a =? 0xED) && in_range 0x80 0x9F b || in_range 0xEE 0xEF a && cont b) && cont c then 3%nat
      else 1%nat
  | a :: b :: _ => if in_range 0xC2 0xDF a && cont b then 2%nat else 1%nat
  | _ => 1%nat
  end.

(** [new] before every rune and at the end. *)
Fixpoint insert_all (skip : nat) (new s : bytes) : bytes :=
  match s with
  | [] => new
  | c :: r =>
      match skip with
      | S k => c :: insert_all k new r
      | O => new ++ c :: insert_all (rune_len s - 1) new r
      end
  end.

Definition ReplaceAll (s old new : bytes) : bytes :=
  if nilb old then insert_all 0 new s else replace_from 0 old new s.

(** A single word that begins with OUTPUT and names a macro is its value. *)
Definition output_macro (m : gmap bytes bytes) (value : bytes) : option bytes :=
  match Fields value with
  | [x] => if HasPrefix x (bs "OUTPUT") then m !! x else None
  | _ => None
  end.

Definition expandMacros (w : world) (value : bytes) : P bytes :=
  p ← get;
  if decide (macros p = ∅) then mret value else
  match output_macro (macros p) value with
  | Some val => mret val
  | None =>
      modify tick ;;
      mret (fold_left (λ v '(name, r), ReplaceAll v name r) (macro_order w (ticks p) (macros p)) value)
  end.

Definition makeMacroMap (src : gmap bytes bytes) : gmap bytes macro := (λ v, mk_macro v false) <$> src.

(** ** Paths *)
Definition absPath (w : world) (path : bytes) : bytes :=
  let cleaned := Clean path in default cleaned (Abs (cwd w) cleaned).

Definition isAllowedPath (w : world) (p : Processor) (path : bytes) : bool :=
  let abs := absPath w path in
  bool_decide (abs ∈ allowedDirs p) || existsb (λ dir, HasPrefix abs (dir ++ [slash])) (elements (allowedDirs p)).

Definition resolvePath (w : world) (p : Processor) (path : bytes) : outcome bytes :=
  if nilb path then Ok [] else
  if IsAbs path && negb (isAllowedPath w p path) then Err ("path outside allowed paths: " +:+ string_of_bytes path) else
  let resolved := if IsAbs path then path else filepath_Join (rootDir p) path in
  let resolved := Clean resolved in
  if negb (isAllowedPath w p resolved) then Err ("path outside allowed paths: " +:+ string_of_bytes resolved)
  else Ok resolved.

Definition resolveIncludePath (w : world) (includePath currentPath : bytes) : P bytes :=
  if nilb includePath then mret [] else
  p ← get;
  if IsAbs includePath then
    if isAllowedPath w p includePath then mret (Clean includePath)
    else lift (Err ("include outside allowed paths: " +:+ string_of_bytes includePath))
  else
    modify tick ;;
    let candidates := filepath_Join (Dir currentPath) includePath
                      :: map (λ dir, filepath_Join dir includePath) (dir_order w (ticks p) (allowedDirs p)) in
    match find (λ c, isAllowedPath w p c && file_exists w c) candidates with
    | Some candidate => mret (Clean candidate)
    | None => lift (Err ("cannot resolve include: " +:+ string_of_bytes includePath))
    end.

Definition isInStack (p : Processor) (path : bytes) : bool := bool_decide (path ∈ includeStack p).

Definition sort_keys (m : gmap bytes bytes) : list (bytes * bytes) :=
  merge_sort (λ x y, Is_true (bytes_leb x.1 y.1)) (map_to_list m).

(** What is hashed: the path, each macro as a zero byte, its name and its
    value, each environment string after a zero byte. *)
Definition key_bytes (w : world) (path : bytes) (m : gmap bytes bytes) : bytes :=
  path ++ concat (map (λ '(k, v), 0 :: k ++ v) (sort_keys m)) ++ concat (map (λ e, 0 :: e) (environ w)).

Definition cacheKey (w : world) (path : bytes) (m : gmap bytes bytes) : bytes := sha256_hex w (key_bytes w path m).

(** ** Directives *)
Definition shouldEmit (p : Processor) : bool :=
  match condStack p with [] => true | state :: _ => parentActive state && active state end.

(** Whether a new conditional stands in an active region. *)
Definition parent_active (p : Processor) : bool :=
  match condStack p with [] => true | state :: _ => active state end.

Definition push_cond (value : bool) : P unit :=
  modify (λ p, let parentActive := parent_active p in
               set_cond (mk_cond (parentActive && value) (parentActive && value) parentActive :: condStack p) p).

Definition drop_line : P (bytes * bool) := mret ([], false).

(** The value of the words after #if or #elif. *)
Definition condition (words : list bytes) : P bool :=
  p ← get; v ← lift (evaluate (makeMacroMap (macros p)) (strings_Join words [32])); mret (negb (v =? 0)).

Definition do_define (w : world) (line : bytes) : P (bytes * bool) :=
  match Fields line with
  | _ :: name :: _ =>
      let value := TrimSpace (TrimPrefix line (bs "#define " ++ name)) in
      v ← expandMacros w value;
      modify (λ p, set_macros (<[name := v]> (macros p)) p);;
      p ← get;
      if preserveDefines p then mret (line, true) else drop_line
  | _ => drop_line
  end.

Definition do_undef (line : bytes) : P (bytes * bool) :=
  match Fields line with
  | _ :: name :: _ =>
      modify (λ p, set_macros (delete name (macros p)) p);;
      p ← get;
      if preserveDefines p then mret (line, true) else drop_line
  | _ => drop_line
  end.

(** The text of the included file comes back with a flag that drops it. *)
Definition do_include (w : world) (process : bytes → gmap bytes bytes → P bytes) (line currentPath : bytes) : P (bytes * bool) :=
  match Fields line with
  | _ :: arg :: _ =>
      if HasPrefix arg (bs "<") && HasSuffix arg (bs ">") then mret (line, true) else
      let includePath := strings_Trim (strings_Trim arg [34]) (bs "<>") in
      if nilb includePath then drop_line else
      resolved ← resolveIncludePath w includePath currentPath;
      p ← get;
      included ← process resolved (macros p);
      mret (included, false)
  | _ => drop_line
  end.

Definition do_ifdef (negated : bool) (line : bytes) : P (bytes * bool) :=
  match Fields line with
  | _ :: name :: _ =>
      p ← get;
      push_cond (xorb negated (bool_decide (is_Some (macros p !! name))));; drop_line
  | _ => drop_line
  end.

Definition do_if (line : bytes) : P (bytes * bool) :=
  match Fields line with
  | _ :: ((_ :: _) as words) => value ← condition words; push_cond value;; drop_line
  | _ => drop_line
  end.

Definition do_elif (line : bytes) : P (bytes * bool) :=
  p ← get;
  match condStack p with
  | [] => drop_line
  | state :: rest =>
      if parentActive state && negb (branchTaken state) then
        match Fields line with
        | _ :: ((_ :: _) as words) =>
            value ← condition words;
            modify (set_cond (mk_cond value value (parentActive state) :: rest));; drop_line
        | _ => drop_line
        end
      else modify (set_cond (mk_cond false (branchTaken state) (parentActive state) :: rest));; drop_line
  end.

Definition do_else : P (bytes * bool) :=
  p ← get;
  match condStack p with
  | [] => drop_line
  | state :: rest =>
      modify (set_cond ((if parentActive state && negb (branchTaken state) then mk_cond true true (parentActive state)
                         else mk_cond false (branchTaken state) (parentActive state)) :: rest));; drop_line
  end.

Definition do_endif : P (bytes * bool) := modify (λ p, set_cond (tail (condStack p)) p);; drop_line.

(** [when_emitting]: the directive is ignored in an inactive region. *)
Definition when_emitting (m : P (bytes * bool)) : P (bytes * bool) :=
  p ← get; if negb (shouldEmit p) then drop_line else m.

Definition handleDirective (w : world) (process : bytes → gmap bytes bytes → P bytes) (line currentPath : bytes) : P (bytes * bool) :=
  let starts p := HasPrefix line p in
  if negb (starts (bs "#")) then mret (line, true)
  else if starts (bs "#define ") then when_emitting (do_define w line)
  else if starts (bs "#undef ") then when_emitting (do_undef line)
  else if starts (bs "#include") then when_emitting (do_include w process line currentPath)
  else if starts (bs "#ifdef") then do_ifdef false line
  else if starts (bs "#ifndef") then do_ifdef true line
  else if starts (bs "#if") then do_if line
  else if starts (bs "#elif") then do_elif line
  else if starts (bs "#else") then do_else
  else if starts (bs "#endif") then do_endif
  else if starts (bs "#error") then lift (Err (string_of_bytes line))
  else if starts (bs "#pragma") then drop_line
  else mret (line, true).

(** ** Lines

    The output is [None] until something is written. *)
Definition append_line (out : option bytes) (line : bytes) : option bytes :=
  match out with None => Some line | Some o => Some (o ++ 10 :: line) end.

Section lines.
Context (w : world) (process : bytes → gmap bytes bytes → P bytes) (resolved : bytes).

(** processSourceLine on the text of the line. *)
Definition process_line (line : bytes) (out : option bytes) : P (option bytes) :=
  let trimmed := TrimSpace line in
  if HasPrefix trimmed (bs "#") then
    '(result, keep) ← handleDirective w process trimmed resolved;
    mret (if keep && negb (nilb result) then append_line out result else out)
  else
    p ← get;
    mret (if shouldEmit p && negb (nilb trimmed) then append_line out line else out).

Definition processSourceLine (source : bytes) (start stop : nat) (out : option bytes) : P (option bytes) :=
  line ← lift (slice source start stop); process_line line out.

(** The lines that end at the newlines of one scan. *)
Fixpoint newline_lines (source : bytes) (scanOffset : nat) (offsets : list Z) (lineStart : nat) (out : option bytes)
    : P (nat * option bytes) :=
  match offsets with
  | [] => mret (lineStart, out)
  | o :: r =>
      let lineEnd := (scanOffset + Z.to_nat o)%nat in
      out ← processSourceLine source lineStart lineEnd out;
      newline_lines source scanOffset r (S lineEnd) out
  end.

Fixpoint scan_loop (fuel : nat) (source : bytes) (fullLength scanOffset lineStart : nat) (out : option bytes)
    : P (nat * option bytes) :=
  if (fullLength <=? scanOffset)%nat then mret (lineStart, out)
  else match fuel with
       | O => lift Diverge
       | S n =>
           let blockCount := Nat.min ((fullLength - scanOffset) / 32) 64 in
           data ← lift (slice source scanOffset (scanOffset + blockCount * 32));
           '(blocks, offsets) ← lift (scanFZPBlocks (avx2 w) data blockCount 2048);
           '(lineStart, out) ← newline_lines source scanOffset offsets lineStart out;
           scan_loop n source fullLength (scanOffset + length blocks * 32) lineStart out
       end.

(** strings.IndexByte(s, '\n') *)
Definition index_newline (s : bytes) : option nat :=
  let '(a, b) := span (λ c, negb (c =? 10)) s in if nilb b then None else Some (length a).

Fixpoint tail_loop (fuel : nat) (source : bytes) (tailOffset lineStart : nat) (out : option bytes) : P (nat * option bytes) :=
  if (length source <=? tailOffset)%nat then mret (lineStart, out)
  else match fuel with
       | O => lift Diverge
       | S n =>
           match index_newline (drop tailOffset source) with
           | None => mret (lineStart, out)
           | Some relativeEnd =>
               let lineEnd := (tailOffset + relativeEnd)%nat in
               out ← processSourceLine source lineStart lineEnd out;
               tail_loop n source (S lineEnd) (S lineEnd) out
           end
       end.

(** The body of Process, from the scan of the data to the processed text. *)
Definition process_data (source : bytes) : P bytes :=
  let fullLength := (length source / 32 * 32)%nat in
  '(lineStart, out) ← scan_loop (S fullLength) source fullLength 0 0 None;
  '(lineStart, out) ← tail_loop (S (length source)) source fullLength lineStart out;
  out ← (if (lineStart <? length source)%nat then processSourceLine source lineStart (length source) out else mret out);
  mret (default [] out).
End lines.

(** Process; the fuel bounds the depth of includes. The deferred function
    pops the include stack and restores the conditions on every way out. *)
Fixpoint Process (fuel : nat) (w : world) (path : bytes) (optMacros : gmap bytes bytes) : P bytes := λ p,
  match fuel with
  | O => (Diverge, p)
  | S n =>
      if nilb path then (Ok [], p)
      else match resolvePath w p path with
      | Ok resolved =>
          if isInStack p resolved then (Err ("include cycle detected: " +:+ string_of_bytes resolved), p)
          else
            let key := cacheKey w resolved optMacros in
            match cache p !! key with
            | Some cached => (Ok cached, p)
            | None =>
                match ReadFile w resolved with
                | None => (Err "file not found", p)
                | Some data =>
                    let entered := set_cond [] (set_includes (resolved :: includeStack p) p) in
                    let leave p' := set_cond (condStack p) (set_includes (tail (includeStack p')) p') in
                    match process_data w (Process n w) resolved data entered with
                    | (Ok processed, p') => (Ok processed, leave (set_cache (<[key := processed]> (cache p')) p'))
                    | (r, p') => (r, leave p')
                    end
                end
            end
      | Err e => (Err e, p)
      | Panic => (Panic, p)
      | Diverge => (Diverge, p)
      end
  end.

Definition NewProcessor (w : world) (root : bytes) (dirs : list bytes) (defs : gmap bytes bytes) (preserve : bool) : Processor :=
  let root := if nilb root then bs "." else root in
  let allowed := list_to_set (absPath w root :: map (absPath w) (filter (λ d, d ≠ []) dirs)) in
  let platform := if bool_decide (goos w = bs "linux") then <[bs "__linux__" := bs "1"]> defs
                  else if bool_decide (goos w = bs "windows") then <[bs "_WIN32" := bs "1"]> defs
                  else if bool_decide (goos w = bs "darwin") then <[bs "__APPLE__" := bs "1"]> defs
                  else defs in
  mk_proc root allowed platform ∅ [] [] preserve 0.

(** ** Definitions in an output *)
Definition definition_of (line : bytes) : option (bytes * bytes) :=
  let trimmed := TrimSpace line in
  if HasPrefix trimmed (bs "#define ") then
    match Fields trimmed with
    | _ :: name :: _ => Some (name, TrimSpace (TrimPrefix trimmed (bs "#define " ++ name)))
    | _ => None
    end
  else None.

Definition ParseDefinitions (output : bytes) : gmap bytes bytes :=
  fold_left (λ defs line, match definition_of line with Some (k, v) => <[k := v]> defs | None => defs end)
    (split_byte 10 output) ∅.
