(* ===== verification/FzpLines.v ===== *)
(** * FZP: reading a file by blocks is reading it by lines

    Process finds the newlines of the full blocks with the scanner and those of
    the rest one by one; together it processes the lines of the text in order. *)
From stdpp Require Import list gmap.
From S2P Require Import Prelude GoStrings GoPath FzpExpr FzpScan FzpProcess.

(** The lines of a text; a newline at the end does not begin another line. *)
Definition source_lines (s : bytes) : list bytes :=
  let ls := split_byte 10 s in if bool_decide (last ls = Some []) then removelast ls else ls.

Fixpoint run_lines (line : bytes → option bytes → P (option bytes)) (ls : list bytes) (out : option bytes) : P (option bytes) :=
  match ls with
  | [] => mret out
  | l :: r => out ← line l out; run_lines line r out
  end.

(** ** Equations of the monad *)
Lemma bind_ext {A B} (m : P A) (f g : A → P B) s :
  (∀ a s', f a s' = g a s') → (m ≫= f) s = (m ≫= g) s.
Proof. intros H. unfold mbind, P_bind, bind. destruct (m s) as [[a| | |] s']; [apply H|done..]. Qed.

Lemma bind_cong {A B} (m m' : P A) (f g : A → P B) s :
  m s = m' s → (∀ a s', f a s' = g a s') → (m ≫= f) s = (m' ≫= g) s.
Proof. intros Hm H. unfold mbind, P_bind, bind. rewrite Hm. destruct (m' s) as [[a| | |] s']; [apply H|done..]. Qed.

Lemma P_bind_assoc {A B C} (m : P A) (f : A → P B) (g : B → P C) s :
  ((m ≫= f) ≫= g) s = (m ≫= (λ a, f a ≫= g)) s.
Proof. unfold mbind, P_bind, bind. by destruct (m s) as [[a| | |] s']. Qed.

Lemma lift_Ok {A B} (a : A) (f : A → P B) s : (lift (Ok a) ≫= f) s = f a s.
Proof. done. Qed.

Lemma ret_bind {A B} (a : A) (f : A → P B) s : (mret a ≫= f) s = f a s.
Proof. done. Qed.

Section lines.
Context (w : world) (process : bytes → gmap bytes bytes → P bytes) (resolved source : bytes).

Abbreviation source_line := (processSourceLine w process resolved source).
Abbreviation line := (process_line w process resolved).

(** The lines that end at the given offsets. *)
Fixpoint run_cuts (cuts : list nat) (lineStart : nat) (out : option bytes) : P (nat * option bytes) :=
  match cuts with
  | [] => mret (lineStart, out)
  | c :: r => out ← source_line lineStart c out; run_cuts r (S c) out
  end.

Lemma newline_lines_cuts base offs ls out s :
  newline_lines w process resolved source base offs ls out s =
  run_cuts (map (λ o, base + Z.to_nat o)%nat offs) ls out s.
Proof.
  revert ls out s. induction offs as [|o offs IH]; intros ls out s; [done|]. cbn [newline_lines map run_cuts].
  apply bind_ext. intros out' s'. apply IH.
Qed.

Lemma run_cuts_app a b ls out s :
  run_cuts (a ++ b) ls out s = ('(ls, out) ← run_cuts a ls out; run_cuts b ls out) s.
Proof.
  revert ls out s. induction a as [|c a IH]; intros ls out s; [done|]. cbn [app run_cuts]. rewrite P_bind_assoc.
  apply bind_ext. intros out' s'. apply IH.
Qed.

(** The newlines of [t], [off] bytes further on. *)
Definition cuts (off : nat) (t : bytes) : list nat := map (Nat.add off) (positions 0 (map is_nl t)).

Lemma cuts_app off a b : cuts off (a ++ b) = cuts off a ++ cuts (off + length a) b.
Proof.
  unfold cuts. rewrite map_app, positions_app, map_app. f_equal. rewrite positions_shift, map_map, length_map.
  apply map_ext. intros. lia.
Qed.

Lemma cuts_none off a : Forall (λ c, is_nl c = false) a → cuts off a = [].
Proof.
  unfold cuts. intros H. assert (positions 0 (map is_nl a) = []) as ->; [|done]. generalize 0%nat.
  induction H as [|c a Hc _ IH]; intros k; [done|]. cbn. rewrite Hc. apply IH.
Qed.

Lemma cuts_cons off a b :
  Forall (λ c, is_nl c = false) a → cuts off (a ++ 10 :: b) = (off + length a)%nat :: cuts (S (off + length a)) b.
Proof.
  intros H. rewrite cuts_app, (cuts_none off a H). cbn [app]. change (10 :: b) with ([10] ++ b).
  rewrite cuts_app. cbn. f_equal; [lia|f_equal; lia].
Qed.

(** *** The blocks *)
Lemma scan_step off n :
  (off + n * 32 ≤ length source)%nat → (1 ≤ n ≤ 64)%nat →
  slice source off (off + n * 32) = Ok (take (n * 32) (drop off source)) ∧
  ∃ blocks, length blocks = n ∧
    scanFZPBlocks (avx2 w) (take (n * 32) (drop off source)) n 2048 =
    Ok (blocks, map Z.of_nat (positions 0 (map is_nl (take (n * 32) (drop off source))))).
Proof.
  intros Hl Hn. split.
  - unfold slice. rewrite (proj2 (Nat.leb_le _ _)), (proj2 (Nat.leb_le (off + n * 32) _)) by lia. cbn [andb]. do 2 f_equal. lia.
  - set (data := take (n * 32) (drop off source)).
    assert (length data = n * 32)%nat as Hd by (unfold data; rewrite length_take, length_drop; lia).
    assert (block_count data n 2048 = n) as Hc.
    { unfold block_count. rewrite Hd, Nat.div_mul by lia. change (2048 / 32)%nat with 64%nat. lia. }
    pose proof (scanners_agree (avx2 w) data n 2048) as H. rewrite Hc in H. destruct H as [_ ->]; [lia|].
    eexists. split; [|by rewrite (take_ge data) by lia]. by rewrite length_map, length_seq.
Qed.

Lemma scan_loop_cuts fuel q off ls out s :
  ((off + q * 32 ≤ length source) → q < fuel →
  scan_loop w process resolved fuel source (off + q * 32) off ls out s =
  run_cuts (cuts off (take (q * 32) (drop off source))) ls out s)%nat.
Proof.
  revert q off ls out s. induction fuel as [|fuel IH]; intros q off ls out s Hl Hf; [lia|]. cbn [scan_loop].
  destruct q as [|q']; [rewrite (proj2 (Nat.leb_le _ _)) by lia; done|]. rewrite (proj2 (Nat.leb_gt _ _)) by lia.
  remember (S q') as q eqn:Hq. replace (off + q * 32 - off)%nat with (q * 32)%nat by lia. rewrite Nat.div_mul by lia.
  set (n := Nat.min q 64). destruct (scan_step off n ltac:(lia) ltac:(lia)) as [Hs (blocks & Hb & Hscan)].
  rewrite Hs, lift_Ok, Hscan, lift_Ok.
  transitivity (('(ls, out) ← run_cuts (cuts off (take (n * 32) (drop off source))) ls out;
                 run_cuts (cuts (off + n * 32) (take ((q - n) * 32) (drop (off + n * 32) source))) ls out) s).
  - apply bind_cong.
    + rewrite newline_lines_cuts. unfold cuts. rewrite map_map. f_equal. apply map_ext. intros. by rewrite Nat2Z.id.
    + intros [ls' out'] s'. rewrite Hb, <- IH by lia. f_equal. lia.
  - rewrite <- run_cuts_app. f_equal.
    assert (take (q * 32) (drop off source) = take (n * 32) (drop off source) ++ take ((q - n) * 32) (drop (off + n * 32) source)) as ->.
    { rewrite <- drop_drop. rewrite take_take_drop. f_equal. lia. }
    rewrite cuts_app. f_equal. f_equal. rewrite length_take, length_drop. lia.
Qed.

(** *** The rest *)
Lemma index_newline_spec t :
  match index_newline t with
  | None => Forall (λ c, is_nl c = false) t
  | Some k => ∃ a b, t = a ++ 10 :: b ∧ length a = k ∧ Forall (λ c, is_nl c = false) a
  end.
Proof.
  unfold index_newline. pose proof (span_app (λ c, negb (c =? 10)) t) as Ha. pose proof (span_fst_forall (λ c, negb (c =? 10)) t) as Hf.
  pose proof (span_snd_head (λ c, negb (c =? 10)) t) as Hh. destruct (span _ t) as [a b]. cbn [fst snd] in *. subst t.
  assert (Forall (λ c, is_nl c = false) a) as Hn.
  { eapply Forall_impl; [exact Hf|]. intros c Hc. cbv beta in Hc. by apply negb_true_iff. }
  destruct b as [|c b]; cbn [nilb]; [by rewrite app_nil_r|]. exists a, b. specialize (Hh c b eq_refl).
  destruct (Z.eqb_spec c 10) as [->|]; done.
Qed.

Lemma tail_loop_cuts fuel off ls out s :
  (length source - off < fuel)%nat →
  tail_loop w process resolved fuel source off ls out s = run_cuts (cuts off (drop off source)) ls out s.
Proof.
  revert off ls out s. induction fuel as [|fuel IH]; intros off ls out s Hf; [lia|]. cbn [tail_loop].
  destruct (Nat.leb_spec (length source) off); [by rewrite drop_ge by lia|].
  pose proof (index_newline_spec (drop off source)) as Hi. destruct (index_newline (drop off source)) as [k|].
  - destruct Hi as (a & b & Hd & Hk & Ha). rewrite Hd, cuts_cons by done. cbn [run_cuts]. rewrite Hk. apply bind_ext.
    intros out' s'. assert (length (drop off source) = length (a ++ 10 :: b)) as Hlen by (by rewrite Hd).
    rewrite length_drop, length_app in Hlen. cbn [length] in Hlen. rewrite IH by lia. f_equal. f_equal.
    replace (S (off + k)) with (off + S (length a))%nat by lia. rewrite <- drop_drop, Hd.
    change (10 :: b) with ([10] ++ b). rewrite (assoc (++)). apply drop_app_length'. rewrite length_app. cbn. lia.
  - by rewrite cuts_none.
Qed.

(** *** Lines *)
Lemma source_lines_cons a b :
  Forall (λ c, is_nl c = false) a → source_lines (a ++ 10 :: b) = a :: source_lines b.
Proof.
  intros Ha. unfold source_lines. rewrite split_byte_app.
  - pose proof (split_byte_nonempty 10 b) as Hne. destruct (split_byte 10 b) as [|x l]; [done|].
    change (last (a :: x :: l)) with (last (x :: l)). by case_bool_decide.
  - rewrite Forall_forall in Ha. intros H%Ha. by vm_compute in H.
Qed.

Lemma source_lines_last a : Forall (λ c, is_nl c = false) a → source_lines a = if nilb a then [] else [a].
Proof.
  intros Ha. unfold source_lines. rewrite split_byte_word.
  - by destruct a.
  - rewrite Forall_forall in Ha. intros H%Ha. by vm_compute in H.
Qed.

Lemma run_cuts_lines n t off out s :
  (length t < n)%nat → drop off source = t → (off ≤ length source)%nat →
  ('(ls, out) ← run_cuts (cuts off t) off out;
   if (ls <? length source)%nat then source_line ls (length source) out else mret out) s =
  run_lines line (source_lines t) out s.
Proof.
  revert t off out s. induction n as [|n IH]; intros t off out s Hn Ht Hoff; [lia|].
  pose proof (index_newline_spec t) as Hi. destruct (index_newline t) as [k|].
  - destruct Hi as (a & b & -> & Hk & Ha). rewrite cuts_cons, source_lines_cons by done. cbn [run_cuts run_lines].
    rewrite P_bind_assoc. assert (source = take off source ++ a ++ 10 :: b) as Hsrc by (by rewrite <- Ht, take_drop).
    assert (length source = off + length a + S (length b))%nat as Hlen.
    { rewrite Hsrc, !length_app, length_take. cbn [length]. lia. }
    apply bind_cong.
    + unfold processSourceLine. rewrite Hsrc at 1. replace off with (length (take off source)) at 2 3 by (rewrite length_take; lia).
      by rewrite slice_mid.
    + intros out' s'. rewrite length_app in Hn. cbn [length] in Hn. apply IH; [lia| |lia].
      rewrite Hsrc. change (10 :: b) with ([10] ++ b). rewrite !(assoc (++)). apply drop_app_length'.
      rewrite !length_app, length_take. cbn. lia.
  - rewrite cuts_none, source_lines_last by done. cbn [run_cuts]. rewrite ret_bind.
    assert (source = take off source ++ t) as Hsrc by (by rewrite <- Ht, take_drop).
    assert (length source = off + length t)%nat as Hlen by (rewrite Hsrc, length_app, length_take; lia).
    destruct t as [|c t]; cbn [nilb run_lines].
    + rewrite (proj2 (Nat.ltb_ge _ _)) by (cbn in Hlen; lia). done.
    + rewrite (proj2 (Nat.ltb_lt _ _)) by (cbn in Hlen; lia). unfold processSourceLine.
      assert (slice source off (length source) = Ok (c :: t)) as ->.
      { rewrite Hsrc at 1. rewrite Hlen. rewrite <- (app_nil_r (c :: t)) at 1.
        replace off with (length (take off source)) at 2 3 by (rewrite length_take; lia). apply slice_mid. }
      rewrite lift_Ok. unfold mbind, P_bind, bind. by destruct (line (c :: t) out s) as [[]].
Qed.

(** Process_data is a run over the lines of the text. *)
Lemma process_data_lines s :
  process_data w process resolved source s =
  (out ← run_lines line (source_lines source) None; mret (default [] out)) s.
Proof.
  unfold process_data. set (q := (length source / 32)%nat).
  assert (q * 32 ≤ length source)%nat as Hq by (unfold q; pose proof (Nat.Div0.mul_div_le (length source) 32); lia).
  transitivity ((out ← ('(ls, out) ← run_cuts (cuts 0 source) 0 None;
                        if (ls <? length source)%nat then source_line ls (length source) out else mret out);
                 mret (default [] out)) s).
  - assert (cuts 0 source = cuts 0 (take (q * 32) source) ++ cuts (0 + length (take (q * 32) source)) (drop (q * 32) source)) as ->.
    { by rewrite <- cuts_app, take_drop. }
    rewrite P_bind_assoc.
    transitivity (('(ls, out) ← ('(ls, out) ← run_cuts (cuts 0 (take (q * 32) source)) 0 None;
                                 run_cuts (cuts (0 + length (take (q * 32) source)) (drop (q * 32) source)) ls out);
                   out ← (if (ls <? length source)%nat then source_line ls (length source) out else mret out);
                   mret (default [] out)) s).
    + rewrite P_bind_assoc. apply bind_cong.
      * pose proof (scan_loop_cuts (S (q * 32)) q 0 0 None s ltac:(lia) ltac:(lia)) as H. rewrite drop_0 in H. exact H.
      * intros [ls out] s'. rewrite length_take, Nat.min_l by lia. apply bind_cong; [|by intros []].
        apply tail_loop_cuts. lia.
    + apply bind_cong; [by rewrite run_cuts_app|]. intros [ls out] s'. done.
  - apply bind_cong; [|done]. apply (run_cuts_lines (S (length source))); [lia|apply drop_0|lia].
Qed.
End lines.

(** The lines of a text written line by line. *)
Lemma source_lines_text ls :
  Forall (λ l, 10 ∉ l) ls → source_lines (concat (map (λ l, l ++ [10]) ls)) = ls.
Proof.
  induction 1 as [|l ls Hl _ IH]; [done|]. cbn [map concat]. rewrite <- (assoc (++)). cbn [app].
  rewrite source_lines_cons; [by rewrite IH|]. apply Forall_forall. intros c Hc. unfold is_nl.
  destruct (Z.eqb_spec c 10) as [->|]; done.
Qed.
