(* ===== verification/FzpDoc.v ===== *)
(** * FZP: conditional text

    The meaning of structured text with nested conditionals, and the proof that
    the line processor, which keeps only a stack of flags, computes it. *)
From stdpp Require Import list gmap.
From S2P Require Import Prelude GoStrings GoPath FzpExpr FzpScan FzpProcess FzpLines.

(** ** Structured text *)
Inductive guard : Type :=
  | GIfdef (negated : bool) (name : bytes)     (* #ifdef, #ifndef *)
  | GIf (words : list bytes).                  (* #if *)

Inductive doc : Type :=
  | DNil
  | DLine (l : bytes) (d : doc)
  | DIf (g : guard) (body : doc) (t : branches) (d : doc)
with branches : Type :=
  | BEnd
  | BElse (body : doc)
  | BElif (words : list bytes) (body : doc) (t : branches).

Scheme doc_mut := Induction for doc Sort Prop
  with branches_mut := Induction for branches Sort Prop.
Combined Scheme doc_branches_ind from doc_mut, branches_mut.

Definition words_line (head : bytes) (words : list bytes) : bytes := strings_Join (head :: words) [32].

Definition guard_line (g : guard) : bytes :=
  match g with
  | GIfdef negated name => words_line (if negated then bs "#ifndef" else bs "#ifdef") [name]
  | GIf words => words_line (bs "#if") words
  end.

Fixpoint doc_lines (d : doc) : list bytes :=
  match d with
  | DNil => []
  | DLine l d => l :: doc_lines d
  | DIf g body t d => guard_line g :: doc_lines body ++ branches_lines t ++ doc_lines d
  end
with branches_lines (t : branches) : list bytes :=
  match t with
  | BEnd => [bs "#endif"]
  | BElse body => bs "#else" :: doc_lines body ++ [bs "#endif"]
  | BElif words body t => words_line (bs "#elif") words :: doc_lines body ++ branches_lines t
  end.

(** Lines outside the conditionals: text, #define, #undef, #include, #pragma. *)
Definition plain_line (l : bytes) : Prop :=
  let t := TrimSpace l in
  HasPrefix t (bs "#") = false ∨
  Exists (λ p, HasPrefix t p = true) [bs "#define "; bs "#undef "; bs "#include"; bs "#pragma"].

(** Words without division signs, so that evaluating them cannot panic. *)
Definition safe_words (ws : list bytes) : Prop :=
  ws ≠ [] ∧ Forall word ws ∧ Forall (λ x, (47 ∉ x) ∧ (37 ∉ x)) ws.

Definition wf_guard (g : guard) : Prop :=
  match g with GIfdef _ name => word name | GIf ws => safe_words ws end.

Fixpoint wf_doc (d : doc) : Prop :=
  match d with
  | DNil => True
  | DLine l d => plain_line l ∧ wf_doc d
  | DIf g body t d => wf_guard g ∧ wf_doc body ∧ wf_branches t ∧ wf_doc d
  end
with wf_branches (t : branches) : Prop :=
  match t with
  | BEnd => True
  | BElse body => wf_doc body
  | BElif ws body t => safe_words ws ∧ wf_doc body ∧ wf_branches t
  end.

(** ** Meaning: only the first branch whose guard holds is processed *)
Section meaning.
Context (line : bytes → option bytes → P (option bytes)).

Definition guard_value (g : guard) : P bool :=
  match g with
  | GIfdef negated name => p ← get; mret (xorb negated (bool_decide (is_Some (macros p !! name))))
  | GIf words => condition words
  end.

Fixpoint doc_meaning (d : doc) (out : option bytes) : P (option bytes) :=
  match d with
  | DNil => mret out
  | DLine l d => out ← line l out; doc_meaning d out
  | DIf g body t d =>
      guard_value g ≫= λ b : bool,
      (if b then doc_meaning body out else branches_meaning t out) ≫= λ out, doc_meaning d out
  end
with branches_meaning (t : branches) (out : option bytes) : P (option bytes) :=
  match t with
  | BEnd => mret out
  | BElse body => doc_meaning body out
  | BElif words body t =>
      condition words ≫= λ b : bool,
      if b then doc_meaning body out else branches_meaning t out
  end.
End meaning.

(** ** Independence of the stack of conditions *)
Definition emitting (cs : list condState) : bool :=
  match cs with [] => true | st :: _ => parentActive st && active st end.

Definition with_cond {A} (cs : list condState) (r : outcome A * Processor) : outcome A * Processor :=
  (r.1, set_cond cs r.2).

(** Under any stack of an active region, [m] does what it does under none. *)
Definition neutral {A} (m : P A) : Prop := ∀ s cs,
  emitting cs = true →
  m (set_cond cs s) = with_cond cs (m (set_cond [] s)) ∧ condStack (m (set_cond [] s)).2 = [].

Lemma set_cond_id s : set_cond (condStack s) s = s.
Proof. by destruct s. Qed.

Lemma set_cond_twice cs cs' s : set_cond cs (set_cond cs' s) = set_cond cs s.
Proof. done. Qed.

Lemma neutral_ret {A} (a : A) : neutral (mret a).
Proof. done. Qed.

Lemma neutral_lift {A} (m : outcome A) : neutral (lift m).
Proof. done. Qed.

Lemma neutral_bind {A B} (m : P A) (f : A → P B) : neutral m → (∀ a, neutral (f a)) → neutral (m ≫= f).
Proof.
  intros Hm Hf s cs Hcs. destruct (Hm s cs Hcs) as [H1 H2]. unfold mbind, P_bind, bind. rewrite H1.
  destruct (m (set_cond [] s)) as [[a| | |] s'] eqn:E; cbn [with_cond fst snd] in *; try done.
  destruct (Hf a s' cs Hcs) as [H3 H4]. rewrite H3. rewrite <- H2, set_cond_id in H4 |- *. by rewrite H2 in H4 |- *.
Qed.

Lemma neutral_get {A} (f : Processor → P A) :
  (∀ s cs, emitting cs = true → f (set_cond cs s) = f (set_cond [] s)) → (∀ p, neutral (f p)) → neutral (p ← get; f p).
Proof.
  intros H Hf s cs Hcs. change ((p ← get; f p) (set_cond cs s)) with (f (set_cond cs s) (set_cond cs s)).
  change ((p ← get; f p) (set_cond [] s)) with (f (set_cond [] s) (set_cond [] s)). rewrite H by done. by apply Hf.
Qed.

Lemma neutral_modify f :
  (∀ cs s, f (set_cond cs s) = set_cond cs (f (set_cond [] s))) → (∀ s, condStack (f (set_cond [] s)) = []) → neutral (modify f).
Proof. intros H1 H2 s cs _. split; [|apply H2]. unfold modify, with_cond. cbn [fst snd]. by rewrite H1. Qed.

Create HintDb neutral.
#[export] Hint Resolve neutral_ret neutral_lift neutral_bind neutral_get neutral_modify : neutral.

Lemma neutral_drop_line : neutral drop_line.
Proof. apply neutral_ret. Qed.
#[export] Hint Resolve neutral_drop_line : neutral.

Lemma neutral_expandMacros w v : neutral (expandMacros w v).
Proof.
  apply neutral_get; [done|]. intros p. destruct (decide _); [apply neutral_ret|].
  destruct (output_macro (macros p) v); [apply neutral_ret|].
  apply neutral_bind; [by apply neutral_modify|]. intros _. apply neutral_ret.
Qed.

Lemma neutral_resolveIncludePath w a b : neutral (resolveIncludePath w a b).
Proof.
  unfold resolveIncludePath. destruct (nilb a); [apply neutral_ret|]. apply neutral_get; [done|]. intros p.
  destruct (IsAbs a).
  - destruct (isAllowedPath w p a); [apply neutral_ret|apply neutral_lift].
  - apply neutral_bind; [by apply neutral_modify|]. intros _. destruct (find _ _); [apply neutral_ret|apply neutral_lift].
Qed.

Lemma neutral_do_define w l : neutral (do_define w l).
Proof.
  unfold do_define. destruct (Fields l) as [|? [|name ?]]; try apply neutral_drop_line.
  apply neutral_bind; [apply neutral_expandMacros|]. intros v. apply neutral_bind; [by apply neutral_modify|]. intros _.
  apply neutral_get; [done|]. intros p. destruct (preserveDefines p); apply neutral_ret.
Qed.

Lemma neutral_do_undef l : neutral (do_undef l).
Proof.
  unfold do_undef. destruct (Fields l) as [|? [|name ?]]; try apply neutral_drop_line.
  apply neutral_bind; [by apply neutral_modify|]. intros _.
  apply neutral_get; [done|]. intros p. destruct (preserveDefines p); apply neutral_ret.
Qed.

Lemma neutral_do_include w process l cur : (∀ p m, neutral (process p m)) → neutral (do_include w process l cur).
Proof.
  intros Hp. unfold do_include. destruct (Fields l) as [|? [|arg ?]]; try apply neutral_drop_line.
  destruct (_ && _); [apply neutral_ret|]. destruct (nilb _); [apply neutral_drop_line|].
  apply neutral_bind; [apply neutral_resolveIncludePath|]. intros r. apply neutral_get; [done|]. intros p.
  apply neutral_bind; [apply Hp|]. intros. apply neutral_ret.
Qed.

Lemma neutral_when_emitting m : neutral m → neutral (when_emitting m).
Proof.
  intros Hm s cs Hcs. unfold when_emitting, get, mbind, P_bind, bind.
  assert (shouldEmit (set_cond cs s) = true) as -> by exact Hcs.
  assert (shouldEmit (set_cond [] s) = true) as -> by done. cbn [negb]. by apply Hm.
Qed.

(** ** Plain lines *)
Section plain.
Context (w : world) (process : bytes → gmap bytes bytes → P bytes) (resolved : bytes).
Context (process_neutral : ∀ p m, neutral (process p m)).
Abbreviation line := (process_line w process resolved).

Lemma prefix_hash t p : HasPrefix t (35 :: p) = true → HasPrefix t (bs "#") = true.
Proof. intros [r ->]%HasPrefix_true. done. Qed.

(** The directives are told apart by their prefixes. *)
Lemma plain_cases t :
  HasPrefix t (bs "#") = true → Exists (λ p, HasPrefix t p = true) [bs "#define "; bs "#undef "; bs "#include"; bs "#pragma"] →
  handleDirective w process t resolved = when_emitting (do_define w t) ∨
  handleDirective w process t resolved = when_emitting (do_undef t) ∨
  handleDirective w process t resolved = when_emitting (do_include w process t resolved) ∨
  handleDirective w process t resolved = drop_line.
Proof.
  intros Hh H. unfold handleDirective. rewrite Hh. cbn [negb].
  repeat (apply Exists_cons in H as [H|H]; [apply HasPrefix_true in H as [r ->]; by auto|]). by apply Exists_nil in H.
Qed.

Lemma plain_neutral l out : plain_line l → neutral (line l out).
Proof.
  intros Hl. unfold process_line. destruct (HasPrefix (TrimSpace l) (bs "#")) eqn:E.
  - assert (neutral (handleDirective w process (TrimSpace l) resolved)) as Hn.
    { destruct Hl as [Hl|Hl]; [congruence|]. destruct (plain_cases _ E Hl) as [-> |[-> |[-> | ->]]];
        [apply neutral_when_emitting, neutral_do_define|apply neutral_when_emitting, neutral_do_undef|
         apply neutral_when_emitting, neutral_do_include, process_neutral|apply neutral_drop_line]. }
    apply neutral_bind; [exact Hn|]. intros [r keep]. apply neutral_ret.
  - intros s cs Hcs. unfold get, mbind, P_bind, bind.
    assert (shouldEmit (set_cond cs s) = true) as -> by exact Hcs.
    assert (shouldEmit (set_cond [] s) = true) as -> by done. done.
Qed.

Lemma plain_dead l out s : plain_line l → shouldEmit s = false → line l out s = (Ok out, s).
Proof.
  intros Hl Hs. unfold process_line. destruct (HasPrefix (TrimSpace l) (bs "#")) eqn:E.
  - destruct Hl as [Hl|Hl]; [congruence|].
    assert (handleDirective w process (TrimSpace l) resolved s = (Ok ([], false), s)) as H.
    { destruct (plain_cases _ E Hl) as [-> |[-> |[-> | ->]]]; [..|done];
        unfold when_emitting, get, mbind, P_bind, bind; by rewrite Hs. }
    unfold mbind, P_bind, bind. by rewrite H.
  - unfold get, mbind, P_bind, bind. by rewrite Hs.
Qed.
End plain.

(** ** Control lines *)
Lemma words_line_facts head ws :
  word head → Forall word ws →
  TrimSpace (words_line head ws) = words_line head ws ∧ Fields (words_line head ws) = head :: ws ∧
  ∃ r, words_line head ws = head ++ r ∧ (ws ≠ [] → ∃ r', r = 32 :: r').
Proof.
  intros Hh Hw. assert (Forall word (head :: ws)) as H by by constructor. split_and!.
  - by apply TrimSpace_trimmed, join_trimmed.
  - by apply Fields_Join.
  - unfold words_line. destruct ws as [|x ws]; cbn [strings_Join]; [exists []; by rewrite app_nil_r|]. eexists; split; [done|]. intros _. by eexists.
Qed.

Ltac word_tac := apply (bool_decide_eq_true_1 _); vm_compute; reflexivity.

Definition push (v : bool) (s : Processor) : Processor :=
  set_cond (mk_cond (parent_active s && v) (parent_active s && v) (parent_active s) :: condStack s) s.

Section control.
Context (w : world) (process : bytes → gmap bytes bytes → P bytes) (resolved : bytes).
Abbreviation line := (process_line w process resolved).

(** A line whose directive drops it only changes the state. *)
Lemma line_control l out s s' :
  TrimSpace l = l → HasPrefix l (bs "#") = true →
  handleDirective w process l resolved s = (Ok ([], false), s') → line l out s = (Ok out, s').
Proof. intros Ht Hp H. unfold process_line. rewrite Ht, Hp. unfold mbind, P_bind, bind. by rewrite H. Qed.

Lemma condition_safe ws m :
  safe_words ws → ∃ v, ∀ s, macros s = m → condition ws s = (Ok v, s).
Proof.
  intros (_ & _ & Hs). destruct (evaluate_returns (makeMacroMap m) (strings_Join ws [32])) as [[v Hv]|[_ Hd]].
  - exists (negb (v =? 0)). intros s Hm. unfold condition, get, lift, mbind, P_bind, bind. by rewrite Hm, Hv.
  - exfalso. assert (∀ c, c ≠ 32 → Forall (λ x : bytes, c ∉ x) ws → c ∉ strings_Join ws [32]) as Hn.
    { clear. intros c Hc H. induction H as [|x ws Hx Hws IH]; [apply not_elem_of_nil|]. cbn [strings_Join].
      destruct ws as [|y ws]; [done|]. rewrite !elem_of_app, list_elem_of_singleton. by intros [?|[?|?]]. }
    destruct Hd as [Hd|Hd]; revert Hd; apply Hn; try done; (eapply Forall_impl; [exact Hs|]); by intros x [? ?].
Qed.

Lemma line_guard g m :
  wf_guard g → ∃ v, ∀ s, macros s = m →
    guard_value g s = (Ok v, s) ∧ ∀ out, line (guard_line g) out s = (Ok out, push v s).
Proof.
  destruct g as [neg name|ws]; cbn [wf_guard guard_line guard_value].
  - intros Hw. exists (xorb neg (bool_decide (is_Some (m !! name)))). intros s Hm. split.
    { unfold get, mbind, P_bind, bind, mret, P_ret, ret. by rewrite Hm. }
    intros out. destruct (words_line_facts (if neg then bs "#ifndef" else bs "#ifdef") [name]) as (Ht & Hf & r & Hr & _).
    { destruct neg; word_tac. } { by constructor. }
    apply line_control; [done|rewrite Hr; by destruct neg|].
    assert (handleDirective w process (words_line (if neg then bs "#ifndef" else bs "#ifdef") [name]) resolved =
            do_ifdef neg (words_line (if neg then bs "#ifndef" else bs "#ifdef") [name])) as -> by (rewrite Hr; by destruct neg).
    unfold do_ifdef. rewrite Hf. unfold get, mbind, P_bind, bind, push_cond, modify, drop_line, mret, P_ret, ret. by rewrite Hm.
  - intros Hw. destruct (condition_safe ws m Hw) as [v Hv]. exists v. intros s Hm. split; [by apply Hv|].
    intros out. destruct Hw as (Hne & Hws & _). destruct (words_line_facts (bs "#if") ws) as (Ht & Hf & r & Hr & Hsp); [word_tac|done|].
    destruct (Hsp Hne) as [r' ->]. apply line_control; [done|by rewrite Hr|].
    assert (handleDirective w process (words_line (bs "#if") ws) resolved = do_if (words_line (bs "#if") ws)) as -> by by rewrite Hr.
    unfold do_if. rewrite Hf. destruct ws as [|x ws]; [done|]. unfold mbind, P_bind, bind. by rewrite Hv.
Qed.

Definition elif_state (v : bool) (st : condState) : condState :=
  if parentActive st && negb (branchTaken st) then mk_cond v v (parentActive st)
  else mk_cond false (branchTaken st) (parentActive st).

Lemma line_elif ws m :
  safe_words ws → ∃ v, ∀ s, macros s = m →
    condition ws s = (Ok v, s) ∧
    ∀ out st r, condStack s = st :: r → line (words_line (bs "#elif") ws) out s = (Ok out, set_cond (elif_state v st :: r) s).
Proof.
  intros Hw. destruct (condition_safe ws m Hw) as [v Hv]. exists v. intros s Hm. split; [by apply Hv|].
  intros out st rest Hst. destruct Hw as (Hne & Hws & _). destruct (words_line_facts (bs "#elif") ws) as (Ht & Hf & r & Hr & _); [word_tac|done|].
  apply line_control; [done|by rewrite Hr|].
  assert (handleDirective w process (words_line (bs "#elif") ws) resolved = do_elif (words_line (bs "#elif") ws)) as -> by by rewrite Hr.
  unfold do_elif, elif_state. rewrite Hf. unfold get, mbind at 1, P_bind, bind. rewrite Hst.
  destruct (parentActive st && negb (branchTaken st)); [|done].
  destruct ws as [|x ws]; [done|]. unfold mbind, P_bind, bind. by rewrite Hv.
Qed.

Lemma line_else out st r s :
  condStack s = st :: r →
  line (bs "#else") out s = (Ok out, set_cond (elif_state true st :: r) s).
Proof.
  intros Hst. apply line_control; [done..|]. change (handleDirective w process (bs "#else") resolved) with do_else.
  unfold do_else, get, mbind, P_bind, bind. by rewrite Hst.
Qed.

Lemma line_endif out s : line (bs "#endif") out s = (Ok out, set_cond (tail (condStack s)) s).
Proof. by apply line_control. Qed.

(** *** Runs *)
Abbreviation run := (run_lines line).

Lemma run_lines_cons l ls out s : run (l :: ls) out s = (line l out ≫= run ls) s.
Proof. done. Qed.

Lemma run_lines_app a b out s : run (a ++ b) out s = (run a out ≫= run b) s.
Proof.
  revert out s. induction a as [|l a IH]; intros out s; [done|]. cbn [app run_lines]. rewrite P_bind_assoc.
  apply bind_ext. intros. apply IH.
Qed.

Lemma run_Ok_bind {A B} (m : P A) (f : A → P B) s a s' : m s = (Ok a, s') → (m ≫= f) s = f a s'.
Proof. unfold mbind, P_bind, bind. by intros ->. Qed.

Definition dead (cs : list condState) : Prop := match cs with st :: _ => active st = false | [] => False end.

Lemma elif_state_dead v st :
  parentActive st && negb (branchTaken st) = false → elif_state v st = mk_cond false (branchTaken st) (parentActive st).
Proof. unfold elif_state. by intros ->. Qed.

(** Nothing happens in a region that is not active. *)
Lemma dead_doc :
  (∀ d, wf_doc d → ∀ cs s out, dead cs → run (doc_lines d) out (set_cond cs s) = (Ok out, set_cond cs s)) ∧
  (∀ t, wf_branches t → ∀ st cs s out, parentActive st && negb (branchTaken st) = false →
    run (branches_lines t) out (set_cond (st :: cs) s) = (Ok out, set_cond cs s)).
Proof.
  apply doc_branches_ind; cbn [wf_doc wf_branches doc_lines branches_lines].
  - done.
  - intros l d IH [Hl Hd] cs s out Hc. rewrite run_lines_cons.
    rewrite (run_Ok_bind _ _ _ out (set_cond cs s)); [by apply IH|]. apply plain_dead; [done|].
    destruct cs as [|st cs]; [done|]. unfold shouldEmit. cbn. cbn in Hc. rewrite Hc. apply andb_false_r.
  - intros g body IHb t IHt d IHd (Hg & Hb & Ht & Hd) cs s out Hc. rewrite run_lines_cons.
    destruct (line_guard g (macros s) Hg) as [v Hv]. destruct (Hv (set_cond cs s) eq_refl) as [_ Hl].
    rewrite (run_Ok_bind _ _ _ _ _ (Hl out)). destruct cs as [|st cs]; [done|]. cbn in Hc.
    unfold push, parent_active. cbn [condStack set_cond]. rewrite Hc. cbn [andb]. rewrite set_cond_twice, run_lines_app.
    rewrite (run_Ok_bind _ _ _ out _ (IHb Hb (mk_cond false false false :: st :: cs) s out eq_refl)), run_lines_app.
    rewrite (run_Ok_bind _ _ _ out _ (IHt Ht (mk_cond false false false) (st :: cs) s out eq_refl)). by apply IHd.
  - intros _ st cs s out _. rewrite run_lines_cons. by rewrite (run_Ok_bind _ _ _ _ _ (line_endif out _)).
  - intros body IHb Hb st cs s out Hst. rewrite run_lines_cons.
    rewrite (run_Ok_bind _ _ _ _ _ (line_else out st cs (set_cond (st :: cs) s) eq_refl)), set_cond_twice, elif_state_dead, run_lines_app by done.
    rewrite (run_Ok_bind _ _ _ out _ (IHb Hb (mk_cond false (branchTaken st) (parentActive st) :: cs) s out eq_refl)), run_lines_cons. by rewrite (run_Ok_bind _ _ _ _ _ (line_endif out _)).
  - intros ws body IHb t IHt (Hw & Hb & Ht) st cs s out Hst. rewrite run_lines_cons.
    destruct (line_elif ws (macros s) Hw) as [v Hv]. destruct (Hv (set_cond (st :: cs) s) eq_refl) as [_ Hl].
    rewrite (run_Ok_bind _ _ _ _ _ (Hl out st cs eq_refl)), set_cond_twice, elif_state_dead, run_lines_app by done.
    rewrite (run_Ok_bind _ _ _ out _ (IHb Hb (mk_cond false (branchTaken st) (parentActive st) :: cs) s out eq_refl)). by apply IHt.
Qed.
End control.

(** ** The processor computes the meaning *)

(** [x] is the run with the stack [cs] that corresponds to the run [y] with none;
    a run that fails leaves some stack behind. *)
Definition matches {A} (cs : list condState) (x y : outcome A * Processor) : Prop :=
  x.1 = y.1 ∧ set_cond [] x.2 = y.2 ∧ (∀ a, y.1 = Ok a → x.2 = set_cond cs y.2).

Lemma matches_bind {A B} cs1 cs2 (m1 m2 : P A) (f1 f2 : A → P B) s1 s2 :
  matches cs1 (m1 s1) (m2 s2) →
  (∀ a s', condStack s' = [] → macros s' = macros (m2 s2).2 → matches cs2 (f1 a (set_cond cs1 s')) (f2 a s')) →
  matches cs2 ((m1 ≫= f1) s1) ((m2 ≫= f2) s2).
Proof.
  intros (H1 & H2 & H3) Hf. unfold mbind, P_bind, bind.
  destruct (m1 s1) as [x s1'], (m2 s2) as [y s2']. cbn [fst snd] in *. subst y.
  destruct x as [a|e| |]; [|done..]. rewrite (H3 a eq_refl). apply Hf; [by rewrite <- H2|done].
Qed.

Section live.
Context (w : world) (process : bytes → gmap bytes bytes → P bytes) (resolved : bytes).
Context (process_neutral : ∀ p m, neutral (process p m)).
Abbreviation line := (process_line w process resolved).
Abbreviation run := (run_lines line).

Lemma plain_matches l out cs s :
  plain_line l → emitting cs = true → condStack s = [] → matches cs (line l out (set_cond cs s)) (line l out s).
Proof.
  intros Hl Hcs Hs. destruct (plain_neutral w process resolved process_neutral l out Hl s cs Hcs) as [H1 H2].
  rewrite H1. assert (set_cond [] s = s) as Hid by (rewrite <- Hs; apply set_cond_id). rewrite Hid in *.
  split_and!; [done| |done]. cbn. rewrite set_cond_twice. rewrite <- H2. apply set_cond_id.
Qed.

Lemma emitting_active cs s : emitting cs = true → parent_active (set_cond cs s) = true.
Proof. destruct cs as [|st cs]; [done|]. cbn. by intros [_ ?]%andb_true_iff. Qed.

(** The state behind the guard or the #elif of an untaken conditional. *)
Definition decided (v : bool) : condState := mk_cond v v true.

Lemma live_doc :
  (∀ d, wf_doc d → ∀ cs s out, emitting cs = true → condStack s = [] →
    matches cs (run (doc_lines d) out (set_cond cs s)) (doc_meaning line d out s)) ∧
  (∀ t, wf_branches t → ∀ cs s out, emitting cs = true → condStack s = [] →
    matches cs (run (branches_lines t) out (set_cond (decided false :: cs) s)) (branches_meaning line t out s)).
Proof.
  assert (∀ out cs s, condStack s = [] → matches cs (Ok out : outcome (option bytes), set_cond cs s) (Ok out, s)) as Hret.
  { intros out cs s Hs. split_and!; [done| |done]. cbn. rewrite set_cond_twice, <- Hs. apply set_cond_id. }
  apply doc_branches_ind; cbn [wf_doc wf_branches doc_lines branches_lines doc_meaning branches_meaning].
  - intros _ cs s out _ Hs. by apply Hret.
  - intros l d IH [Hl Hd] cs s out Hc Hs. rewrite run_lines_cons. apply (matches_bind cs); [by apply plain_matches|].
    intros a s' Hs' _. by apply IH.
  - intros g body IHb t IHt d IHd (Hg & Hb & Ht & Hd) cs s out Hc Hs. rewrite run_lines_cons.
    destruct (line_guard w process resolved g (macros s) Hg) as [v Hv].
    destruct (Hv s eq_refl) as [Hgv _]. destruct (Hv (set_cond cs s) eq_refl) as [_ Hl].
    rewrite (run_Ok_bind _ _ _ _ _ (Hl out)), (run_Ok_bind _ _ _ _ _ Hgv). unfold push. rewrite emitting_active by done.
    cbn [andb condStack set_cond]. rewrite set_cond_twice. change (mk_cond v v true) with (decided v).
    destruct v; rewrite run_lines_app.
    + apply (matches_bind (decided true :: cs)); [by apply IHb|]. intros a s' Hs' _. rewrite run_lines_app.
      rewrite (run_Ok_bind _ _ _ a _ (proj2 (dead_doc w process resolved) t Ht (decided true) cs s' a eq_refl)). by apply IHd.
    + rewrite (run_Ok_bind _ _ _ out _ (proj1 (dead_doc w process resolved) body Hb (decided false :: cs) s out eq_refl)), run_lines_app.
      apply (matches_bind cs); [by apply IHt|]. intros a s' Hs' _. by apply IHd.
  - intros _ cs s out Hc Hs. rewrite run_lines_cons, (run_Ok_bind _ _ _ _ _ (line_endif w process resolved out _)). exact (Hret out cs s Hs).
  - intros body IHb Hb cs s out Hc Hs. rewrite run_lines_cons.
    rewrite (run_Ok_bind _ _ _ _ _ (line_else w process resolved out _ cs (set_cond (decided false :: cs) s) eq_refl)), set_cond_twice, run_lines_app.
    change (elif_state true (decided false)) with (decided true).
    assert (doc_meaning line body out s = (doc_meaning line body out ≫= mret) s) as ->.
    { unfold mbind, P_bind, bind. by destruct (doc_meaning line body out s) as [[] ?]. }
    apply (matches_bind (decided true :: cs)); [by apply IHb|]. intros a s' Hs' _.
    rewrite run_lines_cons, (run_Ok_bind _ _ _ _ _ (line_endif w process resolved a _)). exact (Hret a cs s' Hs').
  - intros ws body IHb t IHt (Hw & Hb & Ht) cs s out Hc Hs. rewrite run_lines_cons.
    destruct (line_elif w process resolved ws (macros s) Hw) as [v Hv].
    destruct (Hv s eq_refl) as [Hcv _]. destruct (Hv (set_cond (decided false :: cs) s) eq_refl) as [_ Hl].
    rewrite (run_Ok_bind _ _ _ _ _ (Hl out _ cs eq_refl)), (run_Ok_bind _ _ _ _ _ Hcv), set_cond_twice, run_lines_app.
    change (elif_state v (decided false)) with (decided v). destruct v.
    + assert (doc_meaning line body out s = (doc_meaning line body out ≫= mret) s) as ->.
      { unfold mbind, P_bind, bind. by destruct (doc_meaning line body out s) as [[] ?]. }
      apply (matches_bind (decided true :: cs)); [by apply IHb|]. intros a s' Hs' _.
      rewrite (proj2 (dead_doc w process resolved) t Ht (decided true) cs s' a eq_refl). exact (Hret a cs s' Hs').
    + rewrite (run_Ok_bind _ _ _ out _ (proj1 (dead_doc w process resolved) body Hb (decided false :: cs) s out eq_refl)).
      by apply IHt.
Qed.
End live.

(** ** Process does not depend on the conditions around an #include *)
Lemma set_cond_includes cs l s : set_includes l (set_cond cs s) = set_cond cs (set_includes l s).
Proof. done. Qed.

Lemma Process_neutral fuel w path m : neutral (Process fuel w path m).
Proof.
  intros s cs Hcs. destruct fuel as [|n]; [done|]. cbn [Process].
  destruct (nilb path); [done|].
  change (resolvePath w (set_cond cs s) path) with (resolvePath w s path).
  change (resolvePath w (set_cond [] s) path) with (resolvePath w s path).
  destruct (resolvePath w s path) as [r|e| |]; [|done..].
  change (isInStack (set_cond cs s) r) with (isInStack s r). change (isInStack (set_cond [] s) r) with (isInStack s r).
  destruct (isInStack s r); [done|]. cbn [cache set_cond].
  destruct (cache s !! cacheKey w r m); [done|]. destruct (ReadFile w r) as [data|]; [|done].
  cbn [condStack includeStack set_cond]. rewrite !set_cond_includes, !set_cond_twice.
  by destruct (process_data w (Process n w) r data (set_cond [] (set_includes (r :: includeStack s) s))) as [[] s'].
Qed.

(** The text of a structured document. *)
Definition doc_text (d : doc) : bytes := concat (map (λ l, l ++ [10]) (doc_lines d)).

(** C14 Conditionals mean what they say: processing a file that holds a document
    gives what the document means, the output of the plain lines in the branches
    whose guards hold and nothing of the others, with the same macros and the
    same errors; a finished run leaves no condition behind. *)
Theorem conditionals_correct fuel w resolved d s :
  wf_doc d → Forall (λ l, 10 ∉ l) (doc_lines d) → condStack s = [] →
  matches [] (process_data w (Process fuel w) resolved (doc_text d) s)
    ((out ← doc_meaning (process_line w (Process fuel w) resolved) d None; mret (default [] out)) s).
Proof.
  intros Hd Hl Hs. rewrite process_data_lines. unfold doc_text. rewrite source_lines_text by done.
  assert (s = set_cond [] s) as Hid by (rewrite <- Hs; symmetry; apply set_cond_id). rewrite Hid at 1.
  apply (matches_bind []); [apply (proj1 (live_doc w (Process fuel w) resolved (Process_neutral fuel w))); done|].
  intros a s' Hs' _. split_and!; [done| |done]. cbn. rewrite set_cond_twice, <- Hs'. apply set_cond_id.
Qed.

(** A document: a nested conditional whose first branch is taken. *)
Definition doc1 : doc :=
  DLine (bs "#define N 3")
    (DIf (GIf [bs "N"; bs ">"; bs "2"])
       (DIf (GIfdef true (bs "M")) (DLine (bs "yes") DNil) (BElse (DLine (bs "no") DNil)) DNil)
       (BElif [bs "N"] (DLine (bs "other") DNil) BEnd)
       (DLine (bs "end") DNil)).

Definition world1 : world :=
  mk_world (λ _, None) (λ _, false) (Some (bs "/w")) [] (bs "linux") (λ b, b) true (λ _ m, map_to_list m) (λ _ s, elements s).

Lemma conditionals_correct_witness :
  let s := NewProcessor world1 (bs "/w") [] ∅ false in
  wf_doc doc1 ∧
  (process_data world1 (Process 1 world1) (bs "/w/a.fz") (doc_text doc1) s).1 = Ok (bs "yes
end").
Proof.
  intros s.
  assert (wf_doc doc1) as H1.
  { cbn [doc1 wf_doc wf_branches wf_guard]. unfold safe_words, plain_line.
    split_and!; try done; try (left; vm_compute; reflexivity); try (right; vm_compute; by constructor);
      try (apply (bool_decide_eq_true_1 _); vm_compute; reflexivity). }
  assert (Forall (λ l : bytes, 10 ∉ l) (doc_lines doc1)) as H2 by (apply (bool_decide_eq_true_1 _); vm_compute; reflexivity).
  destruct (conditionals_correct 1 world1 (bs "/w/a.fz") doc1 s H1 H2 eq_refl) as (He & _).
  split; [exact H1|]. rewrite He. vm_compute. reflexivity.
Defined.
