(* ===== verification/FzpFacts.v ===== *)
(** * FZP: includes, paths and the stack of conditions

    What holds for every input: includes end and leave the stacks as they were,
    only files under the allowed directories matter, and the flags of the open
    conditionals stay consistent. *)
From stdpp Require Import list gmap sorting.
From S2P Require Import Prelude GoStrings GoPath FzpExpr FzpScan FzpProcess FzpLines FzpDoc.

(** ** Includes end *)

(** Started with the include stack [stk], [m] ends with it and does not run
    out of fuel, the latter where [strict]. *)
Definition stays (strict : bool) (stk : list bytes) {A} (m : P A) : Prop := ∀ s,
  includeStack s = stk → includeStack (m s).2 = stk ∧ (strict = true → (m s).1 ≠ Diverge).

Lemma stays_ret strict stk {A} (a : A) : stays strict stk (mret a).
Proof. by intros s <-. Qed.

Lemma stays_lift strict stk {A} (m : outcome A) : m ≠ Diverge → stays strict stk (lift m).
Proof. by intros Hm s <-. Qed.

Lemma stays_get strict stk : stays strict stk get.
Proof. by intros s <-. Qed.

Lemma stays_modify strict stk f : (∀ s, includeStack (f s) = includeStack s) → stays strict stk (modify f).
Proof. intros H s <-. by split; [apply H|]. Qed.

Lemma stays_bind strict stk {A B} (m : P A) (f : A → P B) :
  stays strict stk m → (∀ a, stays strict stk (f a)) → stays strict stk (m ≫= f).
Proof.
  intros Hm Hf s Hs. destruct (Hm s Hs) as [H1 H2]. unfold mbind, P_bind, bind.
  destruct (m s) as [[a| | |] s']; cbn [fst snd] in *; [by apply Hf|done..|]. split; [done|]. intros Ht. by specialize (H2 Ht).
Qed.

Create HintDb stays.
#[local] Hint Resolve stays_ret stays_get stays_bind : stays.

Lemma stays_drop strict stk : stays strict stk drop_line.
Proof. apply stays_ret. Qed.
#[local] Hint Resolve stays_drop : stays.

Ltac stays_step :=
  match goal with
  | |- stays _ _ (_ ≫= _) => apply stays_bind; [|intros ?]
  | |- stays _ _ (mret _) => apply stays_ret
  | |- stays _ _ get => apply stays_get
  | |- stays _ _ drop_line => apply stays_drop
  | |- stays _ _ (modify _) => apply stays_modify; intros; done
  | |- stays _ _ (lift (Err _)) => apply stays_lift; done
  | |- stays _ _ (lift (Ok _)) => apply stays_lift; done
  | |- stays _ _ (match ?x with _ => _ end) => destruct x
  | |- stays _ _ (let '_ := ?x in _) => destruct x
  end.
Ltac stays_tac := repeat stays_step.

Lemma stays_condition strict stk ws : stays strict stk (condition ws).
Proof.
  unfold condition. stays_step; [stays_tac|]. stays_step; [|stays_tac]. apply stays_lift.
  destruct (evaluate_returns (makeMacroMap (macros a)) (strings_Join ws [32])) as [[v ->]|[-> _]]; done.
Qed.

Lemma stays_handleDirective strict stk w process line cur :
  (∀ p m, stays strict stk (process p m)) → stays strict stk (handleDirective w process line cur).
Proof.
  intros Hp. unfold handleDirective, when_emitting, do_define, do_undef, do_include, do_ifdef, do_if, do_elif, do_else, do_endif,
    expandMacros, resolveIncludePath, push_cond. cbv zeta.
  repeat first [apply Hp | apply stays_condition | stays_step].
Qed.

Lemma stays_run strict stk w process resolved ls out :
  (∀ p m, stays strict stk (process p m)) → stays strict stk (run_lines (process_line w process resolved) ls out).
Proof.
  intros Hp. revert out. induction ls as [|l ls IH]; intros out; cbn [run_lines]; [apply stays_ret|].
  apply stays_bind; [|apply IH]. unfold process_line. cbv zeta.
  repeat first [apply stays_handleDirective; exact Hp | stays_step].
Qed.

Lemma stays_data strict stk w process resolved source :
  (∀ p m, stays strict stk (process p m)) → stays strict stk (process_data w process resolved source).
Proof.
  intros Hp s Hs. rewrite process_data_lines.
  assert (stays strict stk (out ← run_lines (process_line w process resolved) (source_lines source) None; mret (default [] out))) as H.
  { apply stays_bind; [by apply stays_run|]. intros. apply stays_ret. }
  by apply H.
Qed.

Lemma Process_stays w (files : list bytes) n strict stk :
  (strict = true → (∀ p, ReadFile w p ≠ None → p ∈ files) ∧ NoDup stk ∧ stk ⊆ files ∧ (length files < length stk + n)%nat) →
  ∀ path m, stays strict stk (Process n w path m).
Proof.
  revert stk. induction n as [|n IH]; intros stk Hok path m s Hs.
  { split; [done|]. intros Ht. destruct (Hok Ht) as (_ & Hnd & Hsub & Hlen). apply NoDup_submseteq in Hsub; [|done].
    apply submseteq_length in Hsub. lia. }
  cbn [Process]. destruct (nilb path); [done|].
  assert (resolvePath w s path ≠ Diverge ∧ resolvePath w s path ≠ Panic) as [Hd1 Hd2].
  { unfold resolvePath. cbv zeta. by repeat case_match. }
  destruct (resolvePath w s path) as [r|e| |]; [|done..]. destruct (isInStack s r) eqn:Ein; [done|].
  destruct (cache s !! cacheKey w r m); [done|]. destruct (ReadFile w r) as [data|] eqn:Er; [|done].
  assert (stays strict (r :: stk) (process_data w (Process n w) r data)) as H.
  { apply stays_data. apply IH. intros Ht. destruct (Hok Ht) as (Hf & Hnd & Hsub & Hlen). split_and!; [done| | |cbn; lia].
    - constructor; [|done]. unfold isInStack in Ein. apply bool_decide_eq_false in Ein. by rewrite <- Hs.
    - intros x [-> |Hx]%elem_of_cons; [|by apply Hsub]. apply Hf. by rewrite Er. }
  specialize (H (set_cond [] (set_includes (r :: includeStack s) s))). rewrite Hs in H. destruct (H eq_refl) as [H1 H2]. rewrite Hs.
  destruct (process_data _ _ _ _ _) as [[x|e| |] s']; cbn [fst snd] in *; unfold set_cond, set_includes, set_cache; cbn;
    by rewrite H1.
Qed.

Lemma Process_conditions w n path m s : condStack (Process n w path m s).2 = condStack s.
Proof.
  destruct n as [|n]; [done|]. cbn [Process]. destruct (nilb path); [done|]. destruct (resolvePath w s path); try done.
  destruct (isInStack s a); [done|]. destruct (cache s !! _); [done|]. destruct (ReadFile w a); [|done].
  by destruct (process_data _ _ _ _ _) as [[] s'].
Qed.

(** The files that can be read. *)
Definition all_readable (w : world) (files : list bytes) : Prop := ∀ p, ReadFile w p ≠ None → p ∈ files.

(** C17 Includes end: with a finite set of readable files, one level of includes
    per file is enough, whatever the files hold; and on every way out, an error
    or a panic too, the stacks of includes and conditions are as before. *)
Theorem Process_terminates w files n path m s :
  all_readable w files → includeStack s = [] → (length files < n)%nat →
  (Process n w path m s).1 ≠ Diverge ∧
  includeStack (Process n w path m s).2 = includeStack s ∧ condStack (Process n w path m s).2 = condStack s.
Proof.
  intros Hf Hs Hn. destruct (Process_stays w files n true [] ltac:(intros _; split_and!; [done|constructor|set_solver|cbn; lia]) path m s Hs) as [H1 H2].
  split_and!; [by apply H2|by rewrite H1|apply Process_conditions].
Qed.

(** Two files that include each other. *)
Definition world2 : world :=
  mk_world (λ p, if decide (p = bs "/w/a") then Some (bs "#include b
x") else if decide (p = bs "/w/b") then Some (bs "#include a") else None)
    (λ p, bool_decide (p ∈ [bs "/w/a"; bs "/w/b"])) (Some (bs "/w")) [] (bs "linux") (λ b, b) true
    (λ _ m, map_to_list m) (λ _ s, elements s).

Lemma Process_terminates_witness :
  let s := NewProcessor world2 (bs "/w") [] ∅ false in
  (Process 3 world2 (bs "a") ∅ s).1 ≠ Diverge ∧
  (Process 3 world2 (bs "a") ∅ s).1 = Err "include cycle detected: /w/a".
Proof.
  intros s. split; [|vm_compute; reflexivity].
  refine (proj1 (Process_terminates world2 [bs "/w/a"; bs "/w/b"] 3 (bs "a") ∅ s _ eq_refl _)); [|cbn; lia].
  intros p. cbn [ReadFile world2]. destruct (decide (p = _)) as [->|]; [set_solver|]. destruct (decide (p = _)) as [->|]; [set_solver|done].
Defined.

(** ** Only allowed files matter *)

(** [isAllowedPath] for the directories [A]. *)
Definition allowed (w : world) (A : gset bytes) (path : bytes) : bool :=
  let abs := absPath w path in
  bool_decide (abs ∈ A) || existsb (λ dir, HasPrefix abs (dir ++ [slash])) (elements A).

Lemma isAllowedPath_allowed w p path : isAllowedPath w p path = allowed w (allowedDirs p) path.
Proof. done. Qed.

(** An allowed path is an allowed directory or lies under one, and leads there
    without a double dot. *)
Lemma allowed_contained w A path :
  (∃ wd, cwd w = Some wd ∧ IsAbs wd = true) → allowed w A path = true →
  rooted_path (absPath w path) ∧
  ∃ dir, dir ∈ A ∧ (absPath w path = dir ∨ ∃ rest, absPath w path = dir ++ slash :: rest).
Proof.
  intros (wd & Hwd & Habs) H. split.
  - unfold absPath. cbv zeta. destruct (Abs (cwd w) (Clean path)) as [a|] eqn:E; cbn [default].
    + eapply Abs_rooted; [|exact E]. intros wd' Hw'. congruence.
    + unfold Abs in E. rewrite Hwd in E. by case_match.
  - unfold allowed in H. apply orb_true_iff in H as [H%bool_decide_eq_true|H]; [by eexists; split; [exact H|left]|].
    apply existsb_exists in H as (dir & Hin & (r & Hr)%HasPrefix_true). exists dir. split.
    + apply elem_of_elements. by apply list_elem_of_In.
    + right. exists r. rewrite Hr. by rewrite <- (assoc (++)).
Qed.

(** The same world with other files. *)
Definition with_files (rf : bytes → option bytes) (fe : bytes → bool) (w : world) : world :=
  mk_world rf fe (cwd w) (environ w) (goos w) (sha256_hex w) (avx2 w) (macro_order w) (dir_order w).

(** [m1] and [m2] agree on states with the directories [A], which they keep. *)
Definition same (A : gset bytes) {X} (m1 m2 : P X) : Prop := ∀ s,
  allowedDirs s = A → m1 s = m2 s ∧ allowedDirs (m1 s).2 = A.

Lemma same_bind A {X Y} (m1 m2 : P X) (f1 f2 : X → P Y) :
  same A m1 m2 → (∀ a, same A (f1 a) (f2 a)) → same A (m1 ≫= f1) (m2 ≫= f2).
Proof.
  intros Hm Hf s Hs. destruct (Hm s Hs) as [H1 H2]. unfold mbind, P_bind, bind. rewrite <- H1.
  destruct (m1 s) as [[a| | |] s']; cbn [fst snd] in *; [by apply Hf|done..].
Qed.

Lemma same_get A {X} (f1 f2 : Processor → P X) :
  (∀ p, allowedDirs p = A → same A (f1 p) (f2 p)) → same A (p ← get; f1 p) (p ← get; f2 p).
Proof. intros H s Hs. by apply (H s Hs s Hs). Qed.

Lemma same_const A {X} (r : outcome X) : same A (lift r) (lift r).
Proof. by intros s <-. Qed.

Lemma same_ret A {X} (x : X) : same A (mret x) (mret x).
Proof. by intros s <-. Qed.

Lemma same_modify A f : (∀ s, allowedDirs (f s) = allowedDirs s) → same A (modify f) (modify f).
Proof. intros H s <-. by split; [|apply H]. Qed.

Ltac same_step :=
  match goal with
  | |- same _ (get ≫= _) (get ≫= _) => apply same_get; intros ? ?
  | |- same _ (_ ≫= _) (_ ≫= _) => apply same_bind; [|intros ?]
  | |- same _ (mret _) (mret _) => apply same_ret
  | |- same _ drop_line drop_line => apply same_ret
  | |- same _ (modify _) (modify _) => apply same_modify; intros; done
  | |- same _ (lift _) (lift _) => apply same_const
  | |- same _ (match ?x with _ => _ end) (match ?x with _ => _ end) => destruct x
  end.

Section files.
Context (w : world) (A : gset bytes) (rf : bytes → option bytes) (fe : bytes → bool).
Context (same_read : ∀ p, allowed w A p = true → rf p = ReadFile w p).
Context (same_exists : ∀ p, allowed w A p = true → fe p = file_exists w p).
Abbreviation w' := (with_files rf fe w).

Lemma same_resolveIncludePath inc cur : same A (resolveIncludePath w inc cur) (resolveIncludePath w' inc cur).
Proof.
  unfold resolveIncludePath. destruct (nilb inc); [same_step|]. same_step. rewrite !isAllowedPath_allowed.
  change (allowed w' (allowedDirs p) inc) with (allowed w (allowedDirs p) inc).
  destruct (IsAbs inc); [by repeat same_step|]. same_step; [by same_step|]. cbn [dir_order with_files]. cbv zeta.
  assert (∀ l, find (λ c, isAllowedPath w p c && file_exists w c) l = find (λ c, isAllowedPath w' p c && file_exists w' c) l) as ->.
  { induction l as [|c l IH]; [done|]. cbn [find]. rewrite !isAllowedPath_allowed.
    change (allowed w' (allowedDirs p) c) with (allowed w (allowedDirs p) c). rewrite H.
    destruct (allowed w A c) eqn:E; cbn [andb]; [|exact IH]. cbn [file_exists with_files]. rewrite same_exists by done. by rewrite IH. }
  destruct (find _ _); same_step.
Qed.

Lemma same_handleDirective process1 process2 line cur :
  (∀ p m, same A (process1 p m) (process2 p m)) →
  same A (handleDirective w process1 line cur) (handleDirective w' process2 line cur).
Proof.
  intros Hp. unfold handleDirective, when_emitting, do_undef, do_ifdef, do_if, do_elif, do_else, do_endif, push_cond, condition.
  assert (same A (do_define w line) (do_define w' line)) as Hdef.
  { unfold do_define, expandMacros. cbv zeta. change (macro_order w') with (macro_order w). repeat same_step. }
  assert (same A (do_include w process1 line cur) (do_include w' process2 line cur)) as Hinc.
  { unfold do_include. cbv zeta. repeat first [apply same_resolveIncludePath | apply Hp | same_step]. }
  cbv zeta. repeat first [exact Hdef | exact Hinc | same_step].
Qed.

Lemma same_run process1 process2 r ls out :
  (∀ p m, same A (process1 p m) (process2 p m)) →
  same A (run_lines (process_line w process1 r) ls out) (run_lines (process_line w' process2 r) ls out).
Proof.
  intros Hp. revert out. induction ls as [|l ls IH]; intros out; cbn [run_lines]; [same_step|].
  apply same_bind; [|apply IH]. unfold process_line. cbv zeta.
  destruct (HasPrefix (TrimSpace l) (bs "#")); [|by repeat same_step].
  apply same_bind; [by apply same_handleDirective|]. intros [? ?]. same_step.
Qed.

Lemma resolvePath_allowed s path r :
  allowedDirs s = A → nilb path = false → resolvePath w s path = Ok r → r = Clean r ∧ allowed w A r = true.
Proof.
  intros Hs Hp. unfold resolvePath. cbv zeta. rewrite Hp. rewrite !isAllowedPath_allowed, Hs.
  destruct (IsAbs path && negb (allowed w A path)); [done|].
  destruct (negb _) eqn:E; [done|]. intros [= <-]. apply negb_false_iff in E. split; [symmetry; apply Clean_idempotent|exact E].
Qed.

Lemma same_Process n path m : same A (Process n w path m) (Process n w' path m).
Proof.
  revert path m. induction n as [|n IH]; intros path m s Hs; [done|]. cbn [Process].
  destruct (nilb path) eqn:En; [done|]. change (resolvePath w' s path) with (resolvePath w s path).
  destruct (resolvePath w s path) as [r| | |] eqn:Er; [|done..]. destruct (isInStack s r); [done|].
  change (cacheKey w' r m) with (cacheKey w r m). destruct (cache s !! cacheKey w r m); [done|].
  cbn [ReadFile with_files]. apply resolvePath_allowed in Er as [_ Ha]; [|done..]. rewrite same_read by done.
  destruct (ReadFile w r) as [data|]; [|done]. rewrite !process_data_lines.
  assert (same A (out ← run_lines (process_line w (Process n w) r) (source_lines data) None; mret (default [] out))
                 (out ← run_lines (process_line w' (Process n w') r) (source_lines data) None; mret (default [] out))) as H.
  { apply same_bind; [by apply same_run|]. intros. same_step. }
  destruct (H (set_cond [] (set_includes (r :: includeStack s) s)) Hs) as [H1 H2]. rewrite <- H1.
  by destruct ((out ← run_lines _ _ _; mret (default [] out)) _) as [[] s'].
Qed.
End files.

(** C16 Includes stay inside: whatever a file includes, only files that are
    allowed, or lie under an allowed directory without any double dot on the
    way, can influence the result; any two file systems that agree on these
    give the same output, error and macros. *)
Theorem Process_contained w rf fe n path m s :
  (∃ wd, cwd w = Some wd ∧ IsAbs wd = true) →
  let inside p := rooted_path (absPath w p) ∧
    ∃ dir, dir ∈ allowedDirs s ∧ (absPath w p = dir ∨ ∃ rest, absPath w p = dir ++ slash :: rest) in
  (∀ p, inside p → rf p = ReadFile w p ∧ fe p = file_exists w p) →
  Process n w path m s = Process n (with_files rf fe w) path m s.
Proof.
  intros Hcwd inside Hsame.
  apply (same_Process w (allowedDirs s) rf fe); [..|done]; intros p Hp; by apply Hsame, (allowed_contained w).
Qed.

Lemma Process_contained_witness :
  let s := NewProcessor world2 (bs "/w") [] ∅ false in
  Process 2 world2 (bs "/etc/passwd") ∅ s =
  Process 2 (with_files (λ p, if decide (p = bs "/etc/passwd") then Some (bs "secret") else ReadFile world2 p) (file_exists world2) world2)
    (bs "/etc/passwd") ∅ s.
Proof.
  intros s. apply (Process_contained world2 _ _ 2 (bs "/etc/passwd") ∅ s); [by exists (bs "/w")|].
  intros p [_ Hin]. split; [|done]. destruct (decide (p = bs "/etc/passwd")) as [->|]; [exfalso|done].
  destruct Hin as (dir & Hd & Hp). assert (dir = bs "/w") as ->.
  { revert Hd. change (allowedDirs s) with (list_to_set [bs "/w"] : gset bytes). set_solver. }
  revert Hp. vm_compute. intros [?|[? ?]]; congruence.
Defined.

(** ** The flags of the open conditionals *)

(** A region is active only inside an active one and when its branch is the
    one taken; [parentActive] is the activity around it. *)
Fixpoint stack_ok (cs : list condState) : Prop :=
  match cs with
  | [] => True
  | st :: r =>
      parentActive st = match r with [] => true | st' :: _ => active st' end ∧
      (active st = true → parentActive st = true ∧ branchTaken st = true) ∧ stack_ok r
  end.

(** [m] keeps the flags consistent. *)
Definition keeps {A} (m : P A) : Prop := ∀ s, stack_ok (condStack s) → stack_ok (condStack (m s).2).

(** [m] does not touch them. *)
Definition same_stack {A} (m : P A) : Prop := ∀ s, condStack (m s).2 = condStack s.

Lemma same_stack_bind {A B} (m : P A) (f : A → P B) : same_stack m → (∀ a, same_stack (f a)) → same_stack (m ≫= f).
Proof.
  intros Hm Hf s. unfold mbind, P_bind, bind. specialize (Hm s). destruct (m s) as [[a| | |] s']; cbn in *; [by rewrite Hf|done..].
Qed.

Lemma same_stack_keeps {A} (m : P A) : same_stack m → keeps m.
Proof. intros H s Hs. by rewrite H. Qed.

Lemma keeps_bind {A B} (m : P A) (f : A → P B) : keeps m → (∀ a, keeps (f a)) → keeps (m ≫= f).
Proof.
  intros Hm Hf s Hs. unfold mbind, P_bind, bind. specialize (Hm s Hs). destruct (m s) as [[a| | |] s']; cbn in *; [by apply Hf|done..].
Qed.

Ltac same_stack_step :=
  match goal with
  | |- same_stack (_ ≫= _) => apply same_stack_bind; [|intros ?]
  | |- same_stack (match ?x with _ => _ end) => destruct x
  | |- same_stack _ => done
  end.

Lemma same_stack_condition ws : same_stack (condition ws).
Proof. unfold condition. repeat same_stack_step. Qed.

Lemma push_ok s v :
  stack_ok (condStack s) → stack_ok (mk_cond (parent_active s && v) (parent_active s && v) (parent_active s) :: condStack s).
Proof. intros H. cbn. split_and!; [done| |done]. by intros [-> ->]%andb_true_iff. Qed.

Lemma keeps_handleDirective w process line cur :
  (∀ p m, same_stack (process p m)) → keeps (handleDirective w process line cur).
Proof.
  intros Hp. unfold handleDirective. cbv zeta.
  assert (∀ m, same_stack m → same_stack (when_emitting m)) as Hwhen by (intros m Hm; unfold when_emitting; repeat first [exact Hm | same_stack_step]).
  repeat match goal with |- keeps (if ?b then _ else _) => destruct b end; try by apply same_stack_keeps.
  - apply same_stack_keeps, Hwhen. unfold do_define, expandMacros. cbv zeta. repeat same_stack_step.
  - apply same_stack_keeps, Hwhen. unfold do_undef. repeat same_stack_step.
  - apply same_stack_keeps, Hwhen. unfold do_include, resolveIncludePath. cbv zeta. repeat first [apply Hp | same_stack_step].
  - intros s Hs. unfold do_ifdef. destruct (Fields line) as [|? [|name ?]]; [done..|]. by apply push_ok.
  - intros s Hs. unfold do_ifdef. destruct (Fields line) as [|? [|name ?]]; [done..|]. by apply push_ok.
  - unfold do_if. destruct (Fields line) as [|? [|x ws]]; [by apply same_stack_keeps..|]. apply keeps_bind; [apply same_stack_keeps, same_stack_condition|].
    intros v s Hs. by apply push_ok.
  - intros s Hs. unfold do_elif, get, mbind at 1, P_bind, bind. destruct (condStack s) as [|st r] eqn:E; [by cbn; rewrite E|].
    pose proof Hs as Hs'. destruct Hs as (H1 & H2 & H3). destruct (parentActive st && negb (branchTaken st)) eqn:Eb.
    + destruct (Fields line) as [|? [|x ws]]; [cbn; rewrite E; exact Hs'..|].
      pose proof (same_stack_condition (x :: ws) s) as Hc. unfold mbind, P_bind, bind.
      destruct (condition (x :: ws) s) as [[v| | |] s']; cbn [fst snd] in *; try (rewrite Hc, E; exact Hs').
      cbn. split_and!; [done| |done]. intros ->. by apply andb_true_iff in Eb as [-> _].
    + cbn. by split_and!.
  - intros s Hs. unfold do_else, get, mbind at 1, P_bind, bind. destruct (condStack s) as [|st r] eqn:E; [by cbn; rewrite E|].
    destruct Hs as (H1 & H2 & H3). destruct (parentActive st && negb (branchTaken st)) eqn:Eb; cbn; split_and!; try done.
    intros _. by apply andb_true_iff in Eb as [-> _].
  - intros s Hs. unfold do_endif, modify, drop_line, mbind, P_bind, bind. cbn. destruct (condStack s) as [|st r]; [done|]. by destruct Hs as (_ & _ & ?).
Qed.

Lemma shouldEmit_all s : stack_ok (condStack s) → shouldEmit s = forallb active (condStack s).
Proof.
  unfold shouldEmit. generalize (condStack s) as cs. intros cs. induction cs as [|st r IH]; [done|]. intros (H1 & H2 & H3). cbn [forallb].
  specialize (IH H3). destruct (active st) eqn:Ea; [|by rewrite andb_false_r].
  destruct (H2 eq_refl) as [Hp _]. rewrite Hp. cbn [andb]. destruct r as [|st' r]; [done|]. rewrite Hp in H1. cbn [forallb].
  destruct H3 as (_ & H3 & _). rewrite <- H1 in H3 |- *. destruct (H3 eq_refl) as [Hp' _]. rewrite Hp' in IH.
  cbn [forallb andb] in IH. by rewrite <- H1 in IH.
Qed.

(** The flags stay consistent on every input, also on misplaced or unclosed
    directives: after any lines, a region is active exactly if all the regions
    around it are, and a line is emitted only then. *)
Theorem conditions_consistent fuel w resolved ls out s :
  stack_ok (condStack s) →
  let s' := (run_lines (process_line w (Process fuel w) resolved) ls out s).2 in
  stack_ok (condStack s') ∧ shouldEmit s' = forallb active (condStack s').
Proof.
  intros Hs s'. assert (stack_ok (condStack s')) as H; [|by split; [|apply shouldEmit_all]].
  unfold s'. clear s'. revert s Hs. change (keeps (run_lines (process_line w (Process fuel w) resolved) ls out)).
  revert out. induction ls as [|l ls IH]; intros out; cbn [run_lines]; [by apply same_stack_keeps|]. apply keeps_bind; [|apply IH].
  unfold process_line. cbv zeta. destruct (HasPrefix (TrimSpace l) (bs "#")); [|by apply same_stack_keeps].
  apply keeps_bind; [|intros [? ?]; by apply same_stack_keeps]. apply keeps_handleDirective. intros p m s. apply Process_conditions.
Qed.

Lemma conditions_consistent_witness :
  let s := NewProcessor world1 (bs "/w") [] ∅ false in
  let s' := (run_lines (process_line world1 (Process 1 world1) (bs "/w/a")) [bs "#else"; bs "#ifdef X"; bs "#if 1"; bs "#elif 1"] None s).2 in
  stack_ok (condStack s) ∧ condStack s' = [mk_cond false false false; mk_cond false false true] ∧ shouldEmit s' = false.
Proof.
  intros s s'. destruct (conditions_consistent 1 world1 (bs "/w/a") [bs "#else"; bs "#ifdef X"; bs "#if 1"; bs "#elif 1"] None s I) as [H1 H2].
  split; [done|]. split; [vm_compute; reflexivity|]. unfold s'. rewrite H2. vm_compute. reflexivity.
Defined.

(** ** Where the processor departs from its description *)

(** The text of an included file never reaches the output. *)
Lemma include_emits_nothing w process arg cur s r keep s' :
  word arg → HasPrefix arg (bs "<") = false →
  do_include w process (words_line (bs "#include") [arg]) cur s = (Ok (r, keep), s') → keep = false.
Proof.
  intros Hw Hp. unfold do_include. destruct (words_line_facts (bs "#include") [arg]) as (_ & -> & _); [word_tac|by constructor|].
  rewrite Hp. cbn [andb]. cbv zeta. destruct (nilb _); [by intros [= <- <- <-]|].
  unfold mbind, P_bind, bind, get. destruct (resolveIncludePath _ _ _ s) as [[a| | |] s1]; [|done..].
  destruct (process a (macros s1) s1) as [[i| | |] s2]; [|done..]. by intros [= _ <- _].
Qed.

(** #error stops the run in a branch that is not taken. *)
Example dead_error :
  (run_lines (process_line world1 (Process 1 world1) (bs "/w/a")) [bs "#ifdef X"; bs "#error no X"; bs "#endif"] None
     (NewProcessor world1 (bs "/w") [] ∅ false)).1 = Err "#error no X".
Proof. vm_compute. reflexivity. Qed.

(** Two blanks after #define make the whole line the value. *)
Example define_blanks :
  macros (run_lines (process_line world1 (Process 1 world1) (bs "/w/a")) [bs "#define  N 1"] None
     (NewProcessor world1 (bs "/w") [] ∅ false)).2 !! bs "N" = Some (bs "#define  N 1").
Proof. vm_compute. reflexivity. Qed.

(** Macros are expanded in the order of a map iteration, and the order matters. *)
Example expansion_order :
  let m := <[bs "A" := bs "B"]> (<[bs "B" := bs "C"]> (∅ : gmap bytes bytes)) in
  let w order := mk_world (λ _, None) (λ _, false) None [] [] (λ b, b) true order (λ _ s, elements s) in
  (expandMacros (w (λ _ _, [(bs "A", bs "B"); (bs "B", bs "C")])) (bs "A") (set_macros m (NewProcessor world1 [] [] ∅ false))).1 = Ok (bs "C") ∧
  (expandMacros (w (λ _ _, [(bs "B", bs "C"); (bs "A", bs "B")])) (bs "A") (set_macros m (NewProcessor world1 [] [] ∅ false))).1 = Ok (bs "B").
Proof. split; vm_compute; reflexivity. Qed.

(** A name and its value are hashed without a separator, so that different
    macros can have one cache key. *)
Example key_collision w path :
  cacheKey w path {[ bs "A" := bs "B" ]} = cacheKey w path {[ bs "AB" := [] ]}.
Proof. unfold cacheKey, key_bytes, sort_keys. rewrite !map_to_list_singleton. done. Qed.

(** A relative path that already names the root directory gets it once more. *)
Example root_twice :
  resolvePath world1 (NewProcessor world1 (bs "src") [] ∅ false) (bs "src/config.fz") = Ok (bs "src/src/config.fz").
Proof. vm_compute. reflexivity. Qed.

(** Nothing under the directory / is allowed. *)
Example root_directory :
  resolvePath world1 (NewProcessor world1 (bs "/") [] ∅ false) (bs "/a.fz") = Err "path outside allowed paths: /a.fz".
Proof. vm_compute. reflexivity. Qed.
