(* ===== verification/RingQueue.v ===== *)
(** * Drivers: the bounded queues (drivers/scheduler/queue.go, intqueue.go)

    A ring of slots with sequence numbers, used by any number of goroutines.
    Every atomic operation and every access to a slot is a step of its own;
    the queue is shown linearizable: each history of calls and returns is one
    of an atomic first-in first-out queue. *)
From stdpp Require Import list gmap functions.
From S2P Require Import Prelude.

(** ** Capacities *)
Definition nextPowerOfTwo (n : Z) : Z :=
  if n <=? 1 then 1
  else
    let n := n - 1 in
    let n := Z.lor n (Z.shiftr n 1) in
    let n := Z.lor n (Z.shiftr n 2) in
    let n := Z.lor n (Z.shiftr n 4) in
    let n := Z.lor n (Z.shiftr n 8) in
    let n := Z.lor n (Z.shiftr n 16) in
    n + 1.

(** Bit [i] is set when one of the [w] bits from [i] on is set in [n]. *)
Definition smeared (n m : Z) (w : Z) : Prop :=
  0 ≤ m ∧ ∀ i, 0 ≤ i → Z.testbit m i = true ↔ ∃ j, i ≤ j < i + w ∧ Z.testbit n j = true.

Lemma smear_step n m w : 0 ≤ w → smeared n m w → smeared n (Z.lor m (Z.shiftr m w)) (2 * w).
Proof.
  intros Hw [Hm H]. split.
  { apply Z.lor_nonneg. split; [done|]. by apply Z.shiftr_nonneg. }
  intros i Hi. rewrite Z.lor_spec, Z.shiftr_spec, orb_true_iff by done. rewrite H, H by lia. split.
  - intros [(j & Hj & Hb)|(j & Hj & Hb)]; exists j; (split; [lia|done]).
  - intros (j & Hj & Hb). destruct (decide (j < i + w)); [left|right]; exists j; (split; [lia|done]).
Qed.

Lemma nextPowerOfTwo_spec n :
  1 < n ≤ 2 ^ 32 → ∃ k, 1 ≤ k ≤ 32 ∧ nextPowerOfTwo n = 2 ^ k ∧ n ≤ 2 ^ k < 2 * n.
Proof.
  intros Hn. exists (Z.log2 (n - 1) + 1). pose proof (Z.log2_spec (n - 1) ltac:(lia)) as Hl.
  pose proof (Z.log2_nonneg (n - 1)). assert (Z.log2 (n - 1) < 32) by (apply Z.log2_lt_pow2; lia).
  rewrite Z.add_1_r. split; [lia|]. split; [|rewrite Z.pow_succ_r in * by lia; lia].
  unfold nextPowerOfTwo. rewrite (proj2 (Z.leb_gt n 1)) by lia. cbv zeta.
  assert (smeared (n - 1) (n - 1) 1) as Hsm.
  { split; [lia|]. intros i Hi. split; [intros Hb; exists i; split; [lia|done]|]. intros (j & Hj & Hb). by replace i with j by lia. }
  apply (smear_step _ _ 1) in Hsm; [|lia]. apply (smear_step _ _ 2) in Hsm; [|lia]. apply (smear_step _ _ 4) in Hsm; [|lia].
  apply (smear_step _ _ 8) in Hsm; [|lia]. apply (smear_step _ _ 16) in Hsm; [|lia]. change (2 * 16) with 32 in Hsm.
  match type of Hsm with smeared _ ?m _ => set (r := m) in * end.
  replace (2 ^ Z.succ (Z.log2 (n - 1))) with (Z.ones (Z.succ (Z.log2 (n - 1))) + 1) by (rewrite Z.ones_equiv; lia).
  f_equal. destruct Hsm as [Hr Hsm]. apply Z.bits_inj'. intros i Hi. apply eq_true_iff_eq.
  rewrite (Hsm i Hi), Z.testbit_ones by lia. rewrite andb_true_iff, Z.leb_le, Z.ltb_lt. split.
  - intros (j & Hj & Hb). assert (j ≤ Z.log2 (n - 1)); [|lia].
    destruct (decide (Z.log2 (n - 1) < j)); [|lia]. rewrite Z.bits_above_log2 in Hb by lia. done.
  - intros Hlt. exists (Z.log2 (n - 1)). split; [lia|]. apply Z.bit_log2. lia.
Qed.

(** The capacity of a queue made with [n]. *)
Definition queue_capacity (n : Z) : Z := nextPowerOfTwo (if n <? 2 then 2 else n).

Section ring.
Context {V : Type} (zero : V).   (* Task{} *)
Context (clears : bool).         (* a dequeue of ringQueue empties the slot *)

(** ** The shared state *)
Record slot : Type := mk_slot { seq : Z; val : V }.

Record ring : Type := mk_ring { slots : list slot; cap : Z; mask : Z; head : Z; tail : Z }.

(** newRingQueue and newIntRingQueue. *)
Definition newRingQueue (capacity : Z) : ring :=
  let capacity := queue_capacity capacity in
  mk_ring (map (λ i, mk_slot (Z.of_nat i) zero) (List.seq 0 (Z.to_nat capacity))) capacity (capacity - 1) 0 0.

Definition set_slot (i : nat) (s : slot) (r : ring) : ring :=
  mk_ring (<[i := s]> (slots r)) (cap r) (mask r) (head r) (tail r).
Definition set_head (h : Z) (r : ring) : ring := mk_ring (slots r) (cap r) (mask r) h (tail r).
Definition set_tail (t : Z) (r : ring) : ring := mk_ring (slots r) (cap r) (mask r) (head r) t.

(** [q.slots[ticket & q.mask]] *)
Definition index (r : ring) (ticket : Z) : nat := Z.to_nat (Z.land ticket (mask r)).
Definition slot_of (r : ring) (ticket : Z) : outcome slot :=
  match slots r !! index r ticket with Some s => Ok s | None => Panic end.

(** ** Goroutines: what each is about to do *)
Inductive pc : Type :=
  | Idle
  | EnqTail (v : V)                    (* load tail *)
  | EnqSeq (v : V) (t : Z)             (* load the slot's seq *)
  | EnqTest (v : V) (t s : Z)          (* compare, compare-and-swap tail *)
  | EnqStore (v : V) (t : Z)           (* write the value *)
  | EnqPublish (v : V) (t : Z)         (* store seq *)
  | EnqDone (ok : bool)
  | DeqHead                            (* load head *)
  | DeqSeq (h : Z)
  | DeqTest (h s : Z)
  | DeqLoad (h : Z)                    (* read the value *)
  | DeqClear (h : Z) (v : V)           (* write Task{} *)
  | DeqPublish (h : Z) (v : V)
  | DeqDone (r : option V).

(** One step of a goroutine in tryEnqueue, and in tryDequeue. *)
Definition tryEnqueue_step (r : ring) (p : pc) : outcome (ring * pc) :=
  match p with
  | EnqTail v => Ok (r, EnqSeq v (tail r))
  | EnqSeq v t => s ← slot_of r t; Ok (r, EnqTest v t (seq s))
  | EnqTest v t s =>
      if s =? t then if tail r =? t then Ok (set_tail (u64 (t + 1)) r, EnqStore v t) else Ok (r, EnqTail v)
      else if s <? t then Ok (r, EnqDone false)
      else Ok (r, EnqTail v)
  | EnqStore v t => s ← slot_of r t; Ok (set_slot (index r t) (mk_slot (seq s) v) r, EnqPublish v t)
  | EnqPublish v t => s ← slot_of r t; Ok (set_slot (index r t) (mk_slot (u64 (t + 1)) (val s)) r, EnqDone true)
  | _ => Err "not in tryEnqueue"
  end.

Definition tryDequeue_step (r : ring) (p : pc) : outcome (ring * pc) :=
  match p with
  | DeqHead => Ok (r, DeqSeq (head r))
  | DeqSeq h => s ← slot_of r h; Ok (r, DeqTest h (seq s))
  | DeqTest h s =>
      if s =? u64 (h + 1) then if head r =? h then Ok (set_head (u64 (h + 1)) r, DeqLoad h) else Ok (r, DeqHead)
      else if s <=? h then Ok (r, DeqDone None)
      else Ok (r, DeqHead)
  | DeqLoad h => s ← slot_of r h; Ok (r, if clears then DeqClear h (val s) else DeqPublish h (val s))
  | DeqClear h v => s ← slot_of r h; Ok (set_slot (index r h) (mk_slot (seq s) zero) r, DeqPublish h v)
  | DeqPublish h v => s ← slot_of r h; Ok (set_slot (index r h) (mk_slot (u64 (h + cap r)) (val s)) r, DeqDone (Some v))
  | _ => Err "not in tryDequeue"
  end.

Definition tstep (r : ring) (p : pc) : outcome (ring * pc) :=
  match p with
  | EnqTail _ | EnqSeq _ _ | EnqTest _ _ _ | EnqStore _ _ | EnqPublish _ _ => tryEnqueue_step r p
  | _ => tryDequeue_step r p
  end.

(** ** The whole system and its histories *)
Record sys : Type := mk_sys { queue : ring; threads : nat → pc }.

Inductive event : Type :=
  | CallEnq (i : nat) (v : V)
  | RetEnq (i : nat) (ok : bool)
  | CallDeq (i : nat)
  | RetDeq (i : nat) (r : option V).

Inductive step : sys → option event → sys → Prop :=
  | step_call_enq r f i v : f i = Idle → step (mk_sys r f) (Some (CallEnq i v)) (mk_sys r (<[i := EnqTail v]> f))
  | step_ret_enq r f i ok : f i = EnqDone ok → step (mk_sys r f) (Some (RetEnq i ok)) (mk_sys r (<[i := Idle]> f))
  | step_call_deq r f i : f i = Idle → step (mk_sys r f) (Some (CallDeq i)) (mk_sys r (<[i := DeqHead]> f))
  | step_ret_deq r f i x : f i = DeqDone x → step (mk_sys r f) (Some (RetDeq i x)) (mk_sys r (<[i := Idle]> f))
  | step_run r f i r' p : tstep r (f i) = Ok (r', p) → step (mk_sys r f) None (mk_sys r' (<[i := p]> f)).

Definition event_list (e : option event) : list event := match e with Some x => [x] | None => [] end.

(** Fewer than about 2^64 tickets have been taken. *)
Definition no_wrap (s : sys) : Prop := tail (queue s) + cap (queue s) + 1 < 2 ^ 64.

Inductive exec : sys → list event → sys → Prop :=
  | exec_nil s : exec s [] s
  | exec_step s1 s2 s3 tr e : exec s1 tr s2 → no_wrap s2 → step s2 e s3 → exec s1 (tr ++ event_list e) s3.

Definition init (capacity : Z) : sys := mk_sys (newRingQueue capacity) (λ _, Idle).

(** ** The specification: an atomic bounded queue

    Between its call and its return an operation takes effect at one moment.
    An enqueue may fail when the queue is full, or while a dequeue that has
    taken effect has not returned; a dequeue may find nothing when the queue is
    empty, or while an enqueue that has taken effect has not returned. *)
Inductive status : Type := SIdle | SEnq (v : V) | SEnqDone (ok : bool) | SDeq | SGot (r : option V).

Record spec : Type := mk_spec { contents : list V; stat : nat → status }.

Definition dequeuing (a : spec) : Prop := ∃ i v, stat a i = SGot (Some v).
Definition enqueuing (a : spec) : Prop := ∃ i, stat a i = SEnqDone true.

Inductive sstep (c : Z) : spec → option event → spec → Prop :=
  | sstep_call_enq l f i v : f i = SIdle → sstep c (mk_spec l f) (Some (CallEnq i v)) (mk_spec l (<[i := SEnq v]> f))
  | sstep_push l f i v : f i = SEnq v → Zlen l < c → sstep c (mk_spec l f) None (mk_spec (l ++ [v]) (<[i := SEnqDone true]> f))
  | sstep_full l f i v : f i = SEnq v → Zlen l = c ∨ dequeuing (mk_spec l f) →
      sstep c (mk_spec l f) None (mk_spec l (<[i := SEnqDone false]> f))
  | sstep_ret_enq l f i ok : f i = SEnqDone ok → sstep c (mk_spec l f) (Some (RetEnq i ok)) (mk_spec l (<[i := SIdle]> f))
  | sstep_call_deq l f i : f i = SIdle → sstep c (mk_spec l f) (Some (CallDeq i)) (mk_spec l (<[i := SDeq]> f))
  | sstep_pop v l f i : f i = SDeq → sstep c (mk_spec (v :: l) f) None (mk_spec l (<[i := SGot (Some v)]> f))
  | sstep_empty l f i : f i = SDeq → l = [] ∨ enqueuing (mk_spec l f) →
      sstep c (mk_spec l f) None (mk_spec l (<[i := SGot None]> f))
  | sstep_ret_deq l f i x : f i = SGot x → sstep c (mk_spec l f) (Some (RetDeq i x)) (mk_spec l (<[i := SIdle]> f))
  | sstep_wait a : sstep c a None a.

Inductive sexec (c : Z) : spec → list event → spec → Prop :=
  | sexec_nil a : sexec c a [] a
  | sexec_step a1 a2 a3 tr e : sexec c a1 tr a2 → sstep c a2 e a3 → sexec c a1 (tr ++ event_list e) a3.

Definition spec_init : spec := mk_spec [] (λ _, SIdle).

(** ** The invariant

    [hist] holds the values in the order of the tickets taken from [tail]. *)
Definition storing (p : pc) (t : Z) : Prop :=
  match p with EnqStore _ t' | EnqPublish _ t' => t' = t | _ => False end.
Definition loading (p : pc) (h : Z) : Prop :=
  match p with DeqLoad h' | DeqClear h' _ | DeqPublish h' _ => h' = h | _ => False end.

(** The slot of ticket [t] has the sequence number [e]. *)
Definition has_seq (r : ring) (t e : Z) (P : slot → Prop) : Prop :=
  ∃ s, slots r !! index r t = Some s ∧ seq s = e ∧ P s.

Definition any (s : slot) : Prop := True.

Definition thread_inv (r : ring) (hist : list V) (p : pc) : Prop :=
  match p with
  | Idle | EnqTail _ | EnqDone _ | DeqHead | DeqDone _ => True
  | EnqSeq v t => 0 ≤ t ≤ tail r
  | EnqTest v t s => 0 ≤ t ≤ tail r ∧ (s = t → t = tail r → has_seq r t t any)
  | EnqStore v t => head r ≤ t < tail r ∧ hist !! Z.to_nat t = Some v ∧ has_seq r t t any
  | EnqPublish v t => head r ≤ t < tail r ∧ hist !! Z.to_nat t = Some v ∧ has_seq r t t (λ s, val s = v)
  | DeqSeq h => 0 ≤ h ≤ head r
  | DeqTest h s => 0 ≤ h ≤ head r ∧ (s = h + 1 → h = head r → has_seq r h (h + 1) any)
  | DeqLoad h => 0 ≤ h < head r ∧ tail r ≤ h + cap r ∧ has_seq r h (h + 1) (λ s, hist !! Z.to_nat h = Some (val s))
  | DeqClear h v | DeqPublish h v =>
      0 ≤ h < head r ∧ tail r ≤ h + cap r ∧ hist !! Z.to_nat h = Some v ∧ has_seq r h (h + 1) any
  end.

(** A slot waits for the enqueue with its ticket, or holds that enqueue's value
    for the dequeue with the same ticket. *)
Definition slot_inv (r : ring) (hist : list V) (f : nat → pc) (i : nat) (s : slot) : Prop :=
  ∃ t, 0 ≤ t ∧ index r t = i ∧
    ((seq s = t ∧ head r ≤ t < head r + cap r ∧ (t < tail r → ∃ j, storing (f j) t)) ∨
     (seq s = t + 1 ∧ tail r - cap r ≤ t < tail r ∧ (head r ≤ t → hist !! Z.to_nat t = Some (val s)) ∧
      (t < head r → ∃ j, loading (f j) t))).

Record inv (r : ring) (hist : list V) (f : nat → pc) : Prop := {
  inv_cap : ∃ k, 1 ≤ k ∧ cap r = 2 ^ k ∧ mask r = 2 ^ k - 1 ∧ Zlen (slots r) = 2 ^ k;
  inv_order : 0 ≤ head r ∧ head r ≤ tail r ∧ tail r ≤ head r + cap r;
  inv_hist : Zlen hist = tail r;
  inv_slots : ∀ i s, slots r !! i = Some s → slot_inv r hist f i s;
  inv_threads : ∀ j, thread_inv r hist (f j);
  inv_storing : ∀ i j t, storing (f i) t → storing (f j) t → i = j;
  inv_loading : ∀ i j h, loading (f i) h → loading (f j) h → i = j
}.

Definition abs_pc (hist : list V) (p : pc) : status :=
  match p with
  | Idle => SIdle
  | EnqTail v | EnqSeq v _ => SEnq v
  | EnqTest v t s => if s <? t then SEnqDone false else SEnq v
  | EnqStore _ _ | EnqPublish _ _ => SEnqDone true
  | EnqDone ok => SEnqDone ok
  | DeqHead | DeqSeq _ => SDeq
  | DeqTest h s => if s <=? h then SGot None else SDeq
  | DeqLoad h => SGot (hist !! Z.to_nat h)
  | DeqClear _ v | DeqPublish _ v => SGot (Some v)
  | DeqDone x => SGot x
  end.

(** *** Indices *)
Section index.
Context (r : ring) (hist : list V) (f : nat → pc) (I : inv r hist f).

Lemma ring_index_mod t : 0 ≤ t → index r t = Z.to_nat (t mod cap r).
Proof.
  intros Ht. destruct (inv_cap _ _ _ I) as (k & Hk & -> & Hm & _). unfold index. rewrite Hm.
  rewrite <- Z.land_ones by lia. by rewrite Z.ones_equiv, Z.sub_1_r.
Qed.

Lemma ring_cap_pos : 2 ≤ cap r.
Proof.
  destruct (inv_cap _ _ _ I) as (k & Hk & -> & _). change 2 with (2 ^ 1) at 1. apply Z.pow_le_mono_r; lia.
Qed.

(** Tickets with the same slot differ by a multiple of the capacity. *)
Lemma index_eq t t' : 0 ≤ t → 0 ≤ t' → index r t = index r t' → t = t' ∨ t + cap r ≤ t' ∨ t' + cap r ≤ t.
Proof.
  intros Ht Ht'. rewrite !ring_index_mod by done. pose proof ring_cap_pos. intros He.
  pose proof (Z.mod_pos_bound t (cap r) ltac:(lia)). pose proof (Z.mod_pos_bound t' (cap r) ltac:(lia)).
  assert (t mod cap r = t' mod cap r) as Hm by lia.
  pose proof (Z.div_mod t (cap r) ltac:(lia)). pose proof (Z.div_mod t' (cap r) ltac:(lia)).
  destruct (Z.lt_trichotomy (t / cap r) (t' / cap r)) as [Hlt|[Heq|Hlt]]; [right; left|left|right; right]; nia.
Qed.

Lemma index_lookup t : 0 ≤ t → ∃ s, slots r !! index r t = Some s.
Proof.
  intros Ht. apply lookup_lt_is_Some. pose proof ring_cap_pos. rewrite ring_index_mod by done.
  destruct (inv_cap _ _ _ I) as (k & _ & Hc & _ & Hl). pose proof (Z.mod_pos_bound t (cap r) ltac:(lia)). lia.
Qed.

Lemma index_shift t : 0 ≤ t → index r (t + cap r) = index r t.
Proof. intros Ht. pose proof ring_cap_pos. rewrite !ring_index_mod by lia. f_equal. rewrite <- (Z.mul_1_l (cap r)) at 1. by rewrite Z_mod_plus_full. Qed.
End index.

(** *** Steps that leave the ring alone *)
Lemma slot_inv_pc r hist f j p i s :
  (∀ t, storing (f j) t → storing p t) → (∀ h, loading (f j) h → loading p h) →
  slot_inv r hist f i s → slot_inv r hist (<[j := p]> f) i s.
Proof.
  intros Hs Hl (t & Ht & Hi & H). exists t. split_and!; [done..|].
  assert (∀ (Q : pc → Prop), (Q (f j) → Q p) → (∃ j', Q (f j')) → ∃ j', Q (<[j := p]> f j')) as Hex.
  { intros Q HQ (j' & Hj'). exists j'. destruct (decide (j = j')) as [<-|]; [rewrite fn_lookup_insert; auto|by rewrite fn_lookup_insert_ne]. }
  destruct H as [(H1 & H2 & H3)|(H1 & H2 & H3 & H4)]; [left|right].
  - split; [done|]. split; [done|]. intros Hlt. apply (Hex (λ q, storing q t)); auto.
  - split; [done|]. split; [done|]. split; [done|]. intros Hlt. apply (Hex (λ q, loading q t)); auto.
Qed.

Lemma ring_pc r hist f j p :
  inv r hist f → thread_inv r hist p →
  (∀ t, storing p t ↔ storing (f j) t) → (∀ h, loading p h ↔ loading (f j) h) →
  inv r hist (<[j := p]> f).
Proof.
  intros [H1 H2 H3 H4 H5 H6 H7] Hp Hs Hl. constructor; [done..| | | |].
  - intros i s Hi. apply slot_inv_pc; [apply Hs|apply Hl|by apply H4].
  - intros i. destruct (decide (j = i)) as [<-|]; [by rewrite fn_lookup_insert|by rewrite fn_lookup_insert_ne].
  - assert (∀ i t, storing (<[j := p]> f i) t → storing (f i) t) as H.
    { intros i t. destruct (decide (j = i)) as [<-|]; [rewrite fn_lookup_insert; apply Hs|by rewrite fn_lookup_insert_ne]. }
    intros i i' t Hi%H Hi'%H. by eapply H6.
  - assert (∀ i h, loading (<[j := p]> f i) h → loading (f i) h) as H.
    { intros i h. destruct (decide (j = i)) as [<-|]; [rewrite fn_lookup_insert; apply Hl|by rewrite fn_lookup_insert_ne]. }
    intros i i' h Hi%H Hi'%H. by eapply H7.
Qed.

(** *** Steps that write a slot *)

(** The ticket and the sequence number a thread relies on. *)
Definition claim (r : ring) (p : pc) : option (Z * Z) :=
  match p with
  | EnqTest v t s => if decide (s = t ∧ t = tail r) then Some (t, t) else None
  | EnqStore _ t | EnqPublish _ t => Some (t, t)
  | DeqTest h s => if decide (s = h + 1 ∧ h = head r) then Some (h, h + 1) else None
  | DeqLoad h | DeqClear h _ | DeqPublish h _ => Some (h, h + 1)
  | _ => None
  end.

Lemma claim_cases r p t e :
  claim r p = Some (t, e) → (e = t ∧ (t = tail r ∨ storing p t)) ∨ (e = t + 1 ∧ (t = head r ∨ loading p t)).
Proof. destruct p; cbn; try done; try case_decide; naive_solver. Qed.

Lemma has_seq_any r t e P : has_seq r t e P → has_seq r t e any.
Proof. intros (s & Hs & He & _). by exists s. Qed.

Lemma claim_has_seq r hist p t e : thread_inv r hist p → 0 ≤ head r → claim r p = Some (t, e) → 0 ≤ t ∧ has_seq r t e any.
Proof.
  destruct p; cbn; try done; try case_decide; intros Hp Hh Hc; simplify_eq;
    repeat match goal with H : _ ∧ _ |- _ => destruct H end; (split; [lia|]); eauto using has_seq_any.
Qed.

Lemma has_seq_set r i s' t e P : index r t ≠ i → has_seq r t e P → has_seq (set_slot i s' r) t e P.
Proof.
  intros Hi (s & Hs & He). exists s. split; [|done]. change (index (set_slot i s' r) t) with (index r t).
  unfold set_slot. cbn [slots]. by rewrite list_lookup_insert_ne by done.
Qed.

Lemma thread_inv_set_slot r hist i s' p :
  thread_inv r hist p → (∀ t e, claim r p = Some (t, e) → index r t ≠ i) → thread_inv (set_slot i s' r) hist p.
Proof.
  intros Hp Hc. destruct p; cbn in *; try exact Hp.
  - destruct Hp as [H1 H2]. split; [done|]. intros -> ->. apply has_seq_set; [|by apply H2].
    eapply Hc. by rewrite decide_True.
  - destruct Hp as (H1 & H2 & H3). split_and!; try done; try lia. apply has_seq_set; [by eapply Hc|done].
  - destruct Hp as (H1 & H2 & H3). split_and!; try done; try lia. apply has_seq_set; [by eapply Hc|done].
  - destruct Hp as [H1 H2]. split; [done|]. intros -> ->. apply has_seq_set; [|by apply H2].
    eapply Hc. by rewrite decide_True.
  - destruct Hp as (H1 & H2 & H3). split_and!; try done; try lia. apply has_seq_set; [by eapply Hc|done].
  - destruct Hp as (H1 & H2 & H3 & H4). split_and!; try done; try lia. apply has_seq_set; [by eapply Hc|done].
  - destruct Hp as (H1 & H2 & H3 & H4). split_and!; try done; try lia. apply has_seq_set; [by eapply Hc|done].
Qed.

Lemma has_seq_eq r t t' e e' P P' : has_seq r t e P → has_seq r t' e' P' → index r t = index r t' → e = e'.
Proof. intros (s & Hs & He & _) (s' & Hs' & He' & _) Hi. rewrite Hi in Hs. congruence. Qed.

(** A thread that owns a slot is alone with it. *)
Lemma owner_alone r hist f i j t t' e :
  inv r hist f → storing (f i) t ∨ loading (f i) t → i ≠ j → claim r (f j) = Some (t', e) → index r t' ≠ index r t.
Proof.
  intros I Hi Hij Hc He. pose proof (inv_order _ _ _ I). pose proof (ring_cap_pos _ _ _ I).
  destruct (claim_has_seq _ _ _ _ _ (inv_threads _ _ _ I j) ltac:(lia) Hc) as [Ht' Hs'].
  pose proof (inv_threads _ _ _ I i) as Hti.
  assert (∃ e0, has_seq r t e0 any ∧ 0 ≤ t ∧ ((e0 = t ∧ storing (f i) t ∧ t < tail r) ∨ (e0 = t + 1 ∧ loading (f i) t ∧ t < head r))) as (e0 & Hs & Ht & Hcase).
  { destruct Hi as [Hi|Hi]; destruct (f i) eqn:Ef; cbn in Hi; try done; subst; cbn in Hti;
      repeat match goal with H : _ ∧ _ |- _ => destruct H end;
      eexists; (split; [eapply has_seq_any; eassumption|]); (split; [lia|]); [left|left|right|right|right]; (split_and!; [done..|lia]). }
  pose proof (has_seq_eq _ _ _ _ _ _ _ Hs' Hs He) as ->.
  destruct (index_eq _ _ _ I t' t Ht' Ht He) as [-> |Hd].
  - apply claim_cases in Hc. destruct Hcase as [(-> & H1 & H2)|(-> & H1 & H2)], Hc as [[H3 [H4|H4]]|[H3 [H4|H4]]]; try lia.
    + by apply Hij, (inv_storing _ _ _ I i j t).
    + by apply Hij, (inv_loading _ _ _ I i j t).
  - apply claim_cases in Hc. lia.
Qed.

Lemma inv_set_slot r hist f j p t s' :
  inv r hist f → 0 ≤ t → storing (f j) t ∨ loading (f j) t →
  (∀ u, storing p u → storing (f j) u) → (∀ u, loading p u → loading (f j) u) →
  thread_inv (set_slot (index r t) s' r) hist p →
  slot_inv (set_slot (index r t) s' r) hist (<[j := p]> f) (index r t) s' →
  inv (set_slot (index r t) s' r) hist (<[j := p]> f).
Proof.
  intros I Ht Hown Hst Hld Hp Hslot. pose proof I as [H1 H2 H3 H4 H5 H6 H7].
  assert (∀ u, storing (f j) u ∨ loading (f j) u → u = t) as Hut by (intros u; destruct (f j); cbn in *; naive_solver).
  constructor; [|done..| | | |].
  - destruct H1 as (k & Hk & Hc & Hm & Hl). exists k. cbn. rewrite length_insert. done.
  - intros i s Hi. cbn in Hi. destruct (decide (index r t = i)) as [<-|Hne].
    + rewrite list_lookup_insert_eq in Hi by (apply lookup_lt_Some in Hi; rewrite length_insert in Hi; done). by injection Hi as <-.
    + rewrite list_lookup_insert_ne in Hi by done. destruct (H4 i s Hi) as (u & Hu & Hiu & H). exists u. split; [done|]. split; [done|].
      assert (∀ i', storing (f i') u ∨ loading (f i') u → i' ≠ j) as Hnj.
      { intros i' Hi' ->. apply Hne. rewrite <- Hiu. f_equal. symmetry. by apply Hut. }
      destruct H as [(E1 & E2 & E3)|(E1 & E2 & E3 & E4)]; [left|right].
      * split; [done|]. split; [done|]. intros Hlt. destruct (E3 Hlt) as [i' Hi']. exists i'.
        rewrite fn_lookup_insert_ne; [done|]. intros ->. by apply (Hnj i'); [left|].
      * split; [done|]. split; [done|]. split; [done|]. intros Hlt. destruct (E4 Hlt) as [i' Hi']. exists i'.
        rewrite fn_lookup_insert_ne; [done|]. intros ->. by apply (Hnj i'); [right|].
  - intros i. destruct (decide (j = i)) as [<-|Hne]; [by rewrite fn_lookup_insert|]. rewrite fn_lookup_insert_ne by done.
    apply thread_inv_set_slot; [done|]. intros u e Hc. by eapply owner_alone.
  - assert (∀ i u, storing (<[j := p]> f i) u → storing (f i) u) as H.
    { intros i u. destruct (decide (j = i)) as [<-|]; [rewrite fn_lookup_insert; apply Hst|by rewrite fn_lookup_insert_ne]. }
    intros i i' u Hi%H Hi'%H. by eapply H6.
  - assert (∀ i h, loading (<[j := p]> f i) h → loading (f i) h) as H.
    { intros i h. destruct (decide (j = i)) as [<-|]; [rewrite fn_lookup_insert; apply Hld|by rewrite fn_lookup_insert_ne]. }
    intros i i' h Hi%H Hi'%H. by eapply H7.
Qed.

Lemma has_seq_new r t s' e P : slots r !! index r t ≠ None → seq s' = e → P s' → has_seq (set_slot (index r t) s' r) t e P.
Proof.
  intros Hl He HP. exists s'. split; [|done]. change (index (set_slot (index r t) s' r) t) with (index r t). cbn.
  apply list_lookup_insert_eq. by apply lookup_lt_is_Some, not_eq_None_Some.
Qed.

(** What a slot says when its sequence number is known. *)
Lemma slot_free r hist f t s :
  inv r hist f → 0 ≤ t → slots r !! index r t = Some s → seq s = t →
  head r ≤ t < head r + cap r ∧ (t < tail r → ∃ j, storing (f j) t).
Proof.
  intros I Ht Hs He. destruct (inv_slots _ _ _ I _ _ Hs) as (u & Hu & Hi & H). pose proof (ring_cap_pos _ _ _ I).
  destruct (index_eq _ _ _ I u t Hu Ht Hi) as [-> |Hd].
  - destruct H as [(_ & H2 & H3)|(H1 & _)]; [done|lia].
  - destruct H as [(H1 & _)|(H1 & _)]; lia.
Qed.

Lemma slot_full r hist f t s :
  inv r hist f → 0 ≤ t → slots r !! index r t = Some s → seq s = t + 1 →
  tail r - cap r ≤ t < tail r ∧ (head r ≤ t → hist !! Z.to_nat t = Some (val s)) ∧ (t < head r → ∃ j, loading (f j) t).
Proof.
  intros I Ht Hs He. destruct (inv_slots _ _ _ I _ _ Hs) as (u & Hu & Hi & H). pose proof (ring_cap_pos _ _ _ I).
  destruct (index_eq _ _ _ I u t Hu Ht Hi) as [-> |Hd].
  - destruct H as [(H1 & _)|(_ & H2)]; [lia|done].
  - destruct H as [(H1 & _)|(H1 & _)]; lia.
Qed.

Lemma ring_store r hist f j v t s :
  inv r hist f → f j = EnqStore v t → slots r !! index r t = Some s →
  inv (set_slot (index r t) (mk_slot (seq s) v) r) hist (<[j := EnqPublish v t]> f).
Proof.
  intros I Hj Hs. pose proof (inv_order _ _ _ I). pose proof (inv_threads _ _ _ I j) as Hp. rewrite Hj in Hp. destruct Hp as (H1 & H2 & s0 & Hs0 & He & _).
  assert (s0 = s) as -> by congruence. apply inv_set_slot; [done|lia|left; by rewrite Hj|by rewrite Hj|done| |].
  - cbn. split; [done|]. split; [done|]. apply has_seq_new; [by rewrite Hs|done|done].
  - destruct (slot_free r hist f t s I ltac:(lia) Hs He) as [H3 H4]. exists t. split; [lia|]. split; [done|]. left. cbn.
    split; [done|]. split; [done|]. intros _. exists j. by rewrite fn_lookup_insert.
Qed.

Lemma ring_publish r hist f j v t s :
  inv r hist f → f j = EnqPublish v t → slots r !! index r t = Some s →
  inv (set_slot (index r t) (mk_slot (t + 1) (val s)) r) hist (<[j := EnqDone true]> f).
Proof.
  intros I Hj Hs. pose proof (inv_order _ _ _ I). pose proof (inv_threads _ _ _ I j) as Hp. rewrite Hj in Hp. destruct Hp as (H1 & H2 & s0 & Hs0 & He & Hv).
  assert (s0 = s) as -> by congruence. apply inv_set_slot; [done|lia|left; by rewrite Hj|done|done|done|].
  exists t. split; [lia|]. split; [done|]. right. cbn. split; [done|]. split; [lia|]. split; [|lia]. by rewrite Hv.
Qed.

Lemma ring_clear r hist f j v h s :
  inv r hist f → f j = DeqClear h v → slots r !! index r h = Some s →
  inv (set_slot (index r h) (mk_slot (seq s) zero) r) hist (<[j := DeqPublish h v]> f).
Proof.
  intros I Hj Hs. pose proof (inv_order _ _ _ I). pose proof (inv_threads _ _ _ I j) as Hp. rewrite Hj in Hp. destruct Hp as (H1 & H2 & H3 & s0 & Hs0 & He & _).
  assert (s0 = s) as -> by congruence. apply inv_set_slot; [done|lia|right; by rewrite Hj|done|by rewrite Hj| |].
  - cbn. split; [done|]. split; [done|]. split; [done|]. apply has_seq_new; [by rewrite Hs|done|done].
  - exists h. split; [lia|]. split; [done|]. right. cbn. split; [done|]. split; [lia|]. split; [lia|]. intros _. exists j. by rewrite fn_lookup_insert.
Qed.

Lemma inv_release r hist f j v h s :
  inv r hist f → f j = DeqPublish h v → slots r !! index r h = Some s →
  inv (set_slot (index r h) (mk_slot (h + cap r) (val s)) r) hist (<[j := DeqDone (Some v)]> f).
Proof.
  intros I Hj Hs. pose proof (inv_order _ _ _ I). pose proof (ring_cap_pos _ _ _ I). pose proof (inv_threads _ _ _ I j) as Hp. rewrite Hj in Hp.
  destruct Hp as (H1 & H2 & H3 & s0 & Hs0 & He & _). assert (s0 = s) as -> by congruence.
  apply inv_set_slot; [done|lia|right; by rewrite Hj|done|done|done|].
  exists (h + cap r). split; [lia|]. split; [by apply (index_shift r hist f I); lia|]. left. cbn. split; [done|]. split; lia.
Qed.

(** *** Steps that take a ticket *)
Lemma inv_push r hist f j v :
  inv r hist f → f j = EnqTest v (tail r) (tail r) →
  inv (set_tail (tail r + 1) r) (hist ++ [v]) (<[j := EnqStore v (tail r)]> f) ∧ tail r < head r + cap r.
Proof.
  intros I Hj. pose proof I as [H1 H2 H3 H4 H5 H6 H7]. pose proof (ring_cap_pos _ _ _ I).
  pose proof (H5 j) as Hp. rewrite Hj in Hp. destruct Hp as [_ Hp]. destruct (Hp eq_refl eq_refl) as (s & Hs & He & _).
  destruct (slot_free r hist f (tail r) s I ltac:(lia) Hs He) as [Hr _]. split; [|lia].
  assert (∀ t e P, 0 ≤ t → t ≠ tail r → e = t + 1 → has_seq r t e P → tail r + 1 ≤ t + cap r ∨ t + cap r < tail r) as Hfar.
  { intros t e P Ht Hne -> Hse. destruct (decide (t + cap r = tail r)) as [Heq|]; [|lia].
    exfalso. assert (has_seq r (tail r) (tail r) any) as Hse' by by exists s.
    pose proof (has_seq_eq _ _ _ _ _ _ _ Hse Hse') as Hq. rewrite <- Heq, (index_shift r hist f I) in Hq by lia. specialize (Hq eq_refl). lia. }
  assert (∀ t v', hist !! Z.to_nat t = Some v' → (hist ++ [v]) !! Z.to_nat t = Some v') as Hh.
  { intros t v' Ht. by apply lookup_app_l_Some. }
  constructor.
  - exact H1.
  - cbn. lia.
  - rewrite length_app. cbn. lia.
  - intros i s' Hi. cbn in Hi. destruct (H4 i s' Hi) as (t & Ht & Hit & H'). exists t. split; [done|]. split; [done|]. cbn.
    destruct H' as [(E1 & E2 & E3)|(E1 & E2 & E3 & E4)]; [left|right].
    + split; [done|]. split; [done|]. intros Hlt. destruct (decide (t = tail r)) as [->|].
      * exists j. by rewrite fn_lookup_insert.
      * destruct E3 as [j' Hj']; [lia|]. exists j'. rewrite fn_lookup_insert_ne; [done|]. intros <-. by rewrite Hj in Hj'.
    + split; [done|]. split.
      * destruct (Hfar t (t + 1) any Ht ltac:(lia) eq_refl); [|lia..]. exists s'. rewrite Hit. done.
      * split; [intros Hle; apply Hh; auto|]. intros Hlt. destruct (E4 Hlt) as [j' Hj']. exists j'. rewrite fn_lookup_insert_ne; [done|].
        intros <-. by rewrite Hj in Hj'.
  - intros i. destruct (decide (j = i)) as [<-|Hne].
    + rewrite fn_lookup_insert. cbn. split; [lia|]. split; [|by exists s]. rewrite lookup_app_r by lia.
      replace (Z.to_nat (tail r) - length hist)%nat with 0%nat by lia. done.
    + rewrite fn_lookup_insert_ne by done. specialize (H5 i). destruct (f i); cbn in *; try done; try lia;
        repeat match goal with H : _ ∧ _ |- _ => destruct H end.
      * split; [lia|]. split; [by apply Hh|done].
      * split; [lia|]. split; [by apply Hh|done].
      * split; [lia|]. destruct (Hfar h (h + 1) (λ s, hist !! Z.to_nat h = Some (val s)) ltac:(lia) ltac:(lia) eq_refl); [done| |lia].
        split; [lia|]. match goal with H : has_seq _ _ _ _ |- _ => destruct H as (s' & ? & ? & ?) end. exists s'. auto.
      * split; [lia|]. match goal with H : has_seq _ _ _ _ |- _ => destruct (Hfar h (h + 1) any ltac:(lia) ltac:(lia) eq_refl H); [|lia] end.
        split; [lia|]. split; [by apply Hh|done].
      * split; [lia|]. match goal with H : has_seq _ _ _ _ |- _ => destruct (Hfar h (h + 1) any ltac:(lia) ltac:(lia) eq_refl H); [|lia] end.
        split; [lia|]. split; [by apply Hh|done].
  - intros i i' t. destruct (decide (j = i)) as [<-|Hi], (decide (j = i')) as [<-|Hi'];
      rewrite ?fn_lookup_insert, ?fn_lookup_insert_ne by done; cbn; [done|..].
    + intros <- Hs'. specialize (H5 i'). destruct (f i') eqn:E; cbn in Hs', H5; try done; lia.
    + intros Hs' <-. specialize (H5 i). destruct (f i) eqn:E; cbn in Hs', H5; try done; lia.
    + apply H6.
  - intros i i' t. destruct (decide (j = i)) as [<-|Hi], (decide (j = i')) as [<-|Hi'];
      rewrite ?fn_lookup_insert, ?fn_lookup_insert_ne by done; cbn; try done. apply H7.
Qed.

Lemma ring_pop r hist f j :
  inv r hist f → f j = DeqTest (head r) (head r + 1) →
  inv (set_head (head r + 1) r) hist (<[j := DeqLoad (head r)]> f) ∧
  ∃ v, hist !! Z.to_nat (head r) = Some v.
Proof.
  intros I Hj. pose proof I as [H1 H2 H3 H4 H5 H6 H7]. pose proof (ring_cap_pos _ _ _ I).
  pose proof (H5 j) as Hp. rewrite Hj in Hp. destruct Hp as [_ Hp]. destruct (Hp eq_refl eq_refl) as (s & Hs & He & _).
  destruct (slot_full r hist f (head r) s I ltac:(lia) Hs He) as (Hr & Hv & _). specialize (Hv ltac:(lia)). split; [|by eexists].
  constructor.
  - exact H1.
  - cbn. lia.
  - done.
  - intros i s' Hi. cbn in Hi. destruct (H4 i s' Hi) as (t & Ht & Hit & H'). exists t. split; [done|]. split; [done|]. cbn.
    destruct H' as [(E1 & E2 & E3)|(E1 & E2 & E3 & E4)]; [left|right].
    + split; [done|]. assert (t ≠ head r) by (intros ->; rewrite Hit in Hs; rewrite Hs in Hi; injection Hi as ->; lia).
      split; [lia|]. intros Hlt. destruct (E3 Hlt) as [j' Hj']. exists j'. rewrite fn_lookup_insert_ne; [done|]. intros <-. by rewrite Hj in Hj'.
    + split; [done|]. split; [done|]. split; [intros; apply E3; lia|]. intros Hlt. destruct (decide (t = head r)) as [->|].
      * exists j. by rewrite fn_lookup_insert.
      * destruct E4 as [j' Hj']; [lia|]. exists j'. rewrite fn_lookup_insert_ne; [done|]. intros <-. by rewrite Hj in Hj'.
  - assert (∀ t P, 0 ≤ t → has_seq r t t P → t ≠ head r) as Hne'.
    { intros t P Ht (s' & Hs' & He' & _) ->. rewrite Hs in Hs'. injection Hs' as ->. lia. }
    intros i. destruct (decide (j = i)) as [<-|Hne].
    + rewrite fn_lookup_insert. cbn. split; [lia|]. split; [lia|]. by exists s.
    + rewrite fn_lookup_insert_ne by done. specialize (H5 i). destruct (f i); cbn in *; try done; try lia;
        repeat match goal with H : _ ∧ _ |- _ => destruct H end.
      * match goal with H : has_seq _ _ _ _ |- _ => pose proof (Hne' t _ ltac:(lia) H) end. split; [lia|]. done.
      * match goal with H : has_seq _ _ _ _ |- _ => pose proof (Hne' t _ ltac:(lia) H) end. split; [lia|]. done.
      * split; [lia|]. done.
      * split; [lia|]. done.
      * split; [lia|]. done.
  - intros i i' t. destruct (decide (j = i)) as [<-|Hi], (decide (j = i')) as [<-|Hi'];
      rewrite ?fn_lookup_insert, ?fn_lookup_insert_ne by done; cbn; try done. apply H6.
  - intros i i' t. destruct (decide (j = i)) as [<-|Hi], (decide (j = i')) as [<-|Hi'];
      rewrite ?fn_lookup_insert, ?fn_lookup_insert_ne by done; cbn; [done|..].
    + intros <- Hs'. specialize (H5 i'). destruct (f i') eqn:E; cbn in Hs', H5; try done; lia.
    + intros Hs' <-. specialize (H5 i). destruct (f i) eqn:E; cbn in Hs', H5; try done; lia.
    + apply H7.
Qed.

(** ** The simulation *)
Definition sim (c : Z) (s : sys) (a : spec) : Prop :=
  ∃ hist, inv (queue s) hist (threads s) ∧ cap (queue s) = c ∧
    contents a = drop (Z.to_nat (head (queue s))) hist ∧ ∀ i, stat a i = abs_pc hist (threads s i).

Lemma abs_pc_app r hist f v j : inv r hist f → abs_pc (hist ++ [v]) (f j) = abs_pc hist (f j).
Proof.
  intros I. pose proof (inv_threads _ _ _ I j) as H. pose proof (inv_order _ _ _ I). pose proof (inv_hist _ _ _ I).
  destruct (f j); try done. cbn in *. by rewrite lookup_app_l by lia.
Qed.

Lemma stat_update hist (st : nat → status) (f : nat → pc) j x p :
  (∀ i, st i = abs_pc hist (f i)) → x = abs_pc hist p → ∀ i, <[j := x]> st i = abs_pc hist (<[j := p]> f i).
Proof.
  intros H -> i. destruct (decide (j = i)) as [<-|]; [by rewrite !fn_lookup_insert|by rewrite !fn_lookup_insert_ne].
Qed.

Lemma stat_same hist (st : nat → status) (f : nat → pc) j p :
  (∀ i, st i = abs_pc hist (f i)) → abs_pc hist (f j) = abs_pc hist p → ∀ i, st i = abs_pc hist (<[j := p]> f i).
Proof.
  intros H Hp i. destruct (decide (j = i)) as [<-|]; [rewrite fn_lookup_insert, <- Hp; apply H|by rewrite fn_lookup_insert_ne].
Qed.

(** A slot that lags behind its ticket. *)
Lemma full_or_dequeuing r hist f t s :
  inv r hist f → 0 ≤ t ≤ tail r → slots r !! index r t = Some s → seq s < t →
  tail r = head r + cap r ∨ ∃ j u, loading (f j) u.
Proof.
  intros I Ht Hs Hlt. pose proof (inv_order _ _ _ I). pose proof (ring_cap_pos _ _ _ I).
  destruct (inv_slots _ _ _ I _ _ Hs) as (u & Hu & Hi & H').
  destruct (index_eq _ _ _ I u t Hu ltac:(lia) Hi) as [-> |Hd]; [lia|].
  destruct H' as [(E1 & E2 & E3)|(E1 & E2 & E3 & E4)]; [left; lia|].
  destruct (decide (u < head r)) as [Hl|]; [right|left; lia]. destruct (E4 Hl) as [j Hj]. by exists j, u.
Qed.

Lemma empty_or_enqueuing r hist f h s :
  inv r hist f → 0 ≤ h ≤ head r → slots r !! index r h = Some s → seq s ≤ h →
  tail r = head r ∨ ∃ j u, storing (f j) u.
Proof.
  intros I Hh Hs Hle. pose proof (inv_order _ _ _ I). pose proof (ring_cap_pos _ _ _ I).
  destruct (inv_slots _ _ _ I _ _ Hs) as (u & Hu & Hi & H').
  destruct (index_eq _ _ _ I u h Hu ltac:(lia) Hi) as [-> |Hd].
  - destruct H' as [(E1 & E2 & E3)|(E1 & _)]; [|lia]. destruct (decide (h < tail r)) as [Hl|]; [right|left; lia].
    destruct (E3 Hl) as [j Hj]. by exists j, h.
  - destruct H' as [(E1 & E2 & _)|(E1 & E2 & _)]; left; lia.
Qed.

Lemma loading_dequeuing c s a j u : sim c s a → loading (threads s j) u → dequeuing a.
Proof.
  intros (hist & I & _ & _ & Hst) Hl. exists j. rewrite Hst. pose proof (inv_threads _ _ _ I j) as H.
  destruct (threads s j) as [| | | | | | | | | |h|h v|h v|]; cbn in *; try done;
    [|by exists v|by exists v]. destruct H as (_ & _ & s0 & _ & _ & Hv). exists (val s0). by f_equal.
Qed.

Lemma storing_enqueuing c s a j u : sim c s a → storing (threads s j) u → enqueuing a.
Proof. intros (hist & I & _ & _ & Hst) Hl. exists j. rewrite Hst. by destruct (threads s j). Qed.

(** Every step is one of the specification. *)
Lemma ring_step_sim c s a e s' :
  sim c s a → no_wrap s → step s e s' → ∃ a', sstep c a e a' ∧ sim c s' a'.
Proof.
  intros Hsim Hnw Hstep. pose proof Hsim as (hist & I & Hc & Hcont & Hst). destruct a as [l st]. cbn [contents stat] in *.
  destruct Hstep as [r f i v Hi|r f i ok Hi|r f i Hi|r f i x Hi|r f i r' p Hi]; cbn [queue threads] in *; unfold no_wrap in Hnw; cbn [queue] in Hnw.
  - eexists. split; [apply sstep_call_enq; by rewrite Hst, Hi|]. exists hist. split_and!; [|done..|by apply stat_update].
    apply ring_pc; [done|done|by rewrite Hi..].
  - eexists. split; [apply sstep_ret_enq; by rewrite Hst, Hi|]. exists hist. split_and!; [|done..|by apply stat_update].
    apply ring_pc; [done|done|by rewrite Hi..].
  - eexists. split; [apply sstep_call_deq; by rewrite Hst, Hi|]. exists hist. split_and!; [|done..|by apply stat_update].
    apply ring_pc; [done|done|by rewrite Hi..].
  - eexists. split; [apply sstep_ret_deq; by rewrite Hst, Hi|]. exists hist. split_and!; [|done..|by apply stat_update].
    apply ring_pc; [done|done|by rewrite Hi..].
  - pose proof (inv_order _ _ _ I) as Ho. pose proof (ring_cap_pos _ _ _ I) as Hcap. pose proof (inv_hist _ _ _ I) as Hh.
    pose proof (inv_threads _ _ _ I i) as Hp. unfold slot_of in Hi.
    assert (∀ t, 0 ≤ t ≤ tail r → u64 (t + 1) = t + 1) as Hu by (intros; apply wrap_small; unfold is_word; lia).
    (* a step that changes neither the ring nor the status *)
    assert (r' = r → thread_inv r hist p → abs_pc hist (f i) = abs_pc hist p →
            (∀ t, storing p t ↔ storing (f i) t) → (∀ h, loading p h ↔ loading (f i) h) →
            ∃ a', sstep c (mk_spec l st) None a' ∧ sim c (mk_sys r' (<[i := p]> f)) a') as Hstay.
    { intros -> Hp' Hab H1 H2. eexists. split; [apply sstep_wait|]. exists hist. split_and!; [by apply ring_pc|done..|by apply stat_same]. }
    (* a step that writes a slot and keeps the status *)
    assert (inv r' hist (<[i := p]> f) → cap r' = c → head r' = head r → abs_pc hist (f i) = abs_pc hist p →
            ∃ a', sstep c (mk_spec l st) None a' ∧ sim c (mk_sys r' (<[i := p]> f)) a') as Hwrite.
    { intros I' Hc' Hh' Hab. eexists. split; [apply sstep_wait|]. exists hist. cbn [queue threads contents stat].
      rewrite Hh'. split_and!; [done..|by apply stat_same]. }
    (* a step that decides a failure *)
    assert (∀ x, r' = r → thread_inv r hist p → sstep c (mk_spec l st) None (mk_spec l (<[i := x]> st)) → x = abs_pc hist p →
            (∀ t, storing p t ↔ storing (f i) t) → (∀ h, loading p h ↔ loading (f i) h) →
            ∃ a', sstep c (mk_spec l st) None a' ∧ sim c (mk_sys r' (<[i := p]> f)) a') as Hfail.
    { intros x -> Hp' Hx Hab H1 H2. eexists. split; [exact Hx|]. exists hist. split_and!; [by apply ring_pc|done..|by apply stat_update]. }
    destruct (f i) as [|v|v t|v t s|v t|v t|ok| |h|h s|h|h v|h v|x] eqn:Ef; cbn [tstep tryEnqueue_step tryDequeue_step] in Hi; try done; try unfold slot_of in Hi.
    + injection Hi as <- <-. apply Hstay; try done. cbn. lia.
    + cbn in Hp. destruct (slots r !! index r t) as [s|] eqn:Es; [|discriminate Hi]. injection Hi as <- <-.
      assert (thread_inv r hist (EnqTest v t (seq s))) as Hp' by (split; [done|]; intros; by exists s).
      destruct (Z.ltb_spec (seq s) t) as [Hlt|Hge].
      * apply (Hfail (SEnqDone false)); try done; [|cbn; by rewrite (proj2 (Z.ltb_lt _ _)) by done].
        apply (sstep_full _ _ _ _ v); [by rewrite Hst, Ef|].
        destruct (full_or_dequeuing r hist f t s I Hp Es Hlt) as [Hf|(j & u & Hj)].
        -- left. rewrite Hcont, length_drop. lia.
        -- right. by apply (loading_dequeuing c (mk_sys r f) _ j u).
      * apply Hstay; try done. cbn. by rewrite (proj2 (Z.ltb_ge _ _)) by lia.
    + cbn in Hp. destruct (Z.eqb_spec s t) as [->|Hne].
      * destruct (Z.eqb_spec (tail r) t) as [<-|Hne].
        -- injection Hi as <- <-. rewrite Hu by lia. destruct (inv_push r hist f i v I Ef) as [I' Hlt]. eexists. split.
           ++ apply (sstep_push _ _ _ i v); [rewrite Hst, Ef; cbn; by rewrite Z.ltb_irrefl|]. rewrite Hcont, length_drop. lia.
           ++ exists (hist ++ [v]). cbn [queue threads contents stat]. split_and!; [done|done| |].
              ** rewrite Hcont. cbn. rewrite drop_app_le by lia. done.
              ** apply stat_update; [|done]. intros k. rewrite Hst. symmetry. by apply (abs_pc_app r).
        -- injection Hi as <- <-. apply Hstay; try done. cbn. by rewrite Z.ltb_irrefl.
      * destruct (Z.ltb_spec s t); injection Hi as <- <-; apply Hstay; try done; cbn;
          [by rewrite (proj2 (Z.ltb_lt _ _)) by done|by rewrite (proj2 (Z.ltb_ge _ _)) by lia].
    + destruct (slots r !! index r t) as [s|] eqn:Es; [|discriminate Hi]. injection Hi as <- <-. apply Hwrite; try done. by apply ring_store.
    + cbn in Hp. destruct (slots r !! index r t) as [s|] eqn:Es; [|discriminate Hi]. injection Hi as <- <-.
      apply Hwrite; try done. rewrite Hu by lia. by eapply ring_publish.
    + injection Hi as <- <-. apply Hstay; try done. cbn. lia.
    + cbn in Hp. destruct (slots r !! index r h) as [s|] eqn:Es; [|discriminate Hi]. injection Hi as <- <-.
      assert (thread_inv r hist (DeqTest h (seq s))) as Hp' by (split; [done|]; intros; by exists s).
      destruct (Z.leb_spec (seq s) h) as [Hle|Hgt].
      * apply (Hfail (SGot None)); try done; [|cbn; by rewrite (proj2 (Z.leb_le _ _)) by done].
        apply sstep_empty; [by rewrite Hst, Ef|].
        destruct (empty_or_enqueuing r hist f h s I Hp Es Hle) as [Hf|(j & u & Hj)].
        -- left. rewrite Hcont. apply drop_ge. lia.
        -- right. by apply (storing_enqueuing c (mk_sys r f) _ j u).
      * apply Hstay; try done. cbn. by rewrite (proj2 (Z.leb_gt _ _)) by lia.
    + cbn in Hp. rewrite Hu in Hi by lia. destruct (Z.eqb_spec s (h + 1)) as [->|Hne].
      * destruct (Z.eqb_spec (head r) h) as [<-|Hne].
        -- injection Hi as <- <-. destruct (ring_pop r hist f i I Ef) as [I' [v Hv]].
           assert (drop (Z.to_nat (head r)) hist = v :: drop (Z.to_nat (head r + 1)) hist) as Hd.
           { rewrite Z2Nat.inj_add by lia. rewrite Nat.add_1_r. by apply drop_S. }
           rewrite Hd in Hcont. subst l. eexists. split.
           ++ apply (sstep_pop _ _ _ _ i). rewrite Hst, Ef. cbn. by rewrite (proj2 (Z.leb_gt _ _)) by lia.
           ++ exists hist. split_and!; [done..|]. apply stat_update; [done|]. cbn. by rewrite Hv.
        -- injection Hi as <- <-. apply Hstay; try done. cbn. by rewrite (proj2 (Z.leb_gt _ _)) by lia.
      * destruct (Z.leb_spec s h); injection Hi as <- <-; apply Hstay; try done; cbn;
          [by rewrite (proj2 (Z.leb_le _ _)) by done|by rewrite (proj2 (Z.leb_gt _ _)) by lia].
    + cbn in Hp. destruct Hp as (H1 & H2 & s & Hs & He & Hv). rewrite Hs in Hi. injection Hi as <- <-.
      destruct clears; (apply Hstay; try done; [split_and!; try done; try lia; by exists s|cbn; by rewrite Hv]).
    + destruct (slots r !! index r h) as [s|] eqn:Es; [|discriminate Hi]. injection Hi as <- <-. apply Hwrite; try done. by apply ring_clear.
    + cbn in Hp. destruct (slots r !! index r h) as [s|] eqn:Es; [|discriminate Hi]. injection Hi as <- <-.
      apply Hwrite; try done. rewrite wrap_small by (unfold is_word; lia). by apply inv_release.
Qed.

Lemma ring_init capacity :
  capacity ≤ 2 ^ 32 → sim (cap (newRingQueue capacity)) (init capacity) spec_init.
Proof.
  intros Hle. exists []. set (c := if capacity <? 2 then 2 else capacity). assert (1 < c ≤ 2 ^ 32) as Hc by (unfold c; destruct (Z.ltb_spec capacity 2); lia).
  destruct (nextPowerOfTwo_spec c Hc) as (k & Hk & Hp & _).
  assert (newRingQueue capacity = mk_ring (map (λ i, mk_slot (Z.of_nat i) zero) (List.seq 0 (Z.to_nat (2 ^ k)))) (2 ^ k) (2 ^ k - 1) 0 0) as Hr.
  { unfold newRingQueue, queue_capacity. fold c. by rewrite Hp. }
  split; [|split_and!; [done|by rewrite drop_nil|done]]. unfold init. cbn [queue threads]. rewrite Hr.
  assert (0 < 2 ^ k) by (apply Z.pow_pos_nonneg; lia).
  constructor; cbn [slots cap mask head tail]; try done.
  - exists k. split; [lia|]. split_and!; [done..|]. rewrite length_map, length_seq. lia.
  - lia.
  - intros i s Hi. apply list_lookup_fmap_Some in Hi as (n & -> & Hn). apply lookup_seq in Hn as [-> Hn]. cbn [plus].
    exists (Z.of_nat i). split; [lia|]. split.
    + unfold index. cbn [mask]. replace (2 ^ k - 1) with (Z.ones k) by (rewrite Z.ones_equiv; lia). rewrite Z.land_ones by lia. rewrite Z.mod_small by lia. apply Nat2Z.id.
    + left. cbn. split; [done|]. split; lia.
Qed.

Lemma tstep_no_panic r hist f i : inv r hist f → tstep r (f i) ≠ Panic.
Proof.
  intros I. pose proof (inv_threads _ _ _ I i) as Hp. pose proof (inv_order _ _ _ I).
  assert (∀ t, 0 ≤ t → ∃ s, slot_of r t = Ok s) as Hs.
  { intros t Ht. destruct (index_lookup r hist f I t Ht) as [s Hs]. exists s. unfold slot_of. by rewrite Hs. }
  destruct (f i) as [|v|v t|v t s|v t|v t|ok| |h|h s|h|h v|h v|x]; cbn in *; try done;
    try (destruct (Hs t ltac:(lia)) as [? ->]; done); try (destruct (Hs h ltac:(lia)) as [? ->]; done); by repeat case_match.
Qed.

(** *** Executions by a schedule *)
Inductive action : Type := ACallEnq (i : nat) (v : V) | ACallDeq (i : nat) | ARun (i : nat) | ARet (i : nat).

Definition act (a : action) (s : sys) : option (option event * sys) :=
  let '(mk_sys r f) := s in
  match a with
  | ACallEnq i v => match f i with Idle => Some (Some (CallEnq i v), mk_sys r (<[i := EnqTail v]> f)) | _ => None end
  | ACallDeq i => match f i with Idle => Some (Some (CallDeq i), mk_sys r (<[i := DeqHead]> f)) | _ => None end
  | ARun i => match tstep r (f i) with Ok (r', p) => Some (None, mk_sys r' (<[i := p]> f)) | _ => None end
  | ARet i =>
      match f i with
      | EnqDone ok => Some (Some (RetEnq i ok), mk_sys r (<[i := Idle]> f))
      | DeqDone x => Some (Some (RetDeq i x), mk_sys r (<[i := Idle]> f))
      | _ => None
      end
  end.

Fixpoint play (l : list action) (s : sys) : option (list event * sys) :=
  match l with
  | [] => Some ([], s)
  | a :: l =>
      if tail (queue s) + cap (queue s) + 1 <? 2 ^ 64 then
        match act a s with
        | Some (e, s1) => match play l s1 with Some (tr, s2) => Some (event_list e ++ tr, s2) | None => None end
        | None => None
        end
      else None
  end.

Lemma ring_act_step a s e s' : act a s = Some (e, s') → step s e s'.
Proof.
  destruct s as [r f]. destruct a as [i v|i|i|i]; cbn; intros H.
  - destruct (f i) eqn:E; try done. injection H as <- <-. by constructor.
  - destruct (f i) eqn:E; try done. injection H as <- <-. by constructor.
  - destruct (tstep r (f i)) as [[r' p]| | |] eqn:E; try done. injection H as <- <-. by constructor.
  - destruct (f i) eqn:E; try done; injection H as <- <-; by constructor.
Qed.

Lemma ring_play_exec l s0 tr0 s tr s' : exec s0 tr0 s → play l s = Some (tr, s') → exec s0 (tr0 ++ tr) s'.
Proof.
  revert s tr0 tr. induction l as [|a l IH]; cbn [play]; intros s tr0 tr Hex Hp.
  - injection Hp as <- <-. by rewrite app_nil_r.
  - destruct (Z.ltb_spec (tail (queue s) + cap (queue s) + 1) (2 ^ 64)); [|done].
    destruct (act a s) as [[e s1]|] eqn:Ha; [|done]. destruct (play l s1) as [[tr1 s2]|] eqn:Hp1; [|done].
    injection Hp as <- <-. rewrite app_assoc. apply (IH s1); [|done]. eapply exec_step; [done|done|by apply (ring_act_step a)].
Qed.

(** C19 The bounded queues are linearizable: every history of calls and returns,
    of any number of goroutines in any interleaving, is a history of the atomic
    bounded first-in first-out queue, whose capacity is the next power of two;
    no access is out of range. *)
Theorem ring_queue_linearizable capacity tr s :
  capacity ≤ 2 ^ 32 → exec (init capacity) tr s →
  (∃ a, sexec (cap (queue s)) spec_init tr a ∧ Zlen (contents a) = tail (queue s) - head (queue s)) ∧
  ∀ i, tstep (queue s) (threads s i) ≠ Panic.
Proof.
  intros Hle Hex. assert (∃ a, sexec (cap (newRingQueue capacity)) spec_init tr a ∧ sim (cap (newRingQueue capacity)) s a) as (a & Ha & Hs).
  { remember (init capacity) as s0 eqn:E. induction Hex as [s0|s0 s1 s2 tr e Hex IH Hnw Hstep]; subst.
    - eexists. split; [apply sexec_nil|by apply ring_init].
    - destruct (IH eq_refl) as (a & Ha & Hs). destruct (ring_step_sim _ _ _ _ _ Hs Hnw Hstep) as (a' & Ha' & Hs').
      exists a'. split; [by eapply sexec_step|done]. }
  destruct Hs as (hist & I & Hc & Hcont & _). rewrite Hc. split; [|intros i; by eapply tstep_no_panic].
  exists a. split; [done|]. rewrite Hcont, length_drop. pose proof (inv_order _ _ _ I). pose proof (inv_hist _ _ _ I). lia.
Qed.

(** *** len

    It loads tail and then head. *)
Definition len (tail head : Z) : Z := if tail >=? head then u64 (tail - head) else 0.
End ring.

(** The queue of integers: a dequeue leaves the value in its slot. *)
Definition newIntRingQueue : Z → ring (V := Z) := newRingQueue 0.
Definition int_tryEnqueue_step : ring (V := Z) → pc → outcome (ring * pc) := tryEnqueue_step.
Definition int_tryDequeue_step : ring (V := Z) → pc → outcome (ring * pc) := tryDequeue_step 0 false.

Lemma queue_capacity_pos n : n ≤ 2 ^ 32 → 2 ≤ queue_capacity n.
Proof.
  intros Hn. unfold queue_capacity. destruct (nextPowerOfTwo_spec (if n <? 2 then 2 else n)) as (k & Hk & -> & Hle & _).
  - destruct (Z.ltb_spec n 2); lia.
  - destruct (Z.ltb_spec n 2); lia.
Qed.

(** ** What the queue promises its clients

    [Q] is the state of a queue with its calls in progress; every step of it is
    one of the atomic queue. *)
Class BoundedQueue (V Q : Type) : Type := {
  q_init : Z → Q;
  q_step : Q → option (event (V := V)) → Q → Prop;
  q_sim : Z → Q → spec (V := V) → Prop;
  q_sim_init capacity : capacity ≤ 2 ^ 32 → q_sim (queue_capacity capacity) (q_init capacity) spec_init;
  q_sim_step c q a e q' : q_sim c q a → q_step q e q' → ∃ a', sstep c a e a' ∧ q_sim c q' a'
}.

(** The atomic queue itself, with its capacity. *)
#[export] Instance spec_queue {V} : BoundedQueue V (Z * spec (V := V)).
Proof.
  refine {| q_init c := (queue_capacity c, spec_init);
            q_step q e q' := sstep q.1 q.2 e q'.2 ∧ q'.1 = q.1;
            q_sim c q a := q = (c, a) |}.
  - done.
  - intros c q a e [c' a'] -> [H Hc]. cbn in *. exists a'. by subst.
Defined.

Lemma ring_sim_step {V} (zero : V) clears c q a e q' :
  sim c q a → no_wrap q ∧ step zero clears q e q' → ∃ a', sstep c a e a' ∧ sim c q' a'.
Proof. intros Hs [Hn Hst]. by apply (ring_step_sim zero clears c q). Qed.

(** The rings, as long as the tickets do not run out. *)
Definition ring_queue {V} (zero : V) (clears : bool) : BoundedQueue V (sys (V := V)) := {|
  q_init := init zero;
  q_step s e s' := no_wrap s ∧ step zero clears s e s';
  q_sim := sim;
  q_sim_init := ring_init zero;
  q_sim_step := ring_sim_step zero clears
|}.

(** A dequeue overtakes an enqueue in progress, and another goroutine fills the
    ring of two slots. *)
Definition example_schedule : list (action (V := Z)) :=
  [ACallEnq 0 7; ARun 0; ARun 0; ARun 0; ACallDeq 1; ARun 1; ARun 1; ARun 1; ARet 1;
   ARun 0; ARun 0; ARet 0; ACallEnq 2 8; ARun 2; ARun 2; ARun 2; ARun 2; ARun 2; ARet 2;
   ACallEnq 0 9; ARun 0; ARun 0; ARun 0; ARet 0;
   ACallDeq 1; ARun 1; ARun 1; ARun 1; ARun 1; ARun 1; ARun 1; ARet 1].

Definition example_history : list (event (V := Z)) :=
  [CallEnq 0 7; CallDeq 1; RetDeq 1 None; RetEnq 0 true; CallEnq 2 8; RetEnq 2 true; CallEnq 0 9; RetEnq 0 false;
   CallDeq 1; RetDeq 1 (Some 7)].

Lemma ring_queue_linearizable_witness :
  ∃ s, exec 0 true (init 0 2) example_history s ∧
    (∃ a, sexec (cap (queue s)) spec_init example_history a ∧ Zlen (contents a) = tail (queue s) - head (queue s)).
Proof.
  destruct (play 0 true example_schedule (init 0 2)) as [[tr s]|] eqn:E; [|vm_compute in E; discriminate E].
  assert (tr = example_history) as -> by (vm_compute in E; injection E as <- _; reflexivity).
  exists s. assert (exec 0 true (init 0 2) example_history s) as H.
  { exact (ring_play_exec 0 true _ _ [] _ _ _ (exec_nil 0 true _) E). }
  split; [exact H|]. apply (ring_queue_linearizable 0 true 2 _ _ ltac:(lia) H).
Defined.
