(* ===== verification/DagScheduler.v ===== *)
(** * Drivers: the DAG scheduler (drivers/scheduler/dag_scheduler.go)

    Submit as a function on the nodes, Run and its workers as a step relation
    over any queue of the class [BoundedQueue]: each read or write of a shared
    variable, each event of the ready queue and each call of a task is a step. *)
From stdpp Require Import list functions.
From S2P Require Import Prelude Topo DagBuild RingQueue.

(** ** Submit *)
Record dagNode : Type := mk_node { node_deps : Z; node_dependents : list nat }.

Definition errTaskRequired : string := "task required".
Definition errAlreadyRunning : string := "scheduler already running".
Definition errInvalidDependencyIndex : string := "invalid dependency index".

Definition add_dependent (idx : nat) (nodes : list dagNode) (dep : Z) : list dagNode :=
  alter (λ nd, mk_node (node_deps nd) (node_dependents nd ++ [idx])) (Z.to_nat dep) nodes.

Definition Submit (fn_nil running : bool) (deps : list Z) (nodes : list dagNode) : outcome (Z * list dagNode) :=
  if fn_nil then Err errTaskRequired
  else if running then Err errAlreadyRunning
  else
    let idx := length nodes in
    if forallb (λ dep, (0 <=? dep) && (dep <? Z.of_nat idx)) deps then
      Ok (Z.of_nat idx, foldl (add_dependent idx) (nodes ++ [mk_node (i32 (Zlen deps)) []]) deps)
    else Err errInvalidDependencyIndex.

(** The tasks of a graph submitted one after the other. *)
Fixpoint submit_all (g : graph) (nodes : list dagNode) : outcome (list dagNode) :=
  match g with
  | [] => Ok nodes
  | deps :: g => r ← Submit false false deps nodes; submit_all g r.2
  end.

(** ** Goroutines

    Goroutine 0 is the caller of Run; the others are the workers. *)
Inductive gpc : Type :=
  | GNew                                     (* not started *)
  | GTop                                     (* test ctx.Err() *)
  | GDeq | GDeqWait                          (* call tryDequeue, wait for it *)
  | GEmpty | GEmptyPending                   (* nothing dequeued: test err, test pending *)
  | GGot (n : nat)                           (* test err *)
  | GCall (n : nat) | GRun (n : nat)         (* call the task, wait for it *)
  | GErr (e : string) | GSetErr (e : string) | GCancel   (* setError *)
  | GRelease (n : nat) (l : list nat)        (* count the dependents down *)
  | GEnq (c n : nat) (l : list nat) | GEnqWait (c n : nat) (l : list nat)
  | GCount (n : nat)                         (* count pending down *)
  | GDone | GPanic
  | MRoot (k : nat)                          (* is node k without dependencies? *)
  | MEnq (k : nat) | MEnqWait (k : nat)
  | MSpawn (j : nat)                         (* start worker j *)
  | MWait
  | MDone (r : option string).

(** sync.Once. *)
Inductive once_state : Type := ONot | ORunning | ODone.

(** What is observed of the tasks. *)
Inductive entry : Type := Started (n : nat) | Succeeded (n : nat) | Failed (n : nat) (e : string).

#[export] Instance entry_eq_dec : EqDecision entry.
Proof. solve_decision. Defined.

Record shared : Type := mk_shared {
  deps : nat → Z; pending : Z; err : option string; once : once_state; ctx : bool; log : list entry }.

Definition set_deps (n : nat) (x : Z) (s : shared) : shared :=
  mk_shared (<[n := x]> (deps s)) (pending s) (err s) (once s) (ctx s) (log s).
Definition set_pending (x : Z) (s : shared) : shared := mk_shared (deps s) x (err s) (once s) (ctx s) (log s).
Definition set_err (e : string) (s : shared) : shared := mk_shared (deps s) (pending s) (Some e) (once s) (ctx s) (log s).
Definition set_once (o : once_state) (s : shared) : shared := mk_shared (deps s) (pending s) (err s) o (ctx s) (log s).
Definition cancel (s : shared) : shared := mk_shared (deps s) (pending s) (err s) (once s) true (log s).
Definition add_log (x : entry) (s : shared) : shared :=
  mk_shared (deps s) (pending s) (err s) (once s) (ctx s) (log s ++ [x]).

Section run.
Context (nodes : list dagNode) (fn : nat → option string).

(** A step of a goroutine on the shared variables: worker, setError and the
    loop over the roots. *)
Definition gstep (s : shared) (p : gpc) : option (shared * gpc) :=
  match p with
  | GTop => Some (s, if ctx s then GDone else GDeq)
  | GEmpty => Some (s, match err s with Some _ => GDone | None => GEmptyPending end)
  | GEmptyPending => Some (s, if pending s =? 0 then GDone else GTop)
  | GGot n => Some (s, match err s with Some _ => GDone | None => GCall n end)
  | GCall n => match nodes !! n with Some _ => Some (add_log (Started n) s, GRun n) | None => Some (s, GPanic) end
  | GRun n =>
      match fn n, nodes !! n with
      | Some e, _ => Some (add_log (Failed n e) s, GErr e)
      | None, Some nd => Some (add_log (Succeeded n) s, GRelease n (node_dependents nd))
      | None, None => Some (s, GPanic)
      end
  | GErr e =>
      match once s with
      | ONot => Some (set_once ORunning s, GSetErr e)
      | ORunning => None
      | ODone => Some (s, GDone)
      end
  | GSetErr e => Some (set_err e s, GCancel)
  | GCancel => Some (set_once ODone (cancel s), GDone)
  | GRelease n [] => Some (s, GCount n)
  | GRelease n (c :: l) =>
      match nodes !! c with
      | Some _ =>
          let x := i32 (deps s c - 1) in
          Some (set_deps c x s, if x =? 0 then GEnq c n l else GRelease n l)
      | None => Some (s, GPanic)
      end
  | GCount n =>
      let x := i64 (pending s - 1) in
      Some (set_pending x s, if x =? 0 then GDone else GTop)
  | MRoot k =>
      if (k <? length nodes)%nat then Some (s, if deps s k =? 0 then MEnq k else MRoot (S k))
      else Some (s, MSpawn 0)
  | _ => None
  end.

(** The calls of the ready queue and their returns. *)
Definition gcall (p : gpc) (i : nat) : option (event (V := nat) * gpc) :=
  match p with
  | GDeq => Some (CallDeq i, GDeqWait)
  | GEnq c n l => Some (CallEnq i c, GEnqWait c n l)
  | MEnq k => Some (CallEnq i k, MEnqWait k)
  | _ => None
  end.

Definition gret_enq (p : gpc) (ok : bool) : option gpc :=
  match p with
  | GEnqWait c n l => Some (if ok then GRelease n l else GEnq c n l)
  | MEnqWait k => Some (if ok then MRoot (S k) else MEnq k)
  | _ => None
  end.

Definition gret_deq (p : gpc) (r : option nat) : option gpc :=
  match p with
  | GDeqWait => Some (match r with Some n => GGot n | None => GEmpty end)
  | _ => None
  end.

(** ** The system *)
Context {Q : Type} `{!BoundedQueue nat Q} (workers : nat).

Record dsys : Type := mk_dsys { mem : shared; ready : Q; pcs : nat → gpc; parent : bool }.

(** [parent] remembers that the caller's context was cancelled. *)
Inductive dstep : dsys → dsys → Prop :=
  | d_run s q f b i s' p : gstep s (f i) = Some (s', p) → dstep (mk_dsys s q f b) (mk_dsys s' q (<[i := p]> f) b)
  | d_queue s q f b q' : q_step q None q' → dstep (mk_dsys s q f b) (mk_dsys s q' f b)
  | d_call s q f b i e p q' : gcall (f i) i = Some (e, p) → q_step q (Some e) q' →
      dstep (mk_dsys s q f b) (mk_dsys s q' (<[i := p]> f) b)
  | d_ret_enq s q f b i ok p q' : gret_enq (f i) ok = Some p → q_step q (Some (RetEnq i ok)) q' →
      dstep (mk_dsys s q f b) (mk_dsys s q' (<[i := p]> f) b)
  | d_ret_deq s q f b i r p q' : gret_deq (f i) r = Some p → q_step q (Some (RetDeq i r)) q' →
      dstep (mk_dsys s q f b) (mk_dsys s q' (<[i := p]> f) b)
  | d_spawn s q f b j : f 0%nat = MSpawn j → (j < workers)%nat →
      dstep (mk_dsys s q f b) (mk_dsys s q (<[S j := GTop]> (<[0%nat := MSpawn (S j)]> f)) b)
  | d_spawned s q f b : f 0%nat = MSpawn workers → dstep (mk_dsys s q f b) (mk_dsys s q (<[0%nat := MWait]> f) b)
  | d_wait s q f b : f 0%nat = MWait → (∀ j, (j < workers)%nat → f (S j) = GDone) →
      dstep (mk_dsys s q f b) (mk_dsys s q (<[0%nat := MDone (err s)]> f) b)
  | d_parent s q f b : dstep (mk_dsys s q f b) (mk_dsys (cancel s) q f true).

(** What a DAGScheduler keeps between two calls of Run: the counters of its
    nodes, its error and the sync.Once of it, and the ready queue. *)
Record scheduler : Type := mk_scheduler {
  sch_deps : nat → Z; sch_err : option string; sch_once : once_state; sch_ready : Q }.

(** The scheduler after NewDAGScheduler and the calls of Submit, and the one
    that a call of Run leaves. *)
Definition NewDAGScheduler (capacity : Z) : scheduler :=
  mk_scheduler (λ i, node_deps (default (mk_node 0 []) (nodes !! i))) None ONot
    (q_init (if capacity <? 1 then 1 else capacity)).
Definition left_by (s : dsys) : scheduler := mk_scheduler (deps (mem s)) (err (mem s)) (once (mem s)) (ready s).

(** Run: an empty scheduler returns at once, otherwise pending is set and a new
    context made; everything else stays as the last call left it. *)
Definition Run (running : bool) (d : scheduler) : outcome dsys :=
  if running then Err errAlreadyRunning
  else Ok (mk_dsys (mk_shared (sch_deps d) (Zlen nodes) (sch_err d) (sch_once d) false []) (sch_ready d)
    (λ i, match i with
          | O => match nodes with [] => MDone None | _ => MRoot 0 end
          | S _ => GNew
          end) false).

(** The states of a call of Run on the scheduler [d]. *)
Inductive dreach (d : scheduler) : dsys → Prop :=
  | dreach_init s : Run false d = Ok s → dreach d s
  | dreach_step s s' : dreach d s → dstep s s' → dreach d s'.
End run.

(** ** The nodes after the calls of Submit *)
Definition submitted (g : graph) (nodes : list dagNode) : Prop :=
  length nodes = length g ∧
  (∀ i deps d, g !! i = Some deps → d ∈ deps → 0 ≤ d < Z.of_nat i) ∧
  ∀ i deps, g !! i = Some deps → nodes !! i = Some (mk_node (i32 (Zlen deps)) (dependents g i)).

Lemma dependents_from_app k g g' i :
  dependents_from k (g ++ g') i = dependents_from k g i ++ dependents_from (k + length g) g' i.
Proof.
  revert k. induction g as [|d g IH]; intros k; cbn [app dependents_from length]; [by rewrite Nat.add_0_r|].
  rewrite IH, <- app_assoc. by rewrite Nat.add_succ_r.
Qed.

Lemma dependents_nil k g i :
  (∀ j deps, g !! j = Some deps → Z.of_nat i ∉ deps) → dependents_from k g i = [].
Proof.
  revert k. induction g as [|d g IH]; intros k H; [done|]. cbn [dependents_from].
  assert (occ (Z.of_nat i) d = 0%nat) as ->.
  { unfold occ. rewrite filter_none; [done|]. apply Forall_forall. intros x Hx ->. by apply (H 0%nat d). }
  apply IH. intros j deps Hj. by apply (H (S j)).
Qed.

Lemma foldl_add_dependent idx deps nodes i nd :
  Forall (λ d, 0 ≤ d) deps → nodes !! i = Some nd →
  foldl (add_dependent idx) nodes deps !! i =
    Some (mk_node (node_deps nd) (node_dependents nd ++ replicate (occ (Z.of_nat i) deps) idx)).
Proof.
  revert nodes nd. induction deps as [|d deps IH]; intros nodes nd Hd Hi.
  - cbn. rewrite app_nil_r. by destruct nd.
  - apply Forall_cons in Hd as [Hd0 Hd]. cbn [foldl]. rewrite occ_cons. unfold add_dependent at 2.
    destruct (decide (d = Z.of_nat i)) as [->|Hne].
    + erewrite IH; [|done|by rewrite Nat2Z.id, list_lookup_alter_eq, Hi]. cbn. by rewrite <- app_assoc.
    + erewrite IH; [done|done|]. rewrite list_lookup_alter_ne; [done|lia].
Qed.

Lemma length_add_dependents idx deps nodes : length (foldl (add_dependent idx) nodes deps) = length nodes.
Proof.
  revert nodes. induction deps as [|d deps IH]; intros nodes; [done|]. cbn [foldl]. rewrite IH. apply length_alter.
Qed.

Lemma Submit_submitted g nodes deps r :
  submitted g nodes → Submit false false deps nodes = Ok r → submitted (g ++ [deps]) r.2 ∧ r.1 = Zlen g.
Proof.
  intros (Hl & Hv & Hn) Hs. unfold Submit in Hs. destruct (forallb _ deps) eqn:Hd; [|done]. injection Hs as <-. cbn [fst snd].
  rewrite Hl in *. split; [|done]. rewrite List.forallb_forall in Hd.
  assert (∀ d, d ∈ deps → 0 ≤ d < Zlen g) as Hd' by (intros d Hin; specialize (Hd d ltac:(by apply list_elem_of_In)); lia).
  assert (Forall (λ d, 0 ≤ d) deps) as Hpos by (apply Forall_forall; intros d Hin; apply Hd' in Hin; lia).
  split; [rewrite length_add_dependents, !length_app, Hl; done|]. split.
  - intros i ds d Hi Hin. apply lookup_app_Some in Hi as [Hi|[Hge Hi]]; [by eapply Hv|].
    apply list_lookup_singleton_Some in Hi as [Hi <-]. specialize (Hd' d Hin). lia.
  - intros i ds Hi. unfold dependents. rewrite dependents_from_app. cbn [dependents_from plus]. rewrite app_nil_r.
    apply lookup_app_Some in Hi as [Hi|[Hge Hi]].
    + apply (foldl_add_dependent _ _ _ _ (mk_node (i32 (Zlen ds)) (dependents g i))); [done|].
      rewrite lookup_app_l; [by apply Hn|]. rewrite Hl. by eapply lookup_lt_Some.
    + apply list_lookup_singleton_Some in Hi as [Hi <-]. assert (i = length g) as -> by lia.
      rewrite dependents_nil.
      * apply (foldl_add_dependent _ _ _ _ (mk_node (i32 (Zlen deps)) [])); [done|].
        by rewrite lookup_app_r, Hl, Nat.sub_diag by lia.
      * intros j ds Hj Hin. specialize (Hv _ _ _ Hj Hin). apply lookup_lt_Some in Hj. lia.
Qed.

Lemma submit_all_submitted g nodes : submit_all g [] = Ok nodes → submitted g nodes.
Proof.
  assert (∀ g1 n1 n2, submitted g1 n1 → submit_all g n1 = Ok n2 → submitted (g1 ++ g) n2) as H.
  { induction g as [|deps g IH]; intros g1 n1 n2 Hs Ha; cbn [submit_all] in Ha.
    - rewrite app_nil_r. by injection Ha as <-.
    - destruct (Submit false false deps n1) as [r| | |] eqn:E; try done. cbn in Ha.
      change (deps :: g) with ([deps] ++ g). rewrite app_assoc. apply (IH _ r.2); [|done].
      by apply (Submit_submitted _ n1). }
  apply (H [] []). split; [done|]. split; by intros.
Qed.

(** ** Decrements still to come *)
Section owed.
Context (N : nat).

Definition owed (todo : nat → list nat) (c : nat) : nat := sum_list ((λ i, count c (todo i)) <$> List.seq 0 N).

Lemma sum_zero (h : nat → nat) L i : sum_list (h <$> L) = 0%nat → i ∈ L → h i = 0%nat.
Proof.
  induction L as [|x L IH]; [by intros _ ?%not_elem_of_nil|]. cbn. intros Hs [->|Hi]%elem_of_cons; [lia|apply IH; [lia|done]].
Qed.

Lemma sum_change (h h' : nat → nat) L n d :
  NoDup L → n ∈ L → (h' n + d = h n)%nat → (∀ i, i ≠ n → h' i = h i) →
  (sum_list (h' <$> L) + d = sum_list (h <$> L))%nat.
Proof.
  intros Hnd Hn He Ho. induction L as [|x L IH]; [by apply not_elem_of_nil in Hn|]. apply NoDup_cons in Hnd as [Hx Hnd]. cbn.
  destruct (decide (x = n)) as [->|Hne].
  - assert (∀ L, n ∉ L → sum_list (h' <$> L) = sum_list (h <$> L)) as Hs; [|rewrite (Hs L Hx); lia].
    clear -Ho. induction L as [|y L IH]; [done|]. intros Hin. apply not_elem_of_cons in Hin as [? ?]. cbn. rewrite Ho, IH by congruence. done.
  - rewrite (Ho x) by done. apply elem_of_cons in Hn as [->|Hn]; [done|]. specialize (IH Hnd Hn). lia.
Qed.

Lemma owed_pop todo n c l x :
  (n < N)%nat → todo n = c :: l →
  (owed (<[n := l]> todo) x + (if decide (c = x) then 1 else 0) = owed todo x)%nat.
Proof.
  intros Hn Hc. apply (sum_change _ _ _ n); [apply NoDup_seq|apply elem_of_seq; lia| |].
  - rewrite fn_lookup_insert, Hc, count_cons. lia.
  - intros i Hi. by rewrite fn_lookup_insert_ne.
Qed.

Lemma owed_zero todo c i : owed todo c = 0%nat → (i < N)%nat → count c (todo i) = 0%nat.
Proof. intros H Hi. apply (sum_zero (λ i, count c (todo i)) (List.seq 0 N)); [done|]. apply elem_of_seq. lia. Qed.

Lemma owed_occ l : Forall (λ d, 0 ≤ d < Z.of_nat N) l →
  sum_list ((λ i, occ (Z.of_nat i) l) <$> List.seq 0 N) = length l.
Proof.
  induction l as [|d l IH]; intros Hl.
  - assert (∀ L : list nat, sum_list ((λ i, occ (Z.of_nat i) []) <$> L) = 0%nat) as H by (by induction L). apply H.
  - apply Forall_cons in Hl as [Hd Hl]. specialize (IH Hl). cbn [length]. rewrite <- IH.
    pose proof (sum_change (λ i, occ (Z.of_nat i) (d :: l)) (λ i, occ (Z.of_nat i) l) (List.seq 0 N) (Z.to_nat d) 1) as H.
    cbv beta in H. rewrite <- H; [lia|apply NoDup_seq|apply elem_of_seq; lia| |].
    + rewrite occ_cons, decide_True by lia. lia.
    + intros i Hi. rewrite occ_cons, decide_False by lia. done.
Qed.
End owed.

(** ** The invariant *)
Section inv.
Context (g : graph) (nodes : list dagNode) (fn : nat → option string) (workers : nat).
Local Abbreviation N := (length g).

(** Where a task is: its dependencies are not done, or the loop over the roots
    will meet it, or goroutine [t] holds it, or the ready queue, or it was
    called. *)
Inductive place : Type := Waiting | Root | Held (t : nat) | Queued | Begun.

Definition tok (p : gpc) (x : status (V := nat)) : option nat :=
  match p with
  | GEnq c _ _ | MEnq c => Some c
  | GEnqWait c _ _ | MEnqWait c => match x with SEnq _ | SEnqDone false => Some c | _ => None end
  | GGot n | GCall n => Some n
  | GDeqWait => match x with SGot (Some n) => Some n | _ => None end
  | _ => None
  end.

(** What the queue knows about the goroutine. *)
Definition compat (p : gpc) (x : status (V := nat)) : Prop :=
  match p with
  | GDeqWait => x = SDeq ∨ ∃ r, x = SGot r
  | GEnqWait c _ _ | MEnqWait c => x = SEnq c ∨ ∃ ok, x = SEnqDone ok
  | _ => x = SIdle
  end.

Definition main_pc (p : gpc) : bool :=
  match p with MRoot _ | MEnq _ | MEnqWait _ | MSpawn _ | MWait | MDone _ => true | _ => false end.
Definition root_pos (p : gpc) : nat := match p with MRoot k => k | MEnq k | MEnqWait k => S k | _ => N end.
(** The goroutines above this number have not started. *)
Definition limit (p : gpc) : nat := match p with MRoot _ | MEnq _ | MEnqWait _ => 0 | MSpawn j => j | _ => workers end.
(** The task whose call or release is under way. *)
Definition working (p : gpc) : option nat :=
  match p with GRun n | GRelease n _ | GEnq _ n _ | GEnqWait _ n _ | GCount n => Some n | _ => None end.

Definition at_place (tk : nat → option nat) (l : list nat) (lg : list entry) (root : nat) (zero : Prop) (n : nat) (x : place) : Prop :=
  match x with Waiting => ¬ zero | _ => zero end ∧
  (∀ t, tk t = Some n → x = Held t) ∧ (n ∈ l → x = Queued) ∧ (Started n ∈ lg → x = Begun) ∧
  ((root ≤ n)%nat → x = Waiting ∨ x = Root).

Definition placed (tk : nat → option nat) (l : list nat) (lg : list entry) (root : nat) (zero : Prop) (n : nat) : Prop :=
  ∃ x, at_place tk l lg root zero n x.

Definition local (m : shared) (todo : nat → list nat) (counted : list nat) (b : bool) (p : gpc) : Prop :=
  match p with
  | GRun n => (n < N)%nat ∧ Started n ∈ log m ∧ Succeeded n ∉ log m
  | GErr e | GSetErr e => ∃ n, Failed n e ∈ log m
  | GCancel => err m ≠ None
  | GRelease n l | GEnq _ n l | GEnqWait _ n l => (n < N)%nat ∧ Succeeded n ∈ log m ∧ todo n = l ∧ n ∉ counted
  | GCount n => (n < N)%nat ∧ Succeeded n ∈ log m ∧ n ∉ counted
  | GDone => err m ≠ None ∨ b = true ∨ pending m = 0
  | GPanic => False
  | MRoot k => (k ≤ N)%nat
  | MEnq k | MEnqWait k => (k < N)%nat
  | MSpawn j => (j ≤ workers)%nat
  | MDone None => b = true ∨ ∀ n, (n < N)%nat → Succeeded n ∈ log m
  | MDone (Some e) => ∃ n, Failed n e ∈ log m
  | _ => True
  end.

(** Each task is called once, after its dependencies have succeeded. *)
Definition log_ok (lg : list entry) : Prop :=
  ∀ l1 n l2, lg = l1 ++ Started n :: l2 →
    (Started n ∉ l1) ∧ (∀ dep, dep ∈ row g (Z.of_nat n) → Succeeded (Z.to_nat dep) ∈ l1).

Record mem_inv (m : shared) (b : bool) (todo : nat → list nat) (counted : list nat) : Prop := {
  i_todo : ∀ n, Succeeded n ∉ log m → todo n = dependents g n;
  i_todo_lt : ∀ n, Forall (λ c, c < N)%nat (todo n);
  i_deps : ∀ n, (n < N)%nat → deps m n = Z.of_nat (owed N todo n);
  i_owed : ∀ n, (n < N)%nat → (owed N todo n ≤ length (row g (Z.of_nat n)))%nat;
  i_counted : NoDup counted ∧ ∀ n, n ∈ counted → (n < N)%nat ∧ Succeeded n ∈ log m;
  i_pending : pending m = Z.of_nat N - Zlen counted;
  i_once : once m = ODone → err m ≠ None;
  i_ctx : ctx m = true → b = true ∨ err m ≠ None;
  i_err : ∀ e, err m = Some e → ∃ n, Failed n e ∈ log m;
  i_results : ∀ n, (Succeeded n ∈ log m → fn n = None ∧ Started n ∈ log m) ∧ (∀ e, Failed n e ∈ log m → fn n = Some e);
  i_log : log_ok (log m)
}.

Record dinv (m : shared) (f : nat → gpc) (b : bool) (a : spec (V := nat)) (todo : nat → list nat) (counted : list nat) : Prop := {
  i_compat : ∀ t, compat (f t) (stat a t);
  i_placed : ∀ n, (n < N)%nat →
    placed (λ t, tok (f t) (stat a t)) (contents a) (log m) (root_pos (f 0%nat)) (owed N todo n = 0%nat) n;
  i_tok : ∀ t n, tok (f t) (stat a t) = Some n → (n < N)%nat;
  i_contents : NoDup (contents a) ∧ Forall (λ n, n < N)%nat (contents a);
  i_main : ∀ t, main_pc (f t) = true ↔ t = 0%nat;
  i_limit : ∀ t, (limit (f 0%nat) < t)%nat → f t = GNew;
  i_local : ∀ t, local m todo counted b (f t);
  i_uniq : ∀ t t' n, working (f t) = Some n → working (f t') = Some n → t = t';
  i_mem : mem_inv m b todo counted
}.

(** *** Steps of other goroutines *)
Lemma local_mono m m' todo todo' counted counted' b b' p :
  log m ⊆ log m' → (err m ≠ None → err m' ≠ None) → (b = true → b' = true) → (pending m = 0 → pending m' = 0) →
  (∀ n, working p = Some n → todo' n = todo n ∧ (n ∈ counted' → n ∈ counted) ∧ (Succeeded n ∈ log m' → Succeeded n ∈ log m)) →
  local m todo counted b p → local m' todo' counted' b' p.
Proof.
  intros Hl He Hb Hp Hw. destruct p; cbn [local working] in *; try done; try (specialize (Hw _ eq_refl) as (Hw1 & Hw2 & Hw3)).
  - intros (H1 & H2 & H3). split_and!; [done|by apply Hl|by intros H%Hw3].
  - intros [x Hx]. exists x. by apply Hl.
  - intros [x Hx]. exists x. by apply Hl.
  - rewrite Hw1. intros (H1 & H2 & H3 & H4). split_and!; auto.
  - rewrite Hw1. intros (H1 & H2 & H3 & H4). split_and!; auto.
  - rewrite Hw1. intros (H1 & H2 & H3 & H4). split_and!; auto.
  - intros (H1 & H2 & H3). split_and!; auto.
  - intros [H|[H|H]]; auto.
  - destruct r; [intros [x Hx]; exists x; by apply Hl|]. intros [H|H]; [auto|]. right. intros n Hn. apply Hl. auto.
Qed.

Lemma placed_ext tk tk' l l' lg lg' root root' zero zero' n :
  (∀ t, tk' t = Some n → tk t = Some n) → (n ∈ l' → n ∈ l) → (Started n ∈ lg' → Started n ∈ lg) →
  ((root' ≤ n)%nat → (root ≤ n)%nat) → (zero ↔ zero') →
  placed tk l lg root zero n → placed tk' l' lg' root' zero' n.
Proof. intros H1 H2 H3 H4 H5 (x & Hx & Hx1 & Hx2 & Hx3 & Hx4). exists x. split_and!; [destruct x; naive_solver|auto..]. Qed.

Lemma elem_of_snoc {A} (x y : A) l : x ∈ l ++ [y] ↔ x ∈ l ∨ x = y.
Proof. by rewrite elem_of_app, list_elem_of_singleton. Qed.

Lemma log_ok_snoc lg x :
  log_ok lg → (∀ n, x = Started n → (Started n ∉ lg) ∧ (∀ dep, dep ∈ row g (Z.of_nat n) → Succeeded (Z.to_nat dep) ∈ lg)) →
  log_ok (lg ++ [x]).
Proof.
  intros H Hx l1 n l2 E. destruct (decide (l2 = [])) as [->|Hne].
  - apply app_inj_tail in E as [-> ->]. by apply Hx.
  - destruct (exists_last Hne) as (l2' & y & ->). rewrite app_comm_cons, app_assoc in E. apply app_inj_tail in E as [-> _].
    by apply (H l1 n l2').
Qed.

(** *** A step of one goroutine *)
Section update.
Context (m : shared) (f : nat → gpc) (b : bool) (a : spec (V := nat)) (todo : nat → list nat) (counted : list nat).
Context (I : dinv m f b a todo counted).
Context (i : nat) (p' : gpc) (m' : shared) (b' : bool) (a' : spec (V := nat)) (todo' : nat → list nat) (counted' : list nat).
Context (Hst : ∀ t, t ≠ i → stat a' t = stat a t).

Lemma placed_keep n :
  (tok p' (stat a' i) = Some n → tok (f i) (stat a i) = Some n) →
  (n ∈ contents a' → n ∈ contents a) → (Started n ∈ log m' → Started n ∈ log m) →
  ((root_pos (<[i := p']> f 0%nat) ≤ n)%nat → (root_pos (f 0%nat) ≤ n)%nat) →
  (owed N todo n = 0%nat ↔ owed N todo' n = 0%nat) → (n < N)%nat →
  placed (λ t, tok (<[i := p']> f t) (stat a' t)) (contents a') (log m') (root_pos (<[i := p']> f 0%nat)) (owed N todo' n = 0%nat) n.
Proof.
  intros H1 H2 H3 H4 H5 Hn. apply (i_placed _ _ _ _ _ _ I) in Hn. revert Hn. apply placed_ext; try done.
  intros t. destruct (decide (t = i)) as [->|Hne]; [rewrite fn_lookup_insert; auto|rewrite fn_lookup_insert_ne, Hst by done; done].
Qed.

Lemma dinv_upd :
  f i ≠ GNew → compat p' (stat a' i) → main_pc p' = main_pc (f i) → (limit (f i) ≤ limit p')%nat →
  (∀ n, (n < N)%nat → placed (λ t, tok (<[i := p']> f t) (stat a' t)) (contents a') (log m')
     (root_pos (<[i := p']> f 0%nat)) (owed N todo' n = 0%nat) n) →
  (∀ n, tok p' (stat a' i) = Some n → (n < N)%nat) →
  NoDup (contents a') ∧ Forall (λ n, n < N)%nat (contents a') →
  log m ⊆ log m' → (err m ≠ None → err m' ≠ None) → (b = true → b' = true) → (pending m = 0 → pending m' = 0) →
  (∀ n, working (f i) ≠ Some n → todo' n = todo n ∧ (n ∈ counted' → n ∈ counted) ∧ (Succeeded n ∈ log m' → Succeeded n ∈ log m)) →
  (∀ t n, working p' = Some n → working (f t) = Some n → t = i) →
  local m' todo' counted' b' p' → mem_inv m' b' todo' counted' →
  dinv m' (<[i := p']> f) b' a' todo' counted'.
Proof.
  intros Hnew Hc Hm Hl Hp Ht Hct H1 H2 H3 H4 H5 Hu Hloc Hmem.
  constructor; [..|done]; try done.
  - intros t. destruct (decide (t = i)) as [->|Hne]; [by rewrite fn_lookup_insert|].
    rewrite fn_lookup_insert_ne, Hst by done. apply I.
  - intros t n. destruct (decide (t = i)) as [->|Hne]; [rewrite fn_lookup_insert; auto|].
    rewrite fn_lookup_insert_ne, Hst by done. apply I.
  - intros t. destruct (decide (t = i)) as [->|Hne]; [rewrite fn_lookup_insert, Hm|rewrite fn_lookup_insert_ne by done]; apply I.
  - intros t Hlt. destruct (decide (t = i)) as [->|Hne].
    + exfalso. apply Hnew, (i_limit _ _ _ _ _ _ I). destruct (decide (i = 0%nat)) as [->|Hi]; [rewrite fn_lookup_insert in Hlt|rewrite fn_lookup_insert_ne in Hlt by done]; lia.
    + rewrite fn_lookup_insert_ne by done. apply (i_limit _ _ _ _ _ _ I).
      destruct (decide (i = 0%nat)) as [->|Hi]; [rewrite fn_lookup_insert in Hlt|rewrite fn_lookup_insert_ne in Hlt by done]; lia.
  - intros t. destruct (decide (t = i)) as [->|Hne]; [by rewrite fn_lookup_insert|]. rewrite fn_lookup_insert_ne by done.
    apply (local_mono m m' todo todo' counted counted' b b'); try done; [|apply I].
    intros n Hn. apply H5. intros Hi. apply Hne. by apply (i_uniq _ _ _ _ _ _ I t i n).
  - intros t t' n. destruct (decide (t = i)) as [->|Hne], (decide (t' = i)) as [->|Hne'];
      rewrite ?fn_lookup_insert, ?fn_lookup_insert_ne by done; [done|..].
    + intros Hw Hw'. symmetry. by apply (Hu t' n).
    + intros Hw Hw'. by apply (Hu t n).
    + apply I.
Qed.
End update.

(** A step that only moves the goroutine. *)
Lemma dinv_pc m f b a todo counted i p' a' :
  dinv m f b a todo counted → (∀ t, t ≠ i → stat a' t = stat a t) → contents a' = contents a →
  f i ≠ GNew → compat p' (stat a' i) → main_pc p' = main_pc (f i) → (limit (f i) ≤ limit p')%nat →
  (∀ n, tok p' (stat a' i) = Some n → tok (f i) (stat a i) = Some n) → (root_pos (f i) ≤ root_pos p')%nat →
  (∀ n, working p' = Some n → working (f i) = Some n) → local m todo counted b p' →
  dinv m (<[i := p']> f) b a' todo counted.
Proof.
  intros I Hst Hct Hnew Hc Hm Hl Ht Hr Hw Hloc. apply (dinv_upd m f b a todo counted I); try done.
  - intros n Hn. apply (placed_keep m f b a todo counted I); try done; [auto|by rewrite Hct|].
    destruct (decide (i = 0%nat)) as [->|Hi]; [rewrite fn_lookup_insert; lia|by rewrite fn_lookup_insert_ne].
  - intros n Hn. by apply (i_tok _ _ _ _ _ _ I i), Ht.
  - rewrite Hct. apply I.
  - intros t n H1 H2. apply (i_uniq _ _ _ _ _ _ I t i n); [done|auto].
  - apply I.
Qed.

(** *** The memory *)
Lemma mem_add_log m b todo counted x :
  mem_inv m b todo counted →
  (∀ n, x = Started n → (Started n ∉ log m) ∧ (∀ dep, dep ∈ row g (Z.of_nat n) → Succeeded (Z.to_nat dep) ∈ log m)) →
  (∀ n, x = Succeeded n → fn n = None ∧ Started n ∈ log m) → (∀ n e, x = Failed n e → fn n = Some e) →
  mem_inv (add_log x m) b todo counted.
Proof.
  intros I H1 H2 H3. constructor; cbn [add_log deps pending err once ctx log].
  - intros n Hn. apply I. intros H. apply Hn, elem_of_snoc. by left.
  - apply I.
  - apply I.
  - apply I.
  - split; [apply I|]. intros n Hn. destruct (proj2 (i_counted _ _ _ _ I) n Hn). split; [done|]. apply elem_of_snoc. by left.
  - apply I.
  - apply I.
  - apply I.
  - intros e He. destruct (i_err _ _ _ _ I e He) as [n Hn]. exists n. apply elem_of_snoc. by left.
  - intros n. setoid_rewrite elem_of_snoc. destruct (i_results _ _ _ _ I n) as [R1 R2]. split.
    + intros [H|<-]; [destruct (R1 H); auto|]. destruct (H2 n eq_refl). auto.
    + intros e [H|<-]; [by apply R2|by eapply H3].
  - apply log_ok_snoc; [apply I|done].
Qed.

Lemma mem_flags m m' b b' todo counted :
  mem_inv m b todo counted → deps m' = deps m → pending m' = pending m → log m' = log m →
  (b = true → b' = true) → (err m ≠ None → err m' ≠ None) →
  (once m' = ODone → err m' ≠ None) → (ctx m' = true → ctx m = true ∨ b' = true ∨ err m' ≠ None) →
  (∀ e, err m' = Some e → ∃ n, Failed n e ∈ log m) → mem_inv m' b' todo counted.
Proof.
  intros I E1 E2 E3 Hb Hm H1 H2 H3. constructor; rewrite ?E1, ?E2, ?E3; try apply I; try done.
  intros Hc. destruct (H2 Hc) as [H|]; [|done]. destruct (i_ctx _ _ _ _ I H); auto.
Qed.

Lemma mem_count m b todo counted n :
  mem_inv m b todo counted → (n < N)%nat → Succeeded n ∈ log m → n ∉ counted → Z.of_nat N < 2 ^ 63 →
  mem_inv (set_pending (i64 (pending m - 1)) m) b todo (n :: counted) ∧ (pending m = 0 → False) ∧
  i64 (pending m - 1) = pending m - 1.
Proof.
  intros I Hn Hs Hc HN. destruct (i_counted _ _ _ _ I) as [Hnd Hr].
  assert (length (n :: counted) ≤ N)%nat as Hle.
  { replace N with (length (List.seq 0 N)) by apply length_seq. apply NoDup_incl_length; [by apply NoDup_ListNoDup, NoDup_cons|].
    intros x Hx%list_elem_of_In. apply list_elem_of_In, elem_of_seq. apply elem_of_cons in Hx as [->|Hx]; [lia|]. apply Hr in Hx. lia. }
  cbn in Hle. pose proof (i_pending _ _ _ _ I) as Hp. assert (i64 (pending m - 1) = pending m - 1) as E by (apply swrap_small; lia).
  split; [|split; [lia|done]]. rewrite E. constructor; cbn [set_pending deps pending err once ctx log]; try apply I.
  - split; [by apply NoDup_cons|]. intros x [->|Hx]%elem_of_cons; auto.
  - cbn [length]. lia.
Qed.

Lemma mem_dec m b todo counted n c l :
  mem_inv m b todo counted → (n < N)%nat → Succeeded n ∈ log m → todo n = c :: l →
  Forall (λ deps, Zlen deps < 2 ^ 31) g →
  i32 (deps m c - 1) = deps m c - 1 ∧ mem_inv (set_deps c (deps m c - 1) m) b (<[n := l]> todo) counted ∧
  deps m c - 1 = Z.of_nat (owed N (<[n := l]> todo) c) ∧ (c < N)%nat.
Proof.
  intros I Hn Hs Hc Hsz. pose proof (i_todo_lt _ _ _ _ I n) as Hlt. rewrite Hc in Hlt. apply Forall_cons in Hlt as [Hcn Hl].
  assert (∀ x, owed N (<[n := l]> todo) x + (if decide (c = x) then 1 else 0) = owed N todo x)%nat as Ho by (intros; by apply owed_pop).
  pose proof (Ho c) as Hoc. rewrite decide_True in Hoc by done. pose proof (i_deps _ _ _ _ I c Hcn) as Hd. pose proof (i_owed _ _ _ _ I c Hcn).
  assert (Zlen (row g (Z.of_nat c)) < 2 ^ 31) as Hr.
  { unfold row. rewrite (proj2 (Z.ltb_ge _ _)), Nat2Z.id by lia. destruct (lookup_lt_is_Some_2 g c Hcn) as [ds E]. rewrite E. cbn.
    rewrite Forall_forall in Hsz. apply Hsz. by eapply list_elem_of_lookup_2. }
  split; [apply swrap_small; lia|]. split; [|split; [lia|done]].
  constructor; cbn [set_deps deps pending err once ctx log]; try apply I.
  - intros x Hx. rewrite fn_lookup_insert_ne by congruence. by apply I.
  - intros x. destruct (decide (n = x)) as [->|]; [by rewrite fn_lookup_insert|rewrite fn_lookup_insert_ne by done; apply I].
  - intros x Hx. specialize (Ho x). destruct (decide (c = x)) as [->|]; [rewrite fn_lookup_insert; lia|].
    rewrite fn_lookup_insert_ne by done. rewrite (i_deps _ _ _ _ I x Hx). lia.
  - intros x Hx. specialize (Ho x). pose proof (i_owed _ _ _ _ I x Hx). lia.
Qed.

(** *** Steps on the shared variables *)
Context (Hsub : submitted g nodes) (Hsz : Forall (λ deps, Zlen deps < 2 ^ 31) g) (HN : Z.of_nat N < 2 ^ 63).

Lemma nodes_lookup n : (n < N)%nat → ∃ d, nodes !! n = Some (mk_node d (dependents g n)).
Proof.
  intros Hn. destruct (lookup_lt_is_Some_2 g n Hn) as [ds E]. destruct Hsub as (_ & _ & H). eexists. by apply H.
Qed.

(** A task that nobody waits for any more has its dependencies. *)
Lemma owed_deps m b todo counted n dep :
  mem_inv m b todo counted → (n < N)%nat → owed N todo n = 0%nat → dep ∈ row g (Z.of_nat n) → Succeeded (Z.to_nat dep) ∈ log m.
Proof.
  intros I Hn Ho Hd. destruct (decide (Succeeded (Z.to_nat dep) ∈ log m)) as [|Hs]; [done|].
  apply (i_todo _ _ _ _ I) in Hs.
  assert (0 ≤ dep < Z.of_nat n) as Hr.
  { unfold row in Hd. rewrite (proj2 (Z.ltb_ge _ _)), Nat2Z.id in Hd by lia. destruct (g !! n) as [ds|] eqn:E; [|by apply not_elem_of_nil in Hd].
    destruct Hsub as (_ & H & _). by apply (H n ds). }
  apply (owed_zero N _ _ (Z.to_nat dep)) in Ho; [|lia]. rewrite Hs, count_dependents, Z2Nat.id in Ho by lia.
  assert (0 < occ dep (row g (Z.of_nat n)))%nat; [|lia]. unfold occ.
  assert (dep ∈ filter (λ x, x = dep) (row g (Z.of_nat n))) as Hin by (by apply list_elem_of_filter).
  destruct (filter _ _); [by apply not_elem_of_nil in Hin|cbn; lia].
Qed.

Lemma compat_idle p x : compat p x → match p with GDeqWait | GEnqWait _ _ _ | MEnqWait _ => True | _ => x = SIdle end.
Proof. by destruct p. Qed.

Lemma root_pos_other f i p' : (i ≠ 0)%nat → root_pos (<[i := p']> f 0%nat) = root_pos (f 0%nat).
Proof. intros Hi. by rewrite fn_lookup_insert_ne. Qed.

Lemma worker_not_main m f b a todo counted i : dinv m f b a todo counted → main_pc (f i) = false → i ≠ 0%nat.
Proof. intros I Hm ->. pose proof (proj2 (i_main _ _ _ _ _ _ I 0%nat) eq_refl). congruence. Qed.

Lemma started_root m f b a todo counted i :
  dinv m f b a todo counted → main_pc (f i) = false → f i ≠ GNew → root_pos (f 0%nat) = N.
Proof.
  intros I Hm Hnew. pose proof (worker_not_main _ _ _ _ _ _ _ I Hm) as Hi.
  destruct (decide (limit (f 0%nat) < i)%nat) as [Hl|Hl]; [by apply (i_limit _ _ _ _ _ _ I) in Hl|].
  destruct (f 0%nat); cbn in *; try done; lia.
Qed.

(** The goroutine that holds a task calls it. *)
Lemma begin_inv m f b a todo counted i n :
  dinv m f b a todo counted → f i = GCall n → dinv (add_log (Started n) m) (<[i := GRun n]> f) b a todo counted.
Proof.
  intros I Ef. pose proof (i_tok _ _ _ _ _ _ I i n) as Hn. rewrite Ef in Hn. specialize (Hn eq_refl).
  pose proof (started_root _ _ _ _ _ _ i I) as Hroot. rewrite Ef in Hroot. specialize (Hroot eq_refl ltac:(done)).
  pose proof (worker_not_main _ _ _ _ _ _ i I) as Hi. rewrite Ef in Hi. specialize (Hi eq_refl).
  pose proof (i_compat _ _ _ _ _ _ I i) as Hc. rewrite Ef in Hc. cbn in Hc.
  destruct (i_placed _ _ _ _ _ _ I n Hn) as (x & H1 & H2 & H3 & H4 & H5).
  assert (x = Held i) as -> by (apply H2; by rewrite Ef). cbn in H1.
  assert (Started n ∉ log m) as Hns by (intros H; by apply H4 in H).
  assert (mem_inv (add_log (Started n) m) b todo counted) as Hmem.
  { apply mem_add_log; [apply I| |done..]. intros k [= <-]. split; [done|]. intros dep. apply (owed_deps m b todo counted n); [apply I|done|done]. }
  apply (dinv_upd m f b a todo counted I); rewrite ?Ef; try done.
  - intros k Hk. destruct (decide (k = n)) as [->|Hne].
    + exists Begun. split; [done|]. split; [|split; [by intros H%H3|split; [done|]]].
      * intros t. destruct (decide (t = i)) as [->|Hti]; [by rewrite fn_lookup_insert|]. rewrite fn_lookup_insert_ne by done.
        intros Ht%H2. congruence.
      * rewrite root_pos_other by done. rewrite Hroot. lia.
    + apply (placed_keep m f b a todo counted I); try done; cbn.
      * rewrite elem_of_snoc. intros [|[= ->]]; [done|done].
      * by rewrite root_pos_other.
  - apply I.
  - intros y Hy. cbn. apply elem_of_snoc. by left.
  - intros k _. split; [done|]. split; [done|]. cbn. rewrite elem_of_snoc. by intros [|].
  - intros t k [= <-] Hw. exfalso. apply Hns. pose proof (i_local _ _ _ _ _ _ I t) as Hl. pose proof (i_results _ _ _ _ (i_mem _ _ _ _ _ _ I) n) as [Hres _].
    destruct (f t); cbn in *; simplify_eq; try by apply Hres, Hl. by apply Hl.
  - cbn. split; [done|]. rewrite !elem_of_snoc. split; [by right|]. intros [H|]; [|done].
    by apply Hns, (i_results _ _ _ _ (i_mem _ _ _ _ _ _ I) n).
Qed.

(** A dependent is counted down. *)
Lemma release_inv m f b a todo counted i n c l :
  dinv m f b a todo counted → f i = GRelease n (c :: l) →
  let x := i32 (deps m c - 1) in
  dinv (set_deps c x m) (<[i := if x =? 0 then GEnq c n l else GRelease n l]> f) b a (<[n := l]> todo) counted ∧
  ∃ nd, nodes !! c = Some nd.
Proof.
  intros I Ef. pose proof (i_local _ _ _ _ _ _ I i) as Hl. rewrite Ef in Hl. destruct Hl as (Hn & Hs & Hc & Hnc).
  pose proof (started_root _ _ _ _ _ _ i I) as Hroot. rewrite Ef in Hroot. specialize (Hroot eq_refl ltac:(done)).
  pose proof (worker_not_main _ _ _ _ _ _ i I) as Hi. rewrite Ef in Hi. specialize (Hi eq_refl).
  pose proof (i_compat _ _ _ _ _ _ I i) as Hco. rewrite Ef in Hco. cbn in Hco.
  destruct (mem_dec m b todo counted n c l (i_mem _ _ _ _ _ _ I) Hn Hs Hc Hsz) as (-> & Hmem & Hx & Hcn). cbv zeta.
  assert (∀ y, owed N (<[n := l]> todo) y + (if decide (c = y) then 1 else 0) = owed N todo y)%nat as Ho by (intros; by apply owed_pop).
  split; [|destruct (nodes_lookup c Hcn); eauto].
  set (p' := if deps m c - 1 =? 0 then GEnq c n l else GRelease n l).
  assert (main_pc p' = false ∧ limit p' = workers ∧ working p' = Some n ∧ compat p' (stat a i) ∧ local (set_deps c (deps m c - 1) m) (<[n := l]> todo) counted b p') as (P1 & P2 & P3 & P4 & P5).
  { unfold p'. destruct (deps m c - 1 =? 0); cbn; rewrite fn_lookup_insert; done. }
  apply (dinv_upd m f b a todo counted I); rewrite ?Ef, ?P1, ?P2, ?P3; try done.
  - intros k Hk. destruct (decide (k = c ∧ deps m c - 1 = 0)) as [[-> Hz]|Hne].
    + destruct (i_placed _ _ _ _ _ _ I c Hcn) as (x & H1 & H2 & H3 & H4 & H5).
      assert (x = Waiting) as ->. { specialize (Ho c). rewrite decide_True in Ho by done. destruct x; try done; lia. }
      exists (Held i). split; [cbn; lia|]. split; [|split; [by intros H%H3|split; [by intros H%H4|]]].
      * intros t. destruct (decide (t = i)) as [->|Hti]; [done|]. rewrite fn_lookup_insert_ne by done. by intros Ht%H2.
      * rewrite root_pos_other by done. rewrite Hroot. lia.
    + apply (placed_keep m f b a todo counted I); try done.
      * unfold p'. destruct (Z.eqb_spec (deps m c - 1) 0); cbn; [intros [= ->]; naive_solver|done].
      * by rewrite root_pos_other.
      * specialize (Ho k). destruct (decide (c = k)) as [->|]; [|lia].
        assert (deps m k - 1 ≠ 0) by naive_solver. lia.
  - intros k. unfold p'. destruct (deps m c - 1 =? 0); cbn; [by intros [= <-]|done].
  - apply I.
  - intros k Hk. split; [|done]. rewrite fn_lookup_insert_ne; [done|]. cbn in Hk. congruence.
  - intros t k [= <-] Hw. apply (i_uniq _ _ _ _ _ _ I t i n); [done|by rewrite Ef].
Qed.

(** The loop over the roots takes one. *)
Lemma root_inv m f b a todo counted k :
  dinv m f b a todo counted → f 0%nat = MRoot k → (k < N)%nat →
  dinv m (<[0%nat := if deps m k =? 0 then MEnq k else MRoot (S k)]> f) b a todo counted.
Proof.
  intros I Ef Hk. pose proof (i_deps _ _ _ _ (i_mem _ _ _ _ _ _ I) k Hk) as Hd.
  pose proof (i_compat _ _ _ _ _ _ I 0%nat) as Hco. rewrite Ef in Hco. cbn in Hco.
  set (p' := if deps m k =? 0 then MEnq k else MRoot (S k)).
  assert (main_pc p' = true ∧ limit p' = 0%nat ∧ working p' = None ∧ root_pos p' = S k ∧ compat p' (stat a 0%nat) ∧ local m todo counted b p') as (P1 & P2 & P3 & P4 & P5 & P6).
  { unfold p'. destruct (deps m k =? 0); cbn; done. }
  apply (dinv_upd m f b a todo counted I); rewrite ?Ef, ?P1, ?P2, ?P3; try done.
  - intros n Hn. destruct (decide (n = k ∧ deps m k = 0)) as [[-> Hz]|Hne].
    + destruct (i_placed _ _ _ _ _ _ I k Hk) as (x & H1 & H2 & H3 & H4 & H5). rewrite Ef in H5. cbn in H5.
      specialize (H5 ltac:(lia)). assert (x = Root) as -> by (destruct H5 as [->| ->]; [cbn in H1; lia|done]).
      exists (Held 0). split; [cbn; lia|]. split; [|split; [by intros H%H3|split; [by intros H%H4|]]].
      * intros t. destruct (decide (t = 0%nat)) as [->|Ht]; [done|]. rewrite fn_lookup_insert_ne by done. by intros Hx%H2.
      * rewrite fn_lookup_insert, P4. lia.
    + apply (placed_keep m f b a todo counted I); try done.
      * unfold p'. destruct (Z.eqb_spec (deps m k) 0); cbn; [intros [= ->]; naive_solver|done].
      * rewrite fn_lookup_insert, P4, Ef. cbn. lia.
  - intros n. unfold p'. destruct (deps m k =? 0); cbn; [by intros [= <-]|done].
  - apply I.
  - apply I.
Qed.

(** A step that changes flags, the error or the log, and no token. *)
Lemma dinv_mem m f b a todo counted i p' m' counted' :
  dinv m f b a todo counted → f i ≠ GNew → main_pc (f i) = false → main_pc p' = false → compat p' (stat a i) →
  tok p' (stat a i) = None → (∀ n, working p' = Some n → working (f i) = Some n) →
  (∀ n, Started n ∈ log m' → Started n ∈ log m) → log m ⊆ log m' →
  (∀ n, working (f i) ≠ Some n → (n ∈ counted' → n ∈ counted) ∧ (Succeeded n ∈ log m' → Succeeded n ∈ log m)) →
  (err m ≠ None → err m' ≠ None) → (pending m = 0 → pending m' = 0) →
  local m' todo counted' b p' → mem_inv m' b todo counted' → dinv m' (<[i := p']> f) b a todo counted'.
Proof.
  intros I Hnew Hm Hm' Hc Ht Hw Hlog1 Hlog2 Hw2 He Hp Hl Hmem.
  pose proof (worker_not_main _ _ _ _ _ _ i I Hm) as Hi.
  apply (dinv_upd m f b a todo counted I); try done.
  - by rewrite Hm, Hm'.
  - destruct p', (f i); done.
  - intros n Hn. apply (placed_keep m f b a todo counted I); try done; [by rewrite Ht|auto|by rewrite root_pos_other].
  - by rewrite Ht.
  - apply I.
  - intros n Hn. split; [done|auto].
  - intros t n H1 H2. apply (i_uniq _ _ _ _ _ _ I t i n); auto.
Qed.

Lemma gstep_inv m f b a todo counted i m' p' :
  dinv m f b a todo counted → gstep nodes fn m (f i) = Some (m', p') →
  ∃ todo' counted', dinv m' (<[i := p']> f) b a todo' counted'.
Proof.
  intros I Hst. pose proof (i_local _ _ _ _ _ _ I i) as Hl. pose proof (i_compat _ _ _ _ _ _ I i) as Hco.
  pose proof (i_mem _ _ _ _ _ _ I) as Hmem.
  destruct (f i) as [| | | | | |n|n|n|e|e| |n l| | |n| | |k|k|k|j| |r] eqn:Ef; cbn [gstep] in Hst; try done; cbn in Hl, Hco.
  - injection Hst as <- <-. exists todo, counted. apply (dinv_pc m f b a todo counted); rewrite ?Ef; try done; destruct (ctx m) eqn:E; try done.
    cbn. destruct (i_ctx _ _ _ _ Hmem E); auto.
  - injection Hst as <- <-. exists todo, counted. apply (dinv_pc m f b a todo counted); rewrite ?Ef; try done; destruct (err m) eqn:E; try done.
    cbn. rewrite E. by left.
  - injection Hst as <- <-. exists todo, counted. apply (dinv_pc m f b a todo counted); rewrite ?Ef; try done; destruct (Z.eqb_spec (pending m) 0); try done.
    cbn. auto.
  - injection Hst as <- <-. exists todo, counted. apply (dinv_pc m f b a todo counted); rewrite ?Ef; try done; destruct (err m) eqn:E; try done.
    cbn. rewrite E. by left.
  - pose proof (i_tok _ _ _ _ _ _ I i n) as Hn. rewrite Ef in Hn. destruct (nodes_lookup n (Hn eq_refl)) as [d Hd]. rewrite Hd in Hst.
    injection Hst as <- <-. exists todo, counted. by apply begin_inv.
  - destruct Hl as (Hn & Hs & Hns). destruct (nodes_lookup n Hn) as [d Hd]. rewrite Hd in Hst. destruct (fn n) as [e|] eqn:Efn; injection Hst as <- <-.
    + exists todo, counted. apply (dinv_mem m f b a todo counted); rewrite ?Ef; try done; cbn [add_log log].
      * intros k. rewrite elem_of_snoc. by intros [|].
      * intros x Hx. apply elem_of_snoc. by left.
      * intros k _. rewrite elem_of_snoc. split; [done|]. by intros [|].
      * cbn. exists n. apply elem_of_snoc. by right.
      * apply mem_add_log; [done..|]. by intros k e' [= <- <-].
    + exists todo, counted. apply (dinv_mem m f b a todo counted); rewrite ?Ef; try done; cbn [add_log log].
      * intros k. rewrite elem_of_snoc. by intros [|].
      * intros x Hx. apply elem_of_snoc. by left.
      * intros k Hk. rewrite elem_of_snoc. split; [done|]. intros [|[= ->]]; [done|]. by destruct Hk.
      * cbn. rewrite elem_of_snoc. split_and!; [done|by right|by apply Hmem|]. intros Hin. by apply Hns, Hmem.
      * apply mem_add_log; [done..| |done]. by intros k [= <-].
  - destruct (once m) eqn:Eo; try done; injection Hst as <- <-; exists todo, counted.
    + apply (dinv_mem m f b a todo counted); rewrite ?Ef; try done. apply (mem_flags m _ b b); try done; try apply Hmem. cbn. auto.
    + apply (dinv_pc m f b a todo counted); rewrite ?Ef; try done. cbn. left. by apply Hmem.
  - injection Hst as <- <-. exists todo, counted. apply (dinv_mem m f b a todo counted); rewrite ?Ef; try done.
    apply (mem_flags m _ b b); try done; [cbn; auto|]. cbn. by intros e' [= <-].
  - injection Hst as <- <-. exists todo, counted. apply (dinv_mem m f b a todo counted); rewrite ?Ef; try done; [cbn; auto|].
    apply (mem_flags m _ b b); try done; [cbn; auto|]. apply Hmem.
  - destruct l as [|c l].
    + injection Hst as <- <-. exists todo, counted. apply (dinv_pc m f b a todo counted); rewrite ?Ef; try done. naive_solver.
    + destruct (release_inv m f b a todo counted i n c l I Ef) as [H [nd Hnd]]. rewrite Hnd in Hst. injection Hst as <- <-. eauto.
  - destruct Hl as (Hn & Hs & Hnc). destruct (mem_count m b todo counted n Hmem Hn Hs Hnc HN) as (Hm' & Hp & E).
    injection Hst as <- <-. exists todo, (n :: counted). set (x := i64 (pending m - 1)) in *.
    apply (dinv_mem m f b a todo counted); rewrite ?Ef; try done; try by destruct (x =? 0).
    + intros k Hk. split; [|done]. rewrite elem_of_cons. intros [->|]; [by destruct Hk|done].
    + destruct (Z.eqb_spec x 0); cbn; auto.
  - destruct Hsub as [Hlen _]. rewrite Hlen in Hst. destruct (Nat.ltb_spec k N) as [Hk|Hk]; injection Hst as <- <-; exists todo, counted.
    + assert (i = 0%nat) as -> by (apply (i_main _ _ _ _ _ _ I); by rewrite Ef). by apply root_inv.
    + apply (dinv_pc m f b a todo counted); rewrite ?Ef; try done; cbn; lia.
Qed.

(** *** Steps of the ready queue *)
Lemma dinv_ext m f f' b a todo counted :
  (∀ t, f' t = f t) → dinv m f b a todo counted → dinv m f' b a todo counted.
Proof.
  intros E I. constructor; try setoid_rewrite E; try apply I.
  intros n Hn. rewrite E. apply (i_placed _ _ _ _ _ _ I) in Hn. revert Hn. apply placed_ext; try done. intros t. by rewrite E.
Qed.

(** The queue takes effect for goroutine [i], which stays where it is. *)
Lemma dinv_queue m f b l l' st i x todo counted :
  dinv m f b (mk_spec l st) todo counted → f i ≠ GNew → compat (f i) x →
  (∀ n, (n < N)%nat → (tok (f i) x = Some n → tok (f i) (st i) = Some n) ∧ (n ∈ l' → n ∈ l) ∨
     placed (λ t, tok (<[i := f i]> f t) (<[i := x]> st t)) l' (log m) (root_pos (f 0%nat)) (owed N todo n = 0%nat) n) →
  (∀ n, tok (f i) x = Some n → (n < N)%nat) → NoDup l' ∧ Forall (λ n, n < N)%nat l' →
  dinv m f b (mk_spec l' (<[i := x]> st)) todo counted.
Proof.
  intros I Hnew Hc Hp Ht Hl. apply (dinv_ext m (<[i := f i]> f)).
  { intros t. destruct (decide (t = i)) as [->|]; [by rewrite fn_lookup_insert|by rewrite fn_lookup_insert_ne]. }
  assert (∀ t, t ≠ i → stat (mk_spec l' (<[i := x]> st)) t = stat (mk_spec l st) t) as Hst by (intros; cbn; by rewrite fn_lookup_insert_ne).
  assert (root_pos (<[i := f i]> f 0%nat) = root_pos (f 0%nat)) as Hr.
  { destruct (decide (i = 0%nat)) as [->|]; [by rewrite fn_lookup_insert|by rewrite fn_lookup_insert_ne]. }
  apply (dinv_upd m f b (mk_spec l st) todo counted I); try done; cbn [contents stat]; rewrite ?fn_lookup_insert; try done.
  - intros n Hn. rewrite Hr. destruct (Hp n Hn) as [[H1 H2]|H]; [|done].
    rewrite <- Hr. apply (placed_keep m f b (mk_spec l st) todo counted I i (f i) m (mk_spec l' (<[i := x]> st)) todo Hst); try done; cbn [contents stat].
    + by rewrite fn_lookup_insert.
    + by rewrite Hr.
  - intros t n H1 H2. by apply (i_uniq _ _ _ _ _ _ I t i n).
  - apply I.
  - apply I.
Qed.

Lemma queue_inv c m f b a a' todo counted :
  dinv m f b a todo counted → sstep c a None a' → dinv m f b a' todo counted.
Proof.
  intros I Hs. inversion Hs as [|l st i v Hi Hlt|l st i v Hi Hf| | |v l st i Hi|l st i Hi He| |]; subst; clear Hs; [..|done];
    pose proof (i_compat _ _ _ _ _ _ I i) as Hc; cbn in Hc; rewrite Hi in Hc;
    (assert (f i ≠ GNew) as Hnew by (intros E; by rewrite E in Hc)); destruct (i_contents _ _ _ _ _ _ I) as [Hnd Hfa]; cbn [contents] in *.
  - (* push *)
    assert (tok (f i) (st i) = Some v ∧ compat (f i) (SEnqDone true) ∧ tok (f i) (SEnqDone true) = None) as (Ht & Hc' & Ht').
    { rewrite Hi. destruct (f i); cbn in *; try done; try naive_solver. }
    pose proof (i_tok _ _ _ _ _ _ I i v Ht) as Hv. destruct (i_placed _ _ _ _ _ _ I v Hv) as (x & H1 & H2 & H3 & H4 & H5). cbn [contents stat] in *.
    assert (x = Held i) as -> by by apply H2. assert (v ∉ l) as Hvl by (intros H; by apply H3 in H).
    apply (dinv_queue m f b l (l ++ [v]) st i); try done; [|by rewrite Ht'|].
    + intros n Hn. destruct (decide (n = v)) as [->|Hne]; [right|left].
      * exists Queued. split; [done|]. split; [|split; [done|split; [by intros H%H4|]]].
        -- intros t. destruct (decide (t = i)) as [->|Hti]; [by rewrite !fn_lookup_insert, Ht'|]. rewrite !fn_lookup_insert_ne by done.
           intros Hx%H2. congruence.
        -- intros Hr. by apply H5 in Hr as [|].
      * rewrite Ht', elem_of_snoc. split; [done|]. by intros [|].
    + split; [apply NoDup_app; split; [done|split; [|apply NoDup_singleton]]|apply Forall_app; by split; [|constructor]].
      intros y Hy ->%list_elem_of_singleton. done.
  - (* a failed enqueue keeps the task *)
    assert (compat (f i) (SEnqDone false) ∧ tok (f i) (SEnqDone false) = tok (f i) (st i)) as (Hc' & Ht').
    { rewrite Hi. destruct (f i); cbn in *; try done; try naive_solver. }
    apply (dinv_queue m f b l l st i); try done; [|rewrite Ht'; apply (i_tok _ _ _ _ _ _ I i)]. intros n Hn. left. by rewrite Ht'.
  - (* pop *)
    assert (tok (f i) (st i) = None ∧ compat (f i) (SGot (Some v)) ∧ tok (f i) (SGot (Some v)) = Some v) as (Ht & Hc' & Ht').
    { rewrite Hi. destruct (f i); cbn in *; try done; try naive_solver. }
    apply Forall_cons in Hfa as [Hv Hfa]. apply NoDup_cons in Hnd as [Hvl Hnd].
    destruct (i_placed _ _ _ _ _ _ I v Hv) as (x & H1 & H2 & H3 & H4 & H5). cbn [contents stat] in *.
    assert (x = Queued) as -> by (apply H3; by left).
    apply (dinv_queue m f b (v :: l) l st i); try done; [|rewrite Ht'; by intros n [= <-]].
    intros n Hn. destruct (decide (n = v)) as [->|Hne]; [right|left].
    + exists (Held i). split; [done|]. split; [|split; [done|split; [by intros H%H4|]]].
      * intros t. destruct (decide (t = i)) as [->|Hti]; [done|]. rewrite !fn_lookup_insert_ne by done. by intros Hx%H2.
      * intros Hr. by apply H5 in Hr as [|].
    + rewrite Ht'. split; [congruence|by right].
  - (* nothing found *)
    assert (compat (f i) (SGot None) ∧ tok (f i) (SGot None) = None) as (Hc' & Ht').
    { destruct (f i); cbn in *; try done; try naive_solver. }
    apply (dinv_queue m f b l l st i); try done; [|by rewrite Ht']. intros n Hn. left. by rewrite Ht'.
Qed.

Lemma call_inv c m f b a a' todo counted i e p :
  dinv m f b a todo counted → gcall (f i) i = Some (e, p) → sstep c a (Some e) a' → dinv m (<[i := p]> f) b a' todo counted.
Proof.
  intros I Hg Hs. pose proof (i_local _ _ _ _ _ _ I i) as Hl.
  destruct (f i) eqn:Ef; cbn in Hg; try done; injection Hg as <- <-; inversion Hs; subst; cbn in Hl;
    (apply (dinv_pc m f b _ todo counted _ _ _ I); rewrite ?Ef; try done; cbn [stat];
     try (intros; by rewrite fn_lookup_insert_ne); rewrite ?fn_lookup_insert; cbn; auto).
Qed.

Lemma ret_enq_inv c m f b a a' todo counted i ok p :
  dinv m f b a todo counted → gret_enq (f i) ok = Some p → sstep c a (Some (RetEnq i ok)) a' → dinv m (<[i := p]> f) b a' todo counted.
Proof.
  intros I Hg Hs. pose proof (i_local _ _ _ _ _ _ I i) as Hl. inversion Hs as [| | |l st i' ok' Hi| | | | |]; subst.
  destruct (f i) eqn:Ef; cbn in Hg; try done; injection Hg as <-; cbn in Hl;
    (apply (dinv_pc m f b (mk_spec l st) todo counted); rewrite ?Ef; try done; cbn [stat];
     try (intros; by rewrite fn_lookup_insert_ne); rewrite ?fn_lookup_insert; destruct ok; cbn; rewrite ?Hi; try done; lia).
Qed.

Lemma ret_deq_inv c m f b a a' todo counted i r p :
  dinv m f b a todo counted → gret_deq (f i) r = Some p → sstep c a (Some (RetDeq i r)) a' → dinv m (<[i := p]> f) b a' todo counted.
Proof.
  intros I Hg Hs. inversion Hs as [| | | | | | |l st i' r' Hi|]; subst.
  destruct (f i) eqn:Ef; cbn in Hg; try done; injection Hg as <-.
  apply (dinv_pc m f b (mk_spec l st) todo counted); rewrite ?Ef; try done; cbn [stat];
    try (intros; by rewrite fn_lookup_insert_ne); rewrite ?fn_lookup_insert; destruct r; cbn; rewrite ?Hi; done.
Qed.

(** *** Run *)
Lemma start_inv m f b a todo counted i :
  dinv m f b a todo counted → f i = GNew → i ≠ 0%nat → (i ≤ limit (f 0%nat))%nat → dinv m (<[i := GTop]> f) b a todo counted.
Proof.
  intros I Ef Hi Hl. pose proof (i_compat _ _ _ _ _ _ I i) as Hc. rewrite Ef in Hc. cbn in Hc.
  assert (∀ t, <[i := GTop]> f t = f t ∨ (<[i := GTop]> f t = GTop ∧ t = i)) as Hf.
  { intros t. destruct (decide (t = i)) as [->|]; [rewrite fn_lookup_insert; by right|rewrite fn_lookup_insert_ne by done; by left]. }
  assert (<[i := GTop]> f 0%nat = f 0%nat) as H0 by by rewrite fn_lookup_insert_ne.
  constructor; rewrite ?H0; try apply I.
  - intros t. destruct (Hf t) as [->|[-> ->]]; [apply I|done].
  - intros n Hn. apply (i_placed _ _ _ _ _ _ I) in Hn. revert Hn. apply placed_ext; try done. intros t. by destruct (Hf t) as [->|[-> ->]].
  - intros t n. destruct (Hf t) as [->|[-> ->]]; [apply I|done].
  - intros t. destruct (Hf t) as [->|[-> ->]]; [apply I|done].
  - intros t Ht. destruct (Hf t) as [->|[-> ->]]; [by apply (i_limit _ _ _ _ _ _ I)|lia].
  - intros t. destruct (Hf t) as [->|[-> ->]]; [apply I|done].
  - intros t t' n. destruct (Hf t) as [->|[-> ->]]; [|done]. destruct (Hf t') as [->|[-> ->]]; [apply I|done].
Qed.

Lemma main_move m f b a todo counted p' :
  dinv m f b a todo counted → main_pc (f 0%nat) = true → match f 0%nat with MSpawn _ | MWait => True | _ => False end →
  match p' with MSpawn _ | MWait | MDone _ => True | _ => False end → (limit (f 0%nat) ≤ limit p')%nat →
  local m todo counted b p' → dinv m (<[0%nat := p']> f) b a todo counted.
Proof.
  intros I Hm Hf Hp Hl Hloc. pose proof (i_compat _ _ _ _ _ _ I 0%nat) as Hc.
  apply (dinv_pc m f b a todo counted); try done; destruct (f 0%nat); try done; by destruct p'.
Qed.

Lemma parent_inv m f b a todo counted : dinv m f b a todo counted → dinv (cancel m) f true a todo counted.
Proof.
  intros I. constructor; try apply I.
  - intros t. apply (local_mono m (cancel m) todo todo counted counted b true); try done. apply I.
  - pose proof (i_mem _ _ _ _ _ _ I) as Hm. apply (mem_flags m _ b true); try done; [apply Hm|auto|apply Hm].
Qed.

Context {Q : Type} `{!BoundedQueue nat Q} (c : Z).

Definition dsim (s : dsys (Q := Q)) : Prop :=
  ∃ a todo counted, q_sim c (ready s) a ∧ dinv (mem s) (pcs s) (parent s) a todo counted.

Lemma succeeded_all m b todo counted n :
  mem_inv m b todo counted → pending m = 0 → (n < N)%nat → Succeeded n ∈ log m.
Proof.
  intros I Hp Hn. destruct (i_counted _ _ _ _ I) as [Hnd Hr]. pose proof (i_pending _ _ _ _ I) as Hpe.
  apply Hr. apply list_elem_of_In. apply (NoDup_length_incl (l := counted) (l' := List.seq 0 N)).
  - by apply NoDup_ListNoDup.
  - rewrite length_seq. lia.
  - intros x Hx%list_elem_of_In. apply list_elem_of_In, elem_of_seq. apply Hr in Hx. lia.
  - apply list_elem_of_In, elem_of_seq. lia.
Qed.

Context (Hw : (0 < workers)%nat).

Lemma dstep_inv s s' : dsim s → dstep nodes fn workers s s' → dsim s'.
Proof.
  intros (a & todo & counted & Hq & I) Hs.
  destruct Hs as [m q f b i m' p Hg|m q f b q' Hqs|m q f b i e p q' Hg Hqs|m q f b i ok p q' Hg Hqs|m q f b i r p q' Hg Hqs|m q f b j Hf Hj|m q f b Hf|m q f b Hf Hd|m q f b];
    unfold dsim; cbn [mem ready pcs parent] in *.
  - destruct (gstep_inv m f b a todo counted i m' p I Hg) as (todo' & counted' & I'). by exists a, todo', counted'.
  - destruct (q_sim_step c q a _ q' Hq Hqs) as (a' & Ha & Hq'). exists a', todo, counted. split; [done|by apply (queue_inv c m f b a)].
  - destruct (q_sim_step c q a _ q' Hq Hqs) as (a' & Ha & Hq'). exists a', todo, counted. split; [done|by apply (call_inv c m f b a a' todo counted i e p)].
  - destruct (q_sim_step c q a _ q' Hq Hqs) as (a' & Ha & Hq'). exists a', todo, counted. split; [done|by apply (ret_enq_inv c m f b a a' todo counted i ok p)].
  - destruct (q_sim_step c q a _ q' Hq Hqs) as (a' & Ha & Hq'). exists a', todo, counted. split; [done|by apply (ret_deq_inv c m f b a a' todo counted i r p)].
  - exists a, todo, counted. split; [done|]. assert (f (S j) = GNew) as Hnew by (apply (i_limit _ _ _ _ _ _ I); rewrite Hf; cbn; lia).
    apply start_inv; [|by rewrite fn_lookup_insert_ne|done|rewrite fn_lookup_insert; cbn; lia].
    apply main_move; rewrite ?Hf; try done; cbn; lia.
  - exists a, todo, counted. split; [done|]. apply main_move; rewrite ?Hf; done.
  - exists a, todo, counted. split; [done|]. apply main_move; rewrite ?Hf; try done.
    pose proof (i_local _ _ _ _ _ _ I 1%nat) as Hl. rewrite (Hd 0%nat Hw) in Hl. cbn in Hl.
    pose proof (i_mem _ _ _ _ _ _ I) as Hm. cbn. destruct (err m) as [e|] eqn:E; [by apply Hm|].
    destruct Hl as [|[|Hp]]; [done|by left|right]. intros n Hn. by eapply succeeded_all.
  - exists a, todo, counted. split; [done|]. by apply (parent_inv m f b).
Qed.

Lemma owed_init n : (n < N)%nat → owed N (dependents g) n = length (row g (Z.of_nat n)).
Proof.
  intros Hn. unfold owed. rewrite <- (owed_occ N).
  - f_equal. apply list_fmap_ext. intros i x _. apply count_dependents.
  - apply Forall_forall. intros d Hd. unfold row in Hd. rewrite (proj2 (Z.ltb_ge _ _)), Nat2Z.id in Hd by lia.
    destruct (g !! n) as [ds|] eqn:E; [|by apply not_elem_of_nil in Hd]. destruct Hsub as (_ & H & _). specialize (H n ds d E Hd). lia.
Qed.

Lemma run_inv m q f b capacity :
  Run nodes false (NewDAGScheduler nodes capacity) = Ok (mk_dsys m q f b) → dinv m f b spec_init (dependents g) [].
Proof.
  intros [= <- _ <- <-]. destruct Hsub as (Hlen & Hv & Hn).
  set (f := λ i, match i with O => match nodes with [] => MDone None | _ => MRoot 0 end | S _ => GNew end).
  assert (∀ t, tok (f t) SIdle = None ∧ working (f t) = None) as Ht by (intros [|t]; [cbn; by destruct nodes|done]).
  constructor; cbn [stat contents spec_init log].
  - intros [|t]; [cbn; by destruct nodes|done].
  - intros n Hlt. exists (if decide (owed N (dependents g) n = 0%nat) then Root else Waiting). unfold at_place.
    split_and!; [by case_decide|intros t; by rewrite (proj1 (Ht t))|by intros ?%not_elem_of_nil..|case_decide; auto].
  - intros t n. by rewrite (proj1 (Ht t)).
  - split; constructor.
  - intros [|t]; [cbn; by destruct nodes|done].
  - intros [|t]; [cbn; lia|done].
  - intros [|t]; [|done]. cbn. destruct nodes; [|cbn; lia]. right. cbn in Hlen. lia.
  - intros t t' n. by rewrite (proj2 (Ht t)).
  - constructor; cbn [deps pending err once ctx log]; try done.
    + intros n. apply Forall_forall. intros x. apply dependents_lt.
    + intros n Hlt. rewrite owed_init by done. destruct (lookup_lt_is_Some_2 g n Hlt) as [ds E]. rewrite (Hn n ds E). cbn.
      unfold row. rewrite (proj2 (Z.ltb_ge _ _)), Nat2Z.id, E by lia. cbn. rewrite Forall_forall in Hsz.
      specialize (Hsz ds ltac:(by eapply list_elem_of_lookup_2)). apply swrap_small; lia.
    + intros n Hlt. by rewrite owed_init.
    + split; [constructor|by intros n ?%not_elem_of_nil].
    + cbn. lia.
    + intros n. split; [|intros e]; by intros ?%not_elem_of_nil.
    + intros l1 n l2 E. by destruct l1.
Qed.
End inv.

Section results.
Context (g : graph) (nodes : list dagNode) (fn : nat → option string) (workers : nat) (capacity : Z).
Context {Q : Type} `{!BoundedQueue nat Q}.
Context (Hsub : submit_all g [] = Ok nodes) (Hsz : Forall (λ deps, Zlen deps < 2 ^ 31) g) (HN : Zlen g < 2 ^ 63).
Context (Hcap : capacity ≤ 2 ^ 32) (Hw : (0 < workers)%nat).

Lemma clamped_capacity n : queue_capacity (if n <? 1 then 1 else n) = queue_capacity n.
Proof. unfold queue_capacity. destruct (Z.ltb_spec n 1); [by rewrite (proj2 (Z.ltb_lt n 2)) by lia|done]. Qed.

Lemma clamped_init : q_sim (queue_capacity capacity) (q_init (if capacity <? 1 then 1 else capacity)) spec_init.
Proof. rewrite <- clamped_capacity. apply q_sim_init. destruct (Z.ltb_spec capacity 1); lia. Qed.

Lemma dreach_inv (s : dsys (Q := Q)) :
  dreach nodes fn workers (NewDAGScheduler nodes capacity) s → dsim g fn workers (queue_capacity capacity) s.
Proof.
  apply submit_all_submitted in Hsub. induction 1 as [[m q f b] Hr|s s' _ IH Hs].
  - exists spec_init, (dependents g), []. split; [|by eapply run_inv]. injection Hr as _ <- _ _. by apply clamped_init.
  - by eapply (dstep_inv g nodes).
Qed.

(** C18 In the first Run of a DAG scheduler after the calls of Submit, whatever
    the interleaving of its workers, each task is called at most once, and only
    after each of its dependencies has returned without an error; no access is
    out of range. (A second Run does not wait: [second_run_ignores_dependencies].) *)
Theorem dag_scheduler_order (s : dsys (Q := Q)) :
  dreach nodes fn workers (NewDAGScheduler nodes capacity) s →
  (∀ l1 n l2, log (mem s) = l1 ++ Started n :: l2 →
     (Started n ∉ l1) ∧ ∀ dep, dep ∈ row g (Z.of_nat n) → Succeeded (Z.to_nat dep) ∈ l1) ∧
  ∀ i, pcs s i ≠ GPanic.
Proof.
  intros Hr. destruct (dreach_inv s Hr) as (a & todo & counted & _ & I). split.
  - apply (i_log _ _ _ _ _ _ (i_mem _ _ _ _ _ _ _ _ _ I)).
  - intros i E. pose proof (i_local _ _ _ _ _ _ _ _ _ I i) as Hl. by rewrite E in Hl.
Qed.

(** When Run returns, an error it returns is one of a task; without an error
    every task has succeeded, unless the caller's context was cancelled. *)
Theorem dag_scheduler_result (s : dsys (Q := Q)) r :
  dreach nodes fn workers (NewDAGScheduler nodes capacity) s → pcs s 0%nat = MDone r →
  match r with
  | Some e => ∃ n, fn n = Some e ∧ Failed n e ∈ log (mem s)
  | None => parent s = true ∨ ∀ n, (n < length g)%nat → fn n = None ∧ Succeeded n ∈ log (mem s)
  end.
Proof.
  intros Hr E. destruct (dreach_inv s Hr) as (a & todo & counted & _ & I). pose proof (i_local _ _ _ _ _ _ _ _ _ I 0%nat) as Hl.
  rewrite E in Hl. pose proof (i_results _ _ _ _ _ _ (i_mem _ _ _ _ _ _ _ _ _ I)) as Hres.
  destruct r as [e|]; cbn in Hl.
  - destruct Hl as [n Hn]. exists n. split; [by apply Hres|done].
  - destruct Hl as [|Hl]; [by left|right]. intros n Hn. split; [by apply Hres, Hl|by apply Hl].
Qed.

(** *** More roots than the ready queue holds *)
Definition is_root (k : nat) : Prop := row g (Z.of_nat k) = [].
#[local] Instance is_root_dec k : Decision (is_root k).
Proof. unfold is_root. apply _. Defined.
Definition roots (k : nat) : list nat := filter is_root (List.seq 0 k).
#[local] Arguments roots : simpl never.

Lemma roots_S k : roots (S k) = roots k ++ (if decide (is_root k) then [k] else []).
Proof. unfold roots. rewrite seq_S, filter_app. by cbn. Qed.

(** Where the loop over the roots is, and what it has put into the queue. *)
Definition filling (p : gpc) (a : spec (V := nat)) : Prop :=
  match p with
  | MRoot k => contents a = roots k
  | MEnq k => contents a = roots k ∧ is_root k
  | MEnqWait k => is_root k ∧
      (contents a = roots k ∧ stat a 0%nat ≠ SEnqDone true ∨ contents a = roots (S k) ∧ stat a 0%nat = SEnqDone true)
  | _ => False
  end.

Definition hanging (s : dsys (Q := Q)) : Prop :=
  ∃ a, q_sim (queue_capacity capacity) (ready s) a ∧ dinv g fn workers (mem s) (pcs s) (parent s) a (dependents g) [] ∧
    log (mem s) = [] ∧ Zlen (contents a) ≤ queue_capacity capacity ∧ filling (pcs s 0%nat) a.

Lemma hanging_others m f b a i :
  dinv g fn workers m f b a (dependents g) [] → filling (f 0%nat) a → f i ≠ GNew → i = 0%nat.
Proof.
  intros I Hf Hn. destruct i as [|i]; [done|]. exfalso. apply Hn, (i_limit _ _ _ _ _ _ _ _ _ I). destruct (f 0%nat); cbn in *; try done; lia.
Qed.

Context (Hfull : queue_capacity capacity < Zlen (roots (length g))).

Lemma hanging_step s s' : hanging s → dstep nodes fn workers s s' → hanging s'.
Proof.
  pose proof (submit_all_submitted _ _ Hsub) as Hs0. pose proof Hs0 as (Hlen & _).
  intros (a & Hq & I & Hlog & Hle & Hfill) Hs.
  destruct Hs as [m q f b i m' p Hg|m q f b q' Hqs|m q f b i e p q' Hg Hqs|m q f b i ok p q' Hg Hqs|m q f b i r p q' Hg Hqs|m q f b j Hf Hj|m q f b Hf|m q f b Hf Hd|m q f b];
    unfold hanging; cbn [mem ready pcs parent] in *; try (rewrite Hf in Hfill; done).
  - assert (i = 0%nat) as -> by (apply (hanging_others m f b a); [done..|intros E; by rewrite E in Hg]).
    destruct (f 0%nat) as [| | | | | | | | | | | | | | | | | |k|k|k| | |] eqn:Ef; try done. cbn in Hfill. cbn [gstep] in Hg. rewrite Hlen in Hg.
    assert (k < length g)%nat as Hk.
    { pose proof (i_local _ _ _ _ _ _ _ _ _ I 0%nat) as Hl. rewrite Ef in Hl. cbn in Hl. destruct (decide (k = length g)) as [->|]; [|lia].
      rewrite Hfill in Hle. lia. }
    rewrite (proj2 (Nat.ltb_lt _ _)) in Hg by done. injection Hg as <- <-. exists a. split; [done|].
    split; [by apply root_inv|]. split; [done|]. split; [done|]. rewrite fn_lookup_insert.
    assert (deps m k = Zlen (row g (Z.of_nat k))) as ->.
    { rewrite (i_deps _ _ _ _ _ _ (i_mem _ _ _ _ _ _ _ _ _ I)) by done. by rewrite (owed_init g nodes workers). }
    destruct (Z.eqb_spec (Zlen (row g (Z.of_nat k))) 0) as [Hz|Hz]; cbn [filling].
    + split; [done|]. unfold is_root. destruct (row g (Z.of_nat k)); [done|cbn in Hz; lia].
    + rewrite Hfill, roots_S, decide_False; [by rewrite app_nil_r|]. unfold is_root. intros E. by rewrite E in Hz.
  - destruct (q_sim_step _ q a _ q' Hq Hqs) as (a' & Ha & Hq'). exists a'. split; [done|]. split; [by apply (queue_inv g fn workers (queue_capacity capacity) m f b a)|]. split; [done|].
    assert (∀ i x, stat a i = x → x ≠ SIdle → i = 0%nat) as Hi.
    { intros i x <- Hx. apply (hanging_others m f b a); [done..|]. intros E. pose proof (i_compat _ _ _ _ _ _ _ _ _ I i) as Hc. by rewrite E in Hc. }
    inversion Ha as [|l st i v Ei Hlt|l st i v Ei Hf| | |v l st i Ei|l st i Ei He| |]; subst; [..|done];
      (assert (i = 0%nat) as -> by (by eapply (Hi i))); pose proof (i_compat _ _ _ _ _ _ _ _ _ I 0%nat) as Hc; cbn [contents stat] in *; rewrite Ei in Hc;
      destruct (f 0%nat) as [| | | | | | | | | | | | | | | | | |k|k|k| | |]; cbn in Hfill, Hc; try done; try (by destruct Hc as [|[]]);
      destruct Hc as [Hc|[]]; [|done| |done]; injection Hc as ->; destruct Hfill as [Hr [[Hl _]|[_ Hl]]]; [|congruence| |congruence].
    + split; [rewrite length_app; cbn; lia|]. cbn. split; [done|]. right. rewrite fn_lookup_insert, roots_S, decide_True by done. by rewrite Hl.
    + split; [done|]. cbn. split; [done|]. left. by rewrite fn_lookup_insert.
  - assert (i = 0%nat) as -> by (apply (hanging_others m f b a); [done..|intros E; by rewrite E in Hg]).
    destruct (q_sim_step _ q a _ q' Hq Hqs) as (a' & Ha & Hq'). exists a'. split; [done|]. split; [by apply (call_inv g fn workers (queue_capacity capacity) m f b a a' _ _ 0 e p)|].
    split; [done|]. rewrite fn_lookup_insert. destruct (f 0%nat); cbn in Hg, Hfill; try done. injection Hg as <- <-. inversion Ha; subst.
    split; [done|]. destruct Hfill as [H1 H2]. cbn in *. split; [done|]. left. by rewrite fn_lookup_insert.
  - assert (i = 0%nat) as -> by (apply (hanging_others m f b a); [done..|intros E; by rewrite E in Hg]).
    destruct (q_sim_step _ q a _ q' Hq Hqs) as (a' & Ha & Hq'). exists a'. split; [done|]. split; [by apply (ret_enq_inv g fn workers (queue_capacity capacity) m f b a a' _ _ 0 ok p)|].
    split; [done|]. rewrite fn_lookup_insert. destruct (f 0%nat); cbn in Hg, Hfill; try done. injection Hg as <-. inversion Ha; subst; cbn in *.
    split; [done|]. destruct Hfill as [Hr [[Hl Hx]|[Hl Hx]]]; destruct ok; cbn; try split; congruence.
  - assert (i = 0%nat) as -> by (apply (hanging_others m f b a); [done..|intros E; by rewrite E in Hg]).
    destruct (f 0%nat); cbn in Hg, Hfill; done.
  - exists a. split; [done|]. split; [by apply (parent_inv g fn workers m f b)|]. done.
Qed.

(** With more tasks without dependencies than the ready queue holds, Run never
    starts a worker: whatever happens, no task is called and Run does not
    return, not even when the context is cancelled. *)
Theorem dag_scheduler_hangs (s : dsys (Q := Q)) :
  dreach nodes fn workers (NewDAGScheduler nodes capacity) s → log (mem s) = [] ∧ (∀ r, pcs s 0%nat ≠ MDone r) ∧ ∀ i, pcs s (S i) = GNew.
Proof.
  intros Hr. assert (hanging s) as (a & _ & I & Hlog & _ & Hfill).
  { induction Hr as [[m q f b] Hr|s s' _ IH Hs]; [|by eapply hanging_step].
    pose proof (submit_all_submitted _ _ Hsub) as Hs0. pose proof (run_inv g nodes fn workers Hs0 Hsz Hw m q f b capacity Hr) as I.
    injection Hr as <- <- <- <-. exists spec_init. split; [by apply clamped_init|]. split; [done|]. split; [done|]. cbn.
    assert (0 < queue_capacity capacity) as Hpos by (pose proof (queue_capacity_pos capacity Hcap); lia).
    split; [lia|]. destruct nodes as [|nd nds]; [|done]. destruct Hs0 as [Hlen _]. destruct g; [|done]. unfold roots in Hfull. cbn in Hfull. lia. }
  split; [done|]. split; [intros r E; by rewrite E in Hfill|]. intros i. apply (i_limit _ _ _ _ _ _ _ _ _ I).
  destruct (pcs s 0%nat); cbn in *; try done; lia.
Qed.
End results.

(** ** Runs over the ring of intqueue.go, by a schedule

    [None] cancels the caller's context, [Some i] lets goroutine [i] move. *)
#[local] Instance index_queue : BoundedQueue nat (sys (V := nat)) := ring_queue 0%nat false.
Section schedule.
Context (nodes : list dagNode) (fn : nat → option string) (workers : nat).
Local Abbreviation dstate := (dsys (Q := sys (V := nat))).

Definition queue_turn (i : nat) (q : sys (V := nat)) : option (option (event (V := nat)) * sys) :=
  if tail (queue q) + cap (queue q) + 1 <? 2 ^ 64 then
    match threads q i with
    | EnqDone _ | DeqDone _ => act 0%nat false (ARet i) q
    | _ => act 0%nat false (ARun i) q
    end
  else None.

Definition call_turn (e : event (V := nat)) (q : sys (V := nat)) : option sys :=
  if tail (queue q) + cap (queue q) + 1 <? 2 ^ 64 then
    match e with
    | CallEnq i v => match threads q i with RingQueue.Idle => Some (mk_sys (queue q) (<[i := EnqTail v]> (threads q))) | _ => None end
    | CallDeq i => match threads q i with RingQueue.Idle => Some (mk_sys (queue q) (<[i := DeqHead]> (threads q))) | _ => None end
    | _ => None
    end
  else None.

Definition main_turn (s : dstate) : option dstate :=
  let '(mk_dsys m q f b) := s in
  match f 0%nat with
  | MSpawn j =>
      if (j <? workers)%nat then Some (mk_dsys m q (<[S j := GTop]> (<[0%nat := MSpawn (S j)]> f)) b)
      else if (j =? workers)%nat then Some (mk_dsys m q (<[0%nat := MWait]> f) b) else None
  | MWait =>
      if forallb (λ j, match f (S j) with GDone => true | _ => false end) (List.seq 0 workers)
      then Some (mk_dsys m q (<[0%nat := MDone (err m)]> f) b) else None
  | _ => None
  end.

Definition turn (o : option nat) (s : dstate) : option dstate :=
  let '(mk_dsys m q f b) := s in
  match o with
  | None => Some (mk_dsys (cancel m) q f true)
  | Some i =>
      match gstep nodes fn m (f i), gcall (f i) i with
      | Some (m', p), _ => Some (mk_dsys m' q (<[i := p]> f) b)
      | None, Some (e, p) => match call_turn e q with Some q' => Some (mk_dsys m q' (<[i := p]> f) b) | None => None end
      | None, None =>
          match queue_turn i q with
          | Some (None, q') => Some (mk_dsys m q' f b)
          | Some (Some (RetEnq j ok), q') =>
              match gret_enq (f j) ok with Some p => Some (mk_dsys m q' (<[j := p]> f) b) | None => None end
          | Some (Some (RetDeq j r), q') =>
              match gret_deq (f j) r with Some p => Some (mk_dsys m q' (<[j := p]> f) b) | None => None end
          | _ => main_turn s
          end
      end
  end.

(** A goroutine that cannot move is skipped. *)
Definition turns (l : list (option nat)) (s : dstate) : dstate :=
  foldl (λ s o, default s (turn o s)) s l.

Lemma queue_turn_step i q e q' : queue_turn i q = Some (e, q') → q_step q e q'.
Proof.
  unfold queue_turn. destruct (Z.ltb_spec (tail (queue q) + cap (queue q) + 1) (2 ^ 64)); [|done].
  intros H0. split; [done|]. destruct (threads q i); by eapply ring_act_step.
Qed.

Lemma call_turn_step e q q' : call_turn e q = Some q' → q_step q (Some e) q'.
Proof.
  unfold call_turn. destruct (Z.ltb_spec (tail (queue q) + cap (queue q) + 1) (2 ^ 64)); [|done].
  intros H0. split; [done|]. destruct q as [r t]. destruct e; cbn in *; try done; destruct (t i) eqn:E; try done; injection H0 as <-; by constructor.
Qed.

Lemma main_turn_step s s' : main_turn s = Some s' → dstep nodes fn workers s s'.
Proof.
  destruct s as [m q f b]. unfold main_turn. destruct (f 0%nat) eqn:E; try done.
  - destruct (Nat.ltb_spec j workers); [intros [= <-]; by constructor|]. destruct (Nat.eqb_spec j workers) as [->|]; [|done].
    intros [= <-]. by constructor.
  - destruct (forallb _ _) eqn:Ef; [|done]. intros [= <-]. constructor; [done|]. intros j Hj. rewrite List.forallb_forall in Ef.
    specialize (Ef j ltac:(apply List.in_seq; lia)). by destruct (f (S j)).
Qed.

Lemma turn_step o s s' : turn o s = Some s' → dstep nodes fn workers s s'.
Proof.
  intros H. pose proof (main_turn_step s s') as Hm. destruct s as [m q f b]. destruct o as [i|]; cbn [turn] in H; [|injection H as <-; constructor].
  destruct (gstep nodes fn m (f i)) as [[m' p]|] eqn:Eg; [injection H as <-; by constructor|].
  destruct (gcall (f i) i) as [[e p]|] eqn:Ec.
  - destruct (call_turn e q) as [q'|] eqn:Eq; [|done]. injection H as <-. eapply d_call; [done|by apply call_turn_step].
  - destruct (queue_turn i q) as [[[[j v|j ok|j|j r]|] q']|] eqn:Eq; try by apply Hm.
    + destruct (gret_enq (f j) ok) eqn:Er; [|done]. injection H as <-. eapply d_ret_enq; [done|by apply (queue_turn_step i)].
    + destruct (gret_deq (f j) r) eqn:Er; [|done]. injection H as <-. eapply d_ret_deq; [done|by apply (queue_turn_step i)].
    + injection H as <-. apply d_queue. by apply (queue_turn_step i).
Qed.

Lemma turns_reach d l s : dreach nodes fn workers d s → dreach nodes fn workers d (turns l s).
Proof.
  revert s. induction l as [|o l IH]; intros s Hs; [done|]. cbn. apply IH.
  destruct (turn o s) as [s1|] eqn:E; [|done]. eapply dreach_step; [done|by apply (turn_step o)].
Qed.
End schedule.

(** Three tasks, the last after the others, and two workers. *)
Definition example_graph : graph := [[]; []; [0; 1]].
Definition example_nodes : list dagNode := [mk_node 0 [2%nat]; mk_node 0 [2%nat]; mk_node 2 []].
Definition only (k i : nat) : list (option nat) := replicate k (Some i).
Definition started_run (capacity : Z) : dsys (Q := sys (V := nat)) :=
  mk_dsys (mk_shared (λ i, node_deps (default (mk_node 0 []) (example_nodes !! i))) 3 None ONot false [])
    (init 0%nat capacity) (λ i, match i with O => MRoot 0 | S _ => GNew end) false.

Lemma started_reach fn capacity : 1 ≤ capacity →
  dreach example_nodes fn 2 (NewDAGScheduler example_nodes capacity) (started_run capacity).
Proof. intros H. constructor. unfold Run, NewDAGScheduler. by rewrite (proj2 (Z.ltb_ge _ _)) by lia. Qed.

(** The caller starts the workers, which move in turn. *)
Definition fair_schedule : list (option nat) := only 40 0 ++ concat (replicate 60 [Some 1%nat; Some 2%nat]) ++ only 1 0.
Definition fair_run : dsys := turns example_nodes (λ _, None) 2 fair_schedule (started_run 3).

Lemma dag_scheduler_order_witness :
  log (mem fair_run) = [Started 0; Succeeded 0; Started 1; Succeeded 1; Started 2; Succeeded 2] ∧
  (∀ l1 n l2, log (mem fair_run) = l1 ++ Started n :: l2 →
     (Started n ∉ l1) ∧ ∀ dep, dep ∈ row example_graph (Z.of_nat n) → Succeeded (Z.to_nat dep) ∈ l1).
Proof.
  split; [vm_compute; reflexivity|].
  apply (dag_scheduler_order example_graph example_nodes (λ _, None) 2 3 ltac:(vm_compute; reflexivity)
    ltac:(repeat constructor) ltac:(vm_compute; reflexivity) ltac:(lia) ltac:(lia) fair_run).
  by apply turns_reach, started_reach.
Defined.

(** The second task fails. *)
Definition failing (n : nat) : option string := if (n =? 1)%nat then Some "exit status 1" else None.
Definition failed_run : dsys := turns example_nodes failing 2 fair_schedule (started_run 3).

Lemma dag_scheduler_result_witness :
  pcs failed_run 0%nat = MDone (Some "exit status 1") ∧
  ∃ n, failing n = Some "exit status 1" ∧ Failed n "exit status 1" ∈ log (mem failed_run).
Proof.
  assert (pcs failed_run 0%nat = MDone (Some "exit status 1")) as E by (vm_compute; reflexivity). split; [exact E|].
  apply (dag_scheduler_result example_graph example_nodes failing 2 3 ltac:(vm_compute; reflexivity)
    ltac:(repeat constructor) ltac:(vm_compute; reflexivity) ltac:(lia) ltac:(lia) failed_run (Some "exit status 1")); [|exact E].
  by apply turns_reach, started_reach.
Defined.

(** The context is cancelled before the workers look at it: Run returns nil
    although no task was called. *)
Lemma cancelled_run_returns_nil :
  ∃ s, dreach example_nodes (λ _, None) 2 (NewDAGScheduler example_nodes 3) s ∧ pcs s 0%nat = MDone None ∧ log (mem s) = [].
Proof.
  exists (turns example_nodes (λ _, None) 2 (None :: only 40 0 ++ only 3 1 ++ only 3 2 ++ only 1 0) (started_run 3)).
  split; [by apply turns_reach, started_reach|]. split; vm_compute; reflexivity.
Qed.

(** Run again: the counters stand at zero, so all three tasks are roots, and the
    last one is called although the second has not been. *)
Definition second_run : dsys := default fair_run (match Run example_nodes false (left_by fair_run) with Ok s => Some s | _ => None end).

Lemma second_run_ignores_dependencies :
  pcs fair_run 0%nat = MDone None ∧
  ∃ s, dreach example_nodes (λ _, None) 2 (left_by fair_run) s ∧
    log (mem s) = [Started 0; Succeeded 0; Started 2; Succeeded 2].
Proof.
  split; [vm_compute; reflexivity|].
  exists (turns example_nodes (λ _, None) 2 (only 80 0 ++ only 12 1 ++ only 6 2 ++ only 16 1) second_run).
  split; [apply turns_reach; by constructor|]. vm_compute; reflexivity.
Qed.

(** After a Run that failed, the next one returns the old error and calls
    nothing, whatever the tasks do now. *)
Lemma second_run_keeps_error :
  ∃ s, dreach example_nodes (λ _, None) 2 (left_by failed_run) s ∧
    pcs s 0%nat = MDone (Some "exit status 1") ∧ log (mem s) = [].
Proof.
  exists (turns example_nodes (λ _, None) 2 fair_schedule (default failed_run (match Run example_nodes false (left_by failed_run) with Ok s => Some s | _ => None end))).
  split; [apply turns_reach; by constructor|]. split; vm_compute; reflexivity.
Qed.

(** Three independent tasks in a scheduler made for one: its queue holds two. *)
Definition wide_nodes : list dagNode := replicate 3 (mk_node 0 []).
Definition wide_run : dsys (Q := sys (V := nat)) :=
  mk_dsys (mk_shared (λ i, node_deps (default (mk_node 0 []) (wide_nodes !! i))) 3 None ONot false [])
    (init 0%nat 1) (λ i, match i with O => MRoot 0 | S _ => GNew end) false.

Lemma dag_scheduler_hangs_witness :
  let s := turns wide_nodes (λ _, None) 2 (only 100 0) wide_run in
  pcs s 0%nat = MEnqWait 2 ∧ log (mem s) = [] ∧ (∀ r, pcs s 0%nat ≠ MDone r) ∧ ∀ i, pcs s (S i) = GNew.
Proof.
  intros s. split; [vm_compute; reflexivity|].
  apply (dag_scheduler_hangs [[]; []; []] wide_nodes (λ _, None) 2 1 ltac:(vm_compute; reflexivity)
    ltac:(repeat constructor) ltac:(vm_compute; reflexivity) ltac:(lia) ltac:(lia) ltac:(vm_compute; reflexivity) s).
  apply turns_reach. by constructor.
Defined.
