(* ===== verification/MpscQueue.v ===== *)
(** * Drivers: the growing queue (drivers/chan/mpsc.go)

    Every operation runs under the mutex, so it is a function on the state. *)
From stdpp Require Import list.
From S2P Require Import Prelude.

(** The loop of NewMPSC and NewSPSC: the capacity is doubled, in 64 bits, until
    it reaches the wish. *)
Fixpoint cap_loop (fuel : nat) (cap want : Z) : option Z :=
  match fuel with
  | O => None
  | S k => if cap <? want then cap_loop k (u64 (Z.shiftl cap 1)) want else Some cap
  end.

Lemma cap_loop_terminates want :
  want ≤ 2 ^ 63 → ∃ k, 0 ≤ k ≤ 63 ∧ cap_loop 65 1 want = Some (2 ^ k) ∧ want ≤ 2 ^ k ∧ (k = 0 ∨ 2 ^ k < 2 * want).
Proof.
  intros Hw. assert (∀ n k, (0 ≤ k) → k + Z.of_nat n = 63 → k = 0 ∨ 2 ^ k < 2 * want →
    ∃ k', k ≤ k' ≤ 63 ∧ cap_loop (S (S n)) (2 ^ k) want = Some (2 ^ k') ∧ want ≤ 2 ^ k' ∧ (k' = 0 ∨ 2 ^ k' < 2 * want)) as H.
  { induction n as [|n IH]; intros k Hk Hn Hb.
    - assert (k = 63) as -> by lia. exists 63. split; [lia|]. split; [|by split].
      cbn [cap_loop]. rewrite (proj2 (Z.ltb_ge _ _)) by done. done.
    - rewrite (eq_refl : cap_loop (S (S (S n))) (2 ^ k) want =
        if 2 ^ k <? want then cap_loop (S (S n)) (u64 (Z.shiftl (2 ^ k) 1)) want else Some (2 ^ k)).
      destruct (Z.ltb_spec (2 ^ k) want) as [Hlt|Hge].
      + rewrite Z.shiftl_mul_pow2 by lia. change (2 ^ 1) with 2. rewrite Z.mul_comm, <- Z.pow_succ_r by lia.
        rewrite wrap_small by (split; [lia|apply Z.pow_lt_mono_r; lia]).
        destruct (IH (Z.succ k)) as (k' & Hk' & H1 & H2); [lia|lia|right; rewrite Z.pow_succ_r; lia|]. exists k'. split; [lia|done].
      + exists k. split; [lia|done]. }
  apply (H 63%nat 0); [lia|lia|by left].
Qed.

(** Above 2^63, and so for every negative argument, the capacity wraps to zero
    and the loop does not end. *)
Lemma cap_loop_diverges fuel want : 2 ^ 63 < want < 2 ^ 64 → cap_loop fuel 1 want = None.
Proof.
  intros Hw. assert (∀ fuel, cap_loop fuel 0 want = None) as H0.
  { clear fuel. induction fuel as [|n IH]; cbn [cap_loop]; [done|]. by rewrite (proj2 (Z.ltb_lt _ _)) by lia. }
  assert (∀ fuel k, 0 ≤ k ≤ 63 → cap_loop fuel (2 ^ k) want = None) as H.
  { clear fuel. induction fuel as [|n IH]; intros k Hk; cbn [cap_loop]; [done|].
    assert (2 ^ k ≤ 2 ^ 63) by (apply Z.pow_le_mono_r; lia). rewrite (proj2 (Z.ltb_lt _ _)) by lia.
    rewrite Z.shiftl_mul_pow2 by lia. change (2 ^ 1) with 2. rewrite Z.mul_comm, <- Z.pow_succ_r by lia.
    destruct (decide (k = 63)) as [->|]; [apply H0|].
    rewrite wrap_small by (split; [lia|apply Z.pow_lt_mono_r; lia]). apply IH. lia. }
  apply (H fuel 0). lia.
Qed.

Section mpsc.
Context {V : Type} (nil : V).

Record MPSC : Type := mk_mpsc { head : Z; tail : Z; slots : list V }.

Definition NewMPSC (capPow2 : Z) : option MPSC :=
  match cap_loop 65 1 (u64 capPow2) with
  | Some cap => Some (mk_mpsc 0 0 (replicate (Z.to_nat cap) nil))
  | None => None
  end.

Definition at_index (l : list V) (i : Z) : outcome V :=
  match l !! Z.to_nat i with Some v => Ok v | None => Panic end.
Definition set_index (l : list V) (i : Z) (v : V) : outcome (list V) :=
  if i <? Zlen l then Ok (<[Z.to_nat i := v]> l) else Panic.

(** The loop of grow, over the [n] indices from [index]. *)
Fixpoint grow_loop (n : nat) (q : MPSC) (oldSize index : Z) (new : list V) : outcome (list V) :=
  match n with
  | O => Ok new
  | S k => v ← at_index (slots q) (index mod oldSize); new' ← set_index new (index - head q) v; grow_loop k q oldSize (index + 1) new'
  end.

Definition grow (q : MPSC) : outcome MPSC :=
  let oldSize := Zlen (slots q) in
  new ← grow_loop (Z.to_nat (tail q - head q)) q oldSize (head q) (replicate (Z.to_nat (oldSize * 2)) nil);
  Ok (mk_mpsc 0 (tail q - head q) new).

(** [None] is the nil receiver. *)
Definition Enqueue (q : option MPSC) (v : V) : outcome (bool * option MPSC) :=
  match q with
  | None => Ok (false, None)
  | Some q =>
      q ← (if u64 (tail q - head q) =? Zlen (slots q) then grow q else Ok q);
      s ← set_index (slots q) (tail q mod Zlen (slots q)) v;
      Ok (true, Some (mk_mpsc (head q) (u64 (tail q + 1)) s))
  end.

Definition Dequeue (q : option MPSC) : outcome (option V * option MPSC) :=
  match q with
  | None => Ok (None, None)
  | Some q =>
      if head q =? tail q then Ok (None, Some q)
      else
        let index := head q mod Zlen (slots q) in
        v ← at_index (slots q) index; s ← set_index (slots q) index nil;
        Ok (Some v, Some (mk_mpsc (u64 (head q + 1)) (tail q) s))
  end.

(** ** The queue a state represents *)
Record represents (q : MPSC) (l : list V) : Prop := {
  r_bounds : 0 ≤ head q ∧ head q ≤ tail q ∧ tail q < 2 ^ 64;
  r_size : 0 < Zlen (slots q) < 2 ^ 64 ∧ Zlen l ≤ Zlen (slots q);
  r_length : Zlen l = tail q - head q;
  r_slots : ∀ i v, l !! i = Some v → slots q !! Z.to_nat ((head q + Z.of_nat i) mod Zlen (slots q)) = Some v
}.

Lemma mod_index n i : 0 < n → (Z.to_nat (i mod n) < Z.to_nat n)%nat.
Proof. intros Hn. pose proof (Z.mod_pos_bound i n Hn). lia. Qed.

(** Different positions of the queue are in different slots. *)
Lemma mod_inj h n i j : 0 < n → 0 ≤ i < n → 0 ≤ j < n → (h + i) mod n = (h + j) mod n → i = j.
Proof.
  intros Hn Hi Hj E. pose proof (Z.div_mod (h + i) n ltac:(lia)). pose proof (Z.div_mod (h + j) n ltac:(lia)).
  destruct (Z.lt_trichotomy ((h + i) / n) ((h + j) / n)) as [|[|]]; nia.
Qed.

Lemma at_index_Ok l i v : l !! Z.to_nat i = Some v → at_index l i = Ok v.
Proof. unfold at_index. by intros ->. Qed.

Lemma set_index_Ok l i v : i < Zlen l → set_index l i v = Ok (<[Z.to_nat i := v]> l).
Proof. intros Hi. unfold set_index. by rewrite (proj2 (Z.ltb_lt _ _)). Qed.

Lemma grow_loop_spec q l done rest k :
  represents q l → l = done ++ rest → (length l ≤ k)%nat →
  grow_loop (length rest) q (Zlen (slots q)) (head q + Zlen done) (done ++ replicate (k - length done) nil) =
    Ok (l ++ replicate (k - length l) nil).
Proof.
  intros Hr. pose proof (r_size _ _ Hr) as [Hsz _]. revert done. induction rest as [|v rest IH]; intros done Hl Hk; cbn [grow_loop length].
  - by rewrite Hl, app_nil_r.
  - assert (length l = length done + S (length rest))%nat as Hlen by (rewrite Hl, length_app; done).
    assert (l !! length done = Some v) as Hv by (rewrite Hl; by apply list_lookup_middle).
    rewrite (at_index_Ok _ _ v) by by apply (r_slots _ _ Hr). cbn.
    rewrite set_index_Ok by (rewrite length_app, length_replicate; lia). cbn.
    replace (Z.to_nat (head q + Zlen done - head q)) with (length done) by lia.
    rewrite insert_app_r_alt, Nat.sub_diag by lia. destruct (k - length done)%nat as [|r] eqn:Er; [lia|]. cbn.
    replace (head q + Zlen done + 1) with (head q + Zlen (done ++ [v])) by (rewrite length_app; cbn; lia).
    change (v :: replicate r nil) with ([v] ++ replicate r nil). rewrite app_assoc.
    replace r with (k - length (done ++ [v]))%nat by (rewrite length_app; cbn; lia).
    apply IH; [by rewrite <- app_assoc|done].
Qed.

Lemma grow_spec q l :
  represents q l → Zlen (slots q) * 2 < 2 ^ 64 →
  ∃ q', grow q = Ok q' ∧ represents q' l ∧ Zlen l < Zlen (slots q').
Proof.
  intros Hr Hsz. pose proof (r_size _ _ Hr) as [H1 H2]. pose proof (r_length _ _ Hr) as H3. pose proof (r_bounds _ _ Hr) as H4.
  pose proof (grow_loop_spec q l [] l (Z.to_nat (Zlen (slots q) * 2)) Hr eq_refl ltac:(lia)) as Hg. cbn [length app] in Hg.
  rewrite Z.add_0_r, Nat.sub_0_r in Hg. unfold grow. replace (Z.to_nat (tail q - head q)) with (length l) by lia. rewrite Hg. cbn.
  eexists. split; [done|].
  assert (Zlen (l ++ replicate (Z.to_nat (Zlen (slots q) * 2) - length l) nil) = Zlen (slots q) * 2) as Hn by (rewrite length_app, length_replicate; lia).
  split; [|cbn; lia]. constructor; cbn [head tail slots]; rewrite ?Hn; [lia..|].
  intros i v Hi. rewrite Z.add_0_l, Z.mod_small by (apply lookup_lt_Some in Hi; lia). rewrite Nat2Z.id. by apply lookup_app_l_Some.
Qed.

Lemma Enqueue_spec q l v :
  represents q l → tail q + 1 < 2 ^ 64 → Zlen (slots q) * 2 < 2 ^ 64 →
  ∃ q', Enqueue (Some q) v = Ok (true, Some q') ∧ represents q' (l ++ [v]) ∧ Zlen (slots q') ≤ Z.max (Zlen (slots q)) (2 * Zlen l) ∧
    tail q' ≤ tail q + 1.
Proof.
  intros Hr Ht Hsz. pose proof (r_bounds _ _ Hr). pose proof (r_length _ _ Hr).
  assert (∃ q1, (if u64 (tail q - head q) =? Zlen (slots q) then grow q else Ok q) = Ok q1 ∧ represents q1 l ∧ Zlen l < Zlen (slots q1) ∧
    Zlen (slots q1) ≤ Z.max (Zlen (slots q)) (2 * Zlen l) ∧ tail q1 ≤ tail q) as (q1 & E & Hr1 & Hlt & Hle & Htl).
  { rewrite wrap_small by (unfold is_word; lia). pose proof (r_size _ _ Hr). destruct (Z.eqb_spec (tail q - head q) (Zlen (slots q))).
    - destruct (grow_spec q l Hr Hsz) as (q1 & E & Hr1 & Hlt). exists q1. split_and!; try done.
      + pose proof E as E'. unfold grow in E'. apply bind_Ok in E' as (new & Hnew & [= <-]). cbn.
        pose proof (grow_loop_spec q l [] l (Z.to_nat (Zlen (slots q) * 2)) Hr eq_refl ltac:(lia)) as Hg. cbn [length app] in Hg.
        rewrite Z.add_0_r, Nat.sub_0_r in Hg. replace (Z.to_nat (tail q - head q)) with (length l) in Hnew by lia. rewrite Hg in Hnew.
        injection Hnew as <-. rewrite length_app, length_replicate. lia.
      + pose proof (r_length _ _ Hr1). unfold grow in E. apply bind_Ok in E as (new & Hnew & [= <-]). cbn. lia.
    - exists q. split_and!; try done; lia. }
  pose proof (r_bounds _ _ Hr1). pose proof (r_length _ _ Hr1). pose proof (r_size _ _ Hr1) as [Hs1 _].
  unfold Enqueue. rewrite E. cbn. rewrite set_index_Ok by (pose proof (Z.mod_pos_bound (tail q1) (Zlen (slots q1)) ltac:(lia)); lia). cbn.
  eexists. split; [done|]. rewrite wrap_small by (unfold is_word; lia). cbn [slots tail]. rewrite length_insert. split; [|lia].
  constructor; cbn [head tail slots]; rewrite ?length_insert, ?length_app; cbn [length]; [lia..|].
  intros i w Hi. apply lookup_app_Some in Hi as [Hi|[Hge Hi]].
  - rewrite list_lookup_insert_ne; [by apply Hr1|]. intros Heq. apply lookup_lt_Some in Hi.
    assert (Z.of_nat i = tail q1 - head q1); [|lia]. apply (mod_inj (head q1) (Zlen (slots q1))); [lia..|].
    replace (head q1 + (tail q1 - head q1)) with (tail q1) by lia.
    pose proof (Z.mod_pos_bound (tail q1) (Zlen (slots q1)) ltac:(lia)). pose proof (Z.mod_pos_bound (head q1 + Z.of_nat i) (Zlen (slots q1)) ltac:(lia)). lia.
  - apply list_lookup_singleton_Some in Hi as [Hi <-]. replace (head q1 + Z.of_nat i) with (tail q1) by lia.
    apply list_lookup_insert_eq. pose proof (mod_index (Zlen (slots q1)) (tail q1) ltac:(lia)). lia.
Qed.

Lemma Dequeue_spec q l :
  represents q l →
  ∃ q', Dequeue (Some q) = Ok (hd_error l, Some q') ∧ represents q' (List.tl l) ∧ Zlen (slots q') = Zlen (slots q) ∧ tail q' = tail q.
Proof.
  intros Hr. pose proof (r_bounds _ _ Hr). pose proof (r_length _ _ Hr). pose proof (r_size _ _ Hr) as [Hs Hle]. unfold Dequeue.
  destruct (Z.eqb_spec (head q) (tail q)) as [E|E].
  - destruct l; [|cbn in *; lia]. by exists q.
  - destruct l as [|v l]; [cbn in *; lia|]. pose proof (r_slots _ _ Hr 0%nat v eq_refl) as Hv. rewrite Z.add_0_r in Hv.
    rewrite (at_index_Ok _ _ v) by done. cbn. rewrite set_index_Ok by (pose proof (Z.mod_pos_bound (head q) (Zlen (slots q)) ltac:(lia)); lia). cbn.
    eexists. split; [done|]. cbn [slots tail]. rewrite length_insert. split; [|done]. rewrite wrap_small by (unfold is_word; lia).
    cbn [length] in *. constructor; cbn [head tail slots]; rewrite ?length_insert; [lia..|].
    intros i w Hi. pose proof (lookup_lt_Some _ _ _ Hi) as Hlt. pose proof (r_slots _ _ Hr (S i) w Hi) as Hw.
    replace (head q + 1 + Z.of_nat i) with (head q + Z.of_nat (S i)) by lia.
    rewrite list_lookup_insert_ne; [done|]. intros Heq.
    assert (0 = Z.of_nat (S i)); [|lia]. apply (mod_inj (head q) (Zlen (slots q))); [lia..|]. rewrite Z.add_0_r.
    pose proof (Z.mod_pos_bound (head q) (Zlen (slots q)) ltac:(lia)). pose proof (Z.mod_pos_bound (head q + Z.of_nat (S i)) (Zlen (slots q)) ltac:(lia)). lia.
Qed.

(** ** Sequences of operations *)
Inductive op : Type := Put (v : V) | Take.
Inductive result : Type := Accepted (b : bool) | Got (r : option V).

Definition run_op (q : option MPSC) (o : op) : outcome (result * option MPSC) :=
  match o with
  | Put v => r ← Enqueue q v; Ok (Accepted r.1, r.2)
  | Take => r ← Dequeue q; Ok (Got r.1, r.2)
  end.

Fixpoint run_ops (q : option MPSC) (ops : list op) : outcome (list result) :=
  match ops with
  | [] => Ok []
  | o :: ops => r ← run_op q o; rs ← run_ops r.2 ops; Ok (r.1 :: rs)
  end.

(** The unbounded first-in first-out queue. *)
Fixpoint list_ops (l : list V) (ops : list op) : list result :=
  match ops with
  | [] => []
  | Put v :: ops => Accepted true :: list_ops (l ++ [v]) ops
  | Take :: ops => Got (hd_error l) :: list_ops (List.tl l) ops
  end.

Lemma run_ops_represents q l ops :
  represents q l → tail q + Zlen ops < 2 ^ 64 → Zlen (slots q) ≤ 2 ^ 62 → Zlen l + Zlen ops < 2 ^ 61 →
  run_ops (Some q) ops = Ok (list_ops l ops).
Proof.
  revert q l. induction ops as [|o ops IH]; intros q l Hr Ht Hs Hl; [done|]. cbn [run_ops list_ops length] in *. destruct o as [v|]; cbn [run_op].
  - destruct (Enqueue_spec q l v Hr ltac:(lia) ltac:(lia)) as (q' & E & Hr' & H1 & H2). rewrite E. cbn.
    rewrite (IH q' (l ++ [v])); [done|done|lia|lia|]. rewrite length_app. cbn. lia.
  - destruct (Dequeue_spec q l Hr) as (q' & E & Hr' & H1 & H2). rewrite E. cbn. rewrite (IH q' (List.tl l)); [done|done|lia|lia|].
    destruct l; cbn in *; lia.
Qed.

Lemma NewMPSC_represents capPow2 :
  0 ≤ capPow2 ≤ 2 ^ 62 → ∃ q, NewMPSC capPow2 = Some q ∧ represents q [] ∧ tail q = 0 ∧ Zlen (slots q) ≤ 2 ^ 62.
Proof.
  intros Hc. unfold NewMPSC. rewrite wrap_small by (unfold is_word; lia).
  destruct (cap_loop_terminates capPow2 ltac:(lia)) as (k & Hk & -> & _ & Hb). eexists. split; [done|].
  assert (0 < 2 ^ k) by (apply Z.pow_pos_nonneg; lia).
  assert (2 ^ k ≤ 2 ^ 62). { apply Z.pow_le_mono_r; [lia|]. destruct Hb as [->|Hb]; [lia|]. assert (2 ^ k < 2 ^ 63) as H63%Z.pow_lt_mono_r_iff by lia; lia. }
  cbn [slots tail]. rewrite length_replicate. split; [|lia].
  constructor; cbn [head tail slots]; rewrite ?length_replicate; cbn [length]; [lia..|]. by intros i v.
Qed.

(** The growing queue is an unbounded first-in first-out queue: whatever the
    initial capacity, every sequence of operations gives the results it gives on
    a list, no operation refuses, blocks or panics. *)
Theorem mpsc_is_queue capPow2 ops :
  0 ≤ capPow2 ≤ 2 ^ 62 → Zlen ops < 2 ^ 61 →
  ∃ q, NewMPSC capPow2 = Some q ∧ run_ops (Some q) ops = Ok (list_ops [] ops).
Proof.
  intros Hc Hn. destruct (NewMPSC_represents capPow2 Hc) as (q & E & Hr & Ht & Hs). exists q. split; [done|].
  apply run_ops_represents; [done|lia|done|cbn [length]; lia].
Qed.

(** A negative capacity is never reached. *)
Lemma NewMPSC_negative capPow2 : - 2 ^ 63 < capPow2 < 0 → NewMPSC capPow2 = None ∧ ∀ fuel, cap_loop fuel 1 (u64 capPow2) = None.
Proof.
  intros Hc. assert (u64 capPow2 = capPow2 + 2 ^ 64) as E.
  { unfold wrap. rewrite <- (Z_mod_plus_full _ 1), Z.mul_1_l. apply Z.mod_small. lia. }
  assert (∀ fuel, cap_loop fuel 1 (u64 capPow2) = None) as H by (intros; apply cap_loop_diverges; lia).
  split; [|done]. unfold NewMPSC. by rewrite H.
Qed.
End mpsc.

Lemma mpsc_is_queue_witness :
  ∃ q, NewMPSC 0 1 = Some q ∧
    run_ops 0 (Some q) [Put 1; Put 2; Take; Put 3; Put 4; Put 5; Take; Take; Take; Take; Take] =
      Ok [Accepted true; Accepted true; Got (Some 1); Accepted true; Accepted true; Accepted true;
          Got (Some 2); Got (Some 3); Got (Some 4); Got (Some 5); Got None].
Proof.
  apply (mpsc_is_queue 0 1 [Put 1; Put 2; Take; Put 3; Put 4; Put 5; Take; Take; Take; Take; Take]); [lia|cbn; lia].
Defined.
