(* ===== verification/SpscQueue.v ===== *)
(** * Drivers: the single-producer single-consumer queue (drivers/chan/spsc.go)

    Values travel in cells that a sync.Pool recycles: the model has the cells in
    a shared store, the pool, and one step per access to shared memory.  The
    queue is shown to be the atomic bounded queue of RingQueue.v. *)
From stdpp Require Import list functions.
From S2P Require Import Prelude RingQueue MpscQueue.

Section spsc.
Context {V : Type}.

Record SPSC : Type := mk_spsc {
  cap : Z; mask : Z; head : Z; tail : Z; slots : list (option nat);
  heap : nat → V; pool : list nat; next : nat }.

Definition NewSPSC (any_v : V) (capPow2 : Z) : option SPSC :=
  match cap_loop 65 1 (u64 capPow2) with
  | Some c => Some (mk_spsc c (c - 1) 0 0 (replicate (Z.to_nat c) None) (λ _, any_v) [] 0)
  | None => None
  end.

Definition set_tail (t : Z) (q : SPSC) : SPSC := mk_spsc (cap q) (mask q) (head q) t (slots q) (heap q) (pool q) (next q).
Definition set_head (h : Z) (q : SPSC) : SPSC := mk_spsc (cap q) (mask q) h (tail q) (slots q) (heap q) (pool q) (next q).
Definition set_slot (i : nat) (p : option nat) (q : SPSC) : SPSC :=
  mk_spsc (cap q) (mask q) (head q) (tail q) (<[i := p]> (slots q)) (heap q) (pool q) (next q).
Definition set_cell (p : nat) (v : V) (q : SPSC) : SPSC :=
  mk_spsc (cap q) (mask q) (head q) (tail q) (slots q) (<[p := v]> (heap q)) (pool q) (next q).
Definition set_pool (l : list nat) (n : nat) (q : SPSC) : SPSC :=
  mk_spsc (cap q) (mask q) (head q) (tail q) (slots q) (heap q) l n.

Definition index (q : SPSC) (t : Z) : nat := Z.to_nat (Z.land t (mask q)).

(** sync.Pool: Get returns a cell that was put back, or makes a new one. *)
Inductive pool_get (q : SPSC) : nat → SPSC → Prop :=
  | get_recycled p l1 l2 : pool q = l1 ++ p :: l2 → pool_get q p (set_pool (l1 ++ l2) (next q) q)
  | get_new : pool_get q (next q) (set_pool (pool q) (S (next q)) q).

(** The producer in Enqueue and the consumer in Dequeue. *)
Inductive ppc : Type :=
  | PIdle | PGet (v : V) | PSet (v : V) (p : nat) | PTail (v : V) (p : nat) | PHead (v : V) (p : nat) (t : Z)
  | PTest (v : V) (p : nat) (t h : Z) | PPut (p : nat) | PStore (v : V) (p : nat) (t : Z) | PPublish (v : V) (p : nat) (t : Z)
  | PDone (ok : bool).

Inductive cpc : Type :=
  | CIdle | CHead | CTail (h : Z) | CTest (h t : Z) | CLoad (h : Z) | CClear (h : Z) (p : nat) | CPublish (h : Z) (p : nat)
  | CRead (p : nat) | CPut (p : nat) (v : V) | CDone (r : option V).

Inductive pstep (q : SPSC) : ppc → SPSC → ppc → Prop :=
  | p_get v p q' : pool_get q p q' → pstep q (PGet v) q' (PSet v p)
  | p_set v p : pstep q (PSet v p) (set_cell p v q) (PTail v p)
  | p_tail v p : pstep q (PTail v p) q (PHead v p (tail q))
  | p_head v p t : pstep q (PHead v p t) q (PTest v p t (head q))
  | p_test v p t h : pstep q (PTest v p t h) q (if u64 (t - h) >=? cap q then PPut p else PStore v p t)
  | p_put p : pstep q (PPut p) (set_pool (p :: pool q) (next q) q) (PDone false)
  | p_store v p t : (index q t < length (slots q))%nat → pstep q (PStore v p t) (set_slot (index q t) (Some p) q) (PPublish v p t)
  | p_publish v p t : pstep q (PPublish v p t) (set_tail (u64 (t + 1)) q) (PDone true).

Inductive cstep (q : SPSC) : cpc → SPSC → cpc → Prop :=
  | c_head : cstep q CHead q (CTail (head q))
  | c_tail h : cstep q (CTail h) q (CTest h (tail q))
  | c_test h t : cstep q (CTest h t) q (if h >=? t then CDone None else CLoad h)
  | c_load h p : slots q !! index q h = Some p →
      cstep q (CLoad h) q (match p with None => CDone None | Some p => CClear h p end)
  | c_clear h p : cstep q (CClear h p) (set_slot (index q h) None q) (CPublish h p)
  | c_publish h p : cstep q (CPublish h p) (set_head (u64 (h + 1)) q) (CRead p)
  | c_read p : cstep q (CRead p) q (CPut p (heap q p))
  | c_put p v : cstep q (CPut p v) (set_pool (p :: pool q) (next q) q) (CDone (Some v)).

Record ssys : Type := mk_ssys { chan : SPSC; prod : ppc; cons : cpc }.

(** Goroutine 0 is the producer, goroutine 1 the consumer. *)
Inductive step : ssys → option (event (V := V)) → ssys → Prop :=
  | s_call_enq q c v : step (mk_ssys q PIdle c) (Some (CallEnq 0 v)) (mk_ssys q (PGet v) c)
  | s_ret_enq q c ok : step (mk_ssys q (PDone ok) c) (Some (RetEnq 0 ok)) (mk_ssys q PIdle c)
  | s_call_deq q p : step (mk_ssys q p CIdle) (Some (CallDeq 1)) (mk_ssys q p CHead)
  | s_ret_deq q p r : step (mk_ssys q p (CDone r)) (Some (RetDeq 1 r)) (mk_ssys q p CIdle)
  | s_prod q p c q' p' : pstep q p q' p' → step (mk_ssys q p c) None (mk_ssys q' p' c)
  | s_cons q p c q' c' : cstep q c q' c' → step (mk_ssys q p c) None (mk_ssys q' p c').

Definition no_wrap (s : ssys) : Prop := tail (chan s) + 1 < 2 ^ 64.

Inductive exec : ssys → list event → ssys → Prop :=
  | exec_nil s : exec s [] s
  | exec_step s1 s2 s3 tr e : exec s1 tr s2 → no_wrap s2 → step s2 e s3 → exec s1 (tr ++ event_list e) s3.

(** ** The invariant

    [ps] are the cells of the queued values. *)
Definition prod_cell (d : ppc) : list nat :=
  match d with PSet _ p | PTail _ p | PHead _ p _ | PTest _ p _ _ | PPut p | PStore _ p _ | PPublish _ p _ => [p] | _ => [] end.
Definition cons_cell (c : cpc) : list nat := match c with CRead p | CPut p _ => [p] | _ => [] end.

Definition publishing (d : ppc) : option nat := match d with PPublish _ p _ => Some p | _ => None end.
Definition cleared (c : cpc) : bool := match c with CPublish _ _ => true | _ => false end.

(** What the [i]-th slot after the head holds. *)
Definition expected (ps : list nat) (d : ppc) (c : cpc) (i : nat) : option nat :=
  match ps !! i with
  | Some p => if (i =? 0)%nat && cleared c then None else Some p
  | None => if (i =? length ps)%nat then publishing d else None
  end.

Definition prod_inv (q : SPSC) (d : ppc) : Prop :=
  match d with
  | PTail v p => heap q p = v
  | PHead v p t => heap q p = v ∧ t = tail q
  | PTest v p t h => heap q p = v ∧ t = tail q ∧ 0 ≤ h ≤ head q ∧ t - h ≤ cap q
  | PStore v p t | PPublish v p t => heap q p = v ∧ t = tail q ∧ tail q < head q + cap q
  | _ => True
  end.

Definition cons_inv (q : SPSC) (ps : list nat) (c : cpc) : Prop :=
  match c with
  | CTail h => h = head q
  | CTest h t => h = head q ∧ t ≤ tail q
  | CLoad h => h = head q ∧ head q < tail q
  | CClear h p | CPublish h p => h = head q ∧ hd_error ps = Some p
  | CPut p v => heap q p = v
  | _ => True
  end.

Record inv (q : SPSC) (d : ppc) (c : cpc) (ps : list nat) (l : list V) : Prop := {
  v_cap : ∃ k, 0 ≤ k ∧ cap q = 2 ^ k ∧ mask q = 2 ^ k - 1 ∧ Zlen (slots q) = 2 ^ k;
  v_order : 0 ≤ head q ∧ head q ≤ tail q ∧ tail q ≤ head q + cap q;
  v_length : Zlen ps = tail q - head q;
  v_values : l = heap q <$> ps;
  v_slots : ∀ i, Z.of_nat i < cap q → slots q !! index q (head q + Z.of_nat i) = Some (expected ps d c i);
  v_cells : NoDup (pool q ++ prod_cell d ++ cons_cell c ++ ps);
  v_next : Forall (λ p, p < next q)%nat (pool q ++ prod_cell d ++ cons_cell c ++ ps);
  v_prod : prod_inv q d;
  v_cons : cons_inv q ps c
}.

Definition abs_prod (q : SPSC) (d : ppc) : status (V := V) :=
  match d with
  | PIdle => SIdle
  | PGet v | PSet v _ | PTail v _ | PHead v _ _ => SEnq v
  | PTest v _ t h => if u64 (t - h) >=? cap q then SEnqDone false else SEnq v
  | PPut _ => SEnqDone false
  | PStore v _ _ | PPublish v _ _ => SEnq v
  | PDone ok => SEnqDone ok
  end.

Definition abs_cons (q : SPSC) (c : cpc) : status (V := V) :=
  match c with
  | CIdle => SIdle
  | CHead | CTail _ => SDeq
  | CTest h t => if h >=? t then SGot None else SDeq
  | CLoad _ | CClear _ _ | CPublish _ _ => SDeq
  | CRead p => SGot (Some (heap q p))
  | CPut _ v => SGot (Some v)
  | CDone r => SGot r
  end.

Definition sim (n : Z) (s : ssys) (a : spec (V := V)) : Prop :=
  ∃ ps l, inv (chan s) (prod s) (cons s) ps l ∧ cap (chan s) = n ∧ contents a = l ∧
    ∀ i, stat a i = match i with O => abs_prod (chan s) (prod s) | S O => abs_cons (chan s) (cons s) | _ => SIdle end.

(** *** Slots *)
Section slots.
Context (q : SPSC) (d : ppc) (c : cpc) (ps : list nat) (l : list V) (I : inv q d c ps l).

Lemma cap_pos : 0 < cap q.
Proof. destruct (v_cap _ _ _ _ _ I) as (k & Hk & -> & _). apply Z.pow_pos_nonneg; lia. Qed.

Lemma index_mod t : index q t = Z.to_nat (t mod cap q).
Proof.
  destruct (v_cap _ _ _ _ _ I) as (k & Hk & -> & Hm & _). unfold index. rewrite Hm, <- Z.land_ones by lia. by rewrite Z.ones_equiv, Z.sub_1_r.
Qed.

Lemma index_lt t : (index q t < length (slots q))%nat.
Proof.
  rewrite index_mod. pose proof cap_pos. destruct (v_cap _ _ _ _ _ I) as (k & _ & Hc & _ & Hl). pose proof (Z.mod_pos_bound t (cap q) ltac:(lia)). lia.
Qed.

Lemma index_ne i j :
  Z.of_nat i < cap q → Z.of_nat j < cap q → i ≠ j → index q (head q + Z.of_nat i) ≠ index q (head q + Z.of_nat j).
Proof.
  intros Hi Hj Hne E. rewrite !index_mod in E. pose proof cap_pos as Hc.
  pose proof (Z.mod_pos_bound (head q + Z.of_nat i) (cap q) Hc). pose proof (Z.mod_pos_bound (head q + Z.of_nat j) (cap q) Hc).
  apply Hne. assert (Z.of_nat i = Z.of_nat j); [|lia]. apply (mod_inj (head q) (cap q)); lia.
Qed.

Lemma index_wrap t : index q (t + cap q) = index q t.
Proof. rewrite !index_mod. pose proof cap_pos. f_equal. rewrite <- (Z.mul_1_l (cap q)) at 1. by rewrite Z_mod_plus_full. Qed.

Lemma length_bound : Zlen ps ≤ cap q.
Proof. pose proof (v_order _ _ _ _ _ I). pose proof (v_length _ _ _ _ _ I). lia. Qed.
End slots.

(** *** Preservation *)
Lemma inv_pc q d c ps l d' c' :
  inv q d c ps l → prod_cell d' = prod_cell d → publishing d' = publishing d → cons_cell c' = cons_cell c → cleared c' = cleared c →
  prod_inv q d' → cons_inv q ps c' → inv q d' c' ps l.
Proof.
  intros [] E1 E2 E3 E4 Hp Hc. constructor; rewrite ?E1, ?E3; try done. intros i Hi. unfold expected. rewrite E2, E4. by apply v_slots0.
Qed.

Lemma inv_pool q d c ps l d' c' L n :
  inv q d c ps l → (next q ≤ n)%nat →
  NoDup (L ++ prod_cell d' ++ cons_cell c' ++ ps) → Forall (λ p, p < n)%nat (L ++ prod_cell d' ++ cons_cell c' ++ ps) →
  publishing d' = publishing d → cleared c' = cleared c → prod_inv (set_pool L n q) d' → cons_inv (set_pool L n q) ps c' →
  inv (set_pool L n q) d' c' ps l.
Proof.
  intros [] Hn H1 H2 E2 E4 Hp Hc. constructor; try done. intros i Hi. unfold expected. rewrite E2, E4. by apply v_slots0.
Qed.

Lemma inv_get q v p q' c ps l : inv q (PGet v) c ps l → pool_get q p q' → inv q' (PSet v p) c ps l.
Proof.
  intros I Hg. pose proof (v_cells _ _ _ _ _ I) as Hnd. pose proof (v_next _ _ _ _ _ I) as Hnx. pose proof (v_cons _ _ _ _ _ I) as Hc.
  cbn in Hnd, Hnx. destruct Hg as [p l1 l2 E|].
  - assert ((l1 ++ l2) ++ p :: cons_cell c ++ ps ≡ₚ pool q ++ cons_cell c ++ ps) as Hperm.
    { rewrite E, <- !app_assoc. apply Permutation_app_head. cbn. symmetry. apply Permutation_middle. }
    apply (inv_pool q (PGet v) c); try done; cbn; by rewrite Hperm.
  - apply (inv_pool q (PGet v) c); try done; [lia|..]; cbn; rewrite <- Permutation_middle.
    + apply NoDup_cons. split; [|done]. intros Hin. rewrite Forall_forall in Hnx. apply Hnx in Hin. lia.
    + constructor; [lia|]. eapply Forall_impl; [exact Hnx|]. cbn. lia.
Qed.

Lemma fmap_insert_ne (h : nat → V) p v (ps : list nat) : p ∉ ps → <[p := v]> h <$> ps = h <$> ps.
Proof. intros Hp. apply list_fmap_ext. intros i x Hx. rewrite fn_lookup_insert_ne; [done|]. intros ->. by apply list_elem_of_lookup_2 in Hx. Qed.

Lemma inv_set q v p c ps l : inv q (PSet v p) c ps l → inv (set_cell p v q) (PTail v p) c ps l ∧ p ∉ cons_cell c.
Proof.
  intros I. pose proof (v_cells _ _ _ _ _ I) as Hnd. cbn in Hnd. rewrite <- Permutation_middle in Hnd. apply NoDup_cons in Hnd as [Hp Hnd].
  rewrite !elem_of_app in Hp. assert (p ∉ cons_cell c) as Hpc by tauto. assert (p ∉ ps) as Hps by tauto. split; [|done].
  destruct I. constructor; cbn [set_cell cap mask head tail slots heap pool next]; try done.
  - by rewrite fmap_insert_ne.
  - cbn. by rewrite fn_lookup_insert.
  - destruct c; cbn in *; try done. rewrite fn_lookup_insert_ne; [done|]. intros <-. apply Hpc. by left.
Qed.

Lemma inv_put q p c ps l : inv q (PPut p) c ps l → inv (set_pool (p :: pool q) (next q) q) (PDone false) c ps l.
Proof.
  intros I. pose proof (v_cells _ _ _ _ _ I) as Hnd. pose proof (v_next _ _ _ _ _ I) as Hnx. pose proof (v_cons _ _ _ _ _ I) as Hc. cbn in Hnd, Hnx.
  rewrite <- Permutation_middle in Hnd, Hnx. by apply (inv_pool q (PPut p) c).
Qed.

Lemma spsc_store q v p t c ps l :
  inv q (PStore v p t) c ps l → inv (set_slot (index q t) (Some p) q) (PPublish v p t) c ps l.
Proof.
  intros I. destruct (v_prod _ _ _ _ _ I) as (Hv & -> & Ht). pose proof (index_ne _ _ _ _ _ I) as Hne. pose proof (index_lt _ _ _ _ _ I (tail q)) as Hlt.
  pose proof (v_length _ _ _ _ _ I) as Hlen. destruct I. constructor; cbn [set_slot cap mask head tail slots heap pool next]; rewrite ?length_insert; try done.
  intros i Hi. change (index (set_slot (index q (tail q)) (Some p) q)) with (index q).
  replace (tail q) with (head q + Z.of_nat (length ps)) in * by lia. destruct (decide (i = length ps)) as [->|Hd].
  - rewrite list_lookup_insert_eq by done. unfold expected. rewrite lookup_ge_None_2 by lia. by rewrite Nat.eqb_refl.
  - rewrite list_lookup_insert_ne by (apply Hne; lia). rewrite v_slots0 by done. unfold expected. destruct (ps !! i); [done|].
    by rewrite (proj2 (Nat.eqb_neq _ _)).
Qed.

Lemma inv_publish q v p t c ps l :
  inv q (PPublish v p t) c ps l → inv (set_tail (t + 1) q) (PDone true) c (ps ++ [p]) (l ++ [v]) ∧ Zlen l < cap q.
Proof.
  intros I. destruct (v_prod _ _ _ _ _ I) as (Hv & -> & Ht). pose proof (v_length _ _ _ _ _ I) as Hlen. pose proof (v_values _ _ _ _ _ I) as Hl.
  split; [|rewrite Hl, length_fmap; lia].
  destruct I. constructor; cbn [set_tail cap mask head tail slots heap pool next]; rewrite ?length_app; cbn [length]; try done; try lia.
  - by rewrite Hl, fmap_app, <- Hv.
  - intros i Hi. change (index (set_tail (tail q + 1) q)) with (index q). rewrite v_slots0 by done. unfold expected.
    destruct (decide (i < length ps)%nat) as [Hlt|Hge].
    + rewrite lookup_app_l by done. by destruct (lookup_lt_is_Some_2 ps i Hlt) as [x ->].
    + rewrite (lookup_ge_None_2 ps) by lia. rewrite lookup_app_r by lia. destruct (decide (i = length ps)) as [->|Hd].
      * rewrite Nat.eqb_refl, Nat.sub_diag. cbn. destruct (Nat.eqb_spec (length ps) 0) as [E|]; [|done].
        destruct (cleared c) eqn:Ec; [|done]. destruct c; try done. cbn in v_cons0. destruct v_cons0 as [_ Hh]. by destruct ps.
      * rewrite (proj2 (Nat.eqb_neq _ _)) by done. destruct (i - length ps)%nat as [|x] eqn:E; [lia|]. cbn.
        by destruct (i =? length (ps ++ [p]))%nat.
  - cbn in *. rewrite (app_assoc (cons_cell c)). rewrite (Permutation_app_comm _ [p]). cbn. by rewrite <- Permutation_middle in *.
  - cbn in *. rewrite (app_assoc (cons_cell c)). rewrite (Permutation_app_comm _ [p]). cbn. by rewrite <- Permutation_middle in *.
  - destruct c; cbn in *; try done; try lia. destruct v_cons0 as [-> Hh]. split; [done|]. by destruct ps.
    destruct v_cons0 as [-> Hh]. split; [done|]. by destruct ps.
Qed.

Lemma inv_clear q d h p ps l :
  inv q d (CClear h p) ps l → inv (set_slot (index q h) None q) d (CPublish h p) ps l.
Proof.
  intros I. destruct (v_cons _ _ _ _ _ I) as (-> & Hh). pose proof (index_ne _ _ _ _ _ I) as Hne. pose proof (index_lt _ _ _ _ _ I (head q)) as Hlt.
  pose proof (v_length _ _ _ _ _ I) as Hlen. pose proof (cap_pos _ _ _ _ _ I) as Hpos.
  destruct I. constructor; cbn [set_slot cap mask head tail slots heap pool next]; rewrite ?length_insert; try done.
  intros i Hi. change (index (set_slot (index q (head q)) None q)) with (index q). destruct ps as [|p' ps]; [done|].
  destruct i as [|i].
  - rewrite Z.add_0_r. by rewrite list_lookup_insert_eq.
  - pose proof (Hne 0%nat (S i) ltac:(lia) Hi ltac:(done)) as H. rewrite Z.add_0_r in H.
    rewrite list_lookup_insert_ne by done. by rewrite v_slots0.
Qed.

Lemma inv_pop q d h p ps l :
  inv q d (CPublish h p) ps l →
  ∃ ps' l', ps = p :: ps' ∧ l = heap q p :: l' ∧ inv (set_head (h + 1) q) d (CRead p) ps' l'.
Proof.
  intros I. destruct (v_cons _ _ _ _ _ I) as (-> & Hh). destruct ps as [|p' ps]; [done|]. injection Hh as ->.
  pose proof (v_length _ _ _ _ _ I) as Hlen. pose proof (v_values _ _ _ _ _ I) as Hl. pose proof (v_slots _ _ _ _ _ I) as Hs.
  pose proof (index_wrap _ _ _ _ _ I) as Hwr. pose proof (cap_pos _ _ _ _ _ I) as Hpos. pose proof (v_prod _ _ _ _ _ I) as Hp.
  exists ps, (heap q <$> ps). split; [done|]. split; [done|]. cbn [length] in Hlen.
  destruct I. constructor; cbn [set_head cap mask head tail slots heap pool next]; try done; try lia.
  - intros i Hi. change (index (set_head (head q + 1) q)) with (index q).
    destruct (decide (Z.of_nat (S i) < cap q)) as [Hlt|Hge].
    + replace (head q + 1 + Z.of_nat i) with (head q + Z.of_nat (S i)) by lia. rewrite Hs by done. unfold expected. cbn.
      destruct (ps !! i); [by rewrite andb_false_r|done].
    + replace (head q + 1 + Z.of_nat i) with (head q + Z.of_nat 0 + cap q) by lia. rewrite Hwr, Hs by lia. unfold expected. cbn.
      rewrite (lookup_ge_None_2 ps) by lia. destruct (Nat.eqb_spec i (length ps)) as [E|]; [|done].
      destruct d; try done. cbn in Hp. lia.
  - destruct d; cbn in *; try done; naive_solver lia.
Qed.

Lemma inv_cput q d p v ps l : inv q d (CPut p v) ps l → inv (set_pool (p :: pool q) (next q) q) d (CDone (Some v)) ps l.
Proof.
  intros I. pose proof (v_cells _ _ _ _ _ I) as Hnd. pose proof (v_next _ _ _ _ _ I) as Hnx. pose proof (v_prod _ _ _ _ _ I) as Hp.
  assert ((p :: pool q) ++ prod_cell d ++ ps ≡ₚ pool q ++ prod_cell d ++ [p] ++ ps) as Hperm by (cbn; by rewrite <- !Permutation_middle).
  apply (inv_pool q d (CPut p v)); try done; cbn [cons_cell]; cbn [app] in *; by rewrite Hperm.
Qed.

(** ** The simulation *)
Lemma sim_wait n q d c q' d' c' a :
  sim n (mk_ssys q d c) a →
  (∀ ps l, inv q d c ps l → inv q' d' c' ps l) → cap q' = cap q →
  abs_prod q' d' = abs_prod q d → abs_cons q' c' = abs_cons q c → ∃ a', sstep n a None a' ∧ sim n (mk_ssys q' d' c') a'.
Proof.
  intros (ps & l & I & Hn & Hl & Hst) Hi Hc H1 H2. exists a. split; [constructor|]. exists ps, l. cbn in *. split; [auto|]. split; [congruence|]. split; [done|].
  intros [|[|i]]; rewrite Hst; [by rewrite H1|by rewrite H2|done].
Qed.

(** A step of the specification by goroutine [i]. *)
Lemma sim_act n q d c q' d' c' l l' (st : nat → status) i x ps' e :
  sim n (mk_ssys q d c) (mk_spec l st) → inv q' d' c' ps' l' → cap q' = cap q →
  (i < 2)%nat → sstep n (mk_spec l st) e (mk_spec l' (<[i := x]> st)) →
  (if i is O then x = abs_prod q' d' ∧ abs_cons q' c' = abs_cons q c else x = abs_cons q' c' ∧ abs_prod q' d' = abs_prod q d) →
  ∃ a', sstep n (mk_spec l st) e a' ∧ sim n (mk_ssys q' d' c') a'.
Proof.
  intros (ps & l0 & I & Hn & Hl & Hst) I' Hc Hi Hs Hx. eexists. split; [exact Hs|]. exists ps', l'. cbn in *.
  split; [done|]. split; [congruence|]. split; [done|]. intros j.
  destruct i as [|[|]]; [..|lia]; destruct Hx as [-> Hx]; destruct j as [|[|j]]; rewrite ?fn_lookup_insert, ?fn_lookup_insert_ne, ?Hst by done; done.
Qed.

Lemma test_bound q v p t h c ps l :
  inv q (PTest v p t h) c ps l → t < 2 ^ 64 → u64 (t - h) = t - h.
Proof. intros I Ht. destruct (v_prod _ _ _ _ _ I) as (_ & -> & Hh & _). pose proof (v_order _ _ _ _ _ I). apply wrap_small. unfold is_word. lia. Qed.

(** The producer's steps. *)
Lemma pstep_sim n q d c q' d' a :
  sim n (mk_ssys q d c) a → tail q + 1 < 2 ^ 64 → pstep q d q' d' → ∃ a', sstep n a None a' ∧ sim n (mk_ssys q' d' c) a'.
Proof.
  intros Hsim Hnw Hs. pose proof Hsim as (ps & l & I & Hn & Hl & Hst). destruct a as [l0 st]. cbn [chan prod cons contents stat] in *. subst l0.
  pose proof (v_order _ _ _ _ _ I) as Ho. pose proof (v_length _ _ _ _ _ I) as Hlen. pose proof (v_prod _ _ _ _ _ I) as Hp.
  destruct Hs as [v p q' Hg|v p|v p|v p t|v p t h|p|v p t Hi|v p t].
  - eapply sim_wait; [done|intros ps' l' I'; by apply (inv_get q v)|by destruct Hg..|by destruct Hg].
  - eapply sim_wait; [done|intros ps' l' I'; by apply (inv_set q v)|done..|].
    destruct (inv_set q v p c ps l I) as [_ Hpc]. destruct c; cbn; try done. rewrite fn_lookup_insert_ne; [done|]. intros <-. apply Hpc. by left.
  - eapply sim_wait; [done| |done..]. intros ps' l' I'. apply (inv_pc q (PTail v p) c); try done. apply I'.
  - destruct Hp as [Hv ->]. assert (inv q (PTest v p (tail q) (head q)) c ps l) as I'.
    { apply (inv_pc q (PHead v p (tail q)) c); try done; [|apply I]. cbn. split; [done|]. split; [done|]. lia. }
    pose proof (test_bound _ _ _ _ _ _ _ _ I' ltac:(lia)) as Hb. destruct (Z.geb_spec (u64 (tail q - head q)) (cap q)) as [Hge|Hlt].
    + apply (sim_act n q (PHead v p (tail q)) c q (PTest v p (tail q) (head q)) c l l st 0 (SEnqDone false) ps); try done; [lia| |].
      * apply (sstep_full _ _ _ _ v); [by rewrite Hst|]. left. rewrite (v_values _ _ _ _ _ I), length_fmap. lia.
      * cbn. by rewrite (proj2 (Z.geb_le _ _)).
    + eapply sim_wait; [done| |done| |done].
      * intros ps' l' J. pose proof (v_order _ _ _ _ _ J). apply (inv_pc q (PHead v p (tail q)) c); try done; [|apply J]. cbn. split; [done|]. split; [done|]. lia.
      * cbn. rewrite Z.geb_leb. by rewrite (proj2 (Z.leb_gt _ _)).
  - pose proof (test_bound _ _ _ _ _ _ _ _ I ltac:(cbn in Hp; lia)) as Hb. cbn [abs_prod] in *.
    destruct (Z.geb_spec (u64 (t - h)) (cap q)) as [Hge|Hlt].
    + eapply sim_wait; [done| |done| |done].
      * intros ps' l' J. apply (inv_pc q (PTest v p t h) c); try done; apply J.
      * cbn. by rewrite (proj2 (Z.geb_le _ _)).
    + eapply sim_wait; [done| |done| |done].
      * intros ps' l' J. apply (inv_pc q (PTest v p t h) c); try done; [|apply J]. cbn in *. destruct Hp as (Hv & -> & Hh & _). split_and!; [done..|lia].
      * cbn. rewrite Z.geb_leb. by rewrite (proj2 (Z.leb_gt _ _)).
  - eapply sim_wait; [done|intros ps' l' J; by apply inv_put|done..].
  - eapply sim_wait; [done|intros ps' l' J; by apply spsc_store|done..].
  - cbn in Hp. destruct (inv_publish q v p t c ps l I) as [I' Hlt]. rewrite wrap_small by (unfold is_word; lia).
    apply (sim_act n q (PPublish v p t) c (set_tail (t + 1) q) (PDone true) c l (l ++ [v]) st 0 (SEnqDone true) (ps ++ [p])); try done; [lia|].
    apply (sstep_push _ _ _ _ v); [by rewrite Hst|lia].
Qed.

(** The consumer's steps. *)
Lemma cstep_sim n q d c q' c' a :
  sim n (mk_ssys q d c) a → tail q + 1 < 2 ^ 64 → cstep q c q' c' → ∃ a', sstep n a None a' ∧ sim n (mk_ssys q' d c') a'.
Proof.
  intros Hsim Hnw Hs. pose proof Hsim as (ps & l & I & Hn & Hl & Hst). destruct a as [l0 st]. cbn [chan prod cons contents stat] in *. subst l0.
  pose proof (v_order _ _ _ _ _ I) as Ho. pose proof (v_length _ _ _ _ _ I) as Hlen. pose proof (v_cons _ _ _ _ _ I) as Hc.
  destruct Hs as [|h|h t|h p Hp|h p|h p|p|p v].
  - eapply sim_wait; [done| |done..]. intros ps' l' J. apply (inv_pc q d CHead); try done; apply J.
  - cbn in Hc. subst h. destruct (Z.geb_spec (head q) (tail q)) as [Hge|Hlt].
    + apply (sim_act n q d (CTail (head q)) q d (CTest (head q) (tail q)) l l st 1 (SGot None) ps); try done; [|lia| |].
      * apply (inv_pc q d (CTail (head q))); try done; try apply I; cbn; naive_solver lia.
      * apply sstep_empty; [by rewrite Hst|]. left. rewrite (v_values _ _ _ _ _ I). destruct ps; [done|cbn in Hlen; lia].
      * cbn. by rewrite (proj2 (Z.geb_le _ _)).
    + eapply sim_wait; [done| |done|done|].
      * intros ps' l' J. apply (inv_pc q d (CTail (head q))); try done; try apply J; cbn; naive_solver lia.
      * cbn. rewrite Z.geb_leb. by rewrite (proj2 (Z.leb_gt _ _)).
  - destruct Hc as [-> Ht]. destruct (Z.geb_spec (head q) t) as [Hge|Hlt].
    + eapply sim_wait; [done| |done|done|].
      * intros ps' l' J. apply (inv_pc q d (CTest (head q) t)); try done; apply J.
      * cbn. by rewrite (proj2 (Z.geb_le _ _)).
    + eapply sim_wait; [done| |done|done|].
      * intros ps' l' J. apply (inv_pc q d (CTest (head q) t)); try done; try apply J; cbn; naive_solver lia.
      * cbn. rewrite Z.geb_leb. by rewrite (proj2 (Z.leb_gt _ _)).
  - destruct Hc as [-> Ht]. pose proof (v_slots _ _ _ _ _ I 0%nat) as Hs. rewrite Z.add_0_r in Hs. rewrite Hs in Hp by (pose proof (cap_pos _ _ _ _ _ I); lia).
    injection Hp as <-. destruct ps as [|p ps]; [cbn in Hlen; lia|]. cbn.
    assert (inv q d (CClear (head q) p) (p :: ps) l) as I' by (apply (inv_pc q d (CLoad (head q))); try done; apply I).
    exists (mk_spec l st). split; [constructor|]. by exists (p :: ps), l.
  - eapply sim_wait; [done| |done..]. intros ps' l' J. by apply inv_clear.
  - pose proof (proj1 Hc) as ->. rewrite wrap_small by (unfold is_word; lia).
    destruct (inv_pop q d (head q) p ps l I) as (ps' & l' & -> & -> & I').
    apply (sim_act n q d (CPublish (head q) p) (set_head (head q + 1) q) d (CRead p) (heap q p :: l') l' st 1 (SGot (Some (heap q p))) ps'); try done; [lia|].
    apply sstep_pop. by rewrite Hst.
  - eapply sim_wait; [done| |done..]. intros ps' l' J. apply (inv_pc q d (CRead p)); try done. apply J.
  - eapply sim_wait; [done| |done..]. intros ps' l' J. by apply inv_cput.
Qed.

Lemma step_sim n s a e s' :
  sim n s a → no_wrap s → step s e s' → ∃ a', sstep n a e a' ∧ sim n s' a'.
Proof.
  intros Hsim Hnw Hs. destruct Hs as [q c v|q c ok|q d|q d r|q d c q' d' Hp|q d c q' c' Hp]; [| | | |by eapply pstep_sim|by eapply cstep_sim];
    pose proof Hsim as (ps & l & I & Hn & Hl & Hst); destruct a as [l0 st]; cbn [chan prod cons contents stat] in *; subst l0.
  - eapply (sim_act n q PIdle c q (PGet v) c l l st 0); try done; try lia; [|apply sstep_call_enq; by rewrite Hst].
    apply (inv_pc q PIdle c); try done. apply I.
  - eapply (sim_act n q (PDone ok) c q PIdle c l l st 0); try done; try lia; [|apply (sstep_ret_enq _ _ _ _ ok); by rewrite Hst].
    apply (inv_pc q (PDone ok) c); try done. apply I.
  - eapply (sim_act n q d CIdle q d CHead l l st 1); try done; try lia; [|apply sstep_call_deq; by rewrite Hst].
    apply (inv_pc q d CIdle); try done. apply I.
  - eapply (sim_act n q d (CDone r) q d CIdle l l st 1); try done; try lia; [|apply (sstep_ret_deq _ _ _ _ r); by rewrite Hst].
    apply (inv_pc q d (CDone r)); try done. apply I.
Qed.

Lemma init_sim any_v capPow2 q :
  0 ≤ capPow2 ≤ 2 ^ 63 → NewSPSC any_v capPow2 = Some q → sim (cap q) (mk_ssys q PIdle CIdle) spec_init ∧ capPow2 ≤ cap q.
Proof.
  intros Hc Hq. unfold NewSPSC in Hq. rewrite wrap_small in Hq by (unfold is_word; lia).
  destruct (cap_loop_terminates capPow2 ltac:(lia)) as (k & Hk & E & Hle & _). rewrite E in Hq. injection Hq as <-. split; [|done].
  assert (0 < 2 ^ k) by (apply Z.pow_pos_nonneg; lia).
  exists [], []. split; [|split; [done|split; [done|by intros [|[|i]]]]].
  constructor; cbn [chan prod cons cap mask head tail slots heap pool next]; try done.
  - exists k. rewrite length_replicate. split_and!; [lia|done..|lia].
  - lia.
  - intros i Hi. unfold expected, index. cbn [mask head]. rewrite lookup_nil. rewrite lookup_replicate_2.
    + by destruct (i =? length [])%nat.
    + replace (2 ^ k - 1) with (Z.ones k) by (rewrite Z.ones_equiv; lia). rewrite Z.land_ones by lia. rewrite Z.mod_small by lia. lia.
  - constructor.
Qed.

(** C20 The single-producer single-consumer queue is linearizable: with one
    goroutine enqueueing and one dequeueing, in any interleaving and however the
    pool recycles cells, each history is one of the atomic bounded first-in
    first-out queue: no value is lost,
    duplicated or overwritten. *)
Theorem spsc_linearizable any_v capPow2 q tr s :
  0 ≤ capPow2 ≤ 2 ^ 63 → NewSPSC any_v capPow2 = Some q → exec (mk_ssys q PIdle CIdle) tr s →
  capPow2 ≤ cap q ∧ (∃ a, sexec (cap q) spec_init tr a ∧ Zlen (contents a) = tail (chan s) - head (chan s)) ∧
  ∀ t, (index (chan s) t < length (slots (chan s)))%nat.
Proof.
  intros Hc Hq Hex. destruct (init_sim any_v capPow2 q Hc Hq) as [H0 Hle]. split; [done|].
  assert (∃ a, sexec (cap q) spec_init tr a ∧ sim (cap q) s a) as (a & Ha & ps & l & I & _ & Hl & _).
  { remember (mk_ssys q PIdle CIdle) as s0 eqn:E. induction Hex as [s0|s0 s1 s2 tr e Hex IH Hnw Hstep]; subst.
    - exists spec_init. split; [constructor|done].
    - destruct (IH eq_refl H0) as (a & Ha & Hs). destruct (step_sim _ _ _ _ _ Hs Hnw Hstep) as (a' & Ha' & Hs').
      exists a'. split; [by eapply sexec_step|done]. }
  split; [|by eapply index_lt]. exists a. split; [done|]. rewrite Hl, (v_values _ _ _ _ _ I), length_fmap. apply I.
Qed.

(** *** Executions by a schedule

    The pool gives back the cell put last. *)
Inductive action : Type := AEnq (v : V) | ADeq | AProd | ACons.

Definition pturn (q : SPSC) (d : ppc) : option (SPSC * ppc) :=
  match d with
  | PGet v => Some (match pool q with p :: l => (set_pool l (next q) q, PSet v p) | [] => (set_pool [] (S (next q)) q, PSet v (next q)) end)
  | PSet v p => Some (set_cell p v q, PTail v p)
  | PTail v p => Some (q, PHead v p (tail q))
  | PHead v p t => Some (q, PTest v p t (head q))
  | PTest v p t h => Some (q, if u64 (t - h) >=? cap q then PPut p else PStore v p t)
  | PPut p => Some (set_pool (p :: pool q) (next q) q, PDone false)
  | PStore v p t => if (index q t <? length (slots q))%nat then Some (set_slot (index q t) (Some p) q, PPublish v p t) else None
  | PPublish v p t => Some (set_tail (u64 (t + 1)) q, PDone true)
  | _ => None
  end.

Definition cturn (q : SPSC) (c : cpc) : option (SPSC * cpc) :=
  match c with
  | CHead => Some (q, CTail (head q))
  | CTail h => Some (q, CTest h (tail q))
  | CTest h t => Some (q, if h >=? t then CDone None else CLoad h)
  | CLoad h => match slots q !! index q h with Some p => Some (q, match p with None => CDone None | Some p => CClear h p end) | None => None end
  | CClear h p => Some (set_slot (index q h) None q, CPublish h p)
  | CPublish h p => Some (set_head (u64 (h + 1)) q, CRead p)
  | CRead p => Some (q, CPut p (heap q p))
  | CPut p v => Some (set_pool (p :: pool q) (next q) q, CDone (Some v))
  | _ => None
  end.

(** An action that is not possible is skipped. *)
Definition act (a : action) (s : ssys) : option event * ssys :=
  let '(mk_ssys q d c) := s in
  match a, d, c with
  | AEnq v, PIdle, _ => (Some (CallEnq 0 v), mk_ssys q (PGet v) c)
  | ADeq, _, CIdle => (Some (CallDeq 1), mk_ssys q d CHead)
  | AProd, PDone ok, _ => (Some (RetEnq 0 ok), mk_ssys q PIdle c)
  | AProd, _, _ => match pturn q d with Some (q', d') => (None, mk_ssys q' d' c) | None => (None, s) end
  | ACons, _, CDone r => (Some (RetDeq 1 r), mk_ssys q d CIdle)
  | ACons, _, _ => match cturn q c with Some (q', c') => (None, mk_ssys q' d c') | None => (None, s) end
  | _, _, _ => (None, s)
  end.

Fixpoint play (l : list action) (s : ssys) : option (list event * ssys) :=
  match l with
  | [] => Some ([], s)
  | a :: l =>
      if tail (chan s) + 1 <? 2 ^ 64 then
        let r := act a s in match play l r.2 with Some (tr, s2) => Some (event_list r.1 ++ tr, s2) | None => None end
      else None
  end.

Lemma pturn_step q d q' d' : pturn q d = Some (q', d') → pstep q d q' d'.
Proof.
  destruct d; cbn [pturn]; intros H; try done; try (injection H as <- <-; constructor).
  - destruct (pool q) as [|p l] eqn:E; injection H as <- <-; constructor.
    + pose proof (get_new q) as G. by rewrite E in G.
    + by apply (get_recycled q p [] l).
  - destruct (Nat.ltb_spec (index q t) (length (slots q))); [|done]. injection H as <- <-. by constructor.
Qed.

Lemma cturn_step q c q' c' : cturn q c = Some (q', c') → cstep q c q' c'.
Proof.
  destruct c; cbn; intros H; try done; try (injection H as <- <-; constructor).
  destruct (slots q !! index q h) eqn:E; [|done]. injection H as <- <-. by constructor.
Qed.

Lemma act_step a s : (act a s).2 = s ∧ (act a s).1 = None ∨ step s (act a s).1 (act a s).2.
Proof.
  destruct s as [q d c]. assert (∀ q' d', pturn q d = Some (q', d') → step (mk_ssys q d c) None (mk_ssys q' d' c)) as Hp.
  { intros. constructor. by apply pturn_step. }
  assert (∀ q' c', cturn q c = Some (q', c') → step (mk_ssys q d c) None (mk_ssys q' d c')) as Hc.
  { intros. constructor. by apply cturn_step. }
  destruct a; cbn [act].
  - destruct d; first [by left|right; constructor].
  - destruct c; first [by left|right; constructor].
  - destruct d; try (destruct (pturn q _) as [[q' d']|]; [right; by apply Hp|by left]). right. constructor.
  - destruct c; try (destruct (cturn q _) as [[q' c']|]; [right; by apply Hc|by left]). right. constructor.
Qed.

Lemma play_exec l s0 tr0 s tr s' : exec s0 tr0 s → play l s = Some (tr, s') → exec s0 (tr0 ++ tr) s'.
Proof.
  revert s tr0 tr. induction l as [|a l IH]; cbn [play]; intros s tr0 tr Hex Hp.
  - injection Hp as <- <-. by rewrite app_nil_r.
  - destruct (Z.ltb_spec (tail (chan s) + 1) (2 ^ 64)); [|done]. cbv zeta in Hp.
    destruct (play l (act a s).2) as [[tr1 s2]|] eqn:Hp1; [|done]. injection Hp as <- <-. rewrite app_assoc.
    apply (IH (act a s).2); [|done]. destruct (act_step a s) as [[-> ->]|Hs]; [by rewrite app_nil_r|]. by eapply exec_step.
Qed.
End spsc.

Definition example_spsc : SPSC := mk_spsc 2 1 0 0 [None; None] (λ _, 0) [] 0.
Definition times (k : nat) (a : action (V := Z)) : list action := replicate k a.

(** Three values into a ring of two, and out again. *)
Definition example_schedule : list action :=
  AEnq 7 :: times 9 AProd ++ AEnq 8 :: times 9 AProd ++ AEnq 9 :: times 9 AProd ++ ADeq :: times 7 ACons ++ AEnq 9 :: times 9 AProd ++
  times 2 ACons ++ ADeq :: times 9 ACons.

Definition example_history : list (event (V := Z)) :=
  [CallEnq 0 7; RetEnq 0 true; CallEnq 0 8; RetEnq 0 true; CallEnq 0 9; RetEnq 0 false; CallDeq 1; CallEnq 0 9; RetEnq 0 true;
   RetDeq 1 (Some 7); CallDeq 1; RetDeq 1 (Some 8)].

Lemma spsc_linearizable_witness :
  ∃ s, exec (mk_ssys example_spsc PIdle CIdle) example_history s ∧
    2 ≤ cap example_spsc ∧ (∃ a, sexec (cap example_spsc) spec_init example_history a ∧ Zlen (contents a) = tail (chan s) - head (chan s)) ∧
    ∀ t, (index (chan s) t < length (slots (chan s)))%nat.
Proof.
  destruct (play example_schedule (mk_ssys example_spsc PIdle CIdle)) as [[tr s]|] eqn:E; [|vm_compute in E; discriminate E].
  assert (tr = example_history) as -> by (vm_compute in E; injection E as <- _; reflexivity).
  assert (exec (mk_ssys example_spsc PIdle CIdle) example_history s) as H by exact (play_exec _ _ [] _ _ _ (exec_nil _) E).
  exists s. split; [exact H|]. apply (spsc_linearizable 0 2 example_spsc _ s); [lia|reflexivity|exact H].
Defined.
