(* ===== verification/SyncPrims.v ===== *)
(** * Drivers: semaphore, spin lock and once
    (drivers/concurrency/semaphore.go, drivers/sync/mutex.go, drivers/sync/once.go)

    Each atomic operation is a step; goroutines are numbers. *)
From stdpp Require Import list functions.
From S2P Require Import Prelude.

Module Semaphore.
(** A goroutine in Acquire or AcquireContext ([ctx]) that has loaded nothing, or
    the value it compares with. *)
Inductive pc : Type :=
  | Idle
  | Load (n : Z) (with_ctx : bool)
  | Try (n cur : Z) (with_ctx : bool)
  | Acquired
  | Cancelled.

Definition errCancelled : string := "semaphore acquire cancelled".

(** [granted] and [released] count what was acquired and given back. *)
Record sem : Type := mk_sem { available : Z; granted : Z; released : Z; ctx_done : bool; threads : nat → pc }.

Definition NewSemaphore (initial : Z) : sem := mk_sem (i64 initial) 0 0 false (λ _, Idle).

Definition move (i : nat) (p : pc) (s : sem) : sem :=
  mk_sem (available s) (granted s) (released s) (ctx_done s) (<[i := p]> (threads s)).

(** Acquire and AcquireContext before the loop. *)
Definition enter (n : Z) (with_ctx : bool) : pc := if n <=? 0 then Acquired else Load n with_ctx.

Inductive step (s : sem) : sem → Prop :=
  | acquire i n b : threads s i = Idle → step s (move i (enter n b) s)
  | cancelled i n : threads s i = Load n true → ctx_done s = true → step s (move i Cancelled s)
  | load i n b : threads s i = Load n b → (b = true → ctx_done s = false) →
      step s (move i (if available s >=? n then Try n (available s) b else Load n b) s)
  | cas i n cur b : threads s i = Try n cur b →
      step s (if available s =? cur
              then mk_sem (i64 (cur - n)) (granted s + n) (released s) (ctx_done s) (<[i := Acquired]> (threads s))
              else move i (Load n b) s)
  | return_ i : threads s i = Acquired ∨ threads s i = Cancelled → step s (move i Idle s)
  | release n : step s (if n >? 0 then mk_sem (i64 (available s + n)) (granted s) (released s + n) (ctx_done s) (threads s) else s)
  | cancel : step s (mk_sem (available s) (granted s) (released s) true (threads s)).

(** Nothing overflows. *)
Definition no_overflow (initial : Z) (s : sem) : Prop := initial + released s < 2 ^ 63.

Inductive reach (initial : Z) : sem → Prop :=
  | reach_init : reach initial (NewSemaphore initial)
  | reach_step s s' : reach initial s → step s s' → no_overflow initial s' → reach initial s'.

Definition pc_ok (p : pc) : Prop := match p with Load n _ => 0 < n | Try n cur _ => 0 < n ≤ cur | _ => True end.

Definition inv (initial : Z) (s : sem) : Prop :=
  available s = initial + released s - granted s ∧ 0 ≤ available s ∧ 0 ≤ granted s ∧ 0 ≤ released s ∧
  ∀ i, pc_ok (threads s i).

Lemma pc_ok_move (f : nat → pc) (i : nat) p : (∀ j, pc_ok (f j)) → pc_ok p → ∀ j, pc_ok (<[i := p]> f j).
Proof. intros Hf Hp j. destruct (decide (i = j)) as [->|]; [by rewrite fn_lookup_insert|by rewrite fn_lookup_insert_ne]. Qed.

Lemma sem_step_inv initial s s' : inv initial s → step s s' → no_overflow initial s' → inv initial s'.
Proof.
  intros (H1 & H2 & H3 & H4 & Hp) Hs Hn. unfold no_overflow in Hn.
  destruct Hs as [i n b Hi|i n Hi Hc|i n b Hi Hb|i n cur b Hi|i Hi|n|]; try pose proof (Hp i) as Hpi; try rewrite Hi in Hpi; cbn in Hn.
  - split_and!; try done. apply pc_ok_move; [done|]. unfold enter. destruct (Z.leb_spec n 0); [done|cbn; lia].
  - split_and!; try done. by apply pc_ok_move.
  - split_and!; try done. apply pc_ok_move; [done|]. destruct (Z.geb_spec (available s) n); cbn in *; lia.
  - cbn in Hpi. destruct (Z.eqb_spec (available s) cur) as [E|].
    + cbn in *. unfold inv. cbn. rewrite swrap_small by lia. split_and!; try lia. by apply pc_ok_move.
    + split_and!; try done. apply pc_ok_move; [done|cbn; lia].
  - split_and!; try done. by apply pc_ok_move.
  - destruct (Z.gtb_spec n 0); [|done]. unfold inv. cbn in *. rewrite swrap_small by lia. split_and!; try lia. done.
  - done.
Qed.

(** The semaphore never grants more than it has: in every interleaving the
    units granted are at most the initial ones and those released, the counter
    is exactly the difference and never negative, and a cancelled acquisition
    takes nothing. *)
Theorem semaphore_conserves initial s :
  0 ≤ initial < 2 ^ 63 → reach initial s →
  available s + granted s = initial + released s ∧ 0 ≤ available s ∧ 0 ≤ granted s ≤ initial + released s.
Proof.
  intros Hi Hr. assert (inv initial s) as (H1 & H2 & H3 & H4 & _); [|lia].
  induction Hr as [|s s' _ IH Hs Hn]; [|by apply (sem_step_inv initial s)].
  unfold inv, NewSemaphore. cbn. rewrite swrap_small by lia. split_and!; first [done|lia].
Qed.

Lemma semaphore_conserves_witness :
  let s := mk_sem 1 2 0 false (<[0%nat := Acquired]> (<[0%nat := Try 2 3 false]> (<[0%nat := Load 2 false]> (λ _, Idle)))) in
  reach 3 s ∧ available s + granted s = 3 + released s ∧ 0 ≤ available s ∧ 0 ≤ granted s ≤ 3 + released s.
Proof.
  intros s. set (s1 := move 0 (Load 2 false) (NewSemaphore 3)). set (s2 := move 0 (Try 2 3 false) s1).
  assert (reach 3 s1) as H1 by exact (reach_step 3 _ s1 (reach_init 3) (acquire (NewSemaphore 3) 0 2 false eq_refl) eq_refl).
  assert (reach 3 s2) as H2 by exact (reach_step 3 s1 s2 H1 (load s1 0 2 false eq_refl (λ E, match Bool.diff_false_true E with end)) eq_refl).
  assert (reach 3 s) as Hr by exact (reach_step 3 s2 s H2 (cas s2 0 2 3 false eq_refl) eq_refl).
  split; [exact Hr|]. apply (semaphore_conserves 3 s); [lia|exact Hr].
Defined.
End Semaphore.

Module SpinLock.
(** A goroutine trying, with the number of failures so far, or inside. *)
Inductive pc : Type := Outside | Trying (spin : nat) | Inside.
Record lock : Type := mk_lock { flag : Z; threads : nat → pc }.

Definition NewSpinLock : lock := mk_lock 0 (λ _, Outside).

(** Clients unlock what they have locked. *)
Inductive step : lock → lock → Prop :=
  | lock_call f t i : t i = Outside → step (mk_lock f t) (mk_lock f (<[i := Trying 0]> t))
  | lock_cas f t i n : t i = Trying n →
      step (mk_lock f t) (if f =? 0 then mk_lock 1 (<[i := Inside]> t) else mk_lock f (<[i := Trying (S n)]> t))
  | try_lock f t i : t i = Outside → step (mk_lock f t) (if f =? 0 then mk_lock 1 (<[i := Inside]> t) else mk_lock f t)
  | unlock f t i : t i = Inside → step (mk_lock f t) (mk_lock 0 (<[i := Outside]> t)).

Inductive reach : lock → Prop :=
  | reach_init : reach NewSpinLock
  | reach_step s s' : reach s → step s s' → reach s'.

Definition inv (s : lock) : Prop :=
  (flag s = 0 ∨ flag s = 1) ∧ (flag s = 0 → ∀ i, threads s i ≠ Inside) ∧
  (∀ i j, threads s i = Inside → threads s j = Inside → i = j).

Lemma lock_step_inv s s' : inv s → step s s' → inv s'.
Proof.
  assert (∀ (t : nat → pc) i p j, <[i := p]> t j = Inside → (j = i ∧ p = Inside) ∨ (j ≠ i ∧ t j = Inside)) as Hins.
  { intros t i p j. destruct (decide (i = j)) as [->|]; [rewrite fn_lookup_insert; auto|rewrite fn_lookup_insert_ne by done; auto]. }
  intros (H1 & H2 & H3) Hs. destruct Hs as [f t i Hi|f t i n Hi|f t i Hi|f t i Hi]; cbn in *; unfold inv; cbn.
  - split_and!; [done| |].
    + intros Hf j Hj%Hins. destruct Hj as [[_ ?]|[_ ?]]; [done|by apply (H2 Hf j)].
    + intros j k Hj%Hins Hk%Hins. naive_solver.
  - destruct (Z.eqb_spec f 0) as [->|]; cbn; (split_and!; [auto| |]).
    + done.
    + intros j k Hj%Hins Hk%Hins. naive_solver.
    + done.
    + intros j k Hj%Hins Hk%Hins. naive_solver.
  - destruct (Z.eqb_spec f 0) as [->|]; cbn; [|by split_and!]. split_and!; [auto|done|].
    intros j k Hj%Hins Hk%Hins. naive_solver.
  - split_and!; [auto| |].
    + intros _ j Hj%Hins. destruct Hj as [[_ ?]|[Hne Hj]]; [done|]. by apply Hne, H3.
    + intros j k Hj%Hins Hk%Hins. naive_solver.
Qed.

(** The lock excludes: two goroutines inside are the same. *)
Lemma spin_lock_excludes s i j : reach s → threads s i = Inside → threads s j = Inside → i = j.
Proof.
  intros Hr. assert (inv s) as (_ & _ & H); [|apply H]. induction Hr as [|s s' _ IH Hs]; [|by apply (lock_step_inv s)].
  unfold inv, NewSpinLock. cbn. by split_and!; [left| |].
Qed.
End SpinLock.

Module Once.
Inductive pc : Type := Idle | Loaded | Running | Returned.
Record once : Type := mk_once { done_flag : Z; runs : nat; threads : nat → pc }.

(** [runs] counts the calls of f. *)
Inductive step : once → once → Prop :=
  | do_load d r t i : t i = Idle → step (mk_once d r t) (mk_once d r (<[i := if d =? 1 then Returned else Loaded]> t))
  | do_cas d r t i : t i = Loaded →
      step (mk_once d r t) (if d =? 0 then mk_once 1 (S r) (<[i := Running]> t) else mk_once d r (<[i := Returned]> t))
  | do_finish d r t i : t i = Running → step (mk_once d r t) (mk_once d r (<[i := Returned]> t)).

Definition init : once := mk_once 0 0 (λ _, Idle).

Inductive reach : once → Prop :=
  | reach_init : reach init
  | reach_step s s' : reach s → step s s' → reach s'.

(** The function is called at most once ... *)
Lemma once_runs_once s : reach s → (runs s ≤ 1)%nat.
Proof.
  intros Hr. assert ((done_flag s = 0 ∧ runs s = 0%nat) ∨ (done_flag s = 1 ∧ runs s = 1%nat)) as [[_ ->]|[_ ->]]; [|lia..].
  induction Hr as [|s s' _ IH Hs]; [by left|]. destruct Hs as [d r t i Hi|d r t i Hi|d r t i Hi]; cbn in *; try done.
  destruct (Z.eqb_spec d 0); cbn; [right|done]. destruct IH as [[-> ->]|[-> ->]]; done.
Qed.

(** ... but Do returns to a second caller while the first is still in it. *)
Lemma once_returns_early : ∃ s, reach s ∧ threads s 0%nat = Running ∧ threads s 1%nat = Returned.
Proof.
  set (t1 := <[0%nat := Loaded]> (λ _ : nat, Idle)). set (t2 := <[0%nat := Running]> t1).
  assert (reach (mk_once 0 0 t1)) as H1 by exact (reach_step _ _ reach_init (do_load 0 0 (λ _, Idle) 0 eq_refl)).
  assert (reach (mk_once 1 1 t2)) as H2 by exact (reach_step _ _ H1 (do_cas 0 0 t1 0 eq_refl)).
  exists (mk_once 1 1 (<[1%nat := Returned]> t2)). split; [|done]. exact (reach_step _ _ H2 (do_load 1 1 t2 1 eq_refl)).
Qed.
End Once.
