(* ===== verification/PriorityQueue.v ===== *)
(** * Drivers: the priority queues (drivers/scheduler/priority.go)

    Eight rings, a mask of the levels in use and a counter per level.  The rings
    are the atomic queues RingQueue.v shows them to be; every other access is a
    step of its own. *)
From stdpp Require Import list functions.
From S2P Require Import Prelude.

Section priority.
Context {T : Type}.

Definition numPriorities : nat := 8.

Definition clampPriority (priority : Z) : nat :=
  if priority <? 0 then 0%nat else if priority >=? Z.of_nat numPriorities then (numPriorities - 1)%nat else Z.to_nat priority.

Record priorityQueues : Type := mk_pq { size : Z; levels : nat → list T; mask : Z; counts : nat → Z }.

Definition newPriorityQueues (size : Z) : priorityQueues := mk_pq size (λ _, []) 0 (λ _, 0).

Definition set_level (i : nat) (l : list T) (q : priorityQueues) : priorityQueues := mk_pq (size q) (<[i := l]> (levels q)) (mask q) (counts q).
Definition set_mask (m : Z) (q : priorityQueues) : priorityQueues := mk_pq (size q) (levels q) m (counts q).
Definition set_count (i : nat) (x : Z) (q : priorityQueues) : priorityQueues := mk_pq (size q) (levels q) (mask q) (<[i := x]> (counts q)).

Definition bit (i : nat) : Z := Z.shiftl 1 (Z.of_nat i).

Inductive pc : Type :=
  | EPush (v : T) (level : nat)             (* tryEnqueue *)
  | EAdd (level : nat)                      (* counts.Add(1) *)
  | EMask (level : nat) | ECas (level : nat) (old : Z)
  | EDone (ok : bool)
  | DMask
  | DScan (i : nat) (m : Z)                 (* levels below [i] are left; tryDequeue *)
  | DReload (i : nat)
  | DAdd (i : nat) (v : T)                  (* counts.Add(-1) *)
  | DClear (i : nat) (v : T) | DCas (i : nat) (v : T) (old : Z)
  | DDone (r : option T).

(** One step of enqueue or dequeue. *)
Definition enqueue_step (q : priorityQueues) (p : pc) : priorityQueues * pc :=
  match p with
  | EPush v l => if Zlen (levels q l) <? size q then (set_level l (levels q l ++ [v]) q, EAdd l) else (q, EDone false)
  | EAdd l => (set_count l (i64 (counts q l + 1)) q, EMask l)
  | EMask l => (q, if negb (Z.land (mask q) (bit l) =? 0) then EDone true else ECas l (mask q))
  | ECas l old => if mask q =? old then (set_mask (Z.lor old (bit l)) q, EDone true) else (q, EMask l)
  | p => (q, p)
  end.

Definition dequeue_step (q : priorityQueues) (p : pc) : priorityQueues * pc :=
  match p with
  | DMask => (q, if mask q =? 0 then DDone None else DScan numPriorities (mask q))
  | DScan O m => (q, DDone None)
  | DScan (S i) m =>
      if Z.land m (bit i) =? 0 then (q, DScan i m)
      else match levels q i with
           | [] => (q, DReload i)
           | v :: l => (set_level i l q, DAdd i v)
           end
  | DReload i => (q, DScan i (mask q))
  | DAdd i v =>
      let x := i64 (counts q i - 1) in
      (set_count i x q, if x =? 0 then DClear i v else DDone (Some v))
  | DClear i v => (q, if Z.land (mask q) (bit i) =? 0 then DDone (Some v) else DCas i v (mask q))
  | DCas i v old => if mask q =? old then (set_mask (Z.ldiff old (bit i)) q, DDone (Some v)) else (q, DClear i v)
  | p => (q, p)
  end.

Definition tstep (q : priorityQueues) (p : pc) : priorityQueues * pc :=
  match p with EPush _ _ | EAdd _ | EMask _ | ECas _ _ => enqueue_step q p | _ => dequeue_step q p end.

(** ** One operation at a time *)
Fixpoint run (fuel : nat) (q : priorityQueues) (p : pc) : option (priorityQueues * pc) :=
  match p with
  | EDone _ | DDone _ => Some (q, p)
  | _ => match fuel with O => None | S k => run k (tstep q p).1 (tstep q p).2 end
  end.

Definition enqueue (v : T) (priority : Z) (q : priorityQueues) : option (priorityQueues * pc) := run 4 q (EPush v (clampPriority priority)).
Definition dequeue (q : priorityQueues) : option (priorityQueues * pc) := run 13 q DMask.

(** The mask and the counters say what the levels hold. *)
Definition consistent (q : priorityQueues) : Prop :=
  0 ≤ mask q ∧ (∀ i, Z.testbit (mask q) (Z.of_nat i) = true ↔ (i < numPriorities)%nat ∧ levels q i ≠ []) ∧
  (∀ i, counts q i = Zlen (levels q i)) ∧ size q < 2 ^ 62 ∧ (∀ i, Zlen (levels q i) ≤ size q).

(** The highest level below [i] that holds a task. *)
Fixpoint top (f : nat → list T) (i : nat) : option nat :=
  match i with O => None | S j => match f j with [] => top f j | _ => Some j end end.

Lemma bit_test m i : 0 ≤ m → (Z.land m (bit i) =? 0) = negb (Z.testbit m (Z.of_nat i)).
Proof.
  intros Hm. assert (∀ j, 0 ≤ j → Z.testbit (bit i) j = (j =? Z.of_nat i)) as Hb.
  { intros j Hj. unfold bit. rewrite Z.shiftl_1_l, Z.pow2_bits_eqb by lia. apply eq_true_iff_eq. rewrite !Z.eqb_eq. lia. }
  destruct (Z.testbit m (Z.of_nat i)) eqn:E; cbn.
  - apply Z.eqb_neq. intros H. apply (f_equal (λ x, Z.testbit x (Z.of_nat i))) in H. rewrite Z.land_spec, E, Hb, Z.eqb_refl, Z.bits_0 in H by lia. done.
  - apply Z.eqb_eq, Z.bits_inj'. intros j Hj. rewrite Z.land_spec, Hb, Z.bits_0 by done.
    destruct (Z.eqb_spec j (Z.of_nat i)) as [->|]; [by rewrite E|apply andb_false_r].
Qed.

Lemma bit_set m i j : Z.testbit (Z.lor m (bit i)) (Z.of_nat j) = true ↔ Z.testbit m (Z.of_nat j) = true ∨ j = i.
Proof.
  rewrite Z.lor_spec, orb_true_iff. unfold bit. rewrite Z.shiftl_1_l, Z.pow2_bits_eqb, Z.eqb_eq by lia. split; (intros [|]; [by left|right; lia]).
Qed.

Lemma bit_clear m i j : Z.testbit (Z.ldiff m (bit i)) (Z.of_nat j) = true ↔ Z.testbit m (Z.of_nat j) = true ∧ j ≠ i.
Proof.
  rewrite Z.ldiff_spec, andb_true_iff, negb_true_iff. unfold bit. rewrite Z.shiftl_1_l, Z.pow2_bits_eqb, Z.eqb_neq by lia. split; (intros [? ?]; split; [done|lia]).
Qed.

Lemma enqueue_spec q v priority :
  consistent q →
  let l := clampPriority priority in
  ∃ q', enqueue v priority q = Some (q', EDone (Zlen (levels q l) <? size q)) ∧ consistent q' ∧
    ∀ i, levels q' i = if decide (i = l ∧ Zlen (levels q l) < size q) then levels q i ++ [v] else levels q i.
Proof.
  intros (H1 & H2 & H3 & H4 & H5) l. unfold enqueue. fold l. cbn [run tstep enqueue_step fst snd].
  assert (l < numPriorities)%nat as Hl.
  { unfold l, clampPriority, numPriorities. destruct (Z.ltb_spec priority 0); [lia|]. destruct (Z.geb_spec priority (Z.of_nat 8)); lia. }
  destruct (Z.ltb_spec (Zlen (levels q l)) (size q)) as [Hlt|Hge].
  2:{ exists q. split; [done|]. split; [done|]. intros i. rewrite decide_False; [done|lia]. }
  set (q1 := set_count l (i64 (counts q l + 1)) (set_level l (levels q l ++ [v]) q)).
  assert (∀ i, levels q1 i = if decide (i = l ∧ Zlen (levels q l) < size q) then levels q i ++ [v] else levels q i) as Hlv.
  { intros i. cbn. destruct (decide (l = i)) as [<-|]; [rewrite fn_lookup_insert, decide_True by done|rewrite fn_lookup_insert_ne, decide_False by naive_solver]; done. }
  assert (∀ i, counts q1 i = Zlen (levels q1 i)) as Hct.
  { intros i. cbn. destruct (decide (l = i)) as [<-|]; [|by rewrite !fn_lookup_insert_ne].
    rewrite !fn_lookup_insert, swrap_small, H3, length_app by (rewrite ?H3; lia). cbn. lia. }
  assert (∀ i, Zlen (levels q1 i) ≤ size q1) as Hsz.
  { intros i. rewrite Hlv. destruct (decide (i = l ∧ Zlen (levels q l) < size q)) as [Hd|Hd]; [|apply H5]. destruct Hd as [-> _]. rewrite length_app. cbn. lia. }
  assert (∀ i, (i < numPriorities)%nat ∧ levels q1 i ≠ [] ↔ (i < numPriorities)%nat ∧ levels q i ≠ [] ∨ i = l) as Hne.
  { intros i. rewrite Hlv. destruct (decide (i = l ∧ Zlen (levels q l) < size q)) as [Hd|Hd]; [|naive_solver]. split; [naive_solver|]. intros _. destruct Hd as [-> _]. split; [done|]. by destruct (levels q l). }
  assert (∀ m, 0 ≤ m → (∀ i, Z.testbit m (Z.of_nat i) = true ↔ Z.testbit (mask q) (Z.of_nat i) = true ∨ i = l) → consistent (set_mask m q1)) as Hok.
  { intros m Hm Hb. split; [done|]. split; [|done]. intros i. cbn [mask set_mask]. rewrite Hb, H2. symmetry. apply Hne. }
  assert ((Z.land (mask q1) (bit l) =? 0) = negb (Z.testbit (mask q) (Z.of_nat l))) as Ht by by apply bit_test.
  destruct (Z.testbit (mask q) (Z.of_nat l)) eqn:Eb.
  - exists (set_mask (mask q) q1). split; [|split; [|exact Hlv]].
    + change (run 2 q1 (EMask l) = Some (q1, EDone true)). cbn [run tstep enqueue_step fst snd]. by rewrite Ht.
    + apply Hok; [done|]. intros i. split; [by left|]. intros [| ->]; done.
  - exists (set_mask (Z.lor (mask q) (bit l)) q1). split; [|split; [|exact Hlv]].
    + change (run 2 q1 (EMask l) = Some (set_mask (Z.lor (mask q) (bit l)) q1, EDone true)). cbn [run tstep enqueue_step fst snd]. rewrite Ht.
      cbn [negb run tstep enqueue_step fst snd]. change (mask q1) with (mask q). by rewrite Z.eqb_refl.
    + apply Hok; [apply Z.lor_nonneg; split; [done|unfold bit; rewrite Z.shiftl_1_l; lia]|]. intros i. apply bit_set.
Qed.

Lemma top_spec f i j : top f i = Some j → (j < i)%nat ∧ f j ≠ [] ∧ ∀ k, (j < k < i)%nat → f k = [].
Proof.
  induction i as [|i IH]; [done|]. cbn. destruct (f i) eqn:E.
  - intros H%IH. destruct H as (H1 & H2 & H3). split; [lia|]. split; [done|]. intros k Hk. destruct (decide (k = i)) as [->|]; [done|apply H3; lia].
  - intros [= <-]. split; [lia|]. split; [congruence|lia].
Qed.

Lemma top_none f i : top f i = None → ∀ k, (k < i)%nat → f k = [].
Proof.
  induction i as [|i IH]; [lia|]. cbn. destruct (f i) eqn:E; [|done]. intros H k Hk. destruct (decide (k = i)) as [->|]; [done|apply IH; [done|lia]].
Qed.

Lemma test_level q i : consistent q → (i < numPriorities)%nat → (Z.land (mask q) (bit i) =? 0) = match levels q i with [] => true | _ => false end.
Proof.
  intros (H1 & H2 & _) Hi. rewrite bit_test by done. specialize (H2 i). destruct (Z.testbit (mask q) (Z.of_nat i)); destruct (levels q i); naive_solver.
Qed.

(** The scan finds the highest level in use. *)
Lemma scan_none q i k : consistent q → (i ≤ numPriorities)%nat → top (levels q) i = None → run (i + S k) q (DScan i (mask q)) = Some (q, DDone None).
Proof.
  intros Hq. induction i as [|i IH]; intros Hi Ht; [by destruct k|]. cbn [plus run tstep dequeue_step]. rewrite test_level by (done || lia).
  cbn in Ht. destruct (levels q i); [|done]. apply IH; [lia|done].
Qed.

Lemma scan_some q i k j v l :
  consistent q → (i ≤ numPriorities)%nat → top (levels q) i = Some j → levels q j = v :: l →
  run (i + S k) q (DScan i (mask q)) = run (j + S k) (set_level j l q) (DAdd j v).
Proof.
  intros Hq. induction i as [|i IH]; intros Hi Ht Hj; [done|]. cbn [plus run tstep dequeue_step]. rewrite test_level by (done || lia).
  cbn in Ht. destruct (levels q i) eqn:E; [apply IH; [lia|done..]|]. injection Ht as ->. rewrite E in Hj. injection Hj as -> ->. done.
Qed.

Lemma finish_spec q j v l k :
  consistent q → (j < numPriorities)%nat → levels q j = v :: l →
  ∃ q', run (S (S (S k))) (set_level j l q) (DAdd j v) = Some (q', DDone (Some v)) ∧ consistent q' ∧
    ∀ i, levels q' i = if decide (i = j) then l else levels q i.
Proof.
  intros Hq Hj E. pose proof Hq as (H1 & H2 & H3 & H4 & H5). set (q1 := set_count j (Zlen l) (set_level j l q)).
  assert (∀ i, levels q1 i = if decide (i = j) then l else levels q i) as Hlv.
  { intros i. cbn. destruct (decide (i = j)) as [->|]; [by rewrite fn_lookup_insert|by rewrite fn_lookup_insert_ne]. }
  assert (∀ i, counts q1 i = Zlen (levels q1 i)) as Hct.
  { intros i. rewrite Hlv. cbn. destruct (decide (i = j)) as [->|]; [by rewrite fn_lookup_insert|by rewrite fn_lookup_insert_ne]. }
  assert (Zlen l + 1 ≤ size q) as Hl by (specialize (H5 j); rewrite E in H5; cbn in H5; lia).
  assert (∀ i, Zlen (levels q1 i) ≤ size q1) as Hsz by (intros i; rewrite Hlv; case_decide; [cbn; lia|apply H5]).
  assert (i64 (counts (set_level j l q) j - 1) = Zlen l) as Hc.
  { cbn. rewrite H3, E. cbn [length]. rewrite swrap_small by lia. lia. }
  assert (Z.testbit (mask q) (Z.of_nat j) = true) as Hb by (apply H2; by rewrite E).
  assert ((Z.land (mask q1) (bit j) =? 0) = false) as Ht by (rewrite bit_test by done; change (mask q1) with (mask q); by rewrite Hb).
  assert (run (S (S (S k))) (set_level j l q) (DAdd j v) = run (S (S k)) q1 (if Zlen l =? 0 then DClear j v else DDone (Some v))) as ->.
  { cbn [run tstep dequeue_step fst snd]. by rewrite Hc. }
  destruct (Z.eqb_spec (Zlen l) 0) as [Hz|Hz].
  - assert (l = []) as -> by by destruct l. exists (set_mask (Z.ldiff (mask q) (bit j)) q1). split; [|split; [|exact Hlv]].
    + cbn [run tstep dequeue_step fst snd]. rewrite Ht. cbn [run tstep dequeue_step fst snd]. rewrite Z.eqb_refl. by destruct k.
    + split; [cbn; apply Z.ldiff_nonneg; by left|]. split; [|done]. intros i. cbn [mask set_mask]. rewrite bit_clear, H2.
      change (levels (set_mask (Z.ldiff (mask q) (bit j)) q1) i) with (levels q1 i). rewrite Hlv. case_decide; naive_solver.
  - exists q1. split; [by destruct k|]. split; [|exact Hlv]. split; [done|]. split; [|done]. intros i. change (mask q1) with (mask q). rewrite H2, Hlv.
    case_decide as Hd; [subst i|done]. rewrite E. split; intros [? _]; (split; [done|]); by destruct l.
Qed.

Lemma run_mask k q : run (S k) q DMask = run k q (if mask q =? 0 then DDone None else DScan numPriorities (mask q)).
Proof. done. Qed.

(** One at a time, the operations of the priority queues implement eight bounded
    queues: a task is added at the end of its clamped level unless that is full,
    and dequeue takes the oldest task of the highest level in use; the mask and
    the counters stay exact. *)
Theorem priority_operations q :
  consistent q →
  (∀ v priority, let l := clampPriority priority in
   ∃ q', enqueue v priority q = Some (q', EDone (Zlen (levels q l) <? size q)) ∧ consistent q' ∧
     ∀ i, levels q' i = if decide (i = l ∧ Zlen (levels q l) < size q) then levels q i ++ [v] else levels q i) ∧
  ∃ q', consistent q' ∧
    match top (levels q) numPriorities with
    | None => dequeue q = Some (q, DDone None)
    | Some j => dequeue q = Some (q', DDone (hd_error (levels q j))) ∧
                ∀ i, levels q' i = if decide (i = j) then List.tl (levels q i) else levels q i
    end.
Proof.
  intros Hq. split; [intros v priority; by apply enqueue_spec|]. pose proof Hq as (H1 & H2 & _). unfold dequeue. rewrite (run_mask 12).
  destruct (top (levels q) numPriorities) as [j|] eqn:Et.
  - destruct (top_spec _ _ _ Et) as (Hj & Hne & _). destruct (levels q j) as [|v l] eqn:E; [done|].
    assert ((mask q =? 0) = false) as ->.
    { apply Z.eqb_neq. intros Hm. assert (Z.testbit (mask q) (Z.of_nat j) = true) as Hb by (apply H2; by rewrite E). by rewrite Hm, Z.bits_0 in Hb. }
    destruct (finish_spec q j v l (j + 1) Hq Hj E) as (q' & Hr & Hq' & Hlv). exists q'. split; [done|]. split.
    + cbn [hd_error]. rewrite <- Hr. replace (S (S (S (j + 1)))) with (j + 4)%nat by lia. by apply (scan_some q numPriorities 3).
    + intros i. rewrite Hlv. case_decide; [subst; by rewrite E|done].
  - exists q. split; [done|]. destruct (Z.eqb_spec (mask q) 0); [done|]. by apply (scan_none q numPriorities 3).
Qed.
End priority.

Definition filled : priorityQueues (T := Z) :=
  set_mask 8 (set_count 3 2 (set_level 3 [5; 6] (newPriorityQueues 64))).

Lemma filled_consistent : consistent filled.
Proof.
  split; [done|]. split; [|split; [|split; [done|]]].
  - intros i. unfold filled. cbn. destruct (decide (i = 3)%nat) as [->|Hi].
    + rewrite fn_lookup_insert. split; [intros _; unfold numPriorities; split; [lia|done]|done].
    + rewrite fn_lookup_insert_ne by done. split; [|by intros [_ H]]. intros H. exfalso. change 8 with (2 ^ 3) in H. rewrite Z.pow2_bits_eqb in H by lia.
      apply Z.eqb_eq in H. lia.
  - intros i. unfold filled. cbn. destruct (decide (i = 3)%nat) as [->|Hi]; [by rewrite !fn_lookup_insert|by rewrite !fn_lookup_insert_ne].
  - intros i. unfold filled. cbn. destruct (decide (i = 3)%nat) as [->|Hi]; [by rewrite !fn_lookup_insert|rewrite !fn_lookup_insert_ne by done; cbn; lia].
Qed.

Lemma priority_operations_witness :
  match dequeue filled with Some (_, DDone r) => r | _ => None end = Some 5 ∧
  ∃ q', consistent q' ∧
    match top (levels filled) numPriorities with
    | None => dequeue filled = Some (filled, DDone None)
    | Some j => dequeue filled = Some (q', DDone (hd_error (levels filled j))) ∧
                ∀ i, levels q' i = if decide (i = j) then List.tl (levels filled i) else levels filled i
    end.
Proof. split; [vm_compute; reflexivity|]. apply (priority_operations filled filled_consistent). Defined.

(** ** Two goroutines

    [true] moves the one that dequeues, [false] the one that enqueues. *)
Fixpoint interleave {T} (l : list bool) (q : priorityQueues (T := T)) (d e : pc) : priorityQueues * pc * pc :=
  match l with
  | [] => (q, d, e)
  | true :: l => interleave l (tstep q d).1 (tstep q d).2 e
  | false :: l => interleave l (tstep q e).1 d (tstep q e).2
  end.

(** The count falls to zero, the enqueue finds the bit still set, then the
    dequeue clears it: the task 6 stays behind, and no dequeue finds it. *)
Definition lost_run : priorityQueues (T := Z) * pc (T := Z) * pc (T := Z) :=
  interleave ([true; true; true; true; true; true; false; true; false; false; true; true])
    (set_mask 8 (set_count 3 1 (set_level 3 [5] (newPriorityQueues 64)))) DMask (EPush 6 3).
Definition result_of (o : option (priorityQueues (T := Z) * pc (T := Z))) : option (pc (T := Z)) := match o with Some (_, p) => Some p | None => None end.

Lemma priority_task_lost :
  let q := lost_run.1.1 in
  lost_run.1.2 = DDone (Some 5) ∧ lost_run.2 = EDone true ∧ levels q 3%nat = [6] ∧ counts q 3%nat = 1 ∧
  result_of (dequeue q) = Some (DDone None).
Proof. cbv zeta. split_and!; vm_compute; reflexivity. Qed.
