(* ===== verification/LfQueue.v ===== *)
(** * Drivers: the lock-free list queue (drivers/lfqueue/queue.go)

    Nodes live in a shared store and are recycled through a sync.Pool; every
    atomic operation and every access to a field is a step. *)
From stdpp Require Import list functions.
From S2P Require Import Prelude.

Section lfqueue.
Context {V : Type}.

Record node : Type := mk_node { val : option V; next : option nat }.

(** [fresh] is the first node not made yet; a nil value is [None]. *)
Record Queue : Type := mk_queue { nodes : nat → node; head : option nat; tail : option nat; pool : list nat; fresh : nat }.

Definition New : Queue := mk_queue (λ _, mk_node None None) (Some 0%nat) (Some 0%nat) [] 1.

Definition set_node (n : nat) (x : node) (q : Queue) : Queue := mk_queue (<[n := x]> (nodes q)) (head q) (tail q) (pool q) (fresh q).
Definition set_head (h : option nat) (q : Queue) : Queue := mk_queue (nodes q) h (tail q) (pool q) (fresh q).
Definition set_tail (t : option nat) (q : Queue) : Queue := mk_queue (nodes q) (head q) t (pool q) (fresh q).
Definition set_pool (l : list nat) (f : nat) (q : Queue) : Queue := mk_queue (nodes q) (head q) (tail q) l f.

Definition set_val (n : nat) (v : option V) (q : Queue) : Queue := set_node n (mk_node v (next (nodes q n))) q.
Definition set_next (n : nat) (x : option nat) (q : Queue) : Queue := set_node n (mk_node (val (nodes q n)) x) q.

Inductive pc : Type :=
  | Idle
  | EGet (v : V) | EVal (n : nat) (v : V) | ENil (n : nat)
  | ETail (n : nat) | ENext (n : nat) (t : option nat) | ECheck (n : nat) (t next : option nat)
  | ELink (n : nat) (t : option nat) | ESwing (n : nat) (t : option nat) | EHelp (n : nat) (t next : option nat)
  | EDone
  | DHead | DTail (h : option nat) | DNext (h t : option nat) | DCheck (h t next : option nat)
  | DHelp (t next : option nat) | DCas (h next : option nat)
  | DVal (h next : option nat) | DClearVal (h : option nat) (v : option V) | DClearNext (h : option nat) (v : option V)
  | DPut (h : option nat) (v : option V)
  | DDone (r : option (option V)).

Definition cas (cur old : option nat) : bool := bool_decide (cur = old).

Definition Enqueue_step (q : Queue) (p : pc) : outcome (Queue * pc) :=
  match p with
  | EGet v =>
      match pool q with
      | n :: l => Ok (set_pool l (fresh q) q, EVal n v)
      | [] => Ok (set_pool [] (S (fresh q)) q, EVal (fresh q) v)
      end
  | EVal n v => Ok (set_val n (Some v) q, ENil n)
  | ENil n => Ok (set_next n None q, ETail n)
  | ETail n => Ok (q, ENext n (tail q))
  | ENext n t => match t with Some t0 => Ok (q, ECheck n t (next (nodes q t0))) | None => Panic end
  | ECheck n t x => Ok (q, if cas (tail q) t then match x with None => ELink n t | Some _ => EHelp n t x end else ETail n)
  | ELink n t =>
      match t with
      | Some t0 => if cas (next (nodes q t0)) None then Ok (set_next t0 (Some n) q, ESwing n t) else Ok (q, ETail n)
      | None => Panic
      end
  | ESwing n t => Ok (if cas (tail q) t then set_tail (Some n) q else q, EDone)
  | EHelp n t x => Ok (if cas (tail q) t then set_tail x q else q, ETail n)
  | _ => Err "not in Enqueue"
  end.

Definition Dequeue_step (q : Queue) (p : pc) : outcome (Queue * pc) :=
  match p with
  | DHead => Ok (q, DTail (head q))
  | DTail h => Ok (q, DNext h (tail q))
  | DNext h t => match h with Some h0 => Ok (q, DCheck h t (next (nodes q h0))) | None => Panic end
  | DCheck h t x =>
      Ok (q, if cas (head q) h then
               if cas h t then match x with None => DDone None | Some _ => DHelp t x end
               else DCas h x
             else DHead)
  | DHelp t x => Ok (if cas (tail q) t then set_tail x q else q, DHead)
  | DCas h x => if cas (head q) h then Ok (set_head x q, DVal h x) else Ok (q, DHead)
  | DVal h x => match x with Some x0 => Ok (q, DClearVal h (val (nodes q x0))) | None => Panic end
  | DClearVal h v => match h with Some h0 => Ok (set_val h0 None q, DClearNext h v) | None => Panic end
  | DClearNext h v => match h with Some h0 => Ok (set_next h0 None q, DPut h v) | None => Panic end
  | DPut h v => match h with Some h0 => Ok (set_pool (h0 :: pool q) (fresh q) q, DDone (Some v)) | None => Panic end
  | _ => Err "not in Dequeue"
  end.

Definition lf_step (q : Queue) (p : pc) : outcome (Queue * pc) :=
  match p with
  | EGet _ | EVal _ _ | ENil _ | ETail _ | ENext _ _ | ECheck _ _ _ | ELink _ _ | ESwing _ _ | EHelp _ _ _ => Enqueue_step q p
  | _ => Dequeue_step q p
  end.

(** ** The system *)
Record lsys : Type := mk_lsys { queue : Queue; threads : nat → pc }.

Inductive lstep : lsys → lsys → Prop :=
  | l_call_enq q f i v : f i = Idle → lstep (mk_lsys q f) (mk_lsys q (<[i := EGet v]> f))
  | l_call_deq q f i : f i = Idle → lstep (mk_lsys q f) (mk_lsys q (<[i := DHead]> f))
  | l_run q f i q' p : lf_step q (f i) = Ok (q', p) → lstep (mk_lsys q f) (mk_lsys q' (<[i := p]> f)).

Inductive lreach : lsys → Prop :=
  | lreach_init : lreach (mk_lsys New (λ _, Idle))
  | lreach_step s s' : lreach s → lstep s s' → lreach s'.

(** Actions of a schedule; one that is not possible is skipped. *)
Inductive action : Type := Enq (i : nat) (v : V) | Deq (i : nat) | Run (i : nat).

Definition act (a : action) (s : lsys) : lsys :=
  let '(mk_lsys q f) := s in
  match a with
  | Enq i v => match f i with Idle => mk_lsys q (<[i := EGet v]> f) | _ => s end
  | Deq i => match f i with Idle => mk_lsys q (<[i := DHead]> f) | _ => s end
  | Run i => match lf_step q (f i) with Ok (q', p) => mk_lsys q' (<[i := p]> f) | _ => s end
  end.

Lemma play_reach l s : lreach s → lreach (foldl (λ s a, act a s) s l).
Proof.
  revert s. induction l as [|a l IH]; intros s Hs; [done|]. cbn. apply IH. destruct s as [q f]. destruct a as [i v|i|i]; cbn.
  - destruct (f i) eqn:E; try done. eapply lreach_step; [done|by constructor].
  - destruct (f i) eqn:E; try done. eapply lreach_step; [done|by constructor].
  - destruct (lf_step q (f i)) as [[q' p]| | |] eqn:E; try done. eapply lreach_step; [done|by econstructor].
Qed.
End lfqueue.

Definition runs (k i : nat) : list (action (V := Z)) := replicate k (Run i).

(** Two values are enqueued.  Goroutine 2 wins the first node and stops before it
    reads the value; goroutine 3 takes the second value, and as it retires the
    first node clears the value that goroutine 2 then returns. *)
Definition losing_schedule : list (action (V := Z)) :=
  Enq 0 7 :: runs 8 0 ++ Enq 1 8 :: runs 8 1 ++ Deq 2 :: runs 5 2 ++ Deq 3 :: runs 9 3 ++ runs 4 2.

Lemma lfqueue_loses_value :
  ∃ s, lreach s ∧ threads s 0%nat = EDone ∧ threads s 1%nat = EDone ∧
    threads s 2%nat = DDone (Some None) ∧ threads s 3%nat = DDone (Some (Some 8)).
Proof.
  exists (foldl (λ s a, act a s) (mk_lsys New (λ _, Idle)) losing_schedule). split; [apply play_reach, lreach_init|].
  split_and!; vm_compute; reflexivity.
Qed.
