(* ===== verification/Bb64.v ===== *)
(** * Utilities: the BB64 hash (utils/bb64.go, utils/bb64_amd64.s, forge/hash_scalar.go)

    The 64-bit hash under the incremental digests and the caches.  The scalar
    routine, its copy in package forge and the AVX2 routine (as operations on
    vectors of four 64-bit words) are given separately and shown equal; the
    words of the 32-byte blocks enter the hash through one sum by exclusive or,
    so that their order does not matter. *)
From stdpp Require Import list.
From S2P Require Import Prelude.

Definition bb64Mul : Z := 0x9e3779b97f4a7c15.
Definition bb64Mul32 : Z := 0x7f4a7c15.
Definition forgeHashThreshold : Z := 4096.

(** The little-endian word at the start of a slice. *)
Definition Uint64 (data : bytes) : Z := le_val (take 8 data).

Definition RotateLeft64 (x k : Z) : Z := Z.lor (u64 (Z.shiftl x k)) (Z.shiftr x (64 - k)).

(** ** The scalar routine *)
Definition mix_word (x : Z) : Z :=
  let mixed := Z.lxor (Z.lxor x (Z.shiftr x 29)) (u64 (Z.shiftl x 35)) in
  Z.lxor mixed (u32 (u32 mixed * u32 bb64Mul32)).

Definition lanes_step (data : bytes) (seed : Z) (lanes : list Z) : list Z :=
  imap (λ i lane, Z.lxor lane (mix_word (Z.lxor (Uint64 (drop (i * 8) data)) seed))) lanes.

Fixpoint lanes_loop (fuel : nat) (data : bytes) (seed : Z) (lanes : list Z) : list Z :=
  match fuel with
  | O => lanes
  | S k =>
      if (32 <=? length data)%nat then lanes_loop k (drop 32 data) seed (lanes_step data seed lanes)
      else lanes
  end.

Definition tail_step (tail value : Z) : Z := u64 (RotateLeft64 (Z.lxor tail value) 13 * bb64Mul).

Definition finish_hash (hash : Z) : Z :=
  let hash := Z.lxor hash (Z.shiftr hash 33) in
  let hash := u64 (hash * bb64Mul) in
  Z.lxor hash (Z.shiftr hash 29).

(** [len(data) &^ 31]. *)
Definition tail_offset (data : bytes) : nat := Z.to_nat (Z.ldiff (Zlen data) 31).

Definition hashBB64Scalar (data : bytes) (seed : Z) : Z :=
  let lanes := lanes_loop (length data) data seed [0; 0; 0; 0] in
  let tail := fold_left tail_step (drop (tail_offset data) data) seed in
  finish_hash (Z.lxor (foldl Z.lxor 0 lanes) tail).

(** ** The AVX2 routine: vectors of four words *)
Definition vmovdqu (si : bytes) : list Z :=
  [Uint64 si; Uint64 (drop 8 si); Uint64 (drop 16 si); Uint64 (drop 24 si)].
Definition vpxor : list Z → list Z → list Z := zip_with Z.lxor.
Definition vpand : list Z → list Z → list Z := zip_with Z.land.
Definition vpsrlq (k : Z) : list Z → list Z := map (λ x, Z.shiftr x k).
Definition vpsllq (k : Z) : list Z → list Z := map (λ x, u64 (Z.shiftl x k)).
Definition vpmuludq : list Z → list Z → list Z := zip_with (λ x y, u32 x * u32 y).
Definition vpbroadcastq (x : Z) : list Z := [x; x; x; x].

Definition bb64MulVector : list Z := vpbroadcastq bb64Mul.
Definition bb64MaskVector : list Z := vpbroadcastq 0xffffffff.

(** One vector through the instructions between its load and its sum into Y7. *)
Definition mix_vector (y4 y0 : list Z) : list Z :=
  let y0 := vpxor y4 y0 in
  let y8 := vpsrlq 29 y0 in
  let y9 := vpsllq 35 y0 in
  let y0 := vpxor y8 y0 in
  let y0 := vpxor y9 y0 in
  let y8 := vpmuludq bb64MulVector y0 in
  let y8 := vpand bb64MaskVector y8 in
  vpxor y8 y0.

Fixpoint bb64_loop (dx : nat) (y4 si : list Z) (cx : Z) (y7 : list Z) : list Z * Z * list Z :=
  match dx with
  | O => (si, cx, y7)
  | S dx' =>
      let y7 := vpxor (mix_vector y4 (vmovdqu si)) y7 in
      let y7 := vpxor (mix_vector y4 (vmovdqu (drop 32 si))) y7 in
      let y7 := vpxor (mix_vector y4 (vmovdqu (drop 64 si))) y7 in
      let y7 := vpxor (mix_vector y4 (vmovdqu (drop 96 si))) y7 in
      bb64_loop dx' y4 (drop 128 si) (cx - 128) y7
  end.

Fixpoint bb64_remainder_loop (fuel : nat) (y4 si : list Z) (cx : Z) (y7 : list Z) : list Z * Z * list Z :=
  match fuel with
  | O => (si, cx, y7)
  | S k =>
      if cx <? 32 then (si, cx, y7)
      else bb64_remainder_loop k y4 (drop 32 si) (cx - 32) (vpxor (mix_vector y4 (vmovdqu si)) y7)
  end.

(** The register R9 after CX bytes at SI. *)
Definition bb64_tail_loop (si : bytes) (cx r9 : Z) : Z :=
  fold_left (λ r9 al, u64 (RotateLeft64 (Z.lxor al r9) 13 * bb64Mul)) (take (Z.to_nat cx) si) r9.

Definition bb64_fold (y7 : list Z) (r9 : Z) : Z :=
  match y7 with
  | [a; b; c; d] =>
      let '(lo, hi) := (Z.lxor c a, Z.lxor d b) in
      let ax := Z.lxor r9 (Z.lxor hi lo) in
      let ax := Z.lxor (Z.shiftr ax 33) ax in
      let ax := u64 (bb64Mul * ax) in
      Z.lxor (Z.shiftr ax 29) ax
  | _ => 0
  end.

Definition HashBB64Asm (data : bytes) (seed : Z) : Z :=
  let y4 := vpbroadcastq seed in
  let '(si, cx, y7) := bb64_loop (Z.to_nat (Z.shiftr (Zlen data) 7)) y4 data (Zlen data) (vpbroadcastq 0) in
  let '(si, cx, y7) := bb64_remainder_loop (length data) y4 si cx y7 in
  bb64_fold y7 (bb64_tail_loop si cx seed).

(** ** The copy in package forge and the dispatch on the processor *)
Definition forge_lane (value : Z) : Z :=
  let mixed := Z.lxor (Z.lxor value (Z.shiftr value 29)) (u64 (Z.shiftl value 35)) in
  Z.lxor mixed (u32 (u32 mixed * 0x7f4a7c15)).

Fixpoint forge_lanes (fuel : nat) (data : bytes) (seed : Z) (lanes : list Z) : list Z :=
  match fuel with
  | O => lanes
  | S k =>
      if (32 <=? length data)%nat then
        forge_lanes k (drop 32 data) seed
          (imap (λ i lane, Z.lxor lane (forge_lane (Z.lxor (Uint64 (drop (i * 8) data)) seed))) lanes)
      else lanes
  end.

Definition hashForgeScalar (data : bytes) (seed : Z) : Z :=
  let lanes := forge_lanes (length data) data seed [0; 0; 0; 0] in
  let tail := fold_left (λ tail value, u64 (RotateLeft64 (Z.lxor tail value) 13 * 0x9e3779b97f4a7c15))
                (drop (tail_offset data) data) seed in
  let hash := Z.lxor (foldl Z.lxor 0 lanes) tail in
  let hash := Z.lxor hash (Z.shiftr hash 33) in
  let hash := u64 (hash * 0x9e3779b97f4a7c15) in
  Z.lxor hash (Z.shiftr hash 29).

Record cpu_features := mk_cpu { HasAVX2 : bool; HasBMI2 : bool }.

(** The hash task of a batch: [dispatchBatchAVX2] runs the instructions of
    [HashBB64Asm], the generic dispatcher [hashForgeScalar]. *)
Definition HashBytes (cpu : cpu_features) (data : bytes) (seed : Z) : Z :=
  if HasAVX2 cpu && HasBMI2 cpu then HashBB64Asm data seed else hashForgeScalar data seed.

Definition HashBB64 (cpu : cpu_features) (data : bytes) (seed : Z) : Z :=
  if (forgeHashThreshold <=? Zlen data) && HasAVX2 cpu && HasBMI2 cpu then HashBytes cpu data seed
  else if HasAVX2 cpu then HashBB64Asm data seed
  else hashBB64Scalar data seed.

(** ** Digests of 32 bytes *)
Fixpoint expand_hash (n : nat) (hash : Z) : bytes :=
  match n with
  | O => []
  | S k =>
      let hash := Z.lxor hash (Z.shiftr hash 29) in
      let hash := u64 (hash * bb64Mul) in
      le_bytes 8 hash ++ expand_hash k hash
  end.

Definition leaf_seed (kind : Z) (index : nat) (base : Z) : Z :=
  Z.lxor (Z.lxor (Z.lxor base (Z.shiftl kind 56)) (u64 (Z.of_nat index * 0xd6e8feb86659fd93)))
    0x4242363400000001.

Definition expandBB64Seed (cpu : cpu_features) (data : bytes) (kind : Z) (index : nat) (base : Z) : bytes :=
  expand_hash 4 (HashBB64 cpu data (leaf_seed kind index base)).

Definition expandBB64 (cpu : cpu_features) (data : bytes) (kind : Z) (index : nat) : bytes :=
  expandBB64Seed cpu data kind index 0.

Definition hashBB64PairSeed (left right : bytes) (seed : Z) : bytes :=
  let data := left ++ right in
  expand_hash 4 (Z.lxor (hashBB64Scalar data seed) (hashBB64Scalar data (Z.lxor seed 0xd6e8feb86659fd93))).

Definition hashBB64Pair (left right : bytes) : bytes := hashBB64PairSeed left right 0x4242363400000001.

(** ** The routines agree *)
Lemma u32_land x : Z.land x 0xffffffff = u32 x.
Proof. change 0xffffffff with (Z.ones 32). by rewrite Z.land_ones by lia. Qed.

Lemma vpxor_comm v w : vpxor v w = vpxor w v.
Proof. revert w. induction v; intros [|]; cbn; try done. f_equal; [apply Z.lxor_comm|apply IHv]. Qed.

Lemma mix_vector_spec y4 w a b c d :
  mix_vector (vpbroadcastq y4) [a; b; c; d] = (λ x, mix_word (Z.lxor x y4)) <$> [a; b; c; d] ∧
  vpxor (mix_vector (vpbroadcastq y4) [a; b; c; d]) w
    = vpxor w ((λ x, mix_word (Z.lxor x y4)) <$> [a; b; c; d]).
Proof.
  assert (∀ x, Z.lxor (Z.land 0xffffffff
      (u32 bb64Mul * u32 (Z.lxor (u64 (Z.shiftl (Z.lxor y4 x) 35)) (Z.lxor (Z.shiftr (Z.lxor y4 x) 29) (Z.lxor y4 x)))))
      (Z.lxor (u64 (Z.shiftl (Z.lxor y4 x) 35)) (Z.lxor (Z.shiftr (Z.lxor y4 x) 29) (Z.lxor y4 x)))
      = mix_word (Z.lxor x y4)) as E.
  { intros x. rewrite (Z.lxor_comm y4 x). set (z := Z.lxor x y4). unfold mix_word. cbv zeta.
    rewrite (Z.land_comm 0xffffffff), u32_land.
    replace (Z.lxor (u64 (Z.shiftl z 35)) (Z.lxor (Z.shiftr z 29) z))
      with (Z.lxor (Z.lxor z (Z.shiftr z 29)) (u64 (Z.shiftl z 35))).
    2: { rewrite Z.lxor_comm. f_equal. apply Z.lxor_comm. }
    rewrite Z.lxor_comm. do 2 f_equal. by rewrite Z.mul_comm. }
  assert (mix_vector (vpbroadcastq y4) [a; b; c; d] = (λ x, mix_word (Z.lxor x y4)) <$> [a; b; c; d]) as ->.
  { unfold mix_vector, vpbroadcastq, bb64MaskVector, bb64MulVector, vpxor, vpand, vpsrlq, vpsllq, vpmuludq.
    unfold vpbroadcastq. cbn [zip_with map fmap list_fmap]. by rewrite !E. }
  split; [done|]. apply vpxor_comm.
Qed.

Lemma vector_step data seed lanes :
  length lanes = 4%nat →
  vpxor (mix_vector (vpbroadcastq seed) (vmovdqu data)) lanes = lanes_step data seed lanes.
Proof.
  intros Hl. destruct lanes as [|a [|b [|c [|d [|]]]]]; try done.
  unfold vmovdqu. by rewrite (proj2 (mix_vector_spec _ _ _ _ _ _)).
Qed.

Lemma lanes_step_length data seed lanes : length (lanes_step data seed lanes) = length lanes.
Proof. apply length_imap. Qed.

Lemma lanes_loop_length fuel data seed lanes : length (lanes_loop fuel data seed lanes) = length lanes.
Proof.
  revert data lanes. induction fuel as [|k IH]; intros; cbn; [done|].
  case_match; [|done]. by rewrite IH, lanes_step_length.
Qed.

(** More fuel than bytes changes nothing. *)
Lemma lanes_loop_fuel fuel fuel' data seed lanes :
  (length data ≤ fuel)%nat → (length data ≤ fuel')%nat →
  lanes_loop fuel data seed lanes = lanes_loop fuel' data seed lanes.
Proof.
  revert fuel' data lanes. induction fuel as [|k IH]; intros fuel' data lanes H H'.
  - destruct data; [|cbn in H; lia]. by destruct fuel'.
  - destruct fuel' as [|k']; [destruct data; [done|cbn in *; lia]|]. cbn [lanes_loop].
    case_match eqn:Hc; [|done]. apply Nat.leb_le in Hc. apply IH; rewrite length_drop; lia.
Qed.

Definition all_lanes (data : bytes) (seed : Z) (lanes : list Z) : list Z :=
  lanes_loop (length data) data seed lanes.

Lemma all_lanes_step data seed lanes :
  (32 ≤ length data)%nat →
  all_lanes data seed lanes = all_lanes (drop 32 data) seed (lanes_step data seed lanes).
Proof.
  intros H. unfold all_lanes at 1. destruct (length data) as [|n] eqn:Hn; [lia|]. cbn [lanes_loop].
  rewrite (proj2 (Nat.leb_le _ _)) by lia. apply lanes_loop_fuel; rewrite length_drop; lia.
Qed.

Lemma all_lanes_short data seed lanes : (length data < 32)%nat → all_lanes data seed lanes = lanes.
Proof.
  intros H. unfold all_lanes. destruct (length data) as [|n] eqn:Hn; [done|]. cbn [lanes_loop].
  by rewrite (proj2 (Nat.leb_gt _ _)) by lia.
Qed.

Lemma bb64_loop_spec dx seed data y7 :
  (128 * dx ≤ length data)%nat → length y7 = 4%nat →
  ∃ y7', bb64_loop dx (vpbroadcastq seed) data (Zlen data) y7
      = (drop (128 * dx) data, Zlen (drop (128 * dx) data), y7') ∧ length y7' = 4%nat ∧
    all_lanes data seed y7 = all_lanes (drop (128 * dx) data) seed y7'.
Proof.
  revert data y7. induction dx as [|dx IH]; intros data y7 Hd Hl.
  { exists y7. by rewrite Nat.mul_0_r, drop_0. }
  assert (∀ d l, (32 ≤ length d)%nat → length l = 4%nat →
    all_lanes d seed l
    = all_lanes (drop 32 d) seed (vpxor (mix_vector (vpbroadcastq seed) (vmovdqu d)) l)
    ∧ length (vpxor (mix_vector (vpbroadcastq seed) (vmovdqu d)) l) = 4%nat) as Hs.
  { intros d l H1 H2. rewrite vector_step by done. rewrite lanes_step_length. split; [|done].
    by apply all_lanes_step. }
  cbn [bb64_loop].
  destruct (Hs data y7 ltac:(lia) Hl) as [-> L1].
  destruct (Hs (drop 32 data) _ ltac:(rewrite length_drop; lia) L1) as [-> L2].
  rewrite drop_drop. change (32 + 32)%nat with 64%nat.
  destruct (Hs (drop 64 data) _ ltac:(rewrite length_drop; lia) L2) as [-> L3].
  rewrite drop_drop. change (64 + 32)%nat with 96%nat.
  destruct (Hs (drop 96 data) _ ltac:(rewrite length_drop; lia) L3) as [-> L4].
  rewrite drop_drop. change (96 + 32)%nat with 128%nat.
  destruct (IH (drop 128 data) _ ltac:(rewrite length_drop; lia) L4) as (y7' & He & Hl' & Ha).
  rewrite drop_drop in He, Ha. replace (128 + 128 * dx)%nat with (128 * S dx)%nat in He, Ha by lia.
  exists y7'. split; [|by split]. rewrite <- He. f_equal. rewrite length_drop. lia.
Qed.

Lemma bb64_remainder_spec fuel seed data y7 :
  (length data ≤ fuel)%nat → length y7 = 4%nat →
  bb64_remainder_loop fuel (vpbroadcastq seed) data (Zlen data) y7
  = (drop (32 * (length data / 32)) data, Zlen data mod 32, all_lanes data seed y7).
Proof.
  revert data y7. induction fuel as [|k IH]; intros data y7 Hf Hl.
  { destruct data; [|cbn in Hf; lia]. done. }
  cbn [bb64_remainder_loop]. case_match eqn:Hc.
  - rewrite all_lanes_short by lia. rewrite Nat.div_small by lia. rewrite Nat.mul_0_r, drop_0.
    rewrite Z.mod_small by lia. done.
  - assert (32 ≤ length data)%nat by lia.
    replace (Zlen data - 32) with (Zlen (drop 32 data)) by (rewrite length_drop; lia).
    rewrite vector_step by done. rewrite IH by (rewrite ?length_drop, ?lanes_step_length; lia).
    rewrite <- all_lanes_step by done. rewrite drop_drop, length_drop.
    assert (length data / 32 = S ((length data - 32) / 32))%nat as ->.
    { replace (length data) with ((length data - 32) + 1 * 32)%nat at 1 by lia.
      rewrite Nat.div_add by lia. lia. }
    f_equal; [f_equal; [f_equal; lia|]].
    rewrite Nat2Z.inj_sub by lia. rewrite <- (Z.mod_add _ 1 32) by lia. f_equal. lia.
Qed.

Lemma tail_offset_spec data : tail_offset data = (32 * (length data / 32))%nat.
Proof.
  unfold tail_offset. rewrite <- (Nat2Z.id (32 * _)). f_equal.
  rewrite Nat2Z.inj_mul, Nat2Z.inj_div.
  change 31 with (Z.ones 5). rewrite Z.ldiff_ones_r by lia.
  rewrite Z.shiftr_div_pow2, Z.shiftl_mul_pow2 by lia. change (2 ^ 5) with 32. lia.
Qed.

Lemma fold_left_ext_Z (f g : Z → Z → Z) l x : (∀ a b, f a b = g a b) → fold_left f l x = fold_left g l x.
Proof. intros H. revert x. induction l; intros; cbn; [done|]. by rewrite H. Qed.

Lemma finish_hash_sym x :
  Z.lxor (Z.shiftr (u64 (bb64Mul * Z.lxor (Z.shiftr x 33) x)) 29) (u64 (bb64Mul * Z.lxor (Z.shiftr x 33) x))
  = finish_hash x.
Proof.
  unfold finish_hash. cbv zeta. rewrite (Z.lxor_comm x), (Z.mul_comm (Z.lxor _ _)).
  apply Z.lxor_comm.
Qed.

(** The AVX2 routine computes the scalar hash. *)
Lemma HashBB64Asm_scalar data seed : HashBB64Asm data seed = hashBB64Scalar data seed.
Proof.
  unfold HashBB64Asm, hashBB64Scalar. cbv zeta. set (n := Z.to_nat (Z.shiftr (Zlen data) 7)).
  assert (128 * n ≤ length data)%nat as Hn.
  { unfold n. rewrite Z.shiftr_div_pow2 by lia. change (2 ^ 7) with 128.
    pose proof (Z.mul_div_le (Zlen data) 128). lia. }
  destruct (bb64_loop_spec n seed data (vpbroadcastq 0) Hn eq_refl) as (y7 & -> & Hl & Ha).
  rewrite bb64_remainder_spec by (rewrite ?length_drop; lia). rewrite <- Ha.
  set (lanes := all_lanes data seed (vpbroadcastq 0)).
  assert (length lanes = 4%nat) as Hl4 by (unfold lanes, all_lanes; by rewrite lanes_loop_length).
  change (lanes_loop _ data seed _) with lanes.
  destruct lanes as [|a [|b [|c [|d [|]]]]]; try done. cbn [bb64_fold foldl].
  rewrite finish_hash_sym. f_equal.
  rewrite drop_drop, tail_offset_spec. rewrite length_drop.
  assert (128 * n + 32 * ((length data - 128 * n) / 32) = 32 * (length data / 32))%nat as ->.
  { replace (length data) with ((length data - 128 * n) + (4 * n) * 32)%nat at 2 by lia.
    rewrite Nat.div_add by lia. lia. }
  unfold bb64_tail_loop. rewrite take_ge.
  2: { rewrite length_drop. pose proof (Nat.div_mod_eq (length data) 32).
       replace (Z.of_nat (length data - 128 * n)) with (Zlen data + (- (4 * Z.of_nat n)) * 32) by lia.
       rewrite Z.mod_add by lia. change 32 with (Z.of_nat 32) at 1. rewrite <- Nat2Z.inj_mod. lia. }
  rewrite (fold_left_ext_Z _ tail_step).
  2: { intros. unfold tail_step. by rewrite (Z.lxor_comm b0). }
  rewrite Z.lxor_comm. f_equal. rewrite Z.lxor_0_l.
  apply Z.bits_inj. intros i. rewrite !Z.lxor_spec.
  destruct (Z.testbit a i), (Z.testbit b i), (Z.testbit c i), (Z.testbit d i); done.
Qed.

Lemma forge_lanes_eq fuel data seed lanes : forge_lanes fuel data seed lanes = lanes_loop fuel data seed lanes.
Proof.
  revert data lanes. induction fuel as [|k IH]; intros; cbn; [done|]. by rewrite IH.
Qed.

Lemma hashForgeScalar_eq data seed : hashForgeScalar data seed = hashBB64Scalar data seed.
Proof. unfold hashForgeScalar. by rewrite forge_lanes_eq. Qed.

Lemma HashBB64_scalar cpu data seed : HashBB64 cpu data seed = hashBB64Scalar data seed.
Proof.
  unfold HashBB64, HashBytes. destruct (_ && _ && _).
  - destruct (_ && _); [apply HashBB64Asm_scalar|apply hashForgeScalar_eq].
  - destruct (HasAVX2 cpu); [apply HashBB64Asm_scalar|reflexivity].
Qed.

(** ** The order of the words of the blocks

    The whole 32-byte blocks enter the hash through their 8-byte words, and
    every word through one exclusive or. *)
Fixpoint block_words (n : nat) (data : bytes) : list Z :=
  match n with
  | O => []
  | S k => Uint64 data :: block_words k (drop 8 data)
  end.

Fixpoint xor_all (l : list Z) : Z :=
  match l with [] => 0 | x :: r => Z.lxor x (xor_all r) end.

Lemma xor_all_perm l l' : l ≡ₚ l' → xor_all l = xor_all l'.
Proof.
  induction 1; cbn; try congruence.
  rewrite <- !Z.lxor_assoc. f_equal. apply Z.lxor_comm.
Qed.

Definition word_lanes (data : bytes) (seed : Z) : list Z :=
  (λ x, mix_word (Z.lxor x seed)) <$> block_words (4 * (length data / 32)) data.

Lemma lxor_shuffle a b c d w x y z r :
  Z.lxor (Z.lxor (Z.lxor (Z.lxor (Z.lxor a w) (Z.lxor b x)) (Z.lxor c y)) (Z.lxor d z)) r
  = Z.lxor (Z.lxor (Z.lxor (Z.lxor a b) c) d) (Z.lxor w (Z.lxor x (Z.lxor y (Z.lxor z r)))).
Proof.
  apply Z.bits_inj. intros i. rewrite !Z.lxor_spec.
  destruct (Z.testbit a i), (Z.testbit b i), (Z.testbit c i), (Z.testbit d i), (Z.testbit w i),
    (Z.testbit x i), (Z.testbit y i), (Z.testbit z i); by destruct (Z.testbit r i).
Qed.

Lemma all_lanes_xor data seed lanes :
  length lanes = 4%nat →
  foldl Z.lxor 0 (all_lanes data seed lanes) = Z.lxor (foldl Z.lxor 0 lanes) (xor_all (word_lanes data seed)).
Proof.
  remember (length data / 32)%nat as n eqn:Hn. revert data lanes Hn.
  induction n as [|n IH]; intros data lanes Hn Hl.
  - symmetry in Hn. apply Nat.div_small_iff in Hn; [|lia]. rewrite all_lanes_short by done.
    unfold word_lanes. rewrite Nat.div_small by done. cbn. by rewrite Z.lxor_0_r.
  - assert (32 ≤ length data)%nat as Hge.
    { destruct (decide (length data < 32)%nat); [|lia]. rewrite Nat.div_small in Hn by done. lia. }
    assert (n = length (drop 32 data) / 32)%nat as Hn'.
    { rewrite length_drop. rewrite <- (Nat.sub_add 32 (length data)) in Hn by done.
      replace (length data - 32 + 32)%nat with (length data - 32 + 1 * 32)%nat in Hn by lia.
      rewrite Nat.div_add in Hn by lia. lia. }
    rewrite all_lanes_step, IH by (rewrite ?lanes_step_length; done).
    unfold word_lanes. rewrite <- Hn, <- Hn'. replace (4 * S n)%nat with (4 + 4 * n)%nat by lia.
    destruct lanes as [|a [|b [|c [|d [|]]]]]; try done.
    cbn [Nat.add block_words fmap list_fmap xor_all foldr foldl lanes_step imap].
    rewrite !drop_drop. change (8 + 8)%nat with 16%nat. change (8 + 16)%nat with 24%nat.
    change (8 + 24)%nat with 32%nat. cbn [Init.Nat.mul Init.Nat.add Nat.mul Nat.add]. fold (xor_all).
    unfold compose. cbn [Nat.mul Nat.add]. rewrite drop_0.
    set (r := xor_all _).
    generalize (mix_word (Z.lxor (Uint64 data) seed)), (mix_word (Z.lxor (Uint64 (drop 8 data)) seed)),
      (mix_word (Z.lxor (Uint64 (drop 16 data)) seed)), (mix_word (Z.lxor (Uint64 (drop 24 data)) seed)).
    intros. by rewrite !Z.lxor_0_l, lxor_shuffle.
Qed.

Lemma hashBB64Scalar_words data seed :
  hashBB64Scalar data seed
  = finish_hash (Z.lxor (xor_all (word_lanes data seed))
      (fold_left tail_step (drop (32 * (length data / 32)) data) seed)).
Proof.
  unfold hashBB64Scalar. cbv zeta. fold (all_lanes data seed [0; 0; 0; 0]).
  by rewrite all_lanes_xor, tail_offset_spec.
Qed.

Lemma lxor_word w a b : 0 ≤ w → is_word w a → is_word w b → is_word w (Z.lxor a b).
Proof.
  intros Hw [Ha Ha'] [Hb Hb']. split; [by apply Z.lxor_nonneg|].
  destruct (decide (Z.lxor a b = 0)) as [->|]; [lia|].
  assert (0 ≤ Z.lxor a b) by (by apply Z.lxor_nonneg).
  apply Z.log2_lt_pow2; [lia|]. pose proof (Z.log2_lxor a b Ha Hb).
  assert (∀ x, 0 ≤ x < 2 ^ w → Z.log2 x < w ∨ x = 0 ∧ Z.log2 x = 0) as Hx.
  { intros x Hx. destruct (decide (x = 0)) as [->|]; [right; done|left]. apply Z.log2_lt_pow2; lia. }
  destruct (decide (w = 0)) as [->|]; [assert (a = 0) as -> by lia; assert (b = 0) as -> by lia; done|].
  destruct (Hx a), (Hx b); lia.
Qed.

Lemma shiftr_word w a k : 0 ≤ k → is_word w a → is_word w (Z.shiftr a k).
Proof.
  intros Hk [H0 H1]. rewrite Z.shiftr_div_pow2 by done. split.
  - apply Z.div_pos; [done|]. lia.
  - apply Z.div_lt_upper_bound; [lia|]. nia.
Qed.

Lemma finish_hash_word x : is_word 64 (finish_hash x).
Proof.
  unfold finish_hash. cbv zeta. apply lxor_word; [done| |apply shiftr_word; [done|]];
  by apply (wrap_range 64).
Qed.

Lemma block_words_app n m block rest :
  length block = (8 * n)%nat → block_words (n + m) (block ++ rest) = block_words n block ++ block_words m rest.
Proof.
  revert block. induction n as [|n IH]; intros block Hb; cbn [Nat.add block_words app].
  { destruct block; [done|cbn in Hb; lia]. }
  unfold Uint64. rewrite take_app_le by lia. f_equal.
  rewrite drop_app_le by lia. apply IH. rewrite length_drop. lia.
Qed.

Lemma xor_all_app l k : xor_all (l ++ k) = Z.lxor (xor_all l) (xor_all k).
Proof. induction l; cbn; [done|]. by rewrite IHl, Z.lxor_assoc. Qed.

Lemma hash_blocks_cancel seed block rest :
  length block = 32%nat →
  finish_hash (Z.lxor (xor_all (word_lanes (block ++ block ++ rest) seed))
    (fold_left tail_step (drop (32 * (length (block ++ block ++ rest) / 32)) (block ++ block ++ rest)) seed))
  = finish_hash (Z.lxor (xor_all (word_lanes rest seed))
      (fold_left tail_step (drop (32 * (length rest / 32)) rest) seed)).
Proof.
  intros Hb. f_equal.
  assert (length (block ++ block ++ rest) / 32 = 2 + length rest / 32)%nat as Hd.
  { rewrite !length_app, Hb. replace (32 + (32 + length rest))%nat with (length rest + 2 * 32)%nat by lia.
    rewrite Nat.div_add by lia. lia. }
  f_equal.
  - unfold word_lanes. rewrite Hd.
    replace (4 * (2 + length rest / 32))%nat with (4 + (4 + 4 * (length rest / 32)))%nat by lia.
    rewrite !block_words_app by (rewrite Hb; done). rewrite !fmap_app, !xor_all_app.
    by rewrite <- Z.lxor_assoc, Z.lxor_nilpotent, Z.lxor_0_l.
  - rewrite Hd. f_equal. rewrite app_assoc, drop_app_ge by (rewrite length_app, Hb; lia).
    f_equal. rewrite length_app, Hb. lia.
Qed.

(** ** Properties *)

(** C21 The four routines of the hash are one function: whatever the processor
    features, [HashBB64] returns what the portable routine returns, the AVX2
    routine (128 bytes at a time, then 32, then single bytes) and the copy of
    the routine in package forge included; the result is a 64-bit word. *)
Theorem bb64_routines_agree cpu data seed :
  HashBB64 cpu data seed = hashBB64Scalar data seed ∧
  HashBB64Asm data seed = hashBB64Scalar data seed ∧
  hashForgeScalar data seed = hashBB64Scalar data seed ∧
  HashBytes cpu data seed = hashBB64Scalar data seed ∧
  is_word 64 (HashBB64 cpu data seed).
Proof.
  split; [apply HashBB64_scalar|]. split; [apply HashBB64Asm_scalar|]. split; [apply hashForgeScalar_eq|].
  split; [|rewrite HashBB64_scalar; apply finish_hash_word].
  unfold HashBytes. destruct (_ && _); [apply HashBB64Asm_scalar|apply hashForgeScalar_eq].
Qed.

(** The hash does not depend on the order of the 8-byte words of the whole
    32-byte blocks: two inputs of the same length whose block words are
    permutations of each other and whose last [len mod 32] bytes are equal have
    the same hash, for every seed; and two equal 32-byte blocks in front of an
    input cancel. *)
Theorem hash_ignores_word_order cpu seed data data' block rest :
  length data' = length data →
  block_words (4 * (length data / 32)) data' ≡ₚ block_words (4 * (length data / 32)) data →
  drop (32 * (length data / 32)) data' = drop (32 * (length data / 32)) data →
  length block = 32%nat →
  HashBB64 cpu data' seed = HashBB64 cpu data seed ∧
  HashBB64 cpu (block ++ block ++ rest) seed = HashBB64 cpu rest seed.
Proof.
  intros Hl Hp Ht Hb. rewrite !HashBB64_scalar, !hashBB64Scalar_words. split.
  - unfold word_lanes. rewrite Hl, Ht. do 2 f_equal. apply xor_all_perm. by f_equiv.
  - apply hash_blocks_cancel. done.
Qed.

(** Two lines of a source file that swap their first two words. *)
Definition swap_a : bytes := bs "int aaa;int bbb;int ccc;int ddd;x".
Definition swap_b : bytes := bs "int bbb;int aaa;int ccc;int ddd;x".

Lemma hash_ignores_word_order_witness :
  swap_a ≠ swap_b ∧ HashBB64 (mk_cpu true true) swap_b 7 = HashBB64 (mk_cpu true true) swap_a 7.
Proof.
  split; [vm_compute; discriminate|].
  apply (hash_ignores_word_order (mk_cpu true true) 7 swap_a swap_b (replicate 32 0) []).
  - reflexivity.
  - vm_compute. apply Permutation_swap.
  - reflexivity.
  - reflexivity.
Defined.
