(* ===== verification/BoomScan.v ===== *)
(** * Utilities: the chunks of a source file (utils/boomboom.go, scanBoomBoom)

    The incremental digest cuts a source into chunks: preprocessor lines,
    blocks, statements and what is left, without the white space around them.
    Shown: the raw chunks cut the whole input, the trimmed ones are ordered,
    disjoint and not empty, and nothing but white space is outside them. *)
From stdpp Require Import list.
From S2P Require Import Prelude.

Definition boomKindCode : Z := 0.
Definition boomKindDirective : Z := 1.
Definition boomKindBlock : Z := 2.
Definition boomKindStatement : Z := 3.

Record BoomBoomChunk := mk_chunk { Start : nat; End_ : nat; Kind : Z; Digest : bytes }.

Definition zero_digest : bytes := replicate 32 0.

#[export] Instance BoomBoomChunk_eq_dec : EqDecision BoomBoomChunk.
Proof. solve_decision. Defined.

Definition isBoomSpace (value : Z) : bool :=
  (value =? ch " ") || (value =? 9) || (value =? 13) || (value =? 10).

(** ** The scanner *)
Record scan_state := mk_scan {
  start : nat;
  depth : Z;
  lineStart : bool;
  inString : Z;
  inLineComment : bool;
  inBlockComment : bool;
  out : list BoomBoomChunk }.

Definition init_scan : scan_state := mk_scan 0 0 true 0 false false [].

Definition set_lineStart b s := mk_scan (start s) (depth s) b (inString s) (inLineComment s) (inBlockComment s) (out s).
Definition set_depth d s := mk_scan (start s) d (lineStart s) (inString s) (inLineComment s) (inBlockComment s) (out s).
Definition set_inString c s := mk_scan (start s) (depth s) (lineStart s) c (inLineComment s) (inBlockComment s) (out s).
Definition set_inLineComment b s := mk_scan (start s) (depth s) (lineStart s) (inString s) b (inBlockComment s) (out s).
Definition set_inBlockComment b s := mk_scan (start s) (depth s) (lineStart s) (inString s) (inLineComment s) b (out s).

(** Appends the chunk from the current start to [e] and starts the next one there. *)
Definition cut (e : nat) (kind : Z) (s : scan_state) : scan_state :=
  mk_scan e (depth s) (lineStart s) (inString s) (inLineComment s) (inBlockComment s)
    (out s ++ [mk_chunk (start s) e kind zero_digest]).

(** The length of a preprocessor line that starts here, its newline included. *)
Fixpoint directive_end (data : bytes) : nat :=
  match data with
  | [] => 0
  | c :: r => if c =? 10 then 1 else S (directive_end r)
  end.

Definition next_is (c : Z) (data : bytes) (i : nat) : bool :=
  match data !! (i + 1)%nat with Some d => d =? c | None => false end.

(** One iteration at position [i], with the position of the next one. *)
Definition scan_step (data : bytes) (i : nat) (current : Z) (s : scan_state) : nat * scan_state :=
  if inLineComment s then
    (S i, if current =? 10 then set_lineStart true (set_inLineComment false s) else s)
  else if inBlockComment s then
    if (current =? ch "*") && next_is (ch "/") data i then (S (S i), set_inBlockComment false s) else (S i, s)
  else if negb (inString s =? 0) then
    if current =? ch "\" then (S (S i), s)
    else (S i, if current =? inString s then set_inString 0 s else s)
  else if (current =? ch "/") && next_is (ch "/") data i then (S (S i), set_inLineComment true s)
  else if (current =? ch "/") && next_is (ch "*") data i then (S (S i), set_inBlockComment true s)
  else if (current =? 34) || (current =? 39) then (S i, set_lineStart false (set_inString current s))
  else if lineStart s && ((current =? ch "#") || (current =? ch ".")) then
    let e := (i + directive_end (drop i data))%nat in
    let s := if (start s <? i)%nat then cut i boomKindCode s else s in
    (e, set_lineStart true (cut e boomKindDirective s))
  else
    let s := if negb (isBoomSpace current) then set_lineStart false s else s in
    (S i,
      if current =? ch "{" then set_depth (depth s + 1) s
      else if current =? ch "}" then
        let d := if 0 <? depth s then depth s - 1 else depth s in
        let s := set_depth d s in
        if d =? 0 then cut (S i) boomKindBlock s else s
      else if current =? ch ";" then
        if depth s =? 0 then cut (S i) boomKindStatement s else s
      else if current =? 10 then set_lineStart true s
      else s).

Fixpoint scan_loop (fuel : nat) (data : bytes) (i : nat) (s : scan_state) : scan_state :=
  match fuel with
  | O => s
  | S k =>
      match data !! i with
      | Some current => let '(i, s) := scan_step data i current s in scan_loop k data i s
      | None => s
      end
  end.

Definition raw_chunks (data : bytes) : list BoomBoomChunk :=
  let s := scan_loop (length data) data 0 init_scan in
  if (start s <? length data)%nat then out (cut (length data) boomKindCode s) else out s.

(** ** Trimming *)
Fixpoint trimBoomStart (data : bytes) (s : nat) (n : nat) : nat :=
  match n with
  | O => s
  | S k =>
      match data !! s with
      | Some c => if isBoomSpace c then trimBoomStart data (S s) k else s
      | None => s
      end
  end.

Fixpoint trimBoomEnd (data : bytes) (e : nat) (n : nat) : nat :=
  match n with
  | O => e
  | S k =>
      match data !! (e - 1)%nat with
      | Some c => if isBoomSpace c then trimBoomEnd data (e - 1) k else e
      | None => e
      end
  end.

Definition trim_chunk (data : bytes) (c : BoomBoomChunk) : BoomBoomChunk :=
  let s := trimBoomStart data (Start c) (End_ c - Start c) in
  mk_chunk s (trimBoomEnd data (End_ c) (End_ c - s)) (Kind c) (Digest c).

Definition compactBoomChunks (chunks : list BoomBoomChunk) : list BoomBoomChunk :=
  filter (λ c, Start c < End_ c)%nat chunks.

Definition scanBoomBoom (data : bytes) : list BoomBoomChunk :=
  compactBoomChunks (trim_chunk data <$> raw_chunks data).

(** The bytes of a chunk. *)
Definition chunk_bytes (data : bytes) (c : BoomBoomChunk) : bytes :=
  take (End_ c - Start c) (drop (Start c) data).

Example scan_ex :
  scanBoomBoom (bs "#if X
a = 1; f { b; } // c;
")
  = [mk_chunk 0 5 boomKindDirective zero_digest; mk_chunk 6 12 boomKindStatement zero_digest;
     mk_chunk 13 21 boomKindBlock zero_digest; mk_chunk 22 27 boomKindCode zero_digest].
Proof. reflexivity. Qed.

(** ** What a list of chunks covers *)

(** The chunks cut the positions from [a] to [b] without a gap. *)
Fixpoint cuts (a : nat) (l : list BoomBoomChunk) (b : nat) : Prop :=
  match l with
  | [] => a = b
  | c :: r => Start c = a ∧ (a < End_ c)%nat ∧ 0 ≤ Kind c ≤ 3 ∧ Digest c = zero_digest ∧ cuts (End_ c) r b
  end.

Definition all_space (data : bytes) (a b : nat) : Prop :=
  ∀ p c, (a ≤ p < b)%nat → data !! p = Some c → isBoomSpace c = true.

Definition not_space_at (data : bytes) (p : nat) : Prop :=
  ∃ c, data !! p = Some c ∧ isBoomSpace c = false.

(** The chunks from [a] to [b] in order, white space between them. *)
Fixpoint spans (data : bytes) (a : nat) (l : list BoomBoomChunk) (b : nat) : Prop :=
  match l with
  | [] => (a ≤ b)%nat ∧ all_space data a b
  | c :: r =>
      (a ≤ Start c)%nat ∧ all_space data a (Start c) ∧ (Start c < End_ c)%nat ∧
      not_space_at data (Start c) ∧ not_space_at data (End_ c - 1) ∧
      0 ≤ Kind c ≤ 3 ∧ Digest c = zero_digest ∧ spans data (End_ c) r b
  end.

Lemma cuts_snoc a l b e kind :
  cuts a l b → (b < e)%nat → 0 ≤ kind ≤ 3 → cuts a (l ++ [mk_chunk b e kind zero_digest]) e.
Proof.
  revert a. induction l as [|c l IH]; intros a H He Hk; cbn in *; [by subst|].
  destruct H as (?&?&?&?&?). naive_solver.
Qed.

Definition scan_inv (data : bytes) (i : nat) (s : scan_state) : Prop :=
  cuts 0 (out s) (start s) ∧ (start s ≤ i)%nat ∧ (start s ≤ length data)%nat.

Lemma directive_end_bounds data : (0 < length data → 0 < directive_end data ≤ length data)%nat.
Proof.
  induction data as [|c r IH]; cbn; [lia|]. intros _. case_match; [lia|].
  destruct r; [cbn; lia|]. specialize (IH ltac:(cbn; lia)). lia.
Qed.

Lemma cut_inv data e kind s :
  cuts 0 (out s) (start s) → (start s < e ≤ length data)%nat → 0 ≤ kind ≤ 3 → scan_inv data e (cut e kind s).
Proof. intros H ? ?. split; [|cbn; lia]. cbn. apply cuts_snoc; [done|lia|done]. Qed.

Lemma scan_inv_le data i j s : scan_inv data i s → (i ≤ j)%nat → scan_inv data j s.
Proof. intros (?&?&?) ?. split; [done|lia]. Qed.

Lemma scan_step_inv data i c s i' s' :
  data !! i = Some c → scan_inv data i s → scan_step data i c s = (i', s') →
  (i < i')%nat ∧ scan_inv data i' s'.
Proof.
  intros Hi Hs. pose proof (lookup_lt_Some _ _ _ Hi) as Hlt. destruct Hs as (Hc & Hsi & Hsl).
  assert (∀ j t, (i ≤ j)%nat → start t = start s → out t = out s → scan_inv data j t) as Hkeep.
  { intros j t ? E1 E2. split; [by rewrite E1, E2|lia]. }
  unfold scan_step. repeat case_match; intros [= <- <-]; split; try lia; try (by apply Hkeep; [lia|..]).
  all: pose proof (directive_end_bounds (drop i data)) as Hd; rewrite length_drop in Hd; try lia.
  all: rewrite ?Nat.ltb_lt, ?Nat.ltb_ge in *.
  all: (split; [cbn|cbn; lia]).
  all: repeat first [done|apply cuts_snoc; [|cbn; lia|done]].
Qed.

Lemma scan_inv_init data : scan_inv data 0 init_scan.
Proof. split; [done|]. cbn. lia. Qed.

Lemma scan_inv_done data i s : scan_inv data i s → scan_inv data (length data) s.
Proof. intros (?&?&?). repeat split; [done|lia|lia]. Qed.

Lemma scan_loop_inv fuel data i s :
  scan_inv data i s → (length data ≤ fuel + i)%nat →
  scan_inv data (length data) (scan_loop fuel data i s) ∧
  ∀ fuel', (fuel ≤ fuel')%nat → scan_loop fuel' data i s = scan_loop fuel data i s.
Proof.
  revert i s. induction fuel as [|k IH]; intros i s Hs Hf.
  { split; [by apply (scan_inv_done data i)|]. intros [|f] _; [done|]. cbn.
    by rewrite lookup_ge_None_2 by lia. }
  cbn. destruct (data !! i) as [c|] eqn:Hi.
  - destruct (scan_step data i c s) as [i' s'] eqn:Hst.
    destruct (scan_step_inv _ _ _ _ _ _ Hi Hs Hst) as [Hlt Hs'].
    destruct (IH i' s' Hs' ltac:(lia)) as [H1 H2]. split; [done|].
    intros [|f] Hf'; [lia|]. cbn. rewrite Hi, Hst. apply H2. lia.
  - split; [by apply (scan_inv_done data i)|]. intros [|f] Hf'; [lia|]. cbn. by rewrite Hi.
Qed.

Lemma raw_chunks_cuts data : cuts 0 (raw_chunks data) (length data).
Proof.
  unfold raw_chunks. destruct (scan_loop_inv (length data) data 0 init_scan) as [(Hc & _ & Hl) _];
    [apply scan_inv_init|lia|].
  case_match eqn:E; [apply cuts_snoc; [done| |done]; apply Nat.ltb_lt in E; lia|].
  apply Nat.ltb_ge in E. assert (start (scan_loop (length data) data 0 init_scan) = length data) as Heq by lia.
  by rewrite Heq in Hc.
Qed.

(** ** Trimming *)
Lemma trimBoomStart_spec data s n :
  (s + n ≤ length data)%nat →
  (s ≤ trimBoomStart data s n ≤ s + n)%nat ∧ all_space data s (trimBoomStart data s n) ∧
  ((trimBoomStart data s n < s + n)%nat → not_space_at data (trimBoomStart data s n)).
Proof.
  revert s. induction n as [|n IH]; intros s Hl; cbn; [split; [lia|split; [|lia]]; intros p c; lia|].
  destruct (data !! s) as [c|] eqn:Hs; [|apply lookup_ge_None in Hs; lia].
  destruct (isBoomSpace c) eqn:Hc.
  - destruct (IH (S s) ltac:(lia)) as (H1 & H2 & H3). split; [lia|]. split; [|intros; apply H3; lia].
    intros p d Hp Hd. destruct (decide (p = s)) as [->|]; [congruence|]. eapply H2; [|done]. lia.
  - split; [lia|]. split; [intros p d; lia|]. intros _. by exists c.
Qed.

Lemma trimBoomEnd_spec data e n :
  (n ≤ e ≤ length data)%nat →
  (e - n ≤ trimBoomEnd data e n ≤ e)%nat ∧ all_space data (trimBoomEnd data e n) e ∧
  ((e - n < trimBoomEnd data e n)%nat → not_space_at data (trimBoomEnd data e n - 1)).
Proof.
  revert e. induction n as [|n IH]; intros e Hl; cbn; [split; [lia|split; [|lia]]; intros p c; lia|].
  destruct (data !! (e - 1)%nat) as [c|] eqn:Hs; [|apply lookup_ge_None in Hs; lia].
  destruct (isBoomSpace c) eqn:Hc.
  - destruct (IH (e - 1)%nat ltac:(lia)) as (H1 & H2 & H3). split; [lia|]. split; [|intros; apply H3; lia].
    intros p d Hp Hd. destruct (decide (p = e - 1)%nat) as [->|]; [congruence|]. eapply H2; [|done]. lia.
  - split; [lia|]. split; [intros p d; lia|]. intros _. by exists c.
Qed.

Lemma all_space_app data a b c : all_space data a b → all_space data b c → all_space data a c.
Proof. intros H1 H2 p d Hp Hd. destruct (decide (p < b)%nat); [eapply H1|eapply H2]; try done; lia. Qed.

Lemma spans_extend data a a' l b :
  spans data a l b → (a' ≤ a)%nat → all_space data a' a → spans data a' l b.
Proof.
  destruct l as [|c l]; cbn.
  - intros [??] ? Hs. split; [lia|]. by eapply all_space_app.
  - intros (?&?&?) ? Hs. split; [lia|]. split; [by eapply all_space_app|done].
Qed.

Lemma spans_trim data a l b :
  cuts a l b → (b ≤ length data)%nat → spans data a (compactBoomChunks (trim_chunk data <$> l)) b.
Proof.
  revert a. induction l as [|c l IH]; intros a Hc Hb; cbn in Hc.
  { subst. cbn. split; [lia|]. intros p d; lia. }
  destruct Hc as (Hs & Hlt & Hk & Hd & Hc). specialize (IH _ Hc Hb).
  assert (End_ c ≤ b)%nat as Heb.
  { clear -Hc. revert Hc. generalize (End_ c). induction l as [|d l IH]; intros e H; cbn in H; [lia|].
    destruct H as (?&?&?&?&H). apply IH in H. lia. }
  subst a. unfold compactBoomChunks in *. cbn [fmap list_fmap]. set (t := trim_chunk data c).
  destruct (trimBoomStart_spec data (Start c) (End_ c - Start c) ltac:(lia)) as (S1 & S2 & S3).
  set (s := trimBoomStart data (Start c) (End_ c - Start c)) in *.
  destruct (trimBoomEnd_spec data (End_ c) (End_ c - s) ltac:(lia)) as (E1 & E2 & E3).
  set (e := trimBoomEnd data (End_ c) (End_ c - s)) in *.
  assert (t = mk_chunk s e (Kind c) (Digest c)) as Ht by done.
  destruct (decide (s < e)%nat) as [Hse|Hse].
  - rewrite filter_cons_True by (rewrite Ht; done). cbn [spans]. rewrite Ht. cbn [Start End_ Kind Digest].
    split; [lia|]. split; [done|]. split; [done|]. split; [apply S3; lia|]. split; [apply E3; lia|].
    split; [done|]. split; [done|]. eapply spans_extend; [done|lia|done].
  - rewrite filter_cons_False by (rewrite Ht; done). eapply spans_extend; [done|lia|].
    apply (all_space_app _ _ s); [done|]. intros p d Hp. apply E2. lia.
Qed.

(** ** The text that is hashed *)
Definition significant (data : bytes) : bytes := filter (λ c, isBoomSpace c = false) data.

Lemma significant_spaces data a b :
  (b ≤ length data)%nat → all_space data a b → significant (take (b - a) (drop a data)) = [].
Proof.
  intros Hb Hs. apply filter_none. apply Forall_lookup. intros k c Hk.
  apply lookup_take_Some in Hk as [Hk Hkl]. rewrite lookup_drop in Hk.
  assert (isBoomSpace c = true) as ->; [|done]. eapply (Hs (a + k)%nat); [|done]. lia.
Qed.

Lemma spans_significant data a l b :
  spans data a l b → (b ≤ length data)%nat →
  significant (take (b - a) (drop a data)) = significant (concat (chunk_bytes data <$> l)) ∧ (a ≤ b)%nat.
Proof.
  revert a. induction l as [|c l IH]; intros a H Hb; cbn [spans] in H.
  - destruct H. split; [by apply significant_spaces|done].
  - destruct H as (Ha & Hsp & Hlt & _ & _ & _ & _ & H). apply IH in H as [H Hle]; [|done].
    split; [|lia]. cbn. unfold chunk_bytes at 1.
    replace (take (b - a) (drop a data)) with
      (take (Start c - a) (drop a data) ++ take (End_ c - Start c) (drop (Start c) data)
        ++ take (b - End_ c) (drop (End_ c) data)).
    + unfold significant in *. rewrite !filter_app, H.
      pose proof (significant_spaces data a (Start c) ltac:(lia) Hsp) as E.
      unfold significant in E. by rewrite E.
    + replace (b - a)%nat with ((Start c - a) + ((End_ c - Start c) + (b - End_ c)))%nat by lia.
      rewrite <- !take_take_drop, !drop_drop. repeat f_equal; lia.
Qed.

(** ** Properties *)

(** The chunks of a source are its text: they are in order and disjoint, none
    is empty, none starts or ends with white space, every byte outside them is
    white space, their kinds are the four of the scanner, and the bytes other
    than white space of the chunks are, in order, those of the source.  The
    loop ends within one iteration per byte. *)
Theorem scanBoomBoom_covers data :
  spans data 0 (scanBoomBoom data) (length data) ∧
  significant (concat (chunk_bytes data <$> scanBoomBoom data)) = significant data ∧
  ∀ k, scan_loop (length data + k) data 0 init_scan = scan_loop (length data) data 0 init_scan.
Proof.
  assert (spans data 0 (scanBoomBoom data) (length data)) as Hs.
  { apply spans_trim; [apply raw_chunks_cuts|done]. }
  split; [done|]. split.
  - destruct (spans_significant _ _ _ _ Hs) as [H _]; [done|]. rewrite <- H.
    by rewrite drop_0, Nat.sub_0_r, firstn_all.
  - intros k. destruct (scan_loop_inv (length data) data 0 init_scan) as [_ H]; [apply scan_inv_init|lia|].
    apply H. lia.
Qed.
