(* ===== verification/BoomTree.v ===== *)
(** * Utilities: the incremental digest of a source (utils/boomboom.go)

    A hasher keeps the chunks of the last text, their digests, and a hash tree
    over them in arrays that it reuses.  The state is modelled with those
    arrays (their capacity included), since what a re-slice exposes matters;
    the reference is the digest of a text computed from nothing. *)
From stdpp Require Import list.
From S2P Require Import Prelude Bb64 BoomScan.

Definition boomBoomDomain : bytes :=
  [66; 111; 111; 109; 66; 111; 111; 109; 1; 0; 0; 0; 0; 0; 0; 0].
Definition boomBoomKey : bytes :=
  [0x9d; 0x74; 0x31; 0x6f; 0xd5; 0x23; 0x1b; 0xe4; 0xa1; 0x8f; 0x03; 0x71; 0x42; 0x5d; 0x6b; 0x9a;
   0x3c; 0xf4; 0x75; 0x28; 0x0d; 0x62; 0x8a; 0x19; 0xbf; 0x4e; 0x50; 0x33; 0x13; 0x21; 0x97; 0x6c].

Record BoomBoomContext := mk_ctx {
  Compiler : bytes; Version : bytes; Target : bytes; Flags : list bytes }.

Definition appendBoomField (data value : bytes) : bytes := data ++ le_bytes 8 (Zlen value) ++ value.

(** The bytes that stand for a context. *)
Definition context_bytes (c : BoomBoomContext) : bytes :=
  let data := appendBoomField (appendBoomField (appendBoomField boomBoomDomain (Compiler c)) (Version c)) (Target c) in
  foldl appendBoomField (data ++ le_bytes 8 (Zlen (Flags c))) (Flags c).

(** A Go slice of chunks: the backing array (its length is the capacity) and the length. *)
Record chunk_slice := mk_slice { array : list BoomBoomChunk; len : nat }.

Definition elems (s : chunk_slice) : list BoomBoomChunk := take (len s) (array s).

Definition zero_chunk : BoomBoomChunk := mk_chunk 0 0 0 zero_digest.

Definition growBoomChunks (chunks : chunk_slice) (size : nat) : chunk_slice :=
  if (size <=? length (array chunks))%nat then mk_slice (array chunks) size
  else
    let capacity := (length (array chunks) * 2)%nat in
    let capacity := if (capacity <? size)%nat then size else capacity in
    mk_slice (replicate capacity zero_chunk) size.

(** [copy(h.chunks, h.scan)], for equally long slices. *)
Definition copy_chunks (chunks : chunk_slice) (scan : list BoomBoomChunk) : chunk_slice :=
  mk_slice (take (len chunks) scan ++ drop (length (take (len chunks) scan)) (array chunks)) (len chunks).

Record BoomBoomHasher := mk_hasher {
  key : bytes;
  chunks : chunk_slice;
  previous : bytes;
  tree : list bytes;
  treeBase : nat;
  treeLeaves : nat;
  scan : list BoomBoomChunk;
  root : bytes;
  treeFingerprint : Z;
  changedIndexes : list nat;
  started : bool;
  closed : bool;
  initialized : bool }.

Section hasher.
Context (cpu : cpu_features).

Definition BoomBoomContextDigest (c : BoomBoomContext) : bytes :=
  expand_hash 4 (HashBB64 cpu (context_bytes c) (Uint64 boomBoomKey)).

Definition NewBoomBoomHasher (c : BoomBoomContext) : BoomBoomHasher :=
  mk_hasher (BoomBoomContextDigest c) (mk_slice [] 0) [] [] 0 0 [] zero_digest 0 [] false false false.

Definition base_of (k : bytes) : Z := Uint64 k.

(** *** Leaves *)
Definition leaf_digest (k data : bytes) (c : BoomBoomChunk) (index : nat) : bytes :=
  expandBB64Seed cpu (chunk_bytes data c) (Kind c) index (base_of k).

Definition set_digest (c : BoomBoomChunk) (d : bytes) : BoomBoomChunk :=
  mk_chunk (Start c) (End_ c) (Kind c) d.

(** [hashLeaf], and the same work done by a worker on one job: the digest of
    the chunk at [index] of the scan. *)
Definition hashLeaf (k data : bytes) (scan : list BoomBoomChunk) (index : nat) : list BoomBoomChunk :=
  alter (λ c, set_digest c (leaf_digest k data c index)) index scan.

(** The comparison of a cached chunk with the chunk of the new text. *)
Definition reusable (prev data : bytes) (cached candidate : BoomBoomChunk) : bool :=
  (End_ cached <=? length prev)%nat && (Start cached <=? End_ cached)%nat &&
  (Start cached =? Start candidate)%nat &&
  (End_ cached - Start cached =? End_ candidate - Start candidate)%nat &&
  (Kind cached =? Kind candidate) &&
  bool_decide (chunk_bytes prev cached = chunk_bytes data candidate).

Definition reuse (prev data : bytes) (cached candidate : BoomBoomChunk) : BoomBoomChunk :=
  if reusable prev data cached candidate then set_digest candidate (Digest cached) else candidate.

(** The loop of [Update] over the scan: the scan with the digests of the
    chunks that are reused, and the indexes of the others. *)
Fixpoint compare_chunks (prev data : bytes) (i : nat) (cached scan : list BoomBoomChunk)
    : list BoomBoomChunk * list nat :=
  match scan, cached with
  | candidate :: scan', old :: cached' =>
      let '(l, changed) := compare_chunks prev data (S i) cached' scan' in
      if reusable prev data old candidate then (set_digest candidate (Digest old) :: l, changed)
      else (candidate :: l, i :: changed)
  | _, _ => ([], [])
  end.

(** *** The fingerprint *)
Definition boomChunkFingerprint (digest : bytes) (index : nat) : Z :=
  HashBB64 cpu digest (u64 (Z.of_nat index * 0x9e3779b97f4a7c15 + 0xd6e8feb86659fd93)).

Fixpoint fingerprint_from (index : nat) (l : list BoomBoomChunk) : Z :=
  match l with
  | [] => 0
  | c :: r => Z.lxor (boomChunkFingerprint (Digest c) index) (fingerprint_from (S index) r)
  end.

Definition boomTreeFingerprintRaw (l : list BoomBoomChunk) : Z := fingerprint_from 0 l.

Definition finishBoomTreeFingerprint (fingerprint : Z) : Z :=
  let fingerprint := Z.lxor fingerprint (Z.shiftr fingerprint 33) in
  let fingerprint := u64 (fingerprint * bb64Mul) in
  Z.lxor fingerprint (Z.shiftr fingerprint 29).

Definition digest_at (l : list BoomBoomChunk) (i : nat) : bytes :=
  match l !! i with Some c => Digest c | None => [] end.

(** The incremental fingerprint: the old and the new digest of every changed
    chunk are summed in. *)
Definition update_fingerprint (old new : list BoomBoomChunk) (changed : list nat) (f : Z) : Z :=
  foldl (λ f i, Z.lxor (Z.lxor f (boomChunkFingerprint (digest_at old i) i))
                  (boomChunkFingerprint (digest_at new i) i)) f changed.

(** *** The tree *)
Definition hashPair (left right : bytes) (position : nat) : bytes :=
  hashBB64PairSeed left right (Z.lxor 0x4242363400000001 (u64 (Z.of_nat position * 0x9e3779b97f4a7c15))).

Definition node (tree : list bytes) (i : nat) : bytes := default [] (tree !! i).

Definition hash_node (tree : list bytes) (i : nat) : list bytes :=
  <[i := hashPair (node tree (2 * i)) (node tree (2 * i + 1)) i]> tree.

(** [for ; position > 0; position >>= 1]. *)
Fixpoint hash_path (fuel : nat) (tree : list bytes) (position : nat) : list bytes :=
  match fuel with
  | O => tree
  | S k => if (position =? 0)%nat then tree else hash_path k (hash_node tree position) (position / 2)
  end.

(** [for i := base - 1; i > 0; i--]. *)
Fixpoint hash_down (i : nat) (tree : list bytes) : list bytes :=
  match i with
  | O => tree
  | S k => hash_down k (hash_node tree i)
  end.

Fixpoint grow_base (fuel base n : nat) : nat :=
  match fuel with
  | O => base
  | S k => if (base <? n)%nat then grow_base k (base * 2) n else base
  end.

Definition base_for (n : nat) : nat := grow_base n 1 n.

Definition xor_root (f : Z) (root : bytes) : bytes :=
  le_bytes 8 (Z.lxor (Uint64 root) (finishBoomTreeFingerprint f)) ++ drop 8 root.

Definition set_leaf (base : nat) (tree : list bytes) (i : nat) (d : bytes) : list bytes :=
  if decide (node tree (base + i) = d) then tree
  else hash_path (base + i) (<[base + i := d]> tree)%nat ((base + i) / 2).

(** [hashTree]: the root and the tree with its base and leaves. *)
Definition hashTree (k : bytes) (f : Z) (old : list bytes) (oldBase oldLeaves : nat) (l : list BoomBoomChunk)
    : bytes * list bytes * nat * nat :=
  let n := length l in
  match last l with
  | None => (expandBB64Seed cpu boomBoomDomain 0 0 (base_of k), old, oldBase, oldLeaves)
  | Some lastChunk =>
      let base := base_for n in
      if negb ((oldBase =? base)%nat && (oldLeaves =? n)%nat) then
        let treeSize := (base * 2)%nat in
        let t :=
          if (length old <? treeSize)%nat then
            let capacity := (length old * 2)%nat in
            replicate (if (capacity <? treeSize)%nat then treeSize else capacity) zero_digest
          else old in
        let t := list_inserts base (Digest <$> l) t in
        let t := list_inserts (base + n) (replicate (base - n) (Digest lastChunk)) t in
        let t := hash_down (base - 1) t in
        (xor_root f (node t 1), t, base, n)
      else
        let t := if (n <? base)%nat then set_leaf base old n (Digest lastChunk) else old in
        let t := foldl (λ t '(i, c), set_leaf base t i (Digest c)) t (imap pair l) in
        (xor_root f (node t 1), t, base, n)
  end.

(** *** Update *)
Definition Update (h : BoomBoomHasher) (data : bytes) : (bytes + string) * BoomBoomHasher :=
  if initialized h && (length (previous h) =? length data)%nat && bool_decide (previous h = data) then
    (inl (root h), mk_hasher (key h) (chunks h) (previous h) (tree h) (treeBase h) (treeLeaves h) (scan h)
       (root h) (treeFingerprint h) [] (started h) (closed h) (initialized h))
  else
    let sc := scanBoomBoom data in
    let sameChunkCount := (len (chunks h) =? length sc)%nat in
    let cs := if negb sameChunkCount then growBoomChunks (chunks h) (length sc) else chunks h in
    let '(sc, changed) := compare_chunks (previous h) data 0 (elems cs) sc in
    let parallel := (4 <? length changed)%nat in
    let st := started h || parallel in
    if parallel && closed h then
      (inr "BoomBoomHasher is closed"%string,
       mk_hasher (key h) cs (previous h) (tree h) (treeBase h) (treeLeaves h) sc (root h)
         (treeFingerprint h) changed st (closed h) (initialized h))
    else
      let sc := foldl (hashLeaf (key h) data) sc changed in
      let f :=
        if initialized h && sameChunkCount then
          update_fingerprint (elems cs) sc changed (treeFingerprint h)
        else boomTreeFingerprintRaw sc in
      let cs := copy_chunks cs sc in
      let '(r, t, b, n) := hashTree (key h) f (tree h) (treeBase h) (treeLeaves h) (elems cs) in
      (inl r, mk_hasher (key h) cs data t b n sc r f changed st (closed h) true).

Definition Hash := Update.

Definition ChangedChunks (h : BoomBoomHasher) : nat := length (changedIndexes h).
Definition Chunks (h : BoomBoomHasher) : list BoomBoomChunk := elems (chunks h).

(** [Close] does something only once the workers run. *)
Definition Close (h : BoomBoomHasher) : BoomBoomHasher :=
  mk_hasher (key h) (chunks h) (previous h) (tree h) (treeBase h) (treeLeaves h) (scan h) (root h)
    (treeFingerprint h) (changedIndexes h) (started h) (closed h || started h) (initialized h).

(** [HashBoomBoomFile] on the bytes of the file. *)
Definition HashBoomBoom (c : BoomBoomContext) (data : bytes) : bytes + string :=
  fst (Hash (NewBoomBoomHasher c) data).

(** ** The reference: the digest of a text from nothing *)
Definition fresh_chunks (k data : bytes) : list BoomBoomChunk :=
  imap (λ i c, set_digest c (leaf_digest k data c i)) (scanBoomBoom data).

Fixpoint merkle (fuel : nat) (leaves : nat → bytes) (base p : nat) : bytes :=
  match fuel with
  | O => []
  | S f =>
      if (base <=? p)%nat then leaves (p - base)%nat
      else hashPair (merkle f leaves base (2 * p)) (merkle f leaves base (2 * p + 1)) p
  end.

(** Leaf [i] of a tree: the digest of chunk [i], the last one repeated. *)
Definition leaf_of (l : list BoomBoomChunk) (i : nat) : bytes :=
  digest_at l (Nat.min i (length l - 1)).

Definition full_digest (k data : bytes) : bytes :=
  let l := fresh_chunks k data in
  match l with
  | [] => expandBB64Seed cpu boomBoomDomain 0 0 (base_of k)
  | _ =>
      xor_root (boomTreeFingerprintRaw l)
        (merkle (S (length l)) (leaf_of l) (base_for (length l)) 1)
  end.
End hasher.

Definition scalar_cpu : cpu_features := mk_cpu false false.
Definition ctx0 : BoomBoomContext := mk_ctx (bs "gcc") (bs "13") [] [].

Fixpoint updates (cpu : cpu_features) (h : BoomBoomHasher) (l : list bytes) : BoomBoomHasher :=
  match l with [] => h | d :: r => updates cpu (snd (Update cpu h d)) r end.

Definition incremental (l : list bytes) (d : bytes) : bytes + string :=
  fst (Update scalar_cpu (updates scalar_cpu (NewBoomBoomHasher scalar_cpu ctx0) l) d).
