(* ===== verification/BoomFacts.v ===== *)
(** * Utilities: the incremental digest against the digest from nothing

    Proofs about BoomTree: the cached chunks, the fingerprint and the tree of a
    hasher that has seen other texts give the digest of the new text, and the
    cases in which they do not. *)
From stdpp Require Import list.
From S2P Require Import Prelude Bb64 BoomScan BoomTree.

(** ** Lengths *)
Lemma length_expand_hash n hash : length (expand_hash n hash) = (8 * n)%nat.
Proof. revert hash. induction n; intros; cbn -[le_bytes]; [done|]. rewrite length_app, length_le_bytes, IHn. lia. Qed.

Section facts.
Context (cpu : cpu_features).
Local Abbreviation leaf_digest := (leaf_digest cpu).
Local Abbreviation hashLeaf := (hashLeaf cpu).
Local Abbreviation Update := (Update cpu).
Local Abbreviation fresh_chunks := (fresh_chunks cpu).
Local Abbreviation full_digest := (full_digest cpu).
Local Abbreviation raw := (boomTreeFingerprintRaw cpu).
Local Abbreviation fp := (boomChunkFingerprint cpu).

Lemma length_leaf k data c i : length (leaf_digest k data c i) = 32%nat.
Proof. apply length_expand_hash. Qed.

Lemma length_hashPair l r p : length (hashPair l r p) = 32%nat.
Proof. apply length_expand_hash. Qed.

(** Two equal digests hash to a value that does not depend on them. *)
Lemma hash_twice d seed : length d = 32%nat → hashBB64Scalar (d ++ d) seed = hashBB64Scalar [] seed.
Proof.
  intros Hd. rewrite !hashBB64Scalar_words. pose proof (hash_blocks_cancel seed d [] Hd) as H.
  rewrite app_nil_r in H. exact H.
Qed.

Lemma hashPair_same d e p : length d = 32%nat → length e = 32%nat → hashPair d d p = hashPair e e p.
Proof. intros. unfold hashPair, hashBB64PairSeed. cbv zeta. by rewrite !hash_twice. Qed.

(** ** The cached chunks *)
Lemma compare_chunks_spec prev data i cached scan l changed :
  length cached = length scan → compare_chunks prev data i cached scan = (l, changed) →
  length l = length scan ∧ NoDup changed ∧ (∀ j, j ∈ changed → (i ≤ j < i + length scan)%nat) ∧
  ∀ j old c, cached !! j = Some old → scan !! j = Some c →
    (reusable prev data old c = true ∧ ¬ (i + j ∈ changed)%nat ∧ l !! j = Some (set_digest c (Digest old))) ∨
    (reusable prev data old c = false ∧ (i + j ∈ changed)%nat ∧ l !! j = Some c).
Proof.
  revert i cached l changed. induction scan as [|c scan IH]; intros i cached l changed Hl Hc.
  { destruct cached; [|done]. injection Hc as <- <-. cbn. split; [done|]. split; [apply NoDup_nil_2|].
    split; [set_solver|]. by intros ? ? ?. }
  destruct cached as [|old cached]; [done|]. cbn in Hc, Hl.
  destruct (compare_chunks prev data (S i) cached scan) as [l' ch'] eqn:E.
  destruct (IH (S i) cached l' ch' ltac:(lia) E) as (H1 & H2 & H3 & H4).
  assert (i ∉ ch') as Hni by (intros Hi; specialize (H3 _ Hi); lia).
  destruct (reusable prev data old c) eqn:Hr; injection Hc as <- <-.
  - cbn. split; [lia|]. split; [done|]. split; [intros j Hj; specialize (H3 j Hj); lia|].
    intros [|j] o d Ho Hd; cbn in Ho, Hd.
    + injection Ho as ->. injection Hd as ->. left. by rewrite Nat.add_0_r.
    + destruct (H4 j o d Ho Hd) as [Hx | Hx]; rewrite <- Nat.add_succ_comm; [by left|by right].
  - cbn. split; [lia|]. split; [by apply NoDup_cons|].
    split; [intros j Hj; apply elem_of_cons in Hj as [->|Hj]; [lia|specialize (H3 j Hj); lia]|].
    intros [|j] o d Ho Hd; cbn in Ho, Hd.
    + injection Ho as ->. injection Hd as ->. right. rewrite Nat.add_0_r. set_solver.
    + rewrite <- Nat.add_succ_comm.
      destruct (H4 j o d Ho Hd) as [(?&?&?)|(?&?&?)]; [left|right]; repeat split; try done.
      * apply not_elem_of_cons. split; [lia|done].
      * by apply elem_of_cons; right.
Qed.

Lemma hashLeaves_lookup k data changed l j :
  foldl (hashLeaf k data) l changed !! j
  = (λ c, if decide (j ∈ changed) then set_digest c (leaf_digest k data c j) else c) <$> l !! j.
Proof.
  revert l. induction changed as [|i js IH]; intros l; cbn [foldl].
  { destruct (l !! j); cbn; [|done]. by rewrite decide_False by set_solver. }
  rewrite IH. unfold BoomTree.hashLeaf. destruct (decide (i = j)) as [->|Hij].
  - rewrite list_lookup_alter_eq. destruct (l !! j) as [c|]; cbn; [|done].
    rewrite (decide_True (P := j ∈ j :: js)) by set_solver. by case_decide.
  - rewrite list_lookup_alter_ne by done. destruct (l !! j) as [c|]; cbn; [|done].
    f_equal. repeat case_decide; set_solver.
Qed.

Lemma hashLeaves_length k data changed l : length (foldl (hashLeaf k data) l changed) = length l.
Proof.
  revert l. induction changed; intros; cbn; [done|]. rewrite IHchanged. apply length_alter.
Qed.

Lemma length_fresh_chunks k data : length (fresh_chunks k data) = length (scanBoomBoom data).
Proof. apply length_imap. Qed.

Lemma fresh_chunks_lookup k data j :
  fresh_chunks k data !! j = (λ c, set_digest c (leaf_digest k data c j)) <$> scanBoomBoom data !! j.
Proof. apply list_lookup_imap. Qed.

Lemma reusable_digest k prev data old c j :
  reusable prev data (set_digest old (leaf_digest k prev old j)) c = true →
  leaf_digest k prev old j = leaf_digest k data c j.
Proof.
  unfold reusable. rewrite !andb_true_iff. intros (((((_&_)&_)&_)&Hk)&Hb).
  apply bool_decide_eq_true in Hb. apply Z.eqb_eq in Hk. cbn in Hk.
  unfold BoomTree.leaf_digest. unfold chunk_bytes in *. cbn in Hb. by rewrite Hb, Hk.
Qed.

(** What the cache may hold: a chunk of the last text with its digest, or a zero chunk. *)
Definition cache_ok (k prev : bytes) (cached : list BoomBoomChunk) : Prop :=
  ∀ j old, cached !! j = Some old →
    old = zero_chunk ∨ ∃ c, old = set_digest c (leaf_digest k prev c j).

Lemma zero_not_reusable prev data c : (Start c < End_ c)%nat → reusable prev data zero_chunk c = false.
Proof.
  intros Hc. unfold reusable. cbn [zero_chunk Start End_].
  assert ((0 - 0 =? End_ c - Start c)%nat = false) as -> by (apply Nat.eqb_neq; lia).
  by rewrite andb_false_r.
Qed.

Lemma scan_nonempty data c : c ∈ scanBoomBoom data → (Start c < End_ c)%nat.
Proof. intros H. apply list_elem_of_filter in H as [H _]. done. Qed.

Lemma leaves_from_cache k prev data cached l changed :
  length cached = length (scanBoomBoom data) → cache_ok k prev cached →
  compare_chunks prev data 0 cached (scanBoomBoom data) = (l, changed) →
  foldl (hashLeaf k data) l changed = fresh_chunks k data.
Proof.
  intros Hl Hok Hc. destruct (compare_chunks_spec _ _ _ _ _ _ _ Hl Hc) as (H1 & _ & _ & H4).
  apply list_eq_same_length with (n := length (scanBoomBoom data));
    [apply length_fresh_chunks|by rewrite hashLeaves_length|].
  intros j x y Hj. rewrite hashLeaves_lookup, fresh_chunks_lookup.
  destruct (lookup_lt_is_Some_2 (scanBoomBoom data) j Hj) as [c Hcj].
  destruct (lookup_lt_is_Some_2 cached j ltac:(lia)) as [old Hold].
  rewrite Hcj. cbn. intros Hx Hy. injection Hy as <-.
  destruct (H4 j old c Hold Hcj) as [(Hr & Hn & Hlj)|(Hr & Hn & Hlj)]; rewrite Hlj in Hx; cbn in *.
  - rewrite decide_False in Hx by done. injection Hx as <-. f_equal.
    destruct (Hok j old Hold) as [->|[c' ->]].
    + rewrite zero_not_reusable in Hr; [done|]. eapply scan_nonempty, list_elem_of_lookup_2, Hcj.
    + by eapply reusable_digest.
  - rewrite decide_True in Hx by done. by injection Hx as <-.
Qed.
(** ** The fingerprint *)
Lemma fingerprint_from_digests i l l' :
  Digest <$> l = Digest <$> l' → fingerprint_from cpu i l = fingerprint_from cpu i l'.
Proof.
  revert i l'. induction l as [|c l IH]; intros i [|c' l'] H; try done. cbn in *.
  injection H as -> H. by rewrite (IH _ _ H).
Qed.

Lemma lxor_swap a b r : Z.lxor b r = Z.lxor (Z.lxor (Z.lxor a r) a) b.
Proof.
  apply Z.bits_inj. intros i. rewrite !Z.lxor_spec.
  by destruct (Z.testbit a i), (Z.testbit b i), (Z.testbit r i).
Qed.

Lemma fingerprint_alter i l j d c :
  l !! j = Some c →
  fingerprint_from cpu i (alter (λ c, set_digest c d) j l)
  = Z.lxor (Z.lxor (fingerprint_from cpu i l) (fp (Digest c) (i + j))) (fp d (i + j)).
Proof.
  revert i j. induction l as [|x l IH]; intros i j Hj; [done|].
  destruct j as [|j]; cbn in Hj |- *.
  - injection Hj as ->. rewrite Nat.add_0_r.
    apply lxor_swap.
  - change (list_alter _ j l) with (alter (λ c, set_digest c d) j l).
    rewrite (IH (S i)) by done. rewrite <- Nat.add_succ_comm. by rewrite !Z.lxor_assoc.
Qed.

(** The old chunks with the digests of the changed ones replaced. *)
Definition patch (new l : list BoomBoomChunk) (i : nat) : list BoomBoomChunk :=
  alter (λ c, set_digest c (digest_at new i)) i l.

Lemma patch_lookup new changed l j :
  foldl (patch new) l changed !! j
  = (λ c, if decide (j ∈ changed) then set_digest c (digest_at new j) else c) <$> l !! j.
Proof.
  revert l. induction changed as [|i js IH]; intros l; cbn [foldl].
  { destruct (l !! j); cbn; [|done]. by rewrite decide_False by set_solver. }
  rewrite IH. unfold patch. destruct (decide (i = j)) as [->|Hij].
  - rewrite list_lookup_alter_eq. destruct (l !! j) as [c|]; cbn; [|done].
    rewrite (decide_True (P := j ∈ j :: js)) by set_solver. by case_decide.
  - rewrite list_lookup_alter_ne by done. destruct (l !! j) as [c|]; cbn; [|done].
    f_equal. repeat case_decide; set_solver.
Qed.

Lemma update_fingerprint_patch new old changed l :
  NoDup changed → (∀ j, j ∈ changed → (j < length l)%nat) → (∀ j, j ∈ changed → old !! j = l !! j) →
  update_fingerprint cpu old new changed (raw l) = raw (foldl (patch new) l changed).
Proof.
  revert l. induction changed as [|i js IH]; intros l Hn Hlt Hold; [done|].
  apply NoDup_cons in Hn as [Hi Hn]. cbn [foldl]. unfold update_fingerprint in *. cbn [foldl].
  rewrite <- IH; [|done| |].
  - f_equal. destruct (lookup_lt_is_Some_2 l i) as [c Hc]; [apply Hlt; set_solver|].
    unfold boomTreeFingerprintRaw, patch. rewrite (fingerprint_alter 0 l i _ c Hc).
    unfold digest_at at 1. rewrite Hold, Hc by set_solver. done.
  - intros j Hj. unfold patch. rewrite length_alter. apply Hlt. set_solver.
  - intros j Hj. unfold patch. rewrite list_lookup_alter_ne by (intros ->; done). apply Hold. set_solver.
Qed.

Lemma update_fingerprint_raw k prev data cached l changed :
  length cached = length (scanBoomBoom data) →
  compare_chunks prev data 0 cached (scanBoomBoom data) = (l, changed) →
  let new := foldl (hashLeaf k data) l changed in
  update_fingerprint cpu cached new changed (raw cached) = raw new.
Proof.
  intros Hl Hc new. destruct (compare_chunks_spec _ _ _ _ _ _ _ Hl Hc) as (H1 & Hn & H3 & H4).
  rewrite update_fingerprint_patch; [|done|intros j Hj; specialize (H3 j Hj); lia|done].
  apply fingerprint_from_digests. apply list_eq. intros j. rewrite !list_lookup_fmap, patch_lookup.
  unfold new at 2. rewrite hashLeaves_lookup.
  destruct (decide (j < length cached)%nat) as [Hj|Hj].
  - destruct (lookup_lt_is_Some_2 cached j Hj) as [old Hold].
    destruct (lookup_lt_is_Some_2 (scanBoomBoom data) j ltac:(lia)) as [c Hcj]. rewrite Hold. cbn.
    destruct (H4 j old c Hold Hcj) as [(Hr & Hni & Hlj)|(Hr & Hin & Hlj)]; rewrite Hlj; cbn in *.
    + by rewrite !decide_False.
    + rewrite !decide_True by done. cbn. f_equal. unfold digest_at, new.
      rewrite hashLeaves_lookup, Hlj. cbn. by rewrite decide_True.
  - rewrite !lookup_ge_None_2 by lia. done.
Qed.

(** ** The tree *)
Definition node_ok (t : list bytes) (p : nat) : Prop :=
  node t p = hashPair (node t (2 * p)) (node t (2 * p + 1)) p.

Definition tree_consistent (base : nat) (t : list bytes) : Prop :=
  ∀ p, (1 ≤ p < base)%nat → node_ok t p.

Lemma node_insert_eq t i d : (i < length t)%nat → node (<[i := d]> t) i = d.
Proof. intros H. unfold node. by rewrite list_lookup_insert_eq. Qed.
Lemma node_insert_ne t i j d : i ≠ j → node (<[i := d]> t) j = node t j.
Proof. intros H. unfold node. by rewrite list_lookup_insert_ne. Qed.
Lemma node_hash_node_ne t i j : i ≠ j → node (hash_node t i) j = node t j.
Proof. apply node_insert_ne. Qed.
Lemma length_hash_node t i : length (hash_node t i) = length t.
Proof. apply length_insert. Qed.

Lemma hash_node_ok t i : (1 ≤ i < length t)%nat → node_ok (hash_node t i) i.
Proof.
  intros Hi. unfold node_ok. rewrite (node_hash_node_ne t i (2 * i)), (node_hash_node_ne t i (2 * i + 1)) by lia.
  unfold hash_node. by rewrite node_insert_eq by lia.
Qed.

Lemma hash_node_keeps t i p : i ≠ p → i ≠ (2 * p)%nat → i ≠ (2 * p + 1)%nat → node_ok t p → node_ok (hash_node t i) p.
Proof. intros. unfold node_ok. by rewrite !node_hash_node_ne. Qed.

Lemma hash_down_spec i t :
  (i < length t)%nat →
  length (hash_down i t) = length t ∧ (∀ p, (i < p)%nat → node (hash_down i t) p = node t p) ∧
  ∀ p, (1 ≤ p ≤ i)%nat → node_ok (hash_down i t) p.
Proof.
  revert t. induction i as [|i IH]; intros t Hi; cbn [hash_down].
  { split; [done|]. split; [done|lia]. }
  destruct (IH (hash_node t (S i))) as (H1 & H2 & H3); [rewrite length_hash_node; lia|].
  rewrite length_hash_node in H1. split; [done|]. split.
  - intros p Hp. rewrite H2 by lia. apply node_hash_node_ne. lia.
  - intros p Hp. destruct (decide (p = S i)) as [->|]; [|apply H3; lia].
    unfold node_ok. rewrite !H2 by lia. apply hash_node_ok. lia.
Qed.

(** [p] is [q] or one of its ancestors. *)
Definition ancestor (q p : nat) : Prop := ∃ j, p = (q / 2 ^ j)%nat.

Lemma ancestor_self q : ancestor q q.
Proof. exists 0%nat. by rewrite Nat.pow_0_r, Nat.div_1_r. Qed.
Lemma ancestor_step q p : ancestor (q / 2) p → ancestor q p.
Proof. intros [j ->]. exists (S j). rewrite Nat.pow_succ_r'. by rewrite Nat.Div0.div_div. Qed.
Lemma ancestor_inv q p : ancestor q p → p = q ∨ ancestor (q / 2) p.
Proof.
  intros [[|j] ->]; [left; by rewrite Nat.pow_0_r, Nat.div_1_r|right]. exists j.
  by rewrite Nat.pow_succ_r', Nat.Div0.div_div.
Qed.

Lemma hash_path_spec base fuel t q :
  (base ≤ length t)%nat → (q < base)%nat → (q ≤ fuel)%nat →
  (∀ p, (1 ≤ p < base)%nat → ¬ ancestor q p → node_ok t p) →
  length (hash_path fuel t q) = length t ∧ tree_consistent base (hash_path fuel t q) ∧
  ∀ p, (base ≤ p)%nat → node (hash_path fuel t q) p = node t p.
Proof.
  intros Hb. revert t q Hb. induction fuel as [|fuel IH]; intros t q Hb Hq Hf Hok.
  { split; [done|]. split; [|done]. intros p Hp. apply Hok; [done|]. intros [j Hj].
    assert (q = 0)%nat as -> by lia. rewrite Nat.Div0.div_0_l in Hj. lia. }
  cbn [hash_path]. destruct (q =? 0)%nat eqn:E.
  { apply Nat.eqb_eq in E as ->. split; [done|]. split; [|done]. intros p Hp. apply Hok; [done|].
    intros [j Hj]. rewrite Nat.Div0.div_0_l in Hj. lia. }
  apply Nat.eqb_neq in E. assert (q / 2 < q)%nat by (apply Nat.div_lt; lia).
  destruct (IH (hash_node t q) (q / 2)%nat) as (H1 & H2 & H3); try rewrite length_hash_node; try lia.
  { intros p Hp Hn. destruct (decide (p = q)) as [->|Hpq]; [apply hash_node_ok; lia|].
    apply hash_node_keeps; [done| | |].
    - intros ->. apply Hn. rewrite (Nat.mul_comm 2), Nat.div_mul by lia. apply ancestor_self.
    - intros ->. apply Hn. rewrite Nat.add_comm, (Nat.mul_comm 2), Nat.div_add by lia. apply ancestor_self.
    - apply Hok; [done|]. intros Ha. by apply ancestor_inv in Ha as [?|?]. }
  rewrite length_hash_node in H1. split; [done|]. split; [done|].
  intros p Hp. rewrite H3 by done. apply node_hash_node_ne. lia.
Qed.

Lemma set_leaf_spec base t i d :
  (2 * base ≤ length t)%nat → (i < base)%nat → tree_consistent base t →
  length (set_leaf base t i d) = length t ∧ tree_consistent base (set_leaf base t i d) ∧
  node (set_leaf base t i d) (base + i) = d ∧
  ∀ j, j ≠ i → node (set_leaf base t i d) (base + j) = node t (base + j).
Proof.
  intros Hb Hi Hc. unfold set_leaf. case_decide as Hd; [done|].
  assert ((base + i) / 2 < base)%nat by (apply Nat.Div0.div_lt_upper_bound; lia).
  destruct (hash_path_spec base (base + i) (<[(base + i)%nat := d]> t) ((base + i) / 2)) as (H1 & H2 & H3).
  - rewrite length_insert. lia.
  - done.
  - apply Nat.Div0.div_le_upper_bound. lia.
  - intros p Hp Hn. assert ((base + i)%nat ≠ p) by lia.
    assert ((base + i)%nat ≠ (2 * p)%nat).
    { intros He. apply Hn. rewrite He, (Nat.mul_comm 2), Nat.div_mul by lia. apply ancestor_self. }
    assert ((base + i)%nat ≠ (2 * p + 1)%nat).
    { intros He. apply Hn. rewrite He, Nat.add_comm, (Nat.mul_comm 2), Nat.div_add by lia. apply ancestor_self. }
    unfold node_ok. rewrite !node_insert_ne by done. by apply Hc.
  - rewrite length_insert in H1. split; [done|]. split; [done|]. split.
    + rewrite H3 by lia. apply node_insert_eq. lia.
    + intros j Hj. rewrite H3 by lia. apply node_insert_ne. lia.
Qed.
Lemma set_leaves_spec base t off l :
  (2 * base ≤ length t)%nat → (off + length l ≤ base)%nat → tree_consistent base t →
  let t' := foldl (λ t '(i, c), set_leaf base t i (Digest c)) t (imap (λ i c, (off + i, c)%nat) l) in
  length t' = length t ∧ tree_consistent base t' ∧
  ∀ j, node t' (base + j)
       = match l !! (j - off)%nat with
         | Some c => if decide (off ≤ j)%nat then Digest c else node t (base + j)
         | None => node t (base + j)
         end.
Proof.
  revert t off. induction l as [|c l IH]; intros t off Hb Hl Hc; [done|].
  cbn [length] in Hl. cbn [imap foldl]. rewrite Nat.add_0_r.
  destruct (set_leaf_spec base t off (Digest c)) as (S1 & S2 & S3 & S4); [done|lia|done|].
  rewrite (imap_ext _ (λ i c, (S off + i, c)%nat)).
  2: { intros i x _. unfold compose. f_equal. lia. }
  destruct (IH (set_leaf base t off (Digest c)) (S off)) as (I1 & I2 & I3); [lia|lia|done|].
  rewrite S1 in I1. split; [done|]. split; [done|]. intros j. rewrite I3.
  destruct (decide (j = off)) as [->|Hj].
  - rewrite Nat.sub_diag. change ((c :: l) !! 0%nat) with (Some c). cbv beta iota.
    rewrite (decide_True (P := (off ≤ off)%nat)) by lia.
    destruct (l !! _); [rewrite decide_False by lia|]; done.
  - destruct (decide (off < j)%nat) as [Hlt|Hlt].
    + replace (j - off)%nat with (S (j - S off)) by lia.
      change ((c :: l) !! S (j - S off)) with (l !! (j - S off)%nat).
      destruct (l !! (j - S off)%nat); [by rewrite !decide_True by lia|by apply S4].
    + replace (j - S off)%nat with 0%nat by lia. replace (j - off)%nat with 0%nat by lia.
      change ((c :: l) !! 0%nat) with (Some c). cbv beta iota.
      rewrite (decide_False (P := (off ≤ j)%nat)) by lia.
      destruct (l !! 0%nat); [rewrite decide_False by lia|]; by apply S4.
Qed.

Lemma merkle_node f base t p :
  tree_consistent base t → (1 ≤ p)%nat → (base ≤ p * 2 ^ f)%nat →
  merkle (S f) (λ i, node t (base + i)) base p = node t p.
Proof.
  intros Hc. revert p. induction f as [|f IH]; intros p Hp Hb.
  - cbn. rewrite Nat.pow_0_r in Hb. rewrite (proj2 (Nat.leb_le _ _)) by lia. f_equal. lia.
  - cbn [merkle]. case_match eqn:E; [apply Nat.leb_le in E; f_equal; lia|]. apply Nat.leb_gt in E.
    change (if (base <=? 2 * p)%nat then _ else _) with (merkle (S f) (λ i, node t (base + i)) base (2 * p)).
    change (if (base <=? 2 * p + 1)%nat then _ else _) with (merkle (S f) (λ i, node t (base + i)) base (2 * p + 1)).
    rewrite Nat.pow_succ_r' in Hb. rewrite !IH by lia. symmetry. apply Hc. lia.
Qed.

Lemma merkle_ext f L M base p :
  (∀ j, (j < base)%nat → L j = M j) → (1 ≤ p < 2 * base)%nat → merkle f L base p = merkle f M base p.
Proof.
  intros H. revert p. induction f as [|f IH]; intros p Hp; cbn [merkle]; [done|].
  case_match eqn:E; [apply Nat.leb_le in E; apply H; lia|]. apply Nat.leb_gt in E.
  rewrite !IH by lia. done.
Qed.

(** The tree does not see a pair of equal leaves. *)
Definition leaves_agree (base : nat) (L M : nat → bytes) : Prop :=
  ∀ j, (2 * j + 1 < base)%nat →
    (L (2 * j) = M (2 * j) ∧ L (2 * j + 1) = M (2 * j + 1))%nat ∨
    (L (2 * j) = L (2 * j + 1) ∧ M (2 * j) = M (2 * j + 1) ∧
     length (L (2 * j)) = 32 ∧ length (M (2 * j)) = 32)%nat.

Lemma merkle_pairs f L M base p :
  Nat.Even base → leaves_agree base L M → (1 ≤ p < base)%nat → merkle f L base p = merkle f M base p.
Proof.
  intros [b ->] H. revert p. induction f as [|f IH]; intros p Hp; cbn [merkle]; [done|].
  rewrite (proj2 (Nat.leb_gt _ _)) by lia. destruct (decide (2 * p < 2 * b)%nat) as [Hlt|Hlt].
  { by rewrite !IH by lia. }
  destruct f as [|f]; [done|]. cbn [merkle]. rewrite !(proj2 (Nat.leb_le _ _)) by lia.
  replace (2 * p - 2 * b)%nat with (2 * (p - b))%nat by lia.
  replace (2 * p + 1 - 2 * b)%nat with (2 * (p - b) + 1)%nat by lia.
  destruct (H (p - b)%nat) as [[-> ->]|(HL & HM & L1 & L2)]; [lia|done|].
  rewrite <- HL, <- HM. by apply hashPair_same.
Qed.

Lemma grow_base_spec fuel base n :
  (n ≤ base + fuel)%nat → (1 ≤ base)%nat → (base = 1 ∨ Nat.Even base)%nat → (base < 2 * n ∨ base = 1)%nat →
  let b := grow_base fuel base n in
  (n ≤ b ∧ 1 ≤ b ∧ (b = 1 ∨ Nat.Even b) ∧ (b < 2 * n ∨ b = 1))%nat.
Proof.
  revert base. induction fuel as [|fuel IH]; intros base H1 H2 H3 H4; cbn.
  { repeat split; try done. lia. }
  case_match eqn:E; [apply Nat.ltb_lt in E|apply Nat.ltb_ge in E; by repeat split].
  apply IH; try lia. right. exists base. lia.
Qed.

Lemma base_for_spec n :
  let b := base_for n in (n ≤ b ∧ 1 ≤ b ∧ (b = 1 ∨ Nat.Even b) ∧ (b < 2 * n ∨ b = 1))%nat.
Proof. apply grow_base_spec; auto; lia. Qed.

Definition padding_ok (n : nat) : Prop := Nat.Odd n ∨ (base_for n ≤ n + 1)%nat.

Definition tree_ok (t : list bytes) (base leaves : nat) : Prop :=
  (base = 0 ∧ leaves = 0)%nat ∨
  (0 < leaves)%nat ∧ base = base_for leaves ∧ (2 * base ≤ length t)%nat ∧ tree_consistent base t ∧
  ∃ x, length x = 32%nat ∧ ∀ j, (leaves < j < base)%nat → node t (base + j) = x.

Lemma list_inserts_node i k t p :
  (i + length k ≤ length t)%nat →
  node (list_inserts i k t) p = match k !! (p - i)%nat with
                                | Some x => if decide (i ≤ p)%nat then x else node t p
                                | None => node t p end.
Proof.
  intros Hl. unfold node. destruct (decide (i ≤ p)%nat).
  - destruct (k !! (p - i)%nat) as [x|] eqn:E.
    + apply lookup_lt_Some in E as Hlt. rewrite list_lookup_inserts by lia. by rewrite E.
    + apply lookup_ge_None in E. by rewrite list_lookup_inserts_ge by lia.
  - rewrite list_lookup_inserts_lt by lia. by case_match.
Qed.

Lemma leaf_of_last l c i : last l = Some c → (length l ≤ i)%nat → leaf_of l i = Digest c.
Proof.
  intros Hl Hi. unfold leaf_of, digest_at. rewrite Nat.min_r by lia.
  rewrite last_lookup in Hl. by rewrite <- Nat.sub_1_r, Hl in *.
Qed.

Lemma leaf_of_lookup l c i : l !! i = Some c → leaf_of l i = Digest c.
Proof.
  intros Hl. apply lookup_lt_Some in Hl as Hlt. unfold leaf_of, digest_at.
  rewrite Nat.min_l by lia. by rewrite Hl.
Qed.
Lemma length_leaf_of l i :
  Forall (λ c, length (Digest c) = 32%nat) l → l ≠ [] → length (leaf_of l i) = 32%nat.
Proof.
  intros Hl Hn. unfold leaf_of, digest_at.
  destruct (lookup_lt_is_Some_2 l (Nat.min i (length l - 1))) as [c Hc].
  { destruct l; [done|cbn; lia]. }
  rewrite Hc. by apply (Forall_lookup_1 _ _ _ _ Hl Hc).
Qed.

Definition reference_root (f : Z) (l : list BoomBoomChunk) : bytes :=
  xor_root f (merkle (S (length l)) (leaf_of l) (base_for (length l)) 1).

Lemma base_for_pow n : (base_for n ≤ 1 * 2 ^ n)%nat.
Proof.
  destruct (base_for_spec n) as (_ & _ & _ & [H|H]); [|rewrite H; pose proof (Nat.pow_nonzero 2 n); lia].
  destruct n as [|n]; [lia|]. pose proof (Nat.pow_gt_lin_r 2 n ltac:(lia)). rewrite Nat.pow_succ_r'. lia.
Qed.

(** A consistent tree with the right leaves has the reference root. *)
Lemma root_of_leaves l t :
  Forall (λ c, length (Digest c) = 32%nat) l → l ≠ [] → tree_consistent (base_for (length l)) t →
  (∀ j, (j ≤ length l)%nat → (j < base_for (length l))%nat → node t (base_for (length l) + j) = leaf_of l j) →
  (∃ x, length x = 32%nat ∧
    ∀ j, (length l < j < base_for (length l))%nat → node t (base_for (length l) + j) = x) →
  padding_ok (length l) ∨ (∀ j, (j < base_for (length l))%nat → node t (base_for (length l) + j) = leaf_of l j) →
  node t 1 = merkle (S (length l)) (leaf_of l) (base_for (length l)) 1.
Proof.
  intros Hl Hn Hc Hlv (x & Hx & Hpad) Hok. set (n := length l) in *. set (base := base_for n) in *.
  assert (0 < n)%nat by (unfold n; destruct l; [done|cbn; lia]).
  destruct (base_for_spec n) as (B1 & B2 & B3 & B4). fold base in B1, B2, B3, B4.
  rewrite <- (merkle_node n base) by (try done; apply base_for_pow).
  assert (∀ j, (n - 1 ≤ j)%nat → leaf_of l j = leaf_of l (n - 1)) as Hlast.
  { intros j Hj. unfold leaf_of. fold n. f_equal. lia. }
  destruct Hok as [[Hodd|Hle]|Hall].
  - destruct (decide (base = 1)%nat) as [Hb1|Hb1].
    { apply merkle_ext; [|lia]. intros j Hj. apply Hlv; lia. }
    destruct B3 as [B3|B3]; [done|]. apply merkle_pairs; [done| |lia].
    intros j Hj. destruct (decide (2 * j < n)%nat) as [Hlt|Hge].
    + left. split; apply Hlv; lia.
    + right. destruct Hodd as [m Hm]. rewrite !Hpad by lia. rewrite (Hlast (2 * j)%nat), (Hlast (2 * j + 1)%nat) by lia.
      repeat split; try done. by apply length_leaf_of.
  - apply merkle_ext; [|lia]. intros j Hj. apply Hlv; [|done]. unfold base in *. lia.
  - apply merkle_ext; [|lia]. done.
Qed.

Lemma hashTree_spec k f t b n l :
  tree_ok t b n → l ≠ [] → Forall (λ c, length (Digest c) = 32%nat) l →
  (b = base_for (length l) → n = length l → padding_ok (length l)) →
  ∃ t', hashTree cpu k f t b n l = (reference_root f l, t', base_for (length l), length l) ∧
        tree_ok t' (base_for (length l)) (length l).
Proof.
  intros Hok Hn Hl Hpad. unfold hashTree, reference_root.
  destruct (last l) as [c|] eqn:Hlast; [|by apply last_None in Hlast]. cbv zeta.
  set (base := base_for (length l)) in *.
  assert (0 < length l)%nat as Hpos by (destruct l; [done|cbn; lia]).
  destruct (base_for_spec (length l)) as (B1 & B2 & B3 & B4). fold base in B1, B2, B3, B4.
  assert (length (Digest c) = 32%nat) as Hc32.
  { rewrite last_lookup in Hlast. by apply (Forall_lookup_1 _ _ _ _ Hl Hlast). }
  case_match eqn:E.
  - set (t0 := if (length t <? base * 2)%nat then _ else t).
    assert (2 * base ≤ length t0)%nat as Ht0.
    { unfold t0. case_match eqn:E1; [|apply Nat.ltb_ge in E1; lia]. rewrite length_replicate.
      case_match eqn:E2; [lia|]. apply Nat.ltb_ge in E2. lia. }
    set (t1 := list_inserts base (Digest <$> l) t0).
    set (t2 := list_inserts (base + length l) (replicate (base - length l) (Digest c)) t1).
    assert (length t2 = length t0) as L2 by (unfold t2, t1; by rewrite !length_inserts).
    assert (∀ j, (j < base)%nat → node t2 (base + j) = leaf_of l j) as Hlv.
    { intros j Hj. unfold t2. rewrite list_inserts_node.
      2: { unfold t1. rewrite length_inserts, length_replicate. lia. }
      destruct (decide (length l ≤ j)%nat) as [Hge|Hlt].
      - rewrite lookup_replicate_2 by lia. rewrite decide_True by lia. by erewrite leaf_of_last.
      - assert (node t1 (base + j) = leaf_of l j) as ->.
        { unfold t1. rewrite list_inserts_node by (rewrite length_fmap; lia).
          replace (base + j - base)%nat with j by lia. rewrite list_lookup_fmap.
          destruct (lookup_lt_is_Some_2 l j ltac:(lia)) as [d Hd]. rewrite Hd. cbn.
          rewrite decide_True by lia. symmetry. by apply leaf_of_lookup. }
        case_match; [by rewrite decide_False by lia|done]. }
    destruct (hash_down_spec (base - 1) t2) as (D1 & D2 & D3); [lia|].
    exists (hash_down (base - 1) t2).
    assert (tree_consistent base (hash_down (base - 1) t2)) as Hcons by (intros p Hp; apply D3; lia).
    assert (∀ j, (j < base)%nat → node (hash_down (base - 1) t2) (base + j) = leaf_of l j) as Hlv'.
    { intros j Hj. rewrite D2 by lia. by apply Hlv. }
    assert (∀ j, (length l < j < base)%nat → node (hash_down (base - 1) t2) (base + j) = Digest c) as Hp'.
    { intros j Hj. rewrite Hlv' by lia. apply leaf_of_last; [done|lia]. }
    split.
    + do 4 f_equal. apply root_of_leaves; try done; [intros; by apply Hlv'|by eauto|by right].
    + right. split; [done|]. split; [done|]. split; [lia|]. split; [done|]. by eauto.
  - apply negb_false_iff, andb_true_iff in E as [E1 E2]. apply Nat.eqb_eq in E1, E2.
    destruct Hok as [[-> _]|(_ & _ & Hlen & Hcons & x & Hx & Hxs)]; [lia|]. rewrite E1, E2 in *.
    set (t1 := if (length l <? base)%nat then _ else t).
    assert (length t1 = length t ∧ tree_consistent base t1 ∧
      ((length l < base)%nat → node t1 (base + length l) = Digest c) ∧
      ∀ j, j ≠ length l → node t1 (base + j) = node t (base + j)) as (T1 & T2 & T3 & T4).
    { unfold t1. case_match eqn:E3; [apply Nat.ltb_lt in E3|apply Nat.ltb_ge in E3].
      - destruct (set_leaf_spec base t (length l) (Digest c)) as (?&?&?&?); try done; lia.
      - repeat split; try done. lia. }
    destruct (set_leaves_spec base t1 0 l) as (F1 & F2 & F3); [lia|lia|done|].
    replace (imap (λ i c, (0 + i, c)%nat) l) with (imap pair l) in F1, F2, F3 by done.
    set (t2 := foldl _ t1 (imap pair l)) in *. exists t2.
    assert (∀ j, (j < length l)%nat → node t2 (base + j) = leaf_of l j) as G1.
    { intros j Hj. rewrite F3, Nat.sub_0_r. destruct (lookup_lt_is_Some_2 l j Hj) as [d Hd].
      rewrite Hd. rewrite decide_True by lia. symmetry. by apply leaf_of_lookup. }
    assert (∀ j, (length l ≤ j)%nat → node t2 (base + j) = node t1 (base + j)) as G2.
    { intros j Hj. rewrite F3, Nat.sub_0_r. by rewrite lookup_ge_None_2 by lia. }
    assert (∀ j, (length l < j < base)%nat → node t2 (base + j) = x) as G3.
    { intros j Hj. rewrite G2, T4 by lia. apply Hxs. lia. }
    split.
    + do 4 f_equal. apply root_of_leaves; try done; [|by eauto|left; by apply Hpad].
      intros j H1 H2. destruct (decide (j = length l)) as [->|]; [|apply G1; lia].
      rewrite G2, T3 by lia. symmetry. by apply leaf_of_last.
    + right. split; [done|]. split; [done|]. split; [lia|]. split; [done|]. by eauto.
Qed.
(** ** The hasher *)

(** A hasher that has returned the digest of its last text. *)
Definition hasher_ok (h : BoomBoomHasher) : Prop :=
  tree_ok (tree h) (treeBase h) (treeLeaves h) ∧ (len (chunks h) ≤ length (array (chunks h)))%nat ∧
  if initialized h then
    elems (chunks h) = fresh_chunks (key h) (previous h) ∧
    treeFingerprint h = raw (fresh_chunks (key h) (previous h)) ∧
    root h = full_digest (key h) (previous h)
  else len (chunks h) = 0%nat.

Lemma new_hasher_ok c : hasher_ok (NewBoomBoomHasher cpu c).
Proof. split; [by left|]. by split. Qed.

Lemma full_digest_nonempty k data :
  fresh_chunks k data ≠ [] →
  full_digest k data = reference_root (raw (fresh_chunks k data)) (fresh_chunks k data).
Proof. intros H. unfold BoomTree.full_digest. cbv zeta. by destruct (fresh_chunks k data). Qed.

Lemma fresh_digests k data : Forall (λ c, length (Digest c) = 32%nat) (fresh_chunks k data).
Proof.
  apply Forall_lookup. intros j c Hc. rewrite fresh_chunks_lookup in Hc.
  destruct (scanBoomBoom data !! j); [|done]. injection Hc as <-. apply length_leaf.
Qed.

(** The chunks that the scan is compared with do not come from an older text. *)
Definition slots_known (h : BoomBoomHasher) (n : nat) : Prop :=
  (n ≤ len (chunks h) ∨ length (array (chunks h)) < n)%nat.

Definition next_slice (h : BoomBoomHasher) (n : nat) : chunk_slice :=
  if negb (len (chunks h) =? n)%nat then growBoomChunks (chunks h) n else chunks h.

Lemma next_slice_ok h n :
  hasher_ok h → slots_known h n →
  len (next_slice h n) = n ∧ (n ≤ length (array (next_slice h n)))%nat ∧
  cache_ok (key h) (previous h) (elems (next_slice h n)) ∧
  (len (chunks h) = n → next_slice h n = chunks h).
Proof.
  intros (_ & Hlen & Hini) Hs.
  assert (cache_ok (key h) (previous h) (elems (chunks h))) as Hc.
  { destruct (initialized h).
    - destruct Hini as (-> & _). intros j old Hj. rewrite fresh_chunks_lookup in Hj.
      destruct (scanBoomBoom (previous h) !! j); [|done]. injection Hj as <-. right. by eexists.
    - unfold elems. rewrite Hini. done. }
  clear Hini. unfold next_slice. destruct (negb _) eqn:E.
  - apply negb_true_iff, Nat.eqb_neq in E. unfold growBoomChunks.
    case_match eqn:E1; [apply Nat.leb_le in E1|apply Nat.leb_gt in E1]; cbn [len array]; (split; [done|]).
    + split; [done|]. split; [|done]. destruct Hs as [Hs|Hs]; [|lia].
      intros j old Hj. apply Hc. unfold elems in *. cbn [len array] in *.
      apply lookup_take_Some in Hj as [Hj ?]. apply lookup_take_Some. split; [done|lia].
    + rewrite length_replicate. split; [case_match; [lia|]; by apply Nat.ltb_ge|]. split; [|done].
      intros j old Hj. unfold elems in Hj. cbn [len array] in Hj.
      apply lookup_take_Some in Hj as [Hj _]. apply lookup_replicate in Hj as [-> _]. by left.
  - apply negb_false_iff, Nat.eqb_eq in E. subst n. by repeat split.
Qed.

Lemma copy_chunks_elems s l :
  len s = length l → (len s ≤ length (array s))%nat →
  elems (copy_chunks s l) = l ∧ len (copy_chunks s l) = len s ∧
  (len s ≤ length (array (copy_chunks s l)))%nat.
Proof.
  intros H1 H2. unfold copy_chunks, elems. cbn [len array]. rewrite H1, firstn_all.
  rewrite take_app_length, length_app, length_drop. split; [done|]. split; [done|]. lia.
Qed.

Lemma Update_ok h data :
  hasher_ok h → closed h = false →
  slots_known h (length (scanBoomBoom data)) →
  (treeLeaves h = length (scanBoomBoom data) → padding_ok (length (scanBoomBoom data))) →
  fst (Update h data) = inl (full_digest (key h) data) ∧ hasher_ok (snd (Update h data)) ∧
  key (snd (Update h data)) = key h ∧ closed (snd (Update h data)) = false.
Proof.
  intros Hok Hcl Hslots Hpad. unfold BoomTree.Update. case_match eqn:Hsame.
  { apply andb_true_iff in Hsame as [Hsame Heq]. apply andb_true_iff in Hsame as [Hini _].
    apply bool_decide_eq_true in Heq. subst data. destruct Hok as (T & L & H). rewrite Hini in H.
    destruct H as (H1 & H2 & H3). cbn. rewrite H3. split; [done|]. split; [|done].
    split; [done|]. split; [done|]. cbn. by rewrite Hini. }
  cbv zeta. fold (next_slice h (length (scanBoomBoom data))).
  destruct (next_slice_ok h _ Hok Hslots) as (N1 & N2 & N3 & N4).
  set (s := next_slice h (length (scanBoomBoom data))) in *.
  assert (length (elems s) = length (scanBoomBoom data)) as Hel.
  { unfold elems. rewrite length_take. lia. }
  destruct (compare_chunks (previous h) data 0 (elems s) (scanBoomBoom data)) as [l changed] eqn:Hcmp.
  pose proof (leaves_from_cache _ _ _ _ _ _ Hel N3 Hcmp) as Hleaves.
  rewrite Hcl, andb_false_r. rewrite Hleaves.
  set (f := if initialized h && _ then _ else _).
  assert (f = raw (fresh_chunks (key h) data)) as Hf.
  { unfold f. case_match eqn:E; [|done]. apply andb_true_iff in E as [Hini E]. apply Nat.eqb_eq in E.
    rewrite <- Hleaves.
    rewrite <- (update_fingerprint_raw (key h) _ _ _ _ _ Hel Hcmp).
    f_equal. destruct Hok as (_ & _ & H). rewrite Hini in H. destruct H as (H1 & H2 & _).
    by rewrite (N4 E), H1. }
  destruct (copy_chunks_elems s (fresh_chunks (key h) data)) as (C1 & C2 & C3);
    [by rewrite length_fresh_chunks|lia|].
  rewrite C1. destruct Hok as (HT & _ & _).
  destruct (decide (fresh_chunks (key h) data = [])) as [He|Hne].
  - assert (full_digest (key h) data = expandBB64Seed cpu boomBoomDomain 0 0 (base_of (key h))) as Hfd.
    { unfold BoomTree.full_digest. cbv zeta. by rewrite He. }
    assert (hashTree cpu (key h) f (tree h) (treeBase h) (treeLeaves h) (fresh_chunks (key h) data)
      = (full_digest (key h) data, tree h, treeBase h, treeLeaves h)) as -> by (rewrite Hfd; by rewrite He).
    cbn [fst snd]. split; [done|]. split; [|done].
    split; [done|]. split; [cbn [chunks]; lia|]. by cbn -[copy_chunks].
  - destruct (hashTree_spec (key h) f _ _ _ (fresh_chunks (key h) data) HT Hne (fresh_digests _ _))
      as (t' & -> & Ht').
    { rewrite length_fresh_chunks. auto. }
    cbn [fst snd]. rewrite Hf, <- full_digest_nonempty by done. split; [done|]. split; [|done].
    split; [done|]. split; [cbn [chunks]; lia|]. by cbn -[copy_chunks].
Qed.
End facts.

(** ** The last chunk of an odd number of chunks *)

(** What the digest of a chunk depends on. *)
Definition chunk_view (data : bytes) : list (Z * bytes) :=
  (λ c, (Kind c, chunk_bytes data c)) <$> scanBoomBoom data.

Lemma fresh_chunks_digests cpu k data :
  Digest <$> fresh_chunks cpu k data
  = imap (λ i '(kind, b), expandBB64Seed cpu b kind i (base_of k)) (chunk_view data).
Proof.
  apply list_eq. intros i. unfold chunk_view. rewrite list_lookup_imap, !list_lookup_fmap.
  rewrite fresh_chunks_lookup. by destruct (scanBoomBoom data !! i).
Qed.

Lemma digest_at_fmap l i : digest_at l i = default [] ((Digest <$> l) !! i).
Proof. unfold digest_at. rewrite list_lookup_fmap. by destruct (l !! i). Qed.

Section views.
Context (cpu : cpu_features) (k data data' : bytes).
Context (Hlen : length (scanBoomBoom data') = length (scanBoomBoom data)).

Lemma digest_at_view i :
  chunk_view data !! i = chunk_view data' !! i →
  digest_at (fresh_chunks cpu k data) i = digest_at (fresh_chunks cpu k data') i.
Proof.
  intros H. rewrite !digest_at_fmap, !fresh_chunks_digests, !list_lookup_imap. by rewrite H.
Qed.

(** The tree over an odd number of chunks pairs the last one with its copy. *)
Lemma odd_last_chunk_hidden :
  Nat.Odd (length (scanBoomBoom data)) → (2 ≤ length (scanBoomBoom data))%nat →
  (∀ i, (i + 1 < length (scanBoomBoom data))%nat → chunk_view data !! i = chunk_view data' !! i) →
  drop 8 (full_digest cpu k data) = drop 8 (full_digest cpu k data').
Proof.
  intros [m Hm] H2 Hv. set (n := length (scanBoomBoom data)) in *.
  assert (∀ d, length (scanBoomBoom d) = n → fresh_chunks cpu k d ≠ []) as Hne.
  { intros d Hd He. pose proof (length_fresh_chunks cpu k d) as H. rewrite He in H. cbn in H. lia. }
  rewrite !full_digest_nonempty by (by apply Hne). unfold reference_root.
  rewrite !length_fresh_chunks, Hlen. fold n. unfold xor_root.
  rewrite !drop_app_length' by (by rewrite length_le_bytes). f_equal. destruct (base_for_spec n) as (B1 & B2 & B3 & B4).
  destruct B3 as [B3|B3]; [lia|]. apply merkle_pairs; [done| |lia].
  intros j Hj. destruct (decide (2 * j + 1 < n - 1)%nat) as [Hlt|Hge].
  - left. unfold leaf_of. rewrite !length_fresh_chunks, Hlen. fold n.
    rewrite !Nat.min_l by lia. split; apply digest_at_view, Hv; lia.
  - right. unfold leaf_of. rewrite !length_fresh_chunks, Hlen. fold n.
    rewrite !Nat.min_r by lia. split; [done|]. split; [done|].
    assert (∀ d, length (scanBoomBoom d) = n → length (digest_at (fresh_chunks cpu k d) (n - 1)) = 32%nat) as Hd.
    { intros d Hd. pose proof (length_leaf_of (fresh_chunks cpu k d) (n - 1) (fresh_digests cpu k d) (Hne d Hd)) as H.
      unfold leaf_of in H. rewrite length_fresh_chunks, Hd in H. by rewrite Nat.min_id in H. }
    split; by apply Hd.
Qed.
End views.

(** ** Properties *)

(** C22 The incremental digest: a new hasher returns the reference digest of any
    text (the hash tree over its chunks, computed from nothing), and a hasher
    that has seen other texts, whose digests, fingerprint and tree are those of
    its last text, returns the reference digest of the next one and is again
    such a hasher, provided that the slots the new chunks are compared with
    belong to the last text and, when the number of chunks does not change,
    that this number is odd or leaves at most one padding leaf. *)
Theorem boomboom_digest cpu :
  (∀ c data, HashBoomBoom cpu c data = inl (full_digest cpu (BoomBoomContextDigest cpu c) data) ∧
             hasher_ok cpu (snd (Update cpu (NewBoomBoomHasher cpu c) data))) ∧
  ∀ h data,
    hasher_ok cpu h → closed h = false →
    slots_known h (length (scanBoomBoom data)) →
    (treeLeaves h = length (scanBoomBoom data) → padding_ok (length (scanBoomBoom data))) →
    fst (Update cpu h data) = inl (full_digest cpu (key h) data) ∧ hasher_ok cpu (snd (Update cpu h data)) ∧
    key (snd (Update cpu h data)) = key h ∧ closed (snd (Update cpu h data)) = false.
Proof.
  split; [|intros; by apply Update_ok]. intros c data.
  destruct (Update_ok cpu (NewBoomBoomHasher cpu c) data) as (H1 & H2 & _); [apply new_hasher_ok|done| | |done].
  - unfold slots_known. cbn. destruct (scanBoomBoom data); cbn; [left|right]; lia.
  - cbn. intros <-. right. vm_compute. lia.
Qed.

Definition hasher_abc : BoomBoomHasher :=
  snd (Update scalar_cpu (NewBoomBoomHasher scalar_cpu ctx0) (bs "a;b;c;")).

Lemma boomboom_digest_witness :
  fst (Update scalar_cpu hasher_abc (bs "a;d;c;")) = inl (full_digest scalar_cpu (key hasher_abc) (bs "a;d;c;")).
Proof.
  refine (proj1 (proj2 (boomboom_digest scalar_cpu) hasher_abc (bs "a;d;c;") _ _ _ _)).
  - exact (proj2 (proj1 (boomboom_digest scalar_cpu) ctx0 (bs "a;b;c;"))).
  - vm_compute. reflexivity.
  - left. vm_compute. lia.
  - intros _. left. exists 1%nat. vm_compute. reflexivity.
Defined.

(** Outside those conditions the digest is not that of the text.  A text with
    fewer chunks leaves the slots of an older text behind, and a later text
    takes their digests; with an even number of chunks and two padding leaves a
    change of the last chunk reaches only one of them.  And for an odd number of
    chunks, two or more, 24 of the 32 bytes of the digest do not depend on the
    last chunk: its leaf is paired with its own copy, and two equal leaves
    cancel. *)
Theorem boomboom_wrong_digests :
  incremental [bs "a;b;cc;"; bs "a;b dd;"] (bs "a;b;dd;")
    ≠ inl (full_digest scalar_cpu (BoomBoomContextDigest scalar_cpu ctx0) (bs "a;b;dd;")) ∧
  incremental [bs "a;b;c;d;e;f;"] (bs "a;b;c;d;e;g;")
    ≠ inl (full_digest scalar_cpu (BoomBoomContextDigest scalar_cpu ctx0) (bs "a;b;c;d;e;g;")) ∧
  ∀ cpu k data data',
    length (scanBoomBoom data') = length (scanBoomBoom data) →
    Nat.Odd (length (scanBoomBoom data)) → (2 ≤ length (scanBoomBoom data))%nat →
    (∀ i, (i + 1 < length (scanBoomBoom data))%nat → chunk_view data !! i = chunk_view data' !! i) →
    drop 8 (full_digest cpu k data) = drop 8 (full_digest cpu k data').
Proof.
  split; [vm_compute; discriminate|]. split; [vm_compute; discriminate|].
  intros. by apply odd_last_chunk_hidden.
Qed.

Lemma boomboom_wrong_digests_witness :
  drop 8 (full_digest scalar_cpu [] (bs "x=1;y=2;return 0;")) = drop 8 (full_digest scalar_cpu [] (bs "x=1;y=2;return 1;")).
Proof.
  apply (proj2 (proj2 boomboom_wrong_digests) scalar_cpu [] (bs "x=1;y=2;return 0;") (bs "x=1;y=2;return 1;")).
  - reflexivity.
  - exists 1%nat. reflexivity.
  - vm_compute. lia.
  - intros [|[|i]] Hi; [reflexivity|reflexivity|].
    change (length (scanBoomBoom _)) with 3%nat in Hi. lia.
Defined.
