(* ===== verification/BoomPool.v ===== *)
(** * Utilities: the leaf workers (utils/boomboom.go, startParallelWorkers)

    More than four changed leaves are hashed by a pool of workers that share a
    mutex and a condition variable.  A step is a region under the mutex, from
    Lock or from the end of a Wait to Unlock or the next Wait, or the write of
    one digest, or the caller's unlocked write of the jobs.  Wait puts its
    goroutine to sleep, and only a Broadcast wakes it: then it tests its
    condition again.  The batch number is not taken modulo 2^64. *)
From stdpp Require Import list.
From S2P Require Import Prelude Bb64 BoomScan BoomTree BoomFacts.

(** Where a worker is: about to test for a batch after the one it saw, asleep
    in Wait, about to take a job, with a job taken, with its digest written,
    gone. *)
Inductive worker :=
| Waiting (seen : nat)
| Sleeping (seen : nat)
| Taking (seen : nat)
| Running (seen index : nat)
| Written (seen : nat)
| Exited.

(** Where the goroutine that hashes is: not in hashChangedLeavesParallel, at
    its start, before its Lock, asleep in Wait, woken, returned. *)
Inductive caller_state :=
| Outside
| Calling
| Posting
| Asleep
| Woken
| Returned (r : list BoomBoomChunk + string).

Record pool := mk_pool {
  jobs : list nat;
  job_chunks : list BoomBoomChunk;
  next : nat;
  done_ : nat;
  parallelCount : nat;
  batch : nat;
  is_closed : bool;
  workers : list worker;
  caller : caller_state }.

(** [startParallelWorkers]. *)
Definition start_workers (GOMAXPROCS : nat) : list worker :=
  let workers := GOMAXPROCS in
  let workers := if (workers <? 2)%nat then 2%nat else workers in
  let workers := if (16 <? workers)%nat then 16%nat else workers in
  replicate workers (Waiting 0).

Definition new_pool (GOMAXPROCS : nat) : pool :=
  mk_pool [] [] 0 0 0 0 false (start_workers GOMAXPROCS) Outside.

Definition set_workers (l : list worker) (p : pool) : pool :=
  mk_pool (jobs p) (job_chunks p) (next p) (done_ p) (parallelCount p) (batch p) (is_closed p) l (caller p).
Definition set_caller (c : caller_state) (p : pool) : pool :=
  mk_pool (jobs p) (job_chunks p) (next p) (done_ p) (parallelCount p) (batch p) (is_closed p) (workers p) c.

(** [parallelCond.Broadcast]: whoever sleeps will test its condition again. *)
Definition wake (s : worker) : worker := match s with Sleeping seen => Waiting seen | _ => s end.
Definition wake_caller (c : caller_state) : caller_state := match c with Asleep => Woken | _ => c end.
Definition broadcast (p : pool) : pool :=
  set_caller (wake_caller (caller p)) (set_workers (wake <$> workers p) p).

Definition errClosed : string := "BoomBoomHasher is closed".

(** [Close]. *)
Definition close_pool (p : pool) : pool :=
  broadcast (mk_pool (jobs p) (job_chunks p) (next p) (done_ p) (parallelCount p) (batch p) true (workers p) (caller p)).

Section pool.
Context (cpu : cpu_features) (k data : bytes) (changed : list nat) (scan : list BoomBoomChunk).
Local Abbreviation hashLeaf := (hashLeaf cpu k data).

(** The locked region of [hashChangedLeavesParallel] that posts a batch. *)
Definition post_batch (p : pool) : pool :=
  broadcast (mk_pool (jobs p) (job_chunks p) 0 0 (length changed) (S (batch p)) (is_closed p) (workers p) (caller p)).

(** The test of the caller's loop: Wait, or leave. *)
Definition caller_loop (p : pool) : pool :=
  if negb (done_ p =? parallelCount p)%nat && negb (is_closed p) then set_caller Asleep p
  else set_caller (Returned (if is_closed p then inr errClosed else inl (job_chunks p))) p.

Definition caller_step (p : pool) : option pool :=
  match caller p with
  | Calling =>
      match changed with
      | [] => Some (set_caller (Returned (inl scan)) p)
      | _ => Some (mk_pool changed scan (next p) (done_ p) (parallelCount p) (batch p) (is_closed p) (workers p) Posting)
      end
  | Posting => if is_closed p then Some (set_caller (Returned (inr errClosed)) p) else Some (caller_loop (post_batch p))
  | Woken => Some (caller_loop p)
  | Outside | Asleep | Returned _ => None
  end.

(** The step of a worker in state [s]: its next state, the pool, and whether it
    calls Broadcast; [None] when it sleeps or is gone. *)
Definition worker_step (s : worker) (p : pool) : option (worker * pool * bool) :=
  match s with
  | Waiting seen =>
      if (seen =? batch p)%nat && negb (is_closed p) then Some (Sleeping seen, p, false)
      else if is_closed p then Some (Exited, p, false)
      else Some (Taking (batch p), p, false)
  | Taking seen =>
      if is_closed p || (parallelCount p <=? next p)%nat then Some (Waiting seen, p, false)
      else
        match jobs p !! next p with
        | Some index =>
            Some (Running seen index,
                  mk_pool (jobs p) (job_chunks p) (S (next p)) (done_ p) (parallelCount p) (batch p) (is_closed p) (workers p) (caller p),
                  false)
        | None => None
        end
  | Running seen index =>
      Some (Written seen,
            mk_pool (jobs p) (hashLeaf (job_chunks p) index) (next p) (done_ p) (parallelCount p) (batch p) (is_closed p) (workers p) (caller p),
            false)
  | Written seen =>
      Some (Taking seen,
            mk_pool (jobs p) (job_chunks p) (next p) (S (done_ p)) (parallelCount p) (batch p) (is_closed p) (workers p) (caller p),
            (S (done_ p) =? parallelCount p)%nat)
  | Sleeping _ | Exited => None
  end.

Definition move (w : nat) (r : worker * pool * bool) : pool :=
  let '(s, q, signal) := r in
  let q := set_workers (<[w := s]> (workers q)) q in
  if signal then broadcast q else q.

Inductive step : pool → pool → Prop :=
| step_worker p w s r : workers p !! w = Some s → worker_step s p = Some r → step p (move w r)
| step_caller p q : caller_step p = Some q → step p q
| step_close p : is_closed p = false → step p (close_pool p).

Inductive steps : nat → pool → pool → Prop :=
| steps_refl p : steps 0 p p
| steps_snoc n p q r : steps n p q → step q r → steps (S n) p r.

(** Neither a worker nor the caller can do anything. *)
Definition stuck (p : pool) : Prop :=
  (∀ w s, workers p !! w = Some s → worker_step s p = None) ∧ caller_step p = None.

(** The pool between two calls: no job is under way. *)
Definition idle_worker (p : pool) (s : worker) : Prop :=
  match s with Waiting seen | Sleeping seen | Taking seen => (seen ≤ batch p)%nat | Exited => True | _ => False end.
Definition idle (p : pool) : Prop := Forall (idle_worker p) (workers p) ∧ (parallelCount p ≤ next p)%nat.

(** Whoever sleeps has nothing to do, whoever left was told to. *)
Definition sleep_ok (b : nat) (closed : bool) (s : worker) : Prop :=
  match s with Sleeping seen => seen = b ∧ closed = false | Exited => closed = true | _ => True end.

Definition quiet (p : pool) : Prop :=
  idle p ∧ Forall (sleep_ok (batch p) (is_closed p)) (workers p) ∧ is_closed p = false ∧
  match caller p with Outside | Returned _ => True | _ => False end.

Definition call (p : pool) : pool := set_caller Calling p.

Lemma new_pool_quiet n : quiet (new_pool n).
Proof.
  unfold quiet, idle, new_pool. cbn [workers is_closed batch next parallelCount caller].
  assert (∃ m, start_workers n = replicate m (Waiting 0)) as [m ->] by (unfold start_workers; eauto).
  split_and!; try done; apply Forall_replicate; cbn; done || lia.
Qed.

(** ** Lists of workers *)
Definition busy (s : worker) : nat := match s with Running _ _ | Written _ => 1 | _ => 0 end.

Lemma sum_insert (f : worker → nat) l w s s' :
  l !! w = Some s → (sum_list_with f (<[w := s']> l) + f s = sum_list_with f l + f s')%nat.
Proof.
  revert w. induction l as [|x l IH]; intros [|w] H; try done; [injection H as ->; cbn; lia|].
  change (<[S w := s']> (x :: l)) with (x :: <[w := s']> l). specialize (IH w H). cbn. lia.
Qed.

Lemma sum_pos (f : worker → nat) l w s : l !! w = Some s → (f s ≤ sum_list_with f l)%nat.
Proof. revert w. induction l as [|x l IH]; intros [|w] H; try done; [injection H as ->; cbn; lia|]. specialize (IH w H). cbn. lia. Qed.

Lemma sum_wake (f g : worker → nat) d l :
  (∀ s, f (wake s) ≤ g s + d)%nat → (sum_list_with f (wake <$> l) ≤ sum_list_with g l + d * length l)%nat.
Proof. intros H. induction l as [|s l IH]; cbn; [lia|]. specialize (H s). lia. Qed.

Lemma busy_wake l : sum_list_with busy (wake <$> l) = sum_list_with busy l.
Proof. induction l as [|s l IH]; [done|]. cbn in *. rewrite IH. by destruct s. Qed.

Lemma running_wake (l : list worker) (w : nat) seen j : (wake <$> l) !! w = Some (Running seen j) ↔ l !! w = Some (Running seen j).
Proof. rewrite list_lookup_fmap. destruct (l !! w) as [[]|]; cbn; naive_solver. Qed.

Lemma Forall_wake (P Q : worker → Prop) l : (∀ s, P s → Q (wake s)) → Forall P l → Forall Q (wake <$> l).
Proof. intros H Hl. apply Forall_fmap. by eapply Forall_impl; [done|]. Qed.

(** ** The invariant of a batch *)
Definition hashed (j : nat) : option BoomBoomChunk := (λ c, set_digest c (leaf_digest cpu k data c j)) <$> scan !! j.

Definition seen_ok (p : pool) (s : worker) : Prop :=
  match s with
  | Waiting seen | Sleeping seen =>
      (seen ≤ batch p ∧ (seen = batch p → is_closed p = true ∨ parallelCount p ≤ next p))%nat
  | Taking seen | Running seen _ | Written seen => (seen ≤ batch p)%nat
  | Exited => True
  end.

Record batch_inv (p : pool) : Prop := {
  bi_jobs : jobs p = changed;
  bi_count : parallelCount p = length changed;
  bi_next : (next p ≤ length changed)%nat;
  bi_done : (done_ p + sum_list_with busy (workers p) = next p)%nat;
  bi_seen : Forall (seen_ok p) (workers p);
  bi_scan : ∀ j, job_chunks p !! j = scan !! j ∨ j ∈ changed ∧ job_chunks p !! j = hashed j;
  bi_run : ∀ w seen j, workers p !! w = Some (Running seen j) → j ∈ changed;
  bi_taken : ∀ i j, (i < next p)%nat → changed !! i = Some j →
    job_chunks p !! j = hashed j ∨ ∃ w seen, workers p !! w = Some (Running seen j) }.

(** What holds where the caller is. *)
Definition phase (p : pool) : Prop :=
  match caller p with
  | Outside => False
  | Calling => idle p
  | Posting => idle p ∧ jobs p = changed ∧ job_chunks p = scan
  | Asleep => batch_inv p ∧ done_ p ≠ parallelCount p ∧ is_closed p = false
  | Woken => batch_inv p
  | Returned (inl r) => r = foldl hashLeaf scan changed ∧ idle p
  | Returned (inr e) => is_closed p = true ∧ e = errClosed
  end.

Definition inv (p : pool) : Prop := Forall (sleep_ok (batch p) (is_closed p)) (workers p) ∧ phase p.

Lemma hashLeaf_lookup l i j :
  (∀ j, l !! j = scan !! j ∨ j ∈ changed ∧ l !! j = hashed j) →
  hashLeaf l i !! j = if decide (j = i) then hashed j else l !! j.
Proof.
  intros Hl. unfold BoomTree.hashLeaf. case_decide as H; [subst|by rewrite list_lookup_alter_ne].
  rewrite list_lookup_alter_eq. destruct (Hl i) as [->|[_ ->]]; [done|]. unfold hashed. by destruct (scan !! i).
Qed.

(** *** Broadcast *)
Lemma batch_inv_wake p c : batch_inv p → batch_inv (set_caller c (set_workers (wake <$> workers p) p)).
Proof.
  intros [Hj Hk Hn Hd Hseen Hs Hr Ht]. split; cbn; try done.
  - by rewrite busy_wake.
  - eapply Forall_wake; [|exact Hseen]. intros [] Hx; exact Hx.
  - intros w seen j Hw. rewrite running_wake in Hw. by eapply Hr.
  - intros i j Hi Hji. destruct (Ht i j Hi Hji) as [?|(w & a & Hw)]; [by left|right].
    exists w, a. by rewrite running_wake.
Qed.

Lemma idle_wake p c : idle p → idle (set_caller c (set_workers (wake <$> workers p) p)).
Proof. intros [H ?]. split; [|done]. eapply Forall_wake; [|exact H]. intros [] Hx; exact Hx. Qed.

Lemma sleep_wake b b' closed closed' l :
  (closed = true → closed' = true) → Forall (sleep_ok b closed) l → Forall (sleep_ok b' closed') (wake <$> l).
Proof. intros Hc. apply Forall_wake. intros []; cbn; auto. Qed.

(** *** A worker's move *)
Lemma worker_step_frame s p s' q b :
  worker_step s p = Some (s', q, b) →
  batch q = batch p ∧ is_closed q = is_closed p ∧ workers q = workers p ∧ parallelCount q = parallelCount p ∧
  caller q = caller p ∧ sleep_ok (batch p) (is_closed p) s' ∧
  (b = (done_ q =? parallelCount q)%nat ∧ (∃ seen, s = Written seen) ∨ b = false ∧ done_ q = done_ p).
Proof.
  destruct s as [seen|seen|seen|seen index|seen|]; cbn; intros H; try done.
  - destruct (Nat.eqb_spec seen (batch p)); destruct (is_closed p) eqn:E; cbn in H; injection H as <- <- <-; cbn; auto 10.
  - destruct (is_closed p || _); [injection H as <- <- <-; cbn; auto 10|].
    destruct (jobs p !! next p); [|done]. injection H as <- <- <-. cbn. auto 10.
  - injection H as <- <- <-. cbn. auto 10.
  - injection H as <- <- <-. cbn. split_and!; try done. left. split; [done|by eexists].
Qed.

Lemma idle_move p w s s' q b :
  idle p → workers p !! w = Some s → worker_step s p = Some (s', q, b) →
  b = false ∧ idle (set_workers (<[w := s']> (workers p)) q).
Proof.
  intros [Hi Hn] Hw H. pose proof (Forall_lookup_1 _ _ _ _ Hi Hw) as Hs.
  assert (b = false ∧ batch q = batch p ∧ parallelCount q = parallelCount p ∧ next q = next p ∧ idle_worker p s')
    as (Hb & E1 & E2 & E3 & Hs'); [|split; [done|]; unfold idle; cbn [set_workers workers batch parallelCount next]; rewrite E2, E3; split; [|done]].
  - destruct s as [seen|seen|seen|seen index|seen|]; cbn in H, Hs; try done.
    + destruct ((seen =? batch p)%nat && negb (is_closed p)); [by injection H as <- <- <-|].
      destruct (is_closed p); injection H as <- <- <-; cbn; auto.
    + rewrite (proj2 (Nat.leb_le _ _)), orb_true_r in H by done. by injection H as <- <- <-.
  - apply Forall_insert; [|by destruct s'; cbn in *; rewrite ?E1].
    eapply Forall_impl; [done|]. intros [] ?; cbn in *; by rewrite ?E1.
Qed.

Lemma seen_ok_mono p p' s :
  batch p' = batch p → parallelCount p' = parallelCount p → (next p ≤ next p')%nat →
  (is_closed p = true → is_closed p' = true) → seen_ok p s → seen_ok p' s.
Proof.
  intros Hb Hc Hn Hcl. destruct s; cbn; rewrite ?Hb, ?Hc; try done;
    (intros [? H]; split; [done|]; intros E; destruct (H E); [left; by apply Hcl|right; lia]).
Qed.

Lemma running_kept (l : list worker) (w : nat) s s' seen j (v : nat) :
  l !! w = Some s → (∀ seen', s ≠ Running seen' j) → l !! v = Some (Running seen j) →
  <[w := s']> l !! v = Some (Running seen j).
Proof. intros Hw Hs Hv. rewrite list_lookup_insert_ne; [done|]. intros ->. rewrite Hw in Hv. injection Hv as ->. by eapply Hs. Qed.

Lemma running_new (l : list worker) (w : nat) s s' (v : nat) seen j :
  l !! w = Some s → <[w := s']> l !! v = Some (Running seen j) →
  s' = Running seen j ∨ l !! v = Some (Running seen j).
Proof.
  intros Hw Hv. destruct (decide (v = w)) as [->|Hne].
  - rewrite list_lookup_insert_eq in Hv by (by eapply lookup_lt_Some). injection Hv as ->. by left.
  - rewrite list_lookup_insert_ne in Hv by done. by right.
Qed.

(** A move that neither starts nor ends the hashing of a leaf. *)
Lemma batch_inv_idle_move p w s s' q :
  batch_inv p → workers p !! w = Some s → (∀ a j, s ≠ Running a j) → (∀ a j, s' ≠ Running a j) →
  jobs q = jobs p → job_chunks q = job_chunks p → next q = next p → parallelCount q = parallelCount p →
  batch q = batch p → is_closed q = is_closed p → (done_ q + busy s' = done_ p + busy s)%nat → seen_ok p s' →
  batch_inv (set_workers (<[w := s']> (workers p)) q).
Proof.
  intros [Hj Hk Hn Hd Hseen Hs Hr Ht] Hw H1 H2 E1 E2 E3 E4 E5 E6 E7 Hok.
  pose proof (sum_insert busy (workers p) w s s' Hw) as Hsum.
  split; cbn [set_workers jobs job_chunks next done_ parallelCount batch is_closed workers]; rewrite ?E1, ?E2, ?E3, ?E4; try done.
  - lia.
  - apply Forall_insert; [|eapply seen_ok_mono; [..|exact Hok]; cbn; try done; [lia|congruence]].
    eapply Forall_impl; [done|]. intros t. apply seen_ok_mono; cbn; try done; [lia|congruence].
  - intros v a j Hv. eapply running_new in Hv as [E|Hv]; [by apply H2 in E|by eapply Hr|done].
  - intros i j Hi Hji. destruct (Ht i j Hi Hji) as [?|(v & a & Hv)]; [by left|right].
    exists v, a. eapply running_kept; [done| |done]. intros c. apply H1.
Qed.

Lemma batch_inv_take p w seen index :
  batch_inv p → workers p !! w = Some (Taking seen) → jobs p !! next p = Some index →
  batch_inv (set_workers (<[w := Running seen index]> (workers p))
    (mk_pool (jobs p) (job_chunks p) (S (next p)) (done_ p) (parallelCount p) (batch p) (is_closed p) (workers p) (caller p))).
Proof.
  intros [Hj Hk Hn Hd Hseen Hs Hr Ht] Hw Hx. pose proof (sum_insert busy (workers p) w _ (Running seen index) Hw) as Hsum.
  rewrite Hj in Hx. pose proof (lookup_lt_Some _ _ _ Hx). pose proof (Forall_lookup_1 _ _ _ _ Hseen Hw) as Hws.
  split; cbn [set_workers jobs job_chunks next done_ parallelCount batch is_closed workers]; try done.
  - cbn in Hsum. lia.
  - apply Forall_insert; [|exact Hws]. eapply Forall_impl; [done|]. intros t. apply seen_ok_mono; cbn; try done; lia.
  - intros v a j Hv. eapply running_new in Hv as [[= _ ->]|Hv]; [by eapply list_elem_of_lookup_2|by eapply Hr|done].
  - intros i j Hi Hji. destruct (decide (i = next p)) as [->|Hne].
    { right. exists w, seen. rewrite list_lookup_insert_eq by (by eapply lookup_lt_Some). congruence. }
    destruct (Ht i j ltac:(lia) Hji) as [?|(v & a & Hv)]; [by left|right]. exists v, a. by eapply running_kept.
Qed.

Lemma batch_inv_hash p w seen index :
  batch_inv p → workers p !! w = Some (Running seen index) →
  batch_inv (set_workers (<[w := Written seen]> (workers p))
    (mk_pool (jobs p) (hashLeaf (job_chunks p) index) (next p) (done_ p) (parallelCount p) (batch p) (is_closed p) (workers p) (caller p))).
Proof.
  intros [Hj Hk Hn Hd Hseen Hs Hr Ht] Hw. pose proof (sum_insert busy (workers p) w _ (Written seen) Hw) as Hsum.
  pose proof (Forall_lookup_1 _ _ _ _ Hseen Hw) as Hws.
  split; cbn [set_workers jobs job_chunks next done_ parallelCount batch is_closed workers]; try done.
  - cbn in Hsum. lia.
  - apply Forall_insert; [|exact Hws]. eapply Forall_impl; [done|]. intros t. by apply seen_ok_mono.
  - intros j. rewrite hashLeaf_lookup by done. case_decide as Hd'; [|done]. subst j. right. split; [by eapply Hr|done].
  - intros v a j Hv. eapply running_new in Hv as [[=]|Hv]; [by eapply Hr|done].
  - intros i j Hi Hji. rewrite hashLeaf_lookup by done. case_decide as Hd'; [by left|].
    destruct (Ht i j Hi Hji) as [?|(v & a & Hv)]; [by left|right]. exists v, a. eapply running_kept; [done| |done]. congruence.
Qed.

Lemma batch_inv_move p w s s' q b :
  batch_inv p → workers p !! w = Some s → worker_step s p = Some (s', q, b) →
  batch_inv (set_workers (<[w := s']> (workers p)) q).
Proof.
  intros I Hw H. pose proof (Forall_lookup_1 _ _ _ _ (bi_seen _ I) Hw) as Hs.
  destruct s as [seen|seen|seen|seen index|seen|]; cbn in H, Hs; try done.
  - destruct (Nat.eqb_spec seen (batch p)); destruct (is_closed p) eqn:E; cbn in H; injection H as <- <- <-;
      eapply batch_inv_idle_move; try done; cbn; rewrite ?E; lia || tauto.
  - destruct (is_closed p || _) eqn:E.
    + injection H as <- <- <-. eapply batch_inv_idle_move; try done. cbn. split; [done|]. intros _.
      apply orb_true_iff in E as [E|E]; [by left|right]. by apply Nat.leb_le.
    + destruct (jobs p !! next p) eqn:Ex; [|done]. injection H as <- <- <-. by apply batch_inv_take.
  - injection H as <- <- <-. by apply batch_inv_hash.
  - injection H as <- <- <-. eapply batch_inv_idle_move; try done. cbn. lia.
Qed.

Lemma move_inv p w s r : inv p → workers p !! w = Some s → worker_step s p = Some r → inv (move w r).
Proof.
  intros [Hsl Hph] Hw H. destruct r as [[s' q] b]. pose proof (worker_step_frame _ _ _ _ _ H) as (Eb & Ec & Ew & En & Ecl & Hs' & Hsig).
  assert (Forall (sleep_ok (batch q) (is_closed q)) (<[w := s']> (workers q))) as Hsl'.
  { rewrite Eb, Ec, Ew. by apply Forall_insert. }
  unfold move, inv. destruct b; (split; [cbn; try eapply sleep_wake; [| exact Hsl'] || exact Hsl'; done|]); unfold phase in *;
    cbn [broadcast set_caller set_workers caller is_closed done_ parallelCount]; rewrite Ecl.
  - destruct (caller p) as [| | | | |[l|e]]; cbn [wake_caller]; rewrite ?Ec; try done.
    + by apply (idle_move p w s s' q true) in H as [].
    + destruct Hph as [Hph _]. by apply (idle_move p w s s' q true) in H as [].
    + destruct Hph as [Hph _]. apply batch_inv_wake. rewrite Ew. by eapply batch_inv_move.
    + apply batch_inv_wake. rewrite Ew. by eapply batch_inv_move.
    + destruct Hph as [_ Hph]. by apply (idle_move p w s s' q true) in H as [].
  - destruct (caller p) as [| | | | |[l|e]]; rewrite ?Ec, ?Ew; try done.
    + by eapply idle_move.
    + destruct Hph as (Hph & Hj & Hx). split; [by eapply idle_move|].
      destruct (idle_move p w s s' q false Hph Hw H) as [_ [Hid _]].
      cbn [set_workers jobs job_chunks]. assert (jobs q = jobs p ∧ job_chunks q = job_chunks p) as [-> ->]; [|done].
      destruct Hph as [Hf Hn]. pose proof (Forall_lookup_1 _ _ _ _ Hf Hw) as Hs.
      destruct s as [seen|seen|seen|seen index|seen|]; cbn in H, Hs; try done.
      * destruct ((seen =? batch p)%nat && negb (is_closed p)); [by injection H as _ <-|]. destruct (is_closed p); by injection H as _ <-.
      * rewrite (proj2 (Nat.leb_le _ _)), orb_true_r in H by done. by injection H as _ <-.
    + destruct Hph as (Hph & Hd & Hc). split; [by eapply batch_inv_move|]. split; [|done].
      destruct Hsig as [[Hb _]|[_ ->]]; [|by rewrite En]. by apply eq_sym, Nat.eqb_neq in Hb.
    + by eapply batch_inv_move.
    + destruct Hph as [-> Hph]. split; [done|]. by eapply idle_move.
Qed.

(** *** The caller's moves and Close *)
Lemma batch_idle p : batch_inv p → is_closed p = false → done_ p = parallelCount p →
  idle p ∧ job_chunks p = foldl hashLeaf scan changed.
Proof.
  intros [Hj Hk Hn Hd Hseen Hs Hr Ht] Hcl E. assert (sum_list_with busy (workers p) = 0%nat ∧ next p = length changed) as [Hb Hnx] by lia. split.
  - split; [|lia]. apply Forall_lookup. intros w s Hws. pose proof (sum_pos busy _ _ _ Hws) as Hp.
    pose proof (Forall_lookup_1 _ _ _ _ Hseen Hws) as Hok. destruct s; cbn in *; try done; lia.
  - apply list_eq. intros j. rewrite hashLeaves_lookup. destruct (decide (j ∈ changed)) as [Hin|Hni].
    + apply list_elem_of_lookup in Hin as [i Hi]. destruct (Ht i j) as [->|(w & a & Hw)]; [|done|done|].
      * apply lookup_lt_Some in Hi. lia.
      * pose proof (sum_pos busy _ _ _ Hw) as Hp. cbn in Hp. lia.
    + destruct (Hs j) as [->|[? _]]; [|done]. by destruct (scan !! j).
Qed.

Lemma caller_loop_inv p : Forall (sleep_ok (batch p) (is_closed p)) (workers p) → batch_inv p → inv (caller_loop p).
Proof.
  intros Hsl I. unfold caller_loop. destruct (Nat.eqb_spec (done_ p) (parallelCount p)) as [E|E]; destruct (is_closed p) eqn:Hc; cbn [negb andb];
    (split; [by cbn; rewrite Hc|]); unfold phase; cbn [set_caller caller]; try done.
  - by destruct (batch_idle p I Hc E) as [? ->].
  - split; [|done]. by destruct I; split.
Qed.

Lemma post_batch_inv p : idle p → jobs p = changed → job_chunks p = scan → batch_inv (post_batch p).
Proof.
  intros [Hi Hn] Hj Hc. apply batch_inv_wake. split; cbn; try done; try lia.
  - clear -Hi. induction (workers p) as [|s l IH]; [done|]. apply Forall_cons in Hi as [Hs Hi]. cbn.
    specialize (IH Hi). destruct s; cbn in *; try done; lia.
  - eapply Forall_impl; [done|]. intros [] H; cbn in *; try done; lia.
  - left. by rewrite Hc.
  - intros w seen j Hw. by pose proof (Forall_lookup_1 _ _ _ _ Hi Hw).
Qed.

Lemma caller_step_inv p q : inv p → caller_step p = Some q → inv q.
Proof.
  intros [Hsl Hph] H. unfold phase in Hph. unfold caller_step in H. destruct (caller p) as [| | | | |[l|e]]; try done.
  - destruct Hph as [H1 H2]. destruct changed as [|j0 js] eqn:E; injection H as <-; (split; [exact Hsl|]); unfold phase; cbn; rewrite ?E; done.
  - destruct Hph as (Hph & Hj & Hc). destruct (is_closed p) eqn:Ec; injection H as <-; [by split; [cbn; rewrite Ec|]|].
    apply caller_loop_inv; [|by apply post_batch_inv]. cbn. rewrite Ec. by apply (sleep_wake (batch p) _ (is_closed p)); rewrite ?Ec.
  - injection H as <-. by apply caller_loop_inv.
Qed.

Lemma close_inv p : inv p → inv (close_pool p).
Proof.
  intros [Hsl Hph]. split; [eapply sleep_wake; [|exact Hsl]; done|]. unfold phase in *. unfold close_pool.
  set (p' := mk_pool _ _ _ _ _ _ _ _ _).
  assert (idle p → idle (broadcast p')) as Hidle by (intros H; apply idle_wake; by destruct H).
  assert (batch_inv p → batch_inv (broadcast p')) as Hb.
  { intros [Hj Hk Hn Hd Hseen Hs Hr Ht]. apply batch_inv_wake. split; cbn; try done.
    eapply Forall_impl; [done|]. intros s. by apply seen_ok_mono. }
  cbn [broadcast set_caller caller p']. destruct (caller p) as [| | | | |[l|e]]; cbn [wake_caller]; tauto.
Qed.

Lemma steps_inv n p q : inv p → steps n p q → inv q.
Proof.
  intros H. induction 1 as [|n p q r _ IH Hs]; [done|]. specialize (IH H).
  destruct Hs as [q w s r Hw Hst|q r Hst|q _]; [by eapply move_inv|by eapply caller_step_inv|by apply close_inv].
Qed.

Lemma steps_workers n p q : steps n p q → length (workers q) = length (workers p).
Proof.
  induction 1 as [|n p q r _ IH Hs]; [done|]. rewrite <- IH. destruct Hs as [q w s [[s' q'] b] Hw Hst|q r Hst|q _].
  - apply worker_step_frame in Hst as (_ & _ & Ew & _). unfold move.
    destruct b; cbn; rewrite Ew, ?length_fmap, length_insert; done.
  - unfold caller_step, caller_loop in Hst. destruct (caller q); try done; repeat (case_match; try done); injection Hst as <-; cbn; rewrite ?length_fmap; done.
  - cbn. by rewrite length_fmap.
Qed.

(** ** Every call ends *)
Definition weight (b : nat) (s : worker) : nat :=
  let stale seen := if (seen =? b)%nat then 0%nat else 2%nat in
  match s with
  | Waiting seen => 1 + stale seen
  | Taking seen => 2 + stale seen
  | Written seen => 3 + stale seen
  | Running seen _ => 4 + stale seen
  | Sleeping _ | Exited => 0
  end.

(** What a Broadcast can add. *)
Definition wake_cost (p : pool) : nat := 3 * length (workers p) + 2.

(** The steps that are left at most. *)
Definition steps_left (p : pool) : nat :=
  let post := (3 * length changed + 3 * length (workers p) + wake_cost p)%nat in
  3 * (parallelCount p - next p) + sum_list_with (weight (batch p)) (workers p) +
  match caller p with Calling => 2 + post | Posting => 1 + post | Woken => 1 | _ => 0 end +
  (if (done_ p <? parallelCount p)%nat then wake_cost p else 0) +
  (if is_closed p then 0 else wake_cost p).

Lemma weight_wake b s : (weight b (wake s) ≤ weight b s + 3)%nat.
Proof. destruct s; cbn; repeat case_match; lia. Qed.

Lemma weight_wake_next b s : (weight (S b) (wake s) ≤ weight b s + 3)%nat.
Proof. destruct s; cbn [wake weight]; repeat case_match; lia. Qed.

Lemma caller_loop_left p :
  steps_left (caller_loop p) = (3 * (parallelCount p - next p) + sum_list_with (weight (batch p)) (workers p) +
    (if (done_ p <? parallelCount p)%nat then wake_cost p else 0) + (if is_closed p then 0 else wake_cost p))%nat.
Proof. unfold caller_loop, steps_left. destruct (_ && _); cbn; lia. Qed.

Lemma move_left p w s r : workers p !! w = Some s → worker_step s p = Some r → (steps_left (move w r) < steps_left p)%nat.
Proof.
  intros Hw Hst. destruct r as [[s' q] b]. pose proof (sum_insert (weight (batch p)) (workers p) w s s' Hw) as Hsum.
  destruct s as [seen|seen|seen|seen index|seen|]; cbn [worker_step] in Hst; try done.
  - destruct (Nat.eqb_spec seen (batch p)) as [->|Hne]; destruct (is_closed p) eqn:E; cbn in Hst; injection Hst as <- <- <-;
      unfold move, steps_left, wake_cost; cbn in *; rewrite ?length_insert, ?E, ?Nat.eqb_refl in *; try lia.
    all: rewrite (proj2 (Nat.eqb_neq _ _) Hne) in Hsum; lia.
  - destruct (is_closed p || (parallelCount p <=? next p)%nat) eqn:E.
    + injection Hst as <- <- <-. unfold move, steps_left, wake_cost. cbn in *. rewrite ?length_insert. lia.
    + destruct (jobs p !! next p) as [index|]; [|done]. injection Hst as <- <- <-.
      apply orb_false_iff in E as [_ E]. apply Nat.leb_gt in E. unfold move, steps_left, wake_cost. cbn in *. rewrite ?length_insert. lia.
  - injection Hst as <- <- <-. unfold move, steps_left, wake_cost. cbn in *. rewrite ?length_insert. lia.
  - destruct (Nat.eqb_spec (S (done_ p)) (parallelCount p)) as [E|E]; injection Hst as <- <- <-; unfold move; unfold steps_left, wake_cost; cbn [set_workers set_caller broadcast workers batch next parallelCount done_ is_closed caller].
    + pose proof (sum_wake (weight (batch p)) (weight (batch p)) 3 (<[w:=Taking seen]> (workers p)) (weight_wake _)) as Hwk.
      rewrite ?length_fmap, length_insert in *. rewrite (proj2 (Nat.ltb_ge (S (done_ p)) (parallelCount p))) by lia. rewrite (proj2 (Nat.ltb_lt (done_ p) (parallelCount p))) by lia.
      cbn in Hsum. destruct (caller p); cbn [wake_caller]; lia.
    + rewrite length_insert. cbn in Hsum. destruct (Nat.ltb_spec (S (done_ p)) (parallelCount p)); destruct (Nat.ltb_spec (done_ p) (parallelCount p)); lia.
Qed.

Lemma pool_step_decreases p q : step p q → (steps_left q < steps_left p)%nat.
Proof.
  destruct 1 as [p w s r Hw Hst|p q Hst|p Hc]; [by eapply move_left| |].
  - unfold caller_step in Hst. destruct (caller p) eqn:Ec; try done.
    + destruct changed as [|j0 js] eqn:E; injection Hst as <-; unfold steps_left, wake_cost; cbn; rewrite Ec; lia.
    + destruct (is_closed p) eqn:Hc; injection Hst as <-.
      * unfold steps_left, wake_cost. cbn. rewrite Ec, Hc. lia.
      * rewrite caller_loop_left. unfold steps_left, wake_cost. cbn. rewrite Ec, Hc. cbn.
        pose proof (sum_wake (weight (S (batch p))) (weight (batch p)) 3 (workers p) (weight_wake_next _)) as Hwk.
        rewrite length_fmap. destruct (length changed); cbn; lia.
    + injection Hst as <-. rewrite caller_loop_left. unfold steps_left. rewrite Ec. lia.
  - unfold steps_left, wake_cost. cbn. rewrite Hc.
    pose proof (sum_wake (weight (batch p)) (weight (batch p)) 3 (workers p) (weight_wake _)) as Hwk.
    rewrite length_fmap. destruct (caller p); cbn; lia.
Qed.

Lemma steps_bound n p q : steps n p q → (n + steps_left q ≤ steps_left p)%nat.
Proof. induction 1 as [|n p q r _ IH Hs]; [lia|]. apply pool_step_decreases in Hs. lia. Qed.

(** ** Nobody waits for ever *)
Lemma stuck_worker p w s :
  workers p !! w = Some s → worker_step s p = None → (∀ seen, s = Taking seen → length (jobs p) ≤ next p → parallelCount p ≤ next p)%nat →
  s = Exited ∨ ∃ seen, s = Sleeping seen.
Proof.
  intros Hw H Hj. destruct s as [seen|seen|seen|seen index|seen|]; cbn in H; try done.
  - destruct (_ && _); [done|]. by destruct (is_closed p).
  - right. by eexists.
  - destruct (is_closed p || _) eqn:E; [done|]. apply orb_false_iff in E as [_ E]. apply Nat.leb_gt in E.
    destruct (jobs p !! next p) eqn:Hx; [done|]. apply lookup_ge_None in Hx. specialize (Hj seen eq_refl Hx). lia.
  - by left.
Qed.

Lemma stuck_spec p : inv p → workers p ≠ [] → stuck p →
  (∃ r, caller p = Returned r) ∧
  Forall (λ s, if is_closed p then s = Exited else ∃ seen, s = Sleeping seen) (workers p).
Proof.
  intros [Hsl Hph] Hw [Hst Hcs].
  assert (∀ w s, workers p !! w = Some s → s = Exited ∨ ∃ seen, s = Sleeping seen) as Hall.
  { intros w s Hws. apply (stuck_worker p w s Hws (Hst w s Hws)). intros seen -> Hle.
    specialize (Hst w _ Hws). unfold phase in Hph. destruct (caller p) as [| | | | |[l|e]]; try done.
    - by destruct Hph.
    - by destruct Hph as [[]].
    - destruct Hph as [[] _]. congruence.
    - destruct Hph. congruence.
    - by destruct Hph as [_ []].
    - destruct Hph as [Hc _]. cbn in Hst. by rewrite Hc in Hst. }
  split.
  - unfold phase in Hph. unfold caller_step in Hcs. destruct (caller p) as [| | | | |r]; try done.
    + by destruct changed.
    + by destruct (is_closed p).
    + exfalso. destruct Hph as (I & Hd & Hc). apply Hd.
      assert (sum_list_with busy (workers p) = 0%nat) as Hb.
      { clear -Hall. induction (workers p) as [|s l IH]; [done|]. cbn.
        rewrite IH by (intros w t Ht; by apply (Hall (S w))). by destruct (Hall 0%nat s eq_refl) as [->|[? ->]]. }
      destruct (workers p) as [|s l] eqn:El; [done|]. destruct I as [Hj Hk Hn Hdn Hseen _ _ _]. rewrite El in *.
      apply Forall_cons in Hseen as [Hs _]. apply Forall_cons in Hsl as [Hs' _].
      destruct (Hall 0%nat s eq_refl) as [->|[seen ->]]; cbn in Hs, Hs'; [congruence|].
      destruct Hs' as [-> _]. destruct Hs as [_ Hs]. destruct (Hs eq_refl) as [?|?]; [congruence|]. lia.
    + by exists r.
  - apply Forall_lookup. intros w s Hws. pose proof (Forall_lookup_1 _ _ _ _ Hsl Hws) as Hs.
    destruct (Hall w s Hws) as [->|[seen ->]]; cbn in Hs; [by rewrite Hs|]. destruct Hs as [_ ->]. by eexists.
Qed.
End pool.

(** ** Properties *)

(** C23 The parallel hashing of the changed leaves, with a mutex and a condition
    variable that only Broadcast signals: for a call on a pool with no job
    under way, whatever the order of the steps of the caller and the workers
    (and a concurrent [Close]), the caller returns either the scan that the
    sequential loop over the changed leaves computes, and unless it was closed
    the pool has again no job under way, or, the pool being closed, the error.
    No run is longer than [steps_left], and one that cannot go on has a caller
    that has returned and workers that all sleep, or are gone when the pool was
    closed. *)
Theorem leaf_workers_correct cpu k data changed scan p0 n p :
  quiet p0 → workers p0 ≠ [] → steps cpu k data changed scan n (call p0) p →
  (∀ scan', caller p = Returned (inl scan') →
     scan' = foldl (hashLeaf cpu k data) scan changed ∧ (is_closed p = false → quiet p)) ∧
  (∀ e, caller p = Returned (inr e) → is_closed p = true ∧ e = errClosed) ∧
  (n ≤ steps_left changed (call p0))%nat ∧
  (stuck cpu k data changed scan p → (∃ r, caller p = Returned r) ∧
     Forall (λ s, if is_closed p then s = Exited else ∃ seen, s = Sleeping seen) (workers p)).
Proof.
  intros (Hi & Hsl & Hc & _) Hw Hst.
  assert (inv cpu k data changed scan (call p0)) as Hinv by (split; [exact Hsl|exact Hi]).
  apply (steps_inv _ _ _ _ _ _ _ _ Hinv) in Hst as Hp. pose proof (steps_bound _ _ _ _ _ _ _ _ Hst) as Hb.
  pose proof Hp as [Hs Hph]. unfold phase in Hph. split_and!.
  - intros l E. rewrite E in Hph. destruct Hph as [-> Hid]. split; [done|]. intros Hcl. unfold quiet. by rewrite Hcl, E in *.
  - intros e E. by rewrite E in Hph.
  - lia.
  - intros Hsk. eapply stuck_spec; [done| |done]. intros E. apply Hw.
    pose proof (steps_workers _ _ _ _ _ _ _ _ Hst) as Hlen. rewrite E in Hlen. cbn in Hlen. by destruct (workers p0).
Qed.

(** ** Runs by a schedule: [None] is the caller, [Some w] the worker [w] *)
Section schedule.
Context (cpu : cpu_features) (k data : bytes) (changed : list nat) (scan : list BoomBoomChunk).

Definition turn (o : option nat) (p : pool) : option pool :=
  match o with
  | None => caller_step changed scan p
  | Some w => s ← workers p !! w; move w <$> worker_step cpu k data s p
  end.

Fixpoint turns (l : list (option nat)) (p : pool) : option pool :=
  match l with [] => Some p | o :: l => q ← turn o p; turns l q end.

Lemma pool_turn_step o p q : turn o p = Some q → step cpu k data changed scan p q.
Proof.
  destruct o as [w|]; cbn; [|by apply step_caller].
  destruct (workers p !! w) as [s|] eqn:Hw; [|done]. cbn. destruct (worker_step cpu k data s p) as [r|] eqn:Hr; [|done].
  intros [= <-]. by eapply step_worker.
Qed.

Lemma turns_steps l p q n r : steps cpu k data changed scan n p q → turns l q = Some r →
  steps cpu k data changed scan (n + length l) p r.
Proof.
  revert n q. induction l as [|o l IH]; intros n q Hs H; cbn in H; [injection H as <-; by rewrite Nat.add_0_r|].
  destruct (turn o q) as [q'|] eqn:E; [|done]. cbn [length]. rewrite Nat.add_succ_r, <- Nat.add_succ_l.
  eapply IH; [|done]. eapply steps_snoc; [done|]. by eapply pool_turn_step.
Qed.
End schedule.

(** Two workers and one job.  Both sleep before the batch is posted and are
    woken by it; the first hashes the leaf and wakes the caller. *)
Definition example_scan : list BoomBoomChunk := scanBoomBoom (bs "a;").
Definition example_schedule : list (option nat) :=
  [Some 0; Some 1; None; None; Some 0; Some 0; Some 0; Some 0; Some 0; Some 0; None; Some 1; Some 1; Some 1]%nat.

Lemma leaf_workers_correct_witness :
  ∃ p, turns scalar_cpu [] (bs "a;") [0%nat] example_scan example_schedule (call (new_pool 1)) = Some p ∧
    caller p = Returned (inl (foldl (hashLeaf scalar_cpu [] (bs "a;")) example_scan [0%nat])).
Proof.
  destruct (turns scalar_cpu [] (bs "a;") [0%nat] example_scan example_schedule (call (new_pool 1))) as [p|] eqn:E;
    [|exfalso; vm_compute in E; discriminate E].
  exists p. split; [reflexivity|].
  pose proof (turns_steps _ _ _ _ _ _ _ _ _ _ (steps_refl _ _ _ _ _ _) E) as Hs.
  destruct (leaf_workers_correct scalar_cpu [] (bs "a;") [0%nat] example_scan (new_pool 1) _ p
    (new_pool_quiet 1) ltac:(discriminate) Hs) as [Hr _].
  assert (match caller p with Returned (inl _) => True | _ => False end) as Hc by (vm_compute in E; injection E as <-; exact I).
  destruct (caller p) as [| | | | |[l|e]] eqn:Ec; try contradiction. destruct (Hr l eq_refl) as [-> _]. reflexivity.
Defined.
