(* ===== verification/ActionCache.v ===== *)
(** * Builder: the action cache (builder/action_cache.go, dep_build_steps.go)

    The outputs of a build step are kept under a key made of its inputs, its
    command and its environment: a table in memory (L1), an append-only file
    that is mapped (L2) and one archive per key (L3).  Shown: an archive read
    back writes the outputs it was made of, the table never returns an older
    entry than the last one stored, and a restore after a store gives the
    outputs of the store; and where the code does not keep to that. *)
From stdpp Require Import list gmap functions sorting.
From S2P Require Import Prelude GoStrings GoPath.

Definition l1EntryCount : Z := 65536.
Definition l1EntryMask : Z := l1EntryCount - 1.
Definition l2HeaderMagic : Z := 0xA1C3CAC0.
Definition l2HeaderVersion : Z := 1.
Definition l2HeaderSize : nat := 64.
Definition l2OutputHeaderSize : nat := 16.
Definition l1OffsetBias : Z := 1.

(** ** Paths *)
Definition hex_digit (d : Z) : Z := if d <? 10 then 48 + d else 87 + d.
Definition EncodeToString (b : bytes) : bytes :=
  concat (map (λ x, [hex_digit (Z.shiftr x 4); hex_digit (Z.land x 15)]) b).

Definition l3DataDir (cacheDir : bytes) : bytes := filepath_Join cacheDir (bs "actions").
Definition l2DataPath (cacheDir : bytes) : bytes := filepath_Join cacheDir (bs "actions.l2").
Definition archivePath (hashHex cacheDir : bytes) : bytes := filepath_Join (l3DataDir cacheDir) (hashHex ++ bs ".dat").

(** ** L1: the table *)
Record l1Entry := mk_entry { key : Z; hash : bytes; size : Z; offset : Z; flags : Z }.
Definition zero_entry : l1Entry := mk_entry 0 (replicate 32 0) 0 0 0.
Abbreviation table := (Z → l1Entry).
Definition empty_table : table := λ _, zero_entry.

Definition l1Index (key probe : Z) : Z := Z.land (u64 (key + probe)) l1EntryMask.

Definition l1Key (digest : bytes) : Z := le_val (take 8 digest).

Fixpoint l1Load_from (n : nat) (probe : Z) (t : table) (k : Z) : option l1Entry :=
  match n with
  | O => None
  | S n' =>
      let entry := t (l1Index k probe) in
      if negb (key entry =? k) then
        if key entry =? 0 then None else l1Load_from n' (probe + 1) t k
      else if Z.land (flags entry) 1 =? 0 then None
      else Some entry
  end.

Definition l1Load (t : table) (k : Z) : option l1Entry := l1Load_from 16 0 t k.

Fixpoint l1Store_from (n : nat) (probe idx : Z) (t : table) (e : l1Entry) : table :=
  match n with
  | O => t
  | S n' =>
      let current := key (t idx) in
      if (current =? 0) || (current =? key e) || (probe =? 15) then <[idx := e]> t
      else l1Store_from n' (probe + 1) (Z.land (idx + 1) l1EntryMask) t e
  end.

Definition new_entry (k : Z) (h : bytes) (sz off : Z) : l1Entry :=
  mk_entry k h sz (if off =? 0 then off else u64 (off + l1OffsetBias)) 1.

Definition l1Store (k : Z) (h : bytes) (sz off : Z) (t : table) : table :=
  l1Store_from 16 0 (l1Index k 0) t (new_entry k h sz off).

(** ** Archives *)
Definition archive_header (count recordSize : Z) (digest : bytes) : bytes :=
  le_bytes 4 l2HeaderMagic ++ le_bytes 4 l2HeaderVersion ++ digest ++
  le_bytes 2 count ++ replicate 4 0 ++ le_bytes 4 recordSize ++ replicate 14 0.

Definition entry_bytes (o : bytes * bytes) : bytes :=
  le_bytes 2 (Zlen o.1) ++ replicate 2 0 ++ le_bytes 4 (Zlen o.2) ++ replicate 8 0 ++ o.1 ++ o.2.

Definition entry_size (o : bytes * bytes) : Z := Z.of_nat l2OutputHeaderSize + Zlen o.1 + Zlen o.2.
Definition record_size (outs : list (bytes * bytes)) : Z := foldr (λ o n, entry_size o + n) 0 outs.

(** The bytes of an archive of the outputs, each with its name and contents. *)
Definition archive_bytes (outs : list (bytes * bytes)) (digest : bytes) : bytes :=
  archive_header (Z.of_nat (length outs)) (record_size outs) digest ++ concat (entry_bytes <$> outs).

(** The files of the build (inputs and outputs), and the files of the caches by
    their paths: the archives and the L2 files. *)
Record disk := mk_disk {
  files : gmap bytes bytes;
  archives : gmap bytes bytes;
  l2_files : gmap bytes bytes }.

(** The disk and the globals [l1Entries] and [l2Data]. *)
Record cache := mk_cache { dsk : disk; l1 : table; l2Data : option bytes }.

Definition set_files (f : gmap bytes bytes) (d : disk) : disk := mk_disk f (archives d) (l2_files d).

(** The named outputs with their contents, [None] when one does not exist. *)
Definition read_outputs (d : disk) (outputs : list bytes) : option (list (bytes * bytes)) :=
  mapM (λ o, (λ c, (o, c)) <$> files d !! o) outputs.

Definition sub (data : bytes) (a n : nat) : bytes := take n (drop a data).
Definition ErrInvalid : string := "invalid argument".
Definition ErrNotExist : string := "file does not exist".

Section cache.
(** The third-party hash, the digest of the contents of a file (the same
    hash with a key), whether a directory can be made, and the environment
    of the process (or the safe one of the configuration). *)
Context (blake3 : bytes → bytes) (keyed_blake3 : bytes → bytes)
  (EnsureDir : bytes → bool) (cacheEnv : list bytes).

Definition writeActionArchive (path : bytes) (outputs : list bytes) (digest : bytes) (d : disk) : outcome disk :=
  match read_outputs d outputs with
  | Some outs => Ok (mk_disk (files d) (<[path := archive_bytes outs digest]> (archives d)) (l2_files d))
  | None => Err ErrNotExist
  end.

(** The loop of [restoreOutputsFromBytes]; what was written stays written
    when it fails. *)
Fixpoint restore_loop (count : nat) (data : bytes) (pos : nat) (f : gmap bytes bytes) : gmap bytes bytes * bool :=
  match count with
  | O => (f, true)
  | S count' =>
      if (length data <? pos + l2OutputHeaderSize)%nat then (f, false)
      else
        let nameLen := Z.to_nat (le_val (sub data pos 2)) in
        let dataLen := Z.to_nat (le_val (sub data (pos + 4) 4)) in
        let pos := (pos + l2OutputHeaderSize)%nat in
        if (length data <? pos + nameLen)%nat then (f, false)
        else
          let name := sub data pos nameLen in
          let pos := (pos + nameLen)%nat in
          if (length data <? pos + dataLen)%nat then (f, false)
          else if negb (EnsureDir name) then (f, false)
          else restore_loop count' data (pos + dataLen) (<[name := sub data pos dataLen]> f)
  end.

Definition restoreOutputsFromBytes (data : bytes) (f : gmap bytes bytes) : gmap bytes bytes * bool :=
  if (length data <? l2HeaderSize)%nat then (f, false)
  else restore_loop (Z.to_nat (le_val (sub data 40 2))) data l2HeaderSize f.

(** *** L2 *)
Definition reloadL2Data (cacheDir : bytes) (d : disk) : option bytes :=
  match l2_files d !! l2DataPath cacheDir with
  | Some [] | None => None
  | Some data => Some data
  end.

Definition mapL2Data (cacheDir : bytes) (s : cache) : cache :=
  match l2Data s with
  | Some _ => s
  | None => mk_cache (dsk s) (l1 s) (reloadL2Data cacheDir (dsk s))
  end.

(** The file after the append, the offset of the record, and the mapping. *)
Definition appendL2FromArchive (data cacheDir : bytes) (s : cache) : Z * cache :=
  let old := default [] (l2_files (dsk s) !! l2DataPath cacheDir) in
  let d := mk_disk (files (dsk s)) (archives (dsk s)) (<[l2DataPath cacheDir := old ++ data]> (l2_files (dsk s))) in
  (Zlen old, mk_cache d (l1 s) (reloadL2Data cacheDir d)).

Definition restoreFromL2 (cacheDir : bytes) (offset : Z) (s : cache) : cache * bool :=
  let s := mapL2Data cacheDir s in
  let data := default [] (l2Data s) in
  if Zlen data <? offset + Z.of_nat l2HeaderSize then (s, false)
  else
    let record := drop (Z.to_nat offset) data in
    if negb (le_val (sub record 0 4) =? l2HeaderMagic) then (s, false)
    else if negb (le_val (sub record 4 4) =? l2HeaderVersion) then (s, false)
    else
      let recordSize := le_val (sub record 46 4) in
      let total := u32 (Z.of_nat l2HeaderSize + recordSize) in
      if Zlen record <? total then (s, false)
      else
        let '(f, ok) := restoreOutputsFromBytes (take (Z.to_nat total) record) (files (dsk s)) in
        (mk_cache (set_files f (dsk s)) (l1 s) (l2Data s), ok).

(** *** L3 *)
Definition restoreFromL3 (cacheDir digest : bytes) (s : cache) : cache * bool :=
  match archives (dsk s) !! archivePath (EncodeToString digest) cacheDir with
  | None => (s, false)
  | Some data =>
      let '(f, ok) := restoreOutputsFromBytes data (files (dsk s)) in
      let s := mk_cache (set_files f (dsk s)) (l1 s) (l2Data s) in
      if ok then
        let '(offset, s) := appendL2FromArchive data cacheDir s in
        (mk_cache (dsk s) (l1Store (l1Key digest) digest (u32 (Zlen data)) offset (l1 s)) (l2Data s), true)
      else (s, false)
  end.

(** *** Keys *)
Definition input_bytes (f : gmap bytes bytes) (name : bytes) : option bytes :=
  (λ c, name ++ [0] ++ keyed_blake3 c ++ [0]) <$> f !! name.

Definition actionCacheKey (f : gmap bytes bytes) (inputs : list bytes) (action : bytes) (env : list bytes) : option bytes :=
  (λ ins, blake3 (concat ins ++ action ++ [0] ++ concat (map (λ v, v ++ [0]) (sort_Strings env))))
    <$> mapM (input_bytes f) (sort_Strings inputs).

(** *** The operations *)
Definition actionCacheRestore (inputs : list bytes) (action : bytes) (outputs : list bytes) (cacheDir : bytes) (s : cache)
    : outcome (cache * bool) :=
  if nilb outputs then Ok (s, false)
  else
    match actionCacheKey (files (dsk s)) inputs action cacheEnv with
    | None => Err ErrNotExist
    | Some digest =>
        match l1Load (l1 s) (l1Key digest) with
        | Some entry =>
            if bool_decide (hash entry = digest) then
              let '(s, ok) :=
                if negb (offset entry =? 0) then restoreFromL2 cacheDir (offset entry - l1OffsetBias) s
                else (s, false) in
              if ok then Ok (s, true)
              else let '(s, ok) := restoreFromL3 cacheDir digest s in Ok (s, ok)
            else Ok (s, false)
        | None => Ok (s, false)
        end
    end.

Definition actionCacheStoreSync (inputs : list bytes) (action : bytes) (outputs env : list bytes) (cacheDir : bytes)
    (s : cache) : outcome cache :=
  match actionCacheKey (files (dsk s)) inputs action env with
  | None => Err ErrNotExist
  | Some digest =>
      let archive := archivePath (EncodeToString digest) cacheDir in
      d ← writeActionArchive archive outputs digest (dsk s);
      match archives d !! archive with
      | None => Err ErrNotExist
      | Some data =>
          let '(offset, s) := appendL2FromArchive data cacheDir (mk_cache d (l1 s) (l2Data s)) in
          mret (mk_cache (dsk s) (l1Store (l1Key digest) digest 0 offset (l1 s)) (l2Data s))
      end
  end.

(** The keys of the archives found in the directory of L3. *)
Definition preloadActionCache (digests : list bytes) (s : cache) : cache :=
  mk_cache (dsk s) (foldl (λ t digest, l1Store (l1Key digest) digest 0 0 t) (l1 s) digests) (l2Data s).

(** *** The step cache of a dependency *)
Definition envMapToSlice (envMap : list (bytes * bytes)) : list bytes :=
  sort_Strings (map (λ '(k, v), k ++ [61] ++ v) envMap).

Definition restoreStepCache (action : bytes) (inputs outputs : list bytes) (cacheDir : bytes) (s : cache)
    : outcome (cache * bool) :=
  if nilb outputs || nilb inputs then Ok (s, false)
  else actionCacheRestore inputs action outputs cacheDir s.

Definition storeStepCache (action : bytes) (inputs outputs : list bytes) (envMap : list (bytes * bytes))
    (cacheDir : bytes) (s : cache) : outcome cache :=
  if nilb outputs || nilb inputs then Ok s
  else actionCacheStoreSync inputs action outputs (envMapToSlice envMap) cacheDir s.
End cache.

Lemma Ok_inj {A} (a b : A) : Ok a = Ok b → a = b.
Proof. by intros [= ->]. Qed.

(** ** Archives read back *)
Lemma window_mid pre m post a n : a = length pre → n = length m → sub (pre ++ m ++ post) a n = m.
Proof. intros -> ->. unfold sub. by rewrite drop_app_length, take_app_length. Qed.

Lemma length_entry_bytes o : Zlen (entry_bytes o) = entry_size o.
Proof. unfold entry_bytes, entry_size, l2OutputHeaderSize. rewrite !length_app, !length_le_bytes, !length_replicate. lia. Qed.

Lemma record_size_spec outs : Zlen (concat (entry_bytes <$> outs)) = record_size outs.
Proof.
  induction outs as [|o outs IH]; [done|].
  change (concat (entry_bytes <$> o :: outs)) with (entry_bytes o ++ concat (entry_bytes <$> outs)).
  rewrite length_app, Nat2Z.inj_add, IH, length_entry_bytes. done.
Qed.

(** An output whose name and contents fit the fields of its header. *)
Definition output_fits (o : bytes * bytes) : Prop := Zlen o.1 < 2 ^ 16 ∧ Zlen o.2 < 2 ^ 32.

Definition write_outputs (outs : list (bytes * bytes)) (f : gmap bytes bytes) : gmap bytes bytes :=
  foldl (λ f o, <[o.1 := o.2]> f) f outs.

Section restore.
Context (EnsureDir : bytes → bool).

Lemma restore_loop_spec outs pre post f n :
  Forall output_fits outs → Forall (λ o, EnsureDir o.1 = true) outs → (n ≤ length outs)%nat →
  restore_loop EnsureDir n (pre ++ concat (entry_bytes <$> outs) ++ post) (length pre) f
  = (write_outputs (take n outs) f, true).
Proof.
  revert pre f n. induction outs as [|o outs IH]; intros pre f n Hf He Hn.
  { cbn in Hn. by assert (n = 0)%nat as -> by lia. }
  destruct n as [|n]; [done|]. cbn [length] in Hn.
  apply Forall_cons in Hf as [[Ho1 Ho2] Hf]. apply Forall_cons in He as [He1 He].
  change (concat (entry_bytes <$> o :: outs)) with (entry_bytes o ++ concat (entry_bytes <$> outs)).
  set (rest := concat (entry_bytes <$> outs) ++ post).
  assert (pre ++ (entry_bytes o ++ concat (entry_bytes <$> outs)) ++ post
    = pre ++ le_bytes 2 (Zlen o.1) ++ (replicate 2 0 ++ le_bytes 4 (Zlen o.2) ++ replicate 8 0 ++ o.1 ++ o.2 ++ rest)) as Hd1.
  { unfold entry_bytes, rest. by rewrite <- !app_assoc. }
  assert (pre ++ (entry_bytes o ++ concat (entry_bytes <$> outs)) ++ post
    = (pre ++ le_bytes 2 (Zlen o.1) ++ replicate 2 0) ++ le_bytes 4 (Zlen o.2) ++ (replicate 8 0 ++ o.1 ++ o.2 ++ rest)) as Hd2.
  { rewrite Hd1. by rewrite <- !app_assoc. }
  set (h := pre ++ le_bytes 2 (Zlen o.1) ++ replicate 2 0 ++ le_bytes 4 (Zlen o.2) ++ replicate 8 0).
  assert (length h = length pre + 16)%nat as Hh by (unfold h; rewrite !length_app, !length_le_bytes; done).
  assert (pre ++ (entry_bytes o ++ concat (entry_bytes <$> outs)) ++ post = h ++ o.1 ++ (o.2 ++ rest)) as Hd3.
  { rewrite Hd1. unfold h. by rewrite <- !app_assoc. }
  assert (pre ++ (entry_bytes o ++ concat (entry_bytes <$> outs)) ++ post = (h ++ o.1) ++ o.2 ++ rest) as Hd4.
  { rewrite Hd3. by rewrite <- !app_assoc. }
  assert (pre ++ (entry_bytes o ++ concat (entry_bytes <$> outs)) ++ post = (h ++ o.1 ++ o.2) ++ concat (entry_bytes <$> outs) ++ post) as Hd5.
  { rewrite Hd3. by rewrite <- !app_assoc. }
  set (d := pre ++ _) in *. cbn [restore_loop].
  assert (sub d (length pre) 2 = le_bytes 2 (Zlen o.1)) as -> by (rewrite Hd1; by apply window_mid).
  assert (sub d (length pre + 4) 4 = le_bytes 4 (Zlen o.2)) as ->.
  { rewrite Hd2. apply window_mid; [rewrite !length_app, !length_le_bytes, length_replicate; lia|done]. }
  rewrite !le_val_le_bytes. rewrite !wrap_small by (unfold is_word; lia). rewrite !Nat2Z.id.
  unfold l2OutputHeaderSize. rewrite <- Hh, <- length_app.
  assert (sub d (length h) (length o.1) = o.1) as -> by (rewrite Hd3; by apply window_mid).
  assert (sub d (length (h ++ o.1)) (length o.2) = o.2) as -> by (rewrite Hd4; by apply window_mid).
  assert (length d = length h + length o.1 + length o.2 + length rest)%nat as Hlen.
  { rewrite Hd3, !length_app. lia. }
  rewrite !length_app. rewrite !(proj2 (Nat.ltb_ge _ _)) by lia. rewrite He1. cbn [negb].
  rewrite Hd5. rewrite <- Nat.add_assoc, <- !length_app. rewrite IH by (done || lia). done.
Qed.

(** An archive restored: the outputs that its 16-bit count numbers. *)
Lemma restore_archive outs digest post f :
  length digest = 32%nat → Forall output_fits outs → Forall (λ o, EnsureDir o.1 = true) outs →
  restoreOutputsFromBytes EnsureDir (archive_bytes outs digest ++ post) f
  = (write_outputs (take (Z.to_nat (wrap 16 (Z.of_nat (length outs)))) outs) f, true).
Proof.
  intros Hd Hf He. unfold restoreOutputsFromBytes, archive_bytes.
  set (h := archive_header _ _ _).
  assert (length h = 64)%nat as Hh.
  { unfold h, archive_header. rewrite !length_app, !length_le_bytes, !length_replicate, Hd. done. }
  rewrite (proj2 (Nat.ltb_ge _ _)) by (rewrite !length_app; unfold l2HeaderSize; lia).
  rewrite <- app_assoc.
  assert (sub (h ++ concat (entry_bytes <$> outs) ++ post) 40 2 = le_bytes 2 (Z.of_nat (length outs))) as ->.
  { unfold h, archive_header. set (rs := record_size outs).
    rewrite (app_assoc (le_bytes 4 _)), (app_assoc (_ ++ _) digest).
    rewrite <- !(app_assoc (_ ++ digest)). rewrite <- (app_assoc (le_bytes 2 _)).
    apply window_mid; [|done]. rewrite !length_app, !length_le_bytes, Hd. done. }
  rewrite le_val_le_bytes. change (8 * Z.of_nat 2) with 16. unfold l2HeaderSize. rewrite <- Hh.
  apply restore_loop_spec; [done|done|].
  pose proof (Z.mod_le (Z.of_nat (length outs)) (2 ^ 16)). unfold wrap. lia.
Qed.
End restore.

(** ** The table *)
Lemma l1Index_mod k p : l1Index k p = (k + p) mod 65536.
Proof.
  unfold l1Index. change l1EntryMask with (Z.ones 16). rewrite Z.land_ones by lia.
  unfold wrap. change (2 ^ 64) with (65536 * 2 ^ 48). change (2 ^ 16) with 65536.
  rewrite Z.rem_mul_r by lia. rewrite Z.mul_comm, Z.mod_add by lia. by rewrite Z.mod_mod by lia.
Qed.

Lemma l1Index_next k p : Z.land (l1Index k p + 1) l1EntryMask = l1Index k (p + 1).
Proof.
  rewrite !l1Index_mod. change l1EntryMask with (Z.ones 16). rewrite Z.land_ones by lia.
  change (2 ^ 16) with 65536. rewrite Zplus_mod_idemp_l. f_equal. lia.
Qed.

Lemma l1Index_inj k p q : 0 ≤ p < 16 → 0 ≤ q < 16 → l1Index k p = l1Index k q → p = q.
Proof.
  rewrite !l1Index_mod. intros Hp Hq H.
  pose proof (Z.div_mod (k + p) 65536). pose proof (Z.div_mod (k + q) 65536). nia.
Qed.

Definition in_use (e : l1Entry) : Prop := Z.land (flags e) 1 ≠ 0.

(** A key that is reached at probe [p] of its chain: no free slot and no other
    copy of the key come before it. *)
Definition before_ok (t : table) (k p : Z) : Prop :=
  ∀ q, 0 ≤ q < p → key (t (l1Index k q)) ≠ 0 ∧ key (t (l1Index k q)) ≠ k.

Definition tidy (t : table) : Prop :=
  ∀ k p, 0 ≤ p < 16 → key (t (l1Index k p)) = k → in_use (t (l1Index k p)) → before_ok t k p.

Lemma l1Load_from_spec n p t k e :
  0 ≤ p → p + Z.of_nat n = 16 → before_ok t k p →
  l1Load_from n p t k = Some e ↔
  ∃ q, p ≤ q < 16 ∧ t (l1Index k q) = e ∧ key e = k ∧ in_use e ∧ before_ok t k q.
Proof.
  revert p. induction n as [|n IH]; intros p Hp Hn Hb; cbn [l1Load_from].
  { split; [done|]. intros (q & Hq & _). lia. }
  destruct (key (t (l1Index k p)) =? k) eqn:Ek; cbn [negb].
  - apply Z.eqb_eq in Ek. destruct (Z.land (flags (t (l1Index k p))) 1 =? 0) eqn:Ef.
    + apply Z.eqb_eq in Ef. split; [done|]. intros (q & Hq & He & Hk & Hu & Hbq).
      destruct (decide (q = p)) as [->|]; [unfold in_use in Hu; congruence|].
      destruct (Hbq p ltac:(lia)) as [_ []]. done.
    + apply Z.eqb_neq in Ef. split.
      * intros [= <-]. exists p. repeat split; try done; try lia; by apply Hb.
      * intros (q & Hq & He & Hk & Hu & Hbq). destruct (decide (q = p)) as [->|]; [by rewrite He|].
        destruct (Hbq p ltac:(lia)) as [_ []]. done.
  - apply Z.eqb_neq in Ek. destruct (key (t (l1Index k p)) =? 0) eqn:E0.
    + apply Z.eqb_eq in E0. split; [done|]. intros (q & Hq & He & Hk & Hu & Hbq).
      destruct (decide (q = p)) as [->|]; [congruence|]. destruct (Hbq p ltac:(lia)) as [[] _]. done.
    + apply Z.eqb_neq in E0. rewrite (IH (p + 1)); [|lia|lia|].
      * split; intros (q & Hq & He & Hk & Hu & Hbq); exists q; (split; [|done]); [lia|].
        destruct (decide (q = p)) as [->|]; [congruence|lia].
      * intros q Hq. destruct (decide (q = p)) as [->|]; [done|]. apply Hb. lia.
Qed.

Lemma l1Load_spec t k e :
  l1Load t k = Some e ↔ ∃ q, 0 ≤ q < 16 ∧ t (l1Index k q) = e ∧ key e = k ∧ in_use e ∧ before_ok t k q.
Proof. apply l1Load_from_spec; [done|done|]. intros q. lia. Qed.

Lemma l1Store_from_spec n p t e :
  0 ≤ p → p + Z.of_nat n = 16 → (0 < n)%nat → before_ok t (key e) p →
  ∃ q, p ≤ q < 16 ∧ l1Store_from n p (l1Index (key e) p) t e = <[l1Index (key e) q := e]> t ∧
    before_ok t (key e) q ∧
    (key (t (l1Index (key e) q)) = 0 ∨ key (t (l1Index (key e) q)) = key e ∨ q = 15).
Proof.
  revert p. induction n as [|n IH]; intros p Hp Hn Hpos Hb; [lia|]. cbn [l1Store_from].
  destruct (_ || _) eqn:E.
  - rewrite !orb_true_iff, !Z.eqb_eq in E. exists p. repeat split; try lia; try apply Hb; try done; tauto.
  - rewrite !orb_false_iff, !Z.eqb_neq in E. destruct E as [[E1 E2] E3]. rewrite l1Index_next.
    destruct (IH (p + 1)) as (q & Hq & He & Hbq & Hc); [lia|lia|lia| |].
    + intros q Hq. destruct (decide (q = p)) as [->|]; [done|]. apply Hb. lia.
    + exists q. split; [lia|]. done.
Qed.

Lemma new_entry_in_use k h sz off : in_use (new_entry k h sz off).
Proof. done. Qed.

Lemma l1Store_spec k h sz off t :
  ∃ q, 0 ≤ q < 16 ∧ l1Store k h sz off t = <[l1Index k q := new_entry k h sz off]> t ∧ before_ok t k q ∧
    (key (t (l1Index k q)) = 0 ∨ key (t (l1Index k q)) = k ∨ q = 15).
Proof. apply (l1Store_from_spec 16 0 t (new_entry k h sz off)); try done; [lia|]. intros q. cbn. lia. Qed.

Lemma l1Load_store k h sz off t : l1Load (l1Store k h sz off t) k = Some (new_entry k h sz off).
Proof.
  destruct (l1Store_spec k h sz off t) as (q & Hq & -> & Hb & _). apply l1Load_spec. exists q.
  split; [done|]. split; [by rewrite fn_lookup_insert|]. split; [done|]. split; [done|].
  intros r Hr. rewrite fn_lookup_insert_ne; [by apply Hb|].
  intros E. apply l1Index_inj in E; lia.
Qed.

Lemma l1Store_tidy k h sz off t : k ≠ 0 → tidy t → tidy (l1Store k h sz off t).
Proof.
  intros Hk Ht. destruct (l1Store_spec k h sz off t) as (p & Hp & -> & Hb & Hc).
  intros k' p' Hp' Hkey Hu q Hq.
  destruct (decide (l1Index k p = l1Index k' p')) as [E|E].
  - rewrite E, fn_lookup_insert in Hkey. cbn in Hkey. subst k'. apply l1Index_inj in E; [|done..]. subst p'.
    rewrite fn_lookup_insert_ne; [by apply Hb|]. intros E. apply l1Index_inj in E; lia.
  - rewrite fn_lookup_insert_ne in Hkey, Hu by done. pose proof (Ht k' p' Hp' Hkey Hu q Hq) as [H1 H2].
    destruct (decide (l1Index k p = l1Index k' q)) as [E'|E']; [|by rewrite fn_lookup_insert_ne].
    rewrite E', fn_lookup_insert. cbn. split; [done|]. intros ->.
    apply l1Index_inj in E'; [|done|lia]. subst q. destruct Hc as [?|[?|?]]; [done|done|lia].
Qed.

Lemma l1Store_other k h sz off t k' e :
  k ≠ k' → tidy t → l1Load (l1Store k h sz off t) k' = Some e → l1Load t k' = Some e.
Proof.
  intros Hne Ht. destruct (l1Store_spec k h sz off t) as (p & Hp & -> & Hb & Hc).
  rewrite !l1Load_spec. intros (q & Hq & He & Hk & Hu & Hbq).
  assert (l1Index k p ≠ l1Index k' q) as E.
  { intros E. rewrite <- E, fn_lookup_insert in He. subst e. cbn in Hk. done. }
  rewrite fn_lookup_insert_ne in He by done. exists q. repeat split; try done; try lia.
  all: eapply (Ht k' q); try done; try lia; rewrite He; done.
Qed.

Lemma empty_tidy : tidy empty_table.
Proof. by intros k p _ _ []. Qed.

Lemma l1Load_empty k : l1Load empty_table k = None.
Proof.
  destruct (l1Load empty_table k) as [e|] eqn:E; [|done].
  apply l1Load_spec in E as (q & _ & <- & _ & [] & _). done.
Qed.

(** The table and the last entry stored under each key. *)
Definition table_refines (t : table) (m : gmap Z l1Entry) : Prop :=
  tidy t ∧ ∀ k e, l1Load t k = Some e → m !! k = Some e.

(** ** Properties *)

(** C25 The table of L1 refines a map: after any store under a key other than 0,
    a load of the key returns what was stored, a load of another key returns
    what was last stored under it or nothing (an entry may be evicted, but never
    is an older one returned); an empty table refines the empty map. *)
Theorem l1_refines_map :
  table_refines empty_table ∅ ∧
  ∀ t m k h sz off, k ≠ 0 → table_refines t m →
    table_refines (l1Store k h sz off t) (<[k := new_entry k h sz off]> m) ∧
    l1Load (l1Store k h sz off t) k = Some (new_entry k h sz off).
Proof.
  split; [split; [apply empty_tidy|]; intros k e He; by rewrite l1Load_empty in He|].
  intros t m k h sz off Hk [Ht Hm]. split; [|apply l1Load_store]. split; [by apply l1Store_tidy|].
  intros k' e He. destruct (decide (k = k')) as [->|Hne].
  - rewrite l1Load_store in He. injection He as <-. by rewrite lookup_insert_eq.
  - rewrite lookup_insert_ne by done. apply Hm. by eapply l1Store_other.
Qed.

Lemma l1_refines_map_witness :
  l1Load (l1Store 7 [] 0 0 (l1Store 65543 [] 0 5 empty_table)) 7 = Some (new_entry 7 [] 0 0) ∧
  l1Load (l1Store 7 [] 0 0 (l1Store 65543 [] 0 5 empty_table)) 65543 = Some (new_entry 65543 [] 0 5).
Proof.
  split; [|vm_compute; reflexivity].
  refine (proj2 (proj2 l1_refines_map (l1Store 65543 [] 0 5 empty_table) (<[65543 := new_entry 65543 [] 0 5]> ∅) 7 [] 0 0 _ _)).
  - discriminate.
  - refine (proj1 (proj2 l1_refines_map empty_table ∅ 65543 [] 0 5 _ (proj1 l1_refines_map))). discriminate.
Defined.

(** Restoring an archive writes the outputs it was made of, in order, with
    their contents at the time of the store, and succeeds, whatever follows the
    record, as long as every name fits 16 bits and every file 32; but the number
    of outputs is kept in 16 bits: of [n] outputs only the first [n mod 65536]
    are written, and the restore still succeeds. *)
Theorem archive_roundtrip EnsureDir outs digest post f :
  length digest = 32%nat → Forall output_fits outs → Forall (λ o, EnsureDir o.1 = true) outs →
  restoreOutputsFromBytes EnsureDir (archive_bytes outs digest ++ post) f
  = (write_outputs (take (Z.to_nat (wrap 16 (Z.of_nat (length outs)))) outs) f, true) ∧
  (Z.of_nat (length outs) < 65536 →
   (restoreOutputsFromBytes EnsureDir (archive_bytes outs digest ++ post) f).1 = write_outputs outs f).
Proof.
  intros Hd Hf He. pose proof (restore_archive EnsureDir outs digest post f Hd Hf He) as ->.
  split; [done|]. intros Hn. rewrite wrap_small by (unfold is_word; lia). rewrite Nat2Z.id.
  by rewrite firstn_all.
Qed.

Definition two_outputs : list (bytes * bytes) := [(bs "a.o", [1; 2; 3]); (bs "b.o", [])].

Lemma archive_roundtrip_witness :
  restoreOutputsFromBytes (λ _, true) (archive_bytes two_outputs (replicate 32 7) ++ [9; 9]) ∅
  = (write_outputs two_outputs ∅, true).
Proof.
  exact (proj1 (archive_roundtrip (λ _, true) two_outputs (replicate 32 7) [9; 9] ∅ eq_refl
    ltac:(repeat constructor) ltac:(repeat constructor))).
Defined.

Section key.
Context (blake3 keyed_blake3 : bytes → bytes).

Lemma actionCacheKey_same f f' inputs inputs' action env env' :
  inputs' ≡ₚ inputs → env' ≡ₚ env → (∀ i, i ∈ inputs → f' !! i = f !! i) →
  actionCacheKey blake3 keyed_blake3 f' inputs' action env' = actionCacheKey blake3 keyed_blake3 f inputs action env.
Proof.
  intros Hi He Hf. unfold actionCacheKey. rewrite (sort_Strings_perm _ _ Hi), (sort_Strings_perm _ _ He). f_equal.
  assert (∀ i, i ∈ sort_Strings inputs → f' !! i = f !! i) as H.
  { intros i Hin. apply Hf. unfold sort_Strings in Hin. by rewrite merge_sort_Permutation in Hin. }
  induction (sort_Strings inputs) as [|i l IH]; [done|]. cbn [mapM].
  rewrite IH by (intros j Hj; apply H; set_solver).
  assert (input_bytes keyed_blake3 f' i = input_bytes keyed_blake3 f i) as ->; [|done].
  unfold input_bytes. by rewrite (H i) by set_solver.
Qed.
End key.

Section store_restore.
Context (blake3 keyed_blake3 : bytes → bytes) (EnsureDir : bytes → bool) (cacheEnv : list bytes).
Context (blake3_length : ∀ x, length (blake3 x) = 32%nat).

Lemma window_app a b pre n : (a + n ≤ length pre)%nat → sub (pre ++ b) a n = sub pre a n.
Proof.
  intros H. unfold sub. rewrite drop_app_le by lia. rewrite take_app_le; [done|]. rewrite length_drop. lia.
Qed.

(** A record found in L2 at its offset. *)
Lemma restoreFromL2_record cacheDir outs digest pre post s :
  length digest = 32%nat → Forall output_fits outs → Forall (λ o, EnsureDir o.1 = true) outs →
  Z.of_nat (length outs) < 2 ^ 16 → record_size outs + 64 < 2 ^ 32 →
  l2Data s = Some (pre ++ archive_bytes outs digest ++ post) →
  restoreFromL2 EnsureDir cacheDir (Zlen pre) s
  = (mk_cache (set_files (write_outputs outs (files (dsk s))) (dsk s)) (l1 s) (l2Data s), true).
Proof.
  intros Hd Hf He Hn Hsz Hl2. remember (archive_bytes outs digest) as ar eqn:Har.
  destruct s as [dk t l2]. cbn in Hl2. subst l2.
  unfold restoreFromL2, mapL2Data. cbn [dsk l1 l2Data default].
  assert (Zlen ar = 64 + record_size outs) as Hlen.
  { rewrite Har; unfold archive_bytes, archive_header. rewrite length_app, Nat2Z.inj_add, record_size_spec.
    rewrite !length_app, !length_le_bytes, !length_replicate, Hd. lia. }
  assert (0 ≤ record_size outs) by (rewrite <- record_size_spec; lia).
  unfold id. rewrite !length_app.
  rewrite (proj2 (Z.ltb_ge _ _)) by (unfold l2HeaderSize; lia).
  rewrite Nat2Z.id, drop_app_length.
  assert (ar ++ post = le_bytes 4 l2HeaderMagic ++ (le_bytes 4 l2HeaderVersion ++ digest ++
    le_bytes 2 (Z.of_nat (length outs)) ++ replicate 4 0 ++ le_bytes 4 (record_size outs) ++ replicate 14 0
    ++ concat (entry_bytes <$> outs) ++ post)) as H1.
  { rewrite Har; unfold archive_bytes, archive_header. by rewrite <- !app_assoc. }
  assert (sub (ar ++ post) 0 4 = le_bytes 4 l2HeaderMagic) as ->.
  { rewrite H1. by apply (window_mid []). }
  assert (sub (ar ++ post) 4 4 = le_bytes 4 l2HeaderVersion) as ->.
  { rewrite H1. by apply window_mid. }
  assert (sub (ar ++ post) 46 4 = le_bytes 4 (record_size outs)) as ->.
  { assert (ar ++ post = (le_bytes 4 l2HeaderMagic ++ le_bytes 4 l2HeaderVersion ++ digest ++
      le_bytes 2 (Z.of_nat (length outs)) ++ replicate 4 0) ++ le_bytes 4 (record_size outs) ++
      (replicate 14 0 ++ concat (entry_bytes <$> outs) ++ post)) as -> by (rewrite H1; by rewrite <- !app_assoc).
    apply window_mid; [|done]. rewrite !length_app, !length_le_bytes, length_replicate, Hd. done. }
  rewrite !le_val_le_bytes. change (8 * Z.of_nat 4) with 32.
  change (wrap 32 l2HeaderMagic =? l2HeaderMagic) with true.
  change (wrap 32 l2HeaderVersion =? l2HeaderVersion) with true. cbn [negb].
  rewrite (wrap_small 32 (record_size outs)) by (unfold is_word; lia).
  change (Z.of_nat l2HeaderSize) with 64.
  rewrite (wrap_small 32 (64 + record_size outs)) by (unfold is_word; lia).
  rewrite length_app, (proj2 (Z.ltb_ge _ _)) by lia.
  rewrite take_app_length' by lia.
  pose proof (restore_archive EnsureDir outs digest [] (files dk) Hd Hf He) as Hr.
  rewrite app_nil_r in Hr. rewrite Har, Hr. rewrite wrap_small by (unfold is_word; lia).
  by rewrite Nat2Z.id, firstn_all.
Qed.

Lemma restoreFromL3_record cacheDir outs digest s :
  length digest = 32%nat → Forall output_fits outs → Forall (λ o, EnsureDir o.1 = true) outs →
  Z.of_nat (length outs) < 2 ^ 16 →
  archives (dsk s) !! archivePath (EncodeToString digest) cacheDir = Some (archive_bytes outs digest) →
  ∃ s', restoreFromL3 EnsureDir cacheDir digest s = (s', true) ∧ files (dsk s') = write_outputs outs (files (dsk s)).
Proof.
  intros Hd Hf He Hn Ha. unfold restoreFromL3. rewrite Ha.
  pose proof (restore_archive EnsureDir outs digest [] (files (dsk s)) Hd Hf He) as Hr.
  rewrite app_nil_r in Hr. rewrite Hr. rewrite wrap_small by (unfold is_word; lia).
  rewrite Nat2Z.id, firstn_all. eexists. by split.
Qed.

Lemma store_then_restore inputs inputs' action outputs outputs' env cacheDir outs s s' f' :
  outputs' ≠ [] → read_outputs (dsk s) outputs = Some outs →
  Forall output_fits outs → Forall (λ o, EnsureDir o.1 = true) outs →
  Z.of_nat (length outs) < 2 ^ 16 → record_size outs + 64 < 2 ^ 32 →
  Zlen (default [] (l2_files (dsk s) !! l2DataPath cacheDir)) + 1 < 2 ^ 64 →
  actionCacheStoreSync blake3 keyed_blake3 inputs action outputs env cacheDir s = Ok s' →
  inputs' ≡ₚ inputs → cacheEnv ≡ₚ env → (∀ i, i ∈ inputs → f' !! i = files (dsk s) !! i) →
  ∃ s'', actionCacheRestore blake3 keyed_blake3 EnsureDir cacheEnv inputs' action outputs' cacheDir
      (mk_cache (set_files f' (dsk s')) (l1 s') (l2Data s')) = Ok (s'', true) ∧
    files (dsk s'') = write_outputs outs f'.
Proof.
  intros Ho Hr Hf He Hn Hsz Hl2 Hst Hi Hev Hsame. unfold actionCacheStoreSync in Hst.
  destruct (actionCacheKey _ _ _ inputs action env) as [digest|] eqn:Hk; [|done].
  unfold writeActionArchive in Hst. rewrite Hr in Hst. cbv zeta in Hst.
  remember (archive_bytes outs digest) as ar eqn:Har. cbn [mbind outcome_bind archives files l2_files] in Hst.
  rewrite lookup_insert_eq in Hst. unfold appendL2FromArchive in Hst. cbv zeta in Hst.
  cbn [dsk files archives l2_files l1 l2Data] in Hst. apply Ok_inj in Hst. subst s'.
  unfold actionCacheRestore. destruct outputs' as [|o os]; [done|]. cbn [nilb].
  cbn [dsk files set_files l1 l2Data].
  rewrite (actionCacheKey_same blake3 keyed_blake3 (files (dsk s)) f' inputs inputs' action env cacheEnv Hi Hev Hsame), Hk.
  assert (length digest = 32%nat) as Hd.
  { unfold actionCacheKey in Hk. destruct (mapM _ _); [|done]. injection Hk as <-. apply blake3_length. }
  rewrite l1Load_store. rewrite bool_decide_eq_true_2 by done.
  set (old := default [] (l2_files (dsk s) !! l2DataPath cacheDir)) in *.
  set (st := mk_cache _ _ _).
  destruct (restoreFromL3_record cacheDir outs digest st Hd Hf He Hn) as (s3 & H3 & Hf3).
  { unfold st. cbn [dsk archives set_files]. rewrite lookup_insert_eq. by rewrite Har. }
  unfold new_entry. cbn [offset]. destruct (Zlen old =? 0) eqn:E.
  - rewrite E. cbn [negb]. rewrite H3. by exists s3.
  - apply Z.eqb_neq in E. rewrite wrap_small by (unfold is_word, l1OffsetBias; lia).
    rewrite (proj2 (Z.eqb_neq _ _)) by (unfold l1OffsetBias; lia). cbn [negb].
    replace (Zlen old + l1OffsetBias - l1OffsetBias) with (Zlen old) by lia.
    rewrite (restoreFromL2_record cacheDir outs digest old [] st Hd Hf He Hn Hsz).
    + eexists. by split.
    + unfold st, reloadL2Data. cbn [l2Data l2_files dsk archives]. rewrite lookup_insert_eq.
      rewrite <- Har, app_nil_r. assert (old ++ ar ≠ []) as Hne.
      { rewrite Har. unfold archive_bytes, archive_header. intros Ea. apply app_eq_nil in Ea as [_ Ea].
        apply app_eq_nil in Ea as [Ea _]. apply app_eq_nil in Ea as [Ea _]. discriminate Ea. }
      by destruct (old ++ ar).
Qed.
End store_restore.

(** C24 A restore after a store is a hit: with the inputs as they were at the
    store (in any order), the same command and the same environment (in any
    order), whatever has become of the other files, the restore succeeds and
    writes the outputs with their contents at the time of the store, through L2
    or, for the first record of L2, whose offset 0 means none, through L3. *)
Theorem store_restore_hit blake3 keyed_blake3 EnsureDir cacheEnv
    inputs inputs' action outputs outputs' env cacheDir outs s s' f' :
  (∀ x, length (blake3 x) = 32%nat) →
  outputs' ≠ [] → read_outputs (dsk s) outputs = Some outs →
  Forall output_fits outs → Forall (λ o, EnsureDir o.1 = true) outs →
  Z.of_nat (length outs) < 2 ^ 16 → record_size outs + 64 < 2 ^ 32 →
  Zlen (default [] (l2_files (dsk s) !! l2DataPath cacheDir)) + 1 < 2 ^ 64 →
  actionCacheStoreSync blake3 keyed_blake3 inputs action outputs env cacheDir s = Ok s' →
  inputs' ≡ₚ inputs → cacheEnv ≡ₚ env → (∀ i, i ∈ inputs → f' !! i = files (dsk s) !! i) →
  ∃ s'', actionCacheRestore blake3 keyed_blake3 EnsureDir cacheEnv inputs' action outputs' cacheDir
      (mk_cache (set_files f' (dsk s')) (l1 s') (l2Data s')) = Ok (s'', true) ∧
    files (dsk s'') = write_outputs outs f'.
Proof. intros Hb Ho. by apply store_then_restore. Qed.

(** A hash of 32 bytes to run the model with. *)
Definition pad32 (x : bytes) : bytes := take 32 (rev x ++ replicate 32 0).

Lemma pad32_length x : length (pad32 x) = 32%nat.
Proof. unfold pad32. rewrite length_take, length_app, length_replicate. lia. Qed.


Definition is_ok_b {A} (m : outcome A) : bool := match m with Ok _ => true | _ => false end.

Definition disk0 : disk := mk_disk {[ bs "in" := [1]; bs "out" := [5; 6] ]} ∅ ∅.
Definition cache0 : cache := mk_cache disk0 empty_table None.

Lemma store_restore_hit_witness :
  ∃ s'' s', actionCacheStoreSync pad32 pad32 [bs "in"] (bs "cc") [bs "out"] [] (bs "c") cache0 = Ok s' ∧
    actionCacheRestore pad32 pad32 (λ _, true) [] [bs "in"] (bs "cc") [bs "out"] (bs "c")
      (mk_cache (set_files {[ bs "in" := [1] ]} (dsk s')) (l1 s') (l2Data s')) = Ok (s'', true) ∧
    files (dsk s'') = write_outputs [(bs "out", [5; 6])] {[ bs "in" := [1] ]}.
Proof.
  assert (is_ok_b (actionCacheStoreSync pad32 pad32 [bs "in"] (bs "cc") [bs "out"] [] (bs "c") cache0) = true) as H
    by (vm_compute; reflexivity).
  destruct (actionCacheStoreSync _ _ _ _ _ _ _ _) as [s'| | |] eqn:E; try discriminate H.
  destruct (store_restore_hit pad32 pad32 (λ _, true) [] [bs "in"] [bs "in"] (bs "cc") [bs "out"] [bs "out"] []
    (bs "c") [(bs "out", [5; 6])] cache0 s' {[ bs "in" := [1] ]}) as (s'' & H1 & H2).
  - exact pad32_length.
  - discriminate.
  - vm_compute. reflexivity.
  - repeat constructor.
  - repeat constructor.
  - reflexivity.
  - reflexivity.
  - reflexivity.
  - exact E.
  - reflexivity.
  - reflexivity.
  - intros i Hi. apply list_elem_of_singleton in Hi as ->. reflexivity.
  - exists s'', s'. split; [reflexivity|]. split; [exact H1|exact H2].
Defined.

(** Two dependencies with a cache directory each: the steps of the first are
    stored, then those of the second. *)
Definition two_caches : outcome cache :=
  let f : gmap bytes bytes := {[ bs "in" := [1]; bs "x1" := [1]; bs "x2" := [2]; bs "y1" := [3]; bs "y2" := [4] ]} in
  let store action out dir s := actionCacheStoreSync pad32 pad32 [bs "in"] action [out] [] dir s in
  s ← store (bs "a") (bs "x1") (bs "dep1") (mk_cache (mk_disk f ∅ ∅) empty_table None);
  s ← store (bs "b") (bs "x2") (bs "dep1") s;
  s ← store (bs "c") (bs "y1") (bs "dep2") s;
  store (bs "d") (bs "y2") (bs "dep2") s.

Definition without (o : bytes) (s : cache) : cache :=
  mk_cache (set_files (delete o (files (dsk s))) (dsk s)) (l1 s) (l2Data s).

Definition cross_restore (s : cache) : outcome (cache * bool) :=
  actionCacheRestore pad32 pad32 (λ _, true) [] [bs "in"] (bs "b") [bs "x2"] (bs "dep1") (without (bs "x2") s).

Lemma cross_restore_hit :
  ∃ s s' : cache, two_caches = Ok s ∧ cross_restore s = Ok (s', true) ∧ files (dsk s') !! bs "x2" = None.
Proof.
  assert (match two_caches with
          | Ok s => match cross_restore s with Ok (s', true) => bool_decide (files (dsk s') !! bs "x2" = None) | _ => false end
          | _ => false end = true) as H by (vm_compute; reflexivity).
  destruct two_caches as [s| | |]; try discriminate H.
  destruct (cross_restore s) as [[s' []]| | |] eqn:E; try discriminate H.
  exists s, s'. split; [done|]. split; [done|]. by apply bool_decide_eq_true in H.
Qed.

(** Where the cache is wrong: the step cache stores with the environment of
    the step and looks up with that of the process, so that a step stored in an
    empty cache is not found again whenever the two keys differ; and the mapped
    L2 file is shared by all cache directories, its offsets are not, and the key
    in a record is not compared, so that a restore in one directory succeeds
    with the outputs of a step of another and leaves its own output missing. *)
Theorem step_cache_wrong :
  (∀ blake3 keyed_blake3 EnsureDir cacheEnv action inputs outputs envMap cacheDir s s',
    l1 s = empty_table →
    storeStepCache blake3 keyed_blake3 action inputs outputs envMap cacheDir s = Ok s' →
    actionCacheKey blake3 keyed_blake3 (files (dsk s)) inputs action (envMapToSlice envMap)
      ≠ actionCacheKey blake3 keyed_blake3 (files (dsk s)) inputs action cacheEnv →
    ∀ s'' hit, restoreStepCache blake3 keyed_blake3 EnsureDir cacheEnv action inputs outputs cacheDir s' = Ok (s'', hit) →
      hit = false) ∧
  (∃ s s' : cache, two_caches = Ok s ∧ cross_restore s = Ok (s', true) ∧ files (dsk s') !! bs "x2" = None).
Proof.
  split; [|exact cross_restore_hit]. intros blake3 keyed EnsureDir cacheEnv action inputs outputs envMap cacheDir s s' Ht Hst Hk s'' hit Hr.
  unfold storeStepCache, restoreStepCache in *. destruct (nilb outputs || nilb inputs) eqn:En.
  { by injection Hr as <- <-. }
  unfold actionCacheStoreSync in Hst.
  destruct (actionCacheKey _ _ _ inputs action (envMapToSlice envMap)) as [dg|]; [|done].
  unfold writeActionArchive in Hst. destruct (read_outputs _ _) as [outs|]; [|done].
  cbv zeta in Hst. remember (archive_bytes outs dg) as ar eqn:Har.
  cbn [mbind outcome_bind archives files l2_files] in Hst.
  rewrite lookup_insert_eq in Hst. unfold appendL2FromArchive in Hst. cbv zeta in Hst.
  cbn [dsk files archives l2_files l1 l2Data] in Hst. apply Ok_inj in Hst. subst s'.
  unfold actionCacheRestore in Hr. cbn [l1 dsk files] in Hr.
  destruct (nilb outputs); [by injection Hr as <- <-|].
  destruct (actionCacheKey _ _ _ inputs action cacheEnv) as [dg'|]; [|done].
  destruct (l1Load _ (l1Key dg')) as [e|] eqn:El; [|by injection Hr as <- <-].
  rewrite bool_decide_eq_false_2 in Hr; [by injection Hr as <- <-|]. intros Hh.
  destruct (decide (l1Key dg = l1Key dg')) as [Heq|Hne].
  - rewrite <- Heq, l1Load_store in El. injection El as <-. cbn in Hh. congruence.
  - apply l1Store_other in El; [|done|rewrite Ht; apply empty_tidy]. by rewrite Ht, l1Load_empty in El.
Qed.

Lemma step_cache_wrong_witness :
  ∃ s' s'',
    storeStepCache pad32 pad32 (bs "cc") [bs "in"] [bs "out"] [(bs "A", bs "1")] (bs "c") cache0 = Ok s' ∧
    restoreStepCache pad32 pad32 (λ _, true) [] (bs "cc") [bs "in"] [bs "out"] (bs "c") s' = Ok (s'', false).
Proof.
  assert (match storeStepCache pad32 pad32 (bs "cc") [bs "in"] [bs "out"] [(bs "A", bs "1")] (bs "c") cache0 with
          | Ok s' =>
              match restoreStepCache pad32 pad32 (λ _, true) [] (bs "cc") [bs "in"] [bs "out"] (bs "c") s' with
              | Ok _ => true | _ => false end
          | _ => false end = true) as H by (vm_compute; reflexivity).
  destruct (storeStepCache _ _ _ _ _ _ _ _) as [s'| | |] eqn:Hst; try discriminate H.
  destruct (restoreStepCache _ _ _ _ _ _ _ _ s') as [[s'' hit]| | |] eqn:Hr; try discriminate H.
  exists s', s''. split; [reflexivity|].
  rewrite <- (proj1 step_cache_wrong pad32 pad32 (λ _, true) [] (bs "cc") [bs "in"] [bs "out"] [(bs "A", bs "1")]
    (bs "c") cache0 s' eq_refl Hst ltac:(vm_compute; discriminate) s'' hit Hr). exact Hr.
Defined.
