(* ===== verification/ConfigTypes.v ===== *)
(** * Configuration: the data (config/config.go)

    The records of the configuration with the fields of the source (the fields
    of nested structs carry a prefix), their zero values, and an update notation
    for them. *)
From stdpp Require Import list gmap.
From S2P Require Import Prelude.

(** ** Record updates

    [c <| f := v |>] replaces the field [f] of [c]: an instance of [Settable]
    rebuilds the record from its projections, and [pattern] abstracts the one
    that changes. *)
Class Settable (R : Type) := rebuild : R → R.
Class Setter {R T : Type} (proj : R → T) := set_field : T → R → R.

Ltac derive_setter :=
  match goal with
  | |- @Setter ?R ?T ?proj =>
      let i := constr:(_ : Settable R) in
      let e := eval red in i in
      let p := eval pattern proj in e in
      match p with ?f _ => exact (λ (v : T) (r : R), f (λ _, v) r) end
  end.
#[export] Hint Extern 1 (Setter _) => derive_setter : typeclass_instances.

Declare Scope record_scope.
Delimit Scope record_scope with record.
Notation "r <| f := v |>" := (set_field (proj := f) v r)
  (at level 1, left associativity, format "r  <| f  :=  v |>").

Record FlagsT := mk_FlagsT {
  Flags_Asm : list bytes; Flags_Cc : list bytes; Flags_Ld : list bytes }.
#[export] Instance eta_FlagsT : Settable FlagsT :=
  λ r, mk_FlagsT (Flags_Asm r) (Flags_Cc r) (Flags_Ld r).
Definition zero_FlagsT : FlagsT := mk_FlagsT [] [] [].

Record Hook := mk_Hook {
  Hook_Cmd : bytes; Hook_Critical : bool }.
#[export] Instance eta_Hook : Settable Hook :=
  λ r, mk_Hook (Hook_Cmd r) (Hook_Critical r).
Definition zero_Hook : Hook := mk_Hook [] false.

Record HooksT := mk_HooksT {
  Hooks_PreBuild : list Hook; Hooks_OnFailure : bytes }.
#[export] Instance eta_HooksT : Settable HooksT :=
  λ r, mk_HooksT (Hooks_PreBuild r) (Hooks_OnFailure r).
Definition zero_HooksT : HooksT := mk_HooksT [] [].

Record BuildRule := mk_BuildRule {
  Rule_Name : bytes; Rule_Action : bytes; Rule_Inputs : list bytes; Rule_Outputs : list bytes;
  Rule_Depfile : bytes }.
#[export] Instance eta_BuildRule : Settable BuildRule :=
  λ r, mk_BuildRule (Rule_Name r) (Rule_Action r) (Rule_Inputs r) (Rule_Outputs r) (Rule_Depfile r).
Definition zero_BuildRule : BuildRule := mk_BuildRule [] [] [] [] [].

Record Task := mk_Task {
  Task_Name : bytes; Task_Stage : bytes; Task_Command : bytes; Task_Inputs : list bytes;
  Task_Outputs : list bytes }.
#[export] Instance eta_Task : Settable Task :=
  λ r, mk_Task (Task_Name r) (Task_Stage r) (Task_Command r) (Task_Inputs r) (Task_Outputs r).
Definition zero_Task : Task := mk_Task [] [] [] [] [].

Record ISOConfig := mk_ISOConfig {
  ISO_Enabled : bool; ISO_SourceDir : bytes; ISO_Output : bytes; ISO_VolumeID : bytes;
  ISO_BootImage : bytes; ISO_BootCatalog : bytes; ISO_BootLoadSize : bytes; ISO_NoEmulBoot : bool;
  ISO_BootInfoTable : bool; ISO_Joliet : bool; ISO_RockRidge : bool; ISO_Hybrid : bool;
  ISO_CustomArgs : list bytes }.
#[export] Instance eta_ISOConfig : Settable ISOConfig :=
  λ r, mk_ISOConfig (ISO_Enabled r) (ISO_SourceDir r) (ISO_Output r) (ISO_VolumeID r) (ISO_BootImage r)
    (ISO_BootCatalog r) (ISO_BootLoadSize r) (ISO_NoEmulBoot r) (ISO_BootInfoTable r) (ISO_Joliet r)
    (ISO_RockRidge r) (ISO_Hybrid r) (ISO_CustomArgs r).
Definition zero_ISOConfig : ISOConfig := mk_ISOConfig false [] [] [] [] [] [] false false false false false [].

Record PreprocessConfig := mk_PreprocessConfig {
  Pre_Enabled : bool; Pre_Inputs : list bytes; Pre_Outputs : list bytes;
  Pre_Defines : gmap bytes bytes }.
#[export] Instance eta_PreprocessConfig : Settable PreprocessConfig :=
  λ r, mk_PreprocessConfig (Pre_Enabled r) (Pre_Inputs r) (Pre_Outputs r) (Pre_Defines r).
Definition zero_PreprocessConfig : PreprocessConfig := mk_PreprocessConfig false [] [] ∅.

Record BuildStep := mk_BuildStep {
  Step_If : bytes; Step_Elif : bytes; Step_Else : bool; Step_Try : bool; Step_Catch : bool;
  Step_Finally : bool; Step_Group : bytes; Step_Stage : Z; Step_Parallel : bool;
  Step_StepSet : bytes; Step_With : gmap bytes bytes; Step_Command : bytes; Step_Run : bytes;
  Step_Inputs : list bytes; Step_Outputs : list bytes; Step_Persistent : bool }.
#[export] Instance eta_BuildStep : Settable BuildStep :=
  λ r, mk_BuildStep (Step_If r) (Step_Elif r) (Step_Else r) (Step_Try r) (Step_Catch r) (Step_Finally r)
    (Step_Group r) (Step_Stage r) (Step_Parallel r) (Step_StepSet r) (Step_With r) (Step_Command r)
    (Step_Run r) (Step_Inputs r) (Step_Outputs r) (Step_Persistent r).
Definition zero_BuildStep : BuildStep := mk_BuildStep [] [] false false false false [] 0 false [] ∅ [] [] [] [] false.

Record StepSet := mk_StepSet {
  Set_Name : bytes; Set_BuildStep : BuildStep }.
#[export] Instance eta_StepSet : Settable StepSet :=
  λ r, mk_StepSet (Set_Name r) (Set_BuildStep r).
Definition zero_StepSet : StepSet := mk_StepSet [] zero_BuildStep.

Record DepBuildConfig := mk_DepBuildConfig {
  Dep_Enabled : bool; Dep_SkipTests : bool; Dep_BuildTargets : list bytes;
  Dep_Outputs : list bytes; Dep_Include : list bytes; Dep_Environment : gmap bytes bytes;
  Dep_PreBuild : list bytes; Dep_PostBuild : list bytes; Dep_StepSets : list StepSet;
  Dep_Steps : list BuildStep; Dep_ExcludeFiles : list bytes; Dep_OnlyFiles : list bytes }.
#[export] Instance eta_DepBuildConfig : Settable DepBuildConfig :=
  λ r, mk_DepBuildConfig (Dep_Enabled r) (Dep_SkipTests r) (Dep_BuildTargets r) (Dep_Outputs r) (Dep_Include r)
    (Dep_Environment r) (Dep_PreBuild r) (Dep_PostBuild r) (Dep_StepSets r) (Dep_Steps r)
    (Dep_ExcludeFiles r) (Dep_OnlyFiles r).
Definition zero_DepBuildConfig : DepBuildConfig := mk_DepBuildConfig false false [] [] [] ∅ [] [] [] [] [] [].

Record AutoBuildConfig := mk_AutoBuildConfig {
  Auto_Enabled : bool; Auto_LogLevel : bytes; Auto_ContinueOnError : bool;
  Auto_BuildOrder : list bytes; Auto_DefaultSkipTests : bool;
  Auto_DefaultEnvironment : gmap bytes bytes }.
#[export] Instance eta_AutoBuildConfig : Settable AutoBuildConfig :=
  λ r, mk_AutoBuildConfig (Auto_Enabled r) (Auto_LogLevel r) (Auto_ContinueOnError r) (Auto_BuildOrder r)
    (Auto_DefaultSkipTests r) (Auto_DefaultEnvironment r).
Definition zero_AutoBuildConfig : AutoBuildConfig := mk_AutoBuildConfig false [] false [] false ∅.

Record CompilerConfig := mk_CompilerConfig {
  Compiler_Path : bytes }.
#[export] Instance eta_CompilerConfig : Settable CompilerConfig :=
  λ r, mk_CompilerConfig (Compiler_Path r).
Definition zero_CompilerConfig : CompilerConfig := mk_CompilerConfig [].

Record ConcurrencyConfig := mk_ConcurrencyConfig {
  Conc_Workers : Z; Conc_Pin : bool; Conc_PinTo : list bytes }.
#[export] Instance eta_ConcurrencyConfig : Settable ConcurrencyConfig :=
  λ r, mk_ConcurrencyConfig (Conc_Workers r) (Conc_Pin r) (Conc_PinTo r).
Definition zero_ConcurrencyConfig : ConcurrencyConfig := mk_ConcurrencyConfig 0 false [].

Record ToolchainOpts := mk_ToolchainOpts {
  TS_SearchPriority : list bytes; TS_EnvAllow : list bytes; TS_ToolPaths : gmap bytes bytes }.
#[export] Instance eta_ToolchainOpts : Settable ToolchainOpts :=
  λ r, mk_ToolchainOpts (TS_SearchPriority r) (TS_EnvAllow r) (TS_ToolPaths r).
Definition zero_ToolchainOpts : ToolchainOpts := mk_ToolchainOpts [] [] ∅.

Record Config := mk_Config {
  Name : bytes; Profile : bytes; Target : bytes; Sysroot : bytes; SourceDir : bytes;
  SourceDirs : list bytes; SourceFiles : list bytes; SourceFile : bytes; Output : bytes;
  OutObj : bytes; Mode : bytes; Toolchain : bytes; Linker : bytes; Debug : bool; Verbose : bool;
  KeepObj : bool; NoCache : bool; CacheMode : bytes; CacheRAMMB : Z; OptimizationLevel : Z;
  Compiler : CompilerConfig; CPUTarget : bytes; InstructionSets : list bytes;
  Concurrency : ConcurrencyConfig; Exclude : list bytes; Include : list bytes;
  Scripts : list bytes; Libs : list bytes; AutoBuildDeps : bool; ParseMakefile : bool;
  ConfigOnly : bool; IgnoreFile : bytes; AuditIgnore : list bytes;
  ToolChecksums : gmap bytes bytes; Variables : gmap bytes bytes; Flags : FlagsT;
  Isolation : bytes; DeterministicStrip : bool; ToolchainSettings : ToolchainOpts;
  Preprocess : PreprocessConfig; Hooks : HooksT; BuildRules : list BuildRule; Tasks : list Task;
  ISO : ISOConfig; DepBuild : DepBuildConfig; AutoBuild : AutoBuildConfig }.
#[export] Instance eta_Config : Settable Config :=
  λ r, mk_Config (Name r) (Profile r) (Target r) (Sysroot r) (SourceDir r) (SourceDirs r) (SourceFiles r)
    (SourceFile r) (Output r) (OutObj r) (Mode r) (Toolchain r) (Linker r) (Debug r) (Verbose r)
    (KeepObj r) (NoCache r) (CacheMode r) (CacheRAMMB r) (OptimizationLevel r) (Compiler r)
    (CPUTarget r) (InstructionSets r) (Concurrency r) (Exclude r) (Include r) (Scripts r) (Libs r)
    (AutoBuildDeps r) (ParseMakefile r) (ConfigOnly r) (IgnoreFile r) (AuditIgnore r)
    (ToolChecksums r) (Variables r) (Flags r) (Isolation r) (DeterministicStrip r)
    (ToolchainSettings r) (Preprocess r) (Hooks r) (BuildRules r) (Tasks r) (ISO r) (DepBuild r)
    (AutoBuild r).
Definition zero_Config : Config := mk_Config [] [] [] [] [] [] [] [] [] [] [] [] [] false false false false [] 0 0 zero_CompilerConfig [] [] zero_ConcurrencyConfig [] [] [] [] false false false [] [] ∅ ∅ zero_FlagsT [] false zero_ToolchainOpts zero_PreprocessConfig zero_HooksT [] [] zero_ISOConfig zero_DepBuildConfig zero_AutoBuildConfig.
(** Equality of configurations is decidable. *)
#[export] Instance FlagsT_eq_dec : EqDecision FlagsT.
Proof. solve_decision. Defined.
#[export] Instance Hook_eq_dec : EqDecision Hook.
Proof. solve_decision. Defined.
#[export] Instance HooksT_eq_dec : EqDecision HooksT.
Proof. solve_decision. Defined.
#[export] Instance BuildRule_eq_dec : EqDecision BuildRule.
Proof. solve_decision. Defined.
#[export] Instance Task_eq_dec : EqDecision Task.
Proof. solve_decision. Defined.
#[export] Instance ISO_eq_dec : EqDecision ISOConfig.
Proof. solve_decision. Defined.
#[export] Instance Pre_eq_dec : EqDecision PreprocessConfig.
Proof. solve_decision. Defined.
#[export] Instance Step_eq_dec : EqDecision BuildStep.
Proof. solve_decision. Defined.
#[export] Instance Set_eq_dec : EqDecision StepSet.
Proof. solve_decision. Defined.
#[export] Instance Dep_eq_dec : EqDecision DepBuildConfig.
Proof. solve_decision. Defined.
#[export] Instance Auto_eq_dec : EqDecision AutoBuildConfig.
Proof. solve_decision. Defined.
#[export] Instance Compiler_eq_dec : EqDecision CompilerConfig.
Proof. solve_decision. Defined.
#[export] Instance Conc_eq_dec : EqDecision ConcurrencyConfig.
Proof. solve_decision. Defined.
#[export] Instance TS_eq_dec : EqDecision ToolchainOpts.
Proof. solve_decision. Defined.
#[export] Instance Config_eq_dec : EqDecision Config.
Proof. solve_decision. Defined.

Example update_ex : Mode (zero_Config <| Mode := bs "raw" |>) = bs "raw" ∧ Name (zero_Config <| Mode := bs "raw" |>) = [].
Proof. done. Qed.
