(* ===== verification/ConfigVars.v ===== *)
(** * Configuration: variables (variables/variables_config.go)

    The expansion of [$name], [${name}] and [$$] in rounds, and its meaning on
    templates whose variables are defined by templates in turn. *)
From stdpp Require Import list gmap.
From S2P Require Import Prelude.

Definition escMarker : Z := 1.

Definition isAlpha (c : Z) : bool :=
  ((97 <=? c) && (c <=? 122)) || ((65 <=? c) && (c <=? 90)) || (c =? 95).
Definition isAlphaNum (c : Z) : bool := isAlpha c || ((48 <=? c) && (c <=? 57)).

Section expand.
(** The environment of the process. *)
Context (LookupEnv : bytes → option bytes).

(** One round from the rest [s] of the string; every iteration reads a byte,
    so that [length s] of fuel is enough. *)
Fixpoint expand_from (fuel : nat) (vars : gmap bytes bytes) (s : bytes) : bytes :=
  match fuel, s with
  | O, _ | _, [] => []
  | S k, c :: r =>
      let skip := c :: expand_from k vars r in
      if c =? ch "$" then
        match r with
        | [] => skip
        | d :: r' =>
            if d =? ch "$" then escMarker :: expand_from k vars r'
            else if d =? ch "{" then
              match span (λ x, negb (x =? ch "}")) r' with
              | (name, _ :: rest) =>
                  match vars !! name with
                  | Some val => val ++ expand_from k vars rest
                  | None =>
                      match LookupEnv name with
                      | Some env => env ++ expand_from k vars rest
                      | None => skip
                      end
                  end
              | (_, []) => skip
              end
            else if isAlpha d then
              let '(name, rest) := span isAlphaNum r in
              match vars !! name with
              | Some val => val ++ expand_from k vars rest
              | None => skip
              end
            else skip
        end
      else skip
  end.

Definition expandOne (s : bytes) (vars : gmap bytes bytes) : bytes := expand_from (length s) vars s.

Definition containsDollar (s : bytes) : bool := bool_decide (ch "$" ∈ s).

(** [strings.ReplaceAll(s, escMarker, "$")]. *)
Definition unescape (s : bytes) : bytes := map (λ c, if c =? escMarker then ch "$" else c) s.

Fixpoint expand_rounds (n : nat) (vars : gmap bytes bytes) (prev : bytes) : bytes :=
  match n with
  | O => unescape prev
  | S k =>
      let cur := expandOne prev vars in
      if bool_decide (cur = prev) then unescape cur else expand_rounds k vars cur
  end.

Definition ExpandString (s : bytes) (vars : gmap bytes bytes) : bytes :=
  if bool_decide (vars = ∅) || nilb s then s
  else if negb (containsDollar s) then s
  else expand_rounds 10 vars s.

Definition ExpandSlice (slice : list bytes) (vars : gmap bytes bytes) : list bytes :=
  if bool_decide (vars = ∅) || nilb slice then slice else map (λ s, ExpandString s vars) slice.

Definition ExpandMap (m vars : gmap bytes bytes) : gmap bytes bytes :=
  if bool_decide (vars = ∅) || bool_decide (m = ∅) then m else (λ v, ExpandString v vars) <$> m.

(** ** Fuel and fixed points *)
Lemma span_length_le {A} (f : A → bool) l : (length (span f l).2 ≤ length l)%nat.
Proof. pose proof (span_length f l). lia. Qed.

Lemma expand_from_fuel k k' vars s :
  (length s ≤ k)%nat → (length s ≤ k')%nat → expand_from k vars s = expand_from k' vars s.
Proof.
  revert k' s. induction k as [|k IH]; intros k' s Hk Hk'.
  { destruct s; [by destruct k'|cbn in Hk; lia]. }
  destruct s as [|c r]; [by destruct k'|]. destruct k' as [|k']; [cbn in Hk'; lia|].
  cbn in Hk, Hk'. cbn [expand_from]. rewrite (IH k' r) by lia.
  destruct (c =? _); [|done]. destruct r as [|d r']; [done|]. cbn in Hk, Hk'.
  destruct (d =? _); [f_equal; apply IH; lia|]. destruct (d =? _).
  - pose proof (span_length_le (λ x, negb (x =? ch "}")) r') as Hs.
    destruct (span _ r') as [name [|e rest]]; [done|]. cbn in Hs.
    rewrite (IH k' rest) by lia. done.
  - destruct (isAlpha d) eqn:Ha; [|done]. pose proof (span_length_le isAlphaNum (d :: r')) as Hs.
    destruct (span isAlphaNum (d :: r')) as [name rest] eqn:E. cbn in Hs.
    destruct (vars !! name); [|done]. f_equal. apply IH; [|lia].
    cbn [span] in E. unfold isAlphaNum in E at 1. rewrite Ha in E. cbn in E. fold isAlphaNum in E.
    pose proof (span_length_le isAlphaNum r'). destruct (span isAlphaNum r'). injection E as <- <-. cbn in *. lia.
Qed.

Lemma expandOne_plain s vars : containsDollar s = false → expandOne s vars = s.
Proof.
  unfold containsDollar, expandOne. intros H. apply bool_decide_eq_false in H.
  induction s as [|c r IH]; [done|]. cbn [length expand_from].
  rewrite (proj2 (Z.eqb_neq c _)) by set_solver. f_equal. apply IH. set_solver.
Qed.

(** The rounds stop early only at a fixed point. *)
Lemma expand_rounds_iter n vars s :
  expand_rounds n vars s = unescape (Nat.iter n (λ x, expandOne x vars) s).
Proof.
  assert (∀ m x, expandOne x vars = x → Nat.iter m (λ x, expandOne x vars) x = x) as Hfix.
  { intros m x Hx. induction m as [|m IH]; [done|]. by rewrite Nat.iter_succ, IH. }
  revert s. induction n as [|n IH]; intros s; [done|]. cbn [expand_rounds].
  rewrite Nat.iter_succ_r. case_bool_decide as E.
  - rewrite E. f_equal. symmetry. by apply Hfix.
  - apply IH.
Qed.

Lemma ExpandString_plain s vars : containsDollar s = false → ExpandString s vars = s.
Proof. intros H. unfold ExpandString. rewrite H. by case_match. Qed.

End expand.

(** ** Templates *)
Section templates.
Inductive piece :=
| Lit (c : Z)
| Dollar
| Mark
| Ref (name : bytes).

Definition print_piece (p : piece) : bytes :=
  match p with
  | Lit c => [c]
  | Dollar => bs "$$"
  | Mark => [escMarker]
  | Ref name => bs "${" ++ name ++ bs "}"
  end.

Definition print (t : list piece) : bytes := concat (print_piece <$> t).

Context (defs : gmap bytes (list piece)).

(** The text a template stands for, with references followed [n] deep. *)
Fixpoint meaning (n : nat) (t : list piece) : bytes :=
  concat ((λ p, match p with
                | Lit c => [c]
                | Dollar | Mark => bs "$"
                | Ref name => match n with S k => meaning k (default [] (defs !! name)) | O => [] end
                end) <$> t).

Definition piece_ok (p : piece) : Prop :=
  match p with
  | Lit c => c ≠ ch "$" ∧ c ≠ escMarker
  | Ref name => ¬ (ch "}" ∈ name) ∧ is_Some (defs !! name)
  | _ => True
  end.

#[export] Instance piece_ok_dec p : Decision (piece_ok p).
Proof. destruct p; cbn; apply _. Defined.

(** References of a template are at most [n] deep. *)
Fixpoint shallow (n : nat) (t : list piece) : Prop :=
  match n with
  | O => ∀ name, Ref name ∉ t
  | S k => ∀ name d, Ref name ∈ t → defs !! name = Some d → shallow k d
  end.

Definition expand_piece (p : piece) : list piece :=
  match p with
  | Dollar => [Mark]
  | Ref name => default [] (defs !! name)
  | _ => [p]
  end.

Definition expand_template (t : list piece) : list piece := concat (expand_piece <$> t).

Lemma print_app t u : print (t ++ u) = print t ++ print u.
Proof. unfold print. by rewrite fmap_app, concat_app. Qed.

Lemma expandOne_print LookupEnv t :
  Forall piece_ok t → expandOne LookupEnv (print t) (print <$> defs) = print (expand_template t).
Proof.
  unfold expandOne. induction t as [|p t IH]; intros Ht; [done|].
  apply Forall_cons in Ht as [Hp Ht]. specialize (IH Ht).
  change (print (p :: t)) with (print_piece p ++ print t).
  change (expand_template (p :: t)) with (expand_piece p ++ expand_template t). rewrite print_app, <- IH.
  set (rest := print t). destruct p as [c| | |name]; cbn [print_piece expand_piece piece_ok] in *.
  - cbn [length app expand_from]. by rewrite (proj2 (Z.eqb_neq c _)) by tauto.
  - cbn [length app expand_from]. rewrite !Z.eqb_refl. f_equal.
    apply (expand_from_fuel LookupEnv (S (length rest)) (length rest)); lia.
  - done.
  - destruct Hp as [Hn [d Hd]]. rewrite Hd. cbn [default].
    replace ((bs "${" ++ name ++ bs "}") ++ rest) with (ch "$" :: ch "{" :: name ++ ch "}" :: rest)
      by (cbn; by rewrite <- app_assoc).
    cbn [length expand_from]. rewrite Z.eqb_refl. change (ch "{" =? ch "$") with false. rewrite Z.eqb_refl.
    rewrite (span_all _ name (ch "}" :: rest)).
    + rewrite lookup_fmap, Hd. cbn [fmap option_fmap option_map]. f_equal.
      apply (expand_from_fuel LookupEnv (S (length (name ++ ch "}" :: rest))) (length rest));
        rewrite ?length_app; cbn; lia.
    + apply Forall_forall. intros x Hx. apply negb_true_iff, Z.eqb_neq. intros ->. done.
    + done.
Qed.

(** *** Rounds *)
Definition defs_ok : Prop := ∀ name d, defs !! name = Some d → Forall piece_ok d.

Lemma expand_template_ok t : defs_ok → Forall piece_ok t → Forall piece_ok (expand_template t).
Proof.
  intros Hd. induction 1 as [|p t Hp _ IH]; [constructor|].
  change (expand_template (p :: t)) with (expand_piece p ++ expand_template t).
  apply Forall_app. split; [|done]. destruct p as [c| | |name]; cbn in *; try by constructor.
  destruct Hp as [_ [d Hd']]. rewrite Hd'. by eapply Hd.
Qed.

Lemma expand_template_shallow n t : shallow (S n) t → shallow n (expand_template t).
Proof.
  intros Ht. assert (∀ name, Ref name ∈ expand_template t → ∃ x d, Ref x ∈ t ∧ defs !! x = Some d ∧ Ref name ∈ d) as H.
  { intros name Hin. unfold expand_template in Hin. apply list_elem_of_In, in_concat in Hin as (l & Hl & Hin).
    apply list_elem_of_In in Hl, Hin.
    apply list_elem_of_fmap in Hl as (p & -> & Hp). destruct p as [c| | |x]; cbn in Hin; try set_solver.
    destruct (defs !! x) as [d|] eqn:Hd; cbn in Hin; [|set_solver]. by exists x, d. }
  destruct n as [|n]; cbn in Ht |- *.
  - intros name Hin. destruct (H name Hin) as (x & d & Hx & Hd & Hn). by eapply (Ht x d).
  - intros name d' Hin Hd'. destruct (H name Hin) as (x & d & Hx & Hd & Hn).
    by eapply (Ht x d Hx Hd name d').
Qed.

Lemma meaning_app m t u : meaning m (t ++ u) = meaning m t ++ meaning m u.
Proof. destruct m; cbn; by rewrite fmap_app, concat_app. Qed.

Lemma meaning_expand n t : meaning (S n) t = meaning n (expand_template t).
Proof.
  induction t as [|p t IH]; [by destruct n|].
  change (expand_template (p :: t)) with (expand_piece p ++ expand_template t).
  change (p :: t) with ([p] ++ t). rewrite !meaning_app, IH. f_equal.
  destruct p as [c| | |name]; try by destruct n. cbn. by rewrite app_nil_r.
Qed.

Lemma expand_rounds_print LookupEnv n t :
  defs_ok → Forall piece_ok t →
  Nat.iter n (λ x, expandOne LookupEnv x (print <$> defs)) (print t) = print (Nat.iter n expand_template t).
Proof.
  intros Hd. revert t. induction n as [|n IH]; intros t Ht; [done|].
  rewrite !Nat.iter_succ_r, expandOne_print by done. apply IH. by apply expand_template_ok.
Qed.

Lemma iter_shallow n m t : shallow (n + m) t → shallow m (Nat.iter n expand_template t).
Proof.
  revert t. induction n as [|n IH]; intros t Ht; [done|]. rewrite Nat.iter_succ_r. apply IH.
  by apply expand_template_shallow.
Qed.

Lemma iter_meaning n m t : meaning (n + m) t = meaning m (Nat.iter n expand_template t).
Proof.
  revert t. induction n as [|n IH]; intros t; [done|]. rewrite Nat.iter_succ_r, <- IH.
  apply meaning_expand.
Qed.

Lemma iter_ok n t : defs_ok → Forall piece_ok t → Forall piece_ok (Nat.iter n expand_template t).
Proof. intros Hd Ht. induction n; [done|]. rewrite Nat.iter_succ. by apply expand_template_ok. Qed.

(** The last round turns every [$$] into a marker, which is then replaced. *)
Lemma unescape_last t :
  Forall piece_ok t → (∀ name, Ref name ∉ t) → unescape (print (expand_template t)) = meaning 0 t.
Proof.
  induction 1 as [|p t Hp _ IH]; intros Hr; [done|].
  change (expand_template (p :: t)) with (expand_piece p ++ expand_template t).
  change (p :: t) with ([p] ++ t). rewrite print_app, meaning_app. unfold unescape in *. rewrite map_app, IH.
  2: { intros name Hin. apply (Hr name). set_solver. }
  f_equal. destruct p as [c| | |name]; cbn in *; try done.
  - by rewrite (proj2 (Z.eqb_neq c _)) by tauto.
  - destruct (Hr name). set_solver.
Qed.

Lemma plain_template n t :
  containsDollar (print t) = false → Mark ∉ t → print t = meaning n t.
Proof.
  unfold containsDollar. intros H. apply bool_decide_eq_false in H. revert H.
  induction t as [|p t IH]; intros H Hm; [by destruct n|].
  change (print (p :: t)) with (print_piece p ++ print t) in *.
  change (p :: t) with ([p] ++ t). rewrite meaning_app, <- IH by set_solver. f_equal.
  destruct p as [c| | |name]; cbn in *; try set_solver. by destruct n.
Qed.
End templates.

(** ** Properties *)

(** C27 The expansion of a template: a text of literal bytes, [$$] and references
    [${name}] to variables that are such texts in turn, nested at most nine
    deep, expands to what it stands for: every reference is replaced by the
    meaning of its variable and every [$$] by a dollar sign, wherever it comes
    from.  Any other text without a dollar sign is left as it is. *)
Theorem ExpandString_template LookupEnv defs t :
  defs ≠ ∅ → defs_ok defs → Forall (piece_ok defs) t → shallow defs 9 t → Mark ∉ t →
  ExpandString LookupEnv (print t) (print <$> defs) = meaning defs 10 t ∧
  ∀ s vars, containsDollar s = false → ExpandString LookupEnv s vars = s.
Proof.
  intros Hne Hd Ht Hs Hm. split; [|intros; by apply ExpandString_plain]. unfold ExpandString.
  rewrite bool_decide_eq_false_2; [|by intros E; apply fmap_empty_inv in E].
  destruct (nilb (print t)) eqn:En; cbn [orb].
  { destruct (print t) eqn:Ep; [|done]. rewrite <- Ep. apply plain_template; [|done].
    rewrite Ep. reflexivity. }
  destruct (containsDollar (print t)) eqn:Ec; cbn [negb]; [|by apply plain_template].
  rewrite expand_rounds_iter, expand_rounds_print by done.
  change (Nat.iter 10 (expand_template defs) t) with (expand_template defs (Nat.iter 9 (expand_template defs) t)).
  rewrite unescape_last; [|by apply iter_ok|exact (iter_shallow defs 9 0 t Hs)].
  rewrite <- (iter_meaning defs 9 0). change (9 + 0)%nat with 9%nat.
  assert (∀ n u, shallow defs n u → meaning defs (S n) u = meaning defs n u) as Hstep; [|symmetry; by apply Hstep].
  clear. intros n. induction n as [|n IH]; intros u Hu; cbn in Hu.
  - cbn. f_equal. apply list_fmap_ext. intros i [c| | |name] Hp; try done.
    apply list_elem_of_lookup_2 in Hp. by destruct (Hu name).
  - change (concat ((λ p, match p with Lit c => [c] | Dollar | Mark => bs "$"
        | Ref name => meaning defs (S n) (default [] (defs !! name)) end) <$> u)
      = concat ((λ p, match p with Lit c => [c] | Dollar | Mark => bs "$"
        | Ref name => meaning defs n (default [] (defs !! name)) end) <$> u)).
    f_equal. apply list_fmap_ext. intros i [c| | |name] Hp; try done.
    apply list_elem_of_lookup_2 in Hp. destruct (defs !! name) as [d|] eqn:E; cbn; [by apply IH, (Hu name)|].
    destruct n; done.
Qed.

Definition lit (s : bytes) : list piece := Lit <$> s.

(** ROOT is /opt, CC is ${ROOT}/cc; the text is ${CC} -o $$x. *)
Definition defs_ex : gmap bytes (list piece) :=
  {[ bs "ROOT" := lit (bs "/opt"); bs "CC" := Ref (bs "ROOT") :: lit (bs "/cc") ]}.

(** Cases of membership in a concrete list. *)
Ltac inv_in H :=
  vm_compute in H;
  repeat (apply elem_of_cons in H as [H|H]; [first [discriminate H|injection H as ->]|]);
  try (apply elem_of_nil in H; destruct H).

Lemma ExpandString_template_witness :
  ExpandString (λ _, None) (bs "${CC} -o $$x") (print <$> defs_ex) = bs "/opt/cc -o $x".
Proof.
  refine (proj1 (ExpandString_template (λ _, None) defs_ex
    (Ref (bs "CC") :: lit (bs " -o ") ++ Dollar :: lit (bs "x")) _ _ _ _ _)).
  - vm_compute. discriminate.
  - intros name d Hd. apply (map_Forall_lookup_1 (λ _ d, Forall (piece_ok defs_ex) d) defs_ex name d); [|exact Hd].
    apply (bool_decide_unpack _). vm_compute. exact I.
  - apply (bool_decide_unpack _). vm_compute. exact I.
  - intros name d Hin Hd. inv_in Hin. vm_compute in Hd. injection Hd as <-.
    intros name d Hin Hd. inv_in Hin. vm_compute in Hd. injection Hd as <-.
    intros name d Hin Hd. inv_in Hin.
  - intros Hin. inv_in Hin.
Defined.
