(* ===== verification/ConfigOps.v ===== *)
(** * Configuration: operations (config/config.go)

    Expansion of variables, defaults, validation, overrides from the command
    line, and the merge of two configurations. *)
From stdpp Require Import list gmap.
From S2P Require Import Prelude GoStrings GoPath ConfigTypes ConfigVars.

(** What the package asks of the process and the system. *)
Record host := mk_host {
  GOARCH : bytes;
  Getwd : option bytes;
  UserHomeDir : option bytes;
  LookupEnv : bytes → option bytes;
  unicode_lower : bytes → bytes;
  unicode_upper : bytes → bytes }.

Definition is_ascii (s : bytes) : bool := forallb (λ c, c <? 128) s.

(** [strings.ToLower] and [strings.ToUpper]: letters of ASCII strings; other
    strings go through the tables of package unicode. *)
Definition ToLower (h : host) (s : bytes) : bytes :=
  if is_ascii s then map (λ c, if (65 <=? c) && (c <=? 90) then c + 32 else c) s else unicode_lower h s.
Definition ToUpper (h : host) (s : bytes) : bytes :=
  if is_ascii s then map (λ c, if (97 <=? c) && (c <=? 122) then c - 32 else c) s else unicode_upper h s.

(** ** Constants and errors *)
Definition supportedToolchains : list bytes :=
  [bs "auto"; bs "zig"; bs "fasm"; bs "nasm"; bs "gas"; bs "gcc"; bs "clang"; bs "ld"].

Definition IsolationNone : bytes := bs "none".
Definition IsolationStandard : bytes := bs "standard".
Definition IsolationStrict : bytes := bs "strict".
Definition CacheModeDisk : bytes := bs "disk".
Definition CacheModeRAM : bytes := bs "ram".
Definition CacheModeOff : bytes := bs "off".

Definition ErrorInvalidSourceConfig : string := "conflicting source configuration".
Definition ErrorInvalidMode : string := "invalid mode".
Definition ErrorInvalidProfile : string := "invalid profile".
Definition ErrorInvalidToolchain : string := "invalid toolchain".
Definition ErrorInvalidIsolation : string := "invalid isolation".
Definition ErrorInvalidCacheMode : string := "invalid cache_mode".
Definition ErrorBuildRuleActionRequired : string := "build rule action is required".
Definition ErrorBuildRuleOutputsRequired : string := "build rule outputs are required".
Definition ErrorDuplicateBuildRuleOutput : string := "duplicate build rule output".
Definition ErrorInvalidOverride : string := "invalid override".
Definition ErrorUnsupportedOverride : string := "unsupported config override".
Definition ErrorInvalidConfig : string := "invalid config".

Definition nonempty {A} (l : list A) : bool := negb (nilb l).
Definition among (s : bytes) (l : list bytes) : bool := bool_decide (s ∈ l).

(** An early return with an error. *)
Definition check (bad : bool) (e : string) : outcome unit := if bad then Err e else Ok tt.

(** ** Values of enumerations *)
Definition CacheMode_unmarshalValue (h : host) (value : bytes) : outcome bytes :=
  let s := ToLower h (TrimSpace value) in
  if among s [[]; bs "disk"] then Ok CacheModeDisk
  else if among s [bs "ram"] then Ok CacheModeRAM
  else if among s [bs "off"] then Ok CacheModeOff
  else Err ErrorInvalidCacheMode.

Definition IsolationMode_unmarshalValue (h : host) (value : bytes) : outcome bytes :=
  let s := ToLower h (TrimSpace value) in
  if among s [[]; bs "none"] then Ok IsolationNone
  else if among s [bs "standard"; bs "true"] then Ok IsolationStandard
  else if among s [bs "strict"] then Ok IsolationStrict
  else Err ErrorInvalidIsolation.

(** The YAML hooks, from what decoding the node as a string and as a boolean
    gives. *)
Definition CacheMode_UnmarshalYAML (h : host) (str : option bytes) : outcome bytes :=
  match str with Some s => CacheMode_unmarshalValue h s | None => Err "yaml" end.
Definition IsolationMode_UnmarshalYAML (h : host) (str : option bytes) (b : option bool) : outcome bytes :=
  match str, b with
  | Some s, _ => IsolationMode_unmarshalValue h s
  | None, Some true => Ok IsolationStandard
  | None, Some false => Ok IsolationNone
  | None, None => Err ErrorInvalidIsolation
  end.

Definition isSupportedTarget (h : host) (target : bytes) : bool :=
  let normalized := ToLower h (TrimSpace target) in
  if among normalized [[]; bs "native"; bs "host"] then false
  else
    let allowed :=
      if bool_decide (GOARCH h = bs "amd64") then [bs "amd64"; bs "x86_64"]
      else if bool_decide (GOARCH h = bs "arm64") then [bs "arm64"; bs "aarch64"]
      else if bool_decide (GOARCH h = bs "386") then [bs "386"; bs "i386"; bs "i686"; bs "x86"]
      else if bool_decide (GOARCH h = bs "arm") then [bs "arm"]
      else if bool_decide (GOARCH h = bs "riscv64") then [bs "riscv64"; bs "riscv"]
      else [GOARCH h] in
    among normalized allowed.

Definition IsValidToolchain (h : host) (name : bytes) : bool :=
  among (TrimSpace (ToLower h name)) supportedToolchains.

(** ** Expansion *)
Definition containsDollarSlice (l : list bytes) : bool := existsb containsDollar l.
Definition containsDollarMap (m : gmap bytes bytes) : bool := existsb (λ kv, containsDollar kv.2) (map_to_list m).

Definition rule_needs (r : BuildRule) : bool :=
  containsDollar (Rule_Action r) || containsDollar (Rule_Depfile r) ||
  containsDollarSlice (Rule_Inputs r) || containsDollarSlice (Rule_Outputs r).
Definition task_needs (t : Task) : bool :=
  containsDollar (Task_Command t) || containsDollar (Task_Stage t) ||
  containsDollarSlice (Task_Inputs t) || containsDollarSlice (Task_Outputs t).
Definition step_needs (s : BuildStep) : bool :=
  containsDollar (Step_Command s) || containsDollar (Step_Run s) ||
  containsDollarSlice (Step_Inputs s) || containsDollarSlice (Step_Outputs s) || containsDollarMap (Step_With s).

Definition needsExpand (c : Config) : bool :=
  bool_decide (Variables c ≠ ∅) ||
  existsb containsDollar [Name c; Profile c; Target c; Sysroot c; SourceDir c; SourceFile c; Output c; OutObj c;
    Mode c; Toolchain c; Linker c; Compiler_Path (Compiler c); IgnoreFile c] ||
  existsb containsDollarSlice [SourceDirs c; SourceFiles c; Exclude c; Include c; Scripts c; Libs c; AuditIgnore c;
    Flags_Asm (Flags c); Flags_Cc (Flags c); Flags_Ld (Flags c); Pre_Inputs (Preprocess c);
    Pre_Outputs (Preprocess c); Auto_BuildOrder (AutoBuild c); TS_SearchPriority (ToolchainSettings c);
    TS_EnvAllow (ToolchainSettings c); ISO_CustomArgs (ISO c)] ||
  existsb containsDollarMap [ToolChecksums c; TS_ToolPaths (ToolchainSettings c); Pre_Defines (Preprocess c);
    Dep_Environment (DepBuild c); Auto_DefaultEnvironment (AutoBuild c)] ||
  containsDollar (Hooks_OnFailure (Hooks c)) ||
  existsb (λ k, containsDollar (Hook_Cmd k)) (Hooks_PreBuild (Hooks c)) ||
  existsb rule_needs (BuildRules c) ||
  existsb task_needs (Tasks c) ||
  existsb step_needs (Dep_Steps (DepBuild c)) ||
  existsb (λ s, step_needs (Set_BuildStep s)) (Dep_StepSets (DepBuild c)) ||
  existsb containsDollar [ISO_SourceDir (ISO c); ISO_Output (ISO c); ISO_VolumeID (ISO c); ISO_BootImage (ISO c);
    ISO_BootCatalog (ISO c); ISO_BootLoadSize (ISO c)].

Section expand.
Context (h : host) (vars : gmap bytes bytes).
Local Abbreviation E s := (ExpandString (LookupEnv h) s vars).
Local Abbreviation ES l := (ExpandSlice (LookupEnv h) l vars).
Local Abbreviation EM m := (ExpandMap (LookupEnv h) m vars).

Definition expand_rule (r : BuildRule) : BuildRule :=
  mk_BuildRule (Rule_Name r) (E (Rule_Action r)) (ES (Rule_Inputs r)) (ES (Rule_Outputs r)) (E (Rule_Depfile r)).
Definition expand_task (t : Task) : Task :=
  mk_Task (Task_Name t) (E (Task_Stage t)) (E (Task_Command t)) (ES (Task_Inputs t)) (ES (Task_Outputs t)).
Definition expand_step (s : BuildStep) : BuildStep :=
  s <| Step_Command := E (Step_Command s) |> <| Step_Run := E (Step_Run s) |>
    <| Step_Inputs := ES (Step_Inputs s) |> <| Step_Outputs := ES (Step_Outputs s) |>
    <| Step_With := EM (Step_With s) |>.
Definition expand_hook (k : Hook) : Hook := mk_Hook (E (Hook_Cmd k)) (Hook_Critical k).

(** The assignments of [expand], with the variables given. *)
Definition expand_fields (c : Config) : Config := {|
  Name := E (Name c); Profile := E (Profile c); Target := E (Target c); Sysroot := E (Sysroot c);
  SourceDir := E (SourceDir c); SourceDirs := ES (SourceDirs c); SourceFiles := ES (SourceFiles c);
  SourceFile := E (SourceFile c); Output := E (Output c); OutObj := E (OutObj c); Mode := E (Mode c);
  Toolchain := E (Toolchain c); Linker := E (Linker c); Debug := Debug c; Verbose := Verbose c;
  KeepObj := KeepObj c; NoCache := NoCache c; CacheMode := CacheMode c; CacheRAMMB := CacheRAMMB c;
  OptimizationLevel := OptimizationLevel c; Compiler := mk_CompilerConfig (E (Compiler_Path (Compiler c)));
  CPUTarget := CPUTarget c; InstructionSets := InstructionSets c; Concurrency := Concurrency c;
  Exclude := ES (Exclude c); Include := ES (Include c); Scripts := ES (Scripts c); Libs := ES (Libs c);
  AutoBuildDeps := AutoBuildDeps c; ParseMakefile := ParseMakefile c; ConfigOnly := ConfigOnly c;
  IgnoreFile := E (IgnoreFile c); AuditIgnore := ES (AuditIgnore c); ToolChecksums := EM (ToolChecksums c);
  Variables := Variables c;
  Flags := mk_FlagsT (ES (Flags_Asm (Flags c))) (ES (Flags_Cc (Flags c))) (ES (Flags_Ld (Flags c)));
  Isolation := E (Isolation c); DeterministicStrip := DeterministicStrip c;
  ToolchainSettings := mk_ToolchainOpts (ES (TS_SearchPriority (ToolchainSettings c)))
    (ES (TS_EnvAllow (ToolchainSettings c))) (EM (TS_ToolPaths (ToolchainSettings c)));
  Preprocess := mk_PreprocessConfig (Pre_Enabled (Preprocess c)) (ES (Pre_Inputs (Preprocess c)))
    (ES (Pre_Outputs (Preprocess c))) (EM (Pre_Defines (Preprocess c)));
  Hooks := mk_HooksT (map expand_hook (Hooks_PreBuild (Hooks c))) (E (Hooks_OnFailure (Hooks c)));
  BuildRules := map expand_rule (BuildRules c); Tasks := map expand_task (Tasks c);
  ISO := (ISO c) <| ISO_SourceDir := E (ISO_SourceDir (ISO c)) |> <| ISO_Output := E (ISO_Output (ISO c)) |>
    <| ISO_VolumeID := E (ISO_VolumeID (ISO c)) |> <| ISO_BootImage := E (ISO_BootImage (ISO c)) |>
    <| ISO_BootCatalog := E (ISO_BootCatalog (ISO c)) |> <| ISO_BootLoadSize := E (ISO_BootLoadSize (ISO c)) |>
    <| ISO_CustomArgs := ES (ISO_CustomArgs (ISO c)) |>;
  DepBuild := (DepBuild c) <| Dep_Environment := EM (Dep_Environment (DepBuild c)) |>
    <| Dep_Steps := map expand_step (Dep_Steps (DepBuild c)) |>
    <| Dep_StepSets := map (λ s, mk_StepSet (Set_Name s) (expand_step (Set_BuildStep s))) (Dep_StepSets (DepBuild c)) |>;
  AutoBuild := (AutoBuild c) <| Auto_BuildOrder := ES (Auto_BuildOrder (AutoBuild c)) |>
    <| Auto_DefaultEnvironment := EM (Auto_DefaultEnvironment (AutoBuild c)) |> |}.
End expand.

(** The variables that [expand] adds when they are not defined. *)
Definition with_default (k : bytes) (v : option bytes) (m : gmap bytes bytes) : gmap bytes bytes :=
  match m !! k, v with
  | None, Some (x :: r) => <[k := x :: r]> m
  | _, _ => m
  end.

Definition expand_vars (h : host) (c : Config) : gmap bytes bytes :=
  with_default (bs "TARGET") (Some (Target c))
    (with_default (bs "HOME") (UserHomeDir h) (with_default (bs "PWD") (Getwd h) (Variables c))).

Definition expand (h : host) (c : Config) : Config :=
  if needsExpand c then
    let vars := expand_vars h c in
    expand_fields h vars (c <| Variables := vars |>)
  else c.

(** ** Defaults and validation *)
Definition or_default (s d : bytes) : bytes := if nilb s then d else s.

Definition fillDefaults (c : Config) : Config :=
  c <| Mode := or_default (Mode c) (bs "auto") |> <| Profile := or_default (Profile c) (bs "balanced") |>
    <| Toolchain := or_default (Toolchain c) (bs "auto") |> <| Isolation := or_default (Isolation c) IsolationNone |>
    <| IgnoreFile := or_default (IgnoreFile c) (bs ".fzignore") |>
    <| CacheMode := or_default (CacheMode c) CacheModeDisk |>.

(** The outputs of a rule or a task, added to those seen by their clean paths. *)
Fixpoint add_outputs (outputs : gset bytes) (outs : list bytes) : outcome (gset bytes) :=
  match outs with
  | [] => Ok outputs
  | out :: r =>
      let key := Clean out in
      if bool_decide (key ∈ outputs) then Err ErrorDuplicateBuildRuleOutput
      else add_outputs ({[key]} ∪ outputs) r
  end.

Fixpoint check_rules (outputs : gset bytes) (rules : list BuildRule) : outcome unit :=
  match rules with
  | [] => Ok tt
  | rule :: r =>
      check (nilb (Rule_Action rule)) ErrorBuildRuleActionRequired;;
      check (nilb (Rule_Outputs rule)) ErrorBuildRuleOutputsRequired;;
      outputs ← add_outputs outputs (Rule_Outputs rule);
      check_rules outputs r
  end.

Fixpoint check_tasks (outputs : gset bytes) (tasks : list Task) : outcome unit :=
  match tasks with
  | [] => Ok tt
  | task :: r =>
      check (nilb (Task_Command task)) ErrorInvalidConfig;;
      check (nilb (Task_Outputs task)) ErrorInvalidConfig;;
      outputs ← add_outputs outputs (Task_Outputs task);
      check_tasks outputs r
  end.

Definition has_blank (l : list bytes) : bool := existsb (λ s, nilb (TrimSpace s)) l.

Definition Validate (h : host) (c : Config) : outcome Config :=
  let c := fillDefaults c in
  check (nonempty (SourceDir c) && nonempty (SourceDirs c)) ErrorInvalidSourceConfig;;
  check (nonempty (Toolchain c) && negb (bool_decide (Toolchain c = bs "auto"))
         && nilb (TrimSpace (Compiler_Path (Compiler c)))) ErrorInvalidConfig;;
  check (nonempty (CPUTarget c) && (nilb (TrimSpace (CPUTarget c)) || negb (isSupportedTarget h (CPUTarget c))))
    ErrorInvalidConfig;;
  check (has_blank (InstructionSets c)) ErrorInvalidConfig;;
  check (Conc_Workers (Concurrency c) <? 0) ErrorInvalidConfig;;
  check (Conc_Pin (Concurrency c) && nilb (Conc_PinTo (Concurrency c))) ErrorInvalidConfig;;
  check (has_blank (Conc_PinTo (Concurrency c))) ErrorInvalidConfig;;
  check (nonempty (SourceFile c) && nonempty (SourceFiles c)) ErrorInvalidSourceConfig;;
  check (negb (among (Mode c) [bs "auto"; bs "c"; bs "raw"])) ErrorInvalidMode;;
  let c := c <| Profile := TrimSpace (ToLower h (Profile c)) |> in
  check (negb (among (Profile c) [bs "balanced"; bs "powered"; bs "performance"])) ErrorInvalidProfile;;
  let c := c <| Toolchain := TrimSpace (ToLower h (Toolchain c)) |> in
  check (negb (among (Toolchain c) supportedToolchains)) ErrorInvalidToolchain;;
  let c := c <| Target := TrimSpace (Target c) |> in
  check (negb (among (Isolation c) [IsolationNone; IsolationStandard; IsolationStrict])) ErrorInvalidIsolation;;
  check (negb (among (CacheMode c) [CacheModeDisk; CacheModeRAM; CacheModeOff; []])) ErrorInvalidCacheMode;;
  let c := if NoCache c then c <| CacheMode := CacheModeOff |> else c in
  check (CacheRAMMB c <? 0) ErrorInvalidOverride;;
  let c := c <| IgnoreFile := or_default (IgnoreFile c) (bs ".fzignore") |> in
  check_rules ∅ (BuildRules c);;
  check_tasks ∅ (Tasks c);;
  Ok c.

Definition IsStrictIsolation (c : Config) : bool := bool_decide (Isolation c = IsolationStrict).
