(* ===== verification/ConfigMerge.v ===== *)
(** * Configuration: merging and overrides (config/config.go)

    [Merge] lays one configuration over another, [MergeFromFlags] and
    [ApplySetOverrides] lay the command line over it; the values of a
    configuration are looked up by name in templates. *)
From stdpp Require Import list gmap.
From S2P Require Import Prelude GoStrings ConfigTypes ConfigVars ConfigOps.

(** ** Lists and maps *)
Fixpoint add_new (seen : gset bytes) (l : list bytes) : list bytes :=
  match l with
  | [] => []
  | v :: r => if bool_decide (v ∈ seen) then add_new seen r else v :: add_new ({[v]} ∪ seen) r
  end.

(** Both loops of [mergeStrings] go over one set of seen strings. *)
Definition mergeStrings (dst src : list bytes) : list bytes :=
  if nilb src then dst else if nilb dst then src else add_new ∅ (dst ++ src).

Definition nonempty_values (m : gmap bytes bytes) : gmap bytes bytes := filter (λ kv, kv.2 ≠ []) m.

Definition mergeStringMap (dst src : gmap bytes bytes) : gmap bytes bytes :=
  if bool_decide (src = ∅) then dst else nonempty_values src ∪ dst.

(** ** Merge *)

(** A value of the other configuration, when it is set. *)
Definition pick (mine other : bytes) : bytes := if nilb other then mine else other.
Definition pick_pos (mine other : Z) : Z := if 0 <? other then other else mine.

(** The statements of [Merge] about the four ways to name the sources. *)
Definition merge_sources (c other : Config) : Config :=
  let c :=
    if nonempty (SourceFile other) then
      c <| SourceFile := SourceFile other |> <| SourceDir := [] |> <| SourceDirs := [] |> <| SourceFiles := [] |>
    else c in
  let c :=
    if nonempty (SourceFiles other) then
      let c := if nonempty (SourceFile c) then c <| SourceFiles := mergeStrings (SourceFiles c) [SourceFile c] |> else c in
      c <| SourceDir := [] |> <| SourceFile := [] |> <| SourceFiles := mergeStrings (SourceFiles c) (SourceFiles other) |>
    else c in
  let c :=
    if nonempty (SourceDir other) then
      c <| SourceDir := SourceDir other |> <| SourceDirs := [] |> <| SourceFiles := [] |> <| SourceFile := [] |>
    else c in
  if nonempty (SourceDirs other) then
    let c := if nonempty (SourceDir c) then c <| SourceDirs := SourceDir c :: SourceDirs c |> else c in
    c <| SourceDir := [] |> <| SourceFile := [] |> <| SourceDirs := mergeStrings (SourceDirs c) (SourceDirs other) |>
  else c.

Definition merge_cache_mode (c other : Config) : bytes :=
  pick (if NoCache other then CacheModeOff else CacheMode c) (CacheMode other).

Definition mergeISO (c other : ISOConfig) : ISOConfig := {|
  ISO_Enabled := ISO_Enabled c || ISO_Enabled other;
  ISO_SourceDir := pick (ISO_SourceDir c) (ISO_SourceDir other);
  ISO_Output := pick (ISO_Output c) (ISO_Output other);
  ISO_VolumeID := pick (ISO_VolumeID c) (ISO_VolumeID other);
  ISO_BootImage := pick (ISO_BootImage c) (ISO_BootImage other);
  ISO_BootCatalog := pick (ISO_BootCatalog c) (ISO_BootCatalog other);
  ISO_BootLoadSize := pick (ISO_BootLoadSize c) (ISO_BootLoadSize other);
  ISO_NoEmulBoot := ISO_NoEmulBoot c || ISO_NoEmulBoot other;
  ISO_BootInfoTable := ISO_BootInfoTable c || ISO_BootInfoTable other;
  ISO_Joliet := ISO_Joliet c || ISO_Joliet other;
  ISO_RockRidge := ISO_RockRidge c || ISO_RockRidge other;
  ISO_Hybrid := ISO_Hybrid c || ISO_Hybrid other;
  ISO_CustomArgs := mergeStrings (ISO_CustomArgs c) (ISO_CustomArgs other) |}.

Definition mergeDepBuild (c other : DepBuildConfig) : DepBuildConfig := {|
  Dep_Enabled := Dep_Enabled c || Dep_Enabled other;
  Dep_SkipTests := Dep_SkipTests c || Dep_SkipTests other;
  Dep_BuildTargets := Dep_BuildTargets c ++ Dep_BuildTargets other;
  Dep_Outputs := Dep_Outputs c ++ Dep_Outputs other;
  Dep_Include := Dep_Include c ++ Dep_Include other;
  Dep_Environment := mergeStringMap (Dep_Environment c) (Dep_Environment other);
  Dep_PreBuild := Dep_PreBuild c ++ Dep_PreBuild other;
  Dep_PostBuild := Dep_PostBuild c ++ Dep_PostBuild other;
  Dep_StepSets := Dep_StepSets c ++ Dep_StepSets other;
  Dep_Steps := Dep_Steps c ++ Dep_Steps other;
  Dep_ExcludeFiles := Dep_ExcludeFiles c ++ Dep_ExcludeFiles other;
  Dep_OnlyFiles := Dep_OnlyFiles c ++ Dep_OnlyFiles other |}.

Definition mergeAutoBuild (c other : AutoBuildConfig) : AutoBuildConfig := {|
  Auto_Enabled := Auto_Enabled c || Auto_Enabled other;
  Auto_LogLevel := pick (Auto_LogLevel c) (Auto_LogLevel other);
  Auto_ContinueOnError := Auto_ContinueOnError c || Auto_ContinueOnError other;
  Auto_BuildOrder := mergeStrings (Auto_BuildOrder c) (Auto_BuildOrder other);
  Auto_DefaultSkipTests := Auto_DefaultSkipTests c || Auto_DefaultSkipTests other;
  Auto_DefaultEnvironment := mergeStringMap (Auto_DefaultEnvironment c) (Auto_DefaultEnvironment other) |}.

Definition Merge (c other : Config) : Config :=
  let src := merge_sources c other in {|
  Name := pick (Name c) (Name other);
  Profile := pick (Profile c) (Profile other);
  Target := pick (Target c) (Target other);
  Sysroot := pick (Sysroot c) (Sysroot other);
  SourceDir := SourceDir src; SourceDirs := SourceDirs src; SourceFiles := SourceFiles src; SourceFile := SourceFile src;
  Output := pick (Output c) (Output other);
  OutObj := pick (OutObj c) (OutObj other);
  Mode := pick (Mode c) (Mode other);
  Toolchain := pick (Toolchain c) (Toolchain other);
  Linker := pick (Linker c) (Linker other);
  Debug := Debug c || Debug other;
  Verbose := Verbose c || Verbose other;
  KeepObj := KeepObj c || KeepObj other;
  NoCache := NoCache c || NoCache other;
  CacheMode := merge_cache_mode c other;
  CacheRAMMB := pick_pos (CacheRAMMB c) (CacheRAMMB other);
  OptimizationLevel := pick_pos (OptimizationLevel c) (OptimizationLevel other);
  Compiler := mk_CompilerConfig (pick (Compiler_Path (Compiler c)) (Compiler_Path (Compiler other)));
  CPUTarget := pick (CPUTarget c) (CPUTarget other);
  InstructionSets := mergeStrings (InstructionSets c) (InstructionSets other);
  Concurrency := mk_ConcurrencyConfig
    (pick_pos (Conc_Workers (Concurrency c)) (Conc_Workers (Concurrency other)))
    (Conc_Pin (Concurrency c) || Conc_Pin (Concurrency other))
    (mergeStrings (Conc_PinTo (Concurrency c)) (Conc_PinTo (Concurrency other)));
  Exclude := mergeStrings (Exclude c) (Exclude other);
  Include := mergeStrings (Include c) (Include other);
  Scripts := mergeStrings (Scripts c) (Scripts other);
  Libs := mergeStrings (Libs c) (Libs other);
  AutoBuildDeps := AutoBuildDeps c || AutoBuildDeps other;
  ParseMakefile := ParseMakefile c || ParseMakefile other;
  ConfigOnly := ConfigOnly c || ConfigOnly other;
  IgnoreFile := pick (IgnoreFile c) (IgnoreFile other);
  AuditIgnore := mergeStrings (AuditIgnore c) (AuditIgnore other);
  ToolChecksums := ToolChecksums other ∪ ToolChecksums c;
  Variables := mergeStringMap (Variables c) (Variables other);
  Flags := mk_FlagsT (mergeStrings (Flags_Asm (Flags c)) (Flags_Asm (Flags other)))
    (mergeStrings (Flags_Cc (Flags c)) (Flags_Cc (Flags other)))
    (mergeStrings (Flags_Ld (Flags c)) (Flags_Ld (Flags other)));
  Isolation := pick (Isolation c) (Isolation other);
  DeterministicStrip := DeterministicStrip c || DeterministicStrip other;
  ToolchainSettings := mk_ToolchainOpts
    (mergeStrings (TS_SearchPriority (ToolchainSettings c)) (TS_SearchPriority (ToolchainSettings other)))
    (mergeStrings (TS_EnvAllow (ToolchainSettings c)) (TS_EnvAllow (ToolchainSettings other)))
    (nonempty_values (TS_ToolPaths (ToolchainSettings other)) ∪ TS_ToolPaths (ToolchainSettings c));
  Preprocess := mk_PreprocessConfig (Pre_Enabled (Preprocess c) || Pre_Enabled (Preprocess other))
    (mergeStrings (Pre_Inputs (Preprocess c)) (Pre_Inputs (Preprocess other)))
    (mergeStrings (Pre_Outputs (Preprocess c)) (Pre_Outputs (Preprocess other)))
    (mergeStringMap (Pre_Defines (Preprocess c)) (Pre_Defines (Preprocess other)));
  Hooks := mk_HooksT (Hooks_PreBuild (Hooks c) ++ Hooks_PreBuild (Hooks other))
    (pick (Hooks_OnFailure (Hooks c)) (Hooks_OnFailure (Hooks other)));
  BuildRules := BuildRules c ++ BuildRules other;
  Tasks := Tasks c ++ Tasks other;
  ISO := mergeISO (ISO c) (ISO other);
  DepBuild := mergeDepBuild (DepBuild c) (DepBuild other);
  AutoBuild := mergeAutoBuild (AutoBuild c) (AutoBuild other) |}.

(** ** The command line *)
Record flags := mk_flags {
  srcPath : bytes; dirPath : bytes; outBin : bytes; outObj : bytes; f_debug : bool; f_verbose : bool;
  f_keepObj : bool; f_noCache : bool; f_mode : bytes; f_toolchain : bytes; f_isolation : bytes }.

Definition MergeFromFlags (h : host) (f : flags) (c : Config) : Config :=
  let c := if nonempty (srcPath f) then
      c <| SourceFile := srcPath f |> <| SourceDir := [] |> <| SourceDirs := [] |> <| SourceFiles := [] |> else c in
  let c := if nonempty (dirPath f) then
      c <| SourceDir := dirPath f |> <| SourceDirs := [] |> <| SourceFiles := [] |> <| SourceFile := [] |> else c in
  let c := if nonempty (outBin f) then c <| Output := outBin f |> else c in
  let c := if nonempty (outObj f) then c <| OutObj := outObj f |> else c in
  let c := if f_debug f then c <| Debug := true |> else c in
  let c := if f_verbose f then c <| Verbose := true |> else c in
  let c := if f_keepObj f then c <| KeepObj := true |> else c in
  let c := if f_noCache f then c <| NoCache := true |> else c in
  let c := if nonempty (f_mode f) && negb (among (f_mode f) [bs "auto"]) then c <| Mode := f_mode f |> else c in
  let c := if nonempty (f_toolchain f) && negb (among (f_toolchain f) [bs "auto"]) then c <| Toolchain := f_toolchain f |> else c in
  if nonempty (f_isolation f) then
    if among (f_isolation f) [bs "none"; bs "standard"; bs "strict"] then c <| Isolation := ToLower h (f_isolation f) |>
    else c <| Isolation := IsolationNone |>
  else c.

Definition is_separator (r : Z) : bool := (r =? 44) || (r =? 32) || (r =? 9) || (r =? 10) || (r =? 13).

(** [strings.FieldsFunc]. *)
Fixpoint fields_func (f : Z → bool) (cur s : bytes) : list bytes :=
  match s with
  | [] => if nilb cur then [] else [cur]
  | c :: r =>
      if f c then if nilb cur then fields_func f [] r else cur :: fields_func f [] r
      else fields_func f (cur ++ [c]) r
  end.

Definition splitOverrideList (value : bytes) : list bytes :=
  let trimmed := TrimSpace value in
  if nilb trimmed then [] else filter (λ part, nonempty part = true) (fields_func is_separator [] trimmed).

Definition ParseBool (s : bytes) : option bool :=
  if among s [bs "1"; bs "t"; bs "T"; bs "TRUE"; bs "true"; bs "True"] then Some true
  else if among s [bs "0"; bs "f"; bs "F"; bs "FALSE"; bs "false"; bs "False"] then Some false
  else None.

Definition set_bool (f : bool → Config → Config) (value : bytes) (c : Config) : outcome Config :=
  match ParseBool value with Some b => Ok (f b c) | None => Err ErrorInvalidOverride end.
Definition set_int (f : Z → Config → Config) (value : bytes) (c : Config) : outcome Config :=
  let '(n, ok) := Atoi value in if ok then Ok (f n c) else Err ErrorInvalidOverride.
Definition set_list (f : list bytes → Config → Config) (value : bytes) (c : Config) : outcome Config :=
  Ok (f (splitOverrideList value) c).
Definition set_string (f : bytes → Config → Config) (value : bytes) (c : Config) : outcome Config := Ok (f value c).

(** The cases of the switch on the lower-case key. *)
Definition override_table (h : host) : list (bytes * (bytes → Config → outcome Config)) := [
  (bs "name", set_string (λ v c, c <| Name := v |>));
  (bs "profile", set_string (λ v c, c <| Profile := v |>));
  (bs "target", set_string (λ v c, c <| Target := v |>));
  (bs "sysroot", set_string (λ v c, c <| Sysroot := v |>));
  (bs "source_dir", set_string (λ v c, c <| SourceDir := v |> <| SourceDirs := [] |> <| SourceFiles := [] |> <| SourceFile := [] |>));
  (bs "source_dirs", set_list (λ l c, c <| SourceDirs := l |> <| SourceDir := [] |> <| SourceFiles := [] |> <| SourceFile := [] |>));
  (bs "source_file", set_string (λ v c, c <| SourceFile := v |> <| SourceDirs := [] |> <| SourceDir := [] |> <| SourceFiles := [] |>));
  (bs "source_files", set_list (λ l c, c <| SourceFiles := l |> <| SourceFile := [] |> <| SourceDirs := [] |> <| SourceDir := [] |>));
  (bs "output", set_string (λ v c, c <| Output := v |>));
  (bs "out_obj", set_string (λ v c, c <| OutObj := v |>));
  (bs "mode", set_string (λ v c, c <| Mode := v |>));
  (bs "toolchain", set_string (λ v c, c <| Toolchain := v |>));
  (bs "debug", set_bool (λ b c, c <| Debug := b |>));
  (bs "verbose", set_bool (λ b c, c <| Verbose := b |>));
  (bs "keep_obj", set_bool (λ b c, c <| KeepObj := b |>));
  (bs "no_cache", set_bool (λ b c, c <| NoCache := b |>));
  (bs "optimization_level", set_int (λ n c, c <| OptimizationLevel := n |>));
  (bs "opt_level", set_int (λ n c, c <| OptimizationLevel := n |>));
  (bs "cache_mode", λ v c, m ← CacheMode_unmarshalValue h v; Ok (c <| CacheMode := m |>));
  (bs "cache_ram_mb", set_int (λ n c, c <| CacheRAMMB := n |>));
  (bs "isolation", λ v c, m ← IsolationMode_unmarshalValue h v; Ok (c <| Isolation := m |>));
  (bs "compiler.path", set_string (λ v c, c <| Compiler := mk_CompilerConfig v |>));
  (bs "cpu_target", set_string (λ v c, c <| CPUTarget := v |>));
  (bs "instruction_sets", set_list (λ l c, c <| InstructionSets := l |>));
  (bs "concurrency.workers", set_int (λ n c, c <| Concurrency := (Concurrency c) <| Conc_Workers := n |> |>));
  (bs "concurrency.pin", set_bool (λ b c, c <| Concurrency := (Concurrency c) <| Conc_Pin := b |> |>));
  (bs "concurrency.pin_to", set_list (λ l c, c <| Concurrency := (Concurrency c) <| Conc_PinTo := l |> |>));
  (bs "ignore_file", set_string (λ v c, c <| IgnoreFile := v |>));
  (bs "exclude", set_list (λ l c, c <| Exclude := l |>));
  (bs "include", set_list (λ l c, c <| Include := l |>));
  (bs "scripts", set_list (λ l c, c <| Scripts := l |>));
  (bs "libs", set_list (λ l c, c <| Libs := l |>));
  (bs "audit_ignore", set_list (λ l c, c <| AuditIgnore := l |>));
  (bs "flags.asm", set_list (λ l c, c <| Flags := (Flags c) <| Flags_Asm := l |> |>));
  (bs "flags.cc", set_list (λ l c, c <| Flags := (Flags c) <| Flags_Cc := l |> |>));
  (bs "flags.ld", set_list (λ l c, c <| Flags := (Flags c) <| Flags_Ld := l |> |>)) ].

Definition override_toolchain (nested value : bytes) (c : Config) : outcome Config :=
  let t := ToolchainSettings c in
  if among nested [bs "search_priority"] then
    Ok (c <| ToolchainSettings := t <| TS_SearchPriority := splitOverrideList value |> |>)
  else if among nested [bs "env_allow"] then
    Ok (c <| ToolchainSettings := t <| TS_EnvAllow := splitOverrideList value |> |>)
  else if HasPrefix nested (bs "tool_paths.") then
    Ok (c <| ToolchainSettings := t <| TS_ToolPaths := <[TrimPrefix nested (bs "tool_paths.") := value]> (TS_ToolPaths t) |> |>)
  else Err ErrorUnsupportedOverride.

Definition override_iso (nested value : bytes) (c : Config) : outcome Config :=
  if among nested [bs "enabled"] then set_bool (λ b c, c <| ISO := (ISO c) <| ISO_Enabled := b |> |>) value c
  else if among nested [bs "output"] then Ok (c <| ISO := (ISO c) <| ISO_Output := value |> |>)
  else Err ErrorUnsupportedOverride.

(** One override: a trimmed key and value. *)
Definition apply_override (h : host) (key value : bytes) (c : Config) : outcome Config :=
  if HasPrefix key (bs "variables.") then
    Ok (c <| Variables := <[TrimPrefix key (bs "variables.") := value]> (Variables c) |>)
  else if HasPrefix key (bs "toolchain_opts.") then override_toolchain (TrimPrefix key (bs "toolchain_opts.")) value c
  else if HasPrefix key (bs "hooks.") then
    if among (TrimPrefix key (bs "hooks.")) [bs "on_failure"] then
      Ok (c <| Hooks := (Hooks c) <| Hooks_OnFailure := value |> |>)
    else Err ErrorUnsupportedOverride
  else if HasPrefix key (bs "iso.") then override_iso (TrimPrefix key (bs "iso.")) value c
  else
    match find (λ kf, bool_decide (kf.1 = ToLower h key)) (override_table h) with
    | Some (_, f) => f value c
    | None => Err ErrorUnsupportedOverride
    end.

(** [strings.Cut(entry, sep)]. *)
Definition Cut_equals (entry : bytes) : option (bytes * bytes) :=
  match span (λ c, negb (c =? 61)) entry with
  | (key, _ :: value) => Some (key, value)
  | (_, []) => None
  end.

Fixpoint ApplySetOverrides (h : host) (overrides : list bytes) (c : Config) : outcome Config :=
  match overrides with
  | [] => Ok c
  | raw :: r =>
      let entry := TrimSpace raw in
      if nilb entry then ApplySetOverrides h r c
      else
        match Cut_equals entry with
        | None => Err ErrorInvalidOverride
        | Some (key, value) =>
            c ← apply_override h (TrimSpace key) (TrimSpace value) c;
            ApplySetOverrides h r c
        end
  end.

(** ** Templates *)
Definition FormatBool (b : bool) : bytes := if b then bs "true" else bs "false".
Definition FormatInt (n : Z) : bytes := if n <? 0 then 45 :: Itoa (- n) else Itoa n.

Definition lookup_table (c : Config) : list (bytes * bytes) := [
  (bs "NAME", Name c); (bs "PROFILE", Profile c); (bs "TARGET", Target c); (bs "SYSROOT", Sysroot c);
  (bs "SOURCE_DIR", SourceDir c); (bs "SOURCE_FILE", SourceFile c); (bs "OUTPUT", Output c); (bs "OUT_OBJ", OutObj c);
  (bs "MODE", Mode c); (bs "TOOLCHAIN", Toolchain c); (bs "DEBUG", FormatBool (Debug c));
  (bs "VERBOSE", FormatBool (Verbose c)); (bs "KEEP_OBJ", FormatBool (KeepObj c));
  (bs "NO_CACHE", FormatBool (NoCache c)); (bs "CACHE_MODE", CacheMode c);
  (bs "OPTIMIZATION_LEVEL", FormatInt (OptimizationLevel c)); (bs "ISOLATION", Isolation c);
  (bs "IGNORE_FILE", IgnoreFile c) ].

Definition lookupConfigValue (h : host) (c : Config) (name : bytes) : option bytes :=
  match find (λ kv, bool_decide (kv.1 = ToUpper h name)) (lookup_table c) with
  | Some (_, v) => Some v
  | None =>
      match Variables c !! name with
      | Some v => Some v
      | None =>
          match Variables c !! ToUpper h name with
          | Some v => Some v
          | None => Variables c !! ToLower h name
          end
      end
  end.

(** The matches of [\$\{([A-Za-z0-9_]+)\}] from the left, each replaced. *)
Fixpoint expand_template_from (fuel : nat) (h : host) (c : Config) (s : bytes) : bytes :=
  match fuel, s with
  | O, _ | _, [] => s
  | S k, x :: r =>
      match (x =? ch "$"), r with
      | true, y :: r' =>
          match (y =? ch "{"), span isAlphaNum r' with
          | true, (_ :: _ as name, z :: rest) =>
              if z =? ch "}" then
                let token := bs "${" ++ name ++ bs "}" in
                match lookupConfigValue h c name with
                | Some value => value
                | None => default token (LookupEnv h name)
                end ++ expand_template_from k h c rest
              else x :: expand_template_from k h c r
          | _, _ => x :: expand_template_from k h c r
          end
      | _, _ => x :: expand_template_from k h c r
      end
  end.

Definition expandConfigTemplate (h : host) (content : bytes) (c : Config) : bytes :=
  expand_template_from (length content) h c content.
