(* ===== verification/ConfigFacts.v ===== *)
(** * Configuration: what validation, expansion, merging and overrides do

    Valid configurations are the fixed points of [Validate]; the sources stay
    in one form through merges and the command line; the test that skips the
    expansion does not change its result; merged fields are the last that are
    set. *)
From stdpp Require Import list gmap.
From S2P Require Import Prelude GoStrings GoPath ConfigTypes ConfigVars ConfigOps ConfigMerge.

(** ** Checks *)
Lemma check_Ok {A} b e (m : outcome A) x : (check b e;; m) = Ok x ↔ b = false ∧ m = Ok x.
Proof. unfold check. destruct b; cbn; [split; [done|intros [? _]; done]|]. tauto. Qed.

Lemma among_spec s l : among s l = true ↔ s ∈ l.
Proof. apply bool_decide_eq_true. Qed.

Lemma not_among s l : negb (among s l) = false ↔ s ∈ l.
Proof. by rewrite negb_false_iff, among_spec. Qed.

Lemma nilb_true {A} (l : list A) : nilb l = true ↔ l = [].
Proof. by destruct l. Qed.

Lemma nonempty_false {A} (l : list A) : nonempty l = false ↔ l = [].
Proof. by destruct l. Qed.

Lemma both_nonempty {A B} (l : list A) (k : list B) : nonempty l && nonempty k = false ↔ l = [] ∨ k = [].
Proof. by rewrite andb_false_iff, !nonempty_false. Qed.

(** ** Outputs of rules and tasks *)
Section outputs.
Context {A : Type} (pre : A → outcome unit) (outs : A → list bytes).

Fixpoint check_unique (outputs : gset bytes) (l : list A) : outcome unit :=
  match l with
  | [] => Ok tt
  | a :: r => pre a;; outputs ← add_outputs outputs (outs a); check_unique outputs r
  end.

(** The clean paths of all outputs. *)
Definition output_keys (l : list A) : list bytes := concat (map (λ a, map Clean (outs a)) l).

Definition fresh (s : gset bytes) (keys : list bytes) : Prop := NoDup keys ∧ ∀ k, k ∈ keys → k ∉ s.

Lemma add_outputs_cases s l :
  add_outputs s l = Ok (list_to_set (map Clean l) ∪ s) ∧ fresh s (map Clean l) ∨
  (∃ e, add_outputs s l = Err e) ∧ ¬ fresh s (map Clean l).
Proof.
  unfold fresh. revert s. induction l as [|o l IH]; intros s; cbn [add_outputs map list_to_set].
  - left. split_and!; [f_equal; set_solver|constructor|set_solver].
  - case_bool_decide as E.
    + right. split; [by eexists|]. intros [_ H]. apply (H (Clean o)); set_solver.
    + rewrite NoDup_cons. destruct (IH ({[Clean o]} ∪ s)) as [(H & H1 & H2)|[H H1]].
      * left. rewrite H. split_and!; [f_equal; set_solver| |done|].
        -- intros Hk. apply (H2 _ Hk). set_solver.
        -- intros k [-> |Hk]%elem_of_cons; [done|]. specialize (H2 k Hk). set_solver.
      * right. split; [done|]. intros ([H2 H3] & H4). apply H1. split; [done|]. intros k Hk. specialize (H4 k). set_solver.
Qed.

Lemma fresh_app s k l : fresh s (k ++ l) ↔ fresh s k ∧ fresh (list_to_set k ∪ s) l.
Proof.
  unfold fresh. rewrite NoDup_app. setoid_rewrite not_elem_of_union. setoid_rewrite elem_of_list_to_set. set_solver.
Qed.

Lemma check_unique_Ok s l :
  check_unique s l = Ok tt ↔ Forall (λ a, pre a = Ok tt) l ∧ fresh s (output_keys l).
Proof.
  revert s. induction l as [|a l IH]; intros s; cbn [check_unique].
  - split; [|done]. intros _. split; [constructor|]. split; [constructor|set_solver].
  - rewrite Forall_cons. change (output_keys (a :: l)) with (map Clean (outs a) ++ output_keys l). rewrite fresh_app.
    destruct (pre a) as [[]|e| |] eqn:E; cbn [mbind outcome_bind]; [|split; [done|by intros [[? _] _]]..].
    destruct (add_outputs_cases s (outs a)) as [[-> H]|[[e ->] H]]; cbn [mbind outcome_bind]; [rewrite IH; tauto|].
    split; [done|tauto].
Qed.
End outputs.

Definition rule_ok (r : BuildRule) : outcome unit :=
  check (nilb (Rule_Action r)) ErrorBuildRuleActionRequired;; check (nilb (Rule_Outputs r)) ErrorBuildRuleOutputsRequired;; Ok tt.
Definition task_ok (t : Task) : outcome unit :=
  check (nilb (Task_Command t)) ErrorInvalidConfig;; check (nilb (Task_Outputs t)) ErrorInvalidConfig;; Ok tt.

Lemma check_rules_unique s l : check_rules s l = check_unique rule_ok Rule_Outputs s l.
Proof.
  revert s. induction l as [|r l IH]; intros s; [done|]. cbn [check_rules check_unique]. unfold rule_ok, check.
  destruct (nilb (Rule_Action r)), (nilb (Rule_Outputs r)); cbn; try done.
  destruct (add_outputs s (Rule_Outputs r)); cbn; auto.
Qed.

Lemma check_tasks_unique s l : check_tasks s l = check_unique task_ok Task_Outputs s l.
Proof.
  revert s. induction l as [|r l IH]; intros s; [done|]. cbn [check_tasks check_unique]. unfold task_ok, check.
  destruct (nilb (Task_Command r)), (nilb (Task_Outputs r)); cbn; try done.
  destruct (add_outputs s (Task_Outputs r)); cbn; auto.
Qed.

Lemma check_rules_Ok l :
  check_rules ∅ l = Ok tt ↔
  Forall (λ r, Rule_Action r ≠ [] ∧ Rule_Outputs r ≠ []) l ∧ NoDup (output_keys Rule_Outputs l).
Proof.
  rewrite check_rules_unique, check_unique_Ok. unfold fresh.
  assert (∀ r, rule_ok r = Ok tt ↔ Rule_Action r ≠ [] ∧ Rule_Outputs r ≠ []) as Hr.
  { intros r. unfold rule_ok. rewrite !check_Ok. destruct (Rule_Action r), (Rule_Outputs r); cbn; intuition (congruence || done). }
  rewrite (Forall_iff _ _ _ Hr). set_solver.
Qed.

Lemma check_tasks_Ok l :
  check_tasks ∅ l = Ok tt ↔
  Forall (λ t, Task_Command t ≠ [] ∧ Task_Outputs t ≠ []) l ∧ NoDup (output_keys Task_Outputs l).
Proof.
  rewrite check_tasks_unique, check_unique_Ok. unfold fresh.
  assert (∀ r, task_ok r = Ok tt ↔ Task_Command r ≠ [] ∧ Task_Outputs r ≠ []) as Hr.
  { intros r. unfold task_ok. rewrite !check_Ok. destruct (Task_Command r), (Task_Outputs r); cbn; intuition (congruence || done). }
  rewrite (Forall_iff _ _ _ Hr). set_solver.
Qed.

(** ** Validation *)

(** No entry is blank. *)
Definition all_named (l : list bytes) : Prop := Forall (λ s, TrimSpace s ≠ []) l.

Lemma has_blank_false l : has_blank l = false ↔ all_named l.
Proof.
  unfold has_blank, all_named. induction l as [|s l IH]; [split; [constructor|done]|]. cbn [existsb].
  rewrite orb_false_iff, Forall_cons, IH. destruct (TrimSpace s); cbn; split; intros [? ?]; done.
Qed.

(** The type of a configuration that a build may rely on. *)
Record valid (h : host) (c : Config) : Prop := {
  v_dirs : SourceDir c = [] ∨ SourceDirs c = [];
  v_files : SourceFile c = [] ∨ SourceFiles c = [];
  v_mode : Mode c ∈ [bs "auto"; bs "c"; bs "raw"];
  v_profile : Profile c ∈ [bs "balanced"; bs "powered"; bs "performance"];
  v_toolchain : Toolchain c ∈ supportedToolchains;
  v_compiler : Toolchain c = bs "auto" ∨ TrimSpace (Compiler_Path (Compiler c)) ≠ [];
  v_target : TrimSpace (Target c) = Target c;
  v_cpu : CPUTarget c = [] ∨ TrimSpace (CPUTarget c) ≠ [] ∧ isSupportedTarget h (CPUTarget c) = true;
  v_sets : all_named (InstructionSets c);
  v_workers : 0 ≤ Conc_Workers (Concurrency c);
  v_pin : Conc_Pin (Concurrency c) = true → Conc_PinTo (Concurrency c) ≠ [];
  v_pins : all_named (Conc_PinTo (Concurrency c));
  v_isolation : Isolation c ∈ [IsolationNone; IsolationStandard; IsolationStrict];
  v_cache : CacheMode c ∈ [CacheModeDisk; CacheModeRAM; CacheModeOff];
  v_no_cache : NoCache c = true → CacheMode c = CacheModeOff;
  v_ram : 0 ≤ CacheRAMMB c;
  v_ignore : IgnoreFile c ≠ [];
  v_rules : Forall (λ r, Rule_Action r ≠ [] ∧ Rule_Outputs r ≠ []) (BuildRules c) ∧ NoDup (output_keys Rule_Outputs (BuildRules c));
  v_tasks : Forall (λ t, Task_Command t ≠ [] ∧ Task_Outputs t ≠ []) (Tasks c) ∧ NoDup (output_keys Task_Outputs (Tasks c)) }.

Lemma or_default_nonempty s d : d ≠ [] → or_default s d ≠ [].
Proof. unfold or_default. by destruct s. Qed.

Lemma or_default_id s d : s ≠ [] → or_default s d = s.
Proof. unfold or_default. by destruct s. Qed.

(** The fields that [Validate] sets, from the ones it is given. *)
Definition normalize (h : host) (c : Config) : Config :=
  let d := fillDefaults c in
  d <| Profile := TrimSpace (ToLower h (Profile d)) |> <| Toolchain := TrimSpace (ToLower h (Toolchain d)) |>
    <| Target := TrimSpace (Target d) |> <| CacheMode := if NoCache c then CacheModeOff else CacheMode d |>.

#[local] Arguments TrimSpace : simpl never.
#[local] Arguments or_default : simpl never.
#[local] Arguments among : simpl never.

Lemma config_eta c : eta_Config c = c.
Proof. by destruct c. Qed.

(** Equality of configurations field by field. *)
Ltac by_fields :=
  match goal with |- ?a = ?b => refine (eq_trans (eq_sym (config_eta a)) (eq_trans _ (config_eta b))) end;
  unfold eta_Config; cbn.

(** What the checks ask of the configuration as it is given. *)
Definition checked (h : host) (c : Config) : Prop :=
  (SourceDir c = [] ∨ SourceDirs c = []) ∧
  (or_default (Toolchain c) (bs "auto") = bs "auto" ∨ TrimSpace (Compiler_Path (Compiler c)) ≠ []) ∧
  (CPUTarget c = [] ∨ TrimSpace (CPUTarget c) ≠ [] ∧ isSupportedTarget h (CPUTarget c) = true) ∧
  all_named (InstructionSets c) ∧
  0 ≤ Conc_Workers (Concurrency c) ∧
  (Conc_Pin (Concurrency c) = true → Conc_PinTo (Concurrency c) ≠ []) ∧
  all_named (Conc_PinTo (Concurrency c)) ∧
  (SourceFile c = [] ∨ SourceFiles c = []) ∧
  or_default (Mode c) (bs "auto") ∈ [bs "auto"; bs "c"; bs "raw"] ∧
  TrimSpace (ToLower h (or_default (Profile c) (bs "balanced"))) ∈ [bs "balanced"; bs "powered"; bs "performance"] ∧
  TrimSpace (ToLower h (or_default (Toolchain c) (bs "auto"))) ∈ supportedToolchains ∧
  or_default (Isolation c) IsolationNone ∈ [IsolationNone; IsolationStandard; IsolationStrict] ∧
  or_default (CacheMode c) CacheModeDisk ∈ [CacheModeDisk; CacheModeRAM; CacheModeOff; []] ∧
  0 ≤ CacheRAMMB c ∧
  check_rules ∅ (BuildRules c) = Ok tt ∧
  check_tasks ∅ (Tasks c) = Ok tt.

Lemma toolchain_check t p :
  nonempty (or_default t (bs "auto")) && negb (bool_decide (or_default t (bs "auto") = bs "auto")) && nilb (TrimSpace p) = false ↔
  or_default t (bs "auto") = bs "auto" ∨ TrimSpace p ≠ [].
Proof.
  assert (nonempty (or_default t (bs "auto")) = true) as -> by by destruct t.
  rewrite andb_false_iff. cbn [andb]. rewrite negb_false_iff, bool_decide_eq_true. f_equiv. by destruct (TrimSpace p).
Qed.

Lemma cpu_check h t :
  nonempty t && (nilb (TrimSpace t) || negb (isSupportedTarget h t)) = false ↔
  t = [] ∨ TrimSpace t ≠ [] ∧ isSupportedTarget h t = true.
Proof.
  rewrite andb_false_iff, nonempty_false, orb_false_iff, negb_false_iff. f_equiv. f_equiv. by destruct (TrimSpace t).
Qed.

Lemma pin_check b (l : list bytes) : b && nilb l = false ↔ (b = true → l ≠ []).
Proof. destruct b, l; cbn; naive_solver. Qed.

Lemma check_step {A} b e (m : outcome A) x (P R E : Prop) :
  (b = false ↔ P) → (m = Ok x ↔ R ∧ E) → (check b e;; m) = Ok x ↔ (P ∧ R) ∧ E.
Proof. intros H1 H2. rewrite check_Ok, H1, H2. tauto. Qed.

Lemma unit_step {A} (m : outcome unit) (k : outcome A) x (R E : Prop) :
  (k = Ok x ↔ R ∧ E) → (m;; k) = Ok x ↔ (m = Ok tt ∧ R) ∧ E.
Proof. intros H. destruct m as [[]|e| |]; cbn; naive_solver. Qed.

Lemma last_step {A} (m : outcome unit) (a x : A) : (m;; Ok a) = Ok x ↔ m = Ok tt ∧ x = a.
Proof. destruct m as [[]|e| |]; cbn; naive_solver. Qed.

(** The assignments of [Validate], one after the other. *)
Lemma normalize_steps h c :
  (let c := fillDefaults c in
   let c := c <| Profile := TrimSpace (ToLower h (Profile c)) |> in
   let c := c <| Toolchain := TrimSpace (ToLower h (Toolchain c)) |> in
   let c := c <| Target := TrimSpace (Target c) |> in
   let c := if NoCache c then c <| CacheMode := CacheModeOff |> else c in
   c <| IgnoreFile := or_default (IgnoreFile c) (bs ".fzignore") |>) = normalize h c.
Proof.
  cbv zeta. unfold normalize. by_fields.
  destruct (NoCache c) eqn:En; cbn; f_equal; solve [done|by apply or_default_id, or_default_nonempty].
Qed.

Ltac name_let d :=
  match goal with |- (let x := ?v in @?f x) = ?r ↔ ?q => set (d := v); change (f d = r ↔ q); cbv beta end.

Lemma Validate_spec h c c' : Validate h c = Ok c' ↔ checked h c ∧ c' = normalize h c.
Proof.
  unfold checked. rewrite <- (normalize_steps h c). cbv delta [Validate]. cbv beta. name_let c1.
  apply check_step; [apply both_nonempty|].
  apply check_step; [apply toolchain_check|].
  apply check_step; [apply cpu_check|].
  apply check_step; [apply has_blank_false|].
  apply check_step; [apply Z.ltb_ge|].
  apply check_step; [apply pin_check|].
  apply check_step; [apply has_blank_false|].
  apply check_step; [apply both_nonempty|].
  apply check_step; [apply not_among|]. name_let c2.
  apply check_step; [apply not_among|]. name_let c3.
  apply check_step; [apply not_among|]. name_let c4.
  apply check_step; [apply not_among|].
  apply check_step; [apply not_among|]. name_let c5.
  assert (∀ (A : Type) (f : Config → A), (∀ v, f (c4 <| CacheMode := v |>) = f c4) → f c5 = f c4) as E5
    by (intros A f Hf; unfold c5; destruct (NoCache c4); auto).
  assert (CacheRAMMB c5 = CacheRAMMB c) as -> by exact (E5 _ CacheRAMMB (λ _, eq_refl)).
  apply check_step; [apply Z.ltb_ge|]. name_let c6.
  assert (BuildRules c6 = BuildRules c) as -> by exact (E5 _ BuildRules (λ _, eq_refl)).
  assert (Tasks c6 = Tasks c) as -> by exact (E5 _ Tasks (λ _, eq_refl)).
  apply unit_step, last_step.
Qed.

Lemma listed_lower h l s :
  Forall (λ t, TrimSpace (ToLower h t) = t) l → s ∈ l → TrimSpace (ToLower h s) = s.
Proof. rewrite Forall_forall. auto. Qed.

Lemma profiles_lower h : Forall (λ t, TrimSpace (ToLower h t) = t) [bs "balanced"; bs "powered"; bs "performance"].
Proof. repeat constructor. Qed.

Lemma toolchains_lower h : Forall (λ t, TrimSpace (ToLower h t) = t) supportedToolchains.
Proof. repeat constructor. Qed.

Lemma listed_default (l : list bytes) s d : [] ∉ l → s ∈ l → or_default s d = s.
Proof. intros H Hs. apply or_default_id. by intros ->. Qed.

(** A valid configuration is taken as it is. *)
Lemma valid_checked h c : valid h c → checked h c ∧ normalize h c = c.
Proof.
  intros [H1 H2 H3 H4 H5 H6 H7 H8 H9 H10 H11 H12 H13 H14 H15 H16 H17 H18 H19].
  assert (or_default (Toolchain c) (bs "auto") = Toolchain c) as Et by (eapply listed_default, H5; set_solver).
  assert (or_default (Profile c) (bs "balanced") = Profile c) as Ep by (eapply listed_default, H4; set_solver).
  assert (or_default (Mode c) (bs "auto") = Mode c) as Em by (eapply listed_default, H3; set_solver).
  assert (or_default (Isolation c) IsolationNone = Isolation c) as Ei by (eapply listed_default, H13; set_solver).
  assert (or_default (CacheMode c) CacheModeDisk = CacheMode c) as Ec by (eapply listed_default, H14; set_solver).
  pose proof (listed_lower h _ _ (profiles_lower h) H4) as Lp.
  pose proof (listed_lower h _ _ (toolchains_lower h) H5) as Lt.
  split.
  - unfold checked. rewrite Et, Ep, Em, Ei, Ec, Lp, Lt, check_rules_Ok, check_tasks_Ok. split_and!; try done; try apply H18; try apply H19.
    clear -H14. rewrite !elem_of_cons in *. tauto.
  - assert (or_default (IgnoreFile c) (bs ".fzignore") = IgnoreFile c) as Eg by by apply or_default_id.
    assert ((if NoCache c then CacheModeOff else CacheMode c) = CacheMode c) as En
      by (destruct (NoCache c); [symmetry; auto|done]).
    unfold normalize. by_fields. rewrite Et, Ep, Em, Ei, Ec, Eg, Lp, Lt, H7, En. reflexivity.
Qed.

Lemma normalize_valid h c : checked h c → valid h (normalize h c).
Proof.
  unfold checked. rewrite check_rules_Ok, check_tasks_Ok.
  intros (H1 & H2 & H3 & H4 & H5 & H6 & H7 & H8 & H9 & H10 & H11 & H12 & H13 & H14 & H15 & H16). unfold normalize.
  split; cbn; try done.
  - destruct H2 as [-> |H2]; [left; by vm_compute|by right].
  - apply TrimSpace_idem.
  - rewrite !elem_of_cons in *. destruct (NoCache c); [by auto|]. clear -H13. destruct H13 as [H|[H|[H|[H|H]]]]; [by auto..| |by apply elem_of_nil in H].
    by destruct (or_default_nonempty (CacheMode c) CacheModeDisk).
  - by intros ->.
  - by apply or_default_nonempty.
Qed.

Lemma Validate_sound h c c' : Validate h c = Ok c' → valid h c'.
Proof. intros [H ->]%Validate_spec. by apply normalize_valid. Qed.

(** C26 Validation: a configuration that passes [Validate] satisfies every
    constraint of [valid] (one form of sources, modes and names from their
    lists, paths of tools, non-negative numbers, no blank entry, outputs
    distinct as clean paths), and the valid configurations are exactly those
    that [Validate] accepts and leaves as they are. *)
Theorem Validate_valid h c :
  (∀ c', Validate h c = Ok c' → valid h c') ∧ (valid h c ↔ Validate h c = Ok c).
Proof.
  split; [apply Validate_sound|]. split; [|apply Validate_sound]. intros H. apply Validate_spec. destruct (valid_checked h c H). done.
Qed.

(** A host and a configuration for the witnesses. *)
Definition host1 : host :=
  mk_host (bs "amd64") (Some (bs "/w")) (Some (bs "/home/u")) (λ k, if decide (k = bs "CC") then Some (bs "cc") else None)
    (λ s, s) (λ s, s).
Definition config1 : Config :=
  zero_Config <| Toolchain := bs " GCC " |> <| Compiler := mk_CompilerConfig (bs "/usr/bin/gcc") |>
    <| SourceDir := bs "src" |> <| NoCache := true |> <| CPUTarget := bs "x86_64" |> <| Target := bs " elf64" |>
    <| BuildRules := [mk_BuildRule [] (bs "make a") [] [bs "a/../a"] []; mk_BuildRule [] (bs "make b") [] [bs "b"] []] |>.

Lemma Validate_valid_witness :
  ∃ c', Validate host1 config1 = Ok c' ∧ valid host1 c' ∧ Toolchain c' = bs "gcc" ∧ CacheMode c' = bs "off".
Proof.
  eexists. split; [vm_compute; reflexivity|]. split; [|done].
  refine (proj1 (Validate_valid host1 config1) _ _). vm_compute. reflexivity.
Defined.

(** ** The form of the sources *)

(** The sources are named in one way: not both as one directory and a list of
    directories, nor both as one file and a list of files. *)
Definition one_form (c : Config) : Prop :=
  (SourceDir c = [] ∨ SourceDirs c = []) ∧ (SourceFile c = [] ∨ SourceFiles c = []).

(** Goes through the assignments of a handler one at a time; what holds in
    between need not be in one form. *)
Ltac solve_form :=
  match goal with
  | |- one_form (let x := ?v in @?f x) =>
      change (one_form (f v));
      first [let H := fresh in assert (one_form v) as H by solve_form; revert H; generalize v; intros ? ?
            |generalize v; intros ?];
      cbv beta; solve_form
  | |- one_form (if ?b then _ else _) => destruct b; solve_form
  | |- _ => first [assumption|split; first [by left|by right]]
  end.

(** Every step of the merge of the sources leaves one form. *)
Lemma merge_sources_form c other : one_form c → one_form (merge_sources c other).
Proof. intros H. cbv beta delta [merge_sources]. solve_form. Qed.

Lemma MergeFromFlags_form h f c : one_form c → one_form (MergeFromFlags h f c).
Proof. intros H. cbv beta delta [MergeFromFlags]. solve_form. Qed.

(** ** Overrides *)
Definition keeps_form (f : bytes → Config → outcome Config) : Prop :=
  ∀ v c c', one_form c → f v c = Ok c' → one_form c'.

Lemma keeps_string f : (∀ v c, one_form c → one_form (f v c)) → keeps_form (set_string f).
Proof. intros H v c c' Hc [= <-]. by apply H. Qed.
Lemma keeps_list f : (∀ v c, one_form c → one_form (f v c)) → keeps_form (set_list f).
Proof. intros H v c c' Hc [= <-]. by apply H. Qed.
Lemma keeps_bool f : (∀ v c, one_form c → one_form (f v c)) → keeps_form (set_bool f).
Proof. intros H v c c' Hc. unfold set_bool. destruct (ParseBool v); [|done]. intros [= <-]. by apply H. Qed.
Lemma keeps_int f : (∀ v c, one_form c → one_form (f v c)) → keeps_form (set_int f).
Proof. intros H v c c' Hc. unfold set_int. destruct (Atoi v) as [n [|]]; [|done]. intros [= <-]. by apply H. Qed.
Lemma keeps_value (m : bytes → outcome bytes) (f : bytes → Config → Config) : (∀ v c, one_form c → one_form (f v c)) →
  keeps_form (λ v c, x ← m v; Ok (f x c)).
Proof. intros H v c c' Hc. destruct (m v); cbn; [|done..]. intros [= <-]. by apply H. Qed.

Lemma override_table_form h : Forall (λ kf, keeps_form kf.2) (override_table h).
Proof.
  unfold override_table.
  repeat (apply Forall_cons; split; [cbn [snd]; first
    [apply keeps_string|apply keeps_list|apply keeps_bool|apply keeps_int|apply keeps_value]; intros v c Hc; solve_form|]).
  constructor.
Qed.

Lemma override_form h key value c c' : one_form c → apply_override h key value c = Ok c' → one_form c'.
Proof.
  intros Hc. unfold apply_override, override_toolchain, override_iso. cbv zeta.
  repeat match goal with
  | |- (if ?b then _ else _) = _ → _ => destruct b
  | |- Ok _ = Ok _ → _ => intros [= <-]; solve_form
  | |- Err _ = Ok _ → _ => done
  | |- set_bool _ _ _ = _ → _ => apply keeps_bool; [intros; solve_form|done]
  end.
  destruct (List.find _ _) as [[k f]|] eqn:E; [|done]. apply find_some in E as [Hin _].
  pose proof (override_table_form h) as Hf. rewrite Forall_forall in Hf. apply (Hf (k, f)); [|done].
  by apply list_elem_of_In.
Qed.

Lemma ApplySetOverrides_form h l c c' : one_form c → ApplySetOverrides h l c = Ok c' → one_form c'.
Proof.
  revert c. induction l as [|raw l IH]; intros c Hc; cbn [ApplySetOverrides]; [by intros [= <-]|].
  cbv zeta. destruct (nilb _); [by apply IH|]. destruct (Cut_equals _) as [[k v]|]; [|done].
  destruct (apply_override h _ _ c) as [c1|e| |] eqn:E; cbn; [|done..]. apply IH. by eapply override_form.
Qed.

(** A computation that reports no conflict of sources. *)
Definition no_conflict {A} (m : outcome A) : Prop := m ≠ Err ErrorInvalidSourceConfig.

Lemma no_conflict_check {A} b e (m : outcome A) :
  b = false ∨ e ≠ ErrorInvalidSourceConfig → no_conflict m → no_conflict (check b e;; m).
Proof. unfold no_conflict, check. destruct b; cbn; [|done]. intros [?|H] _; [done|congruence]. Qed.

Lemma no_conflict_bind {A B} (m : outcome A) (k : A → outcome B) :
  no_conflict m → (∀ a, no_conflict (k a)) → no_conflict (m ≫= k).
Proof. unfold no_conflict. destruct m; cbn; [by auto|congruence|done..]. Qed.

Lemma no_conflict_unique {A} (pre : A → outcome unit) outs s l :
  (∀ a, no_conflict (pre a)) → no_conflict (check_unique pre outs s l).
Proof.
  intros H. revert s. induction l as [|a l IH]; intros s; [done|]. apply no_conflict_bind; [apply H|intros _].
  apply no_conflict_bind; [|done]. generalize (outs a). intros o. revert s. induction o as [|x o IHo]; intros s; [done|].
  cbn [add_outputs]. case_bool_decide; [done|]. apply IHo.
Qed.

Lemma Validate_no_conflict h c : one_form c → no_conflict (Validate h c).
Proof.
  intros [H1 H2]. cbv delta [Validate]. cbv beta.
  repeat match goal with
  | |- no_conflict (let x := ?v in @?f x) => let d := fresh "d" in set (d := v); change (no_conflict (f d)); cbv beta
  | |- no_conflict (check _ ErrorInvalidSourceConfig;; _) => apply no_conflict_check; [left; by apply both_nonempty|]
  | |- no_conflict (check _ _;; _) => apply no_conflict_check; [right; discriminate|]
  end.
  apply no_conflict_bind; [|intros _; apply no_conflict_bind; [|done]].
  - rewrite check_rules_unique. apply no_conflict_unique. intros r. unfold rule_ok.
    by do 2 (apply no_conflict_check; [by right|]).
  - rewrite check_tasks_unique. apply no_conflict_unique. intros r. unfold task_ok.
    by do 2 (apply no_conflict_check; [by right|]).
Qed.

(** The sources stay in one form: a merge with any configuration, the
    command line's flags and its overrides keep a configuration from naming
    both a directory and a list of directories, or a file and a list of files;
    so none of them makes [Validate] fail with a source conflict. *)
Theorem sources_one_form h c :
  one_form c →
  (∀ other, one_form (Merge c other)) ∧ (∀ f, one_form (MergeFromFlags h f c)) ∧
  (∀ overrides c', ApplySetOverrides h overrides c = Ok c' → one_form c') ∧
  Validate h c ≠ Err ErrorInvalidSourceConfig.
Proof.
  intros H. split_and!.
  - intros other. apply (merge_sources_form c other H).
  - intros f. by apply MergeFromFlags_form.
  - intros l c'. by apply ApplySetOverrides_form.
  - by apply Validate_no_conflict.
Qed.

Lemma sources_one_form_witness :
  let c := zero_Config <| SourceDirs := [bs "a"; bs "b"] |> in
  let other := zero_Config <| SourceDir := bs "src" |> in
  one_form (Merge c other) ∧ SourceDirs (Merge c other) = [] ∧
  ApplySetOverrides host1 [bs "source_file = main.c"; bs "source_files = x.c, y.c"] c =
    Ok (zero_Config <| SourceFiles := [bs "x.c"; bs "y.c"] |>).
Proof.
  intros c other. split_and!; [|done|vm_compute; reflexivity].
  refine (proj1 (sources_one_form host1 c _) other). split; by left.
Defined.

(** ** Expansion *)
Lemma map_plain {A} (f : A → A) (need : A → bool) l :
  (∀ a, need a = false → f a = a) → existsb need l = false → map f l = l.
Proof.
  intros Hf. induction l as [|a l IH]; [done|]. cbn [existsb map]. intros [H1 H2]%orb_false_iff. by rewrite Hf, IH.
Qed.

Section shortcut.
Context (h : host) (vars : gmap bytes bytes).

Lemma expand_slice_plain l : containsDollarSlice l = false → ExpandSlice (LookupEnv h) l vars = l.
Proof.
  unfold containsDollarSlice, ExpandSlice. intros H. destruct (bool_decide _ || _); [done|].
  apply (map_plain _ containsDollar); [|done]. intros s. apply ExpandString_plain.
Qed.

Lemma expand_map_plain m : containsDollarMap m = false → ExpandMap (LookupEnv h) m vars = m.
Proof.
  unfold containsDollarMap, ExpandMap. intros H. destruct (bool_decide _ || _); [done|]. rewrite <- (map_fmap_id m) at 2. apply map_fmap_ext.
  intros k v Hkv. apply ExpandString_plain. apply not_true_iff_false. intros Hd.
  apply not_true_iff_false in H. apply H, existsb_exists. exists (k, v). split; [|done].
  by apply list_elem_of_In, elem_of_map_to_list.
Qed.

#[local] Arguments ExpandString : simpl never.
#[local] Arguments ExpandSlice : simpl never.
#[local] Arguments ExpandMap : simpl never.
#[local] Arguments containsDollar : simpl never.
#[local] Arguments containsDollarSlice : simpl never.
#[local] Arguments containsDollarMap : simpl never.

Lemma expand_rule_plain r : rule_needs r = false → expand_rule h vars r = r.
Proof.
  destruct r. unfold rule_needs, expand_rule. cbn. intros [[[? ?]%orb_false_iff ?]%orb_false_iff ?]%orb_false_iff.
  by rewrite !ExpandString_plain, !expand_slice_plain.
Qed.

Lemma expand_task_plain t : task_needs t = false → expand_task h vars t = t.
Proof.
  destruct t. unfold task_needs, expand_task. cbn. intros [[[? ?]%orb_false_iff ?]%orb_false_iff ?]%orb_false_iff.
  by rewrite !ExpandString_plain, !expand_slice_plain.
Qed.

Lemma expand_step_plain s : step_needs s = false → expand_step h vars s = s.
Proof.
  destruct s. unfold step_needs, expand_step. cbn.
  intros [[[[? ?]%orb_false_iff ?]%orb_false_iff ?]%orb_false_iff ?]%orb_false_iff.
  by rewrite !ExpandString_plain, !expand_slice_plain, expand_map_plain.
Qed.

Lemma expand_hook_plain k : containsDollar (Hook_Cmd k) = false → expand_hook h vars k = k.
Proof. destruct k. unfold expand_hook. cbn. intros H. by rewrite ExpandString_plain. Qed.

Lemma existsb_false {A} (f : A → bool) l : existsb f l = false ↔ Forall (λ a, f a = false) l.
Proof.
  induction l as [|a l IH]; [split; [constructor|done]|]. cbn. by rewrite orb_false_iff, Forall_cons, IH.
Qed.

(** Without a dollar in it, no field changes. *)
Lemma expand_fields_plain c :
  needsExpand c = false → containsDollar (Isolation c) = false → expand_fields h vars c = c.
Proof.
  unfold needsExpand. intros H Hiso. repeat (let K := fresh "K" in apply orb_false_iff in H as [H K]).
  rewrite !(existsb_false containsDollar), !(existsb_false containsDollarSlice), !(existsb_false containsDollarMap) in *.
  repeat match goal with H : Forall _ (_ :: _) |- _ => apply Forall_cons in H as [? H] | H : Forall _ [] |- _ => clear H end.
  refine (eq_trans _ (config_eta c)). unfold eta_Config, expand_fields.
  assert (map (λ s, mk_StepSet (Set_Name s) (expand_step h vars (Set_BuildStep s))) (Dep_StepSets (DepBuild c)) = Dep_StepSets (DepBuild c)) as Hss.
  { apply (map_plain _ (λ s, step_needs (Set_BuildStep s))); [|done]. intros [n s]. cbn. intros Hs. by rewrite expand_step_plain. }
  rewrite Hss, (map_plain _ _ _ expand_rule_plain), (map_plain _ _ _ expand_task_plain),
    (map_plain _ _ _ expand_step_plain), (map_plain _ _ _ expand_hook_plain) by assumption.
  rewrite !ExpandString_plain, !expand_slice_plain, !expand_map_plain by assumption.
  f_equal; first [reflexivity|by destruct (Compiler c)|by destruct (Flags c)|by destruct (ToolchainSettings c)
    |by destruct (Preprocess c)|by destruct (Hooks c)|by destruct (ISO c)|by destruct (DepBuild c)|by destruct (AutoBuild c)].
Qed.
End shortcut.

(** The test that skips the expansion is exact: when [needsExpand] finds no
    dollar, going through every field with any host and any variables changes
    nothing, so [expand] is the expansion of all fields, apart from the default
    variables it then does not add. The hypothesis on [Isolation] is needed:
    the test leaves this field out. *)
Theorem expand_skips_safely h c :
  containsDollar (Isolation c) = false →
  (needsExpand c = false → ∀ vars, expand_fields h vars c = c) ∧
  expand_fields h (expand_vars h c) (c <| Variables := expand_vars h c |>) = (expand h c) <| Variables := expand_vars h c |>.
Proof.
  intros Hiso. split; [intros; by apply expand_fields_plain|]. unfold expand. cbv zeta. destruct (needsExpand c) eqn:E.
  - by_fields. reflexivity.
  - assert (∀ m, expand_fields h m (c <| Variables := m |>) = (expand_fields h m c) <| Variables := m |>) as -> by done.
    by rewrite expand_fields_plain.
Qed.

Lemma expand_skips_safely_witness :
  let c := zero_Config <| Name := bs "app" |> <| Target := bs "elf" |> in
  expand_fields host1 {[ bs "X" := bs "y" ]} c = c ∧
  expand host1 (c <| Isolation := bs "$X" |>) = c <| Isolation := bs "$X" |> ∧
  Isolation (expand_fields host1 {[ bs "X" := bs "y" ]} (c <| Isolation := bs "$X" |>)) = bs "y".
Proof.
  intros c. split_and!; [|vm_compute; reflexivity..].
  refine (proj1 (expand_skips_safely host1 c _) _ _); vm_compute; reflexivity.
Defined.
