(* ===== verification/ConfigLoad.v ===== *)
(** * Configuration: loading (config/config.go, config/parse_cache.go, config/fzp.go)

    A configuration file is decoded, its includes are merged under it, its
    variables are expanded and it is validated; results are cached in memory
    and beside the file. The files found by default are loaded each by a
    goroutine and merged. *)
From stdpp Require Import list gmap strings.
From S2P Require Import Prelude GoStrings GoPath FzpExpr FzpScan FzpProcess ConfigTypes ConfigVars ConfigOps ConfigMerge.

Definition ErrorFileStat : string := "cannot stat config file".
Definition ErrorFileRead : string := "cannot read config file".
Definition ErrorParseTOML : string := "cannot parse TOML".
Definition ErrorParseYAML : string := "cannot parse YAML".
Definition ErrorCyclicInclude : string := "cyclic config include".
Definition ErrorIncludeRead : string := "cannot read included config file".
Definition ErrorMissingSource : string := "missing source".

(** ** Paths *)

(** [filepath.Ext]: from the last dot of the last element. *)
Fixpoint ext_from (rest seen : bytes) : bytes :=
  match rest with
  | [] => []
  | x :: r => if x =? slash then [] else if x =? ch "." then x :: seen else ext_from r (x :: seen)
  end.
Definition filepath_Ext (path : bytes) : bytes := ext_from (rev path) [].

Definition isConfigFilePath (h : host) (path : bytes) : bool :=
  among (ToLower h (filepath_Ext path)) [bs ".toml"; bs ".yaml"; bs ".yml"].
Definition isTOMLPath (h : host) (path : bytes) : bool := among (ToLower h (filepath_Ext path)) [bs ".toml"].
Definition isFZPPath (h : host) (path : bytes) : bool := among (ToLower h (filepath_Ext path)) [bs ".fz"; bs ".fzp"].

Definition toml_exts : list bytes := [bs ".toml"; bs ".TOML"; bs ".Toml"; bs ".tOmL"].
Definition yaml_exts : list bytes := [bs ".yaml"; bs ".yml"; bs ".YAML"; bs ".YML"].

(** The absolute path of a file: its key in the caches and among the includes. *)
Definition config_cacheKey (h : host) (path : bytes) : bytes :=
  if IsAbs path then path else match Abs (Getwd h) path with Some a => a | None => Clean path end.

(** ** Files and decoders *)
Record file := mk_file { f_mtime : Z; f_readable : bool; f_data : bytes }.

(** The files by the path that names them, and the decoders of the libraries:
    a decoder fills a configuration as far as it gets and says if it got to
    the end. *)
Record site := mk_site {
  on_disk : gmap bytes file;
  can_write : bytes → bool;
  unmarshalTOML : bytes → Config → bool * Config;
  unmarshalYAML : bytes → Config → bool * Config;
  gob_encode : Config → option bytes;
  gob_decode : bytes → option Config }.

Definition read_file (w : site) (path : bytes) : option bytes :=
  f ← on_disk w !! path; if f_readable f then Some (f_data f) else None.
Definition stat_ok (w : site) (path : bytes) : bool := bool_decide (is_Some (on_disk w !! path)).

Definition depBuildMarker : bytes := bs "[dep_build]".

Definition loadYAML (w : site) (data : bytes) (cfg : Config) : bool * Config := unmarshalYAML w data cfg.
Definition loadTOML (w : site) (data : bytes) (cfg : Config) : bool * Config :=
  let '(ok, cfg) := unmarshalTOML w data cfg in
  if ok && negb (contains_bytes depBuildMarker data) then
    (ok, cfg <| DepBuild := (DepBuild cfg) <| Dep_Enabled := true |> |>)
  else (ok, cfg).

(** The decoder goes by the spelling of the extension; another extension is
    tried as TOML and then as YAML, over what the first attempt has filled. *)
Definition decode_config (w : site) (path data : bytes) (cfg : Config) : outcome Config :=
  let ext := filepath_Ext path in
  if among ext toml_exts then
    let '(ok, cfg) := loadTOML w data cfg in if ok then Ok cfg else Err ErrorParseTOML
  else if among ext yaml_exts then
    let '(ok, cfg) := loadYAML w data cfg in if ok then Ok cfg else Err ErrorParseYAML
  else
    let '(ok, cfg) := loadTOML w data cfg in
    if ok then Ok cfg
    else let '(ok, cfg) := loadYAML w data cfg in if ok then Ok cfg else Err ErrorParseTOML.

(** ** Includes *)

(** The included configurations and the other includes, trimmed. *)
Definition config_includes (h : host) (cfg : Config) : list bytes :=
  filter (λ i, isConfigFilePath h i = true) (filter (λ i, i ≠ []) (map TrimSpace (Include cfg))).
Definition build_includes (h : host) (cfg : Config) : list bytes :=
  filter (λ i, isConfigFilePath h i = false) (filter (λ i, i ≠ []) (map TrimSpace (Include cfg))).

Definition child_path (abs includePath : bytes) : bytes :=
  if IsAbs includePath then includePath else filepath_Join (Dir abs) includePath.

(** The loop over the includes, with the load of an included file given. *)
Fixpoint merge_includes (load : bytes → outcome Config) (abs : bytes) (includes : list bytes) (merged : Config) : outcome Config :=
  match includes with
  | [] => Ok merged
  | i :: r => child ← load (child_path abs i); merge_includes load abs r (Merge merged child)
  end.

(** The paths on the way from the root of the includes are in [seen]. The fuel
    bounds the depth of includes. *)
Fixpoint loadConfigData (fuel : nat) (h : host) (w : site) (path data : bytes) (cfg : Config) (seen : gset bytes) : outcome Config :=
  match fuel with
  | O => Diverge
  | S n =>
      cfg ← decode_config w path data cfg;
      let abs := config_cacheKey h path in
      check (bool_decide (abs ∈ seen)) ErrorCyclicInclude;;
      if nilb (config_includes h cfg) then Ok cfg
      else
        let load p :=
          match read_file w p with
          | None => Err ErrorIncludeRead
          | Some data => loadConfigData n h w p data zero_Config ({[abs]} ∪ seen)
          end in
        merged ← merge_includes load abs (config_includes h cfg) zero_Config;
        Ok (Merge merged (cfg <| Include := build_includes h cfg |>))
  end.

(** One level for each file and one for the first is enough. *)
Definition include_fuel (w : site) : nat := S (S (size (on_disk w))).

(** ** Load *)
Abbreviation finish h cfg := (Validate h (expand h cfg)).

(** What is done when nothing is cached. *)
Definition parse_config (h : host) (w : site) (path data : bytes) : outcome Config :=
  cfg ← loadConfigData (include_fuel w) h w path data zero_Config ∅;
  finish h cfg.

Record cacheEntry := mk_entry { modTime : Z; size_ : Z; e_cfg : Config }.

(** The cache in memory, and the cache files. *)
Record caches := mk_caches { configCache : gmap bytes cacheEntry; cache_files : gmap bytes bytes }.

Definition configDiskCacheMagic : bytes := bs "FZCFG1" ++ [0; 0].

Definition loadDiskConfigCache (h : host) (w : site) (s : caches) (path : bytes) (mtime sz : Z) : option Config :=
  data ← cache_files s !! (config_cacheKey h path ++ bs ".fzcfg");
  if (length data <? 24)%nat || negb (bool_decide (take 8 data = configDiskCacheMagic)) then None
  else if negb (swrap 64 (le_val (take 8 (drop 8 data))) =? mtime) || negb (swrap 64 (le_val (take 8 (drop 16 data))) =? sz) then None
  else gob_decode w (drop 24 data).

Definition loadConfigCache (h : host) (w : site) (s : caches) (path : bytes) (mtime sz : Z) : option Config :=
  match configCache s !! config_cacheKey h path with
  | Some e => if (size_ e =? sz) && (modTime e =? mtime) then Some (e_cfg e) else loadDiskConfigCache h w s path mtime sz
  | None => loadDiskConfigCache h w s path mtime sz
  end.

Definition storeDiskConfigCache (h : host) (w : site) (s : caches) (path : bytes) (mtime sz : Z) (cfg : Config) : caches :=
  if nonempty (Include cfg) || bool_decide (Variables cfg ≠ ∅) then s
  else
    match gob_encode w cfg with
    | None => s
    | Some payload =>
        let cachePath := config_cacheKey h path ++ bs ".fzcfg" in
        let data := configDiskCacheMagic ++ le_bytes 8 mtime ++ le_bytes 8 sz ++ payload in
        if can_write w cachePath then mk_caches (configCache s) (<[cachePath := data]> (cache_files s)) else s
    end.

Definition storeConfigCache (h : host) (w : site) (s : caches) (path : bytes) (mtime sz : Z) (cfg : Config) : caches :=
  let s := mk_caches (<[config_cacheKey h path := mk_entry mtime sz cfg]> (configCache s)) (cache_files s) in
  storeDiskConfigCache h w s path mtime sz cfg.

Definition Load (h : host) (w : site) (path : bytes) (s : caches) : outcome Config * caches :=
  match on_disk w !! path with
  | None => (Err ErrorFileStat, s)
  | Some f =>
      match loadConfigCache h w s path (f_mtime f) (Zlen (f_data f)) with
      | Some cfg => (Ok cfg, s)
      | None =>
          match read_file w path with
          | None => (Err ErrorFileRead, s)
          | Some data =>
              match parse_config h w path data with
              | Ok cfg => (Ok cfg, storeConfigCache h w s path (f_mtime f) (Zlen (f_data f)) cfg)
              | r => (r, s)
              end
          end
      end
  end.

Definition clearConfigCache (s : caches) : caches := mk_caches ∅ (cache_files s).

(** The file that is written, and its contents. *)
Definition GenerateConfigH (h : host) (w : site) (templatePath outputPath : bytes) (cfg : Config) : outcome (bytes * bytes) :=
  match read_file w templatePath with
  | None => Err "cannot read template"
  | Some data => if can_write w outputPath then Ok (outputPath, expandConfigTemplate h data cfg) else Err "cannot write header"
  end.

(** ** The default files *)
Definition first_existing (w : site) (paths : list bytes) : bytes := default [] (List.find (stat_ok w) paths).

Definition system_paths : list bytes :=
  [bs "/etc/github.com/forgezero-cli/ForgeZero/config.toml"; bs "/etc/fz.toml"; bs "/etc/fz.toml";
   bs "/etc/github.com/forgezero-cli/ForgeZero/config.yaml"; bs "/etc/fz.yaml"; bs "/etc/fz.yaml"].
Definition user_paths (home : bytes) : list bytes :=
  map (filepath_Join home)
    [bs ".config/fz/config.toml"; bs ".fz.toml"; bs ".config/fz/config.toml"; bs ".fz.toml";
     bs ".config/fz/config.yaml"; bs ".fz.yaml"; bs ".config/fz/config.yaml"; bs ".fz.yaml"].
Definition local_paths : list bytes :=
  [bs ".fz.toml"; bs "fz.toml"; bs ".fz.toml"; bs "fz.toml"; bs ".fz.yaml"; bs "fz.yaml"; bs ".fz.yaml"; bs "fz.yaml";
   bs ".fz.yml"; bs "fz.yml"; bs ".fz.yml"; bs "fz.yml"].

(** The system's, the user's and the local file; empty when there is none. *)
Definition FindConfigs (h : host) (w : site) : bytes * bytes * bytes :=
  (first_existing w system_paths,
   match UserHomeDir h with Some home => first_existing w (user_paths home) | None => [] end,
   first_existing w local_paths).

Definition Getenv (h : host) (name : bytes) : bytes := default [] (LookupEnv h name).

Definition env_config_path (h : host) : bytes :=
  if nonempty (Getenv h (bs "FZ_CONFIG_PATH")) then Getenv h (bs "FZ_CONFIG_PATH") else Getenv h (bs "FZ_CONFIG").

Definition DefaultConfigPath (h : host) (w : site) : bytes :=
  if nonempty (env_config_path h) then env_config_path h else (FindConfigs h w).2.

Definition default_paths (h : host) (w : site) : list bytes :=
  let '(system, user, local) := FindConfigs h w in filter (λ p, p ≠ []) [system; user; local].

(** What the goroutines have sent: the results in their slots, the errors. *)
Record gathered := mk_gathered { results : list (option Config); errs : list string; after : caches }.

(** The goroutines, in the order in which their loads end. *)
Fixpoint gather (h : host) (w : site) (paths : list bytes) (arrivals : list nat) (g : gathered) : outcome gathered :=
  match arrivals with
  | [] => Ok g
  | idx :: r =>
      match Load h w (paths !!! idx) (after g) with
      | (Ok cfg, s) => gather h w paths r (mk_gathered (<[idx := Some cfg]> (results g)) (errs g) s)
      | (Err e, s) => gather h w paths r (mk_gathered (results g) (errs g ++ [e]) s)
      | (Panic, _) => Panic
      | (Diverge, _) => Diverge
      end
  end.

Definition merge_results (results : list (option Config)) : Config :=
  fold_left (λ cfg r, match r with Some loaded => Merge cfg loaded | None => cfg end) results zero_Config.

Definition newline : string := String (Ascii.ascii_of_nat 10) EmptyString.

Definition LoadMerged (h : host) (w : site) (explicitPath : bytes) (arrivals : list nat) (s : caches) : outcome Config * caches :=
  let explicitPath := if nilb explicitPath then env_config_path h else explicitPath in
  if nonempty explicitPath then
    match Load h w explicitPath s with
    | (Ok explicitCfg, s) => (finish h (Merge zero_Config explicitCfg), s)
    | r => r
    end
  else
    let paths := default_paths h w in
    if nilb paths then (finish h zero_Config, s)
    else
      match gather h w paths arrivals (mk_gathered (replicate (length paths) None) [] s) with
      | Ok g =>
          if nonempty (errs g) then (Err (String.concat newline (errs g)), after g)
          else (finish h (merge_results (results g)), after g)
      | Err e => (Err e, s)
      | Panic => (Panic, s)
      | Diverge => (Diverge, s)
      end.

(** ** FZP configurations *)

(** [strings.EqualFold] with an ASCII string: letters are equal up to case,
    and the long s and the Kelvin sign count as s and k. *)
Fixpoint fold_from (skip : nat) (s : bytes) : bytes :=
  match s with
  | [] => []
  | x :: r =>
      match skip with
      | S k => fold_from k r
      | O =>
          if HasPrefix s [0xC5; 0xBF] then ch "s" :: fold_from 1 r
          else if HasPrefix s [0xE2; 0x84; 0xAA] then ch "k" :: fold_from 2 r
          else (if (65 <=? x) && (x <=? 90) then x + 32 else x) :: fold_from 0 r
      end
  end.
Definition EqualFold_ascii (s t : bytes) : bool := bool_decide (fold_from 0 s = fold_from 0 t).

Definition set_fzp (cfg : Config) (kv : bytes * bytes) : Config :=
  if EqualFold_ascii kv.1 (bs "OUTPUT") then cfg <| Output := kv.2 |>
  else if EqualFold_ascii kv.1 (bs "MODE") then cfg <| Mode := kv.2 |>
  else if EqualFold_ascii kv.1 (bs "SOURCE_DIR") then cfg <| SourceDir := kv.2 |>
  else cfg.

(** The definitions of the file as it is written are taken, in the order
    [order] of the map; preprocessing it only has to succeed. *)
Definition LoadFZP (h : host) (w : world) (fuel : nat) (order : gmap bytes bytes → list (bytes * bytes)) (path : bytes) : outcome Config :=
  if nilb path then Ok zero_Config
  else if negb (file_exists w path) then Err "cannot stat fzp config"
  else
    match ReadFile w path with
    | None => Err "cannot read fzp config"
    | Some data =>
        (Process fuel w path ∅ (NewProcessor w (Dir path) [] ∅ false)).1;;
        finish h (fold_left set_fzp (order (ParseDefinitions data)) zero_Config)
    end.

Fixpoint merge_fzp (h : host) (w : world) (fuel : nat) (order : gmap bytes bytes → list (bytes * bytes)) (paths : list bytes) (cfg : Config) : outcome Config :=
  match paths with
  | [] => Ok cfg
  | p :: r =>
      if nilb p then merge_fzp h w fuel order r cfg
      else child ← LoadFZP h w fuel order p; merge_fzp h w fuel order r (Merge cfg child)
  end.

Definition LoadMergedFZP (h : host) (w : world) (fuel : nat) (order : gmap bytes bytes → list (bytes * bytes)) (paths : list bytes) : outcome Config :=
  cfg ← merge_fzp h w fuel order paths zero_Config; finish h cfg.

(** ** A configuration from a scan *)

(** What [filepath.WalkDir] meets, the entries of a directory in its order; a
    directory that cannot be read has none. *)
Inductive entry : Type :=
  | EFile (name : bytes)
  | EDir (name : bytes) (entries : option (list entry)).

Record scan := mk_scan { sourceDirs : list bytes; includeDirs : list bytes; found : gset bytes }.

Definition skipped_names : list bytes := [bs ".git"; bs ".fz_objs"; bs "build"; bs "vendor"].
Definition source_exts : list bytes := [bs ".c"; bs ".cpp"; bs ".cc"; bs ".cxx"; bs ".asm"; bs ".s"; bs ".S"; bs ".fasm"].

Definition scan_file (h : host) (path : bytes) (s : scan) : scan :=
  let ext := ToLower h (filepath_Ext path) in
  let dir := Dir path in
  if among ext source_exts then
    if bool_decide (dir ∈ found s) then s
    else mk_scan (sourceDirs s ++ [dir]) (includeDirs s) ({[dir]} ∪ found s)
  else if among ext [bs ".h"; bs ".hpp"] then
    let key := bs "inc:" ++ dir in
    if bool_decide (key ∈ found s) then s
    else mk_scan (sourceDirs s) (includeDirs s ++ [dir]) ({[key]} ∪ found s)
  else s.

Fixpoint walk (h : host) (path : bytes) (e : entry) (s : scan) : outcome scan :=
  match e with
  | EFile _ => Ok (scan_file h path s)
  | EDir name entries =>
      if among name skipped_names then Ok s
      else
        match entries with
        | None => Err "cannot read directory"
        | Some es =>
            (fix walk_all (es : list entry) (s : scan) : outcome scan :=
              match es with
              | [] => Ok s
              | e :: r =>
                  let n := match e with EFile n | EDir n _ => n end in
                  s ← walk h (filepath_Join path n) e s; walk_all r s
              end) es s
        end
  end.

Definition GenerateFromScan (h : host) (root : bytes) (tree : entry) : outcome Config :=
  s ← walk h root tree (mk_scan [] [] ∅);
  check (nilb (sourceDirs s)) ErrorMissingSource;;
  Ok (zero_Config <| SourceDirs := sourceDirs s |> <| Include := includeDirs s |> <| Output := bs "app" |>
      <| Mode := bs "auto" |> <| Profile := bs "balanced" |>).
