(* ===== verification/LoadFacts.v ===== *)
(** * Configuration: what loading does

    Includes end and are acyclic when a load succeeds; the caches return what
    an uncached load returns as long as the files do not change, and hide every
    change of an included file; the default files are merged in their order,
    whatever the order of the goroutines. *)
From stdpp Require Import list gmap strings sorting.
From S2P Require Import Prelude GoStrings GoPath FzpExpr FzpScan FzpProcess ConfigTypes ConfigVars ConfigOps ConfigMerge ConfigFacts ConfigLoad.

Lemma check_post {A} b e (m : outcome A) (P : A → Prop) : (b = false → post P m) → post P (check b e;; m).
Proof. unfold check. destruct b; cbn; auto. Qed.

Lemma check_unique_returns {A} (pre : A → outcome unit) outs s l :
  (∀ a, post (λ _, True) (pre a)) → post (λ _, True) (check_unique pre outs s l).
Proof.
  intros H. revert s. induction l as [|a l IH]; intros s; [done|]. cbn [check_unique].
  eapply post_bind; [apply H|]. intros _ _. destruct (add_outputs_cases s (outs a)) as [[-> _]|[[e ->] _]]; [apply IH|done].
Qed.

Lemma read_file_on_disk w p data : read_file w p = Some data → p ∈ dom (on_disk w).
Proof. unfold read_file. rewrite elem_of_dom. destruct (on_disk w !! p); [by eexists|done]. Qed.

Lemma size_image (f : bytes → bytes) (X : gset bytes) : (size (set_map f X : gset bytes) ≤ size X)%nat.
Proof.
  induction X as [|x X Hx IH] using set_ind_L; [by rewrite set_map_empty|].
  rewrite set_map_union_L, set_map_singleton_L, (size_union {[x]}), size_singleton by set_solver.
  pose proof (size_union_alt {[f x]} (set_map f X : gset bytes)) as H.
  rewrite H, size_singleton. pose proof (subseteq_size (set_map f X ∖ {[f x]}) (set_map f X : gset bytes) ltac:(set_solver)). lia.
Qed.

(** ** Includes end *)
Section includes.
Context (h : host) (w : site).

(** The keys that the files can have. *)
Definition file_keys : gset bytes := set_map (config_cacheKey h) (dom (on_disk w)).

Lemma decode_returns path data c : post (λ _, True) (decode_config w path data c).
Proof.
  unfold decode_config. repeat case_match; cbn; done.
Qed.

Lemma merge_includes_post (P : Config → Prop) load abs includes merged :
  (∀ i, i ∈ includes → post (λ _, True) (load (child_path abs i))) →
  post (λ _, True) (merge_includes load abs includes merged).
Proof.
  revert merged. induction includes as [|i r IH]; intros merged H; [done|]. cbn [merge_includes].
  eapply post_bind; [apply H; by left|]. intros c _. apply IH. intros j Hj. apply H. by right.
Qed.

Lemma loadConfigData_post n keys path data c seen :
  file_keys ⊆ keys → config_cacheKey h path ∈ keys → (size (keys ∖ seen) < n)%nat →
  post (λ _, True) (loadConfigData n h w path data c seen).
Proof.
  intros Hk. revert path data c seen. induction n as [|n IH]; intros path data c seen Hp Hn; [lia|].
  cbn [loadConfigData]. eapply post_bind; [apply decode_returns|]. intros cfg _. cbv zeta.
  apply check_post. intros Hs. apply bool_decide_eq_false in Hs. destruct (nilb _); [done|].
  eapply post_bind; [|done]. apply (merge_includes_post (λ _, True)). intros i _.
  destruct (read_file w _) as [d|] eqn:E; [|done]. apply IH.
  - apply Hk. unfold file_keys. apply elem_of_map. eexists. split; [done|]. by eapply read_file_on_disk.
  - assert (keys ∖ ({[config_cacheKey h path]} ∪ seen) ⊂ keys ∖ seen) as Hlt%subset_size by set_solver. lia.
Qed.

(** ** Includes are acyclic *)

(** The files that a file includes as configurations. *)
Definition included (path child : bytes) : Prop :=
  ∃ data cfg i, read_file w path = Some data ∧ decode_config w path data zero_Config = Ok cfg ∧
    i ∈ config_includes h cfg ∧ child = child_path (config_cacheKey h path) i.

Lemma merge_includes_each load abs includes merged c i :
  merge_includes load abs includes merged = Ok c → i ∈ includes → is_ok (load (child_path abs i)).
Proof.
  revert merged. induction includes as [|j r IH]; intros merged H Hi; [by apply elem_of_nil in Hi|].
  cbn [merge_includes] in H. apply bind_Ok in H as (a & Ha & H).
  apply elem_of_cons in Hi as [-> |Hi]; [by exists a|]. by eapply IH.
Qed.

(** What a successful load asks of the files it goes through. *)
Lemma loadConfigData_step n path data c seen :
  read_file w path = Some data → loadConfigData n h w path data zero_Config seen = Ok c →
  config_cacheKey h path ∉ seen ∧
  ∀ child, included path child → ∃ m d c',
    read_file w child = Some d ∧ loadConfigData m h w child d zero_Config ({[config_cacheKey h path]} ∪ seen) = Ok c'.
Proof.
  intros Hr. destruct n as [|n]; [done|]. cbn [loadConfigData]. intros H. apply bind_Ok in H as (cfg & Hd & H).
  cbv zeta in H. apply check_Ok in H as [Hs H]. apply bool_decide_eq_false in Hs. split; [done|].
  intros child (data' & cfg' & i & Hr' & Hd' & Hi & ->). rewrite Hr in Hr'. injection Hr' as <-.
  rewrite Hd in Hd'. injection Hd' as <-. destruct (nilb (config_includes h cfg)) eqn:En.
  { apply nilb_true in En. rewrite En in Hi. by apply elem_of_nil in Hi. }
  apply bind_Ok in H as (merged & Hm & _). destruct (merge_includes_each _ _ _ _ _ i Hm Hi) as [c' Hc'].
  cbv beta in Hc'. destruct (read_file w (child_path _ i)) as [d|]; [|done]. by exists n, d, c'.
Qed.

Lemma loadConfigData_chain n path data c seen l :
  read_file w path = Some data → loadConfigData n h w path data zero_Config seen = Ok c →
  (∀ i a b, (path :: l) !! i = Some a → l !! i = Some b → included a b) →
  NoDup (map (config_cacheKey h) (path :: l)) ∧ ∀ p, p ∈ path :: l → config_cacheKey h p ∉ seen.
Proof.
  revert n path data c seen. induction l as [|p l IH]; intros n path data c seen Hr Hl Hc.
  - destruct (loadConfigData_step _ _ _ _ _ Hr Hl) as [Hs _]. split; [apply NoDup_singleton|].
    intros q [-> |Hq]%elem_of_cons; [done|]. by apply elem_of_nil in Hq.
  - destruct (loadConfigData_step _ _ _ _ _ Hr Hl) as [Hs Hi].
    destruct (Hi p (Hc 0%nat path p eq_refl eq_refl)) as (m & d & c' & Hr' & Hl').
    destruct (IH m p d c' _ Hr' Hl') as [Hn Hq]; [intros i a b Ha Hb; by apply (Hc (S i))|].
    split.
    + rewrite map_cons. constructor; [|done]. intros Hin. apply list_elem_of_fmap in Hin as (q & Hq' & Hin).
      apply (Hq q Hin). set_solver.
    + intros q [-> |Hq']%elem_of_cons; [done|]. specialize (Hq q Hq'). set_solver.
Qed.
End includes.

(** C28 Includes end, and they must be acyclic: loading a configuration returns,
    a value or an error, whatever the files include; and when it succeeds, no
    chain of includes from the file meets the same file twice, so that a
    file that includes itself, directly or through others, is always reported. *)
Theorem includes_acyclic h w path data :
  read_file w path = Some data →
  returns (loadConfigData (include_fuel w) h w path data zero_Config ∅) ∧
  (is_ok (loadConfigData (include_fuel w) h w path data zero_Config ∅) →
   ∀ l, (∀ i a b, (path :: l) !! i = Some a → l !! i = Some b → included h w a b) →
   NoDup (map (config_cacheKey h) (path :: l))).
Proof.
  intros Hr. split.
  - eapply post_returns, (loadConfigData_post _ _ _ (file_keys h w)); [done| |].
    + apply elem_of_map. exists path. split; [done|]. by eapply read_file_on_disk.
    + rewrite difference_empty_L. unfold include_fuel, file_keys.
      pose proof (size_image (config_cacheKey h) (dom (on_disk w))) as H. rewrite size_dom in H. lia.
  - intros [c Hc] l Hl. by apply (loadConfigData_chain h w _ path data c ∅ l Hr Hc).
Qed.

(** A small decoder for the witnesses: lines [i=file] and [m=mode]. *)
Definition decode_line (cfg : Config) (line : bytes) : Config :=
  if HasPrefix line (bs "i=") then cfg <| Include := Include cfg ++ [TrimPrefix line (bs "i=")] |>
  else if HasPrefix line (bs "m=") then cfg <| Mode := TrimPrefix line (bs "m=") |>
  else cfg.
Definition decode_lines (data : bytes) (cfg : Config) : bool * Config :=
  (true, fold_left decode_line (split_byte 10 data) cfg).

Definition site_of (files : list (bytes * file)) : site :=
  mk_site (list_to_map files) (λ _, true) decode_lines decode_lines (λ _, None) (λ _, None).

Definition site1 : site := site_of
  [(bs "/w/fz.toml", mk_file 1 true (bs "i=a.toml
i=include
m=raw")); (bs "/w/a.toml", mk_file 1 true (bs "i=sub/b.toml")); (bs "/w/sub/b.toml", mk_file 1 true (bs "m=c"));
   (bs "/w/x.toml", mk_file 1 true (bs "i=sub/../y.toml")); (bs "/w/y.toml", mk_file 1 true (bs "i=x.toml"))].

Lemma includes_acyclic_witness :
  NoDup (map (config_cacheKey host1) [bs "/w/fz.toml"; bs "/w/a.toml"; bs "/w/sub/b.toml"]) ∧
  loadConfigData (include_fuel site1) host1 site1 (bs "/w/x.toml") (bs "i=sub/../y.toml") zero_Config ∅ = Err ErrorCyclicInclude.
Proof.
  split; [|vm_compute; reflexivity].
  refine (proj2 (includes_acyclic host1 site1 (bs "/w/fz.toml") _ eq_refl) _ [bs "/w/a.toml"; bs "/w/sub/b.toml"] _).
  - eexists. vm_compute. reflexivity.
  - intros i a b. destruct i as [|[|[|i]]]; intros Ha Hb; [| |done..]; injection Ha as <-; injection Hb as <-;
      (do 3 eexists; split; [vm_compute; reflexivity|]; split; [vm_compute; reflexivity|]; split; [by left|vm_compute; reflexivity]).
Defined.

(** ** The caches *)

(** A load without caches. *)
Definition uncached (h : host) (w : site) (path : bytes) : outcome Config :=
  match on_disk w !! path with
  | None => Err ErrorFileStat
  | Some f => if f_readable f then parse_config h w path (f_data f) else Err ErrorFileRead
  end.

(** A path names a file: paths with one key name one file, and end alike. *)
Definition names_ok (h : host) (w : site) : Prop :=
  ∀ p q f, on_disk w !! p = Some f → config_cacheKey h q = config_cacheKey h p → is_Some (on_disk w !! q) →
    on_disk w !! q = Some f ∧ filepath_Ext q = filepath_Ext p.

(** Times and sizes are 64-bit integers, and files can be read. *)
Definition files_ok (w : site) : Prop :=
  ∀ p f, on_disk w !! p = Some f → f_readable f = true ∧ - 2 ^ 63 ≤ f_mtime f < 2 ^ 63 ∧ Zlen (f_data f) < 2 ^ 63.

(** Package gob reads back what it has written. *)
Definition gob_ok (w : site) : Prop := ∀ c b, gob_encode w c = Some b → gob_decode w b = Some c.

Section caching.
Context (h : host) (w : site) (Hnames : names_ok h w) (Hfiles : files_ok w) (Hgob : gob_ok w).

(** What the caches hold for a file is what loading it gives: the entries in
    memory, and the cache files. *)
Definition coherent (s : caches) : Prop :=
  (∀ p f e, on_disk w !! p = Some f → configCache s !! config_cacheKey h p = Some e →
     size_ e = Zlen (f_data f) → modTime e = f_mtime f → parse_config h w p (f_data f) = Ok (e_cfg e)) ∧
  (∀ p f c, on_disk w !! p = Some f → loadDiskConfigCache h w s p (f_mtime f) (Zlen (f_data f)) = Some c →
     parse_config h w p (f_data f) = Ok c).

Lemma decode_config_ext p q data c : filepath_Ext p = filepath_Ext q → decode_config w p data c = decode_config w q data c.
Proof. unfold decode_config. by intros ->. Qed.

Lemma parse_config_key p q data :
  config_cacheKey h p = config_cacheKey h q → filepath_Ext p = filepath_Ext q →
  parse_config h w p data = parse_config h w q data.
Proof.
  intros Hk He. unfold parse_config. f_equal. unfold include_fuel. cbn [loadConfigData].
  by rewrite (decode_config_ext p q _ _ He), Hk.
Qed.

Definition disk_record (mtime sz : Z) (payload : bytes) : bytes := configDiskCacheMagic ++ le_bytes 8 mtime ++ le_bytes 8 sz ++ payload.

Lemma disk_record_read s p mtime sz payload :
  - 2 ^ 63 ≤ mtime < 2 ^ 63 → 0 ≤ sz < 2 ^ 63 →
  cache_files s !! (config_cacheKey h p ++ bs ".fzcfg") = Some (disk_record mtime sz payload) →
  loadDiskConfigCache h w s p mtime sz = gob_decode w payload.
Proof.
  intros Hm Hz E. unfold loadDiskConfigCache. rewrite E. cbn [mbind option_bind].
  set (d := disk_record mtime sz payload).
  assert (take 8 d = configDiskCacheMagic) as -> by done.
  assert (drop 8 d = le_bytes 8 mtime ++ le_bytes 8 sz ++ payload) as Hd by done.
  assert (drop 16 d = le_bytes 8 sz ++ payload) as Hd'.
  { change 16%nat with (8 + 8)%nat. rewrite <- drop_drop, Hd. apply drop_app_length'. by rewrite length_le_bytes. }
  assert (drop 24 d = payload) as ->.
  { change 24%nat with (16 + 8)%nat. rewrite <- drop_drop, Hd'. apply drop_app_length'. by rewrite length_le_bytes. }
  assert ((length d <? 24)%nat = false) as ->.
  { apply Nat.ltb_ge. unfold d, disk_record. rewrite !length_app, !length_le_bytes. cbn. lia. }
  rewrite Hd, Hd', !take_app_length' by by rewrite length_le_bytes.
  rewrite bool_decide_true by done. rewrite !le_val_le_bytes. change (8 * Z.of_nat 8) with 64.
  rewrite !swrap_wrap, !swrap_small, !Z.eqb_refl by lia. done.
Qed.

Lemma coherent_hit s p f c :
  coherent s → on_disk w !! p = Some f → loadConfigCache h w s p (f_mtime f) (Zlen (f_data f)) = Some c →
  parse_config h w p (f_data f) = Ok c.
Proof.
  intros [Hm Hd] Hf. unfold loadConfigCache. destruct (configCache s !! _) as [e|] eqn:E; [|by apply Hd].
  destruct ((size_ e =? _) && _) eqn:Ee; [|by apply Hd]. intros [= <-]. apply (Hm _ _ _ Hf E); lia.
Qed.

Lemma loadDisk_other s s' p mtime sz :
  cache_files s' !! (config_cacheKey h p ++ bs ".fzcfg") = cache_files s !! (config_cacheKey h p ++ bs ".fzcfg") →
  loadDiskConfigCache h w s' p mtime sz = loadDiskConfigCache h w s p mtime sz.
Proof. unfold loadDiskConfigCache. by intros ->. Qed.

(** The cache file after a store: the one before, or the record of the
    configuration. *)
Lemma storeDisk_file s p mtime sz cfg :
  let s' := storeDiskConfigCache h w s p mtime sz cfg in
  configCache s' = configCache s ∧
  (cache_files s' = cache_files s ∨ ∃ payload, gob_decode w payload = Some cfg ∧
     cache_files s' = <[config_cacheKey h p ++ bs ".fzcfg" := disk_record mtime sz payload]> (cache_files s)).
Proof.
  unfold storeDiskConfigCache. cbv zeta. destruct (_ || _); [by auto|]. destruct (gob_encode w cfg) as [b|] eqn:E; [|by auto].
  destruct (can_write w _); [|by auto]. split; [done|]. right. exists b. split; [by apply Hgob|done].
Qed.

Lemma coherent_store s p f cfg :
  coherent s → on_disk w !! p = Some f → parse_config h w p (f_data f) = Ok cfg →
  coherent (storeConfigCache h w s p (f_mtime f) (Zlen (f_data f)) cfg).
Proof.
  intros [Hm Hd] Hf Hp.
  assert (∀ q g, on_disk w !! q = Some g → config_cacheKey h q = config_cacheKey h p →
            g = f ∧ parse_config h w q (f_data g) = Ok cfg) as Hsame.
  { intros q g Hg Hk. destruct (Hnames p q f Hf Hk) as [Hq He]; [by eexists|]. rewrite Hg in Hq. injection Hq as ->.
    split; [done|]. by rewrite (parse_config_key q p _ Hk He). }
  unfold storeConfigCache. cbv zeta. set (s1 := mk_caches _ _).
  destruct (storeDisk_file s1 p (f_mtime f) (Zlen (f_data f)) cfg) as [Hc Hx]. cbv zeta in Hc, Hx. set (s2 := storeDiskConfigCache _ _ _ _ _ _ _) in *.
  split.
  - intros q g e Hg. rewrite Hc. subst s1. cbn [configCache].
    destruct (decide (config_cacheKey h q = config_cacheKey h p)) as [Hk|Hk].
    + rewrite Hk, lookup_insert_eq. intros [= <-] _ _. by apply (Hsame q g).
    + rewrite lookup_insert_ne by done. by apply Hm.
  - intros q g c Hg. destruct (decide (config_cacheKey h q = config_cacheKey h p)) as [Hk|Hk].
    + destruct (Hsame q g Hg Hk) as [-> Hq]. destruct Hx as [Hx|(b & Hb & Hx)].
      * rewrite (loadDisk_other s s2) by by rewrite Hx. by apply Hd.
      * rewrite (disk_record_read s2 q _ _ b), Hb; [congruence|by eapply Hfiles|split; [lia|by eapply Hfiles]|].
        by rewrite Hx, Hk, lookup_insert_eq.
    + rewrite (loadDisk_other s s2); [by apply Hd|]. destruct Hx as [Hx|(b & Hb & Hx)]; rewrite Hx; [done|].
      apply lookup_insert_ne. by intros H%(inj (.++ _)).
Qed.

Lemma Load_coherent s p : coherent s → (Load h w p s).1 = uncached h w p ∧ coherent (Load h w p s).2.
Proof.
  intros Hs. unfold Load, uncached. destruct (on_disk w !! p) as [f|] eqn:Hf; [|done].
  destruct (Hfiles p f Hf) as [Hr _]. rewrite Hr.
  destruct (loadConfigCache h w s p _ _) as [c|] eqn:Ec; [by rewrite (coherent_hit s p f c)|].
  assert (read_file w p = Some (f_data f)) as -> by (unfold read_file; rewrite Hf; cbn; by rewrite Hr).
  destruct (parse_config h w p (f_data f)) as [c|e| |] eqn:Ep; cbn; [|done..].
  split; [done|]. by apply coherent_store.
Qed.

Lemma coherent_restart s : coherent s → coherent (clearConfigCache s).
Proof. intros [_ Hd]. split; [|done]. intros p f e _ H. cbn in H. by rewrite lookup_empty in H. Qed.
End caching.

(** The loads of a sequence of paths, one after the other; [None] is a restart
    of the process, which loses the memory. *)
Fixpoint load_all (h : host) (w : site) (paths : list (option bytes)) (s : caches) : list (outcome Config) * caches :=
  match paths with
  | [] => ([], s)
  | None :: r => load_all h w r (clearConfigCache s)
  | Some p :: r => let '(c, s) := Load h w p s in let '(cs, s) := load_all h w r s in (c :: cs, s)
  end.

(** C29 The caches are transparent while the files stay the same: starting from
    no cache, any sequence of loads, with restarts of the process in between,
    gives for every file what loading it without a cache gives, whichever of
    memory, cache file and parser answers. *)
Theorem caches_transparent h w paths :
  names_ok h w → files_ok w → gob_ok w →
  (load_all h w paths (mk_caches ∅ ∅)).1 = map (uncached h w) (omap id paths).
Proof.
  intros Hn Hf Hg.
  assert (∀ s, coherent h w s → (load_all h w paths s).1 = map (uncached h w) (omap id paths)) as H.
  { induction paths as [|[p|] r IH]; intros s Hs; [done| |].
    - cbn [load_all]. destruct (Load_coherent h w Hn Hf Hg s p Hs) as [H1 H2].
      change (omap id (Some p :: r)) with (p :: omap id r). cbn [map].
      destruct (Load h w p s) as [c s1]. cbn in H1, H2. rewrite <- H1. specialize (IH s1 H2).
      destruct (load_all h w r s1) as [cs s2]. cbn in *. by rewrite IH.
    - apply IH. by apply coherent_restart. }
  apply H. split; intros p f e _; [cbn; by rewrite lookup_empty|]. unfold loadDiskConfigCache. cbn. by rewrite lookup_empty.
Qed.

#[export] Instance file_eq_dec : EqDecision file.
Proof. solve_decision. Defined.

(** The hypotheses on a site are finite checks. *)
Lemma names_ok_check h w :
  map_Forall (λ p f, map_Forall (λ q g, config_cacheKey h q = config_cacheKey h p → g = f ∧ filepath_Ext q = filepath_Ext p)
    (on_disk w)) (on_disk w) → names_ok h w.
Proof. intros H p q f Hp Hk [g Hg]. destruct (H p f Hp q g Hg Hk) as [-> He]. done. Qed.

Lemma files_ok_check w :
  map_Forall (λ _ f, f_readable f = true ∧ - 2 ^ 63 ≤ f_mtime f < 2 ^ 63 ∧ Zlen (f_data f) < 2 ^ 63) (on_disk w) → files_ok w.
Proof. intros H p f Hp. by apply (H p f). Qed.

(** One file under two names; package gob knows its configuration. *)
Definition config2 : Config := fillDefaults (zero_Config <| Mode := bs "raw" |> <| DepBuild := zero_DepBuildConfig <| Dep_Enabled := true |> |>).
Definition site2 : site :=
  mk_site (list_to_map [(bs "/w/fz.toml", mk_file (-5) true (bs "m=raw")); (bs "fz.toml", mk_file (-5) true (bs "m=raw"))])
    (λ _, true) decode_lines decode_lines
    (λ c, if decide (c = config2) then Some [7] else None) (λ b, if decide (b = [7]) then Some config2 else None).

Lemma caches_transparent_witness :
  (load_all host1 site2 [Some (bs "fz.toml"); Some (bs "/w/fz.toml"); None; Some (bs "fz.toml")] (mk_caches ∅ ∅)).1 =
    replicate 3 (Ok config2) ∧
  size (cache_files (load_all host1 site2 [Some (bs "fz.toml")] (mk_caches ∅ ∅)).2) = 1%nat.
Proof.
  split; [|vm_compute; reflexivity].
  rewrite caches_transparent; [vm_compute; reflexivity| | |].
  - apply names_ok_check. apply (bool_decide_unpack _). vm_compute. exact I.
  - apply files_ok_check. apply (bool_decide_unpack _). vm_compute. exact I.
  - intros c b. cbn. destruct (decide (c = config2)) as [->|]; [|done]. intros [= <-]. by destruct (decide _).
Defined.

(** ** Changes of included files *)

Lemma loadConfigCache_same h w w' s p mtime sz :
  gob_decode w' = gob_decode w → loadConfigCache h w' s p mtime sz = loadConfigCache h w s p mtime sz.
Proof. unfold loadConfigCache, loadDiskConfigCache. by intros ->. Qed.

Lemma stored_in_memory h w s p mtime sz cfg :
  configCache (storeConfigCache h w s p mtime sz cfg) !! config_cacheKey h p = Some (mk_entry mtime sz cfg).
Proof.
  unfold storeConfigCache, storeDiskConfigCache. cbv zeta.
  destruct (_ || _); [|destruct (gob_encode w cfg); [destruct (can_write w _)|]]; cbn; apply lookup_insert_eq.
Qed.

(** The caches go by the time and the size of the main file alone: after a
    successful load, whatever happens to every other file, so to the included
    ones, the next load returns the old configuration. *)
Theorem include_changes_unnoticed h w w' s p :
  on_disk w' !! p = on_disk w !! p → gob_decode w' = gob_decode w →
  ∀ c, (Load h w p s).1 = Ok c → (Load h w' p (Load h w p s).2).1 = Ok c.
Proof.
  intros Hp Hg c. unfold Load. rewrite Hp. destruct (on_disk w !! p) as [f|] eqn:Hf; [|done].
  destruct (loadConfigCache h w s p _ _) as [c0|] eqn:Ec; cbn [fst snd].
  { intros [= ->]. rewrite (loadConfigCache_same h w w') by done. by rewrite Ec. }
  destruct (read_file w p) as [data|]; [|done]. destruct (parse_config h w p data) as [c0|e| |]; cbn [fst snd]; [|done..].
  intros [= ->]. rewrite (loadConfigCache_same h w w') by done. unfold loadConfigCache. rewrite stored_in_memory. cbn.
  by rewrite !Z.eqb_refl.
Qed.

(** The site, before and after the included file is edited. *)
Definition site3 (included : bytes) : site := site_of
  [(bs "/w/fz.toml", mk_file 1 true (bs "i=mode.toml")); (bs "/w/mode.toml", mk_file 2 true included)].

Lemma include_changes_unnoticed_witness :
  let s := (Load host1 (site3 (bs "m=raw")) (bs "/w/fz.toml") (mk_caches ∅ ∅)).2 in
  match (Load host1 (site3 (bs "m=c")) (bs "/w/fz.toml") s).1, uncached host1 (site3 (bs "m=c")) (bs "/w/fz.toml") with
  | Ok cached, Ok fresh => Mode cached = bs "raw" ∧ Mode fresh = bs "c"
  | _, _ => False
  end.
Proof.
  intros s.
  assert ((Load host1 (site3 (bs "m=raw")) (bs "/w/fz.toml") (mk_caches ∅ ∅)).1 = Ok config2) as E by (vm_compute; reflexivity).
  pose proof (include_changes_unnoticed host1 (site3 (bs "m=raw")) (site3 (bs "m=c")) (mk_caches ∅ ∅) (bs "/w/fz.toml")
    eq_refl eq_refl config2 E) as H.
  change (Load host1 (site3 (bs "m=raw")) (bs "/w/fz.toml") (mk_caches ∅ ∅)).2 with s in H. rewrite H.
  vm_compute. split; reflexivity.
Defined.

(** ** The merge of the default files *)
Lemma Validate_returns h c : post (λ _, True) (Validate h c).
Proof.
  cbv delta [Validate]. cbv beta.
  repeat match goal with
  | |- post _ (let x := ?v in @?f x) => change (post (λ _, True) (f v)); generalize v; intros ?; cbv beta
  | |- post _ (check _ _;; _) => apply check_post; intros _
  end.
  apply (post_bind (λ _, True)); [|intros _ _; apply (post_bind (λ _, True)); [|done]].
  - rewrite check_rules_unique. apply check_unique_returns. intros r. unfold rule_ok. by do 2 (apply check_post; intros _).
  - rewrite check_tasks_unique. apply check_unique_returns. intros r. unfold task_ok. by do 2 (apply check_post; intros _).
Qed.

Lemma uncached_returns h w p : post (λ _, True) (uncached h w p).
Proof.
  unfold uncached. destruct (on_disk w !! p) as [f|] eqn:Hf; [|done]. destruct (f_readable f) eqn:Hr; [|done].
  unfold parse_config. eapply post_bind; [|intros c _; apply Validate_returns].
  apply (loadConfigData_post _ _ _ (file_keys h w)); [done| |].
  - apply elem_of_map. exists p. split; [done|]. apply elem_of_dom. by eexists.
  - rewrite difference_empty_L. unfold include_fuel, file_keys.
    pose proof (size_image (config_cacheKey h) (dom (on_disk w))) as H. rewrite size_dom in H. lia.
Qed.

Section gathering.
Context (h : host) (w : site) (Hnames : names_ok h w) (Hfiles : files_ok w) (Hgob : gob_ok w) (paths : list bytes).

(** The slots and the number of errors after the goroutines of [arrivals]. *)
Definition slot (r : list (option Config)) (idx : nat) : list (option Config) :=
  match uncached h w (paths !!! idx) with Ok c => <[idx := Some c]> r | _ => r end.
Definition failed (idx : nat) : bool := match uncached h w (paths !!! idx) with Ok _ => false | _ => true end.

Lemma gather_spec arrivals g :
  coherent h w (after g) → ∃ g', gather h w paths arrivals g = Ok g' ∧
    results g' = fold_left slot arrivals (results g) ∧
    (nonempty (errs g') = nonempty (errs g) || existsb failed arrivals).
Proof.
  revert g. induction arrivals as [|idx r IH]; intros g Hg; [exists g; by rewrite orb_false_r|].
  cbn [gather fold_left existsb]. destruct (Load_coherent h w Hnames Hfiles Hgob (after g) (paths !!! idx) Hg) as [H1 H2].
  unfold slot at 2, failed at 1. pose proof (uncached_returns h w (paths !!! idx)) as Hu.
  destruct (Load h w (paths !!! idx) (after g)) as [[c|e| |] s]; cbn [fst snd] in H1, H2; rewrite <- H1 in *; [| |done..].
  - destruct (IH (mk_gathered (<[idx := Some c]> (results g)) (errs g) s) H2) as (g' & E1 & E2 & E3). by exists g'.
  - destruct (IH (mk_gathered (results g) (errs g ++ [e]) s) H2) as (g' & E1 & E2 & E3). exists g'.
    split_and!; [done|done|]. rewrite E3. cbn [errs]. destruct (errs g); done.
Qed.

Lemma slots_lookup arrivals r cs i :
  Forall2 (λ p c, uncached h w p = Ok c) paths cs → Forall (λ j, (j < length paths)%nat) arrivals → length r = length paths →
  fold_left slot arrivals r !! i = if decide (i ∈ arrivals) then Some <$> cs !! i else r !! i.
Proof.
  intros Hcs. revert r. induction arrivals as [|j l IH]; intros r Hl Hr.
  { cbn. by rewrite decide_False by (by intros ?%elem_of_nil). }
  apply Forall_cons in Hl as [Hj Hl]. cbn [fold_left].
  destruct (lookup_lt_is_Some_2 paths j Hj) as [p Hp]. destruct (Forall2_lookup_l _ _ _ _ _ Hcs Hp) as (c & Hc & Hu).
  assert (slot r j = <[j := Some c]> r) as ->.
  { unfold slot. rewrite (list_lookup_total_correct _ _ _ Hp). by rewrite Hu. }
  rewrite IH by (done || by rewrite length_insert).
  destruct (decide (i ∈ l)) as [Hi|Hi]; [by rewrite decide_True by by right|].
  destruct (decide (i = j)) as [->|Hne].
  - rewrite decide_True by by left. rewrite list_lookup_insert_eq by lia. by rewrite Hc.
  - rewrite decide_False by (intros [?|?]%elem_of_cons; done). by rewrite list_lookup_insert_ne by done.
Qed.
End gathering.

Lemma merge_results_ok cs : merge_results (Some <$> cs) = fold_left Merge cs zero_Config.
Proof. unfold merge_results. generalize zero_Config. induction cs as [|c cs IH]; intros d; [done|]. apply IH. Qed.

(** The default files are loaded by goroutines that may end in any order,
    but the result does not depend on it: when every file loads, it is the
    merge of what they load without a cache, the system's first and the local
    one last, expanded and validated; when one of them fails, the result is an
    error. *)
Theorem LoadMerged_order h w s arrivals :
  names_ok h w → files_ok w → gob_ok w → coherent h w s → env_config_path h = [] →
  arrivals ≡ₚ seq 0 (length (default_paths h w)) →
  (∀ cs, Forall2 (λ p c, uncached h w p = Ok c) (default_paths h w) cs →
     (LoadMerged h w [] arrivals s).1 = finish h (fold_left Merge cs zero_Config)) ∧
  (Exists (λ p, ∃ e, uncached h w p = Err e) (default_paths h w) → ∃ e, (LoadMerged h w [] arrivals s).1 = Err e).
Proof.
  intros Hn Hf Hg Hs He Harr. unfold LoadMerged. cbn [nilb]. rewrite He. cbn [nonempty nilb negb]. cbv zeta.
  set (paths := default_paths h w) in *.
  assert (∀ j, j ∈ arrivals ↔ (j < length paths)%nat) as Hin by (intros j; rewrite Harr, elem_of_seq; lia).
  destruct (gather_spec h w Hn Hf Hg paths arrivals (mk_gathered (replicate (length paths) None) [] s) Hs) as (g & -> & Hr & Hfail).
  cbn [errs results] in Hr, Hfail. cbn [nonempty nilb negb orb] in Hfail. rewrite Hfail. split.
  - intros cs Hcs. assert (existsb (failed h w paths) arrivals = false) as ->.
    { apply existsb_false. apply Forall_forall. intros j Hj%Hin. destruct (lookup_lt_is_Some_2 _ _ Hj) as [p Hp].
      destruct (Forall2_lookup_l _ _ _ _ _ Hcs Hp) as (c & _ & Hc). unfold failed.
      rewrite (list_lookup_total_correct _ _ _ Hp). by rewrite Hc. }
    assert (results g = Some <$> cs) as Hres.
    { rewrite Hr. apply list_eq. intros i.
      rewrite (slots_lookup h w paths arrivals _ cs); [|done|apply Forall_forall; by intros j ?%Hin|apply length_replicate].
      rewrite list_lookup_fmap. destruct (decide (i ∈ arrivals)) as [Hi|Hi]; [done|]. rewrite Hin in Hi.
      apply Forall2_length in Hcs. rewrite !lookup_ge_None_2; [done|lia|rewrite length_replicate; lia]. }
    destruct paths as [|p ps] eqn:Ep; cbn [nilb fst].
    + apply Forall2_nil_inv_l in Hcs as ->. done.
    + by rewrite Hres, merge_results_ok.
  - intros Hex. assert (existsb (failed h w paths) arrivals = true) as ->.
    { apply Exists_exists in Hex as (p & Hp & e & He'). apply list_elem_of_lookup in Hp as [i Hi].
      apply existsb_exists. exists i. split.
      - apply list_elem_of_In, Hin. by eapply lookup_lt_Some.
      - unfold failed. rewrite (list_lookup_total_correct _ _ _ Hi). by rewrite He'. }
    destruct paths; [by apply Exists_nil in Hex|]. by eexists.
Qed.

(** Two goroutines; the local file's one ends first. *)
Definition site4 : site := site_of
  [(bs "/home/u/.fz.toml", mk_file 1 true (bs "m=raw")); (bs "fz.toml", mk_file 1 true (bs "i=include"))].

Lemma site4_ok : names_ok host1 site4 ∧ files_ok site4 ∧ gob_ok site4.
Proof.
  split_and!; [apply names_ok_check|apply files_ok_check|done]; apply (bool_decide_unpack _); vm_compute; exact I.
Qed.

Definition config4 : Config := config2 <| Mode := bs "auto" |> <| Include := [bs "include"] |>.

Lemma LoadMerged_order_witness :
  (LoadMerged host1 site4 [] [1%nat; 0%nat] (mk_caches ∅ ∅)).1 = finish host1 (Merge (Merge zero_Config config2) config4) ∧
  finish host1 (Merge (Merge zero_Config config2) config4) = Ok config4.
Proof.
  split; [|vm_compute; reflexivity]. destruct site4_ok as (H1 & H2 & H3).
  assert (default_paths host1 site4 = [bs "/home/u/.fz.toml"; bs "fz.toml"]) as Hp by (vm_compute; reflexivity).
  refine (proj1 (LoadMerged_order host1 site4 (mk_caches ∅ ∅) [1%nat; 0%nat] H1 H2 H3 _ eq_refl _) [config2; config4] _).
  - split; intros p f e _; cbn; [by rewrite lookup_empty|]. unfold loadDiskConfigCache. cbn. by rewrite lookup_empty.
  - rewrite Hp. apply perm_swap.
  - rewrite Hp. apply Forall2_cons; split; [vm_compute; reflexivity|].
    apply Forall2_cons; split; [vm_compute; reflexivity|apply Forall2_nil_2].
Defined.

(** ** Defaults and the order of files *)

Lemma no_dollar_listed l s : Forall (λ t, containsDollar t = false) l → s ∈ l → containsDollar s = false.
Proof. rewrite Forall_forall. auto. Qed.

Lemma valid_no_dollar h c : valid h c →
  containsDollar (Mode c) = false ∧ containsDollar (Profile c) = false ∧ containsDollar (Toolchain c) = false ∧ containsDollar (Isolation c) = false.
Proof.
  intros [_ _ H3 H4 H5 _ _ _ _ _ _ _ H13]. split_and!; (eapply no_dollar_listed; [|eassumption]); repeat constructor.
Qed.

Lemma listed_nonempty (l : list bytes) s : [] ∉ l → s ∈ l → s ≠ [].
Proof. by intros H Hs ->. Qed.

Lemma pick_set a b : b ≠ [] → pick a b = b.
Proof. by destruct b. Qed.

(** The expansion leaves a field without a dollar. *)
Lemma expand_plain h c :
  (containsDollar (Mode c) = false → Mode (expand h c) = Mode c) ∧
  (containsDollar (Profile c) = false → Profile (expand h c) = Profile c) ∧
  (containsDollar (Toolchain c) = false → Toolchain (expand h c) = Toolchain c) ∧
  (containsDollar (Isolation c) = false → Isolation (expand h c) = Isolation c).
Proof.
  unfold expand. destruct (needsExpand c); [|done]. cbv zeta.
  split_and!; intros H; by apply ExpandString_plain.
Qed.

Lemma valid_nonempty h c : valid h c → Mode c ≠ [] ∧ Profile c ≠ [] ∧ Toolchain c ≠ [] ∧ Isolation c ≠ [].
Proof.
  intros Hv. pose proof (v_mode _ _ Hv) as V1. pose proof (v_profile _ _ Hv) as V2.
  pose proof (v_toolchain _ _ Hv) as V3. pose proof (v_isolation _ _ Hv) as V4.
  split_and!; (eapply listed_nonempty; [|eassumption]); set_solver.
Qed.

Lemma merged_fields d last :
  Mode last ≠ [] → Profile last ≠ [] → Toolchain last ≠ [] → Isolation last ≠ [] →
  Mode (Merge d last) = Mode last ∧ Profile (Merge d last) = Profile last ∧
  Toolchain (Merge d last) = Toolchain last ∧ Isolation (Merge d last) = Isolation last.
Proof. intros. split_and!; by apply pick_set. Qed.

Lemma normalize_fields h c :
  Mode (normalize h c) = or_default (Mode c) (bs "auto") ∧
  Profile (normalize h c) = TrimSpace (ToLower h (or_default (Profile c) (bs "balanced"))) ∧
  Toolchain (normalize h c) = TrimSpace (ToLower h (or_default (Toolchain c) (bs "auto"))) ∧
  Isolation (normalize h c) = or_default (Isolation c) IsolationNone.
Proof. split_and!; reflexivity. Qed.

(** Expansion and validation keep the valid values of these fields. *)
Lemma finish_keeps h last e c :
  valid h last → finish h e = Ok c →
  Mode e = Mode last → Profile e = Profile last → Toolchain e = Toolchain last → Isolation e = Isolation last →
  Mode c = Mode last ∧ Profile c = Profile last ∧ Toolchain c = Toolchain last ∧ Isolation c = Isolation last.
Proof.
  intros Hv Hc M1 M2 M3 M4. destruct (valid_no_dollar h last Hv) as (D1 & D2 & D3 & D4).
  destruct (expand_plain h e) as (E1 & E2 & E3 & E4). rewrite M1 in E1. rewrite M2 in E2. rewrite M3 in E3. rewrite M4 in E4.
  specialize (E1 D1). specialize (E2 D2). specialize (E3 D3). specialize (E4 D4).
  apply Validate_spec in Hc as [_ ->]. revert E1 E2 E3 E4. generalize (expand h e). intros f E1 E2 E3 E4.
  destruct (normalize_fields h f) as (F1 & F2 & F3 & F4). rewrite F1, F2, F3, F4, E1, E2, E3, E4.
  destruct (valid_nonempty h last Hv) as (N1 & N2 & N3 & N4). rewrite !or_default_id by done.
  pose proof (v_profile _ _ Hv) as V2. pose proof (v_toolchain _ _ Hv) as V3.
  split_and!; [done|eapply listed_lower, V2; apply profiles_lower|eapply listed_lower, V3; apply toolchains_lower|done].
Qed.

(** Every file is validated, and so filled with defaults, before it is
    merged: the last file decides the mode, the profile, the toolchain and the
    isolation even when it does not set them, whatever the files before it
    say. *)
Theorem last_file_decides h cs last c :
  valid h last → finish h (fold_left Merge (cs ++ [last]) zero_Config) = Ok c →
  Mode c = Mode last ∧ Profile c = Profile last ∧ Toolchain c = Toolchain last ∧ Isolation c = Isolation last.
Proof.
  intros Hv Hc. rewrite fold_left_app in Hc. destruct (valid_nonempty h last Hv) as (N1 & N2 & N3 & N4).
  destruct (merged_fields (fold_left Merge cs zero_Config) last N1 N2 N3 N4) as (M1 & M2 & M3 & M4).
  exact (finish_keeps h last _ c Hv Hc M1 M2 M3 M4).
Qed.

(** The user's file says raw, the local one says nothing. *)
Lemma last_file_decides_witness :
  Mode config2 = bs "raw" ∧
  ∃ c, finish host1 (fold_left Merge [config2; config4] zero_Config) = Ok c ∧ Mode c = Mode config4 ∧ Mode config4 = bs "auto".
Proof.
  split; [reflexivity|]. exists config4.
  assert (finish host1 (fold_left Merge [config2; config4] zero_Config) = Ok config4) as H by (vm_compute; reflexivity).
  assert (Validate host1 config4 = Ok config4) as Hv by (vm_compute; reflexivity).
  split_and!; [exact H| |reflexivity].
  exact (proj1 (last_file_decides host1 [config2] config4 config4 (Validate_sound _ _ _ Hv) H)).
Defined.

(** ** FZP configurations and scans *)

(** A file that defines a setting in two spellings; the order in which the map
    of definitions is gone through decides which one counts. *)
Definition world_fzp : world :=
  mk_world (λ p, if decide (p = bs "/w/a.fzp") then Some (bs "#define OUTPUT one
#define output two
") else None)
    (λ p, bool_decide (p = bs "/w/a.fzp")) (Some (bs "/w")) [] (bs "linux") (λ b, b) true
    (λ _ m, map_to_list m) (λ _ s, elements s).

Lemma fzp_order_matters :
  let load order := LoadFZP host1 world_fzp 2 order (bs "/w/a.fzp") in
  match load map_to_list, load (λ m, rev (map_to_list m)) with
  | Ok a, Ok b => Output a ≠ Output b
  | _, _ => False
  end.
Proof. vm_compute. discriminate. Qed.

(** The keys of the scan's two kinds of directories can meet: the sources of
    [inc:x] hide the headers of [x]. *)
Lemma scan_keys_meet :
  let tree headers := EDir (bs ".") (Some [EDir (bs "inc:x") (Some [EFile (bs "a.c")]); EDir (bs "x") (Some [EFile headers])]) in
  match GenerateFromScan host1 (bs ".") (tree (bs "a.h")) with
  | Ok c => SourceDirs c = [bs "inc:x"] ∧ Include c = []
  | _ => False
  end.
Proof. vm_compute. split; reflexivity. Qed.
