(* ===== verification/Utils.v ===== *)
(** * Shared helpers (utils/utils.go, utils/security.go)

    Checks of command-line values, names derived from a source, the environment
    and the search path of tools, the command that is run for a tool, and the
    scrubbing of host paths from a binary. *)
From stdpp Require Import list gmap strings sorting.
From S2P Require Import Prelude GoStrings GoPath ConfigTypes ConfigOps ConfigMerge ConfigLoad.

(** What the helpers ask of the process and the file system. *)
Record process := mk_process {
  windows : bool;                            (* runtime.GOOS *)
  environ : list bytes;                      (* os.Environ *)
  executionRoot : bytes;                     (* SetExecutionRoot *)
  exists_at : bytes → bool;                  (* Stat gives no error *)
  lookExecutable : bytes → option bytes;
  working_dir : option bytes;
  hash_file : bytes → option bytes;          (* HashFile *)
  tool_checksum : bytes → option bytes;      (* ToolChecksums *)
  env_order : gmap bytes bytes → list (bytes * bytes) }.   (* the order of a map iteration *)

(** ** Values of the command line *)
Definition ContainsAny (s chars : bytes) : bool := existsb (λ c, bool_decide (c ∈ chars)) s.
Definition Contains (s p : bytes) : bool := contains_bytes p s.

(** The characters of a shell, and the control characters; a backslash is a
    separator on Windows. *)
Definition shell_chars : bytes := bs "`$&|;><*?[]{}()'" ++ [34; 0; 10; 13].
Definition forbiddenPathChars (p : process) : bytes := if windows p then shell_chars else shell_chars ++ [92].
Definition forbiddenArgChars (p : process) : bytes := if windows p then shell_chars else shell_chars ++ [92].

Definition ValidateCLIArg (p : process) (value : bytes) : outcome unit :=
  if nilb value then Ok tt
  else if ContainsAny value (forbiddenArgChars p) then Err "invalid CLI argument"
  else if ContainsAny value [0; 10; 13] then Err "invalid CLI argument"
  else Ok tt.

(** [strings.SplitN(s, sep, n)] of a one-byte separator. *)
Fixpoint split_n (n : nat) (sep : Z) (s : bytes) : list bytes :=
  match n with
  | O => []
  | S O => [s]
  | S k => match span (λ c, negb (c =? sep)) s with
           | (h, _ :: t) => h :: split_n k sep t
           | (h, []) => [h]
           end
  end.

Definition isUnsafeUNC (path : bytes) : bool :=
  if negb (HasPrefix path [92; 92]) then false
  else match split_n 3 92 (TrimPrefix path [92; 92]) with
       | a :: b :: _ => nilb a || nilb b
       | _ => true
       end.

Definition ValidateCLIPath (p : process) (value : bytes) : outcome unit :=
  let sep := if windows p then 92 else slash in
  if nilb value then Ok tt
  else if ContainsAny value (forbiddenPathChars p) then Err "invalid path"
  else if Contains value [46; 46; sep] || Contains value [sep; 46; 46] then Err "path traversal not permitted"
  else if windows p && (Contains value [46; 46; 92] || Contains value [92; 46; 46]) then Err "path traversal not permitted"
  else if windows p && isUnsafeUNC value then Err "invalid UNC path"
  else Ok tt.

Fixpoint validate_tokens (p : process) (tokens : list bytes) : outcome (list bytes) :=
  match tokens with
  | [] => Ok []
  | t :: r => ValidateCLIArg p t;; out ← validate_tokens p r; Ok (t :: out)
  end.
Definition ValidateFlagTokens (p : process) (flagData : bytes) : outcome (list bytes) :=
  if nilb flagData then Ok [] else validate_tokens p (Fields flagData).

(** ** Names *)

(** [filepath.Base]. *)
Definition filepath_Base (path : bytes) : bytes :=
  if nilb path then dot
  else
    let s := drop_while_end (λ c, c =? slash) path in
    if nilb s then [slash] else rev (fst (span (λ c, negb (c =? slash)) (rev s))).

Definition DeriveNames (p : process) (src outFlag outObjFlag : bytes) : bytes * bytes :=
  let base := TrimSuffix (filepath_Base src) (filepath_Ext src) in
  let objDefault := base ++ bs ".o" in
  let binDefault := if windows p && nilb (filepath_Ext base) then base ++ bs ".exe" else base in
  (if nonempty outFlag then outFlag else binDefault, if nonempty outObjFlag then outObjFlag else objDefault).

Definition SupportedExtension (h : host) (ext : bytes) : bool :=
  among (ToLower h ext) [bs ".asm"; bs ".s"; bs ".fasm"; bs ".m"; bs ".c"; bs ".cpp"; bs ".cc"; bs ".cxx"; bs ".S"].

(** ** The environment *)
Fixpoint ensureEnv (env : list bytes) (key value : bytes) : list bytes :=
  match env with
  | [] => [key ++ bs "=" ++ value]
  | e :: r => if HasPrefix e (key ++ bs "=") then (key ++ bs "=" ++ value) :: r else e :: ensureEnv r key value
  end.

Definition deterministicEnv (p : process) : list bytes :=
  let env := ensureEnv (environ p) (bs "LC_ALL") (bs "C") in
  let env := ensureEnv env (bs "LANG") (bs "C") in
  let env := ensureEnv env (bs "TZ") (bs "UTC") in
  ensureEnv env (bs "SOURCE_DATE_EPOCH") (bs "1600000000").

(** The allowed variables of the process. *)
Definition allow_entry (base : gmap bytes bytes) (e k : bytes) : gmap bytes bytes :=
  if HasPrefix e (k ++ bs "=") then
    match split_n 2 61 e with
    | key :: value :: _ => <[key := value]> base
    | _ => base
    end
  else base.
Definition allowed_env (p : process) (allow : list bytes) : gmap bytes bytes :=
  fold_left (λ base e, fold_left (λ base k, allow_entry base e k) allow base) (environ p) ∅.

Definition getenv (p : process) (key : bytes) : bytes :=
  match List.find (λ e, HasPrefix e (key ++ bs "=")) (environ p) with
  | Some e => TrimPrefix e (key ++ bs "=")
  | None => []
  end.

Definition join3 (a b c : bytes) : bytes := filepath_Join a (b ++ slash :: c).

Definition SafeEnv (p : process) (cfg : option Config) : list bytes :=
  let env := deterministicEnv p in
  match cfg with
  | None => env
  | Some c =>
      let opts := ToolchainSettings c in
      if nilb (TS_EnvAllow opts) then env
      else
        let out := fold_left (λ out kv, ensureEnv out kv.1 kv.2) (env_order p (allowed_env p (TS_EnvAllow opts))) env in
        if among (bs "local") (TS_SearchPriority opts) && nonempty (executionRoot p) then
          ensureEnv out (bs "PATH") (join3 (executionRoot p) (bs "toolchain") (bs "bin") ++ (if windows p then bs ";" else bs ":") ++ getenv p (bs "PATH"))
        else out
  end.

(** ** Tools and commands *)
Definition abs_path (p : process) (path : bytes) : outcome bytes :=
  match Abs (working_dir p) path with Some a => Ok a | None => Err "getwd" end.

(** The entries of the search priority, in order; anything else is passed over. *)
Fixpoint search_tool (p : process) (name : bytes) (priority : list bytes) : option (outcome bytes) :=
  match priority with
  | [] => None
  | s :: r =>
      if bool_decide (s = bs "local") then
        let cand := join3 (executionRoot p) (bs "toolchain/bin") name in
        let cand2 := join3 (executionRoot p) (bs "bin") name in
        if nonempty (executionRoot p) && exists_at p cand then Some (abs_path p cand)
        else if nonempty (executionRoot p) && exists_at p cand2 then Some (abs_path p cand2)
        else search_tool p name r
      else if bool_decide (s = bs "system") then
        match lookExecutable p name with
        | Some pth => Some (abs_path p pth)
        | None => search_tool p name r
        end
      else search_tool p name r
  end.

Definition FindExecutable (p : process) (cfg : option Config) (name : bytes) : outcome bytes :=
  if IsAbs name then Ok (Clean name)
  else
    let found := match cfg with Some c => search_tool p name (TS_SearchPriority (ToolchainSettings c)) | None => None end in
    match found with
    | Some r => r
    | None => match lookExecutable p name with Some pth => abs_path p pth | None => Err "executable file not found" end
    end.

Definition checkToolInternal (p : process) (name : bytes) : outcome unit :=
  match lookExecutable p name with
  | None => Err "required tool not found in PATH"
  | Some path =>
      match tool_checksum p name with
      | None | Some [] => Ok tt
      | Some expected =>
          match hash_file p path with
          | None => Err "cannot verify checksum"
          | Some actual => if bool_decide (actual = expected) then Ok tt else Err "tool checksum mismatch"
          end
      end
  end.

(** The arguments are checked, but for the one after [-c] or [/C]. *)
Fixpoint check_args (p : process) (first : bytes) (i : nat) (args : list bytes) : outcome unit :=
  match args with
  | [] => Ok tt
  | a :: r =>
      if bool_decide (i = 1%nat) && among first [bs "-c"; bs "/C"] then check_args p first (S i) r
      else ValidateCLIArg p a;; check_args p first (S i) r
  end.

(** The executable, its arguments, its directory and its environment. *)
Record command := mk_command { c_path : bytes; c_args : list bytes; c_dir : bytes; c_env : list bytes }.

Definition buildCommand (p : process) (cfg : option Config) (name : bytes) (args : list bytes) : outcome command :=
  check (nilb name) "command name required";;
  ValidateCLIArg p name;;
  resolved ← FindExecutable p cfg name;
  let base := filepath_Base resolved in
  (if among base [bs "sh"; bs "bash"] then match args with a :: _ => ValidateCLIArg p a | [] => Ok tt end else Ok tt);;
  check_args p (default [] (head args)) 0 args;;
  let env := match cfg with
             | Some c => if bool_decide (Isolation c = IsolationNone) then deterministicEnv p else SafeEnv p (Some c)
             | None => deterministicEnv p
             end in
  Ok (mk_command resolved args (executionRoot p) env).

(** ** Scrubbing *)

(** The loop over the data from the cursor on: an occurrence of [root] is
    overwritten with [new], which may reach past its end, and the cursor moves
    behind the occurrence. *)
Fixpoint scrub (fuel : nat) (root new rest : bytes) : bytes :=
  match fuel, rest with
  | S k, x :: r =>
      if HasPrefix rest root then
        let patched := take (length rest) new ++ drop (length new) rest in
        take (length root) patched ++ scrub k root new (drop (length root) patched)
      else x :: scrub k root new r
  | _, _ => rest
  end.

(** The base is padded with zeros to the length of the root. *)
Definition scrub_text (hostRoot : bytes) : bytes :=
  let base := bs "./" ++ filepath_Base hostRoot in
  base ++ replicate (length hostRoot - length base) 0.

(** The new contents of the file, when they change. *)
Definition ScrubHostPaths (data hostRoot : bytes) : option bytes :=
  if nilb hostRoot then None
  else if negb (Contains data hostRoot) then None
  else Some (scrub (length data) hostRoot (scrub_text hostRoot) data).

(** ** Scrubbing is a replacement *)
Lemma scrub_replaces fuel root new s : root ≠ [] → length new = length root → (length s ≤ fuel)%nat →
  scrub fuel root new s = replace_from 0 root new s.
Proof.
  intros Hr Hn. revert s. induction fuel as [|k IH]; intros s Hs.
  { destruct s; [done|cbn in Hs; lia]. }
  destruct s as [|x r]; [done|]. cbn [scrub].
  destruct (HasPrefix (x :: r) root) eqn:Hp.
  - apply HasPrefix_true in Hp as [t Ht]. rewrite Ht in *.
    rewrite replace_from_here by done.
    assert (length new ≤ length (root ++ t))%nat as Hle by (rewrite length_app; lia).
    rewrite (take_ge new) by exact Hle.
    rewrite Hn, (drop_app_length root). rewrite <- Hn.
    rewrite take_app_length, drop_app_length, IH; [done|].
    rewrite length_app in Hs. destruct root; [done|cbn in Hs; lia].
  - cbn [replace_from]. rewrite Hp, IH; [done|cbn in Hs; lia].
Qed.

Lemma scrub_length fuel root new s : length (scrub fuel root new s) = length s.
Proof.
  revert s. induction fuel as [|k IH]; intros [|x r]; try done. cbn [scrub].
  destruct (HasPrefix (x :: r) root); cbn [length].
  - set (p := take _ new ++ _). assert (length p = length (x :: r)) as Hp.
    { subst p. rewrite length_app, length_take, length_drop. cbn [length]. lia. }
    rewrite length_app, IH, length_take, length_drop, Hp. cbn. lia.
  - by rewrite IH.
Qed.

(** A root the scrubbing is made for: no zero byte, no component that ends with
    a dot, and longer than its base with [./] in front. *)
Definition scrubbable (root : bytes) : Prop :=
  0 ∉ root ∧ Contains (root ++ [slash]) (bs "./") = false ∧ (length (bs "./" ++ filepath_Base root) < length root)%nat.

Lemma no_dot_part x w p : contains_bytes p ((x :: w) ++ [slash]) = false → contains_bytes p (w ++ [slash]) = false.
Proof. cbn [app contains_bytes]. by intros [_ H]%orb_false_iff. Qed.

(** What is read back before a replaced occurrence stood in the data. *)
Lemma replace_prefix root t s w b : root ≠ [] →
  contains_bytes (bs "./") (w ++ [slash]) = false →
  replace_from 0 root (bs "./" ++ t) s = w ++ b → ∃ d, s = w ++ d.
Proof.
  intros Hr. revert s. induction w as [|x w IH]; intros s Hw; [by exists s|].
  destruct s as [|c r]; [done|]. cbn [replace_from].
  destruct (HasPrefix (c :: r) root) eqn:Hp.
  - cbn [app]. intros [= <- H]. exfalso. revert Hw. apply not_false_iff_true, contains_true.
    destruct w as [|y w]; cbn in H; [by exists [], []|].
    injection H as <- _. by exists [], (w ++ [slash]).
  - cbn [app]. intros [= <- H]. destruct (IH r (no_dot_part _ _ _ Hw) H) as [d ->]. by exists d.
Qed.

(** An occurrence that begins inside the replacement would cover its final zero. *)
Lemma no_overlap root base rest a b : 0 ∉ root → length (base ++ [0]) = length root →
  (base ++ [0]) ++ rest = a ++ root ++ b → ∃ u, rest = u ++ root ++ b.
Proof.
  intros H0 Hl E. apply app_eq_inv in E as [(u & Hu & Hr) | (u & -> & Hr)]; [|by exists u].
  destruct u as [|x u] using rev_ind; [by exists []; rewrite Hr|]. clear IHu.
  rewrite (assoc_L (++)) in Hu. apply app_inj_tail in Hu as [-> <-]. exfalso. apply H0.
  assert (take (length (u ++ [0])) (root ++ b) = u ++ [0]) as Ht by (rewrite Hr; apply take_app_length).
  rewrite take_app_le in Ht by (rewrite <- Hl, !length_app; lia).
  rewrite <- (take_drop (length (u ++ [0])) root), Ht. apply elem_of_app. left. apply elem_of_app. right. by left.
Qed.

Lemma replace_clean root t s : root ≠ [] → 0 ∉ root → contains_bytes (bs "./") (root ++ [slash]) = false →
  length ((bs "./" ++ t) ++ [0]) = length root →
  contains_bytes root (replace_from 0 root ((bs "./" ++ t) ++ [0]) s) = false.
Proof.
  intros Hr H0 Hd Hl. induction s as [s IH] using (induction_ltof1 _ length). unfold ltof in IH.
  apply contains_false. intros a b E.
  destruct s as [|c r]; [by destruct a, root|].
  destruct (HasPrefix (c :: r) root) eqn:Hp.
  - apply HasPrefix_true in Hp as [d Hd']. rewrite Hd', replace_from_here in E by done.
    apply no_overlap in E as [u E]; [|done..].
    assert (length d < length (c :: r))%nat as Hk by (rewrite Hd', length_app; destruct root; [done|cbn; lia]).
    by apply (proj1 (contains_false _ _) (IH d Hk) u b).
  - destruct a as [|x a].
    + change ([] ++ root ++ b) with (root ++ b) in E. rewrite <- (assoc_L (++) (bs "./")) in E. apply replace_prefix in E as [d E]; [|done..].
      rewrite E, HasPrefix_app in Hp. discriminate.
    + cbn [replace_from] in E. rewrite Hp in E. injection E as <- E.
      by apply (proj1 (contains_false _ _) (IH r ltac:(cbn; lia)) a b).
Qed.

(** C31 Scrubbing a binary of a host root whose components do not end with a dot
    and that is longer than its base with [./] in front replaces every
    occurrence of the root, from the left, with the base padded with zeros: it
    is [bytes.ReplaceAll], the length stays, and the root occurs no more. *)
Theorem ScrubHostPaths_clean data root out : scrubbable root → ScrubHostPaths data root = Some out →
  out = replace_from 0 root (scrub_text root) data ∧ length out = length data ∧ Contains out root = false.
Proof.
  intros (H0 & Hd & Hl). unfold ScrubHostPaths, Contains in *.
  assert (root ≠ []) as Hr by (destruct root; [cbn in Hl; lia|done]).
  replace (nilb root) with false by (by destruct root).
  destruct (negb _); [done|]. intros [= <-].
  assert (length (scrub_text root) = length root) as Ht.
  { unfold scrub_text. rewrite length_app, length_replicate. lia. }
  rewrite scrub_length, scrub_replaces by (done || lia). split; [done|]. split; [done|].
  destruct (length root - length (bs "./" ++ filepath_Base root))%nat as [|n] eqn:En; [lia|].
  assert (scrub_text root = (bs "./" ++ (filepath_Base root ++ replicate n 0)) ++ [0]) as Es.
  { unfold scrub_text. rewrite En, replicate_S_end. by rewrite <- !(assoc_L (++)). }
  rewrite Es in *. by apply replace_clean.
Qed.

Lemma ScrubHostPaths_clean_witness :
  let root := bs "/home/u" in
  scrubbable root ∧ ScrubHostPaths (bs "x/home/u/a.c:/home/u") root
    = Some (bs "x./u" ++ replicate 4 0 ++ bs "/a.c:./u" ++ replicate 4 0)
  ∧ Contains (bs "x./u" ++ replicate 4 0 ++ bs "/a.c:./u" ++ replicate 4 0) root = false.
Proof.
  assert (scrubbable (bs "/home/u")) as Hs by (split; [set_solver|split; [reflexivity|cbn; lia]]).
  split; [exact Hs|]. split; [reflexivity|].
  exact (proj2 (proj2 (ScrubHostPaths_clean (bs "x/home/u/a.c:/home/u") (bs "/home/u") _ Hs eq_refl))).
Defined.

(** A root of one component is shorter than [./] and its base: the byte behind
    each occurrence is overwritten. *)
Theorem ScrubHostPaths_overruns :
  ScrubHostPaths (bs "/app/main.c") (bs "/app") = Some (bs "./appmain.c")
  ∧ ScrubHostPaths (bs "in /app" ++ [0; 7]) (bs "/app") = Some (bs "in ./app" ++ [7]).
Proof. by split; vm_compute. Qed.

(** ** Commands *)

(** No character of a shell. *)
Definition plain_value (p : process) (v : bytes) : Prop := Forall (λ c, c ∉ forbiddenArgChars p) v.

Lemma ContainsAny_false s chars : ContainsAny s chars = false ↔ Forall (λ c, c ∉ chars) s.
Proof.
  unfold ContainsAny. induction s as [|c s IH]; cbn [existsb]; [by split; constructor|].
  rewrite orb_false_iff, Forall_cons, IH, bool_decide_eq_false. done.
Qed.

Lemma ValidateCLIArg_spec p v : ValidateCLIArg p v = Ok tt ↔ plain_value p v.
Proof.
  unfold ValidateCLIArg, plain_value. destruct v as [|c v]; cbn [nilb]; [by split; constructor|].
  rewrite <- ContainsAny_false. destruct (ContainsAny _ (forbiddenArgChars p)) eqn:E; [done|].
  destruct (ContainsAny _ [0; 10; 13]) eqn:E2; [|done]. exfalso.
  apply not_false_iff_true in E2. apply E2. apply ContainsAny_false.
  apply ContainsAny_false in E. eapply Forall_impl; [exact E|]. cbn. intros x Hx Hin. apply Hx.
  unfold forbiddenArgChars.
  rewrite !elem_of_cons, elem_of_nil in Hin.
  assert (x ∈ shell_chars) as Hs by (destruct Hin as [-> | [-> | [-> | []]]]; by apply (bool_decide_eq_true _)).
  destruct (windows p); [exact Hs|]. apply elem_of_app. by left.
Qed.

Lemma check_args_spec p first args i : check_args p first i args = Ok tt →
  ∀ k a, args !! k = Some a → (i + k = 1)%nat ∧ among first [bs "-c"; bs "/C"] = true ∨ plain_value p a.
Proof.
  revert i. induction args as [|a r IH]; intros i H k b Hk; [done|]. cbn [check_args] in H.
  destruct k as [|k]; [injection Hk as ->|].
  - case_bool_decide as Ei; cbn [andb] in H.
    + destruct (among first _) eqn:Ea; [left; split; [lia|done]|].
      apply bind_Ok in H as ([] & H & _). right. by apply ValidateCLIArg_spec.
    + apply bind_Ok in H as ([] & H & _). right. by apply ValidateCLIArg_spec.
  - replace (i + S k)%nat with (S i + k)%nat by lia. eapply IH; [|exact Hk].
    destruct (_ && _); [done|]. by apply bind_Ok in H as ([] & _ & H).
Qed.

Definition absolute_dir (p : process) : Prop := ∀ d, working_dir p = Some d → IsAbs d = true.

Lemma abs_path_rooted p path r : absolute_dir p → abs_path p path = Ok r → rooted_path r.
Proof.
  intros Hd. unfold abs_path. destruct (Abs _ path) as [a|] eqn:E; [|done]. intros [= <-].
  by eapply Abs_rooted.
Qed.

Lemma search_tool_rooted p name priority r : absolute_dir p →
  search_tool p name priority = Some (Ok r) → rooted_path r.
Proof.
  intros Hd. induction priority as [|s l IH]; [done|]. cbn [search_tool].
  case_bool_decide; [|case_bool_decide; [destruct (lookExecutable p name)|]]; auto.
  2: by intros [= Hx%abs_path_rooted].
  destruct (_ && _); [by intros [= Hx%abs_path_rooted]|].
  destruct (_ && _); [by intros [= Hx%abs_path_rooted]|done].
Qed.

Lemma FindExecutable_rooted p cfg name r : absolute_dir p → FindExecutable p cfg name = Ok r → rooted_path r.
Proof.
  intros Hd. unfold FindExecutable. destruct (IsAbs name) eqn:E; [intros [= <-]; by apply Clean_rooted|].
  destruct (match cfg with Some c => _ | None => _ end) as [o|] eqn:Ef.
  - intros ->. destruct cfg as [c|]; [|done]. by eapply search_tool_rooted.
  - destruct (lookExecutable p name); [by apply abs_path_rooted|done].
Qed.

Lemma buildCommand_args p cfg name args c : buildCommand p cfg name args = Ok c → c_args c = args.
Proof.
  unfold buildCommand. intros Hb.
  apply bind_Ok in Hb as (u1 & _ & Hb). apply bind_Ok in Hb as (u2 & _ & Hb).
  apply bind_Ok in Hb as (path & _ & Hb). apply bind_Ok in Hb as (u3 & _ & Hb).
  apply bind_Ok in Hb as (u4 & _ & Hb). by injection Hb as <-.
Qed.

(** A command that is built runs an absolute path without [..], in the
    execution root, with the arguments it was given; neither its name nor an
    argument has a character of the shell, but for the script after [-c]. *)
Theorem buildCommand_checked p cfg name args c : absolute_dir p → buildCommand p cfg name args = Ok c →
  rooted_path (c_path c) ∧ c_args c = args ∧ c_dir c = executionRoot p ∧ plain_value p name
  ∧ ∀ k a, args !! k = Some a → plain_value p a ∨ k = 1%nat ∧ ∃ f, head args = Some f ∧ f ∈ [bs "-c"; bs "/C"].
Proof.
  intros Hd Hb. unfold buildCommand in Hb.
  apply bind_Ok in Hb as (u1 & Hu1 & Hb). destruct u1. apply bind_Ok in Hb as ([] & Hn & Hb).
  apply bind_Ok in Hb as (path & Hf & Hb). apply bind_Ok in Hb as ([] & _ & Hb).
  apply bind_Ok in Hb as ([] & Ha & Hb). injection Hb as <-. cbn.
  split; [by eapply FindExecutable_rooted|]. split; [done|]. split; [done|].
  split; [by apply ValidateCLIArg_spec|]. intros k a Hk.
  destruct (check_args_spec _ _ _ _ Ha k a Hk) as [[Hk1 Hc] | Hp]; [right|by left].
  split; [done|]. destruct args as [|f r]; [done|]. exists f. split; [done|].
  by apply bool_decide_eq_true in Hc.
Qed.

(** ** What the environment of a tool holds *)
Lemma ensureEnv_keeps env k v e : e ∈ env → (HasPrefix e (k ++ bs "=") = true → e = k ++ bs "=" ++ v) →
  e ∈ ensureEnv env k v.
Proof.
  intros He Hk. induction env as [|x env IH]; [by apply not_elem_of_nil in He|]. cbn [ensureEnv].
  apply elem_of_cons in He as [<- | He].
  - destruct (HasPrefix e (k ++ bs "=")); [rewrite <- Hk by done|]; by left.
  - destruct (HasPrefix x _); right; auto.
Qed.

Lemma entry_key key value k : 61 ∉ key → 61 ∉ k → HasPrefix (key ++ bs "=" ++ value) (k ++ bs "=") = true → k = key.
Proof.
  intros Hkey Hk [t Ht]%HasPrefix_true. revert k Hk Ht.
  induction key as [|c key IH]; intros [|d k] Hk Ht; cbn in Ht; try done; injection Ht as Hc Ht; subst.
  - set_solver.
  - set_solver.
  - f_equal. apply not_elem_of_cons in Hkey as [_ Hkey]. apply not_elem_of_cons in Hk as [_ Hk]. by apply IH.
Qed.

Lemma ensureEnv_other env k v key value : 61 ∉ key → 61 ∉ k → key ≠ k ∨ value = v →
  key ++ bs "=" ++ value ∈ env → key ++ bs "=" ++ value ∈ ensureEnv env k v.
Proof.
  intros Hkey Hk Hne He. apply ensureEnv_keeps; [done|]. intros Hp.
  apply entry_key in Hp as ->; [|done..]. by destruct Hne as [? | ->].
Qed.

Lemma split_entry e key value l : split_n 2 61 e = key :: value :: l → e = key ++ bs "=" ++ value ∧ 61 ∉ key.
Proof.
  cbn [split_n]. destruct (span _ e) as [h [|x t]] eqn:E; [done|]. intros [= <- <- _].
  revert h t E. induction e as [|c e IH]; intros h t; cbn; [done|].
  destruct (Z.eqb_spec c 61) as [-> | Hc]; cbn [negb].
  - intros [= <- <- <-]. by split; [|apply not_elem_of_nil].
  - destruct (span _ e) as [h' r]. intros [= <- ->]. destruct (IH h' t eq_refl) as [-> Hk].
    split; [done|]. by apply not_elem_of_cons.
Qed.

(** The entries of the process that a map holds. *)
Definition entries_of (env : list bytes) (m : gmap bytes bytes) : Prop :=
  map_Forall (λ k v, 61 ∉ k ∧ k ++ bs "=" ++ v ∈ env) m.

Lemma fold_left_inv {A B} (P : A → Prop) (f : A → B → A) l a :
  (∀ x b, b ∈ l → P x → P (f x b)) → P a → P (fold_left f l a).
Proof.
  revert a. induction l as [|b l IH]; intros a Hf Ha; [done|]. cbn.
  apply IH; [intros x c Hc; apply Hf; by right|apply Hf; [by left|done]].
Qed.

Lemma allowed_env_entries p allow : entries_of (environ p) (allowed_env p allow).
Proof.
  unfold allowed_env. apply (fold_left_inv (entries_of (environ p))); [|apply map_Forall_empty].
  intros m e He Hm. apply (fold_left_inv (entries_of (environ p))); [|done].
  clear m Hm. intros m k _ Hm. unfold allow_entry. destruct (HasPrefix e _); [|done].
  destruct (split_n 2 61 e) as [|key [|value l]] eqn:E; [done..|].
  apply split_entry in E as [-> Hk]. by apply map_Forall_insert_2.
Qed.

(** A variable the host gives once, and that is not one of those that are set. *)
Definition host_variable (p : process) (key value : bytes) : Prop :=
  key ++ bs "=" ++ value ∈ environ p ∧ 61 ∉ key
  ∧ (∀ v, key ++ bs "=" ++ v ∈ environ p → v = value)
  ∧ key ∉ [bs "LC_ALL"; bs "LANG"; bs "TZ"; bs "SOURCE_DATE_EPOCH"; bs "PATH"].

Lemma deterministicEnv_keeps p key value : host_variable p key value → key ++ bs "=" ++ value ∈ deterministicEnv p.
Proof.
  intros (He & Hk & _ & Hn). rewrite !not_elem_of_cons in Hn. destruct Hn as (? & ? & ? & ? & _).
  unfold deterministicEnv.
  repeat (apply ensureEnv_other; [done|by apply (bool_decide_eq_true _)|by left|]). done.
Qed.

(** Whatever variables a configuration allows, the environment of a tool
    holds every variable of the host: the list of allowed ones removes none. *)
Theorem SafeEnv_leaks p cfg key value : (∀ m, env_order p m ≡ₚ map_to_list m) → host_variable p key value →
  key ++ bs "=" ++ value ∈ SafeEnv p cfg.
Proof.
  intros Ho Hv. pose proof (deterministicEnv_keeps _ _ _ Hv) as Hd.
  destruct Hv as (He & Hk & Hu & Hn). unfold SafeEnv. destruct cfg as [c|]; [|done].
  destruct (nilb _); [done|]. cbv zeta.
  set (env := allowed_env p _). set (out := fold_left _ _ _).
  assert (key ++ bs "=" ++ value ∈ out) as Hout.
  { subst out. apply (fold_left_inv (λ o, key ++ bs "=" ++ value ∈ o)); [|done].
    intros o [k v] Hkv Hin. rewrite Ho, elem_of_map_to_list in Hkv.
    destruct (allowed_env_entries p _ k v Hkv) as [Hk' Hin']. cbn [fst snd].
    apply ensureEnv_other; [done..| |done].
    destruct (decide (key = k)) as [<- | Hne]; [right; symmetry; by apply Hu|by left]. }
  destruct (_ && _); [|done].
  apply ensureEnv_other; [done|by apply (bool_decide_eq_true _)| |done].
  left. intros ->. apply Hn. by apply (bool_decide_eq_true _).
Qed.

(** A Linux host with one tool, one foreign variable and a configuration that
    allows another. *)
Definition example_process : process := {|
  windows := false; environ := [bs "SECRET=1"; bs "CC=cc"; bs "PATH=/bin"];
  executionRoot := bs "/w"; exists_at := λ _, false;
  lookExecutable := λ n, if bool_decide (n = bs "ld") then Some (bs "/usr/bin/ld") else None;
  working_dir := Some (bs "/w"); hash_file := λ _, None; tool_checksum := λ _, None;
  env_order := map_to_list |}.

Definition example_config : Config :=
  zero_Config <| ToolchainSettings := mk_ToolchainOpts [] [bs "CC"] ∅ |> <| Isolation := IsolationStrict |>.

Lemma SafeEnv_leaks_witness :
  host_variable example_process (bs "SECRET") (bs "1")
  ∧ bs "SECRET" ∉ TS_EnvAllow (ToolchainSettings example_config)
  ∧ bs "SECRET" ++ bs "=" ++ bs "1" ∈ SafeEnv example_process (Some example_config).
Proof.
  assert (host_variable example_process (bs "SECRET") (bs "1")) as Hv.
  { split; [by apply (bool_decide_eq_true _)|]. split; [by apply (bool_decide_eq_true _)|].
    split; [|by apply (bool_decide_eq_true _)].
    intros v Hv. cbn in Hv. rewrite !elem_of_cons, elem_of_nil in Hv.
    destruct Hv as [Hv | [Hv | [Hv | []]]]; [by injection Hv|discriminate..]. }
  split; [exact Hv|]. split; [by apply (bool_decide_eq_true _)|].
  apply (SafeEnv_leaks example_process (Some example_config) (bs "SECRET") (bs "1")); [done|exact Hv].
Defined.

Lemma buildCommand_checked_witness :
  ∃ c, buildCommand example_process (Some example_config) (bs "ld") [bs "a.o"; bs "-o"; bs "a"] = Ok c
    ∧ rooted_path (c_path c) ∧ c_dir c = bs "/w".
Proof.
  assert (absolute_dir example_process) as Hd by (by intros d [= <-]).
  destruct (buildCommand example_process (Some example_config) (bs "ld") [bs "a.o"; bs "-o"; bs "a"]) as [c| | |] eqn:E;
    [|vm_compute in E; discriminate..].
  exists c. destruct (buildCommand_checked _ _ _ _ _ Hd E) as (Hp & _ & Hdir & _).
  split; [reflexivity|]. split; [exact Hp|exact Hdir].
Defined.
