(* ===== verification/LinkSymbols.v ===== *)
(** * Duplicate symbols of the linker (linker/symbols.go)

    The parsers of what nm, objdump and readelf print, the cache of symbols on
    disk, and the check that no global symbol is defined twice. *)
From stdpp Require Import list gmap strings sorting.
From S2P Require Import Prelude GoStrings ConfigOps.

Record SymbolInfo := mk_SymbolInfo {
  Sym_File : bytes; Sym_Name : bytes; Sym_Type : bytes; Sym_Size : Z; Sym_Bound : bytes }.
#[export] Instance SymbolInfo_eq_dec : EqDecision SymbolInfo.
Proof. solve_decision. Defined.

(** ** The output of the tools *)
Definition blank (c : Z) : bool := (c =? 32) || (c =? 9) || (c =? 13).

(** The next field of a line, and what is behind it. *)
Definition next_field (s : bytes) : bytes * bytes := span (λ c, negb (blank c)) (span blank s).2.

Fixpoint line_fields (fuel : nat) (s : bytes) : list bytes :=
  match fuel with
  | O => []
  | S k =>
      let '(f, r) := next_field s in
      if nilb f then [] else f :: line_fields k r
  end.

(** The lines of an output that are not empty. *)
Definition output_lines (data : bytes) : list bytes := List.filter nonempty (split_byte 10 data).

Definition starts_with_dot (name : bytes) : bool := match name with 46 :: _ => true | _ => false end.
Definition global_symbol (objPath name : bytes) : SymbolInfo := mk_SymbolInfo objPath name (bs "global") 0 [].

Definition nm_line (objPath line : bytes) : option SymbolInfo :=
  let '(_, r) := next_field line in
  let '(typ, r) := next_field r in
  let '(name, _) := next_field r in
  if nilb name then None
  else match typ with
       | [] => None
       | t :: _ =>
           if negb ((t =? ch "T") || (t =? ch "D") || (t =? ch "B")) then None
           else if among name [bs "_start"] || starts_with_dot name then None
           else Some (global_symbol objPath name)
       end.
Definition parseNmOutputBytes (objPath data : bytes) : list SymbolInfo := omap (nm_line objPath) (output_lines data).

Definition objdump_line (objPath line : bytes) : option SymbolInfo :=
  if negb (contains_bytes (bs "g") line) then None
  else
    let fields := line_fields (length line) line in
    match fields !! 2%nat, last fields with
    | Some f2, Some name =>
        if (length fields <? 6)%nat then None
        else if among f2 [bs "UND"; bs "*ABS*"] then None
        else if among name [bs "_start"] || starts_with_dot name then None
        else Some (global_symbol objPath name)
    | _, _ => None
    end.
Definition parseObjdumpOutputBytes (objPath data : bytes) : list SymbolInfo := omap (objdump_line objPath) (output_lines data).

Definition readelf_line (objPath line : bytes) : option SymbolInfo :=
  if negb (contains_bytes (bs "GLOBAL") line) then None
  else
    let fields := line_fields (length line) line in
    match last fields with
    | Some name =>
        if (length fields <? 8)%nat then None
        else if bool_decide (fields !! 6%nat = Some (bs "UND")) then None
        else if among name [bs "_start"] || starts_with_dot name then None
        else Some (global_symbol objPath name)
    | None => None
    end.
Definition parseReadelfOutputBytes (objPath data : bytes) : list SymbolInfo := omap (readelf_line objPath) (output_lines data).

(** ** The cache records *)
Definition symbol_record (s : SymbolInfo) : bytes :=
  Sym_Name s ++ [9] ++ Sym_Type s ++ [9] ++ Itoa (Sym_Size s) ++ [9] ++ Sym_Bound s ++ [10].
Definition serializeSymbols (syms : list SymbolInfo) : bytes := concat (map symbol_record syms).

(** bufio.Scanner: a line without its final carriage return; a line that does
    not fit the buffer of 64 KiB stops it with an error. *)
Definition dropCR (line : bytes) : bytes :=
  match last line with Some c => if c =? 13 then removelast line else line | None => line end.
Definition maxToken : Z := 65536.

Definition parse_record (objPath line : bytes) : outcome SymbolInfo :=
  match split_byte 9 line with
  | [name; typ; sz; bound] =>
      let '(n, ok) := Atoi sz in
      if ok then Ok (mk_SymbolInfo objPath name typ n bound) else Err "invalid symbol cache size"
  | _ => Err "invalid symbol cache record"
  end.

Fixpoint scan_records (objPath : bytes) (lines : list bytes) : outcome (list SymbolInfo) :=
  match lines with
  | [] => Ok []
  | l :: r =>
      if maxToken <=? Z.of_nat (length l) then Err "token too long"
      else if nilb (dropCR l) then scan_records objPath r
      else s ← parse_record objPath (dropCR l); rest ← scan_records objPath r; Ok (s :: rest)
  end.
Definition deserializeSymbols (data objPath : bytes) : outcome (list SymbolInfo) :=
  scan_records objPath (split_byte 10 data).

(** ** Reading the symbols of an object *)
Inductive symbol_tool := Nm | Objdump | Readelf.

(** What the check asks of the system: the slot of the semaphore, the file, its
    hash, the cache directory, the tools on the path and what they print. *)
Record symbol_host := mk_symbol_host {
  acquires : bytes → bool;              (* AcquireContext *)
  file_checked : bytes → bool;          (* CheckFileExists *)
  HashFile : bytes → option bytes;
  has_cache_dir : bool;                 (* UserCacheDir *)
  on_path : bytes → bool;               (* LookPath *)
  tool_output : symbol_tool → bytes → option bytes }.

Definition getSymbolsTool (h : symbol_host) : symbol_tool :=
  if on_path h (bs "nm") then Nm else if on_path h (bs "objdump") then Objdump else Readelf.

Definition parse_output (t : symbol_tool) : bytes → bytes → list SymbolInfo :=
  match t with
  | Nm => parseNmOutputBytes
  | Objdump => parseObjdumpOutputBytes
  | Readelf => parseReadelfOutputBytes
  end.

Definition run_tool (h : symbol_host) (objPath : bytes) : outcome (list SymbolInfo) :=
  match tool_output h (getSymbolsTool h) objPath with
  | Some out => Ok (parse_output (getSymbolsTool h) objPath out)
  | None => Err "tool failed"
  end.

(** The cache: the record file of each hash. *)
Definition symbol_cache := gmap bytes bytes.

Definition readSymbols (h : symbol_host) (cache : symbol_cache) (objPath : bytes) :
    outcome (list SymbolInfo) * symbol_cache :=
  let file := if has_cache_dir h then HashFile h objPath else None in
  let fresh :=
    match run_tool h objPath with
    | Ok syms => (Ok syms, match file with Some f => <[f := serializeSymbols syms]> cache | None => cache end)
    | e => (e, cache)
    end in
  match file ≫= λ f, cache !! f with
  | Some data =>
      match deserializeSymbols data objPath with
      | Ok cached => (Ok cached, cache)
      | _ => fresh
      end
  | None => fresh
  end.

(** ** The check *)
Definition shouldCheckDuplicate (name : bytes) : bool :=
  if nilb name || among name [bs "_end"; bs "_edata"; bs "__bss_start"] then false
  else negb (HasPrefix name (bs ".L") || HasPrefix name (bs "debug_")).

(** The task of an object, and the results by index. *)
Definition symbol_task (h : symbol_host) (cache : symbol_cache) (obj : bytes) : outcome (list SymbolInfo) * symbol_cache :=
  if negb (acquires h obj) then (Err "canceled", cache)
  else if negb (file_checked h obj) then (Err "file does not exist", cache)
  else readSymbols h cache obj.

Fixpoint symbol_tasks (h : symbol_host) (cache : symbol_cache) (objs : list bytes) :
    list (outcome (list SymbolInfo)) * symbol_cache :=
  match objs with
  | [] => ([], cache)
  | o :: r =>
      let '(res, cache) := symbol_task h cache o in
      let '(rest, cache) := symbol_tasks h cache r in
      (res :: rest, cache)
  end.

Definition add_symbol (m : gmap bytes (list SymbolInfo)) (s : SymbolInfo) : gmap bytes (list SymbolInfo) :=
  <[Sym_Name s := default [] (m !! Sym_Name s) ++ [s]]> m.
(** An object whose symbols cannot be read is passed over. *)
Definition add_result (m : gmap bytes (list SymbolInfo)) (r : outcome (list SymbolInfo)) : gmap bytes (list SymbolInfo) :=
  match r with Ok syms => fold_left add_symbol syms m | _ => m end.
Definition symbol_map (results : list (outcome (list SymbolInfo))) : gmap bytes (list SymbolInfo) :=
  fold_left add_result results ∅.

Definition duplicated (kv : bytes * list SymbolInfo) : bool := (1 <? length kv.2)%nat && shouldCheckDuplicate kv.1.
Definition describe (kv : bytes * list SymbolInfo) : bytes :=
  bs "  symbol '" ++ kv.1 ++ bs "' defined in:" ++ [10] ++ bs "    "
  ++ strings_Join (map (λ s, Sym_File s ++ bs " (" ++ Sym_Type s ++ bs ")") kv.2) ([10] ++ bs "    ").
(** The text of the duplicates in the order of the map iteration. *)
Definition dup_report (l : list (bytes * list SymbolInfo)) : bytes :=
  strings_Join (map describe (List.filter duplicated l)) [10].

Definition CheckDuplicateSymbols (h : symbol_host) (order : gmap bytes (list SymbolInfo) → list (bytes * list SymbolInfo))
    (cache : symbol_cache) (objFiles : list bytes) : outcome unit * symbol_cache :=
  if (length objFiles <=? 1)%nat then (Ok tt, cache)
  else
    let '(results, cache) := symbol_tasks h cache objFiles in
    (if nonempty (dup_report (order (symbol_map results))) then Err "duplicate global symbols found" else Ok tt, cache).

(** ** Records read back *)
Definition record_line (s : SymbolInfo) : bytes :=
  strings_Join [Sym_Name s; Sym_Type s; Itoa (Sym_Size s); Sym_Bound s] [9].

(** A symbol a record can hold. *)
Definition recordable (s : SymbolInfo) : Prop :=
  (9 ∉ Sym_Name s ∧ 10 ∉ Sym_Name s) ∧ (9 ∉ Sym_Type s ∧ 10 ∉ Sym_Type s)
  ∧ (9 ∉ Sym_Bound s ∧ 10 ∉ Sym_Bound s) ∧ 0 ≤ Sym_Size s < 2 ^ 63 ∧ last (Sym_Bound s) ≠ Some 13.

Definition short_record (s : SymbolInfo) : bool := Z.of_nat (length (record_line s)) <? maxToken.

(** The symbol under the name of another object. *)
Definition in_object (p : bytes) (s : SymbolInfo) : SymbolInfo :=
  mk_SymbolInfo p (Sym_Name s) (Sym_Type s) (Sym_Size s) (Sym_Bound s).

Lemma digits_avoid n c : 0 ≤ n → is_digit c = false → c ∉ Itoa n.
Proof.
  intros Hn Hc Hin. destruct (Itoa_digits n Hn) as [_ Hd].
  rewrite Forall_forall in Hd. rewrite (Hd c Hin) in Hc. discriminate.
Qed.

Lemma split_fields p ps sep : Forall (λ w, sep ∉ w) (p :: ps) → split_byte sep (strings_Join (p :: ps) [sep]) = p :: ps.
Proof.
  revert p. induction ps as [|q ps IH]; intros p [Hp Hps]%Forall_cons; [by apply split_byte_word|].
  change (strings_Join (p :: q :: ps) [sep]) with (p ++ sep :: strings_Join (q :: ps) [sep]).
  rewrite split_byte_app by done. by rewrite IH.
Qed.

Lemma record_line_plain s : recordable s → 10 ∉ record_line s.
Proof.
  intros ((_ & H1) & (_ & H2) & (_ & H3) & H4 & _). unfold record_line. cbn [strings_Join].
  pose proof (digits_avoid (Sym_Size s) 10 ltac:(lia) eq_refl). set_solver.
Qed.

Lemma dropCR_record s : recordable s → dropCR (record_line s) = record_line s.
Proof.
  intros (_ & _ & _ & _ & Hl). unfold dropCR.
  assert (last (record_line s) ≠ Some 13) as Hr.
  { unfold record_line. cbn [strings_Join]. rewrite !(assoc_L (++)). rewrite last_app.
    destruct (last (Sym_Bound s)) eqn:E; [congruence|]. by rewrite last_snoc. }
  destruct (last (record_line s)) as [z|]; [|done].
  destruct (Z.eqb_spec z 13) as [-> | Hz]; done.
Qed.

Lemma parse_record_line p s : recordable s → parse_record p (record_line s) = Ok (in_object p s).
Proof.
  intros ((H1 & _) & (H2 & _) & (H3 & _) & H4 & _). unfold parse_record, record_line.
  rewrite split_fields.
  - rewrite Atoi_Itoa by lia. done.
  - repeat constructor; try done. apply digits_avoid; [lia|done].
Qed.

Lemma split_lines ls : Forall (λ l, 10 ∉ l) ls → split_byte 10 (concat (map (λ l, l ++ [10]) ls)) = ls ++ [[]].
Proof.
  induction ls as [|l ls IH]; intros H; [done|]. apply Forall_cons in H as [Hl H]. cbn [map concat].
  rewrite <- (assoc_L (++)). cbn [app]. rewrite split_byte_app by done. by rewrite IH.
Qed.

Lemma serialize_lines syms : serializeSymbols syms = concat (map (λ l, l ++ [10]) (map record_line syms)).
Proof.
  unfold serializeSymbols. rewrite map_map. f_equal. apply map_ext. intros s. unfold symbol_record, record_line.
  cbn [strings_Join]. by rewrite <- !(assoc_L (++)).
Qed.

(** A record that is too long for the scanner is the only way to fail. *)
Lemma scan_records_lines p syms : Forall recordable syms →
  scan_records p (map record_line syms ++ [[]])
  = if forallb short_record syms then Ok (map (in_object p) syms) else Err "token too long".
Proof.
  induction syms as [|s syms IH]; intros H; [done|]. apply Forall_cons in H as [Hs H].
  cbn [map app scan_records forallb]. rewrite Z.leb_antisym.
  fold (short_record s). destruct (short_record s); cbn [negb andb]; [|done].
  rewrite dropCR_record by done.
  assert (nilb (record_line s) = false) as ->.
  { unfold record_line. cbn [strings_Join]. by destruct (Sym_Name s). }
  rewrite parse_record_line, IH by done. cbn. by destruct (forallb _ syms).
Qed.

Lemma deserialize_serialize p syms : Forall recordable syms →
  deserializeSymbols (serializeSymbols syms) p
  = if forallb short_record syms then Ok (map (in_object p) syms) else Err "token too long".
Proof.
  intros H. unfold deserializeSymbols. rewrite serialize_lines, split_lines; [by apply scan_records_lines|].
  apply Forall_map. eapply Forall_impl; [exact H|]. apply record_line_plain.
Qed.

(** ** What the parsers give *)

(** A word of a line. *)
Definition plain_field (w : bytes) : Prop := Forall (λ c, blank c = false ∧ c ≠ 10) w.

Lemma span_incl {A} (f : A → bool) l x : x ∈ (span f l).1 ∨ x ∈ (span f l).2 → x ∈ l.
Proof. intros H. rewrite <- (span_app f l). by apply elem_of_app. Qed.

Lemma next_field_spec s : 10 ∉ s → plain_field (next_field s).1 ∧ 10 ∉ (next_field s).2.
Proof.
  intros Hs. unfold next_field. assert (10 ∉ (span blank s).2) as H by (intros H; apply Hs; eapply span_incl; by right).
  split; [|intros Hi; apply H; eapply span_incl; by right].
  pose proof (span_fst_forall (λ c, negb (blank c)) (span blank s).2) as Hf.
  unfold plain_field. rewrite Forall_forall in *. intros x Hx. split; [by apply negb_true_iff, Hf|].
  intros ->. apply H. eapply span_incl. by left.
Qed.

Lemma line_fields_plain fuel s : 10 ∉ s → Forall plain_field (line_fields fuel s).
Proof.
  revert s. induction fuel as [|k IH]; intros s Hs; [constructor|]. cbn [line_fields].
  pose proof (next_field_spec s Hs) as [Hf Hr]. destruct (next_field s) as [f r]; cbn [fst snd] in *.
  destruct (nilb f); constructor; auto.
Qed.

Lemma global_recordable p name : plain_field name → recordable (global_symbol p name).
Proof.
  unfold plain_field. rewrite Forall_forall. intros H.
  assert (9 ∉ name ∧ 10 ∉ name) as Hn by (split; intros Hi; destruct (H _ Hi) as [Hb Hc]; done).
  split; [exact Hn|]. split; [split; by apply (bool_decide_eq_true _)|].
  split; [split; apply not_elem_of_nil|]. by split.
Qed.

Lemma output_lines_plain data line : line ∈ output_lines data → 10 ∉ line.
Proof.
  unfold output_lines. rewrite list_elem_of_In, filter_In, <- list_elem_of_In. intros [H _].
  pose proof (split_byte_parts 10 data) as Hp. rewrite Forall_forall in Hp. by apply Hp.
Qed.

Lemma parse_output_recordable t p data : Forall recordable (parse_output t p data).
Proof.
  rewrite Forall_forall. intros s Hs.
  assert (∃ name, plain_field name ∧ s = global_symbol p name) as (name & Hn & ->); [|by apply global_recordable].
  destruct t; cbn [parse_output] in Hs; apply list_elem_of_omap in Hs as (line & Hl%output_lines_plain & Hs).
  - unfold nm_line in Hs.
    pose proof (next_field_spec line Hl) as [_ H1]. destruct (next_field line) as [f0 r0]; cbn [fst snd] in *.
    pose proof (next_field_spec r0 H1) as [_ H2]. destruct (next_field r0) as [f1 r1]; cbn [fst snd] in *.
    pose proof (next_field_spec r1 H2) as [H3 _]. destruct (next_field r1) as [f2 r2]; cbn [fst snd] in *.
    destruct (nilb f2), f1 as [|t f1]; try done. destruct (negb _); [done|]. destruct (_ || _); [done|].
    injection Hs as <-. by exists f2.
  - unfold objdump_line in Hs. destruct (negb _); [done|]. cbv zeta in Hs.
    pose proof (line_fields_plain (length line) line Hl) as Hf.
    destruct (line_fields _ line !! 2%nat); [|done]. destruct (last _) as [name|] eqn:El; [|done].
    destruct (_ <? _)%nat; [done|]. destruct (among _ _); [done|]. destruct (_ || _); [done|].
    injection Hs as <-. exists name. split; [|done]. rewrite Forall_forall in Hf. by apply Hf, last_Some_elem_of.
  - unfold readelf_line in Hs. destruct (negb _); [done|]. cbv zeta in Hs.
    pose proof (line_fields_plain (length line) line Hl) as Hf.
    destruct (last _) as [name|] eqn:El; [|done].
    destruct (_ <? _)%nat; [done|]. destruct (bool_decide _); [done|]. destruct (_ || _); [done|].
    injection Hs as <-. exists name. split; [|done]. rewrite Forall_forall in Hf. by apply Hf, last_Some_elem_of.
Qed.

Lemma parse_output_file t p data s : s ∈ parse_output t p data → Sym_File s = p.
Proof.
  destruct t; cbn [parse_output]; intros (line & _ & H)%list_elem_of_omap.
  - unfold nm_line in H. repeat (case_match; try done). by injection H as <-.
  - unfold objdump_line in H. repeat (case_match; try done). by injection H as <-.
  - unfold readelf_line in H. repeat (case_match; try done). by injection H as <-.
Qed.

(** ** The cache is transparent *)
Section cached.
Variable h : symbol_host.

(** Files with one hash have the same symbols. *)
Definition contents_decide : Prop := ∀ a b f, HashFile h a = Some f → HashFile h b = Some f →
  run_tool h b = map (in_object b) <$> run_tool h a.

(** Each record file was written for a file with that hash. *)
Definition consistent (cache : symbol_cache) : Prop := map_Forall (λ f data,
  ∃ o syms, HashFile h o = Some f ∧ run_tool h o = Ok syms ∧ data = serializeSymbols syms) cache.

Lemma run_tool_recordable o syms : run_tool h o = Ok syms → Forall recordable syms.
Proof. unfold run_tool. destruct (tool_output _ _ _); [|done]. intros [= <-]. apply parse_output_recordable. Qed.

Lemma readSymbols_transparent cache o : contents_decide → consistent cache →
  (readSymbols h cache o).1 = run_tool h o ∧ consistent (readSymbols h cache o).2.
Proof.
  intros Hc Hk. unfold readSymbols.
  set (file := if has_cache_dir h then HashFile h o else None).
  assert (∀ f, file = Some f → HashFile h o = Some f) as Hfile by (subst file; by destruct (has_cache_dir h)).
  set (fresh := match run_tool h o with Ok _ => _ | _ => _ end).
  assert (fresh.1 = run_tool h o ∧ consistent fresh.2) as Hfresh.
  { subst fresh. destruct (run_tool h o) as [syms| | |] eqn:E; [|done..]. split; [done|]. cbn [snd].
    destruct file as [f|]; [|done]. apply map_Forall_insert_2; [|done]. exists o, syms. auto. }
  clearbody fresh. destruct file as [f|]; [|exact Hfresh]. cbn.
  destruct (cache !! f) as [data|] eqn:Ed; [|exact Hfresh].
  destruct (Hk _ _ Ed) as (o' & syms & Ho & Hr & ->).
  rewrite deserialize_serialize by by eapply run_tool_recordable.
  destruct (forallb _ _); [|exact Hfresh]. cbn [fst snd]. split; [|done].
  by rewrite (Hc o' o f Ho (Hfile f eq_refl)), Hr.
Qed.

(** The symbols of an object that can be read. *)
Definition object_symbols (o : bytes) : list SymbolInfo :=
  if acquires h o && file_checked h o then match run_tool h o with Ok syms => syms | _ => [] end else [].

Lemma symbol_tasks_spec cache objs : contents_decide → consistent cache →
  map (λ r, match r with Ok syms => syms | _ => [] end) (symbol_tasks h cache objs).1 = map object_symbols objs
  ∧ consistent (symbol_tasks h cache objs).2.
Proof.
  intros Hc. revert cache. induction objs as [|o r IH]; intros cache Hk; [done|]. cbn [symbol_tasks map].
  assert (match (symbol_task h cache o).1 with Ok syms => syms | _ => [] end = object_symbols o
    ∧ consistent (symbol_task h cache o).2) as [H1 H2].
  { unfold symbol_task, object_symbols. destruct (acquires h o), (file_checked h o); cbn [negb andb]; try done.
    destruct (readSymbols_transparent cache o Hc Hk) as [-> ?]. done. }
  destruct (symbol_task h cache o) as [res cache1]. cbn [fst snd] in *.
  destruct (IH cache1 H2) as [H3 H4]. destruct (symbol_tasks h cache1 r) as [rest cache2]. cbn [fst snd] in *.
  split; [|done]. cbn [map]. by f_equal.
Qed.
End cached.

(** ** The map of symbols *)
Definition named (name : bytes) (syms : list SymbolInfo) : list SymbolInfo := filter (λ s, Sym_Name s = name) syms.

Lemma add_symbols_lookup syms m name :
  default [] (fold_left add_symbol syms m !! name) = default [] (m !! name) ++ named name syms.
Proof.
  revert m. induction syms as [|s syms IH]; intros m; [by rewrite app_nil_r|]. cbn [fold_left]. rewrite IH.
  unfold add_symbol, named. rewrite filter_cons. case_decide as Hs.
  - subst name. rewrite lookup_insert_eq. cbn. by rewrite <- (assoc_L (++)).
  - by rewrite lookup_insert_ne.
Qed.

Lemma symbol_map_lookup results name :
  default [] (symbol_map results !! name)
  = named name (concat (map (λ r, match r with Ok syms => syms | _ => [] end) results)).
Proof.
  unfold symbol_map.
  enough (∀ m, default [] (fold_left add_result results m !! name) = default [] (m !! name)
    ++ named name (concat (map (λ r, match r with Ok syms => syms | _ => [] end) results))) as -> by done.
  induction results as [|r results IH]; intros m; [by rewrite app_nil_r|]. cbn [fold_left map concat].
  unfold named. rewrite filter_app. fold (named name). rewrite IH, (assoc_L (++)). f_equal.
  destruct r; cbn [add_result]; [apply add_symbols_lookup|..]; by rewrite app_nil_r.
Qed.

Lemma dup_report_spec l : nonempty (dup_report l) = true ↔ ∃ kv, kv ∈ l ∧ duplicated kv = true.
Proof.
  unfold dup_report. split.
  - destruct (List.filter duplicated l) as [|kv r] eqn:E; [done|]. intros _. exists kv.
    rewrite list_elem_of_In, <- filter_In, E. by left.
  - intros (kv & Hin & Hd). rewrite list_elem_of_In in Hin.
    destruct (List.filter duplicated l) as [|kv' r] eqn:E.
    { exfalso. apply (in_nil (a := kv)). rewrite <- E. by apply filter_In. }
    cbn [map]. unfold describe at 1. by destruct r.
Qed.

(** Reading an object through the cache of symbol records gives what the
    tool gives, as long as the records were written by the program for files of
    the same hash, and leaves such a cache: a record reads back as it was
    written, and one that is too long for the scanner is read from the tool. *)
Theorem symbol_cache_transparent h cache o : contents_decide h → consistent h cache →
  (readSymbols h cache o).1 = run_tool h o ∧ consistent h (readSymbols h cache o).2.
Proof. apply readSymbols_transparent. Qed.

(** ** What [nm -g] prints

    One line for each external symbol: its value in hexadecimal, or blanks when
    it has none here, the letter of its type and its name. *)
Record external := mk_external { ex_value : option Z; ex_type : Z; ex_name : bytes }.

Definition hex_digit (d : Z) : Z := if d <? 10 then 48 + d else 87 + d.
Definition hex (digits : nat) (v : Z) : bytes :=
  map (λ i, hex_digit (Z.land (Z.shiftr v (4 * Z.of_nat i)) 15)) (rev (List.seq 0 digits)).

Definition external_line (digits : nat) (x : external) : bytes :=
  match ex_value x with Some v => hex digits v | None => replicate digits 32 end
  ++ [32; ex_type x; 32] ++ ex_name x.
Definition nm_print (digits : nat) (l : list external) : bytes := concat (map (λ x, external_line digits x ++ [10]) l).

(** A name is a word, the type a printed character. *)
Definition wf_external (x : external) : Prop := ex_name x ≠ [] ∧ plain_field (ex_name x) ∧ 32 < ex_type x < 127.

(** A definition in the text, the data or the bss section. *)
Definition defines (x : external) : bool :=
  bool_decide (is_Some (ex_value x)) && ((ex_type x =? ch "T") || (ex_type x =? ch "D") || (ex_type x =? ch "B")).

(** The names whose duplicates are reported. *)
Definition reported (name : bytes) : Prop :=
  name ∉ [bs "_start"; bs "_end"; bs "_edata"; bs "__bss_start"] ∧ head name ≠ Some 46 ∧ ¬ bs "debug_" `prefix_of` name.

Lemma next_field_word pre w rest :
  Forall (λ c, blank c = true) pre → Forall (λ c, blank c = false) w →
  match rest with [] => True | c :: _ => blank c = true end → w ≠ [] →
  next_field (pre ++ w ++ rest) = (w, rest).
Proof.
  intros Hp Hw Hr Hn. unfold next_field.
  assert ((span blank (pre ++ w ++ rest)).2 = w ++ rest) as ->.
  { induction Hp as [|c pre Hc _ IH]; cbn; [|rewrite Hc; by destruct (span blank (pre ++ w ++ rest))].
    destruct w as [|c w]; [done|]. apply Forall_cons in Hw as [Hc _]. cbn. by rewrite Hc. }
  clear Hp Hn. induction Hw as [|c w Hc _ IH]; cbn.
  - destruct rest as [|c rest]; [done|]. cbn. by rewrite Hr.
  - rewrite Hc. cbn. by rewrite IH.
Qed.

Lemma hex_plain digits v : Forall (λ c, blank c = false ∧ c ≠ 10) (hex digits v).
Proof.
  apply Forall_map, Forall_forall. intros i _. unfold hex_digit.
  pose proof (Z.mod_pos_bound (Z.shiftr v (4 * Z.of_nat i)) 16 ltac:(lia)) as Hd.
  change 15 with (Z.ones 4). rewrite Z.land_ones by lia. change (2 ^ 4) with 16.
  destruct (Z.ltb_spec (Z.shiftr v (4 * Z.of_nat i) `mod` 16) 10); unfold blank; split; lia.
Qed.

Lemma external_line_plain digits x : wf_external x → 10 ∉ external_line digits x ∧ external_line digits x ≠ [].
Proof.
  intros (_ & Hn & Ht). split; [|unfold external_line; by destruct (match ex_value x with Some _ => _ | None => _ end)].
  unfold external_line. rewrite !not_elem_of_app. repeat split.
  - destruct (ex_value x) as [v|].
    + intros H. pose proof (hex_plain digits v) as Hh. rewrite Forall_forall in Hh. by destruct (Hh 10 H).
    + intros H. by apply elem_of_replicate in H as [H _].
  - intros H. rewrite !elem_of_cons in H. destruct H as [H|[H|[H|H%not_elem_of_nil]]]; lia || done.
  - intros H. unfold plain_field in Hn. rewrite Forall_forall in Hn. by destruct (Hn 10 H).
Qed.

Lemma nm_line_external digits o x : (0 < digits)%nat → wf_external x →
  nm_line o (external_line digits x)
  = if defines x && negb (among (ex_name x) [bs "_start"] || starts_with_dot (ex_name x)) then Some (global_symbol o (ex_name x)) else None.
Proof.
  intros Hd (Hne & Hn & Ht). unfold nm_line, external_line, defines.
  assert (blank (ex_type x) = false) as Hb by (unfold blank; lia).
  assert (Forall (λ c, blank c = false) (ex_name x)) as Hnb by (eapply Forall_impl; [exact Hn|]; by intros ? []).
  destruct (ex_value x) as [v|].
  - assert (Forall (λ c, blank c = false) (hex digits v)) as Hhb by (eapply Forall_impl; [apply hex_plain|]; by intros ? []).
    assert (hex digits v ≠ []) as Hhn.
    { intros E. apply (f_equal length) in E. unfold hex in E. rewrite length_map, length_rev, length_seq in E. cbn in E. lia. }
    pose proof (next_field_word [] (hex digits v) ([32; ex_type x; 32] ++ ex_name x) ltac:(constructor) Hhb eq_refl Hhn) as E0.
    cbn [app] in E0 |- *. rewrite E0.
    pose proof (next_field_word [32] [ex_type x] (32 :: ex_name x) ltac:(by repeat constructor) ltac:(by repeat constructor) eq_refl ltac:(done)) as E1.
    cbn [app] in E1 |- *. rewrite E1.
    replace (32 :: ex_name x) with ([32] ++ ex_name x ++ []) by (by rewrite app_nil_r).
    rewrite next_field_word by (done || by repeat constructor).
    destruct (ex_name x) as [|c n] eqn:E; [done|]. rewrite <- E in *. rewrite bool_decide_true by (by eexists).
    replace (nilb (ex_name x)) with false by (by rewrite E). cbn [andb].
    destruct (_ || _ || _); cbn [negb andb]; [|done]. by destruct (_ || _).
  - rewrite bool_decide_false by (intros [? [=]]). cbn [andb].
    replace (replicate digits 32 ++ [32; ex_type x; 32] ++ ex_name x) with ((replicate digits 32 ++ [32]) ++ [ex_type x] ++ 32 :: ex_name x)
      by (by rewrite <- (assoc_L (++))).
    rewrite next_field_word by (done || (try apply Forall_app; repeat split; try apply Forall_replicate; by repeat constructor)).
    replace (32 :: ex_name x) with ([32] ++ ex_name x ++ []) by (by rewrite app_nil_r).
    rewrite next_field_word by (done || by repeat constructor). cbn. done.
Qed.

Lemma parse_nm_print digits o l : (0 < digits)%nat → Forall wf_external l →
  parseNmOutputBytes o (nm_print digits l) = omap (nm_line o) (map (external_line digits) l).
Proof.
  intros Hd Hl. unfold parseNmOutputBytes, output_lines, nm_print.
  rewrite <- (map_map (external_line digits) (λ l, l ++ [10])), split_lines.
  - rewrite List.filter_app, app_nil_r. f_equal. induction Hl as [|x l Hx _ IH]; [done|]. cbn.
    destruct (external_line_plain digits x Hx) as [_ Hne]. destruct (external_line digits x); [done|]. cbn. by rewrite IH.
  - apply Forall_map. eapply Forall_impl; [exact Hl|]. intros x Hx. by apply external_line_plain.
Qed.

Section check_spec.
Variables (h : symbol_host) (order : gmap bytes (list SymbolInfo) → list (bytes * list SymbolInfo)).
Variables (table : bytes → option (list external)) (digits : nat).
Variable Horder : ∀ m, order m ≡ₚ map_to_list m.
Variable Hdigits : (0 < digits)%nat.
Variable Hnm : on_path h (bs "nm") = true.
Variable Hprint : ∀ o, tool_output h Nm o = nm_print digits <$> table o.
Variable Htable : ∀ o l, table o = Some l → Forall wf_external l.
Variable Hhash : ∀ a b f, HashFile h a = Some f → HashFile h b = Some f → table a = table b.

(** The external symbols of an object that can be read. *)
Definition externals (o : bytes) : list external :=
  if acquires h o && file_checked h o then default [] (table o) else [].

(** How often the objects that can be read define a name. *)
Definition definitions_of (objFiles : list bytes) (name : bytes) : nat :=
  length (filter (λ x, defines x = true ∧ ex_name x = name) (concat (map externals objFiles))).

Lemma run_nm o : run_tool h o =
  match table o with
  | Some l => Ok (omap (λ x, nm_line o (external_line digits x)) l)
  | None => Err "tool failed"
  end.
Proof.
  unfold run_tool, getSymbolsTool. rewrite Hnm, Hprint. destruct (table o) as [l|] eqn:E; [|done]. cbn.
  rewrite parse_nm_print by (done || by eapply Htable). f_equal. clear. induction l as [|x l IH]; [done|].
  cbn. destruct (nm_line _ _); by rewrite IH.
Qed.

Lemma hash_decides : contents_decide h.
Proof.
  intros a b f Ha Hb. rewrite !run_nm, (Hhash a b f Ha Hb). destruct (table b) as [l|] eqn:E; [|done]. cbn. f_equal.
  pose proof (Htable b l E) as Hl. clear -Hl Hdigits. induction Hl as [|x l Hx _ IH]; [done|]. cbn.
  rewrite !nm_line_external by done. destruct (_ && _); cbn; by rewrite IH.
Qed.

(** What the parser leaves out by name. *)
Definition kept (name : bytes) : bool := negb (among name [bs "_start"] || starts_with_dot name).

Lemma reported_spec name : name ≠ [] → shouldCheckDuplicate name && kept name = true ↔ reported name.
Proof.
  intros Hne. unfold shouldCheckDuplicate, kept, reported, among.
  replace (nilb name) with false by (by destruct name). cbn [orb].
  assert (starts_with_dot name = bool_decide (head name = Some 46)) as ->.
  { destruct name as [|c r]; [done|]. cbn. destruct (decide (c = 46)) as [->|Hc]; [by rewrite bool_decide_true|].
    rewrite bool_decide_false by congruence. by destruct c as [|c|]; [|repeat (destruct c as [c|c|]; try done)|]. }
  assert (HasPrefix name (bs ".L") = true → head name = Some 46) as HL.
  { intros [r ->]%HasPrefix_true. done. }
  assert (HasPrefix name (bs "debug_") = true ↔ bs "debug_" `prefix_of` name) as HD by apply HasPrefix_true.
  rewrite !not_elem_of_cons. destruct (bool_decide (name ∈ _)) eqn:E1.
  - apply bool_decide_eq_true in E1. cbn. split; [done|]. intros ((_ & H1 & H2 & H3 & _) & _).
    rewrite !elem_of_cons in E1. destruct E1 as [?|[?|[?|[]%not_elem_of_nil]]]; done.
  - apply bool_decide_eq_false in E1. rewrite !not_elem_of_cons in E1. destruct E1 as (H1 & H2 & H3 & _).
    rewrite <- HD. destruct (HasPrefix name (bs "debug_")); [rewrite orb_true_r; cbn; naive_solver|].
    rewrite orb_false_r. case_bool_decide as Hs.
    + rewrite list_elem_of_singleton in Hs. cbn. rewrite andb_false_r. naive_solver.
    + rewrite list_elem_of_singleton in Hs. cbn [orb]. case_bool_decide as Hd; cbn [negb]; rewrite ?andb_false_r, ?andb_true_r.
      * naive_solver.
      * destruct (HasPrefix name (bs ".L")); [by destruct Hd; apply HL|]. cbn. split; [|done]. intros _.
        split; [|done]. repeat split; try done. apply not_elem_of_nil.
Qed.

Lemma named_definitions o name :
  length (named name (object_symbols h o))
  = if kept name then length (filter (λ x, defines x = true ∧ ex_name x = name) (externals o)) else 0%nat.
Proof.
  unfold object_symbols, externals. destruct (acquires h o && file_checked h o); [|by destruct (kept name)].
  rewrite run_nm. destruct (table o) as [l|] eqn:E; [|by destruct (kept name)]. cbn.
  pose proof (Htable o l E) as Hl. clear E. unfold named. induction Hl as [|x l Hx _ IH]; [by destruct (kept name)|].
  cbn [omap list_omap]. rewrite nm_line_external, filter_cons by done. fold (kept (ex_name x)).
  destruct (defines x) eqn:Ed; cbn [andb].
  - destruct (kept (ex_name x)) eqn:Ek.
    + rewrite filter_cons. cbn [global_symbol Sym_Name]. destruct (decide (ex_name x = name)) as [<-|Hn].
      * rewrite Ek in *. rewrite decide_True by done. cbn [length]. by rewrite IH.
      * rewrite IH. destruct (kept name); [|done]. rewrite decide_False by (intros [? ?]; congruence). done.
    + rewrite IH. destruct (kept name) eqn:Ek'; [|done]. rewrite decide_False by (intros [? ?]; congruence). done.
  - rewrite IH. destruct (kept name); [|done]. rewrite decide_False by (intros [? ?]; congruence). done.
Qed.

Lemma all_definitions objFiles name :
  length (named name (concat (map (object_symbols h) objFiles)))
  = if kept name then definitions_of objFiles name else 0%nat.
Proof.
  unfold definitions_of. induction objFiles as [|o r IH]; [by destruct (kept name)|]. cbn [map concat].
  unfold named in *. rewrite !filter_app, !length_app, IH. fold (named name (object_symbols h o)). rewrite named_definitions.
  destruct (kept name); lia.
Qed.

Lemma defined_name objFiles name : (0 < definitions_of objFiles name)%nat → name ≠ [].
Proof.
  unfold definitions_of. intros H ->. match type of H with context [length ?F] => set (l0 := F) in H end.
  assert (∃ x, x ∈ l0) as [x Hx] by (destruct l0 as [|x l]; [cbn in H; lia|]; exists x; by left). unfold l0 in Hx.
  apply list_elem_of_filter in Hx as [[_ Hn] Hx]. apply list_elem_of_In, in_concat in Hx as (l' & Hl & Hx).
  apply in_map_iff in Hl as (o & <- & _). unfold externals in Hx. destruct (_ && _); [|done].
  destruct (table o) as [l'|] eqn:Et; [|done]. pose proof (Htable o l' Et) as Hf. rewrite Forall_forall in Hf.
  apply list_elem_of_In, Hf in Hx. by destruct Hx.
Qed.

(** C30 The check of several objects, with nm on the path: it fails exactly when
    the objects that can be read define a name twice in their text, data or bss
    sections, the names of the linker and the start code, local names (.L) and
    debug_ names apart. nm prints the external symbols of an object in its
    format, files of one hash have the same symbols, the cache holds records
    that the program wrote for files of their hash, and the map is iterated in
    any order. *)
Theorem CheckDuplicateSymbols_spec cache objFiles : consistent h cache → (2 ≤ length objFiles)%nat →
  match (CheckDuplicateSymbols h order cache objFiles).1 with
  | Ok _ => ∀ name, reported name → (definitions_of objFiles name ≤ 1)%nat
  | Err _ => ∃ name, reported name ∧ (2 ≤ definitions_of objFiles name)%nat
  | _ => False
  end.
Proof.
  intros Hk Hl. unfold CheckDuplicateSymbols. rewrite (proj2 (Nat.leb_gt _ _)) by lia.
  pose proof (symbol_tasks_spec h cache objFiles hash_decides Hk) as [Hr _].
  destruct (symbol_tasks h cache objFiles) as [results cache']. cbn [fst snd] in *.
  assert (∀ name, length (default [] (symbol_map results !! name)) = if kept name then definitions_of objFiles name else 0%nat) as Hm.
  { intros name. by rewrite symbol_map_lookup, Hr, all_definitions. }
  destruct (nonempty _) eqn:E.
  - apply dup_report_spec in E as ([name syms] & Hin & Hd). rewrite Horder, elem_of_map_to_list in Hin.
    unfold duplicated in Hd. cbn [fst snd] in Hd. apply andb_true_iff in Hd as [Hn Hs]. apply Nat.ltb_lt in Hn.
    exists name. specialize (Hm name). rewrite Hin in Hm. cbn in Hm. destruct (kept name) eqn:Ek; [|lia].
    split; [|lia]. apply reported_spec; [apply (defined_name objFiles); lia|]. by rewrite Hs.
  - intros name Hs. apply Nat.nlt_ge. intros Hn. assert (name ≠ []) as Hne by (apply (defined_name objFiles); lia).
    apply reported_spec in Hs; [|done]. apply andb_true_iff in Hs as [Hs Hkept].
    specialize (Hm name). rewrite Hkept in Hm. destruct (symbol_map results !! name) as [syms|] eqn:En; [|cbn in Hm; lia].
    cbn in Hm. apply not_true_iff_false in E. apply E, dup_report_spec. exists (name, syms).
    split; [by rewrite Horder, elem_of_map_to_list|]. unfold duplicated. cbn [fst snd]. by rewrite Hs, (proj2 (Nat.ltb_lt _ _)) by lia.
Qed.
End check_spec.

(** ** Witnesses *)

(** Two objects with their symbols, read with nm. *)
Definition example_table (o : bytes) : option (list external) :=
  if bool_decide (o = bs "a.o") then
    Some [mk_external (Some 0) (ch "T") (bs "main"); mk_external (Some 16) (ch "D") (bs "table"); mk_external None (ch "U") (bs "puts")]
  else if bool_decide (o = bs "b.o") then Some [mk_external (Some 0) (ch "T") (bs "table")]
  else None.

Definition example_objects : symbol_host := {|
  acquires := λ _, true; file_checked := λ o, among o [bs "a.o"; bs "b.o"];
  HashFile := Some; has_cache_dir := true; on_path := λ n, among n [bs "nm"];
  tool_output := λ t o, nm_print 16 <$> example_table o |}.

Lemma example_contents : contents_decide example_objects.
Proof.
  intros a b f [= ->] [= ->]. unfold run_tool. destruct (tool_output _ _ _); [|done]. cbn [fmap outcome_fmap].
  f_equal. rewrite <- (map_id (parse_output _ _ _)) at 1. apply map_ext_in. intros s Hs.
  apply list_elem_of_In, parse_output_file in Hs. destruct s. cbn in *. by subst.
Qed.

Lemma symbol_cache_transparent_witness :
  let c1 := (readSymbols example_objects ∅ (bs "a.o")).2 in
  c1 ≠ ∅ ∧ (readSymbols example_objects c1 (bs "a.o")).1
           = Ok [global_symbol (bs "a.o") (bs "main"); global_symbol (bs "a.o") (bs "table")].
Proof.
  intros c1. destruct (symbol_cache_transparent example_objects ∅ (bs "a.o") example_contents (map_Forall_empty _)) as [_ Hc].
  fold c1 in Hc. split.
  - intros H. apply (f_equal (lookup (bs "a.o"))) in H. vm_compute in H. discriminate.
  - rewrite (proj1 (symbol_cache_transparent example_objects c1 (bs "a.o") example_contents Hc)). vm_compute. reflexivity.
Defined.

Lemma example_table_wf o l : example_table o = Some l → Forall wf_external l.
Proof.
  unfold example_table. intros H. repeat case_bool_decide; try done; injection H as <-;
    repeat (apply Forall_cons; split || apply Forall_nil); try done; (split; [done|]; split; [|by vm_compute]);
    unfold plain_field; apply (Forall_impl (λ c, (negb (blank c) && negb (c =? 10)) = true));
    (intros c [Hb Hc]%andb_true_iff; split; [by apply negb_true_iff|intros ->; done]) || (apply Forall_forall; intros c Hc; cbn in Hc; set_solver).
Qed.

Lemma CheckDuplicateSymbols_spec_witness :
  (CheckDuplicateSymbols example_objects map_to_list ∅ [bs "a.o"; bs "b.o"]).1 = Err "duplicate global symbols found"
  ∧ ∃ name, reported name ∧ (2 ≤ definitions_of example_objects example_table [bs "a.o"; bs "b.o"] name)%nat.
Proof.
  assert ((CheckDuplicateSymbols example_objects map_to_list ∅ [bs "a.o"; bs "b.o"]).1
    = Err "duplicate global symbols found") as E by (vm_compute; reflexivity).
  split; [exact E|].
  pose proof (CheckDuplicateSymbols_spec example_objects map_to_list example_table 16 (λ m, reflexivity _) ltac:(lia)
    eq_refl (λ o, eq_refl) example_table_wf ltac:(by intros a b f [= ->] [= ->]) ∅
    [bs "a.o"; bs "b.o"] (map_Forall_empty _) ltac:(cbn; lia)) as H.
  rewrite E in H. exact H.
Defined.

(** A constant that two objects define ([R], the read-only data) is no
    duplicate for the check. *)
Lemma constants_unchecked :
  let out := external_line 16 (mk_external (Some 0) (ch "R") (bs "limit")) ++ [10] in
  parseNmOutputBytes (bs "a.o") out = [].
Proof. vm_compute. reflexivity. Qed.

(** objdump marks a local function with [l]; a [g] in its name is enough for the
    parser to call it global, so the same static function in two files is
    reported as a duplicate. *)
Theorem objdump_local_symbols :
  let line := bs "0000000000000000 l     F .text 0000000000000005 log" in
  parseObjdumpOutputBytes (bs "a.o") line = [global_symbol (bs "a.o") (bs "log")]
  ∧ shouldCheckDuplicate (bs "log") = true
  ∧ parseObjdumpOutputBytes (bs "a.o") (bs "0000000000000000 l     F .text 0000000000000005 init") = [].
Proof. vm_compute. auto. Qed.

(** An undefined symbol of an objdump line is left out by the number of its
    fields; the test on the third one never fires. *)
Theorem objdump_section_test :
  parseObjdumpOutputBytes (bs "a.o") (bs "0000000000000001 g     O *ABS* 0000000000000008 page") = [global_symbol (bs "a.o") (bs "page")].
Proof. by vm_compute. Qed.
