(* ===== verification/LinkArgs.v ===== *)
(** * Targets, tools and arguments of the linker

    The pure parts of linker/link.go, linker/common.go, linker/target.go,
    linker/link_objects.go, linker/response_file.go, linker/parallel.go and
    zig/zig.go: which tool links a target, with which arguments, when they go
    through a response file, and how objects are split for a parallel link. *)
From stdpp Require Import list gmap strings sorting.
From S2P Require Import Prelude GoStrings GoPath FlatLayout ConfigTypes ConfigOps ConfigMerge ConfigLoad Utils.

(** The package variables of the linker, of the assembler and of package zig,
    and the command-line flags the linker looks up. *)
Record settings := mk_settings {
  LdScript : bytes; TextAddr : bytes; Target : bytes; LdFlags : bytes;
  Shared : bool; ZigRequested : bool; ZigEnabled : bool; ForceLD : bool;
  PreferredLinker : bytes;
  asm_Target : bytes; asm_OutputFormat : bytes;
  zig_Requested : bool; zig_Enabled : bool;
  toolchainVal : bytes; muslVal : bytes }.

(** ** Targets *)
Definition target_wasm (s : settings) : bool := Contains (Target s) (bs "wasm") || Contains (Target s) (bs "wasm32").
Definition target_arm (s : settings) : bool := Contains (Target s) (bs "arm").
Definition target_risc (s : settings) : bool := Contains (Target s) (bs "riscv").
Definition getTargetInfo (s : settings) : bool * bool * bool := (target_wasm s, target_arm s, target_risc s).

Record TargetProfile := mk_TargetProfile { tp_Name : bytes; tp_Triple : bytes; tp_Flash : Region; tp_Ram : Region }.
Definition bare_profile (name : bytes) : TargetProfile :=
  mk_TargetProfile name (bs "baremetal")
    (MkRegion (bs "FLASH") 0x08000000 0x00100000 (Z.lor PermRead PermExec))
    (MkRegion (bs "RAM") 0x20000000 0x00010000 (Z.lor PermRead PermWrite)).
Definition targetProfiles : list (bytes * TargetProfile) :=
  map (λ n, (n, bare_profile n)) [bs "baremetal"; bs "cortex-m3"; bs "cortex-m4"].

Definition TargetProfileFor (h : host) (target : bytes) : option TargetProfile :=
  let normalized := ToLower h (TrimSpace target) in
  snd <$> List.find (λ '(n, _), bool_decide (n = normalized)) targetProfiles.

Definition IsBareMetalTarget (h : host) (s : settings) : bool :=
  match TargetProfileFor h (Target s) with
  | Some _ => true
  | None => Contains (Target s) (bs "baremetal") || Contains (Target s) (bs "unknown-elf") || Contains (Target s) (bs "none-")
  end.

Definition validFormats : list bytes := [bs "elf32"; bs "elf64"; bs "bin"].
Definition SetOutputFormat (format : bytes) (s : settings) : outcome settings :=
  if among format validFormats
  then Ok (mk_settings (LdScript s) (TextAddr s) (Target s) (LdFlags s) (Shared s) (ZigRequested s) (ZigEnabled s)
             (ForceLD s) (PreferredLinker s) (asm_Target s) format (zig_Requested s) (zig_Enabled s) (toolchainVal s) (muslVal s))
  else Err "invalid output format".
Definition shouldSkipLinker (s : settings) : bool := bool_decide (asm_OutputFormat s = bs "bin").

(** ** Tools *)
Definition useZig (s : settings) : bool := ZigRequested s || ZigEnabled s.

(** [detectLinker], with the names [cachedLookPath] finds. *)
Definition preferredLinker (h : host) (on_path : bytes → bool) (s : settings) : bytes :=
  let p := TrimSpace (ToLower h (PreferredLinker s)) in
  if nonempty p then p
  else if on_path (bs "ld.lld") then bs "lld"
  else if on_path (bs "mold") then bs "mold"
  else [].
Definition getFuseLdFlag (h : host) (on_path : bytes → bool) (s : settings) : bytes :=
  let l := preferredLinker h on_path s in
  if among l [bs "lld"; bs "mold"; bs "gold"] then bs "-fuse-ld=" ++ l else [].

Definition ldForTarget (on_path : bytes → bool) (s : settings) : bytes :=
  let '(w, arm, risc) := getTargetInfo s in
  if w then if on_path (bs "wasm-ld") then bs "wasm-ld" else bs "ld.lld"
  else if arm then bs "arm-linux-gnueabihf-ld"
  else if risc then bs "riscv64-unknown-elf-ld"
  else bs "ld".

Definition gccForTarget (on_path : bytes → bool) (s : settings) : bytes :=
  if bool_decide (toolchainVal s = bs "zig") || nonempty (muslVal s) then bs "zig"
  else
    let '(w, arm, risc) := getTargetInfo s in
    if w then if on_path (bs "emcc") then bs "emcc" else bs "clang"
    else if arm then bs "arm-linux-gnueabihf-gcc"
    else if risc then bs "riscv64-unknown-elf-gcc"
    else bs "gcc".
Definition clangForTarget : bytes := bs "clang".

Definition isLdExecutable (name : bytes) : bool :=
  let base := filepath_Base name in
  among base [bs "ld"; bs "ld.lld"; bs "ld.gold"; bs "wasm-ld"; bs "mold"] || HasSuffix base (bs "-ld").

(** ** Arguments *)
Definition when (b : bool) (l : list bytes) : list bytes := if b then l else [].

Definition asm_wasm (s : settings) : bool := Contains (asm_Target s) (bs "wasm") || Contains (asm_Target s) (bs "wasm32").
Definition ApplyGccLdFlags (s : settings) (args : list bytes) (ldScript textAddr : bytes) : list bytes :=
  args ++ when (nonempty ldScript) [bs "-Wl,-T," ++ ldScript] ++ when (nonempty textAddr) [bs "-Wl,-Ttext=" ++ textAddr]
  ++ when (negb (asm_wasm s)) [bs "-Wl,--build-id=none"].
Definition ApplyLdFlags (s : settings) (args : list bytes) (ldScript textAddr : bytes) : list bytes :=
  args ++ when (nonempty ldScript) [bs "-T"; ldScript] ++ when (nonempty textAddr) [bs "-Ttext"; textAddr]
  ++ when (negb (asm_wasm s)) [bs "--build-id=none"].

Definition getLdFlags (s : settings) : list bytes := Fields (LdFlags s).

Definition sanitizers (sanitize strict : bool) : list bytes :=
  when sanitize ([bs "-fsanitize=address"; bs "-fsanitize=undefined"]
    ++ when strict [bs "-fsanitize-address-use-after-return=always"; bs "-fsanitize-address-use-after-scope"]).
Definition library_flags (libs : list bytes) : list bytes := concat (map (λ l, [bs "-l"; l]) libs).

Definition buildLinkArgs (h : host) (on_path : bytes → bool) (s : settings) (objs : list bytes) (bin : bytes)
    (sanitize strict : bool) (libs : list bytes) (wasm useFuseLd : bool) : list bytes :=
  let args := [bs "-pipe"] ++ objs ++ [bs "-o"; bin] ++ when wasm [bs "--target=wasm32-unknown-unknown"]
    ++ when useFuseLd (let fuse := getFuseLdFlag h on_path s in when (nonempty fuse) [fuse])
    ++ sanitizers sanitize strict ++ library_flags libs in
  ApplyGccLdFlags s args (LdScript s) (TextAddr s) ++ getLdFlags s ++ when (Shared s) [bs "-shared"].

(** The arguments of [linkWithLd], [linkWithLdRelocatable] and [linkWindowsImpl]. *)
Definition ld_args (s : settings) (objs : list bytes) (bin : bytes) (libs : list bytes) : list bytes :=
  ApplyLdFlags s (objs ++ [bs "-o"; bin] ++ library_flags libs) (LdScript s) (TextAddr s) ++ getLdFlags s ++ when (Shared s) [bs "-shared"].
Definition relocatable_args (objs : list bytes) (out : bytes) : list bytes := objs ++ [bs "-r"; bs "-o"; out].
Definition windows_args (s : settings) (objs : list bytes) (bin : bytes) (sanitize : bool) (libs : list bytes) : list bytes :=
  ApplyGccLdFlags s (objs ++ [bs "-o"; bin; bs "-fuse-ld=lld"] ++ sanitizers sanitize false ++ library_flags libs)
    (LdScript s) (TextAddr s) ++ getLdFlags s ++ when (Shared s) [bs "-shared"].

(** zig.LinkArgs, and the fields of the extra flags zig.Link appends. *)
Definition zig_LinkArgs (objs : list bytes) (bin target : bytes) (sanitize strict : bool) (libs : list bytes)
    (shared : bool) (ldScript textAddr : bytes) : list bytes :=
  let target := if nilb target then bs "x86_64-linux-gnu" else target in
  [bs "c++"; bs "-target"; target] ++ objs ++ [bs "-o"; bin] ++ sanitizers sanitize strict
  ++ map (λ l, bs "-l" ++ l) libs ++ when (nonempty ldScript) [bs "-Wl,-T," ++ ldScript]
  ++ when (nonempty textAddr) [bs "-Wl,-Ttext=" ++ textAddr]
  ++ when (negb (Contains target (bs "wasm")) && negb (Contains target (bs "wasm32"))) [bs "-Wl,--build-id=none"]
  ++ when shared [bs "-shared"].

Definition CompilerForSource (h : host) (ext : bytes) : bytes :=
  let e := ToLower h ext in
  if among e [bs ".m"; bs ".mm"] then bs "clang"
  else if among e [bs ".cpp"; bs ".cc"; bs ".cxx"; bs ".c++"] then bs "c++"
  else bs "cc".

Definition zig_CompileArgs (h : host) (executionRoot src obj : bytes) (debug : bool) (target ext extraFlags : bytes) : list bytes :=
  let target := if nilb target then bs "x86_64-linux-gnu" else target in
  [CompilerForSource h ext; bs "-target"; target; bs "-c"; src; bs "-o"; obj;
   bs "-fno-ident"; bs "-fno-diagnostics-color"; bs "-Wall"; bs "-Wextra"; bs "-Werror"; bs "-Wpedantic"; bs "-Wshadow"; bs "-Wconversion"]
  ++ when debug (bs "-g" :: when (nonempty executionRoot) [bs "-fdebug-prefix-map=" ++ Clean executionRoot ++ bs "=."])
  ++ Fields extraFlags.

(** ** LinkObjects *)

(** The first of each name, in order. *)
Fixpoint dedup_from (seen : gset bytes) (l : list bytes) : list bytes :=
  match l with
  | [] => []
  | v :: r => if bool_decide (v ∈ seen) then dedup_from seen r else v :: dedup_from ({[v]} ∪ seen) r
  end.
Definition dedupObjects (elements : list bytes) : list bytes :=
  if (length elements <? 2)%nat then elements else dedup_from ∅ elements.

Definition optimized (cfg : option Config) : bool := match cfg with Some c => 2 <? OptimizationLevel c | None => false end.
Definition config_ld (cfg : option Config) : list bytes := match cfg with Some c => Flags_Ld (Flags c) | None => [] end.

Definition buildZigLinkCommand (s : settings) (objs : list bytes) (target : bytes) (cfg : option Config) : bytes * list bytes :=
  (bs "zig", [bs "c++"; bs "-target"; Target s] ++ when (optimized cfg) [bs "-flto"; bs "-fuse-linker-plugin"; bs "-Wl,--gc-sections"]
    ++ objs ++ [bs "-o"; target] ++ config_ld cfg).
Definition buildGccLinkCommand (objs : list bytes) (target : bytes) (cfg : option Config) : list bytes :=
  objs ++ when (optimized cfg) [bs "-flto"; bs "-fuse-linker-plugin"; bs "-Wl,--gc-sections"] ++ [bs "-o"; target] ++ config_ld cfg.

Definition buildLinkCommand (h : host) (on_path tool_ok : bytes → bool) (s : settings)
    (objs : list bytes) (target : bytes) (cfg : option Config) : outcome (bytes * list bytes) :=
  let mode := match cfg with Some c => TrimSpace (ToLower h (Mode c)) | None => bs "auto" end in
  let toolchain := match cfg with Some c => TrimSpace (ToLower h (Toolchain c)) | None => bs "auto" end in
  let mode := if nilb mode then bs "auto" else mode in
  let toolchain := if nilb toolchain then bs "auto" else toolchain in
  let gcc := (gccForTarget on_path s, buildGccLinkCommand objs target cfg) in
  if bool_decide (mode = bs "raw") then
    Ok (ldForTarget on_path s, objs ++ [bs "-o"; target] ++ config_ld cfg ++ when (optimized cfg) [bs "--gc-sections"])
  else if bool_decide (toolchain = bs "zig") || (bool_decide (toolchain = bs "auto") && useZig s) then
    if negb (tool_ok (bs "zig")) then
      if bool_decide (toolchain = bs "zig") then Err "zig toolchain requested but not available" else Ok gcc
    else Ok (buildZigLinkCommand s objs target cfg)
  else Ok gcc.

Definition hasUndefinedSymbol (output : bytes) : bool :=
  nonempty output && (Contains output (bs "undefined reference") || Contains output (bs "undefined symbol") || Contains output (bs "unresolved symbol")).

(** ** Response files *)
Definition maxResponseFileBytes : Z := 32 * 1024.
Definition maxResponseFileArg : Z := 8192.

Fixpoint response_needed (total : Z) (args : list bytes) : bool :=
  match args with
  | [] => false
  | a :: r =>
      if maxResponseFileArg <? Zlen a then true
      else
        let total := total + Zlen a + 1 in
        if maxResponseFileBytes <? total then true else response_needed total r
  end.
Definition shouldUseResponseFile (args : list bytes) : bool := (128 <? Zlen args) || response_needed 0 args.

(** What is written to the file. *)
Fixpoint response_lines (p : process) (args : list bytes) : outcome bytes :=
  match args with
  | [] => Ok []
  | a :: r =>
      check (ContainsAny a [10; 13; 0]) "invalid argument for response file";;
      ValidateCLIArg p a;;
      rest ← response_lines p r;
      Ok (a ++ 10 :: rest)
  end.
Definition createResponseFile (p : process) (args : list bytes) : outcome bytes := response_lines p args.

(** ** Objects *)
Definition isArchiveFile (h : host) (path : bytes) : bool :=
  among (ToLower h (filepath_Ext path)) [bs ".a"; bs ".lib"; bs ".so"; bs ".dylib"].

(** [objFiles[start:end]], which panics when the bounds cross. *)
Definition slice_objects (l : list bytes) (first last : Z) : outcome (list bytes) :=
  if (first <=? last) && (last <=? Zlen l) then Ok (take (Z.to_nat (last - first)) (drop (Z.to_nat first) l)) else Panic.

Fixpoint split_parts (objFiles : list bytes) (sz : Z) (i : Z) (count : nat) : outcome (list (list bytes)) :=
  match count with
  | O => Ok []
  | S k =>
      let start := i * sz in
      let last := Z.min (start + sz) (Zlen objFiles) in
      part ← slice_objects objFiles start last;
      rest ← split_parts objFiles sz (i + 1) k;
      Ok (part :: rest)
  end.
Definition splitObjects (objFiles : list bytes) (partitions : Z) : outcome (list (list bytes)) :=
  if partitions <=? 1 then Ok [objFiles]
  else split_parts objFiles ((Zlen objFiles + partitions - 1) / partitions) 0 (Z.to_nat partitions).

Definition minParallelLinkObjects : Z := 24.
Definition minPartitionSize : Z := 16.
(** The partitions of a parallel link. *)
Definition partition_count (jobs n : Z) : Z := Z.min (if n / minPartitionSize <? jobs then n / minPartitionSize else jobs) n.

(** ** Building a directory *)
Definition source_ext : list bytes := [bs ".c"; bs ".cpp"; bs ".cc"; bs ".cxx"; bs ".s"; bs ".S"; bs ".asm"; bs ".nasm"; bs ".fasm"].
(** The files of the walk, in the order of their paths. *)
Definition discoverSourceFiles (walk : list bytes) : list bytes :=
  sort_Strings (List.filter (λ f, among (filepath_Ext f) source_ext) walk).
Definition has_ext (exts : list bytes) (files : list bytes) : bool := existsb (λ f, among (filepath_Ext f) exts) files.
Definition detectBackend (files : list bytes) : bytes :=
  if has_ext [bs ".c"; bs ".cpp"; bs ".cc"; bs ".cxx"] files then bs "gcc"
  else if has_ext [bs ".asm"; bs ".nasm"] files then bs "nasm"
  else if has_ext [bs ".fasm"] files then bs "fasm"
  else if has_ext [bs ".s"; bs ".S"] files then bs "gas"
  else bs "gcc".
Definition build_args (files : list bytes) (backend : bytes) : outcome (list bytes) :=
  if bool_decide (backend = bs "gcc") then Ok (bs "gcc" :: files)
  else if bool_decide (backend = bs "nasm") then Ok ([bs "nasm"; bs "-f"; bs "elf64"] ++ files)
  else if bool_decide (backend = bs "fasm") then Ok (bs "fasm" :: files)
  else if bool_decide (backend = bs "gas") then Ok ([bs "gcc"; bs "-c"] ++ files)
  else Err "unsupported build backend".

(** ** Splitting *)
Lemma slice_objects_Ok l a b : 0 ≤ a → a ≤ b ≤ Zlen l →
  slice_objects l a b = Ok (take (Z.to_nat (b - a)) (drop (Z.to_nat a) l)).
Proof. intros Ha [H1 H2]. unfold slice_objects. by rewrite (proj2 (Z.leb_le a b)), (proj2 (Z.leb_le b _)). Qed.

Lemma Ok_bind_eq {A B} (a : A) (f : A → outcome B) : Ok a ≫= f = f a.
Proof. done. Qed.

(** From the partition [i] on, when its start is inside the objects: the
    partitions are the rest of the objects if the last one starts inside, too. *)
Lemma split_parts_spec l sz i k : 0 ≤ i → 0 ≤ sz → i * sz ≤ Zlen l → Zlen l ≤ (i + Z.of_nat k) * sz → (0 < k)%nat →
  if (i + Z.of_nat k - 1) * sz <=? Zlen l
  then ∃ parts, split_parts l sz i k = Ok parts ∧ concat parts = drop (Z.to_nat (i * sz)) l ∧ length parts = k
  else split_parts l sz i k = Panic.
Proof.
  revert i. induction k as [|k IH]; intros i Hi Hsz Hs Hn Hk; [lia|]. cbn [split_parts].
  rewrite slice_objects_Ok, Ok_bind_eq by nia. destruct k as [|k].
  - replace (i + Z.of_nat 1 - 1) with i by lia. rewrite (proj2 (Z.leb_le (i * sz) _)) by done. cbn [split_parts].
    rewrite Ok_bind_eq. eexists. split; [done|]. split; [|done]. cbn [concat]. rewrite app_nil_r.
    apply take_ge. rewrite length_drop. nia.
  - replace (i + Z.of_nat (S (S k)) - 1) with (i + 1 + Z.of_nat (S k) - 1) by lia.
    destruct (Z.le_gt_cases ((i + 1) * sz) (Zlen l)) as [Hin | Hout].
    + specialize (IH (i + 1) ltac:(lia) Hsz ltac:(lia) ltac:(lia) ltac:(lia)).
      destruct (_ <=? _); [|by rewrite IH]. destruct IH as (parts & -> & Hc & Hlen).
      rewrite Ok_bind_eq. eexists. split; [done|]. cbn [concat length]. split; [|by rewrite Hlen].
      rewrite Hc, (Z.min_l (i * sz + sz)) by lia.
      replace (Z.to_nat ((i + 1) * sz)) with (Z.to_nat (i * sz) + Z.to_nat (i * sz + sz - i * sz))%nat by nia.
      rewrite <- drop_drop. apply take_drop.
    + rewrite (proj2 (Z.leb_gt ((i + 1 + Z.of_nat (S k) - 1) * sz) _)) by nia.
      cbn [split_parts]. unfold slice_objects.
      by rewrite (proj2 (Z.leb_gt ((i + 1) * sz) (Z.min _ _))) by lia.
Qed.

(** How many partitions of [p] there can be of [n] objects. *)
Definition splits (n p : Z) : bool := (p - 1) * ((n + p - 1) / p) <=? n.

Lemma splitObjects_cases objs p : 2 ≤ p → objs ≠ [] →
  if splits (Zlen objs) p
  then ∃ parts, splitObjects objs p = Ok parts ∧ concat parts = objs ∧ Zlen parts = p
  else splitObjects objs p = Panic.
Proof.
  intros Hp Hne. unfold splits. set (n := Zlen objs).
  assert (0 < n) as Hn by (subst n; destruct objs; [done|cbn; lia]).
  pose proof (Z.div_mod (n + p - 1) p ltac:(lia)) as Hdm. pose proof (Z.mod_pos_bound (n + p - 1) p ltac:(lia)) as Hmb.
  unfold splitObjects. rewrite (proj2 (Z.leb_gt p 1)) by lia. fold n.
  set (sz := (n + p - 1) / p) in *. assert (0 ≤ sz) as Hsz by (apply Z.div_pos; lia).
  pose proof (split_parts_spec objs sz 0 (Z.to_nat p) ltac:(lia) Hsz) as H.
  rewrite Z2Nat.id in H by lia. rewrite !Z.add_0_l in H. fold n in H.
  specialize (H ltac:(lia) ltac:(nia) ltac:(lia)).
  destruct (_ <=? _); [|done]. destruct H as (parts & -> & Hc & Hl). exists parts.
  split; [done|]. split; [by rewrite Hc|]. lia.
Qed.

Lemma splits_small n p : 2 ≤ p ≤ 17 → 16 * p ≤ n → splits n p = true.
Proof.
  intros Hp Hn. unfold splits. apply Z.leb_le.
  pose proof (Z.div_mod (n + p - 1) p ltac:(lia)) as Hdm. pose proof (Z.mod_pos_bound (n + p - 1) p ltac:(lia)) as Hmb. nia.
Qed.

Lemma partition_count_small jobs n : 0 ≤ n → 16 * partition_count jobs n ≤ n ∨ partition_count jobs n ≤ 0.
Proof.
  intros Hn. unfold partition_count, minPartitionSize. pose proof (Z.mul_div_le n 16 ltac:(lia)).
  destruct (Z.ltb_spec (n / 16) jobs); lia.
Qed.

(** C8 Objects are split into the asked number of partitions, which together
    are the objects in their order, exactly when the last partition starts
    inside the objects; otherwise the slice panics. Up to seventeen jobs it
    never does. *)
Theorem splitObjects_bounds objs jobs : let n := Zlen objs in let p := partition_count jobs n in
  2 ≤ p →
  (if (p - 1) * ((n + p - 1) / p) <=? n
   then ∃ parts, splitObjects objs p = Ok parts ∧ concat parts = objs ∧ Zlen parts = p
   else splitObjects objs p = Panic)
  ∧ (jobs ≤ 17 → (p - 1) * ((n + p - 1) / p) ≤ n).
Proof.
  intros n p Hp. assert (0 ≤ n) as Hn by (subst n; lia).
  pose proof (partition_count_small jobs n Hn) as Hs. fold p in Hs. split.
  - apply splitObjects_cases; [done|]. intros ->. cbn in Hs, Hn. cbn in *. lia.
  - intros Hj. apply Z.leb_le, splits_small; [|lia]. split; [done|].
    subst p. unfold partition_count, minPartitionSize in *. destruct (Z.ltb_spec (n / 16) jobs); lia.
Qed.

Lemma splitObjects_bounds_witness :
  let objs := replicate 50 (bs "a.o") in
  2 ≤ partition_count 8 (Zlen objs) ∧ ∃ parts, splitObjects objs 3 = Ok parts ∧ concat parts = objs ∧ Zlen parts = 3.
Proof. split; [vm_compute; discriminate|]. exact (proj1 (splitObjects_bounds (replicate 50 (bs "a.o")) 8 ltac:(vm_compute; discriminate))). Defined.

(** With nineteen jobs, 305 objects do not split. *)
Theorem splitObjects_panics objs : Zlen objs = 305 →
  partition_count 19 (Zlen objs) = 19 ∧ splitObjects objs 19 = Panic.
Proof.
  intros Hn. rewrite Hn. split; [done|].
  pose proof (splitObjects_cases objs 19 ltac:(lia)) as H. rewrite Hn in H. apply H. by intros ->.
Qed.

(** ** Response files read back *)

(** White space of the C library. *)
Definition isspace (c : Z) : bool := (c =? 32) || ((9 <=? c) && (c <=? 13)).
Fixpoint space_words (cur s : bytes) : list bytes :=
  match s with
  | [] => when (nonempty cur) [cur]
  | c :: r => if isspace c then when (nonempty cur) [cur] ++ space_words [] r else space_words (cur ++ [c]) r
  end.

(** Characters with a meaning of their own in a response file. *)
Definition quoting : bytes := [34; 39; 92].

(** An argument that is one word. *)
Definition one_word (a : bytes) : Prop := a ≠ [] ∧ Forall (λ c, isspace c = false) a.

Lemma space_words_word cur w r : Forall (λ c, isspace c = false) w → cur ++ w ≠ [] →
  space_words cur (w ++ 10 :: r) = (cur ++ w) :: space_words [] r.
Proof.
  intros Hw. revert cur. induction Hw as [|c w Hc Hw IH]; intros cur Hne.
  - rewrite app_nil_r in *. cbn. by destruct cur.
  - cbn [app space_words]. rewrite Hc, IH by (by destruct cur). by rewrite <- (assoc_L (++)).
Qed.

Lemma response_lines_spec p args text : response_lines p args = Ok text →
  text = concat (map (λ a, a ++ [10]) args) ∧ Forall (plain_value p) args.
Proof.
  revert text. induction args as [|a r IH]; intros text; cbn [response_lines]; [by intros [= <-]|]. intros Hr.
  apply bind_Ok in Hr as ([] & _ & Hr). apply bind_Ok in Hr as ([] & Ha & Hr). apply bind_Ok in Hr as (rest & Hrest & Hr).
  destruct (IH _ Hrest) as [-> Hf]. injection Hr as <-. split; [cbn; by rewrite <- (assoc_L (++))|].
  constructor; [by apply ValidateCLIArg_spec|done].
Qed.

Section response_file.
(** How the tool reads the file: options are separated by white space; quotes
    and backslashes have a meaning, which the program does not rely on. *)
Variable expand_argv : bytes → list bytes.
Variable Hexpand : ∀ t, Forall (λ c, c ∉ quoting) t → expand_argv t = space_words [] t.

Lemma response_words args text p : windows p = false → createResponseFile p args = Ok text →
  expand_argv text = space_words [] (concat (map (λ a, a ++ [10]) args)).
Proof.
  intros Hw (-> & Hf)%response_lines_spec. apply Hexpand. apply Forall_concat, Forall_map.
  eapply Forall_impl; [exact Hf|]. intros a Ha. cbn. apply Forall_app. split.
  - eapply Forall_impl; [exact Ha|]. cbn. intros c Hc Hq. apply Hc. unfold forbiddenArgChars. rewrite Hw.
    unfold quoting in Hq. rewrite !elem_of_cons, elem_of_nil in Hq.
    destruct Hq as [-> | [-> | [-> | []]]]; by apply (bool_decide_eq_true _).
  - repeat constructor. by apply (bool_decide_eq_true _).
Qed.

(** On a host that is not Windows, the tool reads from a response file the
    arguments that were written, when each of them is one word: the characters
    that would need quoting are refused when the file is written. *)
Theorem response_file_roundtrip p args text : windows p = false → Forall one_word args →
  createResponseFile p args = Ok text → expand_argv text = args.
Proof.
  intros Hw Ha Ht. rewrite (response_words args text p Hw Ht). clear Ht text.
  induction Ha as [|a r [Hne Hs] Ha IH]; [done|]. cbn [map concat]. rewrite <- (assoc_L (++)). cbn [app].
  rewrite space_words_word by (by destruct a). by rewrite IH.
Qed.

(** An argument with a space, such as a path, is written and read as two. *)
Theorem response_file_splits p : windows p = false →
  createResponseFile p [bs "my lib/a.o"] = Ok (bs "my lib/a.o" ++ [10])
  ∧ expand_argv (bs "my lib/a.o" ++ [10]) = [bs "my"; bs "lib/a.o"].
Proof.
  intros Hw. split.
  - unfold createResponseFile, response_lines, ValidateCLIArg, forbiddenArgChars. by rewrite Hw.
  - rewrite Hexpand; [done|]. repeat constructor; by apply (bool_decide_eq_true _).
Qed.
End response_file.

Lemma response_file_roundtrip_witness :
  ∃ text, createResponseFile example_process [bs "a.o"; bs "-o"; bs "a"] = Ok text
    ∧ space_words [] text = [bs "a.o"; bs "-o"; bs "a"].
Proof.
  exists (bs "a.o" ++ [10] ++ bs "-o" ++ [10] ++ bs "a" ++ [10]). split; [vm_compute; reflexivity|].
  apply (response_file_roundtrip (space_words []) (λ _ _, eq_refl) example_process); [reflexivity| |vm_compute; reflexivity].
  repeat constructor; discriminate.
Defined.

(** ** Duplicates *)
Lemma dedup_from_spec seen l : NoDup (dedup_from seen l)
  ∧ ∀ v, v ∈ dedup_from seen l ↔ v ∈ l ∧ v ∉ seen.
Proof.
  revert seen. induction l as [|x l IH]; intros seen; cbn [dedup_from]; [split; [constructor|set_solver]|].
  case_bool_decide as Hx.
  - destruct (IH seen) as [Hn He]. split; [done|]. intros v. rewrite He. set_solver.
  - destruct (IH ({[x]} ∪ seen)) as [Hn He]. split.
    + constructor; [|done]. rewrite He. set_solver.
    + intros v. rewrite elem_of_cons, He. destruct (decide (v = x)); set_solver.
Qed.

Lemma dedupObjects_spec l : NoDup (dedupObjects l) ∧ ∀ v, v ∈ dedupObjects l ↔ v ∈ l.
Proof.
  unfold dedupObjects. destruct (Nat.ltb_spec (length l) 2).
  - split; [|done]. destruct l as [|a [|b l]]; [constructor|apply NoDup_singleton|cbn in *; lia].
  - destruct (dedup_from_spec ∅ l) as [Hn He]. split; [done|]. intros v. rewrite He. set_solver.
Qed.
