(* ===== verification/LinkDriver.v ===== *)
(** * The linker driver

    The parts of linker/link.go, linker/link_objects.go, linker/parallel.go,
    linker/flat.go, linker/runner.go and zig/zig.go that run tools and touch
    files. A step appends to the log what it did, and what a tool answers may
    depend on everything done before it. *)
From stdpp Require Import list gmap strings sorting.
From S2P Require Import Prelude GoStrings GoPath FlatLayout ConfigTypes ConfigOps ConfigMerge ConfigLoad Utils LinkSymbols LinkArgs.

(** Errors as far as the linker tells them apart: the sentinel of a skipped
    attempt, the errors of the context, one of the operating system, and a text. *)
Inductive link_error := ErrSkip | Canceled | DeadlineExceeded | OSError | Failure (msg : string).

(** What a tool did: its exit status and output, or killed by the context. *)
Inductive exec_result := Exited (ok : bool) (output : bytes) | Killed (deadline : bool).

(** What is done: a command with the contents of its response file; the host
    paths scrubbed from a binary; the temporary directory made and removed; the
    context of the partitions cancelled; a file copied or written. *)
Inductive event :=
  | Exec (c : command) (file : option bytes)
  | Scrub (bin root : bytes)
  | MakeTemp (dir : bytes)
  | RemoveTemp (dir : bytes)
  | CancelAll
  | CopyTo (src dst : bytes)
  | WriteTo (dst data : bytes).

Record elf_section := mk_elf_section {
  es_name : bytes; es_reloc : bool; es_alloc : bool; es_size : Z; es_data : option (option bytes) }.

Record linker := mk_linker {
  vars : settings;
  lhost : host;
  proc : process;
  cfg : option Config;                              (* ConfigFromContext *)
  ctx_invalid : bool;                               (* nil or TODO *)
  on_tool_path : bytes → bool;                      (* cachedLookPath *)
  run_exec : list event → command → option bytes → exec_result;
  temp_file : list event → option bytes;            (* CreateTemp *)
  temp_dir : bytes → option bytes;                  (* MkdirTemp *)
  checked_file : bytes → bool;                      (* CheckFileExists *)
  stat_size : bytes → option Z;                     (* Stat *)
  ensure_dir : bytes → bool;
  objects : symbol_host;
  map_order : gmap bytes (list SymbolInfo) → list (bytes * list SymbolInfo);
  symbols_cache : symbol_cache;
  open_elf : bytes → option (option (list elf_section));
  maxprocs : Z;
  pool_order : nat → list nat }.                    (* the order in which the pool runs the tasks *)

(** ** Steps *)
Inductive lres (A : Type) := LOk (a : A) | LErr (e : link_error) | LPanic.
Arguments LOk {A} _. Arguments LErr {A} _. Arguments LPanic {A}.
Definition L (A : Type) : Type := list event → lres A * list event.
#[export] Instance L_ret : MRet L := λ A a log, (LOk a, log).
#[export] Instance L_bind : MBind L := λ A B f m log,
  match m log with
  | (LOk a, log') => f a log'
  | (LErr e, log') => (LErr e, log')
  | (LPanic, log') => (LPanic, log')
  end.
Definition fail {A} (e : link_error) : L A := λ log, (LErr e, log).
Definition guard (ok : bool) (e : link_error) : L unit := if ok then mret tt else fail e.
Definition emit (e : event) : L unit := λ log, (LOk tt, log ++ [e]).
(** The error of a step as a value. *)
Definition attempt {A} (m : L A) : L (A + link_error) := λ log,
  match m log with
  | (LOk a, log') => (LOk (inl a), log')
  | (LErr e, log') => (LOk (inr e), log')
  | (LPanic, log') => (LPanic, log')
  end.
Definition lift {A} (m : outcome A) : L A := λ log,
  (match m with Ok a => LOk a | Err e => LErr (Failure e) | Panic => LPanic | Diverge => LPanic end, log).

Section driver.
Variable w : linker.
Let s := vars w.

Definition CheckTool (name : bytes) : bool := bool_decide (checkToolInternal (proc w) name = Ok tt).
Definition strip_cfg : bool := match cfg w with Some c => DeterministicStrip c | None => false end.
Definition isolated : bool := match cfg w with Some c => negb (bool_decide (Isolation c = IsolationNone)) | None => false end.

(** ** Running a tool *)

(** The output and the error of a run. *)
Definition run_result : Type := bytes * option link_error.
Definition execute (c : command) (file : option bytes) : L run_result := λ log,
  (LOk (match run_exec w log c file with
        | Exited true out => (out, None)
        | Exited false out => (out, Some (Failure "exit status"))
        | Killed d => ([], Some (if d then DeadlineExceeded else Canceled))
        end), log ++ [Exec c file]).

(** utils.RunCommandSilent. *)
Definition RunCommand (file : option bytes) (name : bytes) (args : list bytes) : L run_result :=
  match buildCommand (proc w) (cfg w) name args with
  | Ok c => execute c file
  | _ => mret ([], Some (Failure "command"))
  end.

(** The linkers themselves run with the environment of the process unless the
    build is isolated. *)
Definition runLinkerCombinedOutput (file : option bytes) (name : bytes) (args : list bytes) : L run_result :=
  execute (mk_command name args (executionRoot (proc w))
    (if isolated then SafeEnv (proc w) (cfg w) else environ (proc w))) file.

Definition response_args (args : list bytes) : L ((list bytes * option bytes) + link_error) := λ log,
  if shouldUseResponseFile args then
    match temp_file w log with
    | None => (LOk (inr OSError), log)
    | Some path =>
        match createResponseFile (proc w) args with
        | Ok text => (LOk (inl ([64 :: path], Some text)), log)
        | _ => (LOk (inr (Failure "invalid argument for response file")), log)
        end
    end
  else (LOk (inl (args, None)), log).

Definition runLinkerCommand (name : bytes) (args : list bytes) : L run_result :=
  if nilb name then mret ([], Some (Failure "linker executable is required"))
  else match ValidateCLIArg (proc w) name with
  | Ok _ =>
      match FindExecutable (proc w) (cfg w) name with
      | Ok resolved =>
          r ← response_args args;
          match r with
          | inl (args, file) =>
              if isLdExecutable resolved then runLinkerCombinedOutput file resolved args
              else RunCommand file resolved args
          | inr e => mret ([], Some e)
          end
      | _ => mret ([], Some (Failure "linker not found"))
      end
  | _ => mret ([], Some (Failure "invalid linker name"))
  end.

Definition validateLinkCall (output : bytes) : L unit :=
  guard (negb (ctx_invalid w)) (Failure "invalid linking context");;
  guard (nonempty output) (Failure "output file name is required");;
  guard (bool_decide (ValidateCLIPath (proc w) output = Ok tt)) (Failure "invalid output path").

Definition interrupted (e : link_error) : bool := match e with Canceled | DeadlineExceeded => true | _ => false end.

(** The error of a run, under the name of the tool unless the context ended. *)
Definition report (r : run_result) (msg : string) : L unit :=
  match r.2 with
  | None => mret tt
  | Some e => fail (if interrupted e then e else Failure msg)
  end.

(** ** One tool *)
Definition runCompiler (compiler : bytes) (objs : list bytes) (bin : bytes) (allowNoPie sanitize strict : bool) (libs : list bytes) : L unit :=
  validateLinkCall bin;;
  let zig := bool_decide (compiler = bs "zig") in
  let args := buildLinkArgs (lhost w) (on_tool_path w) s objs bin sanitize strict libs (target_wasm s && negb zig) (negb zig) in
  r ← runLinkerCommand compiler args;
  match r.2 with
  | None => mret tt
  | Some e =>
      if interrupted e || negb allowNoPie then report r "link failed"
      else
        r2 ← runLinkerCommand compiler (bs "-no-pie" :: args);
        match r2.2 with None => mret tt | Some _ => fail (Failure "link with -no-pie failed") end
  end.

Definition linkWithGcc (objs : list bytes) (bin : bytes) (allowNoPie sanitize strict : bool) (libs : list bytes) : L unit :=
  runCompiler (gccForTarget (on_tool_path w) s) objs bin allowNoPie sanitize strict libs.
Definition linkWithClang (objs : list bytes) (bin : bytes) (allowNoPie sanitize : bool) (libs : list bytes) : L unit :=
  runCompiler clangForTarget objs bin allowNoPie sanitize false libs.

Definition linkWithLd (objs : list bytes) (bin : bytes) (libs : list bytes) : L unit :=
  validateLinkCall bin;;
  r ← runLinkerCommand (ldForTarget (on_tool_path w) s) (ld_args s objs bin libs);
  report r "ld link failed".
Definition linkWithLdRelocatable (objs : list bytes) (out : bytes) : L unit :=
  validateLinkCall out;;
  r ← runLinkerCommand (ldForTarget (on_tool_path w) s) (relocatable_args objs out);
  report r "ld partial link failed".
Definition linkWindowsImpl (objs : list bytes) (bin : bytes) (sanitize : bool) (libs : list bytes) : L unit :=
  validateLinkCall bin;;
  guard (CheckTool (bs "clang")) (Failure "required tool not found");;
  r ← runLinkerCommand (bs "clang") (windows_args s objs bin sanitize libs);
  report r "clang link failed".

Definition zigAvailable : bool := CheckTool (bs "zig").
Definition zig_shouldUseZig : bool := zig_Requested s || zig_Enabled s || zigAvailable.
Definition zig_Link (objs : list bytes) (bin target : bytes) (sanitize strict : bool) (libs : list bytes) : L unit :=
  guard zig_shouldUseZig (Failure "zig not enabled");;
  guard zigAvailable (Failure "zig not found in PATH");;
  r ← RunCommand None (bs "zig")
        (zig_LinkArgs objs bin target sanitize strict libs (Shared s) (LdScript s) (TextAddr s) ++ Fields (LdFlags s));
  match r.2 with None => mret tt | Some _ => fail (Failure "zig link failed") end.
Definition linkWithZig (objs : list bytes) (bin target : bytes) (sanitize strict : bool) (libs : list bytes) : L unit :=
  validateLinkCall bin;;
  guard zigAvailable (Failure "zig not available");;
  zig_Link objs bin target sanitize strict libs.

(** ** The automatic choice *)
Fixpoint try_all (last : option link_error) (attempts : list (L unit)) : L unit :=
  match attempts with
  | [] => fail (default (Failure "auto linking failed: no suitable linker") last)
  | a :: rest =>
      r ← attempt a;
      match r with
      | inl _ => mret tt
      | inr ErrSkip => try_all last rest
      | inr e => if interrupted e then fail e else try_all (Some e) rest
      end
  end.

Definition skip_unless (b : bool) (m : L unit) : L unit := if b then m else fail ErrSkip.

Definition auto_attempts (objs : list bytes) (bin : bytes) (sanitize strict : bool) (libs : list bytes) : list (L unit) :=
  [skip_unless (useZig s && zigAvailable) (linkWithZig objs bin (Target s) sanitize strict libs);
   skip_unless (strict && on_tool_path w clangForTarget) (linkWithClang objs bin true sanitize libs);
   skip_unless (CheckTool (gccForTarget (on_tool_path w) s)) (linkWithGcc objs bin true sanitize strict libs);
   skip_unless (CheckTool (ldForTarget (on_tool_path w) s)) (linkWithLd objs bin libs)].

(** The Objective-C source that belongs to a single object. *)
Definition objc_source (objs : list bytes) : bool :=
  match objs with
  | [o] => exists_at (proc w) (TrimSuffix o (filepath_Ext o) ++ bs ".m")
  | _ => false
  end.

Definition tryAutoLink (objs : list bytes) (bin : bytes) (sanitize strict : bool) (libs : list bytes) : L unit :=
  if ForceLD s then
    if CheckTool (ldForTarget (on_tool_path w) s) then linkWithLd objs bin libs else fail (Failure "ld not found")
  else if objc_source objs then
    r ← attempt (linkWithClang objs bin true sanitize (libs ++ [bs "objc"]));
    match r with inl _ => mret tt | inr _ => fail (Failure "objective-c linking failed via Clang") end
  else try_all None (auto_attempts objs bin sanitize strict libs).

(** ** Flat binaries *)
Definition section_named (l : list elf_section) (name : bytes) : option elf_section :=
  List.find (λ e, bool_decide (es_name e = name)) l.
Definition verifyNoRelocations (l : list elf_section) : outcome unit :=
  check (existsb es_reloc l) "unsupported relocations in baremetal object".
(** No section is nil data. *)
Definition loadELFSection (l : list elf_section) (name : bytes) : outcome (option bytes) :=
  match section_named l name with
  | None => Ok None
  | Some e => match es_data e with Some d => Ok d | None => Err "section data" end
  end.
Definition bssSectionSize (l : list elf_section) (name : bytes) : outcome Z :=
  match section_named l name with
  | None => Ok 0
  | Some e =>
      check (negb (es_alloc e)) "section is not allocatable";;
      check (2 ^ 32 - 1 <? es_size e) "section too large";;
      Ok (es_size e)
  end.
Definition flat_image (profile : TargetProfile) (l : list elf_section) : outcome bytes :=
  verifyNoRelocations l;;
  textData ← loadELFSection l (bs ".text");
  dataData ← loadELFSection l (bs ".data");
  bssSize ← bssSectionSize l (bs ".bss");
  layout ← NewNakedMemoryLayout (tp_Flash profile) (tp_Ram profile) textData dataData bssSize;
  EmitFlatBinary layout.

Definition linkBaremetalBinary (obj bin : bytes) : L unit :=
  match TargetProfileFor (lhost w) (Target s) with
  | None => emit (CopyTo obj bin)
  | Some profile =>
      match open_elf w obj with
      | None => fail OSError
      | Some None => emit (CopyTo obj bin)
      | Some (Some l) => image ← lift (flat_image profile l); emit (WriteTo bin image)
      end
  end.
Definition linkFlatBinary (obj bin : bytes) : L unit :=
  if bool_decide (obj = bin) then mret tt
  else
    guard (ensure_dir w bin) OSError;;
    if IsBareMetalTarget (lhost w) s then linkBaremetalBinary obj bin else emit (CopyTo obj bin).

(** ** Linking one object *)
Definition link_mode (objs : list bytes) (bin mode : bytes) (sanitize strict : bool) (libs : list bytes) : L unit :=
  if bool_decide (mode = bs "raw") then
    guard (CheckTool (ldForTarget (on_tool_path w) s)) (Failure "required tool not found");;
    linkWithLd objs bin libs
  else if bool_decide (mode = bs "c") then
    if useZig s then linkWithZig objs bin (Target s) sanitize strict libs
    else
      guard (CheckTool (gccForTarget (on_tool_path w) s)) (Failure "required tool not found");;
      linkWithGcc objs bin false sanitize strict libs
  else if bool_decide (mode = bs "auto") then tryAutoLink objs bin sanitize strict libs
  else fail (Failure "unsupported mode").

Definition scrub_after (bin : bytes) : L unit :=
  if strip_cfg then emit (Scrub bin (executionRoot (proc w))) else mret tt.

Definition check_symbols (noSymbolCheck : bool) (objs : list bytes) : L unit :=
  if noSymbolCheck then mret tt
  else lift (CheckDuplicateSymbols (objects w) (map_order w) (symbols_cache w) objs).1.

Definition Link (obj bin mode : bytes) (noSymbolCheck sanitize strict : bool) (libs : list bytes) : L unit :=
  guard (checked_file w obj) (Failure "file");;
  match stat_size w obj with
  | None => fail OSError
  | Some n =>
      guard (negb (n =? 0)) (Failure "object file is empty");;
      guard (ensure_dir w bin) OSError;;
      if shouldSkipLinker s then linkFlatBinary obj bin
      else
        check_symbols noSymbolCheck [obj];;
        if windows (proc w) then linkWindowsImpl [obj] bin sanitize libs
        else link_mode [obj] bin mode sanitize strict libs;; scrub_after bin
  end.

(** ** Linking several *)
Fixpoint validateLinkInputs_stat (objFiles : list bytes) : L unit :=
  match objFiles with
  | [] => mret tt
  | o :: r =>
      match stat_size w o with
      | None => fail OSError
      | Some n => guard (negb (n =? 0)) (Failure "object file is empty");; validateLinkInputs_stat r
      end
  end.
Definition validateLinkInputs (objFiles : list bytes) (bin : bytes) (noSymbolCheck : bool) : L unit :=
  validateLinkInputs_stat objFiles;;
  guard (ensure_dir w bin) OSError;;
  check_symbols noSymbolCheck objFiles.

Definition linkMultipleSingle (objFiles : list bytes) (bin mode : bytes) (sanitize strict : bool) (libs : list bytes) : L unit :=
  if windows (proc w) then linkWindowsImpl objFiles bin sanitize libs
  else if bool_decide (mode = bs "c") && existsb (isArchiveFile (lhost w)) objFiles then
    guard (CheckTool (gccForTarget (on_tool_path w) s)) (Failure "required tool not found");;
    linkWithGcc objFiles bin false sanitize strict libs
  else link_mode objFiles bin mode sanitize strict libs.

Record LinkTarget := mk_LinkTarget { lt_Name : bytes; lt_Objs : list bytes }.

Definition linkPartition (t : LinkTarget) : L unit :=
  if windows (proc w) then linkWindowsImpl (lt_Objs t) (lt_Name t) false []
  else
    guard (CheckTool (ldForTarget (on_tool_path w) s)) (Failure "required tool not found");;
    linkWithLdRelocatable (lt_Objs t) (lt_Name t).
Definition linkFinal (t : LinkTarget) (mode : bytes) (sanitize strict : bool) (libs : list bytes) : L unit :=
  if windows (proc w) then linkWindowsImpl (lt_Objs t) (lt_Name t) sanitize libs
  else link_mode (lt_Objs t) (lt_Name t) mode sanitize strict libs.

(** The dynamic type of an error: [atomic.Value] keeps values of one type and
    panics when another is stored. *)
Definition error_type (e : link_error) : Z := match e with DeadlineExceeded => 1 | OSError => 2 | _ => 0 end.
Definition recordError (first : option link_error) (e : link_error) : L (option link_error) :=
  match first with
  | None => emit CancelAll;; mret (Some e)
  | Some e0 => if error_type e0 =? error_type e then mret (Some e) else λ log, (LPanic, log)
  end.

(** The tasks of the pool, each at one moment, in the order the pool runs them. *)
Fixpoint run_tasks (targets : list LinkTarget) (first : option link_error) (order : list nat) : L (option link_error) :=
  match order with
  | [] => mret first
  | i :: rest =>
      match targets !! i with
      | None => run_tasks targets first rest
      | Some t =>
          r ← attempt (linkPartition t);
          match r with
          | inl _ => run_tasks targets first rest
          | inr e => first ← recordError first e; run_tasks targets first rest
          end
      end
  end.

Definition part_name (tmpDir : bytes) (i : nat) : bytes := filepath_Join tmpDir (bs "partial-" ++ Itoa (Z.of_nat i) ++ bs ".o").
Definition partial_targets (tmpDir : bytes) (partitions : list (list bytes)) : list LinkTarget :=
  imap (λ i objs, mk_LinkTarget (part_name tmpDir i) objs) partitions.

Definition link_parts (tmpDir : bytes) (partitions : list (list bytes)) (bin mode : bytes)
    (sanitize strict : bool) (libs : list bytes) : L unit :=
  let targets := partial_targets tmpDir partitions in
  first ← run_tasks targets None (pool_order w (length targets));
  match first with
  | Some e => fail e
  | None =>
      linkFinal (mk_LinkTarget bin (map lt_Name targets)) mode sanitize strict libs;;
      scrub_after bin
  end.

(** The deferred removal of the directory. *)
Definition with_temp {A} (dir : bytes) (m : L A) : L A := λ log,
  match m log with
  | (LPanic, log') => (LPanic, log')
  | (r, log') => (r, log' ++ [RemoveTemp dir])
  end.

Definition effective_jobs (jobs : Z) : Z :=
  let jobs := if jobs <=? 0 then maxprocs w else jobs in if jobs <? 1 then 1 else jobs.

End driver.

(** The context of a parallel link is made from that of the call. *)
Definition fresh_context (w : linker) : linker :=
  mk_linker (vars w) (lhost w) (proc w) (cfg w) false (on_tool_path w) (run_exec w) (temp_file w) (temp_dir w) (checked_file w)
    (stat_size w) (ensure_dir w) (objects w) (map_order w) (symbols_cache w) (open_elf w) (maxprocs w) (pool_order w).

Definition LinkMultipleParallel (w : linker) (objFiles : list bytes) (bin mode : bytes) (noSymbolCheck sanitize strict : bool)
    (libs : list bytes) (jobs : Z) : L unit :=
  if shouldSkipLinker (vars w) then
    match objFiles with
    | [o] => linkFlatBinary w o bin
    | _ => fail (Failure "flat binary link requires exactly one object")
    end
  else
    guard (nonempty objFiles) (Failure "no object files to link");;
    let objFiles := sort_Strings objFiles in
    let single w := linkMultipleSingle w objFiles bin mode sanitize strict libs in
    validateLinkInputs w objFiles bin noSymbolCheck;;
    if existsb (isArchiveFile (lhost w)) objFiles then single w
    else
      let jobs := effective_jobs w jobs in
      if (Zlen objFiles <? minParallelLinkObjects) || (jobs <? 2) then single w
      else
        match temp_dir w (Dir bin) with
        | None => fail OSError
        | Some tmpDir =>
            let w := fresh_context w in
            emit (MakeTemp tmpDir);;
            with_temp tmpDir
              (let count := partition_count jobs (Zlen objFiles) in
               if count <? 2 then single w
               else partitions ← lift (splitObjects objFiles count);
                    link_parts w tmpDir partitions bin mode sanitize strict libs)
        end.

Definition LinkMultiple (w : linker) (objFiles : list bytes) (bin mode : bytes) (noSymbolCheck sanitize strict : bool) (libs : list bytes) : L unit :=
  let jobs := match cfg w with
              | Some c => if 0 <? Conc_Workers (Concurrency c) then Conc_Workers (Concurrency c) else maxprocs w
              | None => maxprocs w
              end in
  LinkMultipleParallel w objFiles bin mode noSymbolCheck sanitize strict libs jobs.

Section configured.
Variable w : linker.
Let s := vars w.

(** ** Linking with the flags of the configuration *)
Definition LinkObjects (target : bytes) (objs : list bytes) : L unit :=
  validateLinkCall w target;;
  guard (nonempty objs) (Failure "no object files to link");;
  let unique := dedupObjects objs in
  guard (nonempty unique) (Failure "no object files to link");;
  guard (ensure_dir w target) OSError;;
  '(cmd, args) ← lift (buildLinkCommand (lhost w) (on_tool_path w) (CheckTool w) s unique target (cfg w));
  guard (CheckTool w cmd) (Failure "required tool not found");;
  r ← runLinkerCommand w cmd args;
  match r.2 with
  | None => mret tt
  | Some _ => fail (Failure (if hasUndefinedSymbol r.1 then "link failed: undefined symbols" else "link failed"))
  end.

(** ** Building a directory *)
Definition runBuild (files : list bytes) (backend : bytes) : L unit :=
  args ← lift (build_args files backend);
  r ← execute w (mk_command (default [] (head args)) (tail args) [] (environ (proc w))) None;
  match r.2 with None => mret tt | Some e => fail e end.
Definition AutoBuildProject (autoBuild : bool) (walk : list bytes) : L unit :=
  if negb autoBuild then mret tt
  else
    guard (CheckTool w (gccForTarget (on_tool_path w) s)) (Failure "required tool not found");;
    let files := discoverSourceFiles walk in
    if nilb files then mret tt else runBuild files (detectBackend files).
End configured.
