(* ===== verification/LinkFacts.v ===== *)
(** * What a successful link has done

    Hoare triples over the log of the linker driver: when a link returns no
    error, the tool was run to success on a command line with every object in
    order, the output and the libraries; a parallel link has done so for each
    partition, and for the partial objects. *)
From stdpp Require Import list gmap strings sorting.
From S2P Require Import Prelude GoStrings GoPath ConfigTypes ConfigOps ConfigMerge ConfigLoad Utils LinkSymbols LinkArgs LinkDriver.

(** ** Triples *)
Definition extends (log log' : list event) : Prop := ∃ more, log' = log ++ more.
Definition hoare {A} (P : list event → Prop) (m : L A) (Q : A → list event → Prop) : Prop :=
  ∀ log, P log → extends log (m log).2 ∧ match (m log).1 with LOk a => Q a (m log).2 | _ => True end.
Definition stable (P : list event → Prop) : Prop := ∀ log log', extends log log' → P log → P log'.

#[export] Instance extends_preorder : PreOrder extends.
Proof.
  split.
  - intros l. exists []. by rewrite app_nil_r.
  - intros a b c [x ->] [y ->]. exists (x ++ y). by rewrite (assoc_L (++)).
Qed.

Section triples.
Context {A B : Type}.
Implicit Types P : list event → Prop.

Lemma hoare_ret P (a : A) Q : (∀ log, P log → Q a log) → hoare P (mret a) Q.
Proof. intros H log Hp. split; [done|by apply H]. Qed.

Lemma hoare_fail P e (Q : A → _) : hoare P (fail e) Q.
Proof. intros log _. by split. Qed.

Lemma hoare_bind P (m : L A) (f : A → L B) (R : A → list event → Prop) Q :
  hoare P m R → (∀ a, hoare (R a) (f a) Q) → hoare P (m ≫= f) Q.
Proof.
  intros Hm Hf log Hp. destruct (Hm log Hp) as [He Hr]. unfold mbind, L_bind.
  destruct (m log) as [[a|e|] log']; cbn [fst snd] in *; [|done..].
  destruct (Hf a log' Hr) as [He' Hr']. split; [by etrans|done].
Qed.

Lemma hoare_weaken P P' (m : L A) Q Q' :
  hoare P m Q → (∀ log, P' log → P log) → (∀ a log, Q a log → Q' a log) → hoare P' m Q'.
Proof.
  intros H Hp Hq log Hl. destruct (H log (Hp _ Hl)) as [He Hr]. split; [done|].
  destruct (m log).1; [by apply Hq|done..].
Qed.

(** What held before still holds after, if more log cannot change it. *)
Lemma hoare_frame P (R : list event → Prop) (m : L A) Q : stable R → hoare P m Q →
  hoare (λ log, P log ∧ R log) m (λ a log, Q a log ∧ R log).
Proof.
  intros Hs H log [Hp Hr]. destruct (H log Hp) as [He Hq]. split; [done|].
  destruct (m log).1; [split; [done|by eapply Hs]|done..].
Qed.

Lemma hoare_attempt P (m : L A) Q : hoare P m Q →
  hoare P (attempt m) (λ r log, match r with inl a => Q a log | inr _ => True end).
Proof.
  intros H log Hp. destruct (H log Hp) as [He Hr]. unfold attempt.
  by destruct (m log) as [[a|e|] log'].
Qed.

Lemma hoare_lift P (m : outcome A) : hoare P (lift m) (λ a log, m = Ok a ∧ P log).
Proof. intros log Hp. unfold lift. destruct m; by split. Qed.
End triples.

Lemma hoare_guard P b e : hoare P (guard b e) (λ _ log, b = true ∧ P log).
Proof. destruct b; [by apply hoare_ret|apply hoare_fail]. Qed.

Lemma hoare_guard_any P b e : hoare P (guard b e) (λ _ _, True).
Proof. destruct b; [by apply hoare_ret|apply hoare_fail]. Qed.

Lemma hoare_emit P e : hoare P (emit e) (λ _ log, True).
Proof. intros log _. split; [by eexists|done]. Qed.

(** A step whose result does not matter keeps what is stable. *)
Lemma hoare_skip {A} P (m : L A) : hoare (λ _, True) m (λ _ _, True) → stable P → hoare P m (λ _, P).
Proof.
  intros H Hs. eapply hoare_weaken; [apply (hoare_frame (λ _, True) P); [done|exact H]|done|by intros ? ? []].
Qed.

Lemma hoare_then {A B} (m : L A) (k : L B) P Q :
  stable P → hoare P m (λ _ _, True) → hoare P k Q → hoare P (m ≫= λ _, k) Q.
Proof.
  intros Hs Hm Hk. apply (hoare_bind _ _ _ (λ _, P)); [|done].
  eapply hoare_weaken; [by apply (hoare_frame P P)|done|by intros ? ? []].
Qed.

Lemma hoare_bind_stable {A B} P (m : L A) (f : A → L B) (R : A → list event → Prop) Q : stable P →
  hoare P m R → (∀ a, hoare (λ log, R a log ∧ P log) (f a) Q) → hoare P (m ≫= f) Q.
Proof.
  intros Hs Hm Hf. eapply hoare_bind; [|exact Hf].
  eapply hoare_weaken; [by apply (hoare_frame P P)|done|done].
Qed.

Create HintDb hoare.
#[export] Hint Resolve hoare_fail hoare_emit : hoare.

(** ** Commands that succeeded *)
Section facts.
Variable w : linker.
(** The log at some earlier moment. *)
Variable start : list event.

(** The command has the arguments, or a response file with them. *)
Definition carries (c : command) (file : option bytes) (args : list bytes) : Prop :=
  match file with
  | None => c_args c = args
  | Some text => createResponseFile (proc w) args = Ok text ∧ ∃ path, c_args c = [64 :: path]
  end.

(** Since that moment, a command with the arguments has succeeded. *)
Definition did (log : list event) (args : list bytes) : Prop :=
  ∃ between c file out after, log = (start ++ between) ++ Exec c file :: after
    ∧ run_exec w (start ++ between) c file = Exited true out ∧ carries c file args.

(** A command line that links the objects into a binary with the libraries. *)
Definition link_line (objs : list bytes) (bin : bytes) (libs : list bytes) (args : list bytes) : Prop :=
  ∃ first mid rest, args = first ++ objs ++ mid ++ [bs "-o"; bin] ++ rest
    ∧ ∀ l, l ∈ libs → l ∈ rest ∨ bs "-l" ++ l ∈ rest.
Definition linked (objs : list bytes) (bin : bytes) (libs : list bytes) (log : list event) : Prop :=
  ∃ args, did log args ∧ link_line objs bin libs args.

Lemma did_stable args : stable (λ log, did log args).
Proof.
  intros log log' [more ->] (before & c & file & out & after & -> & Hr & Hc).
  exists before, c, file, out, (after ++ more). by rewrite <- (assoc_L (++)).
Qed.
Lemma since_stable : stable (extends start).
Proof. intros log log' He Hs. by etrans. Qed.
Lemma linked_stable objs bin libs : stable (linked objs bin libs).
Proof. intros log log' He (args & Hd & Hl). exists args. split; [by eapply did_stable|done]. Qed.

(** ** Running *)
Definition ran (args : list bytes) (r : run_result) (log : list event) : Prop := r.2 = None → did log args.

Lemma failed_ran P out e args : hoare P (mret (out, Some e)) (ran args).
Proof. by apply hoare_ret. Qed.
#[local] Hint Resolve failed_ran : hoare.

Lemma execute_ran c file args : carries c file args → hoare (extends start) (execute w c file) (ran args).
Proof.
  intros Hc log [between ->]. unfold execute. cbn [fst snd]. split; [by eexists|]. unfold ran.
  destruct (run_exec w (start ++ between) c file) as [[|] out|d] eqn:E; cbn; [|done|by destruct d].
  intros _. by exists between, c, file, out, [].
Qed.

Lemma RunCommand_ran file name args args' :
  (∀ c, c_args c = args' → carries c file args) → hoare (extends start) (RunCommand w file name args') (ran args).
Proof.
  intros Hc. unfold RunCommand. destruct (buildCommand _ _ _ _) as [c| | |] eqn:E; [|auto with hoare..].
  apply execute_ran, Hc. by eapply buildCommand_args.
Qed.

Lemma runLinkerCommand_ran name args : hoare (extends start) (runLinkerCommand w name args) (ran args).
Proof.
  unfold runLinkerCommand. destruct (nilb name); [auto with hoare|].
  destruct (ValidateCLIArg _ _); [|auto with hoare..].
  destruct (FindExecutable _ _ _); [|auto with hoare..].
  apply (hoare_bind _ _ _ (λ r log, match r with
    | inl (args', file) => (∀ c, c_args c = args' → carries c file args) ∧ extends start log
    | _ => True end)).
  - intros log Hs. unfold response_args. destruct (shouldUseResponseFile args); [|split; [done|by split]].
    destruct (temp_file w log) as [path|]; [|by split].
    destruct (createResponseFile (proc w) args) as [text| | |] eqn:E; [|by split..].
    split; [done|]. cbn. split; [|done]. intros c Hc. split; [done|by exists path].
  - intros [[args' file]|e]; [|auto with hoare].
    intros log [Hc Hs]. destruct (isLdExecutable _).
    + apply execute_ran; [by apply Hc|done].
    + by apply RunCommand_ran.
Qed.

Lemma report_ran args r msg : hoare (ran args r) (report r msg) (λ _ log, did log args).
Proof.
  unfold report. destruct r as [out [e|]]; cbn [snd]; [apply hoare_fail|].
  apply hoare_ret. intros log H. by apply H.
Qed.

(** ** Command lines *)
Lemma library_flags_in l libs : l ∈ libs → l ∈ library_flags libs.
Proof.
  intros H. unfold library_flags. apply list_elem_of_In, in_concat. exists [bs "-l"; l].
  split; [by apply (in_map (λ l, [bs "-l"; l])), list_elem_of_In|right; by left].
Qed.

Lemma gcc_line s h path objs bin san strict libs wasm fuse :
  link_line objs bin libs (buildLinkArgs h path s objs bin san strict libs wasm fuse).
Proof.
  unfold buildLinkArgs, ApplyGccLdFlags. cbv zeta. exists [bs "-pipe"], []. eexists. split.
  - rewrite <- !(assoc_L (++)). reflexivity.
  - intros l Hl%library_flags_in. left. rewrite !elem_of_app. auto.
Qed.

Lemma ld_line s objs bin libs : link_line objs bin libs (ld_args s objs bin libs).
Proof.
  unfold ld_args, ApplyLdFlags. exists [], []. eexists. split.
  - rewrite <- !(assoc_L (++)). reflexivity.
  - intros l Hl%library_flags_in. left. rewrite !elem_of_app. auto.
Qed.

Lemma relocatable_line objs out : link_line objs out [] (relocatable_args objs out).
Proof.
  exists [], [bs "-r"], []. split; [done|]. intros l Hl. by apply not_elem_of_nil in Hl.
Qed.

Lemma windows_line s objs bin san libs : link_line objs bin libs (windows_args s objs bin san libs).
Proof.
  unfold windows_args, ApplyGccLdFlags. exists [], []. eexists. split.
  - rewrite <- !(assoc_L (++)). cbn [app]. reflexivity.
  - intros l Hl%library_flags_in. left. cbn [app]. rewrite elem_of_cons, !elem_of_app. auto.
Qed.

Lemma zig_line objs bin target san strict libs shared script addr extra :
  link_line objs bin libs (zig_LinkArgs objs bin target san strict libs shared script addr ++ extra).
Proof.
  unfold zig_LinkArgs. cbv zeta. eexists [bs "c++"; bs "-target"; _], []. eexists. split.
  - rewrite <- !(assoc_L (++)). reflexivity.
  - intros l Hl. right. rewrite !elem_of_app. assert (bs "-l" ++ l ∈ map (λ l, bs "-l" ++ l) libs); [|auto].
    by apply list_elem_of_In, (in_map (λ l, bs "-l" ++ l)), list_elem_of_In.
Qed.

Lemma line_behind a objs bin libs args : link_line objs bin libs args → link_line objs bin libs (a :: args).
Proof. intros (first & mid & rest & -> & Hl). by exists (a :: first), mid, rest. Qed.

(** ** One tool *)

(** A step after which the objects are linked. *)
Definition links (m : L unit) (objs : list bytes) (bin : bytes) (libs : list bytes) : Prop :=
  hoare (extends start) m (λ _, linked objs bin libs).

Lemma links_fail e objs bin libs : links (fail e) objs bin libs.
Proof. apply hoare_fail. Qed.

Lemma links_after {A} (m : L A) k objs bin libs :
  hoare (extends start) m (λ _ _, True) → links k objs bin libs → links (m ≫= λ _, k) objs bin libs.
Proof. apply hoare_then, since_stable. Qed.

Lemma links_guard b e k objs bin libs : links k objs bin libs → links (guard b e;; k) objs bin libs.
Proof. intros H. apply links_after; [|exact H]. apply hoare_guard_any. Qed.

Lemma links_validate out k objs bin libs : links k objs bin libs → links (validateLinkCall w out;; k) objs bin libs.
Proof.
  intros H. apply links_after; [|exact H]. unfold validateLinkCall.
  do 2 (apply hoare_then; [apply since_stable|apply hoare_guard_any|]). apply hoare_guard_any.
Qed.
#[local] Hint Resolve links_fail links_guard links_validate gcc_line ld_line relocatable_line windows_line zig_line line_behind : hoare.

(** A run of the line, and its report. *)
Lemma links_run m args (k : run_result → L unit) objs bin libs :
  hoare (extends start) m (ran args) → link_line objs bin libs args →
  (∀ r, r.2 = None → k r = mret tt) → (∀ r e, r.2 = Some e → links (k r) objs bin libs) →
  links (m ≫= k) objs bin libs.
Proof.
  intros Hm Hl Hok He. eapply hoare_bind_stable; [apply since_stable|exact Hm|]. intros r. cbv beta.
  destruct (r.2) as [e|] eqn:E.
  - eapply hoare_weaken; [by eapply He|by intros log []|done].
  - rewrite (Hok r E). apply hoare_ret. intros log [H _]. exists args. split; [by apply H|done].
Qed.

Lemma links_report args m msg objs bin libs :
  hoare (extends start) m (ran args) → link_line objs bin libs args →
  links (m ≫= λ r, report r msg) objs bin libs.
Proof.
  intros Hm Hl. eapply links_run; [exact Hm|exact Hl|..]; unfold report.
  - by intros r ->.
  - intros r e E. cbv beta. rewrite E. apply links_fail.
Qed.

Lemma runCompiler_links compiler objs bin pie san strict libs : links (runCompiler w compiler objs bin pie san strict libs) objs bin libs.
Proof.
  unfold runCompiler. apply links_validate. cbv zeta.
  eapply links_run; [apply runLinkerCommand_ran|apply gcc_line|(intros r E; cbv beta; by rewrite E)|].
  intros r e E. cbv beta. rewrite E. destruct (_ || _); [unfold report; rewrite E; apply links_fail|].
  eapply links_run; [apply runLinkerCommand_ran|apply line_behind, gcc_line|(intros r2 E2; cbv beta; by rewrite E2)|].
  intros r2 e2 E2. cbv beta. rewrite E2. apply links_fail.
Qed.

Lemma linkWithLd_links objs bin libs : links (linkWithLd w objs bin libs) objs bin libs.
Proof. apply links_validate. eapply links_report; [apply runLinkerCommand_ran|apply ld_line]. Qed.
Lemma linkWithLdRelocatable_links objs out : links (linkWithLdRelocatable w objs out) objs out [].
Proof. apply links_validate. eapply links_report; [apply runLinkerCommand_ran|apply relocatable_line]. Qed.
Lemma linkWindowsImpl_links objs bin san libs : links (linkWindowsImpl w objs bin san libs) objs bin libs.
Proof. apply links_validate, links_guard. eapply links_report; [apply runLinkerCommand_ran|apply windows_line]. Qed.
Lemma linkWithZig_links objs bin target san strict libs : links (linkWithZig w objs bin target san strict libs) objs bin libs.
Proof.
  apply links_validate, links_guard. unfold zig_Link. do 2 apply links_guard.
  eapply links_run; [by apply RunCommand_ran|apply zig_line|(intros r E; cbv beta; by rewrite E)|]. intros r e E. cbv beta. rewrite E. apply links_fail.
Qed.
#[local] Hint Resolve runCompiler_links linkWithLd_links linkWithLdRelocatable_links linkWindowsImpl_links linkWithZig_links : hoare.

(** ** The choice of the tool *)
Lemma try_all_links last attempts objs bin libs :
  Forall (λ m, links m objs bin libs) attempts → links (try_all last attempts) objs bin libs.
Proof.
  intros H. revert last. induction H as [|m attempts Hm H IH]; intros last; [apply links_fail|]. cbn [try_all].
  eapply hoare_bind_stable; [apply since_stable|by apply hoare_attempt|]. intros [u|e]; cbv beta.
  - apply hoare_ret. by intros log [].
  - assert (∀ l, hoare (λ log, True ∧ extends start log) (try_all l attempts) (λ _, linked objs bin libs)) as Hr.
    { intros l'. eapply hoare_weaken; [apply IH|by intros log []|done]. }
    destruct e; cbn [interrupted]; try apply hoare_fail; apply Hr.
Qed.

Lemma skip_unless_links b m objs bin libs : links m objs bin libs → links (skip_unless b m) objs bin libs.
Proof. destruct b; [done|intros _; apply links_fail]. Qed.

Lemma linked_fewer objs bin libs libs' log : libs ⊆ libs' → linked objs bin libs' log → linked objs bin libs log.
Proof. intros Hs (args & Hd & f & m & r & Ha & Hl). exists args. split; [done|]. exists f, m, r. split; [done|auto]. Qed.

Lemma tryAutoLink_links objs bin san strict libs : links (tryAutoLink w objs bin san strict libs) objs bin libs.
Proof.
  unfold tryAutoLink. destruct (ForceLD _); [destruct (CheckTool _ _); auto with hoare|].
  destruct (objc_source w objs).
  - eapply hoare_bind; [apply hoare_attempt, runCompiler_links|]. intros [u|e]; [|apply hoare_fail].
    apply hoare_ret. intros log. apply linked_fewer. set_solver.
  - apply try_all_links. unfold auto_attempts.
    repeat (apply Forall_cons_2; [apply skip_unless_links; first [apply linkWithZig_links|apply linkWithLd_links|apply runCompiler_links]|]).
    apply Forall_nil_2.
Qed.

Lemma link_mode_links objs bin mode san strict libs : links (link_mode w objs bin mode san strict libs) objs bin libs.
Proof.
  unfold link_mode. case_bool_decide; [auto with hoare|].
  case_bool_decide; [destruct (useZig _); [auto with hoare|apply links_guard, runCompiler_links]|].
  case_bool_decide; [apply tryAutoLink_links|apply links_fail].
Qed.

Lemma linkMultipleSingle_links objs bin mode san strict libs :
  links (linkMultipleSingle w objs bin mode san strict libs) objs bin libs.
Proof.
  unfold linkMultipleSingle. destruct (windows _); [auto with hoare|].
  destruct (_ && _); [apply links_guard, runCompiler_links|apply link_mode_links].
Qed.

Lemma linkPartition_links t : links (linkPartition w t) (lt_Objs t) (lt_Name t) [].
Proof. unfold linkPartition. destruct (windows _); auto with hoare. Qed.

Lemma linkFinal_links t mode san strict libs : links (linkFinal w t mode san strict libs) (lt_Objs t) (lt_Name t) libs.
Proof. unfold linkFinal. destruct (windows _); [auto with hoare|apply link_mode_links]. Qed.
End facts.

(** ** The parallel link *)
Lemma hoare_bind_at {A B} P (m : L A) (f : A → L B) (R : A → list event → Prop) Q :
  hoare P m R → (∀ a mid, R a mid → hoare (λ log, log = mid) (f a) Q) → hoare P (m ≫= f) Q.
Proof.
  intros Hm Hf. eapply hoare_bind; [exact Hm|]. intros a log Hr. by apply (Hf a log Hr log).
Qed.

Section parallel.
Variable w : linker.
(** The pool runs every task. *)
Variable Hpool : ∀ n i, (i < n)%nat → i ∈ pool_order w n.

Definition part_linked (start : list event) (t : LinkTarget) (log : list event) : Prop :=
  linked w start (lt_Objs t) (lt_Name t) [] log.

Lemma run_tasks_parts start targets first order :
  hoare (extends start) (run_tasks w targets first order)
    (λ r log, r = None → first = None ∧ ∀ i t, i ∈ order → targets !! i = Some t → part_linked start t log).
Proof.
  revert first. induction order as [|i order IH]; intros first; cbn [run_tasks].
  { apply hoare_ret. intros log _ ->. split; [done|]. intros i t Hi. by apply not_elem_of_nil in Hi. }
  destruct (targets !! i) as [t|] eqn:Et.
  2: { eapply hoare_weaken; [apply IH|done|]. intros r log H Hr. destruct (H Hr) as [Hf Hp]. split; [done|].
       intros j t' [-> | Hj]%elem_of_cons Ht; [congruence|by eapply Hp]. }
  eapply hoare_bind_stable; [apply since_stable|apply hoare_attempt, linkPartition_links|].
  intros [u|e]; cbv beta.
  - eapply hoare_weaken; [apply (hoare_frame (extends start) (part_linked start t)), IH; apply linked_stable| |].
    { intros log [H1 H2]. by split. }
    intros r log [H Hp] Hr. destruct (H Hr) as [Hf Hq]. split; [done|].
    intros j t' [-> | Hj]%elem_of_cons Ht; [by replace t' with t by congruence|by eapply Hq].
  - eapply hoare_weaken with (P := extends start); [|intros l0 [_ Hl0]; exact Hl0|intros r0 l0 Hl0; exact Hl0].
    apply (hoare_bind_stable _ _ _ (λ f _, f ≠ None)); [apply since_stable| |].
    + unfold recordError. destruct first as [e0|].
      * destruct (_ =? _); [by apply hoare_ret|intros log0 _; by split].
      * apply (hoare_bind _ _ _ (λ _ _, True)); [apply hoare_emit|intros []; by apply hoare_ret].
    + intros f log [Hf Hs]. destruct (IH f log Hs) as [He Hq]. split; [done|].
      destruct (run_tasks w targets f order log).1 as [r| |]; [|done..]. intros Hr. by destruct (Hq Hr).
Qed.

(** The partitions were linked first, then their outputs into the binary. *)
Definition linked_in_parts (start : list event) (partitions : list (list bytes)) (bin : bytes) (libs : list bytes) (log : list event) : Prop :=
  ∃ dir mid, extends start mid
    ∧ (∀ t, t ∈ partial_targets dir partitions → part_linked start t mid)
    ∧ linked w mid (map lt_Name (partial_targets dir partitions)) bin libs log.

Lemma linked_parts_stable start partitions bin libs : stable (linked_in_parts start partitions bin libs).
Proof.
  intros log log' He (dir & mid & Hs & Hp & Hl). exists dir, mid. split; [done|]. split; [done|].
  by eapply linked_stable.
Qed.

Lemma scrub_after_any P bin : stable P → hoare P (scrub_after w bin) (λ _, P).
Proof.
  intros Hs. apply hoare_skip; [|done]. unfold scrub_after. destruct (strip_cfg w); [apply hoare_emit|by apply hoare_ret].
Qed.

Lemma link_parts_links start dir partitions bin mode san strict libs :
  hoare (extends start) (link_parts w dir partitions bin mode san strict libs)
    (λ _, linked_in_parts start partitions bin libs).
Proof.
  unfold link_parts. cbv zeta. set (targets := partial_targets dir partitions).
  eapply hoare_bind_at.
  { eapply hoare_weaken; [apply (hoare_frame (extends start) (extends start)), run_tasks_parts; apply since_stable|done|].
    intros r log H. exact H. }
  intros [e|] mid [Hr Hs]; [apply hoare_fail|]. destruct (Hr eq_refl) as [_ Hp].
  apply (hoare_bind _ _ _ (λ _, linked_in_parts start partitions bin libs)); [|intros []; apply scrub_after_any, linked_parts_stable].
  eapply hoare_weaken; [apply (linkFinal_links w mid)|by intros log ->|].
  intros [] log Hl. exists dir, mid. split; [done|]. split; [|exact Hl].
  intros t [i Hi]%list_elem_of_lookup. eapply Hp; [|exact Hi]. apply Hpool.
  by eapply lookup_lt_Some.
Qed.

(** The objects are linked into the binary at once or in parts. *)
Definition built (start : list event) (objs : list bytes) (bin : bytes) (libs : list bytes) (log : list event) : Prop :=
  linked w start objs bin libs log
  ∨ ∃ partitions, concat partitions = objs ∧ linked_in_parts start partitions bin libs log.

Lemma hoare_with_temp {A} P dir (m : L A) Q : (∀ a, stable (Q a)) → hoare P m Q → hoare P (with_temp dir m) Q.
Proof.
  intros Hs H log Hp. destruct (H log Hp) as [He Hq]. unfold with_temp.
  destruct (m log) as [[a|e|] log']; cbn [fst snd] in *; [split; [etrans; [exact He|by eexists]|]|split; [etrans; [exact He|by eexists]|done]|done].
  eapply Hs; [|exact Hq]. by eexists.
Qed.

Lemma built_stable start objs bin libs : stable (built start objs bin libs).
Proof.
  intros log log' He [Hl | (ps & Hc & Hl)]; [left; by eapply linked_stable|right].
  exists ps. split; [done|]. by eapply linked_parts_stable.
Qed.

Lemma check_symbols_any P skip objs : hoare P (check_symbols w skip objs) (λ _ _, True).
Proof.
  unfold check_symbols. destruct skip; [by apply hoare_ret|].
  eapply hoare_weaken; [apply hoare_lift|done|done].
Qed.

Lemma validateLinkInputs_any objs bin skip : hoare (λ _, True) (validateLinkInputs w objs bin skip) (λ _ _, True).
Proof.
  unfold validateLinkInputs. apply hoare_then; [done| |].
  - induction objs as [|o r IH]; cbn [validateLinkInputs_stat]; [by apply hoare_ret|].
    destruct (stat_size w o); [|apply hoare_fail]. by apply hoare_then; [|apply hoare_guard_any|].
  - apply hoare_then; [done|apply hoare_guard_any|apply check_symbols_any].
Qed.

End parallel.

Section several.
Variable w : linker.
Variable Hpool : ∀ n i, (i < n)%nat → i ∈ pool_order w n.

(** C7 When linking several objects returns no error and the output is not a
    flat binary, a tool has succeeded, since the call, on a command line (or a
    response file) that has all the objects, sorted, the output behind [-o] and
    every library; or, in a parallel link, one such run for each partition of
    the sorted objects, and after them one for the partial objects. *)
Theorem LinkMultipleParallel_links start objFiles bin mode skip san strict libs jobs log :
  shouldSkipLinker (vars w) = false →
  LinkMultipleParallel w objFiles bin mode skip san strict libs jobs start = (LOk tt, log) →
  built w start (sort_Strings objFiles) bin libs log.
Proof.
  intros Hf E.
  enough (hoare (extends start) (LinkMultipleParallel w objFiles bin mode skip san strict libs jobs)
    (λ _, built w start (sort_Strings objFiles) bin libs)) as H.
  { destruct (H start) as [_ Hq]; [done|]. by rewrite E in Hq. }
  clear E. unfold LinkMultipleParallel. rewrite Hf.
  apply hoare_then; [apply since_stable|apply hoare_guard_any|]. cbv zeta.
  apply hoare_then; [apply since_stable| |].
  { eapply hoare_weaken; [apply validateLinkInputs_any|done|done]. }
  assert (∀ P w', run_exec w' = run_exec w → proc w' = proc w → (∀ l, P l → extends start l) →
    hoare P (linkMultipleSingle w' (sort_Strings objFiles) bin mode san strict libs)
    (λ _, built w start (sort_Strings objFiles) bin libs)) as Hsingle.
  { intros P w' H1 H2 HP. eapply hoare_weaken; [apply linkMultipleSingle_links|exact HP|]. intros [] l Hl. left.
    revert Hl. unfold linked, did, carries. by rewrite H1, H2. }
  destruct (existsb _ _); [by apply Hsingle|]. destruct (_ || _); [by apply Hsingle|].
  destruct (temp_dir w (Dir bin)) as [dir|]; [|apply hoare_fail].
  apply hoare_then; [apply since_stable|apply hoare_emit|].
  apply hoare_with_temp; [intros _; apply built_stable|]. destruct (_ <? 2) eqn:Ec; [by apply Hsingle|].
  eapply hoare_bind; [apply hoare_lift|]. intros partitions l [Hs Hl].
  destruct (link_parts_links (fresh_context w) Hpool start dir partitions bin mode san strict libs l Hl) as [He Hq]. split; [exact He|].
  destruct (link_parts _ dir partitions bin mode san strict libs l).1 as [u| |]; [|done..]. right. exists partitions.
  split; [|exact Hq]. apply Z.ltb_ge in Ec.
  pose proof (splitObjects_cases (sort_Strings objFiles) _ Ec) as Hc. rewrite Hs in Hc.
  destruct (sort_Strings objFiles) as [|o r]; [unfold partition_count in Ec; cbn [length] in Ec; lia|].
  specialize (Hc ltac:(done)). destruct (splits _ _); [|done]. destruct Hc as (parts & [= ->] & Hc & _). exact Hc.
Qed.
End several.

(** ** Witnesses and examples *)
Definition example_vars : settings := {|
  LdScript := []; TextAddr := []; Target := bs "x86_64-linux-gnu"; LdFlags := []; Shared := false;
  ZigRequested := false; ZigEnabled := false; ForceLD := false; PreferredLinker := [];
  asm_Target := bs "x86_64-linux-gnu"; asm_OutputFormat := bs "elf64"; zig_Requested := false; zig_Enabled := false;
  toolchainVal := []; muslVal := [] |}.

Definition all_tools (p : process) : process := {|
  windows := false; environ := environ p; executionRoot := executionRoot p; exists_at := λ _, false;
  lookExecutable := λ n, Some (bs "/usr/bin/" ++ n); working_dir := working_dir p; hash_file := λ _, None;
  tool_checksum := λ _, None; env_order := map_to_list |}.

(** A host with every tool, on which the commands answer as given. *)
Definition example_linker (cfg : option Config) (answer : list event → command → exec_result) : linker := {|
  vars := example_vars;
  lhost := mk_host (bs "amd64") None None (λ _, None) (λ s, s) (λ s, s);
  proc := all_tools example_process; cfg := cfg; ctx_invalid := false; on_tool_path := λ n, among n [bs "clang"];
  run_exec := λ log c _, answer log c; temp_file := λ _, Some (bs "/tmp/args.rsp"); temp_dir := λ _, Some (bs "tmp");
  checked_file := λ _, true; stat_size := λ _, Some 1; ensure_dir := λ _, true; objects := example_objects;
  map_order := map_to_list; symbols_cache := ∅; open_elf := λ _, None; maxprocs := 4; pool_order := seq 0 |}.

Definition quiet (log : list event) (c : command) : exec_result := Exited true [].

Lemma LinkMultipleParallel_links_witness :
  let run := LinkMultipleParallel (example_linker None quiet) (replicate 40 (bs "a.o")) (bs "a") (bs "raw") true false false [bs "m"] 4 [] in
  run.1 = LOk tt ∧ length run.2 = 5%nat
  ∧ built (example_linker None quiet) [] (sort_Strings (replicate 40 (bs "a.o"))) (bs "a") [bs "m"] run.2.
Proof.
  intros run. assert (run.1 = LOk tt ∧ length run.2 = 5%nat) as [Hr Hl] by (split; vm_compute; reflexivity).
  split; [exact Hr|]. split; [exact Hl|].
  apply (LinkMultipleParallel_links (example_linker None quiet) (λ n i Hi, proj2 (elem_of_seq 0 n i) (conj (Nat.le_0_l i) Hi))
    [] _ _ (bs "raw") true false false [bs "m"] 4); [reflexivity|].
  rewrite <- Hr. exact (surjective_pairing run).
Defined.

(** The commands of a log. *)
Definition commands (log : list event) : list (bytes * list bytes) :=
  omap (λ e, match e with Exec c _ => Some (c_path c, c_args c) | _ => None end) log.

(** With strict sanitizers, the automatic choice runs clang, the tool preferred
    for them, without the flags of the strict mode, which gcc and zig get. *)
Theorem strict_clang_flags :
  let strict_flags args := filter (λ a, a ∈ [bs "-fsanitize-address-use-after-return=always"; bs "-fsanitize-address-use-after-scope"]) args in
  commands (tryAutoLink (example_linker None quiet) [bs "a.o"] (bs "a") true true [] []).2
  = [(bs "/usr/bin/clang", buildLinkArgs (lhost (example_linker None quiet)) (λ _, false) example_vars [bs "a.o"] (bs "a") true false [] false true)]
  ∧ strict_flags (buildLinkArgs (lhost (example_linker None quiet)) (λ _, false) example_vars [bs "a.o"] (bs "a") true false [] false true) = []
  ∧ length (strict_flags (buildLinkArgs (lhost (example_linker None quiet)) (λ _, false) example_vars [bs "a.o"] (bs "a") true true [] false true)) = 2%nat.
Proof. by vm_compute. Qed.

Definition strip_config : Config := zero_Config <| DeterministicStrip := true |> <| Isolation := IsolationNone |>.

(** The binaries a log has scrubbed. *)
Definition scrubs (log : list event) : list (bytes * bytes) :=
  omap (λ e, match e with Scrub bin root => Some (bin, root) | _ => None end) log.

(** A configuration that asks for the scrubbing of host paths gets it for one
    object and for a parallel link, not for a link of a few objects. *)
Theorem strip_skipped :
  let w := example_linker (Some strip_config) quiet in
  let several n := LinkMultiple w (replicate n (bs "a.o")) (bs "a") (bs "raw") true false false [] [] in
  scrubs (Link w (bs "a.o") (bs "a") (bs "raw") true false false [] []).2 = [(bs "a", bs "/w")]
  ∧ (several 40%nat).1 = LOk tt ∧ scrubs (several 40%nat).2 = [(bs "a", bs "/w")]
  ∧ (several 2%nat).1 = LOk tt ∧ scrubs (several 2%nat).2 = [].
Proof. by vm_compute. Qed.

(** The first command fails for good, the next is not started because of the
    cancellation this causes: the error kept is the second. *)
Definition cancelled (log : list event) : bool := existsb (λ e, match e with CancelAll => true | _ => false end) log.
Definition fails_first (log : list event) (c : command) : exec_result :=
  if cancelled log then Killed false else Exited false (bs "ld: out of memory").

Theorem first_error_lost :
  (LinkMultiple (example_linker None fails_first) (replicate 40 (bs "a.o")) (bs "a") (bs "raw") true false false [] []).1
  = LErr Canceled.
Proof. by vm_compute. Qed.

(** Storing errors of two types panics. On Windows, where a partition is linked
    by clang under the context of the call, the deadline kills the first command,
    whose error is a text, and the next is not started because of the deadline. *)
Definition on_windows (w : linker) : linker :=
  let p := proc w in
  mk_linker (vars w) (lhost w)
    (mk_process true (environ p) (executionRoot p) (exists_at p) (lookExecutable p) (working_dir p) (hash_file p) (tool_checksum p) (env_order p))
    (cfg w) (ctx_invalid w) (on_tool_path w) (run_exec w) (temp_file w) (temp_dir w) (checked_file w) (stat_size w)
    (ensure_dir w) (objects w) (map_order w) (symbols_cache w) (open_elf w) (maxprocs w) (pool_order w).
Definition deadline_passes (log : list event) (c : command) : exec_result :=
  if cancelled log then Killed true else Exited false [].

Theorem error_types_panic :
  (LinkMultiple (on_windows (example_linker None deadline_passes)) (replicate 40 (bs "a.o")) (bs "a") (bs "raw") true false false [] []).1
  = LPanic.
Proof. by vm_compute. Qed.

(** With the zig toolchain chosen on the command line, the compiler driver is
    run as [zig -pipe ...]: no [c++] or [cc] names the mode, as it does in the
    commands made for zig. *)
Definition zig_vars : settings := {|
  LdScript := []; TextAddr := []; Target := bs "x86_64-linux-gnu"; LdFlags := []; Shared := false;
  ZigRequested := false; ZigEnabled := false; ForceLD := false; PreferredLinker := [];
  asm_Target := bs "x86_64-linux-gnu"; asm_OutputFormat := bs "elf64"; zig_Requested := false; zig_Enabled := false;
  toolchainVal := bs "zig"; muslVal := [] |}.

Theorem zig_without_mode on_path h objs bin san strict libs :
  gccForTarget on_path zig_vars = bs "zig"
  ∧ head (buildLinkArgs h on_path zig_vars objs bin san strict libs false false) = Some (bs "-pipe")
  ∧ head (zig_LinkArgs objs bin (Target zig_vars) san strict libs false [] []) = Some (bs "c++").
Proof. done. Qed.
