(* ===== verification/DepFile.v ===== *)
(** * Dependency files (utils/deps.go)

    The parser of the files in which a compiler lists what it read, and its
    round trip with the way compilers write them. *)
From S2P Require Import Prelude GoStrings GoPath.

Definition dep_blank (c : Z) : bool := (c =? 32) || (c =? 9) || (c =? 10) || (c =? 13).
(** A line that is continued; a character that is escaped in a token. *)
Definition continued (c d : Z) : bool := (c =? 92) && (d =? 10).
Definition escaped (c d : Z) : bool := (c =? 92) && ((d =? 10) || (d =? 32)).

(** Behind the colon of the target. *)
Fixpoint skip_target (data : bytes) : bytes :=
  match data with
  | [] => []
  | c :: r =>
      if c =? ch ":" then r
      else match r with
           | d :: r' => if continued c d then skip_target r' else skip_target r
           | [] => []
           end
  end.

Fixpoint skip_blanks (data : bytes) : bytes :=
  match data with
  | [] => []
  | c :: r =>
      match r with
      | d :: r' => if continued c d then skip_blanks r' else if dep_blank c then skip_blanks r else data
      | [] => if dep_blank c then [] else data
      end
  end.

(** The raw token, and what is behind it. *)
Fixpoint take_token (data : bytes) : bytes * bytes :=
  match data with
  | [] => ([], [])
  | c :: r =>
      match r with
      | d :: r' =>
          if escaped c d then let '(t, s) := take_token r' in (c :: d :: t, s)
          else if dep_blank c then ([], data)
          else let '(t, s) := take_token r in (c :: t, s)
      | [] => if dep_blank c then ([], data) else ([c], [])
      end
  end.

Fixpoint unescapeDepToken (src : bytes) : bytes :=
  match src with
  | [] => []
  | c :: r =>
      match r with
      | d :: r' => if escaped c d then (if d =? 10 then [] else [32]) ++ unescapeDepToken r' else c :: unescapeDepToken r
      | [] => [c]
      end
  end.

Fixpoint dep_tokens (fuel : nat) (data : bytes) : outcome (list bytes) :=
  match fuel with
  | O => Diverge
  | S k =>
      let s := skip_blanks data in
      if nilb s then Ok []
      else
        let '(token, rest) := take_token s in
        let path := unescapeDepToken token in
        deps ← dep_tokens k rest;
        Ok (if nilb path then deps else path :: deps)
  end.

Definition ParseDepFile (data : bytes) : outcome (list bytes) :=
  let s := skip_target data in
  if nilb s then Ok [] else dep_tokens (S (length s)) s.

(** The paths are taken relative to the directory of the file. *)
Definition dep_path (path dep : bytes) : bytes :=
  if nilb dep then dep else if IsAbs dep then Clean dep else Clean (filepath_Join (Dir path) dep).
Definition ParseDepFilePath (read : bytes → option bytes) (path : bytes) : outcome (list bytes) :=
  match read path with
  | None => Err "read"
  | Some data => deps ← ParseDepFile data; Ok (map (dep_path path) deps)
  end.

(** ** Termination *)

(** Induction on the length, for functions that take two characters at a time. *)
Lemma bytes_ind_length (P : bytes → Prop) :
  (∀ data, (∀ s, (length s < length data)%nat → P s) → P data) → ∀ data, P data.
Proof. intros H data. induction data as [data IH] using (induction_ltof1 _ length). by apply H. Qed.

Lemma skip_blanks_two c d r :
  skip_blanks (c :: d :: r) = if continued c d then skip_blanks r else if dep_blank c then skip_blanks (d :: r) else c :: d :: r.
Proof. done. Qed.
Lemma take_token_two c d r :
  take_token (c :: d :: r)
  = if escaped c d then let '(t, s) := take_token r in (c :: d :: t, s)
    else if dep_blank c then ([], c :: d :: r) else let '(t, s) := take_token (d :: r) in (c :: t, s).
Proof. done. Qed.
Lemma unescape_two c d r :
  unescapeDepToken (c :: d :: r)
  = if escaped c d then (if d =? 10 then [] else [32]) ++ unescapeDepToken r else c :: unescapeDepToken (d :: r).
Proof. done. Qed.

Lemma skip_blanks_length data : (length (skip_blanks data) ≤ length data)%nat.
Proof.
  induction data as [data IH] using bytes_ind_length. destruct data as [|c [|d r]]; [done|cbn; destruct (dep_blank c); cbn; lia|].
  rewrite skip_blanks_two. pose proof (IH r ltac:(cbn; lia)). pose proof (IH (d :: r) ltac:(cbn; lia)).
  destruct (continued c d), (dep_blank c); cbn [length] in *; lia.
Qed.

Lemma skip_blanks_head data c r : skip_blanks data = c :: r → dep_blank c = false ∧ (∀ d r', r = d :: r' → continued c d = false).
Proof.
  induction data as [data IH] using bytes_ind_length. destruct data as [|x [|y s]]; [done| |].
  - cbn. destruct (dep_blank x) eqn:E; [done|]. by intros [= <- <-].
  - rewrite skip_blanks_two. destruct (continued x y) eqn:Ec; [apply IH; cbn; lia|].
    destruct (dep_blank x) eqn:E; [apply IH; cbn; lia|]. intros [= <- <-]. split; [done|]. by intros d r' [= <- <-].
Qed.

Lemma take_token_length data c r : data = c :: r → dep_blank c = false → (length (take_token data).2 ≤ length r)%nat.
Proof.
  revert c r. induction data as [data IH] using bytes_ind_length. intros c r -> Hc.
  destruct r as [|d r]; [cbn; by rewrite Hc|]. rewrite take_token_two.
  assert (∀ s, (length s < length (c :: d :: r))%nat → (length (take_token s).2 ≤ length s)%nat) as Hle.
  { intros [|x s] Hs; [done|]. destruct (dep_blank x) eqn:E.
    - destruct s as [|y s]; [cbn; by rewrite E|]. rewrite take_token_two, E. destruct (escaped x y) eqn:Ey; [|done].
      unfold escaped in Ey. unfold dep_blank in E. lia.
    - pose proof (IH (x :: s) Hs x s eq_refl E). cbn [length]. lia. }
  destruct (escaped c d).
  - pose proof (Hle r ltac:(cbn; lia)). destruct (take_token r). cbn in *. lia.
  - rewrite Hc. pose proof (Hle (d :: r) ltac:(cbn; lia)). destruct (take_token (d :: r)). cbn in *. lia.
Qed.

Lemma dep_tokens_returns fuel data : (length data < fuel)%nat → ∃ deps, dep_tokens fuel data = Ok deps.
Proof.
  revert data. induction fuel as [|k IH]; intros data Hl; [lia|]. cbn [dep_tokens]. cbv zeta.
  destruct (skip_blanks data) as [|c r] eqn:E; [by exists []|]. cbn [nilb].
  pose proof (skip_blanks_length data) as Hs. rewrite E in Hs. cbn in Hs.
  apply skip_blanks_head in E as [Hc _]. pose proof (take_token_length (c :: r) c r eq_refl Hc) as Ht.
  destruct (take_token (c :: r)) as [token rest]. cbn [snd] in Ht.
  destruct (IH rest ltac:(lia)) as [deps ->]. by eexists.
Qed.

(** Parsing always returns. *)
Theorem ParseDepFile_total data : ∃ deps, ParseDepFile data = Ok deps.
Proof.
  unfold ParseDepFile. cbv zeta. destruct (nilb _); [by exists []|]. apply dep_tokens_returns. lia.
Qed.

(** ** What a compiler writes *)

(** The quoting of make, as GCC writes a name: a backslash before a blank, a tab
    and a number sign, the backslashes in front of a blank doubled, and a dollar
    sign doubled. The first argument counts the backslashes just passed. *)
Fixpoint munge (slashes : nat) (dep : bytes) : bytes :=
  match dep with
  | [] => []
  | c :: r =>
      if (c =? 32) || (c =? 9) then replicate slashes 92 ++ 92 :: c :: munge 0 r
      else if c =? 92 then 92 :: munge (S slashes) r
      else if c =? ch "$" then c :: c :: munge 0 r
      else if c =? ch "#" then 92 :: c :: munge 0 r
      else c :: munge 0 r
  end.

(** A name without a number sign, a dollar sign, a tab and a line break, in
    which no backslash is before a blank or at the end. *)
Fixpoint dep_chars (dep : bytes) : bool :=
  match dep with
  | [] => true
  | c :: r =>
      negb (bool_decide (c ∈ [ch "#"; ch "$"; 9; 10; 13])) &&
      (if c =? 92 then match r with d :: _ => negb (d =? 32) | [] => false end else true) && dep_chars r
  end.
Definition dep_name (dep : bytes) : Prop := dep ≠ [] ∧ dep_chars dep = true.

(** Each name on the line of the one before it, or on a line of its own. *)
Definition dep_space (own_line : bool) : bytes := if own_line then [32; 92; 10; 32] else [32].
Definition dep_print (target : bytes) (deps : list (bool * bytes)) : bytes :=
  munge 0 target ++ bs ":" ++ concat (map (λ d, dep_space d.1 ++ munge 0 d.2) deps) ++ [10].

(** What is left of the quoting for such a name. *)
Definition dep_escape (dep : bytes) : bytes := concat (map (λ c, if c =? 32 then [92; 32] else [c]) dep).

Lemma dep_chars_cons c r : dep_chars (c :: r) = true ↔
  (c ≠ ch "#" ∧ c ≠ ch "$" ∧ c ≠ 9 ∧ c ≠ 10 ∧ c ≠ 13) ∧ (c = 92 → ∃ d r', r = d :: r' ∧ d ≠ 32) ∧ dep_chars r = true.
Proof.
  cbn [dep_chars]. rewrite !andb_true_iff, negb_true_iff, bool_decide_eq_false, !not_elem_of_cons.
  destruct (Z.eqb_spec c 92) as [->|Hc]; [destruct r as [|d r]|].
  - split; [by intros [[_ ?] _]|]. intros (_ & H & _). by destruct (H eq_refl) as (? & ? & ? & _).
  - rewrite negb_true_iff, Z.eqb_neq. split.
    + intros [[H Hd] Hr]. split; [done|]. split; [|done]. intros _. by exists d, r.
    + intros (_ & H & Hr). destruct (H eq_refl) as (? & ? & [= <- <-] & Hd). split; [|done]. split; [|done].
      repeat split; try done. apply not_elem_of_nil.
  - split.
    + intros [[H _] Hr]. split; [naive_solver|]. done.
    + intros (H & _ & Hr). split; [|done]. split; [|done]. repeat split; try apply H. apply not_elem_of_nil.
Qed.

Lemma munge_escape n dep : dep_chars dep = true → (n = 0%nat ∨ head dep ≠ Some 32) → munge n dep = dep_escape dep.
Proof.
  revert n. induction dep as [|c dep IH]; intros n Hd Hn; [done|]. apply dep_chars_cons in Hd as ((H1 & H2 & H3 & H4 & H5) & Hb & Hd).
  cbn [munge]. unfold dep_escape in *. cbn [map concat]. rewrite (proj2 (Z.eqb_neq c 9)), orb_false_r by done.
  destruct (Z.eqb_spec c 32) as [->|Hc].
  - destruct Hn as [->|Hn]; [|done]. cbn [replicate app]. rewrite IH by auto. done.
  - destruct (Z.eqb_spec c 92) as [->|Hs].
    + destruct (Hb eq_refl) as (d & r' & -> & Hne). rewrite IH; [done|done|]. right. cbn. congruence.
    + rewrite (proj2 (Z.eqb_neq c (ch "$"))), (proj2 (Z.eqb_neq c (ch "#"))), IH by auto. done.
Qed.

Lemma take_token_printed dep rest : dep_chars dep = true → (∃ c r, rest = c :: r ∧ (c = 32 ∨ c = 10)) →
  take_token (dep_escape dep ++ rest) = (dep_escape dep, rest) ∧ unescapeDepToken (dep_escape dep) = dep.
Proof.
  intros Hd (x & r & -> & Hx). unfold dep_escape. induction dep as [|c dep IH].
  - split; [|done]. cbn [map concat app].
    destruct r as [|y r]; [by destruct Hx as [-> | ->]|]. rewrite take_token_two.
    replace (escaped x y) with false by (destruct Hx as [-> | ->]; done). by destruct Hx as [-> | ->].
  - apply dep_chars_cons in Hd as ((_ & _ & H2 & H3 & H4) & Hb & Hd). destruct (IH Hd) as [IH1 IH2]. clear IH.
    cbn [map concat]. destruct (Z.eqb_spec c 32) as [-> | Hc].
    + cbn [app]. rewrite take_token_two, unescape_two. change (escaped 92 32) with true. cbv iota.
      by rewrite IH1, IH2.
    + cbn [app]. set (s := concat _) in *.
      assert (∀ d s', s = d :: s' → escaped c d = false) as Hesc.
      { intros d s' Es. unfold escaped. destruct (Z.eqb_spec c 92) as [->|]; [|done]. destruct (Hb eq_refl) as (e & r' & -> & He).
        apply dep_chars_cons in Hd as ((_ & _ & _ & H3' & _) & _ & _). subst s. cbn [map concat] in Es.
        destruct (Z.eqb_spec e 32); [done|]. injection Es as <- _. lia. }
      assert (c = 92 → s ≠ []) as Hlast.
      { intros Ec Es. destruct (Hb Ec) as (e & r' & -> & He). subst s. cbn [map concat] in Es. by destruct (e =? 32). }
      assert (take_token (c :: s ++ x :: r) = (c :: s, x :: r)) as Ht.
      { destruct s as [|d s'] eqn:Es; cbn [app] in *; rewrite take_token_two.
        - replace (escaped c x) with false by (unfold escaped; destruct (Z.eqb_spec c 92); [by destruct Hlast|done]).
          replace (dep_blank c) with false by (unfold dep_blank; lia). by rewrite IH1.
        - rewrite (Hesc d s' eq_refl). replace (dep_blank c) with false by (unfold dep_blank; lia). by rewrite IH1. }
      split; [done|]. destruct s as [|d s'] eqn:Es; [by rewrite <- IH2|]. rewrite unescape_two.
      rewrite (Hesc d s' eq_refl). by rewrite IH2.
Qed.

Lemma skip_target_colon target s : ch ":" ∉ target → skip_target (target ++ ch ":" :: s) = s.
Proof.
  induction target as [target IH] using bytes_ind_length. intros Ht.
  destruct target as [|c [|d t]]; [done| |].
  - apply not_elem_of_cons in Ht as [Hc _]. cbn [app skip_target]. rewrite (proj2 (Z.eqb_neq c _)) by done.
    change (continued c (ch ":")) with ((c =? 92) && false). by rewrite andb_false_r.
  - apply not_elem_of_cons in Ht as [Hc Ht].
    change (skip_target ((c :: d :: t) ++ ch ":" :: s))
      with (if c =? ch ":" then (d :: t) ++ ch ":" :: s else if continued c d then skip_target (t ++ ch ":" :: s) else skip_target ((d :: t) ++ ch ":" :: s)).
    rewrite (proj2 (Z.eqb_neq c _)) by done.
    destruct (continued c d); apply IH; [cbn; lia|by apply not_elem_of_cons in Ht as [_ Ht]|cbn; lia|done].
Qed.

Lemma munge_colon n dep : ch ":" ∉ dep → ch ":" ∉ munge n dep.
Proof.
  revert n. induction dep as [|c dep IH]; intros n Hd; [done|]. apply not_elem_of_cons in Hd as [Hc Hd].
  assert (∀ n, ch ":" ∉ munge n dep) as IH' by (intros m; by apply IH). cbn [munge].
  destruct (_ || _); [|destruct (c =? 92); [|destruct (c =? ch "$"); [|destruct (c =? ch "#")]]]; rewrite ?not_elem_of_app, ?not_elem_of_cons; split_and?; try done.
  intros H. by apply elem_of_replicate in H as [H _].
Qed.

Lemma dep_escape_head dep rest : dep_name dep →
  ∃ c r, dep_escape dep = c :: r ∧ dep_blank c = false ∧ ∀ d r', r ++ rest = d :: r' → continued c d = false.
Proof.
  intros [Hne Hd]. destruct dep as [|c dep]; [done|]. apply dep_chars_cons in Hd as ((_ & _ & H2 & H3 & H4) & Hb & Hd).
  unfold dep_escape. cbn [map concat]. destruct (Z.eqb_spec c 32) as [-> | Hc].
  - exists 92. eexists. split; [reflexivity|]. split; [done|]. by intros d r' [= <- _].
  - exists c. eexists. split; [reflexivity|]. split; [unfold dep_blank; lia|]. intros d r' E. unfold continued.
    destruct (Z.eqb_spec c 92) as [->|]; [|done]. destruct (Hb eq_refl) as (e & s & -> & He).
    apply dep_chars_cons in Hd as ((_ & _ & _ & H3' & _) & _ & _). cbn [map concat app] in E.
    destruct (Z.eqb_spec e 32); [done|]. injection E as <- _. lia.
Qed.

Lemma skip_blanks_space b dep rest : dep_name dep →
  skip_blanks (dep_space b ++ dep_escape dep ++ rest) = dep_escape dep ++ rest.
Proof.
  intros Hd. destruct (dep_escape_head dep rest Hd) as (c & r & -> & Hc & Hr).
  assert (skip_blanks ((c :: r) ++ rest) = (c :: r) ++ rest) as Hs.
  { cbn [app]. destruct (r ++ rest) as [|d t] eqn:E; [cbn; by rewrite Hc|]. rewrite skip_blanks_two, Hc.
    by rewrite (Hr d t). }
  rewrite <- Hs at 2. cbn [app]. by destruct b.
Qed.

Lemma dep_tokens_printed fuel deps : Forall (λ d, dep_name d.2) deps → (length deps < fuel)%nat →
  dep_tokens fuel (concat (map (λ d, dep_space d.1 ++ munge 0 d.2) deps) ++ [10]) = Ok (map snd deps).
Proof.
  intros Hd. revert fuel. induction Hd as [|[b dep] deps Hn Hd IH]; intros fuel Hf.
  { destruct fuel; [lia|done]. }
  cbn in Hf. destruct fuel as [|k]; [lia|]. cbn [map concat dep_tokens fst snd]. cbv zeta.
  rewrite munge_escape by (apply Hn || by left). rewrite <- !(assoc_L (++)), skip_blanks_space by done.
  destruct (take_token_printed dep (concat (map (λ d, dep_space d.1 ++ munge 0 d.2) deps) ++ [10])) as [Ht Hu].
  { apply Hn. }
  { destruct deps as [|[[|] d] deps]; cbn; eauto. }
  destruct (dep_escape_head dep [] Hn) as (c & r & E & _). rewrite Ht, Hu.
  replace (nilb (dep_escape dep ++ _)) with false by (by rewrite E).
  rewrite IH by lia. cbn. by destruct dep; [destruct Hn|].
Qed.

(** C34 A dependency file of one rule, with the quoting GCC writes (the target, a
    colon, the names, some on continued lines), parses to the names, when the
    target has no colon and the names have no number sign, no dollar sign, no
    tab and no line break, and no backslash before a blank or at the end. Other
    names come out wrong: [ParseDepFile_other_escapes]. *)
Theorem ParseDepFile_roundtrip target deps : ch ":" ∉ target → Forall (λ d, dep_name d.2) deps →
  ParseDepFile (dep_print target deps) = Ok (map snd deps).
Proof.
  intros Ht Hd. unfold ParseDepFile, dep_print. cbv zeta. cbn [app]. rewrite skip_target_colon by by apply munge_colon.
  replace (nilb (_ ++ [10])) with false by (by destruct (concat _)).
  apply dep_tokens_printed; [done|]. rewrite length_app. cbn.
  assert (length deps ≤ length (concat (map (λ d, dep_space d.1 ++ munge 0 d.2) deps)))%nat; [|lia].
  clear Hd. induction deps as [|[[|] d] deps IH]; cbn [map concat length]; [lia|..];
    rewrite !length_app; cbn [dep_space fst length]; lia.
Qed.

Lemma ParseDepFile_roundtrip_witness :
  ParseDepFile (dep_print (bs "a b.o") [(false, bs "src/a.c"); (true, bs "my dir/a.h"); (false, bs "C:" ++ [92] ++ bs "b.h")])
  = Ok [bs "src/a.c"; bs "my dir/a.h"; bs "C:" ++ [92] ++ bs "b.h"].
Proof.
  apply (ParseDepFile_roundtrip (bs "a b.o") [(false, bs "src/a.c"); (true, bs "my dir/a.h"); (false, bs "C:" ++ [92] ++ bs "b.h")]);
    [by apply (bool_decide_eq_true _)|].
  repeat (apply Forall_cons_2; [split; [discriminate|vm_compute; reflexivity]|]). constructor.
Defined.

(** The other names of the quoting come out as they stand: with a number sign,
    a dollar sign, or a backslash before a blank. *)
Theorem ParseDepFile_other_escapes :
  ParseDepFile (dep_print (bs "a.o") [(false, bs "a#b.h"); (false, bs "c$d.h"); (false, bs "e" ++ [92] ++ bs " f.h")])
  = Ok [bs "a" ++ [92] ++ bs "#b.h"; bs "c$$d.h"; bs "e" ++ [92; 92] ++ bs " f.h"].
Proof. by vm_compute. Qed.

(** The further rules of a file, as GCC adds them for each header with -MP,
    are read as names. *)
Theorem ParseDepFile_phony :
  ParseDepFile (bs "a.o: a.c a.h" ++ [10; 10] ++ bs "a.h:" ++ [10]) = Ok [bs "a.c"; bs "a.h"; bs "a.h:"].
Proof. by vm_compute. Qed.
