(* ===== verification/BuildRules.v ===== *)
(** * Build rules (builder/rules.go, utils/shell_unix.go)

    The graph of the rules of a configuration, when a rule has to run, the text
    of its command and the names that are quoted in it, and the run of all. *)
From stdpp Require Import list gmap strings sorting.
From S2P Require Import Prelude GoStrings GoPath Topo DagScheduler ConfigTypes ConfigOps DepFile.

(** What the rules ask of a file: nothing there, an error, a directory, or a
    file with its time; and its contents. *)
Inductive file_state := Missing | Unreadable | Directory | File (mtime : Z).
#[export] Instance file_state_eq_dec : EqDecision file_state.
Proof. solve_decision. Defined.
Record rule_files := mk_rule_files { stat : bytes → file_state; contents : bytes → option bytes }.

(** ** The graph *)
Definition normalizeRulePath (path : bytes) : bytes := Clean path.

Fixpoint add_outputs_of (i : Z) (outs : list bytes) (m : gmap bytes Z) : outcome (gmap bytes Z) :=
  match outs with
  | [] => Ok m
  | out :: r =>
      let key := normalizeRulePath out in
      match m !! key with
      | Some _ => Err "duplicate build rule output"
      | None => add_outputs_of i r (<[key := i]> m)
      end
  end.
Fixpoint rule_outputs (i : Z) (rules : list BuildRule) (m : gmap bytes Z) : outcome (gmap bytes Z) :=
  match rules with
  | [] => Ok m
  | rule :: r => m ← add_outputs_of i (Rule_Outputs rule) m; rule_outputs (i + 1) r m
  end.

(** The dependencies a depfile lists, when there is such a file. *)
Definition depfile_deps (f : rule_files) (rule : BuildRule) : outcome (list bytes) :=
  if nilb (Rule_Depfile rule) then Ok []
  else match stat f (Rule_Depfile rule) with
       | File _ => ParseDepFilePath (contents f) (Rule_Depfile rule)
       | _ => Ok []
       end.

Definition producers (outputs : gmap bytes Z) (paths : list bytes) : gset Z :=
  list_to_set (omap (λ p, outputs !! normalizeRulePath p) paths).
Fixpoint rule_rows (f : rule_files) (outputs : gmap bytes Z) (rules : list BuildRule) : outcome graph :=
  match rules with
  | [] => Ok []
  | rule :: r =>
      parsed ← depfile_deps f rule;
      rest ← rule_rows f outputs r;
      Ok (merge_sort Z.le (elements (producers outputs (Rule_Inputs rule) ∪ producers outputs parsed)) :: rest)
  end.

Definition buildRulesGraph (f : rule_files) (rules : list BuildRule) : outcome graph :=
  outputs ← rule_outputs 0 rules ∅;
  rule_rows f outputs rules.

(** ** When a rule has to run *)
Definition collectRuleDependencies (f : rule_files) (rule : BuildRule) : outcome (list bytes) :=
  parsed ← depfile_deps f rule;
  Ok (Rule_Inputs rule ++ parsed).

(** [None]: a file is missing; otherwise the times, or the error. *)
Fixpoint file_times (f : rule_files) (paths : list bytes) : outcome (option (list Z)) :=
  match paths with
  | [] => Ok (Some [])
  | p :: r =>
      match stat f p with
      | Missing => Ok None
      | Unreadable => Err "stat"
      | Directory => Err "is a directory"
      | File t => times ← file_times f r; Ok (option_map (cons t) times)
      end
  end.

(** The time of no file is the zero time. *)
Definition latest (times : list Z) : option Z := match times with [] => None | t :: r => Some (foldl Z.max t r) end.

Definition ruleNeedsBuild (f : rule_files) (rule : BuildRule) : outcome bool :=
  if nilb (Rule_Outputs rule) then Err "build action failed"
  else
    outs ← file_times f (Rule_Outputs rule);
    match outs with
    | None => Ok true
    | Some outTimes =>
        deps ← collectRuleDependencies f rule;
        times ← file_times f deps;
        match times with
        | None => Ok true
        | Some depTimes =>
            match latest depTimes with
            | None => Ok true
            | Some latestDep => Ok (existsb (λ t, t <? latestDep) outTimes)
            end
        end
    end.

(** ** The command *)
Definition handled (c : Z) : bool := bool_decide (c ∈ [32; 9; 10; 13; 39; 92; 34; ch "$"; ch "`"; ch "!"; ch ";"]).
Definition shellEscape (value : bytes) : bytes :=
  if nilb value then bs "''"
  else if negb (existsb handled value) then value
  else bs "'" ++ replace_from 0 (bs "'") (bs "'" ++ [92] ++ bs "''") value ++ bs "'".
Definition shellJoin (paths : list bytes) : bytes := strings_Join (map shellEscape paths) [32].

Definition expandRuleAction (rule : BuildRule) : bytes :=
  let action := Rule_Action rule in
  let action := replace_from 0 (bs "$in") (shellJoin (Rule_Inputs rule)) action in
  let action := replace_from 0 (bs "$out") (shellJoin (Rule_Outputs rule)) action in
  if nonempty (Rule_Depfile rule) then replace_from 0 (bs "$depfile") (shellEscape (Rule_Depfile rule)) action
  else action.

(** The shell of the user, with the command behind [-c]. *)
Definition ShellCommand (shell cmd : bytes) : bytes * list bytes :=
  (if nilb shell then bs "/bin/sh" else shell, [bs "-c"; cmd]).

(** ** The run *)
Section run.
Context (shell : bytes).
(** A command run in a state of the files: whether it succeeded, and the files
    it leaves. *)
Context (run : bytes * list bytes → rule_files → bool * rule_files).

(** The state of the run: the files and the commands that were run. *)
Definition run_state : Type := rule_files * list bytes.

Definition executeBuildRule (rule : BuildRule) (s : run_state) : outcome run_state :=
  needs ← ruleNeedsBuild s.1 rule;
  if negb needs then Ok s
  else
    let cmd := expandRuleAction rule in
    let '(ok, f) := run (ShellCommand shell cmd) s.1 in
    if ok then Ok (f, s.2 ++ [cmd]) else Err "command failed".

(** The rules in the order in which the scheduler finishes them. *)
Fixpoint execute_in (rules : list BuildRule) (order : list nat) (s : run_state) : outcome run_state :=
  match order with
  | [] => Ok s
  | i :: r =>
      match rules !! i with
      | Some rule => s ← executeBuildRule rule s; execute_in rules r s
      | None => execute_in rules r s
      end
  end.

Definition finalRuleOutputs (rules : list BuildRule) : list bytes * bytes :=
  let inputs : gset bytes := list_to_set (map normalizeRulePath (concat (map Rule_Inputs rules))) in
  let allOutputs := map normalizeRulePath (concat (map Rule_Outputs rules)) in
  let leaves := List.filter (λ o, negb (bool_decide (o ∈ inputs))) allOutputs in
  (allOutputs, default (default [] (last allOutputs)) (head leaves)).

(** The rules are submitted in the order of the configuration; the scheduler
    then runs them in an order of its own. *)
Definition runBuildRules (rules : list BuildRule) (order : graph → list nat) (s : run_state) :
    outcome (option (list bytes * bytes) * run_state) :=
  if nilb rules then Ok (None, s)
  else
    g ← buildRulesGraph s.1 rules;
    submit_all g [];;
    s ← execute_in rules (order g) s;
    Ok (Some (finalRuleOutputs rules), s).
End run.

(** ** When a rule is up to date *)
Lemma file_times_spec f paths ts :
  file_times f paths = Ok (Some ts) ↔ Forall2 (λ p t, stat f p = File t) paths ts.
Proof.
  revert ts. induction paths as [|p r IH]; intros ts; cbn [file_times].
  - split; [intros [= <-]; constructor|]. by inversion 1.
  - split.
    + destruct (stat f p) as [| | |t] eqn:E; try done. intros (l & Hl & H)%bind_Ok.
      destruct l as [l|]; [|done]. injection H as <-. constructor; [done|by apply IH].
    + inversion 1 as [|? t ? l Hp Hl]; subst. by rewrite Hp, (proj2 (IH l) Hl).
Qed.

Lemma foldl_max_spec l a : (∀ x, x ∈ a :: l → x ≤ foldl Z.max a l) ∧ foldl Z.max a l ∈ a :: l.
Proof.
  revert a. induction l as [|b l IH]; intros a; cbn [foldl].
  - split; [|by left]. intros x [-> | H]%elem_of_cons; [lia|by apply not_elem_of_nil in H].
  - destruct (IH (Z.max a b)) as [H1 H2]. split.
    + intros x [-> | [-> | Hx]%elem_of_cons]%elem_of_cons; [|pose proof (H1 (Z.max a b) ltac:(by left)); lia|apply H1; by right].
      pose proof (H1 (Z.max a b) ltac:(by left)). lia.
    + apply elem_of_cons in H2 as [-> | H2]; [|by right; right].
      destruct (Z.max_spec a b) as [[_ ->] | [_ ->]]; [right; by left|by left].
Qed.

(** What the depfile of a rule lists: nothing when the rule has none or it is
    no file yet. *)
Definition listed_by (f : rule_files) (rule : BuildRule) (listed : list bytes) : Prop :=
  (Rule_Depfile rule = [] ∨ ∀ t, stat f (Rule_Depfile rule) ≠ File t) ∧ listed = []
  ∨ Rule_Depfile rule ≠ [] ∧ ∃ t data names, stat f (Rule_Depfile rule) = File t ∧ contents f (Rule_Depfile rule) = Some data
      ∧ ParseDepFile data = Ok names ∧ listed = map (dep_path (Rule_Depfile rule)) names.

Lemma depfile_deps_spec f rule listed : depfile_deps f rule = Ok listed ↔ listed_by f rule listed.
Proof.
  unfold depfile_deps, listed_by, ParseDepFilePath. destruct (Rule_Depfile rule) as [|c d] eqn:Ed; cbn [nilb].
  { split; [by intros [= <-]; left; split; [left|]|]. by intros [[_ ->]|[? _]]. }
  destruct (stat f (c :: d)) as [| | |t] eqn:Es.
  1-3: split; [intros [= <-]; left; split; [right; naive_solver|done]|by intros [[_ ->]|[_ (? & ? & ? & ? & _)]]].
  destruct (contents f (c :: d)) as [data|] eqn:Ec; [|split; [done|intros [[[?|H] _]|[_ (? & ? & ? & _ & ? & _)]]; [done|by destruct (H t)|done]]].
  destruct (ParseDepFile data) as [names| | |] eqn:Ep; cbn.
  2-4: split; [done|intros [[[?|H] _]|[_ (? & ? & ? & _ & [= <-] & E & _)]]; [done|by destruct (H t)|congruence]].
  split.
  - intros [= <-]. right. split; [done|]. by exists t, data, names.
  - intros [[[?|H] _]|[_ (? & ? & ? & _ & [= <-] & E & ->)]]; [done|by destruct (H t)|congruence].
Qed.

(** All outputs are there, all dependencies (the inputs, and what the depfile
    lists) are there, there is one, and none is newer than an output. *)
Definition up_to_date (f : rule_files) (rule : BuildRule) : Prop :=
  ∃ outTimes listed depTimes, Rule_Outputs rule ≠ [] ∧ Forall2 (λ p t, stat f p = File t) (Rule_Outputs rule) outTimes
    ∧ listed_by f rule listed ∧ Forall2 (λ p t, stat f p = File t) (Rule_Inputs rule ++ listed) depTimes ∧ depTimes ≠ []
    ∧ ∀ o d, o ∈ outTimes → d ∈ depTimes → d ≤ o.

Lemma latest_spec ts m : latest ts = Some m → (∀ x, x ∈ ts → x ≤ m) ∧ m ∈ ts.
Proof. destruct ts as [|t ts]; [done|]. intros [= <-]. apply foldl_max_spec. Qed.

Lemma ruleNeedsBuild_spec f rule : ruleNeedsBuild f rule = Ok false ↔ up_to_date f rule.
Proof.
  unfold ruleNeedsBuild, up_to_date. split.
  - destruct (Rule_Outputs rule) as [|o outs] eqn:Eo; [done|]. cbn [nilb]. intros ([ots|] & Ho & H)%bind_Ok; [|done].
    apply bind_Ok in H as (deps & Hd & H). apply bind_Ok in H as ([dts|] & Ht & H); [|done].
    destruct (latest dts) as [m|] eqn:El; [|done]. injection H as H.
    unfold collectRuleDependencies in Hd. apply bind_Ok in Hd as (listed & Hd & [= <-]).
    exists ots, listed, dts. split; [done|]. split; [by apply file_times_spec|]. split; [by apply depfile_deps_spec|].
    split; [by apply file_times_spec|]. split; [by intros ->|]. intros x d Hx Hin.
    apply latest_spec in El as [Hm _]. specialize (Hm d Hin).
    destruct (Z.le_gt_cases d x) as [?|Hlt]; [done|]. exfalso. apply not_true_iff_false in H. apply H.
    apply existsb_exists. exists x. split; [by apply list_elem_of_In|]. apply Z.ltb_lt. lia.
  - intros (ots & deps & dts & Hne & Ho & Hd & Ht & Hdn & Hle).
    destruct (Rule_Outputs rule) as [|o outs]; [done|]. cbn [nilb].
    rewrite (proj2 (file_times_spec f _ ots) Ho). cbn.
    unfold collectRuleDependencies. rewrite (proj2 (depfile_deps_spec f rule deps) Hd). cbn.
    rewrite (proj2 (file_times_spec f _ dts) Ht). cbn.
    destruct (latest dts) as [m|] eqn:El; [|by destruct dts]. f_equal.
    apply latest_spec in El as [_ Hm]. apply not_true_iff_false. intros (x & Hx & Hlt)%existsb_exists.
    apply Z.ltb_lt in Hlt. apply list_elem_of_In in Hx. specialize (Hle x m Hx Hm). lia.
Qed.

(** ** The graph *)
Lemma add_outputs_of_spec i outs m m' : add_outputs_of i outs m = Ok m' →
  (∀ out, out ∈ outs → m' !! normalizeRulePath out = Some i) ∧ m ⊆ m'.
Proof.
  revert m. induction outs as [|o r IH]; intros m; cbn [add_outputs_of].
  { intros [= <-]. split; [|done]. intros out H. by apply not_elem_of_nil in H. }
  cbv zeta. destruct (m !! normalizeRulePath o) eqn:E; [done|]. intros H. destruct (IH _ H) as [H1 H2]. split.
  - intros out [-> | Hr]%elem_of_cons; [|by apply H1]. eapply lookup_weaken; [|exact H2]. by apply lookup_insert_eq.
  - etrans; [|exact H2]. by apply insert_subseteq.
Qed.

Lemma rule_outputs_spec i rules m m' : rule_outputs i rules m = Ok m' →
  (∀ k rule out, rules !! k = Some rule → out ∈ Rule_Outputs rule → m' !! normalizeRulePath out = Some (i + Z.of_nat k))
  ∧ m ⊆ m'.
Proof.
  revert i m. induction rules as [|r rules IH]; intros i m; cbn [rule_outputs]; [by intros [= <-]|].
  intros (m1 & H1 & H2)%bind_Ok. apply add_outputs_of_spec in H1 as [Ha Hs]. destruct (IH _ _ H2) as [Hb Hs2].
  split; [|by etrans].
  intros [|k] rule out Hk Ho; cbn in Hk.
  - injection Hk as <-. rewrite Z.add_0_r. eapply lookup_weaken; [by apply Ha|done].
  - rewrite (Hb k rule out Hk Ho). f_equal. lia.
Qed.

Lemma rule_rows_spec f outputs rules g k rule : rule_rows f outputs rules = Ok g → rules !! k = Some rule →
  ∃ parsed deps, depfile_deps f rule = Ok parsed ∧ g !! k = Some deps
    ∧ ∀ d, d ∈ deps ↔ d ∈ producers outputs (Rule_Inputs rule) ∪ producers outputs parsed.
Proof.
  revert k g. induction rules as [|r rules IH]; intros k g Hg Hk; [done|]. cbn [rule_rows] in Hg.
  apply bind_Ok in Hg as (parsed & Hp & Hg). apply bind_Ok in Hg as (rest & Hr & Hg). injection Hg as <-.
  destruct k as [|k]; cbn in Hk.
  - injection Hk as <-. exists parsed. eexists. split; [done|]. split; [reflexivity|]. intros d.
    by rewrite merge_sort_Permutation, elem_of_elements.
  - destruct (IH k rest Hr Hk) as (p & deps & H). by exists p, deps.
Qed.

(** A rule depends on the rule that makes one of its inputs. *)
Lemma input_dependency f rules g i j ri rj p : buildRulesGraph f rules = Ok g →
  rules !! i = Some ri → rules !! j = Some rj → p ∈ Rule_Inputs ri → p ∈ Rule_Outputs rj →
  ∃ deps, g !! i = Some deps ∧ Z.of_nat j ∈ deps.
Proof.
  intros (outputs & Ho & Hr)%bind_Ok Hi Hj Hp Hq. apply rule_outputs_spec in Ho as [Ho _].
  destruct (rule_rows_spec _ _ _ _ _ _ Hr Hi) as (parsed & deps & _ & Hg & Hd). exists deps. split; [done|].
  apply Hd, elem_of_union_l. unfold producers. apply elem_of_list_to_set, list_elem_of_omap. exists p.
  split; [done|]. by rewrite (Ho j rj p).
Qed.

Lemma add_outputs_of_made i outs m m' k d : add_outputs_of i outs m = Ok m' → m' !! k = Some d →
  m !! k = Some d ∨ d = i ∧ ∃ out, out ∈ outs ∧ normalizeRulePath out = k.
Proof.
  revert m. induction outs as [|o r IH]; intros m; cbn [add_outputs_of]; [intros [= <-]; by left|].
  cbv zeta. destruct (m !! normalizeRulePath o); [done|]. intros H Hk. destruct (IH _ H Hk) as [Hm|(-> & out & Ho & <-)].
  - apply lookup_insert_Some in Hm as [[<- <-]|[_ Hm]]; [|by left]. right. split; [done|]. exists o. split; [by left|done].
  - right. split; [done|]. exists out. split; [by right|done].
Qed.

Lemma rule_outputs_made i rules m m' k d : rule_outputs i rules m = Ok m' → m' !! k = Some d →
  m !! k = Some d ∨ ∃ j r out, rules !! j = Some r ∧ out ∈ Rule_Outputs r ∧ normalizeRulePath out = k ∧ d = i + Z.of_nat j.
Proof.
  revert i m. induction rules as [|r rules IH]; intros i m; cbn [rule_outputs]; [intros [= <-]; by left|].
  intros (m1 & H1 & H2)%bind_Ok Hk. destruct (IH _ _ H2 Hk) as [Hm|(j & r' & out & Hj & Ho & Hn & ->)].
  - destruct (add_outputs_of_made _ _ _ _ _ _ H1 Hm) as [?|(-> & out & Ho & Hn)]; [by left|right].
    exists 0%nat, r, out. split_and!; try done. lia.
  - right. exists (S j), r', out. split_and!; try done. lia.
Qed.

(** A rule depends on the rule that makes a file of the same clean name as one
    of its inputs or one of the files its depfile lists, and on no other. *)
Lemma row_spec f rules g i ri : buildRulesGraph f rules = Ok g → rules !! i = Some ri →
  ∃ listed row, listed_by f ri listed ∧ g !! i = Some row ∧
    ∀ d, d ∈ row ↔ ∃ j rj out p, rules !! j = Some rj ∧ out ∈ Rule_Outputs rj ∧ p ∈ Rule_Inputs ri ++ listed
      ∧ normalizeRulePath out = normalizeRulePath p ∧ d = Z.of_nat j.
Proof.
  intros (outputs & Ho & Hr)%bind_Ok Hi.
  destruct (rule_rows_spec _ _ _ _ _ _ Hr Hi) as (listed & row & Hp & Hg & Hd). exists listed, row.
  split; [by apply depfile_deps_spec|]. split; [done|]. intros d. rewrite Hd, elem_of_union. unfold producers.
  rewrite !elem_of_list_to_set, !list_elem_of_omap. split.
  - intros H. assert (∃ p, p ∈ Rule_Inputs ri ++ listed ∧ outputs !! normalizeRulePath p = Some d) as (p & Hin & Hk).
    { destruct H as [(p & H1 & H2)|(p & H1 & H2)]; exists p; (split; [apply elem_of_app; auto|done]). }
    destruct (rule_outputs_made _ _ _ _ _ _ Ho Hk) as [?|(j & rj & out & ? & ? & ? & ->)]; [done|].
    exists j, rj, out, p. split_and!; try done; lia.
  - intros (j & rj & out & p & Hj & Hout & Hin & Hn & ->). apply rule_outputs_spec in Ho as [Ho _].
    specialize (Ho j rj out Hj Hout). rewrite Hn in Ho. apply elem_of_app in Hin as [Hin|Hin]; [left|right]; by exists p.
Qed.

Lemma rule_rows_total f outputs rules : (∀ r, r ∈ rules → ∃ listed, listed_by f r listed) →
  ∃ g, rule_rows f outputs rules = Ok g ∧ length g = length rules.
Proof.
  induction rules as [|r rules IH]; intros H; [by exists []|]. destruct (H r ltac:(by left)) as [l Hl%depfile_deps_spec].
  destruct IH as (g & Hg & Hlen); [intros x Hx; apply H; by right|]. cbn [rule_rows]. rewrite Hl, Hg. cbn.
  eexists. split; [reflexivity|]. cbn. by rewrite Hlen.
Qed.

Lemma graph_length f rules g : buildRulesGraph f rules = Ok g → length g = length rules.
Proof.
  intros (outputs & _ & Hr)%bind_Ok. revert g Hr. induction rules as [|r rules IH]; intros g Hr; [by injection Hr as <-|].
  cbn [rule_rows] in Hr. apply bind_Ok in Hr as (l & _ & Hr). apply bind_Ok in Hr as (rest & Hr & [= <-]). cbn. by rewrite (IH rest).
Qed.

Lemma output_owner f rules g i j ri rj p : buildRulesGraph f rules = Ok g →
  rules !! i = Some ri → rules !! j = Some rj → p ∈ Rule_Outputs ri → p ∈ Rule_Outputs rj → i = j.
Proof.
  intros (outputs & Ho & Hr)%bind_Ok Hi Hj Hp Hq. apply rule_outputs_spec in Ho as [Ho _].
  pose proof (Ho i ri p Hi Hp) as H1. rewrite (Ho j rj p Hj Hq) in H1. injection H1. lia.
Qed.

Lemma submit_all_spec g nodes : (∃ n, submit_all g nodes = Ok n)
  ↔ ∀ k deps d, g !! k = Some deps → d ∈ deps → 0 ≤ d < Z.of_nat (length nodes + k).
Proof.
  revert nodes. induction g as [|deps g IH]; intros nodes; [split; [done|by eexists]|]. cbn [submit_all].
  unfold Submit. destruct (forallb _ deps) eqn:Ef.
  - cbn [mbind outcome_bind snd]. rewrite IH.
    assert (length (foldl (add_dependent (length nodes)) (nodes ++ [mk_node (i32 (Zlen deps)) []]) deps) = S (length nodes)) as ->.
    { assert (∀ l n, length (foldl (add_dependent (length nodes)) n l) = length n) as ->; [|rewrite length_app; cbn; lia].
      induction l as [|x l IHl]; intros n; [done|]. cbn. rewrite IHl. unfold add_dependent. by rewrite length_alter. }
    split.
    + intros H [|k] ds d Hk Hd; cbn in Hk.
      * injection Hk as <-. rewrite forallb_forall in Ef. apply list_elem_of_In, Ef in Hd. lia.
      * specialize (H k ds d Hk Hd). lia.
    + intros H k ds d Hk Hd. specialize (H (S k) ds d Hk Hd). lia.
  - split; [by intros [n H]|]. intros H. exfalso. apply not_true_iff_false in Ef. apply Ef, forallb_forall.
    intros d Hd. apply list_elem_of_In in Hd. specialize (H 0%nat deps d eq_refl Hd). lia.
Qed.

(** ** A second build does nothing *)

(** An order in which every rule comes once, after the rules it depends on. *)
Definition respects (g : graph) (order : list nat) : Prop :=
  NoDup order ∧ (∀ i, (i < length g)%nat → i ∈ order) ∧
  ∀ k i deps d, order !! k = Some i → g !! i = Some deps → d ∈ deps →
    ∃ k', (k' < k)%nat ∧ order !! k' = Some (Z.to_nat d).

(** What a command writes: the outputs and the depfile of its rule. *)
Definition written (r : BuildRule) : list bytes :=
  Rule_Outputs r ++ (if nilb (Rule_Depfile r) then [] else [Rule_Depfile r]).

Lemma elem_of_written p r : p ∈ written r ↔ p ∈ Rule_Outputs r ∨ Rule_Depfile r ≠ [] ∧ p = Rule_Depfile r.
Proof.
  unfold written. rewrite elem_of_app. destruct (Rule_Depfile r) as [|c d]; cbn [nilb].
  - split; [intros [?|?%not_elem_of_nil]; auto; done|intros [?|[? _]]; auto; done].
  - rewrite list_elem_of_singleton. naive_solver.
Qed.

Lemma listed_by_fun f r l l' : listed_by f r l → listed_by f r l' → l = l'.
Proof. rewrite <- !depfile_deps_spec. congruence. Qed.

Lemma listed_by_same f f' r l : (Rule_Depfile r ≠ [] → stat f' (Rule_Depfile r) = stat f (Rule_Depfile r) ∧
  contents f' (Rule_Depfile r) = contents f (Rule_Depfile r)) → listed_by f' r l ↔ listed_by f r l.
Proof.
  intros H. unfold listed_by. destruct (Rule_Depfile r) as [|c d]; [naive_solver|].
  destruct H as [-> ->]; [done|]. done.
Qed.

Lemma execute_idle shell run rules order s : (∀ i r, i ∈ order → rules !! i = Some r → up_to_date s.1 r) →
  execute_in shell run rules order s = Ok s.
Proof.
  induction order as [|i order IH]; intros H; [done|]. cbn [execute_in].
  assert (execute_in shell run rules order s = Ok s) as Hr by (apply IH; intros j r Hj; apply H; by right).
  destruct (rules !! i) as [r|] eqn:E; [|done]. unfold executeBuildRule.
  rewrite (proj2 (ruleNeedsBuild_spec s.1 r)) by (eapply H; [by left|done]). exact Hr.
Qed.

(** A rule that is not up to date runs a command. *)
Lemma execute_log shell run rules order s s' : execute_in shell run rules order s = Ok s' →
  (length s.2 ≤ length s'.2)%nat ∧
  (length s'.2 = length s.2 → ∀ i r, i ∈ order → rules !! i = Some r → up_to_date s.1 r).
Proof.
  revert s. induction order as [|j order IH]; intros s He.
  { injection He as <-. split; [done|]. intros _ i r Hi. by apply not_elem_of_nil in Hi. }
  cbn [execute_in] in He. destruct (rules !! j) as [rj|] eqn:Ej.
  - apply bind_Ok in He as (s1 & H1 & He). destruct (IH s1 He) as [Hlen Hup]. unfold executeBuildRule in H1.
    apply bind_Ok in H1 as ([|] & Hn & H1); cbn [negb] in H1.
    + destruct (run _ s.1) as [[|] f]; [|done]. injection H1 as <-. cbn [snd fst] in *. rewrite length_app in Hlen. cbn in Hlen.
      split; lia.
    + injection H1 as <-. split; [done|]. intros E i r [->|Hi]%elem_of_cons Hr; [|by eapply Hup].
      apply ruleNeedsBuild_spec. congruence.
  - destruct (IH s He) as [Hlen Hup]. split; [done|]. intros E i r [->|Hi]%elem_of_cons Hr; [congruence|by eapply Hup].
Qed.

Section second_build.
Context (shell : bytes) (run : bytes * list bytes → rule_files → bool * rule_files) (rules : list BuildRule).

(** A depfile is the file of one rule only, and nobody's output or input. *)
Hypothesis Hprivate : ∀ i j ri rj, rules !! i = Some ri → rules !! j = Some rj → Rule_Depfile rj ≠ [] →
  Rule_Depfile rj ∉ Rule_Outputs ri ++ Rule_Inputs ri ∧ (i ≠ j → Rule_Depfile ri ≠ Rule_Depfile rj).

Definition depfiles : list bytes := List.filter nonempty (map Rule_Depfile rules).

(** A command that succeeds writes the outputs and the depfile of its rule only
    and leaves the rule up to date; its depfile lists no depfile, and of the
    files that rules make only inputs of its rule. *)
Hypothesis Hrun : ∀ r f f', r ∈ rules → run (ShellCommand shell (expandRuleAction r)) f = (true, f') →
  (∀ p, p ∉ written r → stat f' p = stat f p ∧ contents f' p = contents f p) ∧ up_to_date f' r ∧
  ∀ listed p, listed_by f' r listed → p ∈ listed → p ∉ depfiles ∧
    ∀ r' out, r' ∈ rules → out ∈ Rule_Outputs r' → normalizeRulePath out = normalizeRulePath p →
      ∃ q, q ∈ Rule_Inputs r ∧ normalizeRulePath q = normalizeRulePath p.

Lemma elem_of_depfiles r : r ∈ rules → Rule_Depfile r ≠ [] → Rule_Depfile r ∈ depfiles.
Proof.
  intros Hr Hd. unfold depfiles. apply list_elem_of_In, filter_In. split; [|by destruct (Rule_Depfile r)].
  apply in_map_iff. exists r. split; [done|by apply list_elem_of_In].
Qed.

(** What a depfile lists is no depfile, and its producers are in the graph. *)
Definition listing_ok (g : graph) (f : rule_files) : Prop := ∀ i ri listed p,
  rules !! i = Some ri → listed_by f ri listed → p ∈ listed → p ∉ depfiles ∧
    ∀ j rj out row, rules !! j = Some rj → out ∈ Rule_Outputs rj → normalizeRulePath out = normalizeRulePath p →
      g !! i = Some row → Z.of_nat j ∈ row.

(** The command of the rule [j] leaves alone what the rule [i] needs. *)
Lemma up_to_date_same g f f' i j ri rj :
  buildRulesGraph f rules = Ok g ∨ (∃ f0, buildRulesGraph f0 rules = Ok g) → listing_ok g f →
  rules !! i = Some ri → rules !! j = Some rj → i ≠ j →
  (∀ row, g !! i = Some row → Z.of_nat j ∉ row) →
  (∀ p, p ∉ written rj → stat f' p = stat f p ∧ contents f' p = contents f p) →
  up_to_date f ri → up_to_date f' ri.
Proof.
  intros Hg0 Hlist Hi Hj Hne Hrow Hsame (ots & listed & dts & Hon & Ho & Hd & Ht & Hdn & Hle).
  assert (∃ f0, buildRulesGraph f0 rules = Ok g) as [f0 Hg] by (destruct Hg0; [by eexists|done]).
  destruct (row_spec _ _ _ _ _ Hg Hi) as (listed0 & row & _ & Hr & Hrs).
  assert (∀ l ts, (∀ p, p ∈ l → p ∉ written rj) → Forall2 (λ p t, stat f p = File t) l ts →
    Forall2 (λ p t, stat f' p = File t) l ts) as Hall.
  { intros l ts Hl H. induction H as [|p t l ts Hp H IH]; constructor; [rewrite (proj1 (Hsame p (Hl p ltac:(by left)))); done|].
    apply IH. intros q Hq. apply Hl. by right. }
  exists ots, listed, dts. split; [done|]. split.
  { apply Hall; [|done]. intros p Hp [Hw|[Hdn' ->]]%elem_of_written.
    - apply Hne. by eapply output_owner.
    - destruct (Hprivate i j ri rj Hi Hj Hdn') as [Hpr _]. apply Hpr, elem_of_app. by left. }
  split.
  { apply (listed_by_same f); [|done]. intros Hdi. apply Hsame. intros [Hw|[Hdj E]]%elem_of_written.
    - destruct (Hprivate j i rj ri Hj Hi Hdi) as [Hpr _]. apply Hpr, elem_of_app. by left.
    - by destruct (Hprivate i j ri rj Hi Hj Hdj) as [_ []]. }
  split; [|done]. apply Hall; [|done]. intros p Hp [Hw|[Hdj ->]]%elem_of_written.
  - apply (Hrow row Hr). apply elem_of_app in Hp as [Hp|Hp].
    + apply Hrs. exists j, rj, p, p. split_and!; try done. apply elem_of_app. by left.
    + by eapply (Hlist i ri listed p Hi Hd Hp).
  - apply elem_of_app in Hp as [Hp|Hp].
    + destruct (Hprivate i j ri rj Hi Hj Hdj) as [Hpr _]. apply Hpr, elem_of_app. by right.
    + destruct (Hlist i ri listed _ Hi Hd Hp) as [Hn _]. apply Hn, elem_of_depfiles; [by eapply list_elem_of_lookup_2|done].
Qed.

Lemma listing_kept g f f' j rj : (∃ f0, buildRulesGraph f0 rules = Ok g) → listing_ok g f → rules !! j = Some rj →
  run (ShellCommand shell (expandRuleAction rj)) f = (true, f') → listing_ok g f'.
Proof.
  intros [f0 Hg] Hlist Hj Er i ri listed p Hi Hl Hp.
  destruct (Hrun rj f f' ltac:(by eapply list_elem_of_lookup_2) Er) as (Hsame & _ & Hmade).
  destruct (decide (i = j)) as [->|Hne].
  - rewrite Hj in Hi. injection Hi as <-. destruct (Hmade listed p Hl Hp) as [Hn Hm]. split; [done|].
    intros k rk out row Hk Ho En Hr. destruct (Hm rk out ltac:(by eapply list_elem_of_lookup_2) Ho En) as (q & Hq & Eq).
    destruct (row_spec _ _ _ _ _ Hg Hj) as (l0 & row' & _ & Hr' & Hrs). replace row with row' by congruence.
    apply Hrs. exists k, rk, out, q. split_and!; try done; [apply elem_of_app; by left|congruence].
  - eapply (Hlist i ri); [done| |done]. apply (listed_by_same f f'); [|done]. intros Hdi. apply Hsame.
    intros [Hw|[Hdj E]]%elem_of_written.
    + destruct (Hprivate j i rj ri Hj Hi Hdi) as [Hpr _]. apply Hpr, elem_of_app. by left.
    + by destruct (Hprivate i j ri rj Hi Hj Hdj) as [_ []].
Qed.

(** After the first rules of the order, all of them are up to date. *)
Lemma execute_up_to_date g order done_ s s' : (∃ f0, buildRulesGraph f0 rules = Ok g) → respects g (done_ ++ order) →
  listing_ok g s.1 → (∀ i r, i ∈ done_ → rules !! i = Some r → up_to_date s.1 r) →
  execute_in shell run rules order s = Ok s' →
  listing_ok g s'.1 ∧ ∀ i r, i ∈ done_ ++ order → rules !! i = Some r → up_to_date s'.1 r.
Proof.
  intros Hg. revert done_ s. induction order as [|j order IH]; intros done_ s Hres Hlist Hd He.
  { cbn in He. injection He as <-. by rewrite app_nil_r. }
  replace (done_ ++ j :: order) with ((done_ ++ [j]) ++ order) in * by (by rewrite <- (assoc_L (++))).
  cbn [execute_in] in He. destruct (rules !! j) as [rj|] eqn:Ej.
  2: { apply (IH (done_ ++ [j]) s Hres Hlist); [|done]. intros i r [Hi | ->%list_elem_of_singleton]%elem_of_app Hr; [by eapply Hd|congruence]. }
  apply bind_Ok in He as (s1 & H1 & He). unfold executeBuildRule in H1. apply bind_Ok in H1 as ([|] & Hn & H1); cbn [negb] in H1.
  2: { injection H1 as <-. apply (IH (done_ ++ [j]) s Hres Hlist); [|done].
       intros i r [Hi | ->%list_elem_of_singleton]%elem_of_app Hr; [by eapply Hd|].
       apply ruleNeedsBuild_spec. by replace r with rj by congruence. }
  destruct (run _ s.1) as [ok f] eqn:Er. destruct ok; [|done]. injection H1 as <-.
  apply (IH (done_ ++ [j]) (f, s.2 ++ [expandRuleAction rj]) Hres); [by eapply listing_kept| |done].
  destruct (Hrun rj s.1 f ltac:(by eapply list_elem_of_lookup_2) Er) as (Hsame & Hup & _). cbn [fst].
  intros i r [Hi | ->%list_elem_of_singleton]%elem_of_app Hr; [|by replace r with rj by congruence].
  destruct Hres as (Hnd & _ & Hres). rewrite <- (assoc_L (++)) in Hnd, Hres.
  assert (j ∉ done_) as Hj by (intros Hin; apply NoDup_app in Hnd as (_ & Hnd & _); apply (Hnd j Hin); by left).
  eapply (up_to_date_same g s.1 f i j); try done; [by right|by intros ->| |by eapply Hd].
  intros row Hrow Hin. apply list_elem_of_lookup in Hi as [k Hk].
  destruct (Hres k i row (Z.of_nat j)) as (k' & Hk' & Ho); [by apply lookup_app_l_Some|done..|].
  rewrite Nat2Z.id in Ho. pose proof (lookup_lt_Some _ _ _ Hk) as Hlt.
  rewrite lookup_app_l in Ho by lia. apply Hj. by eapply list_elem_of_lookup_2.
Qed.

(** The graph of the files that are left can be submitted as the first. *)
Lemma second_graph g s1 f : buildRulesGraph s1 rules = Ok g → (∃ n, submit_all g [] = Ok n) → listing_ok g f →
  (∀ i r, rules !! i = Some r → up_to_date f r) →
  ∃ g', buildRulesGraph f rules = Ok g' ∧ ∃ n, submit_all g' [] = Ok n.
Proof.
  intros Hg Hs Hlist Hup. pose proof Hg as (outputs & Ho & _)%bind_Ok.
  destruct (rule_rows_total f outputs rules) as (g' & Hg' & Hlen).
  { intros r [i Hi]%list_elem_of_lookup. destruct (Hup i r Hi) as (_ & l & _ & _ & _ & Hl & _). by exists l. }
  assert (buildRulesGraph f rules = Ok g') as E by (unfold buildRulesGraph; rewrite Ho; exact Hg').
  exists g'. split; [done|]. apply submit_all_spec. intros k row' d Hk Hd.
  destruct (lookup_lt_is_Some_2 rules k) as [r Hr]; [rewrite <- Hlen; by eapply lookup_lt_Some|].
  destruct (row_spec _ _ _ _ _ E Hr) as (l' & row'' & Hl' & Hk' & Hrs'). rewrite Hk in Hk'. injection Hk' as <-.
  pose proof (row_spec s1 rules g k r Hg Hr) as (l & row & _ & Hk2 & Hrs).
  apply (proj1 (submit_all_spec g []) Hs k row d Hk2).
  pose proof (proj1 (Hrs' d) Hd) as (j & rj & out & p & Hj & Hout & Hp & En & ->).
  apply elem_of_app in Hp as [Hp|Hp].
  - apply Hrs. exists j, rj, out, p. split_and!; try done. apply elem_of_app. by left.
  - by eapply (Hlist k r l' p).
Qed.

(** C32 Rules with or without depfiles, whose depfiles are files of their own.
    Each command that succeeds writes the outputs and the depfile of its rule
    only and leaves the rule up to date: its outputs and its dependencies (the
    inputs, at least one, and what the depfile lists) are there, and no
    dependency is newer than an output; what a depfile lists is no depfile,
    and made by a rule only if it is an input too. Then a build that succeeds
    leaves every rule up to date, and a further build, in whatever order, runs
    no command and changes nothing; and a build of any files that runs no
    command has found every rule up to date. *)
Theorem second_build_idle order order' s res s' :
  (∀ g, buildRulesGraph s.1 rules = Ok g → respects g (order g)) →
  (∀ g i, (i < length g)%nat → i ∈ order' g) →
  (∀ r listed p, r ∈ rules → listed_by s.1 r listed → p ∈ listed → p ∉ depfiles) →
  runBuildRules shell run rules order s = Ok (res, s') →
  Forall (up_to_date s'.1) rules ∧ runBuildRules shell run rules order' s' = Ok (res, s') ∧
  ∀ s1 res1 s2, runBuildRules shell run rules order' s1 = Ok (res1, s2) → s2.2 = s1.2 → Forall (up_to_date s1.1) rules.
Proof.
  intros Ho Ho' Hini H. assert (∀ s1 res1 s2, runBuildRules shell run rules order' s1 = Ok (res1, s2) → s2.2 = s1.2 → Forall (up_to_date s1.1) rules) as Hback.
  { intros s1 res1 s2 Hb E. unfold runBuildRules in Hb. destruct (nilb rules) eqn:En; [by destruct rules|].
    apply bind_Ok in Hb as (g & Hg & Hb). apply bind_Ok in Hb as (nodes & _ & Hb). apply bind_Ok in Hb as (s3 & He & Hb). injection Hb as _ ->.
    apply execute_log in He as [_ He]. apply Forall_lookup. intros i r Hr. apply (He ltac:(by rewrite E) i r); [|done].
    apply Ho'. rewrite (graph_length _ _ _ Hg). by eapply lookup_lt_Some. }
  split; [|split; [|exact Hback]].
  all: unfold runBuildRules in *; destruct (nilb rules) eqn:En; [try (by destruct rules); by injection H as <- <-|].
  all: apply bind_Ok in H as (g & Hg & H); apply bind_Ok in H as (nodes & Hs & H); apply bind_Ok in H as (s1 & He & H); injection H as <- <-.
  all: assert (listing_ok g s.1) as Hlist by (intros i ri listed p Hi Hl Hp; split;
    [eapply Hini; [by eapply list_elem_of_lookup_2|done|done]|]; intros j rj out row Hj Hout Enm Hrow;
    destruct (row_spec _ _ _ _ _ Hg Hi) as (l0 & row' & Hl0 & Hrow' & Hrs); rewrite Hrow in Hrow'; injection Hrow' as <-;
    apply Hrs; exists j, rj, out, p; split_and!; try done; apply elem_of_app; right; by rewrite (listed_by_fun _ _ _ _ Hl0 Hl)).
  all: destruct (execute_up_to_date g (order g) [] s s1 ltac:(by eexists) (Ho g Hg) Hlist ltac:(by intros i r Hi%not_elem_of_nil) He) as [Hlist' Hup].
  all: assert (∀ i r, rules !! i = Some r → up_to_date s1.1 r) as Hall by (intros i r Hr; apply (Hup i r); [|done];
    apply (Ho g Hg); rewrite (graph_length _ _ _ Hg); by eapply lookup_lt_Some).
  - apply Forall_lookup. exact Hall.
  - destruct (second_graph g s.1 s1.1 Hg ltac:(by eexists) Hlist' Hall) as (g' & Hg' & nodes' & Hs').
    rewrite Hg'. cbn. rewrite Hs'. cbn. rewrite execute_idle; [done|]. intros i r _. apply Hall.
Qed.
End second_build.

(** Two rules: a compiler that reads a header and writes a depfile, and a
    linker. What they write has the time of the newest file they read. *)
Definition example_rules : list BuildRule :=
  [mk_BuildRule (bs "obj") (bs "cc $in") [bs "a.c"] [bs "a.o"] (bs "a.d"); mk_BuildRule (bs "bin") (bs "ld $in") [bs "a.o"] [bs "a"] []].
Definition example_depfile : bytes := bs "a.o: a.c a.h" ++ [10].
Definition compile (f : rule_files) : bool * rule_files :=
  match stat f (bs "a.c"), stat f (bs "a.h") with
  | File t, File u =>
      (true, mk_rule_files (λ p, if bool_decide (p ∈ [bs "a.o"; bs "a.d"]) then File (Z.max t u) else stat f p)
               (λ p, if bool_decide (p = bs "a.d") then Some example_depfile else contents f p))
  | _, _ => (false, f)
  end.
Definition link (f : rule_files) : bool * rule_files :=
  match stat f (bs "a.o") with
  | File t => (true, mk_rule_files (λ p, if bool_decide (p = bs "a") then File t else stat f p) (contents f))
  | _ => (false, f)
  end.
Definition example_run (c : bytes * list bytes) (f : rule_files) : bool * rule_files :=
  if bool_decide (c.2 = [bs "-c"; bs "cc a.c"]) then compile f
  else if bool_decide (c.2 = [bs "-c"; bs "ld a.o"]) then link f
  else (false, f).
Definition example_files : rule_files :=
  mk_rule_files (λ p, if bool_decide (p = bs "a.c") then File 5 else if bool_decide (p = bs "a.h") then File 7 else Missing) (λ _, None).

Definition example_command (f : rule_files) (r : BuildRule) (f' : rule_files) : Prop :=
  (∀ p, p ∉ written r → stat f' p = stat f p ∧ contents f' p = contents f p) ∧ up_to_date f' r ∧
  ∀ listed p, listed_by f' r listed → p ∈ listed → p ∉ depfiles example_rules ∧
    ∀ r' out, r' ∈ example_rules → out ∈ Rule_Outputs r' → normalizeRulePath out = normalizeRulePath p →
      ∃ q, q ∈ Rule_Inputs r ∧ normalizeRulePath q = normalizeRulePath p.

Lemma compile_ok f f' : compile f = (true, f') →
  example_command f (mk_BuildRule (bs "obj") (bs "cc $in") [bs "a.c"] [bs "a.o"] (bs "a.d")) f'.
Proof.
  unfold compile. destruct (stat f (bs "a.c")) as [| | |t] eqn:Ec; try done. destruct (stat f (bs "a.h")) as [| | |u] eqn:Eh; try done.
  intros [= <-]. set (r := mk_BuildRule _ _ _ _ _). set (f' := mk_rule_files _ _).
  assert (listed_by f' r [bs "a.c"; bs "a.h"]) as Hl.
  { right. split; [done|]. exists (Z.max t u), example_depfile, [bs "a.c"; bs "a.h"]. split_and!; vm_compute; reflexivity. }
  split; [|split].
  - intros p Hp. change (written r) with [bs "a.o"; bs "a.d"] in Hp. rewrite !not_elem_of_cons in Hp. destruct Hp as (H1 & H2 & _).
    cbn. rewrite (bool_decide_eq_false_2 (p = _)) by done. rewrite bool_decide_eq_false_2; [done|].
    rewrite !elem_of_cons. intros [?|[?|?%not_elem_of_nil]]; done.
  - exists [Z.max t u], [bs "a.c"; bs "a.h"], [t; t; u]. split; [done|]. split; [repeat constructor|]. split; [exact Hl|].
    split; [|split; [done|]].
    + cbn [Rule_Inputs r app]. apply Forall2_cons; split; [exact Ec|]. apply Forall2_cons; split; [exact Ec|]. apply Forall2_cons; split; [exact Eh|constructor].
    + intros o d ->%list_elem_of_singleton Hd. rewrite !elem_of_cons in Hd. destruct Hd as [->|[->|[->|?%not_elem_of_nil]]]; [lia..|done].
  - intros listed p Hl' Hp. rewrite <- (listed_by_fun _ _ _ _ Hl Hl') in Hp. rewrite !elem_of_cons in Hp.
    change (depfiles example_rules) with [bs "a.d"].
    destruct Hp as [->|[->|?%not_elem_of_nil]]; [..|done]; (split; [by rewrite list_elem_of_singleton|]); intros r' out Hr Ho En;
      unfold example_rules in Hr; rewrite !elem_of_cons in Hr; destruct Hr as [->|[->|?%not_elem_of_nil]]; try done;
      apply list_elem_of_singleton in Ho as ->; vm_compute in En; discriminate En.
Qed.

Lemma link_ok f f' : link f = (true, f') →
  example_command f (mk_BuildRule (bs "bin") (bs "ld $in") [bs "a.o"] [bs "a"] []) f'.
Proof.
  unfold link. destruct (stat f (bs "a.o")) as [| | |t] eqn:Es; try done. intros [= <-]. split; [|split].
  - intros p Hp. cbn. rewrite bool_decide_eq_false_2; [done|]. intros ->. apply Hp, elem_of_written. left. by left.
  - exists [t], [], [t]. split; [done|]. split; [repeat constructor|]. split; [left; split; [by left|done]|].
    split; [apply Forall2_cons; split; [exact Es|constructor]|]. split; [done|]. intros o d -> %list_elem_of_singleton ->%list_elem_of_singleton. lia.
  - intros listed p [[_ ->]|[H _]] Hp; [by apply not_elem_of_nil in Hp|done].
Qed.

Lemma example_private i j ri rj : example_rules !! i = Some ri → example_rules !! j = Some rj → Rule_Depfile rj ≠ [] →
  Rule_Depfile rj ∉ Rule_Outputs ri ++ Rule_Inputs ri ∧ (i ≠ j → Rule_Depfile ri ≠ Rule_Depfile rj).
Proof.
  intros Hi Hj Hn. destruct j as [|[|j]]; cbn in Hj; [|by injection Hj as <-|done]. injection Hj as <-.
  destruct i as [|[|i]]; cbn in Hi; [injection Hi as <-|injection Hi as <-|done]; (split; [|done]); by apply (bool_decide_eq_true _).
Qed.

Definition in_order (g : graph) : list nat := List.seq 0 (length g).

Lemma second_build_idle_witness :
  let first := runBuildRules [] example_run example_rules in_order (example_files, []) in
  ∃ s', first = Ok (Some ([bs "a.o"; bs "a"], bs "a"), s') ∧ s'.2 = [bs "cc a.c"; bs "ld a.o"]
    ∧ runBuildRules [] example_run example_rules in_order s' = Ok (Some ([bs "a.o"; bs "a"], bs "a"), s').
Proof.
  intros first. destruct first as [[res s']| | |] eqn:E; [|vm_compute in E; discriminate..].
  assert (res = Some ([bs "a.o"; bs "a"], bs "a") ∧ s'.2 = [bs "cc a.c"; bs "ld a.o"]) as [-> Hl].
  { assert (fmap (M := outcome) (λ x, (x.1, x.2.2)) first = Ok (Some ([bs "a.o"; bs "a"], bs "a"), [bs "cc a.c"; bs "ld a.o"])) as H
      by (vm_compute; reflexivity).
    rewrite E in H. cbn in H. injection H as -> ->. done. }
  exists s'. split; [reflexivity|]. split; [exact Hl|].
  eapply (second_build_idle [] example_run example_rules) with (order := in_order) (s := (example_files, [])).
  - apply example_private.
  - intros r f f' Hr. unfold example_rules in Hr. rewrite !elem_of_cons, elem_of_nil in Hr.
    destruct Hr as [-> | [-> | []]]; unfold example_run; cbn [snd ShellCommand].
    + replace (expandRuleAction _) with (bs "cc a.c") by (vm_compute; reflexivity).
      rewrite bool_decide_eq_true_2 by done. apply compile_ok.
    + replace (expandRuleAction _) with (bs "ld a.o") by (vm_compute; reflexivity).
      rewrite bool_decide_eq_false_2, bool_decide_eq_true_2 by done. apply link_ok.
  - intros g Hg. assert (g = [[]; [0]]) as -> by (vm_compute in Hg; by injection Hg). split; [|split].
    + repeat constructor; set_solver.
    + intros i Hi. apply elem_of_seq. cbn in Hi |- *. lia.
    + intros [|[|k]] i deps d Hk Hi Hd; cbn in Hk; [injection Hk as <-|injection Hk as <-|done]; cbn in Hi; injection Hi as <-.
      * by apply not_elem_of_nil in Hd.
      * apply list_elem_of_singleton in Hd as ->. exists 0%nat. split; [lia|done].
  - intros g i Hi. apply elem_of_seq. lia.
  - intros r listed p Hr Hl' Hp. unfold example_rules in Hr. rewrite !elem_of_cons in Hr.
    destruct Hr as [->|[->|?%not_elem_of_nil]]; [..|done]; (destruct Hl' as [[_ ->]|[_ (t & ? & ? & H & _)]]; [by apply not_elem_of_nil in Hp|]);
      vm_compute in H; discriminate H.
  - exact E.
Defined.

(** A rule without inputs and without a depfile has no dependency, so it runs
    in every build. *)
Lemma no_inputs_always_runs f t :
  stat f (bs "out") = File t → ruleNeedsBuild f (mk_BuildRule (bs "gen") (bs "make $out") [] [bs "out"] []) = Ok true.
Proof. intros H. unfold ruleNeedsBuild. cbn. by rewrite H. Qed.

(** ** The order of the configuration *)
(** The rules are handed to the scheduler in the order of the configuration,
    which takes a rule only after the rules it depends on: a build succeeds
    only if every rule is listed behind the rules that make its inputs. *)
Theorem rules_listed_in_order shell run rules order s res s' i j ri rj p :
  runBuildRules shell run rules order s = Ok (res, s') →
  rules !! i = Some ri → rules !! j = Some rj → p ∈ Rule_Inputs ri → p ∈ Rule_Outputs rj → (j < i)%nat.
Proof.
  unfold runBuildRules. intros H Hi Hj Hp Hq. destruct (nilb rules) eqn:En; [by destruct rules|].
  apply bind_Ok in H as (g & Hg & H). apply bind_Ok in H as (nodes & Hs & _).
  destruct (input_dependency _ _ _ _ _ _ _ _ Hg Hi Hj Hp Hq) as (deps & Hgi & Hd).
  assert (∃ n, submit_all g [] = Ok n) as Hn by (by eexists).
  pose proof (proj1 (submit_all_spec g []) Hn i deps (Z.of_nat j) Hgi Hd) as H. cbn in H. lia.
Qed.

(** The rules of the example, listed the other way round, do not build. *)
Lemma rules_listed_in_order_witness :
  (∃ r, runBuildRules [] example_run example_rules (λ _, [0; 1]%nat) (example_files, []) = Ok r ∧ (0 < 1)%nat)
  ∧ runBuildRules [] example_run (rev example_rules) (λ _, [1; 0]%nat) (example_files, []) = Err errInvalidDependencyIndex.
Proof.
  split; [|vm_compute; reflexivity].
  destruct (runBuildRules [] example_run example_rules (λ _, [0; 1]%nat) (example_files, [])) as [[res s']| | |] eqn:E;
    [|vm_compute in E; discriminate..].
  exists (res, s'). split; [reflexivity|].
  apply (rules_listed_in_order [] example_run example_rules (λ _, [0; 1]%nat) (example_files, []) res s' 1 0
    _ _ (bs "a.o") E eq_refl eq_refl); by left.
Defined.

(** ** The command as the shell reads it *)

(** The words of a command line, by the quoting rules of the POSIX shell: single
    quotes, backslashes outside of them, blanks between words. A character with
    any other meaning gives no words. *)
Definition shell_meta (c : Z) : bool :=
  bool_decide (c ∈ bs "|&;<>()$`*?[]#~{}!" ++ [34; 10; 13]).
Fixpoint shell_words (quoted : bool) (cur : option bytes) (s : bytes) : option (list bytes) :=
  match s with
  | [] => if quoted then None else Some (match cur with Some w => [w] | None => [] end)
  | c :: r =>
      if quoted then
        if c =? 39 then shell_words false cur r else shell_words true (Some (default [] cur ++ [c])) r
      else if c =? 39 then shell_words true (Some (default [] cur)) r
      else if c =? 92 then
        match r with
        | d :: r => if d =? 10 then None else shell_words false (Some (default [] cur ++ [d])) r
        | [] => None
        end
      else if (c =? 32) || (c =? 9) then
        match cur with
        | Some w => (cons w) <$> shell_words false None r
        | None => shell_words false None r
        end
      else if shell_meta c then None
      else shell_words false (Some (default [] cur ++ [c])) r
  end.

(** Names the quoting is enough for: some character makes it put quotes, or no
    character has a meaning for the shell. *)
Definition quotable (v : bytes) : Prop := existsb handled v = true ∨ Forall (λ c, shell_meta c = false) v.

Lemma words_plain v rest cur : Forall (λ c, handled c = false ∧ shell_meta c = false) v → cur ≠ None ∨ v ≠ [] →
  shell_words false cur (v ++ rest) = shell_words false (Some (default [] cur ++ v)) rest.
Proof.
  intros Hv. revert cur. induction Hv as [|c v [Hh Hm] Hv IH]; intros cur Hc.
  - rewrite app_nil_r. destruct cur; [done|by destruct Hc].
  - unfold handled in Hh. rewrite bool_decide_eq_false in Hh. rewrite !not_elem_of_cons in Hh. cbn [app shell_words].
    rewrite (proj2 (Z.eqb_neq c 39)), (proj2 (Z.eqb_neq c 92)), (proj2 (Z.eqb_neq c 32)), (proj2 (Z.eqb_neq c 9)) by naive_solver.
    cbn [orb]. rewrite Hm, IH by (left; done). cbn. by rewrite <- (assoc_L (++)).
Qed.

Lemma replace_other c v new : c ≠ 39 → replace_from 0 (bs "'") new (c :: v) = c :: replace_from 0 (bs "'") new v.
Proof.
  intros Hc. cbn [replace_from]. unfold HasPrefix. cbn [cut_prefix].
  by rewrite (proj2 (Z.eqb_neq 39 c)) by done.
Qed.

Lemma words_quoted v rest w :
  shell_words true (Some w) (replace_from 0 (bs "'") (bs "'" ++ [92] ++ bs "''") v ++ 39 :: rest)
  = shell_words false (Some (w ++ v)) rest.
Proof.
  revert w. induction v as [|c v IH]; intros w.
  - rewrite app_nil_r. done.
  - destruct (Z.eqb_spec c 39) as [-> | Hc].
    + change (39 :: v) with (bs "'" ++ v). rewrite replace_from_here by done. rewrite <- (assoc_L (++)).
      transitivity (shell_words true (Some (w ++ [39])) (replace_from 0 (bs "'") (bs "'" ++ [92] ++ bs "''") v ++ 39 :: rest));
        [done|]. rewrite IH. by rewrite <- (assoc_L (++)).
    + rewrite replace_other by done. cbn [app shell_words]. rewrite (proj2 (Z.eqb_neq c 39)) by done.
      cbn [default from_option id]. rewrite IH. by rewrite <- (assoc_L (++)).
Qed.

(** The name is the next word. *)
Lemma words_escape v rest : quotable v → shell_words false None (shellEscape v ++ rest) = shell_words false (Some v) rest.
Proof.
  intros Hq. unfold shellEscape. destruct v as [|c v]; [done|]. cbn [nilb].
  destruct (existsb handled (c :: v)) eqn:E; cbn [negb].
  - rewrite <- !(assoc_L (++)). change (shell_words true (Some []) (replace_from 0 (bs "'") (bs "'" ++ [92] ++ bs "''") (c :: v) ++ 39 :: rest) = shell_words false (Some (c :: v)) rest).
    by rewrite words_quoted.
  - destruct Hq as [Hq | Hq]; [by rewrite Hq in E|]. rewrite words_plain; [done| |by right].
    rewrite Forall_forall in *. intros x Hx. split; [|by apply Hq].
    apply not_true_iff_false. intros Hh. apply not_true_iff_false in E. apply E, existsb_exists.
    exists x. split; [by apply list_elem_of_In|done].
Qed.

(** The shell reads the names joined into a command back as the names, one
    word each, when each of them has no character of the shell other than those
    the quoting looks for, or has one of these as well. *)
Theorem shellJoin_roundtrip paths : Forall quotable paths → shell_words false None (shellJoin paths) = Some paths.
Proof.
  intros H. unfold shellJoin. induction H as [|v r Hv Hr IH]; [done|].
  destruct r as [|v' r].
  - cbn [map strings_Join]. rewrite <- (app_nil_r (shellEscape v)), words_escape by done. done.
  - change (strings_Join (map shellEscape (v :: v' :: r)) [32])
      with (shellEscape v ++ [32] ++ strings_Join (map shellEscape (v' :: r)) [32]).
    rewrite words_escape by done. cbn [app shell_words]. change (32 =? 39) with false. change (32 =? 92) with false. cbv iota.
    change ((32 =? 32) || (32 =? 9)) with true. cbv iota. by rewrite IH.
Qed.

Lemma shellJoin_roundtrip_witness :
  let paths := [bs "a.c"; bs "it's a file.c"; []; bs "$HOME"] in
  shell_words false None (shellJoin paths) = Some paths.
Proof.
  intros paths. apply (shellJoin_roundtrip [bs "a.c"; bs "it's a file.c"; []; bs "$HOME"]).
  repeat apply Forall_cons_2; [right|left; reflexivity|right; constructor|left; reflexivity|constructor].
  repeat constructor.
Defined.

(** Other characters of the shell are left as they are: a file named [a&b] puts
    the command in the background and runs [b]. *)
Theorem shellEscape_leaves : shellEscape (bs "a&b") = bs "a&b" ∧ shell_words false None (bs "a&b") = None.
Proof. by vm_compute. Qed.

(** ** The text of the command *)

(** An action as it is meant: text, and places for the names. *)
Inductive action_piece := Text (w : bytes) | PIn | POut | PDep.
Definition piece_print (p : action_piece) : bytes :=
  match p with Text w => w | PIn => bs "$in" | POut => bs "$out" | PDep => bs "$depfile" end.
Definition piece_meaning (rule : BuildRule) (p : action_piece) : bytes :=
  match p with
  | Text w => w
  | PIn => shellJoin (Rule_Inputs rule)
  | POut => shellJoin (Rule_Outputs rule)
  | PDep => shellEscape (Rule_Depfile rule)
  end.
Definition no_dollar (s : bytes) : Prop := ch "$" ∉ s.

Lemma replace_text k new w s : no_dollar w → replace_from 0 (ch "$" :: k) new (w ++ s) = w ++ replace_from 0 (ch "$" :: k) new s.
Proof.
  unfold no_dollar. induction w as [|c w IH]; intros Hw; [done|]. apply not_elem_of_cons in Hw as [Hc Hw].
  cbn [app replace_from]. unfold HasPrefix. cbn [cut_prefix]. rewrite (proj2 (Z.eqb_neq (ch "$") c)) by done.
  by rewrite IH.
Qed.

Lemma replace_key_other a k new c w s : a ≠ c → no_dollar (c :: w) →
  replace_from 0 (ch "$" :: a :: k) new ((ch "$" :: c :: w) ++ s) = (ch "$" :: c :: w) ++ replace_from 0 (ch "$" :: a :: k) new s.
Proof.
  intros Hac Hw. pose proof (replace_text (a :: k) new (c :: w) s Hw) as H. cbn [app] in H |- *. rewrite <- H.
  set (t := c :: w ++ s). cbn [replace_from]. unfold HasPrefix. cbn [cut_prefix]. rewrite Z.eqb_refl.
  subst t. cbn [cut_prefix]. by rewrite (proj2 (Z.eqb_neq a c)).
Qed.

(** One of the three replacements, on an action in which the pieces before are
    replaced already. *)
Definition piece_done (rule : BuildRule) (n : nat) (p : action_piece) : bytes :=
  match p with
  | PIn => if (1 <=? n)%nat then piece_meaning rule p else piece_print p
  | POut => if (2 <=? n)%nat then piece_meaning rule p else piece_print p
  | PDep => if (3 <=? n)%nat then piece_meaning rule p else piece_print p
  | Text w => w
  end.

Section expansion.
Variable rule : BuildRule.
Hypothesis Hin : no_dollar (shellJoin (Rule_Inputs rule)).
Hypothesis Hout : no_dollar (shellJoin (Rule_Outputs rule)).

Definition plain_piece (p : action_piece) : Prop := match p with Text w => no_dollar w | _ => True end.

Lemma replace_step n key value l : Forall plain_piece l →
  (n = 0%nat ∧ key = bs "$in" ∧ value = shellJoin (Rule_Inputs rule)
   ∨ n = 1%nat ∧ key = bs "$out" ∧ value = shellJoin (Rule_Outputs rule)
   ∨ n = 2%nat ∧ key = bs "$depfile" ∧ value = shellEscape (Rule_Depfile rule)) →
  replace_from 0 key value (concat (map (piece_done rule n) l)) = concat (map (piece_done rule (S n)) l).
Proof.
  intros Hl Hn. induction Hl as [|p l Hp Hl IH]; [by destruct Hn as [(-> & -> & ->) | [(-> & -> & ->) | (-> & -> & ->)]]|].
  cbn [map concat]. rewrite <- IH. clear IH. set (s := concat _).
  assert (∀ w, no_dollar w → replace_from 0 key value (w ++ s) = w ++ replace_from 0 key value s) as Htext.
  { intros w Hw. destruct Hn as [(_ & -> & _) | [(_ & -> & _) | (_ & -> & _)]]; by apply replace_text. }
  destruct p as [w| | |]; cbn [plain_piece] in Hp; cbn [piece_done piece_meaning piece_print]; [by apply Htext|..];
    destruct Hn as [(-> & -> & ->) | [(-> & -> & ->) | (-> & -> & ->)]]; cbn [Nat.leb];
    first [by apply replace_from_here | by apply Htext | apply replace_key_other; [done|by apply (bool_decide_eq_true _)]].
Qed.

Lemma expand_pieces l : Forall plain_piece l → (Rule_Depfile rule = [] → PDep ∉ l) →
  Rule_Action rule = concat (map piece_print l) → expandRuleAction rule = concat (map (piece_meaning rule) l).
Proof.
  intros Hl Hd Ha. unfold expandRuleAction. rewrite Ha.
  assert (map piece_print l = map (piece_done rule 0) l) as -> by (apply map_ext; by intros []).
  rewrite (replace_step 0), (replace_step 1) by (done || naive_solver). destruct (nonempty (Rule_Depfile rule)) eqn:E.
  - rewrite (replace_step 2) by (done || naive_solver). f_equal. apply map_ext. by intros [].
  - f_equal. apply map_ext_in. intros p Hp%list_elem_of_In. destruct p; try done.
    destruct Hd; [by destruct (Rule_Depfile rule)|done].
Qed.
End expansion.

(** The command of a rule is its action with every [$in], [$out] and
    [$depfile] replaced by the quoted names, when neither the text between them
    nor a name holds a dollar. *)
Theorem expandRuleAction_template rule l :
  no_dollar (shellJoin (Rule_Inputs rule)) → no_dollar (shellJoin (Rule_Outputs rule)) →
  Forall plain_piece l → (Rule_Depfile rule = [] → PDep ∉ l) → Rule_Action rule = concat (map piece_print l) →
  expandRuleAction rule = concat (map (piece_meaning rule) l).
Proof. intros Hin Hout. by apply expand_pieces. Qed.

Lemma expandRuleAction_template_witness :
  expandRuleAction (mk_BuildRule [] (bs "cc -MF $depfile $in -o $out") [bs "a.c"; bs "b c.c"] [bs "a"] (bs "a.d"))
  = bs "cc -MF a.d a.c 'b c.c' -o a".
Proof.
  set (rule := mk_BuildRule _ _ _ _ _).
  rewrite (expandRuleAction_template rule [Text (bs "cc -MF "); PDep; Text (bs " "); PIn; Text (bs " -o "); POut]);
    [vm_compute; reflexivity|by apply (bool_decide_eq_true _)..| |discriminate|vm_compute; reflexivity].
  repeat (apply Forall_cons_2; [first [exact I|by apply (bool_decide_eq_true _)]|]). constructor.
Defined.

(** A name with a dollar is quoted, and then searched for the next place. *)
Theorem expandRuleAction_rescans :
  expandRuleAction (mk_BuildRule [] (bs "cp $in $out") [bs "a$out.c"] [bs "b.c"] []) = bs "cp 'ab.c.c' b.c".
Proof. by vm_compute. Qed.
