(* ===== verification/BuildTasks.v ===== *)
(** * Custom tasks (builder/tasks.go)

    The stages of the tasks, the graph of a stage, and the run of a task, which
    is left out when its outputs are there and its marker holds the fingerprint
    of its inputs and command. *)
From stdpp Require Import list gmap strings sorting.
From S2P Require Import Prelude GoStrings GoPath Topo DagScheduler ActionCache ConfigTypes ConfigOps.

(** ** Stages *)
Definition taskStage (h : host) (stage : bytes) : bytes :=
  let stage := ToLower h (TrimSpace stage) in
  if nilb stage then bs "pre-build" else stage.

(** The first of each stage, in order. *)
Fixpoint first_stages (seen : gset bytes) (stages : list bytes) : list bytes :=
  match stages with
  | [] => []
  | s :: r => if bool_decide (s ∈ seen) then first_stages seen r else s :: first_stages ({[s]} ∪ seen) r
  end.

Definition known_stages : list bytes := [bs "pre-build"; bs "build"; bs "post-build"].
(** The known stages in their order, then the others in the order of the tasks. *)
Definition taskStages (h : host) (tasks : list Task) : list bytes :=
  let other := first_stages ∅ (map (λ t, taskStage h (Task_Stage t)) tasks) in
  filter (λ s, s ∈ other) known_stages ++ filter (λ s, s ∉ known_stages) other.

Definition stage_indices (h : host) (tasks : list Task) (stage : bytes) : list nat :=
  filter (λ i, (λ t, taskStage h (Task_Stage t)) <$> tasks !! i = Some stage) (seq 0 (length tasks)).

(** ** Tasks *)
Section tasks.
(** The hash functions of the action cache. *)
Context (blake3 keyed_blake3 : bytes → bytes).
Context (on_windows : bool).
(** Paths whose Stat fails for another reason than a missing file. *)
Context (stat_fails : bytes → bool).
(** The shell command and the contents of the files: whether it succeeds, and
    the files it leaves. *)
Context (run : bytes * list bytes → gmap bytes bytes → bool * gmap bytes bytes).

Definition taskPath (path : bytes) : bytes :=
  if on_windows then map (λ c, if c =? 47 then 92 else c) path else map (λ c, if c =? 92 then 47 else c) path.
Definition taskMarker (task : Task) : bytes :=
  match Task_Outputs task with
  | [] => bs ".fz_task"
  | o :: _ => taskPath o ++ bs ".fz-task"
  end.
Definition taskShell (command : bytes) : bytes * list bytes :=
  if on_windows then (bs "cmd.exe", [bs "/c"; command]) else (bs "sh", [bs "-c"; command]).

Definition taskFingerprint (f : gmap bytes bytes) (task : Task) : option bytes :=
  EncodeToString <$> actionCacheKey blake3 keyed_blake3 f (Task_Inputs task) (Task_Command task) [].

(** Whether an output is missing. *)
Fixpoint missing_output (f : gmap bytes bytes) (outputs : list bytes) : outcome bool :=
  match outputs with
  | [] => Ok false
  | o :: r =>
      check (stat_fails (taskPath o)) "stat";;
      rest ← missing_output f r;
      Ok (bool_decide (f !! taskPath o = None) || rest)
  end.

Definition fingerprint (f : gmap bytes bytes) (task : Task) : outcome bytes :=
  match taskFingerprint f task with Some k => Ok k | None => Err "fingerprint" end.

(** The files and the commands that were run. *)
Definition task_state : Type := gmap bytes bytes * list bytes.

Definition run_task (task : Task) (s : task_state) : outcome task_state :=
  let '(ok, f) := run (taskShell (Task_Command task)) s.1 in
  check (negb ok) "command failed";;
  key ← fingerprint f task;
  Ok (<[taskMarker task := key]> f, s.2 ++ [Task_Command task]).

Definition executeTask (task : Task) (s : task_state) : outcome task_state :=
  check (nilb (Task_Command task) || nilb (Task_Outputs task)) "build action failed";;
  needRun ← missing_output s.1 (Task_Outputs task);
  if needRun : bool then run_task task s
  else
    key ← fingerprint s.1 task;
    if bool_decide (s.1 !! taskMarker task = Some key) then Ok s else run_task task s.

(** ** A stage *)

(** The task of the stage that owns an output: the last that lists it. *)
Definition stage_owners (tasks : list Task) (indices : list nat) : gmap bytes Z :=
  fold_left (λ m '(k, i), match tasks !! i with
                          | Some t => fold_left (λ m o, <[taskPath o := Z.of_nat k]> m) (Task_Outputs t) m
                          | None => m
                          end) (zip (seq 0 (length indices)) indices) ∅.

Definition task_row (owners : gmap bytes Z) (local : nat) (task : Task) : list Z :=
  elements (list_to_set (C := gset Z)
    (List.filter (λ d, negb (d =? Z.of_nat local)) (omap (λ i, owners !! taskPath i) (Task_Inputs task)))).

Definition stage_graph (tasks : list Task) (indices : list nat) : graph :=
  let owners := stage_owners tasks indices in
  map (λ '(k, i), match tasks !! i with Some t => task_row owners k t | None => [] end) (zip (seq 0 (length indices)) indices).

(** The tasks of the stage in the order in which the scheduler finishes them. *)
Fixpoint execute_tasks (tasks : list Task) (order : list nat) (s : task_state) : outcome task_state :=
  match order with
  | [] => Ok s
  | i :: r =>
      match tasks !! i with
      | Some t => s ← executeTask t s; execute_tasks tasks r s
      | None => execute_tasks tasks r s
      end
  end.

Context (order : graph → list nat).
Definition runTaskStage (tasks : list Task) (indices : list nat) (s : task_state) : outcome task_state :=
  let g := stage_graph tasks indices in
  submit_all g [];;
  execute_tasks tasks (omap (λ k, indices !! k) (order g)) s.

Fixpoint run_stages (h : host) (tasks : list Task) (stages : list bytes) (s : task_state) : outcome task_state :=
  match stages with
  | [] => Ok s
  | st :: r => s ← runTaskStage tasks (stage_indices h tasks st) s; run_stages h tasks r s
  end.

Definition runTasks (h : host) (tasks : list Task) (s : task_state) : outcome task_state :=
  if nilb tasks then Ok s else run_stages h tasks (taskStages h tasks) s.
End tasks.

(** ** Every task is in one stage *)
Lemma first_stages_spec seen l : NoDup (first_stages seen l) ∧ ∀ s, s ∈ first_stages seen l ↔ s ∈ l ∧ s ∉ seen.
Proof.
  revert seen. induction l as [|x l IH]; intros seen; cbn [first_stages]; [split; [constructor|set_solver]|].
  case_bool_decide as Hx.
  - destruct (IH seen) as [Hn He]. split; [done|]. intros v. rewrite He. set_solver.
  - destruct (IH ({[x]} ∪ seen)) as [Hn He]. split.
    + constructor; [|done]. rewrite He. set_solver.
    + intros v. rewrite elem_of_cons, He. destruct (decide (v = x)); set_solver.
Qed.

Section stages.
Variables (h : host) (tasks : list Task).
Abbreviation stage_of := (λ t, taskStage h (Task_Stage t)).
Abbreviation occurring := (first_stages ∅ (map stage_of tasks)).

Lemma occurring_spec : NoDup occurring ∧ ∀ s, s ∈ occurring ↔ ∃ i t, tasks !! i = Some t ∧ stage_of t = s.
Proof.
  destruct (first_stages_spec ∅ (map stage_of tasks)) as [Hn He]. split; [done|]. intros s. rewrite He.
  split.
  - intros [Hs _]. apply list_elem_of_fmap in Hs as (t & -> & Ht). apply list_elem_of_lookup in Ht as [i Hi]. by exists i, t.
  - intros (i & t & Hi & <-). split; [|apply not_elem_of_empty]. apply list_elem_of_fmap. exists t. split; [done|].
    by eapply list_elem_of_lookup_2.
Qed.

Lemma stage_indices_spec stage i : i ∈ stage_indices h tasks stage ↔ ∃ t, tasks !! i = Some t ∧ stage_of t = stage.
Proof.
  unfold stage_indices. rewrite list_elem_of_filter, elem_of_seq. split.
  - intros [H _]. destruct (tasks !! i) as [t|]; [|done]. injection H as <-. by exists t.
  - intros (t & Ht & <-). rewrite Ht. split; [done|]. apply lookup_lt_Some in Ht. lia.
Qed.

Lemma stage_indices_absent stage : stage ∉ occurring → stage_indices h tasks stage = [].
Proof.
  intros Hs. destruct (stage_indices h tasks stage) as [|i l] eqn:E; [done|]. exfalso. apply Hs.
  assert (i ∈ stage_indices h tasks stage) as (t & Ht & H)%stage_indices_spec by (rewrite E; by left).
  apply occurring_spec. by exists i, t.
Qed.

(** The tasks in the order in which their stages run. *)
Definition task_order : list nat := concat (map (stage_indices h tasks) (taskStages h tasks)).
Definition other_stages : list bytes := filter (λ s, s ∉ known_stages) occurring.

Lemma known_indices l : concat (map (stage_indices h tasks) (filter (λ s, s ∈ occurring) l)) = concat (map (stage_indices h tasks) l).
Proof.
  induction l as [|s l IH]; [done|]. rewrite filter_cons. case_decide as Hs; cbn [map concat]; rewrite IH; [done|].
  by rewrite stage_indices_absent.
Qed.

(** Every task is run in exactly one stage: the order of the tasks is a
    permutation of them, the pre-build tasks first, then those of the build and
    the post-build stage, then the other stages one after the other. *)
Theorem task_order_stages :
  task_order = stage_indices h tasks (bs "pre-build") ++ stage_indices h tasks (bs "build")
    ++ stage_indices h tasks (bs "post-build") ++ concat (map (stage_indices h tasks) other_stages)
  ∧ task_order ≡ₚ seq 0 (length tasks).
Proof.
  assert (task_order = concat (map (stage_indices h tasks) (known_stages ++ other_stages))) as Heq.
  { unfold task_order, taskStages. cbv zeta. by rewrite !map_app, !concat_app, known_indices. }
  rewrite Heq. split; [cbn [known_stages app map concat]; done|].
  apply NoDup_Permutation; [|apply NoDup_seq|].
  - assert (NoDup (known_stages ++ other_stages)) as Hn.
    { apply NoDup_app. split; [by apply (bool_decide_eq_true _)|]. split.
      - intros s Hs. unfold other_stages. rewrite list_elem_of_filter. by intros [H _].
      - apply NoDup_filter, occurring_spec. }
    clear Heq. induction Hn as [|s l Hs Hn IH]; [constructor|]. cbn [map concat]. apply NoDup_app.
    split; [apply NoDup_filter, NoDup_seq|]. split; [|done]. intros i (t & Ht & H1)%stage_indices_spec Hi.
    apply list_elem_of_In, in_concat in Hi as (x & Hx & Hi). apply list_elem_of_In, list_elem_of_fmap in Hx as (s' & -> & Hs').
    apply list_elem_of_In, stage_indices_spec in Hi as (t' & Ht' & H2). apply Hs. congruence.
  - intros i. rewrite elem_of_seq. split.
    + intros Hi. apply list_elem_of_In, in_concat in Hi as (x & Hx & Hi). apply list_elem_of_In, list_elem_of_fmap in Hx as (s' & -> & _).
      apply list_elem_of_In, stage_indices_spec in Hi as (t & Ht & _). apply lookup_lt_Some in Ht. lia.
    + intros Hi. destruct (lookup_lt_is_Some_2 tasks i) as [t Ht]; [lia|].
      apply list_elem_of_In, in_concat. exists (stage_indices h tasks (stage_of t)). split.
      * apply list_elem_of_In, list_elem_of_fmap. exists (stage_of t). split; [done|]. rewrite elem_of_app.
        destruct (decide (stage_of t ∈ known_stages)) as [Hk|Hk]; [by left|right]. apply list_elem_of_filter. split; [done|].
        apply occurring_spec. by exists i, t.
      * apply list_elem_of_In, stage_indices_spec. by exists t.
Qed.
End stages.

(** ** When a task runs *)
Section execution.
Context (blake3 keyed_blake3 : bytes → bytes) (on_windows : bool) (stat_fails : bytes → bool).
Context (run : bytes * list bytes → gmap bytes bytes → bool * gmap bytes bytes).
Abbreviation path := (taskPath on_windows).
Abbreviation execute := (executeTask blake3 keyed_blake3 on_windows stat_fails run).
Abbreviation print_of := (taskFingerprint blake3 keyed_blake3).

Lemma missing_output_spec f outputs b : missing_output on_windows stat_fails f outputs = Ok b →
  (b = false ↔ ∀ o, o ∈ outputs → f !! path o ≠ None).
Proof.
  revert b. induction outputs as [|o r IH]; intros b; cbn [missing_output].
  { intros [= <-]. split; [|done]. intros _ o H. by apply not_elem_of_nil in H. }
  intros ([] & _ & H)%bind_Ok. apply bind_Ok in H as (b' & Hb & H). injection H as <-.
  rewrite orb_false_iff, bool_decide_eq_false, (IH b' Hb). split.
  - intros [H1 H2] x [-> | Hx]%elem_of_cons; [done|by apply H2].
  - intros H. split; [apply H; by left|]. intros x Hx. apply H. by right.
Qed.

(** Nothing to do: the outputs are there and the marker holds the fingerprint. *)
Definition task_current (f : gmap bytes bytes) (task : Task) : Prop :=
  (∀ o, o ∈ Task_Outputs task → f !! path o ≠ None)
  ∧ ∃ key, print_of f task = Some key ∧ f !! taskMarker on_windows task = Some key.

#[export] Instance task_current_dec f task : Decision (task_current f task).
Proof.
  unfold task_current.
  destruct (print_of f task) as [k|] eqn:Ek.
  - destruct (decide (Forall (λ o, f !! path o ≠ None) (Task_Outputs task))) as [Ho | Ho].
    + destruct (decide (f !! taskMarker on_windows task = Some k)) as [Hm | Hm].
      * left. split; [by apply Forall_forall|]. by exists k.
      * right. intros [_ (k' & [= <-] & H)]. done.
    + right. intros [H _]. apply Ho. by apply Forall_forall.
  - right. by intros [_ (k & H & _)].
Defined.

Lemma executeTask_cases task s s' : execute task s = Ok s' →
  task_current s.1 task ∧ s' = s ∨ ¬ task_current s.1 task ∧ run_task blake3 keyed_blake3 on_windows run task s = Ok s'.
Proof.
  unfold executeTask. intros ([] & _ & H)%bind_Ok. apply bind_Ok in H as (b & Hb & H).
  apply missing_output_spec in Hb. destruct b.
  - right. split; [|done]. intros [Ho _]. by apply Hb in Ho.
  - apply bind_Ok in H as (key & Hk & H). unfold fingerprint in Hk.
    destruct (print_of s.1 task) as [k|] eqn:Ek; [|done]. injection Hk as ->.
    case_bool_decide as Hm.
    + injection H as <-. left. split; [|done]. split; [by apply Hb|by exists key].
    + right. split; [|done]. intros [_ (key' & Hk' & Hm')]. congruence.
Qed.

Lemma fingerprint_unmarked f task key : taskMarker on_windows task ∉ Task_Inputs task →
  print_of (<[taskMarker on_windows task := key]> f) task = print_of f task.
Proof.
  intros Hn. unfold taskFingerprint. f_equal. apply (actionCacheKey_same blake3 keyed_blake3); try done.
  intros i Hi. apply lookup_insert_ne. by intros <-.
Qed.

(** C33 A task runs its command exactly when an output is missing or its marker
    does not hold the fingerprint of its inputs and command; when the command
    makes the outputs, and the marker is not an input, the task is current
    afterwards and is left alone until one of its inputs, its outputs or its
    marker changes. *)
Theorem executeTask_current task s s' :
  (∀ f f', run (taskShell on_windows (Task_Command task)) f = (true, f') → ∀ o, o ∈ Task_Outputs task → f' !! path o ≠ None) →
  taskMarker on_windows task ∉ Task_Inputs task → execute task s = Ok s' →
  (s'.2 = if decide (task_current s.1 task) then s.2 else s.2 ++ [Task_Command task])
  ∧ task_current s'.1 task
  ∧ ∀ f, (∀ p, p ∈ Task_Inputs task ∨ p ∈ taskMarker on_windows task :: map path (Task_Outputs task) → f !! p = s'.1 !! p) →
      task_current f task.
Proof.
  intros Hrun Hm He.
  assert (∀ f f', (∀ p, p ∈ Task_Inputs task ∨ p ∈ taskMarker on_windows task :: map path (Task_Outputs task) → f !! p = f' !! p) →
    task_current f' task → task_current f task) as Hsame.
  { intros f f' Hp [Ho (key & Hk & Hmk)]. split.
    - intros o Hin. rewrite Hp; [by apply Ho|]. right. right. apply list_elem_of_fmap. by exists o.
    - exists key. split; [|rewrite Hp; [done|right; by left]]. rewrite <- Hk. unfold taskFingerprint. f_equal.
      apply (actionCacheKey_same blake3 keyed_blake3); try done. intros i Hi. apply Hp. by left. }
  destruct (executeTask_cases _ _ _ He) as [[Hc ->] | [Hc Hr]].
  - rewrite decide_True by done. split; [done|]. split; [done|]. intros f Hf. by eapply Hsame.
  - rewrite decide_False by done. unfold run_task in Hr.
    destruct (run _ s.1) as [ok f1] eqn:Er. apply bind_Ok in Hr as ([] & Hok & Hr). destruct ok; [|done].
    apply bind_Ok in Hr as (key & Hk & Hr). unfold fingerprint in Hk.
    destruct (print_of f1 task) as [k|] eqn:Ek; [|done]. injection Hk as ->. injection Hr as <-. cbn [fst snd].
    assert (task_current (<[taskMarker on_windows task := key]> f1) task) as Hcur.
    { split.
      - intros o Ho. destruct (decide (path o = taskMarker on_windows task)) as [-> | Hne]; [by rewrite lookup_insert_eq|].
        rewrite lookup_insert_ne by done. by apply (Hrun _ _ Er).
      - exists key. by rewrite fingerprint_unmarked, lookup_insert_eq. }
    split; [done|]. split; [done|]. intros f Hf. by eapply Hsame.
Qed.
End execution.

(** ** Witness and order of the configuration *)
Definition gen_task : Task := mk_Task (bs "codegen") (bs "pre-build") (bs "gen") [bs "schema.json"] [bs "gen.c"].
Definition gen_run (c : bytes * list bytes) (f : gmap bytes bytes) : bool * gmap bytes bytes :=
  if bool_decide (c.2 = [bs "-c"; bs "gen"]) then (true, <[bs "gen.c" := bs "int x;"]> f) else (false, f).
Definition gen_files : gmap bytes bytes := {[ bs "schema.json" := bs "{}" ]}.

Definition gen_execute : task_state → outcome task_state :=
  executeTask (λ x, x) (λ x, x) false (λ _, false) gen_run gen_task.
Definition gen_after : task_state :=
  match gen_execute (gen_files, []) with Ok s => s | _ => (gen_files, []) end.

Lemma gen_executed : gen_execute (gen_files, []) = Ok gen_after.
Proof. vm_compute. reflexivity. Qed.

Lemma executeTask_current_witness :
  gen_execute (gen_files, []) = Ok gen_after ∧ gen_after.2 = [bs "gen"]
  ∧ task_current (λ x, x) (λ x, x) false gen_after.1 gen_task ∧ gen_execute gen_after = Ok gen_after.
Proof.
  pose proof (executeTask_current (λ x, x) (λ x, x) false (λ _, false) gen_run gen_task (gen_files, []) gen_after) as H.
  destruct H as (_ & H & _).
  - intros f f' Hr o Ho. cbn in Ho. apply list_elem_of_singleton in Ho as ->. unfold gen_run in Hr.
    rewrite bool_decide_eq_true_2 in Hr by done. injection Hr as <-. by rewrite lookup_insert_eq.
  - by apply (bool_decide_eq_true _).
  - exact gen_executed.
  - split; [exact gen_executed|]. split; [vm_compute; reflexivity|]. split; [exact H|]. vm_compute. reflexivity.
Defined.

(** A task listed before the one that makes its input does not run: the
    scheduler refuses the dependency. *)
Theorem tasks_listed_in_order :
  let use := mk_Task (bs "use") (bs "build") (bs "use gen.c") [bs "gen.c"] [bs "out"] in
  let gen := mk_Task (bs "gen") (bs "build") (bs "gen") [] [bs "gen.c"] in
  (submit_all (stage_graph false [use; gen] [0; 1]%nat) [] = Err errInvalidDependencyIndex)
  ∧ is_ok (submit_all (stage_graph false [gen; use] [0; 1]%nat) []).
Proof. split; [vm_compute; reflexivity|]. eexists. vm_compute. reflexivity. Qed.
