(* ===== verification/Reverse.v ===== *)
(** * Configurations out of makefiles and CMake files (reverse/config_reverse.go)

    The two line readers, the flags and variables they know, and the
    configuration made of what they found. *)
From stdpp Require Import list gmap strings.
From S2P Require Import Prelude GoStrings GoPath ConfigTypes ConfigOps ConfigLoad Utils.

Record ReverseConfig := mk_ReverseConfig {
  R_Name : bytes; R_Target : bytes; R_Sysroot : bytes; R_Source : list bytes; R_Output : bytes;
  R_Libs : list bytes; R_Include : list bytes; R_Flags : list bytes; R_Defines : gmap bytes bytes }.
#[export] Instance eta_ReverseConfig : Settable ReverseConfig :=
  λ r, mk_ReverseConfig (R_Name r) (R_Target r) (R_Sysroot r) (R_Source r) (R_Output r) (R_Libs r) (R_Include r)
    (R_Flags r) (R_Defines r).
Definition zero_ReverseConfig : ReverseConfig := mk_ReverseConfig [] [] [] [] [] [] [] [] ∅.

(** ** Bytes *)
Definition blank_byte (c : Z) : bool := (c =? 32) || (c =? 9) || (c =? 13) || (c =? 10).
Definition trimBytes (b : bytes) : bytes := drop_while_end blank_byte (drop_while blank_byte b).

(** Before and behind the first [c]. *)
Definition cut_at (c : Z) (s : bytes) : option (bytes * bytes) :=
  match span (λ x, negb (x =? c)) s with
  | (a, _ :: b) => Some (a, b)
  | (_, []) => None
  end.

(** bufio.Scanner with lines of at most [maxLine] bytes: the lines before the
    first that is longer, and whether there is one. *)
Definition maxLine : nat := N.to_nat 65535.
Definition drop_cr (line : bytes) : bytes := TrimSuffix line [13].
Definition raw_lines (data : bytes) : list bytes :=
  let ls := split_byte 10 data in
  if nilb (default [] (last ls)) then removelast ls else ls.
Fixpoint short_lines (ls : list bytes) : list bytes * bool :=
  match ls with
  | [] => ([], false)
  | l :: r => if (maxLine <? length l)%nat then ([], true) else let '(x, e) := short_lines r in (drop_cr l :: x, e)
  end.
Definition scan_lines (data : bytes) : list bytes * bool := short_lines (raw_lines data).

(** ** Flags and variables *)
Definition parseDeps (b : bytes) : list bytes := List.filter (λ s, negb (HasPrefix s (bs "$"))) (Fields b).

(** The words of a line; blanks within quotes do not end a word, and the quotes
    stay in it. *)
Fixpoint split_flags (quote : option Z) (cur s : bytes) : list bytes :=
  match s with
  | [] => if nilb cur then [] else [cur]
  | c :: r =>
      match quote with
      | Some q => split_flags (if c =? q then None else quote) (cur ++ [c]) r
      | None =>
          if (c =? 34) || (c =? 39) then split_flags (Some c) (cur ++ [c]) r
          else if (c =? 32) || (c =? 9) then (if nilb cur then [] else [cur]) ++ split_flags None [] r
          else split_flags None (cur ++ [c]) r
      end
  end.
Definition splitFlags (s : bytes) : list bytes := split_flags None [] s.

Definition is_alpha (c : Z) : bool := ((97 <=? c) && (c <=? 122)) || ((65 <=? c) && (c <=? 90)).
Definition is_name (c : Z) : bool := is_alpha c || ((48 <=? c) && (c <=? 57)) || (c =? ch "_").

(** How many bytes of a reference follow its dollar. *)
Definition reference (r : bytes) : option nat :=
  match r with
  | [] => None
  | c :: t =>
      let closed q := match cut_at q t with
                      | Some (a, _) => if nilb a then None else Some (length a + 2)%nat
                      | None => None
                      end in
      if c =? ch "(" then closed (ch ")")
      else if c =? ch "{" then closed (ch "}")
      else if is_alpha c then Some (length (fst (span is_name r))) else None
  end.
Fixpoint expand_vars (skip : nat) (s : bytes) : bytes :=
  match s with
  | [] => []
  | c :: r =>
      match skip with
      | S k => expand_vars k r
      | O => match (if c =? ch "$" then reference r else None) with
             | Some k => expand_vars k r
             | None => c :: expand_vars 0 r
             end
      end
  end.
Definition expandVars (s : bytes) : bytes := if bool_decide (ch "$" ∈ s) then expand_vars 0 s else s.

Definition source_name (p : bytes) : bool :=
  HasSuffix p (bs ".c") || HasSuffix p (bs ".cc") || HasSuffix p (bs ".cpp") || HasSuffix p (bs ".s") || HasSuffix p (bs ".asm").

Definition add_lib (p : bytes) (rc : ReverseConfig) : ReverseConfig := rc <| R_Libs := R_Libs rc ++ [p] |>.
Definition add_include (p : bytes) (rc : ReverseConfig) : ReverseConfig := rc <| R_Include := R_Include rc ++ [p] |>.
Definition add_flag (p : bytes) (rc : ReverseConfig) : ReverseConfig := rc <| R_Flags := R_Flags rc ++ [p] |>.
Definition add_source (p : bytes) (rc : ReverseConfig) : ReverseConfig := rc <| R_Source := R_Source rc ++ [p] |>.

Definition parseDefine (def : bytes) (rc : ReverseConfig) : ReverseConfig :=
  match split_n 2 (ch "=") def with
  | [k; v] => rc <| R_Defines := <[k := v]> (R_Defines rc) |>
  | k :: _ => rc <| R_Defines := <[k := bs "1"]> (R_Defines rc) |>
  | [] => rc
  end.

Definition parse_flag (p : bytes) (rc : ReverseConfig) : ReverseConfig :=
  if HasPrefix p (bs "-l") then add_lib (drop 2 p) rc
  else if HasPrefix p (bs "-I") then add_include (drop 2 p) rc
  else if HasPrefix p (bs "-D") then parseDefine (drop 2 p) rc
  else add_flag p rc.
Definition each (f : bytes → ReverseConfig → ReverseConfig) (l : list bytes) (rc : ReverseConfig) : ReverseConfig :=
  fold_left (λ rc p, f p rc) l rc.
Definition parseFlags (v : bytes) : ReverseConfig → ReverseConfig := each parse_flag (splitFlags v).

Definition compiler_flag (p : bytes) (rc : ReverseConfig) : ReverseConfig :=
  if HasPrefix p (bs "-D") then parseDefine (drop 2 p) rc
  else if HasPrefix p (bs "-I") then add_include (drop 2 p) rc
  else if HasPrefix p (bs "-l") then add_lib (drop 2 p) rc
  else if HasPrefix p (bs "-") then add_flag p rc else rc.
Definition parseCompilerFlags (v : bytes) : ReverseConfig → ReverseConfig := each compiler_flag (splitFlags v).

Definition parse_lib (p : bytes) (rc : ReverseConfig) : ReverseConfig :=
  if HasPrefix p (bs "-l") then add_lib (drop 2 p) rc
  else if negb (HasPrefix p (bs "-")) then add_lib p rc else rc.
Definition parseLibs (v : bytes) : ReverseConfig → ReverseConfig := each parse_lib (splitFlags v).

Definition parse_include (p : bytes) (rc : ReverseConfig) : ReverseConfig :=
  if HasPrefix p (bs "-I") then add_include (drop 2 p) rc
  else if HasPrefix p (bs "-isystem") then
    match splitFlags (drop 8 p) with d :: _ => add_include d rc | [] => rc end
  else rc.
Definition parseIncludes (v : bytes) : ReverseConfig → ReverseConfig := each parse_include (splitFlags v).

Definition parse_source (p : bytes) (rc : ReverseConfig) : ReverseConfig := if source_name p then add_source p rc else rc.
Definition parseSources (v : bytes) : ReverseConfig → ReverseConfig := each parse_source (splitFlags v).

Definition parseVariable (key val : bytes) (rc : ReverseConfig) : ReverseConfig :=
  let v := expandVars val in
  if bool_decide (key = bs "CC") then rc
  else if bool_decide (key = bs "CXX") then rc
  else if HasPrefix key (bs "CFLAGS") then parseFlags v rc
  else if HasPrefix key (bs "CXXFLAGS") then parseFlags v rc
  else if HasPrefix key (bs "LDFLAGS") then parseFlags v rc
  else if HasPrefix key (bs "LIBS") then parseLibs v rc
  else if HasPrefix key (bs "INCLUDES") then parseIncludes v rc
  else if HasPrefix key (bs "TARGET") then if nonempty v then rc <| R_Output := v |> <| R_Target := v |> else rc
  else if HasPrefix key (bs "OUT") then if nonempty v then rc <| R_Output := v |> else rc
  else if HasPrefix key (bs "SRC") then parseSources v rc
  else rc.

(** ** The rules of a makefile *)
Fixpoint parse_parts (parts : list bytes) (rc : ReverseConfig) : ReverseConfig :=
  match parts with
  | [] => rc
  | p :: r =>
      parse_parts r
        (if HasPrefix p (bs "-o") then
           if (2 <? length p)%nat then rc <| R_Output := drop 2 p |>
           else match r with n :: _ => rc <| R_Output := n |> | [] => rc end
         else if HasPrefix p (bs "-D") then parseDefine (drop 2 p) rc
         else if HasPrefix p (bs "-I") then add_include (drop 2 p) rc
         else if HasPrefix p (bs "-l") then add_lib (drop 2 p) rc
         else if source_name p then add_source p rc
         else if HasPrefix p (bs "-") then add_flag p rc
         else rc)
  end.
Definition parseCommand (cmd : bytes) : ReverseConfig → ReverseConfig := parse_parts (splitFlags cmd).

Definition processTarget (name : bytes) (deps cmds : list bytes) (rc : ReverseConfig) : ReverseConfig :=
  if nilb name || nilb cmds then rc
  else
    let rc := if nilb (R_Output rc) && negb (bool_decide (ch "." ∈ name)) then rc <| R_Output := name |> else rc in
    each parseCommand cmds (each parse_source deps rc).

(** The reader: the configuration, and the rule it is in. *)
Record make_state := mk_make {
  rc : ReverseConfig; inTarget : bool; targetName : bytes; targetDeps : list bytes; targetCmds : list bytes }.

(** [bytes.IndexByte(line, c) > 0]: what is before and behind it. *)
Definition split_behind (c : Z) (line : bytes) : option (bytes * bytes) :=
  match cut_at c line with
  | Some (a, b) => if nilb a then None else Some (a, b)
  | None => None
  end.

Definition make_line (line : bytes) (s : make_state) : make_state :=
  let line := trimBytes line in
  match line with
  | [] => s
  | c :: _ =>
      if c =? ch "#" then s
      else
        match split_behind (ch "=") line with
        | Some (key, val) =>
            mk_make (parseVariable (trimBytes key) (trimBytes val) (rc s)) (inTarget s) (targetName s) (targetDeps s) (targetCmds s)
        | None =>
            match (if contains_bytes (bs ":=") line then None else split_behind (ch ":") line) with
            | Some (name, deps) =>
                mk_make (rc s) true (trimBytes name) (if nilb deps then targetDeps s else parseDeps deps) (targetCmds s)
            | None =>
                if inTarget s && ((c =? 9) || (c =? 32)) then
                  let cmd := trimBytes line in
                  mk_make (rc s) (inTarget s) (targetName s) (targetDeps s)
                    (if nilb cmd then targetCmds s else targetCmds s ++ [cmd])
                else if inTarget s && nonempty (targetCmds s) then
                  mk_make (processTarget (targetName s) (targetDeps s) (targetCmds s) (rc s)) false [] [] []
                else s
            end
        end
  end.

(** ** The configuration *)
Section config.
(** The order in which a map is gone through. *)
Context (range : gmap bytes bytes → list (bytes * bytes)).
Context (h : host).

Definition default_output (sources : list bytes) : bytes :=
  match sources with
  | [] => []
  | src :: _ =>
      let base := filepath_Base src in
      let output := TrimSuffix base (filepath_Ext base) in
      if nilb output then bs "a.out" else output
  end.

Definition toConfig (rc : ReverseConfig) : Config :=
  let cc := map (λ '(k, v), bs "-D" ++ k ++ bs "=" ++ v) (range (R_Defines rc)) ++ R_Flags rc
            ++ map (λ i, bs "-I" ++ i) (List.filter nonempty (R_Include rc)) in
  let ld := map (λ l, bs "-l" ++ l) (List.filter nonempty (R_Libs rc)) in
  zero_Config <| SourceFiles := R_Source rc |>
    <| Output := if nilb (R_Output rc) then default_output (R_Source rc) else R_Output rc |>
    <| Libs := R_Libs rc |> <| Include := R_Include rc |>
    <| Mode := bs "auto" |> <| Profile := bs "balanced" |> <| Toolchain := bs "auto" |>
    <| Target := R_Target rc |> <| Name := R_Name rc |> <| Flags := mk_FlagsT [] cc ld |>.

Definition make_end (s : make_state) : ReverseConfig :=
  if inTarget s && nonempty (targetCmds s) then processTarget (targetName s) (targetDeps s) (targetCmds s) (rc s) else rc s.
Definition init_make : make_state := mk_make zero_ReverseConfig false [] [] [].

Definition ReverseMakefile (file : option bytes) : outcome Config :=
  match file with
  | None => Err "open"
  | Some data =>
      let '(lines, long) := scan_lines data in
      let rc := make_end (fold_left (λ s line, make_line line s) lines init_make) in
      if long : bool then Err "token too long" else Ok (toConfig rc)
  end.

(** ** CMake files *)

(** What is between the parenthesis at [n] and the last byte. *)
Definition arguments (n : nat) (line : bytes) : outcome bytes := slice line n (length line - 1).

Definition scope_word (s : bytes) : bool :=
  HasPrefix s (bs "PRIVATE") || HasPrefix s (bs "PUBLIC") || HasPrefix s (bs "INTERFACE").

(** The output of a target, and its sources. *)
Definition cmake_target (output : bytes → bytes) (content : bytes) (rc : ReverseConfig) : ReverseConfig :=
  match map trimBytes (split_byte 32 content) with
  | [] => rc
  | name :: parts =>
      let rc := if nilb (R_Output rc) then rc <| R_Output := output name |> else rc in
      each (λ p rc, if nonempty p then parse_source p rc else rc) parts rc
  end.

Definition cmake_line (line : bytes) (rc : ReverseConfig) : outcome ReverseConfig :=
  let line := trimBytes line in
  match line with
  | [] => Ok rc
  | c :: _ =>
      if c =? ch "#" then Ok rc
      else if HasPrefix line (bs "project(") then
        content ← arguments 8 line;
        Ok (match split_byte 32 content with p :: _ => rc <| R_Name := trimBytes p |> | [] => rc end)
      else if HasPrefix line (bs "add_executable(") then
        content ← arguments 15 line;
        Ok (cmake_target id content rc)
      else if HasPrefix line (bs "add_library(") then
        content ← arguments 12 line;
        Ok (cmake_target (λ p, bs "lib" ++ p ++ bs ".a") content rc)
      else if HasPrefix line (bs "target_include_directories(") then
        content ← arguments 24 line;
        Ok (each (λ p rc, if nonempty p && negb (scope_word p) then add_include p rc else rc)
              (drop 2 (map trimBytes (split_byte 32 content))) rc)
      else if HasPrefix line (bs "target_link_libraries(") then
        content ← arguments 21 line;
        Ok (each (λ p rc, if nonempty p && negb (scope_word p) && negb (contains_bytes (bs "::") p) then add_lib p rc else rc)
              (drop 1 (map trimBytes (split_byte 32 content))) rc)
      else if HasPrefix line (bs "set(") then
        content ← arguments 4 line;
        Ok (match split_n 2 32 content with
            | [k; v] =>
                if among (trimBytes k) [bs "CMAKE_CXX_FLAGS"; bs "CMAKE_C_FLAGS"; bs "CMAKE_EXE_LINKER_FLAGS"]
                then parseFlags (trimBytes v) rc else rc
            | _ => rc
            end)
      else if HasPrefix line (bs "find_package(") then
        content ← arguments 13 line;
        Ok (match split_byte 32 content with p :: _ => add_lib (trimBytes p) rc | [] => rc end)
      else Ok rc
  end.

Fixpoint cmake_lines (lines : list bytes) (rc : ReverseConfig) : outcome ReverseConfig :=
  match lines with
  | [] => Ok rc
  | l :: r => rc ← cmake_line l rc; cmake_lines r rc
  end.

Definition ReverseCMake (file : option bytes) : outcome Config :=
  match file with
  | None => Err "open"
  | Some data =>
      let '(lines, long) := scan_lines data in
      rc ← cmake_lines lines zero_ReverseConfig;
      if long : bool then Err "token too long" else Ok (toConfig rc)
  end.

(** ** The kind of a file *)

(** A line that begins with a blank, or one word in front of a colon. *)
Definition makefile_line (line : bytes) : bool :=
  match line with
  | c :: _ =>
      (c =? 9) || (c =? 32)
      || match split_behind (ch ":") line with
         | Some (before, _) => let before := trimBytes before in nonempty before && negb (bool_decide (32 ∈ before))
         | None => false
         end
  | [] => false
  end.

Definition cmake_marks : list bytes := [bs "add_executable"; bs "project("].
Definition make_marks : list bytes :=
  [bs "CC="; bs "CC ="; bs "TARGET="; bs "TARGET ="; bs "SRCS="; bs "SRCS ="].

Definition ReverseFile (read : bytes → option bytes) (filename : bytes) : outcome Config :=
  let ext := ToLower h (filepath_Ext filename) in
  if among ext [bs ".mk"; bs ".makefile"] then ReverseMakefile (read filename)
  else if among ext [bs ".cmake"; bs ".txt"] && contains_bytes (bs "cmake") (ToLower h filename) then ReverseCMake (read filename)
  else
    match read filename with
    | None => Err "read"
    | Some data =>
        if nilb data then Err "empty file"
        else if existsb (λ p, contains_bytes p data) cmake_marks then ReverseCMake (Some data)
        else if existsb (λ p, contains_bytes p data) make_marks then ReverseMakefile (Some data)
        else if existsb makefile_line (fst (scan_lines data)) then ReverseMakefile (Some data)
        else Err "unsupported build file format"
    end.
End config.

(** ** Trimming *)
Lemma trimBytes_head line c r : trimBytes line = c :: r → blank_byte c = false.
Proof.
  unfold trimBytes. intros H. destruct (drop_while_end_spec blank_byte (drop_while blank_byte line)) as (s & Hs & _).
  rewrite H in Hs. rewrite drop_while_span in Hs. by eapply span_snd_head.
Qed.

Lemma trimBytes_trimmed s : trimmed s → trimBytes s = s.
Proof.
  unfold trimmed, trimBytes. destruct s as [|c r]; [done|]. cbn [head].
  destruct (last (c :: r)) as [b|] eqn:E; [|by apply last_None in E]. intros [Ha Hb].
  assert (∀ x, graphic x → blank_byte x = false) as Hg by (unfold graphic, blank_byte; lia).
  cbn [drop_while]. rewrite (Hg c Ha). apply drop_while_end_id. rewrite E. by apply Hg.
Qed.

(** ** Makefiles: the variables only *)

(** A line that assigns a variable. *)
Definition assignment (line : bytes) : option (bytes * bytes) :=
  match trimBytes line with
  | c :: r => if c =? ch "#" then None else (λ '(k, v), (trimBytes k, trimBytes v)) <$> split_behind (ch "=") (c :: r)
  | [] => None
  end.
Definition assign_all (l : list (bytes * bytes)) (rc : ReverseConfig) : ReverseConfig :=
  fold_left (λ rc '(k, v), parseVariable k v rc) l rc.

Lemma make_line_variables line s : targetCmds s = [] →
  rc (make_line line s) = assign_all (option_list (assignment line)) (rc s) ∧ targetCmds (make_line line s) = [].
Proof.
  intros Hs. unfold make_line, assignment. destruct (trimBytes line) as [|c r] eqn:E; [done|].
  destruct (c =? ch "#"); [done|]. destruct (split_behind (ch "=") (c :: r)) as [[k v]|]; [done|].
  cbn [fmap option_fmap option_map option_list assign_all fold_left].
  destruct (if contains_bytes (bs ":=") (c :: r) then None else split_behind (ch ":") (c :: r)) as [[n d]|]; [done|].
  apply trimBytes_head in E. replace ((c =? 9) || (c =? 32)) with false by (unfold blank_byte in E; lia).
  rewrite andb_false_r, Hs. cbn [nonempty nilb negb]. by rewrite andb_false_r.
Qed.

(** Reading a makefile takes its assignments, in order, and nothing else:
    the lines are trimmed before it is looked whether they begin with a blank,
    so no command is ever kept and the sources, outputs and flags of the rules
    are not read. *)
Theorem ReverseMakefile_variables range data :
  ReverseMakefile range (Some data) =
    let '(lines, long) := scan_lines data in
    if long then Err "token too long" else Ok (toConfig range (assign_all (omap assignment lines) zero_ReverseConfig)).
Proof.
  unfold ReverseMakefile. destruct (scan_lines data) as [lines long]. cbv zeta. destruct long; [done|]. do 2 f_equal.
  assert (∀ s, targetCmds s = [] →
    make_end (fold_left (λ s line, make_line line s) lines s) = assign_all (omap assignment lines) (rc s)) as H; [|by apply H].
  induction lines as [|l r IH]; intros s Hs.
  - cbn. unfold make_end. by rewrite Hs, andb_false_r.
  - cbn [fold_left]. destruct (make_line_variables l s Hs) as [H1 H2]. rewrite (IH _ H2), H1. cbn [omap list_omap].
    by destruct (assignment l) as [[k v]|].
Qed.

(** ** CMake files: lines that end behind the parenthesis *)
Definition bare_opening (line : bytes) : bool :=
  among (trimBytes line) [bs "project("; bs "add_executable("; bs "add_library("; bs "set("; bs "find_package("].

Lemma arguments_opening (n : nat) p line : HasPrefix line p = true → length p = n → (0 < n)%nat →
  if bool_decide (line = p) then arguments n line = Panic else ∃ content, arguments n line = Ok content.
Proof.
  intros Hp <- Hn. apply HasPrefix_true in Hp as [r ->]. unfold arguments, slice. rewrite length_app. case_bool_decide as H.
  - assert (r = []) as ->; [by apply (app_inv_head p); rewrite app_nil_r|]. rewrite Nat.add_0_r.
    by rewrite (proj2 (Nat.leb_gt (length p) (length p - 1)) ltac:(lia)).
  - destruct r as [|c r]; [by rewrite app_nil_r in H|]. cbn [length].
    rewrite (proj2 (Nat.leb_le _ _)), (proj2 (Nat.leb_le _ _)) by lia. by eexists.
Qed.

Lemma arguments_inner (n : nat) p line : HasPrefix line p = true → (n < length p)%nat → ∃ content, arguments n line = Ok content.
Proof.
  intros Hp Hn. apply HasPrefix_true in Hp as [r ->]. unfold arguments, slice. rewrite length_app.
  rewrite (proj2 (Nat.leb_le _ _)), (proj2 (Nat.leb_le _ _)) by lia. by eexists.
Qed.

(** A line with the prefix of one command is no bare opening of another. *)
Ltac not_bare :=
  rewrite bool_decide_eq_false_2;
  [|rewrite !elem_of_cons, elem_of_nil; intros Hin; destruct_or? Hin; first [congruence|
    match goal with Hp : HasPrefix ?t _ = _, Hq : ?t = _ |- _ => rewrite Hq in Hp; vm_compute in Hp; discriminate Hp end]].
Ltac opening n H :=
  match type of H with HasPrefix ?t ?p = true =>
    let Ha := fresh "Ha" in let Hb := fresh "Hb" in
    pose proof (arguments_opening n p t H eq_refl ltac:(lia)) as Ha; destruct (decide (t = p)) as [Hb|Hb];
    [rewrite bool_decide_eq_true_2 in Ha by done; rewrite Ha, Hb, bool_decide_eq_true_2; [done|by apply (bool_decide_eq_true _)]
    |rewrite bool_decide_eq_false_2 in Ha by done; destruct Ha as [? ->]; not_bare; by eexists]
  end.
Ltac inner n H :=
  match type of H with HasPrefix ?t ?p = true =>
    let Ha := fresh "Ha" in
    destruct (arguments_inner n p t H ltac:(cbn; lia)) as [? ->]; not_bare; by eexists
  end.

Lemma cmake_line_spec line rc :
  if bare_opening line then cmake_line line rc = Panic else ∃ rc', cmake_line line rc = Ok rc'.
Proof.
  unfold cmake_line, bare_opening, among. generalize (trimBytes line). clear line. intros line.
  destruct line as [|c r]; [by eexists|]. set (t := c :: r). assert (t = c :: r) as Ht by done. clearbody t.
  destruct (Z.eqb_spec c (ch "#")) as [->|_].
  { rewrite bool_decide_eq_false_2; [by eexists|]. rewrite !elem_of_cons, elem_of_nil. subst t. naive_solver. }
  destruct (HasPrefix t _) eqn:E1; [opening 8%nat E1|]. destruct (HasPrefix t (bs "add_executable(")) eqn:E2; [opening 15%nat E2|].
  destruct (HasPrefix t (bs "add_library(")) eqn:E3; [opening 12%nat E3|].
  destruct (HasPrefix t (bs "target_include_directories(")) eqn:E4; [inner 24%nat E4|].
  destruct (HasPrefix t (bs "target_link_libraries(")) eqn:E5; [inner 21%nat E5|].
  destruct (HasPrefix t (bs "set(")) eqn:E6; [opening 4%nat E6|]. destruct (HasPrefix t (bs "find_package(")) eqn:E7; [opening 13%nat E7|].
  not_bare. by eexists.
Qed.

Lemma cmake_lines_spec lines rc :
  if existsb bare_opening lines then cmake_lines lines rc = Panic else ∃ rc', cmake_lines lines rc = Ok rc'.
Proof.
  revert rc. induction lines as [|l r IH]; intros rc; [by eexists|]. cbn [existsb cmake_lines].
  pose proof (cmake_line_spec l rc) as Hl. destruct (bare_opening l); [by rewrite Hl|].
  destruct Hl as [rc' ->]. apply IH.
Qed.

(** C35 Reading a CMake file panics exactly when some line, in front of the first
    that is too long, is nothing but the opening of a command, as in a command
    written over several lines; otherwise it returns a configuration, or the
    error of the line that is too long. *)
Theorem ReverseCMake_panics range data :
  let '(lines, long) := scan_lines data in
  (ReverseCMake range (Some data) = Panic ↔ ∃ l, l ∈ lines ∧ bare_opening l = true)
  ∧ (ReverseCMake range (Some data) ≠ Panic →
     if long then ReverseCMake range (Some data) = Err "token too long" else is_ok (ReverseCMake range (Some data))).
Proof.
  unfold ReverseCMake. destruct (scan_lines data) as [lines long].
  assert (existsb bare_opening lines = true ↔ ∃ l, l ∈ lines ∧ bare_opening l = true) as <-.
  { rewrite existsb_exists. split; intros (l & H1 & H2); exists l; by rewrite list_elem_of_In in *. }
  pose proof (cmake_lines_spec lines zero_ReverseConfig) as H. destruct (existsb bare_opening lines).
  - by rewrite H.
  - destruct H as [rc ->]. cbn [mbind outcome_bind]. by destruct long; split; [|done| |eexists].
Qed.

Lemma ReverseCMake_panics_example :
  ReverseCMake map_to_list (Some (bs "add_executable(" ++ [10] ++ bs "  app main.c)")) = Panic.
Proof. by vm_compute. Qed.

(** ** A makefile of variables *)
Record make_vars := mk_vars {
  mv_target : bytes; mv_sources : list bytes; mv_defines : list (bytes * bytes); mv_flags : list bytes;
  mv_includes : list bytes; mv_libs : list bytes }.

Definition define_flag (d : bytes * bytes) : bytes := bs "-D" ++ d.1 ++ bs "=" ++ d.2.
Definition include_flag (i : bytes) : bytes := bs "-I" ++ i.
Definition lib_flag (l : bytes) : bytes := bs "-l" ++ l.

Definition make_assignments (v : make_vars) : list (bytes * list bytes) :=
  [(bs "TARGET", [mv_target v]); (bs "SRC", mv_sources v); (bs "CFLAGS", map define_flag (mv_defines v) ++ mv_flags v);
   (bs "INCLUDES", map include_flag (mv_includes v)); (bs "LIBS", map lib_flag (mv_libs v))].
Definition make_text_line (a : bytes * list bytes) : bytes := a.1 ++ bs "=" ++ strings_Join a.2 [32].
Definition make_text (v : make_vars) : bytes := concat (map (λ a, make_text_line a ++ [10]) (make_assignments v)).

(** Words without quotes and dollars. *)
Definition plain_char (c : Z) : Prop := graphic c ∧ c ≠ 34 ∧ c ≠ 39 ∧ c ≠ ch "$".
Definition plain_word (w : bytes) : Prop := w ≠ [] ∧ Forall plain_char w.
#[export] Instance plain_char_dec c : Decision (plain_char c).
Proof. unfold plain_char. apply _. Defined.
#[export] Instance plain_word_dec w : Decision (plain_word w).
Proof. unfold plain_word. apply _. Defined.

Record vars_ok (v : make_vars) : Prop := {
  ok_target : plain_word (mv_target v);
  ok_sources : Forall (λ s, plain_word s ∧ source_name s = true) (mv_sources v);
  ok_defines : Forall (λ d, Forall plain_char (d.1 ++ d.2) ∧ ch "=" ∉ d.1) (mv_defines v);
  ok_keys : NoDup (map fst (mv_defines v));
  ok_flags : Forall (λ f, plain_word f ∧ HasPrefix f (bs "-l") = false ∧ HasPrefix f (bs "-I") = false
                          ∧ HasPrefix f (bs "-D") = false) (mv_flags v);
  ok_includes : Forall plain_word (mv_includes v);
  ok_libs : Forall plain_word (mv_libs v);
  ok_lengths : Forall (λ a, (length (make_text_line a) ≤ maxLine)%nat) (make_assignments v) }.

Lemma split_flags_plain cur w s : Forall plain_char w → split_flags None cur (w ++ s) = split_flags None (cur ++ w) s.
Proof.
  intros Hw. revert cur. induction Hw as [|c w (Hg & H1 & H2 & _) Hw IH]; intros cur; [by rewrite app_nil_r|].
  cbn [app split_flags]. unfold graphic in Hg. replace ((c =? 34) || (c =? 39)) with false by lia.
  replace ((c =? 32) || (c =? 9)) with false by lia. rewrite IH. by rewrite <- (assoc_L (++)).
Qed.

Lemma splitFlags_Join ws : Forall plain_word ws → splitFlags (strings_Join ws [32]) = ws.
Proof.
  unfold splitFlags. induction 1 as [|w ws [Hne Hw] Hws IH]; [done|]. destruct ws as [|w2 ws].
  - cbn [strings_Join]. rewrite <- (app_nil_r w) at 1. rewrite split_flags_plain by done. cbn. by destruct w.
  - change (strings_Join (w :: w2 :: ws) [32]) with (w ++ 32 :: strings_Join (w2 :: ws) [32]).
    rewrite split_flags_plain by done. change ([] ++ w) with w. cbn [split_flags Z.eqb orb]. rewrite IH. by destruct w.
Qed.

Lemma plain_word_word w : plain_word w → word w.
Proof. intros [Hne H]. split; [done|]. eapply Forall_impl; [exact H|]. by intros c [? _]. Qed.

Lemma Join_plain ws c : Forall plain_word ws → c ∈ strings_Join ws [32] → c = 32 ∨ plain_char c.
Proof.
  induction 1 as [|w ws [_ Hw] Hws IH]; [by intros ?%not_elem_of_nil|]. rewrite Forall_forall in Hw. destruct ws as [|w2 ws].
  - cbn [strings_Join]. intros Hc. right. by apply Hw.
  - change (strings_Join (w :: w2 :: ws) [32]) with (w ++ 32 :: strings_Join (w2 :: ws) [32]).
    rewrite elem_of_app, elem_of_cons. intros [Hc | [-> | Hc]]; [right; by apply Hw|by left|by apply IH].
Qed.

Lemma expandVars_Join ws : Forall plain_word ws → expandVars (strings_Join ws [32]) = strings_Join ws [32].
Proof.
  intros H. unfold expandVars. rewrite bool_decide_eq_false_2; [done|].
  intros Hc. destruct (Join_plain _ _ H Hc) as [Hc' | (_ & _ & _ & Hc')]; done.
Qed.

Lemma cut_at_app c a b : c ∉ a → cut_at c (a ++ c :: b) = Some (a, b).
Proof.
  intros Ha. unfold cut_at. rewrite span_all; [done| |by rewrite Z.eqb_refl].
  apply Forall_forall. intros x Hx. apply negb_true_iff, Z.eqb_neq. by intros ->.
Qed.

(** A line of the makefile is the assignment it was printed from. *)
Lemma assignment_line k ws : k ≠ [] → Forall (λ c, is_alpha c = true) k → Forall plain_word ws →
  assignment (make_text_line (k, ws)) = Some (k, strings_Join ws [32]).
Proof.
  intros Hne Hk Hws. unfold assignment, make_text_line. cbn [fst snd].
  assert (Forall graphic k) as Hg by (eapply Forall_impl; [exact Hk|]; unfold is_alpha, graphic; lia).
  assert (Forall word ws) as Hw by (eapply Forall_impl; [exact Hws|]; apply plain_word_word).
  pose proof (join_trimmed ws Hw) as Hj. set (v := strings_Join ws [32]) in *.
  assert (trimmed (k ++ bs "=" ++ v)) as Ht.
  { unfold trimmed in *. destruct k as [|c k]; [done|]. change (head ((c :: k) ++ bs "=" ++ v)) with (Some c).
    apply Forall_cons in Hg as [Hc _]. rewrite (assoc_L (++)), last_app.
    destruct (last v) as [b|] eqn:Eb; [|by rewrite last_snoc].
    destruct (head v) as [a|] eqn:Ea; [by destruct Hj|]. by destruct v. }
  rewrite (trimBytes_trimmed _ Ht). destruct k as [|c k]; [done|]. cbn [app].
  apply Forall_cons in Hk as [Hc Hk]. rewrite (proj2 (Z.eqb_neq c (ch "#"))) by (unfold is_alpha in Hc; lia).
  rewrite (app_comm_cons k). unfold split_behind. rewrite (cut_at_app (ch "=") (c :: k) v).
  - cbn [nilb fmap option_fmap option_map]. do 2 f_equal; [|by rewrite trimBytes_trimmed].
    apply trimBytes_trimmed, word_trimmed. by split.
  - assert (Forall (λ x, is_alpha x = true) (c :: k)) as Ha by (by constructor).
    rewrite Forall_forall in Ha. intros Hin%Ha. done.
Qed.

Lemma raw_lines_text ls : Forall (λ l, 10 ∉ l) ls → raw_lines (concat (map (λ l, l ++ [10]) ls)) = ls.
Proof.
  intros H. unfold raw_lines. assert (split_byte 10 (concat (map (λ l, l ++ [10]) ls)) = ls ++ [[]]) as ->.
  - induction H as [|l r Hl Hr IH]; [done|]. cbn [map concat]. rewrite <- (assoc_L (++)).
    change ([10] ++ ?x) with (10 :: x). by rewrite split_byte_app, IH.
  - rewrite last_snoc. cbn [default nilb]. apply removelast_last.
Qed.

Lemma drop_cr_id l : last l ≠ Some 13 → drop_cr l = l.
Proof.
  intros Hcr. unfold drop_cr, TrimSuffix. destruct (HasSuffix l [13]) eqn:E; [|done].
  unfold HasSuffix in E. apply HasPrefix_true in E as [s Hs].
  exfalso. apply Hcr. rewrite <- (rev_involutive l), Hs. cbn. by rewrite last_snoc.
Qed.

Lemma scan_text ls : Forall (λ l, 10 ∉ l ∧ last l ≠ Some 13 ∧ (length l ≤ maxLine)%nat) ls →
  scan_lines (concat (map (λ l, l ++ [10]) ls)) = (ls, false).
Proof.
  intros H. unfold scan_lines. rewrite raw_lines_text by (eapply Forall_impl; [exact H|]; by intros l [? _]).
  induction H as [|l r (_ & Hcr & Hlen) Hr IH]; [done|]. cbn [short_lines].
  rewrite (proj2 (Nat.ltb_ge _ _)) by done. rewrite IH. by rewrite drop_cr_id.
Qed.

(** Each kind of flag goes to its own list. *)
Lemma each_app f l1 l2 rc : each f (l1 ++ l2) rc = each f l2 (each f l1 rc).
Proof. apply fold_left_app. Qed.

Lemma each_includes f l rc : (∀ i rc, f (include_flag i) rc = add_include i rc) →
  each f (map include_flag l) rc = rc <| R_Include := R_Include rc ++ l |>.
Proof.
  intros Hf. revert rc. induction l as [|i l IH]; intros rc; [destruct rc; cbn; by rewrite app_nil_r|].
  cbn [map]. change (each f (include_flag i :: map include_flag l) rc) with (each f (map include_flag l) (f (include_flag i) rc)).
  rewrite Hf, IH. destruct rc. cbn. by rewrite <- (assoc_L (++)).
Qed.
Lemma each_libs f l rc : (∀ i rc, f (lib_flag i) rc = add_lib i rc) →
  each f (map lib_flag l) rc = rc <| R_Libs := R_Libs rc ++ l |>.
Proof.
  intros Hf. revert rc. induction l as [|i l IH]; intros rc; [destruct rc; cbn; by rewrite app_nil_r|].
  cbn [map]. change (each f (lib_flag i :: map lib_flag l) rc) with (each f (map lib_flag l) (f (lib_flag i) rc)).
  rewrite Hf, IH. destruct rc. cbn. by rewrite <- (assoc_L (++)).
Qed.
Lemma each_sources l rc : Forall (λ s, source_name s = true) l →
  each parse_source l rc = rc <| R_Source := R_Source rc ++ l |>.
Proof.
  intros H. revert rc. induction H as [|s l Hs Hl IH]; intros rc; [destruct rc; cbn; by rewrite app_nil_r|].
  change (each parse_source (s :: l) rc) with (each parse_source l (parse_source s rc)).
  rewrite IH. unfold parse_source. rewrite Hs. destruct rc. cbn. by rewrite <- (assoc_L (++)).
Qed.
Lemma each_flags l rc :
  Forall (λ f, HasPrefix f (bs "-l") = false ∧ HasPrefix f (bs "-I") = false ∧ HasPrefix f (bs "-D") = false) l →
  each parse_flag l rc = rc <| R_Flags := R_Flags rc ++ l |>.
Proof.
  intros H. revert rc. induction H as [|s l (H1 & H2 & H3) Hl IH]; intros rc; [destruct rc; cbn; by rewrite app_nil_r|].
  change (each parse_flag (s :: l) rc) with (each parse_flag l (parse_flag s rc)).
  rewrite IH. unfold parse_flag. rewrite H1, H2, H3. destruct rc. cbn. by rewrite <- (assoc_L (++)).
Qed.

Definition define_all (l : list (bytes * bytes)) (m : gmap bytes bytes) : gmap bytes bytes :=
  fold_left (λ m '(k, v), <[k := v]> m) l m.
Lemma each_defines l rc : Forall (λ d, ch "=" ∉ d.1) l →
  each parse_flag (map define_flag l) rc = rc <| R_Defines := define_all l (R_Defines rc) |>.
Proof.
  intros H. revert rc. induction H as [|[k v] l Hk Hl IH]; intros rc; [by destruct rc|]. cbn [map].
  change (each parse_flag (define_flag (k, v) :: map define_flag l) rc)
    with (each parse_flag (map define_flag l) (parseDefine (k ++ ch "=" :: v) rc)).
  assert (parseDefine (k ++ ch "=" :: v) rc = rc <| R_Defines := <[k := v]> (R_Defines rc) |>) as ->.
  { unfold parseDefine. cbn [split_n].
    pose proof (cut_at_app (ch "=") k v Hk) as Hc. unfold cut_at in Hc. cbn [fst] in Hc.
    destruct (span _ (k ++ _)) as [a [|x b]]; [done|]. by injection Hc as -> ->. }
  rewrite IH. by destruct rc.
Qed.

Lemma define_all_map l m : NoDup (map fst l) → (∀ k, k ∈ map fst l → m !! k = None) →
  map_to_list (define_all l m) ≡ₚ l ++ map_to_list m.
Proof.
  revert m. induction l as [|[k v] l IH]; intros m Hn Hm; [done|]. cbn [map fst] in Hn, Hm. apply NoDup_cons in Hn as [Hk Hn].
  change (define_all ((k, v) :: l) m) with (define_all l (<[k := v]> m)). rewrite IH; [|done|].
  - rewrite map_to_list_insert by (apply Hm; by left). cbn [app]. by rewrite Permutation_middle.
  - intros k' Hk'. rewrite lookup_insert_ne by (by intros ->). apply Hm. by right.
Qed.

(** What the five variables give. *)
Definition vars_config (v : make_vars) : ReverseConfig :=
  mk_ReverseConfig [] (mv_target v) [] (mv_sources v) (mv_target v) (mv_libs v) (mv_includes v) (mv_flags v)
    (define_all (mv_defines v) ∅).

(** The five variables. *)
Lemma parse_target val rc : parseVariable (bs "TARGET") val rc
  = let v := expandVars val in if nonempty v then rc <| R_Output := v |> <| R_Target := v |> else rc.
Proof. reflexivity. Qed.
Lemma parse_src val rc : parseVariable (bs "SRC") val rc = each parse_source (splitFlags (expandVars val)) rc.
Proof. reflexivity. Qed.
Lemma parse_cflags val rc : parseVariable (bs "CFLAGS") val rc = each parse_flag (splitFlags (expandVars val)) rc.
Proof. reflexivity. Qed.
Lemma parse_includes val rc : parseVariable (bs "INCLUDES") val rc = each parse_include (splitFlags (expandVars val)) rc.
Proof. reflexivity. Qed.
Lemma parse_libs val rc : parseVariable (bs "LIBS") val rc = each parse_lib (splitFlags (expandVars val)) rc.
Proof. reflexivity. Qed.

Section vars.
Variable v : make_vars.
Hypothesis Hok : vars_ok v.

Lemma define_flag_plain d : Forall plain_char (d.1 ++ d.2) → plain_word (define_flag d).
Proof.
  intros H. apply Forall_app in H as [H1 H2]. split; [done|]. unfold define_flag.
  repeat apply Forall_app_2; try done; repeat (constructor; [unfold plain_char, graphic; lia|]); constructor.
Qed.

Lemma assignments_plain : Forall (λ a, a.1 ≠ [] ∧ Forall (λ c, is_alpha c = true) a.1 ∧ Forall plain_word a.2) (make_assignments v).
Proof.
  destruct Hok as [Ht Hs Hd _ Hf Hi Hl _]. unfold make_assignments.
  assert (∀ c d w, plain_char c → plain_char d → plain_word w → plain_word (c :: d :: w)) as Hcons.
  { intros c d w Hc Hdc [_ Hw]. split; [done|]. constructor; [done|]. by constructor. }
  repeat (apply Forall_cons_2; [split; [done|]; split; [by repeat constructor|]; cbn [snd]|]); [..|constructor].
  - by constructor.
  - eapply Forall_impl; [exact Hs|]. by intros s [? _].
  - apply Forall_app_2.
    + apply Forall_map. eapply Forall_impl; [exact Hd|]. intros d [? _]. by apply define_flag_plain.
    + eapply Forall_impl; [exact Hf|]. by intros s [? _].
  - apply Forall_map. eapply Forall_impl; [exact Hi|]. intros i Hi'.
    apply Hcons; [unfold plain_char, graphic; lia..|done].
  - apply Forall_map. eapply Forall_impl; [exact Hl|]. intros i Hi'.
    apply Hcons; [unfold plain_char, graphic; lia..|done].
Qed.

Lemma text_lines : scan_lines (make_text v) = (map make_text_line (make_assignments v), false).
Proof.
  unfold make_text. rewrite <- (map_map make_text_line (λ l, l ++ [10])). apply scan_text, Forall_map.
  pose proof assignments_plain as Hp. pose proof (ok_lengths _ Hok) as Hlen. clear Hok. revert Hlen.
  induction Hp as [|[k ws] l (Hne & Hk & Hw) Hl IH]; [constructor|]. intros Hlen.
  apply Forall_cons in Hlen as [Hlen Hlens]. constructor; [|by apply IH]. unfold make_text_line in *. cbn [fst snd] in *.
  assert (∀ c, c ∈ k ++ bs "=" ++ strings_Join ws [32] → c ≠ 10 ∧ c ≠ 13) as Hc.
  { intros c. rewrite !elem_of_app, list_elem_of_singleton. rewrite Forall_forall in Hk. intros [Hin | [-> | Hin]]; [|done|].
    - apply Hk in Hin. unfold is_alpha in Hin. lia.
    - apply Join_plain in Hin as [-> | [Hg _]]; [done| |done]. unfold graphic in Hg. lia. }
  split; [by intros [? _]%Hc|]. split; [|done]. intros Hlast. apply last_Some_elem_of, Hc in Hlast. by destruct Hlast.
Qed.

Lemma text_config : assign_all (omap assignment (map make_text_line (make_assignments v))) zero_ReverseConfig = vars_config v.
Proof.
  pose proof assignments_plain as Hp.
  assert (omap assignment (map make_text_line (make_assignments v)) = map (λ a, (a.1, strings_Join a.2 [32])) (make_assignments v)) as ->.
  { induction Hp as [|[k ws] l (Hne & Hk & Hw) Hl IH]; [done|]. cbn [map omap list_omap].
    change (omap assignment (map make_text_line l)) with (omap assignment (map make_text_line l)) in IH.
    rewrite assignment_line by done. f_equal. exact IH. }
  assert (∀ a, a ∈ make_assignments v → expandVars (strings_Join a.2 [32]) = strings_Join a.2 [32]
    ∧ splitFlags (strings_Join a.2 [32]) = a.2) as Hv.
  { intros a Ha. rewrite Forall_forall in Hp. destruct (Hp a Ha) as (_ & _ & Hw).
    split; [by apply expandVars_Join|by apply splitFlags_Join]. }
  clear Hp. unfold make_assignments in *. cbn [map fst snd assign_all fold_left].
  pose proof (Hv _ ltac:(by left)) as [H1 _]. pose proof (Hv _ ltac:(right; by left)) as [H2 H2'].
  pose proof (Hv _ ltac:(do 2 right; by left)) as [H3 H3']. pose proof (Hv _ ltac:(do 3 right; by left)) as [H4 H4'].
  pose proof (Hv _ ltac:(do 4 right; by left)) as [H5 H5']. clear Hv. cbn [snd] in *.
  destruct Hok as [[Htne _] Hs Hd _ Hf Hi Hl _].
  rewrite parse_target, parse_src, parse_cflags, parse_includes, parse_libs.
  rewrite H1, H2, H3, H4, H5, H2', H3', H4', H5'. cbn [strings_Join].
  rewrite each_sources by (eapply Forall_impl; [exact Hs|]; by intros s [_ ?]).
  rewrite each_app, each_defines by (eapply Forall_impl; [exact Hd|]; by intros d [_ ?]).
  rewrite each_flags by (eapply Forall_impl; [exact Hf|]; by intros s [_ ?]).
  rewrite each_includes, each_libs by done. unfold vars_config.
  destruct (mv_target v) as [|c t]; [done|]. reflexivity.
Qed.
End vars.

(** A makefile that sets its variables to a target, sources, defines, flags,
    include directories and libraries gives a configuration of these, whatever
    the order in which Go goes through the defines. *)
Theorem ReverseMakefile_roundtrip range v : (∀ m, range m ≡ₚ map_to_list m) → vars_ok v →
  ∃ cfg, ReverseMakefile range (Some (make_text v)) = Ok cfg
    ∧ Output cfg = mv_target v ∧ Target cfg = mv_target v ∧ SourceFiles cfg = mv_sources v
    ∧ Libs cfg = mv_libs v ∧ Include cfg = mv_includes v ∧ Flags_Ld (Flags cfg) = map lib_flag (mv_libs v)
    ∧ Flags_Cc (Flags cfg) ≡ₚ map define_flag (mv_defines v) ++ mv_flags v ++ map include_flag (mv_includes v).
Proof.
  intros Hr Hok. rewrite ReverseMakefile_variables, (text_lines v Hok), (text_config v Hok).
  eexists. split; [done|]. destruct Hok as [[Ht _] _ _ Hk _ Hi Hl _].
  assert (∀ l, Forall plain_word l → List.filter nonempty l = l) as Hfilter.
  { induction 1 as [|w l [Hw _] Hf IH]; [done|]. cbn. rewrite IH. by destruct w. }
  unfold toConfig, vars_config. cbn. rewrite !Hfilter by done. split; [by destruct (mv_target v)|]. split_and!; [done..|].
  apply Permutation_app; [|done].
  assert (range (define_all (mv_defines v) ∅) ≡ₚ mv_defines v) as Hd.
  { rewrite Hr, define_all_map by (done || intros; apply lookup_empty). by rewrite map_to_list_empty, app_nil_r. }
  rewrite Hd. erewrite map_ext; [done|]. by intros [k x].
Qed.

Definition example_vars : make_vars :=
  mk_vars (bs "app") [bs "main.c"; bs "util.cpp"] [(bs "DEBUG", bs "1"); (bs "NAME", bs "a=b")] [bs "-O2"; bs "-Wall"]
    [bs "include"] [bs "m"].

Lemma ReverseMakefile_roundtrip_witness :
  ∃ cfg, ReverseMakefile map_to_list (Some (make_text example_vars)) = Ok cfg
    ∧ Output cfg = bs "app" ∧ SourceFiles cfg = [bs "main.c"; bs "util.cpp"].
Proof.
  destruct (ReverseMakefile_roundtrip map_to_list example_vars) as (cfg & H & Ho & _ & Hs & _).
  - done.
  - constructor; by apply (bool_decide_eq_true _).
  - exists cfg. split_and!; [exact H|exact Ho|exact Hs].
Defined.

(** The rules of a makefile are not read, and so is no source named there only. *)
Theorem rules_are_ignored :
  option_map SourceFiles (match ReverseMakefile map_to_list
     (Some (bs "app: main.c" ++ [10; 9] ++ bs "cc -o app main.c" ++ [10])) with Ok c => Some c | _ => None end) = Some [].
Proof. by vm_compute. Qed.
