(* ===== verification/DepSteps.v ===== *)
(** * Steps of a dependency build (builder/dep_build_steps.go, builder/autodeps.go)

    The steps of a dependency: their templates and conditions, their groups and
    stages, the sequence with try, catch and finally, and the parallel group,
    whose goroutines are a step relation. A command is a process that works on
    the files in pieces; the outputs of a step go through the action cache. In a
    parallel group each piece of a command, each look into the cache and each
    store is a step of its goroutine, and the steps of the goroutines
    interleave; the single file accesses of a look and of a store do not. *)
From stdpp Require Import list gmap strings sorting.
From S2P Require Import Prelude GoStrings GoPath ConfigTypes ConfigVars ConfigOps ConfigLoad ActionCache.

Abbreviation env_map := (gmap bytes bytes).

(** ** Conditions *)

(** Before and behind the first [sep]. *)
Fixpoint cut_str (sep s : bytes) : option (bytes * bytes) :=
  match cut_prefix sep s with
  | Some r => Some ([], r)
  | None => match s with
            | [] => None
            | c :: r => (λ '(a, b), (c :: a, b)) <$> cut_str sep r
            end
  end.

Definition trimQuotes (value : bytes) : bytes :=
  match value, last value with
  | a :: (_ :: _) as r, Some b => if ((a =? 39) && (b =? 39)) || ((a =? 34) && (b =? 34)) then removelast r else value
  | _, _ => value
  end.

(** ** Templates *)
Section steps.
Context (LookupEnv : bytes → option bytes).
Abbreviation ExpandString := (ExpandString LookupEnv).

Definition evalStepCondition (cond : bytes) (env : env_map) : bool :=
  if nilb cond then false
  else
    let expanded := TrimSpace (ExpandString cond env) in
    if nilb expanded then false
    else
      match cut_str (bs "!=") expanded with
      | Some (a, b) => negb (bool_decide (trimQuotes (TrimSpace a) = trimQuotes (TrimSpace b)))
      | None =>
          match cut_str (bs "==") expanded with
          | Some (a, b) => bool_decide (trimQuotes (TrimSpace a) = trimQuotes (TrimSpace b))
          | None =>
              let expanded := trimQuotes expanded in
              if bool_decide (expanded = bs "0") || EqualFold_ascii expanded (bs "false") then false
              else nonempty expanded
          end
      end.

Definition expandStepField (override base : bytes) (params : env_map) : bytes :=
  let value := if nonempty override then override else base in
  if nilb value then [] else ExpandString value params.
Definition expandStringSlice (override base : list bytes) (params : env_map) : list bytes :=
  map (λ v, ExpandString v params) (if nonempty override then override else base).
Definition resolveStage (override base : Z) : Z := if override =? 0 then base else override.

(** The parameters of a use of a template: its [with] over the environment. *)
Definition step_params (step : BuildStep) (env : env_map) : env_map :=
  ((λ v, ExpandString v env) <$> Step_With step) ∪ env.

Definition expandStepSet (step tmpl : BuildStep) (env : env_map) : BuildStep :=
  let params := step_params step env in
  mk_BuildStep (expandStepField (Step_If step) (Step_If tmpl) params)
    (expandStepField (Step_Elif step) (Step_Elif tmpl) params)
    (Step_Else step || Step_Else tmpl) (Step_Try step || Step_Try tmpl) (Step_Catch step || Step_Catch tmpl)
    (Step_Finally step || Step_Finally tmpl) (expandStepField (Step_Group step) (Step_Group tmpl) params)
    (resolveStage (Step_Stage step) (Step_Stage tmpl)) (Step_Parallel step || Step_Parallel tmpl) []
    (Step_With tmpl) (expandStepField (Step_Command step) (Step_Command tmpl) params)
    (expandStepField (Step_Run step) (Step_Run tmpl) params)
    (expandStringSlice (Step_Inputs step) (Step_Inputs tmpl) params)
    (expandStringSlice (Step_Outputs step) (Step_Outputs tmpl) params)
    (Step_Persistent step || Step_Persistent tmpl).

(** The template of a name: the last of that name. *)
Definition step_sets (sets : list StepSet) : gmap bytes BuildStep :=
  fold_left (λ m s, if nilb (Set_Name s) then m else <[Set_Name s := Set_BuildStep s]> m) sets ∅.

Fixpoint expand_steps (sets : gmap bytes BuildStep) (env : env_map) (steps : list BuildStep) : outcome (list BuildStep) :=
  match steps with
  | [] => Ok []
  | step :: r =>
      step ← (if nilb (Step_StepSet step) then Ok step
              else match sets !! Step_StepSet step with
                   | Some tmpl => Ok (expandStepSet step tmpl env)
                   | None => Err "undefined step_set"
                   end);
      rest ← expand_steps sets env r;
      Ok (step :: rest)
  end.
Definition expandCustomSteps (cfg : DepBuildConfig) (rawSteps : list BuildStep) (env : env_map) : outcome (list BuildStep) :=
  if nilb (Dep_StepSets cfg) then Ok rawSteps else expand_steps (step_sets (Dep_StepSets cfg)) env rawSteps.

(** ** Groups *)
Record stepGroup := mk_group {
  g_stage : Z; g_name : bytes; g_steps : list BuildStep; g_parallel : bool; g_first : nat }.

Definition group_name (idx : nat) (step : BuildStep) : bytes :=
  if nilb (Step_Group step) then bs "#" ++ Itoa (Z.of_nat idx) else Step_Group step.

(** The group of the key is extended, or made; groups are in the order in which
    they were made. *)
Fixpoint add_step (idx : nat) (step : BuildStep) (groups : list stepGroup) : list stepGroup :=
  match groups with
  | [] => [mk_group (Step_Stage step) (group_name idx step) [step] (Step_Parallel step) idx]
  | g :: r =>
      if bool_decide (g_stage g = Step_Stage step ∧ g_name g = group_name idx step) then
        mk_group (g_stage g) (g_name g) (g_steps g ++ [step]) (g_parallel g || Step_Parallel step) (g_first g) :: r
      else g :: add_step idx step r
  end.
Fixpoint make_groups (idx : nat) (steps : list BuildStep) (groups : list stepGroup) : list stepGroup :=
  match steps with
  | [] => groups
  | s :: r => make_groups (S idx) r (add_step idx s groups)
  end.

(** By stage, and within a stage by the first step. *)
Definition group_le (a b : stepGroup) : Prop :=
  g_stage a < g_stage b ∨ g_stage a = g_stage b ∧ (g_first a ≤ g_first b)%nat.
#[export] Instance group_le_dec a b : Decision (group_le a b).
Proof. unfold group_le. apply _. Defined.
Definition group_order (steps : list BuildStep) : list stepGroup := merge_sort group_le (make_groups 0 steps []).

(** ** The steps that a group runs *)
Definition condition (step : BuildStep) : bytes := if nilb (Step_If step) then Step_Elif step else Step_If step.

Definition groupHasMatch (group : list BuildStep) (env : env_map) : bool :=
  existsb (λ s, negb (Step_Else s) && evalStepCondition (condition s) env) group.

Fixpoint eligible_steps (before steps : list BuildStep) (env : env_map) : list BuildStep :=
  match steps with
  | [] => []
  | step :: r =>
      let skipped :=
        if Step_Else step then groupHasMatch before env
        else nonempty (condition step) && negb (evalStepCondition (condition step) env) in
      (if skipped then [] else [step]) ++ eligible_steps (before ++ [step]) r env
  end.

Definition groupHasControlFlow (steps : list BuildStep) : bool :=
  existsb (λ s, Step_Try s || Step_Catch s || Step_Finally s) steps.

(** ** Running steps *)

(** The cache with the files of the build. *)
Definition dep_state : Type := cache.

(** What an operation leaves: the state, and the error it returns. *)
Definition effect : Type := dep_state → dep_state * option string.

(** What a goroutine does: atomic changes of the shared state, after each of
    which what comes next may depend on the state it found, and the error in
    the end. *)
Inductive prog := Ret (e : option string) | Act (f : dep_state → dep_state) (next : dep_state → prog).

(** Without other goroutines. *)
Fixpoint exec (p : prog) : effect := λ s,
  match p with
  | Ret e => (s, e)
  | Act f next => exec (next s) (f s)
  end.

Fixpoint andThen (p : prog) (k : option string → prog) : prog :=
  match p with
  | Ret e => k e
  | Act f next => Act f (λ s, andThen (next s) k)
  end.

(** A running process: it changes files, sees files, and exits. *)
Inductive process :=
  | Exit (ok : bool)
  | Touch (f : gmap bytes bytes → gmap bytes bytes) (next : gmap bytes bytes → process).

Fixpoint process_prog (p : process) : prog :=
  match p with
  | Exit ok => Ret (if ok then None else Some "exit status"%string)
  | Touch f next =>
      Act (λ c, mk_cache (set_files (f (files (dsk c))) (dsk c)) (l1 c) (l2Data c)) (λ c, process_prog (next (files (dsk c))))
  end.

Context (blake3 keyed_blake3 : bytes → bytes) (EnsureDir : bytes → bool) (cacheEnv environ : list bytes).
Context (h : host).
(** The shell on a script in its environment. *)
Context (shell : env_map → bytes → process).

Record DepBuilder := mk_builder {
  depPath : bytes; depName : bytes; depCfg : option Config; globalAutoBuild : option AutoBuildConfig }.

(** The variables of the process, those of the global and of the own
    configuration over them. *)
Definition process_env : env_map :=
  fold_left (λ m pair, match span (λ c, negb (c =? ch "=")) pair with
                       | (_ :: _ as k, _ :: v) => <[k := v]> m
                       | _ => m
                       end) environ ∅.
Definition setupEnvironment (db : DepBuilder) : env_map :=
  let env := process_env in
  let env := match globalAutoBuild db with Some a => Auto_DefaultEnvironment a ∪ env | None => env end in
  match depCfg db with Some c => Dep_Environment (DepBuild c) ∪ env | None => env end.

(** A script through a temporary file: a zero byte is refused. *)
Definition run_script (env : env_map) (script : bytes) : prog :=
  if nilb script then Ret None
  else if bool_decide (0 ∈ script) then Ret (Some "invalid command"%string)
  else process_prog (shell env script).

Definition runCommandStep (command : bytes) (env : env_map) : prog := run_script env command.
Definition runScript (db : DepBuilder) (script : bytes) : prog := run_script (setupEnvironment db) script.

Fixpoint run_scripts (continue : bool) (db : DepBuilder) (scripts : list bytes) : prog :=
  match scripts with
  | [] => Ret None
  | x :: r => andThen (runScript db x) (λ e, match e with
                | None => run_scripts continue db r
                | Some e => if continue then run_scripts continue db r else Ret (Some e)
                end)
  end.
Definition runPreBuildScripts (db : DepBuilder) : prog :=
  match depCfg db with Some c => run_scripts false db (Dep_PreBuild (DepBuild c)) | None => Ret None end.
Definition runPostBuildScripts (db : DepBuilder) : prog :=
  match depCfg db with
  | Some c =>
      let continue := match globalAutoBuild db with Some a => Auto_ContinueOnError a | None => false end in
      run_scripts continue db (Dep_PostBuild (DepBuild c))
  | None => Ret None
  end.

Definition runInternalStep (db : DepBuilder) (name : bytes) : prog :=
  let n := TrimSpace (ToLower h name) in
  if bool_decide (n = bs "pre_build") then runPreBuildScripts db
  else if bool_decide (n = bs "post_build") then runPostBuildScripts db
  else Ret (Some "unsupported internal step"%string).

Definition cacheDir (db : DepBuilder) : bytes := filepath_Join (depPath db) (bs ".fz_cache").
Definition resolve_paths (db : DepBuilder) (paths : list bytes) (env : env_map) : list bytes :=
  map (λ p, filepath_Join (depPath db) (ExpandString p env)) paths.

(** The look into the cache, and the store, as changes of the state with a
    result. *)
Definition restore_step (cmdLine : bytes) (inputs outputs : list bytes) (dir : bytes) (c : dep_state) : outcome (cache * bool) :=
  restoreStepCache blake3 keyed_blake3 EnsureDir cacheEnv cmdLine inputs outputs dir c.
Definition store_step (cmdLine : bytes) (inputs outputs : list bytes) (env : env_map) (dir : bytes) (c : dep_state) : outcome cache :=
  storeStepCache blake3 keyed_blake3 cmdLine inputs outputs (map_to_list env) dir c.

Definition runStep (db : DepBuilder) (env : env_map) (step : BuildStep) : prog :=
  if nonempty (Step_Command step) then
    let cmdLine := ExpandString (Step_Command step) env in
    let inputs := resolve_paths db (Step_Inputs step) env in
    let outputs := resolve_paths db (Step_Outputs step) env in
    Act (λ c, match restore_step cmdLine inputs outputs (cacheDir db) c with Ok (c', _) => c' | _ => c end)
        (λ c, match restore_step cmdLine inputs outputs (cacheDir db) c with
              | Ok (_, true) => Ret None
              | Ok (_, false) =>
                  andThen (runCommandStep cmdLine env) (λ e, match e with
                    | Some e => Ret (Some e)
                    | None =>
                        Act (λ c, match store_step cmdLine inputs outputs env (cacheDir db) c with Ok c' => c' | _ => c end)
                            (λ c, match store_step cmdLine inputs outputs env (cacheDir db) c with
                                  | Ok _ => Ret None
                                  | _ => Ret (Some "store"%string)
                                  end)
                    end)
              | _ => Ret (Some "restore"%string)
              end)
  else if nonempty (Step_Run step) then runInternalStep db (Step_Run step)
  else Ret None.

(** ** Sequences *)
Section control.
(** A step, whatever it does. *)
Context (run : BuildStep → effect).

Fixpoint runSequentialSteps (steps : list BuildStep) : effect := λ s,
  match steps with
  | [] => (s, None)
  | x :: r => match run x s with
              | (s, None) => runSequentialSteps r s
              | (s, Some e) => (s, Some e)
              end
  end.

Fixpoint runCatchFinally (tryErr : option string) (steps : list BuildStep) : effect := λ s,
  match steps with
  | [] => (s, tryErr)
  | x :: r =>
      if Step_Catch x then
        match tryErr with
        | None => runCatchFinally tryErr r s
        | Some _ => match run x s with
                    | (s, Some e) => (s, Some e)
                    | (s, None) => runCatchFinally None r s
                    end
        end
      else if Step_Finally x then
        match run x s with
        | (s, Some e) => runCatchFinally (match tryErr with None => Some e | _ => tryErr end) r s
        | (s, None) => runCatchFinally tryErr r s
        end
      else (s, Some "invalid try/catch/finally block"%string)
  end.

Definition handler (s : BuildStep) : bool := Step_Catch s || Step_Finally s.
Definition in_body (s : BuildStep) : bool := negb (handler s || Step_Try s).

(** Every turn of the loop takes a step, so that their number of fuel is enough. *)
Fixpoint sequential (fuel : nat) (steps : list BuildStep) : effect := λ s,
  match fuel, steps with
  | _, [] | O, _ => (s, None)
  | S k, step :: r =>
      if Step_Try step then
        let '(body, rest) := span in_body r in
        let '(handlers, rest) := span handler rest in
        let '(s, err) := runSequentialSteps (step :: body) s in
        match runCatchFinally err handlers s with
        | (s, Some e) => (s, Some e)
        | (s, None) => sequential k rest s
        end
      else if Step_Catch step then (s, Some "catch without try"%string)
      else match run step s with
           | (s, Some e) => (s, Some e)
           | (s, None) => sequential k r s
           end
  end.
Definition runSequentialGroup (steps : list BuildStep) : effect := sequential (length steps) steps.

End control.

(** ** The parallel group *)
Section parallel_group.
(** What a step does. *)
Context (code : BuildStep → prog).

(** The steps not reached, the one that the caller does itself, the goroutines
    that run, the steps that ended with their errors, the first error of a
    goroutine, the state, and what the group returned. *)
Record par := mk_par {
  todo : list BuildStep; calling : option (BuildStep * prog); active : list (BuildStep * prog);
  ended : list (BuildStep * option string); firstErr : option string; world : dep_state;
  returned : option (option string) }.

(** At most [max] goroutines, each of which does one piece at a time; a step with
    [run] is done by the caller, whose return leaves the goroutines behind. *)
Inductive par_step (max : nat) : par → par → Prop :=
  | par_call x r a d e w : nonempty (Step_Run x) = true →
      par_step max (mk_par (x :: r) None a d e w None) (mk_par r (Some (x, code x)) a d e w None)
  | par_call_act t x f next a d e w :
      par_step max (mk_par t (Some (x, Act f next)) a d e w None) (mk_par t (Some (x, next w)) a d e (f w) None)
  | par_call_done t x a d e w :
      par_step max (mk_par t (Some (x, Ret None)) a d e w None) (mk_par t None a (d ++ [(x, None)]) e w None)
  | par_call_fails t x a d e w err :
      par_step max (mk_par t (Some (x, Ret (Some err))) a d e w None)
        (mk_par t None a (d ++ [(x, Some err)]) e w (Some (Some err)))
  | par_go x r a d e w : nonempty (Step_Run x) = false → (length a < max)%nat →
      par_step max (mk_par (x :: r) None a d e w None) (mk_par r None (a ++ [(x, code x)]) d e w None)
  | par_act t c a x f next b d e w ret :
      par_step max (mk_par t c (a ++ (x, Act f next) :: b) d e w ret) (mk_par t c (a ++ (x, next w) :: b) d e (f w) ret)
  | par_done t c a x b d e w err ret :
      par_step max (mk_par t c (a ++ (x, Ret err) :: b) d e w ret)
        (mk_par t c (a ++ b) (d ++ [(x, err)]) (match e with None => err | _ => e end) w ret)
  | par_return d e w : par_step max (mk_par [] None [] d e w None) (mk_par [] None [] d e w (Some e)).

(** ** All groups *)
Inductive group_runs (max : nat) (g : stepGroup) (env : env_map) (w : dep_state) : dep_state → option string → Prop :=
  | runs_parallel p : g_parallel g && negb (groupHasControlFlow (eligible_steps [] (g_steps g) env)) = true →
      rtc (par_step max) (mk_par (eligible_steps [] (g_steps g) env) None [] [] None w None) p →
      ∀ e, returned p = Some e → group_runs max g env w (world p) e
  | runs_sequential w' e : g_parallel g && negb (groupHasControlFlow (eligible_steps [] (g_steps g) env)) = false →
      runSequentialGroup (λ x, exec (code x)) (eligible_steps [] (g_steps g) env) w = (w', e) → group_runs max g env w w' e.

Inductive groups_run (max : nat) (env : env_map) : list stepGroup → dep_state → dep_state → option string → Prop :=
  | groups_nil w : groups_run max env [] w w None
  | groups_stop g r w w' e : group_runs max g env w w' (Some e) → groups_run max env (g :: r) w w' (Some e)
  | groups_next g r w w1 w' e : group_runs max g env w w1 None → groups_run max env r w1 w' e →
      groups_run max env (g :: r) w w' e.
End parallel_group.

Context (cwd : option bytes) (max : nat).

(** The environment of the steps. *)
Definition steps_env (db : DepBuilder) : env_map :=
  let env := <[bs "FZ_DEP_PATH" := depPath db]> (<[bs "FZ_DEP_NAME" := depName db]> (setupEnvironment db)) in
  match Abs cwd (depPath db) with Some a => <[bs "FZ_DEP_PATH" := a]> env | None => env end.

Inductive runCustomSteps (db : DepBuilder) (w : dep_state) : dep_state → option string → Prop :=
  | steps_none : match depCfg db with Some c => Dep_Steps (DepBuild c) = [] | None => True end → runCustomSteps db w w None
  | steps_bad c e : depCfg db = Some c → Dep_Steps (DepBuild c) ≠ [] →
      expandCustomSteps (DepBuild c) (Dep_Steps (DepBuild c)) (steps_env db) = Err e → runCustomSteps db w w (Some e)
  | steps_run c steps w' e : depCfg db = Some c → Dep_Steps (DepBuild c) ≠ [] →
      expandCustomSteps (DepBuild c) (Dep_Steps (DepBuild c)) (steps_env db) = Ok steps →
      groups_run (runStep db (steps_env db)) max (steps_env db) (group_order steps) w w' e → runCustomSteps db w w' e.
End steps.

(** ** Groups and stages *)

(** The stage and the name of the group of a step at its index. *)
Definition step_key (ix : nat * BuildStep) : Z * bytes := (Step_Stage ix.2, group_name ix.1 ix.2).
Definition group_key (g : stepGroup) : Z * bytes := (g_stage g, g_name g).
Definition indexed (n : nat) (steps : list BuildStep) : list (nat * BuildStep) := zip (seq n (length steps)) steps.

(** The steps of a key, in their order. *)
Definition steps_of (key : Z * bytes) (l : list (nat * BuildStep)) : list BuildStep :=
  map snd (filter (λ ix, step_key ix = key) l).

(** Groups of the steps of a list: one per key, each with the steps of its key
    and the index of the first. *)
Definition groups_of (l : list (nat * BuildStep)) (groups : list stepGroup) : Prop :=
  NoDup (map group_key groups)
  ∧ (∀ g, g ∈ groups → g_steps g ≠ [] ∧ g_steps g = steps_of (group_key g) l
       ∧ ∃ x, (g_first g, x) ∈ l ∧ step_key (g_first g, x) = group_key g)
  ∧ ∀ ix, ix ∈ l → step_key ix ∈ map group_key groups.

Lemma add_step_keys idx step groups :
  map group_key (add_step idx step groups)
  = if decide (step_key (idx, step) ∈ map group_key groups) then map group_key groups
    else map group_key groups ++ [step_key (idx, step)].
Proof.
  induction groups as [|g r IH]; [done|]. cbn [add_step]. case_bool_decide as Hk.
  - destruct Hk as [H1 H2]. cbn [map]. rewrite decide_True; [done|]. apply elem_of_cons. left.
    unfold step_key, group_key. cbn. by rewrite H1, H2.
  - cbn [map]. rewrite IH. assert (step_key (idx, step) ≠ group_key g) as Hne.
    { unfold step_key, group_key. cbn. intros [= H1 H2]. apply Hk. by rewrite H1, H2. }
    destruct (decide (step_key (idx, step) ∈ map group_key r)) as [Hin|Hin].
    + rewrite decide_True; [done|]. by right.
    + rewrite decide_False; [done|]. apply not_elem_of_cons. by split.
Qed.

Lemma steps_of_app key l x : steps_of key (l ++ [x]) = steps_of key l ++ (if decide (step_key x = key) then [x.2] else []).
Proof.
  unfold steps_of. rewrite filter_app, map_app. f_equal. rewrite filter_cons. by destruct (decide _).
Qed.

Lemma add_step_elem idx step groups g' : NoDup (map group_key groups) → g' ∈ add_step idx step groups →
  g' ∈ groups ∧ group_key g' ≠ step_key (idx, step)
  ∨ (group_key g' = step_key (idx, step)
     ∧ ((∃ g, g ∈ groups ∧ group_key g = group_key g' ∧ g_steps g' = g_steps g ++ [step] ∧ g_first g' = g_first g)
        ∨ step_key (idx, step) ∉ map group_key groups ∧ g_steps g' = [step] ∧ g_first g' = idx)).
Proof.
  induction groups as [|g r IH]; intros Hn.
  - cbn [add_step]. intros ->%list_elem_of_singleton. right. split; [done|]. right. split; [apply not_elem_of_nil|done].
  - cbn [map] in Hn. apply NoDup_cons in Hn as [Hg Hn]. cbn [add_step]. case_bool_decide as Hk.
    + assert (group_key g = step_key (idx, step)) as Hkey by (unfold group_key, step_key; cbn; by destruct Hk as [-> ->]).
      intros [-> | Hin]%elem_of_cons.
      * right. split; [done|]. left. exists g. split; [by left|done].
      * left. split; [by right|]. intros H. apply Hg. rewrite Hkey, <- H. apply list_elem_of_fmap. by exists g'.
    + assert (group_key g ≠ step_key (idx, step)) as Hkey.
      { unfold group_key, step_key. cbn. intros [= H1 H2]. apply Hk. by rewrite H1, H2. }
      intros [-> | Hin]%elem_of_cons; [left; split; [by left|done]|].
      destruct (IH Hn Hin) as [[H1 H2] | [H1 [(g0 & H2 & H3) | (H2 & H3)]]].
      * left. split; [by right|done].
      * right. split; [done|]. left. exists g0. split; [by right|done].
      * right. split; [done|]. right. split; [|done]. cbn [map]. by apply not_elem_of_cons.
Qed.

Lemma add_step_groups l idx step groups :
  groups_of l groups → (∀ ix, ix ∈ l → (ix.1 < idx)%nat) → groups_of (l ++ [(idx, step)]) (add_step idx step groups).
Proof.
  intros (Hn & Hg & Hk) Hl. unfold groups_of. split_and!.
  - rewrite add_step_keys. destruct (decide _) as [|Hin]; [done|]. apply NoDup_app. split; [done|].
    split; [|apply NoDup_singleton]. intros k Hk' ->%list_elem_of_singleton. done.
  - intros g' Hg'. destruct (add_step_elem _ _ _ _ Hn Hg') as [[H1 H2] | [H1 [(g & H2 & H3 & H4 & H5) | (H2 & H3 & H4)]]].
    + destruct (Hg g' H1) as (Ha & Hb & x & Hx & Hx'). split; [done|]. split.
      * rewrite steps_of_app, decide_False by done. by rewrite app_nil_r.
      * exists x. split; [|done]. apply elem_of_app. by left.
    + destruct (Hg g H2) as (Ha & Hb & x & Hx & Hx'). rewrite H4. split; [by destruct (g_steps g)|]. split.
      * rewrite steps_of_app, decide_True by done. by rewrite Hb, H3.
      * exists x. rewrite H5. split; [apply elem_of_app; by left|]. by rewrite Hx', H3.
    + rewrite H3, H4. split; [done|]. split.
      * rewrite steps_of_app, decide_True by done.
        assert (steps_of (group_key g') l = []) as ->; [|done]. unfold steps_of. rewrite filter_none; [done|].
        apply Forall_forall. intros ix Hix Heq. apply H2. rewrite <- H1, <- Heq. by apply Hk.
      * exists step. split; [apply elem_of_app; right; by left|done].
  - intros ix [Hix | ->%list_elem_of_singleton]%elem_of_app; rewrite add_step_keys; destruct (decide _) as [|Hin].
    + by apply Hk.
    + apply elem_of_app. left. by apply Hk.
    + done.
    + apply elem_of_app. right. by left.
Qed.

Lemma make_groups_spec l idx steps groups :
  groups_of l groups → (∀ ix, ix ∈ l → (ix.1 < idx)%nat) → groups_of (l ++ indexed idx steps) (make_groups idx steps groups).
Proof.
  revert l idx groups. induction steps as [|s r IH]; intros l idx groups Hg Hl.
  - unfold indexed. cbn. by rewrite app_nil_r.
  - change (indexed idx (s :: r)) with ([(idx, s)] ++ indexed (S idx) r). rewrite (assoc_L (++)). cbn [make_groups]. apply IH.
    + by apply add_step_groups.
    + intros ix [Hix%Hl | ->%list_elem_of_singleton]%elem_of_app; cbn; lia.
Qed.

Lemma steps_of_cons key x l : steps_of key (x :: l) = (if decide (step_key x = key) then [x.2] else []) ++ steps_of key l.
Proof. unfold steps_of. rewrite filter_cons. by destruct (decide _). Qed.

Lemma keys_split keys x l : NoDup keys → step_key x ∈ keys →
  concat (map (λ k, steps_of k (x :: l)) keys) ≡ₚ x.2 :: concat (map (λ k, steps_of k l) keys).
Proof.
  induction 1 as [|k keys Hk Hn IH]; [by intros ?%not_elem_of_nil|]. cbn [map concat]. rewrite steps_of_cons.
  destruct (decide (step_key x = k)) as [<-|Hne].
  - intros _. cbn [app]. f_equiv. f_equiv. clear IH Hn. revert Hk.
    induction keys as [|k' keys IH]; intros Hk; [done|]. apply not_elem_of_cons in Hk as [Hne Hk].
    cbn [map concat]. rewrite steps_of_cons, decide_False by done. cbn [app]. f_equiv. by apply IH.
  - intros [Heq|Hin]%elem_of_cons; [congruence|]. cbn [app]. rewrite (IH Hin). by rewrite Permutation_middle.
Qed.

Lemma groups_concat l gs : groups_of l gs → concat (map g_steps gs) ≡ₚ map snd l.
Proof.
  intros (Hn & Hg & Hk).
  assert (concat (map g_steps gs) = concat (map (λ k, steps_of k l) (map group_key gs))) as ->.
  { rewrite map_map. f_equal. apply map_ext_in. intros g Hin%list_elem_of_In. by apply Hg. }
  clear Hg. revert Hk. generalize (map group_key gs) Hn. clear gs Hn. intros keys Hn. induction l as [|x l IH]; intros Hk.
  - induction keys as [|k keys IH]; [done|]. apply NoDup_cons in Hn as [_ Hn]. cbn. apply IH; [done|]. intros ? ?%not_elem_of_nil. done.
  - rewrite keys_split; [|done|apply Hk; by left]. cbn [map]. f_equiv. apply IH. intros ix Hix. apply Hk. by right.
Qed.

#[export] Instance group_le_trans : Transitive group_le.
Proof. unfold group_le. intros a b c. lia. Qed.
#[export] Instance group_le_total : Total group_le.
Proof. unfold group_le. intros a b. lia. Qed.

(** The groups run by stage, and within a stage in the order of their first
    steps; every step is in exactly one group, the steps of a group are those
    of its stage and name in the order of the configuration, and a step
    without a group is alone unless another one is named after its index. *)
Theorem group_order_stages steps :
  groups_of (indexed 0 steps) (group_order steps) ∧ StronglySorted group_le (group_order steps)
  ∧ concat (map g_steps (group_order steps)) ≡ₚ steps.
Proof.
  assert (groups_of (indexed 0 steps) (group_order steps)) as Hg.
  { assert (groups_of (indexed 0 steps) (make_groups 0 steps [])) as (H1 & H2 & H3).
    { apply (make_groups_spec []); [|by intros ? ?%not_elem_of_nil]. split_and!; [constructor|by intros ? ?%not_elem_of_nil..]. }
    unfold group_order. pose proof (merge_sort_Permutation group_le (make_groups 0 steps [])) as Hp.
    assert (map group_key (merge_sort group_le (make_groups 0 steps [])) ≡ₚ map group_key (make_groups 0 steps [])) as Hm
      by (by apply Permutation_map).
    split_and!.
    - by rewrite Hm.
    - intros g. rewrite Hp. apply H2.
    - intros ix Hix. rewrite Hm. by apply H3. }
  split_and!; [done|apply StronglySorted_merge_sort; apply _|]. rewrite (groups_concat _ _ Hg).
  change (map snd (indexed 0 steps)) with (snd <$> zip (seq 0 (length steps)) steps). rewrite (snd_zip (seq 0 (length steps)) steps); [done|]. by rewrite length_seq.
Qed.

(** ** The parallel group *)
Section parallel.
Context (code : BuildStep → prog) (max : nat).

(** *** What a group does, step by step *)
Definition par_init (steps : list BuildStep) (w : dep_state) : par := mk_par steps None [] [] None w None.

(** What is done or under way, in the order of the configuration. *)
Definition pending (p : par) : list (BuildStep * prog) :=
  active p ++ match calling p with Some c => [c] | None => [] end ++ map (λ x, (x, code x)) (todo p).

Variables (steps : list BuildStep) (w0 : dep_state).

Definition par_inv (p : par) : Prop :=
  (ended p).*1 ++ (pending p).*1 ≡ₚ steps ∧ (length (active p) ≤ max)%nat
  ∧ (returned p = None → firstErr p = None → Forall (λ d, d.2 = None) (ended p))
  ∧ (∀ e, returned p = Some e → calling p = None ∧ (active p = [] ∧ todo p = [] ∧ (e = None → Forall (λ d, d.2 = None) (ended p))
      ∨ ∃ x err, e = Some err ∧ nonempty (Step_Run x) = true ∧ (x, Some err) ∈ ended p))
  ∧ (∀ x q, calling p = Some (x, q) → nonempty (Step_Run x) = true).

Lemma par_inv_reachable p : rtc (par_step code max) (par_init steps w0) p → par_inv p.
Proof.
  revert p. apply (rtc_ind_r (R := par_step code max) par_inv (par_init steps w0)).
  { unfold par_inv, pending. cbn. split_and!; try done; [|lia]. by rewrite <- list_fmap_compose, list_fmap_id. }
  intros p p' _ Hs (Hp & Hm & He & Hr & Hc). unfold par_inv, pending in *.
  destruct Hs as [x r a d e w Hx|t x f next a d e w|t x a d e w|t x a d e w err|x r a d e w Hx Hl|t c a x f next b d e w ret|t c a x b d e w err ret|d e w];
    cbn [todo calling active ended firstErr world returned map app] in *; rewrite ?fmap_app in *; cbn [fmap list_fmap fst] in *;
    split_and!; try done; rewrite ?length_app in *; cbn [length] in *; try lia.
  - by intros y q [= <- _].
  - intros y q [= <- _]. by apply (Hc x (Act f next)).
  - rewrite <- Hp, <- !(assoc_L (++)). cbn [app]. f_equiv. apply Permutation_middle.
  - intros _ E. apply Forall_app_2; [by apply He|by constructor].
  - rewrite <- Hp, <- !(assoc_L (++)). cbn [app]. f_equiv. apply Permutation_middle.
  - intros y [= <-]. split; [done|]. right. exists x, err. split; [done|]. split; [by apply (Hc x (Ret (Some err)))|].
    apply elem_of_app. right. by left.
  - by rewrite <- Hp, <- !(assoc_L (++)).
  - intros y E. destruct (Hr y E) as [? [(Ha & _)|?]]; [by destruct a|]. split; [done|]. by right.
  - rewrite <- Hp, <- !(assoc_L (++)). cbn [app]. f_equiv. apply Permutation_middle.
  - intros E1 E2. destruct e; [done|]. subst err. apply Forall_app_2; [by apply He|by constructor].
  - intros y E. destruct (Hr y E) as [? [(Ha & _)|(z & er & ? & ? & ?)]]; [by destruct a|]. split; [done|]. right.
    exists z, er. split_and!; try done. apply elem_of_app. by left.
  - intros y [= <-]. split; [done|]. left. split_and!; try done. intros ->. by apply He.
Qed.

(** *** Every run ends *)

(** The goroutines alone, each doing its pieces. *)
Inductive crew_step : list (BuildStep * prog) → list (BuildStep * prog) → Prop :=
  | crew_act a x f next b w : crew_step (a ++ (x, Act f next) :: b) (a ++ (x, next w) :: b)
  | crew_done a x e b : crew_step (a ++ (x, Ret e) :: b) (a ++ b).

Lemma crew_step_cons x q l l' : crew_step ((x, q) :: l) l' →
  (∃ f next w, q = Act f next ∧ l' = (x, next w) :: l) ∨ (∃ e, q = Ret e ∧ l' = l) ∨ ∃ l2, crew_step l l2 ∧ l' = (x, q) :: l2.
Proof.
  intros H. remember ((x, q) :: l) as l0 eqn:E. destruct H as [a y f next b w|a y e b]; destruct a as [|z a]; cbn in E; injection E as -> E.
  - left. subst. by exists f, next, w.
  - right. right. subst. eexists. split; [apply (crew_act a)|done].
  - right. left. subst. by exists e.
  - right. right. subst. eexists. split; [apply (crew_done a)|done].
Qed.

Lemma crew_acc l : Acc (flip crew_step) l.
Proof.
  induction l as [|[x q] l Hl].
  { constructor. intros l H. exfalso. unfold flip in H. remember [] as l0 eqn:E. destruct H as [a ? ? ? ? ?|a ? ? ?]; by destruct a. }
  revert q. induction Hl as [l Hacc IHl]. intros q. induction q as [e|f next IHq]; constructor;
    intros l' [(f' & next' & w & E & ->)|[(e' & E & ->)|(l2 & H2 & ->)]]%crew_step_cons.
  - discriminate E.
  - by constructor.
  - by apply IHl.
  - injection E as <- <-. apply IHq.
  - discriminate E.
  - by apply IHl.
Qed.

Definition crew (c : option (BuildStep * prog)) (a : list (BuildStep * prog)) : list (BuildStep * prog) :=
  match c with Some x => x :: a | None => a end.

Lemma crew_act_in c a x f next b w : crew_step (crew c (a ++ (x, Act f next) :: b)) (crew c (a ++ (x, next w) :: b)).
Proof. destruct c as [y|]; [apply (crew_act (y :: a))|apply crew_act]. Qed.
Lemma crew_done_in c a x e b : crew_step (crew c (a ++ (x, Ret e) :: b)) (crew c (a ++ b)).
Proof. destruct c as [y|]; [apply (crew_done (y :: a))|apply crew_done]. Qed.

Lemma par_acc_returned l : Acc (flip crew_step) l → ∀ t c a d e w r, crew c a = l → Acc (flip (par_step code max)) (mk_par t c a d e w (Some r)).
Proof.
  induction 1 as [l _ IH]. intros t c a d e w r <-. constructor. intros p Hs. inversion Hs; subst.
  - eapply IH; [apply crew_act_in|done].
  - eapply IH; [apply crew_done_in|done].
Qed.

Lemma par_acc p : Acc (flip (par_step code max)) p.
Proof.
  destruct p as [t c a d e w [r|]]; [by eapply par_acc_returned; [apply crew_acc|]|].
  revert c a d e w. induction t as [|x t IHt]; intros c a d e w.
  - remember (crew c a) as l eqn:El. revert c a d e w El. induction (crew_acc l) as [l _ IH]. intros c a d e w ->.
    constructor. intros p Hs. inversion Hs; subst.
    + eapply IH; [|done]. apply (crew_act []).
    + eapply IH; [|done]. apply (crew_done []).
    + eapply par_acc_returned; [apply crew_acc|done].
    + eapply IH; [|done]. apply crew_act_in.
    + eapply IH; [|done]. apply crew_done_in.
    + eapply par_acc_returned; [apply crew_acc|done].
  - remember (crew c a) as l eqn:El. revert c a d e w El. induction (crew_acc l) as [l _ IH]. intros c a d e w ->.
    constructor. intros p Hs. inversion Hs; subst.
    + apply IHt.
    + eapply IH; [|done]. apply (crew_act []).
    + eapply IH; [|done]. apply (crew_done []).
    + eapply par_acc_returned; [apply crew_acc|done].
    + apply IHt.
    + eapply IH; [|done]. apply crew_act_in.
    + eapply IH; [|done]. apply crew_done_in.
Qed.

Lemma par_stuck p : (0 < max)%nat → (∀ q, ¬ par_step code max p q) → returned p ≠ None ∧ active p = [].
Proof.
  intros Hmax Hstuck. destruct p as [t c a d e w ret]. cbn. destruct a as [|[x [er|f next]] a].
  - split; [|done]. intros ->. destruct c as [[y [[er|]|f next]]|].
    + by apply (Hstuck _ (par_call_fails _ _ _ _ _ _ _ _ _)).
    + by apply (Hstuck _ (par_call_done _ _ _ _ _ _ _ _)).
    + by apply (Hstuck _ (par_call_act _ _ _ _ _ _ _ _ _ _)).
    + destruct t as [|y t]; [by apply (Hstuck _ (par_return _ _ _ _ _))|].
      destruct (nonempty (Step_Run y)) eqn:Ey; [by apply (Hstuck _ (par_call _ _ _ _ _ _ _ _ Ey))|].
      by apply (Hstuck _ (par_go _ _ y t [] d e w Ey Hmax)).
  - exfalso. exact (Hstuck _ (par_done _ _ t c [] x a d e w er ret)).
  - exfalso. exact (Hstuck _ (par_act _ _ t c [] x f next a d e w ret)).
Qed.

(** *** Steps that do not touch each other *)
Definition commute (f g : dep_state → dep_state) : Prop := ∀ c, f (g c) = g (f c).

(** What a program can still become. *)
Inductive subprog : prog → prog → Prop :=
  | sub_refl p : subprog p p
  | sub_next p f next c : subprog p (next c) → subprog p (Act f next).

(** The changes of the one and of the other can be exchanged, and what the one
    does next does not depend on the changes of the other. *)
Definition apart (p q : prog) : Prop := ∀ f next g next',
  subprog (Act f next) p → subprog (Act g next') q → commute f g ∧ ∀ c, next (g c) = next c.
Definition pairwise_apart (l : list BuildStep) : Prop := ∀ i j x y,
  l !! i = Some x → l !! j = Some y → i ≠ j → apart (code x) (code y).

Lemma subprog_act p q f next c : subprog p q → q = next c → subprog p (Act f next).
Proof. intros H ->. by apply (sub_next _ _ _ c). Qed.

Lemma apart_sub_l p p' q : apart p q → (∀ r, subprog r p' → subprog r p) → apart p' q.
Proof. intros H Hs f next g next' H1 H2. by apply (H f next g next'); [apply Hs|]. Qed.
Lemma apart_sub_r p q q' : apart p q → (∀ r, subprog r q' → subprog r q) → apart p q'.
Proof. intros H Hs f next g next' H1 H2. by apply (H f next g next'); [|apply Hs]. Qed.

(** A change that is apart from a program can be done before it or after it. *)
Lemma exec_past q g next' c : apart q (Act g next') → exec q (g c) = (g (exec q c).1, (exec q c).2).
Proof.
  revert c. induction q as [e|f next IH]; intros c H; [done|]. cbn [exec].
  destruct (H f next g next') as [Hc Hn]; [constructor..|]. rewrite Hn, Hc. apply IH.
  eapply apart_sub_l; [done|]. intros r Hr. by apply (sub_next _ _ _ c).
Qed.
Lemma next_past q f next c : apart (Act f next) q → next (exec q c).1 = next c.
Proof.
  revert c. induction q as [e|g next' IH]; intros c H; [done|]. cbn [exec].
  destruct (H f next g next') as [_ Hn]; [constructor..|]. rewrite IH, Hn; [done|].
  eapply apart_sub_r; [done|]. intros r Hr. by apply (sub_next _ _ _ c).
Qed.

(** Steps one after the other, failures ignored. *)
Fixpoint serial (l : list (BuildStep * prog)) (w : dep_state) : dep_state * list (BuildStep * option string) :=
  match l with
  | [] => (w, [])
  | (x, q) :: r => let '(w, e) := exec q w in let '(w, es) := serial r w in (w, (x, e) :: es)
  end.

Fixpoint all_apart (l : list (BuildStep * prog)) : Prop :=
  match l with
  | [] => True
  | x :: r => Forall (λ y, apart x.2 y.2 ∧ apart y.2 x.2) r ∧ all_apart r
  end.

Lemma all_apart_replace a x p q b : all_apart (a ++ (x, p) :: b) → (∀ r, subprog r q → subprog r p) → all_apart (a ++ (x, q) :: b).
Proof.
  intros H Hs. induction a as [|y a IH]; cbn [app all_apart] in *.
  - destruct H as [H ?]. split; [|done]. eapply Forall_impl; [exact H|]. intros z [H1 H2]. split; [by eapply apart_sub_l|by eapply apart_sub_r].
  - destruct H as [H Ha]. split; [|by apply IH]. apply Forall_app in H as [H1 H2]. apply Forall_cons in H2 as [[H2 H3] H4].
    apply Forall_app. split; [done|]. apply Forall_cons. split; [|done]. split; [by eapply apart_sub_r|by eapply apart_sub_l].
Qed.
Lemma all_apart_remove a x b : all_apart (a ++ x :: b) → all_apart (a ++ b).
Proof.
  induction a as [|y a IH]; cbn [app all_apart]; [tauto|]. intros [H Ha]. split; [|by apply IH].
  apply Forall_app in H as [H1 H2]. apply Forall_cons in H2 as [_ H2]. by apply Forall_app.
Qed.
Lemma all_apart_before a x p b : all_apart (a ++ (x, p) :: b) → Forall (λ y, apart y.2 p ∧ apart p y.2) a.
Proof.
  induction a as [|y a IH]; cbn [app all_apart]; [constructor|]. intros [H Ha]. constructor; [|by apply IH].
  apply Forall_app in H as [_ H]. by apply Forall_cons in H as [H _].
Qed.

Lemma serial_act a x f next b w : all_apart (a ++ (x, Act f next) :: b) →
  serial (a ++ (x, Act f next) :: b) w = serial (a ++ (x, next w) :: b) (f w).
Proof.
  intros H. apply all_apart_before in H. revert w. induction a as [|[y q] a IH]; intros w; [done|].
  apply Forall_cons in H as [[H1 H2] H]. cbn [app serial]. rewrite (exec_past q f next w) by done.
  destruct (exec q w) as [w1 e] eqn:E. cbn [fst snd]. rewrite (IH H w1).
  assert (next w1 = next w) as -> by (rewrite <- (next_past q f next w), E; done). done.
Qed.
Lemma serial_done a x e b w : (serial (a ++ (x, Ret e) :: b) w).1 = (serial (a ++ b) w).1
  ∧ (serial (a ++ (x, Ret e) :: b) w).2 ≡ₚ (x, e) :: (serial (a ++ b) w).2.
Proof.
  revert w. induction a as [|[y q] a IH]; intros w; cbn [app serial exec].
  - by destruct (serial b w).
  - destruct (exec q w) as [w1 e1]. destruct (IH w1) as [H1 H2].
    destruct (serial (a ++ (x, Ret e) :: b) w1), (serial (a ++ b) w1). cbn in *. split; [done|]. rewrite H2. apply Permutation_swap.
Qed.

Definition start : list (BuildStep * prog) := map (λ x, (x, code x)) steps.

Lemma start_apart : pairwise_apart steps → all_apart start.
Proof.
  unfold start, pairwise_apart. clear. induction steps as [|x l IH]; intros H; [done|]. cbn [map all_apart]. split.
  - apply Forall_forall. intros y Hy. apply list_elem_of_fmap in Hy as (z & -> & [i Hi]%list_elem_of_lookup). cbn.
    split; [by apply (H 0%nat (S i))|by apply (H (S i) 0%nat)].
  - apply IH. intros i j y z Hi Hj Hne. apply (H (S i) (S j)); [done|done|lia].
Qed.

(** What is left gives, one after the other, what all steps give. *)
Definition serial_inv (p : par) : Prop :=
  all_apart (pending p) ∧ (serial (pending p) (world p)).1 = (serial start w0).1
  ∧ ended p ++ (serial (pending p) (world p)).2 ≡ₚ (serial start w0).2.

Lemma serial_inv_act p p' a x f next b : serial_inv p → pending p = a ++ (x, Act f next) :: b →
  pending p' = a ++ (x, next (world p)) :: b → world p' = f (world p) → ended p' = ended p → serial_inv p'.
Proof.
  intros (Ha & H1 & H2) E E' Ew Ed. unfold serial_inv. rewrite E', Ew, Ed. rewrite E in *. rewrite <- serial_act by done.
  split; [|done]. eapply all_apart_replace; [done|]. intros r Hr. by apply (sub_next _ _ _ (world p)).
Qed.
Lemma serial_inv_done p p' a x e b : serial_inv p → pending p = a ++ (x, Ret e) :: b → pending p' = a ++ b →
  world p' = world p → ended p' = ended p ++ [(x, e)] → serial_inv p'.
Proof.
  intros (Ha & H1 & H2) E E' Ew Ed. unfold serial_inv. rewrite E', Ew, Ed. rewrite E in *.
  destruct (serial_done a x e b (world p)) as [H3 H4]. rewrite <- H3. split; [by eapply all_apart_remove|]. split; [done|].
  rewrite <- H2, H4, <- (assoc_L (++)). done.
Qed.

Lemma serial_inv_reachable p : pairwise_apart steps → rtc (par_step code max) (par_init steps w0) p → serial_inv p.
Proof.
  intros Hap. revert p. apply (rtc_ind_r (R := par_step code max) serial_inv (par_init steps w0)).
  { split; [by apply start_apart|done]. }
  intros p p' _ Hs I.
  destruct Hs as [x r a d e w Hx|t x f next a d e w|t x a d e w|t x a d e w err|x r a d e w Hx Hl|t c a x f next b d e w ret|t c a x b d e w err ret|d e w].
  - exact I.
  - by eapply (serial_inv_act _ _ a x f next (map (λ x, (x, code x)) t)).
  - by eapply (serial_inv_done _ _ a x None (map (λ x, (x, code x)) t)).
  - by eapply (serial_inv_done _ _ a x (Some err) (map (λ x, (x, code x)) t)).
  - unfold serial_inv, pending in *. cbn [active calling todo world ended map app] in *. by rewrite <- (assoc_L (++)).
  - eapply (serial_inv_act _ _ a x f next (b ++ _)); [done|unfold pending; cbn; by rewrite <- (assoc_L (++))..|done|done].
  - eapply (serial_inv_done _ _ a x err (b ++ _)); [done|unfold pending; cbn; by rewrite <- (assoc_L (++))..|done|done].
  - exact I.
Qed.

Lemma serial_ok l w : Forall (λ d, d.2 = None) (serial (map (λ x, (x, code x)) l) w).2 →
  runSequentialSteps (λ x, exec (code x)) l w = ((serial (map (λ x, (x, code x)) l) w).1, None).
Proof.
  revert w. induction l as [|x l IH]; intros w; [done|]. cbn [map serial runSequentialSteps].
  destruct (exec (code x) w) as [w1 e]. specialize (IH w1). destruct (serial _ w1) as [w2 es]. cbn [fst snd] in *.
  intros [He Hes]%Forall_cons. cbn in He. subst e. by apply IH.
Qed.

(** C37 The parallel group, in which the pieces of the commands, the looks into
    the cache and the stores of the goroutines interleave: every run ends; no
    more than the given number of goroutines run at a time; a run that cannot
    go on has returned and left no goroutine; it returns no error only when
    every step has ended exactly once without an error, and if no step touches
    what another one does, it leaves what the steps leave one after the other,
    in the order of the configuration. *)
Theorem parallel_group_once :
  (∀ p, Acc (flip (par_step code max)) p)
  ∧ ∀ p, rtc (par_step code max) (par_init steps w0) p →
      (length (active p) ≤ max)%nat
      ∧ ((0 < max)%nat → (∀ q, ¬ par_step code max p q) → returned p ≠ None ∧ active p = [])
      ∧ (returned p = Some None → active p = [] ∧ todo p = [] ∧ ended p ≡ₚ map (λ x, (x, None)) steps
           ∧ (pairwise_apart steps → runSequentialSteps (λ x, exec (code x)) steps w0 = (world p, None))).
Proof.
  split; [apply par_acc|]. intros p Hr. pose proof (par_inv_reachable p Hr) as (Hp & Hm & _ & Hret & _).
  split; [done|]. split; [apply par_stuck|]. intros E. destruct (Hret None E) as [Hc [(Ha & Ht & Hall)|(? & ? & ? & _)]]; [|done].
  specialize (Hall eq_refl). split; [done|]. split; [done|]. unfold pending in Hp. rewrite Ha, Hc, Ht in Hp. cbn in Hp. rewrite app_nil_r in Hp.
  assert (ended p = map (λ x, (x, None)) (ended p).*1) as Ee.
  { clear -Hall. induction Hall as [|[x e] l He _ IH]; [done|]. cbn in He. subst e. cbn. by rewrite <- IH. }
  split; [rewrite Ee; by apply Permutation_map|]. intros Hap.
  destruct (serial_inv_reachable p Hap Hr) as (_ & H1 & H2). unfold pending in H1, H2. rewrite Ha, Hc, Ht in H1, H2. cbn in H1, H2.
  rewrite app_nil_r in H2. rewrite H1. apply serial_ok. fold start. by rewrite <- H2.
Qed.
End parallel.

(** A step that the caller runs itself and that fails ends the group at once:
    the goroutines run on behind the end of the build. *)
Theorem goroutines_left_behind code max cmd call e w :
  nonempty (Step_Run cmd) = false → nonempty (Step_Run call) = true → (0 < max)%nat → code call = Ret (Some e) →
  rtc (par_step code max) (par_init [cmd; call] w)
    (mk_par [] None [(cmd, code cmd)] [(call, Some e)] None w (Some (Some e))).
Proof.
  intros H1 H2 Hm Hr. eapply rtc_l; [by apply par_go|]. eapply rtc_l; [by apply par_call|]. cbn [app].
  rewrite Hr. eapply rtc_l; [by eapply par_call_fails|]. apply rtc_refl.
Qed.

(** ** Try, catch and finally *)
Section try.
Context (run : BuildStep → effect).

(** A sequence as it is meant: a step, or a body with the steps that catch its
    error and the steps that end it in any case. *)
Inductive block := Plain (x : BuildStep) | Guarded (t : BuildStep) (body catches finals : list BuildStep).
Definition block_steps (b : block) : list BuildStep :=
  match b with Plain x => [x] | Guarded t body catches finals => t :: body ++ catches ++ finals end.
Definition block_ok (b : block) : Prop :=
  match b with
  | Plain x => Step_Try x = false ∧ Step_Catch x = false
  | Guarded t body catches finals =>
      Step_Try t = true ∧ Forall (λ x, in_body x = true) body ∧ Forall (λ x, Step_Catch x = true) catches
      ∧ Forall (λ x, Step_Catch x = false ∧ Step_Finally x = true) finals
  end.

(** The step that comes next is not part of the guarded block before it. *)
Definition separate (b : block) (next : option BuildStep) : Prop :=
  match b, next with
  | Guarded _ _ catches finals, Some x => handler x = false ∧ (catches ++ finals = [] → in_body x = false)
  | _, _ => True
  end.
Fixpoint blocks_ok (l : list block) : Prop :=
  match l with
  | [] => True
  | b :: r => block_ok b ∧ separate b (head (concat (map block_steps r))) ∧ blocks_ok r
  end.

(** The steps of a body run up to the first that fails. *)
Inductive body_runs : list BuildStep → dep_state → dep_state → option string → Prop :=
  | body_end s : body_runs [] s s None
  | body_fails x r s s' e : run x s = (s', Some e) → body_runs (x :: r) s s' (Some e)
  | body_next x r s s1 s' e : run x s = (s1, None) → body_runs r s1 s' e → body_runs (x :: r) s s' e.

(** The steps at the end all run; the first error is theirs. *)
Inductive finals_run : list BuildStep → dep_state → dep_state → option string → Prop :=
  | finals_end s : finals_run [] s s None
  | finals_fails x r s s1 s' e e' : run x s = (s1, Some e) → finals_run r s1 s' e' → finals_run (x :: r) s s' (Some e)
  | finals_next x r s s1 s' e : run x s = (s1, None) → finals_run r s1 s' e → finals_run (x :: r) s s' e.

(** An error of the body goes to the first step that catches, and only when
    that fails too the steps at the end are left out. *)
Inductive block_runs : block → dep_state → dep_state → option string → Prop :=
  | runs_plain x s s' e : run x s = (s', e) → block_runs (Plain x) s s' e
  | runs_body t body catches finals s s1 s' e : body_runs (t :: body) s s1 None → finals_run finals s1 s' e →
      block_runs (Guarded t body catches finals) s s' e
  | runs_uncaught t body finals s s1 s' e e' : body_runs (t :: body) s s1 (Some e) → finals_run finals s1 s' e' →
      block_runs (Guarded t body [] finals) s s' (Some e)
  | runs_caught t body c catches finals s s1 s2 s' e e' : body_runs (t :: body) s s1 (Some e) → run c s1 = (s2, None) →
      finals_run finals s2 s' e' → block_runs (Guarded t body (c :: catches) finals) s s' e'
  | runs_catch_fails t body c catches finals s s1 s' e e' : body_runs (t :: body) s s1 (Some e) → run c s1 = (s', Some e') →
      block_runs (Guarded t body (c :: catches) finals) s s' (Some e').
Inductive blocks_run : list block → dep_state → dep_state → option string → Prop :=
  | blocks_end s : blocks_run [] s s None
  | blocks_stop b r s s' e : block_runs b s s' (Some e) → blocks_run (b :: r) s s' (Some e)
  | blocks_next b r s s1 s' e : block_runs b s s1 None → blocks_run r s1 s' e → blocks_run (b :: r) s s' e.

(** The same as functions. *)
Fixpoint runs (order : list BuildStep) (w : dep_state) : dep_state * option string :=
  match order with
  | [] => (w, None)
  | x :: r =>
      let '(w, err) := run x w in
      let '(w, errs) := runs r w in
      (w, match err with None => errs | _ => err end)
  end.
Definition block_result (b : block) : effect := λ s,
  match b with
  | Plain x => run x s
  | Guarded t body catches finals =>
      let '(s, err) := runSequentialSteps run (t :: body) s in
      match err, catches with
      | None, _ => runs finals s
      | Some e, [] => let '(s, _) := runs finals s in (s, Some e)
      | Some _, c :: _ => match run c s with
                          | (s, Some e) => (s, Some e)
                          | (s, None) => runs finals s
                          end
      end
  end.
Fixpoint blocks_result (l : list block) : effect := λ s,
  match l with
  | [] => (s, None)
  | b :: r => match block_result b s with
              | (s, Some e) => (s, Some e)
              | (s, None) => blocks_result r s
              end
  end.

Lemma body_runs_spec l s s' e : body_runs l s s' e ↔ runSequentialSteps run l s = (s', e).
Proof.
  split.
  - induction 1 as [|x r s s' e H|x r s s1 s' e H _ IH]; cbn; [done|by rewrite H|by rewrite H].
  - revert s. induction l as [|x r IH]; intros s; cbn; [intros [= <- <-]; constructor|].
    destruct (run x s) as [s1 [e1|]] eqn:E; [intros [= <- <-]; by apply body_fails|]. intros H. eapply body_next; eauto.
Qed.

Lemma finals_run_spec l s s' e : finals_run l s s' e ↔ runs l s = (s', e).
Proof.
  split.
  - induction 1 as [|x r s s1 s' e e' H _ IH|x r s s1 s' e H _ IH]; cbn; [done|by rewrite H, IH..].
  - revert s e. induction l as [|x r IH]; intros s e; cbn; [intros [= <- <-]; constructor|].
    destruct (run x s) as [s1 [e1|]] eqn:E; destruct (runs r s1) as [s2 e2] eqn:E2; intros [= <- <-];
      [eapply finals_fails|eapply finals_next]; eauto.
Qed.

Lemma block_runs_spec b s s' e : block_runs b s s' e ↔ block_result b s = (s', e).
Proof.
  split.
  - destruct 1 as [x s s' e H|t body catches finals s s1 s' e H1%body_runs_spec H2%finals_run_spec
      |t body finals s s1 s' e e' H1%body_runs_spec H2%finals_run_spec
      |t body c catches finals s s1 s2 s' e e' H1%body_runs_spec H2 H3%finals_run_spec
      |t body c catches finals s s1 s' e e' H1%body_runs_spec H2]; unfold block_result; [done|rewrite H1..].
    + done.
    + by rewrite H2.
    + by rewrite H2.
    + by rewrite H2.
  - unfold block_result. destruct b as [x|t body catches finals]; [by apply runs_plain|].
    destruct (runSequentialSteps run (t :: body) s) as [s1 [err|]] eqn:E1; apply body_runs_spec in E1.
    + destruct catches as [|c catches].
      * destruct (runs finals s1) as [s2 e2] eqn:E2. intros [= <- <-]. apply finals_run_spec in E2. by eapply runs_uncaught.
      * destruct (run c s1) as [s2 [e2|]] eqn:E2; [intros [= <- <-]; by eapply runs_catch_fails|].
        intros E3%finals_run_spec. by eapply runs_caught.
    + intros E3%finals_run_spec. by eapply runs_body.
Qed.

Lemma blocks_run_spec l s s' e : blocks_run l s s' e ↔ blocks_result l s = (s', e).
Proof.
  split.
  - induction 1 as [|b r s s' e H%block_runs_spec|b r s s1 s' e H%block_runs_spec _ IH]; cbn; [done|by rewrite H..].
  - revert s. induction l as [|b r IH]; intros s; cbn; [intros [= <- <-]; constructor|].
    destruct (block_result b s) as [s1 [e1|]] eqn:E; apply block_runs_spec in E; [intros [= <- <-]; by apply blocks_stop|].
    intros H. eapply blocks_next; eauto.
Qed.

Definition final_step (x : BuildStep) : Prop := Step_Catch x = false ∧ Step_Finally x = true.

Lemma finals_pending finals e s : Forall final_step finals →
  runCatchFinally run (Some e) finals s = ((runs finals s).1, Some e).
Proof.
  intros H. revert s. induction H as [|x r [Hc Hf] Hr IH]; intros s; [done|]. cbn [runCatchFinally runs]. rewrite Hc, Hf.
  destruct (run x s) as [s1 [e'|]]; rewrite IH; by destruct (runs r s1).
Qed.
Lemma finals_none finals s : Forall final_step finals → runCatchFinally run None finals s = runs finals s.
Proof.
  intros H. revert s. induction H as [|x r [Hc Hf] Hr IH]; intros s; [done|]. cbn [runCatchFinally runs]. rewrite Hc, Hf.
  destruct (run x s) as [s1 [e'|]]; [rewrite finals_pending by done|rewrite IH]; by destruct (runs r s1) as [s2 [e2|]].
Qed.
Lemma catches_skipped catches finals s : Forall (λ x, Step_Catch x = true) catches →
  runCatchFinally run None (catches ++ finals) s = runCatchFinally run None finals s.
Proof. intros H. revert s. induction H as [|x r Hc Hr IH]; intros s; [done|]. cbn [app runCatchFinally]. rewrite Hc. apply IH. Qed.

Lemma handlers_meaning err catches finals s :
  Forall (λ x, Step_Catch x = true) catches → Forall final_step finals →
  runCatchFinally run err (catches ++ finals) s =
    match err, catches with
    | None, _ => runs finals s
    | Some e, [] => let '(s, _) := runs finals s in (s, Some e)
    | Some _, c :: _ => match run c s with (s, Some e) => (s, Some e) | (s, None) => runs finals s end
    end.
Proof.
  intros Hc Hf. destruct err as [e|].
  - destruct Hc as [|c r Hx Hr]; cbn [app].
    + rewrite finals_pending by done. by destruct (runs finals s).
    + cbn [runCatchFinally]. rewrite Hx. destruct (run c s) as [s1 [e'|]]; [done|].
      by rewrite catches_skipped, finals_none.
  - by rewrite catches_skipped, finals_none.
Qed.

Lemma sequence_result l s : blocks_ok l → runSequentialGroup run (concat (map block_steps l)) s = blocks_result l s.
Proof.
  assert (∀ fuel s, (length (concat (map block_steps l)) ≤ fuel)%nat → blocks_ok l →
    sequential run fuel (concat (map block_steps l)) s = blocks_result l s) as H; [|by apply H].
  clear s. induction l as [|b r IH]; intros fuel s Hl; [by destruct fuel|].
  intros (Hb & Hs & Hr). cbn [map concat blocks_result] in *. set (tail := concat (map block_steps r)) in *.
  rewrite length_app in Hl. destruct b as [x|t body catches finals]; cbn [block_steps] in *.
  - destruct fuel as [|k]; cbn [length] in Hl; [lia|]. destruct Hb as [H1 H2].
    cbn [app sequential block_result]. rewrite H1, H2. destruct (run x s) as [s1 [e|]]; [done|]. apply IH; [lia|done].
  - destruct fuel as [|k]; cbn [length] in Hl; [lia|]. rewrite !length_app in Hl. destruct Hb as (H1 & H2 & H3 & H4).
    cbn [app sequential block_result]. rewrite H1, <- !(assoc_L (++)).
    assert (Forall (λ x, handler x = true) (catches ++ finals)) as Hh.
    { apply Forall_app_2; (eapply Forall_impl; [eassumption|]); unfold handler; [by intros x ->|by intros x [_ ->]; rewrite orb_true_r]. }
    rewrite (span_all in_body body (catches ++ finals ++ tail)) by
      (done || (rewrite (assoc_L (++)); destruct (catches ++ finals) as [|x hs] eqn:Eh; cbn [app];
        [destruct tail; [done|by apply Hs]|apply Forall_cons in Hh as [Hx _]; unfold in_body; by rewrite Hx])).
    rewrite (assoc_L (++)). rewrite (span_all handler (catches ++ finals) tail) by (done || (destruct tail; [done|apply Hs])).
    destruct (runSequentialSteps run (t :: body) s) as [s1 err].
    rewrite handlers_meaning by done. destruct (match err with Some _ => _ | None => _ end) as [s2 [e|]]; [done|].
    apply IH; [lia|done].
Qed.

(** C36 A sequence of steps with try, catch and finally does what its blocks
    mean: the steps of a body run up to the first that fails, its error is
    handed to the first catch, the finally steps run in any case, unless the
    catch fails; a block that leaves an error ends the sequence. *)
Theorem sequence_meaning l s s' e : blocks_ok l →
  runSequentialGroup run (concat (map block_steps l)) s = (s', e) ↔ blocks_run l s s' e.
Proof. intros H. by rewrite sequence_result, blocks_run_spec. Qed.
End try.

(** ** Witnesses *)
Definition cmd_step (c : bytes) : BuildStep := zero_BuildStep <| Step_Command := c |>.
Definition log_file : bytes := bs "log".
Definition logged (s : dep_state) : bytes := default [] (files (dsk s) !! log_file).
(** A step that writes its command to a file, and fails when it is [false]. *)
Definition log_step (x : BuildStep) : effect := λ s,
  (mk_cache (set_files (<[log_file := logged s ++ Step_Command x ++ bs ";"]> (files (dsk s))) (dsk s)) (l1 s) (l2Data s),
   if bool_decide (Step_Command x = bs "false") then Some "exit status"%string else None).
Definition empty_state : dep_state := mk_cache (mk_disk ∅ ∅ ∅) empty_table None.
Definition example_blocks : list block :=
  [Guarded ((cmd_step (bs "make")) <| Step_Try := true |>) [cmd_step (bs "false"); cmd_step (bs "install")]
     [(cmd_step (bs "report")) <| Step_Catch := true |>] [(cmd_step (bs "clean")) <| Step_Finally := true |>];
   Plain (cmd_step (bs "next"))].

Lemma sequence_meaning_witness :
  ∃ s', logged s' = bs "make;false;report;clean;next;" ∧ blocks_run log_step example_blocks empty_state s' None.
Proof.
  eexists. split; [|apply (sequence_meaning log_step example_blocks empty_state); [|reflexivity]].
  - vm_compute. reflexivity.
  - cbn. split_and!; try done; repeat constructor; done.
Defined.

(** Two steps that write two files each, in pieces; the pieces of the second are
    done between those of the first. *)
Definition put (p v : bytes) : dep_state → dep_state :=
  λ c, mk_cache (set_files (<[p := v]> (files (dsk c))) (dsk c)) (l1 c) (l2Data c).
Definition two_files (x : BuildStep) : prog :=
  Act (put (Step_Command x ++ bs ".1") (bs "new")) (λ _, Act (put (Step_Command x ++ bs ".2") (bs "new")) (λ _, Ret None)).
Definition two_steps : list BuildStep := [cmd_step (bs "a"); cmd_step (bs "b")].

Lemma put_commute p q v w : p ≠ q → commute (put p v) (put q w).
Proof. intros Hne c. unfold put. cbn. by rewrite insert_insert_ne by done. Qed.

Lemma two_files_apart : pairwise_apart two_files two_steps.
Proof.
  assert (∀ x f next, subprog (Act f next) (two_files x) → ∃ n v, f = put (Step_Command x ++ n) v ∧ (n = bs ".1" ∨ n = bs ".2")
    ∧ ∃ q, ∀ c, next c = q) as Hsub.
  { intros x f next H. unfold two_files in H. inversion H as [|? ? ? s H']; subst.
    - exists (bs ".1"), (bs "new"). split; [done|]. split; [by left|]. eexists. done.
    - inversion H' as [|? ? ? s' H'']; subst; [|inversion H'']. exists (bs ".2"), (bs "new"). split; [done|]. split; [by right|]. by eexists. }
  intros i j x y Hi Hj Hne. assert (Step_Command x ≠ Step_Command y ∧ length (Step_Command x) = length (Step_Command y)) as [Hc Hl].
  { destruct i as [|[|i]], j as [|[|j]]; cbn in Hi, Hj; try done; injection Hi as <-; injection Hj as <-; done. }
  intros f next g next' Hf Hg. destruct (Hsub _ _ _ Hf) as (n & v & -> & _ & q & Hq). destruct (Hsub _ _ _ Hg) as (m & w & -> & _ & q' & Hq').
  split; [|by intros c; rewrite !Hq]. apply put_commute. intros E. apply Hc. by apply app_inj_1 in E as [? _].
Qed.

Definition interleaved : dep_state :=
  put (bs "b.2") (bs "new") (put (bs "a.2") (bs "new") (put (bs "b.1") (bs "new") (put (bs "a.1") (bs "new") empty_state))).

Lemma interleaved_reached :
  rtc (par_step two_files 2) (par_init two_steps empty_state)
    (mk_par [] None [] [(cmd_step (bs "a"), None); (cmd_step (bs "b"), None)] None interleaved (Some None)).
Proof.
  eapply rtc_l; [apply par_go; [reflexivity|cbn; lia]|]. eapply rtc_l; [apply par_go; [reflexivity|cbn; lia]|].
  eapply rtc_l; [eapply (par_act _ _ _ _ [])|]. eapply rtc_l; [eapply (par_act _ _ _ _ [_])|].
  eapply rtc_l; [eapply (par_act _ _ _ _ [])|]. eapply rtc_l; [eapply (par_act _ _ _ _ [_])|].
  eapply rtc_l; [eapply (par_done _ _ _ _ [])|]. eapply rtc_l; [eapply (par_done _ _ _ _ [])|].
  eapply rtc_l; [apply par_return|]. apply rtc_refl.
Qed.

Lemma parallel_group_once_witness :
  ∃ p, rtc (par_step two_files 2) (par_init two_steps empty_state) p ∧ returned p = Some None
    ∧ ended p ≡ₚ map (λ x, (x, None)) two_steps
    ∧ runSequentialSteps (λ x, exec (two_files x)) two_steps empty_state = (world p, None).
Proof.
  eexists. split; [exact interleaved_reached|].
  destruct (parallel_group_once two_files 2 two_steps empty_state) as [_ H].
  destruct (H _ interleaved_reached) as (_ & _ & H3). destruct (H3 eq_refl) as (_ & _ & Hall & Hserial).
  split; [reflexivity|]. split; [exact Hall|]. exact (Hserial two_files_apart).
Defined.

(** ** What the conditions and flags do not do *)
Section findings.
Context (LookupEnv : bytes → option bytes).

(** A step with [else] that names no group is alone in its group, and always
    runs; so does the step it stands behind when its condition holds. *)
Theorem else_alone_runs a b env :
  Step_Group a = [] → Step_Group b = [] → Step_Stage a = Step_Stage b → Step_Else a = false → Step_Else b = true →
  evalStepCondition LookupEnv (condition a) env = true →
  concat (map (λ g, eligible_steps LookupEnv [] (g_steps g) env) (group_order [a; b])) = [a; b].
Proof.
  intros Ha Hb Hs Hea Heb Hc.
  assert (group_order [a; b] = [mk_group (Step_Stage a) (bs "#0") [a] (Step_Parallel a) 0;
                                mk_group (Step_Stage b) (bs "#1") [b] (Step_Parallel b) 1]) as ->.
  { unfold group_order. cbn [make_groups add_step]. unfold group_name. rewrite Ha, Hb. cbn [nilb].
    rewrite bool_decide_eq_false_2 by (cbn; intros [_ H]; vm_compute in H; discriminate H).
    unfold merge_sort. cbn [merge_sort_aux merge_list_to_stack merge_stack list_merge].
    unfold group_le. cbn. rewrite Hs. cbn. by rewrite decide_True by (right; split; [done|lia]). }
  cbn [map concat g_steps eligible_steps app]. rewrite Hea, Heb. unfold groupHasMatch. cbn [existsb].
  rewrite Hc, andb_false_r. done.
Qed.

(** An [elif] runs also when the [if] before it did. *)
Theorem elif_after_if a b env :
  Step_Else a = false → Step_Else b = false → evalStepCondition LookupEnv (condition a) env = true →
  evalStepCondition LookupEnv (condition b) env = true → eligible_steps LookupEnv [] [a; b] env = [a; b].
Proof. intros Ha Hb Hca Hcb. cbn [eligible_steps]. by rewrite Ha, Hb, Hca, Hcb, !andb_false_r. Qed.

(** A name that is not set is true. *)
Theorem unset_condition_true :
  evalStepCondition (λ _, None) (bs "$UNSET") {[ bs "A" := bs "1" ]} = true.
Proof. by vm_compute. Qed.

(** An escaped dollar of a template is expanded by the step after all. *)
Theorem step_set_expands_twice :
  let env : env_map := {[ bs "HOME" := bs "/root" ]} in
  ExpandString (λ _, None) (bs "echo $$HOME") env = bs "echo $HOME"
  ∧ ExpandString (λ _, None) (expandStepField (λ _, None) [] (bs "echo $$HOME") env) env = bs "echo /root".
Proof. by vm_compute. Qed.
End findings.

(** Two steps with [try] are two blocks: the catch belongs to the second. *)
Theorem try_twice_unprotected :
  let first := (cmd_step (bs "false")) <| Step_Try := true |> in
  let second := (cmd_step (bs "b")) <| Step_Try := true |> in
  let catch := (cmd_step (bs "report")) <| Step_Catch := true |> in
  let r := runSequentialGroup log_step [first; second; catch] empty_state in
  logged r.1 = bs "false;" ∧ r.2 = Some "exit status"%string.
Proof. vm_compute. auto. Qed.

(** A catch that fails leaves out the finally steps. *)
Theorem catch_failure_skips_finally :
  let t := (cmd_step (bs "false")) <| Step_Try := true |> in
  let catch := (cmd_step (bs "false")) <| Step_Catch := true |> in
  let final := (cmd_step (bs "clean")) <| Step_Finally := true |> in
  logged (runSequentialGroup log_step [t; catch; final] empty_state).1 = bs "false;false;".
Proof. vm_compute. reflexivity. Qed.
