(* ===== verification/MakeVars.v ===== *)
(** * Variables of makefiles (builder/makefile_parse.go)

    The variables a makefile sets, the flags, include directories and sources
    that are read out of them, and the objects that its rules name. *)
From stdpp Require Import list gmap strings sorting.
From S2P Require Import Prelude GoStrings GoPath ConfigTypes ConfigOps ConfigLoad Reverse.

(** ** Variables *)
Definition trimSpaceBytes (b : bytes) : bytes := drop_while_end blank_byte (drop_while blank_byte b).
Definition space_or_tab (c : Z) : bool := (c =? 32) || (c =? 9).

(** The variable that is being read, whether it is appended to, and its value
    so far; no variable is being read when the name is empty. *)
Record vars_state := mk_vs { vs_vars : gmap bytes bytes; curName : bytes; curAppend : bool; curVal : bytes }.

Definition set_var (name : bytes) (append : bool) (val : bytes) (vars : gmap bytes bytes) : gmap bytes bytes :=
  let key := trimSpaceBytes name in
  let val := trimSpaceBytes val in
  if append then
    match vars !! key with
    | Some prev => if nonempty prev then <[key := prev ++ bs " " ++ val]> vars else <[key := val]> vars
    | None => <[key := val]> vars
    end
  else <[key := val]> vars.

(** The value without the backslash at its end, and whether there was one. *)
Definition continued_value (v : bytes) : bytes * bool :=
  match last v with
  | Some c => if c =? 92 then (removelast v, true) else (v, false)
  | None => (v, false)
  end.

(** The name in front of the equals sign, and whether the value is appended. *)
Definition var_name (before : bytes) : bytes * bool :=
  let b := drop_while_end space_or_tab before in
  match last b with
  | Some c =>
      if (c =? ch ":") || (c =? ch "+")
      then (trimSpaceBytes (drop_while_end space_or_tab (removelast b)), c =? ch "+")
      else (trimSpaceBytes b, false)
  | None => ([], false)
  end.

Definition finish_var (s : vars_state) : vars_state :=
  mk_vs (set_var (curName s) (curAppend s) (curVal s) (vs_vars s)) [] false [].

Definition var_line (s : vars_state) (line : bytes) : vars_state :=
  let indented := match line with c :: _ => (c =? 9) || (c =? 32) | [] => false end in
  if nonempty (curName s) && indented then
    let '(t, cont) := continued_value (trimSpaceBytes line) in
    let val := (if nonempty (curVal s) then curVal s ++ bs " " else curVal s) ++ t in
    let s := mk_vs (vs_vars s) (curName s) (curAppend s) val in
    if cont : bool then s else finish_var s
  else
    match cut_at (ch "=") line with
    | None => s
    | Some (before, after) =>
        let '(name, append) := var_name before in
        let '(v, cont) := continued_value (trimSpaceBytes after) in
        let s := mk_vs (vs_vars s) name append v in
        if cont : bool then s else finish_var s
    end.

Definition init_vars : vars_state := mk_vs ∅ [] false [].
Definition parseMakefileVars (data : bytes) : gmap bytes bytes :=
  vs_vars (fold_left var_line (map drop_cr (raw_lines data)) init_vars).

(** ** Files *)

(** Whether a path is there and is a directory, its contents, the entries of a
    directory (with whether they are directories), the working directory. *)
Record project := mk_project {
  p_stat : bytes → option bool; p_read : bytes → option bytes; p_dir : bytes → option (list (bytes * bool));
  p_cwd : option bytes }.

Section project.
Context (p : project) (h : host).
(** The order in which a map is gone through. *)
Context (range : gmap bytes bytes → list (bytes * bytes)).

Definition is_file (path : bytes) : bool := match p_stat p path with Some false => true | _ => false end.
Definition abs_path (path : bytes) : bytes := default path (Abs (p_cwd p) path).

Definition makefileCandidates (rootDir : bytes) : list bytes :=
  let autoDir := filepath_Join rootDir (bs "auto") in
  [filepath_Join rootDir (bs "objs/Makefile"); filepath_Join rootDir (bs "Makefile")]
  ++ match p_dir p autoDir with
     | Some entries => map (λ e, filepath_Join autoDir e.1) (List.filter (λ e, negb e.2) entries)
     | None => []
     end.

Definition supportedSourceInclude (ext : bytes) : bool :=
  among (ToLower h ext) [bs ".c"; bs ".cpp"; bs ".cc"; bs ".cxx"; bs ".m"; bs ".mm"; bs ".s"; bs ".S"; bs ".asm"; bs ".fasm"].

Definition quotes : bytes := [34; 39].
Definition normalizeMakefileToken (rootDir token : bytes) : bytes :=
  let token := strings_Trim (TrimSpace token) quotes in
  if nilb token then [] else if IsAbs token then token else filepath_Join rootDir token.

Definition object_sources : list bytes :=
  [bs ".c"; bs ".cc"; bs ".cpp"; bs ".cxx"; bs ".m"; bs ".mm"; bs ".S"; bs ".s"; bs ".asm"; bs ".fasm"].

(** The first source there is for an object. *)
Definition object_source (rootDir obj : bytes) : option bytes :=
  let obj := TrimSpace (strings_Trim obj quotes) in
  let obj := TrimSuffix (TrimPrefix (TrimPrefix obj (bs "./")) (bs "objs/")) (bs ".o") in
  if nilb obj then None
  else head (List.filter is_file (map (λ ext, abs_path (filepath_Join rootDir (obj ++ ext))) object_sources)).

(** The source that a token names. *)
Definition makefile_source (rootDir token : bytes) : option bytes :=
  if contains_bytes (bs "$(") token || contains_bytes (bs "${") token then None
  else
    let token := TrimSpace (strings_Trim token quotes) in
    if nilb token then None
    else
      let ext := ToLower h (filepath_Ext token) in
      if negb (supportedSourceInclude ext) && negb (bool_decide (ext = bs ".o")) then None
      else if bool_decide (ext = bs ".o") then object_source rootDir token
      else
        let path := abs_path (normalizeMakefileToken rootDir token) in
        if is_file path then Some path else None.

Definition add_source (source : option bytes) (sources : gset bytes) : gset bytes :=
  match source with Some path => {[path]} ∪ sources | None => sources end.
Definition inferSourcesFromObjectTarget (rootDir obj : bytes) : gset bytes → gset bytes := add_source (object_source rootDir obj).
Definition addMakefileSource (rootDir token : bytes) : gset bytes → gset bytes := add_source (makefile_source rootDir token).

Definition skipped_flag (token : bytes) : bool :=
  HasPrefix token (bs "-I") || HasPrefix token (bs "-D") || HasPrefix token (bs "-L") || HasPrefix token (bs "-W").
Definition collectSourcesFromMakefileValues (rootDir value : bytes) (sources : gset bytes) : gset bytes :=
  fold_left (λ s token, if skipped_flag token then s else addMakefileSource rootDir token s) (Fields value) sources.

(** The matches of [(?m)^([^\s:]+\.o)\s*:], from a position that is the start of
    a line or not. *)
Definition re_space (c : Z) : bool := (c =? 32) || (c =? 9) || (c =? 10) || (c =? 12) || (c =? 13).
Definition token_char (c : Z) : bool := negb (re_space c || (c =? ch ":")).
Fixpoint object_targets (fuel : nat) (bol : bool) (s : bytes) : list bytes :=
  match fuel, s with
  | O, _ | _, [] => []
  | S k, c :: r =>
      let next := object_targets k (c =? 10) r in
      if bol then
        let '(token, rest) := span token_char s in
        if HasSuffix token (bs ".o") && (2 <? length token)%nat then
          match drop_while re_space rest with
          | x :: rest => if x =? ch ":" then token :: object_targets k false rest else next
          | [] => next
          end
        else next
      else next
  end.
Definition collectSourcesFromObjectTargets (rootDir content : bytes) (sources : gset bytes) : gset bytes :=
  fold_left (λ s token, addMakefileSource rootDir token s) (object_targets (length content) true content) sources.

(** ** Settings and sources *)
Definition joinFlags (a b : bytes) : bytes :=
  if nilb (TrimSpace a) then TrimSpace b
  else if nilb (TrimSpace b) then TrimSpace a
  else TrimSpace (a ++ bs " " ++ b).

Definition include_path (rootDir dir : bytes) : bytes :=
  abs_path (if IsAbs dir then dir else filepath_Join rootDir dir).
Fixpoint include_fields (rootDir : bytes) (fields : list bytes) : list bytes :=
  match fields with
  | [] => []
  | f :: r =>
      if HasPrefix f (bs "-I") then
        let dir := TrimSpace (TrimPrefix f (bs "-I")) in
        if nilb dir then match r with n :: r' => include_path rootDir n :: include_fields rootDir r' | [] => [] end
        else include_path rootDir dir :: include_fields rootDir r
      else include_fields rootDir r
  end.

(** The include directories, the compiler and the linker flags. *)
Definition settings : Type := list bytes * bytes * bytes.
Definition join_var (vars : gmap bytes bytes) (name flags : bytes) : bytes :=
  match vars !! name with Some v => joinFlags flags v | None => flags end.
Definition add_settings (rootDir : bytes) (acc : settings) (data : bytes) : settings :=
  let '(includes, cflags, ldflags) := acc in
  let vars := parseMakefileVars data in
  (includes ++ concat (map (λ kv, include_fields rootDir (Fields kv.2)) (range vars)),
   join_var vars (bs "CFLAGS") (join_var vars (bs "CPPFLAGS") cflags),
   join_var vars (bs "LDLIBS") (join_var vars (bs "LDFLAGS") ldflags)).

(** The contents of the candidates that are files and can be read. *)
Definition makefiles (rootDir : bytes) : list bytes :=
  omap (λ path, if is_file path then p_read p path else None) (makefileCandidates rootDir).

Definition discoverMakefileSettings (rootDir : bytes) : settings :=
  let '(includes, cflags, ldflags) := fold_left (add_settings rootDir) (makefiles rootDir) ([], [], []) in
  (includes, TrimSpace cflags, TrimSpace ldflags).

Definition add_sources (rootDir : bytes) (sources : gset bytes) (data : bytes) : gset bytes :=
  let sources := fold_left (λ s kv, collectSourcesFromMakefileValues rootDir kv.2 s) (range (parseMakefileVars data)) sources in
  collectSourcesFromObjectTargets rootDir data sources.

Definition discoverMakefileSources (rootDir : bytes) : list bytes :=
  sort_Strings (elements (fold_left (add_sources rootDir) (makefiles rootDir) ∅)).
End project.

(** ** A makefile and its variables *)

(** An assignment: the name and the blanks behind it, the operator, and the text
    of the value on the line of the name and on each line behind it. *)
Inductive operator := OSet | OSetNow | OAppend.
Definition operator_text (o : operator) : bytes := match o with OSet => bs "=" | OSetNow => bs ":=" | OAppend => bs "+=" end.
Record entry := mk_entry { e_name : bytes; e_gap : bytes; e_op : operator; e_first : bytes; e_rest : list bytes }.
(** Any other line: a comment, a rule, a command. *)
Inductive item := Assign (e : entry) | Other (line : bytes).

(** Each line but the last ends with a backslash. *)
Definition backslash (more : list bytes) : bytes := if nilb more then [] else [92].
Fixpoint rest_lines (pieces : list bytes) : list bytes :=
  match pieces with
  | [] => []
  | p :: r => (p ++ backslash r) :: rest_lines r
  end.
Definition entry_lines (e : entry) : list bytes :=
  (e_name e ++ e_gap e ++ operator_text (e_op e) ++ e_first e ++ backslash (e_rest e)) :: rest_lines (e_rest e).
Definition item_lines (i : item) : list bytes := match i with Assign e => entry_lines e | Other l => [l] end.
Definition vars_text (l : list item) : bytes := concat (map (λ l, l ++ [10]) (concat (map item_lines l))).

(** The words of an assignment, and what a makefile gives to each name. *)
Definition entry_words (e : entry) : list bytes := Fields (e_first e) ++ concat (map Fields (e_rest e)).
Definition assign (vars : gmap bytes (list bytes)) (i : item) : gmap bytes (list bytes) :=
  match i with
  | Assign e =>
      let before := match e_op e with OAppend => default [] (vars !! e_name e) | _ => [] end in
      <[e_name e := before ++ entry_words e]> vars
  | Other _ => vars
  end.

(** A text of printed characters, spaces and tabs, without a number sign, whose
    last printed character is no backslash. *)
Definition blank (c : Z) : Prop := c = 32 ∨ c = 9.
#[export] Instance blank_dec c : Decision (blank c).
Proof. unfold blank. apply _. Defined.
Definition text_ok (s : bytes) : Prop :=
  Forall (λ c, graphic c ∨ blank c) s ∧ ch "#" ∉ s ∧ last (trimSpaceBytes s) ≠ Some 92.
Definition name_ok (n : bytes) : Prop :=
  word n ∧ Forall (λ c, c ∉ bs ":=#") n ∧ (∀ c, last n = Some c → c ∉ bs "+?!").
Definition entry_ok (e : entry) : Prop :=
  name_ok (e_name e) ∧ Forall blank (e_gap e) ∧ text_ok (e_first e)
  ∧ Forall (λ s, text_ok s ∧ ∃ c r, s = c :: r ∧ blank c) (e_rest e).
Definition item_ok (i : item) : Prop :=
  match i with Assign e => entry_ok e | Other l => ch "=" ∉ l ∧ 10 ∉ l ∧ 13 ∉ l ∧ last l ≠ Some 92 end.

(** *** Words *)
Definition texty (s : bytes) : Prop := Forall (λ c, graphic c ∨ blank c) s.

Lemma fields_blank cur c s : blank c → fields_from 0 cur (c :: s) = (if nilb cur then [] else [cur]) ++ Fields s.
Proof. by intros [-> | ->]. Qed.

Lemma fields_cut cur a c b : texty a → blank c → fields_from 0 cur (a ++ c :: b) = fields_from 0 cur a ++ Fields b.
Proof.
  intros Ha Hc. revert cur. induction Ha as [|x a [Hx|Hx] _ IH]; intros cur; cbn [app].
  - by rewrite fields_blank.
  - cbn [fields_from]. rewrite !space_len_graphic by done. apply IH.
  - rewrite !fields_blank by done. rewrite <- (assoc_L (++)). unfold Fields at 1 2. by rewrite IH.
Qed.

Lemma Fields_cut a c b : texty a → blank c → Fields (a ++ c :: b) = Fields a ++ Fields b.
Proof. apply fields_cut. Qed.

Lemma Fields_blanks s : Forall blank s → Fields s = [].
Proof. induction 1 as [|c s Hc _ IH]; [done|]. unfold Fields. by rewrite fields_blank. Qed.

Lemma blank_byte_blank c : graphic c ∨ blank c → blank_byte c = true → blank c.
Proof. unfold graphic, blank, blank_byte. lia. Qed.

Lemma Fields_left s : texty s → Fields (drop_while blank_byte s) = Fields s ∧ texty (drop_while blank_byte s).
Proof.
  induction 1 as [|c s Hc Hs [IH1 IH2]]; [by split; [|constructor]|]. cbn [drop_while]. destruct (blank_byte c) eqn:E; [|by split; [|constructor]].
  split; [|done]. rewrite IH1. unfold Fields at 2. by rewrite fields_blank by by apply blank_byte_blank.
Qed.

Lemma Fields_right u e : texty u → Forall blank e → Fields (u ++ e) = Fields u.
Proof.
  intros Hu Hb. destruct Hb as [|c e Hc Hb]; [by rewrite app_nil_r|]. rewrite Fields_cut by done.
  by rewrite (Fields_blanks e Hb), app_nil_r.
Qed.

Lemma Fields_trim s : texty s → Fields (trimSpaceBytes s) = Fields s ∧ texty (trimSpaceBytes s).
Proof.
  intros Hs. unfold trimSpaceBytes. destruct (Fields_left s Hs) as [<- Ht]. generalize dependent (drop_while blank_byte s). intros t Ht.
  destruct (drop_while_end_spec blank_byte t) as (e & E & He). generalize dependent (drop_while_end blank_byte t). intros u ->.
  apply Forall_app in Ht as [Hu He']. split; [|done]. rewrite Fields_right; [done|done|].
  apply Forall_forall; intros c Hc; rewrite Forall_forall in He, He'; apply blank_byte_blank; auto.
Qed.

(** *** The lines of an assignment *)

(** The value of a line, without its backslash. *)
Lemma line_value s more : text_ok s →
  ∃ v, continued_value (trimSpaceBytes (s ++ backslash more)) = (v, nonempty more) ∧ texty v ∧ Fields v = Fields s.
Proof.
  intros (Hs & _ & Hl). destruct more as [|m r]; cbn [backslash nilb nonempty negb].
  - rewrite app_nil_r. exists (trimSpaceBytes s). destruct (Fields_trim s Hs) as [H1 H2]. split; [|done].
    unfold continued_value. destruct (last (trimSpaceBytes s)) as [c|] eqn:E; [|done]. by destruct (Z.eqb_spec c 92) as [->|].
  - destruct (Fields_left s Hs) as [H1 H2]. exists (drop_while blank_byte s). split; [|done].
    assert (trimSpaceBytes (s ++ [92]) = drop_while blank_byte s ++ [92]) as ->.
    { unfold trimSpaceBytes. assert (drop_while blank_byte (s ++ [92]) = drop_while blank_byte s ++ [92]) as ->.
      { clear. induction s as [|c s IH]; [done|]. cbn. by destruct (blank_byte c). }
      apply drop_while_end_id. by rewrite last_snoc. }
    unfold continued_value. by rewrite last_snoc, Z.eqb_refl, removelast_last.
Qed.

(** The lines behind the first extend the value. *)
Lemma rest_lines_fold pieces vars name append val :
  name ≠ [] → texty val → pieces ≠ [] → Forall (λ s, text_ok s ∧ ∃ c r, s = c :: r ∧ blank c) pieces →
  ∃ v, fold_left var_line (rest_lines pieces) (mk_vs vars name append val) = finish_var (mk_vs vars name append v)
    ∧ texty v ∧ Fields v = Fields val ++ concat (map Fields pieces).
Proof.
  intros Hn Hv Hne Hp. revert val Hv. induction Hp as [|p r (Hp & c & q & -> & Hc) Hr IH]; intros val Hv; [done|].
  cbn [rest_lines fold_left].
  destruct (line_value (c :: q) r Hp) as (t & Ht & Htt & Hft).
  set (w := (if nonempty val then val ++ bs " " else val) ++ t).
  assert (texty w ∧ Fields w = Fields val ++ Fields (c :: q)) as [Hw Hfw].
  { unfold w. clear w. destruct (nonempty val) eqn:En; [|destruct val; [split; [exact Htt|exact Hft]|done]].
    split; [apply Forall_app_2; [apply Forall_app_2; [done|by repeat constructor; right; left]|done]|].
    rewrite <- (assoc_L (++)). change (bs " " ++ t) with (32 :: t). rewrite Fields_cut by (done || by left). by rewrite Hft. }
  assert (var_line (mk_vs vars name append val) ((c :: q) ++ backslash r)
          = (if nilb r then finish_var else id) (mk_vs vars name append w)) as ->.
  { unfold var_line. cbn [app curName curVal vs_vars curAppend].
    assert (nonempty name = true) as -> by (by destruct name).
    assert ((c =? 9) || (c =? 32) = true) as -> by (by destruct Hc as [-> | ->]). cbn [andb].
    change (c :: q ++ backslash r) with ((c :: q) ++ backslash r). rewrite Ht. by destruct r. }
  destruct r as [|p2 r].
  - cbn [nilb]. exists w. split; [done|]. split; [done|]. cbn [map concat]. by rewrite app_nil_r.
  - cbn [nilb]. unfold id. destruct (IH ltac:(done) w Hw) as (v & H1 & H2 & H3). exists v. split; [done|]. split; [done|].
    rewrite H3, Hfw. cbn [map concat]. by rewrite <- !(assoc_L (++)).
Qed.

Lemma drop_blanks_end s gap : Forall blank gap → match last s with Some c => space_or_tab c = false | None => True end →
  drop_while_end space_or_tab (s ++ gap) = s.
Proof.
  intros Hg Hl. assert (drop_while_end space_or_tab gap = []) as Hg'.
  { induction Hg as [|c gap Hc _ IH]; [done|]. cbn. rewrite IH. by destruct Hc as [-> | ->]. }
  induction s as [|c s IH]; [done|]. cbn [app drop_while_end]. destruct s as [|d s].
  - cbn [app]. rewrite Hg'. cbn in Hl. by rewrite Hl.
  - by rewrite IH.
Qed.

Lemma word_last n c : word n → last n = Some c → graphic c.
Proof. intros [_ Hw] Hl. rewrite Forall_forall in Hw. by apply Hw, last_Some_elem_of. Qed.

Lemma var_name_entry n gap o : name_ok n → Forall blank gap →
  var_name (n ++ gap ++ removelast (operator_text o)) = (n, match o with OAppend => true | _ => false end).
Proof.
  intros (Hw & Hch & Hlast) Hg. pose proof (word_trimmed _ Hw) as Ht.
  assert (match last n with Some c => space_or_tab c = false | None => True end) as Hl.
  { destruct (last n) as [c|] eqn:E; [|done]. pose proof (word_last n c Hw E) as Hc. unfold graphic in Hc. unfold space_or_tab. lia. }
  unfold var_name. destruct o; cbn [operator_text removelast].
  - change (removelast (bs "=")) with (@nil Z). rewrite app_nil_r, drop_blanks_end by done.
    destruct (last n) as [c|] eqn:E; [|apply last_None in E; by destruct Hw].
    rewrite Forall_forall in Hch. pose proof (Hch c ltac:(by apply last_Some_elem_of)) as H1. specialize (Hlast c eq_refl).
    rewrite (proj2 (Z.eqb_neq c (ch ":"))), (proj2 (Z.eqb_neq c (ch "+"))).
    + cbn [orb]. f_equal. by apply trimBytes_trimmed.
    + intros ->. apply Hlast. by left.
    + intros ->. apply H1. by left.
  - change (removelast (bs ":=")) with [ch ":"]. rewrite (assoc_L (++)), drop_while_end_id by (by rewrite last_snoc).
    rewrite last_snoc. cbn [orb Z.eqb]. change (ch ":" =? ch ":") with true. cbn [orb].
    rewrite removelast_last, drop_blanks_end by done. f_equal. by apply trimBytes_trimmed.
  - change (removelast (bs "+=")) with [ch "+"]. rewrite (assoc_L (++)), drop_while_end_id by (by rewrite last_snoc).
    rewrite last_snoc. change ((ch "+" =? ch ":") || (ch "+" =? ch "+")) with true. cbv iota.
    rewrite removelast_last, drop_blanks_end by done. f_equal. by apply trimBytes_trimmed.
Qed.

(** What is stored when a value is complete. *)
Definition texts (vars : gmap bytes bytes) : Prop := map_Forall (λ _ v, texty v) vars.

Lemma finish_assign vars e v : name_ok (e_name e) → texty v → Fields v = entry_words e → texts vars →
  let s := finish_var (mk_vs vars (e_name e) (match e_op e with OAppend => true | _ => false end) v) in
  curName s = [] ∧ curAppend s = false ∧ curVal s = []
  ∧ texts (vs_vars s) ∧ Fields <$> vs_vars s = assign (Fields <$> vars) (Assign e).
Proof.
  intros Hn Hv Hf Hall. cbv zeta. unfold finish_var, set_var. cbn [curName curAppend curVal vs_vars].
  pose proof (word_trimmed _ (proj1 Hn)) as Ht. assert (trimSpaceBytes (e_name e) = e_name e) as -> by by apply trimBytes_trimmed.
  destruct (Fields_trim v Hv) as [Hfv Htv]. rewrite Hf in Hfv. set (t := trimSpaceBytes v) in *.
  assert (∀ x, texty x → Fields x = match e_op e with OAppend => default [] ((Fields <$> vars) !! e_name e) | _ => [] end ++ entry_words e →
    texts (<[e_name e := x]> vars) ∧ Fields <$> <[e_name e := x]> vars = assign (Fields <$> vars) (Assign e)) as Hset.
  { intros x Hx Hfx. split; [by apply map_Forall_insert_2|]. rewrite fmap_insert, Hfx. done. }
  split; [done|]. split; [done|]. split; [done|].
  destruct (e_op e) eqn:Eo; try (apply Hset; [done|exact Hfv]).
  rewrite lookup_fmap in Hset. destruct (vars !! e_name e) as [prev|] eqn:Ep; [|apply Hset; [done|exact Hfv]].
  cbn [fmap option_fmap option_map default from_option id] in Hset.
  destruct prev as [|c prev]; [apply Hset; [done|exact Hfv]|]. cbn [nonempty nilb negb]. apply Hset.
  - apply Forall_app_2; [by apply (Hall (e_name e))|]. apply Forall_app_2; [by repeat constructor; right; left|done].
  - change (bs " " ++ t) with (32 :: t). rewrite Fields_cut; [|by apply (Hall (e_name e))|by left]. by rewrite Hfv.
Qed.

Lemma operator_split o : operator_text o = removelast (operator_text o) ++ [ch "="].
Proof. by destruct o. Qed.

(** The lines of an assignment set its variable. *)
Lemma entry_lines_fold e vars : entry_ok e → texts vars →
  ∃ vars', fold_left var_line (entry_lines e) (mk_vs vars [] false []) = mk_vs vars' [] false []
    ∧ texts vars' ∧ Fields <$> vars' = assign (Fields <$> vars) (Assign e).
Proof.
  intros (Hn & Hg & Hf & Hr) Hall. unfold entry_lines. cbn [fold_left].
  set (append := match e_op e with OAppend => true | _ => false end).
  destruct (line_value (e_first e) (e_rest e) Hf) as (v & Hv & Htv & Hfv).
  assert (var_line (mk_vs vars [] false []) (e_name e ++ e_gap e ++ operator_text (e_op e) ++ e_first e ++ backslash (e_rest e))
          = (if nilb (e_rest e) then finish_var else id) (mk_vs vars (e_name e) append v)) as ->.
  { assert (e_name e ++ e_gap e ++ operator_text (e_op e) ++ e_first e ++ backslash (e_rest e)
            = (e_name e ++ e_gap e ++ removelast (operator_text (e_op e))) ++ ch "=" :: (e_first e ++ backslash (e_rest e))) as ->.
    { rewrite (operator_split (e_op e)) at 1. by rewrite <- !(assoc_L (++)). }
    unfold var_line. cbn [curName nonempty nilb negb andb]. rewrite cut_at_app.
    - rewrite var_name_entry by done. rewrite Hv. by destruct (e_rest e).
    - destruct Hn as (_ & Hch & _). rewrite !not_elem_of_app. split_and!.
      + intros H. rewrite Forall_forall in Hch. apply (Hch _ H). right. by left.
      + intros H. rewrite Forall_forall in Hg. by destruct (Hg _ H).
      + destruct (e_op e); cbn; rewrite ?not_elem_of_cons; split_and?; done || apply not_elem_of_nil. }
  assert (∀ x, texty x → Fields x = entry_words e → ∃ vars', finish_var (mk_vs vars (e_name e) append x) = mk_vs vars' [] false []
    ∧ texts vars' ∧ Fields <$> vars' = assign (Fields <$> vars) (Assign e)) as Hfin.
  { intros x Hx Hfx. destruct (finish_assign vars e x Hn Hx Hfx Hall) as (E1 & E2 & E3 & E4 & E5). fold append in E1, E2, E3, E4, E5.
    destruct (finish_var _) as [vs nm ap vl]. cbn in *. subst. by exists vs. }
  unfold entry_words in Hfin. destruct (e_rest e) as [|p r] eqn:Er.
  - cbn [nilb rest_lines fold_left]. apply Hfin; [done|]. cbn. by rewrite app_nil_r.
  - unfold id. cbn [nilb]. assert (e_name e ≠ []) as Hne by apply Hn.
    destruct (rest_lines_fold (p :: r) vars (e_name e) append v Hne Htv ltac:(done) Hr) as (x & -> & Hx & Hfx).
    apply Hfin; [done|]. by rewrite Hfx, Hfv.
Qed.

Lemma item_lines_fold l vars : Forall item_ok l → texts vars →
  ∃ vars', fold_left var_line (concat (map item_lines l)) (mk_vs vars [] false []) = mk_vs vars' [] false []
    ∧ Fields <$> vars' = fold_left assign l (Fields <$> vars).
Proof.
  intros H. revert vars. induction H as [|[e|line] l Hi _ IH]; intros vars Hall; cbn [map concat fold_left item_lines].
  - by exists vars.
  - rewrite fold_left_app. destruct (entry_lines_fold e vars Hi Hall) as (vars' & -> & Hall' & <-). by apply IH.
  - cbn [app fold_left]. assert (var_line (mk_vs vars [] false []) line = mk_vs vars [] false []) as ->; [|by apply IH].
    unfold var_line. cbn [curName nonempty nilb negb andb]. unfold cut_at. destruct Hi as (Hi & _). rewrite <- (app_nil_r line), span_all; [done| |done].
    apply Forall_forall. intros c Hc. apply negb_true_iff, Z.eqb_neq. by intros ->.
Qed.

Lemma text_clean s : text_ok s → 10 ∉ s ∧ 13 ∉ s.
Proof. intros (H & _). rewrite Forall_forall in H. split; intros Hin%H; unfold graphic, blank in Hin; lia. Qed.

Lemma backslash_clean more : 10 ∉ backslash more ∧ 13 ∉ backslash more.
Proof. destruct more; cbn; rewrite ?list_elem_of_singleton; split; done || apply not_elem_of_nil. Qed.

Lemma item_lines_clean i : item_ok i → Forall (λ l, 10 ∉ l ∧ 13 ∉ l) (item_lines i).
Proof.
  destruct i as [e|line]; cbn [item_lines item_ok]; [|intros (_ & ? & ? & _); by repeat constructor].
  intros (((_ & Hw) & _ & _) & Hg & Hf & Hr). constructor.
  - pose proof (text_clean _ Hf) as [? ?]. pose proof (backslash_clean (e_rest e)) as [? ?].
    rewrite Forall_forall in Hw, Hg. rewrite !not_elem_of_app.
    split_and!; try done; try (intros Hin%Hw; unfold graphic in Hin; lia); try (intros Hin%Hg; unfold blank in Hin; lia);
      destruct (e_op e); cbn; rewrite ?not_elem_of_cons; split_and?; done || apply not_elem_of_nil.
  - induction Hr as [|p r [Hp _] _ IH]; [constructor|]. cbn [rest_lines]. constructor; [|done].
    pose proof (text_clean _ Hp) as [? ?]. pose proof (backslash_clean r) as [? ?]. by rewrite !not_elem_of_app.
Qed.

(** C38 The words (as strings.Fields splits them) that a makefile gives to its
    variables are what its assignments say one after the other: with =, := and
    +=, with any blanks around the operator and the words, over lines that end
    with a backslash, with or without a blank before it, as long as the further
    lines are indented. The names are words without :, = and #, not ending with
    +, ? or !; the values are printed characters and blanks without #, and not
    ending with a backslash. Lines without an equals sign, which do not end
    with a backslash, set nothing, whatever they say. Other lines:
    [continuation_lost], [commands_are_variables]. *)
Theorem parseMakefileVars_assignments l : Forall item_ok l →
  Fields <$> parseMakefileVars (vars_text l) = fold_left assign l ∅.
Proof.
  intros H. unfold parseMakefileVars, vars_text.
  assert (Forall (λ l, 10 ∉ l ∧ 13 ∉ l) (concat (map item_lines l))) as Hc.
  { apply Forall_concat, Forall_map. eapply Forall_impl; [exact H|]. apply item_lines_clean. }
  assert (map drop_cr (raw_lines (concat (map (λ l, l ++ [10]) (concat (map item_lines l))))) = concat (map item_lines l)) as ->.
  { rewrite raw_lines_text by (eapply Forall_impl; [exact Hc|]; by intros x [? _]).
    rewrite <- (map_id (concat (map item_lines l))) at 2. apply map_ext_in. intros x Hx%list_elem_of_In.
    rewrite Forall_forall in Hc. apply drop_cr_id. intros Hlast%last_Some_elem_of. by apply (Hc x Hx). }
  destruct (item_lines_fold l ∅ H (map_Forall_empty _)) as (vars' & E & Hf). unfold init_vars. rewrite E. cbn [vs_vars].
  by rewrite Hf, fmap_empty.
Qed.

Definition example_items : list item :=
  [Other (bs "# sources"); Assign (mk_entry (bs "SRC") (bs " ") OSet (bs " main.c ") [bs "  a.c  b.c "; [9] ++ bs "c.c"]);
   Other []; Other (bs "main.o: main.c"); Assign (mk_entry (bs "CC") [] OSetNow (bs "gcc") []);
   Assign (mk_entry (bs "SRC") (bs " ") OAppend (bs " d.c") [])].
Lemma parseMakefileVars_assignments_witness :
  vars_text example_items = concat (map (λ l, l ++ [10])
    [bs "# sources"; bs "SRC = main.c \"; bs "  a.c  b.c \"; [9] ++ bs "c.c"; []; bs "main.o: main.c"; bs "CC:=gcc"; bs "SRC += d.c"])
  ∧ Fields <$> parseMakefileVars (vars_text example_items)
    = {[ bs "CC" := [bs "gcc"]; bs "SRC" := [bs "main.c"; bs "a.c"; bs "b.c"; bs "c.c"; bs "d.c"] ]}.
Proof.
  split; [vm_compute; reflexivity|].
  rewrite (parseMakefileVars_assignments example_items); [vm_compute; reflexivity|].
  unfold example_items. repeat (apply Forall_cons_2 || apply Forall_nil_2); cbn [item_ok]; try by apply (bool_decide_eq_true _).
  all: unfold entry_ok, name_ok, text_ok; cbn [e_name e_gap e_op e_first e_rest].
  all: split_and!; try (by apply (bool_decide_eq_true _)); try (by intros c [= <-]; apply (bool_decide_eq_true _)).
  all: repeat (apply Forall_cons_2 || apply Forall_nil_2); split_and!; try (by apply (bool_decide_eq_true _)).
  all: eexists _, _; split; [reflexivity|]; by apply (bool_decide_eq_true _).
Defined.

(** ** The sources *)

(** A function that only adds to a set, and adds what does not depend on it. *)
Definition adds (f : gset bytes → gset bytes) : Prop := ∀ s, f s = f ∅ ∪ s.

Lemma fold_adds {A} (f : A → gset bytes → gset bytes) l : (∀ x, adds (f x)) → adds (λ s, fold_left (λ s x, f x s) l s).
Proof.
  intros Hf. unfold adds. induction l as [|x l IH]; intros s; cbn [fold_left]; [set_solver|].
  rewrite (IH (f x s)), (IH (f x ∅)), (Hf x s). set_solver.
Qed.

Lemma fold_adds_perm {A} (f : A → gset bytes → gset bytes) l l' s : (∀ x, adds (f x)) → l ≡ₚ l' →
  fold_left (λ s x, f x s) l s = fold_left (λ s x, f x s) l' s.
Proof.
  intros Hf Hp. revert s. induction Hp as [|x l l' Hp IH|x y l|l1 l2 l3 H1 IH1 H2 IH2]; intros s; cbn [fold_left]; [done|apply IH| |by rewrite IH1].
  f_equal. rewrite (Hf x (f y s)), (Hf y s), (Hf y (f x s)), (Hf x s). set_solver.
Qed.

Section sources.
Variables (p : project) (h : host) (rootDir : bytes).
Abbreviation files_in S := (∀ x, x ∈ S → is_file p x = true).

Lemma object_source_file obj x : object_source p rootDir obj = Some x → is_file p x = true.
Proof.
  unfold object_source. cbv zeta. destruct (nilb _); [done|]. intros H%head_Some_elem_of.
  by apply list_elem_of_In, filter_In in H as [_ ?].
Qed.

Lemma makefile_source_file token x : makefile_source p h rootDir token = Some x → is_file p x = true.
Proof.
  unfold makefile_source. cbv zeta. destruct (_ || _); [done|]. destruct (nilb _); [done|]. destruct (_ && _); [done|].
  destruct (bool_decide _); [apply object_source_file|].
  match goal with |- (if is_file p ?y then _ else _) = _ → _ => destruct (is_file p y) eqn:E; [by intros [= <-]|done] end.
Qed.

Lemma add_source_adds token : adds (addMakefileSource p h rootDir token) ∧ files_in (addMakefileSource p h rootDir token ∅).
Proof.
  unfold adds, addMakefileSource. destruct (makefile_source p h rootDir token) as [x|] eqn:E; cbn [add_source].
  - apply makefile_source_file in E. split; [intros s; generalize x; intros; set_solver|].
    intros y [->%elem_of_singleton|Hy]%elem_of_union; [done|by apply elem_of_empty in Hy].
  - split; [intros s; set_solver|]. intros y Hy. by apply elem_of_empty in Hy.
Qed.

Lemma fold_files {A} (f : A → gset bytes → gset bytes) l : (∀ x, adds (f x) ∧ files_in (f x ∅)) →
  files_in (fold_left (λ s x, f x s) l ∅).
Proof.
  intros Hf. assert (∀ s, files_in s → files_in (fold_left (λ s x, f x s) l s)) as H; [|apply H; set_solver].
  induction l as [|x l IH]; intros s Hs; [done|]. cbn [fold_left]. apply IH. rewrite (proj1 (Hf x) s).
  intros y [Hy|Hy]%elem_of_union; [by apply (proj2 (Hf x))|by apply Hs].
Qed.

Lemma values_adds value : adds (collectSourcesFromMakefileValues p h rootDir value)
  ∧ files_in (collectSourcesFromMakefileValues p h rootDir value ∅).
Proof.
  unfold collectSourcesFromMakefileValues.
  assert (∀ token, adds (λ s, if skipped_flag token then s else addMakefileSource p h rootDir token s)
    ∧ files_in (if skipped_flag token then ∅ else addMakefileSource p h rootDir token ∅)) as H.
  { intros token. destruct (skipped_flag token); [split; [unfold adds|]; set_solver|apply add_source_adds]. }
  split; [apply (fold_adds (λ token s, if skipped_flag token then s else addMakefileSource p h rootDir token s)), H
         |by apply (fold_files (λ token s, if skipped_flag token then s else addMakefileSource p h rootDir token s))].
Qed.

Lemma targets_adds content : adds (collectSourcesFromObjectTargets p h rootDir content)
  ∧ files_in (collectSourcesFromObjectTargets p h rootDir content ∅).
Proof.
  split; [apply (fold_adds (addMakefileSource p h rootDir)), add_source_adds|apply (fold_files (addMakefileSource p h rootDir)), add_source_adds].
Qed.

Lemma add_sources_adds range data : adds (λ s, add_sources p h range rootDir s data)
  ∧ files_in (add_sources p h range rootDir ∅ data).
Proof.
  set (f := λ kv : bytes * bytes, collectSourcesFromMakefileValues p h rootDir kv.2).
  assert (∀ kv, adds (f kv) ∧ files_in (f kv ∅)) as Hf by (intros kv; apply values_adds).
  unfold adds, add_sources. cbv zeta. set (l := range (parseMakefileVars data)).
  assert (adds (λ s, fold_left (λ s kv, f kv s) l s)) as Hl by (apply fold_adds, Hf).
  pose proof (fold_files f l Hf) as Hl'. change (fold_left _ l) with (fold_left (λ s kv, f kv s) l).
  destruct (targets_adds data) as [Ht Ht']. unfold adds in Hl. split.
  - intros s. rewrite (Ht (fold_left (λ s kv, f kv s) l s)), (Ht (fold_left (λ s kv, f kv s) l ∅)), (Hl s). set_solver.
  - intros y. rewrite (Ht (fold_left (λ s kv, f kv s) l ∅)). intros [Hy|Hy]%elem_of_union; [by apply Ht'|by apply Hl'].
Qed.

Lemma add_sources_order range range' s data : range (parseMakefileVars data) ≡ₚ range' (parseMakefileVars data) →
  add_sources p h range rootDir s data = add_sources p h range' rootDir s data.
Proof.
  intros Hr. unfold add_sources. cbv zeta. f_equal.
  apply (fold_adds_perm (λ kv : bytes * bytes, collectSourcesFromMakefileValues p h rootDir kv.2)); [|done]. intros kv. apply values_adds.
Qed.

(** The sources found in makefiles are files, each listed once, in the order
    of their names, and do not depend on the order in which Go goes through the
    variables. *)
Theorem discoverMakefileSources_files range range' : (∀ m, range m ≡ₚ map_to_list m) → (∀ m, range' m ≡ₚ map_to_list m) →
  let sources := discoverMakefileSources p h range rootDir in
  (∀ x, x ∈ sources → is_file p x = true) ∧ NoDup sources ∧ StronglySorted bytes_le sources
  ∧ discoverMakefileSources p h range' rootDir = sources.
Proof.
  intros Hr Hr'. unfold discoverMakefileSources. cbv zeta. set (S := fold_left (add_sources p h range rootDir) _ ∅). split_and!.
  - intros x. unfold sort_Strings. rewrite merge_sort_Permutation. intros Hx%elem_of_elements. revert x Hx. unfold S.
    apply (fold_files (λ data s, add_sources p h range rootDir s data)). intros data. apply add_sources_adds.
  - unfold sort_Strings. rewrite merge_sort_Permutation. apply NoDup_elements.
  - apply StronglySorted_merge_sort; apply _.
  - do 2 f_equal. unfold S. clear S. generalize (∅ : gset bytes). induction (makefiles p rootDir) as [|data l IH]; intros s; [done|].
    cbn [fold_left]. rewrite IH. f_equal. apply add_sources_order. by rewrite Hr, Hr'.
Qed.
End sources.

Definition example_project : project :=
  mk_project (λ path, if bool_decide (path ∈ [bs "/p/Makefile"; bs "/p/main.c"; bs "/p/a.c"]) then Some false else None)
    (λ path, if bool_decide (path = bs "/p/Makefile") then Some (bs "SRC = main.c gone.c" ++ [10] ++ bs "a.o: a.h" ++ [10]) else None)
    (λ _, None) (Some (bs "/p")).
Definition example_host : host := mk_host [] None None (λ _, None) id id.
Lemma discoverMakefileSources_files_witness :
  discoverMakefileSources example_project example_host map_to_list (bs "/p") = [bs "/p/a.c"; bs "/p/main.c"]
  ∧ discoverMakefileSources example_project example_host (λ m, rev (map_to_list m)) (bs "/p") = [bs "/p/a.c"; bs "/p/main.c"].
Proof.
  assert (discoverMakefileSources example_project example_host map_to_list (bs "/p") = [bs "/p/a.c"; bs "/p/main.c"]) as H by (vm_compute; reflexivity).
  split; [exact H|].
  destruct (discoverMakefileSources_files example_project example_host (bs "/p") map_to_list (λ m, rev (map_to_list m))) as (_ & _ & _ & He).
  - done.
  - intros m. symmetry. apply Permutation_rev.
  - rewrite He. exact H.
Defined.

(** ** What is read otherwise than make reads it *)

(** A value whose lines are continued without indentation, or whose last line is
    continued, is lost. *)
Theorem continuation_lost :
  parseMakefileVars (bs "SRC = a.c \" ++ [10] ++ bs "b.c" ++ [10]) !! bs "SRC" = None
  ∧ parseMakefileVars (bs "SRC = a.c \") !! bs "SRC" = None.
Proof. by vm_compute. Qed.

(** Commands and comments with an equals sign are variables; [?=] sets another
    name. *)
Theorem commands_are_variables :
  parseMakefileVars ([9] ++ bs "CC=tcc ./run" ++ [10]) !! bs "CC" = Some (bs "tcc ./run")
  ∧ parseMakefileVars (bs "# CFLAGS = -O0" ++ [10]) !! bs "# CFLAGS" = Some (bs "-O0")
  ∧ parseMakefileVars (bs "CFLAGS ?= -O2" ++ [10]) !! bs "CFLAGS" = None.
Proof. by vm_compute. Qed.

(** A comment behind a value belongs to the value. *)
Theorem trailing_comment_kept :
  parseMakefileVars (bs "CFLAGS = -O2 # -g" ++ [10]) !! bs "CFLAGS" = Some (bs "-O2 # -g").
Proof. by vm_compute. Qed.
