(* ===== verification/Seal.v ===== *)
(** * The seal of an installation (seal/seal.go)

    Sealing writes a digest of the program and the machine and the digests of
    all files beside the program; verifying reads them back. Events are kept in
    a ring of bytes and in a chain of digests. *)
From stdpp Require Import list gmap strings.
From S2P Require Import Prelude GoStrings GoPath ActionCache Utils.

(** The globals of the package. *)
Record seal_state := mk_seal {
  sealed : bool; combinedSeal : bytes; allowed : gset bytes; journalBuf : bytes; journalPos : Z;
  globalState : bytes; decoy : bool }.
Definition zeroes (n : nat) : bytes := replicate n 0.
Definition init_seal (bufLen : nat) : seal_state := mk_seal false (zeroes 32) ∅ (zeroes bufLen) 0 (zeroes 32) false.

(** A directory tree: names, and what is there. *)
Inductive fnode := RegularFile | Directory (entries : list (bytes * fnode)).

(** What the package asks of the system: the path of the program, the contents
    of files, the file with the identity of the machine, /proc/self/status, the
    tree under a directory, and the environment. *)
Record system := mk_system {
  exec_link : option bytes; read_file : bytes → option bytes; machine_id : option bytes;
  status : option bytes; tree_at : bytes → option fnode; env_is : bytes → bytes → bool; create_ok : bytes → bool; set_immutable_ok : bytes → bool }.

Section seal.
(** BLAKE3. *)
Context (blake3 : bytes → bytes).

(** ** The system *)
Definition getExecPath (sys : system) : option bytes := Clean ∘ take 4096 <$> exec_link sys.
Definition getMachineIDZeroAlloc (sys : system) : option bytes := TrimSpace ∘ take 128 <$> machine_id sys.
Definition computeFileHash (sys : system) (path : bytes) : option bytes := blake3 <$> read_file sys path.

(** What unix.Read gives: bytes, none of them at the end of the file, or an
    error number; it never gives io.EOF. *)
Inductive read_result := Got (b : bytes) | Errno (e : string).

(** The loop for a file that cannot be mapped; the [k]-th read is next. *)
Fixpoint read_loop (fuel : nat) (read : nat → read_result) (k : nat) (acc : bytes) : outcome bytes :=
  match fuel with
  | O => Diverge
  | S f =>
      match read k with
      | Got b => read_loop f read (S k) (acc ++ b)
      | Errno e => if bool_decide (e = "EINTR"%string) then read_loop f read (S k) acc else Err e
      end
  end.

Definition isStagingMode (sys : system) : bool := env_is sys (bs "FZ_STAGING") (bs "1").

(** The first line with the field decides. *)
Fixpoint tracer_line (lines : list bytes) : bool :=
  match lines with
  | [] => false
  | line :: r => if HasPrefix line (bs "TracerPid:") then negb (bool_decide (TrimSpace (drop 10 line) = bs "0")) else tracer_line r
  end.
Definition debuggerPresent (sys : system) : bool :=
  if env_is sys (bs "FZ_DEBUGGER_SIMULATE") (bs "1") then true
  else match status sys with
       | Some data => if nilb data then false else tracer_line (split_byte 10 (take 512 data))
       | None => false
       end.
Definition traced (sys : system) : bool := debuggerPresent sys && negb (isStagingMode sys).

(** The files under a directory, depth first. *)
Fixpoint walk_node (path : bytes) (n : fnode) : list bytes :=
  match n with
  | RegularFile => [path]
  | Directory entries =>
      concat (map (λ e, if bool_decide (e.1 = dot) || bool_decide (e.1 = dotdot) then [] else walk_node (filepath_Join path e.1) e.2) entries)
  end.
Definition walkProjectFiles (sys : system) (root : bytes) : option (list bytes) :=
  walk_node (Clean root) <$> tree_at sys (Clean root).

(** ** The journal and the chain *)
Definition UpdateGlobalState (data : bytes) (s : seal_state) : seal_state :=
  mk_seal (sealed s) (combinedSeal s) (allowed s) (journalBuf s) (journalPos s) (blake3 (globalState s ++ data)) (decoy s).

(** [copy(buf[at:], data)]: what does not fit is left out. *)
Definition copy_at (buf : bytes) (at_ : nat) (data : bytes) : bytes :=
  let n := Nat.min (length data) (length buf - at_) in
  take at_ buf ++ take n data ++ drop (at_ + n) buf.

Definition JournalEvent (data : bytes) (s : seal_state) : seal_state :=
  let buf := journalBuf s in
  let n := u32 (Zlen data) in
  if nilb buf then s
  else if n =? 0 then s
  else
    let bufLen := Zlen buf in
    let idx := Z.to_nat (journalPos s mod bufLen) in
    let first := (length buf - idx)%nat in
    let buf := if (Z.to_nat n <=? first)%nat then copy_at buf idx (take (Z.to_nat n) data)
               else copy_at (copy_at buf idx (take first data)) 0 (drop first data) in
    UpdateGlobalState data
      (mk_seal (sealed s) (combinedSeal s) (allowed s) buf (u32 (journalPos s + n)) (globalState s) (decoy s)).

Definition triggerDecoy (s : seal_state) : seal_state :=
  if decoy s then s
  else mk_seal (sealed s) (zeroes 32) (allowed s) (zeroes (length (journalBuf s))) 0 (zeroes 32) true.

Definition resetSealState (s : seal_state) : seal_state := init_seal (length (journalBuf s)).

(** ** Sealing *)
Definition hex_line (h path : bytes) : bytes := EncodeToString h ++ [9] ++ path ++ [10].

(** The system while the seal file, at [path], holds [data]. *)
Definition with_file (path data : bytes) (sys : system) : system :=
  mk_system (exec_link sys) (λ p, if bool_decide (p = path) then Some data else read_file sys p) (machine_id sys)
    (status sys) (tree_at sys) (env_is sys) (create_ok sys) (set_immutable_ok sys).

(** The line of each file, with the digest of what the file holds while it is
    its turn - the seal file holds the lines [written] before it - and the
    journal; stops at the first file that cannot be read. *)
Fixpoint seal_files (sys : system) (sealFile : bytes) (files : list bytes) (written : bytes) (s : seal_state) : bytes * seal_state * bool :=
  match files with
  | [] => (written, s, true)
  | path :: r =>
      match computeFileHash (with_file sealFile written sys) path with
      | None => (written, s, false)
      | Some h => seal_files sys sealFile r (written ++ hex_line h path) (JournalEvent h s)
      end
  end.

Definition seal_name : bytes := bs ".fz_seal".
Definition sealPath (execPath : bytes) : bytes := filepath_Join (Dir execPath) seal_name.

(** A file is added to a directory, whose entries are in the order of their
    names, unless it is there. *)
Fixpoint add_entry (name : bytes) (entries : list (bytes * fnode)) : list (bytes * fnode) :=
  match entries with
  | [] => [(name, RegularFile)]
  | e :: r => if bool_decide (e.1 = name) then entries
              else if bool_decide (bytes_le name e.1) then (name, RegularFile) :: entries
              else e :: add_entry name r
  end.
Definition has_directory (name : bytes) (entries : list (bytes * fnode)) : bool :=
  existsb (λ e, bool_decide (e.1 = name) && match e.2 with Directory _ => true | RegularFile => false end) entries.

(** Opening the seal file creates or truncates it, in the directory that is
    walked afterwards; a directory of that name cannot be opened. *)
Definition create_seal (execPath : bytes) (sys : system) : option system :=
  let dir := Clean (Dir execPath) in
  let opened tree := with_file (sealPath execPath) []
    (mk_system (exec_link sys) (read_file sys) (machine_id sys) (status sys) tree (env_is sys) (create_ok sys) (set_immutable_ok sys)) in
  if negb (create_ok sys (sealPath execPath)) then None
  else match tree_at sys dir with
       | Some (Directory entries) =>
           if has_directory seal_name entries then None
           else Some (opened (λ d, if bool_decide (d = dir) then Some (Directory (add_entry seal_name entries)) else tree_at sys d))
       | _ => Some (opened (tree_at sys))
       end.

(** The state it leaves, what it wrote into the seal file, and its error. *)
Definition Seal (sys : system) (s : seal_state) : seal_state * option bytes * option string :=
  if traced sys then (triggerDecoy s, None, None)
  else
    match getExecPath sys with
    | None => (s, None, Some "readlink"%string)
    | Some execPath =>
        match computeFileHash sys execPath with
        | None => (s, None, Some "open"%string)
        | Some execHash =>
            match getMachineIDZeroAlloc sys with
            | None => (s, None, Some "open"%string)
            | Some mid =>
                let sum := blake3 (execHash ++ mid) in
                let s := mk_seal (sealed s) sum (allowed s) (journalBuf s) (journalPos s) (globalState s) (decoy s) in
                let head := EncodeToString sum ++ [10] in
                match create_seal execPath sys with
                | None => (s, None, Some "open"%string)
                | Some sys =>
                    match walkProjectFiles sys (Dir execPath) with
                    | None => (s, Some head, Some "lstat"%string)
                    | Some files =>
                        let '(text, s, ok) := seal_files sys (sealPath execPath) files head s in
                        if negb ok then (s, Some text, Some "open"%string)
                        else if negb (isStagingMode sys) && negb (set_immutable_ok sys (sealPath execPath)) then (s, Some text, Some "ioctl"%string)
                        else (mk_seal true (combinedSeal s) (allowed s) (journalBuf s) (journalPos s) (globalState s) (decoy s),
                              Some text, None)
                    end
                end
            end
        end
    end.

(** ** Verifying *)
Definition hex_value (c : Z) : option Z :=
  if (48 <=? c) && (c <=? 57) then Some (c - 48)
  else if (97 <=? c) && (c <=? 102) then Some (c - 87)
  else if (65 <=? c) && (c <=? 70) then Some (c - 55)
  else None.

(** hex.Decode into [room] bytes: [None] is its error, and more digits than fit
    are an index out of range. *)
Fixpoint hex_decode (room : nat) (src : bytes) {struct src} : outcome (option bytes) :=
  match src with
  | a :: b :: r =>
      match hex_value a, hex_value b with
      | Some x, Some y =>
          match room with
          | O => Panic
          | S k => rest ← hex_decode k r; Ok (option_map (cons (16 * x + y)) rest)
          end
      | _, _ => Ok None
      end
  | [_] => Ok None
  | [] => Ok (Some [])
  end.

Definition line_digest (l : bytes) : option bytes :=
  let l := TrimSpace l in if nilb l then None else head (split_n 2 9 l).
Definition allowed_lines (lines : list bytes) : gset bytes := list_to_set (omap line_digest lines).

(** The state, and what it returns. The second look for a debugger, at a digest
    that differs, sees what the first saw. *)
Definition Verify (sys : system) (s : seal_state) : seal_state * outcome bool :=
  if sealed s then (s, Ok true)
  else if traced sys then (triggerDecoy s, Ok true)
  else
    match getExecPath sys with
    | None => (s, Err "readlink")
    | Some execPath =>
      match read_file sys (sealPath execPath) with
      | None => (s, Err "open")
      | Some data =>
        if nilb data then (s, Ok false)
        else
          let lines := split_byte 10 data in
          match hex_decode 32 (TrimSpace (default [] (head lines))) with
          | Ok None => (s, Ok false)
          | Ok (Some d) =>
              let sealHash := d ++ zeroes (32 - length d) in
              match computeFileHash sys execPath, getMachineIDZeroAlloc sys with
              | None, _ | _, None => (s, Err "open")
              | Some execHash, Some mid =>
                  let local := blake3 (execHash ++ mid) in
                  if negb (bool_decide (local = sealHash)) then (s, Ok false)
                  else (mk_seal true local (allowed_lines (tail lines)) (journalBuf s) (journalPos s) (globalState s) (decoy s), Ok true)
              end
          | Err e => (s, Err e)
          | Panic => (s, Panic)
          | Diverge => (s, Diverge)
          end
      end
    end.

Definition IsAllowedHex (h : bytes) (s : seal_state) : bool := bool_decide (h ∈ allowed s).
Definition IsDecoyMode (s : seal_state) : bool := decoy s.
Definition GetCombined (s : seal_state) : bytes := combinedSeal s.
Definition getGlobalState (s : seal_state) : bytes := globalState s.
End seal.

(** ** The journal is a ring *)

(** A byte is written at the position, modulo the size of the buffer. *)
Definition write_byte (s : bytes * Z) (b : Z) : bytes * Z := (<[Z.to_nat (s.2 mod Zlen s.1) := b]> s.1, s.2 + 1).
Definition write_bytes (data : bytes) (s : bytes * Z) : bytes * Z := fold_left write_byte data s.

Lemma write_bytes_fits data buf pos : 0 ≤ pos → (length data ≤ length buf - Z.to_nat (pos mod Zlen buf))%nat →
  write_bytes data (buf, pos) = (copy_at buf (Z.to_nat (pos mod Zlen buf)) data, pos + Zlen data).
Proof.
  intros Hp. set (idx := Z.to_nat (pos mod Zlen buf)). unfold write_bytes, copy_at.
  induction data as [|b data IH] using rev_ind; intros Hl.
  - cbn. rewrite Nat.add_0_r, take_drop. f_equal. lia.
  - rewrite length_app in *. cbn [length] in *. rewrite fold_left_app. cbn [fold_left]. rewrite IH by lia.
    rewrite !Nat.min_l by lia.
    rewrite (take_ge data (length data)), (take_ge (data ++ [b])) by (rewrite ?length_app; cbn; lia).
    assert (0 < Zlen buf) as Hb by lia. pose proof (Z.mod_pos_bound pos (Zlen buf) Hb) as Hm.
    assert (length (take idx buf ++ data ++ drop (idx + length data) buf) = length buf) as Hlen.
    { rewrite !length_app, length_take, length_drop. lia. }
    unfold write_byte. cbn [fst snd]. rewrite Hlen.
    assert (Z.to_nat ((pos + Zlen data) mod Zlen buf) = (idx + length data)%nat) as ->.
    { rewrite <- Zplus_mod_idemp_l. rewrite Z.mod_small by lia. lia. }
    f_equal; [|lia]. rewrite (assoc_L (++)), insert_app_r_alt by (rewrite length_app, length_take; lia).
    rewrite length_app, length_take, Nat.min_l by lia. rewrite Nat.sub_diag.
    destruct (drop (idx + length data) buf) as [|c r] eqn:Ed.
    { apply (f_equal length) in Ed. rewrite length_drop in Ed. cbn in Ed. lia. }
    change (<[0%nat:=b]> (c :: r)) with (b :: r). rewrite <- !(assoc_L (++)). do 2 f_equal. cbn [app]. f_equal.
    replace (idx + (length data + 1))%nat with (S (idx + length data)) by lia.
    assert (buf !! (idx + length data)%nat = Some c) as Hc.
    { by rewrite <- (Nat.add_0_r (idx + length data)), <- lookup_drop, Ed. }
    rewrite (drop_S _ _ _ Hc) in Ed. by injection Ed as ->.
Qed.

Lemma write_bytes_app a b s : write_bytes (a ++ b) s = write_bytes b (write_bytes a s).
Proof. apply fold_left_app. Qed.

Lemma write_bytes_state stream buf pos : length (write_bytes stream (buf, pos)).1 = length buf ∧ (write_bytes stream (buf, pos)).2 = pos + Zlen stream.
Proof.
  induction stream as [|b stream [IH1 IH2]] using rev_ind; [cbn; split; [done|lia]|].
  rewrite write_bytes_app. cbn [write_bytes fold_left]. unfold write_byte. cbn [fst snd].
  rewrite length_insert, IH1, IH2, length_app. cbn [length]. split; [done|lia].
Qed.

(** The last bytes are found at their positions. *)
Lemma write_bytes_window stream buf : buf ≠ [] → ∀ p b, stream !! p = Some b → (length stream ≤ p + length buf)%nat →
  (write_bytes stream (buf, 0)).1 !! (p mod length buf)%nat = Some b.
Proof.
  intros Hb. assert (length buf ≠ 0%nat) as Hl by (by destruct buf).
  induction stream as [|x stream IH] using rev_ind; intros p b Hp Hle; [done|].
  rewrite write_bytes_app. cbn [write_bytes fold_left]. unfold write_byte. cbn [fst snd].
  destruct (write_bytes_state stream buf 0) as [-> H2]. rewrite H2. rewrite length_app in Hle. cbn in Hle.
  assert (Z.to_nat ((0 + Zlen stream) mod Zlen buf) = (length stream mod length buf)%nat) as ->.
  { rewrite Z.add_0_l, <- Nat2Z.inj_mod. apply Nat2Z.id. }
  destruct (decide (p = length stream)) as [->|Hne].
  - rewrite lookup_app_r, Nat.sub_diag in Hp by done. injection Hp as ->.
    apply list_lookup_insert_eq. destruct (write_bytes_state stream buf 0) as [-> _]. by apply Nat.mod_upper_bound.
  - assert (p < length stream)%nat as Hlt.
    { apply lookup_lt_Some in Hp. rewrite length_app in Hp. cbn in Hp. lia. }
    rewrite lookup_app_l in Hp by done. rewrite list_lookup_insert_ne; [apply IH; [done|lia]|].
    intros Heq. pose proof (Nat.div_mod p (length buf) Hl) as Hq1. pose proof (Nat.div_mod (length stream) (length buf) Hl) as Hq2.
    rewrite Heq in Hq2. revert Hq1 Hq2. generalize (p mod length buf)%nat, (p / length buf)%nat, (length stream / length buf)%nat.
    intros r qp qn Hq1 Hq2. destruct (decide (qn ≤ qp)%nat); nia.
Qed.

Section journal.
Context (blake3 : bytes → bytes).
Abbreviation event := (λ s d, JournalEvent blake3 d s).

Lemma JournalEvent_writes d s total : (Zlen (journalBuf s) | 2 ^ 32) → (length d ≤ length (journalBuf s))%nat →
  journalBuf s ≠ [] → 0 ≤ total → journalPos s = u32 total → Zlen d < 2 ^ 32 →
  journalBuf (JournalEvent blake3 d s) = (write_bytes d (journalBuf s, total)).1
  ∧ journalPos (JournalEvent blake3 d s) = u32 (total + Zlen d)
  ∧ globalState (JournalEvent blake3 d s) = (if nilb d then globalState s else blake3 (globalState s ++ d)).
Proof.
  intros [q Hq] Hd Hne Ht Hpos Hlen. unfold JournalEvent. destruct (journalBuf s) as [|x l] eqn:Eb; [done|]. cbn [nilb].
  set (buf := x :: l) in *. rewrite (wrap_small 32 (Zlen d)) by (unfold is_word; lia).
  destruct d as [|y d'] eqn:Ed.
  { change (Zlen [] =? 0) with true. cbv iota. rewrite Eb, Hpos, Z.add_0_r. done. }
  rewrite <- Ed in *. assert (0 < Zlen d) as Hd0 by (subst d; cbn [length]; lia).
  rewrite (proj2 (Z.eqb_neq _ _)) by lia. assert (nilb d = false) as -> by (by subst d). clear Ed d' y.
  assert (0 < Zlen buf) as Hb by (unfold buf; cbn [length]; lia).
  assert (journalPos s mod Zlen buf = total mod Zlen buf) as Hmod.
  { rewrite Hpos. unfold wrap. rewrite Hq, Z.mul_comm. rewrite Z.rem_mul_r by (unfold buf in *; nia).
    by rewrite (Z.mul_comm (Zlen buf)), Z_mod_plus_full, Z.mod_mod by lia. }
  rewrite Hmod. set (idx := Z.to_nat (total mod Zlen buf)). pose proof (Z.mod_pos_bound total (Zlen buf) Hb) as Hm.
  rewrite Nat2Z.id. unfold UpdateGlobalState. cbn [journalBuf journalPos globalState].
  split_and!; [| |done].
  - destruct (Nat.leb_spec (length d) (length buf - idx)) as [Hf|Hf].
    + rewrite write_bytes_fits by (unfold idx in Hf; lia). by rewrite take_ge by lia.
    + set (first := (length buf - idx)%nat) in *. rewrite <- (take_drop first d) at 3. rewrite write_bytes_app.
      assert (length (take first d) = first) as Hlt by (rewrite length_take; lia).
      rewrite write_bytes_fits by (unfold idx, first in *; lia). fold idx.
      assert (length (copy_at buf idx (take first d)) = length buf) as Hc.
      { unfold copy_at. rewrite !length_app, !length_take, length_drop. lia. }
      assert ((total + Zlen (take first d)) mod Zlen buf = 0) as Hz.
      { rewrite Hlt. unfold first, idx. rewrite Nat2Z.inj_sub, Z2Nat.id by lia.
        replace (total + (Zlen buf - total mod Zlen buf)) with (total - total mod Zlen buf + 1 * Zlen buf) by lia.
        rewrite Z_mod_plus_full, Zminus_mod_idemp_r. by rewrite Z.sub_diag. }
      rewrite write_bytes_fits; [by rewrite Hc, Hz|lia|rewrite Hc, Hz, length_drop; change (Z.to_nat 0) with 0%nat; lia].
  - rewrite Hpos. unfold wrap. by rewrite Zplus_mod_idemp_l.
Qed.

(** C40 After events none of which is longer than the buffer (the callers pass
    digests of 32 bytes), where the size of the buffer divides 2^32, the journal
    holds the last bytes of the events, each at its position in their sequence
    modulo the size of the buffer, however often the 32-bit position has wrapped
    around, and the state of the chain is the digest folded over the events. *)
Theorem journal_window s evs :
  (Zlen (journalBuf s) | 2 ^ 32) → Zlen (journalBuf s) < 2 ^ 32 → journalBuf s ≠ [] → journalPos s = 0 →
  Forall (λ d, (length d ≤ length (journalBuf s))%nat) evs →
  let s' := fold_left (λ s d, JournalEvent blake3 d s) evs s in
  (∀ p b, concat evs !! p = Some b → (length (concat evs) ≤ p + length (journalBuf s))%nat →
     journalBuf s' !! (p mod length (journalBuf s))%nat = Some b)
  ∧ globalState s' = fold_left (λ g d, if nilb d then g else blake3 (g ++ d)) evs (globalState s).
Proof.
  intros Hdiv Hsmall Hne Hpos Hevs s'.
  assert (journalBuf s' = (write_bytes (concat evs) (journalBuf s, 0)).1 ∧ journalPos s' = u32 (Zlen (concat evs))
    ∧ globalState s' = fold_left (λ g d, if nilb d then g else blake3 (g ++ d)) evs (globalState s)) as (H1 & _ & H3).
  { unfold s'. clear s'. induction evs as [|d evs IH] using rev_ind.
    - cbn. by rewrite Hpos.
    - apply Forall_app in Hevs as [Hevs [Hd _]%Forall_cons]. destruct (IH Hevs) as (I1 & I2 & I3).
      rewrite !fold_left_app, concat_app. cbn [fold_left concat]. rewrite app_nil_r.
      destruct (write_bytes_state (concat evs) (journalBuf s) 0) as [J1 J2].
      assert (length (journalBuf (fold_left event evs s)) = length (journalBuf s)) as Hlen by (by rewrite I1, J1).
      destruct (JournalEvent_writes d (fold_left event evs s) (Zlen (concat evs))) as (K1 & K2 & K3).
      + by rewrite Hlen.
      + by rewrite Hlen.
      + intros E. rewrite E in Hlen. by destruct (journalBuf s).
      + lia.
      + done.
      + lia.
      + split_and!.
        * rewrite K1, I1, write_bytes_app. f_equal. f_equal. rewrite (surjective_pairing (write_bytes (concat evs) _)), J2. cbn. f_equal.
        * rewrite K2, length_app. f_equal. lia.
        * by rewrite K3, I3. }
  split; [|done]. intros p b Hp Hle. rewrite H1. by apply write_bytes_window.
Qed.
End journal.

(** ** Sealing and verifying *)
Lemma hex_value_digit d : 0 ≤ d < 16 → hex_value (hex_digit d) = Some d ∧ graphic (hex_digit d).
Proof.
  intros H. unfold hex_value, hex_digit, graphic. destruct (Z.ltb_spec d 10).
  - replace ((48 <=? 48 + d) && (48 + d <=? 57)) with true by lia. split; [f_equal; lia|lia].
  - replace ((48 <=? 87 + d) && (87 + d <=? 57)) with false by lia.
    replace ((97 <=? 87 + d) && (87 + d <=? 102)) with true by lia. split; [f_equal; lia|lia].
Qed.

Lemma nibbles x : is_byte x → 0 ≤ Z.shiftr x 4 < 16 ∧ 0 ≤ Z.land x 15 < 16 ∧ 16 * Z.shiftr x 4 + Z.land x 15 = x.
Proof.
  intros H. unfold is_byte in H. rewrite Z.shiftr_div_pow2 by lia. change 15 with (Z.ones 4). rewrite Z.land_ones by lia.
  change (2 ^ 4) with 16. pose proof (Z.div_mod x 16 ltac:(lia)). pose proof (Z.mod_pos_bound x 16 ltac:(lia)).
  pose proof (Z.div_lt_upper_bound x 16 16 ltac:(lia) ltac:(lia)). pose proof (Z.div_pos x 16 ltac:(lia) ltac:(lia)). lia.
Qed.

Lemma hex_decode_encode d room : Forall is_byte d → (length d ≤ room)%nat → hex_decode room (EncodeToString d) = Ok (Some d).
Proof.
  intros H. revert room. unfold EncodeToString. induction H as [|x d Hx Hd IH]; intros room Hl; [done|].
  cbn [map concat app length] in *. destruct room as [|k]; [lia|]. cbn [hex_decode].
  destruct (nibbles x Hx) as (H1 & H2 & H3). destruct (hex_value_digit _ H1) as [-> _], (hex_value_digit _ H2) as [-> _].
  change (?a :: ?b :: ?r) with ([a; b] ++ r). rewrite IH by lia. cbn. by rewrite H3.
Qed.

Lemma hex_graphic d : Forall is_byte d → Forall graphic (EncodeToString d).
Proof.
  intros H. unfold EncodeToString. induction H as [|x d Hx Hd IH]; [constructor|]. cbn [map concat app].
  destruct (nibbles x Hx) as (H1 & H2 & _). constructor; [exact (proj2 (hex_value_digit _ H1))|]. constructor; [exact (proj2 (hex_value_digit _ H2))|exact IH].
Qed.

Lemma hex_nonempty d : d ≠ [] → EncodeToString d ≠ [].
Proof. by destruct d. Qed.

Lemma trim_right_word w t : Forall graphic w → trim_right (w ++ t) = w ++ trim_right t.
Proof.
  induction 1 as [|c w Hc Hw IH]; [done|]. cbn [app trim_right]. rewrite trim_left_graphic by done. cbn [nilb]. by rewrite IH.
Qed.

(** A line of the seal file gives its digest back, whatever the path. *)
Lemma hex_line_digest d path : d ≠ [] → Forall is_byte d →
  let l := TrimSpace (EncodeToString d ++ 9 :: path) in nilb l = false ∧ head (split_n 2 9 l) = Some (EncodeToString d).
Proof.
  intros Hne Hd l. pose proof (hex_graphic d Hd) as Hg. pose proof (hex_nonempty d Hne) as Hn. unfold l, TrimSpace. clear l.
  set (w := EncodeToString d) in *. clearbody w.
  assert (trim_left 0 (w ++ 9 :: path) = w ++ 9 :: path) as ->.
  { destruct w as [|c w]; [done|]. apply Forall_cons in Hg as [Hc _]. by apply trim_left_graphic. }
  rewrite trim_right_word by done.
  assert (trim_right (9 :: path) = [] ∨ ∃ t, trim_right (9 :: path) = 9 :: t) as Ht.
  { cbn [trim_right]. destruct (nilb _); [by left|right; by eexists]. }
  assert (Forall (λ x, negb (x =? 9) = true) w) as Hw by (eapply Forall_impl; [exact Hg|]; unfold graphic; intros; lia).
  split; [by destruct w|]. destruct Ht as [-> | [t ->]]; cbn [split_n].
  - rewrite app_nil_r. rewrite <- (app_nil_r w) at 1. by rewrite span_all.
  - by rewrite span_all.
Qed.

Lemma line_digest_hex d path : d ≠ [] → Forall is_byte d → line_digest (EncodeToString d ++ 9 :: path) = Some (EncodeToString d).
Proof. intros Hne Hd. unfold line_digest. by destruct (hex_line_digest d path Hne Hd) as [-> ->]. Qed.

(** ** The loop that reads *)
(** The loop has no end but an error: at the end of a file it reads on. *)
Lemma read_loop_never fuel read k acc b : read_loop fuel read k acc ≠ Ok b.
Proof.
  revert k acc. induction fuel as [|f IH]; intros k acc; cbn [read_loop]; [done|].
  destruct (read k); [apply IH|]. case_bool_decide; [apply IH|done].
Qed.

Lemma read_loop_diverges fuel read k acc : (∀ k, ∃ b, read k = Got b) → read_loop fuel read k acc = Diverge.
Proof.
  intros H. revert k acc. induction fuel as [|f IH]; intros k acc; cbn [read_loop]; [done|]. destruct (H k) as [b ->]. apply IH.
Qed.

Section verify.
Context (blake3 : bytes → bytes).
Hypothesis blake3_length : ∀ x, length (blake3 x) = 32%nat.
Hypothesis blake3_bytes : ∀ x, Forall is_byte (blake3 x).

Lemma blake3_nonempty x : blake3 x ≠ [].
Proof. pose proof (blake3_length x). by destruct (blake3 x). Qed.

(** What the seal file holds when the digests [hs] of [files] are written. *)
Definition seal_text (sum : bytes) (hs files : list bytes) : bytes :=
  EncodeToString sum ++ 10 :: concat (zip_with (λ h p, EncodeToString h ++ 9 :: p ++ [10]) hs files).

(** The digests of files: the seal file is digested as it is when its turn comes,
    with the lines of the files before it, the other files as they are. *)
Definition digests_at (sys : system) (sealFile sum : bytes) (files hs : list bytes) : Prop :=
  length hs = length files ∧
  ∀ i p h, files !! i = Some p → hs !! i = Some h →
    ∃ data, h = blake3 data ∧
      if decide (p = sealFile) then data = seal_text sum (take i hs) (take i files) else read_file sys p = Some data.

Lemma seal_text_snoc sum hs files h p : length hs = length files →
  seal_text sum (hs ++ [h]) (files ++ [p]) = seal_text sum hs files ++ hex_line h p.
Proof.
  intros Hl. unfold seal_text. rewrite zip_with_app by done. rewrite concat_app. cbn [zip_with concat].
  rewrite app_nil_r. unfold hex_line. rewrite <- (assoc_L (++)). cbn. done.
Qed.

Lemma seal_files_lines sys sealFile sum hs0 files0 files s text s' :
  digests_at sys sealFile sum files0 hs0 →
  seal_files blake3 sys sealFile files (seal_text sum hs0 files0) s = (text, s', true) →
  ∃ hs, digests_at sys sealFile sum (files0 ++ files) hs ∧ text = seal_text sum hs (files0 ++ files).
Proof.
  revert hs0 files0 s. induction files as [|p r IH]; intros hs0 files0 s Hd; cbn [seal_files].
  - intros [= <- <-]. rewrite app_nil_r. by exists hs0.
  - unfold computeFileHash. cbn [with_file read_file]. destruct Hd as [Hl Hd].
    destruct (if bool_decide (p = sealFile) then _ else _) as [data|] eqn:Ed; [|done]. cbn [fmap option_fmap option_map].
    rewrite <- seal_text_snoc by done. intros Hs. replace (files0 ++ p :: r) with ((files0 ++ [p]) ++ r) by by rewrite <- (assoc_L (++)).
    eapply IH; [|exact Hs]. split; [rewrite !length_app; cbn; lia|]. intros i q h Hq Hh.
    destruct (decide (i < length hs0)%nat) as [Hi|Hi].
    + rewrite lookup_app_l in Hq by lia. rewrite lookup_app_l in Hh by lia. rewrite !take_app_le by lia. by apply Hd.
    + assert (i = length hs0) as -> by (apply lookup_lt_Some in Hh; rewrite length_app in Hh; cbn in Hh; lia).
      rewrite lookup_app_r in Hh by lia. rewrite lookup_app_r in Hq by lia. rewrite Hl, Nat.sub_diag in Hq. rewrite Nat.sub_diag in Hh.
      injection Hq as <-. injection Hh as <-. rewrite take_app_length, Hl, take_app_length. exists data. split; [done|].
      case_bool_decide; destruct (decide _); try done. by injection Ed as <-.
Qed.

(** *** The directory with the seal file in it *)
Lemma elem_of_add_entry name entries e : has_directory name entries = false →
  e ∈ add_entry name entries ↔ e ∈ entries ∨ e = (name, RegularFile).
Proof.
  induction entries as [|[n x] r IH]; cbn [add_entry has_directory existsb fst snd].
  - rewrite list_elem_of_singleton. split; [by right|by intros [?%not_elem_of_nil|?]].
  - intros [Hx Hr]%orb_false_iff. repeat case_bool_decide; rewrite !elem_of_cons, ?IH by done; [|tauto..].
    subst n. destruct x; [|done]. tauto.
Qed.

Lemma elem_of_walk dir entries p : p ∈ walk_node dir (Directory entries) ↔
  ∃ e, e ∈ entries ∧ e.1 ≠ dot ∧ e.1 ≠ dotdot ∧ p ∈ walk_node (filepath_Join dir e.1) e.2.
Proof.
  cbn [walk_node]. rewrite list_elem_of_In, in_concat. setoid_rewrite in_map_iff. setoid_rewrite <- list_elem_of_In. split.
  - intros (l & (e & <- & He) & Hp). exists e. repeat case_bool_decide; cbn [orb] in Hp; try by apply not_elem_of_nil in Hp. done.
  - intros (e & He & H1 & H2 & Hp). eexists. split; [by exists e|]. by rewrite !bool_decide_eq_false_2.
Qed.

(** The walk that Seal makes meets the files beside the program, and the seal
    file that it has just created. *)
Lemma walk_with_seal sys sys1 execPath entries files :
  create_seal execPath sys = Some sys1 → tree_at sys (Clean (Dir execPath)) = Some (Directory entries) →
  walkProjectFiles sys1 (Dir execPath) = Some files →
  ∀ p, p ∈ files ↔ p ∈ walk_node (Dir execPath) (Directory entries) ∨ p = sealPath execPath.
Proof.
  unfold create_seal. destruct (negb _); [done|]. intros Hc Ht. rewrite Ht in Hc.
  destruct (has_directory seal_name entries) eqn:Hd; [done|]. injection Hc as <-.
  unfold walkProjectFiles. cbn [with_file tree_at]. rewrite bool_decide_eq_true_2 by done. intros Hw p. apply (inj Some) in Hw as <-.
  assert (Clean (Dir execPath) = Dir execPath) as -> by apply Clean_idempotent.
  rewrite !elem_of_walk. pose proof (λ e, elem_of_add_entry seal_name entries e Hd) as Ha. setoid_rewrite Ha. split.
  - intros (e & [He | ->] & H1 & H2 & Hp); [left; by exists e|right]. by apply list_elem_of_singleton in Hp.
  - intros [(e & He & H) | ->]; [exists e; by split; [left|]|]. exists (seal_name, RegularFile).
    split_and!; [by right|done..|by apply list_elem_of_singleton].
Qed.

Lemma split_seal_lines hs files : Forall (λ h, Forall is_byte h) hs → Forall (λ p, 10 ∉ p) files → length hs = length files →
  split_byte 10 (concat (zip_with (λ h p, EncodeToString h ++ 9 :: p ++ [10]) hs files)) = zip_with (λ h p, EncodeToString h ++ 9 :: p) hs files ++ [[]].
Proof.
  intros Hh. revert files. induction Hh as [|h hs Hb Hh IH]; intros [|p files] Hf Hl; try done.
  apply Forall_cons in Hf as [Hp Hf]. cbn [zip_with concat app].
  replace ((EncodeToString h ++ 9 :: p ++ [10]) ++ concat (zip_with (λ h p, EncodeToString h ++ 9 :: p ++ [10]) hs files))
    with ((EncodeToString h ++ 9 :: p) ++ 10 :: concat (zip_with (λ h p, EncodeToString h ++ 9 :: p ++ [10]) hs files)) by (rewrite <- !(assoc_L (++)); cbn; by rewrite <- (assoc_L (++))).
  rewrite split_byte_app; [by rewrite IH by (done || by injection Hl)|].
  rewrite elem_of_app, elem_of_cons. intros [Hin | [Hin | Hin]]; [|done..].
  pose proof (hex_graphic h Hb) as Hg. rewrite Forall_forall in Hg. apply Hg in Hin. unfold graphic in Hin. lia.
Qed.

Lemma allowed_digests hs files : Forall (λ h, h ≠ [] ∧ Forall is_byte h) hs → length hs = length files →
  allowed_lines (zip_with (λ h p, EncodeToString h ++ 9 :: p) hs files ++ [[]]) = list_to_set (map EncodeToString hs).
Proof.
  intros Hh Hl. unfold allowed_lines. f_equal. rewrite omap_app. cbn. rewrite app_nil_r. revert files Hl.
  induction Hh as [|h hs [Hne Hb] Hh IH]; intros [|p files] Hl; try done. cbn [zip_with omap list_omap map].
  rewrite (line_digest_hex h p Hne Hb). f_equal. apply IH. by injection Hl.
Qed.

Lemma create_seal_reads sys sys1 execPath p : create_seal execPath sys = Some sys1 → p ≠ sealPath execPath →
  read_file sys1 p = read_file sys p.
Proof.
  unfold create_seal. intros H Hp. destruct (negb _); [done|].
  destruct (tree_at sys _) as [[|es]|]; [|destruct (has_directory _ _); [done|]|]; injection H as <-; cbn [with_file read_file];
    by rewrite bool_decide_eq_false_2.
Qed.

Lemma digests_bytes sys sealFile sum files hs : digests_at sys sealFile sum files hs → Forall (λ h, h ≠ [] ∧ Forall is_byte h) hs.
Proof.
  intros [Hl Hd]. apply Forall_lookup_2. intros i h Hh.
  destruct (lookup_lt_is_Some_2 files i) as [p Hp]; [apply lookup_lt_Some in Hh; lia|].
  destruct (Hd i p h Hp Hh) as (data & -> & _). split; [apply blake3_nonempty|apply blake3_bytes].
Qed.

(** Verify reads the seal: the digest of its first line, and the digests of the
    other lines. *)
Lemma Verify_reads sys s0 execPath execHash mid sum hs files :
  sealed s0 = false → traced sys = false → getExecPath sys = Some execPath →
  read_file sys (sealPath execPath) = Some (seal_text sum hs files) →
  computeFileHash blake3 sys execPath = Some execHash → getMachineIDZeroAlloc sys = Some mid →
  length sum = 32%nat → Forall is_byte sum → Forall (λ p, 10 ∉ p) files → length hs = length files →
  Forall (λ h, h ≠ [] ∧ Forall is_byte h) hs →
  Verify blake3 sys s0 =
    if bool_decide (blake3 (execHash ++ mid) = sum)
    then (mk_seal true (blake3 (execHash ++ mid)) (list_to_set (map EncodeToString hs)) (journalBuf s0) (journalPos s0) (globalState s0) (decoy s0), Ok true)
    else (s0, Ok false).
Proof.
  intros Hs0 Ht He Hr Hh Hm H32 Hb Hf Hl Hhs. unfold Verify. rewrite Hs0, Ht, He, Hr, Hh, Hm.
  assert (sum ≠ []) as Hne by by destruct sum.
  pose proof (hex_graphic sum Hb) as Hg. pose proof (hex_nonempty sum Hne) as Hn.
  assert (split_byte 10 (seal_text sum hs files)
          = EncodeToString sum :: zip_with (λ h p, EncodeToString h ++ 9 :: p) hs files ++ [[]]) as ->.
  { unfold seal_text. rewrite split_byte_app by (rewrite Forall_forall in Hg; intros H%Hg; unfold graphic in H; lia).
    f_equal. apply split_seal_lines; [|done..]. eapply Forall_impl; [exact Hhs|]. by intros h [_ ?]. }
  assert (nilb (seal_text sum hs files) = false) as -> by (unfold seal_text; by destruct (EncodeToString sum)).
  cbn [head default tail]. rewrite TrimSpace_trimmed by by apply word_trimmed. unfold id.
  rewrite hex_decode_encode by (done || by rewrite H32).
  rewrite H32. change (zeroes (32 - 32)) with (@nil Z). rewrite app_nil_r, allowed_digests by done.
  case_bool_decide; done.
Qed.

End verify.

(** ** Witnesses *)
(** A stand-in for the digest: the sum of the bytes, in 32 bytes. *)
Definition sum_digest (x : bytes) : bytes := u8 (fold_left Z.add x 0) :: zeroes 31.

Lemma sum_digest_length x : length (sum_digest x) = 32%nat.
Proof. done. Qed.
Lemma sum_digest_bytes x : Forall is_byte (sum_digest x).
Proof. unfold sum_digest. constructor; [unfold is_byte, wrap; apply Z.mod_pos_bound; lia|]. apply Forall_forall. intros y [-> _]%elem_of_replicate. unfold is_byte. lia. Qed.

Definition example_install (program : Z) (seal_file : bytes) : system :=
  mk_system (Some (bs "/opt/fz"))
    (λ p, Some (if bool_decide (p = bs "/opt/fz") then [program] else if bool_decide (p = bs "/opt/.fz_seal") then seal_file else p))
    (Some (bs "m1")) (Some [])
    (λ p, if bool_decide (p = bs "/opt") then Some (Directory [(bs "fz", RegularFile); (bs "lib", Directory [(bs "a", RegularFile)])]) else None)
    (λ _ _, false) (λ _, true) (λ _, true).
Definition example_seal : bytes := default [] (Seal sum_digest (example_install 7 []) (init_seal 4)).1.2.

Lemma journal_window_witness :
  let s := init_seal 4 in
  let evs := [[1; 2; 3]; [4; 5; 6]] in
  let s' := fold_left (λ s d, JournalEvent sum_digest d s) evs s in
  journalBuf s' = [5; 6; 3; 4] ∧
  ((∀ p b, concat evs !! p = Some b → (length (concat evs) ≤ p + length (journalBuf s))%nat →
     journalBuf s' !! (p mod length (journalBuf s))%nat = Some b)
  ∧ globalState s' = fold_left (λ g d, if nilb d then g else sum_digest (g ++ d)) evs (globalState s)).
Proof.
  split; [vm_compute; reflexivity|]. apply (journal_window sum_digest (init_seal 4) [[1; 2; 3]; [4; 5; 6]]).
  - exists (2 ^ 30). reflexivity.
  - cbn. lia.
  - discriminate.
  - reflexivity.
  - repeat constructor.
Defined.


(** The three lines: that of the seal file has the digest of the first line. *)
Example example_seal_text :
  example_seal = seal_text (sum_digest (sum_digest [7] ++ bs "m1"))
    [sum_digest (seal_text (sum_digest (sum_digest [7] ++ bs "m1")) [] []); sum_digest [7]; sum_digest (bs "/opt/lib/a")]
    [bs "/opt/.fz_seal"; bs "/opt/fz"; bs "/opt/lib/a"].
Proof. vm_compute. reflexivity. Qed.

(** ** Findings *)
(** The digests of the files are not covered by the digest that is checked: a
    line added to the seal file allows any file. *)
Lemma Verify_unauthenticated :
  let evil := EncodeToString (sum_digest (bs "evil")) in
  let r := Verify sum_digest (example_install 7 (example_seal ++ evil ++ [10])) (init_seal 4) in
  r.2 = Ok true ∧ IsAllowedHex evil r.1 = true.
Proof. vm_compute. done. Qed.

(** More than 64 digits in the first line are written behind the 32 bytes. *)
Lemma Verify_long_digest : (Verify sum_digest (example_install 7 (replicate 66 48)) (init_seal 4)).2 = Panic.
Proof. vm_compute. done. Qed.

(** A program that is traced accepts any seal, and says that it is sealed. *)
Lemma Verify_traced blake3 sys s : sealed s = false → traced sys = true → Verify blake3 sys s = (triggerDecoy s, Ok true).
Proof. intros Hs Ht. unfold Verify. by rewrite Hs, Ht. Qed.

(** The seal file is walked while it is written: its line is the digest of the
    lines before it, which is not the digest of the file that is left. *)
Lemma Seal_digests_itself :
  let st := (Verify sum_digest (example_install 7 example_seal) (init_seal 4)).1 in
  IsAllowedHex (EncodeToString (sum_digest example_seal)) st = false
  ∧ IsAllowedHex (EncodeToString (sum_digest (take 65 example_seal))) st = true.
Proof. vm_compute. done. Qed.
